(* ===== verification/_CoqProject ===== *)
-Q . S2P
Prelude.v
Text.v
Json.v
TimeUtil.v
Types.v
Identity.v
Registry.v
RegistryValidate.v
RegistryFacts.v
Database.v
Model.v
Repository.v
Projection.v
ProjectionFacts.v
StoreHistory.v
ManualTasks.v
ManualTasksFacts.v
Deadlines.v
Campaign.v
CampaignFacts.v
BatchFacts.v
Consent.v
ConsentFacts.v
Confirmation.v
MailParse.v
Hwm.v
Inbox.v
InboxFacts.v
Triage.v
TriageFacts.v
Encryption.v
EncryptionFacts.v
Disk.v
DiskFacts.v
Locking.v
Transition.v
PublishFacts.v
TransitionFacts.v
Schema.v
EncryptedStore.v
StoreLifecycle.v
LifecycleMoves.v
LifecycleFacts.v
CloseFacts.v
LockingFacts.v
LifecycleWitness.v
JsonText.v
ProfileJson.v
CursorFacts.v
ReduceFacts.v
Keyring.v
SecretResolve.v
ProfileStore.v
ProfileFacts.v
ProfileSave.v
IdentityWitness.v
Scheduler.v
SchedulerFacts.v
SchedulerInstall.v
SchedulerInstallFacts.v
SchedulerFlow.v
SchedulerWitness.v
McpScan.v
McpScanFacts.v
McpValueFacts.v
McpTools.v
McpProtocol.v
McpStream.v
McpEscapeFacts.v
McpProtocolFacts.v
McpWitness.v
Redaction.v
RedactionFacts.v
Workspace.v
Configuration.v
ConfigurationFacts.v
RegistryLoad.v
RegistryLoadFacts.v
RegistrySync.v
OAuth.v
