(* ===== verification/Prelude.v ===== *)
(** * Symaira EraseMe: a verification library for the removal engine

    The program plans data-removal requests against a registry of brokers, sends
    them by mail or web form, keeps an append-only event log per request, projects
    it to a status, reminds and escalates by the calendar, reads replies, and asks
    for the user's consent before anything destructive.  This library models the
    Rust crate [symeraseme-core] (paths below are under
    [crates/symeraseme-core/src]), the scheduler of [symeraseme-engine] and the MCP
    protocol of [symeraseme-cli] as executable Gallina and proves what makes each
    part correct.

    ** Files and what they model

    - [Prelude]: results, machine integers (64-bit values are [Z] with
      [wrap_i64]/[saturating_i64] written out), stable sorting, shared list lemmas,
      the hint database [erase].
    - [Text]: Rust's [str] operations on byte strings, with their laws.
    - [Json]: [serde_json::Value] with insertion-ordered maps; [jsonorder.rs].
    - [TimeUtil]: [timeutil.rs], the timestamp layouts over instants in nanoseconds.
    - [Types]: [storage/types.rs], rows and the closed event and source catalogues.
    - [Identity]: the profile of [identity/profile.rs], its canonical JSON and hash.
    - [Registry], [RegistryValidate], [RegistryFacts]: [registry/model.rs], [filter.rs], [validate.rs]: broker documents, the wire
      conversion, the YAML preflight and budgets, validation, filtering.
      [RegistryLoad], [RegistryLoadFacts]: [registry/loader.rs] and the directory walk of
      [validate.rs]; [RegistrySync]: [registry/sync.rs]: download, extraction,
      replacement with rollback.
    - [Database]: the tables of [storage/store.rs] and the statement monad [DB]:
      tables, files, the outbox of mails and a step counter are passed explicitly;
      [transaction] rolls back; the class [Env] says for every step whether it fails
      and what the clock shows, so each theorem covers every pattern of failures.
    - [Model]: concrete instances of the parameters, for the witnesses.
    - [Repository]: [storage/repository.rs]; a query is the
      relational meaning of its SQL text.
    - [Projection], [ProjectionFacts], [StoreHistory]: [storage/projection.rs]: appending, the replay fold, persisted projections and
      their rebuild; the reachable databases as a step relation.
    - [Deadlines]: [deadlines.rs]: the
      reminder, deadline, complaint and rescan rules, the tick and its application.
    - [ManualTasks], [ManualTasksFacts]: [manualtasks.rs]: redaction, the task queue,
      artifacts.
    - [Campaign], [CampaignFacts], [BatchFacts]: [campaign.rs]: planning, reading a plan, executing requests and batches; the
      mail sender is an argument, its calls are recorded in the outbox.
    - [Consent], [ConsentFacts]: [identity/consent.rs] and
      [gate.rs]: tokens as programs over single file system calls, run alone or
      interleaved with other processes.
    - [Confirmation]: [confirmation.rs]: confirmation links.
    - [MailParse]: [email/parse.rs]: header blocks, encoded words,
      dates, lossy UTF-8.
    - [Hwm]: [email/hwm.rs]: the trait of high-water-mark stores as a class with laws,
      the memory and the staging store as its instances.
    - [Inbox], [InboxFacts]: [email/policy.rs],
      [service.rs], [types.rs]: polling a folder or several, matching replies to
      requests, persisting replies before the marks are committed.
    - [Triage], [TriageFacts]: [triage_contract.rs],
      [triage_prompts.rs], [triage_service.rs]: reading a classifier's answer, prompts,
      classifying a request's newest reply; the language model is an argument.
    - [Encryption], [EncryptionFacts]: [storage/encryption.rs]: the envelope formats,
      key derivation, encrypting and decrypting.
    - [Disk], [DiskFacts]: the operating system under the at-rest code: inodes,
      directory entries, advisory locks, crashes and faults; [LockingFacts] and
      [Locking]: [storage/locking.rs].
    - [Transition], [PublishFacts], [TransitionFacts], [Schema], [EncryptedStore],
      [StoreLifecycle], [LifecycleMoves], [LifecycleFacts], [CloseFacts],
      [LifecycleWitness]: [storage/encrypted_store.rs] and the paths and schema of
      [store.rs]: opening, recovering, persisting, rolling back and closing the
      encrypted database, and migrating a plain one.
    - [JsonText], [ProfileJson], [CursorFacts], [ReduceFacts]: the JSON reader of
      [identity/profile.rs], against the JSON grammar as an inductive relation.
    - [Keyring]: [identity/keyring.rs], [secrets.rs]: the master key.
      [SecretResolve]: [identity/resolve.rs].
    - [ProfileStore], [ProfileFacts], [ProfileSave], [IdentityWitness]: loading,
      saving and creating the encrypted profile.
    - [Scheduler], [SchedulerFacts]: [scheduler/mod.rs], [cron.rs], [systemd.rs],
      [launchd.rs] of the crate [symeraseme-engine]: wrapper scripts, crontab lines,
      units and property lists.  [SchedulerInstall], [SchedulerInstallFacts],
      [SchedulerFlow], [SchedulerWitness]: [scheduler/install.rs]: writing the files
      and installing and removing them in the user's crontab, systemd or launchd.
    - [Redaction], [RedactionFacts]: [redaction/pii.rs], [review.rs]: rules, masks, the
      choice among overlapping matches, redaction and review; [Workspace]:
      [redaction/path.rs]: reading a file below the workspace.
    - [Configuration], [ConfigurationFacts]: [config.rs] and [email/config.rs].
    - [OAuth]: [email/oauth2.rs]: one-time states, authorization URLs, token requests.
    - [McpScan], [McpScanFacts], [McpValueFacts]: the byte scanner of
      [mcp/protocol.rs] (paths of the MCP files are under
      [crates/symeraseme-cli/src]) against the JSON grammar; [McpTools]: [mcp/envelope.rs],
      [tools_list.rs], [tools_call.rs]; [McpProtocol], [McpProtocolFacts],
      [McpEscapeFacts]: the request parser, the methods and the escaping of
      [mcp/protocol.rs]; [McpStream]: [mcp/stream.rs]; [McpWitness].

    How the parts interact: planning filters the registry ([Registry]), writes
    requests ([Repository]) and PLANNED events ([Projection]); executing reads the
    last event, sends, and appends SENT or SEND_FAILED, or opens a manual task; the
    tick reads the projected states and appends scheduler events; every append goes
    through [append_and_project].  The inbox polls into a staging store, hands the
    replies to the reply store and only then commits the marks.

    ** Parameters

    Code outside the repository is a type class: [Chrono] (layouts of chrono),
    [SerdeJson] (JSON text), [RustFmt] and [DbErrorFmt] (debug and error texts),
    [Env] (clock and failures), [Yaml] (scanner and decoder), [PiiRegex] (the two
    regular expressions), [TasksDir] (environment variables), [Sha256], [FloatFmt],
    [ConsentCodec] (serde form of a consent record, base64), [Host] (the machine a
    consent program runs on), [MailLib] (base64, chrono's calendar), [Base64],
    [Lowercase] (Unicode lower casing, its laws in [LowercaseLaws]), and the traits
    [ImapDialer] (dialer and session over the server's world) and [ReplyStore].  
    The at-rest code adds [Crypto] (Fernet's primitives, its laws in [CryptoLaws]),
    [Aead], [HexCodec], [Scrypt], [RandomBytes], [Disk.Env] (faults, clock, random
    numbers, listings), [ProcessEnv], [Sqlite] (a connection to a file, laws in
    [SqliteLaws]); the profile [SerdeSlice], [SerdeWriter] and [Utf8Lossy]; the secrets
    [KeyringBackend], [NativeKeyring], [SecretBackend] and [ChildProcess]; the
    scheduler [SchedulerHost] (paths, environment, commands), [CharLower], [TempFile]
    (laws in [TempFileLaws]), [ProcessOutput], [Runner] and [CrontabOf].
    Redaction adds [RegexEngine] (laws in [RegexLaws], a concrete engine in the module
    [Engine] of [Redaction]), the workspace [CapFs] (laws in [CapLaws], a concrete tree
    in [Tree]); the configuration [Toml] and [ConfigFiles]; the registry [LoadEnv] and
    [MetadataJson] (the tree itself is a value), [TarGz], [UriParse], [SyncTransport]
    and [SyncEnv] (faults, and what a failing removal leaves); the MCP server the tools
    of its catalogue, the tool handler as a function on a world of its own, the reads
    of its input as a list, and an oracle for failing writes.
    OAuth adds [StateJson] (laws in [StateJsonLaws], a concrete format in the module
    [Concrete] of [OAuth]), [Pkce], [OAuthEnv] (faults, clock, random bytes) and the
    token endpoint.
    Theorems that need a law of a parameter state it as
    a hypothesis at the values they use, and their witnesses instantiate it.

    ** What the theorems show

    - Event store: an append is atomic and leaves the request's row equal to the
      replay of its log; the replay is the declarative last-event-wins state; what
      is appended is read back; on every reachable database a stale row is seen as
      stale, so the rebuild repairs all of them.
    - Queries: batch reads agree with single reads, pages neither skip nor repeat,
      counts agree with lists.
    - Tick: the due requests and nothing else produce actions, applying them records
      exactly those, repeated ticks at one instant end, the back-off doubles.
    - Registry: a document is accepted exactly when it satisfies the declarative
      contract, after bounded work, whatever the input; filtering is a conjunction;
      loading a directory gives exactly the brokers of its documents; extraction stays
      below the staging directory and within its limits; an update cannot lose the
      registry, whatever fails and wherever the process dies.
    - Tasks: creation is atomic and idempotent, completion closes one task, cleanup
      removes artifacts only, no profile value survives redaction.
    - Campaign: a plan creates one request, event and line per selected broker; a
      mail is handed over at most once per run and its outcome recorded; a batch is
      bounded, total, and silent in a dry run; form answers are cut to an allowlist
      of bounded, redacted texts.
    - Consent: under every interleaving an issued token is good for one use; the gate
      passes only on an explicit yes or on an unexpired record of that very command.
    - Links: exactly the allowlisted links of the text, once each, in order.
    - Inbox: a mark never passes a message that was not handled; replies are persisted
      before any mark moves; no credential survives in an error; a reply, however often
      answered or forwarded, is matched to its request; bodies are well-formed UTF-8.
    - Triage: whatever a language model answers, the result is one of eight labels with
      a bounded confidence and summary; a saved classification marks the newest open
      reply and records one event.
    - At rest: what is encrypted is decrypted again and nothing else is accepted;
      replacing a file, persisting, migrating and closing leave after a crash at any
      step the old or the new content, and no plain text under a name another user may
      read; two processes never hold the database at once.
    - Profile: the reader accepts exactly the JSON texts Go's reader accepts and
      reads the same fields; a saved profile is loaded back; a failed creation leaves
      no trace; the snapshot hash depends on the profile's value only.
    - Keys and secrets: an existing master key is never replaced; a reference is
      resolved in the documented order; an error never shows a secret; a command that
      hangs is killed in time.
    - Scheduler: a shell reads a generated wrapper back as the very command; files are
      written below the chosen directory only; installing into a crontab and removing
      again restores it; units of others are never overwritten.
    - Redaction: exactly a set of disjoint matches that covers everything found is
      replaced; a mask keeps the few bytes it is documented to keep; reviewing with yes
      to everything is redacting; what is read lies in the workspace.
    - Configuration: the last source decides every field; resolved paths are absolute
      and clean; errors show none of the values; one credential is configured for mail.
    - OAuth: an authorization state is accepted no more often than it was issued, by
      one process at a time; a form decodes to the fields that were meant; a server's
      words reach no error.
    - MCP: the scanner accepts exactly the prefixes of JSON texts and finds their end;
      both ways of framing give the same answers; escaping keeps what the strings
      decode to; a tool is called only with arguments its schema allows.

    ** Bounds and fuel

    Loops that are not structural carry fuel: the two stack loops of the registry
    use the size of the document, [chunks_fuel] the length of the list, the link scan
    one more than the length of the text, [trim_start_fuel] the length of the text,
    [decode_words] and [normalize_loop] one more than the length of the text, the
    cursor loops of [ProfileJson] one more than the input, [reduce_fuel] twice its
    length, [poll_fuel] the number of polls before the time limit.  In the MCP files
    [scan_json_value] has twice the input plus two, [decode_loop], [fields_loop] and
    [stream_loop] one more than the input, [serve_stdio] the bytes and reads plus three;
    in [Redaction] [stretch_loop] has one more than the input; [collect_yaml] two more
    than the depth the code allows.
    The theorems state the result itself, so the fuel is shown to suffice.

    ** Assumptions about SQLite

    Statements are atomic; a scan is in row id order and sorting is stable; text
    compares by bytes; AUTOINCREMENT ids grow by one; the size limits of SQLite are
    not modelled.

    ** The crash model

    A disk has inodes and names.  A name changes durably when its directory is synced
    and a file's bytes when the file is; [after_crash] says what each name may hold
    after a crash, new directories included.  Every call may fail with any error and a
    failing write may have written a prefix; the world keeps the disk after every step,
    so a statement about every crash point is one about the recorded disks.  Symbolic
    links, hard links made by others, and concurrent writers outside the locks are not
    part of it.

    ** Not modelled

    The network clients (the IMAP client behind the session trait, SMTP, TLS, HTTP and
    the language model) and HTTP serving of MCP ([mcp/http.rs]) are input and output
    around third-party protocols.  Templates ([templating.rs]) are rendered by a
    third-party engine.  The command line ([cli.rs], [command_surface.rs]) and the tool
    handlers ([mcp/handler.rs]) are argument parsing and formatting around the operations
    modelled here.  The reports ([reporting.rs]), the rebuttals, the migration from the
    older data layout and [version.rs] are left out. *)

From Stdlib Require Export ZArith Lia Sorted.
From stdpp Require Export base tactics list gmap strings pretty option numbers sorting.

#[global] Set Default Goal Selector "!".
#[global] Open Scope Z_scope.

Create HintDb erase.

(* ------------------------------------------------------------------ *)
(** ** Results *)

(** Rust's [Result<A, E>]. *)
Inductive result (E A : Type) : Type :=
| Ok (a : A)
| Err (e : E).
Arguments Ok {E A} a.
Arguments Err {E A} e.

#[export] Instance result_ret E : MRet (result E) := @Ok E.
#[export] Instance result_bind E : MBind (result E) :=
  λ A B f m, match m with Ok a => f a | Err e => Err e end.

#[export] Instance result_fmap E : FMap (result E) :=
  λ A B f m, match m with Ok a => Ok (f a) | Err e => Err e end.

#[export] Instance result_eq_dec E A `{EqDecision E, EqDecision A} :
  EqDecision (result E A).
Proof. intros x y. unfold Decision. decide equality; apply decide; apply _. Defined.

Definition map_err {E F A} (f : E → F) (m : result E A) : result F A :=
  match m with Ok a => Ok a | Err e => Err (f e) end.

(** [Result::ok]. *)
Definition ok {E A} (m : result E A) : option A :=
  match m with Ok a => Some a | Err _ => None end.

(** [Option::ok_or]. *)
Definition ok_or {E A} (e : E) (m : option A) : result E A :=
  match m with Some a => Ok a | None => Err e end.

Definition is_ok {E A} (m : result E A) : bool :=
  match m with Ok _ => true | Err _ => false end.

(** [if c { return Err(e) }]. *)
Definition fail_if {E} (c : bool) (e : E) : result E () :=
  if c then Err e else Ok ().

Lemma fail_if_ok {E} (c : bool) (e : E) : fail_if c e = Ok () ↔ c = false.
Proof. destruct c; simpl; naive_solver. Qed.

Lemma result_bind_ok {E A B} (f : A → result E B) m b :
  (m ≫= f) = Ok b ↔ ∃ a, m = Ok a ∧ f a = Ok b.
Proof. destruct m; simpl; naive_solver. Qed.

Lemma map_err_ok {E F A} (f : E → F) (m : result E A) a :
  map_err f m = Ok a ↔ m = Ok a.
Proof. destruct m; simpl; naive_solver. Qed.

(** Decomposes a successful chain of [?]-steps found in the context. *)
Ltac inv_ok :=
  repeat match goal with
  | H : Ok _ = Ok _ |- _ => injection H as H
  | H : Ok _ = Err _ |- _ => discriminate H
  | H : Err _ = Ok _ |- _ => discriminate H
  | H : (_ ≫= _) = Ok _ |- _ =>
      let a := fresh "a" in apply result_bind_ok in H as (a & ? & H)
  | H : fail_if _ _ = Ok ?u |- _ => destruct u; apply fail_if_ok in H
  | H : map_err _ _ = Ok _ |- _ => apply map_err_ok in H
  end.

(** Every error of a step satisfies [P]. *)
Definition fails_with {E A} (P : E → Prop) (m : result E A) : Prop := ∀ e, m = Err e → P e.

Lemma fails_bind {E A B} (P : E → Prop) (m : result E A) (f : A → result E B) :
  fails_with P m → (∀ a, fails_with P (f a)) → fails_with P (m ≫= f).
Proof. intros Hm Hf e. destruct m as [a|x]; simpl; [apply Hf|]. intros [= ->]. by apply Hm. Qed.

Lemma fails_ok {E A} (P : E → Prop) (a : A) : fails_with P (Ok a).
Proof. done. Qed.

Lemma fails_err {E A} (P : E → Prop) e : P e → fails_with P (Err e : result E A).
Proof. by intros He e' [= <-]. Qed.

#[export] Hint Resolve fails_bind fails_ok fails_err : erase.

(* ------------------------------------------------------------------ *)
(** ** Machine integers *)

Definition i64_min : Z := -9223372036854775808.
Definition i64_max : Z := 9223372036854775807.
Definition u64_max : Z := 18446744073709551615.
Definition u32_max : Z := 4294967295.

Definition in_i64 (z : Z) : Prop := i64_min ≤ z ≤ i64_max.

(** Two's-complement reduction to 64 bits: [wrapping_add], [wrapping_mul],
    [as i64]. *)
Definition wrap_i64 (z : Z) : Z := (z + 2 ^ 63) mod 2 ^ 64 - 2 ^ 63.

(** [as u64] of an [i64]. *)
Definition as_u64 (z : Z) : Z := z mod 2 ^ 64.

(** [i64::saturating_add]. *)
Definition saturating_i64 (z : Z) : Z := Z.max i64_min (Z.min i64_max z).

Lemma wrap_i64_id z : in_i64 z → wrap_i64 z = z.
Proof.
  unfold in_i64, i64_min, i64_max, wrap_i64. intros H.
  rewrite Z.mod_small; lia.
Qed.

Lemma wrap_i64_range z : in_i64 (wrap_i64 z).
Proof.
  unfold in_i64, i64_min, i64_max, wrap_i64.
  pose proof (Z.mod_pos_bound (z + 2 ^ 63) (2 ^ 64) ltac:(lia)). lia.
Qed.

Lemma as_u64_id z : 0 ≤ z < 2 ^ 64 → as_u64 z = z.
Proof. apply Z.mod_small. Qed.

Lemma saturating_i64_range z : in_i64 (saturating_i64 z).
Proof. unfold in_i64, saturating_i64, i64_min, i64_max. lia. Qed.

#[export] Hint Resolve wrap_i64_range saturating_i64_range : erase.

(* ------------------------------------------------------------------ *)
(** ** Stable sorting ([slice::sort_by]) *)

Section sort.
Context {A : Type} (le : A → A → bool).

Fixpoint sort_insert (x : A) (l : list A) : list A :=
  match l with
  | [] => [x]
  | y :: l' => if le x y then x :: y :: l' else y :: sort_insert x l'
  end.

(** Insertion from the right: an element is placed before the first later
    one it is not greater than, so equal elements keep their order. *)
Fixpoint sort_by (l : list A) : list A :=
  match l with
  | [] => []
  | x :: l' => sort_insert x (sort_by l')
  end.

Lemma sort_insert_Permutation x l : sort_insert x l ≡ₚ x :: l.
Proof.
  induction l as [|y l IH]; simpl; [done|].
  destruct (le x y); [done|]. rewrite IH. apply Permutation_swap.
Qed.

Lemma sort_by_Permutation l : sort_by l ≡ₚ l.
Proof.
  induction l as [|x l IH]; simpl; [done|].
  by rewrite sort_insert_Permutation, IH.
Qed.

Lemma sort_by_length l : length (sort_by l) = length l.
Proof. by rewrite (Permutation_length (sort_by_Permutation l)). Qed.

Lemma elem_of_sort_by x l : x ∈ sort_by l ↔ x ∈ l.
Proof. by rewrite sort_by_Permutation. Qed.

Lemma sort_insert_head x l :
  Forall (λ y, le x y = true) l → sort_insert x l = x :: l.
Proof. destruct 1 as [|y l Hy]; simpl; [done|]. by rewrite Hy. Qed.

Section order.
Context (le_total : ∀ x y, le x y = true ∨ le y x = true).
Context (le_trans : ∀ x y z, le x y = true → le y z = true → le x z = true).

Lemma sort_insert_StronglySorted x l :
  StronglySorted (λ a b, le a b = true) l →
  StronglySorted (λ a b, le a b = true) (sort_insert x l).
Proof using le_total le_trans.
  induction 1 as [|y l Hs IH Hy]; simpl; [by repeat constructor|].
  destruct (le x y) eqn:Hxy.
  - constructor; [by constructor|]. constructor; [done|].
    eapply Forall_impl; [done|]. simpl. eauto.
  - constructor; [done|].
    rewrite sort_insert_Permutation. constructor; [|done].
    destruct (le_total x y); [congruence|done].
Qed.

Lemma sort_by_StronglySorted l : StronglySorted (λ a b, le a b = true) (sort_by l).
Proof using le_total le_trans.
  induction l; simpl; [constructor|]. by apply sort_insert_StronglySorted.
Qed.

Lemma sort_insert_filter (P : A → Prop) `{∀ x, Decision (P x)} x l :
  StronglySorted (λ a b, le a b = true) l →
  filter P (sort_insert x l) =
  if decide (P x) then sort_insert x (filter P l) else filter P l.
Proof using le_total le_trans.
  induction 1 as [|y l Hs IH Hy]; simpl; [by rewrite filter_cons|].
  destruct (le x y) eqn:Hxy.
  - rewrite filter_cons. destruct (decide (P x)); [|done].
    symmetry. apply sort_insert_head, Forall_forall.
    intros z [_ [->|Hz]%elem_of_cons]%list_elem_of_filter; [done|].
    rewrite Forall_forall in Hy. eauto.
  - rewrite !filter_cons, IH. destruct (decide (P x)), (decide (P y)); simpl;
      rewrite ?Hxy; done.
Qed.

(** Filtering and stable sorting commute. *)
Lemma filter_sort_by (P : A → Prop) `{∀ x, Decision (P x)} l :
  filter P (sort_by l) = sort_by (filter P l).
Proof using le_total le_trans.
  induction l as [|x l IH]; simpl; [done|].
  rewrite sort_insert_filter by apply sort_by_StronglySorted.
  rewrite filter_cons, IH. by destruct (decide (P x)).
Qed.
End order.

Lemma sort_by_id l : StronglySorted (λ a b, le a b = true) l → sort_by l = l.
Proof.
  induction 1 as [|x l Hs IH Hx]; simpl; [done|]. rewrite IH.
  destruct l as [|y l]; simpl; [done|]. by rewrite (Forall_inv Hx).
Qed.
End sort.

Lemma sort_insert_fmap {A B} (leA : A → A → bool) (leB : B → B → bool) (f : A → B) x l :
  (∀ a b, leB (f a) (f b) = leA a b) →
  sort_insert leB (f x) (f <$> l) = f <$> sort_insert leA x l.
Proof.
  intros Hle. induction l as [|y l IH]; csimpl; [done|].
  rewrite Hle. destruct (leA x y); [done|]. csimpl. by rewrite IH.
Qed.

Lemma sort_by_fmap {A B} (leA : A → A → bool) (leB : B → B → bool) (f : A → B) l :
  (∀ a b, leB (f a) (f b) = leA a b) →
  sort_by leB (f <$> l) = f <$> sort_by leA l.
Proof.
  intros Hle. induction l as [|x l IH]; csimpl; [done|].
  rewrite IH. by apply sort_insert_fmap.
Qed.

(* ------------------------------------------------------------------ *)
(** ** Lists *)

Lemma Forall_mp {A} (P Q : A → Prop) l :
  Forall (λ x, P x → Q x) l → Forall P l → Forall Q l.
Proof. induction 1; inversion 1; subst; constructor; auto. Qed.

Lemma Forall_map_mp {A B} (P : A → Prop) (Q : B → Prop) (f : A → B) l :
  Forall (λ x, P x → Q (f x)) l → Forall P l → Forall Q (List.map f l).
Proof. induction 1; inversion 1; subst; constructor; auto. Qed.

(** [Iterator::find_map]. *)
Fixpoint first_some {A B} (f : A → option B) (l : list A) : option B :=
  match l with
  | [] => None
  | x :: l' => match f x with Some y => Some y | None => first_some f l' end
  end.

Lemma first_some_Some {A B} (f : A → option B) l y :
  first_some f l = Some y → ∃ x, x ∈ l ∧ f x = Some y.
Proof.
  induction l as [|x l IH]; simpl; [done|].
  destruct (f x) eqn:E; [intros [= ->]; exists x; set_solver|]. intros ?%IH. set_solver.
Qed.

Lemma first_some_None {A B} (f : A → option B) l :
  first_some f l = None ↔ Forall (λ x, f x = None) l.
Proof.
  induction l as [|x l IH]; simpl; [by split|].
  rewrite Forall_cons, <-IH. destruct (f x); naive_solver.
Qed.

(** The last value [f] gives on a list. *)
Definition last_some {A B} (f : A → option B) (l : list A) : option B := last (omap f l).

Lemma last_some_snoc {A B} (f : A → option B) l x :
  last_some f (l ++ [x]) = match f x with Some y => Some y | None => last_some f l end.
Proof.
  unfold last_some. rewrite omap_app. simpl. destruct (f x); simpl.
  - apply last_snoc.
  - by rewrite app_nil_r.
Qed.

Lemma existsb_elem {A} (p : A → bool) l : existsb p l = true ↔ ∃ x, x ∈ l ∧ p x = true.
Proof. rewrite existsb_exists. setoid_rewrite list_elem_of_In. done. Qed.

Lemma lookup_list_to_map_const {A} (x : A) (ids : list Z) id :
  id ∈ ids → (list_to_map ((λ i, (i, x)) <$> ids) : gmap Z A) !! id = Some x.
Proof.
  induction ids as [|i ids IH]; [by intros ?%elem_of_nil|].
  intros Hid. csimpl. destruct (decide (i = id)) as [->|Hne]; [apply lookup_insert_eq|].
  rewrite lookup_insert_ne by done. apply IH. set_solver.
Qed.
