(* ===== verification/Text.v ===== *)
(** * Text: the byte-level string operations of the Rust standard library

    A Rust [String] is its UTF-8 bytes, here a [string] (one [ascii] per
    byte).  The operations below are the ones the modelled sources call;
    [RustFmt] stands for the [{:?}] rendering of a string, which theorems never
    look into. *)
From S2P Require Import Prelude.
From Stdlib Require Export Ascii String.
From stdpp Require Import strings pretty.

#[global] Arguments String.append !_ _ / : simpl nomatch.
#[global] Open Scope string_scope.
#[global] Open Scope list_scope.
#[global] Open Scope Z_scope.

(** The [Debug] rendering of a string. *)
Class RustFmt := { debug_str : string → string }.

(** Unicode's lower casing ([str::to_lowercase]). *)
Class Lowercase := { to_lowercase : string → string }.

Notation "s =? t" := (String.eqb s t) : string_scope.

Definition str_in (s : string) (l : list string) : bool :=
  existsb (String.eqb s) l.

Lemma str_in_spec s l : str_in s l = true ↔ s ∈ l.
Proof.
  unfold str_in. rewrite existsb_exists, list_elem_of_In. split.
  - intros (x & Hx & ->%String.eqb_eq). done.
  - intros Hx. exists s. split; [done|]. apply String.eqb_refl.
Qed.

Definition is_empty (s : string) : bool := match s with EmptyString => true | _ => false end.

Lemma is_empty_spec s : is_empty s = true ↔ s = "".
Proof. destruct s; naive_solver. Qed.

Lemma is_empty_false s : is_empty s = false ↔ s ≠ "".
Proof. by destruct s. Qed.

(** [str::len]: the number of bytes. *)
Definition len (s : string) : Z := Z.of_nat (String.length s).

Fixpoint str_forallb (p : ascii → bool) (s : string) : bool :=
  match s with "" => true | String c s' => p c && str_forallb p s' end.

Fixpoint str_map (f : ascii → ascii) (s : string) : string :=
  match s with "" => "" | String c s' => String (f c) (str_map f s') end.

Definition str_existsb (p : ascii → bool) (s : string) : bool :=
  negb (str_forallb (λ c, negb (p c)) s).

(** ** Prefixes, suffixes, searching *)

Fixpoint strip_prefix (p s : string) : option string :=
  match p, s with
  | "", _ => Some s
  | String a p', String b s' => if Ascii.eqb a b then strip_prefix p' s' else None
  | String _ _, "" => None
  end.

Definition starts_with (p s : string) : bool :=
  match strip_prefix p s with Some _ => true | None => false end.

Fixpoint str_rev_app (s acc : string) : string :=
  match s with "" => acc | String c s' => str_rev_app s' (String c acc) end.

Definition str_rev (s : string) : string := str_rev_app s "".

Definition strip_suffix (p s : string) : option string :=
  str_rev <$> strip_prefix (str_rev p) (str_rev s).

Definition ends_with (p s : string) : bool :=
  match strip_suffix p s with Some _ => true | None => false end.

(** [str::contains] of a string pattern. *)
Fixpoint contains (p s : string) : bool :=
  starts_with p s || match s with "" => false | String _ s' => contains p s' end.

(** [str::split_once] and [str::rsplit_once] of a one-byte separator. *)
Fixpoint split_once (c : ascii) (s : string) : option (string * string) :=
  match s with
  | "" => None
  | String x s' =>
      if Ascii.eqb x c then Some ("", s')
      else match split_once c s' with
           | Some (a, b) => Some (String x a, b)
           | None => None
           end
  end.

Fixpoint rsplit_once (c : ascii) (s : string) : option (string * string) :=
  match s with
  | "" => None
  | String x s' =>
      match rsplit_once c s' with
      | Some (a, b) => Some (String x a, b)
      | None => if Ascii.eqb x c then Some ("", s') else None
      end
  end.

(** [str::replace] of a non-empty pattern: leftmost, non-overlapping.  The
    counter skips the rest of an occurrence that has been replaced. *)
Fixpoint replace_go (from to : string) (skip : nat) (s : string) : string :=
  match s with
  | "" => ""
  | String c s' =>
      match skip with
      | S k => replace_go from to k s'
      | O => if starts_with from s
             then to +:+ replace_go from to (String.length from - 1) s'
             else String c (replace_go from to 0 s')
      end
  end.

Definition str_replace (from to s : string) : string := replace_go from to 0 s.

(** [lines.join(sep)] and [str::split] of a one-byte separator. *)
Fixpoint join (sep : string) (l : list string) : string :=
  match l with
  | [] => ""
  | [s] => s
  | s :: l' => s +:+ sep +:+ join sep l'
  end.

Fixpoint split (c : ascii) (s : string) : list string :=
  match s with
  | "" => [""]
  | String x s' =>
      if Ascii.eqb x c then "" :: split c s'
      else match split c s' with
           | h :: t => String x h :: t
           | [] => [String x ""]
           end
  end.

(** The text after and before a position. *)
Fixpoint str_drop (n : nat) (s : string) : string :=
  match n, s with
  | S n, String _ s => str_drop n s
  | _, _ => s
  end.

Fixpoint str_take (n : nat) (s : string) : string :=
  match n, s with
  | S n, String c s => String c (str_take n s)
  | _, _ => ""
  end.

(** ** Character classes *)

Definition byte_in (lo hi : nat) (c : ascii) : bool :=
  Nat.leb lo (nat_of_ascii c) && Nat.leb (nat_of_ascii c) hi.

Definition is_ascii_digit : ascii → bool := byte_in 48 57.
Definition is_ascii_uppercase : ascii → bool := byte_in 65 90.
Definition is_ascii_lowercase : ascii → bool := byte_in 97 122.
Definition is_ascii_alphabetic (c : ascii) : bool :=
  is_ascii_uppercase c || is_ascii_lowercase c.
Definition is_ascii_hexdigit (c : ascii) : bool :=
  is_ascii_digit c || byte_in 65 70 c || byte_in 97 102 c.

Definition to_ascii_lower (c : ascii) : ascii :=
  if is_ascii_uppercase c then ascii_of_nat (nat_of_ascii c + 32) else c.

Definition to_ascii_lowercase (s : string) : string := str_map to_ascii_lower s.

Definition b (n : nat) : ascii := ascii_of_nat n.

(** The UTF-8 encodings of the Unicode [White_Space] characters. *)
Definition whitespace : list string :=
  [ String (b 9) ""; String (b 10) ""; String (b 11) ""; String (b 12) "";
    String (b 13) ""; String (b 32) "";
    String (b 194) (String (b 133) ""); String (b 194) (String (b 160) "");
    String (b 225) (String (b 154) (String (b 128) "")) ]
  ++ ((λ n, String (b 226) (String (b 128) (String (b n) ""))) <$>
        [128; 129; 130; 131; 132; 133; 134; 135; 136; 137; 138; 168; 169; 175]%nat)
  ++ [ String (b 226) (String (b 129) (String (b 159) ""));
       String (b 227) (String (b 128) (String (b 128) "")) ].

(** The length of the whitespace character a string starts with, or 0. *)
Definition ws_len (pats : list string) (s : string) : nat :=
  match List.find (λ p, starts_with p s) pats with
  | Some p => String.length p
  | None => 0%nat
  end.

Fixpoint trim_go (pats : list string) (skip : nat) (s : string) : string :=
  match s with
  | "" => ""
  | String _ s' =>
      match skip with
      | S k => trim_go pats k s'
      | O => match ws_len pats s with
             | S k => trim_go pats k s'
             | O => s
             end
      end
  end.

Definition trim_start (s : string) : string := trim_go whitespace 0 s.
Definition trim_end (s : string) : string :=
  str_rev (trim_go (str_rev <$> whitespace) 0 (str_rev s)).
(** [str::trim]. *)
Definition trim (s : string) : string := trim_end (trim_start s).

(** [str::contains(char::is_whitespace)]. *)
Fixpoint contains_whitespace (s : string) : bool :=
  negb (Nat.eqb (ws_len whitespace s) 0)
  || match s with "" => false | String _ s' => contains_whitespace s' end.

(** [char::is_control]: C0, DEL and C1 (the latter is [C2 80]..[C2 9F]). *)
Fixpoint contains_control (s : string) : bool :=
  match s with
  | "" => false
  | String c s' =>
      byte_in 0 31 c || byte_in 127 127 c
      || (byte_in 194 194 c && match s' with String d _ => byte_in 128 159 d | "" => false end)
      || contains_control s'
  end.

(** ** Integers in text *)

Definition digit_value (c : ascii) : Z := Z.of_nat (nat_of_ascii c) - 48.

Fixpoint digits_value (acc : Z) (s : string) : Z :=
  match s with "" => acc | String c s' => digits_value (acc * 10 + digit_value c) s' end.

(** [str::parse] of a decimal integer in [lo..hi]; a sign is accepted when the
    type has it, [+] always. *)
Definition parse_int (lo hi : Z) (s : string) : option Z :=
  let digits (sign : Z) (t : string) :=
    if negb (is_empty t) && str_forallb is_ascii_digit t then
      let v := sign * digits_value 0 t in
      if (lo <=? v) && (v <=? hi) then Some v else None
    else None in
  match s with
  | "" => None
  | String c t =>
      if Ascii.eqb c "-" then (if lo <? 0 then digits (-1) t else None)
      else if Ascii.eqb c "+" then digits 1 t
      else digits 1 s
  end.

Definition parse_i64 : string → option Z := parse_int i64_min i64_max.
Definition parse_u32 : string → option Z := parse_int 0 u32_max.

(** [{n}] and [{n:02}] for integers. *)
Definition show (n : Z) : string := pretty n.

Definition pad2 (n : Z) : string :=
  let s := show n in if len s <? 2 then "0" +:+ s else s.

(** ** Order ([String]'s [Ord] is byte-lexicographic) *)

Definition str_leb (s t : string) : bool := String.leb s t.

(** [Path::join] on Unix. *)
Definition path_join (base path : string) : string :=
  if starts_with "/" path then path
  else if is_empty base || ends_with "/" base then base +:+ path
  else base +:+ "/" +:+ path.

(** ** Facts *)

Lemma strip_prefix_Some p s t : strip_prefix p s = Some t ↔ s = p +:+ t.
Proof.
  revert s. induction p as [|a p IH]; intros s; simpl; [naive_solver|].
  destruct s as [|c s]; [naive_solver|].
  destruct (Ascii.eqb_spec a c) as [->|Hne]; [rewrite IH; cbn; split; congruence|cbn].
  split; congruence.
Qed.

Lemma starts_with_spec p s : starts_with p s = true ↔ ∃ t, s = p +:+ t.
Proof.
  unfold starts_with. destruct (strip_prefix p s) as [t|] eqn:E.
  - apply strip_prefix_Some in E as ->. split; eauto.
  - split; [done|]. intros [t Ht%strip_prefix_Some]. congruence.
Qed.

Lemma starts_with_app p s : starts_with p (p +:+ s) = true.
Proof. apply starts_with_spec. eauto. Qed.

Lemma contains_spec p s : contains p s = true ↔ ∃ u v, s = u +:+ p +:+ v.
Proof.
  induction s as [|c s IH]; simpl; rewrite orb_true_iff, starts_with_spec.
  - split; [intros [[t Ht]|]; [|done]; by exists "", t|].
    intros (u & v & Huv). left. destruct u; simpl in Huv; [eauto|done].
  - rewrite IH. split.
    + intros [[t Ht]|(u & v & ->)]; [by exists "", t|by exists (String c u), v].
    + intros ([|d u] & v & Huv); simpl in Huv; [left; eauto|].
      injection Huv as -> ->. right. eauto.
Qed.

Lemma string_app_assoc (s t u : string) : (s +:+ t) +:+ u = s +:+ (t +:+ u).
Proof. induction s as [|c s IH]; simpl; congruence. Qed.

Lemma string_app_nil_r (s : string) : s +:+ "" = s.
Proof. induction s as [|c s IH]; simpl; congruence. Qed.

Lemma string_length_app (s t : string) :
  String.length (s +:+ t) = (String.length s + String.length t)%nat.
Proof. induction s as [|c s IH]; simpl; congruence. Qed.

Lemma str_drop_app u s : str_drop (String.length u) (u +:+ s) = s.
Proof. induction u as [|c u IH]; [by destruct s|apply IH]. Qed.

Lemma str_drop_length n s : String.length (str_drop n s) = (String.length s - n)%nat.
Proof. revert s. induction n as [|n IH]; intros [|c s]; cbn; auto. Qed.

Lemma str_drop_piece n s : ∃ u, s = u +:+ str_drop n s.
Proof.
  revert s. induction n as [|n IH]; intros s; [by exists ""; destruct s|].
  destruct s as [|c s]; [by exists ""|].
  cbn. destruct (IH s) as [u Hu]. exists (String c u). cbn. by rewrite <-Hu.
Qed.

Lemma str_forallb_app p s t : str_forallb p (s +:+ t) = str_forallb p s && str_forallb p t.
Proof. induction s as [|c s IH]; simpl; [done|]. by rewrite IH, andb_assoc. Qed.

Lemma split_once_Some c s x y :
  split_once c s = Some (x, y) →
  s = x +:+ String c y ∧ str_forallb (λ d, negb (Ascii.eqb d c)) x = true.
Proof.
  revert x. induction s as [|d s IH]; intros x; simpl; [done|].
  destruct (Ascii.eqb d c) eqn:E.
  - apply Ascii.eqb_eq in E as ->. by intros [= <- <-].
  - destruct (split_once c s) as [[u v]|]; [|done]. intros [= <- <-].
    destruct (IH u eq_refl) as [-> Hu]. simpl. by rewrite E, Hu.
Qed.

Lemma split_once_app c x y :
  str_forallb (λ d, negb (Ascii.eqb d c)) x = true →
  split_once c (x +:+ String c y) = Some (x, y).
Proof.
  induction x as [|d x IH]; simpl; [by rewrite Ascii.eqb_refl|].
  intros [Hd Hx]%andb_true_iff. apply negb_true_iff in Hd. by rewrite Hd, IH.
Qed.

Lemma rsplit_once_Some c s x y :
  rsplit_once c s = Some (x, y) →
  s = x +:+ String c y ∧ str_forallb (λ d, negb (Ascii.eqb d c)) y = true.
Proof.
  assert (Hnone : ∀ s, rsplit_once c s = None →
    str_forallb (λ d, negb (Ascii.eqb d c)) s = true).
  { intros t. induction t as [|d t IH]; simpl; [done|].
    destruct (rsplit_once c t) as [[]|] eqn:Et; [done|].
    destruct (Ascii.eqb d c); [done|]. intros _. by apply IH. }
  revert x. induction s as [|d s IH]; intros x; simpl; [done|].
  destruct (rsplit_once c s) as [[u v]|] eqn:Es.
  - intros [= <- <-]. destruct (IH u eq_refl) as [-> Hu]. done.
  - destruct (Ascii.eqb d c) eqn:E; [|done].
    apply Ascii.eqb_eq in E as ->. intros [= <- <-]. auto.
Qed.

Lemma rsplit_once_None c s :
  str_forallb (λ d, negb (Ascii.eqb d c)) s = true → rsplit_once c s = None.
Proof.
  induction s as [|d s IH]; simpl; [done|]. rewrite andb_true_iff, negb_true_iff.
  intros [Hd Hs]. rewrite IH by done. by rewrite Hd.
Qed.

Lemma rsplit_once_app c x y :
  str_forallb (λ d, negb (Ascii.eqb d c)) y = true →
  rsplit_once c (x +:+ String c y) = Some (x, y).
Proof.
  intros Hy. induction x as [|d x IH]; simpl.
  - by rewrite rsplit_once_None, Ascii.eqb_refl.
  - by rewrite IH.
Qed.

(** ** Reversal *)

Lemma str_rev_app_spec s acc : str_rev_app s acc = str_rev s +:+ acc.
Proof.
  unfold str_rev. revert acc. induction s as [|c s IH]; intros acc; [done|].
  cbn [str_rev_app]. rewrite (IH (String c acc)), (IH (String c "")). by rewrite string_app_assoc.
Qed.

Lemma str_rev_cons c s : str_rev (String c s) = str_rev s +:+ String c "".
Proof. unfold str_rev at 1. cbn [str_rev_app]. apply str_rev_app_spec. Qed.

Lemma str_rev_append s t : str_rev (s +:+ t) = str_rev t +:+ str_rev s.
Proof.
  induction s as [|c s IH]; [by rewrite string_app_nil_r|].
  change (String c s +:+ t) with (String c (s +:+ t)). by rewrite !str_rev_cons, IH, string_app_assoc.
Qed.

Lemma str_rev_involutive s : str_rev (str_rev s) = s.
Proof. induction s as [|c s IH]; [done|]. by rewrite str_rev_cons, str_rev_append, IH. Qed.

Lemma ends_with_spec p s : ends_with p s = true ↔ ∃ t, s = t +:+ p.
Proof.
  unfold ends_with, strip_suffix. destruct (strip_prefix _ _) as [u|] eqn:E; cbn.
  - apply strip_prefix_Some in E. split; [intros _|done]. exists (str_rev u).
    by rewrite <- (str_rev_involutive s), E, str_rev_append, str_rev_involutive.
  - split; [done|]. intros [t ->]. rewrite str_rev_append in E.
    assert (Hs : strip_prefix (str_rev p) (str_rev p +:+ str_rev t) = Some (str_rev t))
      by by apply strip_prefix_Some. congruence.
Qed.

Lemma str_forallb_rev p s : str_forallb p (str_rev s) = str_forallb p s.
Proof.
  induction s as [|c s IH]; [done|]. rewrite str_rev_cons, str_forallb_app, IH. cbn.
  rewrite andb_true_r. apply andb_comm.
Qed.

Lemma contains_char_false c s :
  contains (String c "") s = false ↔ str_forallb (λ d, negb (Ascii.eqb d c)) s = true.
Proof.
  induction s as [|d s IH]; simpl; [done|].
  rewrite orb_false_iff, andb_true_iff, negb_true_iff, IH. f_equiv.
  unfold starts_with. simpl. rewrite Ascii.eqb_sym. destruct (Ascii.eqb d c); done.
Qed.

Lemma join_split c s : join (String c "") (split c s) = s.
Proof.
  assert (Hne : ∀ t, split c t ≠ []).
  { intros t. destruct t as [|d t]; simpl; [done|].
    destruct (Ascii.eqb d c); [done|]. by destruct (split c t). }
  induction s as [|d s IH]; simpl; [done|].
  destruct (Ascii.eqb d c) eqn:E.
  - apply Ascii.eqb_eq in E as ->. destruct (split c s) as [|h t] eqn:Es; [by destruct (Hne s)|].
    simpl in *. by rewrite <-IH.
  - destruct (split c s) as [|h [|h' t]] eqn:Es; [by destruct (Hne s)| |].
    + simpl in *. by rewrite IH.
    + simpl in *. by rewrite IH.
Qed.

Lemma split_join c l :
  l ≠ [] → Forall (λ s, str_forallb (λ d, negb (Ascii.eqb d c)) s = true) l →
  split c (join (String c "") l) = l.
Proof.
  assert (Hone : ∀ s, str_forallb (λ d, negb (Ascii.eqb d c)) s = true → split c s = [s]).
  { induction s as [|d s IH]; simpl; [done|]. intros [Hd Hs]%andb_true_iff.
    rewrite IH by done. by destruct (Ascii.eqb d c). }
  assert (Hcons : ∀ s t, str_forallb (λ d, negb (Ascii.eqb d c)) s = true →
    split c (s +:+ String c t) = s :: split c t).
  { induction s as [|d s IH]; intros t; simpl; [by rewrite Ascii.eqb_refl|].
    intros [Hd Hs]%andb_true_iff. rewrite IH by done. by destruct (Ascii.eqb d c). }
  intros Hl Hall. induction Hall as [|s l Hs Hall IH]; [done|].
  destruct l as [|s' l]; [by apply Hone|].
  change (join (String c "") (s :: s' :: l))
    with (s +:+ String c (join (String c "") (s' :: l))).
  rewrite Hcons by done. by rewrite IH.
Qed.

Lemma str_leb_total s t : str_leb s t = true ∨ str_leb t s = true.
Proof. unfold str_leb. destruct (String.leb_total s t); auto. Qed.

Lemma str_compare_trans s t u o :
  String.compare s t = o → String.compare t u = o → String.compare s u = o.
Proof.
  revert t u. induction s as [|a s IH]; intros [|c t] [|d u]; simpl; intros H1 H2; subst;
    try congruence.
  unfold Ascii.compare in *.
  destruct (N.compare_spec (N_of_ascii a) (N_of_ascii c)) as [E1|E1|E1],
           (N.compare_spec (N_of_ascii c) (N_of_ascii d)) as [E2|E2|E2];
  destruct (N.compare_spec (N_of_ascii a) (N_of_ascii d)) as [E3|E3|E3];
    try lia; try congruence; eauto.
Qed.

Lemma str_compare_le_trans s t u :
  String.compare s t ≠ Gt → String.compare t u ≠ Gt → String.compare s u ≠ Gt.
Proof.
  intros H1 H2.
  destruct (String.compare s t) eqn:E1; [|destruct (String.compare t u) eqn:E2|]; try done.
  - apply String.compare_eq_iff in E1 as ->. done.
  - apply String.compare_eq_iff in E2 as ->. by rewrite E1.
  - by rewrite (str_compare_trans _ _ _ _ E1 E2).
Qed.

Lemma str_leb_spec s t : str_leb s t = true ↔ String.compare s t ≠ Gt.
Proof. unfold str_leb, String.leb. destruct (String.compare s t); naive_solver. Qed.

Lemma str_leb_trans s t u : str_leb s t = true → str_leb t u = true → str_leb s u = true.
Proof. rewrite !str_leb_spec. apply str_compare_le_trans. Qed.

Lemma str_leb_antisym s t : str_leb s t = true → str_leb t s = true → s = t.
Proof. apply String.leb_antisym. Qed.

Lemma str_leb_refl s : str_leb s s = true.
Proof. destruct (str_leb_total s s); done. Qed.

#[export] Hint Resolve str_leb_total str_leb_trans str_leb_refl starts_with_app : erase.
Create Rewrite HintDb erase_text.
#[export] Hint Rewrite string_app_assoc string_app_nil_r : erase_text.

(* ------------------------------------------------------------------ *)
(** ** * ReplaceFacts: what [str::replace] with a bracketed marker leaves

    Shared by the redaction of identity values and of mail secrets: replacing a text by
    a marker removes it, and brings no other bracket-free text in. *)

Lemma starts_with_nil s : starts_with "" s = true.
Proof. done. Qed.

Lemma starts_with_cons p c s d :
  starts_with (String d p) (String c s) = Ascii.eqb d c && starts_with p s.
Proof. unfold starts_with. simpl. by destruct (Ascii.eqb d c). Qed.

Definition no_brackets (s : string) : bool :=
  str_forallb (λ c, negb (Ascii.eqb c "[") && negb (Ascii.eqb c "]")) s.

Lemma no_brackets_cons c s :
  no_brackets (String c s) = negb (Ascii.eqb c "[") && negb (Ascii.eqb c "]") && no_brackets s.
Proof. done. Qed.

(** A marker: something in brackets. *)
Definition is_marker (m : string) : Prop := ∃ i, m = String "[" (i +:+ "]").

(** What [replace_go] does to the text after the skipped prefix. *)
Inductive replaced (q m : string) : string → string → Prop :=
| replaced_nil : replaced q m "" ""
| replaced_hit s t : replaced q m s t → replaced q m (q +:+ s) (m +:+ t)
| replaced_char c s t :
    starts_with q (String c s) = false → replaced q m s t → replaced q m (String c s) (String c t).

Lemma replace_go_skip q m u s :
  replace_go q m (String.length u) (u +:+ s) = replace_go q m 0 s.
Proof. induction u as [|c u IH]; simpl; [done|]. apply IH. Qed.

Lemma str_replace_replaced q m s : q ≠ "" → replaced q m s (str_replace q m s).
Proof.
  intros Hq. destruct q as [|c q]; [done|]. unfold str_replace.
  remember (String.length s) as n eqn:Hn. revert s Hn.
  induction n as [n IH] using (well_founded_induction lt_wf). intros s ->.
  destruct s as [|d s]; [constructor|]. simpl replace_go.
  destruct (starts_with (String c q) (String d s)) eqn:E.
  - apply starts_with_spec in E as [u Hu]. simpl in Hu. injection Hu as -> ->.
    rewrite Nat.sub_0_r, replace_go_skip. apply (replaced_hit (String c q) m u).
    apply (IH (String.length u)); [|done]. simpl. rewrite string_length_app. lia.
  - constructor; [done|]. by apply (IH (String.length s)); [simpl; lia|].
Qed.

(** A bracket-free text at the start of the result was at the start of the source. *)
Lemma replaced_prefix q m s t p :
  is_marker m → no_brackets p = true → replaced q m s t → starts_with p t = true → starts_with p s = true.
Proof.
  intros [i ->] Hp Hr. revert p Hp.
  induction Hr as [|s t Hr IH|c s t Hn Hr IH]; intros p Hp Hst; [done|..].
  - destruct p as [|d p]; [done|]. rewrite no_brackets_cons in Hp.
    change (String "[" (i +:+ "]") +:+ t) with (String "[" ((i +:+ "]") +:+ t)) in Hst.
    rewrite starts_with_cons in Hst. apply andb_true_iff in Hst as [Hd _].
    rewrite Hd in Hp. by simpl in Hp.
  - destruct p as [|d p]; [done|]. rewrite starts_with_cons in *.
    apply andb_true_iff in Hst as [-> Hst]. rewrite no_brackets_cons in Hp. apply andb_true_iff in Hp as [_ Hp].
    by apply IH.
Qed.

(** A bracket-free occurrence does not straddle the end of a marker. *)
Lemma contains_after_bracket p u t :
  p ≠ "" → no_brackets p = true → contains p (u +:+ String "]" t) = true →
  contains p u = true ∨ contains p t = true.
Proof.
  intros Hne Hp. induction u as [|c u IH]; simpl.
  - destruct p as [|d p]; [done|]. rewrite starts_with_cons.
    rewrite no_brackets_cons in Hp. apply andb_true_iff in Hp as [Hd _].
    apply andb_true_iff in Hd as [_ Hd]. apply negb_true_iff in Hd. rewrite Hd. simpl. by right.
  - rewrite !orb_true_iff. intros [Hs|Hc].
    + assert (Hpre : ∀ p u, no_brackets p = true → starts_with p (u +:+ String "]" t) = true →
        starts_with p u = true).
      { clear. intros p. induction p as [|d p IH]; intros u Hp Hs; [done|]. rewrite no_brackets_cons in Hp.
        destruct u as [|c u].
        - change ("" +:+ String "]" t) with (String "]" t) in Hs.
          rewrite starts_with_cons in Hs. apply andb_true_iff in Hs as [Hd _].
          rewrite Hd, andb_false_r in Hp. done.
        - change (String c u +:+ String "]" t) with (String c (u +:+ String "]" t)) in Hs.
          rewrite starts_with_cons in *. apply andb_true_iff in Hs as [-> Hs].
          apply andb_true_iff in Hp as [_ Hp]. simpl. by apply IH. }
      left. left. by apply (Hpre p (String c u)).
    + apply IH in Hc as [?|?]; auto.
Qed.

Lemma contains_tail p u s : contains p s = true → contains p (u +:+ s) = true.
Proof. intros Hc. induction u as [|c u IH]; simpl; [done|]. by rewrite IH, orb_true_r. Qed.

(** No new occurrence of a bracket-free text appears, unless the marker has one. *)
Lemma replaced_contains q m s t p :
  is_marker m → p ≠ "" → no_brackets p = true → contains p m = false →
  replaced q m s t → contains p t = true → contains p s = true.
Proof.
  intros [i Hm] Hne Hp Hpm Hr.
  induction Hr as [|s t Hr IH|c s t Hn Hr IH]; intros Hc; [done|..].
  - rewrite Hm in Hc.
    replace (String "[" (i +:+ "]") +:+ t) with (String "[" i +:+ String "]" t) in Hc
      by (simpl; by rewrite string_app_assoc).
    apply contains_after_bracket in Hc as [Hc|Hc]; [|by apply contains_tail, IH|done|done].
    exfalso. apply contains_spec in Hc as (u & v & Hc).
    assert (contains p m = true); [|congruence].
    apply contains_spec. exists u, (v +:+ "]"). rewrite Hm.
    change (String "[" (i +:+ "]")) with (String "[" i +:+ "]"). by rewrite Hc, !string_app_assoc.
  - simpl in *. apply orb_true_iff in Hc as [Hc|Hc]; [|by rewrite IH, orb_true_r].
    apply (replaced_prefix q m (String c s) (String c t) p) in Hc;
      [by rewrite Hc|by exists i|done|by constructor].
Qed.

(** The replaced text itself is gone. *)
Lemma replaced_gone q m s t :
  is_marker m → q ≠ "" → no_brackets q = true → contains q m = false →
  replaced q m s t → contains q t = false.
Proof.
  intros [i Hm] Hne Hq Hqm Hr.
  induction Hr as [|s t Hr IH|c s t Hn Hr IH].
  - by destruct q.
  - destruct (contains q (m +:+ t)) eqn:Hc; [|done]. exfalso. rewrite Hm in Hc.
    replace (String "[" (i +:+ "]") +:+ t) with (String "[" i +:+ String "]" t) in Hc
      by (simpl; by rewrite string_app_assoc).
    apply contains_after_bracket in Hc as [Hc|Hc]; [|congruence|done|done].
    apply contains_spec in Hc as (u & v & Hc).
    assert (contains q m = true); [|congruence].
    apply contains_spec. exists u, (v +:+ "]"). rewrite Hm.
    change (String "[" (i +:+ "]")) with (String "[" i +:+ "]"). by rewrite Hc, !string_app_assoc.
  - simpl. rewrite IH, orb_false_r.
    destruct (starts_with q (String c t)) eqn:Hs; [|done]. exfalso.
    apply (replaced_prefix q m (String c s) (String c t) q) in Hs;
      [congruence|by exists i|done|by constructor].
Qed.
