(* ===== verification/Json.v ===== *)
(** * Json: the [serde_json] values the sources build and read, and Go's key order

    Models the data [serde_json::Value] with the map operations the sources
    call (an insertion-ordered map, as [preserve_order] selects), the numeric
    accessors, and [symeraseme-core/src/jsonorder.rs].  Text serialisation is
    not under the repository: it is the class [SerdeJson]. *)

From S2P Require Import Prelude.
From S2P Require Import Text.
From Corelib Require Import SpecFloat.

(** ** Values *)

(** An integer literal in [i64]/[u64] range, or a double. *)
Inductive number : Type :=
| NInt (z : Z)
| NFloat (f : spec_float).

Inductive value : Type :=
| JNull
| JBool (b : bool)
| JNumber (n : number)
| JString (s : string)
| JArray (items : list value)
| JObject (fields : list (string * value)).

Notation jmap := (list (string * value)).

Section value_ind'.
Context (P : value → Prop).
Context (Hnull : P JNull) (Hbool : ∀ b, P (JBool b)) (Hnum : ∀ n, P (JNumber n)).
Context (Hstr : ∀ s, P (JString s)).
Context (Harr : ∀ l, Forall P l → P (JArray l)).
Context (Hobj : ∀ l, Forall (λ kv, P kv.2) l → P (JObject l)).

Fixpoint value_ind' (v : value) : P v :=
  match v with
  | JNull => Hnull
  | JBool b => Hbool b
  | JNumber n => Hnum n
  | JString s => Hstr s
  | JArray l => Harr l ((fix go l : Forall P l :=
      match l with [] => Forall_nil_2 _ | x :: l' => Forall_cons_2 _ _ _ (value_ind' x) (go l') end) l)
  | JObject l => Hobj l ((fix go l : Forall (λ kv, P kv.2) l :=
      match l with
      | [] => Forall_nil_2 _
      | x :: l' => Forall_cons_2 _ _ _ (value_ind' x.2) (go l')
      end) l)
  end.
End value_ind'.

(** ** Map operations *)

Fixpoint map_get (k : string) (m : jmap) : option value :=
  match m with
  | [] => None
  | (k', v) :: m' => if String.eqb k k' then Some v else map_get k m'
  end.

(** [Map::insert]: a present key keeps its position. *)
Fixpoint map_insert (k : string) (v : value) (m : jmap) : jmap :=
  match m with
  | [] => [(k, v)]
  | (k', v') :: m' => if String.eqb k k' then (k', v) :: m' else (k', v') :: map_insert k v m'
  end.

(** [collect] into a map. *)
Definition map_collect (l : jmap) : jmap :=
  fold_left (λ m kv, map_insert kv.1 kv.2 m) l [].

Definition map_has (k : string) (m : jmap) : bool :=
  match map_get k m with Some _ => true | None => false end.

(** [map.get(key).cloned().unwrap_or(Value::Null)] *)
Definition jint (z : Z) : value := JNumber (NInt z).

Definition as_str (v : value) : option string :=
  match v with JString s => Some s | _ => None end.
Definition as_bool (v : value) : option bool :=
  match v with JBool x => Some x | _ => None end.
Definition as_array (v : value) : option (list value) :=
  match v with JArray l => Some l | _ => None end.
Definition as_object (v : value) : option jmap :=
  match v with JObject m => Some m | _ => None end.
Definition as_i64 (v : value) : option Z :=
  match v with
  | JNumber (NInt z) => if (i64_min <=? z) && (z <=? i64_max) then Some z else None
  | _ => None
  end.

(** [Value::as_f64]: an integer is rounded to the nearest double. *)
Definition f64_of_Z (z : Z) : spec_float := binary_normalize 53 1024 z 0 false.

Definition as_f64 (v : value) : option spec_float :=
  match v with
  | JNumber (NInt z) => Some (f64_of_Z z)
  | JNumber (NFloat f) => Some f
  | _ => None
  end.

(** Truncation of a finite double toward zero. *)
Definition trunc_finite (s : bool) (m : positive) (e : Z) : Z :=
  let a := if 0 <=? e then Zpos m * 2 ^ e else Zpos m / 2 ^ (- e) in
  if s then - a else a.

(** Rust's saturating [f64 as i64]. *)
Definition f64_as_i64 (f : spec_float) : Z :=
  match f with
  | S754_zero _ | S754_nan => 0
  | S754_infinity s => if s then i64_min else i64_max
  | S754_finite s m e => saturating_i64 (trunc_finite s m e)
  end.

(** [value >= 9_223_372_036_854_775_808.0] *)
Definition f64_ge_2p63 (f : spec_float) : bool :=
  match f with
  | S754_infinity s => negb s
  | S754_finite s m e => 2 ^ 63 <=? trunc_finite s m e
  | _ => false
  end.

(** ** [jsonorder::go_map_order] *)

Definition key_leb (x y : string * value) : bool := str_leb x.1 y.1.

(** The source sorts the entries, then maps the nested values; sorting looks
    at keys only, so mapping first (which is structural) is the same list, as
    [go_map_order_object] states. *)
Fixpoint go_map_order (v : value) : value :=
  match v with
  | JObject fields =>
      JObject (map_collect (sort_by key_leb
        (List.map (λ kv, (kv.1, go_map_order kv.2)) fields)))
  | JArray items => JArray (List.map go_map_order items)
  | other => other
  end.

(** Text serialisation ([serde_json::to_string], [serde_json::from_str]). *)
Class SerdeJson := {
  to_string : value → string;
  from_str : string → option value;
}.

(** ** Facts *)

Definition keys (m : jmap) : list string := m.*1.

Lemma go_map_order_object fields :
  go_map_order (JObject fields) =
  JObject (map_collect ((λ kv, (kv.1, go_map_order kv.2)) <$> sort_by key_leb fields)).
Proof.
  simpl. do 2 f_equal.
  apply (sort_by_fmap key_leb key_leb (λ kv, (kv.1, go_map_order kv.2))).
  by intros [] [].
Qed.

Lemma map_get_insert_eq k v m : map_get k (map_insert k v m) = Some v.
Proof.
  induction m as [|[k' v'] m IH]; simpl; [by rewrite String.eqb_refl|].
  destruct (String.eqb k k') eqn:E; simpl; by rewrite E.
Qed.

Lemma map_get_insert_ne k k' v m : k ≠ k' → map_get k (map_insert k' v m) = map_get k m.
Proof.
  intros Hne. induction m as [|[j w] m IH]; simpl.
  - by apply String.eqb_neq in Hne as ->.
  - destruct (String.eqb k' j) eqn:E; simpl; [|by rewrite IH].
    apply String.eqb_eq in E as ->. by apply String.eqb_neq in Hne as ->.
Qed.

Lemma map_insert_fresh k v m : k ∉ keys m → map_insert k v m = m ++ [(k, v)].
Proof.
  induction m as [|[j w] m IH]; simpl; [done|]. rewrite not_elem_of_cons. intros [Hne Hm].
  apply String.eqb_neq in Hne as ->. by rewrite IH.
Qed.

Lemma map_get_None k m : map_get k m = None ↔ k ∉ keys m.
Proof.
  induction m as [|[j w] m IH]; simpl; [set_solver|].
  destruct (String.eqb_spec k j) as [->|Hne]; set_solver.
Qed.

Lemma map_get_elem_of k v m : map_get k m = Some v → (k, v) ∈ m.
Proof.
  induction m as [|[j w] m IH]; simpl; [done|].
  destruct (String.eqb_spec k j) as [->|Hne]; [intros [= ->]; left|right; auto].
Qed.

Lemma map_get_NoDup k v m : NoDup (keys m) → map_get k m = Some v ↔ (k, v) ∈ m.
Proof.
  intros Hnd. split; [apply map_get_elem_of|].
  induction m as [|[j w] m IH]; simpl in *; [by intros ?%elem_of_nil|].
  apply NoDup_cons in Hnd as [Hj Hnd]. intros [[= -> ->]|Hin]%elem_of_cons.
  - by rewrite String.eqb_refl.
  - destruct (String.eqb_spec k j) as [->|Hne]; [|auto].
    destruct Hj. by apply (list_elem_of_fmap_2 fst) in Hin.
Qed.

Lemma map_collect_app l m :
  NoDup (keys (m ++ l)) → fold_left (λ m kv, map_insert kv.1 kv.2 m) l m = m ++ l.
Proof.
  revert m. induction l as [|[k v] l IH]; intros m Hnd; simpl; [by rewrite app_nil_r|].
  rewrite map_insert_fresh.
  - rewrite IH; rewrite <-(assoc_L (++)); done.
  - unfold keys in *. rewrite fmap_app in Hnd. csimpl in Hnd. apply NoDup_app in Hnd. set_solver.
Qed.

(** Collecting distinct keys keeps the entries as they are. *)
Lemma map_collect_NoDup l : NoDup (keys l) → map_collect l = l.
Proof. intros. by apply map_collect_app. Qed.

Lemma key_leb_total x y : key_leb x y = true ∨ key_leb y x = true.
Proof. apply str_leb_total. Qed.
Lemma key_leb_trans x y z : key_leb x y = true → key_leb y z = true → key_leb x z = true.
Proof. apply str_leb_trans. Qed.
#[export] Hint Resolve key_leb_total key_leb_trans : erase.

(** Keys are distinct in every object ([serde_json]'s map invariant). *)
Inductive wf_value : value → Prop :=
| wf_null : wf_value JNull
| wf_bool b : wf_value (JBool b)
| wf_number n : wf_value (JNumber n)
| wf_string s : wf_value (JString s)
| wf_array l : Forall wf_value l → wf_value (JArray l)
| wf_object l : NoDup (keys l) → Forall (λ kv, wf_value kv.2) l → wf_value (JObject l).

(** Every object of the value lists its keys in ascending order. *)
Inductive ordered_value : value → Prop :=
| ordered_null : ordered_value JNull
| ordered_bool b : ordered_value (JBool b)
| ordered_number n : ordered_value (JNumber n)
| ordered_string s : ordered_value (JString s)
| ordered_array l : Forall ordered_value l → ordered_value (JArray l)
| ordered_object l :
    StronglySorted (λ x y, key_leb x y = true) l →
    Forall (λ kv, ordered_value kv.2) l → ordered_value (JObject l).

Notation order_entry := (λ kv : string * value, (kv.1, go_map_order kv.2)).

Lemma keys_order_entries l : keys (List.map order_entry l) = keys l.
Proof. unfold keys. induction l as [|[k v] l IH]; csimpl; [done|]. by rewrite IH. Qed.

Lemma keys_sorted_NoDup l : NoDup (keys l) → NoDup (keys (sort_by key_leb l)).
Proof. intros. unfold keys. by rewrite sort_by_Permutation. Qed.

Lemma go_map_order_wf_object l :
  NoDup (keys l) →
  go_map_order (JObject l) = JObject (sort_by key_leb (List.map order_entry l)).
Proof.
  intros Hnd. simpl. rewrite map_collect_NoDup; [done|].
  apply keys_sorted_NoDup. by rewrite keys_order_entries.
Qed.

Lemma go_map_order_wf v : wf_value v → wf_value (go_map_order v).
Proof.
  induction v as [| | | |l IH|l IH] using value_ind'; intros Hwf; try done.
  - inversion Hwf as [| | | |? Hl|]; subst. simpl. constructor.
    by eapply Forall_map_mp.
  - inversion Hwf as [| | | | |? Hnd Hl]; subst. rewrite go_map_order_wf_object by done.
    constructor; [apply keys_sorted_NoDup; by rewrite keys_order_entries|].
    rewrite sort_by_Permutation. by eapply (Forall_map_mp (λ kv, wf_value kv.2)).
Qed.

Lemma go_map_order_ordered v : wf_value v → ordered_value (go_map_order v).
Proof.
  induction v as [| | | |l IH|l IH] using value_ind'; intros Hwf;
    try (simpl; constructor; done).
  - inversion Hwf as [| | | |? Hl|]; subst. simpl. constructor.
    by eapply Forall_map_mp.
  - inversion Hwf as [| | | | |? Hnd Hl]; subst. rewrite go_map_order_wf_object by done.
    constructor; [apply sort_by_StronglySorted; eauto with erase|].
    rewrite sort_by_Permutation. by eapply (Forall_map_mp (λ kv, wf_value kv.2)).
Qed.

(** On a value already in order with distinct keys nothing changes. *)
Lemma go_map_order_id v : wf_value v → ordered_value v → go_map_order v = v.
Proof.
  induction v as [| | | |l IH|l IH] using value_ind'; intros Hwf Ho; try done.
  - inversion Hwf as [| | | |? Hl|]; inversion Ho as [| | | |? Hol|]; subst. simpl. f_equal.
    induction IH as [|x l Hx IH IH2]; [done|]. simpl.
    apply Forall_cons in Hl as [], Hol as [].
    rewrite Hx, IH2 by (done || by constructor). done.
  - inversion Hwf as [| | | | |? Hnd Hl]; inversion Ho as [| | | | |? Hs Hol]; subst.
    rewrite go_map_order_wf_object by done. f_equal.
    assert (List.map order_entry l = l) as ->; [|by apply sort_by_id].
    clear Hnd Hs Hwf Ho.
    induction IH as [|[k x] l Hx IH IH2]; [done|]. simpl in *.
    apply Forall_cons in Hl as [], Hol as []. simpl in *.
    rewrite Hx, IH2 by done. done.
Qed.

Lemma map_get_go_map_order k l m :
  NoDup (keys l) → go_map_order (JObject l) = JObject m →
  map_get k m = go_map_order <$> map_get k l.
Proof.
  intros Hnd. rewrite go_map_order_wf_object by done. intros [= <-].
  assert (Hnd' : NoDup (keys (sort_by key_leb (List.map order_entry l)))).
  { apply keys_sorted_NoDup. by rewrite keys_order_entries. }
  apply option_eq. intros w. rewrite map_get_NoDup by done.
  rewrite elem_of_sort_by, fmap_Some. setoid_rewrite map_get_NoDup; [|done].
  rewrite list_elem_of_In, in_map_iff. split.
  - intros ([j x] & [= <- <-] & Hin). exists x. split; [by apply list_elem_of_In|done].
  - intros (x & Hin & ->). exists (k, x). split; [done|]. by apply list_elem_of_In.
Qed.
