(* ===== verification/TimeUtil.v ===== *)
(** * TimeUtil: [symeraseme-core/src/timeutil.rs]

    Timestamp parsing and formatting.  [chrono] is not under the repository: the
    class [Chrono] holds the functions of it that are called.  An instant (and a
    naive wall clock) is its number of nanoseconds since 1970-01-01T00:00:00. *)

From S2P Require Import Prelude.
From S2P Require Import Text.

Class Chrono := {
  (** [DateTime::parse_from_str(value, layout)], as a UTC instant. *)
  dt_parse : string → string → option Z;
  (** [NaiveDateTime::parse_from_str(value, layout)]. *)
  naive_parse : string → string → option Z;
  (** [DateTime<Utc>::format(layout)]. *)
  dt_format : string → Z → string;
  (** [NaiveDateTime::year], and [date().with_year(y)] with the same time. *)
  naive_year : Z → Z;
  naive_with_year : Z → Z → option Z;
  (** [NaiveDate::parse_from_str] at midnight. *)
  date_parse : string → string → option Z;
  (** [DateTime::parse_from_rfc3339]: the instant and its offset in seconds. *)
  rfc3339_parse : string → option (Z * Z);
  (** [DateTime<FixedOffset>::format(layout)] of an instant and an offset. *)
  fixed_format : string → Z → Z → string;
  (** [DateTime<Utc>::to_rfc3339_opts(SecondsFormat::AutoSi, true)]. *)
  to_rfc3339_auto : Z → string;
  (** The representable range of [DateTime<Utc>]. *)
  dt_min : Z;
  dt_max : Z;
}.

Definition second : Z := 1000000000.

Inductive TimestampError : Set := Empty | Malformed.

#[export] Instance TimestampError_eq_dec : EqDecision TimestampError.
Proof. solve_decision. Defined.

Definition iso_layout : string := "%Y-%m-%dT%H:%M:%S+00:00".
Definition sql_layout : string := "%Y-%m-%d %H:%M:%S".

Definition weekdays_short : list string :=
  ["Mon"; "Tue"; "Wed"; "Thu"; "Fri"; "Sat"; "Sun"].
Definition weekdays_long : list string :=
  ["Monday"; "Tuesday"; "Wednesday"; "Thursday"; "Friday"; "Saturday"; "Sunday"].

Definition without_weekday (prefix : string) : option string :=
  p ← split_once "," prefix; Some (trim p.2).

Definition rfc1123_prefix (input : string) : option string :=
  p ← split_once "," input;
  if str_in p.1 weekdays_short then Some input else None.

Definition rfc850_prefix (input : string) : option string :=
  p ← split_once "," input;
  if str_in p.1 weekdays_long then Some input else None.

Definition rfc_prefix (input : string) : option string :=
  p ← rsplit_once " " input;
  let zone := p.2 in
  if is_empty zone || negb (str_forallb is_ascii_alphabetic zone) then None
  else if len zone =? 3 then Some p.1 else None.

Definition valid_rfc850_zone (zone : string) : bool :=
  if (len zone =? 3) && str_forallb is_ascii_alphabetic zone then true
  else
    match zone with
    | String c digits =>
        if Ascii.eqb c "+" || Ascii.eqb c "-" then
          negb (is_empty digits) && str_forallb is_ascii_digit digits
          && match parse_u32 digits with Some hours => hours <=? 23 | None => false end
        else false
    | "" => false
    end.

Definition substr (from n : nat) (s : string) : string := String.substring from n s.

(** [zone] is five bytes: a sign, two bytes of hours, two of minutes. *)
Definition parse_numeric_offset (zone : string) : option Z :=
  match zone with
  | String sign rest =>
      if negb (len zone =? 5) || negb (Ascii.eqb sign "+" || Ascii.eqb sign "-") then None
      else
        hours ← parse_i64 (substr 0 2 rest);
        minutes ← parse_i64 (substr 2 2 rest);
        if (24 <? hours) || (60 <? minutes) then None
        else
          let seconds := hours * 60 * 60 + minutes * 60 in
          Some (if Ascii.eqb sign "-" then - seconds else seconds)
  | "" => None
  end.

(** A comma three bytes after a colon and two after digits becomes a dot; the
    tests read the original bytes. [before] holds the last three of them,
    nearest first. *)
Definition normalize_char (before : list ascii) (c : ascii) : ascii :=
  match before with
  | d1 :: d2 :: d3 :: _ =>
      if Ascii.eqb c "," && is_ascii_digit d1 && is_ascii_digit d2 && Ascii.eqb d3 ":"
      then "."%char else c
  | _ => c
  end.

Fixpoint normalize_from (before : list ascii) (s : string) : string :=
  match s with
  | "" => ""
  | String c s' => String (normalize_char before c) (normalize_from (c :: before) s')
  end.

Definition normalize_comma_fraction (input : string) : string := normalize_from [] input.

Section chrono.
Context `{Chrono}.

Definition parse_rfc1123_datetime (value : string) : option Z :=
  let value := str_replace "," "." value in
  match naive_parse value "%d %b %Y %H:%M:%S%.f" with
  | Some v => Some v
  | None => naive_parse value "%d %b %Y %H:%M:%S"
  end.

Definition parse_rfc850_datetime (value : string) : option Z :=
  let value := str_replace "," "." value in
  match naive_parse value "%d-%b-%y %H:%M:%S%.f" with
  | Some v => Some v
  | None => naive_parse value "%d-%b-%y %H:%M:%S"
  end.

Definition parse_rfc1123_numeric (input : string) : option Z :=
  p ← rsplit_once " " input;
  prefix ← rfc1123_prefix p.1;
  prefix ← without_weekday prefix;
  value ← parse_rfc1123_datetime prefix;
  zone ← parse_numeric_offset p.2;
  Some (value - zone * second).

Definition parse_rfc1123_alpha (input : string) : option Z :=
  prefix ← rfc_prefix input;
  prefix ← rfc1123_prefix prefix;
  prefix ← without_weekday prefix;
  parse_rfc1123_datetime prefix.

(** Go's two-digit year pivot: 69..99 are 19xx, 00..68 are 20xx. *)
Definition rfc850_year (year : Z) : Z :=
  let year := Z.rem year 100 in
  if 69 <=? year then 1900 + year else 2000 + year.

Definition parse_rfc850 (input : string) : option Z :=
  p ← rsplit_once " " input;
  prefix ← rfc850_prefix p.1;
  prefix ← without_weekday prefix;
  value ← parse_rfc850_datetime prefix;
  if negb (valid_rfc850_zone p.2) then None
  else naive_with_year value (rfc850_year (naive_year value)).

Definition offset_layouts : list string :=
  [ "%Y-%m-%dT%H:%M:%S%.f%:z"; "%Y-%m-%d %H:%M:%S%.f%:z";
    "%Y-%m-%dT%H:%M:%S%:z"; "%Y-%m-%d %H:%M:%S%:z" ].

Definition naive_layouts : list string :=
  [ "%Y-%m-%dT%H:%M:%S%.f"; "%Y-%m-%d %H:%M:%S%.f";
    "%Y-%m-%dT%H:%M:%S"; "%Y-%m-%d %H:%M:%S" ].

Definition or_else {A} (x : option A) (k : option A) : option A :=
  match x with Some a => Some a | None => k end.

Definition parse (input : string) : result TimestampError Z :=
  let input := trim input in
  if is_empty input then Err Empty
  else
    let normalized_fraction := normalize_comma_fraction input in
    let normalized_z :=
      (λ prefix, prefix +:+ "+00:00") <$> strip_suffix "Z" normalized_fraction in
    let offset_inputs := option_list normalized_z ++ [normalized_fraction; input] in
    match
      or_else (first_some (λ v, first_some (dt_parse v) offset_layouts) offset_inputs)
      (or_else (first_some (naive_parse normalized_fraction) naive_layouts)
      (or_else (parse_rfc1123_numeric input)
      (or_else (parse_rfc1123_alpha input)
      (parse_rfc850 input))))
    with
    | Some t => Ok t
    | None => Err Malformed
    end.

Definition parse_timestamp (input : string) : result TimestampError Z := parse input.

Definition format_iso (t : Z) : string := dt_format iso_layout t.
Definition format_sql (t : Z) : string := dt_format sql_layout t.

(** [DateTime::checked_add_signed]. *)
Definition checked_add_signed (t d : Z) : option Z :=
  if (dt_min <=? t + d) && (t + d <=? dt_max) then Some (t + d) else None.
End chrono.

(** ** Facts *)

Lemma normalize_from_length before s :
  String.length (normalize_from before s) = String.length s.
Proof. revert before. induction s as [|c s IH]; intros; simpl; [done|]. by rewrite IH. Qed.

(** A replaced comma is no longer a comma, and the digits and the colon it was
    recognised by are untouched, so a second pass changes nothing. *)
Definition dotted (x y : ascii) : Prop := x = y ∨ x = ","%char ∧ y = "."%char.

Lemma normalize_char_dotted before c : dotted c (normalize_char before c).
Proof.
  unfold dotted, normalize_char. destruct before as [|? [|? [|? ?]]]; try by left.
  destruct (Ascii.eqb_spec c ","%char) as [->|]; simpl; [|by left].
  destruct (_ && _ && _); auto.
Qed.

Lemma normalize_char_idem b1 b2 c :
  Forall2 dotted b1 b2 →
  normalize_char b2 (normalize_char b1 c) = normalize_char b1 c.
Proof.
  intros Hb. destruct (normalize_char_dotted b1 c) as [Hc|[-> Hc]].
  - rewrite <-Hc. unfold normalize_char in *.
    destruct Hb as [|x1 y1 ? ? H1 Hb]; [done|].
    destruct Hb as [|x2 y2 ? ? H2 Hb]; [done|].
    destruct Hb as [|x3 y3 ? ? H3 Hb]; [done|].
    destruct (Ascii.eqb_spec c ","%char) as [->|]; simpl in *; [|done].
    destruct H1 as [->|[-> ->]], H2 as [->|[-> ->]], H3 as [->|[-> ->]]; simpl in *;
      try done; by destruct (is_ascii_digit _).
  - rewrite Hc. unfold normalize_char.
    by destruct b2 as [|? [|? [|? ?]]].
Qed.

Lemma normalize_from_idem b1 b2 s :
  Forall2 dotted b1 b2 → normalize_from b2 (normalize_from b1 s) = normalize_from b1 s.
Proof.
  revert b1 b2. induction s as [|c s IH]; intros b1 b2 Hb; simpl; [done|].
  rewrite normalize_char_idem by done. f_equal. apply IH.
  constructor; [apply normalize_char_dotted|done].
Qed.

Lemma digits_value_bound n s acc :
  0 ≤ acc → str_forallb is_ascii_digit s = true → (String.length s ≤ n)%nat →
  0 ≤ digits_value acc s < (acc + 1) * 10 ^ Z.of_nat n.
Proof.
  revert acc n. induction s as [|c s IH]; intros acc n Hacc Hs Hn; simpl in *.
  - pose proof (Z.pow_pos_nonneg 10 (Z.of_nat n) ltac:(lia) ltac:(lia)). nia.
  - apply andb_true_iff in Hs as [Hc Hs]. destruct n as [|n]; [lia|].
    assert (0 ≤ digit_value c ≤ 9).
    { unfold is_ascii_digit, byte_in, digit_value in *.
      apply andb_true_iff in Hc as [?%Nat.leb_le ?%Nat.leb_le]. lia. }
    specialize (IH (acc * 10 + digit_value c) n ltac:(lia) Hs ltac:(lia)).
    rewrite Nat2Z.inj_succ, Z.pow_succ_r by lia.
    pose proof (Z.pow_pos_nonneg 10 (Z.of_nat n) ltac:(lia) ltac:(lia)). nia.
Qed.

Lemma substring_length_le n m s : (String.length (String.substring n m s) ≤ m)%nat.
Proof.
  revert n m. induction s as [|c s IH]; intros [|n] [|m]; simpl; try lia.
  - specialize (IH 0%nat m). lia.
  - apply IH.
  - apply IH.
Qed.

Lemma parse_int_lower lo hi s v :
  parse_int lo hi s = Some v → (String.length s ≤ 2)%nat → -9 ≤ v.
Proof.
  assert (Hd : ∀ sign t n, (String.length t ≤ n)%nat → sign = 1 ∨ sign = -1 ∧ (n ≤ 1)%nat →
    (if negb (is_empty t) && str_forallb is_ascii_digit t then
      let v := sign * digits_value 0 t in
      if (lo <=? v) && (v <=? hi) then Some v else None else None) = Some v → -9 ≤ v).
  { intros sign t n Ht Hs. simpl.
    destruct (negb (is_empty t) && _) eqn:E; [|done].
    apply andb_true_iff in E as [_ Ed]. destruct (_ && _); [|done]. intros [= <-].
    pose proof (digits_value_bound n t 0 ltac:(lia) Ed Ht) as Hb.
    destruct Hs as [->|[-> Hn]]; [lia|].
    assert (10 ^ Z.of_nat n ≤ 10 ^ 1) by (apply Z.pow_le_mono_r; lia). lia. }
  unfold parse_int. intros Hp Hl. destruct s as [|c s]; [done|].
  destruct (Ascii.eqb c "-").
  - destruct (lo <? 0); [|done]. eapply (Hd (-1) _ 1%nat); [|by right|exact Hp].
    simpl in Hl; lia.
  - destruct (Ascii.eqb c "+").
    + eapply (Hd 1 _ 2%nat); [|by left|exact Hp]. simpl in Hl; lia.
    + by eapply (Hd 1 _ 2%nat); [|by left|exact Hp].
Qed.

(** A numeric zone is read as a number of seconds; the code checks only the
    upper bounds of its two fields, so an embedded sign is accepted, and the
    offset is bounded by 25 hours in both directions. *)
Theorem parse_numeric_offset_bounded zone v :
  parse_numeric_offset zone = Some v → -90000 ≤ v ≤ 90000.
Proof.
  unfold parse_numeric_offset. destruct zone as [|sign rest]; [done|].
  destruct (_ || _); [done|].
  destruct (parse_i64 (substr 0 2 rest)) as [hours|] eqn:Hh; [|done].
  destruct (parse_i64 (substr 2 2 rest)) as [minutes|] eqn:Hm; [|done]. simpl.
  apply parse_int_lower in Hh; [|apply substring_length_le].
  apply parse_int_lower in Hm; [|apply substring_length_le].
  destruct (_ || _) eqn:Hb; [done|].
  apply orb_false_iff in Hb as [?%Z.ltb_ge ?%Z.ltb_ge].
  destruct (Ascii.eqb sign "-"); intros [= <-]; lia.
Qed.

Lemma parse_numeric_offset_bounded_witness :
  parse_numeric_offset "+-5-3" = Some (-18180) ∧ -90000 ≤ -18180 ≤ 90000.
Proof.
  split; [vm_compute; reflexivity|].
  apply (parse_numeric_offset_bounded "+-5-3"). vm_compute. reflexivity.
Defined.
