(* ===== verification/Types.v ===== *)
(** * Types: [symeraseme-core/src/storage/types.rs]

    The typed rows of the event store and its closed catalogues.  The columns the
    code reads as text are strings; the columns it parses keep their parsed type
    ([DateTime<Utc>] is nanoseconds since the epoch, as in [TimeUtil]). *)

From S2P Require Import Prelude.
From S2P Require Import Text.
From S2P Require Import Json.

Record Campaign := {
  campaign_id : string;
  campaign_created_at : string;
  campaign_kind : string;
  campaign_notes : option string;
}.

Record RemovalRequest := {
  rr_id : Z;
  rr_broker_id : string;
  rr_channel : string;
  rr_campaign_id : string;
  rr_created_at : string;
  rr_jurisdiction : string;
  rr_template_id : string;
  rr_identity_snapshot_hash : string;
}.

(** A request with the nullable columns of its [request_state] row. *)
Record RemovalRequestRow := {
  rw_request : RemovalRequest;
  rw_current_status : option string;
  rw_last_event_at : option string;
  rw_sent_at : option string;
  rw_acknowledged_at : option string;
  rw_resolved_at : option string;
  rw_deadline_at : option string;
  rw_next_action_at : option string;
  rw_reminders_sent : Z;
  rw_escalation_level : Z;
}.

Inductive EventType : Type :=
| Planned | Sent | SendFailed | Bounce | Autoresponder | Ack
| VerificationRequested | VerificationProvided | HumanActionRequired
| ConfirmationLinkClicked | ReplyDrafted | RebuttalSent | ReminderSent
| DeadlineReached | DpaComplaintDrafted | DpaComplaintFiled | Confirmed
| RejectedFinal | RescanTriggered | NoteAdded
| UnknownEvent (value : string).

Inductive Source : Type := System | Inbox | User | Scheduler | UnknownSource (value : string).

#[export] Instance EventType_eq_dec : EqDecision EventType.
Proof. solve_decision. Defined.
#[export] Instance Source_eq_dec : EqDecision Source.
Proof. solve_decision. Defined.

Definition EventType_as_str (e : EventType) : string :=
  match e with
  | Planned => "PLANNED"
  | Sent => "SENT"
  | SendFailed => "SEND_FAILED"
  | Bounce => "BOUNCE"
  | Autoresponder => "AUTORESPONDER"
  | Ack => "ACK"
  | VerificationRequested => "VERIFICATION_REQUESTED"
  | VerificationProvided => "VERIFICATION_PROVIDED"
  | HumanActionRequired => "HUMAN_ACTION_REQUIRED"
  | ConfirmationLinkClicked => "CONFIRMATION_LINK_CLICKED"
  | ReplyDrafted => "REPLY_DRAFTED"
  | RebuttalSent => "REBUTTAL_SENT"
  | ReminderSent => "REMINDER_SENT"
  | DeadlineReached => "DEADLINE_REACHED"
  | DpaComplaintDrafted => "DPA_COMPLAINT_DRAFTED"
  | DpaComplaintFiled => "DPA_COMPLAINT_FILED"
  | Confirmed => "CONFIRMED"
  | RejectedFinal => "REJECTED_FINAL"
  | RescanTriggered => "RE_SCAN_TRIGGERED"
  | NoteAdded => "NOTE_ADDED"
  | UnknownEvent value => value
  end.

Definition EventType_from_wire (value : string) : EventType :=
  if String.eqb value "PLANNED" then Planned
  else if String.eqb value "SENT" then Sent
  else if String.eqb value "SEND_FAILED" then SendFailed
  else if String.eqb value "BOUNCE" then Bounce
  else if String.eqb value "AUTORESPONDER" then Autoresponder
  else if String.eqb value "ACK" then Ack
  else if String.eqb value "VERIFICATION_REQUESTED" then VerificationRequested
  else if String.eqb value "VERIFICATION_PROVIDED" then VerificationProvided
  else if String.eqb value "HUMAN_ACTION_REQUIRED" then HumanActionRequired
  else if String.eqb value "CONFIRMATION_LINK_CLICKED" then ConfirmationLinkClicked
  else if String.eqb value "REPLY_DRAFTED" then ReplyDrafted
  else if String.eqb value "REBUTTAL_SENT" then RebuttalSent
  else if String.eqb value "REMINDER_SENT" then ReminderSent
  else if String.eqb value "DEADLINE_REACHED" then DeadlineReached
  else if String.eqb value "DPA_COMPLAINT_DRAFTED" then DpaComplaintDrafted
  else if String.eqb value "DPA_COMPLAINT_FILED" then DpaComplaintFiled
  else if String.eqb value "CONFIRMED" then Confirmed
  else if String.eqb value "REJECTED_FINAL" then RejectedFinal
  else if String.eqb value "RE_SCAN_TRIGGERED" then RescanTriggered
  else if String.eqb value "NOTE_ADDED" then NoteAdded
  else UnknownEvent value.

Definition Source_as_str (s : Source) : string :=
  match s with
  | System => "system"
  | Inbox => "inbox"
  | User => "user"
  | Scheduler => "scheduler"
  | UnknownSource value => value
  end.

Definition Source_from_wire (value : string) : Source :=
  if String.eqb value "system" then System
  else if String.eqb value "inbox" then Inbox
  else if String.eqb value "user" then User
  else if String.eqb value "scheduler" then Scheduler
  else UnknownSource value.

Record EventRecord := {
  er_id : Z;
  er_request_id : Z;
  er_occurred_at : Z;
  er_recorded_at : Z;
  er_event_type : EventType;
  er_payload : jmap;
  er_source : Source;
}.

Record TickCandidate := {
  tc_id : Z;
  tc_broker_id : string;
  tc_campaign_id : string;
  tc_jurisdiction : string;
  tc_current_status : string;
  tc_sent_at : string;
  tc_deadline_at : string;
  tc_next_action_at : string;
  tc_acknowledged_at : string;
  tc_resolved_at : string;
  tc_reminders_sent : Z;
  tc_escalation_level : Z;
}.

(** ** Facts *)

(** Reduces a chain of string tests. *)
Ltac case_str_eqb :=
  repeat match goal with
  | |- context [String.eqb ?x ?y] => destruct (String.eqb_spec x y); subst; simpl; try done
  end.

Lemma EventType_as_str_from_wire value : EventType_as_str (EventType_from_wire value) = value.
Proof. unfold EventType_from_wire. case_str_eqb. Qed.

Lemma Source_as_str_from_wire value : Source_as_str (Source_from_wire value) = value.
Proof. unfold Source_from_wire. case_str_eqb. Qed.

(** The catalogue the appender accepts. *)
Definition known_event (e : EventType) : Prop := ∀ value, e ≠ UnknownEvent value.
Definition known_source (s : Source) : Prop := ∀ value, s ≠ UnknownSource value.

Lemma EventType_from_wire_as_str e :
  known_event e → EventType_from_wire (EventType_as_str e) = e.
Proof. intros He. destruct e; try reflexivity. by destruct (He value). Qed.

Lemma Source_from_wire_as_str s : known_source s → Source_from_wire (Source_as_str s) = s.
Proof. intros Hs. destruct s; try reflexivity. by destruct (Hs value). Qed.
