(* ===== verification/Identity.v ===== *)
(** * Identity: the profile and its hash, [symeraseme-core/src/identity/profile.rs]

    The profile record, the canonical JSON the audit hash is taken over, and the
    hash.  SHA-256 is a parameter (class [Sha256]), and so is the text Rust gives a
    fractional double. *)

From Corelib Require Import SpecFloat.
From S2P Require Import Prelude.
From S2P Require Import Text.
From S2P Require Import Json.

Record ProfileAddress := {
  street : string;
  city : string;
  postal_code : string;
  country : string;
  state : option string;
  valid_from : option string;
  valid_to : option string;
}.

Record Profile := {
  full_name : string;
  name_variants : list string;
  date_of_birth : option string;
  addresses : list ProfileAddress;
  email_addresses : list string;
  phone_numbers : list string;
  jurisdictions : list string;
}.

(** [hex::encode(Sha256::digest(bytes))] *)
Class Sha256 := { sha256_hex : string → string }.

(** [f64]'s [Display], and the mantissa and exponent of its [LowerExp]. *)
Class FloatFmt := {
  f64_display : spec_float → string;
  f64_exp : spec_float → string * Z;
}.

(** ** UTF-8 *)

Definition byte_val (c : ascii) : Z := Z.of_nat (nat_of_ascii c).

(** The number of bytes of the character a lead byte starts. *)
Definition utf8_width (c : ascii) : nat :=
  let v := byte_val c in
  if v <? 128 then 1 else if v <? 224 then 2 else if v <? 240 then 3 else 4.

Definition lead_bits (c : ascii) : Z :=
  let v := byte_val c in
  if v <? 128 then v else if v <? 224 then v - 192 else if v <? 240 then v - 224 else v - 240.

(** The code points of a string that is valid UTF-8; [pending] is the number of
    continuation bytes still expected and [acc] the bits read so far. *)
Fixpoint utf8_points (pending : nat) (acc : Z) (s : string) : list Z :=
  match s with
  | "" => []
  | String c s' =>
      match pending with
      | O =>
          match utf8_width c with
          | 1%nat => byte_val c :: utf8_points 0 0 s'
          | n => utf8_points (n - 1) (lead_bits c) s'
          end
      | S O => (acc * 64 + (byte_val c - 128)) :: utf8_points 0 0 s'
      | S p => utf8_points p (acc * 64 + (byte_val c - 128)) s'
      end
  end.

Definition chars (s : string) : list Z := utf8_points 0 0 s.

(** ** Canonical JSON *)

Definition hex_digit (n : Z) : ascii :=
  ascii_of_nat (Z.to_nat (if n <? 10 then 48 + n else 87 + n)).

(** [{:04x}] of a value below 2^16. *)
Definition hex4 (n : Z) : string :=
  String (hex_digit (n / 4096)) (String (hex_digit (n / 256 mod 16))
    (String (hex_digit (n / 16 mod 16)) (String (hex_digit (n mod 16)) ""))).

Definition backslash (s : string) : string := String (b 92) s.

Definition canonical_char (c : Z) : string :=
  if c =? 34 then backslash (String (b 34) "")
  else if c =? 92 then backslash (backslash "")
  else if c =? 8 then backslash "b"
  else if c =? 12 then backslash "f"
  else if c =? 10 then backslash "n"
  else if c =? 13 then backslash "r"
  else if c =? 9 then backslash "t"
  else if (c <? 32) || (c =? 127) then backslash ("u" +:+ hex4 c)
  else if c <? 128 then String (ascii_of_nat (Z.to_nat c)) ""
  else if c <=? 65535 then backslash ("u" +:+ hex4 c)
  else
    let v := c - 65536 in
    backslash ("u" +:+ hex4 (55296 + v / 1024)) +:+ backslash ("u" +:+ hex4 (56320 + v mod 1024)).

Fixpoint concat_strings (l : list string) : string :=
  match l with [] => "" | s :: l' => s +:+ concat_strings l' end.

Definition write_canonical_string (value : string) : string :=
  String (b 34) (concat_strings (canonical_char <$> chars value) +:+ String (b 34) "").

Section canonical.
Context `{FloatFmt}.

(** The value has no fractional part. *)
Definition f64_fract_zero (f : spec_float) : bool :=
  match f with
  | S754_zero _ => true
  | S754_finite _ m e => (0 <=? e) || (Zpos m mod 2 ^ (- e) =? 0)
  | _ => false
  end.

Definition f64_abs (f : spec_float) : spec_float := SFabs f.

(** 0.0001 as a double. *)
Definition f64_1e_4 : spec_float := SFdiv 53 1024 (f64_of_Z 1) (f64_of_Z 10000).

Definition write_canonical_number (n : number) : string :=
  let value := match n with NInt z => f64_of_Z z | NFloat f => f end in
  match value with
  | S754_zero _ | S754_finite _ _ _ =>
      if f64_fract_zero value then show (f64_as_i64 value)
      else if SFleb (f64_of_Z 1000000) (f64_abs value) || SFltb (f64_abs value) f64_1e_4 then
        let (mantissa, exponent) := f64_exp value in
        mantissa +:+ "e" +:+ (if 0 <=? exponent then "+" else "-") +:+ pad2 (Z.abs exponent)
      else f64_display value
  | _ => f64_display value
  end.

(** The keys are sorted; each value is written first here, which does not depend on
    the order. *)
Fixpoint write_canonical_json (v : value) : string :=
  match v with
  | JNull => "null"
  | JBool x => if x then "true" else "false"
  | JNumber n => write_canonical_number n
  | JString s => write_canonical_string s
  | JArray values => "[" +:+ join ", " (List.map write_canonical_json values) +:+ "]"
  | JObject values =>
      "{" +:+
      join ", " ((λ kv : string * string, write_canonical_string kv.1 +:+ ": " +:+ kv.2) <$>
        sort_by (λ x y, str_leb x.1 y.1)
          (List.map (λ kv, (kv.1, write_canonical_json kv.2)) values))
      +:+ "}"
  end.

Definition canonical_generic_json (v : value) : string := write_canonical_json v.

Definition opt_string (o : option string) : value :=
  match o with Some s => JString s | None => JNull end.

Definition address_value (a : ProfileAddress) : value :=
  JObject [("street", JString (street a)); ("city", JString (city a));
           ("postal_code", JString (postal_code a)); ("country", JString (country a));
           ("state", opt_string (state a)); ("valid_from", opt_string (valid_from a));
           ("valid_to", opt_string (valid_to a))].

(** [ProfilePayload] *)
Definition profile_payload (p : Profile) : value :=
  JObject [("full_name", JString (full_name p));
           ("name_variants", JArray (JString <$> name_variants p));
           ("date_of_birth", opt_string (date_of_birth p));
           ("addresses", JArray (address_value <$> addresses p));
           ("email_addresses", JArray (JString <$> email_addresses p));
           ("phone_numbers", JArray (JString <$> phone_numbers p));
           ("jurisdictions", JArray (JString <$> jurisdictions p))].

Definition canonical_json (p : Profile) : string := canonical_generic_json (profile_payload p).

Definition hash_profile `{Sha256} (p : Profile) : string := sha256_hex (canonical_json p).
End canonical.
