(* ===== verification/Registry.v ===== *)
(** * Registry: [symeraseme-core/src/registry/model.rs] and [filter.rs]

    The broker documents, their wire form and the conversion between them, the
    wire names of the closed enums, and the broker filter. *)

From Corelib Require Import SpecFloat.
From S2P Require Import Prelude.
From S2P Require Import Text.
From S2P Require Import Json.

(** [trait RegistryEnumName] *)
Class RegistryEnumName (A : Type) := { registry_name : A → string }.

Inductive Category : Set :=
| PeopleSearch | Marketing | Credit | Analytics | BackgroundCheck | SocialMedia | CategoryOther.

Inductive Jurisdiction : Set :=
| At | Ch | De | Dk | Eu | Fi | Fr | Gb | Ie | Il | Lu | Nl | No | Se | Uk | Us.

Inductive Law : Set := Gdpr | Ccpa | Cpra | Lgpd | Pipeda.

Inductive Priority : Set := High | Medium | Low.

Inductive Status : Set := Active | Deprecated | Merged | OutOfBusiness.

#[export] Instance Category_name : RegistryEnumName Category := {|
  registry_name c :=
    match c with
    | PeopleSearch => "people-search" | Marketing => "marketing" | Credit => "credit"
    | Analytics => "analytics" | BackgroundCheck => "background-check"
    | SocialMedia => "social-media" | CategoryOther => "other"
    end |}.

#[export] Instance Jurisdiction_name : RegistryEnumName Jurisdiction := {|
  registry_name j :=
    match j with
    | At => "AT" | Ch => "CH" | De => "DE" | Dk => "DK" | Eu => "EU" | Fi => "FI"
    | Fr => "FR" | Gb => "GB" | Ie => "IE" | Il => "IL" | Lu => "LU" | Nl => "NL"
    | No => "NO" | Se => "SE" | Uk => "UK" | Us => "US"
    end |}.

#[export] Instance Law_name : RegistryEnumName Law := {|
  registry_name l :=
    match l with
    | Gdpr => "GDPR" | Ccpa => "CCPA" | Cpra => "CPRA" | Lgpd => "LGPD" | Pipeda => "PIPEDA"
    end |}.

#[export] Instance Priority_name : RegistryEnumName Priority := {|
  registry_name p := match p with High => "high" | Medium => "medium" | Low => "low" end |}.

#[export] Instance Status_name : RegistryEnumName Status := {|
  registry_name s :=
    match s with
    | Active => "active" | Deprecated => "deprecated" | Merged => "merged"
    | OutOfBusiness => "out-of-business"
    end |}.

Inductive ChannelType : Set := EmailType | WebFormType.

Inductive Template : Set := CcpaDeletion | GdprArt17.

Inductive RequiredField : Set := FullName | EmailField | AddressField | DateOfBirth | StateField.

Record Verification := {
  ack_keywords : option (list string);
  rejection_keywords : option (list string);
  human_required_keywords : option (list string);
}.

Inductive CaptchaType : Set := RecaptchaV2 | RecaptchaV3 | Hcaptcha | Turnstile.
Inductive CaptchaProvider : Set := Capsolver | TwoCaptcha | Anticaptcha.

Record SolveCaptcha := {
  captcha_type : CaptchaType;
  site_key : string;
  captcha_provider : option CaptchaProvider;
  captcha_action : option string;
  min_score : option spec_float;
  is_invisible : option bool;
}.

(** [fill] and [select] are [BTreeMap]s, in key order. *)
Record FormStep := {
  goto : option string;
  fill : option (list (string * string));
  select : option (list (string * string));
  click : option string;
  wait_for : option string;
  wait_seconds : option spec_float;
  screenshot : option string;
  assert_text : option string;
  solve_captcha : option SolveCaptcha;
}.

Record FormSpec := {
  steps : list FormStep;
  timeout_seconds : option spec_float;
  rate_limit_delay : option spec_float;
  headless : option bool;
}.

(** The fields both kinds of channel carry. *)
Record ChannelCommon := {
  ch_template : option Template;
  ch_locale : option string;
  ch_required_fields : option (list RequiredField);
  ch_supports_suppression : option bool;
  ch_expected_response_days : option Z;
  ch_disabled : option bool;
}.

Inductive Channel : Type :=
| EmailChannel (endpoint : string) (common : ChannelCommon)
| WebFormChannel (url : string) (form_spec : FormSpec) (common : ChannelCommon).

Definition channel_type (c : Channel) : ChannelType :=
  match c with EmailChannel _ _ => EmailType | WebFormChannel _ _ _ => WebFormType end.

Definition channel_common (c : Channel) : ChannelCommon :=
  match c with EmailChannel _ common | WebFormChannel _ _ common => common end.

Record Broker := {
  br_id : string;
  br_name : string;
  br_website : string;
  br_category : Category;
  br_jurisdictions : list Jurisdiction;
  br_laws : list Law;
  br_data_sensitivity : Z;
  br_priority : Priority;
  br_opt_out : list Channel;
  br_verification : option Verification;
  br_disabled : option bool;
  br_added_date : option string;
  br_source : option string;
  br_status : Status;
  br_notes : option string;
}.

(** ** The wire form *)

(** The wire records of verification, form steps and CAPTCHAs have the fields of
    the model records, so only the channels and the broker have their own. *)
Record ChannelWire := {
  cw_channel_type : ChannelType;
  cw_endpoint : option string;
  cw_url : option string;
  cw_form_spec : option FormSpec;
  cw_common : ChannelCommon;
}.

Record BrokerWire := {
  bw_id : string;
  bw_name : string;
  bw_website : string;
  bw_category : Category;
  bw_jurisdictions : list Jurisdiction;
  bw_laws : list Law;
  bw_data_sensitivity : Z;
  bw_priority : Priority;
  bw_opt_out : list ChannelWire;
  bw_verification : option Verification;
  bw_disabled : option bool;
  bw_added_date : option string;
  bw_source : option string;
  bw_status : Status;
  bw_notes : option string;
}.

Definition ChannelWire_into_model (w : ChannelWire) : result string Channel :=
  match cw_channel_type w with
  | EmailType =>
      match cw_endpoint w with
      | None => Err "email channel requires endpoint"
      | Some endpoint =>
          if bool_decide (is_Some (cw_url w)) || bool_decide (is_Some (cw_form_spec w))
          then Err "email channel must not carry web_form fields"
          else Ok (EmailChannel endpoint (cw_common w))
      end
  | WebFormType =>
      match cw_url w, cw_form_spec w with
      | Some url, Some form_spec =>
          if bool_decide (is_Some (cw_endpoint w))
          then Err "web_form channel must not carry email fields"
          else Ok (WebFormChannel url form_spec (cw_common w))
      | _, _ => Err "web_form channel requires url and form_spec"
      end
  end.

(** [iter.map(f).collect::<Result<Vec<_>, _>>()]: the first error wins. *)
Fixpoint collect {E A B} (f : A → result E B) (l : list A) : result E (list B) :=
  match l with
  | [] => Ok []
  | x :: l' => y ← f x; ys ← collect f l'; Ok (y :: ys)
  end.

Definition BrokerWire_into_model (w : BrokerWire) : result string Broker :=
  opt_out ← collect ChannelWire_into_model (bw_opt_out w);
  Ok {|
    br_id := bw_id w; br_name := bw_name w; br_website := bw_website w;
    br_category := bw_category w; br_jurisdictions := bw_jurisdictions w;
    br_laws := bw_laws w; br_data_sensitivity := bw_data_sensitivity w;
    br_priority := bw_priority w; br_opt_out := opt_out;
    br_verification := bw_verification w; br_disabled := bw_disabled w;
    br_added_date := bw_added_date w; br_source := bw_source w;
    br_status := bw_status w; br_notes := bw_notes w |}.

(** ** The filter *)

Record BrokerFilter := {
  bf_jurisdiction : option string;
  bf_law : option string;
  bf_priority : option string;
  bf_category : option string;
  bf_include_disabled : bool;
  bf_status : option string;
  bf_include_inactive : bool;
}.

(** [if let Some(value) = ... && !value.is_empty() && !matches(value)] *)
Definition excluded_by (filter : option string) (matches : string → bool) : bool :=
  match filter with
  | Some value => negb (is_empty value) && negb (matches value)
  | None => false
  end.

Definition filter_accepts (f : BrokerFilter) (b : Broker) : bool :=
  if negb (bf_include_disabled f) && bool_decide (br_disabled b = Some true) then false
  else if excluded_by (bf_jurisdiction f)
      (λ v, existsb (λ j, String.eqb (registry_name j) v) (br_jurisdictions b)) then false
  else if excluded_by (bf_law f)
      (λ v, existsb (λ l, String.eqb (registry_name l) v) (br_laws b)) then false
  else if excluded_by (bf_priority f) (λ v, String.eqb (registry_name (br_priority b)) v)
  then false
  else if excluded_by (bf_category f) (λ v, String.eqb (registry_name (br_category b)) v)
  then false
  else if negb (bf_include_inactive f) then
    let expected :=
      match bf_status f with
      | Some value => if is_empty value then "active" else value
      | None => "active"
      end in
    String.eqb (registry_name (br_status b)) expected
  else true.

Definition filter_brokers (brokers : list Broker) (f : BrokerFilter) : list Broker :=
  filter (λ b, filter_accepts f b = true) brokers.

(** ** Facts *)

Lemma collect_ok {E A B} (f : A → result E B) l ys :
  collect f l = Ok ys ↔ Forall2 (λ x y, f x = Ok y) l ys.
Proof.
  revert ys. induction l as [|x l IH]; intros ys; simpl.
  - split; [intros [= <-]; constructor|by inversion 1].
  - rewrite result_bind_ok. setoid_rewrite result_bind_ok. split.
    + intros (y & Hy & zs & Hzs & [= <-]). constructor; [done|]. by apply IH.
    + inversion 1 as [|? y ? zs Hy Hzs]; subst. exists y. split; [done|].
      exists zs. by rewrite IH.
Qed.

(** A wire channel in its own variant. *)
Definition channel_wire (c : Channel) : ChannelWire :=
  match c with
  | EmailChannel endpoint common =>
      {| cw_channel_type := EmailType; cw_endpoint := Some endpoint; cw_url := None;
         cw_form_spec := None; cw_common := common |}
  | WebFormChannel url form_spec common =>
      {| cw_channel_type := WebFormType; cw_endpoint := None; cw_url := Some url;
         cw_form_spec := Some form_spec; cw_common := common |}
  end.

(** a wire channel is accepted exactly when it is the wire form of a model
    channel: an email channel with its endpoint and no form, or a web form with its
    URL and form and no endpoint; nothing is lost or invented. *)
Theorem ChannelWire_into_model_iff w c :
  ChannelWire_into_model w = Ok c ↔ w = channel_wire c.
Proof.
  unfold ChannelWire_into_model. split.
  - destruct w as [[] [e|] [u|] [f|] common]; simpl; try done; by intros [= <-].
  - intros ->. by destruct c.
Qed.

Definition names (filter : option string) (v : string) : Prop :=
  filter = Some v ∧ v ≠ "".

Lemma excluded_by_false filter p :
  excluded_by filter p = false ↔ ∀ v, names filter v → p v = true.
Proof.
  unfold excluded_by, names. destruct filter as [v|]; simpl.
  - destruct (is_empty v) eqn:E; simpl.
    + apply is_empty_spec in E as ->. split; [|done]. by intros _ v [[= <-] ?].
    + rewrite negb_false_iff. split.
      * by intros Hp u [[= <-] _].
      * intros Hp. apply Hp. split; [done|]. intros ->. done.
  - split; [|done]. by intros _ v [? _].
Qed.

Lemma registry_name_inj_status (a b : Status) : registry_name a = registry_name b → a = b.
Proof. by destruct a, b. Qed.

Lemma existsb_name {A} `{RegistryEnumName A} (l : list A) v :
  existsb (λ x, String.eqb (registry_name x) v) l = true ↔ v ∈ registry_name <$> l.
Proof.
  rewrite existsb_elem, list_elem_of_fmap. split.
  - intros (x & Hx & Hv%String.eqb_eq). by exists x.
  - intros (x & -> & Hx). exists x. by rewrite String.eqb_refl.
Qed.

(** The status a filter asks for. *)
Definition expected_status (f : BrokerFilter) : string :=
  match bf_status f with
  | Some value => if is_empty value then "active" else value
  | None => "active"
  end.

Record wanted (f : BrokerFilter) (b : Broker) : Prop := {
  wanted_disabled : bf_include_disabled f = true ∨ br_disabled b ≠ Some true;
  wanted_jurisdiction : ∀ v, names (bf_jurisdiction f) v → v ∈ registry_name <$> br_jurisdictions b;
  wanted_law : ∀ v, names (bf_law f) v → v ∈ registry_name <$> br_laws b;
  wanted_priority : ∀ v, names (bf_priority f) v → registry_name (br_priority b) = v;
  wanted_category : ∀ v, names (bf_category f) v → registry_name (br_category b) = v;
  wanted_status : bf_include_inactive f = true ∨ registry_name (br_status b) = expected_status f;
}.

Lemma filter_accepts_wanted f b : filter_accepts f b = true ↔ wanted f b.
Proof.
  transitivity (
    (negb (bf_include_disabled f) && bool_decide (br_disabled b = Some true) = false) ∧
    excluded_by (bf_jurisdiction f)
      (λ v, existsb (λ j, String.eqb (registry_name j) v) (br_jurisdictions b)) = false ∧
    excluded_by (bf_law f)
      (λ v, existsb (λ l, String.eqb (registry_name l) v) (br_laws b)) = false ∧
    excluded_by (bf_priority f) (λ v, String.eqb (registry_name (br_priority b)) v) = false ∧
    excluded_by (bf_category f) (λ v, String.eqb (registry_name (br_category b)) v) = false ∧
    (bf_include_inactive f = true ∨ registry_name (br_status b) = expected_status f)).
  - unfold filter_accepts. fold (expected_status f).
    destruct (_ && _), (excluded_by (bf_jurisdiction f) _), (excluded_by (bf_law f) _),
      (excluded_by (bf_priority f) _), (excluded_by (bf_category f) _);
      try (split; [done|by intros (? & ? & ? & ? & ? & ?)]).
    destruct (bf_include_inactive f); simpl; [by split; auto 10|].
    rewrite String.eqb_eq. split; [by auto 10|]. by intros (_ & _ & _ & _ & _ & [?|?]).
  - rewrite !excluded_by_false. setoid_rewrite existsb_name. setoid_rewrite String.eqb_eq.
    rewrite andb_false_iff, negb_false_iff, bool_decide_eq_false.
    split; [intros (? & ? & ? & ? & ? & ?); by split|]. intros []. by split_and!.
Qed.

(** Filtering keeps, in registry order, exactly the brokers that satisfy every
    criterion given: a disabled broker only on request, membership in the named
    jurisdiction and law, the named priority and category, and the asked status
    (active by default) unless inactive ones are included. *)
Theorem filter_brokers_spec brokers f :
  (∀ b, b ∈ filter_brokers brokers f ↔ b ∈ brokers ∧ wanted f b) ∧
  filter_brokers brokers f `sublist_of` brokers.
Proof.
  split; [|apply sublist_filter]. intros b. unfold filter_brokers.
  rewrite list_elem_of_filter, filter_accepts_wanted. tauto.
Qed.
