(* ===== verification/RegistryValidate.v ===== *)
(** * RegistryValidate: the pure part of [symeraseme-core/src/registry/validate.rs]

    The bounded preflight over scanner tokens, the node and depth budget of a
    decoded value, the rejection of explicit nulls, the closed key sets, and the
    validation of a broker document.  The YAML scanner, the YAML decoder and the
    derived [BrokerWire] deserialiser are not in the repository: they are the class
    [Yaml]. The counters of the preflight cannot reach [usize::MAX] (the budgets
    stop them), so their overflow branches have no counterpart. *)

From Corelib Require Import SpecFloat.
From S2P Require Import Prelude.
From S2P Require Import Text.
From S2P Require Import Json.
From S2P Require Import TimeUtil.
From S2P Require Import Registry.

Inductive RegistryError : Type :=
| RegistryIo (path : string) (source : string)
| RegistryYaml (error : string)
| Validation (field : string) (message : string).

Definition MAX_DOCUMENT_BYTES : Z := 1048576.
Definition MAX_YAML_NODES : Z := 16384.
Definition MAX_YAML_DEPTH : Z := 64.

Definition validation {A} (field message : string) : result RegistryError A :=
  Err (Validation field message).

Definition prefix_error (field : string) (error : RegistryError) : RegistryError :=
  match error with
  | Validation inner message => Validation (field +:+ "." +:+ inner) message
  | other => other
  end.

(** [scanner::TokenType], without the payloads the preflight ignores. *)
Inductive TokenType : Set :=
| StreamStart | StreamEnd | DocumentStart | DocumentEnd
| Alias | Anchor
| BlockSequenceStart | BlockMappingStart | FlowSequenceStart | FlowMappingStart
| Scalar
| BlockEnd | FlowSequenceEnd | FlowMappingEnd
| VersionDirective | TagDirective | BlockEntry | FlowEntry | Key | ValueToken | Tag.

(** [serde_yaml::Value] *)
Inductive yaml : Type :=
| YNull
| YBool (b : bool)
| YNumber (n : number)
| YString (s : string)
| YSequence (items : list yaml)
| YMapping (entries : list (yaml * yaml))
| YTagged (tag : string) (v : yaml).

Class Yaml := {
  (** The scanner's tokens and the error it stopped at. *)
  scan_tokens : string → list TokenType * option string;
  yaml_from_str : string → result string yaml;
  broker_from_value : yaml → result string BrokerWire;
}.

(** ** Preflight *)

Record YamlPreflight := {
  documents : Z;
  nodes : Z;
  depth : Z;
  has_content : bool;
  after_document_end : bool;
}.

Definition preflight_start : YamlPreflight := {|
  documents := 0; nodes := 0; depth := 0; has_content := false; after_document_end := false |}.

Definition note_node (s : YamlPreflight) : result RegistryError YamlPreflight :=
  if after_document_end s then
    validation "document" "content after explicit YAML document end is not allowed"
  else
    let n := nodes s + 1 in
    if MAX_YAML_NODES <? n then validation "document" "YAML node budget exceeded"
    else Ok {|
      documents := if documents s =? 0 then 1 else documents s;
      nodes := n; depth := depth s; has_content := true;
      after_document_end := after_document_end s |}.

Definition set_depth (d : Z) (s : YamlPreflight) : YamlPreflight := {|
  documents := documents s; nodes := nodes s; depth := d;
  has_content := has_content s; after_document_end := after_document_end s |}.

Definition preflight_token (s : YamlPreflight) (token : TokenType)
    : result RegistryError YamlPreflight :=
  match token with
  | StreamStart | StreamEnd => Ok s
  | DocumentStart =>
      if (0 <? documents s) || has_content s then
        validation "document" "multiple YAML documents are not allowed"
      else Ok {| documents := 1; nodes := nodes s; depth := depth s; has_content := false;
                 after_document_end := false |}
  | DocumentEnd =>
      if negb (has_content s) then
        validation "document" "empty YAML documents are not allowed"
      else Ok {| documents := if documents s =? 0 then 1 else documents s; nodes := nodes s;
                 depth := depth s; has_content := has_content s; after_document_end := true |}
  | Alias | Anchor => validation "document" "YAML anchors and aliases are not allowed"
  | BlockSequenceStart | BlockMappingStart | FlowSequenceStart | FlowMappingStart =>
      s ← note_node s;
      if MAX_YAML_DEPTH <? depth s + 1 then validation "document" "YAML depth budget exceeded"
      else Ok (set_depth (depth s + 1) s)
  | Scalar => note_node s
  | BlockEnd | FlowSequenceEnd | FlowMappingEnd =>
      if depth s =? 0 then validation "document" "YAML nesting is unbalanced"
      else Ok (set_depth (depth s - 1) s)
  | VersionDirective | TagDirective | BlockEntry | FlowEntry | Key | ValueToken | Tag =>
      if after_document_end s then
        validation "document" "content after explicit YAML document end is not allowed"
      else Ok s
  end.

Fixpoint preflight_tokens (s : YamlPreflight) (tokens : list TokenType)
    : result RegistryError YamlPreflight :=
  match tokens with
  | [] => Ok s
  | t :: tokens' => s ← preflight_token s t; preflight_tokens s tokens'
  end.

Definition preflight_source `{Yaml} (source : string) : result RegistryError () :=
  if MAX_DOCUMENT_BYTES <? len source then
    validation "document" ("exceeds " +:+ show MAX_DOCUMENT_BYTES +:+ " bytes")
  else
    let (tokens, error) := scan_tokens source in
    state ← preflight_tokens preflight_start tokens;
    match error with
    | Some error => validation "document" error
    | None =>
        if negb (depth state =? 0) then validation "document" "YAML nesting is unbalanced"
        else if negb (documents state =? 1) || negb (has_content state) then
          validation "document" "exactly one non-empty YAML document is required"
        else Ok ()
    end.

(** ** Budget and nulls of a decoded value *)

(** The children a value puts on the stack; the last pushed is popped first. *)
Definition pushed_children (v : yaml) : list yaml :=
  match v with
  | YMapping entries => reverse (entries ≫= λ kv, [kv.1; kv.2])
  | YSequence items => reverse items
  | YTagged _ v => [v]
  | _ => []
  end.

(** The loop pops at most [MAX_YAML_NODES + 1] values before it stops. *)
Fixpoint budget_loop (fuel : nat) (stack : list (yaml * Z)) (count : Z)
    : option (result RegistryError Z) :=
  match stack with
  | [] => Some (Ok count)
  | (v, d) :: stack =>
      match fuel with
      | O => None
      | S fuel =>
          let count := count + 1 in
          if MAX_YAML_NODES <? count then
            Some (validation "document" "YAML node budget exceeded")
          else if MAX_YAML_DEPTH <? d then
            Some (validation "document" "YAML depth budget exceeded")
          else budget_loop fuel (((λ c, (c, d + 1)) <$> pushed_children v) ++ stack) count
      end
  end.

Definition check_value_budget (root : yaml) : option (result RegistryError Z) :=
  budget_loop (S (Z.to_nat MAX_YAML_NODES)) [(root, 1)] 0.

Definition as_yaml_str (v : yaml) : option string :=
  match v with YString s => Some s | _ => None end.

Definition pushed_paths (v : yaml) (path : string) : list (yaml * string) :=
  match v with
  | YMapping entries =>
      reverse (entries ≫= λ kv,
        let key_path :=
          match as_yaml_str kv.1 with Some key => "$." +:+ key | None => "$[key]" end in
        [(kv.1, key_path +:+ "[name]"); (kv.2, key_path)])
  | YSequence items =>
      reverse (imap (λ index v, (v, path +:+ "[" +:+ show (Z.of_nat index) +:+ "]")) items)
  | YTagged _ v => [(v, path)]
  | _ => []
  end.

Fixpoint nulls_loop (fuel : nat) (stack : list (yaml * string)) : option (result RegistryError ()) :=
  match stack with
  | [] => Some (Ok ())
  | (v, path) :: stack =>
      match fuel with
      | O => None
      | S fuel =>
          match v with
          | YNull => Some (validation path
              "explicit YAML null is not allowed; omit the field instead")
          | _ => nulls_loop fuel (pushed_paths v path ++ stack)
          end
      end
  end.

(** Every node of the value is popped at most once. *)
Fixpoint yaml_size (v : yaml) : nat :=
  S match v with
    | YSequence items => list_sum (List.map yaml_size items)
    | YMapping entries => list_sum (List.map (λ kv, yaml_size kv.1 + yaml_size kv.2)%nat entries)
    | YTagged _ v => yaml_size v
    | _ => 0
    end.

Definition reject_explicit_nulls (root : yaml) : option (result RegistryError ()) :=
  nulls_loop (yaml_size root) [(root, "$")].

(** ** Key sets *)

Definition BROKER_KEYS : list string :=
  ["id"; "name"; "website"; "category"; "jurisdictions"; "laws"; "data_sensitivity";
   "priority"; "opt_out"; "verification"; "disabled"; "added_date"; "source"; "status"; "notes"].
Definition COMMON_CHANNEL_KEYS : list string :=
  ["type"; "template"; "locale"; "required_fields"; "supports_suppression";
   "expected_response_days"; "disabled"].
Definition EMAIL_CHANNEL_KEYS : list string := ["endpoint"].
Definition WEB_FORM_CHANNEL_KEYS : list string := ["url"; "form_spec"].
Definition FORM_SPEC_KEYS : list string :=
  ["steps"; "timeout_seconds"; "rate_limit_delay"; "headless"].
Definition FORM_STEP_KEYS : list string :=
  ["goto"; "fill"; "select"; "click"; "wait_for"; "wait_seconds"; "screenshot"; "assert_text";
   "solve_captcha"].
Definition CAPTCHA_KEYS : list string :=
  ["type"; "site_key"; "provider"; "action"; "min_score"; "is_invisible"].

Definition as_mapping (v : yaml) : option (list (yaml * yaml)) :=
  match v with YMapping m => Some m | _ => None end.
Definition as_sequence (v : yaml) : option (list yaml) :=
  match v with YSequence l => Some l | _ => None end.

(** [mapping.get(Value::String(key))] *)
Definition yaml_get (key : string) (m : list (yaml * yaml)) : option yaml :=
  snd <$> List.find (λ kv, match kv.1 with YString s => String.eqb s key | _ => false end) m.

Definition yaml_field (key : string) (v : yaml) : option yaml :=
  m ← as_mapping v; yaml_get key m.

Definition yaml_items (key : string) (v : yaml) : option (list yaml) :=
  field ← yaml_field key v; as_sequence field.

(** [for x in l { f(x)? }] *)
Fixpoint try_each {E A} (f : A → result E ()) (l : list A) : result E () :=
  match l with
  | [] => Ok ()
  | x :: l' => _ ← f x; try_each f l'
  end.

Section validate.
Context `{RustFmt}.

Definition validate_object_keys (raw : yaml) (allowed : list string) (boundary : string)
    : result RegistryError () :=
  match as_mapping raw with
  | None => Ok ()
  | Some mapping =>
      try_each (λ kv, match as_yaml_str kv.1 with
        | None => validation boundary "object keys must be strings"
        | Some key =>
            if str_in key allowed then Ok ()
            else validation boundary ("unknown field " +:+ debug_str key)
        end) mapping
  end.

Definition validate_form_spec_keys (raw : yaml) : result RegistryError () :=
  _ ← validate_object_keys raw FORM_SPEC_KEYS "form_spec";
  match yaml_items "steps" raw with
  | None => Ok ()
  | Some steps =>
      try_each (λ step,
        _ ← validate_object_keys step FORM_STEP_KEYS "form_step";
        match yaml_field "solve_captcha" step with
        | Some captcha => validate_object_keys captcha CAPTCHA_KEYS "solve_captcha"
        | None => Ok ()
        end) steps
  end.

Definition channel_keys (kind : string) : list string :=
  COMMON_CHANNEL_KEYS ++
  (if String.eqb kind "email" then EMAIL_CHANNEL_KEYS
   else if String.eqb kind "web_form" then WEB_FORM_CHANNEL_KEYS else []).

Definition validate_channel_keys (raw : yaml) : result RegistryError () :=
  match yaml_items "opt_out" raw with
  | None => Ok ()
  | Some channels =>
      try_each (λ channel,
        match as_mapping channel with
        | None => Ok ()
        | Some channel_map =>
            let kind := default "" (kind ← yaml_get "type" channel_map; as_yaml_str kind) in
            _ ← validate_object_keys channel (channel_keys kind) "channel";
            match yaml_get "form_spec" channel_map with
            | Some form_spec =>
                if String.eqb kind "web_form" then validate_form_spec_keys form_spec else Ok ()
            | None => Ok ()
            end
        end) channels
  end.

(** ** Fields *)

(** [rest.split(['/', '?', '#']).next()] *)
Fixpoint authority_of (rest : string) : string :=
  match rest with
  | "" => ""
  | String c rest' =>
      if Ascii.eqb c "/" || Ascii.eqb c "?" || Ascii.eqb c "#" then ""
      else String c (authority_of rest')
  end.

Definition valid_uri (field value : string) : result RegistryError () :=
  if is_empty value then validation field "is required"
  else if contains_whitespace value then validation field (debug_str value +:+ " contains whitespace")
  else if contains_control value then
    validation field (debug_str value +:+ " contains a control character")
  else
    match or_else (strip_prefix "https://" value) (strip_prefix "http://" value) with
    | None => validation field (debug_str value +:+ " is not an absolute http(s) URI")
    | Some rest =>
        if is_empty (authority_of rest) then validation field (debug_str value +:+ " has no host")
        else Ok ()
    end.

Definition valid_email (value : string) : bool :=
  match rsplit_once "@" value with
  | None => false
  | Some (local, domain) =>
      negb (is_empty local) && negb (is_empty domain) && negb (contains_whitespace value)
      && negb (contains "@" local) && negb (starts_with "." domain)
      && negb (ends_with "." domain)
  end.

Definition digit_at (n : nat) (s : string) : Z :=
  match String.get n s with Some c => digit_value c | None => 0 end.

Fixpoint date_shape (index : nat) (s : string) : bool :=
  match s with
  | "" => true
  | String c s' =>
      (if (index =? 4)%nat || (index =? 7)%nat then Ascii.eqb c "-" else is_ascii_digit c)
      && date_shape (S index) s'
  end.

Definition leap_year (year : Z) : bool :=
  (year mod 4 =? 0) && (negb (year mod 100 =? 0) || (year mod 400 =? 0)).

Definition days_in_month (year month : Z) : Z :=
  if month =? 2 then (if leap_year year then 29 else 28)
  else if (month =? 4) || (month =? 6) || (month =? 9) || (month =? 11) then 30 else 31.

Definition is_iso_date (value : string) : bool :=
  if negb (len value =? 10) || negb (date_shape 0 value) then false
  else
    let year := digit_at 0 value * 1000 + digit_at 1 value * 100
                + digit_at 2 value * 10 + digit_at 3 value in
    let month := digit_at 5 value * 10 + digit_at 6 value in
    let day := digit_at 8 value * 10 + digit_at 9 value in
    if negb ((1 <=? month) && (month <=? 12)) then false
    else (1 <=? day) && (day <=? days_in_month year month).

Definition is_locale (value : string) : bool :=
  ((len value =? 2) && str_forallb is_ascii_lowercase value)
  || ((len value =? 5)
      && match String.get 2 value with Some c => Ascii.eqb c "-" | None => false end
      && str_forallb is_ascii_lowercase (String.substring 0 2 value)
      && str_forallb is_ascii_uppercase (String.substring 3 2 value)).

Definition selector_start (c : ascii) : bool :=
  is_ascii_alphabetic c || existsb (Ascii.eqb c) ["["; "#"; "."; "*"]%char.

Definition selector_char (c : ascii) : bool :=
  is_ascii_alphabetic c || is_ascii_digit c
  || existsb (Ascii.eqb c)
       ["["; "]"; "="; "."; "'"; b 34; "_"; ":"; "#"; "-"; " "; "*"; ">"; ","; "~"; "+"]%char.

Definition is_selector (value : string) : bool :=
  match value with
  | "" => false
  | String first rest => selector_start first && str_forallb selector_char rest
  end.

(** ** Documents *)

Definition f64_finite (f : spec_float) : bool :=
  match f with S754_zero _ | S754_finite _ _ _ => true | _ => false end.

Definition below (f : spec_float) (bound : Z) : bool := negb (f64_finite f) || SFltb f (f64_of_Z bound).

Definition validate_captcha (c : SolveCaptcha) : result RegistryError () :=
  if len (site_key c) <? 8 then validation "solve_captcha.site_key" "must be at least 8 chars"
  else
    match min_score c with
    | Some score =>
        if negb (f64_finite score)
           || negb (SFleb (f64_of_Z 0) score && SFleb score (f64_of_Z 1))
        then validation "solve_captcha.min_score" "out of range 0..1" else Ok ()
    | None => Ok ()
    end.

Definition some_nonempty (o : option string) : bool :=
  match o with Some s => negb (is_empty s) | None => false end.
Definition some_empty (o : option string) : bool :=
  match o with Some s => is_empty s | None => false end.
Definition some_entries (o : option (list (string * string))) : bool :=
  match o with Some (_ :: _) => true | _ => false end.

Definition step_present (s : FormStep) : bool :=
  some_nonempty (goto s) || some_entries (fill s) || some_entries (select s)
  || some_nonempty (click s) || some_nonempty (wait_for s)
  || bool_decide (is_Some (wait_seconds s)) || some_nonempty (screenshot s)
  || some_nonempty (assert_text s)
  || match solve_captcha s with Some _ => true | None => false end.

Definition validate_form_step (s : FormStep) : result RegistryError () :=
  _ ← try_each (λ fv : string * option string,
        if some_empty fv.2 then validation fv.1 "must not be empty when present" else Ok ())
      [("goto", goto s); ("click", click s); ("wait_for", wait_for s);
       ("screenshot", screenshot s); ("assert_text", assert_text s)];
  if negb (step_present s) then validation "step" "must contain at least 1 action"
  else if match wait_seconds s with Some w => below w 0 | None => false end
  then validation "wait_seconds" "must be >= 0"
  else
    _ ← try_each (λ selectors,
          try_each (λ kv : string * string,
            if is_selector kv.1 then Ok ()
            else validation "selector" (debug_str kv.1 +:+ " does not look like a CSS selector"))
          selectors)
        (option_list (fill s) ++ option_list (select s));
    match solve_captcha s with Some c => validate_captcha c | None => Ok () end.

(** [for (index, x) in l.iter().enumerate()] with a path prefix on the error. *)
Definition try_indexed {A} (f : A → result RegistryError ()) (label : string) (l : list A)
    : result RegistryError () :=
  try_each (λ p : nat * A, map_err
      (prefix_error (label +:+ "[" +:+ show (Z.of_nat p.1) +:+ "]")) (f p.2))
    (imap pair l).

Definition validate_form_spec (f : FormSpec) : result RegistryError () :=
  if match steps f with [] => true | _ => false end
  then validation "form_spec" "requires at least 1 step"
  else if match timeout_seconds f with Some t => below t 1 | None => false end
  then validation "timeout_seconds" "must be >= 1"
  else if match rate_limit_delay f with Some t => below t 0 | None => false end
  then validation "rate_limit_delay" "must be >= 0"
  else try_indexed validate_form_step "steps" (steps f).

Definition validate_channel (c : Channel) : result RegistryError () :=
  _ ← match c with
      | EmailChannel endpoint _ =>
          if valid_email endpoint then Ok ()
          else validation "endpoint" (debug_str endpoint +:+ " is not a valid email")
      | WebFormChannel url form_spec _ =>
          _ ← valid_uri "url" url; validate_form_spec form_spec
      end;
  let common := channel_common c in
  if match ch_locale common with Some l => negb (is_locale l) | None => false end
  then validation "locale" (debug_str (default "" (ch_locale common))
                            +:+ " does not match RFC 5646 pattern")
  else if match ch_expected_response_days common with Some d => d <? 1 | None => false end
  then validation "expected_response_days" "must be >= 1"
  else Ok ().

Definition id_char (c : ascii) : bool :=
  is_ascii_lowercase c || is_ascii_digit c || Ascii.eqb c "-".

Definition validate_broker (file_stem : string) (b : Broker) : result RegistryError Broker :=
  if negb (String.eqb (br_id b) file_stem) then
    validation "id" (debug_str (br_id b) +:+ " does not equal file stem " +:+ debug_str file_stem)
  else if is_empty (br_id b) || negb (str_forallb id_char (br_id b)) then
    validation "id" "does not match ^[a-z0-9-]+$"
  else if is_empty (trim (br_name b)) then validation "name" "is required"
  else
    _ ← valid_uri "website" (br_website b);
    if match br_jurisdictions b with [] => true | _ => false end then
      validation "jurisdictions" "must have at least 1 entry"
    else if match br_laws b with [] => true | _ => false end then
      validation "laws" "must have at least 1 entry"
    else if negb ((1 <=? br_data_sensitivity b) && (br_data_sensitivity b <=? 5)) then
      validation "data_sensitivity" "out of range 1..5"
    else if match br_opt_out b with [] => true | _ => false end then
      validation "opt_out" "must have at least 1 channel"
    else
      _ ← try_indexed validate_channel "opt_out" (br_opt_out b);
      if match br_added_date b with Some d => negb (is_iso_date d) | None => false end then
        validation "added_date" (debug_str (default "" (br_added_date b))
                                 +:+ " is not ISO 8601 date")
      else Ok b.

(** [decode_with_metrics]; the outer option is the fuel of the two stack loops. *)
Definition decode_with_metrics `{Yaml} (file_stem source : string)
    : option (result RegistryError (Broker * Z)) :=
  match preflight_source source with
  | Err e => Some (Err e)
  | Ok _ =>
      match yaml_from_str source with
      | Err e => Some (Err (RegistryYaml e))
      | Ok raw =>
          budget ← check_value_budget raw;
          nulls ← reject_explicit_nulls raw;
          Some (
            count ← budget;
            _ ← nulls;
            _ ← validate_object_keys raw BROKER_KEYS "top-level";
            _ ← validate_channel_keys raw;
            wire ← map_err RegistryYaml (broker_from_value raw);
            broker ← map_err (Validation "channel") (BrokerWire_into_model wire);
            broker ← validate_broker file_stem broker;
            Ok (broker, count))
      end
  end.
End validate.
