(* ===== verification/RegistryFacts.v ===== *)
(** * RegistryFacts: what an accepted registry document satisfies *)
From S2P Require Import Prelude.
From S2P Require Import Text.
From S2P Require Import Json.
From S2P Require Import TimeUtil.
From S2P Require Import Registry.
From S2P Require Import RegistryValidate.
From Corelib Require Import SpecFloat.

(** ** The stack loops visit every node *)

Fixpoint yaml_height (v : yaml) : nat :=
  S match v with
    | YSequence items => list_max (List.map yaml_height items)
    | YMapping entries => list_max (List.map (λ kv, yaml_height kv.1 `max` yaml_height kv.2)%nat entries)
    | YTagged _ v => yaml_height v
    | _ => 0
    end.

Fixpoint has_null (v : yaml) : bool :=
  match v with
  | YNull => true
  | YSequence items => existsb id (List.map has_null items)
  | YMapping entries => existsb id (List.map (λ kv, has_null kv.1 || has_null kv.2) entries)
  | YTagged _ v => has_null v
  | _ => false
  end.

Definition total (l : list yaml) : nat := list_sum (List.map yaml_size l).

Lemma total_app l1 l2 : total (l1 ++ l2) = (total l1 + total l2)%nat.
Proof. unfold total. by rewrite map_app, list_sum_app. Qed.

Lemma total_Permutation l1 l2 : l1 ≡ₚ l2 → total l1 = total l2.
Proof. unfold total, list_sum. induction 1; simpl; lia. Qed.

Lemma total_children v : total (pushed_children v) = (yaml_size v - 1)%nat.
Proof.
  destruct v as [| | | |items|entries|]; try done; simpl.
  - rewrite (total_Permutation _ items) by apply reverse_Permutation. unfold total. lia.
  - rewrite (total_Permutation _ (entries ≫= λ kv, [kv.1; kv.2])) by apply reverse_Permutation.
    rewrite Nat.sub_0_r. induction entries as [|[k x] entries IH]; [done|].
    csimpl. rewrite <-IH. unfold total, list_sum. simpl. lia.
  - unfold total. simpl. lia.
Qed.

Lemma existsb_id_map {A} (f : A → bool) l : existsb id (List.map f l) = existsb f l.
Proof. induction l; simpl; congruence. Qed.

Lemma existsb_Permutation {A} (f : A → bool) l1 l2 : l1 ≡ₚ l2 → existsb f l1 = existsb f l2.
Proof. induction 1; simpl; [done|congruence| |congruence]. by destruct (f x), (f y). Qed.

Lemma has_null_children v :
  has_null v = match v with YNull => true | _ => existsb has_null (pushed_children v) end.
Proof.
  destruct v as [| | | |items|entries|]; try done; simpl.
  - by rewrite existsb_id_map, (existsb_Permutation _ (reverse items) items)
      by apply reverse_Permutation.
  - rewrite existsb_id_map.
    rewrite (existsb_Permutation _ _ (entries ≫= λ kv, [kv.1; kv.2])) by apply reverse_Permutation.
    induction entries as [|[k x] entries IH]; [done|]. csimpl. by rewrite IH, orb_assoc.
  - by rewrite orb_false_r.
Qed.

Definition fits (limit : nat) (v : yaml) : Prop := (yaml_height v ≤ limit)%nat.

Lemma list_max_map_le {A} (f : A → nat) l n :
  (list_max (List.map f l) ≤ n)%nat ↔ Forall (λ x, (f x ≤ n)%nat) l.
Proof. rewrite list_max_le, List.Forall_map. done. Qed.

Lemma fits_children n v : fits (S n) v ↔ Forall (fits n) (pushed_children v).
Proof.
  unfold fits. destruct v as [| | | |items|entries|]; simpl; try (split; [by constructor|lia]).
  - rewrite <-Nat.succ_le_mono, list_max_map_le. by rewrite (reverse_Permutation items).
  - rewrite <-Nat.succ_le_mono, list_max_map_le, reverse_Permutation.
    induction entries as [|[k x] entries IH]; csimpl; [done|].
    rewrite !Forall_cons, IH. split; [intros [? ?]; split_and!; simpl in *; [lia|lia|done]|].
    intros (? & ? & ?). split; [simpl in *; lia|done].
  - rewrite Forall_singleton. lia.
Qed.

Lemma yaml_size_pos v : (1 ≤ yaml_size v)%nat.
Proof. destruct v; simpl; lia. Qed.

(** The two budgets of a stack of pending values. *)
Definition within (stack : list (yaml * Z)) (count n : Z) : Prop :=
  n = count + Z.of_nat (total stack.*1) ∧ n ≤ MAX_YAML_NODES ∧
  Forall (λ p, 1 ≤ p.2 ∧ Z.of_nat (yaml_height p.1) + p.2 - 1 ≤ MAX_YAML_DEPTH) stack.

Lemma yaml_height_pos v : (1 ≤ yaml_height v)%nat.
Proof. destruct v; simpl; lia. Qed.

Lemma within_push v d stack count n :
  1 ≤ d ≤ MAX_YAML_DEPTH →
  within ((v, d) :: stack) count n ↔
  within (((λ c, (c, d + 1)) <$> pushed_children v) ++ stack) (count + 1) n.
Proof.
  intros Hd. unfold within. rewrite fmap_app, <-list_fmap_compose, total_app.
  change ((fst ∘ λ c : yaml, (c, d + 1)) <$> pushed_children v) with (id <$> pushed_children v).
  rewrite list_fmap_id, total_children, Forall_cons, Forall_app, Forall_fmap.
  pose proof (yaml_size_pos v) as Hs. csimpl. change (total (v :: stack.*1))
    with (yaml_size v + total stack.*1)%nat.
  assert (Hdepth : (1 ≤ d ∧ Z.of_nat (yaml_height v) + d - 1 ≤ MAX_YAML_DEPTH) ↔
    Forall ((λ p : yaml * Z, 1 ≤ p.2 ∧ Z.of_nat (yaml_height p.1) + p.2 - 1 ≤ MAX_YAML_DEPTH)
      ∘ (λ c, (c, d + 1))) (pushed_children v)).
  { trans (fits (S (Z.to_nat (MAX_YAML_DEPTH - d))) v); [unfold fits; lia|].
    rewrite fits_children. unfold fits, MAX_YAML_DEPTH in *. apply Forall_iff. intros c. simpl.
    split; [intros ?; lia|intros [? ?]; lia]. }
  rewrite <-Hdepth. split; intros (? & ? & ? & ?); split_and!; auto; lia.
Qed.

Lemma budget_loop_spec fuel stack count :
  0 ≤ count ≤ MAX_YAML_NODES → MAX_YAML_NODES - count < Z.of_nat fuel →
  Forall (λ p, 1 ≤ p.2) stack →
  ∃ r, budget_loop fuel stack count = Some r ∧ ∀ n, r = Ok n ↔ within stack count n.
Proof.
  revert stack count. induction fuel as [|fuel IH]; intros stack count Hc Hf Hstack; [lia|].
  destruct stack as [|[v d] stack]; simpl.
  - eexists. split; [done|]. intros n. unfold within.
    change (Z.of_nat (total ([] : list (yaml * Z)).*1)) with 0. split.
    + intros [= <-]. split_and!; [lia|lia|constructor].
    + intros (-> & _). f_equal. lia.
  - apply Forall_cons in Hstack as [Hd Hstack]. simpl in Hd.
    destruct (Z.ltb_spec MAX_YAML_NODES (count + 1)) as [Hover|Hok].
    { eexists. split; [done|]. intros n. split; [done|]. intros (-> & Hn & _).
      pose proof (yaml_size_pos v). csimpl in Hn.
      change (total (v :: stack.*1)) with (yaml_size v + total stack.*1)%nat in Hn. lia. }
    destruct (Z.ltb_spec MAX_YAML_DEPTH d) as [Hdeep|Hdok].
    { eexists. split; [done|]. intros n. split; [done|].
      intros (_ & _ & [[_ Hh] _]%Forall_cons). simpl in Hh.
      pose proof (yaml_height_pos v). lia. }
    destruct (IH (((λ c, (c, d + 1)) <$> pushed_children v) ++ stack) (count + 1))
      as (r & -> & Hr); [lia|lia| |].
    { apply Forall_app. split; [|done]. apply Forall_fmap, Forall_true. simpl. lia. }
    exists r. split; [done|]. intros n. rewrite Hr. symmetry. by apply within_push.
Qed.

Lemma budget_total root :
  ∃ r, check_value_budget root = Some r ∧
    ∀ n, r = Ok n ↔
      n = Z.of_nat (yaml_size root) ∧ n ≤ 16384 ∧ (yaml_height root ≤ 64)%nat.
Proof.
  unfold check_value_budget.
  destruct (budget_loop_spec (S (Z.to_nat MAX_YAML_NODES)) [(root, 1)] 0) as (r & Hr & Hspec).
  - unfold MAX_YAML_NODES. lia.
  - unfold MAX_YAML_NODES. lia.
  - by repeat constructor.
  - exists r. split; [done|]. intros n. rewrite Hspec. unfold within, total, list_sum,
      MAX_YAML_NODES, MAX_YAML_DEPTH. simpl. rewrite Forall_singleton. simpl.
    rewrite Nat.add_0_r. split; intros (-> & ? & ?); split_and!; lia.
Qed.

(** the budget check always ends, and accepts exactly the values with at most
    16384 nodes and at most 64 levels, returning the number of nodes. *)
Theorem check_value_budget_spec root :
  ∃ r, check_value_budget root = Some r ∧
    ∀ n, r = Ok n ↔
      n = Z.of_nat (yaml_size root) ∧ n ≤ 16384 ∧ (yaml_height root ≤ 64)%nat.
Proof. apply budget_total. Qed.

Lemma pushed_paths_values v path : (pushed_paths v path).*1 = pushed_children v.
Proof.
  destruct v as [| | | |items|entries|]; try done; simpl; rewrite fmap_reverse; f_equal.
  - apply list_eq. intros i. rewrite list_lookup_fmap, list_lookup_imap. by destruct (items !! i).
  - induction entries as [|[k x] entries IH]; [done|]. csimpl. by rewrite IH.
Qed.

Lemma existsb_false {A} (f : A → bool) l : existsb f l = false ↔ Forall (λ x, f x = false) l.
Proof.
  induction l as [|x l IH]; simpl; [done|]. by rewrite orb_false_iff, Forall_cons, IH.
Qed.

Lemma has_null_pushed v : v ≠ YNull → existsb has_null (pushed_children v) = has_null v.
Proof. intros Hne. rewrite (has_null_children v). by destruct v. Qed.

Lemma nulls_loop_spec fuel stack :
  (total stack.*1 ≤ fuel)%nat →
  ∃ r, nulls_loop fuel stack = Some r ∧
    (r = Ok () ↔ Forall (λ p, has_null p.1 = false) stack).
Proof.
  revert stack. induction fuel as [|fuel IH]; intros stack Hf.
  - destruct stack as [|[v p] stack]; simpl; [by eexists|].
    csimpl in Hf. unfold total in Hf. simpl in Hf. pose proof (yaml_size_pos v). lia.
  - destruct stack as [|[v p] stack]; simpl; [by eexists|].
    csimpl in Hf. change (total (v :: stack.*1)) with (yaml_size v + total stack.*1)%nat in Hf.
    pose proof (yaml_size_pos v).
    assert (v = YNull ∨ v ≠ YNull) as [->|Hne] by (destruct v; auto).
    { eexists. split; [done|]. rewrite Forall_cons. split; [done|]. by intros [? _]. }
    destruct (IH (pushed_paths v p ++ stack)) as (r & Hr & Hspec).
    { rewrite fmap_app, pushed_paths_values, total_app, total_children. lia. }
    exists r. split; [by destruct v|]. rewrite Hspec, Forall_app, Forall_cons. simpl.
    rewrite <-(has_null_pushed v Hne), <-(pushed_paths_values v p), existsb_false, Forall_fmap.
    done.
Qed.

Lemma nulls_total root :
  ∃ r, reject_explicit_nulls root = Some r ∧ (r = Ok () ↔ has_null root = false).
Proof.
  destruct (nulls_loop_spec (yaml_size root) [(root, "$")]) as (r & Hr & Hspec).
  - unfold total, list_sum. simpl. lia.
  - exists r. split; [done|]. by rewrite Hspec, Forall_singleton.
Qed.

(** the null check always ends, and accepts exactly the values in which no
    null occurs at any depth, as a key, an element, a field or under a tag. *)
Theorem reject_explicit_nulls_spec root :
  ∃ r, reject_explicit_nulls root = Some r ∧ (r = Ok () ↔ has_null root = false).
Proof. apply nulls_total. Qed.

(** ** The preflight *)

Definition opens (t : TokenType) : bool :=
  match t with
  | BlockSequenceStart | BlockMappingStart | FlowSequenceStart | FlowMappingStart => true
  | _ => false
  end.
Definition closes (t : TokenType) : bool :=
  match t with BlockEnd | FlowSequenceEnd | FlowMappingEnd => true | _ => false end.
Definition is_node (t : TokenType) : bool :=
  match t with Scalar => true | _ => opens t end.

Definition is_start (t : TokenType) : bool :=
  match t with DocumentStart => true | _ => false end.

Definition count_tokens (p : TokenType → bool) (l : list TokenType) : Z :=
  Z.of_nat (List.length (filter (λ t, p t = true) l)).

Definition level (l : list TokenType) : Z := count_tokens opens l - count_tokens closes l.

Lemma count_tokens_snoc p l t :
  count_tokens p (l ++ [t]) = count_tokens p l + (if p t then 1 else 0).
Proof.
  unfold count_tokens. rewrite filter_app, length_app, filter_cons, filter_nil.
  destruct (p t); simpl; lia.
Qed.

(** What has been read so far. *)
Record preflight_inv (seen : list TokenType) (s : YamlPreflight) : Prop := {
  pi_nodes : nodes s = count_tokens is_node seen ∧ nodes s ≤ MAX_YAML_NODES;
  pi_depth : depth s = level seen ∧ 0 ≤ depth s ≤ MAX_YAML_DEPTH;
  pi_content : has_content s = true → 0 < count_tokens is_node seen;
  pi_documents : 0 ≤ documents s ≤ 1 ∧ (has_content s = true → documents s = 1);
  pi_starts : count_tokens is_start seen ≤ documents s;
  pi_anchors : Forall (λ t, t ≠ Alias ∧ t ≠ Anchor) seen;
}.

Lemma preflight_start_inv : preflight_inv [] preflight_start.
Proof. split; unfold level, count_tokens, MAX_YAML_NODES, MAX_YAML_DEPTH; simpl; try done; lia. Qed.

Ltac preflight_case :=
  repeat match goal with
  | H : (if ?c then _ else _) = Ok _ |- _ => destruct c eqn:?; [discriminate H|]
  | H : validation _ _ = Ok _ |- _ => discriminate H
  | H : (_ ≫= _) = Ok _ |- _ => apply result_bind_ok in H as (? & ? & H)
  | H : Ok _ = Ok _ |- _ => injection H as <-
  end; simpl in *.

Lemma note_node_ok s s' :
  note_node s = Ok s' →
  nodes s' = nodes s + 1 ∧ nodes s' ≤ MAX_YAML_NODES ∧ depth s' = depth s ∧
  has_content s' = true ∧ (0 ≤ documents s ≤ 1 → documents s' = 1).
Proof.
  unfold note_node. intros Hn. preflight_case. split_and!; try done; [lia|].
  destruct (_ =? 0) eqn:?; lia.
Qed.

Lemma preflight_token_inv seen s t s' :
  preflight_inv seen s → preflight_token s t = Ok s' → preflight_inv (seen ++ [t]) s'.
Proof.
  intros [[Hn Hn'] [Hd Hd'] Hc [Hdoc Hdoc'] Hst Ha] Ht.
  assert (Hnn : 0 ≤ count_tokens is_node seen) by (unfold count_tokens; lia).
  assert (Ha' : t ≠ Alias ∧ t ≠ Anchor) by (split; intros ->; done).
  unfold level in *. split; rewrite ?Forall_app, ?Forall_singleton, ?count_tokens_snoc;
    try (by split); unfold level; rewrite ?count_tokens_snoc;
    destruct t; simpl in *; preflight_case;
    repeat match goal with H : note_node _ = Ok _ |- _ => apply note_node_ok in H as (? & ? & ? & ? & ?) end;
    repeat match goal with H : (_ || _) = false |- _ => apply orb_false_iff in H as [? ?] end;
    repeat match goal with H : negb _ = false |- _ => apply negb_false_iff in H end;
    simpl in *; intuition (try lia); try congruence;
    try (destruct (documents s =? 0) eqn:?; lia).
Qed.

Lemma preflight_tokens_inv seen s tokens s' :
  preflight_inv seen s → preflight_tokens s tokens = Ok s' →
  preflight_inv (seen ++ tokens) s' ∧
  ∀ now rest, tokens = now ++ rest → 0 ≤ level (seen ++ now) ≤ MAX_YAML_DEPTH.
Proof.
  revert seen s. induction tokens as [|t tokens IH]; intros seen s Hinv Hrun; simpl in Hrun.
  - injection Hrun as <-. rewrite app_nil_r. split; [done|].
    intros now rest Heq. symmetry in Heq. apply app_nil in Heq as [-> _].
    rewrite app_nil_r. destruct Hinv as [_ [<- ?] _ _ _ _]. done.
  - apply result_bind_ok in Hrun as (s1 & Ht & Hrun).
    pose proof (preflight_token_inv seen s t s1 Hinv Ht) as Hinv1.
    destruct (IH (seen ++ [t]) s1 Hinv1 Hrun) as [Hfin Hpre].
    rewrite <-app_assoc in Hfin. split; [done|]. intros [|t' now] rest Heq.
    + rewrite app_nil_r. destruct Hinv as [_ [<- ?] _ _ _ _]. done.
    + injection Heq as <- Heq. specialize (Hpre now rest Heq). by rewrite <-app_assoc in Hpre.
Qed.

(** a source that passes the preflight is at most a megabyte; its token stream
    has no scanner error, no anchor or alias, at most one explicit document start,
    between one and 16384 nodes, and brackets that balance without ever nesting
    deeper than 64. *)
Theorem preflight_source_sound `{Yaml} source tokens error :
  scan_tokens source = (tokens, error) →
  preflight_source source = Ok () →
  error = None ∧ len source ≤ 1048576 ∧
  Forall (λ t, t ≠ Alias ∧ t ≠ Anchor) tokens ∧
  count_tokens is_start tokens ≤ 1 ∧
  0 < count_tokens is_node tokens ≤ 16384 ∧
  level tokens = 0 ∧
  ∀ seen rest, tokens = seen ++ rest → 0 ≤ level seen ≤ 64.
Proof.
  intros Hscan Hok. unfold preflight_source in Hok.
  destruct (MAX_DOCUMENT_BYTES <? len source) eqn:Hlen; [done|]. rewrite Hscan in Hok.
  apply result_bind_ok in Hok as (s & Hrun & Hok).
  apply (preflight_tokens_inv [] preflight_start) in Hrun as [Hinv Hpre];
    [|apply preflight_start_inv].
  destruct error; [done|].
  destruct (negb (depth s =? 0)) eqn:Hdepth; [done|].
  destruct (negb (documents s =? 1) || negb (has_content s)) eqn:Hdoc; [done|].
  apply orb_false_iff in Hdoc as [Hdoc Hcont]. apply negb_false_iff in Hdepth, Hdoc, Hcont.
  destruct Hinv as [[Hn Hn'] [Hd _] Hc _ Hst Ha]. simpl in *.
  specialize (Hc Hcont). unfold MAX_DOCUMENT_BYTES, MAX_YAML_NODES, MAX_YAML_DEPTH in *.
  split_and!; try done; lia.
Qed.

(** ** Validated documents *)

Lemma try_each_ok {E A} (f : A → result E ()) l :
  try_each f l = Ok () ↔ Forall (λ x, f x = Ok ()) l.
Proof.
  induction l as [|x l IH]; simpl; [done|]. rewrite Forall_cons, <-IH, result_bind_ok.
  split; [intros ([] & ? & ?); done|]. intros [? ?]. by exists ().
Qed.

Lemma try_indexed_ok {A} (f : A → result RegistryError ()) label l :
  try_indexed f label l = Ok () ↔ Forall (λ x, f x = Ok ()) l.
Proof.
  unfold try_indexed. rewrite try_each_ok, !Forall_lookup. setoid_rewrite list_lookup_imap.
  split.
  - intros Hl i x Hx. specialize (Hl i (i, x)). rewrite Hx in Hl. simpl in Hl.
    by apply map_err_ok in Hl.
  - intros Hl i p Hp. destruct (l !! i) as [x|] eqn:Hx; [|done]. injection Hp as <-. simpl.
    apply map_err_ok. by eapply Hl.
Qed.

(** An absolute http(s) address with a host. *)
Definition http_uri (value : string) : Prop :=
  contains_whitespace value = false ∧ contains_control value = false ∧
  ∃ rest, (value = "https://" +:+ rest ∨ value = "http://" +:+ rest) ∧ authority_of rest ≠ "".

(** One at sign, with something on both sides, no blank, no dot at the ends of the domain. *)
Definition email_address (value : string) : Prop :=
  contains_whitespace value = false ∧
  ∃ local domain, value = local +:+ "@" +:+ domain ∧ local ≠ "" ∧ domain ≠ "" ∧
    contains "@" local = false ∧ contains "@" domain = false ∧
    starts_with "." domain = false ∧ ends_with "." domain = false.

Section fmt.
Context `{RustFmt}.

Lemma valid_uri_ok field value : valid_uri field value = Ok () ↔ http_uri value.
Proof.
  unfold valid_uri, http_uri. destruct (is_empty value) eqn:He.
  { apply is_empty_spec in He as ->. split; [done|]. intros (_ & _ & rest & [?|?] & _); by simplify_eq/=. }
  destruct (contains_whitespace value); [split; [done|by intros (? & _)]|].
  destruct (contains_control value); [split; [done|by intros (_ & ? & _)]|].
  destruct (strip_prefix "https://" value) as [rest|] eqn:Hs; unfold or_else.
  { apply strip_prefix_Some in Hs as ->. destruct (is_empty (authority_of rest)) eqn:Ha.
    - apply is_empty_spec in Ha. split; [done|]. intros (_ & _ & r & [Hr|Hr] & Hauth); [|by simplify_eq/=].
      apply (inj (String.append "https://")) in Hr. congruence.
    - apply is_empty_false in Ha. split; [|done]. intros _. split_and!; [done..|]. exists rest. auto. }
  destruct (strip_prefix "http://" value) as [rest|] eqn:Hh.
  { apply strip_prefix_Some in Hh as ->. destruct (is_empty (authority_of rest)) eqn:Ha.
    - apply is_empty_spec in Ha. split; [done|]. intros (_ & _ & r & [Hr|Hr] & Hauth); [by simplify_eq/=|].
      apply (inj (String.append "http://")) in Hr. congruence.
    - apply is_empty_false in Ha. split; [|done]. intros _. split_and!; [done..|]. exists rest. auto. }
  split; [done|]. intros (_ & _ & r & [Hr|Hr] & _); apply strip_prefix_Some in Hr; congruence.
Qed.
End fmt.

(** The pieces of a validated document. *)
Definition valid_captcha (c : SolveCaptcha) : Prop :=
  8 ≤ len (site_key c) ∧
  ∀ s, min_score c = Some s →
    f64_finite s = true ∧ SFleb (f64_of_Z 0) s = true ∧ SFleb s (f64_of_Z 1) = true.

Record valid_step (s : FormStep) : Prop := {
  vs_texts : ∀ t, t ∈ [goto s; click s; wait_for s; screenshot s; assert_text s] → t ≠ Some "";
  vs_present : step_present s = true;
  vs_wait : ∀ w, wait_seconds s = Some w → below w 0 = false;
  vs_selectors : ∀ m k, fill s = Some m ∨ select s = Some m → k ∈ m.*1 → is_selector k = true;
  vs_captcha : ∀ c, solve_captcha s = Some c → valid_captcha c;
}.

Record valid_form (f : FormSpec) : Prop := {
  vf_steps : steps f ≠ [] ∧ Forall valid_step (steps f);
  vf_timeout : ∀ t, timeout_seconds f = Some t → below t 1 = false;
  vf_delay : ∀ t, rate_limit_delay f = Some t → below t 0 = false;
}.

Definition valid_channel (c : Channel) : Prop :=
  match c with
  | EmailChannel endpoint _ => valid_email endpoint = true
  | WebFormChannel url form _ => http_uri url ∧ valid_form form
  end ∧
  (∀ l, ch_locale (channel_common c) = Some l → is_locale l = true) ∧
  (∀ d, ch_expected_response_days (channel_common c) = Some d → 1 ≤ d).

Record valid_broker (file_stem : string) (b : Broker) : Prop := {
  vb_id : br_id b = file_stem ∧ file_stem ≠ "" ∧ str_forallb id_char file_stem = true;
  vb_name : trim (br_name b) ≠ "";
  vb_website : http_uri (br_website b);
  vb_jurisdictions : br_jurisdictions b ≠ [];
  vb_laws : br_laws b ≠ [];
  vb_sensitivity : 1 ≤ br_data_sensitivity b ≤ 5;
  vb_channels : br_opt_out b ≠ [] ∧ Forall valid_channel (br_opt_out b);
  vb_date : ∀ d, br_added_date b = Some d → is_iso_date d = true;
}.

Lemma valid_email_address value : valid_email value = true ↔ email_address value.
Proof.
  unfold valid_email, email_address. split.
  - destruct (rsplit_once "@" value) as [[local domain]|] eqn:Hs; [|done].
    apply rsplit_once_Some in Hs as [-> Hd].
    rewrite !andb_true_iff, !negb_true_iff, !is_empty_false.
    intros [[[[[? ?] ?] ?] ?] ?]. split; [done|]. exists local, domain.
    split_and!; try done. by apply contains_char_false.
  - intros (Hw & local & domain & -> & Hl & Hd & Hal & Had & Hs & He).
    change ("@" +:+ domain) with (String "@" domain) in *.
    rewrite rsplit_once_app by by apply contains_char_false.
    rewrite Hw, Hal, Hs, He. apply is_empty_false in Hl, Hd. by rewrite Hl, Hd.
Qed.

Lemma option_check {A} (o : option A) (bad : A → bool) :
  match o with Some x => bad x | None => false end = false ↔ ∀ x, o = Some x → bad x = false.
Proof. destruct o; [split; [by intros ? ? [= <-]|by auto]|done]. Qed.

Lemma nonempty_check {A} (l : list A) :
  match l with [] => true | _ => false end = false ↔ l ≠ [].
Proof. by destruct l. Qed.

Lemma if_ok {E A} (c : bool) (e : E) (m : result E A) x :
  (if c then Err e else m) = Ok x ↔ c = false ∧ m = Ok x.
Proof. destruct c; naive_solver. Qed.

Lemma bind_unit_ok {E A} (m : result E ()) (k : result E A) x :
  (m ≫= λ _, k) = Ok x ↔ m = Ok () ∧ k = Ok x.
Proof. rewrite result_bind_ok. split; [by intros ([] & ? & ?)|]. intros [? ?]. by exists (). Qed.

Lemma validate_captcha_ok c : validate_captcha c = Ok () ↔ valid_captcha c.
Proof.
  unfold validate_captcha, valid_captcha, validation. rewrite if_ok, Z.ltb_ge. f_equiv.
  destruct (min_score c) as [s|]; [|split; [done|done]].
  rewrite if_ok, orb_false_iff, !negb_false_iff, andb_true_iff. split.
  - intros [[? [? ?]] _] t [= <-]. done.
  - intros Hs. by destruct (Hs s) as (? & ? & ?).
Qed.

Section fmt2.
Context `{RustFmt}.

Lemma validate_form_step_ok s : validate_form_step s = Ok () ↔ valid_step s.
Proof.
  unfold validate_form_step, validation.
  rewrite bind_unit_ok, !if_ok, bind_unit_ok, !try_each_ok, negb_false_iff.
  rewrite (option_check (wait_seconds s) (λ w, below w 0)).
  assert (Htexts : Forall (λ fv : string * option string,
      (if some_empty fv.2 then Err (Validation fv.1 "must not be empty when present") else Ok ())
      = Ok ()) [("goto", goto s); ("click", click s); ("wait_for", wait_for s);
       ("screenshot", screenshot s); ("assert_text", assert_text s)] ↔
    ∀ t, t ∈ [goto s; click s; wait_for s; screenshot s; assert_text s] → t ≠ Some "").
  { rewrite <-(Forall_forall (λ t, t ≠ Some "")). rewrite !Forall_cons, !Forall_nil. simpl.
    assert (Ht : ∀ f (t : option string), (if some_empty t then
      Err (Validation f "must not be empty when present") else Ok ()) = Ok () ↔ t ≠ Some "").
    { intros f [[|c t]|]; simpl; split; try done; congruence. }
    by rewrite !Ht. }
  rewrite Htexts.
  assert (Hsel : Forall (λ selectors, try_each (λ kv : string * string, if is_selector kv.1 then Ok ()
      else Err (Validation "selector" (debug_str kv.1 +:+ " does not look like a CSS selector")))
      selectors = Ok ()) (option_list (fill s) ++ option_list (select s)) ↔
    ∀ m k, fill s = Some m ∨ select s = Some m → k ∈ m.*1 → is_selector k = true).
  { rewrite Forall_forall. setoid_rewrite try_each_ok. setoid_rewrite Forall_forall.
    setoid_rewrite elem_of_app. split.
    - intros Hs m k Hm ([k' v] & -> & Hk)%list_elem_of_fmap. simpl.
      specialize (Hs m). specialize (Hs ltac:(destruct Hm as [-> | ->]; set_solver) (k', v) Hk).
      simpl in Hs. by destruct (is_selector k').
    - intros Hs m Hm [k v] Hk. simpl. rewrite (Hs m k); [done| |by apply (list_elem_of_fmap_2 fst _ (k, v))].
      destruct (fill s), (select s); set_solver. }
  rewrite Hsel.
  assert (Hcap : match solve_captcha s with Some c => validate_captcha c | None => Ok () end = Ok () ↔
    ∀ c, solve_captcha s = Some c → valid_captcha c).
  { destruct (solve_captcha s) as [c|]; [|done]. rewrite validate_captcha_ok. naive_solver. }
  rewrite Hcap. split; [intros (? & ? & ? & ? & ?); by split|]. by intros [].
Qed.

Lemma validate_form_spec_ok f : validate_form_spec f = Ok () ↔ valid_form f.
Proof.
  unfold validate_form_spec, validation.
  rewrite !if_ok, try_indexed_ok, nonempty_check.
  rewrite (option_check (timeout_seconds f) (λ t, below t 1)),
    (option_check (rate_limit_delay f) (λ t, below t 0)).
  rewrite (Forall_iff _ _ valid_step) by apply validate_form_step_ok.
  split; [intros (? & ? & ? & ?); by split|]. by intros [[] ? ?].
Qed.

Lemma validate_channel_ok c : validate_channel c = Ok () ↔ valid_channel c.
Proof.
  unfold validate_channel, valid_channel, validation. rewrite bind_unit_ok. f_equiv.
  - destruct c as [endpoint common|url form common].
    + by destruct (valid_email endpoint).
    + by rewrite bind_unit_ok, valid_uri_ok, validate_form_spec_ok.
  - rewrite !if_ok.
    rewrite (option_check (ch_locale (channel_common c)) (λ l, negb (is_locale l))),
      (option_check (ch_expected_response_days (channel_common c)) (λ d, d <? 1)).
    setoid_rewrite negb_false_iff. setoid_rewrite Z.ltb_ge. naive_solver.
Qed.

Lemma validate_broker_ok file_stem b b' :
  validate_broker file_stem b = Ok b' ↔ b' = b ∧ valid_broker file_stem b.
Proof.
  unfold validate_broker, validation.
  rewrite !if_ok, bind_unit_ok, !if_ok, bind_unit_ok, if_ok, valid_uri_ok, !nonempty_check,
    try_indexed_ok, negb_false_iff, String.eqb_eq, orb_false_iff, !negb_false_iff,
    !is_empty_false, andb_true_iff, !Z.leb_le.
  rewrite (Forall_iff _ _ valid_channel) by apply validate_channel_ok.
  rewrite (option_check (br_added_date b) (λ d, negb (is_iso_date d))).
  setoid_rewrite negb_false_iff. split.
  - intros (<- & [? ?] & ? & ? & ? & ? & ? & ? & ? & ? & [= <-]). split; [done|]. by split.
  - intros [-> [(<- & ? & ?) ? ? ? ? ? [? ?] ?]]. split_and!; try done; lia.
Qed.

(** A broker document is accepted, unchanged, exactly when it satisfies the
    registry contract: the id is the file stem and well formed, the addresses are
    absolute http(s) URIs with a host, every channel, form step, selector and CAPTCHA
    is well formed, and the numeric fields are in range. *)
Theorem validate_broker_iff file_stem b b' :
  validate_broker file_stem b = Ok b' ↔ b' = b ∧ valid_broker file_stem b.
Proof. apply validate_broker_ok. Qed.

Definition keys_within (allowed : list string) (v : yaml) : Prop :=
  ∀ m k x, v = YMapping m → (k, x) ∈ m → ∃ s, k = YString s ∧ s ∈ allowed.

Lemma validate_object_keys_ok raw allowed boundary :
  validate_object_keys raw allowed boundary = Ok () ↔ keys_within allowed raw.
Proof.
  unfold validate_object_keys, keys_within. destruct raw; simpl; try (split; [done|by auto]).
  rewrite try_each_ok, Forall_forall. split.
  - intros Hk m k x [= <-] Hin. specialize (Hk (k, x) Hin). simpl in Hk.
    destruct k; simpl in Hk; try done. destruct (str_in s allowed) eqn:E; [|done].
    apply str_in_spec in E. eauto.
  - intros Hk [k x] Hin. destruct (Hk entries k x eq_refl Hin) as (s & -> & Hs). simpl.
    apply str_in_spec in Hs. by rewrite Hs.
Qed.

(** Decoding ends, and what it yields is within the limits and the contract. *)
Lemma decode_total `{Yaml} file_stem source :
  ∃ r, decode_with_metrics file_stem source = Some r ∧
    ∀ b n, r = Ok (b, n) →
      preflight_source source = Ok () ∧ valid_broker file_stem b ∧
      ∃ raw, yaml_from_str source = Ok raw ∧ n = Z.of_nat (yaml_size raw) ∧ n ≤ 16384 ∧
        (yaml_height raw ≤ 64)%nat ∧ has_null raw = false ∧ keys_within BROKER_KEYS raw.
Proof.
  unfold decode_with_metrics. destruct (preflight_source source) as [[]|e]; [|by eexists].
  destruct (yaml_from_str source) as [raw|e]; [|by eexists].
  destruct (budget_total raw) as (budget & -> & Hbudget).
  destruct (nulls_total raw) as (nulls & -> & Hnulls). simpl.
  eexists. split; [done|]. intros b n Hr.
  repeat (apply result_bind_ok in Hr as (? & ? & Hr)).
  injection Hr as -> ->. repeat match goal with u : () |- _ => destruct u end.
  match goal with Hb : budget = Ok _ |- _ => apply Hbudget in Hb as (? & ? & ?) end.
  match goal with Hv : validate_broker _ _ = _ |- _ => apply validate_broker_ok in Hv as [-> ?] end.
  split; [done|]. split; [done|]. exists raw.
  split_and!; try done; [by apply Hnulls|by eapply validate_object_keys_ok].
Qed.

(** Decoding a broker document always ends; when it yields a broker, the source
    passed the preflight, the decoded value has at most 16384 nodes and 64 levels, no
    null and no unknown top-level key, its node count is the one reported, and the
    broker satisfies the registry contract for its file. *)
Theorem decode_with_metrics_sound `{Yaml} file_stem source :
  ∃ r, decode_with_metrics file_stem source = Some r ∧
    ∀ b n, r = Ok (b, n) →
      preflight_source source = Ok () ∧ valid_broker file_stem b ∧
      ∃ raw, yaml_from_str source = Ok raw ∧ n = Z.of_nat (yaml_size raw) ∧ n ≤ 16384 ∧
        (yaml_height raw ≤ 64)%nat ∧ has_null raw = false ∧ keys_within BROKER_KEYS raw.
Proof. apply decode_total. Qed.
End fmt2.

(* ------------------------------------------------------------------ *)
(** ** The registry theorems at a concrete token stream *)

(** A scanner that reads one document holding a mapping with a nested list. *)
Definition sample_tokens : list TokenType :=
  [StreamStart; BlockMappingStart; Key; Scalar; ValueToken; FlowSequenceStart; Scalar; FlowEntry;
   Scalar; FlowSequenceEnd; BlockEnd; StreamEnd].

#[local] Instance sample_yaml : Yaml := {|
  scan_tokens _ := (sample_tokens, None);
  yaml_from_str s := Ok (YString s);
  broker_from_value _ := Err "not a broker" |}.

Lemma preflight_source_sound_witness :
  preflight_source "id: [acme, globex]" = Ok () ∧ level sample_tokens = 0 ∧
  0 < count_tokens is_node sample_tokens ≤ 16384.
Proof.
  assert (Hok : preflight_source "id: [acme, globex]" = Ok ()) by (vm_compute; reflexivity).
  split; [exact Hok|].
  destruct (@preflight_source_sound sample_yaml "id: [acme, globex]" sample_tokens None eq_refl Hok)
    as (_ & _ & _ & _ & Hn & Hl & _). split; [exact Hl|exact Hn].
Defined.
