(* ===== verification/Database.v ===== *)
(** * Database: the SQLite tables and the statements' effects

    The tables of [symeraseme-core/src/storage/store.rs] that the modelled code
    reads and writes, and the monad in which the statements run.  A statement reads
    the tables, returns a value or an error, and leaves new tables; a transaction
    restores the tables it started with unless it commits.  Every statement and
    every reading of the clock is a numbered step of the run, and the environment
    decides for each step whether it fails and what the clock shows. *)

From S2P Require Import Prelude.
From S2P Require Import Text.
From S2P Require Import Json.
From S2P Require Import TimeUtil.
From S2P Require Import Types.

(** A row of [request_events]; every column is text but the ids. *)
Record EventRow := {
  ev_id : Z;
  ev_request_id : Z;
  ev_occurred_at : string;
  ev_recorded_at : string;
  ev_event_type : string;
  ev_payload_json : string;
  ev_source : string;
}.

(** A row of [request_state]; the key is [request_id]. *)
Record StateRow := {
  st_current_status : string;
  st_last_event_id : Z;
  st_last_event_at : string;
  st_sent_at : option string;
  st_acknowledged_at : option string;
  st_resolved_at : option string;
  st_deadline_at : option string;
  st_next_action_at : option string;
  st_reminders_sent : Z;
  st_escalation_level : Z;
}.

(** A row of [manual_tasks]. *)
Record TaskRow := {
  tk_id : Z;
  tk_request_id : option Z;
  tk_broker_id : string;
  tk_broker_name : string;
  tk_form_url : string;
  tk_reason : string;
  tk_instructions : string;
  tk_screenshot_path : string;
  tk_html_snapshot_path : string;
  tk_form_fields_json : string;
  tk_status : string;
  tk_created_at : string;
  tk_completed_at : option string;
  tk_notes : string;
}.

(** A row of [inbox_replies]. *)
Record InboxRow := {
  ir_id : Z;
  ir_request_id : option Z;
  ir_message_id : string;
  ir_thread_id : option string;
  ir_received_at : string;
  ir_from_addr : option string;
  ir_subject : option string;
  ir_snippet : option string;
  ir_classified_as : option string;
  ir_classifier_confidence : option SpecFloat.spec_float;
  ir_llm_summary : option string;
}.

(** The tables, each in row id order, with the AUTOINCREMENT counters and the
    [foreign_keys] pragma of the connection. *)
Record Db := {
  foreign_keys : bool;
  campaigns : list Campaign;
  removal_requests : list RemovalRequest;
  next_request_id : Z;
  request_events : list EventRow;
  next_event_id : Z;
  request_state : gmap Z StateRow;
  manual_tasks : list TaskRow;
  next_task_id : Z;
  inbox_replies : list InboxRow;
}.

Definition empty_db (fk : bool) : Db := {|
  foreign_keys := fk; campaigns := []; removal_requests := []; next_request_id := 1;
  request_events := []; next_event_id := 1; request_state := ∅;
  manual_tasks := []; next_task_id := 1; inbox_replies := []
|}.

Definition set_campaigns (l : list Campaign) (d : Db) : Db := {|
  foreign_keys := foreign_keys d; campaigns := l;
  removal_requests := removal_requests d; next_request_id := next_request_id d;
  request_events := request_events d; next_event_id := next_event_id d;
  request_state := request_state d;
  manual_tasks := manual_tasks d; next_task_id := next_task_id d;
  inbox_replies := inbox_replies d
|}.

(** The insertion of a row with a fresh AUTOINCREMENT id. *)
Definition add_request (r : RemovalRequest) (d : Db) : Db := {|
  foreign_keys := foreign_keys d; campaigns := campaigns d;
  removal_requests := removal_requests d ++ [r]; next_request_id := next_request_id d + 1;
  request_events := request_events d; next_event_id := next_event_id d;
  request_state := request_state d;
  manual_tasks := manual_tasks d; next_task_id := next_task_id d;
  inbox_replies := inbox_replies d
|}.

Definition add_event (r : EventRow) (d : Db) : Db := {|
  foreign_keys := foreign_keys d; campaigns := campaigns d;
  removal_requests := removal_requests d; next_request_id := next_request_id d;
  request_events := request_events d ++ [r]; next_event_id := next_event_id d + 1;
  request_state := request_state d;
  manual_tasks := manual_tasks d; next_task_id := next_task_id d;
  inbox_replies := inbox_replies d
|}.

Definition set_state (m : gmap Z StateRow) (d : Db) : Db := {|
  foreign_keys := foreign_keys d; campaigns := campaigns d;
  removal_requests := removal_requests d; next_request_id := next_request_id d;
  request_events := request_events d; next_event_id := next_event_id d;
  request_state := m;
  manual_tasks := manual_tasks d; next_task_id := next_task_id d;
  inbox_replies := inbox_replies d
|}.

Definition set_tasks (l : list TaskRow) (n : Z) (d : Db) : Db := {|
  foreign_keys := foreign_keys d; campaigns := campaigns d;
  removal_requests := removal_requests d; next_request_id := next_request_id d;
  request_events := request_events d; next_event_id := next_event_id d;
  request_state := request_state d;
  manual_tasks := l; next_task_id := n;
  inbox_replies := inbox_replies d
|}.

Definition set_replies (l : list InboxRow) (d : Db) : Db := {|
  foreign_keys := foreign_keys d; campaigns := campaigns d;
  removal_requests := removal_requests d; next_request_id := next_request_id d;
  request_events := request_events d; next_event_id := next_event_id d;
  request_state := request_state d;
  manual_tasks := manual_tasks d; next_task_id := next_task_id d;
  inbox_replies := l
|}.

Definition request_exists (d : Db) (id : Z) : bool :=
  existsb (λ r, rr_id r =? id) (removal_requests d).

(** ** The statement monad *)

(** [Wrapped] is [ToSqlConversionFailure], the box the code puts other errors in. *)
Inductive DbError : Type := Fault | ForeignKey | Wrapped (message : string).

#[export] Instance DbError_eq_dec : EqDecision DbError.
Proof. solve_decision. Defined.

(** [rusqlite::Error]'s [Display]. *)
Class DbErrorFmt := { db_error_str : DbError → string }.

(** What the outside does at each step: the clock's reading and whether the
    statement fails. *)
Class Env := { clock : nat → Z; fault : nat → bool }.

(** The tables, the files the code writes, the mails handed to the sender (recipient,
    subject, body; newest last), and the number of steps taken. *)
Record World := {
  db : Db;
  files : gmap string string;
  outbox : list (string * string * string);
  step : nat;
}.

Definition DB (E A : Type) : Type := World → result E A * World.

#[export] Instance DB_ret E : MRet (DB E) := λ A a w, (Ok a, w).
#[export] Instance DB_bind E : MBind (DB E) := λ A B f m w,
  match m w with
  | (Ok a, w') => f a w'
  | (Err e, w') => (Err e, w')
  end.

Definition throw {E A} (e : E) : DB E A := λ w, (Err e, w).
Definition of_result {E A} (r : result E A) : DB E A := λ w, (r, w).

(** [map_err], [From] in [?]. *)
Definition lift {E F A} (f : E → F) (m : DB E A) : DB F A := λ w,
  let (r, w') := m w in (map_err f r, w').

(** The result itself, for the callers that inspect or drop it. *)
Definition attempt {E F A} (m : DB E A) : DB F (result E A) := λ w,
  let (r, w') := m w in (Ok r, w').

Definition bump (w : World) : World := 
  {| db := db w; files := files w; outbox := outbox w; step := S (step w) |}.
Definition with_db (d : Db) (w : World) : World := 
  {| db := d; files := files w; outbox := outbox w; step := step w |}.

(** [for x in l { f(x)?; }] and [l.map(f).collect::<Result<_>>()]. *)
Fixpoint mapM_db {E A B} (f : A → DB E B) (l : list A) : DB E (list B) :=
  match l with
  | [] => mret []
  | x :: l' => y ← f x; ys ← mapM_db f l'; mret (y :: ys)
  end.

Section statements.
Context `{Env}.

(** A statement; [f] is given the clock for [datetime('now')]. *)
Definition execute_now {A} (f : Z → Db → result DbError (A * Db)) : DB DbError A := λ w,
  if fault (step w) then (Err Fault, bump w)
  else
    match f (clock (step w)) (db w) with
    | Ok (a, d) => (Ok a, with_db d (bump w))
    | Err e => (Err e, bump w)
    end.

Definition execute {A} (f : Db → result DbError (A * Db)) : DB DbError A :=
  execute_now (λ _, f).

Definition query {A} (f : Db → A) : DB DbError A := execute (λ d, Ok (f d, d)).

Definition utc_now {E} : DB E Z := λ w, (Ok (clock (step w)), bump w).

Definition begin : DB DbError () := query (λ _, ()).
Definition commit : DB DbError () := query (λ _, ()).

(** [unchecked_transaction], the body, [commit]; a transaction dropped without a
    commit is rolled back. *)
Definition transaction {E A} (conv : DbError → E) (body : DB E A) : DB E A := λ w,
  match begin w with
  | (Err e, w1) => (Err (conv e), w1)
  | (Ok _, w1) =>
      match body w1 with
      | (Err e, w2) => (Err e, with_db (db w1) w2)
      | (Ok a, w2) =>
          match commit w2 with
          | (Err e, w3) => (Err (conv e), with_db (db w1) w3)
          | (Ok _, w3) => (Ok a, w3)
          end
      end
  end.

(** The same with a body that may return early without a commit ([false]). *)
Definition transaction_until {E A} (conv : DbError → E) (body : DB E (A * bool)) : DB E A := λ w,
  match begin w with
  | (Err e, w1) => (Err (conv e), w1)
  | (Ok _, w1) =>
      match body w1 with
      | (Err e, w2) => (Err e, with_db (db w1) w2)
      | (Ok (a, false), w2) => (Ok a, with_db (db w1) w2)
      | (Ok (a, true), w2) =>
          match commit w2 with
          | (Err e, w3) => (Err (conv e), with_db (db w1) w3)
          | (Ok _, w3) => (Ok a, w3)
          end
      end
  end.

(** [fs::write] and [fs::remove_file], which may fail. *)
Definition write_file (path contents : string) : DB string () := λ w,
  if fault (step w) then (Err "write failed", bump w)
  else (Ok (), {| db := db w; files := <[path := contents]> (files w); outbox := outbox w;
                   step := S (step w) |}).

Definition remove_file (path : string) : DB string () := λ w,
  if fault (step w) then (Err "remove failed", bump w)
  else (Ok (), {| db := db w; files := delete path (files w); outbox := outbox w;
                   step := S (step w) |}).
End statements.

(** ** Reasoning about runs *)

Lemma DB_bind_ok {E A B} (m : DB E A) (f : A → DB E B) w b w' :
  (m ≫= f) w = (Ok b, w') ↔ ∃ a w1, m w = (Ok a, w1) ∧ f a w1 = (Ok b, w').
Proof.
  unfold mbind, DB_bind. destruct (m w) as [[a|e] w1]; split.
  - intros Hf. by exists a, w1.
  - intros (? & ? & [= <- <-] & ?). done.
  - done.
  - by intros (? & ? & ? & ?).
Qed.

Lemma lift_ok {E F A} (f : E → F) (m : DB E A) w a w' :
  lift f m w = (Ok a, w') ↔ m w = (Ok a, w').
Proof.
  unfold lift. destruct (m w) as [[a'|e] w1]; simpl; split; congruence.
Qed.

Lemma mret_ok {E A} (a b : A) w w' :
  (mret a : DB E A) w = (Ok b, w') ↔ a = b ∧ w = w'.
Proof. unfold mret, DB_ret. naive_solver. Qed.

(** The computation leaves the tables as they are. *)
Definition read_only {E A} (m : DB E A) : Prop := ∀ w, db (m w).2 = db w.

Lemma read_only_ret {E A} (a : A) : read_only (mret a : DB E A).
Proof. done. Qed.

Lemma read_only_throw {E A} (e : E) : read_only (throw (A:=A) e).
Proof. done. Qed.

Lemma read_only_of_result {E A} (r : result E A) : read_only (of_result r).
Proof. done. Qed.

Lemma read_only_bind {E A B} (m : DB E A) (f : A → DB E B) :
  read_only m → (∀ a, read_only (f a)) → read_only (m ≫= f).
Proof.
  intros Hm Hf w. specialize (Hm w). unfold mbind, DB_bind.
  destruct (m w) as [[a|e] w1]; simpl in *; [|done]. by rewrite Hf.
Qed.

Lemma read_only_lift {E F A} (f : E → F) (m : DB E A) : read_only m → read_only (lift f m).
Proof. intros Hm w. specialize (Hm w). unfold lift. by destruct (m w). Qed.

Lemma read_only_attempt {E F A} (m : DB E A) :
  read_only m → read_only (attempt m : DB F (result E A)).
Proof. intros Hm w. specialize (Hm w). unfold attempt. by destruct (m w). Qed.

Lemma read_only_mapM {E A B} (f : A → DB E B) l :
  (∀ a, read_only (f a)) → read_only (mapM_db f l).
Proof.
  intros Hf. induction l as [|x l IH]; simpl; [apply read_only_ret|].
  apply read_only_bind; [done|]. intros y. apply read_only_bind; [done|].
  intros ys. apply read_only_ret.
Qed.

#[export] Hint Resolve read_only_ret read_only_throw read_only_of_result read_only_bind
  read_only_lift read_only_attempt read_only_mapM : erase.

Section run.
Context `{Env}.

Lemma query_read_only {A} (f : Db → A) : read_only (query f).
Proof. intros w. unfold query, execute, execute_now. by destruct (fault _). Qed.

Lemma utc_now_read_only {E} : read_only (utc_now : DB E Z).
Proof. done. Qed.

Lemma query_ok {A} (f : Db → A) w a w' :
  query f w = (Ok a, w') → a = f (db w) ∧ w' = bump w.
Proof.
  unfold query, execute, execute_now. destruct (fault _); [done|].
  intros [= <- <-]. split; [done|]. by destruct w.
Qed.

Lemma execute_now_ok {A} (f : Z → Db → result DbError (A * Db)) w a w' :
  execute_now f w = (Ok a, w') →
  ∃ d, f (clock (step w)) (db w) = Ok (a, d) ∧ w' = with_db d (bump w).
Proof.
  unfold execute_now. destruct (fault _); [done|].
  destruct (f _ _) as [[a' d]|]; [|done]. intros [= -> <-]. by exists d.
Qed.

Lemma execute_ok {A} (f : Db → result DbError (A * Db)) w a w' :
  execute f w = (Ok a, w') → ∃ d, f (db w) = Ok (a, d) ∧ w' = with_db d (bump w).
Proof. intros Hx. by apply execute_now_ok in Hx. Qed.

(** A committed transaction is its body's effect. *)
Lemma transaction_ok {E A} (conv : DbError → E) (body : DB E A) w a w' :
  transaction conv body w = (Ok a, w') →
  ∃ w2, body (bump w) = (Ok a, w2) ∧ db w' = db w2.
Proof.
  unfold transaction. destruct (begin w) as [[[]|e] w1] eqn:Hb; [|done].
  apply query_ok in Hb as [_ ->].
  destruct (body (bump w)) as [[a'|e] w2] eqn:Hbody; [|done].
  destruct (commit w2) as [[[]|e] w3] eqn:Hc; [|done].
  apply query_ok in Hc as [_ ->]. intros [= -> <-]. by exists w2.
Qed.

(** A failed one has no effect. *)
Lemma transaction_err {E A} (conv : DbError → E) (body : DB E A) w e w' :
  transaction conv body w = (Err e, w') → db w' = db w.
Proof.
  unfold transaction. pose proof (query_read_only (λ _, ()) w) as Hr.
  change (query (λ _, ()) w) with (begin w) in Hr.
  destruct (begin w) as [[[]|e1] w1]; simpl in Hr.
  - destruct (body w1) as [[a'|e2] w2]; [|by intros [= _ <-]].
    destruct (commit w2) as [[[]|e3] w3]; [done|]. by intros [= _ <-].
  - by intros [= _ <-].
Qed.

Lemma transaction_until_ok {E A} (conv : DbError → E) (body : DB E (A * bool)) w a w' :
  transaction_until conv body w = (Ok a, w') →
  ∃ c w2, body (bump w) = (Ok (a, c), w2) ∧ files w' = files w2 ∧
    db w' = if (c : bool) then db w2 else db w.
Proof.
  unfold transaction_until. destruct (begin w) as [[[]|e] w1] eqn:Hb; [|done].
  apply query_ok in Hb as [_ ->].
  destruct (body (bump w)) as [[[a' []]|e] w2] eqn:Hbody; [| |done].
  - destruct (commit w2) as [[[]|e] w3] eqn:Hc; [|done].
    apply query_ok in Hc as [_ ->]. intros [= -> <-]. by exists true, w2.
  - intros [= -> <-]. by exists false, w2.
Qed.

Lemma transaction_until_err {E A} (conv : DbError → E) (body : DB E (A * bool)) w e w' :
  transaction_until conv body w = (Err e, w') → db w' = db w.
Proof.
  unfold transaction_until. pose proof (query_read_only (λ _, ()) w) as Hr.
  change (query (λ _, ()) w) with (begin w) in Hr.
  destruct (begin w) as [[[]|e1] w1]; simpl in Hr.
  - destruct (body w1) as [[[a' []]|e2] w2]; [|done|by intros [= _ <-]].
    destruct (commit w2) as [[[]|e3] w3]; [done|]. by intros [= _ <-].
  - by intros [= _ <-].
Qed.
End run.

#[export] Hint Resolve query_read_only utc_now_read_only : erase.

(** Decomposes a successful run found in the context. *)
Ltac inv_run :=
  repeat match goal with
  | H : (_ ≫= _) _ = (Ok _, _) |- _ =>
      let a := fresh "a" in let w := fresh "w" in
      apply DB_bind_ok in H as (a & w & ? & H)
  | H : lift _ _ _ = (Ok _, _) |- _ => apply lift_ok in H
  | H : (mret _) _ = (Ok _, _) |- _ => apply mret_ok in H as [? ?]
  | H : throw _ _ = (Ok _, _) |- _ => discriminate H
  | H : query _ _ = (Ok _, _) |- _ => apply query_ok in H as [? ?]
  | H : (Err _, _) = (Ok _, _) |- _ => discriminate H
  | H : (_, _) = (_, _) |- _ => injection H as ? ?
  end; subst.
