(* ===== verification/Model.v ===== *)
(** * Model: concrete parameters for the witnesses

    The parameters of the development (the clock and the failures, [chrono],
    [serde_json]'s text) instantiated by concrete functions: the proleptic Gregorian
    calendar with a formatter and a parser for the directives the sources use, and
    a printer and a parser for compact JSON.  No theorem rests on this file; the
    witnesses evaluate the definitions at these parameters. *)

From S2P Require Import Prelude.
From S2P Require Import Text.
From S2P Require Import Json.
From S2P Require Import TimeUtil.
From S2P Require Import Types.
From S2P Require Import Database.

(** ** Calendar *)

Definition days_of_civil (y m d : Z) : Z :=
  let y := if m <=? 2 then y - 1 else y in
  let era := y / 400 in
  let yoe := y - era * 400 in
  let doy := (153 * (if 2 <? m then m - 3 else m + 9) + 2) / 5 + d - 1 in
  era * 146097 + (yoe * 365 + yoe / 4 - yoe / 100 + doy) - 719468.

Definition civil_of_days (z : Z) : Z * Z * Z :=
  let z := z + 719468 in
  let era := z / 146097 in
  let doe := z - era * 146097 in
  let yoe := (doe - doe / 1460 + doe / 36524 - doe / 146096) / 365 in
  let doy := doe - (365 * yoe + yoe / 4 - yoe / 100) in
  let mp := (5 * doy + 2) / 153 in
  let d := doy - (153 * mp + 2) / 5 + 1 in
  let m := if mp <? 10 then mp + 3 else mp - 9 in
  ((if m <=? 2 then yoe + era * 400 + 1 else yoe + era * 400), m, d).

Definition day_ns : Z := 86400 * second.

Definition pad4 (n : Z) : string :=
  let s := show n in
  if len s <? 4 then substr 0 (4 - String.length s) "0000" +:+ s else s.

Definition month_names : list string :=
  ["Jan"; "Feb"; "Mar"; "Apr"; "May"; "Jun"; "Jul"; "Aug"; "Sep"; "Oct"; "Nov"; "Dec"].

Fixpoint format_go (t : Z) (layout : string) : string :=
  let secs := (t mod day_ns) / second in
  let '(y, m, d) := civil_of_days (t / day_ns) in
  match layout with
  | "" => ""
  | String c rest =>
      match rest with
      | String k rest' =>
          if Ascii.eqb c "%" then
            (if Ascii.eqb k "Y" then pad4 y
             else if Ascii.eqb k "m" then pad2 m
             else if Ascii.eqb k "d" then pad2 d
             else if Ascii.eqb k "H" then pad2 (secs / 3600)
             else if Ascii.eqb k "M" then pad2 (secs / 60 mod 60)
             else if Ascii.eqb k "S" then pad2 (secs mod 60)
             else String c (String k "")) +:+ format_go t rest'
          else String c (format_go t rest)
      | "" => String c ""
      end
  end.

Record clock_fields := {
  cf_year : Z; cf_month : Z; cf_day : Z; cf_hour : Z; cf_minute : Z; cf_second : Z;
  cf_nanos : Z; cf_offset : Z }.

Definition fixed_digits (n : nat) (s : string) : option (Z * string) :=
  let d := substr 0 n s in
  if (String.length d =? n)%nat && str_forallb is_ascii_digit d
  then Some (digits_value 0 d, substr n (String.length s) s) else None.

Fixpoint take_digits (s : string) : string * string :=
  match s with
  | String c r =>
      if is_ascii_digit c then let (d, r') := take_digits r in (String c d, r') else ("", s)
  | "" => ("", "")
  end.

Definition month_of (s : string) : option Z :=
  (λ p, Z.of_nat p.1 + 1) <$> list_find (λ m, m = substr 0 3 s) month_names.

(** [%.f]: nothing, or a dot and one to nine digits. *)
Definition fraction (s : string) : option (Z * string) :=
  match s with
  | String c r =>
      if Ascii.eqb c "." then
        let (d, rest) := take_digits r in
        let n := String.length d in
        if (n =? 0)%nat || (9 <? n)%nat then None
        else Some (digits_value 0 d * 10 ^ (9 - Z.of_nat n), rest)
      else Some (0, s)
  | "" => Some (0, "")
  end.

(** [%:z] *)
Definition zone (s : string) : option (Z * string) :=
  match s with
  | String c r =>
      if Ascii.eqb c "+" || Ascii.eqb c "-" then
        h ← fixed_digits 2 r;
        r' ← strip_prefix ":" h.2;
        m ← fixed_digits 2 r';
        Some ((if Ascii.eqb c "-" then -1 else 1) * (h.1 * 3600 + m.1 * 60), m.2)
      else None
  | "" => None
  end.

Definition set_field (k : ascii) (v : Z) (f : clock_fields) : clock_fields := {|
  cf_year := if Ascii.eqb k "Y" then v else cf_year f;
  cf_month := if Ascii.eqb k "m" || Ascii.eqb k "b" then v else cf_month f;
  cf_day := if Ascii.eqb k "d" then v else cf_day f;
  cf_hour := if Ascii.eqb k "H" then v else cf_hour f;
  cf_minute := if Ascii.eqb k "M" then v else cf_minute f;
  cf_second := if Ascii.eqb k "S" then v else cf_second f;
  cf_nanos := if Ascii.eqb k "." then v else cf_nanos f;
  cf_offset := if Ascii.eqb k ":" then v else cf_offset f |}.

Definition directive (k : ascii) (s : string) : option (Z * string) :=
  if Ascii.eqb k "Y" then fixed_digits 4 s
  else if Ascii.eqb k "b" then m ← month_of s; Some (m, substr 3 (String.length s) s)
  else if Ascii.eqb k "." then fraction s
  else if Ascii.eqb k ":" then zone s
  else if Ascii.eqb k "y" then p ← fixed_digits 2 s; Some (p.1, p.2)
  else fixed_digits 2 s.

Fixpoint parse_go (fuel : nat) (layout s : string) (f : clock_fields) : option clock_fields :=
  match fuel with
  | O => None
  | S fuel =>
      match layout with
      | "" => if is_empty s then Some f else None
      | String c rest =>
          match rest with
          | String k rest' =>
              if Ascii.eqb c "%" then
                p ← directive k s;
                let rest'' := if Ascii.eqb k "." || Ascii.eqb k ":"
                              then substr 1 (String.length rest') rest' else rest' in
                let k := if Ascii.eqb k "y" then "Y"%char else k in
                parse_go fuel rest'' p.2 (set_field k p.1 f)
              else
                match s with
                | String d s' => if Ascii.eqb c d then parse_go fuel rest s' f else None
                | "" => None
                end
          | "" =>
              match s with
              | String d s' => if Ascii.eqb c d then parse_go fuel rest s' f else None
              | "" => None
              end
          end
      end
  end.

Definition instant_of (f : clock_fields) : option Z :=
  let days := days_of_civil (cf_year f) (cf_month f) (cf_day f) in
  if decide (civil_of_days days = (cf_year f, cf_month f, cf_day f))
  then
    if (cf_hour f <=? 23) && (cf_minute f <=? 59) && (cf_second f <=? 59)
    then Some (((days * 86400 + cf_hour f * 3600 + cf_minute f * 60 + cf_second f
                 - cf_offset f) * second) + cf_nanos f)
    else None
  else None.

Definition parse_layout (s layout : string) : option Z :=
  f ← parse_go 100 layout s {| cf_year := 1970; cf_month := 1; cf_day := 1; cf_hour := 0;
        cf_minute := 0; cf_second := 0; cf_nanos := 0; cf_offset := 0 |};
  instant_of f.

Definition calendar : Chrono := {|
  dt_parse := parse_layout;
  naive_parse := parse_layout;
  dt_format layout t := format_go t layout;
  naive_year t := (civil_of_days (t / day_ns)).1.1;
  naive_with_year t y :=
    let '(_, m, d) := civil_of_days (t / day_ns) in
    let days := days_of_civil y m d in
    if decide (civil_of_days days = (y, m, d)) then Some (days * day_ns + t mod day_ns) else None;
  date_parse := parse_layout;
  rfc3339_parse s :=
    (λ t, (t, 0)) <$> parse_layout (match strip_suffix "Z" s with Some p => p +:+ "+00:00" | None => s end)
                        "%Y-%m-%dT%H:%M:%S%.f%:z";
  fixed_format layout t _ := format_go t layout;
  to_rfc3339_auto t := format_go t "%Y-%m-%dT%H:%M:%SZ";
  dt_min := days_of_civil (-262143) 1 1 * day_ns;
  dt_max := days_of_civil 262143 1 1 * day_ns - 1
|}.

(** ** JSON text *)

Fixpoint escape_json (s : string) : string :=
  match s with
  | "" => ""
  | String c s' =>
      if Ascii.eqb c (b 34) || Ascii.eqb c (b 92)
      then String (b 92) (String c (escape_json s')) else String c (escape_json s')
  end.

Definition quote_json (s : string) : string :=
  String (b 34) (escape_json s +:+ String (b 34) "").

Fixpoint print_json (v : value) : string :=
  match v with
  | JNull => "null"
  | JBool true => "true"
  | JBool false => "false"
  | JNumber (NInt z) => show z
  | JNumber (NFloat _) => "0.5"
  | JString s => quote_json s
  | JArray l => "[" +:+ join "," (List.map print_json l) +:+ "]"
  | JObject l =>
      "{" +:+ join "," (List.map (λ kv, quote_json kv.1 +:+ ":" +:+ print_json kv.2) l) +:+ "}"
  end.

Fixpoint read_string (s : string) : option (string * string) :=
  match s with
  | "" => None
  | String c s' =>
      if Ascii.eqb c (b 34) then Some ("", s')
      else if Ascii.eqb c (b 92) then
        match s' with
        | String d s'' => p ← read_string s''; Some (String d p.1, p.2)
        | "" => None
        end
      else p ← read_string s'; Some (String c p.1, p.2)
  end.

Fixpoint read_value (fuel : nat) (s : string) : option (value * string) :=
  match fuel, s with
  | S fuel, String c s' =>
      if Ascii.eqb c (b 34) then p ← read_string s'; Some (JString p.1, p.2)
      else if Ascii.eqb c "{" then
        match strip_prefix "}" s' with
        | Some r => Some (JObject [], r)
        | None => p ← read_fields fuel s'; Some (JObject p.1, p.2)
        end
      else if Ascii.eqb c "[" then
        match strip_prefix "]" s' with
        | Some r => Some (JArray [], r)
        | None => p ← read_items fuel s'; Some (JArray p.1, p.2)
        end
      else
        match strip_prefix "null" s, strip_prefix "true" s, strip_prefix "false" s with
        | Some r, _, _ => Some (JNull, r)
        | _, Some r, _ => Some (JBool true, r)
        | _, _, Some r => Some (JBool false, r)
        | _, _, _ =>
            let neg := Ascii.eqb c "-" in
            let (d, r) := take_digits (if neg then s' else s) in
            if is_empty d then None
            else Some (jint ((if neg then -1 else 1) * digits_value 0 d), r)
        end
  | _, _ => None
  end
with read_items (fuel : nat) (s : string) : option (list value * string) :=
  match fuel with
  | S fuel =>
      p ← read_value fuel s;
      match strip_prefix "," p.2 with
      | Some r => q ← read_items fuel r; Some (p.1 :: q.1, q.2)
      | None => r ← strip_prefix "]" p.2; Some ([p.1], r)
      end
  | O => None
  end
with read_fields (fuel : nat) (s : string) : option (jmap * string) :=
  match fuel with
  | S fuel =>
      s ← strip_prefix (String (b 34) "") s;
      k ← read_string s;
      r ← strip_prefix ":" k.2;
      p ← read_value fuel r;
      match strip_prefix "," p.2 with
      | Some r => q ← read_fields fuel r; Some ((k.1, p.1) :: q.1, q.2)
      | None => r ← strip_prefix "}" p.2; Some ([(k.1, p.1)], r)
      end
  | O => None
  end.

Definition compact_json : SerdeJson := {|
  to_string := print_json;
  from_str s :=
    match read_value (S (String.length s)) s with
    | Some (v, r) => if is_empty r then Some v else None
    | None => None
    end
|}.

(** ** Runs without failures, with the clock at one instant per step *)

Definition noon : Z := 1785585600 * second.

Definition quiet : Env := {| clock n := noon + Z.of_nat n * second; fault _ := false |}.

(** The run whose step [k] fails. *)
Definition failing_at (k : nat) : Env := {| clock n := noon + Z.of_nat n * second; fault n := (n =? k)%nat |}.

Definition start : World := {| db := empty_db true; files := ∅; outbox := []; step := 0 |}.

Example noon_is_noon : @format_iso calendar noon = "2026-08-01T12:00:00+00:00".
Proof. vm_compute. reflexivity. Qed.
Example noon_parses : @parse calendar "2026-08-01 12:00:00" = Ok noon.
Proof. vm_compute. reflexivity. Qed.
Example offset_parses : @parse calendar "2026-08-01T14:30:00.5+02:30" = Ok (noon + 500000000).
Proof. vm_compute. reflexivity. Qed.
Example rfc1123_parses : @parse calendar "Sat, 01 Aug 2026 14:00:00 +0200" = Ok noon.
Proof. vm_compute. reflexivity. Qed.
Example rfc850_parses : @parse calendar "Saturday, 01-Aug-26 12:00:00 UTC" = Ok noon.
Proof. vm_compute. reflexivity. Qed.
Example json_text_parses :
  let v := JObject [("a", jint (-3)); ("b", JArray [JNull; JBool true; JString "x"])] in
  @from_str compact_json (@to_string compact_json v) = Some v.
Proof. vm_compute. reflexivity. Qed.
