(* ===== verification/Repository.v ===== *)
(** * Repository: [symeraseme-core/src/storage/repository.rs]

    The typed queries over the tables.  A query is the relational meaning of its
    SQL text over the tables of [Database]: [WHERE] is a filter, [ORDER BY] a
    stable sort over the row id scan by the column's bytes (NULL first), [LIMIT]
    and [OFFSET] are a prefix and a suffix.  A text filter [?1 IS NULL OR c = ?2]
    is [opt_filter]. *)
From S2P Require Import Prelude.
From S2P Require Import Text.
From S2P Require Import Json.
From S2P Require Import TimeUtil.
From S2P Require Import Types.
From S2P Require Import Database.

Record ListRemovalRequestsOptions := {
  lo_campaign_id : option string;
  lo_status : option string;
  lo_broker_id : option string;
  lo_limit : option Z;
  lo_offset : option Z;
}.

Definition no_filters : ListRemovalRequestsOptions := {|
  lo_campaign_id := None; lo_status := None; lo_broker_id := None;
  lo_limit := None; lo_offset := None |}.

Definition opt_filter (filter : option string) (column : option string) : bool :=
  match filter with
  | None => true
  | Some v => match column with Some c => String.eqb c v | None => false end
  end.

Definition order_by {A} (key : A → string) (rows : list A) : list A :=
  sort_by (λ x y, str_leb (key x) (key y)) rows.

Definition null_leb (x y : option string) : bool :=
  match x, y with
  | None, _ => true
  | Some _, None => false
  | Some a, Some b => str_leb a b
  end.

(** A negative limit is no limit, a negative offset no offset. *)
Definition sql_limit {A} (limit : option Z) (offset : option Z) (rows : list A) : list A :=
  let rows := match offset with Some o => drop (Z.to_nat o) rows | None => rows end in
  match limit with
  | Some l => if l <? 0 then rows else take (Z.to_nat l) rows
  | None => rows
  end.

Definition or_empty (s : option string) : string := default "" s.

(** [request_row]: the LEFT JOIN of a request with its state. *)
Definition request_row (r : RemovalRequest) (s : option StateRow) : RemovalRequestRow := {|
  rw_request := r;
  rw_current_status := st_current_status <$> s;
  rw_last_event_at := st_last_event_at <$> s;
  rw_sent_at := s ≫= st_sent_at;
  rw_acknowledged_at := s ≫= st_acknowledged_at;
  rw_resolved_at := s ≫= st_resolved_at;
  rw_deadline_at := s ≫= st_deadline_at;
  rw_next_action_at := s ≫= st_next_action_at;
  rw_reminders_sent := default 0 (st_reminders_sent <$> s);
  rw_escalation_level := default 0 (st_escalation_level <$> s)
|}.

Definition left_join (d : Db) : list RemovalRequestRow :=
  (λ r, request_row r (request_state d !! rr_id r)) <$> removal_requests d.

(** [tick_candidate] *)
Definition tick_candidate (r : RemovalRequest) (s : StateRow) : TickCandidate := {|
  tc_id := rr_id r;
  tc_broker_id := rr_broker_id r;
  tc_campaign_id := rr_campaign_id r;
  tc_jurisdiction := rr_jurisdiction r;
  tc_current_status := st_current_status s;
  tc_sent_at := or_empty (st_sent_at s);
  tc_deadline_at := or_empty (st_deadline_at s);
  tc_next_action_at := or_empty (st_next_action_at s);
  tc_acknowledged_at := or_empty (st_acknowledged_at s);
  tc_resolved_at := or_empty (st_resolved_at s);
  tc_reminders_sent := st_reminders_sent s;
  tc_escalation_level := st_escalation_level s
|}.

Definition inner_join (d : Db) : list (RemovalRequest * StateRow) :=
  omap (λ r, (λ s, (r, s)) <$> request_state d !! rr_id r) (removal_requests d).

(** [ORDER BY occurred_at ASC, id ASC] *)
Definition event_leb (x y : EventRow) : bool :=
  if String.eqb (ev_occurred_at x) (ev_occurred_at y) then ev_id x <=? ev_id y
  else str_leb (ev_occurred_at x) (ev_occurred_at y).

Definition ordered_events (p : EventRow → bool) (d : Db) : list EventRow :=
  sort_by event_leb (filter (λ e, p e = true) (request_events d)).

Section repository.
Context `{Chrono} `{SerdeJson} `{Env}.

(** [decode_event] *)
Definition decode_event (row : EventRow) : option EventRecord :=
  occurred_at ← ok (parse_timestamp (ev_occurred_at row));
  recorded_at ← ok (parse_timestamp (ev_recorded_at row));
  payload ←
    (let payload_json := trim (ev_payload_json row) in
     if String.eqb payload_json "" || String.eqb payload_json "null" then Some []
     else match from_str payload_json with
          | Some (JObject payload) => Some payload
          | _ => None
          end);
  Some {|
    er_id := ev_id row;
    er_request_id := ev_request_id row;
    er_occurred_at := occurred_at;
    er_recorded_at := recorded_at;
    er_event_type := EventType_from_wire (ev_event_type row);
    er_payload := payload;
    er_source := Source_from_wire (ev_source row)
  |}.

Definition create_campaign (id kind notes : string) : DB DbError bool :=
  let kind := if is_empty kind then "initial" else kind in
  execute_now (λ now d,
    if existsb (λ c, String.eqb (campaign_id c) id) (campaigns d) then Ok (false, d)
    else Ok (true, set_campaigns (campaigns d ++ [{|
           campaign_id := id; campaign_created_at := format_sql now;
           campaign_kind := kind; campaign_notes := Some notes |}]) d)).

Definition list_campaigns : DB DbError (list Campaign) :=
  query (λ d, sort_by (λ x y, str_leb (campaign_created_at y) (campaign_created_at x))
                (campaigns d)).

Definition create_removal_request
    (broker_id channel campaign_id jurisdiction template_id identity_snapshot_hash : string)
    : DB DbError Z :=
  let channel := if is_empty channel then "email" else channel in
  execute_now (λ now d,
    let id := next_request_id d in
    Ok (id, add_request {|
      rr_id := id; rr_broker_id := broker_id; rr_channel := channel;
      rr_campaign_id := campaign_id; rr_created_at := format_sql now;
      rr_jurisdiction := jurisdiction; rr_template_id := template_id;
      rr_identity_snapshot_hash := identity_snapshot_hash |} d)).

Definition get_removal_request (id : Z) : DB DbError (option RemovalRequest) :=
  query (λ d, List.find (λ r, rr_id r =? id) (removal_requests d)).

Definition list_removal_requests (options : ListRemovalRequestsOptions)
    : DB DbError (list RemovalRequestRow) :=
  query (λ d,
    sql_limit (lo_limit options) (lo_offset options)
      (order_by (λ r, rr_created_at (rw_request r))
        (filter (λ r,
          opt_filter (lo_campaign_id options) (Some (rr_campaign_id (rw_request r)))
          && opt_filter (lo_status options) (rw_current_status r)
          && opt_filter (lo_broker_id options) (Some (rr_broker_id (rw_request r))) = true)
          (left_join d)))).

Definition count_removal_requests (campaign_id status : option string) : DB DbError Z :=
  query (λ d, Z.of_nat (List.length (filter (λ r,
    opt_filter campaign_id (Some (rr_campaign_id (rw_request r)))
    && opt_filter status (rw_current_status r) = true) (left_join d)))).

Definition active (status : option string) : bool :=
  match status with
  | None => true
  | Some s => negb (str_in s ["CONFIRMED"; "REJECTED_FINAL"])
  end.

Definition get_active_matchable_requests (campaign_id : option string)
    : DB DbError (list RemovalRequestRow) :=
  query (λ d,
    order_by (λ r, rr_created_at (rw_request r))
      (filter (λ r,
        opt_filter campaign_id (Some (rr_campaign_id (rw_request r)))
        && active (rw_current_status r) = true) (left_join d))).

Definition get_events (request_id after_event_id : Z) : DB DbError (list EventRecord) :=
  query (λ d, omap decode_event
    (ordered_events (λ e, (ev_request_id e =? request_id)
       && (if 0 <? after_event_id then after_event_id <? ev_id e else true)) d)).

(** [result.entry(event.request_id).or_insert_with(Vec::new).push(event)] *)
Definition push_event (m : gmap Z (list EventRecord)) (e : EventRecord)
    : gmap Z (list EventRecord) :=
  <[er_request_id e := default [] (m !! er_request_id e) ++ [e]]> m.

Definition get_events_for_requests (request_ids : list Z) (event_type : option EventType)
    : DB DbError (gmap Z (list EventRecord)) :=
  let result := list_to_map ((λ id, (id, [])) <$> request_ids) in
  match request_ids with
  | [] => mret result
  | _ =>
      query (λ d, fold_left push_event
        (omap decode_event (ordered_events (λ e,
          existsb (Z.eqb (ev_request_id e)) request_ids
          && match event_type with
             | Some t => String.eqb (ev_event_type e) (EventType_as_str t)
             | None => true
             end) d)) result)
  end.

Definition fetch_tick_candidates (now_iso : string) (batch_size : Z)
    : DB DbError (list TickCandidate) :=
  query (λ d,
    let due := filter (λ rs : RemovalRequest * StateRow,
      match st_next_action_at rs.2 with None => true | Some t => str_leb t now_iso end = true)
      (inner_join d) in
    let rows := sort_by (λ x y : RemovalRequest * StateRow,
      null_leb (st_next_action_at x.2) (st_next_action_at y.2)) due in
    (λ rs, tick_candidate rs.1 rs.2) <$>
      sql_limit (if 0 <? batch_size then Some batch_size else None) None rows).

(** The replies to a request, newest first. *)
Definition replies_to (request_id : Z) (d : Db) : list InboxRow :=
  sort_by (λ x y, if String.eqb (ir_received_at x) (ir_received_at y) then ir_id y <=? ir_id x
                  else str_leb (ir_received_at y) (ir_received_at x))
    (filter (λ r, ir_request_id r = Some request_id) (inbox_replies d)).

(** [Store::has_inbox_reply] (store.rs). *)
Definition has_inbox_reply (request_id : Z) : DB DbError bool :=
  query (λ d, match replies_to request_id d with [] => false | _ => true end).
End repository.

(* ------------------------------------------------------------------ *)
(** ** What the queries promise each other *)

Lemma event_leb_total x y : event_leb x y = true ∨ event_leb y x = true.
Proof.
  unfold event_leb. rewrite (String.eqb_sym (ev_occurred_at y)).
  destruct (String.eqb _ _); [rewrite !Z.leb_le; lia|apply str_leb_total].
Qed.

Lemma event_leb_trans x y z :
  event_leb x y = true → event_leb y z = true → event_leb x z = true.
Proof.
  unfold event_leb.
  destruct (String.eqb_spec (ev_occurred_at x) (ev_occurred_at y)) as [Exy|Nxy],
    (String.eqb_spec (ev_occurred_at y) (ev_occurred_at z)) as [Eyz|Nyz].
  - rewrite Exy, Eyz, String.eqb_refl, !Z.leb_le. lia.
  - rewrite Exy. by destruct (String.eqb_spec (ev_occurred_at y) (ev_occurred_at z)).
  - rewrite <-Eyz. by destruct (String.eqb_spec (ev_occurred_at x) (ev_occurred_at y)).
  - intros H1 H2. pose proof (str_leb_trans _ _ _ H1 H2) as H3.
    destruct (String.eqb_spec (ev_occurred_at x) (ev_occurred_at z)) as [E|]; [|done].
    rewrite E in H1. by pose proof (str_leb_antisym _ _ H1 H2).
Qed.

Lemma ordered_events_filter (p q : EventRow → bool) d :
  filter (λ e, q e = true) (ordered_events p d) = ordered_events (λ e, q e && p e) d.
Proof.
  unfold ordered_events.
  rewrite (filter_sort_by event_leb event_leb_total event_leb_trans), list_filter_filter.
  f_equal. apply list_filter_iff. intros e. by rewrite andb_true_iff.
Qed.

Section facts.
Context `{Chrono} `{SerdeJson} `{Env}.

Lemma decode_event_request e row : decode_event row = Some e → er_request_id e = ev_request_id row.
Proof. unfold decode_event. intros. by simplify_option_eq. Qed.

Lemma push_events_lookup l m id l0 :
  m !! id = Some l0 →
  fold_left push_event l m !! id = Some (l0 ++ filter (λ e, er_request_id e = id) l).
Proof.
  revert m l0. induction l as [|e l IH]; intros m l0 Hm; simpl.
  - by rewrite filter_nil, app_nil_r.
  - rewrite filter_cons. destruct (decide (er_request_id e = id)) as [<-|Hne].
    + rewrite (IH _ (l0 ++ [e])); [by rewrite <-app_assoc|].
      unfold push_event. rewrite Hm. simpl. by rewrite lookup_insert_eq.
    + apply IH. unfold push_event. by rewrite lookup_insert_ne.
Qed.

Lemma omap_decode_filter id (rows : list EventRow) :
  filter (λ e, er_request_id e = id) (omap decode_event rows) =
  omap decode_event (filter (λ r, (ev_request_id r =? id) = true) rows).
Proof.
  induction rows as [|r rows IH]; [done|]. csimpl.
  rewrite filter_cons. destruct (decode_event r) as [e|] eqn:Hd.
  - rewrite filter_cons, (decode_event_request e r Hd), IH.
    destruct (decide (ev_request_id r = id)) as [He|Hn].
    + rewrite decide_True by (by apply Z.eqb_eq). csimpl. by rewrite Hd.
    + rewrite decide_False; [done|]. by rewrite Z.eqb_eq.
  - rewrite IH. destruct (decide _); [|done]. csimpl. by rewrite Hd.
Qed.

(** Reading the events of several requests at once gives every one of them,
    the requests without events included, exactly what reading it alone gives. *)
Theorem get_events_for_requests_agrees ids id w m w1 l w2 :
  get_events_for_requests ids None w = (Ok m, w1) →
  get_events id 0 w = (Ok l, w2) →
  id ∈ ids → m !! id = Some l.
Proof.
  unfold get_events_for_requests. intros Hm Hl Hid.
  destruct ids as [|i ids]; [by apply elem_of_nil in Hid|].
  revert Hm Hid. generalize (i :: ids). intros all Hm Hid.
  apply query_ok in Hm as [-> _]. apply query_ok in Hl as [-> _].
  rewrite (push_events_lookup _ _ id []).
  - rewrite app_nil_l, omap_decode_filter, ordered_events_filter. do 2 f_equal.
    unfold ordered_events. f_equal. apply list_filter_iff. intros e.
    rewrite !andb_true_iff, existsb_elem, Z.eqb_eq. split; [tauto|].
    intros [Heq _]. split_and!; [done| |done]. exists (ev_request_id e).
    by rewrite Z.eqb_refl, Heq.
  - by apply lookup_list_to_map_const.
Qed.

(** a page of a listing followed by the rest of it from the page's end is the
    listing from the page's start; pages neither skip nor repeat a request. *)
Theorem list_removal_requests_pages c s br limit offset w page wp rest wr whole ww :
  0 ≤ limit → 0 ≤ offset →
  let options l o := {| lo_campaign_id := c; lo_status := s; lo_broker_id := br;
                        lo_limit := l; lo_offset := o |} in
  list_removal_requests (options (Some limit) (Some offset)) w = (Ok page, wp) →
  list_removal_requests (options None (Some (offset + limit))) w = (Ok rest, wr) →
  list_removal_requests (options None (Some offset)) w = (Ok whole, ww) →
  page ++ rest = whole.
Proof.
  intros Hl Ho options Hp Hr Hw.
  apply query_ok in Hp as [-> _]. apply query_ok in Hr as [-> _].
  apply query_ok in Hw as [-> _]. simpl. generalize (order_by
    (λ r, rr_created_at (rw_request r)) (filter (λ r,
      opt_filter c (Some (rr_campaign_id (rw_request r))) && opt_filter s (rw_current_status r)
      && opt_filter br (Some (rr_broker_id (rw_request r))) = true) (left_join (db w)))).
  intros rows. unfold sql_limit. destruct (limit <? 0) eqn:E; [lia|].
  rewrite Z2Nat.inj_add, <-drop_drop by done. apply take_drop.
Qed.

(** Counting requests gives the length of the unpaged listing with the same
    filters, and fails when it fails. *)
Theorem count_removal_requests_lists c s w :
  (count_removal_requests c s w).1 =
  ((λ l, Z.of_nat (List.length l)) <$>
    (list_removal_requests {| lo_campaign_id := c; lo_status := s; lo_broker_id := None;
                              lo_limit := None; lo_offset := None |} w).1).
Proof.
  unfold count_removal_requests, list_removal_requests, query, execute, execute_now.
  destruct (fault _); [done|]. simpl. unfold order_by. rewrite sort_by_length.
  do 3 f_equal. apply list_filter_iff. intros r. by rewrite andb_true_r.
Qed.
End facts.
