(* ===== verification/Projection.v ===== *)
(** * Projection: [symeraseme-core/src/storage/projection.rs]

    Appending to the event log and the [request_state] projection: the replay
    fold, the transactions that append and project, the rebuild of stale
    projections. *)

From S2P Require Import Prelude.
From S2P Require Import Text.
From S2P Require Import Json.
From S2P Require Import TimeUtil.
From S2P Require Import Types.
From S2P Require Import Database.
From S2P Require Import Repository.

(** [PayloadSerialization] is not a constructor: serialising a JSON value does not
    fail ([to_string] is a function). *)
Inductive ProjectionError : Type :=
| UnknownEventTypeError (value : string)
| UnknownSourceError (value : string)
| Database (e : DbError).

(** [Display] *)
Definition ProjectionError_str `{RustFmt} `{DbErrorFmt} (e : ProjectionError) : string :=
  match e with
  | UnknownEventTypeError value => "eventstore: unknown event type: " +:+ debug_str value
  | UnknownSourceError value => "eventstore: unknown source: " +:+ debug_str value
  | Database error => db_error_str error
  end.

Record ProjectionState := {
  acknowledged_at : option string;
  current_status : string;
  deadline_at : option string;
  escalation_level : Z;
  last_event_at : option string;
  last_event_id : Z;
  next_action_at : option string;
  reminders_sent : Z;
  request_id : Z;
  resolved_at : option string;
  sent_at : option string;
}.

Definition ProjectionState_new (request_id : Z) : ProjectionState := {|
  acknowledged_at := None; current_status := "PLANNED"; deadline_at := None;
  escalation_level := 0; last_event_at := None; last_event_id := 0;
  next_action_at := None; reminders_sent := 0; request_id := request_id;
  resolved_at := None; sent_at := None |}.

Inductive ReplayEventError : Set := EmptyEventType | EmptyOccurredAt.

(** Whether an instant is Go's [time.Time{}]: 0001-01-01T00:00:00Z. *)
Definition is_go_zero_time (timestamp : Z) : bool := timestamp =? -62135596800 * second.

Definition status_for (event_type : EventType) : option string :=
  match event_type with
  | Planned => Some "PLANNED"
  | Sent => Some "AWAITING_ACK"
  | SendFailed => Some "SEND_FAILED"
  | Bounce => Some "BOUNCE"
  | Ack => Some "ACK"
  | Autoresponder => Some "AWAITING_ACK"
  | VerificationRequested => Some "AWAITING_USER_ACTION"
  | VerificationProvided => Some "AWAITING_RESPONSE"
  | HumanActionRequired => Some "AWAITING_USER_ACTION"
  | Confirmed => Some "CONFIRMED"
  | RejectedFinal => Some "REJECTED_FINAL"
  | ConfirmationLinkClicked => Some "CONFIRMED"
  | RebuttalSent => Some "AWAITING_RESPONSE"
  | ReminderSent => Some "AWAITING_ACK"
  | DeadlineReached => Some "OVERDUE"
  | DpaComplaintDrafted => Some "ESCALATED"
  | DpaComplaintFiled => Some "DPA_FILED"
  | RescanTriggered => Some "RE_SCAN_DUE"
  | ReplyDrafted | NoteAdded | UnknownEvent _ => None
  end.

(** The [x86_64] build: values from 2^63 up become [i64::MIN]. *)
Definition go_float_to_int (f : SpecFloat.spec_float) : Z :=
  if f64_ge_2p63 f then i64_min else f64_as_i64 f.

Definition payload_integer (payload : jmap) (key : string) : option Z :=
  go_float_to_int <$> (map_get key payload ≫= as_f64).

Definition nanoseconds_per_day : Z := 86400000000000.

(** The state with the bookkeeping and the status of an accepted event. *)
Definition track (status : option string) (id : Z) (at_ : string) (s : ProjectionState)
    : ProjectionState := {|
  acknowledged_at := acknowledged_at s;
  current_status := default (current_status s) status;
  deadline_at := deadline_at s;
  escalation_level := escalation_level s;
  last_event_at := Some at_;
  last_event_id := id;
  next_action_at := next_action_at s;
  reminders_sent := reminders_sent s;
  request_id := request_id s;
  resolved_at := resolved_at s;
  sent_at := sent_at s |}.

Definition set_sent (at_ : string) (deadline : option string) (s : ProjectionState) : ProjectionState := {|
  acknowledged_at := acknowledged_at s; current_status := current_status s;
  deadline_at := deadline; escalation_level := escalation_level s;
  last_event_at := last_event_at s; last_event_id := last_event_id s;
  next_action_at := next_action_at s; reminders_sent := reminders_sent s;
  request_id := request_id s; resolved_at := resolved_at s; sent_at := Some at_ |}.

Definition set_acknowledged (at_ : string) (s : ProjectionState) : ProjectionState := {|
  acknowledged_at := Some at_; current_status := current_status s;
  deadline_at := deadline_at s; escalation_level := escalation_level s;
  last_event_at := last_event_at s; last_event_id := last_event_id s;
  next_action_at := next_action_at s; reminders_sent := reminders_sent s;
  request_id := request_id s; resolved_at := resolved_at s; sent_at := sent_at s |}.

Definition set_resolved (at_ : string) (s : ProjectionState) : ProjectionState := {|
  acknowledged_at := acknowledged_at s; current_status := current_status s;
  deadline_at := deadline_at s; escalation_level := escalation_level s;
  last_event_at := last_event_at s; last_event_id := last_event_id s;
  next_action_at := next_action_at s; reminders_sent := reminders_sent s;
  request_id := request_id s; resolved_at := Some at_; sent_at := sent_at s |}.

Definition set_reminders (n : Z) (s : ProjectionState) : ProjectionState := {|
  acknowledged_at := acknowledged_at s; current_status := current_status s;
  deadline_at := deadline_at s; escalation_level := escalation_level s;
  last_event_at := last_event_at s; last_event_id := last_event_id s;
  next_action_at := next_action_at s; reminders_sent := n;
  request_id := request_id s; resolved_at := resolved_at s; sent_at := sent_at s |}.

Definition set_escalation (n : Z) (s : ProjectionState) : ProjectionState := {|
  acknowledged_at := acknowledged_at s; current_status := current_status s;
  deadline_at := deadline_at s; escalation_level := n;
  last_event_at := last_event_at s; last_event_id := last_event_id s;
  next_action_at := next_action_at s; reminders_sent := reminders_sent s;
  request_id := request_id s; resolved_at := resolved_at s; sent_at := sent_at s |}.

Section projection.
Context `{Chrono} `{SerdeJson} `{Env}.

(** Go's [occurred_at + time.Duration(days) * 24h], when it is representable. *)
Definition response_deadline (event : EventRecord) : option Z :=
  let days :=
    Z.max 0 (default 30 (payload_integer (er_payload event) "expected_response_days")) in
  checked_add_signed (er_occurred_at event) (wrap_i64 (days * nanoseconds_per_day)).

Definition event_count (event : EventRecord) : Z :=
  let count := default 0 (payload_integer (er_payload event) "count") in
  if count =? 0 then 1 else count.

(** The effect of one accepted event beside its bookkeeping. *)
Definition event_effect (event : EventRecord) (s : ProjectionState) : ProjectionState :=
  let at_ := format_iso (er_occurred_at event) in
  match er_event_type event with
  | Sent =>
      set_sent at_
        (match response_deadline event with
         | Some deadline => Some (format_iso deadline)
         | None => deadline_at s
         end) s
  | Ack => set_acknowledged at_ s
  | Confirmed | RejectedFinal => set_resolved at_ s
  | ReminderSent => set_reminders (event_count event) s
  | DeadlineReached => set_escalation 1 s
  | DpaComplaintDrafted => set_escalation 2 s
  | _ => s
  end.

Definition apply_event (state : ProjectionState) (event : EventRecord)
    : result ReplayEventError ProjectionState :=
  if decide (er_event_type event = UnknownEvent "") then Err EmptyEventType
  else if is_go_zero_time (er_occurred_at event) then Err EmptyOccurredAt
  else Ok (event_effect event
    (track (status_for (er_event_type event)) (er_id event)
       (format_iso (er_occurred_at event)) state)).

(** [let _ = apply_event(&mut state, event)] *)
Definition fold_step (state : ProjectionState) (event : EventRecord) : ProjectionState :=
  match apply_event state event with Ok s => s | Err _ => state end.

Definition fold_events (request_id : Z) (events : list EventRecord) : ProjectionState :=
  fold_left fold_step events (ProjectionState_new request_id).

Definition decode_replay_event (row : EventRow) : option EventRecord :=
  occurred_at ← ok (parse_timestamp (ev_occurred_at row));
  recorded_at ← ok (parse_timestamp (ev_recorded_at row));
  payload ←
    (let payload_json := trim (ev_payload_json row) in
     if String.eqb payload_json "" || String.eqb payload_json "null" then Some []
     else match from_str payload_json with
          | Some (JObject payload) => Some payload
          | _ => None
          end);
  Some {|
    er_id := ev_id row;
    er_request_id := ev_request_id row;
    er_occurred_at := occurred_at;
    er_recorded_at := recorded_at;
    er_event_type := EventType_from_wire (ev_event_type row);
    er_payload := payload;
    er_source := Source_from_wire (ev_source row)
  |}.

Definition replay_log (d : Db) (request_id : Z) : list EventRecord :=
  omap decode_replay_event (ordered_events (λ e, ev_request_id e =? request_id) d).

Definition load_events (request_id : Z) : DB ProjectionError (list EventRecord) :=
  lift Database (query (λ d, replay_log d request_id)).

Definition validate_append (event_type : EventType) (source : Source)
    : result ProjectionError () :=
  match event_type with
  | UnknownEvent value => Err (UnknownEventTypeError value)
  | _ =>
      match source with
      | UnknownSource value => Err (UnknownSourceError value)
      | _ => Ok ()
      end
  end.

(** [INSERT INTO request_events]; the reference to [removal_requests] is checked
    when the pragma is on. *)
Definition insert_event (request_id : Z) (occurred_at recorded_at event_type payload_json source : string)
    : DB DbError Z :=
  execute (λ d,
    if foreign_keys d && negb (request_exists d request_id) then Err ForeignKey
    else
      let id := next_event_id d in
      Ok (id, add_event {|
        ev_id := id; ev_request_id := request_id; ev_occurred_at := occurred_at;
        ev_recorded_at := recorded_at; ev_event_type := event_type;
        ev_payload_json := payload_json; ev_source := source |} d)).

Definition payload_text (payload : jmap) : string :=
  match payload with [] => "{}" | _ => to_string (go_map_order (JObject payload)) end.

Definition append_event_tx (request_id : Z) (event_type : EventType) (payload : jmap)
    (source : Source) (occurred_at : Z) : DB ProjectionError Z :=
  _ ← of_result (validate_append event_type source);
  now ← utc_now;
  lift Database (insert_event request_id (format_sql occurred_at) (format_sql now)
    (EventType_as_str event_type) (payload_text payload) (Source_as_str source)).

(** The row written for a state; a NULL [last_event_at] takes the column's
    default, the conflict resolution of INSERT OR REPLACE on a NOT NULL column. *)
Definition state_row (now : Z) (s : ProjectionState) : StateRow := {|
  st_current_status := current_status s;
  st_last_event_id := last_event_id s;
  st_last_event_at := default (format_sql now) (last_event_at s);
  st_sent_at := sent_at s;
  st_acknowledged_at := acknowledged_at s;
  st_resolved_at := resolved_at s;
  st_deadline_at := deadline_at s;
  st_next_action_at := next_action_at s;
  st_reminders_sent := reminders_sent s;
  st_escalation_level := escalation_level s |}.

Definition replace_state (s : ProjectionState) : DB DbError () :=
  execute_now (λ now d,
    if foreign_keys d && negb (request_exists d (request_id s)) then Err ForeignKey
    else Ok ((), set_state (<[request_id s := state_row now s]> (request_state d)) d)).

Definition upsert_state_tx (request_id : Z) : DB ProjectionError ProjectionState :=
  events ← load_events request_id;
  let state := fold_events request_id events in
  _ ← lift Database (replace_state state);
  mret state.

Definition append_and_project_tx (request_id : Z) (event_type : EventType) (payload : jmap)
    (source : Source) (occurred_at : Z) : DB ProjectionError (Z * ProjectionState) :=
  event_id ← append_event_tx request_id event_type payload source occurred_at;
  state ← upsert_state_tx request_id;
  mret (event_id, state).

Definition append_event (request_id : Z) (event_type : EventType) (payload : jmap)
    (source : Source) (occurred_at : Z) : DB ProjectionError Z :=
  transaction Database (append_event_tx request_id event_type payload source occurred_at).

Definition append_and_project (request_id : Z) (event_type : EventType) (payload : jmap)
    (source : Source) (occurred_at : Z) : DB ProjectionError (Z * ProjectionState) :=
  transaction Database (append_and_project_tx request_id event_type payload source occurred_at).

Definition rebuild_state (request_id : Z) : DB ProjectionError ProjectionState :=
  events ← lift Database (get_events request_id 0);
  mret (fold_events request_id events).

Definition upsert_state (request_id : Z) : DB ProjectionError ProjectionState :=
  transaction Database (upsert_state_tx request_id).

(** The requests with an event newer than their projection. *)
Definition dirty (d : Db) (id : Z) : bool :=
  existsb (λ e, (ev_request_id e =? id) &&
    match request_state d !! id with
    | None => true
    | Some s => st_last_event_id s <? ev_id e
    end) (request_events d).

Definition dirty_requests (d : Db) : list Z :=
  filter (λ id, dirty d id = true) (rr_id <$> removal_requests d).

(** [slice::chunks] *)
Fixpoint chunks_fuel {A} (fuel n : nat) (l : list A) : list (list A) :=
  match fuel, l with
  | S fuel', _ :: _ => take n l :: chunks_fuel fuel' n (drop n l)
  | _, _ => []
  end.

Definition chunks {A} (n : nat) (l : list A) : list (list A) := chunks_fuel (List.length l) n l.

Fixpoint upsert_all (ids : list Z) (rebuilt : Z) : DB ProjectionError Z :=
  match ids with
  | [] => mret rebuilt
  | id :: ids' => _ ← upsert_state id; upsert_all ids' (rebuilt + 1)
  end.

Fixpoint upsert_chunks (cs : list (list Z)) (rebuilt : Z) : DB ProjectionError Z :=
  match cs with
  | [] => mret rebuilt
  | c :: cs' => rebuilt ← upsert_all c rebuilt; upsert_chunks cs' rebuilt
  end.

Definition rebuild_all_states (chunk_size : nat) : DB ProjectionError Z :=
  let chunk_size := if (chunk_size =? 0)%nat then 100%nat else chunk_size in
  ids ← lift Database (query dirty_requests);
  upsert_chunks (chunks chunk_size ids) 0.

Definition request_ids : DB ProjectionError (list Z) :=
  lift Database (query (λ d, sort_by Z.leb (rr_id <$> removal_requests d))).

Definition all_projections : DB ProjectionError (gmap Z ProjectionState) :=
  ids ← request_ids;
  states ← mapM_db (λ id, s ← rebuild_state id; mret (id, s)) (sort_by Z.leb ids);
  mret (list_to_map states).
End projection.
