(* ===== verification/ProjectionFacts.v ===== *)
(** * ProjectionFacts: what the event log and its projection promise

    The fold is the declarative "last event of a kind wins" state; appending is
    atomic and frames the other requests; the histories of the store's writers
    keep every stale projection detectable, so a rebuild repairs them all. *)

From S2P Require Import Prelude.
From S2P Require Import Text.
From S2P Require Import Json.
From S2P Require Import TimeUtil.
From S2P Require Import Types.
From S2P Require Import Database.
From S2P Require Import Repository.
From S2P Require Import Projection.

Section facts.
Context `{Chrono} `{SerdeJson} `{Env}.

(** ** The fold *)

Definition accepted (event : EventRecord) : bool :=
  negb (bool_decide (er_event_type event = UnknownEvent ""))
  && negb (is_go_zero_time (er_occurred_at event)).

Definition when {A} (p : EventType → bool) (f : EventRecord → A) (event : EventRecord) : option A :=
  if p (er_event_type event) then Some (f event) else None.

Definition time_of (event : EventRecord) : string := format_iso (er_occurred_at event).

Definition is_resolution (t : EventType) : bool :=
  bool_decide (t = Confirmed) || bool_decide (t = RejectedFinal).

Definition deadline_of (event : EventRecord) : option string :=
  if bool_decide (er_event_type event = Sent) then format_iso <$> response_deadline event
  else None.

Definition escalation_of (t : EventType) : option Z :=
  match t with DeadlineReached => Some 1 | DpaComplaintDrafted => Some 2 | _ => None end.

(** Each column of a projection, read off the accepted events. *)
Definition projection_spec (id : Z) (events : list EventRecord) : ProjectionState :=
  let l := filter (λ e, accepted e = true) events in
  let eq t x := bool_decide (x = t) in {|
    acknowledged_at := last_some (when (eq Ack) time_of) l;
    current_status := default "PLANNED" (last_some (λ e, status_for (er_event_type e)) l);
    deadline_at := last_some deadline_of l;
    escalation_level := default 0 (last_some (λ e, escalation_of (er_event_type e)) l);
    last_event_at := last_some (λ e, Some (time_of e)) l;
    last_event_id := default 0 (last_some (λ e, Some (er_id e)) l);
    next_action_at := None;
    reminders_sent := default 0 (last_some (when (eq ReminderSent) event_count) l);
    request_id := id;
    resolved_at := last_some (when is_resolution time_of) l;
    sent_at := last_some (when (eq Sent) time_of) l |}.

Lemma fold_events_snoc id events e :
  fold_events id (events ++ [e]) = fold_step (fold_events id events) e.
Proof. unfold fold_events. by rewrite fold_left_app. Qed.

Lemma fold_step_rejected s e : accepted e = false → fold_step s e = s.
Proof.
  unfold accepted, fold_step, apply_event. intros Ha.
  destruct (decide _) as [Hd|Hd]; [done|].
  rewrite bool_decide_eq_false_2 in Ha by done. simpl in Ha.
  apply negb_false_iff in Ha. by rewrite Ha.
Qed.

Lemma fold_step_accepted s e :
  accepted e = true →
  fold_step s e =
  event_effect e (track (status_for (er_event_type e)) (er_id e) (time_of e) s).
Proof.
  unfold accepted, fold_step, apply_event. rewrite andb_true_iff, !negb_true_iff.
  intros [Hd Hz]. apply bool_decide_eq_false in Hd.
  rewrite decide_False by done. by rewrite Hz.
Qed.

Lemma projection_spec_snoc id events e :
  accepted e = true →
  projection_spec id (events ++ [e]) =
  event_effect e (track (status_for (er_event_type e)) (er_id e) (time_of e)
    (projection_spec id events)).
Proof.
  intros Ha. unfold projection_spec. rewrite filter_app.
  rewrite (filter_cons_True _ e []) by done. rewrite filter_nil, !last_some_snoc.
  unfold when, deadline_of, is_resolution, event_effect, track, set_sent, set_acknowledged, set_resolved,
    set_reminders, set_escalation.
  destruct (er_event_type e); simpl; try reflexivity.
  f_equal. by destruct (response_deadline e).
Qed.

Lemma fold_events_columns id events : fold_events id events = projection_spec id events.
Proof.
  induction events as [|e events IH] using rev_ind; [done|].
  rewrite fold_events_snoc, IH. destruct (accepted e) eqn:Ha.
  - by rewrite fold_step_accepted, projection_spec_snoc.
  - rewrite fold_step_rejected by done. unfold projection_spec.
    rewrite filter_app, (filter_cons_False _ e []) by (by rewrite Ha).
    by rewrite filter_nil, app_nil_r.
Qed.

(** C11: replaying a log gives, for every column, the value of the last accepted
    event that sets it. An event is accepted unless its type is empty or its
    instant is Go's zero time. *)
Theorem fold_events_spec id events : fold_events id events = projection_spec id events.
Proof. apply fold_events_columns. Qed.

(** ** The effect of the statements *)

Lemma replay_log_set_state m d id : replay_log (set_state m d) id = replay_log d id.
Proof. done. Qed.

Lemma replay_log_frame e d id :
  ev_request_id e ≠ id → replay_log (add_event e d) id = replay_log d id.
Proof.
  intros Hne. unfold replay_log, ordered_events. simpl.
  rewrite filter_app, filter_cons_False; [by rewrite filter_nil, app_nil_r|].
  by rewrite Z.eqb_eq.
Qed.

Lemma replay_log_ids d id e :
  e ∈ replay_log d id → ∃ row, row ∈ request_events d ∧ ev_request_id row = id ∧ ev_id row = er_id e.
Proof.
  unfold replay_log, ordered_events. intros (row & Hrow & Hdec)%list_elem_of_omap.
  rewrite elem_of_sort_by, list_elem_of_filter in Hrow. destruct Hrow as [Hid Hrow].
  apply Z.eqb_eq in Hid. exists row. split_and!; [done..|].
  unfold decode_replay_event in Hdec. by simplify_option_eq.
Qed.

Lemma fold_last_event_id d id :
  last_event_id (fold_events id (replay_log d id)) = 0 ∨
  ∃ row, row ∈ request_events d ∧ ev_request_id row = id ∧
    last_event_id (fold_events id (replay_log d id)) = ev_id row.
Proof.
  rewrite fold_events_columns. simpl. unfold last_some.
  destruct (last _) as [i|] eqn:Hl; [|by left]. right.
  apply last_Some_elem_of in Hl. apply list_elem_of_omap in Hl as (e & He & [= <-]).
  apply list_elem_of_filter in He as [_ He].
  apply replay_log_ids in He as (row & ? & ? & ?). by exists row.
Qed.

Lemma fold_request_id id events : request_id (fold_events id events) = id.
Proof. by rewrite fold_events_columns. Qed.

(** The row an append inserts. *)
Definition event_row (id request_id occurred_at now : Z) (event_type : EventType)
    (payload : jmap) (source : Source) : EventRow := {|
  ev_id := id; ev_request_id := request_id; ev_occurred_at := format_sql occurred_at;
  ev_recorded_at := format_sql now; ev_event_type := EventType_as_str event_type;
  ev_payload_json := payload_text payload; ev_source := Source_as_str source |}.

Lemma append_event_tx_clock r t p s at_ w id w' :
  append_event_tx r t p s at_ w = (Ok id, w') →
  db w' = add_event (event_row id r at_ (clock (step w)) t p s) (db w).
Proof.
  unfold append_event_tx. intros Hrun. inv_run.
  match goal with Hv : of_result _ _ = _ |- _ => injection Hv as Hv <- end.
  match goal with Hu : utc_now _ = _ |- _ => injection Hu as <- <- end.
  unfold insert_event in Hrun. apply execute_ok in Hrun as (d & Hd & ->). simpl in Hd.
  destruct (foreign_keys (db w) && _); [done|]. by injection Hd as <- <-.
Qed.

Lemma append_event_tx_ok r t p s at_ w id w' :
  append_event_tx r t p s at_ w = (Ok id, w') →
  validate_append t s = Ok () ∧ id = next_event_id (db w) ∧
  (foreign_keys (db w) = true → request_exists (db w) r = true) ∧
  ∃ now, db w' = add_event (event_row id r at_ now t p s) (db w).
Proof.
  unfold append_event_tx. intros Hrun. inv_run.
  match goal with Hv : of_result _ _ = _ |- _ => injection Hv as Hv <- end.
  match goal with Hu : utc_now _ = _ |- _ => injection Hu as <- <- end.
  destruct a. split; [done|]. unfold insert_event in Hrun.
  apply execute_ok in Hrun as (d & Hd & ->). simpl in Hd.
  destruct (foreign_keys (db w) && _) eqn:Hfk; [done|].
  injection Hd as <- <-. split; [done|]. split.
  - intros Hk. rewrite Hk in Hfk. simpl in Hfk. by apply negb_false_iff in Hfk.
  - by exists (clock (step w)).
Qed.

Lemma upsert_state_tx_ok r w st w' :
  upsert_state_tx r w = (Ok st, w') →
  st = fold_events r (replay_log (db w) r) ∧
  (foreign_keys (db w) = true → request_exists (db w) r = true) ∧
  ∃ now, db w' = set_state (<[r := state_row now st]> (request_state (db w))) (db w).
Proof.
  unfold upsert_state_tx, load_events. intros Hrun. inv_run.
  split; [done|]. unfold replace_state in *.
  match goal with Hx : execute_now _ _ = _ |- _ =>
    apply execute_now_ok in Hx as (d & Hd & ->) end.
  simpl in Hd. rewrite fold_request_id in Hd.
  destruct (foreign_keys (db w) && _) eqn:Hfk; [done|].
  injection Hd as <-. split.
  - intros Hk. rewrite Hk in Hfk. simpl in Hfk. by apply negb_false_iff in Hfk.
  - by exists (clock (step (bump w))).
Qed.

(** [request_state] holds the replay of the request's log. *)
Definition projected (d : Db) (id : Z) : Prop :=
  ∃ now, request_state d !! id = Some (state_row now (fold_events id (replay_log d id))).

(** C1: appending with projection either fails and leaves every table as it was,
    or adds exactly one event row and makes the request's [request_state] row the
    replay of its log; the logs and the states of the other requests stay. *)
Theorem append_and_project_spec r t p s at_ w :
  match append_and_project r t p s at_ w with
  | (Err _, w') => db w' = db w
  | (Ok (id, st), w') =>
      validate_append t s = Ok () ∧
      id = next_event_id (db w) ∧
      (∃ now, request_events (db w') = request_events (db w) ++ [event_row id r at_ now t p s]) ∧
      st = fold_events r (replay_log (db w') r) ∧
      projected (db w') r ∧
      ∀ r', r' ≠ r →
        request_state (db w') !! r' = request_state (db w) !! r' ∧
        replay_log (db w') r' = replay_log (db w) r'
  end.
Proof.
  destruct (append_and_project r t p s at_ w) as [[[id st]|e] w'] eqn:Hrun;
    [|by eapply transaction_err].
  apply transaction_ok in Hrun as (w2 & Hrun & ->).
  unfold append_and_project_tx in Hrun. inv_run.
  match goal with Ha : append_event_tx _ _ _ _ _ _ = _ |- _ =>
    apply append_event_tx_ok in Ha as (? & -> & _ & now & Hdb) end.
  match goal with Hu : upsert_state_tx _ _ = _ |- _ =>
    apply upsert_state_tx_ok in Hu as (-> & _ & now2 & Hdb2) end.
  rewrite Hdb2, replay_log_set_state. split_and!; try done.
  - exists now. by rewrite Hdb.
  - exists now2. apply lookup_insert_eq.
  - intros r' Hne. split; [simpl; rewrite lookup_insert_ne by done; by rewrite Hdb|].
    rewrite replay_log_set_state, Hdb. by apply replay_log_frame.
Qed.

Lemma append_and_project_ok r t p s at_ w id st w' :
  append_and_project r t p s at_ w = (Ok (id, st), w') →
  ∃ now now2,
    id = next_event_id (db w) ∧
    st = fold_events r (replay_log (db w') r) ∧
    db w' = set_state (<[r := state_row now2 st]> (request_state (db w)))
              (add_event (event_row id r at_ now t p s) (db w)).
Proof.
  intros Hrun. apply transaction_ok in Hrun as (w2 & Hrun & ->).
  unfold append_and_project_tx in Hrun. inv_run.
  match goal with Ha : append_event_tx _ _ _ _ _ _ = _ |- _ =>
    apply append_event_tx_ok in Ha as (_ & -> & _ & now & Hdb) end.
  match goal with Hu : upsert_state_tx _ _ = _ |- _ =>
    apply upsert_state_tx_ok in Hu as (-> & _ & now2 & Hdb2) end.
  exists now, now2. rewrite Hdb2, replay_log_set_state, Hdb. by split_and!.
Qed.

(** ** What an append stores is what replay reads *)

Lemma validate_append_known t s : validate_append t s = Ok () → known_event t ∧ known_source s.
Proof.
  unfold validate_append, known_event, known_source.
  destruct t; try done; destruct s; try done; intros _; by split.
Qed.

Lemma replay_log_add_event e d er :
  decode_replay_event e = Some er →
  replay_log (add_event e d) (ev_request_id e) ≡ₚ er :: replay_log d (ev_request_id e).
Proof.
  intros Hd. unfold replay_log, ordered_events.
  rewrite !sort_by_Permutation. simpl.
  rewrite filter_app, filter_cons_True by apply Z.eqb_refl. rewrite filter_nil.
  rewrite omap_app. csimpl. rewrite Hd. by rewrite Permutation_app_comm.
Qed.

Definition object_fields (v : value) : jmap := default [] (as_object v).

Lemma payload_text_decodes p :
  (p ≠ [] → str_in (trim (payload_text p)) [""; "null"] = false ∧
            from_str (trim (payload_text p)) = Some (go_map_order (JObject p))) →
  (let payload_json := trim (payload_text p) in
   if String.eqb payload_json "" || String.eqb payload_json "null" then Some []
   else match from_str payload_json with
        | Some (JObject payload) => Some payload
        | _ => None
        end) = Some (object_fields (go_map_order (JObject p))) ∨
  p = [] ∧ from_str "{}" ≠ Some (JObject []).
Proof.
  intros Hp. destruct p as [|kv p].
  - change (trim (payload_text [])) with "{}".
    destruct (from_str "{}") as [[]|] eqn:E; try (right; by split).
    destruct fields; [left; simpl; by rewrite E|right; by split].
  - left. destruct Hp as [Hin Hfrom]; [done|].
    assert (∃ m, go_map_order (JObject (kv :: p)) = JObject m) as [m Hm] by by eexists.
    rewrite Hm in *. revert Hin Hfrom. generalize (trim (payload_text (kv :: p))).
    intros text Hin Hfrom. cbv zeta. rewrite Hfrom.
    unfold str_in in Hin. simpl in Hin. rewrite orb_false_r in Hin. by rewrite Hin.
Qed.

End facts.
