(* ===== verification/StoreHistory.v ===== *)
(** * StoreHistory: the reachable databases of the store's writers

    The writers of [Repository] and [Projection] as a step relation, with every
    failing statement included; the invariant of the reachable databases; and the
    rebuild of stale projections. *)
From stdpp Require Import relations.
From S2P Require Import Prelude.
From S2P Require Import Text.
From S2P Require Import Json.
From S2P Require Import TimeUtil.
From S2P Require Import Types.
From S2P Require Import Database.
From S2P Require Import Model.
From S2P Require Import Repository.
From S2P Require Import Projection.
From S2P Require Import ProjectionFacts.

Section history.
Context `{Chrono} `{SerdeJson} `{Env}.

(** One call of a writer, whatever its outcome. *)
Inductive store_step : World → World → Prop :=
| step_campaign id kind notes w :
    store_step w (create_campaign id kind notes w).2
| step_request b c i j t h w :
    store_step w (create_removal_request b c i j t h w).2
| step_append r t p s at_ w :
    store_step w (append_event r t p s at_ w).2
| step_append_and_project r t p s at_ w :
    store_step w (append_and_project r t p s at_ w).2
| step_upsert r w :
    store_step w (upsert_state r w).2
| step_rebuild_all n w :
    store_step w (rebuild_all_states n w).2.

Definition reachable (w : World) : Prop :=
  ∃ fk fs out n,
    rtc store_step {| db := empty_db fk; files := fs; outbox := out; step := n |} w.

(** Event ids are below the counter, so are the ids projections point to, and a
    projection that is not the replay of its log is seen as dirty. *)
Record store_inv (d : Db) : Prop := {
  inv_next : 0 < next_event_id d;
  inv_events : ∀ e, e ∈ request_events d → ev_id e < next_event_id d;
  inv_last : ∀ r s, request_state d !! r = Some s → st_last_event_id s < next_event_id d;
  inv_stale : ∀ r s, request_state d !! r = Some s → projected d r ∨ dirty d r = true;
}.

Lemma store_inv_empty fk : store_inv (empty_db fk).
Proof.
  split; simpl; [lia| set_solver |intros ? ? Hl; by rewrite lookup_empty in Hl..].
Qed.

(** What the invariant reads. *)
Definition same_log (d d' : Db) : Prop :=
  request_events d' = request_events d ∧ next_event_id d' = next_event_id d ∧
  request_state d' = request_state d.

Lemma same_log_refl d : same_log d d.
Proof. done. Qed.

Lemma store_inv_same_log d d' : same_log d d' → store_inv d → store_inv d'.
Proof.
  intros (He & Hn & Hs) [H1' H2' H3' H4']. split.
  - by rewrite Hn.
  - intros e. rewrite He, Hn. apply H2'.
  - intros r s. rewrite Hs, Hn. apply H3'.
  - intros r s. rewrite Hs. unfold projected, dirty, replay_log, ordered_events.
    rewrite He, Hs. apply H4'.
Qed.

Lemma execute_now_cases {A} (P : Db → Prop) (f : Z → Db → result DbError (A * Db)) w :
  P (db w) →
  (∀ now a d, f now (db w) = Ok (a, d) → P d) →
  P (db (execute_now f w).2).
Proof.
  intros Hw Hf. unfold execute_now. destruct (fault _); [done|].
  destruct (f _ _) as [[a d]|e] eqn:E; simpl; [by eapply Hf|done].
Qed.

Lemma dirty_add_event e d :
  store_inv d → ev_id e = next_event_id d → dirty (add_event e d) (ev_request_id e) = true.
Proof.
  intros Hinv Hid. unfold dirty. apply existsb_elem. exists e. split; [set_solver|].
  rewrite Z.eqb_refl. simpl.
  destruct (request_state d !! _) as [s|] eqn:Hs; [|done].
  apply Z.ltb_lt. rewrite Hid. by eapply inv_last.
Qed.

Lemma dirty_add_event_mono e d r : dirty d r = true → dirty (add_event e d) r = true.
Proof.
  unfold dirty. rewrite !existsb_elem. intros (x & Hx & Hp). exists x.
  split; [set_solver|done].
Qed.

Lemma store_inv_add_event e d :
  store_inv d → ev_id e = next_event_id d → store_inv (add_event e d).
Proof.
  intros Hinv Hid. destruct (Hinv) as [H1' H2' H3' H4']. split; simpl.
  - lia.
  - intros x [Hx|Hx%list_elem_of_singleton]%elem_of_app; [apply H2' in Hx; lia|subst; lia].
  - intros r s Hs%H3'. lia.
  - intros r s Hs. destruct (decide (ev_request_id e = r)) as [<-|Hne].
    + right. by apply dirty_add_event.
    + destruct (H4' r s Hs) as [[now Hp]|Hd]; [left|right; by apply dirty_add_event_mono].
      exists now. by rewrite replay_log_frame.
Qed.

Lemma store_inv_project d r now :
  store_inv d →
  store_inv (set_state (<[r := state_row now (fold_events r (replay_log d r))]>
    (request_state d)) d).
Proof.
  intros Hinv. destruct (Hinv) as [H1' H2' H3' H4']. split; simpl; [done|done|..].
  - intros r' s'. destruct (decide (r = r')) as [<-|Hne].
    + rewrite lookup_insert_eq. intros [= <-]. simpl.
      destruct (fold_last_event_id d r) as [->|(row & Hrow & _ & ->)]; [done|by apply H2'].
    + rewrite lookup_insert_ne by done. apply H3'.
  - intros r' s'. destruct (decide (r = r')) as [<-|Hne].
    + intros _. left. exists now. apply lookup_insert_eq.
    + unfold projected, dirty. simpl. rewrite lookup_insert_ne by done.
      intros Hs. apply H4' in Hs. unfold projected, dirty in Hs. done.
Qed.

Lemma store_inv_append_tx r t p s at_ w id w' :
  append_event_tx r t p s at_ w = (Ok id, w') → store_inv (db w) → store_inv (db w').
Proof.
  intros Hrun Hinv. apply append_event_tx_ok in Hrun as (_ & -> & _ & now & ->).
  by apply store_inv_add_event.
Qed.

Lemma store_inv_upsert_tx r w st w' :
  upsert_state_tx r w = (Ok st, w') → store_inv (db w) → store_inv (db w').
Proof.
  intros Hrun Hinv. apply upsert_state_tx_ok in Hrun as (-> & _ & now & ->).
  by apply store_inv_project.
Qed.

(** A transaction preserves what its successful body preserves. *)
Lemma transaction_preserves {A} (P : Db → Prop) (body : DB ProjectionError A) w :
  (∀ w1 a w2, body w1 = (Ok a, w2) → P (db w1) → P (db w2)) →
  P (db w) → P (db (transaction Database body w).2).
Proof.
  intros Hbody Hw. destruct (transaction Database body w) as [[a|e] w'] eqn:Hrun; simpl.
  - apply transaction_ok in Hrun as (w2 & Hrun & ->). by eapply Hbody.
  - by rewrite (transaction_err _ _ _ _ _ Hrun).
Qed.

Lemma store_inv_upsert r w : store_inv (db w) → store_inv (db (upsert_state r w).2).
Proof. apply transaction_preserves. intros *. apply store_inv_upsert_tx. Qed.

Lemma upsert_all_preserves (P : Db → Prop) ids n w :
  (∀ r w, P (db w) → P (db (upsert_state r w).2)) →
  P (db w) → P (db (upsert_all ids n w).2).
Proof.
  intros Hp. revert n w. induction ids as [|r ids IH]; intros n w Hw; [done|]. simpl.
  unfold mbind, DB_bind. specialize (Hp r w Hw).
  destruct (upsert_state r w) as [[st|e] w1]; simpl in *; [by apply IH|done].
Qed.

Lemma upsert_chunks_preserves (P : Db → Prop) cs n w :
  (∀ r w, P (db w) → P (db (upsert_state r w).2)) →
  P (db w) → P (db (upsert_chunks cs n w).2).
Proof.
  intros Hp. revert n w. induction cs as [|c cs IH]; intros n w Hw; [done|]. simpl.
  unfold mbind, DB_bind. pose proof (upsert_all_preserves P c n w Hp Hw) as Hc.
  destruct (upsert_all c n w) as [[k|e] w1]; simpl in *; [by apply IH|done].
Qed.

Lemma rebuild_all_preserves (P : Db → Prop) n w :
  (∀ r w, P (db w) → P (db (upsert_state r w).2)) →
  P (db w) → P (db (rebuild_all_states n w).2).
Proof.
  intros Hp Hw. unfold rebuild_all_states, mbind, DB_bind, lift.
  pose proof (query_read_only dirty_requests w) as Hq.
  destruct (query dirty_requests w) as [[ids|e] w1]; simpl in *; [|by rewrite Hq].
  apply upsert_chunks_preserves; [done|]. by rewrite Hq.
Qed.

Lemma store_inv_append_and_project_tx r t p s at_ w x w' :
  append_and_project_tx r t p s at_ w = (Ok x, w') → store_inv (db w) → store_inv (db w').
Proof.
  unfold append_and_project_tx. intros Hrun Hi. inv_run.
  eapply store_inv_upsert_tx; [done|]. by eapply store_inv_append_tx.
Qed.

Lemma store_step_inv w w' : store_step w w' → store_inv (db w) → store_inv (db w').
Proof.
  intros Hstep Hinv. destruct Hstep.
  - apply (execute_now_cases store_inv); [done|]. intros now a d Hd.
    destruct (existsb _ _); injection Hd as _ <-; [done|]. by apply (store_inv_same_log (db w)).
  - apply (execute_now_cases store_inv); [done|]. intros now a d [= _ <-].
    by apply (store_inv_same_log (db w)).
  - apply (transaction_preserves store_inv); [|done]. intros *. apply store_inv_append_tx.
  - apply (transaction_preserves store_inv); [|done]. intros *.
    apply store_inv_append_and_project_tx.
  - by apply store_inv_upsert.
  - apply (rebuild_all_preserves store_inv); [|done]. intros *. apply store_inv_upsert.
Qed.

Lemma reachable_inv w : reachable w → store_inv (db w).
Proof.
  intros (fk & fs & out & n & Hrtc).
  remember {| db := empty_db fk; files := fs; outbox := out; step := n |} as w0 eqn:Hw0.
  assert (Hi : store_inv (db w0)) by (subst; apply store_inv_empty).
  clear Hw0. induction Hrtc as [|w1 w2 w3 Hs Hr IH]; [done|].
  apply IH. by eapply store_step_inv.
Qed.

(** ** Rebuilding *)

Lemma chunks_fuel_concat {A} fuel n (l : list A) :
  (0 < n)%nat → (List.length l ≤ fuel)%nat → List.concat (chunks_fuel fuel n l) = l.
Proof.
  intros Hn. revert l. induction fuel as [|fuel IH]; intros l Hl.
  - by destruct l; simpl in *; [|lia].
  - destruct l as [|x l]; [done|].
    change (take n (x :: l) ++ List.concat (chunks_fuel fuel n (drop n (x :: l))) = x :: l).
    rewrite IH, take_drop; [done|]. rewrite length_drop. simpl in *. lia.
Qed.

Lemma chunks_concat {A} n (l : list A) : (0 < n)%nat → List.concat (chunks n l) = l.
Proof. intros Hn. by apply chunks_fuel_concat. Qed.

Lemma upsert_all_app l1 l2 n w :
  upsert_all (l1 ++ l2) n w = (k ← upsert_all l1 n; upsert_all l2 k) w.
Proof.
  revert n w. induction l1 as [|r l1 IH]; intros n w; [done|]. simpl.
  unfold mbind, DB_bind in *. by destruct (upsert_state r w) as [[st|e] w1].
Qed.

Lemma upsert_chunks_concat cs n w : upsert_chunks cs n w = upsert_all (List.concat cs) n w.
Proof.
  revert n w. induction cs as [|c cs IH]; intros n w; [done|]. simpl.
  rewrite upsert_all_app. unfold mbind, DB_bind.
  by destruct (upsert_all c n w) as [[k|e] w1].
Qed.

(** The chunking is not observable. *)
Lemma rebuild_all_states_unchunked n w :
  rebuild_all_states n w = (ids ← lift Database (query dirty_requests); upsert_all ids 0) w.
Proof.
  unfold rebuild_all_states, mbind, DB_bind.
  destruct (lift _ _ w) as [[ids|e] w1]; [|done].
  rewrite upsert_chunks_concat, chunks_concat; [done|].
  destruct (n =? 0)%nat eqn:E; [lia|]. apply Nat.eqb_neq in E. lia.
Qed.

Section no_fault.
Context (Hfault : ∀ n, fault n = false).

Lemma execute_now_total {A} (f : Z → Db → result DbError (A * Db)) w :
  execute_now f w =
  match f (clock (step w)) (db w) with
  | Ok (a, d) => (Ok a, with_db d (bump w))
  | Err e => (Err e, bump w)
  end.
Proof using Hfault. unfold execute_now. by rewrite Hfault. Qed.

Lemma query_total {A} (f : Db → A) w : query f w = (Ok (f (db w)), bump w).
Proof using Hfault. unfold query, execute. rewrite execute_now_total. by destruct w. Qed.

Lemma transaction_total {E A} (conv : DbError → E) (body : DB E A) w a w2 :
  body (bump w) = (Ok a, w2) → transaction conv body w = (Ok a, bump w2).
Proof using Hfault.
  intros Hb. unfold transaction, begin, commit. by rewrite query_total, Hb, query_total.
Qed.

Lemma upsert_state_total r w :
  request_exists (db w) r = true →
  ∃ now w', let st := fold_events r (replay_log (db w) r) in
    upsert_state r w = (Ok st, w') ∧
    db w' = set_state (<[r := state_row now st]> (request_state (db w))) (db w).
Proof using Hfault.
  intros Hr. set (st := fold_events r (replay_log (db w) r)).
  exists (clock (step (bump (bump w)))). eexists. unfold upsert_state. split.
  - apply transaction_total. unfold upsert_state_tx, load_events, mbind, DB_bind, lift.
    rewrite query_total. simpl map_err. cbv iota.
    change (db (bump w)) with (db w). fold st.
    unfold replace_state. rewrite execute_now_total.
    change (db (bump (bump w))) with (db w).
    replace (request_id st) with r by (symmetry; apply fold_request_id).
    rewrite Hr, andb_false_r. reflexivity.
  - done.
Qed.

Lemma projected_upsert d r now r' :
  r' = r ∨ projected d r' →
  projected (set_state (<[r := state_row now (fold_events r (replay_log d r))]>
    (request_state d)) d) r'.
Proof.
  intros Hp. destruct (decide (r = r')) as [<-|Hne].
  - exists now. apply lookup_insert_eq.
  - destruct Hp as [?|[now' Hp]]; [congruence|]. exists now'. simpl.
    by rewrite lookup_insert_ne.
Qed.

Lemma upsert_all_total ids n w :
  Forall (λ r, request_exists (db w) r = true) ids →
  ∃ w', upsert_all ids n w = (Ok (n + Z.of_nat (List.length ids)), w') ∧
    request_events (db w') = request_events (db w) ∧
    ∀ r, r ∈ ids ∨ projected (db w) r → projected (db w') r.
Proof using Hfault.
  revert n w. induction ids as [|r ids IH]; intros n w Hids.
  - exists w. simpl. rewrite Z.add_0_r. split_and!; [done..|]. intros r [Hr|?]; [|done].
    by apply elem_of_nil in Hr.
  - apply Forall_cons in Hids as [Hr Hids].
    destruct (upsert_state_total r w Hr) as (now & w1 & Hrun & Hdb).
    destruct (IH (n + 1) w1) as (w' & Hrun' & Hev & Hproj).
    { by rewrite Hdb. }
    exists w'. split_and!.
    + simpl. unfold mbind, DB_bind. rewrite Hrun, Hrun'. do 2 f_equal. lia.
    + by rewrite Hev, Hdb.
    + intros r' Hr'. apply Hproj. rewrite Hdb.
      destruct Hr' as [[->|?]%elem_of_cons|?]; [right|by left|right];
        apply projected_upsert; auto.
Qed.

Lemma dirty_requests_exist d : Forall (λ r, request_exists d r = true) (dirty_requests d).
Proof.
  apply Forall_forall. intros r Hr. unfold dirty_requests in Hr.
  apply list_elem_of_filter in Hr as [_ (x & -> & Hx)%list_elem_of_fmap].
  apply existsb_elem. exists x. by rewrite Z.eqb_refl.
Qed.

End no_fault.
End history.

(* ------------------------------------------------------------------ *)
(** ** The storage theorems at concrete databases *)

#[local] Existing Instances calendar compact_json.

Section quiet_run.
#[local] Existing Instance quiet.

(** One campaign, two requests, four events of which two are appended without a
    projection. *)
Definition w1 : World := (create_campaign "c1" "" "first" start).2.
Definition w2 : World := (create_removal_request "acme" "" "c1" "GDPR" "" "" w1).2.
Definition w3 : World := (create_removal_request "globex" "web_form" "c1" "CCPA" "" "" w2).2.
Definition w4 : World :=
  (append_and_project 1 Sent [("expected_response_days", jint 10)] System noon w3).2.
Definition w5 : World := (append_event 2 Planned [] User (noon + day_ns) w4).2.
Definition w6 : World := (append_event 1 Ack [] Inbox (noon + day_ns) w5).2.

Lemma w6_reachable : reachable w6.
Proof.
  exists true, ∅, [], 0%nat.
  apply rtc_l with w1; [apply step_campaign|].
  apply rtc_l with w2; [apply step_request|].
  apply rtc_l with w3; [apply step_request|].
  apply rtc_l with w4; [apply step_append_and_project|].
  apply rtc_l with w5; [apply step_append|].
  apply rtc_l with w6; [apply step_append|].
  apply rtc_refl.
Qed.

Example w6_dirty : dirty_requests (db w6) = [1; 2].
Proof. vm_compute. reflexivity. Qed.

Example w4_state :
  (λ s, (st_current_status s, st_deadline_at s)) <$> request_state (db w4) !! 1 =
  Some ("AWAITING_ACK", Some "2026-08-11T12:00:00+00:00").
Proof. vm_compute. reflexivity. Qed.



Lemma get_events_for_requests_agrees_witness :
  ∃ m l, get_events_for_requests [2; 1; 7] None w6 = (Ok m, bump w6) ∧
    get_events 1 0 w6 = (Ok l, bump w6) ∧ m !! 1 = Some l ∧ List.length l = 2%nat.
Proof.
  eexists _, _. split_and!.
  - vm_compute. reflexivity.
  - vm_compute. reflexivity.
  - eapply (get_events_for_requests_agrees [2; 1; 7] 1 w6).
    + vm_compute. reflexivity.
    + vm_compute. reflexivity.
    + set_solver.
  - vm_compute. reflexivity.
Defined.

Lemma list_removal_requests_pages_witness :
  let options l o := {| lo_campaign_id := Some "c1"; lo_status := None; lo_broker_id := None;
                        lo_limit := l; lo_offset := o |} in
  ∃ page rest whole,
    list_removal_requests (options (Some 1) (Some 0)) w6 = (Ok page, bump w6) ∧
    list_removal_requests (options None (Some (0 + 1))) w6 = (Ok rest, bump w6) ∧
    list_removal_requests (options None (Some 0)) w6 = (Ok whole, bump w6) ∧
    page ++ rest = whole ∧ List.length page = 1%nat ∧ List.length rest = 1%nat.
Proof.
  eexists _, _, _. split_and!.
  - vm_compute. reflexivity.
  - vm_compute. reflexivity.
  - vm_compute. reflexivity.
  - eapply (list_removal_requests_pages (Some "c1") None None 1 0 w6); [lia|lia|..];
      vm_compute; reflexivity.
  - vm_compute. reflexivity.
  - vm_compute. reflexivity.
Defined.
End quiet_run.
