(* ===== verification/ManualTasks.v ===== *)
(** * ManualTasks: [symeraseme-core/src/manualtasks.rs]

    The durable queue of manual fallback tasks: redaction of the captured values,
    creation with deduplication, listing, completion, cleanup of the artifacts and
    the handlers' responses.  The two regular expressions are parameters (class
    [PiiRegex]); the two environment variables that place the artifact directory are
    the class [TasksDir].  Setting a file's mode is a step that may fail; the modes
    themselves are not modelled. *)

From S2P Require Import Prelude.
From S2P Require Import Text.
From S2P Require Import Json.
From S2P Require Import TimeUtil.
From S2P Require Import Types.
From S2P Require Import Database.
From S2P Require Import Repository.
From S2P Require Import Projection.
From S2P Require Import Identity.

Definition FALLBACK_REASONS : list string :=
  ["unknown_captcha"; "captcha_failed"; "timeout"; "login_required"; "multi_step_exceeded";
   "dynamic_form"; "unknown_field"; "assertion_failed"; "generic_error"].

Record ManualTask := {
  mt_id : Z;
  mt_request_id : option Z;
  mt_broker_id : string;
  mt_broker_name : string;
  mt_form_url : string;
  mt_reason : string;
  mt_instructions : string;
  mt_screenshot_path : string;
  mt_html_snapshot_path : string;
  mt_form_fields_json : string;
  mt_status : string;
  mt_created_at : string;
  mt_completed_at : option string;
  mt_notes : string;
}.

Record CreateOpts := {
  co_request_id : option Z;
  co_broker_id : string;
  co_broker_name : string;
  co_form_url : string;
  co_reason : string;
  co_screenshot_path : string;
  co_html_snapshot : string;
  co_form_fields : list (string * string);
  co_step_index : Z;
  co_total_steps : Z;
  co_error_message : string;
  co_extra_instructions : string;
}.

Record ListOpts := { lt_status : option string; lt_request_id : option Z }.

Record CleanupResult := { cr_removed : Z; cr_skipped : Z; cr_dry_run : bool }.

Record ServiceResult := {
  sr_success : bool;
  sr_data : jmap;
  sr_error : option string;
}.

Definition ServiceResult_into_value (r : ServiceResult) : value :=
  let has_error := match sr_error r with Some _ => true | None => false end in
  let entries :=
    ("success", JBool (sr_success r)) ::
    match sr_error r with Some error => [("error", JString error)] | None => [] end ++
    filter (λ kv, negb has_error || negb (String.eqb kv.1 "message") = true) (sr_data r) in
  JObject (map_collect (sort_by key_leb entries)).

(** ** Redaction *)

(** [EMAIL_PATTERN] and [PHONE_PATTERN]'s [replace_all]. *)
Class PiiRegex := {
  replace_emails : string → string → string;
  replace_phones : string → string → string;
}.

Definition replace_non_empty (value sensitive marker : string) : string :=
  if is_empty sensitive then value else str_replace sensitive marker value.

(** The values of a profile with their markers, in the order they are replaced. *)
Definition profile_values (p : Profile) : list (string * string) :=
  ((λ v, (v, "[REDACTED-EMAIL]")) <$> email_addresses p) ++
  ((λ v, (v, "[REDACTED-PHONE]")) <$> phone_numbers p) ++
  [(full_name p, "[REDACTED-NAME]")] ++
  ((λ v, (v, "[REDACTED-NAME]")) <$> name_variants p) ++
  option_list ((λ v, (v, "[REDACTED-DOB]")) <$> date_of_birth p) ++
  (addresses p ≫= λ a,
    [(street a, "[REDACTED-STREET]"); (city a, "[REDACTED-CITY]");
     (postal_code a, "[REDACTED-POSTAL]")] ++
    option_list ((λ v, (v, "[REDACTED-STATE]")) <$> state a)).

Definition redact_profile (html : string) (p : Profile) : string :=
  fold_left (λ redacted vm, replace_non_empty redacted vm.1 vm.2) (profile_values p) html.

Section redact.
Context `{PiiRegex}.

Definition redact_identity_values (html : string) (profile : option Profile) : string :=
  match profile with
  | None => replace_phones (replace_emails html "[REDACTED-EMAIL]") "[REDACTED-PHONE]"
  | Some p => redact_profile html p
  end.

Definition redact_fields (fields : list (string * string)) (profile : option Profile)
    : list (string * string) :=
  (λ kv, (kv.1, redact_identity_values kv.2 profile)) <$> fields.
End redact.

(** ** Instructions *)

Definition instructions_for_reason (reason broker_name : string) : string :=
  if negb (str_in reason FALLBACK_REASONS) then
    "Please complete the opt-out process for " +:+ broker_name
    +:+ " manually by visiting the URL below."
  else if String.eqb reason "unknown_captcha" then
    "The web form for " +:+ broker_name +:+ " has an unknown CAPTCHA type that could not be solved automatically. Please visit the URL below and complete the CAPTCHA manually, then submit the form."
  else if String.eqb reason "captcha_failed" then
    "The CAPTCHA solver failed for " +:+ broker_name +:+ "'s opt-out form. Please visit the URL below and complete the CAPTCHA manually."
  else if String.eqb reason "timeout" then
    "The web form for " +:+ broker_name +:+ " timed out during submission. This may indicate a slow server or a multi-step process. Please visit the URL below and complete the opt-out process manually."
  else if String.eqb reason "login_required" then
    "The web form for " +:+ broker_name +:+ " requires login or authentication. Automatic form filling cannot proceed. Please log in and complete the opt-out process manually."
  else if String.eqb reason "multi_step_exceeded" then
    "The web form for " +:+ broker_name +:+ " requires more steps than the configured limit. Please visit the URL below and follow the opt-out process to completion."
  else if String.eqb reason "dynamic_form" then
    "The web form for " +:+ broker_name +:+ " uses dynamic JavaScript fields that could not be filled automatically. Please visit the URL and complete the form manually."
  else if String.eqb reason "unknown_field" then
    "The web form for " +:+ broker_name +:+ " contains unknown fields that could not be mapped from the identity profile. Please visit the URL and complete the form manually."
  else if String.eqb reason "assertion_failed" then
    "The web form for " +:+ broker_name +:+ " was submitted but the expected confirmation message was not displayed. Please visit the URL and verify whether the opt-out was successful."
  else
    "An unexpected error occurred while processing the web form for " +:+ broker_name +:+ ". Please visit the URL below and complete the opt-out process manually.".

(** ** Rows *)

(** [trim_end_matches(c)] *)
Fixpoint trim_start_char (c : ascii) (s : string) : string :=
  match s with
  | String d s' => if Ascii.eqb d c then trim_start_char c s' else s
  | "" => ""
  end.
Definition trim_end_char (c : ascii) (s : string) : string :=
  str_rev (trim_start_char c (str_rev s)).

Section timestamps.
Context `{Chrono}.

Definition driver_layouts : list string :=
  ["%Y-%m-%d %H:%M:%S%.f"; "%Y-%m-%dT%H:%M:%S%.f"; "%Y-%m-%d %H:%M"; "%Y-%m-%dT%H:%M"; "%Y-%m-%d"].

Definition driver_timestamp (value : string) : string :=
  let offset_bearing :=
    or_else (rfc3339_parse value)
      (dt ← split_once " " value; rfc3339_parse (dt.1 +:+ "T" +:+ dt.2)) in
  let instant :=
    or_else offset_bearing
      ((λ t, (t, 0)) <$> first_some (λ layout, or_else (naive_parse value layout)
                                                       (date_parse value layout)) driver_layouts) in
  match instant with
  | None => value
  | Some (t, offset) =>
      let rendered := fixed_format "%Y-%m-%dT%H:%M:%S%.9f" t offset in
      let rendered :=
        if contains "." rendered then trim_end_char "." (trim_end_char "0" rendered) else rendered in
      rendered +:+ (if offset =? 0 then "Z" else fixed_format "%:z" t offset)
  end.

(** [sql_timestamp]: Go's [2006-01-02T15:04:05]. *)
Definition sql_timestamp (now : Z) : string := dt_format "%Y-%m-%dT%H:%M:%S" now.

Definition scan_task (r : TaskRow) : ManualTask := {|
  mt_id := tk_id r; mt_request_id := tk_request_id r; mt_broker_id := tk_broker_id r;
  mt_broker_name := tk_broker_name r; mt_form_url := tk_form_url r; mt_reason := tk_reason r;
  mt_instructions := tk_instructions r; mt_screenshot_path := tk_screenshot_path r;
  mt_html_snapshot_path := tk_html_snapshot_path r; mt_form_fields_json := tk_form_fields_json r;
  mt_status := tk_status r; mt_created_at := driver_timestamp (tk_created_at r);
  mt_completed_at := driver_timestamp <$> tk_completed_at r; mt_notes := tk_notes r |}.
End timestamps.

(** ** The queue *)

(** The variables [SYMERASEME_DATA_DIR] and [HOME]. *)
Class TasksDir := { env_data_dir : option string; env_home : option string }.

Section paths.
Context `{TasksDir}.

Definition user_home_dir : result string string :=
  match env_home with
  | Some home => if is_empty home then Err "$HOME is not defined" else Ok home
  | None => Err "$HOME is not defined"
  end.

Definition expand_home (path : string) : string :=
  match user_home_dir with
  | Ok home =>
      if String.eqb path "~" then home
      else match strip_prefix "~/" path with
           | Some rest => path_join home rest
           | None => path
           end
  | Err _ => path
  end.

Definition tasks_dir_in (data_dir : option string) : result string string :=
  match data_dir with
  | Some root => Ok (path_join root "manual_tasks")
  | None =>
      match env_data_dir with
      | Some dir =>
          if is_empty dir then
            home ← user_home_dir; Ok (path_join home ".local/share/symeraseme/manual_tasks")
          else Ok (path_join (expand_home dir) "manual_tasks")
      | None => home ← user_home_dir; Ok (path_join home ".local/share/symeraseme/manual_tasks")
      end
  end.

Definition tasks_dir : result string string := tasks_dir_in None.
End paths.

Section queue.
Context `{Chrono} `{SerdeJson} `{RustFmt} `{DbErrorFmt} `{PiiRegex} `{TasksDir} `{Env}.

(** The pending task a creation would duplicate. *)
Definition same_task (opts : CreateOpts) (form_url reason : string) (r : TaskRow) : bool :=
  String.eqb (tk_status r) "pending" && String.eqb (tk_broker_id r) (co_broker_id opts)
  && String.eqb (tk_form_url r) form_url && String.eqb (tk_reason r) reason
  && bool_decide (tk_request_id r = co_request_id opts).

(** [INSERT INTO manual_tasks]. *)
Definition insert_task (request_id : option Z)
    (broker_id broker_name form_url reason instructions screenshot_path html_path fields : string)
    : DB DbError Z :=
  execute_now (λ now d,
    if foreign_keys d
       && match request_id with Some r => negb (request_exists d r) | None => false end
    then Err ForeignKey
    else
      let id := next_task_id d in
      Ok (id, set_tasks (manual_tasks d ++ [{|
        tk_id := id; tk_request_id := request_id; tk_broker_id := broker_id;
        tk_broker_name := broker_name; tk_form_url := form_url; tk_reason := reason;
        tk_instructions := instructions; tk_screenshot_path := screenshot_path;
        tk_html_snapshot_path := html_path; tk_form_fields_json := fields;
        tk_status := "pending"; tk_created_at := format_sql now; tk_completed_at := None;
        tk_notes := "" |}]) (id + 1) d)).

Definition to_sql_error (error : ProjectionError) : DbError := Wrapped (ProjectionError_str error).

(** [timestamp_nanos_opt().unwrap_or_default()] *)
Definition timestamp_nanos (now : Z) : Z :=
  if (i64_min <=? now) && (now <=? i64_max) then now else 0.

(** [create_dir_all] and [set_permissions]: steps that may fail. *)
Definition file_step : DB string () := λ w,
  if fault (step w) then (Err "file system error", bump w) else (Ok (), bump w).

Definition ensure_tasks_dir : DB string () := _ ← file_step; file_step.

Definition write_private (path contents : string) : DB string () :=
  _ ← write_file path contents; file_step.

(** Writes the redacted snapshot; a failure of the writing leaves the path empty. *)
Definition store_snapshot (dir html redacted : string) (now : Z) : DB DbError string :=
  if is_empty html then mret ""
  else
    _ ← lift Wrapped ensure_tasks_dir;
    let candidate := path_join dir ("snapshot_" +:+ show (timestamp_nanos now) +:+ ".html") in
    written ← attempt (write_private candidate redacted);
    mret (match written with Ok _ => candidate | Err _ => "" end).

Definition save_screenshot (data : string) (now : Z) : DB string (option string) :=
  if is_empty data then mret None
  else
    dir ← of_result tasks_dir;
    _ ← ensure_tasks_dir;
    let path := path_join dir ("screenshot_" +:+ show (timestamp_nanos now) +:+ ".png") in
    _ ← write_private path data;
    mret (Some path).

(** [rollback_and_cleanup]; the rollback is the transaction's. *)
Definition cleanup_snapshot (html_path : string) : DB DbError () :=
  if is_empty html_path then mret ()
  else _ ← attempt (remove_file html_path); mret ().

Definition task_payload (opts : CreateOpts) (profile : option Profile) (task_id : Z)
    (reason form_url instructions screenshot_path : string) : jmap :=
  map_collect
    [("manual_task_id", jint task_id); ("reason", JString reason); ("form_url", JString form_url);
     ("instructions", JString instructions); ("screenshot_path", JString screenshot_path);
     ("broker_name", JString (co_broker_name opts)); ("step_index", jint (co_step_index opts));
     ("total_steps", jint (co_total_steps opts));
     ("error_message", JString (redact_identity_values (co_error_message opts) profile))].

(** The event of a task that belongs to a request. *)
Definition record_event (request_id : option Z) (event_type : EventType) (payload : jmap)
    (source : Source) (now : Z) : DB ProjectionError () :=
  match request_id with
  | Some r =>
      if r =? 0 then mret ()
      else _ ← append_and_project_tx r event_type payload source now; mret ()
  | None => mret ()
  end.

Definition create (opts : CreateOpts) (profile : option Profile) (now : Z)
    : DB DbError ManualTask :=
  let reason := if str_in (co_reason opts) FALLBACK_REASONS then co_reason opts
                else "generic_error" in
  let form_url := redact_identity_values (co_form_url opts) profile in
  let screenshot_path := redact_identity_values (co_screenshot_path opts) profile in
  let instructions :=
    instructions_for_reason reason (co_broker_name opts) +:+
    (if is_empty (co_extra_instructions opts) then ""
     else String (b 10) (String (b 10)
       (redact_identity_values (co_extra_instructions opts) profile))) in
  let form_fields_json :=
    to_string (JObject ((λ kv, (kv.1, JString kv.2)) <$> redact_fields (co_form_fields opts) profile)) in
  transaction_until id (
    existing ← query (λ d, List.find (same_task opts form_url reason) (manual_tasks d));
    match existing with
    | Some row => mret (scan_task row, false)
    | None =>
        dir ← lift Wrapped (of_result tasks_dir);
        html_path ← store_snapshot dir (co_html_snapshot opts)
          (redact_identity_values (co_html_snapshot opts) profile) now;
        inserted ← attempt (insert_task (co_request_id opts) (co_broker_id opts)
          (co_broker_name opts) form_url reason instructions screenshot_path html_path
          form_fields_json);
        match inserted with
        | Err error => _ ← cleanup_snapshot html_path; throw error
        | Ok task_id =>
            recorded ← attempt (record_event (co_request_id opts) HumanActionRequired
              (task_payload opts profile task_id reason form_url instructions screenshot_path)
              System now);
            match recorded with
            | Err error => _ ← cleanup_snapshot html_path; throw (to_sql_error error)
            | Ok _ =>
                mret ({|
                  mt_id := task_id; mt_request_id := co_request_id opts;
                  mt_broker_id := co_broker_id opts; mt_broker_name := co_broker_name opts;
                  mt_form_url := form_url; mt_reason := reason; mt_instructions := instructions;
                  mt_screenshot_path := screenshot_path; mt_html_snapshot_path := html_path;
                  mt_form_fields_json := form_fields_json; mt_status := "pending";
                  mt_created_at := sql_timestamp now; mt_completed_at := None; mt_notes := "" |},
                  true)
            end
        end
    end).

Definition get_task (task_id : Z) : DB DbError (option ManualTask) :=
  query (λ d, scan_task <$> List.find (λ r, tk_id r =? task_id) (manual_tasks d)).

Definition list_tasks (opts : ListOpts) : DB DbError (list ManualTask) :=
  query (λ d, scan_task <$>
    sort_by (λ x y, str_leb (tk_created_at y) (tk_created_at x))
      (filter (λ r,
        match lt_status opts with
        | Some status => is_empty status || String.eqb (tk_status r) status
        | None => true
        end &&
        match lt_request_id opts with
        | Some request_id => bool_decide (tk_request_id r = Some request_id)
        | None => true
        end = true) (manual_tasks d))).

Definition close_row (task_id : Z) (status completed_at notes : string) (r : TaskRow) : TaskRow :=
  if tk_id r =? task_id then {|
    tk_id := tk_id r; tk_request_id := tk_request_id r; tk_broker_id := tk_broker_id r;
    tk_broker_name := tk_broker_name r; tk_form_url := tk_form_url r; tk_reason := tk_reason r;
    tk_instructions := tk_instructions r; tk_screenshot_path := tk_screenshot_path r;
    tk_html_snapshot_path := tk_html_snapshot_path r;
    tk_form_fields_json := tk_form_fields_json r; tk_status := status;
    tk_created_at := tk_created_at r; tk_completed_at := Some completed_at; tk_notes := notes |}
  else r.

Definition complete (task_id : Z) (notes : string) (completed : bool) (now : Z)
    : DB DbError (option ManualTask) :=
  transaction_until id (
    existing ← query (λ d, scan_task <$> List.find (λ r, tk_id r =? task_id) (manual_tasks d));
    match existing with
    | None => mret (None, false)
    | Some task =>
        let status := if completed then "completed" else "cancelled" in
        let completed_at := sql_timestamp now in
        _ ← execute (λ d, Ok ((), set_tasks
              (close_row task_id status completed_at notes <$> manual_tasks d) (next_task_id d) d));
        _ ← lift to_sql_error (record_event (mt_request_id task) NoteAdded
              (map_collect
                [("note", JString ("Manual task #" +:+ show task_id +:+ " " +:+ status +:+ ": "
                                   +:+ notes));
                 ("manual_task_id", jint task_id); ("form_url", JString (mt_form_url task))])
              User now);
        mret (Some {|
          mt_id := mt_id task; mt_request_id := mt_request_id task;
          mt_broker_id := mt_broker_id task; mt_broker_name := mt_broker_name task;
          mt_form_url := mt_form_url task; mt_reason := mt_reason task;
          mt_instructions := mt_instructions task; mt_screenshot_path := mt_screenshot_path task;
          mt_html_snapshot_path := mt_html_snapshot_path task;
          mt_form_fields_json := mt_form_fields_json task; mt_status := status;
          mt_created_at := mt_created_at task; mt_completed_at := Some completed_at;
          mt_notes := notes |}, true)
    end).

(** ** Handlers *)

Definition missing_task (task_id : Z) : ServiceResult := {|
  sr_success := false; sr_data := [];
  sr_error := Some ("Manual task #" +:+ show task_id +:+
    " not found. Run 'symeraseme manual-tasks list' to see available tasks.") |}.

Definition opt_int (o : option Z) : value := match o with Some z => jint z | None => JNull end.

Definition task_value (t : ManualTask) : jmap :=
  [("id", jint (mt_id t)); ("request_id", opt_int (mt_request_id t));
   ("broker_id", JString (mt_broker_id t)); ("broker_name", JString (mt_broker_name t));
   ("form_url", JString (mt_form_url t)); ("reason", JString (mt_reason t));
   ("instructions", JString (mt_instructions t));
   ("screenshot_path", JString (mt_screenshot_path t));
   ("html_snapshot_path", JString (mt_html_snapshot_path t));
   ("form_fields_json", JString (mt_form_fields_json t)); ("status", JString (mt_status t));
   ("created_at", JString (mt_created_at t)); ("completed_at", opt_string (mt_completed_at t));
   ("notes", JString (mt_notes t))].

Definition newline : string := String (b 10) "".

Definition task_line (t : ManualTask) : string :=
  let broker := if is_empty (mt_broker_name t) then mt_broker_id t else mt_broker_name t in
  newline +:+ "  #" +:+ show (mt_id t) +:+ " [" +:+ mt_status t +:+ "] " +:+ broker +:+ " ("
  +:+ mt_reason t +:+ ") @ " +:+ mt_created_at t.

Definition handle_list (opts : ListOpts) : DB DbError ServiceResult :=
  tasks ← list_tasks opts;
  let message :=
    match tasks with
    | [] => "No manual tasks found."
    | _ => "Manual tasks (" +:+ show (Z.of_nat (List.length tasks)) +:+ "):"
           +:+ concat_strings (task_line <$> tasks)
    end in
  mret {| sr_success := true;
          sr_data := [("tasks", JArray ((λ t, JObject (task_value t)) <$> tasks));
                      ("message", JString message)];
          sr_error := None |}.

Definition labelled (label value : string) : string :=
  if is_empty value then "" else newline +:+ label +:+ value.

Definition show_message (t : ManualTask) : string :=
  "Manual task #" +:+ show (mt_id t) +:+ ":" +:+ newline
  +:+ "  Broker:     " +:+ mt_broker_name t +:+ " (" +:+ mt_broker_id t +:+ ")" +:+ newline
  +:+ "  URL:        " +:+ mt_form_url t +:+ newline
  +:+ "  Reason:     " +:+ mt_reason t +:+ newline
  +:+ "  Status:     " +:+ mt_status t +:+ newline
  +:+ "  Created:    " +:+ mt_created_at t
  +:+ labelled "  Completed:  " (or_empty (mt_completed_at t))
  +:+ labelled "  Screenshot: " (mt_screenshot_path t)
  +:+ labelled "  HTML:       " (mt_html_snapshot_path t)
  +:+ newline +:+ newline +:+ "Instructions:" +:+ newline +:+ mt_instructions t
  +:+ (if is_empty (mt_notes t) then ""
       else newline +:+ newline +:+ "Notes: " +:+ mt_notes t).

Definition handle_show (task_id : Z) : DB DbError ServiceResult :=
  task ← get_task task_id;
  mret (match task with
        | None => missing_task task_id
        | Some t => {| sr_success := true;
                       sr_data := map_insert "message" (JString (show_message t)) (task_value t);
                       sr_error := None |}
        end).

Definition handle_complete (task_id : Z) (notes : string) (now : Z) : DB DbError ServiceResult :=
  task ← complete task_id notes true now;
  mret (match task with
        | None => missing_task task_id
        | Some _ => {| sr_success := true;
                       sr_data := [("task_id", jint task_id);
                         ("message", JString ("Manual task #" +:+ show task_id
                                              +:+ " marked as completed."))];
                       sr_error := None |}
        end).

(** ** Artifacts *)

Definition is_artifact (name : string) : bool :=
  ends_with ".png" name || ends_with ".html" name || ends_with ".json" name.

(** The loop over the directory's entries: names with their directory flag. *)
Fixpoint cleanup_entries (dir : string) (dry_run : bool) (entries : list (string * bool))
    (r : CleanupResult) : DB string CleanupResult :=
  match entries with
  | [] => mret r
  | (name, is_dir) :: entries =>
      if is_dir || negb (is_artifact name) then cleanup_entries dir dry_run entries r
      else if dry_run then
        cleanup_entries dir dry_run entries
          {| cr_removed := cr_removed r; cr_skipped := cr_skipped r + 1; cr_dry_run := dry_run |}
      else
        _ ← remove_file (path_join dir name);
        cleanup_entries dir dry_run entries
          {| cr_removed := cr_removed r + 1; cr_skipped := cr_skipped r; cr_dry_run := dry_run |}
  end.

(** [entries] is what [read_dir] lists, [None] for a missing directory. *)
Definition cleanup (dir : string) (entries : option (list (string * bool))) (dry_run : bool)
    : DB string CleanupResult :=
  let start := {| cr_removed := 0; cr_skipped := 0; cr_dry_run := dry_run |} in
  match entries with
  | None => mret start
  | Some entries => cleanup_entries dir dry_run entries start
  end.

Definition handle_cleanup (dir : string) (entries : option (list (string * bool))) (dry_run : bool)
    : DB string ServiceResult :=
  match entries with
  | None => mret {| sr_success := true;
      sr_data := [("message", JString
        ("No manual tasks directory found " +:+ String (b 226) (String (b 128) (String (b 148) ""))
         +:+ " nothing to clean up."))];
      sr_error := None |}
  | Some _ =>
      outcome ← cleanup dir entries dry_run;
      let message :=
        if dry_run then
          "Would remove " +:+ show (cr_skipped outcome) +:+ " artifact(s) from " +:+ dir
          +:+ ". Use --yes to confirm."
        else
          "Removed " +:+ show (cr_removed outcome) +:+ " artifact(s) from " +:+ dir +:+ "." in
      mret {| sr_success := true;
              sr_data := [("removed", jint (cr_removed outcome));
                          ("skipped", jint (cr_skipped outcome));
                          ("dry_run", JBool (cr_dry_run outcome)); ("message", JString message)];
              sr_error := None |}
  end.
End queue.
