(* ===== verification/ManualTasksFacts.v ===== *)
(** * ManualTasksFacts: redaction and the task queue *)

From S2P Require Import Prelude.
From S2P Require Import Text.
From S2P Require Import Json.
From S2P Require Import TimeUtil.
From S2P Require Import Types.
From S2P Require Import Database.
From S2P Require Import Repository.
From S2P Require Import Projection.
From S2P Require Import ProjectionFacts.
From S2P Require Import Identity.
From S2P Require Import ManualTasks.

(** ** Redaction *)

Definition MARKERS : list string :=
  ["[REDACTED-EMAIL]"; "[REDACTED-PHONE]"; "[REDACTED-NAME]"; "[REDACTED-DOB]";
   "[REDACTED-STREET]"; "[REDACTED-CITY]"; "[REDACTED-POSTAL]"; "[REDACTED-STATE]"].

Lemma MARKERS_are_markers : Forall is_marker MARKERS.
Proof.
  unfold MARKERS. repeat apply Forall_cons_2; try apply Forall_nil_2;
    [exists "REDACTED-EMAIL"|exists "REDACTED-PHONE"|exists "REDACTED-NAME"|exists "REDACTED-DOB"
    |exists "REDACTED-STREET"|exists "REDACTED-CITY"|exists "REDACTED-POSTAL"
    |exists "REDACTED-STATE"]; reflexivity.
Qed.

Lemma profile_values_markers p : Forall (λ vm, vm.2 ∈ MARKERS) (profile_values p).
Proof.
  unfold profile_values. rewrite !Forall_app, !Forall_fmap, Forall_bind. split_and!.
  - apply Forall_true. intros x. unfold MARKERS. set_solver.
  - apply Forall_true. intros x. unfold MARKERS. set_solver.
  - apply Forall_singleton. unfold MARKERS. set_solver.
  - apply Forall_true. intros x. unfold MARKERS. set_solver.
  - destruct (date_of_birth p); simpl; [apply Forall_singleton; unfold MARKERS; set_solver|done].
  - apply Forall_true. intros a. unfold compose. rewrite Forall_app. split.
    + repeat apply Forall_cons_2; try apply Forall_nil_2; unfold MARKERS; set_solver.
    + destruct (state a); simpl; [apply Forall_singleton; unfold MARKERS; set_solver|done].
Qed.

(** A value the redaction can remove: it does not clash with the markers. *)
Definition redactable (v : string) : Prop :=
  v ≠ "" ∧ no_brackets v = true ∧ Forall (λ m, contains v m = false) MARKERS.

Definition redact_step (redacted : string) (vm : string * string) : string :=
  replace_non_empty redacted vm.1 vm.2.

Lemma redact_step_keeps v s vm :
  redactable v → vm.2 ∈ MARKERS → contains v s = false → contains v (redact_step s vm) = false.
Proof.
  intros (Hne & Hb & Hm) Hvm Hs. unfold redact_step, replace_non_empty.
  destruct (is_empty vm.1) eqn:He; [done|].
  destruct (contains v (str_replace vm.1 vm.2 s)) eqn:Hc; [|done].
  rewrite Forall_forall in Hm. rewrite <-Hs. symmetry.
  apply (replaced_contains vm.1 vm.2 s (str_replace vm.1 vm.2 s)); try done.
  - pose proof MARKERS_are_markers as HM. rewrite Forall_forall in HM. by apply HM.
  - by apply Hm.
  - apply str_replace_replaced. intros Hv. by rewrite Hv in He.
Qed.

Lemma redact_step_removes s vm :
  redactable vm.1 → vm.2 ∈ MARKERS → contains vm.1 (redact_step s vm) = false.
Proof.
  intros (Hne & Hb & Hm) Hvm. unfold redact_step, replace_non_empty.
  destruct (is_empty vm.1) eqn:He; [by apply is_empty_spec in He|].
  rewrite Forall_forall in Hm.
  apply (replaced_gone vm.1 vm.2 s); try done.
  - pose proof MARKERS_are_markers as HM. rewrite Forall_forall in HM. by apply HM.
  - by apply Hm.
  - by apply str_replace_replaced.
Qed.

Lemma redact_fold_keeps v vms s :
  redactable v → Forall (λ vm, vm.2 ∈ MARKERS) vms → contains v s = false →
  contains v (fold_left redact_step vms s) = false.
Proof.
  intros Hv. revert s. induction vms as [|vm vms IH]; intros s Hvms Hs; simpl; [done|].
  apply Forall_cons in Hvms as [Hvm Hvms]. apply IH; [done|]. by apply redact_step_keeps.
Qed.

Lemma redact_fold_removes v m vms s :
  redactable v → Forall (λ vm, vm.2 ∈ MARKERS) vms → (v, m) ∈ vms →
  contains v (fold_left redact_step vms s) = false.
Proof.
  intros Hv. revert s. induction vms as [|vm vms IH]; intros s Hvms Hin; simpl.
  - by apply elem_of_nil in Hin.
  - apply Forall_cons in Hvms as [Hvm Hvms]. apply elem_of_cons in Hin as [<-|Hin]; [|by apply IH].
    apply redact_fold_keeps; [done|done|]. by apply (redact_step_removes s (v, m)).
Qed.

(** No value of the identity profile survives redaction: whatever the order of
    the replacements, the redacted text contains none of the profile's names, mail
    addresses, phone numbers, date of birth or address parts, as long as the value
    is bracket-free and is not itself a piece of a marker. *)
Theorem redact_identity_values_complete `{PiiRegex} html p v m :
  (v, m) ∈ profile_values p →
  v ≠ "" → no_brackets v = true → Forall (λ marker, contains v marker = false) MARKERS →
  contains v (redact_identity_values html (Some p)) = false.
Proof.
  intros Hin Hne Hb Hm.
  apply (redact_fold_removes v m); [done|apply profile_values_markers|done].
Qed.

(** ** The queue *)

Section queue.
Context `{Chrono} `{SerdeJson} `{RustFmt} `{DbErrorFmt} `{PiiRegex} `{TasksDir} `{Env}.

Lemma attempt_ok {E F A} (m : DB E A) w r w' :
  (attempt m : DB F (result E A)) w = (Ok r, w') → m w = (r, w').
Proof. unfold attempt. destruct (m w). by intros [= -> ->]. Qed.

Lemma write_file_db path contents w : db (write_file path contents w).2 = db w.
Proof. unfold write_file. by destruct (fault _). Qed.

Lemma file_step_read_only : read_only file_step.
Proof. intros w. unfold file_step. by destruct (fault _). Qed.

Lemma store_snapshot_read_only dir html redacted now :
  read_only (store_snapshot dir html redacted now).
Proof.
  unfold store_snapshot. destruct (is_empty html); [apply read_only_ret|].
  apply read_only_bind.
  - apply read_only_lift, read_only_bind; intros; apply file_step_read_only.
  - intros _. apply read_only_bind; [|intros ?; apply read_only_ret].
    apply read_only_attempt, read_only_bind; [|intros; apply file_step_read_only].
    intros w. apply write_file_db.
Qed.

Lemma store_snapshot_db dir html redacted now w r w' :
  store_snapshot dir html redacted now w = (r, w') → db w' = db w.
Proof. intros Hrun. pose proof (store_snapshot_read_only dir html redacted now w) as Hr. by rewrite Hrun in Hr. Qed.

Lemma append_and_project_tx_tasks r t p s at_ w x w' :
  append_and_project_tx r t p s at_ w = (Ok x, w') →
  (∃ now, request_events (db w') =
    request_events (db w) ++ [event_row (next_event_id (db w)) r at_ now t p s]) ∧
  projected (db w') r ∧ manual_tasks (db w') = manual_tasks (db w) ∧
  removal_requests (db w') = removal_requests (db w).
Proof.
  unfold append_and_project_tx. intros Hrun. inv_run.
  match goal with Ha : append_event_tx _ _ _ _ _ _ = _ |- _ =>
    apply append_event_tx_ok in Ha as (_ & -> & _ & now & Hdb) end.
  match goal with Hu : upsert_state_tx _ _ = _ |- _ =>
    apply upsert_state_tx_ok in Hu as (-> & _ & now2 & Hdb2) end.
  rewrite Hdb2. split_and!; [exists now; by rewrite Hdb| |by simpl; rewrite Hdb..].
  exists now2. rewrite replay_log_set_state. apply lookup_insert_eq.
Qed.

Lemma find_snoc {A} (p : A → bool) l x :
  List.find p l = None → p x = true → List.find p (l ++ [x]) = Some x.
Proof.
  induction l as [|y l IH]; simpl; [by intros _ ->|]. destruct (p y); [done|]. auto.
Qed.

Definition task_reason (opts : CreateOpts) : string :=
  if str_in (co_reason opts) FALLBACK_REASONS then co_reason opts else "generic_error".

Definition task_url (opts : CreateOpts) (profile : option Profile) : string :=
  redact_identity_values (co_form_url opts) profile.

(** The request a task reports to. *)
Definition reports_to (opts : CreateOpts) : option Z :=
  match co_request_id opts with Some r => if r =? 0 then None else Some r | None => None end.

(** The effect of a new task on the log. *)
Definition task_event (opts : CreateOpts) (now : Z) (d d' : Db) : Prop :=
  match reports_to opts with
  | None => request_events d' = request_events d
  | Some r =>
      (∃ id rec payload, request_events d' =
        request_events d ++ [event_row id r now rec HumanActionRequired payload System]) ∧
      projected d' r
  end.

Lemma record_event_ok opts payload now w w' :
  record_event (co_request_id opts) HumanActionRequired payload System now w = (Ok (), w') →
  task_event opts now (db w) (db w') ∧ manual_tasks (db w') = manual_tasks (db w).
Proof.
  unfold record_event, task_event, reports_to.
  destruct (co_request_id opts) as [r|]; [|by intros [= <-]].
  destruct (r =? 0); [by intros [= <-]|]. intros Hrun. inv_run.
  match goal with Ha : append_and_project_tx _ _ _ _ _ _ = _ |- _ =>
    apply append_and_project_tx_tasks in Ha as ([rec Hev] & Hp & Ht & _) end.
  split; [|done]. split; [|done]. eauto.
Qed.

(** What a successful creation did. *)
Definition created (opts : CreateOpts) (profile : option Profile) (now : Z) (t : ManualTask)
    (w w' : World) : Prop :=
  let same := same_task opts (task_url opts profile) (task_reason opts) in
  (∃ row, List.find same (manual_tasks (db w)) = Some row ∧ t = scan_task row ∧
     db w' = db w ∧ files w' = files w) ∨
  (List.find same (manual_tasks (db w)) = None ∧
   ∃ row, manual_tasks (db w') = manual_tasks (db w) ++ [row] ∧
     tk_id row = next_task_id (db w) ∧ mt_id t = tk_id row ∧ mt_status t = "pending" ∧
     same row = true ∧ task_event opts now (db w) (db w')).

Lemma create_ok opts profile now w t w' :
  create opts profile now w = (Ok t, w') → created opts profile now t w w'.
Proof.
  unfold create. fold (task_reason opts) (task_url opts profile). intros Hrun.
  apply transaction_until_ok in Hrun as (c & w2 & Hrun & Hfiles & Hdb).
  apply DB_bind_ok in Hrun as (existing & wq & Hq & Hrun). apply query_ok in Hq as [-> ->].
  change (db (bump w)) with (db w) in Hrun. unfold created.
  destruct (List.find _ (manual_tasks (db w))) as [row|] eqn:Hfind.
  { inv_run. left. exists row. by rewrite Hdb, Hfiles. }
  right. split; [done|].
  apply DB_bind_ok in Hrun as (dir & w3 & Hdir & Hrun).
  apply lift_ok in Hdir. injection Hdir as _ <-.
  apply DB_bind_ok in Hrun as (path & w4 & Hsnap & Hrun).
  apply store_snapshot_db in Hsnap. change (db (bump (bump w))) with (db w) in Hsnap.
  apply DB_bind_ok in Hrun as (inserted & w5 & Hins & Hrun). apply attempt_ok in Hins.
  destruct inserted as [task_id|e]; [|inv_run].
  unfold insert_task in Hins. apply execute_now_ok in Hins as (d & Hd & ->).
  destruct (foreign_keys _ && _); [done|]. injection Hd as <- <-.
  apply DB_bind_ok in Hrun as (recorded & w6 & Hrec & Hrun). apply attempt_ok in Hrec.
  destruct recorded as [[]|e]; [|inv_run].
  apply record_event_ok in Hrec as [Hev Htasks]. inv_run. simpl in *.
  rewrite Hsnap in *. rewrite Hdb, Htasks. eexists. split_and!; try done.
  - unfold same_task. simpl. rewrite !String.eqb_refl. by rewrite bool_decide_eq_true_2.
Qed.

Lemma create_cases opts profile now w :
  match create opts profile now w with
  | (Err _, w') => db w' = db w
  | (Ok t, w') => created opts profile now t w w'
  end.
Proof.
  destruct (create opts profile now w) as [[t|e] w'] eqn:Hrun.
  - by apply create_ok.
  - by apply transaction_until_err in Hrun.
Qed.

(** Creating a task either fails and leaves every table as it was; or returns
    the pending task for the same broker, form, reason and request and changes
    nothing; or adds exactly one pending row with a fresh id and, for a task of a
    request, the event that reports it together with the request's projection. *)
Theorem create_spec opts profile now w :
  match create opts profile now w with
  | (Err _, w') => db w' = db w
  | (Ok t, w') => created opts profile now t w w'
  end.
Proof. apply create_cases. Qed.

(** creation is idempotent: repeating it, at any later instant, returns the task
    of the first call and changes neither tables nor files. *)
Theorem create_idempotent opts profile now1 now2 w t1 w1 t2 w2 :
  create opts profile now1 w = (Ok t1, w1) →
  create opts profile now2 w1 = (Ok t2, w2) →
  mt_id t2 = mt_id t1 ∧ db w2 = db w1 ∧ files w2 = files w1.
Proof.
  intros H1' H2'. apply create_ok in H1', H2'. unfold created in H1', H2'.
  set (same := same_task opts (task_url opts profile) (task_reason opts)) in *.
  assert (Hfind : ∃ row, List.find same (manual_tasks (db w1)) = Some row ∧ tk_id row = mt_id t1).
  { destruct H1' as [(row & Hf & -> & -> & _)|(Hf & row & -> & _ & Hid & _ & Hsame & _)].
    - by exists row.
    - exists row. split; [|done]. by apply find_snoc. }
  destruct Hfind as (row & Hf & Hid).
  destruct H2' as [(row2 & Hf2 & -> & Hdb & Hfiles)|(Hf2 & _)]; [|congruence].
  rewrite Hf in Hf2. injection Hf2 as <-. by split_and!.
Qed.

Definition note_event (t : ManualTask) (now : Z) (d d' : Db) : Prop :=
  match mt_request_id t with
  | Some r =>
      if r =? 0 then request_events d' = request_events d
      else (∃ id rec payload, request_events d' =
              request_events d ++ [event_row id r now rec NoteAdded payload User]) ∧
           projected d' r
  | None => request_events d' = request_events d
  end.

(** completing a task either fails and leaves every table as it was; or finds no
    such task and changes nothing; or closes exactly the rows with that id, keeping
    the order and every other column, and notes it on the task's request. *)
Theorem complete_spec task_id notes completed now w :
  match complete task_id notes completed now w with
  | (Err _, w') => db w' = db w
  | (Ok None, w') => db w' = db w ∧ Forall (λ r, tk_id r ≠ task_id) (manual_tasks (db w))
  | (Ok (Some t), w') =>
      let status := if completed then "completed" else "cancelled" in
      mt_id t = task_id ∧ mt_status t = status ∧ mt_notes t = notes ∧
      manual_tasks (db w') =
        close_row task_id status (sql_timestamp now) notes <$> manual_tasks (db w) ∧
      note_event t now (db w) (db w')
  end.
Proof.
  destruct (complete task_id notes completed now w) as [[t|e] w'] eqn:Hrun;
    [|by apply transaction_until_err in Hrun].
  unfold complete in Hrun. apply transaction_until_ok in Hrun as (c & w2 & Hrun & _ & Hdb).
  apply DB_bind_ok in Hrun as (existing & wq & Hq & Hrun). apply query_ok in Hq as [-> ->].
  change (db (bump w)) with (db w) in Hrun.
  destruct (List.find _ (manual_tasks (db w))) as [row|] eqn:Hfind; simpl in Hrun.
  - apply DB_bind_ok in Hrun as ([] & w3 & Hx & Hrun).
    apply execute_ok in Hx as (d & [= <-] & ->).
    apply DB_bind_ok in Hrun as ([] & w4 & Hrec & Hrun). apply lift_ok in Hrec.
    inv_run. simpl in *. rewrite Hdb.
    apply find_some in Hfind as [_ Hid%Z.eqb_eq]. split; [done|]. split; [done|]. split; [done|].
    unfold record_event, note_event in *. simpl in *.
    destruct (tk_request_id row) as [r|]; [|by injection Hrec as <-].
    destruct (r =? 0); [by injection Hrec as <-|]. inv_run.
    match goal with Ha : append_and_project_tx _ _ _ _ _ _ = _ |- _ =>
      apply append_and_project_tx_tasks in Ha as ([rec Hev] & Hp & Ht & _) end.
    rewrite Ht. split; [done|]. split; [|done]. eauto.
  - inv_run. rewrite Hdb. split; [done|]. apply Forall_forall. intros r Hr%list_elem_of_In Hid.
    pose proof (find_none _ _ Hfind r Hr) as Hn. simpl in Hn. by apply Z.eqb_neq in Hn.
Qed.

(** ** Artifacts *)

Definition artifact_names (entries : list (string * bool)) : list string :=
  (filter (λ e : string * bool, negb e.2 && is_artifact e.1 = true) entries).*1.

Lemma artifact_names_cons name is_dir entries :
  artifact_names ((name, is_dir) :: entries) =
  if negb is_dir && is_artifact name then name :: artifact_names entries
  else artifact_names entries.
Proof.
  unfold artifact_names. rewrite filter_cons. simpl. by destruct (negb is_dir && is_artifact name).
Qed.

Lemma cleanup_entries_ok dir dry_run entries r w r' w' :
  cleanup_entries dir dry_run entries r w = (Ok r', w') →
  let n := Z.of_nat (List.length (artifact_names entries)) in
  db w' = db w ∧
  (if (dry_run : bool) then files w' = files w ∧ cr_removed r' = cr_removed r ∧ cr_skipped r' = cr_skipped r + n
   else files w' = fold_left (λ fs name, delete (path_join dir name) fs) (artifact_names entries) (files w) ∧
        cr_removed r' = cr_removed r + n ∧ cr_skipped r' = cr_skipped r).
Proof.
  revert r w. induction entries as [|[name is_dir] entries IH]; intros r w Hrun; simpl in Hrun.
  - inv_run. split; [done|]. destruct dry_run; simpl; split_and!; try done; lia.
  - rewrite artifact_names_cons. destruct is_dir; simpl in Hrun; [by apply IH|].
    destruct (is_artifact name); simpl in Hrun; [|by apply IH].
    change (negb false && true) with true. cbv iota.
    rewrite length_cons, Nat2Z.inj_succ. destruct dry_run.
    + apply IH in Hrun as (Hdb & Hf & Hr & Hs). cbn [cr_skipped cr_removed] in *.
      split_and!; [done..|]. lia.
    + apply DB_bind_ok in Hrun as ([] & w1 & Hrm & Hrun). unfold remove_file in Hrm.
      destruct (fault _); [done|]. injection Hrm as <-.
      apply IH in Hrun as (Hdb & Hf & Hr & Hs). cbn [cr_skipped cr_removed] in *.
      split_and!; [done|done|lia|done].
Qed.

(** cleaning up never touches the tables. A dry run removes nothing and counts
    the artifacts; a real run removes exactly the regular files named as artifacts
    and counts them. *)
Theorem cleanup_spec dir entries dry_run w r w' :
  cleanup dir (Some entries) dry_run w = (Ok r, w') →
  let n := Z.of_nat (List.length (artifact_names entries)) in
  db w' = db w ∧
  if dry_run then files w' = files w ∧ cr_removed r = 0 ∧ cr_skipped r = n
  else files w' = fold_left (λ fs name, delete (path_join dir name) fs) (artifact_names entries) (files w) ∧
       cr_removed r = n ∧ cr_skipped r = 0.
Proof. unfold cleanup. intros Hrun. by apply cleanup_entries_ok in Hrun. Qed.
End queue.
