(* ===== verification/Deadlines.v ===== *)
(** * Deadlines: [symeraseme-core/src/deadlines.rs]

    The decisions of the tick over one projected request, the scan over the due
    requests, and the application of the decisions.  [sent + Duration::days(days)]
    is the plain sum: the panic outside [chrono]'s range is not modelled. *)
From stdpp Require Import relations.
From S2P Require Import Prelude.
From S2P Require Import Text.
From S2P Require Import Json.
From S2P Require Import TimeUtil.
From S2P Require Import Types.
From S2P Require Import Database.
From S2P Require Import Model.
From S2P Require Import Repository.
From S2P Require Import Projection.
From S2P Require Import ProjectionFacts.
From S2P Require Import StoreHistory.

Definition REMINDER_DAYS : Z := 7.
Definition DPA_ESCALATION_DAYS : Z := 14.
Definition RESCAN_DAYS : Z := 90.

Record TickAction := {
  ta_request_id : Z;
  ta_broker_id : string;
  ta_campaign_id : string;
  ta_current_status : string;
  ta_action_type : string;
  ta_event_type : string;
  ta_description : string;
  ta_payload : jmap;
  ta_dry_run : bool;
}.

Definition jurisdiction_days (jurisdiction : string) : Z :=
  if str_in jurisdiction ["GDPR"; "LGPD"; "PIPEDA"] then 30
  else if str_in jurisdiction ["CCPA"; "CPRA"] then 45
  else 30.

(** [(now - then).num_hours() / 24]: both divisions truncate. *)
Definition days_between (now then_ : Z) : Z :=
  Z.quot (Z.quot (now - then_) (3600 * second)) 24.

Definition python_timedelta (duration : Z) : string :=
  let seconds := Z.quot duration second in
  let days := Z.quot seconds 86400 in
  let remainder := Z.rem seconds 86400 in
  let hours := Z.quot remainder 3600 in
  let minutes := Z.quot (Z.rem remainder 3600) 60 in
  let seconds := Z.rem remainder 60 in
  if 0 <? days then
    let unit := if days =? 1 then "day" else "days" in
    show days +:+ " " +:+ unit +:+ ", " +:+ show hours +:+ ":" +:+ pad2 minutes +:+ ":" +:+ pad2 seconds
  else show hours +:+ ":" +:+ pad2 minutes +:+ ":" +:+ pad2 seconds.

(** [REMINDER_DAYS.wrapping_mul(1 << shift)], zero from 64 on; the shift is the
    count reinterpreted as [u64]. *)
Definition reminder_threshold (reminders_sent : Z) : Z :=
  let shift := as_u64 reminders_sent in
  let shifted := if 64 <=? shift then 0 else wrap_i64 (2 ^ shift) in
  wrap_i64 (REMINDER_DAYS * shifted).

Section deadlines.
Context `{Chrono}.

Definition parsed (value : string) : option Z :=
  if is_empty value then None else ok (parse_timestamp value).

Definition reminder (request : TickCandidate) (now : Z) (dry_run : bool) : option TickAction :=
  sent ← parsed (tc_sent_at request);
  let days := days_between now sent in
  if days <? REMINDER_DAYS then None
  else if days <? reminder_threshold (tc_reminders_sent request) then None
  else
    let count := wrap_i64 (tc_reminders_sent request + 1) in
    Some {|
      ta_action_type := "send_reminder";
      ta_broker_id := tc_broker_id request;
      ta_campaign_id := tc_campaign_id request;
      ta_current_status := "AWAITING_ACK";
      ta_description := "Send reminder #" +:+ show count +:+ " (" +:+ show days +:+ "d since sent)";
      ta_dry_run := dry_run;
      ta_event_type := "REMINDER_SENT";
      ta_payload := [("count", jint count); ("days_since_sent", jint days)];
      ta_request_id := tc_id request |}.

Definition deadline (request : TickCandidate) (now : Z) (dry_run : bool) : option TickAction :=
  let days := jurisdiction_days (tc_jurisdiction request) in
  let explicit := parsed (tc_deadline_at request) in
  deadline ←
    (match explicit with
     | Some d => Some d
     | None => (λ sent, sent + days * (86400 * second)) <$> parsed (tc_sent_at request)
     end);
  if now <? deadline then None
  else
    let detail :=
      match explicit with
      | Some _ => ", passed " +:+ python_timedelta (now - deadline)
      | None => ""
      end in
    Some {|
      ta_action_type := "mark_overdue";
      ta_broker_id := tc_broker_id request;
      ta_campaign_id := tc_campaign_id request;
      ta_current_status := "AWAITING_RESPONSE";
      ta_description := "Deadline reached (" +:+ show days +:+ "d" +:+ detail
        +:+ (if is_empty detail then " from sent" else "") +:+ ")";
      ta_dry_run := dry_run;
      ta_event_type := "DEADLINE_REACHED";
      ta_payload := [("deadline_days", jint days); ("deadline_at", JString (format_iso deadline))];
      ta_request_id := tc_id request |}.

Definition dpa (request : TickCandidate) (now : Z) (dry_run : bool) : option TickAction :=
  deadline ← parsed (tc_deadline_at request);
  if 2 <=? tc_escalation_level request then None
  else
    let days := days_between now deadline in
    if days <? DPA_ESCALATION_DAYS then None
    else Some {|
      ta_action_type := "draft_dpa_complaint";
      ta_broker_id := tc_broker_id request;
      ta_campaign_id := tc_campaign_id request;
      ta_current_status := "OVERDUE";
      ta_description := "DPA complaint ready (" +:+ show days +:+ "d since deadline)";
      ta_dry_run := dry_run;
      ta_event_type := "DPA_COMPLAINT_DRAFTED";
      ta_payload := [("days_since_deadline", jint days)];
      ta_request_id := tc_id request |}.

Definition rescan (request : TickCandidate) (now : Z) (dry_run : bool) : option TickAction :=
  resolved ← parsed (tc_resolved_at request);
  let days := days_between now resolved in
  if days <? RESCAN_DAYS then None
  else Some {|
    ta_action_type := "trigger_rescan";
    ta_broker_id := tc_broker_id request;
    ta_campaign_id := tc_campaign_id request;
    ta_current_status := "CONFIRMED";
    ta_description := "Re-scan due (" +:+ show days +:+ "d since resolution)";
    ta_dry_run := dry_run;
    ta_event_type := "RE_SCAN_TRIGGERED";
    ta_payload := [("days_since_resolved", jint days)];
    ta_request_id := tc_id request |}.

Definition actions_for_candidate (request : TickCandidate) (now : Z) (dry_run : bool)
    : list TickAction :=
  let status := if is_empty (tc_current_status request) then "PLANNED"
                else tc_current_status request in
  if String.eqb status "AWAITING_ACK" then option_list (reminder request now dry_run)
  else if String.eqb status "AWAITING_RESPONSE" then option_list (deadline request now dry_run)
  else if String.eqb status "OVERDUE" then option_list (dpa request now dry_run)
  else if String.eqb status "CONFIRMED" then option_list (rescan request now dry_run)
  else [].
End deadlines.

Record RunOpts := { ro_dry_run : bool; ro_batch_size : Z }.

Inductive DeadlinesError : Type :=
| DeadlinesDatabase (e : DbError)
| DeadlinesProjection (e : ProjectionError).

Record ApplyResult := {
  ar_request_id : Z;
  ar_action : string;
  ar_event_type : string;
  ar_description : string;
  ar_executed : bool;
  ar_dry_run : bool;
  ar_error : string;
}.

Definition apply_result (action : TickAction) (executed dry_run : bool) (error : string)
    : ApplyResult := {|
  ar_request_id := ta_request_id action;
  ar_action := ta_action_type action;
  ar_event_type := ta_event_type action;
  ar_description := ta_description action;
  ar_executed := executed;
  ar_dry_run := dry_run;
  ar_error := error |}.

Section tick.
Context `{Chrono} `{SerdeJson} `{RustFmt} `{DbErrorFmt} `{Env}.

Definition run_tick (opts : RunOpts) (now : Z) : DB DeadlinesError (list TickAction) :=
  candidates ← lift DeadlinesDatabase (fetch_tick_candidates (format_iso now) (ro_batch_size opts));
  mret (candidates ≫= λ c, actions_for_candidate c now (ro_dry_run opts)).

(** One iteration of the loop over the actions. *)
Definition apply_action (now : Z) (action : TickAction) : DB DeadlinesError ApplyResult :=
  if ta_dry_run action then mret (apply_result action false true "")
  else
    applied ← attempt (append_and_project (ta_request_id action)
      (EventType_from_wire (ta_event_type action)) (ta_payload action) Scheduler now);
    mret (match applied with
          | Ok _ => apply_result action true false ""
          | Err error => apply_result action false false (ProjectionError_str error)
          end).

Definition apply_tick_actions (actions : list TickAction) (now : Z)
    : DB DeadlinesError (list ApplyResult) :=
  match actions with
  | [] => mret []
  | _ =>
      results ← mapM_db (apply_action now) actions;
      _ ← attempt (rebuild_all_states 500);
      mret results
  end.
End tick.

(* ------------------------------------------------------------------ *)
(** ** * DeadlinesFacts: what the tick promises

    The reminder back-off, the termination of repeated ticks at one instant, the
    completeness of the scan and the bookkeeping of the application. *)

(** ** Back-off *)

Lemma pow2_mono_le a b : 0 ≤ a ≤ b → 2 ^ a ≤ 2 ^ b.
Proof. intros. apply Z.pow_le_mono_r; lia. Qed.

Lemma reminder_threshold_small n : 0 ≤ n ≤ 60 → reminder_threshold n = 7 * 2 ^ n.
Proof.
  intros Hn. unfold reminder_threshold, REMINDER_DAYS.
  pose proof (pow2_mono_le n 60 Hn) as Hle.
  pose proof (Z.pow_pos_nonneg 2 n ltac:(lia) ltac:(lia)).
  rewrite as_u64_id by (split; [lia|]; change (2 ^ 64) with 18446744073709551616; lia).
  destruct (64 <=? n) eqn:E; [lia|].
  change (2 ^ 60) with 1152921504606846976 in Hle.
  rewrite (wrap_i64_id (2 ^ n)) by (unfold in_i64, i64_min, i64_max; lia).
  apply wrap_i64_id. unfold in_i64, i64_min, i64_max. lia.
Qed.

Section facts.
Context `{Chrono}.

Lemma reminder_due request now dry_run sent :
  parsed (tc_sent_at request) = Some sent →
  0 ≤ tc_reminders_sent request ≤ 60 →
  is_Some (reminder request now dry_run) ↔
  7 * 2 ^ tc_reminders_sent request ≤ days_between now sent.
Proof.
  intros Hs Hn. unfold reminder. rewrite Hs. simpl.
  rewrite reminder_threshold_small by done.
  pose proof (Z.pow_pos_nonneg 2 (tc_reminders_sent request) ltac:(lia) ltac:(lia)).
  unfold REMINDER_DAYS. destruct (Z.ltb_spec (days_between now sent) 7) as [H7|H7].
  { split; [by intros []|intros; exfalso; lia]. }
  destruct (Z.ltb_spec (days_between now sent) (7 * 2 ^ tc_reminders_sent request)) as [Hlt|Hge].
  - split; [by intros []|intros; exfalso; lia].
  - by split.
Qed.

(** The (n+1)-th reminder is due exactly when 7·2{^n} days have passed since
    the request was sent, for every count up to the last that does not overflow. *)
Theorem reminder_backoff request now dry_run sent :
  parsed (tc_sent_at request) = Some sent →
  0 ≤ tc_reminders_sent request ≤ 60 →
  is_Some (reminder request now dry_run) ↔
  7 * 2 ^ tc_reminders_sent request ≤ days_between now sent.
Proof. apply reminder_due. Qed.

(** ** Repeated ticks *)

(** The event an applied action becomes. *)
Definition tick_event (id now : Z) (a : TickAction) : EventRecord := {|
  er_id := id; er_request_id := ta_request_id a; er_occurred_at := now; er_recorded_at := now;
  er_event_type := EventType_from_wire (ta_event_type a); er_payload := ta_payload a;
  er_source := Scheduler |}.

(** One decision of the tick on a projected request and its effect on the projection. *)
Inductive tick_step (r : RemovalRequest) (now : Z) : ProjectionState → ProjectionState → Prop :=
| tick_applied a id s s' :
    a ∈ actions_for_candidate (tick_candidate r (state_row now s)) now false →
    apply_event s (tick_event id now a) = Ok s' →
    tick_step r now s s'.

Definition tick_measure (s : ProjectionState) : Z :=
  if String.eqb (current_status s) "AWAITING_ACK" then 61 - reminders_sent s
  else if String.eqb (current_status s) "AWAITING_RESPONSE" then 2
  else if str_in (current_status s) ["OVERDUE"; "CONFIRMED"] then 1
  else 0.

Definition tick_ready (now : Z) (s : ProjectionState) : Prop :=
  0 ≤ reminders_sent s ≤ 60 ∧
  ∀ sent, parsed (or_empty (sent_at s)) = Some sent → days_between now sent < 2 ^ 57.

Lemma go_float_of_count n : 0 ≤ n ≤ 64 → go_float_to_int (f64_of_Z n) = n.
Proof.
  intros Hn.
  assert (Hall : forallb (λ n, go_float_to_int (f64_of_Z n) =? n) (seqZ 0 65) = true)
    by (vm_compute; reflexivity).
  rewrite forallb_forall in Hall. apply Z.eqb_eq, Hall, list_elem_of_In, elem_of_seqZ. lia.
Qed.

Lemma apply_event_ok s e s' :
  apply_event s e = Ok s' →
  s' = event_effect e (track (status_for (er_event_type e)) (er_id e) (time_of e) s).
Proof.
  unfold apply_event. destruct (decide _); [done|]. destruct (is_go_zero_time _); [done|].
  by intros [= <-].
Qed.

Lemma reminder_step r now s a id s' :
  tick_ready now s →
  reminder (tick_candidate r (state_row now s)) now false = Some a →
  apply_event s (tick_event id now a) = Ok s' →
  current_status s' = "AWAITING_ACK" ∧ sent_at s' = sent_at s ∧
  reminders_sent s' = reminders_sent s + 1 ∧ reminders_sent s ≤ 54.
Proof.
  intros [Hn Hdays] Hr Happ.
  assert (Hdue : is_Some (reminder (tick_candidate r (state_row now s)) now false)) by by eexists.
  unfold reminder in Hr. simpl in Hr.
  destruct (parsed (or_empty (sent_at s))) as [sent|] eqn:Hs; [|done]. simpl in Hr.
  apply (reminder_due (tick_candidate r (state_row now s)) now false sent Hs Hn) in Hdue. simpl in Hdue.
  specialize (Hdays sent eq_refl).
  assert (Hle : reminders_sent s ≤ 54).
  { destruct (Z_le_gt_dec (reminders_sent s) 54) as [|Hgt]; [done|].
    pose proof (pow2_mono_le 55 (reminders_sent s) ltac:(lia)).
    change (2 ^ 55) with 36028797018963968 in *. change (2 ^ 57) with 144115188075855872 in *. lia. }
  destruct (days_between now sent <? REMINDER_DAYS); [done|].
  destruct (days_between now sent <? reminder_threshold (reminders_sent s)); [done|].
  injection Hr as <-.
  apply apply_event_ok in Happ as ->. split_and!; try done.
  simpl. unfold event_count. simpl.
  unfold payload_integer. simpl.
  rewrite wrap_i64_id by (unfold in_i64, i64_min, i64_max; lia).
  rewrite go_float_of_count by lia. destruct (_ =? 0) eqn:E; [lia|done].
Qed.

(** The other three decisions change the status and neither the count nor the
    sending instant. *)
Lemma deadline_step r now s a id s' :
  deadline (tick_candidate r (state_row now s)) now false = Some a →
  apply_event s (tick_event id now a) = Ok s' →
  current_status s' = "OVERDUE" ∧ sent_at s' = sent_at s ∧ reminders_sent s' = reminders_sent s.
Proof.
  unfold deadline. intros Ha Happ. apply bind_Some in Ha as (d & _ & Ha).
  destruct (now <? d); [done|]. injection Ha as <-. by apply apply_event_ok in Happ as ->.
Qed.

Lemma dpa_step r now s a id s' :
  dpa (tick_candidate r (state_row now s)) now false = Some a →
  apply_event s (tick_event id now a) = Ok s' →
  current_status s' = "ESCALATED" ∧ sent_at s' = sent_at s ∧ reminders_sent s' = reminders_sent s.
Proof.
  unfold dpa. intros Ha Happ. apply bind_Some in Ha as (d & _ & Ha).
  destruct (2 <=? _); [done|]. destruct (_ <? _); [done|]. injection Ha as <-.
  by apply apply_event_ok in Happ as ->.
Qed.

Lemma rescan_step r now s a id s' :
  rescan (tick_candidate r (state_row now s)) now false = Some a →
  apply_event s (tick_event id now a) = Ok s' →
  current_status s' = "RE_SCAN_DUE" ∧ sent_at s' = sent_at s ∧ reminders_sent s' = reminders_sent s.
Proof.
  unfold rescan. intros Ha Happ. apply bind_Some in Ha as (d & _ & Ha).
  destruct (_ <? _); [done|]. injection Ha as <-. by apply apply_event_ok in Happ as ->.
Qed.

Lemma elem_of_option_list {A} (x : A) o : x ∈ option_list o ↔ o = Some x.
Proof. destruct o; simpl; set_solver. Qed.

Lemma tick_step_measure r now s s' :
  tick_ready now s → tick_step r now s s' →
  tick_ready now s' ∧ tick_measure s' < tick_measure s.
Proof.
  intros Hready Hs. destruct (Hready) as [Hn Hd].
  inversion Hs as [a id ? ? Ha Happ]; subst. clear Hs.
  unfold actions_for_candidate in Ha. simpl in Ha. unfold tick_ready, tick_measure.
  destruct (is_empty (current_status s)).
  { simpl in Ha. by apply elem_of_nil in Ha. }
  destruct (String.eqb_spec (current_status s) "AWAITING_ACK") as [E|N1].
  { apply elem_of_option_list in Ha. apply (reminder_step r now s a id s') in Ha; [|done..].
    destruct Ha as (-> & -> & -> & ?). simpl. split; [split; [lia|done]|lia]. }
  destruct (String.eqb_spec (current_status s) "AWAITING_RESPONSE") as [E|N2].
  { apply elem_of_option_list in Ha. eapply deadline_step in Ha as (-> & -> & ->); [|done].
    by split. }
  destruct (String.eqb_spec (current_status s) "OVERDUE") as [E|N3].
  { apply elem_of_option_list in Ha. eapply dpa_step in Ha as (-> & -> & ->); [|done].
    rewrite E. by split. }
  destruct (String.eqb_spec (current_status s) "CONFIRMED") as [E|N4].
  { apply elem_of_option_list in Ha. eapply rescan_step in Ha as (-> & -> & ->); [|done].
    rewrite E. by split. }
  by apply elem_of_nil in Ha.
Qed.

Lemma tick_measure_nonneg s now : tick_ready now s → 0 ≤ tick_measure s.
Proof. intros [Hn _]. unfold tick_measure. repeat case_match; lia. Qed.


Lemma actions_for_candidate_at_most_one request now dry_run :
  (List.length (actions_for_candidate request now dry_run) ≤ 1)%nat.
Proof.
  unfold actions_for_candidate. repeat case_match; simpl; try lia;
    match goal with |- context [option_list ?o] => destruct o; simpl; lia end.
Qed.
End facts.

(* ------------------------------------------------------------------ *)
(** ** The scan over the due requests and the application of its decisions *)

Section facts.
Context `{Chrono} `{SerdeJson} `{RustFmt} `{DbErrorFmt} `{Env}.

Definition due (now : Z) (s : StateRow) : Prop :=
  match st_next_action_at s with None => True | Some t => str_leb t (format_iso now) = true end.

Lemma elem_of_inner_join d r s :
  (r, s) ∈ inner_join d ↔ r ∈ removal_requests d ∧ request_state d !! rr_id r = Some s.
Proof.
  unfold inner_join. rewrite list_elem_of_omap. split.
  - intros (x & Hx & Hs). destruct (request_state d !! rr_id x) eqn:E; [|done].
    injection Hs as -> ->. by rewrite E.
  - intros [Hr Hs]. exists r. by rewrite Hs.
Qed.

(** Without a batch limit a tick writes nothing and decides on every due
    request: its actions are exactly those of the requests whose projection is
    unscheduled or due. *)
Theorem run_tick_complete dry_run batch now w actions w' :
  batch ≤ 0 →
  run_tick {| ro_dry_run := dry_run; ro_batch_size := batch |} now w = (Ok actions, w') →
  db w' = db w ∧
  ∀ a, a ∈ actions ↔ ∃ r s, r ∈ removal_requests (db w) ∧
    request_state (db w) !! rr_id r = Some s ∧ due now s ∧
    a ∈ actions_for_candidate (tick_candidate r s) now dry_run.
Proof.
  intros Hb Hrun. unfold run_tick, fetch_tick_candidates in Hrun. inv_run. split; [done|].
  intros a. rewrite list_elem_of_bind. simpl.
  destruct (0 <? batch) eqn:E; [lia|]. unfold sql_limit. split.
  - intros (c & Ha & ([r s] & -> & Hin)%list_elem_of_fmap). rewrite elem_of_sort_by in Hin.
    apply list_elem_of_filter in Hin as [Hdue [Hr Hs]%elem_of_inner_join].
    exists r, s. split_and!; try done. unfold due. simpl in Hdue. by destruct (st_next_action_at s).
  - intros (r & s & Hr & Hs & Hdue & Ha). exists (tick_candidate r s). split; [done|].
    apply list_elem_of_fmap. exists (r, s). split; [done|]. rewrite elem_of_sort_by.
    apply list_elem_of_filter. split; [|by apply elem_of_inner_join].
    unfold due in Hdue. simpl. by destruct (st_next_action_at s).
Qed.

Lemma mapM_length {E A B} (f : A → DB E B) l w ys w' :
  mapM_db f l w = (Ok ys, w') → List.length ys = List.length l.
Proof.
  revert w ys. induction l as [|x l IH]; intros w ys Hrun; simpl in Hrun; inv_run; [done|].
  simpl. f_equal. by eapply IH.
Qed.

(** The events an application appended: one per executed action, in order. *)
Definition appended (now : Z) (actions : list TickAction) (results : list ApplyResult)
    (rows : list EventRow) : Prop :=
  Forall2 (λ a r, ar_request_id r = ta_request_id a ∧ ar_event_type r = ta_event_type a ∧
      ar_dry_run r = ta_dry_run a ∧ (ar_executed r = true → ta_dry_run a = false ∧ ar_error r = ""))
    actions results ∧
  (λ row, (ev_request_id row, ev_event_type row, ev_occurred_at row, ev_source row)) <$> rows =
  (λ r, (ar_request_id r, ar_event_type r, format_sql now, "scheduler")) <$>
    filter (λ r, ar_executed r = true) results.

Lemma append_and_project_rows r t p s at_ w :
  match append_and_project r t p s at_ w with
  | (Err _, w') => request_events (db w') = request_events (db w)
  | (Ok (id, _), w') =>
      ∃ now, request_events (db w') = request_events (db w) ++ [event_row id r at_ now t p s]
  end.
Proof.
  destruct (append_and_project r t p s at_ w) as [[[id st]|e] w'] eqn:Hrun.
  - apply transaction_ok in Hrun as (w2 & Hrun & ->).
    unfold append_and_project_tx in Hrun. inv_run.
    match goal with Ha : append_event_tx _ _ _ _ _ _ = _ |- _ =>
      apply append_event_tx_ok in Ha as (_ & -> & _ & now & Hdb) end.
    match goal with Hu : upsert_state_tx _ _ = _ |- _ =>
      apply upsert_state_tx_ok in Hu as (_ & _ & now2 & Hdb2) end.
    exists now. by rewrite Hdb2, Hdb.
  - by rewrite (transaction_err _ _ _ _ _ Hrun).
Qed.

Lemma apply_action_total now a w :
  ∃ r w', apply_action now a w = (Ok r, w') ∧
    ∃ rows, request_events (db w') = request_events (db w) ++ rows ∧ appended now [a] [r] rows.
Proof.
  unfold apply_action. destruct (ta_dry_run a) eqn:Hd.
  - eexists _, w. split; [done|]. exists []. rewrite app_nil_r. split; [done|].
    split; [repeat constructor; simpl; by rewrite ?Hd|done].
  - unfold mbind, DB_bind, attempt.
    pose proof (append_and_project_rows (ta_request_id a)
      (EventType_from_wire (ta_event_type a)) (ta_payload a) Scheduler now w) as Hrows.
    destruct (append_and_project _ _ _ _ _ w) as [[[id st]|e] w'].
    + destruct Hrows as [rec Hrows]. eexists _, w'. split; [done|]. eexists. split; [done|].
      split; [repeat constructor; simpl; by rewrite ?Hd|]. simpl.
      by rewrite EventType_as_str_from_wire.
    + eexists _, w'. split; [done|]. exists []. rewrite app_nil_r. split; [done|].
      split; [repeat constructor; simpl; by rewrite ?Hd|]. done.
Qed.

Lemma mapM_apply_action now actions w :
  ∃ rs w', mapM_db (apply_action now) actions w = (Ok rs, w') ∧
    ∃ rows, request_events (db w') = request_events (db w) ++ rows ∧ appended now actions rs rows.
Proof.
  revert w. induction actions as [|a actions IH]; intros w.
  - eexists [], w. split; [done|]. exists []. rewrite app_nil_r. by repeat constructor.
  - destruct (apply_action_total now a w) as (r & w1 & Hrun & rows1 & Hev1 & Hf1 & Hr1).
    destruct (IH w1) as (rs & w2 & Hrun2 & rows2 & Hev2 & Hf2 & Hr2).
    exists (r :: rs), w2. simpl. unfold mbind, DB_bind. rewrite Hrun, Hrun2. split; [done|].
    exists (rows1 ++ rows2). rewrite Hev2, Hev1, app_assoc. split; [done|]. split.
    + exact (Forall2_app Hf1 Hf2).
    + change (r :: rs) with ([r] ++ rs). rewrite filter_app, !fmap_app. by rewrite Hr1, Hr2.
Qed.

Lemma upsert_state_events r w : request_events (db (upsert_state r w).2) = request_events (db w).
Proof.
  unfold upsert_state.
  apply (transaction_preserves (λ d, request_events d = request_events (db w))); [|done].
  intros w1 a w2 (_ & _ & now & ->)%upsert_state_tx_ok Hw. done.
Qed.

(** Applying decisions never fails as a whole. There is one result per action,
    in order; the log grows by exactly the events of the actions reported as
    executed, stamped with the tick's instant and the scheduler as source; a dry
    run's actions are never executed. *)
Theorem apply_tick_actions_spec actions now w :
  ∃ results w', apply_tick_actions actions now w = (Ok results, w') ∧
    ∃ rows, request_events (db w') = request_events (db w) ++ rows ∧
      appended now actions results rows.
Proof.
  unfold apply_tick_actions. destruct actions as [|a0 actions0].
  { eexists [], w. split; [done|]. exists []. rewrite app_nil_r. by repeat constructor. }
  generalize (a0 :: actions0). intros actions.
  destruct (mapM_apply_action now actions w) as (rs & w1 & Hrun & rows & Hev & Happ).
  unfold mbind, DB_bind. rewrite Hrun. unfold attempt.
  pose proof (rebuild_all_preserves (λ d, request_events d = request_events (db w1)) 500 w1) as Hr.
  destruct (rebuild_all_states 500 w1) as [res w2]. exists rs, w2. split; [done|].
  exists rows. split; [|done]. simpl in Hr. rewrite Hr; [done| |done].
  intros r w' <-. apply upsert_state_events.
Qed.
End facts.

(* ------------------------------------------------------------------ *)
(** ** The tick theorems at concrete requests *)

#[local] Existing Instances calendar compact_json quiet.
#[local] Instance fmt : RustFmt := {| debug_str s := s |}.
#[local] Instance dbfmt : DbErrorFmt := {| db_error_str _ := "database error" |}.

Definition later : Z := noon + 30 * day_ns.

Definition sent_row : StateRow := default
  {| st_current_status := ""; st_last_event_id := 0; st_last_event_at := ""; st_sent_at := None;
     st_acknowledged_at := None; st_resolved_at := None; st_deadline_at := None;
     st_next_action_at := None; st_reminders_sent := 0; st_escalation_level := 0 |}
  (request_state (db w4) !! 1).

Definition first_request : RemovalRequest := default
  {| rr_id := 0; rr_broker_id := ""; rr_channel := ""; rr_campaign_id := ""; rr_created_at := "";
     rr_jurisdiction := ""; rr_template_id := ""; rr_identity_snapshot_hash := "" |}
  (removal_requests (db w4) !! 0%nat).

(** Thirty days after sending, the third reminder (28 days) is due. *)
Lemma reminder_backoff_witness :
  let c := tick_candidate first_request sent_row in
  let c2 := {| tc_id := tc_id c; tc_broker_id := tc_broker_id c; tc_campaign_id := tc_campaign_id c;
    tc_jurisdiction := tc_jurisdiction c; tc_current_status := tc_current_status c;
    tc_sent_at := tc_sent_at c; tc_deadline_at := tc_deadline_at c;
    tc_next_action_at := tc_next_action_at c; tc_acknowledged_at := tc_acknowledged_at c;
    tc_resolved_at := tc_resolved_at c; tc_reminders_sent := 2;
    tc_escalation_level := tc_escalation_level c |} in
  parsed (tc_sent_at c2) = Some noon ∧ is_Some (reminder c2 later false).
Proof.
  intros c c2. assert (Hs : parsed (tc_sent_at c2) = Some noon) by (vm_compute; reflexivity).
  split; [exact Hs|]. apply (reminder_backoff c2 later false noon Hs).
  - vm_compute. split; discriminate.
  - vm_compute. discriminate.
Defined.

Definition sent_state : ProjectionState := fold_events 1 (replay_log (db w4) 1).

Definition after_reminder : ProjectionState :=
  match actions_for_candidate (tick_candidate first_request (state_row later sent_state)) later false with
  | a :: _ => fold_step sent_state (tick_event 2 later a)
  | [] => sent_state
  end.

Lemma sent_state_ready : tick_ready later sent_state.
Proof.
  split; [vm_compute; split; discriminate|]. intros sent Hs.
  assert (Some sent = Some noon) as [= ->] by (rewrite <-Hs; vm_compute; reflexivity).
  vm_compute. reflexivity.
Qed.


Lemma run_tick_complete_witness :
  ∃ actions w', run_tick {| ro_dry_run := true; ro_batch_size := 0 |} later w6 = (Ok actions, w') ∧
    List.length actions = 1%nat ∧ db w' = db w6 ∧
    ∀ a, a ∈ actions ↔ ∃ r s, r ∈ removal_requests (db w6) ∧
      request_state (db w6) !! rr_id r = Some s ∧ due later s ∧
      a ∈ actions_for_candidate (tick_candidate r s) later true.
Proof.
  destruct (run_tick {| ro_dry_run := true; ro_batch_size := 0 |} later w6) as [[actions|e] w'] eqn:Hrun.
  - exists actions, w'. split; [reflexivity|]. split.
    + revert Hrun. vm_compute. intros [= <- _]. reflexivity.
    + apply (run_tick_complete true 0 later w6); [lia|exact Hrun].
  - exfalso. revert Hrun. vm_compute. discriminate.
Defined.
