(* ===== verification/Campaign.v ===== *)
(** * Campaign: [symeraseme-core/src/campaign.rs]

    Planning a campaign, reading a plan, and executing planned requests by mail or
    by web form.  The mail sender is the caller's closure: an argument, whose calls
    are recorded in the outbox of the [World]. *)

From S2P Require Import Prelude.
From S2P Require Import Text.
From S2P Require Import Json.
From S2P Require Import TimeUtil.
From S2P Require Import Types.
From S2P Require Import Database.
From S2P Require Import Repository.
From S2P Require Import Projection.
From S2P Require Import Identity.
From S2P Require Import Registry.
From S2P Require Import RegistryValidate.
From S2P Require Import ManualTasks.

Record PlanOpts := {
  po_campaign_id : string;
  po_jurisdiction : string;
  po_law : string;
  po_priority : string;
  po_category : string;
  po_status : string;
  po_include_inactive : bool;
  po_include_disabled : bool;
  po_max_brokers : Z;
  po_notes : string;
}.

Record PlanRequest := {
  pr_request_id : Z;
  pr_broker_id : string;
  pr_broker_name : string;
  pr_channel : string;
  pr_template : string;
}.

Record PlanResult := {
  ps_campaign_id : string;
  ps_total_brokers : Z;
  ps_matched : Z;
  ps_planned : Z;
  ps_requests : list PlanRequest;
}.

Inductive PlanError : Type :=
| PlanRegistry (e : RegistryError)
| PlanDatabase (e : DbError)
| PlanProjection (e : ProjectionError).

Inductive SelectedChannel : Type :=
| SelectedEmail (endpoint : string) (template : option Template) (locale : string)
    (expected_response_days : Z)
| SelectedWebForm (url : string).

Definition channel_kind (c : SelectedChannel) : string :=
  match c with SelectedEmail _ _ _ _ => "email" | SelectedWebForm _ => "web_form" end.
Definition channel_endpoint (c : SelectedChannel) : string :=
  match c with SelectedEmail endpoint _ _ _ => endpoint | SelectedWebForm url => url end.
Definition channel_response_days (c : SelectedChannel) : Z :=
  match c with SelectedEmail _ _ _ days => days | SelectedWebForm _ => 30 end.
Definition channel_locale (c : SelectedChannel) : string :=
  match c with SelectedEmail _ _ locale _ => locale | SelectedWebForm _ => "" end.

Definition select_channel (broker : Broker) : option SelectedChannel :=
  match br_opt_out broker with
  | [] => None
  | EmailChannel endpoint common :: _ =>
      let days := match ch_expected_response_days common with
                  | Some days => if 0 <? days then days else 30
                  | None => 30
                  end in
      Some (SelectedEmail endpoint (ch_template common) (or_empty (ch_locale common)) days)
  | WebFormChannel url _ _ :: _ => Some (SelectedWebForm url)
  end.

Definition template_name (t : Template) : string :=
  match t with CcpaDeletion => "ccpa-deletion" | GdprArt17 => "gdpr-art17" end.

Definition resolve_template (channel : SelectedChannel) : string :=
  match channel with
  | SelectedEmail _ (Some template) locale _ =>
      let name := template_name template in
      if is_empty locale then name +:+ ".md.j2" else name +:+ "." +:+ locale +:+ ".md.j2"
  | _ => ""
  end.

(** The serde names of the jurisdictions are their registry names. *)
Definition resolve_jurisdiction (broker : Broker) (requested : string) : string :=
  let wire_names := registry_name <$> br_jurisdictions broker in
  if negb (is_empty requested) && str_in requested wire_names then requested
  else match wire_names with name :: _ => name | [] => "UNKNOWN" end.

Definition none_if_empty (s : string) : option string := if is_empty s then None else Some s.

Definition plan_filter (opts : PlanOpts) : BrokerFilter := {|
  bf_jurisdiction := none_if_empty (po_jurisdiction opts);
  bf_law := none_if_empty (po_law opts);
  bf_priority := none_if_empty (po_priority opts);
  bf_category := none_if_empty (po_category opts);
  bf_include_disabled := po_include_disabled opts;
  bf_status := Some (if is_empty (po_status opts) then "active" else po_status opts);
  bf_include_inactive := po_include_inactive opts |}.

Definition selected_brokers (brokers : list Broker) : list (Broker * SelectedChannel) :=
  omap (λ b, (λ c, (b, c)) <$> select_channel b) brokers.

Definition truncate {A} (max : Z) (l : list A) : list A :=
  if (0 <? max) && (max <? Z.of_nat (List.length l)) then take (Z.to_nat max) l else l.

Definition planned_payload (broker : Broker) (channel : SelectedChannel) : jmap :=
  map_collect
    [("broker_name", JString (br_name broker)); ("broker_website", JString (br_website broker));
     ("channel", JString (channel_kind channel)); ("endpoint", JString (channel_endpoint channel));
     ("template", JString (resolve_template channel)); ("locale", JString (channel_locale channel));
     ("expected_response_days", jint (channel_response_days channel))].

Section planning.
Context `{Chrono} `{SerdeJson} `{Env}.

(** One iteration of the planning loop. *)
Definition plan_request (opts : PlanOpts) (identity_hash : string) (now : Z)
    (selected : Broker * SelectedChannel) : DB PlanError PlanRequest :=
  let (broker, channel) := selected in
  let template_id := resolve_template channel in
  request_id ← lift PlanDatabase (create_removal_request (br_id broker) (channel_kind channel)
    (po_campaign_id opts) (resolve_jurisdiction broker (po_jurisdiction opts)) template_id
    identity_hash);
  _ ← lift PlanProjection (append_and_project request_id Planned (planned_payload broker channel)
    System now);
  mret {| pr_request_id := request_id; pr_broker_id := br_id broker;
          pr_broker_name := br_name broker; pr_channel := channel_kind channel;
          pr_template := template_id |}.

Definition plan_campaign (brokers : list Broker) (identity_hash : string) (opts : PlanOpts)
    (now : Z) : DB PlanError PlanResult :=
  _ ← lift PlanDatabase (create_campaign (po_campaign_id opts) "initial" (po_notes opts));
  let filtered := filter_brokers brokers (plan_filter opts) in
  let selected := selected_brokers filtered in
  requests ← mapM_db (plan_request opts identity_hash now) (truncate (po_max_brokers opts) selected);
  mret {| ps_campaign_id := po_campaign_id opts;
          ps_total_brokers := Z.of_nat (List.length filtered);
          ps_matched := Z.of_nat (List.length selected);
          ps_planned := Z.of_nat (List.length requests);
          ps_requests := requests |}.

(** ** Reading a plan *)

Definition go_timestamp (text : string) : value :=
  match parse_timestamp text with
  | Ok parsed => JString (to_rfc3339_auto parsed)
  | Err _ => JString text
  end.

Definition opt_timestamp (o : option string) : value :=
  match o with Some s => go_timestamp s | None => JNull end.

Definition plan_row (r : RemovalRequestRow) : value :=
  let q := rw_request r in
  JObject
    [("id", jint (rr_id q)); ("broker_id", JString (rr_broker_id q));
     ("channel", JString (rr_channel q)); ("campaign_id", JString (rr_campaign_id q));
     ("created_at", go_timestamp (rr_created_at q)); ("jurisdiction", JString (rr_jurisdiction q));
     ("template_id", JString (rr_template_id q));
     ("identity_snapshot_hash", JString (rr_identity_snapshot_hash q));
     ("current_status", opt_string (rw_current_status r));
     ("last_event_at", opt_timestamp (rw_last_event_at r));
     ("sent_at", opt_timestamp (rw_sent_at r));
     ("acknowledged_at", opt_timestamp (rw_acknowledged_at r));
     ("resolved_at", opt_timestamp (rw_resolved_at r));
     ("deadline_at", opt_timestamp (rw_deadline_at r));
     ("next_action_at", opt_timestamp (rw_next_action_at r));
     ("reminders_sent", jint (rw_reminders_sent r));
     ("escalation_level", jint (rw_escalation_level r))].

Definition get_plan (campaign_id status : string) : DB DbError value :=
  requests ← list_removal_requests {|
    lo_campaign_id := none_if_empty campaign_id; lo_status := none_if_empty status;
    lo_broker_id := None; lo_limit := None; lo_offset := None |};
  let rows := plan_row <$> requests in
  mret (go_map_order (JObject
    [("campaign_id", JString (if is_empty campaign_id then "all" else campaign_id));
     ("total", jint (Z.of_nat (List.length rows)));
     ("requests", match rows with [] => JNull | _ => JArray rows end)])).
End planning.

(** ** Execution *)

(** [EmailSender]: recipient, subject, body. *)
Definition EmailSender : Type := string → string → string → result string jmap.

Record ExecuteOpts := {
  xo_account : string;
  xo_dry_run : bool;
  xo_email_sender : option EmailSender;
  xo_brokers : list Broker;
}.

(** The resolved profile, or the message of the failure. *)
Definition ProfileSource : Type := result string (option Profile).

Inductive ExecuteError : Type :=
| RequestNotFound (id : Z)
| IdentityProfile (message : string)
| IdentityProfileNotFound
| EmailSenderRequired
| EmailSend (request_id : Z) (message : string)
| ExecuteDatabase (e : DbError)
| ExecuteProjection (e : ProjectionError).

Definition em_dash : string := String (b 226) (String (b 128) (String (b 148) "")).

Definition ExecuteError_str `{RustFmt} `{DbErrorFmt} (e : ExecuteError) : string :=
  match e with
  | RequestNotFound id => "campaign: removal request not found: " +:+ show id
  | IdentityProfile message => message
  | IdentityProfileNotFound =>
      "campaign: identity profile not found " +:+ em_dash +:+ " run 'symeraseme init-profile' first"
  | EmailSenderRequired => "campaign: email_sender is required for email-based requests"
  | EmailSend request_id message => "campaign: request " +:+ show request_id +:+ ": " +:+ message
  | ExecuteDatabase error => db_error_str error
  | ExecuteProjection error => ProjectionError_str error
  end.

Definition BATCH_LIMIT : Z := 10.

Definition clamp_batch (size : Z) : Z :=
  if BATCH_LIMIT <? size then BATCH_LIMIT else if size <=? 0 then 5 else size.

Definition default_renderer (template_id : string) (profile : Profile) (broker_name : string)
    : string :=
  "[template " +:+ template_id +:+ " " +:+ em_dash +:+ " " +:+ broker_name +:+ " / "
  +:+ full_name profile +:+ "]".

Definition is_nil {A} (l : list A) : bool := match l with [] => true | _ => false end.

Definition profile_field_empty (profile : Profile) (field : string) : bool :=
  if String.eqb field "full_name" then is_empty (full_name profile)
  else if String.eqb field "email_addresses" then is_nil (email_addresses profile)
  else if String.eqb field "address" || String.eqb field "state" then is_nil (addresses profile)
  else if String.eqb field "date_of_birth" then
    match date_of_birth profile with Some v => is_empty v | None => true end
  else if String.eqb field "name_variants" then is_nil (name_variants profile)
  else if String.eqb field "phone_numbers" then is_nil (phone_numbers profile)
  else if String.eqb field "jurisdictions" then is_nil (jurisdictions profile)
  else true.

Definition missing_fields (profile : Profile) (fields : list string) : list string :=
  filter (λ f, profile_field_empty profile f = true) fields.

Definition field (m : jmap) (key : string) : value := default JNull (map_get key m).

(** A text field of a payload. *)
Definition str_field (m : jmap) (key : string) : option string := map_get key m ≫= as_str.

Definition required_fields (payload : jmap) : list string :=
  match map_get "required_fields" payload ≫= as_array with
  | Some fields => omap as_str fields
  | None => ["full_name"; "email_addresses"]
  end.

(** The prefix of at most [n] characters of a UTF-8 string. *)
Fixpoint take_chars (n : nat) (s : string) : string :=
  match s with
  | "" => ""
  | String c s' =>
      if byte_in 128 191 c then String c (take_chars n s')
      else match n with O => "" | S n' => String c (take_chars n' s') end
  end.

Definition reason_for_code (v : option value) : string :=
  let code := or_empty (v ≫= as_str) in
  if String.eqb code "blocked_captcha" then "captcha_failed"
  else if String.eqb code "navigation_timeout" then "timeout"
  else if String.eqb code "field_not_found" then "unknown_field"
  else if String.eqb code "confirmation_failed" then "assertion_failed"
  else "generic_error".

(** The first enabled web form of a broker. *)
Definition active_form (c : Channel) : option (string * FormSpec) :=
  match c with
  | WebFormChannel url form_spec common =>
      if default false (ch_disabled common) then None else Some (url, form_spec)
  | EmailChannel _ _ => None
  end.

Section web_form.
Context `{RustFmt} `{PiiRegex}.

Definition invalid_spec (dry_run : bool) (message : string) : jmap :=
  [("success", JBool false); ("code", JString "invalid_spec"); ("error", JString message);
   ("reason", JString "generic_error"); ("dry_run", JBool dry_run)].

Definition web_form_preview (brokers : list Broker) (broker_id : string) (dry_run : bool)
    : result jmap jmap :=
  match List.find (λ b, String.eqb (br_id b) broker_id) brokers with
  | None => Err (invalid_spec dry_run
      ("campaign: broker " +:+ debug_str broker_id +:+ " not found"))
  | Some broker =>
      match first_some active_form (br_opt_out broker) with
      | None => Err (invalid_spec dry_run
          ("campaign: broker " +:+ debug_str broker_id +:+ " has no active web form channel"))
      | Some (url, form_spec) =>
          Ok (if dry_run then
            [("success", JBool true); ("dry_run", JBool true); ("broker_id", JString (br_id broker));
             ("broker_name", JString (br_name broker)); ("url", JString url);
             ("steps", jint (Z.of_nat (List.length (steps form_spec))))]
          else
            [("success", JBool false); ("status", JString "manual_action_required");
             ("reason", JString "dynamic_form"); ("broker_id", JString (br_id broker));
             ("broker_name", JString (br_name broker)); ("url", JString url);
             ("dry_run", JBool false)])
      end
  end.

Definition bounded_redacted (v : value) (profile : option Profile) (limit : nat) : string :=
  take_chars limit (redact_identity_values (or_empty (as_str v)) profile).

(** The allowlisted form of one entry. *)
Definition sanitize_entry (profile : option Profile) (key : string) (v : value) : option value :=
  if str_in key ["success"; "dry_run"] then JBool <$> as_bool v
  else if str_in key ["task_id"; "step_index"; "total_steps"; "duration_ms"; "skipped_fields"]
  then Some v
  else if str_in key ["code"; "reason"; "status"; "broker_id"; "broker_name"; "step"; "failed_field"]
  then Some (JString (bounded_redacted v profile 200))
  else if str_in key ["instructions"; "error"; "hint"]
  then Some (JString (bounded_redacted v profile 500))
  else if str_in key ["url"; "final_url"] then Some (JString (bounded_redacted v profile 2048))
  else None.

Definition sanitize_web_form_result (raw : jmap) (profile : option Profile) : jmap :=
  fold_left (λ result kv,
    match sanitize_entry profile kv.1 kv.2 with
    | Some v => map_insert kv.1 v result
    | None => result
    end) raw [].
End web_form.

Section execution.
Context `{Chrono} `{SerdeJson} `{RustFmt} `{DbErrorFmt} `{PiiRegex} `{TasksDir}.
Context `{FloatFmt} `{Sha256} `{Env}.

(** A call of the sender, recorded in the outbox whatever it answers. *)
Definition send_mail (sender : EmailSender) (to subject body : string)
    : DB ExecuteError (result string jmap) := λ w,
  (Ok (sender to subject body),
   {| db := db w; files := files w; outbox := outbox w ++ [(to, subject, body)];
      step := S (step w) |}).

Definition execute_email_request (request : RemovalRequest) (payload : jmap) (opts : ExecuteOpts)
    (profile : ProfileSource) (now : Z) : DB ExecuteError jmap :=
  let request_id := rr_id request in
  let broker_name := rr_broker_id request in
  let template_id := rr_template_id request in
  let endpoint := or_empty (str_field payload "endpoint") in
  profile ← of_result (map_err IdentityProfile profile);
  profile ← of_result (ok_or IdentityProfileNotFound profile);
  let missing := missing_fields profile (required_fields payload) in
  if negb (is_nil missing) then
    throw (IdentityProfile ("Missing required identity fields: " +:+ join ", " missing
      +:+ ". Run 'symeraseme init-profile' to update your profile."))
  else
    let rendered := default_renderer template_id profile broker_name in
    let subject := "Data Deletion Request " +:+ em_dash +:+ " " +:+ broker_name in
    if xo_dry_run opts then
      mret [("success", JBool true); ("dry_run", JBool true); ("request_id", jint request_id);
            ("to", JString endpoint); ("subject", JString subject); ("body", JString rendered)]
    else
      match xo_email_sender opts with
      | None => throw EmailSenderRequired
      | Some sender =>
          answer ← send_mail sender endpoint subject rendered;
          match answer with
          | Err message =>
              _ ← lift ExecuteProjection (append_and_project request_id SendFailed
                    [("error", JString message); ("to", JString endpoint)] System now);
              throw (EmailSend request_id message)
          | Ok send_result =>
              let expected_days :=
                match map_get "expected_response_days" payload ≫= as_i64 with
                | Some days => if 0 <? days then days else 30
                | None => 30
                end in
              _ ← lift ExecuteProjection (append_and_project request_id Sent
                    [("to", JString endpoint); ("template", JString template_id);
                     ("account", JString (xo_account opts));
                     ("expected_response_days", jint expected_days);
                     ("message_id", field send_result "message_id");
                     ("identity_snapshot_hash", JString (hash_profile profile))] System now);
              mret [("success", JBool true); ("request_id", jint request_id);
                    ("result", JObject send_result)]
          end
      end.

(** The URL a task is created for. *)
Definition result_url (result : jmap) : string :=
  match str_field result "url" with
  | Some url => if is_empty url then or_empty (str_field result "final_url") else url
  | None => or_empty (str_field result "final_url")
  end.

Definition default_create_opts : CreateOpts := {|
  co_request_id := None; co_broker_id := ""; co_broker_name := ""; co_form_url := "";
  co_reason := ""; co_screenshot_path := ""; co_html_snapshot := ""; co_form_fields := [];
  co_step_index := 0; co_total_steps := 0; co_error_message := ""; co_extra_instructions := "" |}.

Definition form_task_opts (request_id : Z) (broker_name form_url reason error : string)
    : CreateOpts := {|
  co_request_id := Some request_id; co_broker_id := broker_name; co_broker_name := broker_name;
  co_form_url := form_url; co_reason := reason;
  co_screenshot_path := co_screenshot_path default_create_opts;
  co_html_snapshot := co_html_snapshot default_create_opts;
  co_form_fields := co_form_fields default_create_opts;
  co_step_index := co_step_index default_create_opts;
  co_total_steps := co_total_steps default_create_opts; co_error_message := error;
  co_extra_instructions := co_extra_instructions default_create_opts |}.

Definition is_null (v : value) : bool := match v with JNull => true | _ => false end.

(** The failure branch: the task, then [SEND_FAILED]. *)
Definition record_form_failure (request_id : Z) (broker_name : string) (raw result : jmap)
    (profile : option Profile) (now : Z) : DB ExecuteError jmap :=
  let reason :=
    match str_field result "reason" with
    | Some reason => if is_empty reason then reason_for_code (map_get "code" result) else reason
    | None => reason_for_code (map_get "code" result)
    end in
  let form_url :=
    match map_get "final_url" result with
    | Some final_url => if is_null final_url then field result "url" else final_url
    | None => field result "url"
    end in
  task_id ←
    (if match map_get "task_id" result with Some v => is_null v | None => true end then
       task ← lift ExecuteDatabase (create (form_task_opts request_id broker_name
                (result_url result) reason (or_empty (str_field raw "error"))) profile now);
       mret (Some (mt_id task))
     else mret None);
  let task_value := match task_id with Some id => jint id | None => field result "task_id" end in
  _ ← lift ExecuteProjection (append_and_project request_id SendFailed
        [("error", field result "error"); ("broker_name", JString broker_name);
         ("formflow_code", field result "code"); ("reason", JString reason);
         ("evidence", field result "evidence"); ("form_url", form_url);
         ("task_id", task_value)] System now);
  mret (match task_id with Some id => map_insert "task_id" (jint id) result | None => result end).

Definition execute_web_form_request (request_id : Z) (broker_name : string) (opts : ExecuteOpts)
    (profile : ProfileSource) (now : Z) : DB ExecuteError jmap :=
  profile ← of_result (map_err IdentityProfile profile);
  let identity_hash := match profile with Some p => hash_profile p | None => "" end in
  let raw :=
    match web_form_preview (xo_brokers opts) broker_name (xo_dry_run opts) with
    | Ok raw | Err raw => raw
    end in
  let result := sanitize_web_form_result raw profile in
  let succeeded := default false (map_get "success" result ≫= as_bool) in
  result ←
    (if succeeded then
       _ ← lift ExecuteProjection (append_and_project request_id Sent
             [("broker_name", JString broker_name); ("form_url", field result "url");
              ("expected_response_days", jint 30); ("identity_snapshot_hash", JString identity_hash);
              ("formflow_code", field result "code"); ("evidence", field result "evidence")]
             System now);
       mret result
     else record_form_failure request_id broker_name raw result profile now);
  mret (fold_left (λ out kv, map_insert kv.1 kv.2 out) result
    [("success", field result "success"); ("request_id", jint request_id)]).

Definition execute_request (request_id : Z) (opts : ExecuteOpts) (profile : ProfileSource) (now : Z)
    : DB ExecuteError jmap :=
  request ← lift ExecuteDatabase (get_removal_request request_id);
  match request with
  | None => throw (RequestNotFound request_id)
  | Some request =>
      let channel := if is_empty (rr_channel request) then "email" else rr_channel request in
      if String.eqb channel "web_form" then
        execute_web_form_request request_id (rr_broker_id request) opts profile now
      else
        events ← lift ExecuteDatabase (get_events request_id 0);
        let payload := match last events with Some e => er_payload e | None => [] end in
        execute_email_request request payload opts profile now
  end.

(** One iteration of the batch: a failure becomes an unsuccessful result. *)
Definition execute_captured (opts : ExecuteOpts) (profile : ProfileSource) (now : Z)
    (row : RemovalRequestRow) : DB ExecuteError value :=
  let id := rr_id (rw_request row) in
  outcome ← attempt (execute_request id opts profile now);
  mret (JObject (match outcome with
    | Ok result => result
    | Err error => [("success", JBool false); ("error", JString (ExecuteError_str error));
                    ("request_id", jint id)]
    end)).

Definition execute_campaign (campaign_id : string) (opts : ExecuteOpts) (profile : ProfileSource)
    (batch_size now : Z) : DB ExecuteError value :=
  let batch_size := clamp_batch batch_size in
  total_planned ← lift ExecuteDatabase
    (count_removal_requests (Some campaign_id) (Some "PLANNED"));
  batch ← lift ExecuteDatabase (list_removal_requests {|
    lo_campaign_id := Some campaign_id; lo_status := Some "PLANNED"; lo_broker_id := None;
    lo_limit := Some batch_size; lo_offset := None |});
  results ← mapM_db (execute_captured opts profile now) batch;
  mret (go_map_order (JObject
    [("campaign_id", JString campaign_id); ("total_planned", jint total_planned);
     ("batch_size", jint (Z.of_nat (List.length batch))); ("results", JArray results)])).
End execution.
