(* ===== verification/CampaignFacts.v ===== *)
(** * CampaignFacts: what planning and execution promise

    Planning creates one request and one event for every broker it selects;
    executing hands out at most one mail for a request and records its outcome;
    a batch is bounded and survives the failure of a request; what a web form
    answered is cut to an allowlist of bounded, redacted texts. *)
From S2P Require Import Prelude.
From S2P Require Import Text.
From S2P Require Import Json.
From S2P Require Import TimeUtil.
From S2P Require Import Types.
From S2P Require Import Identity.
From S2P Require Import Registry.
From S2P Require Import RegistryValidate.
From S2P Require Import Database.
From S2P Require Import Repository.
From S2P Require Import Projection.
From S2P Require Import ProjectionFacts.
From S2P Require Import ManualTasks.
From S2P Require Import ManualTasksFacts.
From S2P Require Import Deadlines.
From S2P Require Import Campaign.

(** ** Planning *)

Section planning.
Context `{Chrono} `{SerdeJson} `{Env}.

(** Ids are assigned below the counter, and events refer to assigned ids. *)
Record ids_assigned (d : Db) : Prop := {
  assigned_requests : ∀ r, r ∈ removal_requests d → rr_id r < next_request_id d;
  assigned_events : ∀ e, e ∈ request_events d → ev_request_id e < next_request_id d;
}.

(** The request row a selected broker gets. *)
Definition planned_row (opts : PlanOpts) (hash : string) (sel : Broker * SelectedChannel)
    (r : RemovalRequest) : Prop :=
  rr_broker_id r = br_id sel.1 ∧ rr_channel r = channel_kind sel.2 ∧
  rr_campaign_id r = po_campaign_id opts ∧
  rr_jurisdiction r = resolve_jurisdiction sel.1 (po_jurisdiction opts) ∧
  rr_template_id r = resolve_template sel.2 ∧ rr_identity_snapshot_hash r = hash.

(** The event that goes with it. *)
Definition planned_event (now : Z) (sel : Broker * SelectedChannel) (r : RemovalRequest)
    (e : EventRow) : Prop :=
  ∃ id rec, e = event_row id (rr_id r) now rec Planned (planned_payload sel.1 sel.2) System.

Definition plan_line (sel : Broker * SelectedChannel) (r : RemovalRequest) : PlanRequest := {|
  pr_request_id := rr_id r; pr_broker_id := br_id sel.1; pr_broker_name := br_name sel.1;
  pr_channel := channel_kind sel.2; pr_template := resolve_template sel.2 |}.

Definition status_of (d : Db) (id : Z) : option string :=
  st_current_status <$> request_state d !! id.

(** A log of nothing but planning is planned. *)
Lemma fold_planned id (l : list EventRecord) :
  Forall (λ e, er_event_type e = Planned) l → current_status (fold_events id l) = "PLANNED".
Proof.
  intros Hl. rewrite fold_events_columns. simpl. unfold last_some.
  destruct (last _) as [s|] eqn:Hlast; [|done]. apply last_Some_elem_of in Hlast.
  apply list_elem_of_omap in Hlast as (e & He & Hs). apply list_elem_of_filter in He as [_ He].
  rewrite Forall_forall in Hl. rewrite (Hl e He) in Hs. by injection Hs as <-.
Qed.

Lemma replay_log_fresh d e id :
  (∀ x, x ∈ request_events d → ev_request_id x ≠ id) → ev_event_type e = "PLANNED" →
  Forall (λ x, er_event_type x = Planned) (replay_log (add_event e d) id).
Proof.
  intros Hd He. apply Forall_forall. intros x.
  unfold replay_log, ordered_events. intros (row & Hrow & Hdec)%list_elem_of_omap.
  rewrite elem_of_sort_by, list_elem_of_filter in Hrow. destruct Hrow as [Hid Hrow].
  apply Z.eqb_eq in Hid. simpl in Hrow.
  apply elem_of_app in Hrow as [Hrow|Hrow%list_elem_of_singleton]; [by apply Hd in Hrow|].
  subst row. unfold decode_replay_event in Hdec. rewrite He in Hdec. by simplify_option_eq.
Qed.

(** One iteration. *)
Lemma plan_request_ok opts hash now sel w line w' :
  ids_assigned (db w) →
  plan_request opts hash now sel w = (Ok line, w') →
  ids_assigned (db w') ∧ campaigns (db w') = campaigns (db w) ∧
  ∃ r e,
    removal_requests (db w') = removal_requests (db w) ++ [r] ∧
    request_events (db w') = request_events (db w) ++ [e] ∧
    planned_row opts hash sel r ∧ planned_event now sel r e ∧ line = plan_line sel r ∧
    rr_id r = next_request_id (db w) ∧ next_request_id (db w') = next_request_id (db w) + 1 ∧
    status_of (db w') (rr_id r) = Some "PLANNED" ∧
    ∀ id, id ≠ rr_id r → request_state (db w') !! id = request_state (db w) !! id.
Proof.
  intros [Hr He]. unfold plan_request. destruct sel as [broker channel]. intros Hrun. inv_run.
  match goal with Hc : create_removal_request _ _ _ _ _ _ _ = _ |- _ =>
    apply execute_now_ok in Hc as (d & Hd & ->) end.
  injection Hd as <- <-.
  match goal with Ha : append_and_project _ _ _ _ _ _ = (Ok ?x, _) |- _ =>
    destruct x as [eid st]; apply append_and_project_ok in Ha as (n1 & n2 & -> & Hst & Hdb) end.
  rewrite Hdb in *. simpl in *. split; [|split; [done|]].
  - split; simpl; intros x.
    + intros [Hx|Hx%list_elem_of_singleton]%elem_of_app; [apply Hr in Hx; lia|subst; simpl; lia].
    + intros [Hx|Hx%list_elem_of_singleton]%elem_of_app; [apply He in Hx; lia|subst; simpl; lia].
  - eexists _, _. split; [done|]. split; [done|]. split_and!; try done.
    + by destruct channel.
    + by eexists _, _.
    + unfold status_of. simpl. rewrite lookup_insert_eq. simpl. f_equal.
      rewrite Hst. apply fold_planned. rewrite replay_log_set_state. apply replay_log_fresh; [|done].
      intros x Hx. simpl in Hx. apply He in Hx. simpl. lia.
    + intros id Hid. simpl in *. by rewrite lookup_insert_ne.
Qed.

(** What a run of the loop over [chosen] did. *)
Definition planned_all (opts : PlanOpts) (hash : string) (now : Z)
    (chosen : list (Broker * SelectedChannel)) (lines : list PlanRequest) (d d' : Db) : Prop :=
  ∃ rows events,
    removal_requests d' = removal_requests d ++ rows ∧
    request_events d' = request_events d ++ events ∧
    Forall2 (planned_row opts hash) chosen rows ∧
    Forall3 (planned_event now) chosen rows events ∧
    lines = zip_with plan_line chosen rows ∧
    NoDup (rr_id <$> removal_requests d') ∧
    Forall (λ r, status_of d' (rr_id r) = Some "PLANNED") rows ∧
    ∀ id, id < next_request_id d → request_state d' !! id = request_state d !! id.

Lemma plan_requests_ok opts hash now chosen w lines w' :
  ids_assigned (db w) → NoDup (rr_id <$> removal_requests (db w)) →
  mapM_db (plan_request opts hash now) chosen w = (Ok lines, w') →
  campaigns (db w') = campaigns (db w) ∧
  planned_all opts hash now chosen lines (db w) (db w').
Proof.
  revert w lines. induction chosen as [|sel chosen IH]; intros w lines Hids Hnd Hrun; simpl in Hrun.
  - inv_run. split; [done|]. exists [], []. rewrite !app_nil_r.
    split_and!; try done; constructor.
  - apply DB_bind_ok in Hrun as (line & w1 & Hrun1 & Hrun). inv_run.
    match goal with Hm : mapM_db _ _ _ = (Ok ?ls, _) |- _ => rename Hm into Hrun2, ls into lines' end.
    pose proof (assigned_requests _ Hids) as Hlt.
    apply plan_request_ok in Hrun1 as (Hids1 & Hc1 & r & e & Hr1 & He1 & Hrow & Hev & -> & Hid
      & Hnext & Hst & Hframe); [|done].
    apply IH in Hrun2 as (Hc2 & rows & events & Hr2 & He2 & Hrows & Hevs & -> & Hnd2 & Hsts & Hfr);
      [|done|].
    + split; [congruence|]. exists (r :: rows), (e :: events).
      rewrite Hr2, He2, Hr1, He1, <-!app_assoc. split_and!; try done.
      * by constructor.
      * by constructor.
      * by rewrite Hr2, Hr1, <-app_assoc in Hnd2.
      * constructor; [|done]. unfold status_of. rewrite Hfr by lia. apply Hst.
      * intros id Hlt2. rewrite Hfr by lia. apply Hframe. lia.
    + rewrite Hr1, fmap_app. apply NoDup_app. split; [done|]. split; [|apply NoDup_singleton].
      intros id (x & -> & Hx)%list_elem_of_fmap. simpl. rewrite list_elem_of_singleton.
      apply Hlt in Hx. lia.
Qed.

Lemma create_campaign_ok id kind notes w b w' :
  create_campaign id kind notes w = (Ok b, w') →
  (∃ c, c ∈ campaigns (db w') ∧ campaign_id c = id) ∧
  (∀ c, c ∈ campaigns (db w) → c ∈ campaigns (db w')) ∧
  ∃ l, db w' = set_campaigns l (db w).
Proof.
  intros Hrun. apply execute_now_ok in Hrun as (d & Hd & ->).
  destruct (existsb _ _) eqn:E; injection Hd as <- <-; simpl.
  - apply existsb_elem in E as (c & Hc & Heq%String.eqb_eq). split; [by exists c|].
    split; [done|]. exists (campaigns (db w)). by destruct (db w).
  - split; [eexists; split; [apply elem_of_app; right; by apply list_elem_of_singleton|done]|].
    split; [set_solver|by eexists].
Qed.

(** C33: a plan that succeeds makes a campaign with its id exist and creates, for
    each filtered broker with a channel, in order and up to the cap, exactly one
    request, one PLANNED event and one line of the result; the ids stay unique, the
    new requests are projected as PLANNED, the states of older requests stay. *)
Theorem plan_campaign_spec brokers hash opts now w result w' :
  ids_assigned (db w) → NoDup (rr_id <$> removal_requests (db w)) →
  plan_campaign brokers hash opts now w = (Ok result, w') →
  let filtered := filter_brokers brokers (plan_filter opts) in
  let selected := selected_brokers filtered in
  let chosen := truncate (po_max_brokers opts) selected in
  (∃ c, c ∈ campaigns (db w') ∧ campaign_id c = po_campaign_id opts) ∧
  ps_total_brokers result = Z.of_nat (List.length filtered) ∧
  ps_matched result = Z.of_nat (List.length selected) ∧
  ps_planned result = Z.of_nat (List.length chosen) ∧
  planned_all opts hash now chosen (ps_requests result) (db w) (db w').
Proof.
  intros Hids Hnd Hrun. cbv zeta. unfold plan_campaign in Hrun.
  apply DB_bind_ok in Hrun as (b & w1 & Hc & Hrun). apply lift_ok in Hc.
  apply create_campaign_ok in Hc as ((c & Hc & Hcid) & _ & l & Hdb).
  inv_run.
  match goal with Hm : mapM_db _ _ _ = _ |- _ => apply plan_requests_ok in Hm as (Hc2 & Hplan) end.
  - rewrite Hdb in Hplan. simpl. split; [exists c; by rewrite Hc2|]. split_and!; try done.
    destruct Hplan as (rows & events & _ & _ & Hrows & _ & -> & _).
    rewrite length_zip_with. apply Forall2_length in Hrows. lia.
  - rewrite Hdb. by destruct Hids; split.
  - by rewrite Hdb.
Qed.

Lemma truncate_length {A} max (l : list A) :
  Z.of_nat (List.length (truncate max l)) =
  if 0 <? max then Z.min max (Z.of_nat (List.length l)) else Z.of_nat (List.length l).
Proof.
  unfold truncate. destruct (Z.ltb_spec 0 max); simpl; [|done].
  destruct (Z.ltb_spec max (Z.of_nat (List.length l))); [rewrite length_take|]; lia.
Qed.
End planning.

(** The statutory period the tick falls back to is thirty days for every request
    planning creates: a request's jurisdiction is a country or region code of the
    registry, never one of the laws the forty-five day period is keyed by. *)
Theorem planned_statutory_days broker requested :
  jurisdiction_days (resolve_jurisdiction broker requested) = 30.
Proof.
  assert (Hname : ∀ j : Jurisdiction, jurisdiction_days (registry_name j) = 30) by by intros [].
  unfold resolve_jurisdiction. destruct (negb _ && _) eqn:E.
  - apply andb_true_iff in E as [_ E]. apply existsb_elem in E as (name & Hin & Heq).
    apply String.eqb_eq in Heq. subst name.
    apply list_elem_of_fmap in Hin as (j & -> & _). apply Hname.
  - destruct (br_jurisdictions broker) as [|j l]; [done|]. apply Hname.
Qed.

(* ------------------------------------------------------------------ *)
(** ** What executing a request or a batch does

    The outbox records the mails handed to the sender.  A request's mail is handed
    over at most once a run, its outcome is recorded with the projection, a dry run
    of a mail request touches nothing; a batch is bounded and total. *)

(** ** What statements leave alone *)

(** A part of the world that no statement reaches. *)
Class Aside {X} (f : World → X) := {
  aside_db : ∀ d w, f (with_db d w) = f w;
  aside_bump : ∀ w, f (bump w) = f w;
}.

#[export] Instance files_aside : Aside files.
Proof. by split. Qed.
#[export] Instance outbox_aside : Aside outbox.
Proof. by split. Qed.

Definition keeps {X E A} (f : World → X) (m : DB E A) : Prop := ∀ w, f (m w).2 = f w.

Section keeps.
Context {X} (f : World → X) `{!Aside f} `{Env}.

Lemma keeps_ret {E A} (a : A) : keeps f (mret a : DB E A).
Proof. done. Qed.

Lemma keeps_throw {E A} (e : E) : keeps f (throw (A:=A) e).
Proof. done. Qed.

Lemma keeps_of_result {E A} (r : result E A) : keeps f (of_result r).
Proof. done. Qed.

Lemma keeps_bind {E A B} (m : DB E A) (g : A → DB E B) :
  keeps f m → (∀ a, keeps f (g a)) → keeps f (m ≫= g).
Proof.
  intros Hm Hg w. specialize (Hm w). unfold mbind, DB_bind.
  destruct (m w) as [[a|e] w1]; simpl in *; [|done]. by rewrite Hg.
Qed.

Lemma keeps_lift {E F A} (h : E → F) (m : DB E A) : keeps f m → keeps f (lift h m).
Proof. intros Hm w. specialize (Hm w). unfold lift. by destruct (m w). Qed.

Lemma keeps_attempt {E F A} (m : DB E A) : keeps f m → keeps f (attempt m : DB F (result E A)).
Proof. intros Hm w. specialize (Hm w). unfold attempt. by destruct (m w). Qed.

Lemma keeps_execute_now {A} (g : Z → Db → result DbError (A * Db)) : keeps f (execute_now g).
Proof.
  intros w. unfold execute_now. destruct (fault _); [apply aside_bump|].
  destruct (g _ _) as [[a d]|e]; simpl; [rewrite aside_db|]; apply aside_bump.
Qed.

Lemma keeps_query {A} (g : Db → A) : keeps f (query g).
Proof. apply keeps_execute_now. Qed.

Lemma keeps_utc_now {E} : keeps f (utc_now : DB E Z).
Proof. intros w. apply aside_bump. Qed.

Lemma keeps_transaction_until {E A} (conv : DbError → E) (body : DB E (A * bool)) :
  keeps f body → keeps f (transaction_until conv body).
Proof.
  intros Hb w. unfold transaction_until. pose proof (keeps_query (λ _, ()) w) as Hq.
  change (query (λ _, ()) w) with (begin w) in Hq.
  destruct (begin w) as [[[]|e1] w1]; simpl in *; [|done]. specialize (Hb w1).
  destruct (body w1) as [[[a []]|e2] w2]; simpl in *; [|by rewrite aside_db, Hb..].
  pose proof (keeps_query (λ _, ()) w2) as Hc. change (query (λ _, ()) w2) with (commit w2) in Hc.
  destruct (commit w2) as [[[]|e3] w3]; simpl in *; [|rewrite aside_db]; congruence.
Qed.

Lemma keeps_transaction {E A} (conv : DbError → E) (body : DB E A) :
  keeps f body → keeps f (transaction conv body).
Proof.
  intros Hb w. unfold transaction. pose proof (keeps_query (λ _, ()) w) as Hq.
  change (query (λ _, ()) w) with (begin w) in Hq.
  destruct (begin w) as [[[]|e1] w1]; simpl in *; [|done]. specialize (Hb w1).
  destruct (body w1) as [[a|e2] w2]; simpl in *; [|by rewrite aside_db, Hb].
  pose proof (keeps_query (λ _, ()) w2) as Hc. change (query (λ _, ()) w2) with (commit w2) in Hc.
  destruct (commit w2) as [[[]|e3] w3]; simpl in *; [|rewrite aside_db]; congruence.
Qed.
End keeps.

(** Follows the shape of a computation. *)
Ltac keep :=
  repeat lazymatch goal with
  | |- keeps _ (mret _) => apply keeps_ret
  | |- keeps _ (throw _) => apply keeps_throw
  | |- keeps _ (of_result _) => apply keeps_of_result
  | |- keeps _ (_ ≫= _) => apply keeps_bind; [|intros ?]
  | |- keeps _ (lift _ _) => apply keeps_lift
  | |- keeps _ (attempt _) => apply keeps_attempt
  | |- keeps _ (transaction _ _) => apply keeps_transaction; [apply _|]
  | |- keeps _ (transaction_until _ _) => apply keeps_transaction_until; [apply _|]
  | |- keeps _ (execute_now _) => apply keeps_execute_now; apply _
  | |- keeps _ (query _) => apply keeps_query; apply _
  | |- keeps _ utc_now => apply keeps_utc_now; apply _
  end.

Section execution.
Context `{Chrono} `{SerdeJson} `{RustFmt} `{DbErrorFmt} `{PiiRegex} `{TasksDir}.
Context `{FloatFmt} `{Sha256} `{Env}.

Lemma append_and_project_tx_keeps {X} (f : World → X) `{!Aside f} r t p s at_ :
  keeps f (append_and_project_tx r t p s at_).
Proof.
  unfold append_and_project_tx, append_event_tx, upsert_state_tx, load_events, insert_event,
    replace_state, execute. keep.
Qed.

Lemma append_and_project_keeps {X} (f : World → X) `{!Aside f} r t p s at_ :
  keeps f (append_and_project r t p s at_).
Proof. apply keeps_transaction; [done|]. by apply append_and_project_tx_keeps. Qed.

Lemma write_file_outbox path contents : keeps outbox (write_file path contents).
Proof. intros w. unfold write_file. by destruct (fault _). Qed.

Lemma remove_file_outbox path : keeps outbox (remove_file path).
Proof. intros w. unfold remove_file. by destruct (fault _). Qed.

Lemma cleanup_snapshot_outbox path : keeps outbox (cleanup_snapshot path).
Proof. unfold cleanup_snapshot. destruct (is_empty path); keep. apply remove_file_outbox. Qed.

Lemma file_step_keeps {X} (f : World → X) `{!Aside f} : keeps f file_step.
Proof. intros w. unfold file_step. destruct (fault _); apply aside_bump. Qed.

Lemma store_snapshot_outbox dir html redacted now : keeps outbox (store_snapshot dir html redacted now).
Proof.
  unfold store_snapshot, ensure_tasks_dir, write_private. destruct (is_empty html); keep;
    try apply file_step_keeps, _. apply write_file_outbox.
Qed.

Lemma record_event_keeps {X} (f : World → X) `{!Aside f} r t p s now :
  keeps f (record_event r t p s now).
Proof.
  unfold record_event. destruct r as [r|]; [destruct (r =? 0)|]; keep.
  by apply append_and_project_tx_keeps.
Qed.

Lemma create_outbox opts profile now : keeps outbox (create opts profile now).
Proof.
  unfold create, insert_task. keep.
  match goal with |- keeps _ (match ?x with _ => _ end) => destruct x as [row|] end; keep.
  - apply store_snapshot_outbox.
  - match goal with |- keeps _ (match ?x with _ => _ end) => destruct x as [task_id|e] end; keep;
      [apply record_event_keeps, _| |apply cleanup_snapshot_outbox].
    match goal with |- keeps _ (match ?x with _ => _ end) => destruct x as [[]|e] end; keep.
    apply cleanup_snapshot_outbox.
Qed.

(** ** One request *)

(** Exactly one event of the type is appended for the request, and it is projected. *)
Definition recorded (t : EventType) (r now : Z) (d d' : Db) : Prop :=
  (∃ id rec payload,
     request_events d' = request_events d ++ [event_row id r now rec t payload System]) ∧
  projected d' r.

Lemma append_and_project_recorded r t p now w x w' :
  append_and_project r t p System now w = (Ok x, w') → recorded t r now (db w) (db w').
Proof.
  intros Hrun. apply transaction_ok in Hrun as (w2 & Hrun & ->).
  apply append_and_project_tx_tasks in Hrun as ([rec Hev] & Hp & _). split; [eauto|done].
Qed.

(** The mail of a request. *)
Definition request_mail (request : RemovalRequest) (payload : jmap) (p : Profile)
    : string * string * string :=
  (or_empty (str_field payload "endpoint"),
   "Data Deletion Request " +:+ em_dash +:+ " " +:+ rr_broker_id request,
   default_renderer (rr_template_id request) p (rr_broker_id request)).

Definition complete_profile (payload : jmap) (profile : ProfileSource) (p : Profile) : Prop :=
  profile = Ok (Some p) ∧ missing_fields p (required_fields payload) = [].

Definition answer_of (opts : ExecuteOpts) (mail : string * string * string)
    : option (result string jmap) :=
  (λ sender : EmailSender, sender mail.1.1 mail.1.2 mail.2) <$> xo_email_sender opts.

(** The outcomes of a mail request and what each leaves behind. *)
Definition email_outcome (request : RemovalRequest) (payload : jmap) (opts : ExecuteOpts)
    (profile : ProfileSource) (now : Z) (r : result ExecuteError jmap) (w w' : World) : Prop :=
  let untouched := db w' = db w ∧ outbox w' = outbox w in
  let mailed (a : result string jmap) :=
    ∃ p, complete_profile payload profile p ∧ xo_dry_run opts = false ∧
      answer_of opts (request_mail request payload p) = Some a ∧
      outbox w' = outbox w ++ [request_mail request payload p] in
  match r with
  | Ok _ =>
      if xo_dry_run opts then untouched ∧ ∃ p, complete_profile payload profile p
      else ∃ answer, mailed (Ok answer) ∧ recorded Sent (rr_id request) now (db w) (db w')
  | Err (EmailSend _ message) =>
      mailed (Err message) ∧ recorded SendFailed (rr_id request) now (db w) (db w')
  | Err (ExecuteProjection _) => (∃ a, mailed a) ∧ db w' = db w
  | Err _ => untouched
  end.

Lemma append_after_send r t p now (w w1 : World) e w' :
  db w1 = db w → lift ExecuteProjection (append_and_project r t p System now) w1 = (Err e, w') →
  ∃ x, e = ExecuteProjection x ∧ db w' = db w ∧ outbox w' = outbox w1.
Proof.
  intros Hdb. unfold lift.
  pose proof (append_and_project_keeps outbox r t p System now w1) as Ho.
  destruct (append_and_project r t p System now w1) as [[a|x] w2] eqn:Hrun; [done|].
  simpl. intros [= <- <-]. exists x. split; [done|]. split; [|done].
  apply transaction_err in Hrun. congruence.
Qed.
Lemma append_after_send_ok r t p now (w w1 : World) x w' :
  db w1 = db w → lift ExecuteProjection (append_and_project r t p System now) w1 = (Ok x, w') →
  recorded t r now (db w) (db w') ∧ outbox w' = outbox w1.
Proof.
  intros Hdb Hrun. apply lift_ok in Hrun. rewrite <-Hdb. split.
  - by eapply append_and_project_recorded.
  - pose proof (append_and_project_keeps outbox r t p System now w1) as Ho. by rewrite Hrun in Ho.
Qed.

Lemma execute_email_request_cases request payload opts profile now w :
  let (r, w') := execute_email_request request payload opts profile now w in
  email_outcome request payload opts profile now r w w'.
Proof.
  unfold execute_email_request, email_outcome, of_result. unfold mbind at 1, DB_bind at 1.
  destruct profile as [[p|]|message]; [|done|done]. cbn [map_err].
  unfold mbind at 1, DB_bind at 1. cbn [ok_or].
  destruct (missing_fields p (required_fields payload)) as [|m ms] eqn:Hmiss; [|done]. cbn [is_nil negb].
  destruct (xo_dry_run opts) eqn:Hdry; [by split; [|exists p]|].
  destruct (xo_email_sender opts) as [sender|] eqn:Hs; [|done].
  unfold mbind at 1, DB_bind at 1, send_mail.
  set (mail := request_mail request payload p).
  set (w1 := {| db := db w; files := _; outbox := _; step := _ |}).
  assert (Hmail : ∀ a, sender mail.1.1 mail.1.2 mail.2 = a →
    answer_of opts mail = Some a) by (intros a <-; unfold answer_of; by rewrite Hs).
  destruct (sender _ _ _) as [answer|message] eqn:Ha.
  - unfold mbind, DB_bind. destruct (lift _ _ w1) as [[x|e] w2] eqn:Hrun; cbn.
    + apply (append_after_send_ok _ _ _ _ w) in Hrun as [Hrec Ho]; [|done].
      exists answer. split; [|done]. exists p. fold mail. by rewrite Ho, (Hmail (Ok answer)).
    + apply (append_after_send _ _ _ _ w) in Hrun as (x & -> & Hdb & Ho); [|done].
      split; [|done]. exists (Ok answer), p. fold mail. by rewrite Ho, (Hmail (Ok answer)).
  - unfold mbind, DB_bind. destruct (lift _ _ w1) as [[x|e] w2] eqn:Hrun; cbn.
    + apply (append_after_send_ok _ _ _ _ w) in Hrun as [Hrec Ho]; [|done].
      split; [|done]. exists p. fold mail. by rewrite Ho, (Hmail (Err message)).
    + apply (append_after_send _ _ _ _ w) in Hrun as (x & -> & Hdb & Ho); [|done].
      split; [|done]. exists (Err message), p. fold mail. by rewrite Ho, (Hmail (Err message)).
Qed.

(** Every outcome of a mail request and what it leaves behind. A dry run returns
    the mail and touches nothing. A live run hands over exactly the request's mail,
    once, and records SENT or SEND_FAILED together with the projection; when that
    recording itself fails the mail is out and the store unchanged. Every other
    error comes before anything happened. *)
Theorem execute_email_request_spec request payload opts profile now w :
  let (r, w') := execute_email_request request payload opts profile now w in
  email_outcome request payload opts profile now r w w'.
Proof. apply execute_email_request_cases. Qed.
End execution.

(** ** Sanitizing *)

Fixpoint char_count (s : string) : nat :=
  match s with
  | "" => 0
  | String c s' => if byte_in 128 191 c then char_count s' else S (char_count s')
  end%nat.

Lemma take_chars_count n s : (char_count (take_chars n s) ≤ n)%nat.
Proof.
  revert n. induction s as [|c s IH]; intros n; [simpl; lia|]. simpl.
  destruct (byte_in 128 191 c) eqn:E; [|destruct n as [|n]; [simpl; lia|]];
    simpl; rewrite E; [done|]. specialize (IH n). lia.
Qed.

Lemma take_chars_prefix n s : ∃ t, s = take_chars n s +:+ t.
Proof.
  revert n. induction s as [|c s IH]; intros n; [by exists ""|]. simpl.
  destruct (byte_in 128 191 c).
  - destruct (IH n) as [t Ht]. exists t. simpl. by rewrite <-Ht.
  - destruct n as [|n]; [by exists (String c s)|].
    destruct (IH n) as [t Ht]. exists t. simpl. by rewrite <-Ht.
Qed.

Lemma contains_prefix v u t : contains v u = true → contains v (u +:+ t) = true.
Proof.
  rewrite !contains_spec. intros (x & y & ->). exists x, (y +:+ t). by rewrite !string_app_assoc.
Qed.

(** The keys the sanitizer knows, and the length of its texts. *)
Definition text_limit (k : string) : option nat :=
  if str_in k ["code"; "reason"; "status"; "broker_id"; "broker_name"; "step"; "failed_field"]
  then Some 200%nat
  else if str_in k ["instructions"; "error"; "hint"] then Some 500%nat
  else if str_in k ["url"; "final_url"] then Some 2048%nat
  else None.

Definition ALLOWED : list string :=
  ["success"; "dry_run"; "task_id"; "step_index"; "total_steps"; "duration_ms"; "skipped_fields";
   "code"; "reason"; "status"; "broker_id"; "broker_name"; "step"; "failed_field";
   "instructions"; "error"; "hint"; "url"; "final_url"].

Section sanitize.
Context `{RustFmt} `{PiiRegex}.

Definition sanitize_step (profile : option Profile) (result : jmap) (kv : string * value) : jmap :=
  match sanitize_entry profile kv.1 kv.2 with
  | Some v => map_insert kv.1 v result
  | None => result
  end.

Lemma sanitize_fold_get profile raw acc k v :
  map_get k (fold_left (sanitize_step profile) raw acc) = Some v →
  map_get k acc = Some v ∨ ∃ v0, (k, v0) ∈ raw ∧ sanitize_entry profile k v0 = Some v.
Proof.
  revert acc. induction raw as [|[k' v'] raw IH]; intros acc; simpl; [by left|].
  intros Hk. apply IH in Hk as [Hk|(v0 & Hin & Hv)]; [|right; exists v0; split; [set_solver|done]].
  unfold sanitize_step in Hk. simpl in Hk.
  destruct (sanitize_entry profile k' v') as [x|] eqn:E; [|by left].
  destruct (decide (k = k')) as [<-|Hne]; [|rewrite map_get_insert_ne in Hk by done; by left].
  rewrite map_get_insert_eq in Hk. injection Hk as ->. right. exists v'. set_solver.
Qed.

Lemma sanitize_get profile raw k v :
  map_get k (sanitize_web_form_result raw profile) = Some v →
  ∃ v0, (k, v0) ∈ raw ∧ sanitize_entry profile k v0 = Some v.
Proof. intros Hk. by apply (sanitize_fold_get profile raw []) in Hk as [Hk|Hk]. Qed.

Lemma sanitize_entry_allowed profile k v0 v : sanitize_entry profile k v0 = Some v → k ∈ ALLOWED.
Proof.
  unfold sanitize_entry. intros Hv.
  repeat match type of Hv with context [if str_in k ?l then _ else _] =>
    destruct (str_in k l) eqn:?;
      [match goal with Hin : str_in k l = true |- _ =>
         apply str_in_spec in Hin; revert Hin; clear; unfold ALLOWED; set_solver end|] end.
  done.
Qed.

Lemma sanitize_entry_text profile k v0 v limit :
  sanitize_entry profile k v0 = Some v → text_limit k = Some limit →
  v = JString (bounded_redacted v0 profile limit).
Proof.
  unfold sanitize_entry, text_limit.
  destruct (str_in k ["success"; "dry_run"]) eqn:E1.
  { apply str_in_spec in E1. intros _. repeat (apply elem_of_cons in E1 as [->|E1]; [done|]).
    by apply elem_of_nil in E1. }
  destruct (str_in k ["task_id"; _; _; _; _]) eqn:E2.
  { apply str_in_spec in E2. intros _. repeat (apply elem_of_cons in E2 as [->|E2]; [done|]).
    by apply elem_of_nil in E2. }
  repeat match goal with |- context [if str_in k ?l then _ else _] => destruct (str_in k l) end;
    congruence.
Qed.

(** Whatever a web form run answered, the kept entries have keys of the
    allowlist, their texts are cut to their key's limit in characters, and they
    contain no value of the identity profile. *)
Theorem sanitize_web_form_result_spec raw profile k v :
  map_get k (sanitize_web_form_result raw profile) = Some v →
  k ∈ ALLOWED ∧
  ∀ limit, text_limit k = Some limit →
    ∃ s, v = JString s ∧ (char_count s ≤ limit)%nat ∧
      ∀ p value marker, profile = Some p → (value, marker) ∈ profile_values p →
        redactable value → contains value s = false.
Proof.
  intros (v0 & _ & Hv)%sanitize_get. split; [by eapply sanitize_entry_allowed|].
  intros limit Hl. eexists. split; [by eapply sanitize_entry_text|].
  split; [apply take_chars_count|]. intros p value marker -> Hin Hr.
  unfold bounded_redacted. set (text := redact_identity_values _ _).
  destruct (contains value (take_chars limit text)) eqn:Hc; [|done]. exfalso.
  destruct (take_chars_prefix limit text) as [t Ht].
  apply (contains_prefix value _ t) in Hc. rewrite <-Ht in Hc.
  assert (contains value text = false); [|congruence].
  apply (redact_fold_removes value marker); [done|apply profile_values_markers|done].
Qed.
End sanitize.
