(* ===== verification/BatchFacts.v ===== *)
(** * BatchFacts: web-form requests and the batch *)
From S2P Require Import Prelude.
From S2P Require Import Text.
From S2P Require Import Json.
From S2P Require Import TimeUtil.
From S2P Require Import Types.
From S2P Require Import Identity.
From S2P Require Import Registry.
From S2P Require Import RegistryValidate.
From S2P Require Import Database.
From S2P Require Import Model.
From S2P Require Import Repository.
From S2P Require Import Projection.
From S2P Require Import ProjectionFacts.
From S2P Require Import ManualTasks.
From S2P Require Import ManualTasksFacts.
From S2P Require Import Campaign.
From S2P Require Import CampaignFacts.

Lemma DB_bind_run {E A B} (m : DB E A) (f : A → DB E B) w :
  (m ≫= f) w = match m w with (Ok a, w1) => f a w1 | (Err e, w1) => (Err e, w1) end.
Proof. done. Qed.

Lemma lift_run {E F A} (f : E → F) (m : DB E A) w :
  lift f m w = let (r, w') := m w in (map_err f r, w').
Proof. done. Qed.

Section batch.
Context `{Chrono} `{SerdeJson} `{RustFmt} `{DbErrorFmt} `{PiiRegex} `{TasksDir}.
Context `{FloatFmt} `{Sha256} `{Env}.

(** ** Web forms *)

(** Whether the broker is known and has an enabled web form. *)
Definition form_available (brokers : list Broker) (id : string) : bool :=
  match List.find (λ b, String.eqb (br_id b) id) brokers with
  | Some b => match first_some active_form (br_opt_out b) with Some _ => true | None => false end
  | None => false
  end.

Definition form_raw (brokers : list Broker) (id : string) (dry_run : bool) : jmap :=
  match web_form_preview brokers id dry_run with Ok raw | Err raw => raw end.

Lemma sanitized_preview brokers id dry_run profile :
  let result := sanitize_web_form_result (form_raw brokers id dry_run) profile in
  default false (map_get "success" result ≫= as_bool) = dry_run && form_available brokers id ∧
  map_get "task_id" result = None.
Proof.
  unfold form_raw, web_form_preview, form_available.
  destruct (List.find _ brokers) as [broker|]; [|by destruct dry_run].
  destruct (first_some active_form _) as [[url spec]|]; by destruct dry_run.
Qed.

(** The manual task and the failure event of a form that was not submitted. *)
Definition form_task (request_id : Z) (broker_name : string) (opts : ExecuteOpts)
    (profile : option Profile) : CreateOpts :=
  let raw := form_raw (xo_brokers opts) broker_name (xo_dry_run opts) in
  let result := sanitize_web_form_result raw profile in
  let reason :=
    match str_field result "reason" with
    | Some reason => if is_empty reason then reason_for_code (map_get "code" result) else reason
    | None => reason_for_code (map_get "code" result)
    end in
  form_task_opts request_id broker_name (result_url result) reason
    (or_empty (str_field raw "error")).

Definition web_form_outcome (request_id : Z) (broker_name : string) (opts : ExecuteOpts)
    (profile : ProfileSource) (now : Z) (r : result ExecuteError jmap) (w w' : World) : Prop :=
  let previewed := xo_dry_run opts && form_available (xo_brokers opts) broker_name in
  let task_created w1 :=
    ∃ p t, profile = Ok p ∧ created (form_task request_id broker_name opts p) p now t w w1 in
  match r with
  | Ok _ =>
      if previewed then recorded Sent request_id now (db w) (db w')
      else ∃ w1, task_created w1 ∧ recorded SendFailed request_id now (db w1) (db w')
  | Err (ExecuteProjection _) =>
      if previewed then db w' = db w else ∃ w1, task_created w1 ∧ db w' = db w1
  | Err _ => db w' = db w
  end.

Lemma record_form_failure_cases request_id broker_name opts p now w :
  let raw := form_raw (xo_brokers opts) broker_name (xo_dry_run opts) in
  let result := sanitize_web_form_result raw p in
  xo_dry_run opts && form_available (xo_brokers opts) broker_name = false →
  match record_form_failure request_id broker_name raw result p now w with
  | (Ok _, w') => ∃ w1 t, created (form_task request_id broker_name opts p) p now t w w1 ∧
                    recorded SendFailed request_id now (db w1) (db w')
  | (Err (ExecuteProjection _), w') =>
      ∃ w1 t, created (form_task request_id broker_name opts p) p now t w w1 ∧ db w' = db w1
  | (Err _, w') => db w' = db w
  end.
Proof.
  cbv zeta. intros _.
  destruct (sanitized_preview (xo_brokers opts) broker_name (xo_dry_run opts) p) as [_ Htask].
  unfold record_form_failure. rewrite Htask. fold (form_task request_id broker_name opts p).
  rewrite !DB_bind_run, lift_run.
  pose proof (create_cases (form_task request_id broker_name opts p) p now w) as Hcreate.
  destruct (create (form_task request_id broker_name opts p) p now w) as [[t|e] w1]; cbn;
    [|done]. rewrite DB_bind_run.
  destruct (lift ExecuteProjection _ w1) as [[x|e] w2] eqn:Hrun; cbn.
  - apply (append_after_send_ok _ _ _ _ w1) in Hrun as [Hrec _]; [|done]. by exists w1, t.
  - apply (append_after_send _ _ _ _ w1) in Hrun as (x & -> & Hdb & _); [|done]. by exists w1, t.
Qed.

Lemma execute_web_form_request_cases request_id broker_name opts profile now w :
  let (r, w') := execute_web_form_request request_id broker_name opts profile now w in
  web_form_outcome request_id broker_name opts profile now r w w'.
Proof.
  unfold execute_web_form_request, web_form_outcome. rewrite DB_bind_run. unfold of_result.
  destruct profile as [p|message]; [|done]. cbn [map_err].
  fold (form_raw (xo_brokers opts) broker_name (xo_dry_run opts)).
  destruct (sanitized_preview (xo_brokers opts) broker_name (xo_dry_run opts) p) as [-> _].
  rewrite DB_bind_run. destruct (xo_dry_run opts && _) eqn:Hprev.
  - rewrite DB_bind_run. destruct (lift ExecuteProjection _ w) as [[x|e] w2] eqn:Hrun; cbn.
    + apply (append_after_send_ok _ _ _ _ w) in Hrun as [Hrec _]; [done|done].
    + by apply (append_after_send _ _ _ _ w) in Hrun as (x & -> & Hdb & _).
  - pose proof (record_form_failure_cases request_id broker_name opts p now w Hprev) as Hf.
    destruct (record_form_failure _ _ _ _ _ _ w) as [[x|e] w2]; cbn.
    + destruct Hf as (w1 & t & Hc & Hr). exists w1. split; [by exists p, t|done].
    + destruct e; try done. destruct Hf as (w1 & t & Hc & Hr). exists w1. split; [by exists p, t|done].
Qed.

(** Every outcome of a web-form request. The dry run of a broker with an enabled
    form records SENT; every other completed run creates, or finds, the manual task
    for the form and then records SEND_FAILED; an error leaves the store as it was
    or with just that task. *)
Theorem execute_web_form_request_spec request_id broker_name opts profile now w :
  let (r, w') := execute_web_form_request request_id broker_name opts profile now w in
  web_form_outcome request_id broker_name opts profile now r w w'.
Proof. apply execute_web_form_request_cases. Qed.

Lemma execute_web_form_request_outbox request_id broker_name opts profile now :
  keeps outbox (execute_web_form_request request_id broker_name opts profile now).
Proof.
  unfold execute_web_form_request, record_form_failure. keep.
  destruct (default _ _); keep.
  - apply append_and_project_keeps, _.
  - match goal with |- keeps _ (if ?c then _ else _) => destruct c end; keep. apply create_outbox.
  - apply append_and_project_keeps, _.
Qed.

(** ** One request, either channel *)

Definition found (id : Z) (d : Db) : option RemovalRequest :=
  List.find (λ r, rr_id r =? id) (removal_requests d).

(** The mail part of an outcome. *)
Definition mail_effect (opts : ExecuteOpts) (q : option RemovalRequest) (w w' : World) : Prop :=
  outbox w' = outbox w ∨
  ∃ mail r, outbox w' = outbox w ++ [mail] ∧ xo_dry_run opts = false ∧
    q = Some r ∧ rr_channel r ≠ "web_form" ∧ mail.1.2 = 
      "Data Deletion Request " +:+ em_dash +:+ " " +:+ rr_broker_id r.

Lemma email_outcome_mail request payload opts profile now r w w' :
  rr_channel request ≠ "web_form" →
  email_outcome request payload opts profile now r w w' → mail_effect opts (Some request) w w'.
Proof.
  intros Hch. unfold email_outcome, mail_effect.
  destruct r as [out|e]; [destruct (xo_dry_run opts)|destruct e]; naive_solver.
Qed.

Lemma execute_request_mail id opts profile now w :
  mail_effect opts (found id (db w)) w (execute_request id opts profile now w).2.
Proof.
  unfold execute_request. rewrite DB_bind_run, lift_run.
  destruct (get_removal_request id w) as [[q|e] w1] eqn:Hq; cbn.
  2:{ left. pose proof (keeps_query outbox
        (λ d, List.find (λ r, rr_id r =? id) (removal_requests d)) w) as Hk.
      unfold get_removal_request in Hq. by rewrite Hq in Hk. }
  apply query_ok in Hq as [Hq ->]. change (q = found id (db w)) in Hq. rewrite <-Hq.
  destruct q as [request|]; [|by left].
  destruct (String.eqb_spec (if is_empty (rr_channel request) then "email" else rr_channel request)
    "web_form") as [Hch|Hch].
  - left. by rewrite execute_web_form_request_outbox.
  - assert (Hne : rr_channel request ≠ "web_form") by (intros Heq; by rewrite Heq in Hch).
    rewrite DB_bind_run, lift_run.
    destruct (get_events id 0 (bump w)) as [[events|e] w2] eqn:Hev; cbn.
    + apply query_ok in Hev as [_ ->].
      set (payload := match last events with Some e => er_payload e | None => [] end).
      pose proof (execute_email_request_cases request payload opts profile now (bump (bump w))) as Hc.
      destruct (execute_email_request _ _ _ _ _ _) as [r w'].
      by apply email_outcome_mail in Hc.
    + left. pose proof (keeps_query outbox (λ d, omap decode_event
        (ordered_events (λ e, (ev_request_id e =? id)
           && (if 0 <? 0 then 0 <? ev_id e else true)) d)) (bump w)) as Hk.
      unfold get_events in Hev. by rewrite Hev in Hk.
Qed.

(** A dry run of a request hands out no mail, and for a request that is not a
    web form it leaves every table and file as it was, whatever the outcome. *)
Theorem execute_request_dry_run id opts profile now w :
  xo_dry_run opts = true →
  let w' := (execute_request id opts profile now w).2 in
  outbox w' = outbox w ∧
  ((∀ r, found id (db w) = Some r → rr_channel r ≠ "web_form") → db w' = db w).
Proof.
  intros Hdry. cbv zeta. split.
  { destruct (execute_request_mail id opts profile now w) as [?|(? & ? & ? & ? & _)];
      [done|congruence]. }
  intros Hch. unfold execute_request. rewrite DB_bind_run, lift_run.
  pose proof (query_read_only (λ d, List.find (λ r, rr_id r =? id) (removal_requests d)) w) as Hk.
  fold (get_removal_request id) in Hk.
  destruct (get_removal_request id w) as [[q|e] w1] eqn:Hq; cbn in *; [|done].
  apply query_ok in Hq as [Hq ->]. change (q = found id (db w)) in Hq.
  destruct q as [request|]; [|done]. symmetry in Hq. apply Hch in Hq.
  destruct (String.eqb_spec (if is_empty (rr_channel request) then "email" else rr_channel request)
    "web_form") as [Heq|_]; [destruct (is_empty _); done|].
  rewrite DB_bind_run, lift_run.
  pose proof (query_read_only (λ d, omap decode_event (ordered_events (λ e, (ev_request_id e =? id)
    && (if 0 <? 0 then 0 <? ev_id e else true)) d)) (bump w)) as Hk2.
  fold (get_events id 0) in Hk2.
  destruct (get_events id 0 (bump w)) as [[events|e] w2]; cbn in *; [|done].
  match goal with |- context [execute_email_request _ ?p _ _ _ _] =>
    pose proof (execute_email_request_cases request p opts profile now w2) as Hc end.
  destruct (execute_email_request _ _ _ _ _ _) as [r w']. unfold email_outcome in Hc. cbn.
  rewrite Hdry in Hc. destruct r as [out|[]]; naive_solver congruence.
Qed.

(** ** The batch *)

Lemma fold_insert_get k (l acc : jmap) :
  k ∉ keys l → map_get k (fold_left (λ out kv, map_insert kv.1 kv.2 out) l acc) = map_get k acc.
Proof.
  revert acc. induction l as [|[k' v'] l IH]; intros acc Hk; simpl; [done|].
  unfold keys in *. simpl in Hk. apply not_elem_of_cons in Hk as [Hne Hk].
  rewrite IH by done. by rewrite map_get_insert_ne.
Qed.

Lemma sanitize_no_request_id raw p : "request_id" ∉ keys (sanitize_web_form_result raw p).
Proof.
  rewrite <-map_get_None. destruct (map_get _ _) as [v|] eqn:E; [|done]. exfalso.
  apply sanitize_get in E as (v0 & _ & Hv). apply sanitize_entry_allowed in Hv.
  revert Hv. unfold ALLOWED. by rewrite !elem_of_cons, elem_of_nil; intuition discriminate.
Qed.

Lemma record_form_failure_request_id id broker raw p now w m w' :
  record_form_failure id broker raw (sanitize_web_form_result raw p) p now w = (Ok m, w') →
  "request_id" ∉ keys m.
Proof.
  unfold record_form_failure. intros Hrun. inv_run.
  rewrite <-map_get_None. destruct a as [task|]; [rewrite map_get_insert_ne by done|];
    rewrite map_get_None; apply sanitize_no_request_id.
Qed.

Lemma execute_web_form_request_id id broker opts profile now w m w' :
  execute_web_form_request id broker opts profile now w = (Ok m, w') →
  map_get "request_id" m = Some (jint id).
Proof.
  unfold execute_web_form_request. intros Hrun.
  apply DB_bind_ok in Hrun as (p & w1 & _ & Hrun).
  apply DB_bind_ok in Hrun as (result & w2 & Hres & Hrun). apply mret_ok in Hrun as [<- _].
  rewrite fold_insert_get; [done|]. destruct (default _ _).
  - inv_run. apply sanitize_no_request_id.
  - by eapply record_form_failure_request_id.
Qed.

Lemma execute_email_request_id request payload opts profile now w m w' :
  execute_email_request request payload opts profile now w = (Ok m, w') →
  map_get "request_id" m = Some (jint (rr_id request)).
Proof.
  unfold execute_email_request. intros Hrun.
  apply DB_bind_ok in Hrun as (p0 & w1 & _ & Hrun). apply DB_bind_ok in Hrun as (p & w2 & _ & Hrun).
  destruct (negb _); [done|]. destruct (xo_dry_run opts); [by apply mret_ok in Hrun as [<- _]|].
  destruct (xo_email_sender opts) as [sender|]; [|done].
  apply DB_bind_ok in Hrun as ([answer|message] & w3 & _ & Hrun); inv_run; done.
Qed.

Lemma execute_request_id id opts profile now w m w' :
  execute_request id opts profile now w = (Ok m, w') → map_get "request_id" m = Some (jint id).
Proof.
  unfold execute_request. intros Hrun. apply DB_bind_ok in Hrun as (q & w1 & Hq & Hrun).
  apply lift_ok in Hq. apply query_ok in Hq as [Hq ->].
  destruct q as [request|]; [|done]. destruct (String.eqb _ _).
  - by apply execute_web_form_request_id in Hrun.
  - apply DB_bind_ok in Hrun as (events & w2 & _ & Hrun).
    apply execute_email_request_id in Hrun. symmetry in Hq. apply find_some in Hq as [_ Hid].
    apply Z.eqb_eq in Hid. by rewrite <-Hid.
Qed.

(** The result of one row of the batch. *)
Definition result_for (row : RemovalRequestRow) (v : value) : Prop :=
  ∃ m, v = JObject m ∧ map_get "request_id" m = Some (jint (rr_id (rw_request row))).

Lemma execute_captured_total opts profile now row w :
  ∃ v w', execute_captured opts profile now row w = (Ok v, w') ∧ result_for row v ∧
    ∃ mails, outbox w' = outbox w ++ mails ∧ (List.length mails ≤ 1)%nat ∧
      (xo_dry_run opts = true → mails = []).
Proof.
  unfold execute_captured. rewrite DB_bind_run. unfold attempt.
  pose proof (execute_request_mail (rr_id (rw_request row)) opts profile now w) as Hm.
  destruct (execute_request _ opts profile now w) as [r w'] eqn:Hrun. cbn in *.
  eexists _, w'. split; [done|]. split.
  - destruct r as [m|e]; eexists; (split; [done|]); [by eapply execute_request_id|done].
  - destruct Hm as [->|(mail & q & -> & Hd & _)]; [exists []|exists [mail]].
    + rewrite app_nil_r. split_and!; [done|simpl; lia|done].
    + split_and!; [done|simpl; lia|congruence].
Qed.

Lemma execute_all_total opts profile now rows w :
  ∃ vs w', mapM_db (execute_captured opts profile now) rows w = (Ok vs, w') ∧
    Forall2 result_for rows vs ∧
    ∃ mails, outbox w' = outbox w ++ mails ∧ (List.length mails ≤ List.length rows)%nat ∧
      (xo_dry_run opts = true → mails = []).
Proof.
  revert w. induction rows as [|row rows IH]; intros w; simpl.
  - exists [], w. split; [done|]. split; [constructor|]. exists []. by rewrite app_nil_r.
  - destruct (execute_captured_total opts profile now row w)
      as (v & w1 & Hrun & Hv & mails & Ho & Hl & Hd).
    destruct (IH w1) as (vs & w2 & Hrun2 & Hvs & mails2 & Ho2 & Hl2 & Hd2).
    exists (v :: vs), w2. rewrite DB_bind_run, Hrun, DB_bind_run, Hrun2. split; [done|].
    split; [by constructor|]. exists (mails ++ mails2). rewrite Ho2, Ho, <-app_assoc, length_app.
    split_and!; [done|lia|]. intros Hdry. by rewrite Hd, Hd2.
Qed.

(** The planned requests of a campaign, oldest first. *)
Definition planned_requests (campaign_id : string) (d : Db) : list RemovalRequestRow :=
  order_by (λ r, rr_created_at (rw_request r))
    (filter (λ r, String.eqb (rr_campaign_id (rw_request r)) campaign_id
       && opt_filter (Some "PLANNED") (rw_current_status r) = true) (left_join d)).

Lemma clamp_batch_range size : 1 ≤ clamp_batch size ≤ BATCH_LIMIT.
Proof.
  unfold clamp_batch, BATCH_LIMIT. destruct (Z.ltb_spec 10 size), (Z.leb_spec size 0); lia.
Qed.

Lemma list_planned campaign_id limit d :
  0 ≤ limit →
  sql_limit (Some limit) None (order_by (λ r, rr_created_at (rw_request r))
    (filter (λ r,
      opt_filter (Some campaign_id) (Some (rr_campaign_id (rw_request r)))
      && opt_filter (Some "PLANNED") (rw_current_status r)
      && opt_filter None (Some (rr_broker_id (rw_request r))) = true) (left_join d))) =
  take (Z.to_nat limit) (planned_requests campaign_id d).
Proof.
  intros Hl. unfold sql_limit, planned_requests. destruct (Z.ltb_spec limit 0); [lia|].
  do 2 f_equal. apply list_filter_iff. intros r. simpl. by rewrite andb_true_r.
Qed.

(** A batch takes the oldest planned requests of its campaign, at most ten, and
    fails only when reading them fails, before anything was done. Otherwise it
    returns one result for every request of the batch, in order, each carrying the
    request's id, however many of them failed; it hands out at most one mail per
    request, and none in a dry run. *)
Theorem execute_campaign_spec campaign_id opts profile size now w :
  match execute_campaign campaign_id opts profile size now w with
  | (Err e, w') => (∃ d, e = ExecuteDatabase d) ∧ db w' = db w ∧ outbox w' = outbox w
  | (Ok out, w') =>
      ∃ batch results mails,
        batch = take (Z.to_nat (clamp_batch size)) (planned_requests campaign_id (db w)) ∧
        1 ≤ clamp_batch size ≤ BATCH_LIMIT ∧
        Forall2 result_for batch results ∧
        out = go_map_order (JObject
          [("campaign_id", JString campaign_id);
           ("total_planned", jint (Z.of_nat (List.length (planned_requests campaign_id (db w)))));
           ("batch_size", jint (Z.of_nat (List.length batch))); ("results", JArray results)]) ∧
        outbox w' = outbox w ++ mails ∧ (List.length mails ≤ List.length batch)%nat ∧
        (xo_dry_run opts = true → mails = [])
  end.
Proof.
  pose proof (clamp_batch_range size) as Hsize.
  unfold execute_campaign. rewrite DB_bind_run, lift_run.
  unfold count_removal_requests, list_removal_requests, query, execute, execute_now at 1.
  destruct (fault (step w)); [cbn; eauto|]. cbn [map_err]. rewrite DB_bind_run, lift_run.
  unfold execute_now. cbn [step with_db bump db]. destruct (fault (S (step w))); [cbn; eauto|].
  cbn [map_err lo_limit lo_offset lo_campaign_id lo_status lo_broker_id].
  rewrite list_planned by lia. rewrite DB_bind_run.
  set (batch := take _ _).
  match goal with |- context [mapM_db (execute_captured opts profile now) batch ?w1] =>
    destruct (execute_all_total opts profile now batch w1)
      as (results & w' & -> & Hres & mails & Ho & Hl & Hd) end.
  exists batch, results, mails. cbn in Ho. split; [done|]. split; [done|]. split; [done|].
  split; [|by split_and!].
  cbn. unfold planned_requests, order_by. by rewrite sort_by_length.
Qed.
End batch.

(* ------------------------------------------------------------------ *)
(** ** Tasks, planning and execution at concrete inputs *)

#[local] Existing Instances calendar compact_json quiet.
#[local] Instance fmt : RustFmt := {| debug_str s := s |}.
#[local] Instance dbfmt : DbErrorFmt := {| db_error_str _ := "database error" |}.
#[local] Instance no_regex : PiiRegex := {| replace_emails s _ := s; replace_phones s _ := s |}.
#[local] Instance dir : TasksDir := {| env_data_dir := Some "~/data"; env_home := Some "/home/jane" |}.
#[local] Instance hash : Sha256 := {| sha256_hex s := s |}.
#[local] Instance floats : FloatFmt := {| f64_display _ := "0"; f64_exp _ := ("0", 0) |}.

Definition jane : Profile := {|
  full_name := "Jane Roe"; name_variants := ["J. Roe"]; date_of_birth := Some "1990-01-02";
  addresses := []; email_addresses := ["jane@example.org"]; phone_numbers := [];
  jurisdictions := ["EU"] |}.

Lemma jane_redactable : redactable "Jane Roe".
Proof.
  split; [discriminate|]. split; [reflexivity|]. unfold MARKERS.
  repeat apply Forall_cons_2; try apply Forall_nil_2; reflexivity.
Qed.

Lemma redact_identity_values_complete_witness :
  redact_identity_values "Dear Jane Roe, J. Roe" (Some jane) = "Dear [REDACTED-NAME], [REDACTED-NAME]" ∧
  contains "Jane Roe" (redact_identity_values "Dear Jane Roe, J. Roe" (Some jane)) = false.
Proof.
  split; [vm_compute; reflexivity|].
  apply (redact_identity_values_complete "Dear Jane Roe, J. Roe" jane "Jane Roe" "[REDACTED-NAME]").
  - cbn. rewrite !elem_of_cons. tauto.
  - discriminate.
  - reflexivity.
  - apply jane_redactable.
Defined.

(** ** Planning *)

Definition mail_channel : Channel := EmailChannel "privacy@acme.example" {|
  ch_template := Some GdprArt17; ch_locale := Some "de"; ch_required_fields := None;
  ch_supports_suppression := None; ch_expected_response_days := Some 14; ch_disabled := None |}.

Definition form_channel : Channel := WebFormChannel "https://globex.example/optout"
  {| steps := []; timeout_seconds := None; rate_limit_delay := None; headless := None |} {|
  ch_template := None; ch_locale := None; ch_required_fields := None;
  ch_supports_suppression := None; ch_expected_response_days := None; ch_disabled := None |}.

Definition broker_with (id : string) (channels : list Channel) : Broker := {|
  br_id := id; br_name := id; br_website := "https://" +:+ id +:+ ".example";
  br_category := PeopleSearch; br_jurisdictions := [Us; Eu]; br_laws := [Gdpr; Ccpa];
  br_data_sensitivity := 3; br_priority := High; br_opt_out := channels; br_verification := None;
  br_disabled := None; br_added_date := None; br_source := None; br_status := Active;
  br_notes := None |}.

Definition brokers : list Broker :=
  [broker_with "acme" [mail_channel]; broker_with "empty" []; broker_with "globex" [form_channel];
   broker_with "initech" [mail_channel]].

Definition plan_opts : PlanOpts := {|
  po_campaign_id := "c1"; po_jurisdiction := "EU"; po_law := ""; po_priority := "";
  po_category := ""; po_status := ""; po_include_inactive := false; po_include_disabled := false;
  po_max_brokers := 2; po_notes := "first" |}.

Definition plan_run := Eval vm_compute in plan_campaign brokers "" plan_opts noon start.
Definition planned : World := plan_run.2.

Lemma start_assigned : ids_assigned (db start).
Proof. split; intros x Hx; by apply elem_of_nil in Hx. Qed.

Lemma plan_campaign_spec_witness :
  ∃ result, plan_run = (Ok result, planned) ∧
    (ps_total_brokers result, ps_matched result, ps_planned result) = (4, 3, 2) ∧
    planned_all plan_opts "" noon
      (truncate 2 (selected_brokers (filter_brokers brokers (plan_filter plan_opts))))
      (ps_requests result) (db start) (db planned).
Proof.
  eexists. split; [reflexivity|]. split; [reflexivity|].
  apply (plan_campaign_spec brokers "" plan_opts noon start _ planned start_assigned (NoDup_nil_2 (A:=Z))).
  vm_compute. reflexivity.
Defined.

(** ** Execution *)

Definition stub_sender : EmailSender := λ to _ _,
  if is_empty to then Err "no recipient" else Ok [("message_id", JString "m1")].

Definition run_opts (dry : bool) : ExecuteOpts := {|
  xo_account := "main"; xo_dry_run := dry; xo_email_sender := Some stub_sender;
  xo_brokers := brokers |}.

Definition who : ProfileSource := Ok (Some jane).

Lemma execute_request_dry_run_witness :
  ∃ r, execute_request 1 (run_opts true) who noon planned =
         (Ok r, (execute_request 1 (run_opts true) who noon planned).2) ∧
    outbox (execute_request 1 (run_opts true) who noon planned).2 = [] ∧
    db (execute_request 1 (run_opts true) who noon planned).2 = db planned.
Proof.
  eexists. split; [vm_compute; reflexivity|].
  destruct (execute_request_dry_run 1 (run_opts true) who noon planned eq_refl) as [Ho Hdb].
  split; [exact Ho|]. apply Hdb. intros r. vm_compute. intros [= <-]. vm_compute. discriminate.
Defined.

(** A live batch sends the first request's mail and leaves a task for the second. *)
Example batch_runs :
  let '(r, w) := execute_campaign "c1" (run_opts false) who 0 noon planned in
  (outbox w).*1.*1 = ["privacy@acme.example"] ∧
  tk_reason <$> manual_tasks (db w) = ["dynamic_form"] ∧
  status_of (db w) 1 = Some "AWAITING_ACK" ∧ status_of (db w) 2 = Some "SEND_FAILED".
Proof. vm_compute. split_and!; reflexivity. Qed.

(** A dry run of the web form is recorded as sent. *)
Example form_dry_run_is_sent :
  let w := (execute_request 2 (run_opts true) who noon planned).2 in
  status_of (db w) 2 = Some "AWAITING_ACK".
Proof. vm_compute. reflexivity. Qed.

(** After a note, the last event's payload has no recipient. *)
Example note_hides_endpoint :
  let w := (append_and_project 1 NoteAdded [] User (noon + second) planned).2 in
  (outbox (execute_request 1 (run_opts false) who noon w).2).*1.*1 = [""].
Proof. vm_compute. reflexivity. Qed.

Definition answered : jmap :=
  [("success", JBool true); ("error", JString "no Jane Roe found"); ("cookie", JString "secret")].

Lemma sanitize_web_form_result_spec_witness :
  map_get "error" (sanitize_web_form_result answered (Some jane)) =
    Some (JString "no [REDACTED-NAME] found") ∧
  map_get "cookie" (sanitize_web_form_result answered (Some jane)) = None ∧
  ∃ s, JString "no [REDACTED-NAME] found" = JString s ∧ contains "Jane Roe" s = false.
Proof.
  assert (Hg : map_get "error" (sanitize_web_form_result answered (Some jane)) =
    Some (JString "no [REDACTED-NAME] found")) by (vm_compute; reflexivity).
  split; [exact Hg|]. split; [vm_compute; reflexivity|].
  destruct (sanitize_web_form_result_spec answered (Some jane) "error" _ Hg) as [_ Ht].
  destruct (Ht 500%nat eq_refl) as (s & Hs & _ & Hc). exists s. split; [exact Hs|].
  apply (Hc jane "Jane Roe" "[REDACTED-NAME]"); [reflexivity|cbn; rewrite !elem_of_cons; tauto|].
  apply jane_redactable.
Defined.

(** ** Tasks *)

Example dir_expanded : tasks_dir = Ok "/home/jane/data/manual_tasks".
Proof. reflexivity. Qed.

Definition task_opts : CreateOpts :=
  form_task_opts 2 "globex" "https://globex.example/optout" "dynamic_form" "".

Definition task_run := Eval vm_compute in create task_opts (Some jane) noon planned.
Definition again := Eval vm_compute in create task_opts (Some jane) (noon + day_ns) task_run.2.

Lemma create_idempotent_witness :
  ∃ t1 t2, task_run = (Ok t1, task_run.2) ∧ again = (Ok t2, again.2) ∧
    mt_id t2 = mt_id t1 ∧ db again.2 = db task_run.2 ∧ files again.2 = files task_run.2.
Proof.
  eexists _, _. split; [reflexivity|]. split; [reflexivity|].
  apply (create_idempotent task_opts (Some jane) noon (noon + day_ns) planned _ task_run.2 _ again.2);
    vm_compute; reflexivity.
Defined.

Definition littered : World :=
  (write_file "/tasks/keep.txt" "k" (write_file "/tasks/snapshot_1.html" "x" start).2).2.

Definition task_files : list (string * bool) :=
  [("snapshot_1.html", false); ("keep.txt", false); ("snapshot_dir.html", true)].

Lemma cleanup_spec_witness :
  ∃ r, cleanup "/tasks" (Some task_files) false littered =
         (Ok r, (cleanup "/tasks" (Some task_files) false littered).2) ∧
    cr_removed r = 1 ∧
    files (cleanup "/tasks" (Some task_files) false littered).2 =
      delete "/tasks/snapshot_1.html" (files littered).
Proof.
  eexists. split; [vm_compute; reflexivity|].
  edestruct (cleanup_spec "/tasks" task_files false littered) as (_ & Hf & Hr & _);
    [vm_compute; reflexivity|].
  split; [exact Hr|]. etransitivity; [|exact Hf]. vm_compute. reflexivity.
Defined.
