(* ===== verification/Consent.v ===== *)
(** * Consent: [symeraseme-core/src/identity/consent.rs] and [gate.rs]

    File-backed consent tokens for destructive operations.  Several processes share
    the token directory, so an operation is a program over single file system calls
    ([call]), a tree that names the next call and goes on with its answer.  [exec]
    runs one program alone on a concrete host; [answers] says which answers a call
    may get, and [pool_step] interleaves the calls of many programs.

    The serde form of a record, SHA-256 and base64 are parameters.  File modes are
    not modelled; hardening a file is a call without effect whose failure the code
    ignores.  The inode lock of [lock_token] is an opening that may fail: the
    results below do not need its exclusion, since an unlink succeeds once. *)

From S2P Require Import Prelude.
From S2P Require Import Text.
From S2P Require Import Identity.

Definition DEFAULT_TOKEN_TTL : Z := 86400.
Definition TOKEN_BYTES : nat := 16.

(** ** Calls *)

Inductive IoError : Set := IoNotFound | IoInvalidData | IoInvalidInput | IoOther.

#[export] Instance IoError_eq_dec : EqDecision IoError.
Proof. solve_decision. Defined.

Inductive Entry : Type := RegularFile (body : string) | Directory.

(** The token directory: entries by name. *)
Notation Fs := (gmap string Entry).

Definition is_file (fs : Fs) (name : string) : bool :=
  match fs !! name with Some (RegularFile _) => true | _ => false end.

(** The calls, indexed by the type of their answers. *)
Inductive call : Type → Type :=
| CreateDir : call (result IoError ())
| Harden (name : string) : call ()
| IsFile (name : string) : call bool
| ReadFile (name : string) : call (option string)
| OpenLock (name : string) : call (result IoError ())
| Unlink (name : string) : call (result IoError ())
| Rename (from to : string) : call (result IoError ())
| WriteTemp (body : string) : call (result IoError ())
| Persist (name body : string) : call (result IoError ())
| ReadDir : call (result IoError (list string))
| Clock : call Z
| Random (length : nat) : call (result IoError string)
| EnvVar (name : string) : call (option string)
| ReadText (path : string) : call (option string)
| IsRegular (path : string) : call (option bool).

Inductive prog (A : Type) : Type :=
| Ret (a : A)
| Call {X : Type} (c : call X) (k : X → prog A).
Arguments Ret {A} a.
Arguments Call {A X} c k.

Fixpoint prog_bind_def {A B} (f : A → prog B) (p : prog A) : prog B :=
  match p with
  | Ret a => f a
  | Call c k => Call c (λ x, prog_bind_def f (k x))
  end.

#[export] Instance prog_ret : MRet prog := @Ret.
#[export] Instance prog_bind : MBind prog := λ A B f p, prog_bind_def f p.

Definition trigger {X} (c : call X) : prog X := Call c Ret.

(** ** A host *)

(** The outside at each step: clock (seconds), failures, random bytes; the variables
    and the files beside the token directory. *)
Class Host := {
  host_clock : nat → Z;
  host_fault : nat → bool;
  host_random : nat → string;
  host_env : string → option string;
  host_text : string → option string;
  host_regular : string → option bool;
}.

Record Machine := { m_fs : Fs; m_step : nat }.

Definition unlink (fs : Fs) (n : string) : result IoError () * Fs :=
  match fs !! n with
  | Some (RegularFile _) => (Ok (), delete n fs)
  | Some Directory => (Err IoOther, fs)
  | None => (Err IoNotFound, fs)
  end.

Definition rename (fs : Fs) (from to : string) : result IoError () * Fs :=
  match fs !! from, fs !! to with
  | Some (RegularFile body), Some Directory => (Err IoOther, fs)
  | Some (RegularFile body), _ => (Ok (), <[to := RegularFile body]> (delete from fs))
  | Some Directory, _ => (Err IoOther, fs)
  | None, _ => (Err IoNotFound, fs)
  end.

Definition persist (fs : Fs) (n body : string) : result IoError () * Fs :=
  match fs !! n with
  | Some Directory => (Err IoOther, fs)
  | _ => (Ok (), <[n := RegularFile body]> fs)
  end.

Definition open_lock (fs : Fs) (n : string) : result IoError () :=
  match fs !! n with
  | Some (RegularFile _) => Ok ()
  | Some Directory => Err IoOther
  | None => Err IoNotFound
  end.

Definition exec_call `{Host} {X} (c : call X) (m : Machine) : X * Machine :=
  let fs := m_fs m in
  let bad := host_fault (m_step m) in
  let stay {Y} (y : Y) := (y, {| m_fs := fs; m_step := S (m_step m) |}) in
  let move {Y} (r : Y * Fs) := (r.1, {| m_fs := r.2; m_step := S (m_step m) |}) in
  match c in call X return X * Machine with
  | CreateDir => stay (if bad then Err IoOther else Ok ())
  | Harden _ => stay ()
  | IsFile n => stay (negb bad && is_file fs n)
  | ReadFile n =>
      stay (if bad then None else match fs !! n with Some (RegularFile body) => Some body | _ => None end)
  | OpenLock n => stay (if bad then Err IoOther else open_lock fs n)
  | Unlink n => move (if bad then (Err IoOther, fs) else unlink fs n)
  | Rename from to => move (if bad then (Err IoOther, fs) else rename fs from to)
  | WriteTemp _ => stay (if bad then Err IoOther else Ok ())
  | Persist n body => move (if bad then (Err IoOther, fs) else persist fs n body)
  | ReadDir =>
      stay (if bad then Err IoOther else Ok (filter (λ n, is_file fs n = true) (map_to_list fs).*1))
  | Clock => stay (host_clock (m_step m))
  | Random _ => stay (if bad then Err IoOther else Ok (host_random (m_step m)))
  | EnvVar name => stay (host_env name)
  | ReadText path => stay (if bad then None else host_text path)
  | IsRegular path => stay (if bad then None else host_regular path)
  end.

(** A program run alone. *)
Fixpoint exec `{Host} {A} (p : prog A) (m : Machine) : A * Machine :=
  match p with
  | Ret a => (a, m)
  | Call c k => let (x, m') := exec_call c m in exec (k x) m'
  end.

(** ** Records *)

Inductive ConsentError : Set :=
| Io (e : IoError) | JsonError | NotFound | Expired | CommandMismatch | Denied.

#[export] Instance ConsentError_eq_dec : EqDecision ConsentError.
Proof. solve_decision. Defined.

Definition ConsentError_str (e : ConsentError) : string :=
  match e with
  | Io _ => "identity: consent storage error"
  | JsonError | NotFound => "identity: consent token not found"
  | Expired => "identity: consent token expired"
  | CommandMismatch => "identity: consent token command mismatch"
  | Denied => "identity: consent denied"
  end.

Record ConsentRecord := {
  cn_command : string;
  cn_issued_at : Z;
  cn_expires_at : Z;
  cn_token : option string;
}.

Record ConsentToken := {
  ct_token : string;
  ct_command : string;
  ct_issued_at : Z;
  ct_expires_at : Z;
}.

Record GrantOptions := {
  go_command : string;
  go_ttl : Z;
  go_dry_run : bool;
  go_list_tokens : bool;
  go_revoke : option string;
  go_revoke_all : bool;
}.

Inductive GrantOutcome : Type :=
| GrantList (count : Z) (success : bool) (tokens : list ConsentToken)
| GrantDryRun (command : string) (dry_run : bool) (revoke : string) (revoke_all success : bool)
| GrantRevokeAll (revoke_all : bool) (revoked : Z) (success : bool)
| GrantRevokeOne (revoked : Z) (success : bool)
| GrantIssue (success : bool) (token : string).

(** serde's text form of a record, and the URL-safe base64 alphabet without padding. *)
Class ConsentCodec := {
  record_to_json : ConsentRecord → string;
  record_from_json : string → option ConsentRecord;
  base64_url : string → string;
}.

(** [trim_start_matches], [trim_end_matches]: the pattern is taken off repeatedly;
    a non-empty pattern at most as often as the text has bytes. *)
Fixpoint trim_start_fuel (fuel : nat) (p s : string) : string :=
  match fuel with
  | O => s
  | S fuel => match strip_prefix p s with Some r => trim_start_fuel fuel p r | None => s end
  end.

Definition trim_start_matches (p s : string) : string := trim_start_fuel (String.length s) p s.

Definition trim_end_matches (p s : string) : string :=
  str_rev (trim_start_matches (str_rev p) (str_rev s)).

Section consent.
Context `{Sha256} `{ConsentCodec}.

(** The answer of [p], or an error, and so on: [?] in a program. *)
Definition try {E F A B} (conv : E → F) (f : A → prog (result F B)) (r : result E A)
    : prog (result F B) :=
  match r with Ok a => f a | Err e => mret (Err (conv e)) end.

Definition ensure_directory : prog (result IoError ()) :=
  r ← trigger CreateDir;
  match r with
  | Ok _ => _ ← trigger (Harden ""); mret (Ok ())
  | Err e => mret (Err e)
  end.

Definition token_filename (token : string) : string :=
  "consent_" +:+ String.substring 0 16 (sha256_hex token) +:+ ".json".

Definition legacy_filename (token : string) : string := "consent_" +:+ token +:+ ".json".

(** Joined to the directory, the legacy name has the directory as its parent exactly
    when the token holds no slash. *)
Definition has_slash (token : string) : bool := contains "/" token.

Definition find_token_file (token : string) : prog (result ConsentError string) :=
  let hashed := token_filename token in
  found ← trigger (IsFile hashed);
  if (found : bool) then mret (Ok hashed)
  else
    let legacy := legacy_filename token in
    if has_slash token then mret (Err NotFound)
    else
      old ← trigger (IsFile legacy);
      if negb old then mret (Err NotFound)
      else
        let destination := token_filename token in
        renamed ← trigger (Rename legacy destination);
        match renamed with
        | Ok _ => mret (Ok destination)
        | Err error =>
            there ← trigger (IsFile destination);
            if (there : bool) then mret (Ok destination)
            else mret (Err (match error with IoNotFound => NotFound | e => Io e end))
        end.

(** [atomic_write]: the temporary file's steps, then the rename that publishes. *)
Definition atomic_write (name body : string) : prog (result IoError ()) :=
  r ← trigger (WriteTemp body);
  match r with
  | Ok _ => trigger (Persist name body)
  | Err e => mret (Err e)
  end.

Definition issue_token (command : string) (ttl : Z) : prog (result ConsentError string) :=
  let ttl := if ttl <=? 0 then DEFAULT_TOKEN_TTL else ttl in
  r ← ensure_directory;
  try Io (λ _,
    bytes ← trigger (Random TOKEN_BYTES);
    try Io (λ bytes,
      if negb (String.length bytes =? TOKEN_BYTES)%nat then mret (Err (Io IoInvalidData))
      else
        let token := base64_url bytes in
        now ← trigger Clock;
        let record := {| cn_command := command; cn_issued_at := now;
          cn_expires_at := saturating_i64 (now + ttl); cn_token := Some token |} in
        w ← atomic_write (token_filename token) (record_to_json record);
        try Io (λ _, mret (Ok token)) w) bytes) r.

Definition stored_differs (record : ConsentRecord) (token : string) : bool :=
  match cn_token record with Some stored => negb (String.eqb stored token) | None => false end.

Definition verify_token (command token : string) : prog (result ConsentError ()) :=
  if is_empty token then mret (Err NotFound)
  else
    r ← ensure_directory;
    try Io (λ _,
      path ← find_token_file token;
      try id (λ path,
        body ← trigger (ReadFile path);
        match body ≫= record_from_json with
        | None => mret (Err NotFound)
        | Some record =>
            if stored_differs record token then mret (Err NotFound)
            else if negb (String.eqb (cn_command record) command) then mret (Err CommandMismatch)
            else
              now ← trigger Clock;
              if cn_expires_at record <? now then
                _ ← trigger (Unlink path); mret (Err Expired)
              else
                _ ← trigger (Harden path); mret (Ok ())
        end) path) r.

Definition lock_token (token : string) : prog (result ConsentError ()) :=
  path ← find_token_file token;
  try id (λ path,
    r ← trigger (OpenLock path);
    match r with
    | Ok _ => mret (Ok ())
    | Err IoNotFound => mret (Err NotFound)
    | Err e => mret (Err (Io e))
    end) path.

Definition consume_token (token : string) : prog (result ConsentError ()) :=
  if is_empty token then mret (Ok ())
  else
    r ← ensure_directory;
    try Io (λ _,
      path ← find_token_file token;
      match path with
      | Ok path =>
          r ← trigger (Unlink path);
          match r with
          | Ok _ | Err IoNotFound => mret (Ok ())
          | Err e => mret (Err (Io e))
          end
      | Err NotFound => mret (Ok ())
      | Err e => mret (Err e)
      end) r.

Definition revoke_token (token : string) : prog (result ConsentError bool) :=
  if is_empty token then mret (Ok false)
  else
    r ← ensure_directory;
    try Io (λ _,
      path ← find_token_file token;
      match path with
      | Ok path =>
          r ← trigger (Unlink path);
          match r with
          | Ok _ => mret (Ok true)
          | Err IoNotFound => mret (Ok false)
          | Err e => mret (Err (Io e))
          end
      | Err NotFound => mret (Ok false)
      | Err e => mret (Err e)
      end) r.

Definition is_consent_name (name : string) : bool :=
  starts_with "consent_" name && ends_with ".json" name.

(** One name of the listing; expired records are pruned. *)
Definition list_entry (now : Z) (name : string) : prog (option ConsentToken) :=
  if negb (is_consent_name name) then mret None
  else
    body ← trigger (ReadFile name);
    match body ≫= record_from_json with
    | None => mret None
    | Some record =>
        if cn_expires_at record <? now then _ ← trigger (Unlink name); mret None
        else
          _ ← trigger (Harden name);
          mret (Some {|
            ct_token := default (trim_end_matches ".json" (trim_start_matches "consent_" name))
                          (cn_token record);
            ct_command := cn_command record; ct_issued_at := cn_issued_at record;
            ct_expires_at := cn_expires_at record |})
    end.

Fixpoint list_entries (now : Z) (names : list string) : prog (list ConsentToken) :=
  match names with
  | [] => mret []
  | name :: names =>
      t ← list_entry now name;
      ts ← list_entries now names;
      mret (match t with Some t => t :: ts | None => ts end)
  end.

Definition list_tokens : prog (result ConsentError (list ConsentToken)) :=
  r ← ensure_directory;
  try Io (λ _,
    now ← trigger Clock;
    names ← trigger ReadDir;
    try Io (λ names,
      tokens ← list_entries now (sort_by str_leb names);
      mret (Ok (sort_by (λ x y, ct_issued_at x <=? ct_issued_at y) tokens))) names) r.

Fixpoint revoke_all (tokens : list ConsentToken) (revoked : Z) : prog (result ConsentError Z) :=
  match tokens with
  | [] => mret (Ok revoked)
  | t :: tokens =>
      r ← revoke_token (ct_token t);
      try id (λ done : bool, revoke_all tokens (if done then revoked + 1 else revoked)) r
  end.

Definition grant (options : GrantOptions) : prog (result ConsentError GrantOutcome) :=
  let revoke := default "" (go_revoke options) in
  if go_list_tokens options then
    tokens ← list_tokens;
    try id (λ tokens, mret (Ok (GrantList (Z.of_nat (List.length tokens)) true tokens))) tokens
  else if go_dry_run options then
    mret (Ok (GrantDryRun (go_command options) true revoke (go_revoke_all options) true))
  else if go_revoke_all options then
    tokens ← list_tokens;
    try id (λ tokens,
      revoked ← revoke_all tokens 0;
      try id (λ revoked, mret (Ok (GrantRevokeAll true revoked true))) revoked) tokens
  else if negb (is_empty revoke) then
    done ← revoke_token revoke;
    try id (λ done : bool,
      if done then mret (Ok (GrantRevokeOne 1 true)) else mret (Err NotFound)) done
  else
    token ← issue_token (go_command options) (go_ttl options);
    try id (λ token, mret (Ok (GrantIssue true token))) token.

(** ** The gate *)

Record ConsentOptions := {
  op_yes : bool;
  op_consent_token : option string;
  op_consent_file : option string;
  op_consent_env_var : option string;
  op_consent_file_env_var : option string;
  op_interactive : bool;
}.

Definition non_empty (s : option string) : option string :=
  match s with Some t => if is_empty t then None else Some t | None => None end.

Definition verify_and_consume (command token : string) : prog (result ConsentError ()) :=
  v ← verify_token command token;
  try id (λ _,
    l ← lock_token token;
    try id (λ _,
      r ← revoke_token token;
      try id (λ done : bool, mret (if done then Ok () else Err NotFound)) r) l) v.

(** The first line of [str::lines]: up to the line feed, less a carriage return. *)
Definition first_line (text : string) : string :=
  let line := match split_once (b 10) text with Some (l, _) => l | None => text end in
  default line (strip_suffix (String (b 13) "") line).

Definition read_consent_file (path : string) : prog (result IoError string) :=
  if is_empty path then mret (Ok "")
  else
    contents ← trigger (ReadText path);
    match contents with
    | None => mret (Err IoOther)
    | Some contents =>
        metadata ← trigger (IsRegular path);
        match metadata with
        | None => mret (Err IoOther)
        | Some regular =>
            if negb regular && negb (str_in path ["/dev/stdin"; "/dev/fd/0"]) then
              mret (Err IoInvalidInput)
            else
              _ ← trigger (Harden path);
              let text := trim contents in
              if is_empty text then mret (Err IoInvalidData)
              else
                let token := trim (first_line text) in
                if is_empty token then mret (Err IoInvalidData) else mret (Ok token)
        end
    end.

Definition authorize_file (command path : string) : prog (result ConsentError ()) :=
  token ← read_consent_file path;
  match token with
  | Ok token => verify_and_consume command token
  | Err _ => mret (Err Denied)
  end.

Definition authorize (command : string) (options : ConsentOptions) : prog (result ConsentError ()) :=
  if op_yes options then mret (Ok ())
  else match non_empty (op_consent_token options) with
  | Some token => verify_and_consume command token
  | None =>
      match non_empty (op_consent_file options) with
      | Some path => authorize_file command path
      | None =>
          file ← trigger (EnvVar (default "SYMERASEME_CONSENT_FILE" (op_consent_file_env_var options)));
          match non_empty file with
          | Some path => authorize_file command path
          | None =>
              token ← trigger (EnvVar (default "SYMERASEME_CONSENT" (op_consent_env_var options)));
              match non_empty token with
              | Some token => verify_and_consume command token
              | None => mret (Err Denied)
              end
          end
      end
  end.

(** ** The default directory *)

Definition consent_home_from_environment (home : option string) : option string := non_empty home.

(** [expand_home] of this module: without a home, [~] is an error. *)
Definition consent_expand_home (path : string) (home : option string) : result IoError string :=
  if String.eqb path "~" then
    match home with Some home => Ok home | None => Err IoNotFound end
  else match strip_prefix "~/" path with
  | Some rest => match home with Some home => Ok (path_join home rest) | None => Err IoNotFound end
  | None => Ok path
  end.

Definition consent_directory_from (data_dir home : option string) : result IoError string :=
  match non_empty data_dir with
  | Some dir => consent_expand_home dir home
  | None =>
      match home with
      | Some home => Ok (path_join home ".local/share/symeraseme")
      | None => Err IoNotFound
      end
  end.

Definition default_consent_directory : prog (result IoError string) :=
  home ← trigger (EnvVar "HOME");
  data_dir ← trigger (EnvVar "SYMERASEME_DATA_DIR");
  mret (consent_directory_from data_dir (consent_home_from_environment home)).
End consent.
