(* ===== verification/ConsentFacts.v ===== *)
(** * ConsentFacts: a consent token is good for one use

    The calls' possible answers, the interleaving of many processes over one token
    directory, the bound on the authorizations a token gives under every schedule;
    and what the operations do when they run alone. *)
From stdpp Require Import relations.
From S2P Require Import Prelude.
From S2P Require Import Text.
From S2P Require Import Identity.
From S2P Require Import Consent.

(** ** The answers of the calls *)

(** What a call may answer on a directory, and the directory it leaves.  Every call
    may fail; a file that is reported was there. *)
Definition answers {X} (c : call X) (fs : Fs) : X → Fs → Prop :=
  match c in call X return X → Fs → Prop with
  | IsFile n => λ r fs', fs' = fs ∧ (r = true → is_file fs n = true)
  | ReadFile n => λ r fs', fs' = fs ∧ ∀ body, r = Some body → fs !! n = Some (RegularFile body)
  | OpenLock n => λ r fs', fs' = fs ∧ (r = Ok () → is_file fs n = true)
  | Unlink n => λ r fs',
      match r with Ok _ => is_file fs n = true ∧ fs' = delete n fs | Err _ => fs' = fs end
  | Rename from to => λ r fs',
      match r with
      | Ok _ => ∃ body, fs !! from = Some (RegularFile body) ∧
                  fs' = <[to := RegularFile body]> (delete from fs)
      | Err _ => fs' = fs
      end
  | Persist n body => λ r fs',
      match r with Ok _ => fs' = <[n := RegularFile body]> fs | Err _ => fs' = fs end
  | ReadDir => λ r fs', fs' = fs ∧ ∀ names, r = Ok names → ∀ n, n ∈ names → is_file fs n = true
  | _ => λ _ fs', fs' = fs
  end.

(** ** Interleaving *)

(** One process of the pool makes its next call. *)
Inductive pool_step {R} : list (prog R) * Fs → list (prog R) * Fs → Prop :=
| pool_call l1 l2 X (c : call X) (k : X → prog R) fs x fs' :
    answers c fs x fs' →
    pool_step (l1 ++ Call c k :: l2, fs) (l1 ++ k x :: l2, fs').

Section single_use.
Context `{Sha256} `{ConsentCodec} (t : string).

Notation h := (token_filename t).

(** The files the token can be redeemed from. *)
Definition source (n : string) : bool := String.eqb n h || String.eqb n (legacy_filename t).

Definition uses (fs : Fs) : nat :=
  (if is_file fs h then 1 else 0) +
  (if negb (String.eqb (legacy_filename t) h) && is_file fs (legacy_filename t) then 1 else 0).

(** Programs that redeem nothing and end in [Q]. *)
Fixpoint inert {A} (Q : A → Prop) (p : prog A) : Prop :=
  match p with
  | Ret a => Q a
  | Call c k =>
      match c with
      | Rename from to => source to = true → source from = true
      | Persist n _ => source n = false
      | _ => True
      end ∧ ∀ x, inert Q (k x)
  end.

(** A redemption of the token. *)
Definition granted (p : prog (option string)) : bool :=
  match p with Ret (Some s) => String.eqb s t | _ => false end.

(** Programs that redeem the token only by unlinking its file. *)
Fixpoint bounded (p : prog (option string)) : Prop :=
  match p with
  | Ret r => r ≠ Some t
  | Call c k =>
      match c in call X return (X → prog (option string)) → (X → Prop) → Prop with
      | Unlink n => λ k rec,
          (∀ e, rec (Err e)) ∧ (rec (Ok ()) ∨ n = h ∧ k (Ok ()) = Ret (Some t))
      | Rename from to => λ _ rec, (source to = true → source from = true) ∧ ∀ x, rec x
      | Persist n _ => λ _ rec, source n = false ∧ ∀ x, rec x
      | _ => λ _ rec, ∀ x, rec x
      end k (λ x, bounded (k x))
  end.

Lemma bounded_bind {A} (Q : A → Prop) (p : prog A) (f : A → prog (option string)) :
  inert Q p → (∀ a, Q a → bounded (f a)) → bounded (p ≫= f).
Proof.
  intros Hp Hf. induction p as [a|X c k IH]; [by apply Hf|]. destruct Hp as [Hc Hk].
  destruct c; simpl; try (by intros x; apply IH);
    try (split; [done|]; by intros x; apply IH).
  split; [intros e|left]; by apply IH.
Qed.

Lemma inert_bind {A B} (Q : A → Prop) (R : B → Prop) (p : prog A) (f : A → prog B) :
  inert Q p → (∀ a, Q a → inert R (f a)) → inert R (p ≫= f).
Proof.
  intros Hp Hf. induction p as [a|X c k IH]; [by apply Hf|]. destruct Hp as [Hc Hk].
  split; [done|]. intros x. by apply IH.
Qed.

Lemma inert_mono {A} (Q R : A → Prop) (p : prog A) : (∀ a, Q a → R a) → inert Q p → inert R p.
Proof.
  intros HQR. induction p as [a|X c k IH]; simpl; [apply HQR|]. intros [Hc Hk].
  split; [done|]. intros x. by apply IH.
Qed.

Lemma bounded_assoc {A B} (p : prog A) (f : A → prog B) (g : B → prog (option string)) :
  bounded (p ≫= λ a, f a ≫= g) → bounded ((p ≫= f) ≫= g).
Proof.
  induction p as [a|X c k IH]; [done|].
  destruct c; simpl; try (by intros Hb x; apply IH, Hb);
    try (intros [Hs Hb]; split; [done|]; by intros x; apply IH, Hb).
  intros [He Ho]. split; [by intros e; apply IH, He|].
  destruct Ho as [Ho|[-> Hk]]; [left; by apply IH|right]. split; [done|].
  by destruct (k (Ok ())).
Qed.

(** ** The invariant of a pool *)

Definition pool_inv (n : nat) (ps : list (prog (option string))) (fs : Fs) : Prop :=
  (List.length (filter (λ p, granted p = true) ps) + uses fs ≤ n)%nat ∧
  Forall (λ p, granted p = true ∨ bounded p) ps.

Lemma source_spec n : source n = true ↔ n = h ∨ n = legacy_filename t.
Proof. unfold source. by rewrite orb_true_iff, !String.eqb_eq. Qed.

Lemma is_file_delete_ne fs n m : n ≠ m → is_file (delete n fs) m = is_file fs m.
Proof. intros. unfold is_file. by rewrite lookup_delete_ne. Qed.
Lemma is_file_delete_eq fs n : is_file (delete n fs) n = false.
Proof. unfold is_file. by rewrite lookup_delete_eq. Qed.
Lemma is_file_insert_ne fs n m e : n ≠ m → is_file (<[n := e]> fs) m = is_file fs m.
Proof. intros. unfold is_file. by rewrite lookup_insert_ne. Qed.
Lemma is_file_insert_eq fs n body : is_file (<[n := RegularFile body]> fs) n = true.
Proof. unfold is_file. by rewrite lookup_insert_eq. Qed.

Lemma uses_delete fs n : (uses (delete n fs) ≤ uses fs)%nat.
Proof.
  unfold uses. assert (Hm : ∀ m, is_file (delete n fs) m = true → is_file fs m = true).
  { intros m. destruct (decide (n = m)) as [<-|?]; [by rewrite is_file_delete_eq|].
    by rewrite is_file_delete_ne. }
  destruct (is_file (delete n fs) h) eqn:E1, (is_file (delete n fs) (legacy_filename t)) eqn:E2;
    try apply Hm in E1; try apply Hm in E2; rewrite ?E1, ?E2;
    destruct (negb _), (is_file fs h), (is_file fs (legacy_filename t)); simpl; lia.
Qed.

Lemma uses_delete_h fs : is_file fs h = true → uses fs = S (uses (delete h fs)).
Proof.
  intros Hh. unfold uses. rewrite Hh, is_file_delete_eq.
  destruct (String.eqb_spec (legacy_filename t) h) as [E|E]; simpl; [done|].
  by rewrite is_file_delete_ne.
Qed.

Lemma uses_insert_other fs n e : source n = false → uses (<[n := e]> fs) = uses fs.
Proof.
  intros Hs. assert (n ≠ h ∧ n ≠ legacy_filename t) as [H1 H2].
  { split; intros ->; by rewrite (proj2 (source_spec _)) in Hs; [|auto]. }
  unfold uses. by rewrite !is_file_insert_ne.
Qed.

Lemma uses_rename fs from to body :
  fs !! from = Some (RegularFile body) → (source to = true → source from = true) →
  (uses (<[to := RegularFile body]> (delete from fs)) ≤ uses fs)%nat.
Proof.
  intros Hfrom Hs. destruct (source to) eqn:Hto; [|rewrite uses_insert_other by done; apply uses_delete].
  assert (Hf : is_file fs from = true) by (unfold is_file; by rewrite Hfrom).
  destruct (decide (from = to)) as [<-|Hne].
  { rewrite insert_delete_eq. unfold uses.
    assert (Hm : ∀ m, is_file (<[from := RegularFile body]> fs) m = is_file fs m).
    { intros m. destruct (decide (from = m)) as [<-|?]; [by rewrite is_file_insert_eq|].
      by rewrite is_file_insert_ne. }
    by rewrite !Hm. }
  specialize (Hs eq_refl). rewrite source_spec in Hs, Hto. unfold uses.
  destruct Hs as [->| ->], Hto as [->| ->]; try done.
  - rewrite is_file_insert_ne, is_file_delete_eq, is_file_insert_eq, Hf by done.
    destruct (negb _); simpl; lia.
  - rewrite is_file_insert_eq, Hf, is_file_insert_ne, is_file_delete_eq by done.
    rewrite (proj2 (String.eqb_neq _ _)) by done. simpl. destruct (is_file fs h); lia.
Qed.

Lemma pool_inv_replace n l1 p q l2 fs fs' :
  pool_inv n (l1 ++ p :: l2) fs →
  granted p = false →
  (granted q = false ∧ (uses fs' ≤ uses fs)%nat ∧ bounded q ∨
   granted q = true ∧ (S (uses fs') ≤ uses fs)%nat) →
  pool_inv n (l1 ++ q :: l2) fs'.
Proof.
  unfold pool_inv. rewrite !filter_app, !filter_cons, !length_app, !Forall_app, !Forall_cons.
  intros [Hn (H1' & _ & H2')] Hp Hq. rewrite Hp in Hn. simpl in Hn.
  destruct Hq as [(-> & Hle & Hb)|(-> & Hle)]; simpl; (split; [lia|]); split_and!; auto.
Qed.

Lemma bounded_not_granted p : bounded p → granted p = false.
Proof.
  destruct p as [[s|]|]; simpl; try done. intros Hs. apply String.eqb_neq. congruence.
Qed.

Lemma pool_inv_step n ps fs ps' fs' :
  pool_inv n ps fs → pool_step (ps, fs) (ps', fs') → pool_inv n ps' fs'.
Proof.
  intros Hinv Hstep. inversion Hstep as [l1 l2 X c k fs0 x fs1 Hans]; subst. clear Hstep.
  apply (pool_inv_replace n _ (Call c k) _ _ fs); [done|done|].
  assert (Hb : bounded (Call c k)).
  { destruct Hinv as [_ Hall]. rewrite Forall_app, Forall_cons in Hall. naive_solver. }
  clear Hinv. assert (Hquiet : bounded (k x) → (uses fs' ≤ uses fs)%nat →
    granted (k x) = false ∧ (uses fs' ≤ uses fs)%nat ∧ bounded (k x) ∨
    granted (k x) = true ∧ (S (uses fs') ≤ uses fs)%nat).
  { intros Hk Hu. left. split; [by apply bounded_not_granted|done]. }
  destruct c; simpl in Hb, Hans;
    try (apply Hquiet; [apply Hb|]; first [by rewrite Hans|by destruct Hans as [-> _]]).
  - destruct x as [[]|e].
    + destruct Hans as [Hf ->]. destruct Hb as [_ [Hb|[-> Hk]]].
      * apply Hquiet; [done|apply uses_delete].
      * right. rewrite Hk. simpl. rewrite String.eqb_refl, (uses_delete_h fs) by done. by split.
    + subst fs'. by apply Hquiet; [apply Hb|].
  - destruct Hb as [Hs Hb]. apply Hquiet; [apply Hb|]. destruct x as [[]|e]; [|by rewrite Hans].
    destruct Hans as (body & Hfrom & ->). by apply uses_rename.
  - destruct Hb as [Hs Hb]. apply Hquiet; [apply Hb|]. destruct x as [[]|e]; [|by rewrite Hans].
    by rewrite Hans, uses_insert_other.
Qed.

Lemma pool_inv_run n c c' :
  rtc pool_step c c' → pool_inv n c.1 c.2 → pool_inv n c'.1 c'.2.
Proof.
  induction 1 as [|[ps fs] [ps1 fs1] c'' Hs _ IH]; [done|]. intros Hinv.
  apply IH. by eapply pool_inv_step.
Qed.

(** ** The operations in a pool *)

(** A token presented by a process: it clashes with [t] neither in the digest its
    file is named by nor through the legacy name of that file. *)
Definition separate (t' : string) : Prop :=
  (token_filename t' = h → t' = t) ∧ token_filename t' ≠ legacy_filename t.

Lemma rename_source t' :
  separate t' → source (token_filename t') = true → source (legacy_filename t') = true.
Proof.
  intros [Hc Hl]. rewrite !source_spec. intros [Hh|Hh]; [|done]. right. by rewrite (Hc Hh).
Qed.

Lemma ensure_directory_inert : inert (λ _, True) ensure_directory.
Proof. split; [done|]. intros [[]|e]; simpl; [|done]. split; [done|]. done. Qed.

Definition names_token (t' : string) (r : result ConsentError string) : Prop :=
  match r with Ok path => path = token_filename t' | Err _ => True end.

Lemma find_token_file_inert t' : separate t' → inert (names_token t') (find_token_file t').
Proof.
  intros Hsep. unfold find_token_file. split; [done|]. intros [|]; simpl; [done|].
  destruct (has_slash t'); simpl; [done|]. split; [done|]. intros [|]; simpl; [|done].
  split; [by apply rename_source|]. intros [[]|e]; simpl; [done|]. split; [done|].
  by intros [|].
Qed.

Lemma try_inert {E F A B} (Q : result F B → Prop) (conv : E → F) (f : A → prog (result F B)) r :
  (∀ a, r = Ok a → inert Q (f a)) → (∀ e, Q (Err e)) → inert Q (try conv f r).
Proof. intros Hok Herr. destruct r; simpl; [by apply Hok|apply Herr]. Qed.

Lemma verify_token_inert c t' : separate t' → inert (λ _, True) (verify_token c t').
Proof.
  intros Hsep. unfold verify_token. destruct (is_empty t'); [exact I|].
  eapply inert_bind; [apply ensure_directory_inert|]. intros r _. apply try_inert; [|done].
  intros _ _. eapply inert_bind; [by apply find_token_file_inert|]. intros path Hpath.
  apply try_inert; [|done]. intros p _. split; [done|]. intros body. simpl.
  destruct (body ≫= record_from_json) as [record|]; simpl; [|done].
  destruct (stored_differs record t'); [done|]. destruct (negb _); [done|].
  split; [done|]. intros now. simpl. destruct (_ <? _); simpl; done.
Qed.

Lemma lock_token_inert t' : separate t' → inert (λ _, True) (lock_token t').
Proof.
  intros Hsep. unfold lock_token. eapply inert_bind; [by apply find_token_file_inert|].
  intros path _. apply try_inert; [|done]. intros p _. split; [done|]. by intros [[]|[]].
Qed.

Lemma revoke_token_inert t' : separate t' → inert (λ _, True) (revoke_token t').
Proof.
  intros Hsep. unfold revoke_token. destruct (is_empty t'); [exact I|].
  eapply inert_bind; [apply ensure_directory_inert|]. intros r _. apply try_inert; [|done].
  intros _ _. eapply inert_bind; [by apply find_token_file_inert|].
  intros [path|[]] _; simpl; try done. split; [done|]. by intros [[]|[]].
Qed.

Lemma consume_token_inert t' : separate t' → inert (λ _, True) (consume_token t').
Proof.
  intros Hsep. unfold consume_token. destruct (is_empty t'); [exact I|].
  eapply inert_bind; [apply ensure_directory_inert|]. intros r _. apply try_inert; [|done].
  intros _ _. eapply inert_bind; [by apply find_token_file_inert|].
  intros [path|[]] _; simpl; try done. split; [done|]. by intros [[]|[]].
Qed.

Lemma list_entries_inert now names : inert (λ _, True) (list_entries now names).
Proof.
  induction names as [|n names IH]; simpl; [done|].
  eapply (inert_bind (λ _, True)); [|intros o _; eapply inert_bind; [apply IH|done]].
  unfold list_entry. destruct (negb _); simpl; [done|]. split; [done|]. intros body.
  destruct (body ≫= record_from_json) as [record|]; simpl; [|done].
  destruct (_ <? _); simpl; done.
Qed.

Lemma list_tokens_inert : inert (λ _, True) list_tokens.
Proof.
  unfold list_tokens. eapply inert_bind; [apply ensure_directory_inert|]. intros r _.
  apply try_inert; [|done]. intros _ _. split; [done|]. intros now. split; [done|]. intros names.
  simpl. apply try_inert; [|done]. intros l _. eapply inert_bind; [apply list_entries_inert|done].
Qed.

(** The processes that may run against the directory; [Some] token is the answer of
    one that was authorized by it. *)
Inductive operation : Type :=
| OpAuthorize (command token : string)
| OpVerify (command token : string)
| OpConsume (token : string)
| OpRevoke (token : string)
| OpList.

Definition op_token (op : operation) : option string :=
  match op with
  | OpAuthorize _ s | OpVerify _ s | OpConsume s | OpRevoke s => Some s
  | OpList => None
  end.

Definition process (op : operation) : prog (option string) :=
  match op with
  | OpAuthorize c s =>
      r ← verify_and_consume c s; mret (match r with Ok _ => Some s | Err _ => None end)
  | OpVerify c s => _ ← verify_token c s; mret None
  | OpConsume s => _ ← consume_token s; mret None
  | OpRevoke s => _ ← revoke_token s; mret None
  | OpList => _ ← list_tokens; mret None
  end.

Lemma revoke_bounded t' :
  separate t' →
  bounded (r ← revoke_token t';
    r ← try id (λ done : bool, mret (if done then Ok () else Err NotFound)) r;
    mret (match r : result ConsentError () with Ok _ => Some t' | Err _ => None end)).
Proof.
  intros Hsep. unfold revoke_token. destruct (is_empty t'); [discriminate|].
  apply bounded_assoc. eapply bounded_bind; [apply ensure_directory_inert|]. intros r _.
  destruct r as [[]|e]; [|discriminate]. cbn [try]. apply bounded_assoc.
  eapply bounded_bind; [by apply find_token_file_inert|].
  intros [path|[]] Hpath; simpl; try done. split; [by intros []|].
  destruct (decide (t' = t)) as [->|Hne]; [by right|left; congruence].
Qed.

Lemma process_bounded op :
  (∀ t', op_token op = Some t' → separate t') → bounded (process op).
Proof.
  intros Hsep. destruct op as [c t'|c t'|t'|t'|]; cbn [process];
    try specialize (Hsep t' eq_refl).
  - unfold verify_and_consume. apply bounded_assoc.
    eapply bounded_bind; [by apply verify_token_inert|].
    intros [[]|e] _; [|discriminate]. cbn [try]. apply bounded_assoc.
    eapply bounded_bind; [by apply lock_token_inert|].
    intros [[]|e] _; [|discriminate]. cbn [try]. apply bounded_assoc. by apply revoke_bounded.
  - eapply bounded_bind; [by apply verify_token_inert|discriminate].
  - eapply bounded_bind; [by apply consume_token_inert|discriminate].
  - eapply bounded_bind; [by apply revoke_token_inert|discriminate].
  - eapply bounded_bind; [apply list_tokens_inert|discriminate].
Qed.

End single_use.

(** ** Running alone *)

Section alone.
Context `{Host}.

Lemma exec_bind {A B} (p : prog A) (f : A → prog B) m :
  exec (p ≫= f) m = let (a, m1) := exec p m in exec (f a) m1.
Proof.
  revert m. induction p as [a|X c k IH]; intros m; [done|]. simpl.
  destruct (exec_call c m) as [x m1]. apply IH.
Qed.

(** The host's answers are possible ones. *)
Lemma exec_call_answers {X} (c : call X) m :
  answers c (m_fs m) (exec_call c m).1 (m_fs (exec_call c m).2).
Proof.
  destruct c; simpl; try done; destruct (host_fault (m_step m)); simpl; try done.
  - split; [done|]. intros body Hb. destruct (m_fs m !! name) as [[]|]; congruence.
  - split; [done|]. unfold open_lock, is_file. by destruct (m_fs m !! name) as [[]|].
  - unfold unlink, is_file. by destruct (m_fs m !! name) as [[]|] eqn:E; simpl; rewrite ?E.
  - unfold rename. destruct (m_fs m !! from) as [[body|]|]; simpl; try done.
    destruct (m_fs m !! to) as [[]|]; simpl; try done; by exists body.
  - unfold persist. by destruct (m_fs m !! name) as [[]|].
  - split; [done|]. intros names [= <-] n Hn. by apply list_elem_of_filter in Hn as [? _].
Qed.

(** A process that runs undisturbed is a schedule of the pool. *)
Lemma exec_pool {A} (l1 l2 : list (prog A)) (p : prog A) m :
  rtc pool_step (l1 ++ p :: l2, m_fs m) (l1 ++ Ret (exec p m).1 :: l2, m_fs (exec p m).2).
Proof.
  revert m. induction p as [a|X c k IH]; intros m; simpl; [apply rtc_refl|].
  pose proof (exec_call_answers c m) as Hans. destruct (exec_call c m) as [x m1]; simpl in *.
  eapply rtc_l; [|apply IH]. by apply (pool_call l1 l2 _ c k).
Qed.

Context `{Sha256} `{ConsentCodec}.

(** *** What an authorization needs *)

(** A record that redeems [t] for [command] at [now]. *)
Definition redeems (command t body : string) (now : Z) : Prop :=
  ∃ record, record_from_json body = Some record ∧
    (cn_token record = None ∨ cn_token record = Some t) ∧
    cn_command record = command ∧ now ≤ cn_expires_at record.

(** Where the file of [t] may be: at its name, or at the legacy name it is moved from. *)
Definition holds (fs : Fs) (t body : string) : Prop :=
  fs !! token_filename t = Some (RegularFile body) ∨
  fs !! legacy_filename t = Some (RegularFile body).

Lemma exec_try {E F A B} (conv : E → F) (f : A → prog (result F B)) r m b m' :
  exec (try conv f r) m = (Ok b, m') → ∃ a, r = Ok a ∧ exec (f a) m = (Ok b, m').
Proof. destruct r as [a|e]; simpl; [by exists a|done]. Qed.

Lemma exec_bind_inv {A B} (p : prog A) (f : A → prog B) m b m' :
  exec (p ≫= f) m = (b, m') → ∃ a m1, exec p m = (a, m1) ∧ exec (f a) m1 = (b, m').
Proof. rewrite exec_bind. destruct (exec p m) as [a m1]. by exists a, m1. Qed.

Lemma exec_ensure_directory_fs m r m1 : exec ensure_directory m = (r, m1) → m_fs m1 = m_fs m.
Proof. unfold ensure_directory. simpl. destruct (host_fault _); simpl; by intros [= _ <-]. Qed.

Lemma exec_find_ok t m path m1 :
  exec (find_token_file t) m = (Ok path, m1) →
  path = token_filename t ∧
  ∀ body, m_fs m1 !! token_filename t = Some (RegularFile body) → holds (m_fs m) t body.
Proof.
  unfold find_token_file, holds. simpl.
  destruct (negb (host_fault (m_step m)) && _); simpl; [intros [= <- <-]; by auto|].
  destruct (has_slash t); [done|]. simpl.
  destruct (negb (host_fault (S (m_step m))) && _); simpl; [|done].
  destruct (host_fault (S (S (m_step m)))); simpl.
  - destruct (negb _ && _); simpl; [|done]. intros [= <- <-]. by auto.
  - unfold rename. destruct (m_fs m !! legacy_filename t) as [[body|]|] eqn:El; simpl.
    + destruct (m_fs m !! token_filename t) as [[]|] eqn:Eh; simpl.
      * intros [= <- <-]. simpl. split; [done|]. intros b'. rewrite lookup_insert_eq. by auto.
      * destruct (negb _ && _); simpl; [|done]. intros [= <- <-]. simpl. split; [done|]. naive_solver.
      * intros [= <- <-]. simpl. split; [done|]. intros b'. rewrite lookup_insert_eq. by auto.
    + destruct (negb _ && _); simpl; [|done]. intros [= <- <-]. simpl. split; [done|]. naive_solver.
    + destruct (negb _ && _); simpl; [|done]. intros [= <- <-]. simpl. split; [done|]. naive_solver.
Qed.

Lemma stored_differs_false record t :
  stored_differs record t = false → cn_token record = None ∨ cn_token record = Some t.
Proof.
  unfold stored_differs. destruct (cn_token record) as [s|]; [|by left]. intros Hn.
  apply negb_false_iff, String.eqb_eq in Hn. subst. by right.
Qed.

Lemma verify_token_ok c t m m' :
  exec (verify_token c t) m = (Ok (), m') →
  t ≠ "" ∧ ∃ body i, holds (m_fs m) t body ∧ redeems c t body (host_clock i).
Proof.
  unfold verify_token. destruct (is_empty t) eqn:Ht; [done|]. intros Hrun.
  split; [intros ->; done|].
  apply exec_bind_inv in Hrun as (r & m1 & Hdir & Hrun). apply exec_try in Hrun as ([] & -> & Hrun).
  apply exec_bind_inv in Hrun as (path & m2 & Hfind & Hrun). apply exec_try in Hrun as (p & -> & Hrun).
  apply exec_ensure_directory_fs in Hdir. apply exec_find_ok in Hfind as [-> Hheld].
  rewrite Hdir in Hheld. simpl in Hrun. destruct (host_fault (m_step m2)); simpl in Hrun; [done|].
  destruct (m_fs m2 !! token_filename t) as [[body|]|] eqn:Eb; simpl in Hrun; try done.
  destruct (record_from_json body) as [record|] eqn:Er; simpl in Hrun; [|done].
  destruct (stored_differs record t) eqn:Es; [done|].
  destruct (negb _) eqn:Ec; [done|]. simpl in Hrun.
  destruct (Z.ltb_spec (cn_expires_at record) (host_clock (S (m_step m2)))) as [Hx|Hx]; [done|].
  apply negb_false_iff, String.eqb_eq in Ec.
  exists body, (S (m_step m2)). split; [by apply Hheld|]. exists record.
  split_and!; [done|by apply stored_differs_false|done|done].
Qed.

Lemma revoke_token_ok t m m' :
  exec (revoke_token t) m = (Ok true, m') → is_file (m_fs m') (token_filename t) = false.
Proof.
  unfold revoke_token. destruct (is_empty t); [done|]. intros Hrun.
  apply exec_bind_inv in Hrun as (r & m1 & Hdir & Hrun). apply exec_try in Hrun as ([] & -> & Hrun).
  apply exec_bind_inv in Hrun as (path & m2 & Hfind & Hrun).
  destruct path as [path|[]]; try done. apply exec_find_ok in Hfind as [-> _]. simpl in Hrun.
  destruct (host_fault (m_step m2)); simpl in Hrun; [done|]. unfold unlink in Hrun.
  destruct (m_fs m2 !! token_filename t) as [[]|]; simpl in Hrun; try done.
  injection Hrun as <-. simpl. apply is_file_delete_eq.
Qed.

Lemma verify_and_consume_ok c t m m' :
  exec (verify_and_consume c t) m = (Ok (), m') →
  t ≠ "" ∧ (∃ body i, holds (m_fs m) t body ∧ redeems c t body (host_clock i)) ∧
  is_file (m_fs m') (token_filename t) = false.
Proof.
  unfold verify_and_consume. intros Hrun.
  apply exec_bind_inv in Hrun as (v & m1 & Hv & Hrun). apply exec_try in Hrun as ([] & -> & Hrun).
  apply exec_bind_inv in Hrun as (l & m2 & Hl & Hrun). apply exec_try in Hrun as ([] & -> & Hrun).
  apply exec_bind_inv in Hrun as (r & m3 & Hr & Hrun). apply exec_try in Hrun as ([] & -> & Hrun);
    [|done].
  injection Hrun as <-. apply verify_token_ok in Hv as [Hne Hv]. split; [done|]. split; [done|].
  by eapply revoke_token_ok.
Qed.

(** The tokens a caller's options and environment present. *)
Definition in_file (path t : string) : Prop :=
  ∃ text, host_text path = Some text ∧ t = trim (first_line (trim text)) ∧ path ≠ "".

Definition presented (options : ConsentOptions) (t : string) : Prop :=
  op_consent_token options = Some t ∨
  (∃ path, op_consent_file options = Some path ∧ in_file path t) ∨
  (∃ path, host_env (default "SYMERASEME_CONSENT_FILE" (op_consent_file_env_var options)) = Some path ∧
     in_file path t) ∨
  host_env (default "SYMERASEME_CONSENT" (op_consent_env_var options)) = Some t.

Lemma read_consent_file_ok path m t m1 :
  path ≠ "" → exec (read_consent_file path) m = (Ok t, m1) → in_file path t ∧ m_fs m1 = m_fs m.
Proof.
  intros Hne. unfold read_consent_file. destruct (is_empty path) eqn:Hp.
  { by apply is_empty_spec in Hp. }
  simpl. destruct (host_fault (m_step m)); simpl; [done|].
  destruct (host_text path) as [text|] eqn:Ht; simpl; [|done].
  destruct (host_fault (S (m_step m))); simpl; [done|].
  destruct (host_regular path) as [regular|]; simpl; [|done].
  destruct (negb regular && _); simpl; [done|]. destruct (is_empty (trim text)); simpl; [done|].
  destruct (is_empty (trim (first_line (trim text)))); simpl; [done|].
  intros [= <- <-]. split; [by exists text|done].
Qed.

Lemma non_empty_spec s t : non_empty s = Some t ↔ s = Some t ∧ t ≠ "".
Proof.
  unfold non_empty. destruct s as [s|]; [|naive_solver].
  destruct (is_empty s) eqn:E; [apply is_empty_spec in E; naive_solver|].
  assert (s ≠ "") by (intros ->; done). naive_solver.
Qed.

Lemma authorize_file_ok c path m m' :
  path ≠ "" → exec (authorize_file c path) m = (Ok (), m') →
  ∃ t m1, in_file path t ∧ m_fs m1 = m_fs m ∧ exec (verify_and_consume c t) m1 = (Ok (), m').
Proof.
  intros Hne Hrun. apply exec_bind_inv in Hrun as (r & m1 & Hr & Hrun).
  destruct r as [t|e]; [|done]. apply read_consent_file_ok in Hr as [Hin Hfs]; [|done].
  by exists t, m1.
Qed.

(** C16: the gate lets a destructive command pass only with the explicit [yes], or
    with a token its options or environment presented, for which the directory held
    a record of that very command that had not expired; and the token's file is gone
    afterwards. *)
Theorem authorize_sound c options m m' :
  exec (authorize c options) m = (Ok (), m') →
  op_yes options = true ∨
  ∃ t, presented options t ∧
    (∃ body i, holds (m_fs m) t body ∧ redeems c t body (host_clock i)) ∧
    is_file (m_fs m') (token_filename t) = false.
Proof.
  unfold authorize. destruct (op_yes options); [by left|]. intros Hrun. right.
  assert (Htok : ∀ t m1, presented options t → m_fs m1 = m_fs m →
    exec (verify_and_consume c t) m1 = (Ok (), m') →
    ∃ t, presented options t ∧
      (∃ body i, holds (m_fs m) t body ∧ redeems c t body (host_clock i)) ∧
      is_file (m_fs m') (token_filename t) = false).
  { intros t m1 Hp Hfs Hv. apply verify_and_consume_ok in Hv as (_ & Hv & Hgone).
    rewrite Hfs in Hv. by exists t. }
  assert (Hfile : ∀ path m1, path ≠ "" → (∀ t, in_file path t → presented options t) →
    m_fs m1 = m_fs m → exec (authorize_file c path) m1 = (Ok (), m') →
    ∃ t, presented options t ∧
      (∃ body i, holds (m_fs m) t body ∧ redeems c t body (host_clock i)) ∧
      is_file (m_fs m') (token_filename t) = false).
  { intros path m1 Hne Hp Hfs Hf. apply authorize_file_ok in Hf as (t & m2 & Hin & Hfs2 & Hv);
      [|done]. eapply Htok; [by apply Hp|by rewrite Hfs2|done]. }
  unfold presented in *.
  destruct (non_empty (op_consent_token options)) as [t|] eqn:E1.
  { apply non_empty_spec in E1 as [E1 _]. eapply Htok; [by left|done|done]. }
  destruct (non_empty (op_consent_file options)) as [path|] eqn:E2.
  { apply non_empty_spec in E2 as [E2 Hne]. eapply Hfile; [done| |done|done]. eauto. }
  apply exec_bind_inv in Hrun as (file & m1 & [= <- <-] & Hrun). cbn beta in Hrun.
  match type of Hrun with context [non_empty ?e] => destruct (non_empty e) as [path|] eqn:E3 end.
  { apply non_empty_spec in E3 as [E3 Hne]. eapply Hfile; [done| | |exact Hrun]; [eauto 6|done]. }
  apply exec_bind_inv in Hrun as (tok & m2 & [= <- <-] & Hrun). cbn beta in Hrun.
  match type of Hrun with context [non_empty ?e] => destruct (non_empty e) as [t|] eqn:E4 end;
    [|done].
  apply non_empty_spec in E4 as [E4 _]. eapply Htok; [| |exact Hrun]; [by auto|done].
Qed.

(** *** Round trip *)

Section reliable.
Context (Hreliable : ∀ i, host_fault i = false).

(** The machine some quiet calls later. *)
Definition after (n : nat) (m : Machine) : Machine := {| m_fs := m_fs m; m_step := n + m_step m |}.

Lemma exec_ensure_directory m : exec ensure_directory m = (Ok (), after 2 m).
Proof. unfold ensure_directory. simpl. by rewrite Hreliable. Qed.

Lemma exec_find_present t m :
  is_file (m_fs m) (token_filename t) = true →
  exec (find_token_file t) m = (Ok (token_filename t), after 1 m).
Proof. intros Hf. unfold find_token_file. simpl. by rewrite Hreliable, Hf. Qed.

Lemma exec_find_absent t m :
  is_file (m_fs m) (token_filename t) = false → is_file (m_fs m) (legacy_filename t) = false →
  ∃ n, exec (find_token_file t) m = (Err NotFound, after n m).
Proof.
  intros Hf Hl. unfold find_token_file. simpl. rewrite Hreliable, Hf. simpl.
  destruct (has_slash t); [by exists 1%nat|]. simpl. rewrite Hreliable, Hl. by exists 2%nat.
Qed.

Lemma exec_verify_present c t m body record :
  t ≠ "" → m_fs m !! token_filename t = Some (RegularFile body) →
  record_from_json body = Some record → cn_token record = Some t →
  host_clock (4 + m_step m) ≤ cn_expires_at record →
  exec (verify_token c t) m =
    if String.eqb (cn_command record) c then (Ok (), after 6 m) else (Err CommandMismatch, after 4 m).
Proof.
  intros Hne Hfile Hjson Htok Hclock. unfold verify_token.
  destruct (is_empty t) eqn:He; [by apply is_empty_spec in He|].
  rewrite exec_bind, exec_ensure_directory. cbn [try].
  rewrite exec_bind, exec_find_present by (unfold is_file; simpl; by rewrite Hfile).
  simpl. rewrite Hreliable, Hfile. simpl. rewrite Hjson. simpl.
  unfold stored_differs. rewrite Htok, String.eqb_refl. simpl.
  destruct (String.eqb (cn_command record) c); simpl; [|done].
  destruct (Z.ltb_spec (cn_expires_at record) (host_clock (S (S (S (S (m_step m)))))));
    [simpl in Hclock; lia|done].
Qed.

Lemma exec_verify_absent c t m :
  is_file (m_fs m) (token_filename t) = false → is_file (m_fs m) (legacy_filename t) = false →
  ∃ n, exec (verify_token c t) m = (Err NotFound, after n m).
Proof.
  intros Hf Hl. unfold verify_token. destruct (is_empty t); [by exists 0%nat; destruct m|].
  rewrite exec_bind, exec_ensure_directory. cbn [try].
  destruct (exec_find_absent t (after 2 m) Hf Hl) as [n Hn].
  rewrite exec_bind, Hn. by exists (n + 2)%nat; unfold after; simpl; rewrite <-Nat.add_assoc.
Qed.

Lemma exec_lock_present t m :
  is_file (m_fs m) (token_filename t) = true → exec (lock_token t) m = (Ok (), after 2 m).
Proof.
  intros Hf. unfold lock_token. rewrite exec_bind, exec_find_present by done. simpl.
  rewrite Hreliable. unfold open_lock. unfold is_file in Hf.
  by destruct (m_fs m !! token_filename t) as [[]|].
Qed.

Lemma exec_revoke_present t m :
  t ≠ "" → is_file (m_fs m) (token_filename t) = true →
  exec (revoke_token t) m =
    (Ok true, {| m_fs := delete (token_filename t) (m_fs m); m_step := 4 + m_step m |}).
Proof.
  intros Hne Hf. unfold revoke_token. destruct (is_empty t) eqn:He; [by apply is_empty_spec in He|].
  rewrite exec_bind, exec_ensure_directory. cbn [try].
  rewrite exec_bind, exec_find_present by done. simpl. rewrite Hreliable. unfold unlink.
  unfold is_file in Hf. by destruct (m_fs m !! token_filename t) as [[]|].
Qed.

Definition lifetime (ttl : Z) : Z := if ttl <=? 0 then DEFAULT_TOKEN_TTL else ttl.

Lemma exec_issue_ok c ttl m t m1 :
  exec (issue_token c ttl) m = (Ok t, m1) →
  let issued := host_clock (3 + m_step m) in
  t = base64_url (host_random (2 + m_step m)) ∧
  String.length (host_random (2 + m_step m)) = TOKEN_BYTES ∧
  m1 = {| m_fs := <[token_filename t := RegularFile (record_to_json
            {| cn_command := c; cn_issued_at := issued;
               cn_expires_at := saturating_i64 (issued + lifetime ttl); cn_token := Some t |})]>
            (m_fs m);
          m_step := 6 + m_step m |}.
Proof.
  unfold issue_token. fold (lifetime ttl). rewrite exec_bind, exec_ensure_directory. simpl.
  rewrite Hreliable. simpl. destruct (Nat.eqb_spec (String.length (host_random (S (S (m_step m)))))
    TOKEN_BYTES) as [Hlen|Hlen]; simpl; [|done].
  rewrite !Hreliable. simpl. rewrite Hreliable. unfold persist.
  destruct (m_fs m !! token_filename _) as [[]|]; simpl; try done; by intros [= <- <-].
Qed.

(** a token that was issued for a command is refused for every other one and
    stays usable; it then authorizes its command, once, until it expires, and is
    refused for good afterwards. *)
Theorem issue_authorize_once command ttl m t m1 :
  let issued := host_clock (3 + m_step m) in
  let record := {| cn_command := command; cn_issued_at := issued;
    cn_expires_at := saturating_i64 (issued + lifetime ttl); cn_token := Some t |} in
  exec (issue_token command ttl) m = (Ok t, m1) →
  t ≠ "" → record_from_json (record_to_json record) = Some record →
  is_file (m_fs m) (legacy_filename t) = false →
  (∀ i, (m_step m1 ≤ i)%nat →
     host_clock i ≤ saturating_i64 (issued + lifetime ttl)) →
  (∀ other, other ≠ command →
     exec (verify_and_consume other t) m1 = (Err CommandMismatch, after 4 m1)) ∧
  ∃ m2, exec (verify_and_consume command t) m1 = (Ok (), m2) ∧
    m_fs m2 = delete (token_filename t) (m_fs m) ∧
    ∀ c, ∃ n, exec (verify_and_consume c t) m2 = (Err NotFound, after n m2).
Proof.
  intros issued record Hissue Hne Hcodec Hlegacy Hclock.
  apply exec_issue_ok in Hissue as (_ & Hlen & ->). fold issued in Hclock |- *. fold record.
  set (m1 := {| m_fs := _; m_step := _ |}) in *.
  assert (Hfile : m_fs m1 !! token_filename t = Some (RegularFile (record_to_json record)))
    by apply lookup_insert_eq.
  assert (Hf : is_file (m_fs m1) (token_filename t) = true) by (unfold is_file; by rewrite Hfile).
  assert (Hv : ∀ c, exec (verify_token c t) m1 =
    if String.eqb command c then (Ok (), after 6 m1) else (Err CommandMismatch, after 4 m1)).
  { intros c. apply (exec_verify_present c t m1 (record_to_json record) record); [done|done|done|done|].
    apply Hclock. simpl. lia. }
  split.
  - intros other Hother. unfold verify_and_consume. rewrite exec_bind, Hv.
    by destruct (String.eqb_spec command other) as [<-|_].
  - eexists. split; [|split].
    + unfold verify_and_consume. rewrite exec_bind, Hv, String.eqb_refl. cbn [try].
      rewrite exec_bind, exec_lock_present by done. cbn [try].
      by rewrite exec_bind, exec_revoke_present.
    + simpl. by rewrite delete_insert_eq.
    + intros c. unfold verify_and_consume.
      match goal with |- context [exec _ ?m2] => destruct (exec_verify_absent c t m2) as [n Hn] end.
      * simpl. apply is_file_delete_eq.
      * simpl. rewrite delete_insert_eq. unfold is_file in *.
        destruct (decide (token_filename t = legacy_filename t)) as [<-|?];
          [by rewrite lookup_delete_eq|by rewrite lookup_delete_ne].
      * exists n. by rewrite exec_bind, Hn.
Qed.
End reliable.
End alone.

(* ------------------------------------------------------------------ *)
(** ** * ConsentWitness: the consent theorems on a concrete host *)

(** Stand-ins for the digest and the codecs. *)
#[local] Instance digest : Sha256 := {|
  sha256_hex s :=
    if String.eqb s "AAECAwQFBgcICQoL" then "aaaaaaaaaaaaaaaa" else "bbbbbbbbbbbbbbbb" |}.

Definition sep : string := String (b 31) "".

#[local] Instance codec : ConsentCodec := {|
  record_to_json r := join sep
    [cn_command r; show (cn_issued_at r); show (cn_expires_at r); default "" (cn_token r)];
  record_from_json s :=
    match split (b 31) s with
    | [c; i; e; t] =>
        i ← parse_i64 i; e ← parse_i64 e;
        Some {| cn_command := c; cn_issued_at := i; cn_expires_at := e; cn_token := non_empty (Some t) |}
    | _ => None
    end;
  base64_url s := s |}.

#[local] Instance host : Host := {|
  host_clock _ := 1000000; host_fault _ := false; host_random _ := "AAECAwQFBgcICQoL";
  host_env name := if String.eqb name "SYMERASEME_CONSENT" then Some "AAECAwQFBgcICQoL" else None;
  host_text _ := None; host_regular _ := None |}.

Definition empty_machine : Machine := {| m_fs := ∅; m_step := 0 |}.
Definition token : string := "AAECAwQFBgcICQoL".
Definition issued : Machine := (exec (issue_token "execute" 3600) empty_machine).2.

Lemma issue_authorize_once_witness :
  exec (issue_token "execute" 3600) empty_machine = (Ok token, issued) ∧
  exec (verify_and_consume "purge" token) issued = (Err CommandMismatch, after 4 issued) ∧
  ∃ m2, exec (verify_and_consume "execute" token) issued = (Ok (), m2) ∧
    ∃ n, exec (verify_and_consume "execute" token) m2 = (Err NotFound, after n m2).
Proof.
  assert (Hi : exec (issue_token "execute" 3600) empty_machine = (Ok token, issued)) by reflexivity.
  split; [exact Hi|].
  assert (Hrel : ∀ i, host_fault i = false) by reflexivity.
  destruct (issue_authorize_once Hrel "execute" 3600 empty_machine token issued)
    as [Hother (m2 & Hok & _ & Hagain)].
  - exact Hi.
  - discriminate.
  - vm_compute. reflexivity.
  - vm_compute. reflexivity.
  - intros i _. vm_compute. discriminate.
  - split; [apply Hother; discriminate|]. exists m2. split; [exact Hok|apply Hagain].
Defined.

Definition from_env : ConsentOptions := {|
  op_yes := false; op_consent_token := None; op_consent_file := None; op_consent_env_var := None;
  op_consent_file_env_var := None; op_interactive := false |}.

Lemma authorize_sound_witness :
  (exec (authorize "execute" from_env) issued).1 = Ok () ∧
  ∃ t, presented from_env t ∧
    is_file (m_fs (exec (authorize "execute" from_env) issued).2) (token_filename t) = false.
Proof.
  assert (Hok : (exec (authorize "execute" from_env) issued).1 = Ok ()) by (vm_compute; reflexivity).
  split; [exact Hok|].
  destruct (authorize_sound "execute" from_env issued (exec (authorize "execute" from_env) issued).2)
    as [Hyes|(t & Hp & _ & Hgone)].
  - rewrite <-Hok. destruct (exec (authorize "execute" from_env) issued). reflexivity.
  - discriminate Hyes.
  - exists t. split; [exact Hp|exact Hgone].
Defined.

(** Two processes present the token at once; one is authorized. *)
Definition race : list operation := [OpAuthorize "execute" token; OpAuthorize "execute" token].

Definition first_done : Machine := (exec (process (OpAuthorize "execute" token)) issued).2.

Lemma race_separate : Forall (λ op, ∀ t', op_token op = Some t' → separate token t') race.
Proof.
  unfold race. repeat apply Forall_cons_2; try apply Forall_nil_2;
    intros t' [= <-]; (split; [done|vm_compute; discriminate]).
Qed.


(** The digest in a token's file name, presented as a token, moves the file away. *)
Example digest_displaces_token :
  let d := String.substring 0 16 (sha256_hex token) in
  let m := (exec (verify_token "execute" d) issued).2 in
  (exec (verify_token "execute" token) issued).1 = Ok () ∧
  (exec (verify_token "execute" token) m).1 = Err NotFound.
Proof. vm_compute. split; reflexivity. Qed.
