(* ===== verification/Confirmation.v ===== *)
(** * Confirmation: [symeraseme-core/src/confirmation.rs]

    Extraction of confirmation links from a reply: the candidates of a text, the
    allowlist of broker hosts, and the order of the result.  Every byte the code
    looks for is ASCII, so characters are bytes here. *)
From S2P Require Import Prelude.
From S2P Require Import Text.
From S2P Require Import Json.
From S2P Require Import TimeUtil.
From S2P Require Import Types.
From S2P Require Import Database.
From S2P Require Import Repository.

Definition latest_reply_body `{Env} (request_id : Z) : DB DbError (option string) :=
  query (λ d, or_empty ∘ ir_snippet <$> head (replies_to request_id d)).

Definition KNOWN_BROKER_DOMAINS : list string :=
  ["acxiom.com"; "oracle.com"; "schufa.de"; "beenverified.com"; "spokeo.com"; "intelius.com";
   "whitepages.com"; "mylife.com"; "peekyou.com"; "pipl.com"; "radaris.com";
   "truepeoplesearch.com"; "ussearch.com"; "peoplefinders.com"; "instantcheckmate.com";
   "truthfinder.com"; "addresses.com"; "anywho.com"; "dexknows.com"; "meridiandata.us";
   "experian.com"; "transunion.com"; "equifax.com"].

Definition char_in (chars : string) (c : ascii) : bool := str_existsb (Ascii.eqb c) chars.

(** The text up to the first byte with [p], and the rest from there. *)
Fixpoint span (p : ascii → bool) (s : string) : string * string :=
  match s with
  | "" => ("", "")
  | String c s' =>
      if p c then ("", s) else let (x, y) := span p s' in (String c x, y)
  end.

Definition is_go_url_separator (c : ascii) : bool :=
  char_in (String " " (String (b 9) (String (b 10) (String (b 13) (String (b 12) ""))))) c.

(** The end of a candidate. *)
Definition ends_candidate (c : ascii) : bool :=
  is_go_url_separator c || char_in (String "<" (String ">" (String (b 34) (String "'" "")))) c.

(** [trim_end_matches] with a set of bytes. *)
Fixpoint trim_end_chars (chars : string) (s : string) : string :=
  match s with
  | "" => ""
  | String c s' =>
      match trim_end_chars chars s' with
      | "" => if char_in chars c then "" else String c ""
      | r => String c r
      end
  end.

Definition trailing : string := ".,;:!?)]>".

Fixpoint has_valid_percent_escapes (s : string) : bool :=
  match s with
  | "" => true
  | String c s' =>
      (if Ascii.eqb c "%" then
         match s' with
         | String x (String y _) => is_ascii_hexdigit x && is_ascii_hexdigit y
         | _ => false
         end
       else true) && has_valid_percent_escapes s'
  end.

(** The loop of [decoded_path_len]; [skip] bytes of an escape are still to come. *)
Fixpoint decoded_len_from (skip : nat) (path : string) : Z :=
  match path with
  | "" => 0
  | String c path' =>
      match skip with
      | S skip => decoded_len_from skip path'
      | O => 1 + decoded_len_from (if Ascii.eqb c "%" then 2 else 0) path'
      end
  end.

Definition decoded_path_len (path : string) : Z := decoded_len_from 0 path.

(** The host and the port of an authority. *)
Definition host_port (hostport : string) : option (string * option string) :=
  match split_once ":" hostport with
  | Some (host, port) => if contains ":" port then None else Some (host, Some port)
  | None => Some (hostport, None)
  end.

(** [parse_allowed_url]: the length of the decoded path of an allowed link. *)
Definition parse_allowed_url (candidate : string) : option Z :=
  if negb (starts_with "https://" candidate) || negb (has_valid_percent_escapes candidate)
     || contains_control candidate || contains "\" candidate
  then None
  else
    rest ← strip_prefix "https://" candidate;
    let (authority, tail) := span (char_in "/?#") rest in
    if is_empty authority || contains "@" authority then None
    else if starts_with "[" authority then None
    else
      hp ← host_port authority;
      let (host, port) := hp : string * option string in
      if is_empty host
         || match port with
            | Some port => negb (is_empty port) && negb (str_forallb is_ascii_digit port)
            | None => false
            end
      then None
      else
        let host := to_ascii_lowercase host in
        let host := default host (strip_prefix "www." host) in
        if negb (str_in host KNOWN_BROKER_DOMAINS) then None
        else Some (decoded_path_len (span (char_in "?#") tail).1).

(** [text[cursor..].find("http")]: the text from the match on. *)
Fixpoint find_http (s : string) : option string :=
  if starts_with "http" s then Some s
  else match s with "" => None | String _ s' => find_http s' end.

(** The scheme at a match. *)
Definition scheme_of (s : string) : option string :=
  if starts_with "https://" s then Some "https://"
  else if starts_with "http://" s then Some "http://"
  else None.

(** The scanning loop; every turn consumes at least four bytes. [links] and [seen]
    hold the same values. *)
Fixpoint scan_links (fuel : nat) (text : string) (links : list string) : option (list string) :=
  match fuel with
  | O => None
  | S fuel =>
      match find_http text with
      | None => Some links
      | Some found =>
          match scheme_of found with
          | None => scan_links fuel (str_drop 4 found) links
          | Some scheme =>
              let (body, rest) := span ends_candidate (str_drop (String.length scheme) found) in
              let candidate := trim_end_chars trailing (scheme +:+ body) in
              scan_links fuel rest
                (if negb (str_in candidate links) && bool_decide (is_Some (parse_allowed_url candidate))
                 then links ++ [candidate] else links)
          end
      end
  end.

(** The comparison of the sort; the [expect]s hold for validated links. *)
Definition link_leb (left right : string) : bool :=
  let path s := default 0 (parse_allowed_url s) in
  if path left =? path right then len left <=? len right else path left <? path right.

Definition extract_confirmation_links (text : string) : option (list string) :=
  sort_by link_leb <$> scan_links (S (String.length text)) text [].

Example extracts_sorted :
  extract_confirmation_links
    "https://evil.example/c http://acxiom.com/x https://www.acxiom.com/long-confirm https://acxiom.com/confirm. https://acxiom.com/confirm"
  = Some ["https://acxiom.com/confirm"; "https://www.acxiom.com/long-confirm"].
Proof. vm_compute. reflexivity. Qed.

(* ------------------------------------------------------------------ *)
(** ** Only links to known brokers, each once, in order *)

(** ** Scanning *)

(** The candidates of a text, byte by byte: wherever a scheme starts, up to the next
    separator, without trailing punctuation. [skip] bytes belong to the last one. *)
Fixpoint candidates_from (skip : nat) (s : string) : list string :=
  match s with
  | "" => []
  | String c s' =>
      match skip with
      | S skip => candidates_from skip s'
      | O =>
          match scheme_of s with
          | Some scheme =>
              let body := (span ends_candidate (str_drop (String.length scheme) s)).1 in
              trim_end_chars trailing (scheme +:+ body)
                :: candidates_from (String.length scheme + String.length body - 1) s'
          | None => candidates_from 0 s'
          end
      end
  end.

Definition candidates (text : string) : list string := candidates_from 0 text.

Lemma candidates_skip u s : candidates_from (String.length u) (u +:+ s) = candidates s.
Proof. induction u as [|c u IH]; [done|apply IH]. Qed.

Lemma span_app p s x y : span p s = (x, y) → s = x +:+ y.
Proof.
  revert x. induction s as [|c s IH]; intros x; simpl; [by intros [= <- <-]|].
  destruct (p c); [by intros [= <- <-]|]. destruct (span p s) as [u v].
  intros [= <- <-]. simpl. by rewrite <-(IH u).
Qed.

Lemma scheme_of_Some s scheme :
  scheme_of s = Some scheme → (∃ r, s = scheme +:+ r) ∧ (0 < String.length scheme)%nat.
Proof.
  unfold scheme_of. destruct (starts_with "https://" s) eqn:E1.
  { intros [= <-]. split; [by apply starts_with_spec|simpl; lia]. }
  destruct (starts_with "http://" s) eqn:E2; [|done].
  intros [= <-]. split; [by apply starts_with_spec|simpl; lia].
Qed.

Lemma scheme_of_http s : starts_with "http" s = false → scheme_of s = None.
Proof.
  intros Hs. destruct (scheme_of s) as [scheme|] eqn:E; [|done]. exfalso.
  assert (starts_with "http" s = true); [|congruence]. apply starts_with_spec.
  unfold scheme_of in E. destruct (starts_with "https://" s) eqn:E1.
  { apply starts_with_spec in E1 as [t ->]. by eexists. }
  destruct (starts_with "http://" s) eqn:E2; [|done].
  apply starts_with_spec in E2 as [t ->]. by eexists.
Qed.

Lemma candidates_cons c s :
  scheme_of (String c s) = None → candidates (String c s) = candidates s.
Proof. intros Hn. unfold candidates. cbn [candidates_from]. by rewrite Hn. Qed.

Lemma find_http_spec s :
  match find_http s with
  | None => candidates s = []
  | Some found => candidates s = candidates found ∧ starts_with "http" found = true ∧
                  (String.length found ≤ String.length s)%nat
  end.
Proof.
  induction s as [|c s IH]; [done|]. cbn [find_http].
  destruct (starts_with "http" (String c s)) eqn:E; [done|].
  rewrite candidates_cons by (by apply scheme_of_http).
  destruct (find_http s) as [found|]; [|done]. destruct IH as (? & ? & ?).
  split_and!; [done|done|simpl; lia].
Qed.

Lemma candidates_no_scheme found :
  starts_with "http" found = true → scheme_of found = None →
  candidates found = candidates (str_drop 4 found) ∧
  (String.length (str_drop 4 found) < String.length found)%nat.
Proof.
  intros [r ->]%starts_with_spec Hn. split; [|simpl; lia].
  change ("http" +:+ r) with (String "h" (String "t" (String "t" (String "p" r)))) in *.
  rewrite candidates_cons by done. by rewrite !candidates_cons by (by apply scheme_of_http).
Qed.

Lemma candidates_scheme found scheme body rest :
  scheme_of found = Some scheme →
  span ends_candidate (str_drop (String.length scheme) found) = (body, rest) →
  candidates found = trim_end_chars trailing (scheme +:+ body) :: candidates rest ∧
  (String.length rest < String.length found)%nat.
Proof.
  intros Hs Hb. destruct (scheme_of_Some _ _ Hs) as [[r Hr] Hpos].
  pose proof (span_app _ _ _ _ Hb) as Hsplit. rewrite Hr, str_drop_app in Hsplit.
  assert (Hfound : found = (scheme +:+ body) +:+ rest) by (rewrite string_app_assoc; congruence).
  split.
  - destruct found as [|c found].
    { destruct scheme; simpl in *; [lia|done]. }
    unfold candidates at 1. cbn [candidates_from]. rewrite Hs, Hb. cbn [fst]. f_equal.
    destruct scheme as [|d scheme]; [simpl in Hpos; lia|].
    simpl in Hfound. injection Hfound as -> ->. simpl. rewrite Nat.sub_0_r.
    rewrite <-string_length_app. apply candidates_skip.
  - rewrite Hfound, !string_length_app. lia.
Qed.

(** The links kept of a list of candidates. *)
Definition keep_link (links : list string) (candidate : string) : list string :=
  if negb (str_in candidate links) && bool_decide (is_Some (parse_allowed_url candidate))
  then links ++ [candidate] else links.

Lemma scan_links_candidates fuel text links :
  (String.length text < fuel)%nat →
  scan_links fuel text links = Some (fold_left keep_link (candidates text) links).
Proof.
  revert text links. induction fuel as [|fuel IH]; intros text links Hfuel; [lia|].
  cbn [scan_links]. pose proof (find_http_spec text) as Hfind.
  destruct (find_http text) as [found|]; [|by rewrite Hfind].
  destruct Hfind as (-> & Hhttp & Hlen). destruct (scheme_of found) as [scheme|] eqn:Hs.
  - destruct (span _ _) as [body rest] eqn:Hb.
    destruct (candidates_scheme _ _ _ _ Hs Hb) as [-> Hlt]. rewrite IH by lia. done.
  - destruct (candidates_no_scheme found Hhttp Hs) as [-> Hlt]. by rewrite IH by lia.
Qed.

Lemma keep_links_spec cs links :
  NoDup links →
  NoDup (fold_left keep_link cs links) ∧
  ∀ l, l ∈ fold_left keep_link cs links ↔ l ∈ links ∨ l ∈ cs ∧ is_Some (parse_allowed_url l).
Proof.
  revert links. induction cs as [|c cs IH]; intros links Hnd; simpl; [set_solver|].
  assert (Hk : NoDup (keep_link links c) ∧
    ∀ l, l ∈ keep_link links c ↔ l ∈ links ∨ l = c ∧ is_Some (parse_allowed_url l)).
  { unfold keep_link. destruct (str_in c links) eqn:Hin; simpl.
    - apply str_in_spec in Hin. naive_solver.
    - assert (c ∉ links) by (rewrite <-str_in_spec; congruence).
      case_bool_decide as Hp; [|naive_solver]. split; [|set_solver].
      apply NoDup_app. split; [done|]. split; [set_solver|apply NoDup_singleton]. }
  destruct Hk as [Hnd1 Hk]. destruct (IH _ Hnd1) as [Hnd2 Hl]. split; [done|].
  intros l. rewrite Hl, Hk, elem_of_cons. naive_solver.
Qed.

Lemma link_leb_total x y : link_leb x y = true ∨ link_leb y x = true.
Proof.
  unfold link_leb. rewrite (Z.eqb_sym (default 0 (parse_allowed_url y))).
  destruct (Z.eqb_spec (default 0 (parse_allowed_url x)) (default 0 (parse_allowed_url y)));
    rewrite ?Z.leb_le, ?Z.ltb_lt; lia.
Qed.

Lemma link_leb_trans x y z : link_leb x y = true → link_leb y z = true → link_leb x z = true.
Proof.
  unfold link_leb. generalize (default 0 (parse_allowed_url x)) (default 0 (parse_allowed_url y))
    (default 0 (parse_allowed_url z)). intros a b' c.
  destruct (Z.eqb_spec a b'), (Z.eqb_spec b' c), (Z.eqb_spec a c);
    rewrite ?Z.leb_le, ?Z.ltb_lt; lia.
Qed.

(** ** The allowlist *)

Definition free_of (chars s : string) : bool := str_forallb (λ c, negb (char_in chars c)) s.

(** The broker a host names: its lower-case form without a leading [www.]. *)
Definition broker_of (host : string) : string :=
  let host := to_ascii_lowercase host in default host (strip_prefix "www." host).

Definition port_part (p : string) : Prop :=
  p = "" ∨ ∃ digits, p = String ":" digits ∧ str_forallb is_ascii_digit digits = true.

Definition tail_part (t : string) : Prop :=
  t = "" ∨ ∃ c r, t = String c r ∧ char_in "/?#" c = true.

(** An allowed link: [https], a known broker's host without user information, an
    optional port, then a path, query or fragment or nothing. *)
Definition allowed_link (l : string) : Prop :=
  has_valid_percent_escapes l = true ∧ contains_control l = false ∧ contains "\" l = false ∧
  ∃ host port tail, l = "https://" +:+ host +:+ port +:+ tail ∧
    free_of "/?#@:" host = true ∧ broker_of host ∈ KNOWN_BROKER_DOMAINS ∧
    port_part port ∧ tail_part tail.

Lemma char_in_cons x chars c : char_in (String x chars) c = Ascii.eqb c x || char_in chars c.
Proof.
  unfold char_in, str_existsb. simpl. by rewrite negb_andb, !negb_involutive.
Qed.

Lemma span_stop p s x y :
  span p s = (x, y) ↔
  s = x +:+ y ∧ str_forallb (λ c, negb (p c)) x = true ∧
  (y = "" ∨ ∃ c r, y = String c r ∧ p c = true).
Proof.
  revert x. induction s as [|c s IH]; intros x; simpl.
  - split; [intros [= <- <-]; auto|]. intros (Hs & _). by destruct x, y.
  - destruct (p c) eqn:Hc; split.
    + intros [= <- <-]. split_and!; [done|done|]. right. eauto.
    + intros (Hs & Hx & _). destruct x as [|d x]; simpl in *; [by rewrite Hs|].
      injection Hs as <- ->. by rewrite Hc in Hx.
    + destruct (span p s) as [u v]. intros [= <- <-].
      destruct (proj1 (IH u) eq_refl) as (-> & Hu & Hv). simpl. by rewrite Hc.
    + intros (Hs & Hx & Hy). destruct x as [|d x]; simpl in *.
      * destruct Hy as [->|(d & r & -> & Hd)]; [done|]. injection Hs as <- <-. congruence.
      * injection Hs as <- ->. apply andb_true_iff in Hx as [_ Hx].
        by rewrite (proj2 (IH x) (conj eq_refl (conj Hx Hy))).
Qed.

Lemma str_forallb_weaken (p q : ascii → bool) s :
  (∀ c, p c = true → q c = true) → str_forallb p s = true → str_forallb q s = true.
Proof.
  intros Hpq. induction s as [|c s IH]; simpl; [done|]. rewrite !andb_true_iff.
  intros [Hc Hs]. auto.
Qed.

Lemma str_forallb_both (p q : ascii → bool) s :
  str_forallb p s = true → str_forallb q s = true → str_forallb (λ c, p c && q c) s = true.
Proof.
  induction s as [|c s IH]; simpl; [done|]. rewrite !andb_true_iff. naive_solver.
Qed.

Lemma known_host_first host c s :
  broker_of host ∈ KNOWN_BROKER_DOMAINS → host = String c s → c ≠ "["%char.
Proof.
  intros Hk -> ->. unfold broker_of in Hk. simpl in Hk.
  unfold KNOWN_BROKER_DOMAINS in Hk. rewrite !elem_of_cons, elem_of_nil in Hk.
  naive_solver.
Qed.

Definition without (c : ascii) (s : string) : bool := str_forallb (λ d, negb (Ascii.eqb d c)) s.

Lemma split_once_without c s : split_once c s = None ↔ without c s = true.
Proof.
  unfold without. induction s as [|d s IH]; simpl; [done|].
  destruct (Ascii.eqb d c); simpl; [done|]. rewrite <-IH.
  destruct (split_once c s) as [[]|]; naive_solver.
Qed.

Lemma free_of_host_chars s :
  free_of "/?#@:" s = true ↔
  free_of "/?#" s = true ∧ without "@" s = true ∧ without ":" s = true.
Proof.
  unfold free_of, without. induction s as [|c s IH]; cbn [str_forallb]; [done|].
  rewrite !andb_true_iff, IH, !char_in_cons.
  destruct (Ascii.eqb c "/"), (Ascii.eqb c "?"), (Ascii.eqb c "#"), (Ascii.eqb c "@"),
    (Ascii.eqb c ":"); simpl; naive_solver.
Qed.

Lemma digits_without s :
  str_forallb is_ascii_digit s = true →
  free_of "/?#" s = true ∧ without "@" s = true ∧ without ":" s = true.
Proof.
  intros Hs. rewrite <-free_of_host_chars. revert Hs. apply str_forallb_weaken.
  intros c. by destruct c as [[] [] [] [] [] [] [] []].
Qed.

(** The host and the port of an authority, declaratively. *)
Lemma host_port_spec authority host port :
  host_port authority = Some (host, port) ↔
  without ":" host = true ∧
  match port with
  | Some port => authority = host +:+ String ":" port ∧ without ":" port = true
  | None => authority = host
  end.
Proof.
  unfold host_port. destruct (split_once ":" authority) as [[x y]|] eqn:E.
  - apply split_once_Some in E as [-> Hx]. fold (without ":" x) in Hx.
    destruct (contains ":" y) eqn:Hy.
    + split; [done|]. intros [Hh Hp]. exfalso. destruct port as [port|].
      * destruct Hp as [Heq Hp]. apply split_once_app with (y:=port) in Hh.
        rewrite <-Heq, split_once_app in Hh by done. injection Hh as <- <-.
        apply contains_char_false in Hp. congruence.
      * apply split_once_without in Hh. by rewrite <-Hp, split_once_app in Hh.
    + apply contains_char_false in Hy. split; [by intros [= <- <-]|]. intros [Hh Hp].
      destruct port as [port|].
      * destruct Hp as [Heq Hp]. apply split_once_app with (y:=port) in Hh.
        rewrite <-Heq, split_once_app in Hh by done. by injection Hh as <- <-.
      * apply split_once_without in Hh. by rewrite <-Hp, split_once_app in Hh.
  - apply split_once_without in E. split; [by intros [= <- <-]|]. intros [Hh Hp].
    destruct port as [port|]; [|by rewrite Hp]. destruct Hp as [-> _]. exfalso.
    apply split_once_without in E. by rewrite split_once_app in E.
Qed.

Lemma parse_allowed_sound l : is_Some (parse_allowed_url l) → allowed_link l.
Proof.
  unfold parse_allowed_url, allowed_link. intros [n Hn].
  destruct (starts_with "https://" l) eqn:Hstart; [|done].
  destruct (has_valid_percent_escapes l) eqn:Hesc; [|done].
  destruct (contains_control l) eqn:Hctl; [done|].
  destruct (contains "\" l) eqn:Hbs; [done|]. cbn [negb orb] in Hn.
  split_and!; [done..|].
  destruct (strip_prefix "https://" l) as [rest|] eqn:Hrest; [|done].
  apply strip_prefix_Some in Hrest. cbn [mbind option_bind] in Hn.
  destruct (span (char_in "/?#") rest) as [authority tail] eqn:Hspan.
  apply span_stop in Hspan as (-> & Hauth & Htail).
  destruct (is_empty authority) eqn:Hne; [done|]. destruct (contains "@" authority) eqn:Hat; [done|].
  destruct (starts_with "[" authority); [done|]. cbn [orb] in Hn.
  destruct (host_port authority) as [[host port]|] eqn:Hhp; [|done]. cbn [mbind option_bind] in Hn.
  destruct (is_empty host) eqn:Hhe; [done|]. cbn [orb] in Hn.
  destruct (match port with Some _ => _ | None => _ end) eqn:Hdig; [done|].
  fold (broker_of host) in Hn. destruct (str_in (broker_of host) KNOWN_BROKER_DOMAINS) eqn:Hknown;
    [|done]. apply str_in_spec in Hknown. apply contains_char_false in Hat.
  apply host_port_spec in Hhp as [Hcolon Hport].
  exists host, (match port with Some p => String ":" p | None => "" end), tail.
  assert (Hsplit : authority = host +:+ match port with Some p => String ":" p | None => "" end).
  { destruct port; [by destruct Hport as [-> _]|]. by rewrite string_app_nil_r. }
  rewrite Hsplit in Hauth, Hat. rewrite str_forallb_app, andb_true_iff in Hauth, Hat.
  split_and!; [|by apply free_of_host_chars; naive_solver|done| |done].
  - rewrite Hrest, Hsplit. by rewrite !string_app_assoc.
  - destruct port as [p|]; [right|by left]. exists p. split; [done|].
    destruct (is_empty p) eqn:Hp; [by apply is_empty_spec in Hp as ->|]. simpl in Hdig.
    by apply negb_false_iff in Hdig.
Qed.

Lemma port_part_cases port :
  port_part port →
  free_of "/?#" port = true ∧ without "@" port = true ∧
  ∃ p, (∀ host, without ":" host = true → host_port (host +:+ port) = Some (host, p)) ∧
    match p with Some p => negb (is_empty p) && negb (str_forallb is_ascii_digit p) | None => false end = false.
Proof.
  intros [->|(digits & -> & Hd)].
  - split_and!; [done|done|]. exists None. split; [|done]. intros host Hh.
    apply host_port_spec. by rewrite string_app_nil_r.
  - destruct (digits_without digits Hd) as (Hf & Hat & Hc).
    split; [|split]; [unfold free_of in *; simpl; by rewrite Hf|unfold without in *; simpl; by rewrite Hat|].
    exists (Some digits). split; [|by rewrite Hd, andb_false_r].
    intros host Hh. by apply host_port_spec.
Qed.

Lemma parse_allowed_complete l : allowed_link l → is_Some (parse_allowed_url l).
Proof.
  intros (Hesc & Hctl & Hbs & host & port & tail & -> & Hhost & Hknown & Hport & Htail).
  unfold parse_allowed_url. rewrite starts_with_app, Hesc, Hctl, Hbs. cbn [negb orb].
  rewrite (proj2 (strip_prefix_Some "https://" _ _) eq_refl). cbn [mbind option_bind].
  apply free_of_host_chars in Hhost as (Hf & Hat & Hcolon).
  destruct (port_part_cases port Hport) as (Hpf & Hpat & p & Hhp & Hdig).
  rewrite (proj2 (span_stop (char_in "/?#") _ (host +:+ port) tail)).
  2:{ split; [by rewrite string_app_assoc|]. split; [|done].
      rewrite str_forallb_app. unfold free_of in *. by rewrite Hf, Hpf. }
  assert (Hne : ∃ c s, host = String c s).
  { destruct host as [|c s]; [|by eauto]. exfalso. revert Hknown. unfold KNOWN_BROKER_DOMAINS.
    by rewrite !elem_of_cons, elem_of_nil; naive_solver. }
  destruct Hne as (c & s & ->).
  assert (He : is_empty (String c s +:+ port) = false) by done. rewrite He. cbn [orb].
  assert (Hnat : contains "@" (String c s +:+ port) = false).
  { apply contains_char_false. rewrite str_forallb_app. unfold without in *. by rewrite Hat, Hpat. }
  rewrite Hnat. assert (Hbr : starts_with "[" (String c s +:+ port) = false).
  { apply not_true_iff_false. intros [t Ht]%starts_with_spec. simpl in Ht. injection Ht as -> _.
    by eapply known_host_first. }
  rewrite Hbr, (Hhp _ Hcolon). cbn [mbind option_bind is_empty orb]. rewrite Hdig.
  fold (broker_of (String c s)). rewrite (proj2 (str_in_spec _ _) Hknown). cbn [negb]. by eexists.
Qed.

(** C34: extraction always ends; it returns each link once, and exactly the candidates
    of the text that are [https] links to the host of a known broker, or its [www]
    name, with no user information, an all-digit port and valid escapes; ordered by
    the length of the decoded path, then of the link. *)
Theorem extract_confirmation_links_spec text :
  ∃ links, extract_confirmation_links text = Some links ∧ NoDup links ∧
    (∀ l, l ∈ links ↔ l ∈ candidates text ∧ allowed_link l) ∧
    StronglySorted (λ x y, link_leb x y = true) links.
Proof.
  unfold extract_confirmation_links. rewrite scan_links_candidates by lia.
  destruct (keep_links_spec (candidates text) [] (NoDup_nil_2 (A:=string))) as [Hnd Hl].
  eexists. split; [done|]. split; [|split].
  - by rewrite sort_by_Permutation.
  - intros l. rewrite elem_of_sort_by, Hl. split.
    + intros [Hn|[Hc Hp]]; [by apply elem_of_nil in Hn|]. split; [done|by apply parse_allowed_sound].
    + intros [Hc Ha]. right. split; [done|by apply parse_allowed_complete].
  - apply sort_by_StronglySorted; [apply link_leb_total|apply link_leb_trans].
Qed.
