(* ===== verification/MailParse.v ===== *)
(** * MailParse: [symeraseme-core/src/email/parse.rs]

    Header blocks, encoded words and dates of fetched messages.  Bytes and text are
    both byte strings; the two lossy UTF-8 conversions are spelled out.  Base64 and
    chrono's calendar are the class [MailLib]; the one regular expression,
    [<[^>]+>], is [first_message_id]. *)
From S2P Require Import Prelude.
From S2P Require Import Text.

(** chrono's [DateTime<FixedOffset>]: the instant and the zone in seconds. *)
Record DateTimeFixed := { dt_instant : Z; dt_zone : Z }.

Class MailLib := {
  base64_decode : string → option string;
  (** [from_ymd_opt], [and_hms_opt] and [from_local_datetime(..).single()]. *)
  local_datetime : Z → Z → Z → Z → Z → Z → Z → option Z;
}.

(** [session.rs] *)
Record FetchedMessage := {
  fm_uid : Z;
  fm_header : string;
  fm_body : string;
  fm_flags : option (list string);
  fm_internal_date : option Z;
}.

(** [types.rs] *)
Record Message := {
  ms_id : string;
  ms_subject : string;
  ms_from : string;
  ms_to : string;
  ms_date : option DateTimeFixed;
  ms_body : string;
  ms_flags : option (list string);
  ms_message_id : string;
  ms_thread_id : string;
  ms_imap_uid : Z;
}.

(** ** UTF-8 *)

Inductive Utf8Step : Set :=
| Valid (n : nat)       (** a character of [n] bytes *)
| Invalid (k : nat)     (** an ill-formed prefix of [k] bytes *)
| Incomplete.           (** a prefix of a character at the end *)

Definition cont : ascii → bool := byte_in 128 191.

(** What the bytes after a lead byte must be. *)
Definition utf8_tail (c : ascii) : option (list (ascii → bool)) :=
  if byte_in 0 127 c then Some []
  else if byte_in 194 223 c then Some [cont]
  else if byte_in 224 224 c then Some [byte_in 160 191; cont]
  else if byte_in 225 236 c || byte_in 238 239 c then Some [cont; cont]
  else if byte_in 237 237 c then Some [byte_in 128 159; cont]
  else if byte_in 240 240 c then Some [byte_in 144 191; cont; cont]
  else if byte_in 241 243 c then Some [cont; cont; cont]
  else if byte_in 244 244 c then Some [byte_in 128 143; cont; cont]
  else None.

Fixpoint match_tail (n : nat) (ps : list (ascii → bool)) (s : string) : Utf8Step :=
  match ps, s with
  | [], _ => Valid n
  | _, "" => Incomplete
  | p :: ps, String c s => if p c then match_tail (S n) ps s else Invalid n
  end.

Definition utf8_step (s : string) : Utf8Step :=
  match s with
  | "" => Incomplete
  | String c s' =>
      match utf8_tail c with None => Invalid 1 | Some ps => match_tail 1 ps s' end
  end.

(** U+FFFD *)
Definition fffd : string := String (b 239) (String (b 191) (String (b 189) "")).

(** The loop of [to_valid_utf8_lossy_per_byte]; [copy] bytes of a valid character are
    still to come. *)
Fixpoint lossy_from (copy : nat) (s : string) : string :=
  match s with
  | "" => ""
  | String c s' =>
      match copy with
      | S copy => String c (lossy_from copy s')
      | O =>
          match utf8_step s with
          | Valid n => String c (lossy_from (n - 1) s')
          | _ => fffd +:+ lossy_from 0 s'
          end
      end
  end.

Definition to_valid_utf8_lossy_per_byte (bytes : string) : string := lossy_from 0 bytes.

(** [String::from_utf8_lossy]: one replacement for each ill-formed prefix. *)
Fixpoint from_utf8_lossy_go (copy skip : nat) (s : string) : string :=
  match s with
  | "" => ""
  | String c s' =>
      match copy, skip with
      | S copy, _ => String c (from_utf8_lossy_go copy 0 s')
      | O, S skip => from_utf8_lossy_go 0 skip s'
      | O, O =>
          match utf8_step s with
          | Valid n => String c (from_utf8_lossy_go (n - 1) 0 s')
          | Invalid k => fffd +:+ from_utf8_lossy_go 0 (k - 1) s'
          | Incomplete => fffd
          end
      end
  end.

Definition from_utf8_lossy (bytes : string) : string := from_utf8_lossy_go 0 0 bytes.

(** ** The header block *)

Definition is_blank (c : ascii) : bool := Ascii.eqb c " " || Ascii.eqb c (b 9).

Fixpoint trim_blank_start (s : string) : string :=
  match s with
  | "" => ""
  | String c s' => if is_blank c then trim_blank_start s' else s
  end.

Definition trim_spaces (s : string) : string :=
  str_rev (trim_blank_start (str_rev (trim_blank_start s))).

Definition continues (line : string) : bool :=
  match line with String c _ => is_blank c | "" => false end.

(** The field of a folded line. *)
Definition header_field (folded : string) : result string (list (string * string)) :=
  match split_once ":" folded with
  | None => Err ("malformed header line: " +:+ folded)
  | Some (key, value) => Ok (if is_empty key then [] else [(key, trim_spaces value)])
  end.

(** The loop over the lines, with the line being folded. *)
Fixpoint header_fields (folded : option string) (lines : list string)
    : result string (list (string * string)) :=
  let finish := match folded with None => Ok [] | Some f => header_field f end in
  match lines with
  | [] => finish
  | line :: lines =>
      match folded with
      | Some f =>
          if continues line then header_fields (Some (f +:+ " " +:+ trim_spaces line)) lines
          else
            fields ← finish;
            if is_empty line then Ok fields
            else rest ← header_fields (Some (trim_spaces line)) lines; Ok (fields ++ rest)
      | None =>
          if is_empty line then Ok [] else header_fields (Some (trim_spaces line)) lines
      end
  end.

Definition read_header (header : string) : result string (list (string * string)) :=
  let lines := (λ l, default l (strip_suffix (String (b 13) "") l)) <$>
                 split (b 10) (from_utf8_lossy header) in
  match lines with
  | first :: _ =>
      if continues first then Err ("malformed initial line: " +:+ first)
      else header_fields None lines
  | [] => header_fields None lines
  end.

Definition eq_ignore_ascii_case (s t : string) : bool :=
  String.eqb (to_ascii_lowercase s) (to_ascii_lowercase t).

Definition header_value (fields : list (string * string)) (name : string) : option string :=
  snd <$> List.find (λ kv, eq_ignore_ascii_case kv.1 name) fields.

(** ** Encoded words *)

(** [str::find]: the text before the first match, and the text after it. *)
Fixpoint find_sub (p s : string) : option (string * string) :=
  match strip_prefix p s with
  | Some rest => Some ("", rest)
  | None =>
      match s with
      | "" => None
      | String c s' => (λ xy : string * string, (String c xy.1, xy.2)) <$> find_sub p s'
      end
  end.

Definition from_hex (c : ascii) : option nat :=
  let n := nat_of_ascii c in
  if byte_in 48 57 c then Some (n - 48)%nat
  else if byte_in 65 70 c then Some (n - 55)%nat
  else if byte_in 97 102 c then Some (n - 87)%nat
  else None.

Fixpoint quoted_printable_decode (s : string) : option string :=
  match s with
  | "" => Some ""
  | String c s' =>
      if Ascii.eqb c "_" then String " " <$> quoted_printable_decode s'
      else if Ascii.eqb c "=" then
        match s' with
        | String x (String y rest) =>
            high ← from_hex x; low ← from_hex y;
            String (b (high * 16 + low)) <$> quoted_printable_decode rest
        | _ => None
        end
      else if byte_in 32 126 c || byte_in 9 10 c || byte_in 13 13 c then
        String c <$> quoted_printable_decode s'
      else None
  end.

(** [byte as char] *)
Definition latin1_char (c : ascii) : string :=
  let n := nat_of_ascii c in
  if (n <? 128)%nat then String c ""
  else String (b (192 + n / 64)) (String (b (128 + n mod 64)) "").

Fixpoint str_concat_map (f : ascii → string) (s : string) : string :=
  match s with "" => "" | String c s' => f c +:+ str_concat_map f s' end.

Definition convert_charset (charset content : string) : option string :=
  if eq_ignore_ascii_case charset "utf-8" then Some (to_valid_utf8_lossy_per_byte content)
  else if eq_ignore_ascii_case charset "iso-8859-1" then Some (str_concat_map latin1_char content)
  else if eq_ignore_ascii_case charset "us-ascii" then
    Some (str_concat_map (λ c, if byte_in 128 255 c then fffd else String c "") content)
  else None.

Definition has_non_whitespace (s : string) : bool :=
  negb (str_forallb (λ c, is_blank c || byte_in 10 10 c || byte_in 13 13 c) s).

Section parse.
Context `{MailLib}.

Definition decode_word (encoding : ascii) (text : string) : option string :=
  if Ascii.eqb encoding "B" || Ascii.eqb encoding "b" then base64_decode text
  else if Ascii.eqb encoding "Q" || Ascii.eqb encoding "q" then quoted_printable_decode text
  else None.

(** An encoded word's parts: what precedes it, its charset, encoding and text, and
    what follows it; [None] where the loop breaks. *)
Definition next_word (header : string) : option (string * string * ascii * string * string) :=
  p ← find_sub "=?" header;
  c ← split_once "?" p.2;
  match c.2 with
  | String encoding (String mark (String x rest)) =>
      if Ascii.eqb mark "?" then
        t ← find_sub "?=" (String x rest);
        Some (p.1, c.1, encoding, t.1, t.2)
      else None
  | _ => None
  end.

Definition word_text (charset : string) (encoding : ascii) (text : string) : string :=
  "=?" +:+ charset +:+ "?" +:+ String encoding ("?" +:+ text +:+ "?=").

(** The loop; every word consumes at least six bytes. *)
Fixpoint decode_words (fuel : nat) (header : string) (between_words : bool) : option string :=
  match fuel with
  | O => Some header
  | S fuel =>
      match next_word header with
      | None => Some header
      | Some (prefix, charset, encoding, text, rest) =>
          match decode_word encoding text with
          | None =>
              out ← decode_words fuel rest false;
              Some (prefix +:+ word_text charset encoding text +:+ out)
          | Some content =>
              converted ← convert_charset charset content;
              out ← decode_words fuel rest true;
              Some ((if negb (is_empty prefix) && (negb between_words || has_non_whitespace prefix)
                     then prefix else "") +:+ converted +:+ out)
          end
      end
  end.

Definition decode_header (value : string) : option string :=
  match find_sub "=?" value with
  | None => Some value
  | Some (prefix, rest) =>
      out ← decode_words (S (String.length value)) ("=?" +:+ rest) false;
      Some (prefix +:+ out)
  end.

(** ** Message ids *)

(** The leftmost [<...>] with at least one character between the brackets. *)
Fixpoint first_message_id (s : string) : string :=
  match s with
  | "" => ""
  | String c s' =>
      if Ascii.eqb c "<" then
        match split_once ">" s' with
        | Some (id, _) => if is_empty id then first_message_id s' else "<" +:+ id +:+ ">"
        | None => ""
        end
      else first_message_id s'
  end.

(** ** Dates *)

Fixpoint split_ws_go (skip : nat) (current : string) (s : string) : list string :=
  let emit l := if is_empty current then l else str_rev current :: l in
  match s with
  | "" => emit []
  | String c s' =>
      match skip with
      | S skip => split_ws_go skip current s'
      | O =>
          match ws_len whitespace s with
          | S k => emit (split_ws_go k "" s')
          | O => split_ws_go 0 (String c current) s'
          end
      end
  end.

Definition split_whitespace (s : string) : list string := split_ws_go 0 "" s.

Definition month_number (name : string) : option Z :=
  (λ p : nat * string, Z.of_nat p.1 + 1) <$>
    List.find (λ p : nat * string, String.eqb p.2 (to_ascii_lowercase name))
      (imap pair ["jan"; "feb"; "mar"; "apr"; "may"; "jun"; "jul"; "aug"; "sep"; "oct"; "nov"; "dec"]).

Definition parse_i32 : string → option Z := parse_int (-2147483648) 2147483647.

(** [value.get(a..b)]: no slice through a character. *)
Definition str_get (a b' : nat) (s : string) : option string :=
  let boundary i := match String.get i s with Some c => negb (cont c) | None => (i =? String.length s)%nat end in
  if (b' <=? String.length s)%nat && boundary a && boundary b'
  then Some (String.substring a (b' - a) s) else None.

Definition east_opt (seconds : Z) : option Z :=
  if (-86400 <? seconds) && (seconds <? 86400) then Some seconds else None.

Fixpoint str_filter (p : ascii → bool) (s : string) : string :=
  match s with "" => "" | String c s' => if p c then String c (str_filter p s') else str_filter p s' end.

Definition parse_zone (value : string) : option Z :=
  match value with
  | "" => None
  | String c _ =>
      let numeric (sign : Z) :=
        if (String.length value <? 5)%nat then None
        else
          hours ← str_get 1 3 value ≫= parse_i32;
          minutes ← str_get 3 5 value ≫= parse_i32;
          east_opt (sign * (hours * 3600 + minutes * 60)) in
      if Ascii.eqb c "+" then numeric 1
      else if Ascii.eqb c "-" then numeric (-1)
      else if (String.length (str_filter is_ascii_alphabetic value) =? 3)%nat then east_opt 0
      else None
  end.

(** [as i32] of a sum. *)
Definition wrap_i32 (z : Z) : Z := (z + 2 ^ 31) mod 2 ^ 32 - 2 ^ 31.

Definition date_year (text : string) : option Z :=
  if (String.length text =? 4)%nat && str_forallb is_ascii_digit text then parse_i32 text
  else
    short ← parse_i32 text;
    Some (if 69 <=? short then wrap_i32 (1900 + short) else wrap_i32 (2000 + short)).

Definition parse_clock (text : string) : option (Z * Z * Z) :=
  match split ":" text with
  | h :: m :: rest =>
      hour ← parse_u32 h; minute ← parse_u32 m;
      second ← match rest with s :: _ => parse_u32 s | [] => Some 0 end;
      Some (hour, minute, second)
  | _ => None
  end.

Definition parse_date (value : string) : option DateTimeFixed :=
  let text := trim value in
  let rest := match split_once "," text with Some (_, r) => trim_start r | None => text end in
  match split_whitespace rest with
  | day :: month :: year :: clock :: zone :: _ =>
      day ← parse_u32 day; month ← month_number month; year ← date_year year;
      hms ← parse_clock clock; offset ← parse_zone zone;
      instant ← local_datetime year month day hms.1.1 hms.1.2 hms.2 offset;
      Some {| dt_instant := instant; dt_zone := offset |}
  | _ => None
  end.

(** ** Messages *)

(** A decoded header field; an undecodable one is kept raw. *)
Definition decoded_field (fields : list (string * string)) (name : string) : string :=
  match header_value fields name with
  | None => ""
  | Some raw => if is_empty raw then "" else default raw (decode_header raw)
  end.

Definition parse_fetched_message (fetched : FetchedMessage) : result string Message :=
  fields ← read_header (fm_header fetched);
  let message_id := decoded_field fields "Message-ID" in
  let thread_id := first_message_id (decoded_field fields "References") in
  let thread_id := if is_empty thread_id then first_message_id (decoded_field fields "In-Reply-To")
                   else thread_id in
  let thread_id := if is_empty thread_id then first_message_id message_id else thread_id in
  let date := match header_value fields "Date" with
              | Some text => if is_empty text then None else parse_date text
              | None => None
              end in
  let date := match date with
              | Some d => Some d
              | None => (λ t, {| dt_instant := t; dt_zone := 0 |}) <$> fm_internal_date fetched
              end in
  Ok {| ms_id := show (fm_uid fetched);
        ms_subject := decoded_field fields "Subject"; ms_from := decoded_field fields "From";
        ms_to := decoded_field fields "To"; ms_date := date;
        ms_body := to_valid_utf8_lossy_per_byte (fm_body fetched);
        ms_flags := match fm_flags fetched with Some [] | None => None | flags => flags end;
        ms_message_id := message_id; ms_thread_id := thread_id; ms_imap_uid := fm_uid fetched |}.
End parse.

(* ------------------------------------------------------------------ *)
(** ** Lossy UTF-8, encoded words and zones *)

(** ** UTF-8 *)

(** Well-formed UTF-8: characters, each a lead byte and the bytes it calls for. *)
Inductive utf8 : string → Prop :=
| utf8_nil : utf8 ""
| utf8_char lead ps tail rest :
    utf8_tail lead = Some ps →
    Forall2 (λ p c, p c = true) ps (list_ascii_of_string tail) →
    utf8 rest → utf8 (String lead (tail +:+ rest)).

Lemma match_tail_valid n ps s m :
  match_tail n ps s = Valid m →
  ∃ tail rest, s = tail +:+ rest ∧ m = (n + String.length tail)%nat ∧
    Forall2 (λ p c, p c = true) ps (list_ascii_of_string tail).
Proof.
  induction ps as [|p ps IH] in n, s |- *; cbn [match_tail].
  { intros [= ->]. exists "", s. split_and!; [done|cbn; lia|constructor]. }
  destruct s as [|c s]; [done|]. destruct (p c) eqn:Ec; [|done]. intros Hm.
  destruct (IH _ _ Hm) as (tail & rest & -> & -> & Hf).
  exists (String c tail), rest. split_and!; [done|cbn; lia|by constructor].
Qed.

Lemma match_tail_complete n ps tail rest :
  Forall2 (λ p c, p c = true) ps (list_ascii_of_string tail) →
  match_tail n ps (tail +:+ rest) = Valid (n + String.length tail).
Proof.
  induction ps as [|p ps IH] in n, tail |- *; intros Hf.
  - apply Forall2_nil_inv_l in Hf. destruct tail; [|done]. cbn. f_equal. lia.
  - apply Forall2_cons_inv_l in Hf as (c & l & Hc & Hf & Hl).
    destruct tail as [|d tail]; [done|]. cbn in Hl. simplify_eq. cbn [match_tail].
    change (String c tail +:+ rest) with (String c (tail +:+ rest)). cbn. rewrite Hc, IH by done.
    f_equal. lia.
Qed.

Lemma lossy_copies u s : lossy_from (String.length u) (u +:+ s) = u +:+ lossy_from 0 s.
Proof. induction u as [|c u IH]; cbn; [done|]. by rewrite IH. Qed.

Lemma utf8_fffd s : utf8 s → utf8 (fffd +:+ s).
Proof.
  intros Hs. apply (utf8_char (b 239) [cont; cont] (String (b 191) (String (b 189) ""))); [done| |done].
  repeat constructor.
Qed.

(** [to_valid_utf8_lossy_per_byte] always gives well-formed UTF-8, and leaves exactly
    the well-formed texts as they are. *)
Theorem to_valid_utf8_lossy_per_byte_spec bytes :
  utf8 (to_valid_utf8_lossy_per_byte bytes) ∧
  (to_valid_utf8_lossy_per_byte bytes = bytes ↔ utf8 bytes).
Proof.
  assert (Hvalid : utf8 (to_valid_utf8_lossy_per_byte bytes)).
  { unfold to_valid_utf8_lossy_per_byte. remember (String.length bytes) as n eqn:Hn.
    revert bytes Hn. induction n as [n IH] using (well_founded_induction lt_wf).
    intros [|c s] ->; [constructor|]. cbn [lossy_from].
    destruct (utf8_step (String c s)) as [m|k|] eqn:Es;
      [|apply utf8_fffd; eapply IH; [|done]; cbn; lia..].
    unfold utf8_step in Es. destruct (utf8_tail c) as [ps|] eqn:Et; [|done].
    apply match_tail_valid in Es as (tail & rest & -> & -> & Hf).
    replace (1 + String.length tail - 1)%nat with (String.length tail) by lia.
    rewrite lossy_copies. eapply utf8_char; [done..|]. eapply IH; [|done].
    cbn. rewrite string_length_app. lia. }
  split; [done|]. split; [by intros <-|].
  unfold to_valid_utf8_lossy_per_byte. clear Hvalid.
  induction 1 as [|lead ps tail rest Ht Hf Hr IH]; [done|]. cbn [lossy_from].
  unfold utf8_step. rewrite Ht, match_tail_complete by done.
  replace (1 + String.length tail - 1)%nat with (String.length tail) by lia.
  by rewrite lossy_copies, IH.
Qed.

(** ** Encoded words *)

Lemma find_sub_Some p s x y : find_sub p s = Some (x, y) → s = x +:+ p +:+ y.
Proof.
  induction s as [|c s IH] in x |- *; cbn [find_sub].
  - destruct (strip_prefix p "") as [r|] eqn:E; [|done]. intros [= <- <-].
    by apply strip_prefix_Some in E.
  - destruct (strip_prefix p (String c s)) as [r|] eqn:E.
    { intros [= <- <-]. by apply strip_prefix_Some in E. }
    destruct (find_sub p s) as [[x' y']|]; [|done]. intros [= <- <-]. cbn. f_equal. by apply IH.
Qed.

Section words.
Context `{MailLib}.

(** What is left after a word is shorter by at least six bytes. *)
Lemma next_word_shorter header prefix charset encoding text rest :
  next_word header = Some (prefix, charset, encoding, text, rest) →
  header = prefix +:+ word_text charset encoding text +:+ rest ∧
  (String.length rest + 6 ≤ String.length header)%nat.
Proof.
  unfold next_word. intros Hn.
  apply bind_Some in Hn as ([p1 p2] & E1 & Hn). cbn [fst snd] in *.
  apply bind_Some in Hn as ([c1 c2] & E2 & Hn). cbn [fst snd] in *.
  destruct c2 as [|enc [|mark [|x c2]]]; try done.
  destruct (Ascii.eqb mark "?") eqn:Em; [apply Ascii.eqb_eq in Em as ->|done].
  apply bind_Some in Hn as ([t1 t2] & E3 & Hn). cbn [fst snd] in *.
  injection Hn as <- <- <- <- <-.
  apply find_sub_Some in E1 as ->. apply split_once_Some in E2 as [-> _].
  apply find_sub_Some in E3. rewrite E3. unfold word_text. split.
  - rewrite !string_app_assoc.
    change (String enc ("?" +:+ t1 +:+ "?=") +:+ t2)
      with (String enc (String "?" ((t1 +:+ "?=") +:+ t2))).
    by rewrite string_app_assoc.
  - repeat (rewrite ?string_length_app; cbn [String.length]). lia.
Qed.

(** The loop's fuel is enough: more does not change the text. *)
Lemma decode_words_enough fuel fuel' header between :
  (String.length header < fuel)%nat → (String.length header < fuel')%nat →
  decode_words fuel header between = decode_words fuel' header between.
Proof.
  revert fuel' header between. induction fuel as [|fuel IH]; intros [|fuel'] header between H1 H2; try lia.
  cbn [decode_words].
  destruct (next_word header) as [[[[[prefix charset] encoding] text] rest]|] eqn:En; [|done].
  apply next_word_shorter in En as [_ Hl].
  destruct (decode_word encoding text); [|by rewrite (IH fuel') by lia].
  destruct (convert_charset _ _); [|done]. cbn. by rewrite (IH fuel') by lia.
Qed.

Lemma decode_header_fuel value fuel prefix rest :
  find_sub "=?" value = Some (prefix, rest) → (String.length value < fuel)%nat →
  decode_header value = (λ out, prefix +:+ out) <$> decode_words fuel ("=?" +:+ rest) false.
Proof.
  intros Hf Hl. unfold decode_header. rewrite Hf.
  apply find_sub_Some in Hf. assert (String.length ("=?" +:+ rest) ≤ String.length value)%nat.
  { rewrite Hf, !string_length_app. lia. }
  rewrite (decode_words_enough _ fuel) by lia. by destruct (decode_words _ _ _).
Qed.
End words.

(** ** Zones *)

(** The module names the zone [UT]; the code refuses it, so such a date is dropped. *)
Lemma parse_zone_ut : parse_zone "UT" = None ∧ parse_zone "GMT" = Some 0.
Proof. done. Qed.
