(* ===== verification/Hwm.v ===== *)
(** * Hwm: [symeraseme-core/src/email/hwm.rs]

    High-water marks of polled folders.  The trait is the class [HwmStore], its
    contract towards the inbox the class [HwmLaws]; the memory store and the staging
    store are its two implementations.  A store's mutex is held for one call, so a
    call is one step on the store. *)

From S2P Require Import Prelude.
From S2P Require Import Text.

Class HwmStore (S : Type) := {
  hwm_get : S → string → string → result string (option Z * option Z);
  hwm_set : S → string → string → Z → Z → result string () * S;
}.

(** What a store promises for the folders of one host: a stored mark is read back, and
    no other folder's mark moves. *)
Class HwmLaws (S : Type) `{HwmStore S} := {
  hwm_get_set s host folder v l s' :
    hwm_set s host folder v l = (Ok (), s') → hwm_get s' host folder = Ok (Some v, Some l);
  hwm_get_set_ne s host folder folder' v l s' :
    folder ≠ folder' → hwm_set s host folder v l = (Ok (), s') →
    hwm_get s' host folder' = hwm_get s host folder';
}.

Definition key (host folder : string) : string := host +:+ String (b 0) folder.

(** ** The memory store *)

Record MemoryHwmStore := { records : gmap string (Z * Z) }.

Definition memory_new : MemoryHwmStore := {| records := ∅ |}.

Definition memory_get (s : MemoryHwmStore) (host folder : string)
    : result string (option Z * option Z) :=
  Ok match records s !! key host folder with
     | Some (validity, last) => (Some validity, Some last)
     | None => (None, None)
     end.

Definition memory_set (s : MemoryHwmStore) (host folder : string) (uid_validity last_uid : Z)
    : result string () * MemoryHwmStore :=
  (Ok (), {| records := <[key host folder := (uid_validity, last_uid)]> (records s) |}).

#[export] Instance memory_hwm : HwmStore MemoryHwmStore :=
  {| hwm_get := memory_get; hwm_set := memory_set |}.

(** ** The staging store *)

Record StagedMark := {
  sm_host : string; sm_folder : string; sm_uid_validity : Z; sm_last_uid : Z }.

Record StagingHwmStore (S : Type) := { underlying : option S; staged : list StagedMark }.
Arguments underlying {S} _.
Arguments staged {S} _.
Arguments Build_StagingHwmStore {S} _ _.

Definition is_mark (host folder : string) (m : StagedMark) : bool :=
  String.eqb (sm_host m) host && String.eqb (sm_folder m) folder.

Section staging.
Context {S : Type} `{HwmStore S}.

Definition staging_new (u : option S) : StagingHwmStore S :=
  {| underlying := u; staged := [] |}.

Definition staging_get (s : StagingHwmStore S) (host folder : string)
    : result string (option Z * option Z) :=
  match List.find (is_mark host folder) (reverse (staged s)) with
  | Some m => Ok (Some (sm_uid_validity m), Some (sm_last_uid m))
  | None =>
      match underlying s with
      | Some u => hwm_get u host folder
      | None => Ok (None, None)
      end
  end.

Definition staging_set (s : StagingHwmStore S) (host folder : string) (uid_validity last_uid : Z)
    : result string () * StagingHwmStore S :=
  (Ok (), {| underlying := underlying s;
             staged := staged s ++ [{| sm_host := host; sm_folder := folder;
               sm_uid_validity := uid_validity; sm_last_uid := last_uid |}] |}).

(** The loop of [commit]: the first failure stops it. *)
Fixpoint write_marks (marks : list StagedMark) (u : S) : result string () * S :=
  match marks with
  | [] => (Ok (), u)
  | m :: marks =>
      match hwm_set u (sm_host m) (sm_folder m) (sm_uid_validity m) (sm_last_uid m) with
      | (Ok _, u) => write_marks marks u
      | (Err error, u) =>
          (Err ("email: commit high-water mark (" +:+ sm_host m +:+ "/" +:+ sm_folder m +:+ "): "
                +:+ error), u)
      end
  end.

Definition commit (s : StagingHwmStore S) : result string () * StagingHwmStore S :=
  match underlying s with
  | None => (Ok (), {| underlying := None; staged := [] |})
  | Some u =>
      let '(r, u) := write_marks (staged s) u in
      (r, {| underlying := Some u; staged := if is_ok r then [] else staged s |})
  end.
End staging.

#[export] Instance staging_hwm S `{HwmStore S} : HwmStore (StagingHwmStore S) :=
  {| hwm_get := staging_get; hwm_set := staging_set |}.

(** ** Facts *)

Lemma key_inj host folder folder' : key host folder = key host folder' → folder = folder'.
Proof.
  unfold key. induction host as [|c host IH]; cbn; [by intros [= ->]|]. intros [= E]. by apply IH.
Qed.

#[export] Instance memory_laws : HwmLaws MemoryHwmStore.
Proof.
  split; intros; unfold hwm_get, hwm_set, memory_hwm, memory_get, memory_set in *; simplify_eq/=.
  - by rewrite lookup_insert_eq.
  - rewrite lookup_insert_ne; [done|]. by intros ?%key_inj.
Qed.

Lemma is_mark_true host folder m :
  is_mark host folder m = true ↔ sm_host m = host ∧ sm_folder m = folder.
Proof. unfold is_mark. by rewrite andb_true_iff, !String.eqb_eq. Qed.

Lemma find_reverse_snoc {A} (p : A → bool) l x :
  List.find p (reverse (l ++ [x])) = if p x then Some x else List.find p (reverse l).
Proof. by rewrite reverse_snoc. Qed.

#[export] Instance staging_laws S `{HwmLaws S} : HwmLaws (StagingHwmStore S).
Proof.
  split; intros; unfold hwm_get, hwm_set, staging_hwm, staging_get, staging_set in *;
    simplify_eq/=; rewrite find_reverse_snoc; unfold is_mark; simpl.
  - by rewrite !String.eqb_refl.
  - rewrite String.eqb_refl. destruct (String.eqb_spec folder folder'); [done|]. done.
Qed.

(** The marks of a staged list, the last one of a folder standing. *)
Lemma write_marks_view {S} `{HwmLaws S} host marks u u' :
  Forall (λ m, sm_host m = host) marks →
  write_marks marks u = (Ok (), u') →
  ∀ folder, hwm_get u' host folder =
    match List.find (is_mark host folder) (reverse marks) with
    | Some m => Ok (Some (sm_uid_validity m), Some (sm_last_uid m))
    | None => hwm_get u host folder
    end.
Proof.
  induction marks as [|m marks IH] using rev_ind in u, u' |- *; intros Hh Hw folder.
  { simpl in Hw. by simplify_eq. }
  assert (Hsnoc : ∀ l u, write_marks (l ++ [m]) u =
    match write_marks l u with
    | (Ok _, u) => write_marks [m] u | (Err e, u) => (Err e, u) end).
  { clear. induction l as [|x l IHl]; intros u; [done|]. cbn.
    destruct (hwm_set u _ _ _ _) as [[[]|e] u1]; [apply IHl|done]. }
  apply Forall_app in Hh as [Hh [Hm _]%Forall_cons].
  rewrite Hsnoc in Hw. destruct (write_marks marks u) as [[[]|e] u1] eqn:E1; [|done].
  cbn in Hw. destruct (hwm_set u1 _ _ _ _) as [[[]|e] u2] eqn:E2; [|done]. simplify_eq.
  rewrite find_reverse_snoc. unfold is_mark at 1. rewrite String.eqb_refl. simpl.
  destruct (String.eqb_spec (sm_folder m) folder) as [<-|Hne].
  - by apply hwm_get_set in E2.
  - rewrite (hwm_get_set_ne _ _ _ folder _ _ _ Hne E2). by apply IH.
Qed.

(** A commit of one host's marks that succeeds leaves the store showing what the
    staging store showed; nothing stays staged. *)
Lemma commit_refines {S} `{HwmLaws S} host (u : S) marks s' :
  Forall (λ m, sm_host m = host) marks →
  commit {| underlying := Some u; staged := marks |} = (Ok (), s') →
  ∃ u', s' = {| underlying := Some u'; staged := [] |} ∧
    ∀ folder, hwm_get u' host folder = staging_get {| underlying := Some u; staged := marks |} host folder.
Proof.
  intros Hh Hc. unfold commit in Hc. cbn in Hc.
  destruct (write_marks marks u) as [r u'] eqn:E. destruct r as [[]|e]; [|done]. simplify_eq.
  exists u'. split; [done|]. intros folder. unfold staging_get. cbn.
  apply (write_marks_view host _ _ _ Hh E).
Qed.
