(* ===== verification/Inbox.v ===== *)
(** * Inbox: [symeraseme-core/src/email/policy.rs], [service.rs] and [types.rs]

    Polling a mailbox by UID, matching replies to requests, and the service that
    persists replies before it commits the marks.  A poll is a state-passing program
    over the mail server's world [W] and the mark store [H]; the session and dialer
    traits are the class [ImapDialer], the reply store the class [ReplyStore].  A
    session is used by one poll only, so it is part of [W].  Instants are counted in
    nanoseconds; a [since_days] outside chrono's range, which panics, is not modelled. *)

From S2P Require Import Prelude.
From S2P Require Import Text.
From S2P Require Import MailParse.
From S2P Require Import Hwm.

(** ** Types *)

Record RemovalRequest := { rq_id : Z; rq_broker_id : string }.

Inductive MatchMethod : Set := Thread | Subject | Unmatched.

#[export] Instance MatchMethod_eq_dec : EqDecision MatchMethod.
Proof. solve_decision. Defined.

Definition method_as_str (m : MatchMethod) : string :=
  match m with Thread => "thread" | Subject => "subject" | Unmatched => "unmatched" end.

Record MatchedMessage := {
  mm_message : Message;
  mm_request_id : option Z;
  mm_match_method : MatchMethod;
}.

Record OAuth2Token := { oa_username : string; oa_access_token : string }.

Record ImapConfig := {
  ic_host : string;
  ic_port : Z;
  ic_username : string;
  ic_password : string;
  ic_use_tls : bool;
  ic_folder : string;
  ic_since_days : Z;
  ic_max_messages : Z;
  ic_oauth2 : option OAuth2Token;
  ic_timeout_seconds : Z;
  ic_allow_insecure_cleartext_auth : bool;
}.

Definition ImapConfig_default : ImapConfig :=
  {| ic_host := ""; ic_port := 993; ic_username := ""; ic_password := ""; ic_use_tls := true;
     ic_folder := ""; ic_since_days := 0; ic_max_messages := 0; ic_oauth2 := None;
     ic_timeout_seconds := 30; ic_allow_insecure_cleartext_auth := false |}.

(** [folder_config.folder = folder.clone()] *)
Definition set_folder (folder : string) (c : ImapConfig) : ImapConfig :=
  {| ic_host := ic_host c; ic_port := ic_port c; ic_username := ic_username c;
     ic_password := ic_password c; ic_use_tls := ic_use_tls c; ic_folder := folder;
     ic_since_days := ic_since_days c; ic_max_messages := ic_max_messages c;
     ic_oauth2 := ic_oauth2 c; ic_timeout_seconds := ic_timeout_seconds c;
     ic_allow_insecure_cleartext_auth := ic_allow_insecure_cleartext_auth c |}.

Definition xoauth2_payload (username token : string) : string :=
  "user=" +:+ username +:+ String (b 1) ("auth=Bearer " +:+ token +:+ String (b 1) (String (b 1) "")).

Definition secrets (c : ImapConfig) : list string :=
  [ic_password c] ++
  match ic_oauth2 c with
  | Some oauth2 =>
      if is_empty (oa_access_token oauth2) then []
      else
        let username := if is_empty (oa_username oauth2) then ic_username c
                        else oa_username oauth2 in
        [oa_access_token oauth2; xoauth2_payload username (oa_access_token oauth2)]
  | None => []
  end.

(** ** The crates and traits the policy calls *)

(** The four alphabets of the base64 crate. *)
Class Base64 := {
  b64_standard : string → string;
  b64_standard_no_pad : string → string;
  b64_url_safe : string → string;
  b64_url_safe_no_pad : string → string;
}.

Class ImapDialer (W : Type) := {
  dial : ImapConfig → W → result string () * W;
  select : string → W → result string Z * W;
  search_uid : string → option Z → W → result string (list Z) * W;
  fetch : list Z → W → result string (list FetchedMessage) * W;
  now_utc : W → Z;
}.

Class ReplyStore (R : Type) := {
  reply_insert : MatchedMessage → string → R → result string () * R;
}.

(** ** Errors *)

Definition ERR_IMAP : string := "email: imap error".

Definition error (stage cause : string) : string :=
  ERR_IMAP +:+ ": " +:+ stage +:+ ": " +:+ cause.

Definition error_without_cause (stage : string) : string := ERR_IMAP +:+ ": " +:+ stage.

Section redact.
Context `{Base64}.

Definition spellings (secret : string) : list string :=
  [secret; b64_standard secret; b64_standard_no_pad secret; b64_url_safe secret;
   b64_url_safe_no_pad secret].

Definition redact_secret (redacted secret : string) : string :=
  if is_empty secret then redacted
  else fold_left (λ redacted spelling, str_replace spelling "[REDACTED]" redacted)
         (spellings secret) redacted.

Definition redact_error (message : string) (secrets : list string) : string :=
  fold_left redact_secret secrets message.

Definition imap_error (stage : string) (secrets : list string) (cause : string) : string :=
  error stage (redact_error cause secrets).
End redact.

(** ** State and errors *)

Definition Poll (X A : Type) : Type := X → result string A * X.

#[export] Instance Poll_ret X : MRet (Poll X) := λ A a x, (Ok a, x).
#[export] Instance Poll_bind X : MBind (Poll X) := λ A B f m x,
  match m x with (Ok a, x) => f a x | (Err e, x) => (Err e, x) end.

Definition lift {X A} (r : result string A) : Poll X A := λ x, (r, x).

(** A call on the server, or on the mark store, with the error's text. *)
Definition on_mail {W H A} (f : string → string) (m : W → result string A * W) : Poll (W * H) A :=
  λ '(w, h), let '(r, w) := m w in (map_err f r, (w, h)).
Definition on_marks {W H A} (f : string → string) (m : H → result string A * H) : Poll (W * H) A :=
  λ '(w, h), let '(r, h) := m h in (map_err f r, (w, h)).

(** ** Text helpers *)

Definition reply_prefixes : list string :=
  ["re"; "fwd"; "aw"; "antwort";
   String "r" (String (b 195) (String (b 169) "f")); "sv"; "vs"; "wg"; "ref"].

Section subjects.
Context `{Lowercase}.

(** The needle the inner loop stops at. *)
Definition reply_needle (cleaned : string) : option string :=
  let lowered := to_lowercase cleaned in
  List.find (λ needle, starts_with needle lowered) ((λ p, p +:+ ":") <$> reply_prefixes).

(** The outer loop; a round takes at least three bytes off. *)
Fixpoint normalize_loop (fuel : nat) (cleaned : string) : string :=
  match fuel with
  | O => cleaned
  | S fuel =>
      match reply_needle cleaned with
      | Some needle => normalize_loop fuel (trim (str_drop (String.length needle) cleaned))
      | None => cleaned
      end
  end.

Definition normalize_subject (subject : string) : string :=
  normalize_loop (S (String.length subject)) (trim subject).

Definition subject_matches (base_subject reply_subject : string) : bool :=
  String.eqb (to_lowercase (normalize_subject base_subject))
    (to_lowercase (normalize_subject reply_subject)).

(** ** Matching *)

(** An em dash. *)
Definition request_subject (broker_id : string) : string :=
  "Data Deletion Request " +:+ String (b 226) (String (b 128) (String (b 148) "")) +:+ " "
    +:+ broker_id.

Definition subject_key (subject : string) : string := to_lowercase (normalize_subject subject).

Definition subject_index (requests : list RemovalRequest) : gmap string Z :=
  fold_left (λ index r, <[subject_key (request_subject (rq_broker_id r)) := rq_id r]> index)
    requests ∅.

Definition match_message (index thread_map : gmap string Z) (message : Message)
    : MatchedMessage :=
  let thread_match :=
    if is_empty (ms_thread_id message) then None else thread_map !! ms_thread_id message in
  match thread_match with
  | Some request_id =>
      {| mm_message := message; mm_request_id := Some request_id; mm_match_method := Thread |}
  | None =>
      match index !! subject_key (ms_subject message) with
      | Some request_id =>
          {| mm_message := message; mm_request_id := Some request_id;
             mm_match_method := Subject |}
      | None =>
          {| mm_message := message; mm_request_id := None; mm_match_method := Unmatched |}
      end
  end.

Definition match_reply_to_request (messages : list Message) (requests : list RemovalRequest)
    (thread_map : gmap string Z) : list MatchedMessage :=
  match_message (subject_index requests) thread_map <$> messages.
End subjects.

Definition parse_email_body (body : string) (max_length : nat) : string :=
  let trimmed := trim body in
  let max_length := if (max_length =? 0)%nat then 500%nat else max_length in
  if (max_length <? String.length trimmed)%nat
  then to_valid_utf8_lossy_per_byte (str_take max_length trimmed) +:+ "..."
  else trimmed.

(** ** Polling *)

Section poll.
Context {W H : Type} `{ImapDialer W, HwmStore H, MailLib, Base64}.

(** [Duration::days(1)] in nanoseconds. *)
Definition day_ns : Z := 86400 * 10 ^ 9.

Definition poll_folder_name (config : ImapConfig) : string :=
  if is_empty (ic_folder config) then "INBOX" else ic_folder config.

Definition poll_max (config : ImapConfig) : nat :=
  if ic_max_messages config <=? 0 then 50%nat else Z.to_nat (ic_max_messages config).

(** The first UID to ask for. *)
Definition poll_start (mark : option Z * option Z) (uid_validity : Z) : result string Z :=
  match mark with
  | (Some validity, Some last) =>
      if validity =? uid_validity then
        if last =? u32_max then Err (error "UID range exhausted" "last UID is UINT32_MAX")
        else Ok (last + 1)
      else Ok 1
  | _ => Ok 1
  end.

(** The test on a message's date. *)
Definition since_accepts (since : option Z) (message : Message) : bool :=
  match since with
  | None => true
  | Some since =>
      match ms_date message with Some date => since <=? dt_instant date | None => false end
  end.

(** The loop over the window: the messages kept and the last UID handled. *)
Fixpoint handle_uids (since : option Z) (by_uid : gmap Z FetchedMessage) (uids : list Z)
    (last_handled : Z) : result string (list Message * Z) :=
  match uids with
  | [] => Ok ([], last_handled)
  | uid :: uids =>
      message ← ok_or (error "UID fetch omitted requested message"
                         ("UID " +:+ show uid +:+ " missing from FETCH response")) (by_uid !! uid);
      parsed ← map_err (λ cause, error "parse fetched message failed"
                                   ("UID " +:+ show uid +:+ ": " +:+ cause))
                 (parse_fetched_message message);
      rest ← handle_uids since by_uid uids uid;
      Ok (if since_accepts since parsed then (parsed :: rest.1, rest.2) else rest)
  end.

Definition index_by_uid (fetched : list FetchedMessage) : gmap Z FetchedMessage :=
  fold_left (λ m f, <[fm_uid f := f]> m) fetched ∅.

Definition poll_inbox_with_defaults (config : ImapConfig)
    : Poll (W * H) (option (list Message)) :=
  let folder := poll_folder_name config in
  let secrets := secrets config in
  _ ← on_mail (imap_error "connect/login failed" secrets) (dial config);
  uid_validity ← on_mail (imap_error "folder select failed" secrets) (select folder);
  mark ← on_marks (imap_error "read high-water mark failed" secrets)
           (λ h, (hwm_get h (ic_host config) folder, h));
  start ← lift (poll_start mark uid_validity);
  since ← on_mail id (λ w, (Ok (if 0 <? ic_since_days config
                                then Some (now_utc w - ic_since_days config * day_ns)
                                else None), w));
  uids ← on_mail (imap_error "UID search failed" secrets)
           (search_uid (show start +:+ ":*") since);
  match uids with
  | [] =>
      _ ← on_marks (imap_error "write high-water mark failed" secrets)
            (λ h, hwm_set h (ic_host config) folder uid_validity (default 0 mark.2));
      mret None
  | _ =>
      let uids := take (poll_max config) (sort_by Z.leb uids) in
      fetched ← on_mail (imap_error "UID fetch failed" secrets) (fetch uids);
      handled ← lift (handle_uids since (index_by_uid fetched) uids 0);
      _ ← on_marks (imap_error "write high-water mark failed" secrets)
            (λ h, hwm_set h (ic_host config) folder uid_validity handled.2);
      mret (Some handled.1)
  end.

Definition poll_inbox (config : ImapConfig) : Poll (W * H) (option (list Message)) :=
  if is_empty (ic_host config) then lift (Err (error_without_cause "host is empty"))
  else poll_inbox_with_defaults config.

Definition message_key (m : Message) : string :=
  if is_empty (ms_message_id m) then ms_id m else ms_message_id m.

(** The inner loop of [poll_folders]. *)
Fixpoint add_unseen (seen : list string) (all messages : list Message)
    : list string * list Message :=
  match messages with
  | [] => (seen, all)
  | m :: messages =>
      if str_in (message_key m) seen then add_unseen seen all messages
      else add_unseen (seen ++ [message_key m]) (all ++ [m]) messages
  end.

Fixpoint poll_each (config : ImapConfig) (folders : list string) (seen : list string)
    (all : list Message) : Poll (W * H) (list Message) :=
  match folders with
  | [] => mret all
  | folder :: folders =>
      messages ← poll_inbox_with_defaults (set_folder folder config);
      let '(seen, all) := add_unseen seen all (default [] messages) in
      poll_each config folders seen all
  end.

Definition poll_folders (config : ImapConfig) (folders : list string)
    : Poll (W * H) (option (list Message)) :=
  all ← poll_each config (match folders with [] => ["INBOX"] | _ => folders end) [] [];
  mret (match all with [] => None | _ => Some all end).
End poll.

(** ** The service *)

Section service.
Context {W H R : Type} `{ImapDialer W, HwmStore H, ReplyStore R, MailLib, Base64, Lowercase}.

Fixpoint insert_replies (replies : list MatchedMessage) : Poll R () :=
  match replies with
  | [] => mret ()
  | reply :: replies => λ r,
      match reply_insert reply (parse_email_body (ms_body (mm_message reply)) 200) r with
      | (Ok _, r) => insert_replies replies r
      | (Err cause, r) => (Err ("email: persist inbox reply: " +:+ cause), r)
      end
  end.

(** With a state and an optional reply store; the result, the server and the stores. *)
Definition poll_and_match (config : ImapConfig) (folders : list string)
    (requests : list RemovalRequest) (thread_map : gmap string Z)
    (w : W) (h : H) (store : option R) : result string (list MatchedMessage) * W * H * option R :=
  match poll_folders config folders (w, staging_new (Some h)) with
  | (Err e, (w, _)) => (Err e, w, h, store)
  | (Ok messages, (w, staged)) =>
      let matched := match_reply_to_request (default [] messages) requests thread_map in
      match match store with
            | None => (Ok (), None)
            | Some r => let '(res, r) := insert_replies matched r in (res, Some r)
            end with
      | (Err e, store) => (Err e, w, h, store)
      | (Ok _, store) =>
          let '(res, staged) := commit staged in
          let h := default h (underlying staged) in
          match res with
          | Err cause => (Err ("email: commit inbox high-water mark: " +:+ cause), w, h, store)
          | Ok _ => (Ok matched, w, h, store)
          end
      end
  end.

End service.

(** [InboxService] without a state: a memory store of the call. *)
Definition poll_and_match_default {W R} `{ImapDialer W, ReplyStore R, MailLib, Base64, Lowercase}
    (config : ImapConfig) (folders : list string) (requests : list RemovalRequest)
    (thread_map : gmap string Z) (w : W) (store : option R) :=
  poll_and_match config folders requests thread_map w memory_new store.
