(* ===== verification/InboxFacts.v ===== *)
(** * InboxFacts: polls, marks and the replies they produce *)
From S2P Require Import Prelude.
From S2P Require Import Text.
From S2P Require Import MailParse.
From S2P Require Import Hwm.
From S2P Require Import Inbox.

(** ** Redaction of mail secrets *)

Section redact.
Context `{Base64}.

(** A text the marker cannot bring back. *)
Definition hideable (v : string) : Prop :=
  v ≠ "" ∧ no_brackets v = true ∧ contains v "[REDACTED]" = false.

(** No secret that is not empty has an empty spelling. *)
Definition spells (secret : string) : Prop :=
  secret ≠ "" → Forall (λ v, v ≠ "") (spellings secret).

Lemma mark_is_marker : is_marker "[REDACTED]".
Proof. by exists "REDACTED". Qed.

Lemma hide_keeps v q s :
  hideable v → q ≠ "" → contains v s = false → contains v (str_replace q "[REDACTED]" s) = false.
Proof.
  intros (Hne & Hb & Hm) Hq Hs. apply not_true_iff_false. intros Hc.
  eapply (replaced_contains q) in Hc; [rewrite Hc in Hs; discriminate|apply mark_is_marker|done|done|done|].
  by apply str_replace_replaced.
Qed.

Lemma hide_all_keeps v qs s :
  hideable v → Forall (λ q, q ≠ "") qs → contains v s = false →
  contains v (fold_left (λ r q, str_replace q "[REDACTED]" r) qs s) = false.
Proof.
  intros Hv Hqs. revert s. induction Hqs; intros s Hs; cbn [fold_left]; [done|].
  auto using hide_keeps.
Qed.

Lemma hide_all_removes v qs s :
  hideable v → Forall (λ q, q ≠ "") qs → v ∈ qs →
  contains v (fold_left (λ r q, str_replace q "[REDACTED]" r) qs s) = false.
Proof.
  intros Hv Hqs. revert s. induction Hqs as [|q qs Hq Hqs IH]; intros s Hin; cbn [fold_left].
  { by apply elem_of_nil in Hin. }
  apply elem_of_cons in Hin as [<-|Hin]; [|by apply IH].
  apply hide_all_keeps; [done..|]. destruct Hv as (? & ? & ?).
  eapply replaced_gone; [apply mark_is_marker|done..|]. by apply str_replace_replaced.
Qed.

Lemma redact_secret_keeps v secret s :
  hideable v → spells secret → contains v s = false → contains v (redact_secret s secret) = false.
Proof.
  intros Hv Hs Hc. unfold redact_secret. destruct (is_empty secret) eqn:E; [done|].
  apply hide_all_keeps; [done| |done]. apply Hs. by intros ->.
Qed.

Lemma redact_secret_removes v secret s :
  hideable v → spells secret → secret ≠ "" → v ∈ spellings secret →
  contains v (redact_secret s secret) = false.
Proof.
  intros Hv Hs Hne Hin. unfold redact_secret.
  destruct (is_empty secret) eqn:E; [by apply is_empty_spec in E|].
  apply hide_all_removes; [done|by apply Hs|done].
Qed.

Lemma redact_secrets_keep v secrets s :
  hideable v → Forall spells secrets → contains v s = false →
  contains v (fold_left redact_secret secrets s) = false.
Proof.
  intros Hv Hs. revert s. induction Hs; intros s Hc; cbn [fold_left]; [done|].
  auto using redact_secret_keeps.
Qed.

(** No credential leaks through an IMAP error.  Whatever the server put into the
    error's text and however many credentials there are, the text [redact_error] returns
    contains no spelling of any of them, raw or in one of the four base64 alphabets, as
    long as the spelling is bracket-free and not a piece of the marker. *)
Theorem redact_error_complete message secrets secret v :
  Forall spells secrets →
  secret ∈ secrets → secret ≠ "" → v ∈ spellings secret →
  v ≠ "" → no_brackets v = true → contains v "[REDACTED]" = false →
  contains v (redact_error message secrets) = false.
Proof.
  intros Hs Hin Hne Hv H1 H2 H3. unfold redact_error.
  assert (hideable v) by done. clear H1 H2 H3. revert message.
  induction Hs as [|x secrets Hx Hs IH]; intros message; [by apply elem_of_nil in Hin|].
  cbn [fold_left]. apply elem_of_cons in Hin as [<-|Hin]; [|by apply IH].
  apply redact_secrets_keep; [done..|]. by apply redact_secret_removes.
Qed.
End redact.

(** ** Programs over the server and the store *)

Lemma Poll_bind_run {X A B} (f : A → Poll X B) (m : Poll X A) x r x' :
  (m ≫= f) x = (r, x') →
  (∃ e, m x = (Err e, x') ∧ r = Err e) ∨ (∃ a x1, m x = (Ok a, x1) ∧ f a x1 = (r, x')).
Proof.
  unfold mbind, Poll_bind. destruct (m x) as [[a|e] x1]; [eauto|]. intros [= <- <-]. eauto.
Qed.

Lemma on_mail_run {W H A} f (m : W → result string A * W) (w : W) (h : H) r w' h' :
  on_mail f m (w, h) = (r, (w', h')) → h' = h ∧ ∃ r0, m w = (r0, w') ∧ r = map_err f r0.
Proof. unfold on_mail. destruct (m w) as [r0 w0] eqn:E. intros [= <- <- <-]. eauto. Qed.

Lemma on_marks_run {W H A} f (m : H → result string A * H) (w : W) (h : H) r w' h' :
  on_marks f m (w, h) = (r, (w', h')) → w' = w ∧ ∃ r0, m h = (r0, h') ∧ r = map_err f r0.
Proof. unfold on_marks. destruct (m h) as [r0 h0] eqn:E. intros [= <- <- <-]. eauto. Qed.

(** Runs the first step of a program; a failed step ends it. *)
Ltac poll_step H :=
  let e := fresh "e" in let a := fresh "a" in
  let w1 := fresh "w" in let h1 := fresh "h" in
  let Hr := fresh "Hrun" in let He := fresh "He" in
  apply Poll_bind_run in H as [(e & Hr & He)|(a & [w1 h1] & Hr & H)].

(** ** One folder *)

Section poll.
Context {W H : Type} `{ImapDialer W, HwmStore H, MailLib, Base64}.

(** The window: the oldest [max] of the found UIDs. *)
Definition window (config : ImapConfig) (uids : list Z) : list Z :=
  take (poll_max config) (sort_by Z.leb uids).

Lemma Zleb_total x y : (x <=? y) = true ∨ (y <=? x) = true.
Proof. rewrite !Z.leb_le. lia. Qed.
Lemma Zleb_trans x y z : (x <=? y) = true → (y <=? z) = true → (x <=? z) = true.
Proof. rewrite !Z.leb_le. lia. Qed.

Lemma poll_max_positive config : (0 < poll_max config)%nat.
Proof. unfold poll_max. destruct (Z.leb_spec (ic_max_messages config) 0); lia. Qed.

(** Every found UID up to the last one of a window is in the window. *)
Lemma window_closed config uids m u :
  last (window config uids) = Some m → u ∈ uids → u ≤ m → u ∈ window config uids.
Proof.
  intros Hm Hu Hle. unfold window in *. set (s := sort_by Z.leb uids) in *.
  assert (Hs : StronglySorted (λ a b, (a <=? b) = true) s)
    by (apply sort_by_StronglySorted; [apply Zleb_total|apply Zleb_trans]).
  assert (Hus : u ∈ s) by (by apply elem_of_sort_by).
  rewrite <-(take_drop (poll_max config) s) in Hus, Hs.
  apply elem_of_app in Hus as [?|Hd]; [done|].
  assert (Hms : m ∈ take (poll_max config) s) by (by apply last_Some_elem_of).
  destruct (decide (u = m)) as [->|Hne]; [done|]. exfalso.
  apply StronglySorted_app_1_elem_of with (x1 := m) (x2 := u) in Hs; [|done..].
  apply Z.leb_le in Hs. lia.
Qed.

Lemma handle_uids_spec since by_uid uids last0 ms l :
  handle_uids since by_uid uids last0 = Ok (ms, l) →
  l = default last0 (last uids) ∧
  ∃ parsed, Forall2 (λ uid m, ∃ f, by_uid !! uid = Some f ∧ parse_fetched_message f = Ok m) uids parsed ∧
    ms = List.filter (since_accepts since) parsed.
Proof.
  induction uids as [|uid uids IH] in last0, ms, l |- *; cbn [handle_uids]; intros Hh.
  { simplify_eq. split; [done|]. exists []. by split; [constructor|]. }
  apply result_bind_ok in Hh as (f & Hf & Hh).
  destruct (by_uid !! uid) as [f'|] eqn:Ef; [|done]. injection Hf as ->.
  apply result_bind_ok in Hh as (m & Em%map_err_ok & Hh).
  apply result_bind_ok in Hh as ([ms' l'] & Eh & Hh). cbn [fst snd] in Hh.
  apply IH in Eh as (-> & parsed & Hp & ->). split.
  { rewrite last_cons. destruct (since_accepts since m); simplify_eq; cbn [snd];
      by destruct (last uids). }
  exists (m :: parsed). split; [constructor; eauto|].
  cbn. destruct (since_accepts since m); by simplify_eq.
Qed.

Definition handled_by (fetched : list FetchedMessage) (since : option Z) (uids : list Z)
    (ms : list Message) : Prop :=
  ∃ parsed, Forall2 (λ uid m, ∃ f, index_by_uid fetched !! uid = Some f ∧
              parse_fetched_message f = Ok m) uids parsed ∧
    ms = List.filter (since_accepts since) parsed.

Definition mark_of (h : H) (config : ImapConfig) : result string (option Z * option Z) :=
  hwm_get h (ic_host config) (poll_folder_name config).

Definition set_mark (h : H) (config : ImapConfig) (v l : Z) : result string () * H :=
  hwm_set h (ic_host config) (poll_folder_name config) v l.

Definition since_of (config : ImapConfig) (w : W) : option Z :=
  if 0 <? ic_since_days config then Some (now_utc w - ic_since_days config * day_ns) else None.

(** The calls before the answer: the folder was selected under validity [v] with [mark]
    stored, and the server answered the search from the mark on with [uids]. *)
Definition searched (config : ImapConfig) (w : W) (h : H) (v : Z) (mark : option Z * option Z)
    (since : option Z) (uids : list Z) (w' : W) : Prop :=
  ∃ w1 w2 start,
    dial config w = (Ok (), w1) ∧ select (poll_folder_name config) w1 = (Ok v, w2) ∧
    mark_of h config = Ok mark ∧ poll_start mark v = Ok start ∧ since = since_of config w2 ∧
    search_uid (show start +:+ ":*") since w2 = (Ok uids, w').

(** What a poll that answers has done. *)
Inductive polled (config : ImapConfig) (w : W) (h : H) (w' : W) (h' : H)
    : option (list Message) → Prop :=
| polled_nothing v mark since :
    searched config w h v mark since [] w' →
    set_mark h config v (default 0 mark.2) = (Ok (), h') →
    polled config w h w' h' None
| polled_window v mark since uids w1 fetched m ms :
    searched config w h v mark since uids w1 →
    fetch (window config uids) w1 = (Ok fetched, w') →
    handled_by fetched since (window config uids) ms →
    last (window config uids) = Some m →
    (∀ u, u ∈ uids → u ≤ m → u ∈ window config uids) →
    set_mark h config v m = (Ok (), h') →
    polled config w h w' h' (Some ms).

Lemma window_last config uids : uids ≠ [] → ∃ m, last (window config uids) = Some m.
Proof.
  intros Hne. apply last_is_Some. unfold window. pose proof (poll_max_positive config).
  intros Ht%(f_equal List.length). rewrite length_take, sort_by_length in Ht.
  destruct uids; [done|]. simpl in Ht. lia.
Qed.

(** The answer after the search. *)
Lemma poll_window_run config w h v mark since uids w0 h0 r w' h' :
  searched config w h v mark since uids w0 → h0 = h →
  (match uids with
   | [] =>
       _ ← on_marks (imap_error "write high-water mark failed" (secrets config))
             (λ h, set_mark h config v (default 0 mark.2));
       mret None
   | _ =>
       fetched ← on_mail (imap_error "UID fetch failed" (secrets config)) (fetch (window config uids));
       handled ← lift (handle_uids since (index_by_uid fetched) (window config uids) 0);
       _ ← on_marks (imap_error "write high-water mark failed" (secrets config))
             (λ h, set_mark h config v handled.2);
       mret (Some handled.1)
   end : Poll (W * H) (option (list Message))) (w0, h0) = (r, (w', h')) →
  match r with
  | Ok answer => polled config w h w' h' answer
  | Err _ => h' = h ∨ ∃ v l e, set_mark h config v l = (Err e, h')
  end.
Proof.
  intros Hs -> Hp. destruct (decide (uids = [])) as [->|Hne].
  - poll_step Hp; apply on_marks_run in Hrun as [-> (r0 & Hset & Hr)].
    { subst. destruct r0; simplify_eq/=. eauto 10. }
    injection Hp as <- <- <-. destruct r0 as [[]|]; [|done]. by eapply polled_nothing.
  - destruct (window_last config uids Hne) as [m Hm].
    destruct uids as [|u uids]; [done|].
    poll_step Hp; apply on_mail_run in Hrun as [-> (r0 & Hf & Hr)]; [subst; auto|].
    destruct r0 as [fetched|]; [|done]. injection Hr as ->.
    poll_step Hp; injection Hrun as Hrun <- <-; [subst; auto|].
    destruct a as [ms l]. apply handle_uids_spec in Hrun as (-> & Hh). rewrite Hm in Hp. cbn [default snd] in Hp.
    poll_step Hp; apply on_marks_run in Hrun as [-> (r0 & Hset & Hr)].
    { subst. destruct r0; simplify_eq/=. eauto 10. }
    injection Hp as <- <- <-. destruct r0 as [[]|]; [|done].
    eapply polled_window; [done..| |done]. intros x. by apply window_closed.
Qed.

Lemma poll_run config w h r w' h' :
  poll_inbox_with_defaults config (w, h) = (r, (w', h')) →
  match r with
  | Ok answer => polled config w h w' h' answer
  | Err _ => h' = h ∨ ∃ v l e, set_mark h config v l = (Err e, h')
  end.
Proof.
  unfold poll_inbox_with_defaults. intros Hp.
  poll_step Hp; apply on_mail_run in Hrun as [-> (r0 & Hd & Hr)]; [subst; auto|].
  destruct r0 as [[]|]; [|done]. clear Hr.
  poll_step Hp; apply on_mail_run in Hrun as [-> (r0 & Hsel & Hr)]; [subst; auto|].
  destruct r0 as [v|]; [|done]. injection Hr as ->.
  poll_step Hp; apply on_marks_run in Hrun as [-> (r0 & Hg & Hr)];
    [injection Hg as _ ->; subst; auto|].
  injection Hg as Hg ->. destruct r0 as [mark|]; [|done]. injection Hr as ->.
  poll_step Hp; injection Hrun as Hst <- <-; [subst; auto|].
  poll_step Hp; apply on_mail_run in Hrun as [-> (r0 & Hn & Hr)]; [subst; auto|].
  injection Hn as <- <-. injection Hr as ->.
  poll_step Hp; apply on_mail_run in Hrun as [-> (r0 & Hse & Hr)]; [subst; auto|].
  destruct r0 as [uids|]; [|done]. injection Hr as ->.
  eapply poll_window_run; [|done|exact Hp]. by exists w0, w1, a0.
Qed.

(** A poll of a folder never advances the mark past a message it has not handled.
    If it answers, the server was asked for the UIDs after the stored mark (for all of them
    under a new validity), and either it found none and the mark keeps its UID, or the
    window of the oldest found UIDs was fetched and parsed in ascending order, the messages
    returned are those inside the since window, and the mark is the window's last UID, at
    or below which every found UID is in the window.  If it fails, the mark store is as it
    was, or as its own failed write left it. *)
Theorem poll_inbox_with_defaults_spec config w h :
  match poll_inbox_with_defaults config (w, h) with
  | (Ok answer, (w', h')) => polled config w h w' h' answer
  | (Err _, (w', h')) => h' = h ∨ ∃ v l e, set_mark h config v l = (Err e, h')
  end.
Proof.
  destruct (poll_inbox_with_defaults config (w, h)) as [r [w' h']] eqn:E.
  apply poll_run in E. by destruct r.
Qed.
End poll.

(** ** Folders *)

(** The accumulated messages have distinct keys, the ones in [seen]. *)
Definition distinct (seen : list string) (all : list Message) : Prop :=
  seen = message_key <$> all ∧ NoDup seen.

Lemma add_unseen_spec seen all messages :
  distinct seen all →
  let '(seen', all') := add_unseen seen all messages in
  distinct seen' all' ∧ seen ⊆ seen' ∧ (message_key <$> messages) ⊆ seen' ∧
  all' ⊆ all ++ messages.
Proof.
  induction messages as [|m messages IH] in seen, all |- *; cbn [add_unseen]; intros [-> Hd].
  { split_and!; [by split|set_solver..]. }
  destruct (str_in (message_key m) (message_key <$> all)) eqn:E.
  - apply str_in_spec in E. specialize (IH _ all (conj eq_refl Hd)).
    destruct (add_unseen _ all messages) as [seen' all']. csimpl. set_solver.
  - assert (message_key m ∉ message_key <$> all) as Hn.
    { rewrite <-str_in_spec. by rewrite E. }
    specialize (IH ((message_key <$> all) ++ [message_key m]) (all ++ [m])).
    destruct (add_unseen _ (all ++ [m]) messages) as [seen' all'].
    destruct IH as (? & ? & ? & ?).
    { split; [by rewrite fmap_app|]. apply NoDup_app.
      split_and!; [done|set_solver|apply NoDup_singleton]. }
    csimpl. set_solver.
Qed.

Section service.
Context {W H R : Type} `{ImapDialer W, HwmLaws H, ReplyStore R, MailLib, Base64, Lowercase}.

(** Polling over a staging store only stages marks of the polled host. *)
Definition staged_for (host : string) (h : H) (s : StagingHwmStore H) : Prop :=
  underlying s = Some h ∧ Forall (λ m, sm_host m = host) (staged s).

Lemma set_mark_staged host h s config v l r s' :
  staged_for host h s → ic_host config = host →
  set_mark s config v l = (r, s') → r = Ok () ∧ staged_for host h s'.
Proof.
  intros [Hu Hs] Hh. unfold set_mark, hwm_set. cbn. intros [= <- <-].
  split; [done|]. split; [done|]. cbn. apply Forall_app. split; [done|]. by apply Forall_singleton.
Qed.

Lemma poll_staged host h s config w r w' s' :
  staged_for host h s → ic_host config = host →
  poll_inbox_with_defaults config (w, s) = (r, (w', s')) → staged_for host h s'.
Proof.
  intros Hs Hh Hp. apply poll_run in Hp. destruct r as [answer|e].
  - destruct Hp; by eapply set_mark_staged.
  - destruct Hp as [->|(? & ? & ? & Hp)]; [done|].
    by apply (set_mark_staged host h) in Hp as [? _].
Qed.

Lemma poll_each_staged config h folders seen all w s r w' s' :
  staged_for (ic_host config) h s → distinct seen all →
  poll_each config folders seen all (w, s) = (r, (w', s')) →
  staged_for (ic_host config) h s' ∧ ∀ messages, r = Ok messages → NoDup (message_key <$> messages).
Proof.
  induction folders as [|folder folders IH] in seen, all, w, s |- *;
    cbn [poll_each]; intros Hs Hd Hp.
  { injection Hp as <- <- <-. split; [done|]. intros ? [= <-]. by destruct Hd as [-> ?]. }
  poll_step Hp.
  { subst. split; [|done]. by eapply poll_staged in Hrun. }
  apply (poll_staged (ic_host config) h) in Hrun; [|done..].
  pose proof (add_unseen_spec seen all (default [] a) Hd) as Hadd.
  destruct (add_unseen seen all (default [] a)) as [seen' all'].
  by eapply IH; [|apply Hadd|].
Qed.

Lemma poll_folders_staged config h folders w r w' s' :
  poll_folders config folders (w, staging_new (Some h)) = (r, (w', s')) →
  staged_for (ic_host config) h s' ∧
  ∀ messages, r = Ok messages → NoDup (message_key <$> default [] messages).
Proof.
  unfold poll_folders. intros Hp. poll_step Hp;
    (eapply poll_each_staged in Hrun as [Hs Hd]; [|by split|by split; [|constructor]]).
  { subst. by split. }
  injection Hp as <- <- <-. split; [done|]. intros ? [= <-]. specialize (Hd _ eq_refl).
  by destruct a.
Qed.

(** Every reply is inserted, in order, with its snippet. *)
Inductive inserted : list MatchedMessage → R → R → Prop :=
| inserted_nil s : inserted [] s s
| inserted_cons reply replies s s1 s' :
    reply_insert reply (parse_email_body (ms_body (mm_message reply)) 200) s = (Ok (), s1) →
    inserted replies s1 s' → inserted (reply :: replies) s s'.

Definition persisted (replies : list MatchedMessage) (store store' : option R) : Prop :=
  match store, store' with
  | None, None => True
  | Some s, Some s' => inserted replies s s'
  | _, _ => False
  end.

Lemma insert_replies_ok replies s s' :
  insert_replies replies s = (Ok (), s') → inserted replies s s'.
Proof.
  induction replies as [|reply replies IH] in s |- *; cbn [insert_replies].
  { intros [= <-]. constructor. }
  destruct (reply_insert reply _ s) as [[[]|e] s1] eqn:E; [|done].
  intros Hi. by econstructor; [|apply IH].
Qed.

Lemma match_message_message index thread_map m :
  mm_message (match_message index thread_map m) = m.
Proof.
  unfold match_message. destruct (if is_empty _ then None else _); [done|]. by destruct (_ !! _).
Qed.

Lemma match_reply_messages messages requests thread_map :
  mm_message <$> match_reply_to_request messages requests thread_map = messages.
Proof.
  unfold match_reply_to_request. induction messages as [|m messages IH]; csimpl; [done|].
  by rewrite match_message_message, IH.
Qed.

(** What a service call that answers has done. *)
Definition served (config : ImapConfig) (folders : list string) (requests : list RemovalRequest)
    (thread_map : gmap string Z) (w : W) (h : H) (store : option R)
    (matched : list MatchedMessage) (w' : W) (h' : H) (store' : option R) : Prop :=
  ∃ messages (view : StagingHwmStore H),
    poll_folders config folders (w, staging_new (Some h)) = (Ok messages, (w', view)) ∧
    matched = match_reply_to_request (default [] messages) requests thread_map ∧
    NoDup ((message_key ∘ mm_message) <$> matched) ∧
    persisted matched store store' ∧
    ∀ folder, hwm_get h' (ic_host config) folder = hwm_get view (ic_host config) folder.

End service.

(* ------------------------------------------------------------------ *)
(** ** * SubjectFacts: trimming, reply prefixes and the subject a request is found by *)

(** ** Trimming *)

Lemma ws_len_nil pats : ws_len pats "" = 0%nat.
Proof.
  unfold ws_len. destruct (List.find _ _) as [p|] eqn:E; [|done].
  apply List.find_some in E as [_ Hp]. by destruct p.
Qed.

Lemma trim_go_stops pats k s : ws_len pats (trim_go pats k s) = 0%nat.
Proof.
  revert k. induction s as [|c s IH]; intros k; cbn [trim_go]; [apply ws_len_nil|].
  destruct k; [|apply IH]. destruct (ws_len pats (String c s)) eqn:E; [done|apply IH].
Qed.

Lemma trim_go_id pats s : ws_len pats s = 0%nat → trim_go pats 0 s = s.
Proof. destruct s; cbn [trim_go]; [done|]. by intros ->. Qed.

Lemma trim_go_suffix pats k s : ∃ u, s = u +:+ trim_go pats k s.
Proof.
  revert k. induction s as [|c s IH]; intros k; cbn [trim_go]; [by exists ""|].
  destruct k as [|k].
  - destruct (ws_len pats (String c s)) as [|k] eqn:E; [by exists ""|].
    destruct (IH k) as [u Hu]. exists (String c u). cbn. by rewrite <-Hu.
  - destruct (IH k) as [u Hu]. exists (String c u). cbn. by rewrite <-Hu.
Qed.

Lemma ws_len_0 pats s :
  Forall (λ p, p ≠ "") pats →
  ws_len pats s = 0%nat ↔ Forall (λ p, starts_with p s = false) pats.
Proof.
  intros Hne. unfold ws_len. rewrite Forall_forall in *. split.
  - intros Hf p Hp. destruct (List.find _ _) as [q|] eqn:E.
    + apply List.find_some in E as [Hq _]. apply list_elem_of_In, Hne in Hq. by destruct q.
    + apply (List.find_none _ _ E). by apply list_elem_of_In.
  - intros Hf. destruct (List.find _ _) as [q|] eqn:E; [|done].
    apply List.find_some in E as [Hq%list_elem_of_In Hs]. by rewrite (Hf q Hq) in Hs.
Qed.

Definition bwhitespace : list string := str_rev <$> whitespace.

Lemma whitespace_nonempty : Forall (λ p, p ≠ "") whitespace.
Proof. unfold whitespace. cbn. repeat constructor; discriminate. Qed.

Lemma bwhitespace_nonempty : Forall (λ p, p ≠ "") bwhitespace.
Proof. unfold bwhitespace, whitespace. cbn. repeat constructor; discriminate. Qed.

Lemma starts_with_weaken p u v : starts_with p u = true → starts_with p (u +:+ v) = true.
Proof. rewrite !starts_with_spec. intros [t ->]. exists (t +:+ v). by rewrite string_app_assoc. Qed.

Lemma ws_len_prefix pats u v :
  Forall (λ p, p ≠ "") pats → ws_len pats (u +:+ v) = 0%nat → ws_len pats u = 0%nat.
Proof.
  intros Hne. rewrite !ws_len_0 by done. intros Hf.
  eapply Forall_impl; [exact Hf|]. cbn. intros p Hp.
  apply not_true_iff_false. intros Hs. by rewrite starts_with_weaken in Hp.
Qed.

Lemma trim_start_prefix s : ws_len whitespace (trim_start s) = 0%nat.
Proof. apply trim_go_stops. Qed.

Lemma trim_end_prefix s : ∃ v, s = trim_end s +:+ v.
Proof.
  unfold trim_end. fold bwhitespace. destruct (trim_go_suffix bwhitespace 0 (str_rev s)) as [u Hu].
  exists (str_rev u). by rewrite <-str_rev_append, <-Hu, str_rev_involutive.
Qed.

Lemma trim_end_fixed s : trim_end s = s ↔ ws_len bwhitespace (str_rev s) = 0%nat.
Proof.
  unfold trim_end. fold bwhitespace. split.
  - intros <-. rewrite str_rev_involutive. apply trim_go_stops.
  - intros ->%trim_go_id. apply str_rev_involutive.
Qed.

Lemma trim_end_idemp s : trim_end (trim_end s) = trim_end s.
Proof.
  apply trim_end_fixed. unfold trim_end. fold bwhitespace. rewrite str_rev_involutive.
  apply trim_go_stops.
Qed.

(** A text is trimmed when no whitespace character begins or ends it. *)
Lemma trim_fixed s : trim s = s ↔ ws_len whitespace s = 0%nat ∧ trim_end s = s.
Proof.
  unfold trim. split.
  - intros Hs. assert (He : trim_end s = s) by (by rewrite <-Hs, trim_end_idemp). split; [|done].
    destruct (trim_end_prefix (trim_start s)) as [v Hv]. rewrite Hs in Hv.
    apply (ws_len_prefix whitespace s v); [apply whitespace_nonempty|].
    rewrite <-Hv. apply trim_start_prefix.
  - intros [Hs He]. unfold trim_start. by rewrite trim_go_id.
Qed.

Lemma trim_idemp s : trim (trim s) = trim s.
Proof.
  apply trim_fixed. split; [|apply trim_end_idemp]. unfold trim.
  destruct (trim_end_prefix (trim_start s)) as [v Hv].
  apply (ws_len_prefix _ _ v); [apply whitespace_nonempty|].
  rewrite <-Hv. apply trim_start_prefix.
Qed.

(** A trimmed text is a piece of the text. *)
Lemma trim_piece s : ∃ u v, s = u +:+ trim s +:+ v.
Proof.
  unfold trim. destruct (trim_end_prefix (trim_start s)) as [v Hv].
  destruct (trim_go_suffix whitespace 0 s) as [u Hu]. exists u, v. by rewrite <-Hv.
Qed.

Lemma trim_length s : (String.length (trim s) ≤ String.length s)%nat.
Proof.
  destruct (trim_piece s) as (u & v & Hs). rewrite Hs at 2. rewrite !string_length_app. lia.
Qed.

(** ** Whitespace before and inside a text *)

Lemma starts_with_blank p u v :
  (p = " " ∨ str_forallb (λ c, negb (Ascii.eqb c " ")) p = true) → u ≠ "" →
  starts_with p (u +:+ String " " v) = true → starts_with p u = true.
Proof.
  intros [->|Hp] Hu.
  { destruct u as [|c u]; [done|]. change (String c u +:+ String " " v) with (String c (u +:+ String " " v)).
    by rewrite !starts_with_cons. }
  clear Hu. revert p Hp.
  induction u as [|c u IH]; intros [|d p] Hp; cbn; try done.
  - cbn in Hp. apply andb_true_iff in Hp as [Hd _].
    change ("" +:+ String " " v) with (String " " v). rewrite starts_with_cons.
    destruct (Ascii.eqb d " "); done.
  - change (String c u +:+ String " " v) with (String c (u +:+ String " " v)).
    rewrite !starts_with_cons. cbn in Hp. apply andb_true_iff in Hp as [_ Hp].
    destruct (Ascii.eqb d c); [|done]. by apply IH.
Qed.

Lemma bwhitespace_blanks :
  Forall (λ p, p = " " ∨ str_forallb (λ c, negb (Ascii.eqb c " ")) p = true) bwhitespace.
Proof.
  apply Forall_forall. intros p Hp.
  assert (Hall : forallb (λ p, String.eqb p " " || str_forallb (λ c, negb (Ascii.eqb c " ")) p)
    bwhitespace = true) by reflexivity.
  rewrite forallb_forall in Hall. specialize (Hall p ltac:(by apply list_elem_of_In)).
  cbv beta in Hall. apply orb_true_iff in Hall as [->%String.eqb_eq|?]; auto.
Qed.

Lemma trim_end_after_blank x s :
  trim_end s = s → s ≠ "" → trim_end (x +:+ String " " s) = x +:+ String " " s.
Proof.
  rewrite !trim_end_fixed. intros Hs Hne.
  rewrite str_rev_append, str_rev_cons, string_app_assoc.
  change (String " " "" +:+ str_rev x) with (String " " (str_rev x)).
  rewrite ws_len_0 in * by apply bwhitespace_nonempty.
  pose proof bwhitespace_blanks as Hb. rewrite Forall_forall in *. intros p Hp.
  apply not_true_iff_false. intros Hst. apply starts_with_blank in Hst; [|by apply Hb|].
  - rewrite (Hs p Hp) in Hst. done.
  - intros Hr. apply Hne. by rewrite <-(str_rev_involutive s), Hr.
Qed.

Lemma alphabetic_not_ws c s : is_ascii_alphabetic c = true → ws_len whitespace (String c s) = 0%nat.
Proof.
  intros Hc. apply ws_len_0; [apply whitespace_nonempty|].
  assert (Hh : Forall (λ p, match p with String d _ => Ascii.eqb d c = false | "" => False end) whitespace).
  { unfold whitespace. cbn.
    destruct c as [[] [] [] [] [] [] [] []]; try discriminate Hc; repeat constructor. }
  eapply Forall_impl; [apply Hh|]. intros [|d p] Hd; [done|]. cbn in Hd.
  rewrite starts_with_cons. by rewrite Hd.
Qed.

Lemma trim_leading_blank s : trim s = s → trim (String " " s) = s.
Proof.
  intros Hs. apply trim_fixed in Hs as [Hw He]. unfold trim, trim_start.
  replace (trim_go whitespace 0 (String " " s)) with (trim_go whitespace 0 s) by done.
  by rewrite trim_go_id.
Qed.

(** ** Reply prefixes *)

Definition reply_needles : list string := (λ p, p +:+ ":") <$> reply_prefixes.

(** Unicode's lower casing, as far as the policy depends on it: an ASCII beginning is
    lowered byte by byte, and a text whose lowered form begins with a needle is at least
    as long as the needle (the letters of the needles are lowered from letters of the
    same width only). *)
Class LowercaseLaws `{Lowercase} := {
  lower_ascii p s :
    str_forallb (byte_in 0 127) p = true → ∃ t, to_lowercase (p +:+ s) = to_ascii_lowercase p +:+ t;
  lower_needle needle s :
    needle ∈ reply_needles → starts_with needle (to_lowercase s) = true →
    (String.length needle ≤ String.length s)%nat;
}.

Section subjects.
Context `{LowercaseLaws}.

Lemma reply_needle_fits s needle :
  reply_needle s = Some needle → (3 ≤ String.length needle ≤ String.length s)%nat.
Proof.
  unfold reply_needle. cbv zeta. intros [Hin Hs]%List.find_some.
  apply list_elem_of_In in Hin. split; [|by apply (lower_needle needle)].
  assert (Hall : forallb (λ n, Nat.leb 3 (String.length n)) reply_needles = true) by reflexivity.
  rewrite forallb_forall in Hall. apply Nat.leb_le, Hall. by apply list_elem_of_In.
Qed.

(** What a round leaves is shorter. *)
Lemma round_shorter s needle :
  reply_needle s = Some needle →
  (String.length (trim (str_drop (String.length needle) s)) < String.length s)%nat.
Proof.
  intros Hn%reply_needle_fits. pose proof (trim_length (str_drop (String.length needle) s)) as Ht.
  rewrite str_drop_length in Ht. lia.
Qed.

(** With enough fuel the loop ends because no prefix is left. *)
Lemma normalize_loop_enough fuel s :
  (String.length s < fuel)%nat →
  reply_needle (normalize_loop fuel s) = None ∧
  (∀ fuel', (String.length s < fuel')%nat → normalize_loop fuel' s = normalize_loop fuel s).
Proof.
  induction fuel as [|fuel IH] in s |- *; [lia|]. intros Hs. cbn [normalize_loop].
  destruct (reply_needle s) as [needle|] eqn:En.
  - pose proof (round_shorter s needle En) as Hlt.
    destruct (IH (trim (str_drop (String.length needle) s))) as [Hnone Hsame]; [lia|].
    split; [done|]. intros [|fuel'] Hf; [lia|]. cbn [normalize_loop]. rewrite En.
    apply Hsame. lia.
  - split; [done|]. intros [|fuel'] Hf; [lia|]. cbn [normalize_loop]. by rewrite En.
Qed.

(** Every text between rounds is trimmed and is a piece of the subject. *)
Lemma normalize_loop_piece fuel s :
  trim s = s →
  trim (normalize_loop fuel s) = normalize_loop fuel s ∧
  ∃ u v, s = u +:+ normalize_loop fuel s +:+ v.
Proof.
  induction fuel as [|fuel IH] in s |- *; intros Ht; cbn [normalize_loop].
  { split; [done|]. exists "", "". cbn. by rewrite string_app_nil_r. }
  destruct (reply_needle s) as [needle|].
  - destruct (IH (trim (str_drop (String.length needle) s))) as (Hf & u & v & Huv).
    { apply trim_idemp. }
    split; [done|]. destruct (str_drop_piece (String.length needle) s) as [x Hx].
    destruct (trim_piece (str_drop (String.length needle) s)) as (y & z & Hyz).
    exists (x +:+ y +:+ u), (v +:+ z). rewrite Hx at 1. rewrite Hyz at 1. rewrite Huv at 1.
    by rewrite !string_app_assoc.
  - split; [done|]. exists "", "". cbn. by rewrite string_app_nil_r.
Qed.

Lemma normalize_subject_fixed s :
  trim s = s → reply_needle s = None → normalize_subject s = s.
Proof. intros Ht Hn. unfold normalize_subject. cbn [normalize_loop]. by rewrite Ht, Hn. Qed.

(** normalising a subject ends, and leaves a piece of the subject that is trimmed and
    begins with none of the nine reply prefixes in any casing; normalising again changes
    nothing. *)
Theorem normalize_subject_spec s :
  trim (normalize_subject s) = normalize_subject s ∧
  Forall (λ p, starts_with (p +:+ ":") (to_lowercase (normalize_subject s)) = false) reply_prefixes ∧
  normalize_subject (normalize_subject s) = normalize_subject s ∧
  ∃ u v, s = u +:+ normalize_subject s +:+ v.
Proof.
  pose proof (trim_length s) as Hl.
  destruct (normalize_loop_enough (S (String.length s)) (trim s)) as [Hnone _]; [lia|].
  destruct (normalize_loop_piece (S (String.length s)) (trim s)) as (Ht & u & v & Huv);
    [apply trim_idemp|].
  fold (normalize_subject s) in *. split_and!; [done| | |].
  - apply Forall_forall. intros p Hp. unfold reply_needle in Hnone. cbv zeta in Hnone.
    eapply List.find_none in Hnone; [exact Hnone|]. apply list_elem_of_In, list_elem_of_fmap. eauto.
  - by apply normalize_subject_fixed.
  - destruct (trim_piece s) as (x & y & Hxy). exists (x +:+ u), (v +:+ y).
    rewrite Hxy at 1. rewrite Huv at 1. by rewrite !string_app_assoc.
Qed.

(** ** Replies to a request *)

(** The ASCII prefixes, whatever their casing. *)
Definition is_reply_prefix (p : string) : Prop :=
  to_ascii_lowercase p ∈ ["re"; "fwd"; "aw"; "antwort"; "sv"; "vs"; "wg"; "ref"].

Lemma reply_prefix_ascii p :
  is_reply_prefix p → str_forallb (byte_in 0 127) (p +:+ ":") = true.
Proof.
  unfold is_reply_prefix. intros Hp.
  assert (Hl : str_forallb (byte_in 0 127) (to_ascii_lowercase p) = true).
  { assert (Hall : Forall (λ q, str_forallb (byte_in 0 127) q = true)
      ["re"; "fwd"; "aw"; "antwort"; "sv"; "vs"; "wg"; "ref"]) by (repeat constructor).
    rewrite Forall_forall in Hall. by apply Hall. }
  rewrite str_forallb_app. cbn [str_forallb]. rewrite andb_true_r.
  clear Hp. unfold to_ascii_lowercase in Hl.
  induction p as [|c p IH]; [done|]. cbn [str_map str_forallb] in *.
  apply andb_true_iff in Hl as [Hc Hp]. rewrite IH by done. rewrite andb_true_r.
  destruct c as [[] [] [] [] [] [] [] []]; done.
Qed.

Lemma reply_prefix_head p :
  is_reply_prefix p → ∃ c p', p = String c p' ∧ is_ascii_alphabetic c = true.
Proof.
  unfold is_reply_prefix. destruct p as [|c p]; [set_solver|]. intros Hp. exists c, p. split; [done|].
  assert (Hall : Forall (λ q, match q with String d _ => is_ascii_lowercase d = true | "" => False end)
    ["re"; "fwd"; "aw"; "antwort"; "sv"; "vs"; "wg"; "ref"]) by (repeat constructor).
  rewrite Forall_forall in Hall. specialize (Hall _ Hp). cbn in Hall.
  destruct c as [[] [] [] [] [] [] [] []]; done.
Qed.

Lemma lower_colon p : to_ascii_lowercase (p +:+ ":") = to_ascii_lowercase p +:+ ":".
Proof. unfold to_ascii_lowercase. induction p as [|c p IH]; [done|]. cbn. by rewrite IH. Qed.

Lemma reply_needle_prefix p s :
  is_reply_prefix p → reply_needle ((p +:+ ":") +:+ s) = Some (to_ascii_lowercase p +:+ ":").
Proof.
  intros Hp. destruct (lower_ascii (p +:+ ":") s) as [t Ht]; [by apply reply_prefix_ascii|].
  unfold reply_needle. rewrite Ht, lower_colon. unfold is_reply_prefix in Hp.
  repeat (apply elem_of_cons in Hp as [->|Hp]; [reflexivity|]). by apply elem_of_nil in Hp.
Qed.

Lemma to_ascii_lowercase_length p : String.length (to_ascii_lowercase p) = String.length p.
Proof. unfold to_ascii_lowercase. induction p; cbn; auto. Qed.

Lemma trim_reply p s :
  is_reply_prefix p → trim s = s → s ≠ "" → trim (p +:+ ": " +:+ s) = p +:+ ": " +:+ s.
Proof.
  intros Hp Ht Hne. apply trim_fixed. split.
  - destruct (reply_prefix_head p Hp) as (c & p' & -> & Hc). by apply alphabetic_not_ws.
  - change (": " +:+ s) with (":" +:+ String " " s). rewrite <-string_app_assoc.
    apply trim_fixed in Ht as [_ He]. by apply trim_end_after_blank.
Qed.

Lemma normalize_reply p s :
  is_reply_prefix p → trim s = s → s ≠ "" →
  normalize_subject (p +:+ ": " +:+ s) = normalize_subject s.
Proof.
  intros Hp Ht Hne. unfold normalize_subject. pose proof (trim_reply p s Hp Ht Hne) as Htrim.
  remember (S (String.length s)) as fuel eqn:Hfuel.
  rewrite Htrim. cbn [normalize_loop].
  change (": " +:+ s) with (":" +:+ String " " s).
  rewrite <-(string_app_assoc p ":"), reply_needle_prefix by done.
  assert (Hlen : String.length (to_ascii_lowercase p +:+ ":") = String.length (p +:+ ":")).
  { by rewrite !string_length_app, to_ascii_lowercase_length. }
  rewrite Hlen, str_drop_app, trim_leading_blank by done. rewrite Ht.
  apply normalize_loop_enough; [lia|]. rewrite !string_length_app. cbn. lia.
Qed.

(** A subject replied to or forwarded any number of times. *)
Definition replied (prefixes : list string) (subject : string) : string :=
  foldr (λ p s, p +:+ ": " +:+ s) subject prefixes.

Lemma normalize_replied prefixes s :
  Forall is_reply_prefix prefixes → trim s = s → s ≠ "" →
  normalize_subject (replied prefixes s) = normalize_subject s.
Proof.
  intros Hps Ht Hne.
  assert (trim (replied prefixes s) = replied prefixes s ∧ replied prefixes s ≠ "" ∧
          normalize_subject (replied prefixes s) = normalize_subject s) as (_ & _ & ?); [|done].
  induction Hps as [|p ps Hp Hps (IHt & IHne & IHn)]; [done|].
  unfold replied in *. cbn [foldr]. split_and!.
  - by apply trim_reply.
  - destruct (reply_prefix_head p Hp) as (c & p' & -> & _). done.
  - by rewrite normalize_reply.
Qed.

Lemma request_subject_trimmed broker :
  trim broker = broker → broker ≠ "" → trim (request_subject broker) = request_subject broker.
Proof.
  intros [_ He]%trim_fixed Hne. apply trim_fixed. split; [by apply alphabetic_not_ws|].
  unfold request_subject. rewrite <-(string_app_assoc "Data Deletion Request ").
  by apply trim_end_after_blank.
Qed.

Lemma request_subject_no_prefix broker : reply_needle (request_subject broker) = None.
Proof.
  unfold request_subject, reply_needle.
  destruct (lower_ascii "Data Deletion Request "
    (String (b 226) (String (b 128) (String (b 148) "")) +:+ " " +:+ broker)) as [t Ht]; [done|].
  rewrite Ht. reflexivity.
Qed.

Lemma subject_index_lookup requests k :
  subject_index requests !! k =
  last_some (λ r, if String.eqb (subject_key (request_subject (rq_broker_id r))) k
                  then Some (rq_id r) else None) requests.
Proof.
  unfold subject_index. induction requests as [|r requests IH] using rev_ind; [apply lookup_empty|].
  rewrite fold_left_app, last_some_snoc. cbn [fold_left].
  destruct (String.eqb_spec (subject_key (request_subject (rq_broker_id r))) k) as [<-|Hne].
  - apply lookup_insert_eq.
  - by rewrite lookup_insert_ne.
Qed.

Lemma last_some_unique {A} (f : A → option Z) l x y :
  x ∈ l → f x = Some y → (∀ x' y', x' ∈ l → f x' = Some y' → y' = y) → last_some f l = Some y.
Proof.
  induction l as [|z l IH] using rev_ind; [by intros ?%elem_of_nil|].
  intros Hx Hf Hu. rewrite last_some_snoc. destruct (f z) as [y'|] eqn:Ez.
  - f_equal. apply (Hu z); [set_solver|done].
  - apply elem_of_app in Hx as [Hx| ->%list_elem_of_singleton]; [|congruence].
    apply IH; [done..|]. intros x' y' Hx'. apply Hu. set_solver.
Qed.

End subjects.

(* ------------------------------------------------------------------ *)
(** ** * InboxWitness: the inbox theorems at concrete mailboxes *)

#[local] Instance mail_lib : MailLib :=
  {| base64_decode s := Some s; local_datetime y m d h mi s z := Some (s + 60 * mi - z) |}.

#[local] Instance base64 : Base64 :=
  {| b64_standard s := "B+" +:+ s; b64_standard_no_pad s := "B" +:+ s;
     b64_url_safe s := "b-" +:+ s; b64_url_safe_no_pad s := "b" +:+ s |}.

#[local] Instance ascii_lower : Lowercase := {| to_lowercase := to_ascii_lowercase |}.

Lemma to_ascii_lowercase_app p s :
  to_ascii_lowercase (p +:+ s) = to_ascii_lowercase p +:+ to_ascii_lowercase s.
Proof. unfold to_ascii_lowercase. induction p as [|c p IH]; [done|]. cbn. by rewrite IH. Qed.

#[local] Instance ascii_lower_laws : LowercaseLaws.
Proof.
  split.
  - intros p s _. exists (to_ascii_lowercase s). apply to_ascii_lowercase_app.
  - intros needle s _ [t Ht]%starts_with_spec. cbn in Ht.
    rewrite <-(to_ascii_lowercase_length s), Ht, string_length_app. lia.
Qed.

(** A mailbox: its validity, and its messages by UID.  [n:*] always includes the last
    message, whatever its UID. *)
Record Mailbox := { mb_validity : Z; mb_messages : list FetchedMessage }.

Definition last_uid (m : Mailbox) : Z := foldr Z.max 0 (fm_uid <$> mb_messages m).

#[local] Instance mailbox_dialer : ImapDialer Mailbox := {|
  dial _ m := (Ok (), m);
  select _ m := (Ok (mb_validity m), m);
  search_uid range _ m :=
    let start := match split_once ":" range with
                 | Some (n, _) => default 0 (parse_u32 n) | None => 0 end in
    let lo := Z.min start (last_uid m) in let hi := Z.max start (last_uid m) in
    (Ok (List.filter (λ u, (lo <=? u) && (u <=? hi)) (fm_uid <$> mb_messages m)), m);
  fetch uids m :=
    (Ok (List.filter (λ f, existsb (Z.eqb (fm_uid f)) uids) (mb_messages m)), m);
  now_utc _ := 0;
|}.

(** A reply store that refuses the sender "down". *)
#[local] Instance reply_list : ReplyStore (list (string * string)) := {|
  reply_insert reply snippet rows :=
    if String.eqb (ms_from (mm_message reply)) "down" then (Err "disk full", rows)
    else (Ok (), rows ++ [(ms_id (mm_message reply), snippet)]);
|}.

Definition crlf : string := String (b 13) (String (b 10) "").

Definition mail (uid : Z) (from subject : string) : FetchedMessage :=
  {| fm_uid := uid;
     fm_header := "From: " +:+ from +:+ crlf +:+ "Subject: " +:+ subject +:+ crlf +:+ crlf;
     fm_body := " done "; fm_flags := None; fm_internal_date := None |}.

Definition config : ImapConfig := set_folder "INBOX" ImapConfig_default.

Definition inbox : Mailbox :=
  {| mb_validity := 7;
     mb_messages := [mail 5 "b@x" "Re: AW: " ; mail 3 "a@x" "hello"] |}.

Definition reply_subject : string := replied ["RE"; "Fwd"] (request_subject "acme").

Definition inbox2 : Mailbox :=
  {| mb_validity := 7; mb_messages := [mail 5 "b@x" reply_subject ; mail 3 "a@x" "hello"] |}.

(** Ascending order, and the mark at the last UID. *)
Example poll_in_order :
  match poll_inbox_with_defaults config (inbox, memory_new) with
  | (Ok (Some ms), (_, h)) => ms_imap_uid <$> ms = [3; 5] ∧ hwm_get h "" "INBOX" = Ok (Some 7, Some 5)
  | _ => False
  end.
Proof. vm_compute. done. Qed.

(** A window of one message takes the oldest. *)
Example poll_window :
  match poll_inbox_with_defaults
    {| ic_host := "h"; ic_port := 993; ic_username := ""; ic_password := ""; ic_use_tls := true;
       ic_folder := ""; ic_since_days := 0; ic_max_messages := 1; ic_oauth2 := None;
       ic_timeout_seconds := 30; ic_allow_insecure_cleartext_auth := false |} (inbox, memory_new) with
  | (Ok (Some ms), (_, h)) => ms_imap_uid <$> ms = [3] ∧ hwm_get h "h" "INBOX" = Ok (Some 7, Some 3)
  | _ => False
  end.
Proof. vm_compute. done. Qed.

(** A mailbox that has lost its messages and its validity: the poll stores the old UID
    under the new validity, so the next polls ask from that UID on, and the message with
    UID 1 is never handled. *)
Definition marked : MemoryHwmStore := (memory_set memory_new "" "INBOX" 7 42).2.

Lemma validity_reset_skips_messages :
  match poll_inbox_with_defaults config ({| mb_validity := 8; mb_messages := [] |}, marked) with
  | (Ok None, (_, h)) =>
      hwm_get h "" "INBOX" = Ok (Some 8, Some 42) ∧
      match poll_inbox_with_defaults config
        ({| mb_validity := 8; mb_messages := [mail 1 "a@x" "one"; mail 2 "b@x" "two"] |}, h) with
      | (Ok (Some ms), (_, h)) =>
          ms_imap_uid <$> ms = [2] ∧ hwm_get h "" "INBOX" = Ok (Some 8, Some 2)
      | _ => False
      end
  | _ => False
  end.
Proof. vm_compute. done. Qed.

(** Without new mail the search answers the last message again, and the poll returns it
    again. *)
Lemma quiet_poll_repeats :
  match poll_inbox_with_defaults config (inbox, (memory_set memory_new "" "INBOX" 7 5).2) with
  | (Ok (Some ms), (_, h)) => ms_imap_uid <$> ms = [5] ∧ hwm_get h "" "INBOX" = Ok (Some 7, Some 5)
  | _ => False
  end.
Proof. vm_compute. done. Qed.


(** The call of the witness answers; a failed insertion leaves the marks. *)
Example poll_and_match_runs :
  match poll_and_match config [] [{| rq_id := 9; rq_broker_id := "acme" |}] ∅ inbox2 memory_new
    (Some []) with
  | (Ok matched, _, h', Some rows) =>
      mm_request_id <$> matched = [None; Some 9] ∧ rows = [("3", "done"); ("5", "done")] ∧
      hwm_get h' "" "INBOX" = Ok (Some 7, Some 5)
  | _ => False
  end.
Proof. vm_compute. done. Qed.

Example poll_and_match_fails :
  match poll_and_match config [] [] ∅ {| mb_validity := 7; mb_messages := [mail 5 "down" "x"] |}
    marked (Some []) with
  | (Err e, _, h', _) => e = "email: persist inbox reply: disk full" ∧ h' = marked
  | _ => False
  end.
Proof. vm_compute. done. Qed.

Lemma redact_error_complete_witness :
  contains "Bhunter2"
    (redact_error "LOGIN a hunter2 failed (Bhunter2)" (secrets
      {| ic_host := "h"; ic_port := 993; ic_username := ""; ic_password := "hunter2";
         ic_use_tls := true; ic_folder := ""; ic_since_days := 0; ic_max_messages := 1;
         ic_oauth2 := None; ic_timeout_seconds := 30;
         ic_allow_insecure_cleartext_auth := false |})) = false.
Proof.
  apply (redact_error_complete _ _ "hunter2").
  - constructor; [|constructor]. intros _. repeat constructor; discriminate.
  - left.
  - discriminate.
  - do 2 right. left.
  - discriminate.
  - reflexivity.
  - reflexivity.
Defined.

Lemma normalize_subject_spec_witness :
  normalize_subject "Re: FWD: hello " = "hello" ∧
  normalize_subject (normalize_subject "Re: FWD: hello ") = normalize_subject "Re: FWD: hello ".
Proof. split; [vm_compute; reflexivity|]. apply (normalize_subject_spec "Re: FWD: hello "). Defined.

