(* ===== verification/Triage.v ===== *)
(** * Triage: [symeraseme-core/src/triage_contract.rs], [triage_prompts.rs] and
    [triage_service.rs]

    Reading a classifier's answer, building its prompt, and the service that classifies
    a request's latest unread reply.  The language model is the caller's closure: an
    argument.  The redaction of a prompt's text ([redaction/pii.rs]) is not modelled: the
    section variable [redact_bytes], over which every theorem is quantified.  A summary
    is kept as bytes; its text form is [wire_string]. *)

From S2P Require Import Prelude.
From S2P Require Import Text.
From S2P Require Import Json.
From S2P Require Import TimeUtil.
From S2P Require Import Types.
From S2P Require Import Database.
From S2P Require Import Repository.
From S2P Require Import Projection.
From S2P Require Import MailParse.
From Corelib Require Import SpecFloat.

(** ** The contract *)

Definition SUMMARY_BYTE_LIMIT : nat := 200.

(** The double nearest to 0.4. *)
Definition CONFIDENCE_THRESHOLD_LOW : spec_float := SFdiv 53 1024 (f64_of_Z 4) (f64_of_Z 10).

Definition SummaryBytes := string.

Definition summary_truncated (value : string) : SummaryBytes := str_take SUMMARY_BYTE_LIMIT value.

(** The loop is that of [to_valid_utf8_lossy_per_byte]. *)
Definition go_json_lossy (bytes : string) : string := lossy_from 0 bytes.

Definition wire_string (s : SummaryBytes) : string := go_json_lossy s.

Record ClassificationResult := {
  cr_classification : string;
  cr_event_type : string;
  cr_confidence : spec_float;
  cr_summary : SummaryBytes;
  cr_extracted_fields : jmap;
  cr_needs_human_review : bool;
}.

(** [ClassificationResult::default()] with a summary. *)
Definition default_classification (summary : SummaryBytes) : ClassificationResult :=
  {| cr_classification := "unclear"; cr_event_type := "HUMAN_ACTION_REQUIRED";
     cr_confidence := S754_zero false; cr_summary := summary; cr_extracted_fields := [];
     cr_needs_human_review := true |}.

Definition classification_event (classification : string) : option string :=
  if String.eqb classification "ack" then Some "ACK"
  else if String.eqb classification "confirmed" then Some "CONFIRMED"
  else if String.eqb classification "rejected" then Some "REJECTED_FINAL"
  else if String.eqb classification "verification" then Some "VERIFICATION_REQUESTED"
  else if String.eqb classification "human_required" || String.eqb classification "unclear"
  then Some "HUMAN_ACTION_REQUIRED"
  else if String.eqb classification "autoresponder" then Some "AUTORESPONDER"
  else if String.eqb classification "bounce" then Some "BOUNCE"
  else None.

Definition is_rejection_classification (classification : string) : bool :=
  str_in classification
    ["address_mismatch"; "identity_challenged"; "ccpa_identity_challenged"; "other"].

(** [f64::clamp]: a NaN stays. *)
Definition f64_clamp (lo hi f : spec_float) : spec_float :=
  if SFltb f lo then lo else if SFltb hi f then hi else f.

Definition clamp_confidence (v : option value) : spec_float :=
  f64_clamp (S754_zero false) (f64_of_Z 1) (default (S754_zero false) (v ≫= as_f64)).

(** Collecting into a [BTreeMap]. *)
Definition sorted_fields (fields : jmap) : jmap := sort_by key_leb fields.

Definition fence : string := "```".

Section contract.
Context `{SerdeJson, Lowercase}.

Definition strip_json_code_fence (response : string) : string :=
  let text := trim response in
  if negb (starts_with fence text) then text
  else
    let text := trim (str_drop 3 text) in
    let text := if starts_with "json" (to_lowercase text) then trim (str_drop 4 text) else text in
    trim (default text (strip_suffix fence text)).

Definition parse_object (response : string) : result () jmap :=
  match from_str (strip_json_code_fence response) with
  | Some (JObject data) => Ok data
  | Some JNull => Ok []
  | _ => Err ()
  end.

(** A lowered label of the catalogue, or the fallback. *)
Definition label (known : string → bool) (fallback : string) (v : option value) : string :=
  match v ≫= as_str with
  | Some text =>
      let text := to_lowercase (trim text) in if known text then text else fallback
  | None => fallback
  end.

Definition summary_of (v : option value) : SummaryBytes :=
  match v ≫= as_str with Some text => summary_truncated text | None => "" end.

Definition parse_failure : SummaryBytes := summary_truncated "Failed to parse classifier response".

Definition parse_classification_response (response : string) : ClassificationResult :=
  match parse_object response with
  | Err _ => default_classification parse_failure
  | Ok data =>
      let classification :=
        label (λ l, match classification_event l with Some _ => true | None => false end) "unclear"
          (map_get "classification" data) in
      let confidence := clamp_confidence (map_get "confidence" data) in
      {| cr_classification := classification;
         cr_event_type := default "" (classification_event classification);
         cr_confidence := confidence;
         cr_summary := summary_of (map_get "summary" data);
         cr_extracted_fields :=
           match map_get "extracted_fields" data ≫= as_object with
           | Some fields => sorted_fields fields | None => [] end;
         cr_needs_human_review :=
           SFltb confidence CONFIDENCE_THRESHOLD_LOW || String.eqb classification "unclear" |}
  end.

Record RejectionClassification := {
  rc_classification : string;
  rc_confidence : spec_float;
  rc_summary : SummaryBytes;
  rc_key_points : option (list string);
  rc_jurisdiction : string;
}.

Definition parse_rejection_classification (response : string) : RejectionClassification :=
  match parse_object response with
  | Err _ =>
      {| rc_classification := "other"; rc_confidence := S754_zero false;
         rc_summary := parse_failure; rc_key_points := None; rc_jurisdiction := "unknown" |}
  | Ok data =>
      {| rc_classification := label is_rejection_classification "other" (map_get "classification" data);
         rc_confidence := clamp_confidence (map_get "confidence" data);
         rc_summary := summary_of (map_get "summary" data);
         rc_key_points :=
           match map_get "key_points" data ≫= as_array with
           | Some points => match omap as_str points with [] => None | values => Some values end
           | None => None
           end;
         rc_jurisdiction :=
           match map_get "jurisdiction" data ≫= as_str with
           | Some value => if is_empty value then "unknown" else value
           | None => "unknown"
           end |}
  end.

Definition fallback_keywords : list (list string * string) :=
  [(["address"; "old address"; "previous address"; "current address"], "address_mismatch");
   (["identity"; "verify"; "verification"; "id"; "passport"; "driver"], "identity_challenged");
   (["ccpa"; "california"; "section 1798"], "ccpa_identity_challenged")].

Definition select_fallback_template (message : string) : string :=
  let message := to_lowercase message in
  default "" (snd <$> List.find (λ kt, existsb (λ k, contains k message) kt.1) fallback_keywords).
End contract.

(** ** Prompts and classification *)

Definition ORIGINAL_SNIPPET_LIMIT : nat := 500.
Definition REPLY_BODY_LIMIT : nat := 2000.
Definition BROKER_MESSAGE_LIMIT : nat := 3000.

Record ClassifyOptions := {
  cl_broker_name : string;
  cl_broker_website : string;
  cl_original_subject : string;
  cl_original_snippet : string;
  cl_reply_subject : string;
  cl_reply_body : string;
  cl_cache_key : string;
}.

Record ClassifyRequest := {
  cq_broker_name : string;
  cq_broker_website : string;
  cq_original_subject : string;
  cq_original_snippet : string;
}.

Definition nl : string := String (b 10) "".

(** A double quote and an em dash. *)
Definition dq : string := String (b 34) "".
Definition em_dash : string := String (b 226) (String (b 128) (String (b 148) "")).

Definition CLASSIFIER_SYSTEM_PROMPT : string :=
  join nl
    ["You are a precise email classifier for a data broker removal tool.";
     "";
     "Your task is to classify incoming broker reply emails into one of these categories:";
     "";
     "- ack: Broker acknowledges receipt. They are processing the request.";
     "- confirmed: Broker confirms the data has been deleted or account closed.";
     "- rejected: Broker explicitly rejects the request.";
     "- verification: Broker asks for more information or identity verification.";
     "- human_required: The reply requires manual human review.";
     "- autoresponder: Automated out-of-office, delivery receipt, or receipt notice.";
     "- bounce: Hard bounce " +:+ em_dash +:+ " email address does not exist or mailbox is full.";
     "- unclear: Cannot confidently classify into any of the above.";
     "";
     "Respond with ONLY a JSON object on a single line:";
     "{" +:+ dq +:+ "classification" +:+ dq +:+ ": " +:+ dq +:+ "<label>" +:+ dq +:+ ", " +:+ dq +:+ "confidence" +:+ dq +:+ ": <0.0-1.0>, " +:+ dq +:+ "summary" +:+ dq +:+ ": " +:+ dq +:+ "<text>" +:+ dq +:+ ", " +:+ dq +:+ "extracted_fields" +:+ dq +:+ ": {}}";
     "If confidence < 0.4, use " +:+ dq +:+ "unclear" +:+ dq +:+ " as the fallback classification."].

Section classify.
Context {RedactionProfile Usage : Type} (no_usage : Usage).
Context (redact_bytes : string → option RedactionProfile → option string).
Context `{SerdeJson, Lowercase}.

Definition redact_compat (value : string) (profile : option RedactionProfile) : string :=
  default "" (redact_bytes value profile).

Definition build_user_prompt (o : ClassifyOptions) (profile : option RedactionProfile) : string :=
  join (nl +:+ nl)
    (["Broker: " +:+ cl_broker_name o +:+ " (" +:+ cl_broker_website o +:+ ")"] ++
     (if is_empty (cl_original_subject o) then []
      else ["Original request subject: " +:+ cl_original_subject o]) ++
     (if is_empty (cl_original_snippet o) then []
      else ["Original request body (truncated):" +:+ nl
            +:+ str_take ORIGINAL_SNIPPET_LIMIT (cl_original_snippet o)]) ++
     [nl +:+ "Reply subject: " +:+ redact_compat (cl_reply_subject o) profile;
      "Reply body:" +:+ nl +:+ redact_compat (str_take REPLY_BODY_LIMIT (cl_reply_body o)) profile]).

Definition build_rebuttal_classifier_prompt (broker_name message original_template : string)
    (profile : option RedactionProfile) : string :=
  join (nl +:+ nl)
    (["Broker: " +:+ (if is_empty broker_name then "Unknown" else broker_name)] ++
     (if is_empty original_template then []
      else ["Original request (truncated):" +:+ nl
            +:+ str_take ORIGINAL_SNIPPET_LIMIT original_template]) ++
     [nl +:+ "Broker response:" +:+ nl
        +:+ redact_compat (str_take BROKER_MESSAGE_LIMIT message) profile]).

Record LlmResponse := { lr_text : string; lr_usage : Usage }.

(** System prompt, user prompt, cache key. *)
Definition LlmCall : Type := string → string → string → result string LlmResponse.

Record ClassifyOutcome := {
  co_result : ClassificationResult;
  co_error : option string;
  co_usage : Usage;
}.

Definition classify_reply (o : ClassifyOptions) (profile : option RedactionProfile)
    (llm : option LlmCall) : ClassifyOutcome :=
  match llm with
  | None =>
      {| co_result := default_classification (summary_truncated "Classifier not initialized");
         co_error := None; co_usage := no_usage |}
  | Some llm =>
      match llm CLASSIFIER_SYSTEM_PROMPT (go_json_lossy (build_user_prompt o profile))
              (cl_cache_key o) with
      | Ok response =>
          {| co_result := parse_classification_response (lr_text response);
             co_error := None; co_usage := lr_usage response |}
      | Err error =>
          {| co_result := default_classification (summary_truncated ("API error: " +:+ error));
             co_error := Some error; co_usage := no_usage |}
      end
  end.

(** ** The service *)

Context `{Chrono, RustFmt, DbErrorFmt, Env}.

Definition is_unclassified (r : InboxRow) : bool :=
  match ir_classified_as r with None => true | Some _ => false end.

(** The two SELECTs of [latest_reply]. *)
Definition newest_reply (request_id : Z) (unclassified : bool) (d : Db) : option InboxRow :=
  head (filter (λ r, negb unclassified || is_unclassified r = true) (replies_to request_id d)).

Definition latest_reply (request_id : Z) (unclassified : bool) : DB string (option InboxRow) :=
  lift db_error_str (query (newest_reply request_id unclassified)).

Definition append_event (request_id : Z) (event_type : string) (payload : value)
    : DB string () :=
  now ← utc_now;
  _ ← lift ProjectionError_str
        (append_and_project request_id (EventType_from_wire event_type)
           (default [] (as_object payload)) System now);
  mret ().

(** The columns the UPDATE sets. *)
Definition set_classification (id : Z) (result : ClassificationResult) (r : InboxRow) : InboxRow :=
  if ir_id r =? id then
    {| ir_id := ir_id r; ir_request_id := ir_request_id r; ir_message_id := ir_message_id r;
       ir_thread_id := ir_thread_id r; ir_received_at := ir_received_at r;
       ir_from_addr := ir_from_addr r; ir_subject := ir_subject r; ir_snippet := ir_snippet r;
       ir_classified_as := Some (cr_classification result);
       ir_classifier_confidence := Some (cr_confidence result);
       ir_llm_summary := Some (wire_string (cr_summary result)) |}
  else r.

Definition update_reply (id : Z) (result : ClassificationResult) : DB string () :=
  lift db_error_str
    (execute (λ d, Ok ((), set_replies (set_classification id result <$> inbox_replies d) d))).

Definition classification_payload (result : ClassificationResult) (reply_id : Z) : value :=
  JObject
    [("classification", JString (cr_classification result));
     ("confidence", JNumber (NFloat (cr_confidence result)));
     ("summary", JString (wire_string (cr_summary result)));
     ("extracted_fields", JObject (cr_extracted_fields result));
     ("reply_id", jint reply_id)].

Definition reply_options (o : ClassifyRequest) (reply : InboxRow) : ClassifyOptions :=
  {| cl_broker_name := cq_broker_name o; cl_broker_website := cq_broker_website o;
     cl_original_subject := cq_original_subject o;
     cl_original_snippet := cq_original_snippet o;
     cl_reply_subject := or_empty (ir_subject reply);
     cl_reply_body := or_empty (ir_snippet reply);
     cl_cache_key := "broker:" +:+ cq_broker_name o |}.

Definition Service_classify_reply (request_id : Z) (options : ClassifyRequest)
    (profile : option RedactionProfile) (llm : option LlmCall) (save : bool)
    : DB string ClassifyOutcome :=
  found ← latest_reply request_id true;
  reply ← of_result (ok_or ("no unclassified inbox reply found for request #" +:+ show request_id)
                       found);
  let outcome := classify_reply (reply_options options reply) profile llm in
  match save, co_error outcome with
  | true, None =>
      _ ← update_reply (ir_id reply) (co_result outcome);
      _ ← append_event request_id (cr_event_type (co_result outcome))
            (classification_payload (co_result outcome) (ir_id reply));
      mret outcome
  | _, _ => mret outcome
  end.
End classify.
