(* ===== verification/TriageFacts.v ===== *)
(** * TriageFacts: what a classifier's answer can do *)
From S2P Require Import Prelude.
From S2P Require Import Text.
From S2P Require Import Json.
From S2P Require Import TimeUtil.
From S2P Require Import Types.
From S2P Require Import Database.
From S2P Require Import Model.
From S2P Require Import Repository.
From S2P Require Import Projection.
From S2P Require Import ProjectionFacts.
From S2P Require Import MailParse.
From S2P Require Import Triage.
From Corelib Require Import SpecFloat.

(** ** Confidence *)

Definition in_unit (f : spec_float) : Prop :=
  SFleb (S754_zero false) f = true ∧ SFleb f (f64_of_Z 1) = true.

Lemma not_below_zero f :
  f ≠ S754_nan → SFltb f (S754_zero false) = false → SFleb (S754_zero false) f = true.
Proof. by destruct f as [[]|[]| |[] m e]. Qed.

Lemma SFcompare_finite_swap m e m' e' :
  SFcompare (S754_finite false m e) (S754_finite false m' e') =
  CompOpp <$> SFcompare (S754_finite false m' e') (S754_finite false m e).
Proof.
  cbn. rewrite (Z.compare_antisym e e').
  destruct (e ?= e')%Z; cbn; try done.
  change (Pos.compare_cont Eq m m') with (m ?= m')%positive.
  change (Pos.compare_cont Eq m' m) with (m' ?= m)%positive.
  by rewrite (Pos.compare_antisym m' m).
Qed.

Lemma SFcompare_finite_Some m e m' e' :
  ∃ c, SFcompare (S754_finite false m e) (S754_finite false m' e') = Some c.
Proof. cbn. destruct (e ?= e')%Z; eauto. Qed.

Lemma not_above_one f :
  f ≠ S754_nan → SFltb (f64_of_Z 1) f = false → SFleb f (f64_of_Z 1) = true.
Proof.
  change (f64_of_Z 1) with (S754_finite false 4503599627370496 (-52)).
  destruct f as [[]|[]| |[] m e]; intros Hn Hl; try done.
  unfold SFltb, SFleb in *. rewrite SFcompare_finite_swap in Hl.
  destruct (SFcompare_finite_Some m e 4503599627370496 (-52)) as [c Hc].
  rewrite Hc in *. by destruct c.
Qed.

Lemma clamp_confidence_unit v :
  clamp_confidence v = S754_nan ∨ in_unit (clamp_confidence v).
Proof.
  unfold clamp_confidence, f64_clamp. set (f := default _ _).
  destruct (SFltb f (S754_zero false)) eqn:El; [by right|].
  destruct (SFltb (f64_of_Z 1) f) eqn:Eh; [by right|].
  assert (f = S754_nan ∨ f ≠ S754_nan) as [->|Hn] by (destruct f; auto); [by left|].
  right. split; [by apply not_below_zero|by apply not_above_one].
Qed.

(** ** A parsed answer *)

Definition labels : list string :=
  ["ack"; "confirmed"; "rejected"; "verification"; "human_required"; "unclear"; "autoresponder";
   "bounce"].

Lemma classification_event_labels l e :
  classification_event l = Some e → l ∈ labels ∧ known_event (EventType_from_wire e).
Proof.
  unfold classification_event, labels, known_event. intros He.
  repeat match type of He with
  | (if String.eqb ?x ?y then _ else _) = _ =>
      destruct (String.eqb_spec x y) as [->|]; [injection He as <-; split; [set_solver|done]|]
  | (if ?c || ?d then _ else _) = _ =>
      destruct c eqn:E1; [apply String.eqb_eq in E1 as ->|
        destruct d eqn:E2; [apply String.eqb_eq in E2 as ->|]]; cbn [orb] in He;
      [injection He as <-; split; [set_solver|done]
      |injection He as <-; split; [set_solver|done]|]
  end. done.
Qed.

Lemma str_take_length n s : (String.length (str_take n s) ≤ n)%nat.
Proof. revert n. induction s as [|c s IH]; intros [|n]; cbn; [lia..|]. specialize (IH n). lia. Qed.

Lemma str_take_prefix n s : ∃ t, s = str_take n s +:+ t.
Proof.
  revert n. induction s as [|c s IH]; intros [|n]; [by exists ""|by exists ""|by exists (String c s)|].
  destruct (IH n) as [t Ht]. exists t. cbn. by rewrite <-Ht.
Qed.

(** What every result satisfies, whatever the model answered. *)
Record sound_result (r : ClassificationResult) : Prop := {
  sound_label : cr_classification r ∈ labels;
  sound_event : classification_event (cr_classification r) = Some (cr_event_type r);
  sound_known : known_event (EventType_from_wire (cr_event_type r));
  sound_confidence : cr_confidence r = S754_nan ∨ in_unit (cr_confidence r);
  sound_summary : (String.length (cr_summary r) ≤ SUMMARY_BYTE_LIMIT)%nat;
  sound_fields : StronglySorted (λ x y, key_leb x y = true) (cr_extracted_fields r);
  sound_review : cr_needs_human_review r =
    SFltb (cr_confidence r) CONFIDENCE_THRESHOLD_LOW || String.eqb (cr_classification r) "unclear";
}.

Lemma default_sound s :
  (String.length s ≤ SUMMARY_BYTE_LIMIT)%nat → sound_result (default_classification s).
Proof.
  intros Hs. split; cbn; try done; [unfold labels; set_solver|by right|constructor].
Qed.

Section contract.
Context `{SerdeJson, Lowercase}.

Lemma label_known known fallback v :
  known fallback = true → known (label known fallback v) = true.
Proof.
  intros Hf. unfold label. destruct (v ≫= as_str) as [text|]; [|done]. cbv zeta.
  by destruct (known (to_lowercase (trim text))) eqn:E.
Qed.

Lemma parse_sound response : sound_result (parse_classification_response response).
Proof.
  unfold parse_classification_response.
  destruct (parse_object response) as [data|]; [|apply default_sound, str_take_length].
  set (known := λ l, match classification_event l with Some _ => true | None => false end).
  pose proof (label_known known "unclear" (map_get "classification" data) eq_refl) as Hk.
  set (l := label known "unclear" _) in *. unfold known in Hk.
  destruct (classification_event l) as [e|] eqn:Ee; [|done].
  destruct (classification_event_labels l e Ee) as [Hl He].
  split; cbn [cr_classification cr_event_type cr_confidence cr_summary cr_extracted_fields
              cr_needs_human_review]; try done.
  - apply clamp_confidence_unit.
  - unfold summary_of. destruct (_ ≫= as_str); [apply str_take_length|cbn; lia].
  - destruct (_ ≫= as_object); [|constructor].
    apply sort_by_StronglySorted; eauto with erase.
Qed.

(** Whatever a language model answers, the parsed result is well-formed: its label is
    one of the eight and fixes an event type of the catalogue, its confidence lies between
    zero and one, its summary is bounded, its fields are in key order, and it asks for a
    review exactly when the confidence is low or the label unclear.  An answer that is no
    JSON object (or null) is unclear with confidence zero. *)
Theorem parse_classification_response_sound response :
  sound_result (parse_classification_response response) ∧
  (parse_object response = Err () →
   cr_classification (parse_classification_response response) = "unclear" ∧
   cr_confidence (parse_classification_response response) = S754_zero false ∧
   cr_extracted_fields (parse_classification_response response) = []).
Proof.
  split; [apply parse_sound|]. unfold parse_classification_response. by intros ->.
Qed.
End contract.

(** ** The service *)

Section service.
Context {RedactionProfile Usage : Type} (no_usage : Usage).
Context (redact_bytes : string → option RedactionProfile → option string).
Context `{SerdeJson, Lowercase, Chrono, RustFmt, DbErrorFmt, Env}.

Notation classify := (classify_reply no_usage redact_bytes).
Notation service := (Service_classify_reply no_usage redact_bytes).

Lemma classify_sound o profile llm : sound_result (co_result (classify o profile llm)).
Proof.
  unfold classify_reply. destruct llm as [llm|]; [|apply default_sound, str_take_length].
  destruct (llm _ _ _); [apply parse_sound|apply default_sound, str_take_length].
Qed.

(** One event appended by the system, and the request's state replayed. *)
Definition event_recorded (d : Db) (id : Z) (t : EventType) (p : jmap) (d' : Db) : Prop :=
  ∃ at_ now now2,
    d' = set_state (<[id := state_row now2 (fold_events id (replay_log d' id))]> (request_state d))
           (add_event (event_row (next_event_id d) id at_ now t p System) d).

Lemma append_event_effect id t p w :
  match append_event id t (JObject p) w with
  | (Err _, w') => db w' = db w
  | (Ok _, w') => event_recorded (db w) id (EventType_from_wire t) p (db w')
  end.
Proof.
  destruct (append_event id t (JObject p) w) as [[[]|e] w'] eqn:Hrun; unfold append_event in Hrun.
  - apply DB_bind_ok in Hrun as (at_ & w1 & Hc & Hrun). injection Hc as <- <-.
    apply DB_bind_ok in Hrun as ([eid st] & w2 & Ha & Hrun). apply lift_ok in Ha.
    injection Hrun as ->. apply append_and_project_ok in Ha as (now & now2 & -> & Hst & Hdb).
    exists (clock (step w)), now, now2. rewrite <-Hst. exact Hdb.
  - unfold mbind, DB_bind, lift in Hrun. cbn [utc_now] in Hrun.
    destruct (append_and_project _ _ _ _ _ _) as [[x|e'] w2] eqn:Ha; [done|].
    injection Hrun as _ <-. by apply transaction_err in Ha.
Qed.

(** The reply a run classifies: no unclassified reply of the request is newer. *)
Definition newest_unclassified (id : Z) (d : Db) (reply : InboxRow) : Prop :=
  reply ∈ inbox_replies d ∧ ir_request_id reply = Some id ∧ ir_classified_as reply = None ∧
  ∀ r, r ∈ inbox_replies d → ir_request_id r = Some id → ir_classified_as r = None →
    str_leb (ir_received_at r) (ir_received_at reply) = true.

Definition newer (x y : InboxRow) : bool :=
  if String.eqb (ir_received_at x) (ir_received_at y) then ir_id y <=? ir_id x
  else str_leb (ir_received_at y) (ir_received_at x).

Lemma newer_received x y : newer x y = true → str_leb (ir_received_at y) (ir_received_at x) = true.
Proof.
  unfold newer. destruct (String.eqb_spec (ir_received_at x) (ir_received_at y)) as [->|]; [|done].
  intros _. apply str_leb_refl.
Qed.

Lemma newer_total x y : newer x y = true ∨ newer y x = true.
Proof.
  unfold newer. rewrite (String.eqb_sym (ir_received_at y)).
  destruct (String.eqb _ _); [rewrite !Z.leb_le; lia|apply str_leb_total].
Qed.

Lemma newer_trans x y z : newer x y = true → newer y z = true → newer x z = true.
Proof.
  intros Hxy Hyz. pose proof (newer_received _ _ Hxy) as Hr1. pose proof (newer_received _ _ Hyz) as Hr2.
  unfold newer in *.
  destruct (String.eqb_spec (ir_received_at x) (ir_received_at z)) as [E|];
    [|by eapply str_leb_trans].
  rewrite E in *. assert (ir_received_at y = ir_received_at z) as E2 by (by apply str_leb_antisym).
  rewrite E2, String.eqb_refl in *. rewrite Z.leb_le in *. lia.
Qed.

Lemma newest_reply_spec id d reply :
  newest_reply id true d = Some reply → newest_unclassified id d reply.
Proof.
  unfold newest_reply, replies_to. intros Hh.
  change (λ x y, if String.eqb (ir_received_at x) (ir_received_at y) then ir_id y <=? ir_id x
                 else str_leb (ir_received_at y) (ir_received_at x)) with newer in Hh.
  rewrite (filter_sort_by newer newer_total newer_trans) in Hh.
  set (l := filter _ (filter _ (inbox_replies d))) in Hh.
  assert (Hl : ∀ r, r ∈ l ↔ r ∈ inbox_replies d ∧ ir_request_id r = Some id ∧ ir_classified_as r = None).
  { intros r. unfold l. rewrite !list_elem_of_filter. cbn. unfold is_unclassified.
    destruct (ir_classified_as r); naive_solver. }
  pose proof (sort_by_StronglySorted newer newer_total newer_trans l) as Hs.
  destruct (sort_by newer l) as [|x rest] eqn:Es; [done|]. injection Hh as ->.
  assert (Hin : ∀ r, r ∈ l ↔ r ∈ reply :: rest) by (intros r; rewrite <-Es; symmetry; apply elem_of_sort_by).
  destruct (proj1 (Hl reply)) as (? & ? & ?); [apply Hin; left|]. split_and!; [done..|].
  intros r Hm1 Hm2 Hm3. apply newer_received.
  assert (r ∈ reply :: rest) as [->|Hr]%elem_of_cons by (apply Hin, Hl; done).
  - by destruct (newer_total reply reply).
  - apply StronglySorted_inv in Hs as [_ Hs]. rewrite Forall_forall in Hs. by apply Hs.
Qed.

(** The tables after the UPDATE of a reply. *)
Definition reply_updated (reply : InboxRow) (result : ClassificationResult) (d : Db) : Db :=
  set_replies (set_classification (ir_id reply) result <$> inbox_replies d) d.

Lemma update_reply_effect id result w :
  match update_reply id result w with
  | (Ok _, w') => db w' = set_replies (set_classification id result <$> inbox_replies (db w)) (db w)
  | (Err _, w') => db w' = db w
  end.
Proof. unfold update_reply, lift, execute, execute_now. by destruct (fault _). Qed.

(** The outcome is written. *)
Definition saved (save : bool) (outcome : ClassifyOutcome (Usage := Usage)) : bool :=
  save && match co_error outcome with None => true | Some _ => false end.

(** Classifying a request's reply reads its newest unclassified reply.  Without [save],
    or when the model's call failed, no table changes.  Otherwise the reply's row, and only
    rows of its id, get the parsed result, and exactly one event of the result's type is
    appended and projected.  A failed run changes nothing, or it has updated the reply
    without recording the event: the two writes are not one transaction. *)
Theorem Service_classify_reply_spec id o profile llm save w :
  match service id o profile llm save w with
  | (Ok outcome, w') =>
      ∃ reply, newest_unclassified id (db w) reply ∧
        outcome = classify (reply_options o reply) profile llm ∧
        sound_result (co_result outcome) ∧
        if saved save outcome then
          event_recorded (reply_updated reply (co_result outcome) (db w)) id
            (EventType_from_wire (cr_event_type (co_result outcome)))
            (default [] (as_object (classification_payload (co_result outcome) (ir_id reply))))
            (db w')
        else db w' = db w
  | (Err _, w') =>
      db w' = db w ∨ ∃ reply,
        newest_unclassified id (db w) reply ∧
        db w' = reply_updated reply (co_result (classify (reply_options o reply) profile llm)) (db w)
  end.
Proof.
  destruct (service id o profile llm save w) as [r w'] eqn:Hrun.
  unfold Service_classify_reply, mbind, DB_bind in Hrun.
  pose proof (query_read_only (newest_reply id true) w) as Hq.
  unfold latest_reply, lift in Hrun.
  destruct (query (newest_reply id true) w) as [[found|e] w1] eqn:Eq; cbn [map_err] in Hrun; simpl in Hq;
    [|injection Hrun as <- <-; by left].
  apply query_ok in Eq as [-> ->].
  destruct (newest_reply id true (db w)) as [reply|] eqn:En; cbn [ok_or of_result] in Hrun;
    [|injection Hrun as <- <-; by left].
  apply newest_reply_spec in En.
  set (outcome := classify (reply_options o reply) profile llm) in *.
  pose proof (classify_sound (reply_options o reply) profile llm) as Hs. fold outcome in Hs.
  destruct save; [|injection Hrun as <- <-; exists reply; by split_and!].
  destruct (co_error outcome) as [e|] eqn:Ee;
    [injection Hrun as <- <-; exists reply; unfold saved; rewrite Ee; by split_and!|].
  pose proof (update_reply_effect (ir_id reply) (co_result outcome) (bump w)) as Hu.
  destruct (update_reply _ _ (bump w)) as [[[]|e] w2]; cbn in Hu;
    [|injection Hrun as <- <-; by left].
  pose proof (append_event_effect id (cr_event_type (co_result outcome))
    (default [] (as_object (classification_payload (co_result outcome) (ir_id reply)))) w2) as Ha.
  cbn [classification_payload as_object default] in Ha. unfold classification_payload in Hrun.
  destruct (append_event _ _ _ w2) as [[[]|e] w3]; injection Hrun as <- <-.
  - exists reply. unfold saved. rewrite Ee. cbn [andb]. split_and!; [done..|]. by rewrite Hu in Ha.
  - right. exists reply. split; [done|]. by rewrite Ha.
Qed.
End service.

(* ------------------------------------------------------------------ *)
(** ** An answer, and a failing write *)

#[local] Existing Instances calendar compact_json.
#[local] Instance fmt : RustFmt := {| debug_str s := s |}.
#[local] Instance dbfmt : DbErrorFmt := {| db_error_str _ := "database error" |}.
#[local] Instance ascii_lower : Lowercase := {| to_lowercase := to_ascii_lowercase |}.

(** The step of the first append's BEGIN fails. *)
#[local] Instance flaky : Env := {| clock n := noon + Z.of_nat n * second; fault n := (n =? 5)%nat |}.

Definition q (s : string) : string := dq +:+ s +:+ dq.

(** A fenced answer with a label in capitals and a confidence above one. *)
Definition answer : string :=
  "```json" +:+ nl +:+ "{" +:+ q "classification" +:+ ":" +:+ q " Confirmed " +:+ "," +:+
  q "confidence" +:+ ":3," +:+ q "summary" +:+ ":" +:+ q "done" +:+ "}" +:+ nl +:+ "```".

Example answer_parsed :
  let r := parse_classification_response answer in
  cr_classification r = "confirmed" ∧ cr_event_type r = "CONFIRMED" ∧
  cr_confidence r = f64_of_Z 1 ∧ cr_summary r = "done" ∧ cr_needs_human_review r = false.
Proof. vm_compute. done. Qed.

Definition reply : InboxRow :=
  {| ir_id := 4; ir_request_id := Some 1; ir_message_id := "m"; ir_thread_id := None;
     ir_received_at := "2026-07-01"; ir_from_addr := None; ir_subject := Some "Re";
     ir_snippet := Some "done"; ir_classified_as := None; ir_classifier_confidence := None;
     ir_llm_summary := None |}.

Definition w0 : World :=
  let w := (create_removal_request "acme" "" "c1" "GDPR" "" "" (create_campaign "c1" "" "first" start).2).2 in
  with_db (set_replies [reply] (db w)) w.

Definition llm : LlmCall (Usage := ()) :=
  λ _ _ _, Ok {| lr_text := answer; lr_usage := () |}.

Definition request : ClassifyRequest :=
  {| cq_broker_name := "Acme"; cq_broker_website := "acme.com"; cq_original_subject := "";
     cq_original_snippet := "" |}.

Definition run (save : bool) (w : World) :=
  Service_classify_reply (RedactionProfile := ()) () (λ s _, Some s) 1 request None (Some llm) save w.

(** A failure between the two writes leaves the reply classified and the log without the
    event; repeating the call finds no reply any more. *)
Lemma failed_append_loses_event :
  step w0 = 2%nat ∧
  match run true w0 with
  | (Err _, w) =>
      ir_classified_as <$> inbox_replies (db w) = [Some "confirmed"] ∧
      request_events (db w) = request_events (db w0) ∧
      match run true w with
      | (Err e, _) => e = "no unclassified inbox reply found for request #1"
      | _ => False
      end
  | _ => False
  end.
Proof. vm_compute. done. Qed.

(** Without the failure the event is recorded and the request resolved. *)
Example saved_run :
  match run true {| db := db w0; files := ∅; outbox := []; step := 10 |} with
  | (Ok _, w) =>
      ir_classified_as <$> inbox_replies (db w) = [Some "confirmed"] ∧
      ev_event_type <$> request_events (db w) = ["CONFIRMED"]
  | _ => False
  end.
Proof. vm_compute. done. Qed.
