(* ===== verification/Encryption.v ===== *)
(** Encryption of the event-store file at rest:
    [core/storage/encryption.rs].

    Three envelope formats share one token format.  An envelope is a
    seventeen-byte header, a salt (V2 and V3) and a Fernet token; V1 and V2
    stretch the master key with PBKDF2, V3 with HKDF.  A token is url-safe
    base64 of a frame (version, timestamp, IV, AES-128-CBC ciphertext, HMAC),
    the raw bytes of such a frame, or the raw AES-256-GCM frame that an older
    Go release wrote.  Envelopes are written in the V3 format only.

    The primitives of the [hmac], [pbkdf2], [cbc], [aes_gcm] and [base64]
    crates are the methods of the class [Crypto]; what the code relies on of
    them is [CryptoLaws].  The OS random generator and the clock are
    arguments of [encrypt_v3].  Zeroising the key buffers has no effect on the
    results and is left out. *)
From S2P Require Import Prelude.
From Stdlib Require Import Ascii Strings.Byte.

Notation bytes := (list byte).

#[export] Instance byte_eq_dec : EqDecision byte := Byte.byte_eq_dec.

(** [b"..."] literals. *)
Notation lit := String.list_byte_of_string.

(** [a.starts_with(p)] on byte slices. *)
Definition bytes_start_with (p a : bytes) : bool :=
  bool_decide (take (length p) a = p).

(** [u64::to_be_bytes], for [w] bytes. *)
Fixpoint to_be_bytes (w : nat) (n : Z) : bytes :=
  match w with
  | O => []
  | S w' =>
      default x00 (Byte.of_N (Z.to_N (Z.land (Z.shiftr n (8 * Z.of_nat w')) 255)))
        :: to_be_bytes w' n
  end.

#[global] Arguments to_be_bytes : simpl never.

Class Crypto := {
  (** [Hmac<Sha256>] keyed with the first argument. *)
  hmac_sha256 : bytes → bytes → bytes;
  (** [pbkdf2_hmac::<Sha256>(password, salt, rounds, &mut [0; 32])]. *)
  pbkdf2_hmac : bytes → bytes → Z → bytes;
  (** [URL_SAFE.encode], [URL_SAFE.decode]. *)
  url_safe_encode : bytes → bytes;
  url_safe_decode : bytes → option bytes;
  (** [Encryptor::<Aes128>] and [Decryptor::<Aes128>] with PKCS7 padding, once
      built from a sixteen-byte key and IV. *)
  aes128_cbc_encrypt : bytes → bytes → bytes → option bytes;
  aes128_cbc_decrypt : bytes → bytes → bytes → option bytes;
  (** [Aes256Gcm::decrypt] with a twelve-byte nonce. *)
  aes256_gcm_decrypt : bytes → bytes → bytes → option bytes;
}.

(** What the crates document of these primitives. *)
Class CryptoLaws `{Crypto} := {
  hmac_length k m : length (hmac_sha256 k m) = 32%nat;
  pbkdf2_length p s n : length (pbkdf2_hmac p s n) = 32%nat;
  url_safe_roundtrip m : url_safe_decode (url_safe_encode m) = Some m;
  url_safe_nil : url_safe_encode [] = [];
  url_safe_ascii m : Forall (λ c, (Byte.to_N c < 128)%N) (url_safe_encode m);
  aes128_cbc_roundtrip k iv p :
    length k = 16%nat → length iv = 16%nat →
    ∃ c, aes128_cbc_encrypt k iv p = Some c ∧
         length c = (16 * (length p / 16 + 1))%nat ∧
         aes128_cbc_decrypt k iv c = Some p;
}.

Definition V1_HEADER : bytes := lit "SYMERASEME_ENCv1" ++ [x0a].
Definition V2_HEADER : bytes := lit "SYMERASEME_ENCv2" ++ [x0a].
Definition V3_HEADER : bytes := lit "SYMERASEME_ENCv3" ++ [x0a].
Definition V2_SALT_LEN : nat := 16.
Definition V3_SALT_LEN : nat := 16.
Definition V1_FIXED_SALT : bytes := lit "symeraseme-db-encryption-v1".
Definition PBKDF2_ITERATIONS : Z := 600000.
Definition V3_HKDF_INFO : bytes := lit "symeraseme-db-encryption-v3".

Definition MASTER_KEY_LEN : nat := 32.
Definition FERNET_KEY_LEN : nat := 32.
Definition FERNET_VERSION : byte := x80.
Definition FERNET_IV_LEN : nat := 16.
Definition FERNET_MAC_LEN : nat := 32.
Definition FERNET_BLOCK_LEN : nat := 16.
Definition FERNET_MIN_FRAME_LEN : nat :=
  1 + 8 + FERNET_IV_LEN + FERNET_BLOCK_LEN + FERNET_MAC_LEN.
Definition FERNET_SIGNING_KEY_LEN : nat := 16.
Definition LEGACY_GO_NONCE_LEN : nat := 12.
Definition LEGACY_GO_GCM_TAG_LEN : nat := 16.
Definition LEGACY_GO_MIN_FRAME_LEN : nat :=
  1 + 8 + LEGACY_GO_NONCE_LEN + LEGACY_GO_GCM_TAG_LEN + FERNET_MAC_LEN.

Inductive EncryptionError : Type :=
| InvalidMasterKeyLength (actual : nat)
| UnsupportedEnvelope
| TruncatedSalt
| TruncatedEnvelope (version : Z)
| TruncatedToken
| InvalidBase64
| UnsupportedFernetVersion (version : byte)
| AuthenticationFailed
| InvalidCiphertextLength
| InvalidPadding
| LegacyTokenInvalid
| RandomnessUnavailable
| ClockUnavailable.

#[export] Instance EncryptionError_eq_dec : EqDecision EncryptionError.
Proof. solve_decision. Defined.

Inductive EnvelopeVersion : Type := V1 | V2 | V3.

#[export] Instance EnvelopeVersion_eq_dec : EqDecision EnvelopeVersion.
Proof. solve_decision. Defined.

Definition hex_digit (n : N) : ascii :=
  ascii_of_N (if (n <? 10)%N then 48 + n else 87 + n).

(** [impl fmt::Display for EncryptionError]. *)
Definition encryption_error_display (e : EncryptionError) : string :=
  match e with
  | InvalidMasterKeyLength actual =>
      "master key must be 32 bytes (got " +:+ pretty (N.of_nat actual) +:+ ")"
  | UnsupportedEnvelope => "eventstore: unrecognized encryption header"
  | TruncatedSalt => "truncated V2/V3 encryption salt"
  | TruncatedEnvelope version =>
      "eventstore: encrypted V" +:+ pretty version +:+ " envelope is truncated"
  | TruncatedToken => "eventstore: fernet token invalid, tampered, or unsupported format"
  | InvalidBase64 => "invalid URL-safe base64 Fernet token"
  | UnsupportedFernetVersion version =>
      "unsupported Fernet version 0x" +:+
      String (hex_digit (Byte.to_N version / 16))
        (String (hex_digit (Byte.to_N version mod 16)) "")
  | AuthenticationFailed => "Fernet authentication failed"
  | InvalidCiphertextLength => "invalid Fernet ciphertext block length"
  | InvalidPadding => "invalid Fernet PKCS7 padding"
  | LegacyTokenInvalid => "eventstore: fernet token invalid, tampered, or unsupported format"
  | RandomnessUnavailable => "OS randomness unavailable"
  | ClockUnavailable => "system clock unavailable"
  end.

Definition validate_master_key (key : bytes) : result EncryptionError () :=
  if bool_decide (length key = MASTER_KEY_LEN) then Ok ()
  else Err (InvalidMasterKeyLength (length key)).

Section encryption.
Context `{Crypto}.

(** HKDF: extract with the salt as the key, then one block of expansion. *)
Definition derive_v3_key (master_key salt : bytes) : bytes :=
  let pseudorandom_key := hmac_sha256 salt master_key in
  hmac_sha256 pseudorandom_key (V3_HKDF_INFO ++ [x01]).

(** The key and IV length checks of [new_from_slices]. *)
Definition new_from_slices (key iv : bytes) : bool :=
  bool_decide (length key = 16%nat) && bool_decide (length iv = 16%nat).

Definition encrypt_standard_fernet (plaintext key iv : bytes) (timestamp : Z) :
    result EncryptionError bytes :=
  let cipher_key := drop FERNET_SIGNING_KEY_LEN key in
  fail_if (negb (new_from_slices cipher_key iv)) InvalidCiphertextLength ;;
  ciphertext ← ok_or InvalidPadding (aes128_cbc_encrypt cipher_key iv plaintext);
  let frame := [FERNET_VERSION] ++ to_be_bytes 8 timestamp ++ iv ++ ciphertext in
  let mac := hmac_sha256 (take FERNET_SIGNING_KEY_LEN key) frame in
  Ok (url_safe_encode (frame ++ mac)).

(** The two ways a token is read as a frame: base64, else the bytes
    themselves when they are long enough and begin with the version byte. *)
Definition token_frame (token : bytes) : result EncryptionError bytes :=
  match url_safe_decode token with
  | Some frame => Ok frame
  | None =>
      if Nat.leb FERNET_MIN_FRAME_LEN (length token)
         && bool_decide (head token = Some FERNET_VERSION)
      then Ok token
      else Err InvalidBase64
  end.

Definition decrypt_standard_fernet (token key : bytes) : result EncryptionError bytes :=
  frame ← token_frame token;
  fail_if (Nat.ltb (length frame) FERNET_MIN_FRAME_LEN) TruncatedToken ;;
  fail_if (bool_decide (head frame ≠ Some FERNET_VERSION))
    (UnsupportedFernetVersion (default x00 (head frame))) ;;
  let mac_offset := (length frame - FERNET_MAC_LEN)%nat in
  fail_if (bool_decide (hmac_sha256 (take FERNET_SIGNING_KEY_LEN key) (take mac_offset frame)
                        ≠ drop mac_offset frame)) AuthenticationFailed ;;
  let ciphertext := drop (9 + FERNET_IV_LEN) (take mac_offset frame) in
  fail_if (bool_decide (ciphertext = [])
           || negb (Nat.eqb (length ciphertext mod FERNET_BLOCK_LEN) 0))
    InvalidCiphertextLength ;;
  let cipher_key := drop FERNET_SIGNING_KEY_LEN key in
  let iv := drop 9 (take 25 frame) in
  fail_if (negb (new_from_slices cipher_key iv)) InvalidCiphertextLength ;;
  ok_or InvalidPadding (aes128_cbc_decrypt cipher_key iv ciphertext).

(** The accidental AES-256-GCM frame of the Go release. *)
Definition decrypt_legacy_go_token (token key : bytes) : result EncryptionError bytes :=
  fail_if (Nat.ltb (length token) LEGACY_GO_MIN_FRAME_LEN) TruncatedToken ;;
  fail_if (bool_decide (head token ≠ Some FERNET_VERSION))
    (UnsupportedFernetVersion (default x00 (head token))) ;;
  let mac_offset := (length token - FERNET_MAC_LEN)%nat in
  fail_if (bool_decide (hmac_sha256 key (take mac_offset token) ≠ drop mac_offset token))
    AuthenticationFailed ;;
  let nonce := drop 9 (take (9 + LEGACY_GO_NONCE_LEN) token) in
  fail_if (bool_decide (length nonce ≠ LEGACY_GO_NONCE_LEN)) InvalidCiphertextLength ;;
  let ciphertext := drop (9 + LEGACY_GO_NONCE_LEN) (take mac_offset token) in
  fail_if (bool_decide (length key ≠ 32%nat)) AuthenticationFailed ;;
  ok_or AuthenticationFailed (aes256_gcm_decrypt key nonce ciphertext).

Definition decrypt_fernet_compatible (token key : bytes) : result EncryptionError bytes :=
  match decrypt_standard_fernet token key with
  | Ok plaintext => Ok plaintext
  | Err error =>
      if Nat.leb LEGACY_GO_MIN_FRAME_LEN (length token)
         && bool_decide (head token = Some FERNET_VERSION)
      then match decrypt_legacy_go_token token key with
           | Ok plaintext => Ok plaintext
           | Err _ => Err LegacyTokenInvalid
           end
      else Err error
  end.

Definition decrypt_v1 (envelope master_key : bytes) : result EncryptionError bytes :=
  fail_if (negb (bytes_start_with V1_HEADER envelope)) UnsupportedEnvelope ;;
  validate_master_key master_key ;;
  let token := drop (length V1_HEADER) envelope in
  fail_if (bool_decide (token = [])) TruncatedToken ;;
  decrypt_fernet_compatible token (pbkdf2_hmac master_key V1_FIXED_SALT PBKDF2_ITERATIONS).

Definition decrypt_pbkdf2_envelope (envelope master_key header : bytes) :
    result EncryptionError bytes :=
  fail_if (negb (bytes_start_with header envelope)) UnsupportedEnvelope ;;
  validate_master_key master_key ;;
  let token_start := (length header + V2_SALT_LEN)%nat in
  fail_if (Nat.ltb (length envelope) token_start)
    (TruncatedEnvelope (if bool_decide (header = V2_HEADER) then 2 else 3)) ;;
  let token := drop token_start envelope in
  fail_if (bool_decide (token = [])) TruncatedToken ;;
  decrypt_fernet_compatible token
    (pbkdf2_hmac master_key (drop (length header) (take token_start envelope))
       PBKDF2_ITERATIONS).

Definition decrypt_v2 (envelope master_key : bytes) : result EncryptionError bytes :=
  decrypt_pbkdf2_envelope envelope master_key V2_HEADER.

Definition decrypt_v3 (envelope master_key : bytes) : result EncryptionError bytes :=
  fail_if (negb (bytes_start_with V3_HEADER envelope)) UnsupportedEnvelope ;;
  validate_master_key master_key ;;
  let token_start := (length V3_HEADER + V3_SALT_LEN)%nat in
  fail_if (Nat.ltb (length envelope) token_start) (TruncatedEnvelope 3) ;;
  let token := drop token_start envelope in
  fail_if (bool_decide (token = [])) TruncatedToken ;;
  decrypt_fernet_compatible token
    (derive_v3_key master_key (drop (length V3_HEADER) (take token_start envelope))).

Definition encrypt_v3_with_material (plaintext master_key salt iv : bytes) (timestamp : Z) :
    result EncryptionError bytes :=
  validate_master_key master_key ;;
  fail_if (bool_decide (length salt ≠ V3_SALT_LEN) || bool_decide (length iv ≠ FERNET_IV_LEN))
    InvalidCiphertextLength ;;
  token ← encrypt_standard_fernet plaintext (derive_v3_key master_key salt) iv timestamp;
  Ok (V3_HEADER ++ salt ++ token).

(** [random] is what the two [try_fill_bytes] calls deliver, in order, and
    [now] the clock's distance from the epoch; [None] is their failure. *)
Definition encrypt_v3 (random : option bytes * option bytes) (now : option Z)
    (plaintext master_key : bytes) : result EncryptionError bytes :=
  validate_master_key master_key ;;
  salt ← ok_or RandomnessUnavailable random.1;
  iv ← ok_or RandomnessUnavailable random.2;
  timestamp ← ok_or ClockUnavailable now;
  encrypt_v3_with_material plaintext master_key salt iv timestamp.

Definition is_legacy_go_envelope (raw : bytes) : bool :=
  let check token_offset :=
    Nat.leb (token_offset + LEGACY_GO_MIN_FRAME_LEN) (length raw)
    && bool_decide (raw !! token_offset = Some FERNET_VERSION) in
  if bytes_start_with V1_HEADER raw then check (length V1_HEADER)
  else if bytes_start_with V2_HEADER raw || bytes_start_with V3_HEADER raw then
    check ((if bytes_start_with V2_HEADER raw then length V2_HEADER else length V3_HEADER)
           + V2_SALT_LEN)%nat
  else false.

Definition detect_version (raw : bytes) : option EnvelopeVersion :=
  if bytes_start_with V3_HEADER raw then Some V3
  else if bytes_start_with V2_HEADER raw then Some V2
  else if bytes_start_with V1_HEADER raw then Some V1
  else None.

Definition is_encrypted (raw : bytes) : bool :=
  match detect_version raw with Some _ => true | None => false end.

Definition decrypt_any (raw master_key : bytes) : result EncryptionError bytes :=
  match detect_version raw with
  | Some V1 => decrypt_v1 raw master_key
  | Some V2 => decrypt_v2 raw master_key
  | Some V3 => decrypt_v3 raw master_key
  | None => Err UnsupportedEnvelope
  end.

End encryption.
