(* ===== verification/EncryptionFacts.v ===== *)
(** What the envelope code of [Encryption] guarantees: the V3 round trip, the
    authentication of everything that decrypts, and the error reported for
    each malformed envelope. *)
From S2P Require Import Prelude.
From S2P Require Import Encryption.
From Stdlib Require Import Strings.Byte.

(** ** Byte strings *)

(** [injection] would evaluate the literals. *)
Lemma Ok_inj {E A} (x y : A) : @Ok E A x = Ok y → x = y.
Proof. congruence. Qed.

Lemma bytes_start_with_spec p a : bytes_start_with p a = true ↔ ∃ t, a = p ++ t.
Proof.
  unfold bytes_start_with. rewrite bool_decide_eq_true. split.
  - intros E. exists (drop (length p) a). by rewrite <- E, take_drop at 1.
  - intros [t ->]. by rewrite take_app_length.
Qed.

Lemma bytes_start_with_app p t : bytes_start_with p (p ++ t) = true.
Proof. apply bytes_start_with_spec. by exists t. Qed.

(** Two byte strings that differ at a place both have. *)
Lemma bytes_start_with_differ p q a i x y :
  p !! i = Some x → q !! i = Some y → x ≠ y →
  bytes_start_with p a = true → bytes_start_with q a = false.
Proof.
  intros Hp Hq Hxy Ha. apply not_true_iff_false. intros Hb.
  apply bytes_start_with_spec in Ha as [t ->].
  apply bytes_start_with_spec in Hb as [u E].
  apply Hxy. apply (f_equal (.!! i)) in E.
  rewrite (lookup_app_l_Some _ _ _ _ Hp), (lookup_app_l_Some _ _ _ _ Hq) in E. congruence.
Qed.

Lemma to_be_bytes_length w n : length (to_be_bytes w n) = w.
Proof. induction w as [|w IH]; [done|]. unfold to_be_bytes; fold to_be_bytes. simpl. congruence. Qed.

Lemma detect_version_Some raw v :
  detect_version raw = Some v ↔
  bytes_start_with (match v with V1 => V1_HEADER | V2 => V2_HEADER | V3 => V3_HEADER end) raw
  = true.
Proof.
  unfold detect_version. split.
  - intros E. repeat case_match; simplify_eq; done.
  - intros E.
    assert (∀ p q, p !! 15%nat ≠ q !! 15%nat → is_Some (p !! 15%nat) → is_Some (q !! 15%nat) →
              bytes_start_with p raw = true → bytes_start_with q raw = false) as D.
    { intros p q Hne [x Hx] [y Hy]. apply (bytes_start_with_differ p q raw 15 x y Hx Hy).
      congruence. }
    destruct v; rewrite ?E; [| |done].
    + rewrite (D V1_HEADER V3_HEADER), (D V1_HEADER V2_HEADER), ?E;
        vm_compute; done || (eexists; done).
    + rewrite (D V2_HEADER V3_HEADER), ?E; vm_compute; done || (eexists; done).
Qed.

Lemma start_with_header v raw :
  bytes_start_with (match v with V1 => V1_HEADER | V2 => V2_HEADER | V3 => V3_HEADER end) raw
  = bool_decide (detect_version raw = Some v).
Proof.
  apply eq_true_iff_eq. rewrite bool_decide_eq_true. symmetry. apply detect_version_Some.
Qed.

(** ** The envelope formats as one table *)

(** Where the token starts, and the token's key. *)
Definition token_offset (v : EnvelopeVersion) : nat :=
  match v with V1 => 17 | V2 | V3 => 33 end.

Section facts.
Context `{Crypto}.

Definition envelope_key (v : EnvelopeVersion) (raw master_key : bytes) : bytes :=
  let salt := drop 17 (take 33 raw) in
  match v with
  | V1 => pbkdf2_hmac master_key V1_FIXED_SALT PBKDF2_ITERATIONS
  | V2 => pbkdf2_hmac master_key salt PBKDF2_ITERATIONS
  | V3 => derive_v3_key master_key salt
  end.

Lemma decrypt_any_table raw master_key :
  decrypt_any raw master_key =
  match detect_version raw with
  | None => Err UnsupportedEnvelope
  | Some v =>
      fail_if (negb (bool_decide (length master_key = 32%nat)))
        (InvalidMasterKeyLength (length master_key)) ;;
      fail_if (Nat.ltb (length raw) (token_offset v))
        (TruncatedEnvelope (match v with V2 => 2 | _ => 3 end)) ;;
      fail_if (bool_decide (drop (token_offset v) raw = [])) TruncatedToken ;;
      decrypt_fernet_compatible (drop (token_offset v) raw) (envelope_key v raw master_key)
  end.
Proof.
  unfold decrypt_any. destruct (detect_version raw) as [v|] eqn:D; [|done].
  apply detect_version_Some in D.
  assert (∀ k, validate_master_key k =
     fail_if (negb (bool_decide (length k = 32%nat))) (InvalidMasterKeyLength (length k))) as V.
  { intros k. unfold validate_master_key. change MASTER_KEY_LEN with 32%nat.
    by destruct (bool_decide _). }
  destruct v.
  - unfold decrypt_v1. rewrite D, V. simpl.
    replace (Nat.ltb (length raw) 17) with false; [done|].
    apply bytes_start_with_spec in D as [t ->]. symmetry. apply Nat.ltb_ge.
    rewrite length_app. change (length V1_HEADER) with 17%nat. clear. lia.
  - unfold decrypt_v2, decrypt_pbkdf2_envelope. by rewrite D, V.
  - unfold decrypt_v3. rewrite D, V. done.
Qed.

(** The frame of a token whose authentication code [decrypt] checked: the
    version byte first, the code of the bytes before it last. *)
Definition authentic (mac_key frame : bytes) : Prop :=
  ∃ body, frame = FERNET_VERSION :: body ++ hmac_sha256 mac_key (FERNET_VERSION :: body).

Lemma authentic_frame mac_key frame n :
  (32 < n)%nat → (n ≤ length frame)%nat → head frame = Some FERNET_VERSION →
  hmac_sha256 mac_key (take (length frame - 32) frame) = drop (length frame - 32) frame →
  authentic mac_key frame.
Proof.
  intros Hn Hl Hh Hm. destruct frame as [|c frame]; [done|]. injection Hh as ->.
  cbn [length] in Hm, Hl. rewrite Nat.sub_succ_l in Hm by lia. cbn [take drop] in Hm.
  exists (take (length frame - 32) frame). by rewrite Hm, take_drop.
Qed.

Lemma decrypt_standard_ok token key p :
  decrypt_standard_fernet token key = Ok p →
  ∃ frame, (url_safe_decode token = Some frame ∨
            url_safe_decode token = None ∧ frame = token) ∧
    authentic (take 16 key) frame ∧ (73 ≤ length frame)%nat ∧
    aes128_cbc_decrypt (drop 16 key) (drop 9 (take 25 frame))
      (drop 25 (take (length frame - 32) frame)) = Some p.
Proof.
  unfold decrypt_standard_fernet. intros E. inv_ok.
  destruct (Nat.ltb_spec (length a) FERNET_MIN_FRAME_LEN); [done|].
  repeat match goal with
  | H : bool_decide _ = false |- _ => apply bool_decide_eq_false in H
  | H : ¬ _ ≠ _ |- _ => apply dec_stable in H
  end.
  exists a. split_and!.
  - revert H0. unfold token_frame. repeat case_match; intros; simplify_eq; auto.
  - by apply (authentic_frame _ _ 73); [lia| | |].
  - done.
  - change (9 + FERNET_IV_LEN)%nat with 25%nat in E.
    change FERNET_MAC_LEN with 32%nat in E.
    change FERNET_SIGNING_KEY_LEN with 16%nat in E.
    by destruct (aes128_cbc_decrypt _ _ _); simplify_eq/=.
Qed.

Lemma decrypt_legacy_ok token key p :
  decrypt_legacy_go_token token key = Ok p →
  authentic key token ∧ (69 ≤ length token)%nat ∧
  aes256_gcm_decrypt key (drop 9 (take 21 token))
    (drop 21 (take (length token - 32) token)) = Some p.
Proof.
  unfold decrypt_legacy_go_token. intros E. inv_ok.
  repeat match goal with
  | H : bool_decide _ = false |- _ => apply bool_decide_eq_false in H
  | H : ¬ _ ≠ _ |- _ => apply dec_stable in H
  end.
  match goal with H : Nat.ltb _ _ = false |- _ => apply Nat.ltb_ge in H end.
  split_and!; [|done|].
  - by apply (authentic_frame _ _ 69); [lia| | |].
  - change (9 + LEGACY_GO_NONCE_LEN)%nat with 21%nat in E.
    change FERNET_MAC_LEN with 32%nat in E.
    by destruct (aes256_gcm_decrypt _ _ _); simplify_eq/=.
Qed.

Lemma decrypt_compatible_ok token key p :
  decrypt_fernet_compatible token key = Ok p →
  decrypt_standard_fernet token key = Ok p ∨
  (∃ e, decrypt_standard_fernet token key = Err e) ∧
  decrypt_legacy_go_token token key = Ok p.
Proof.
  unfold decrypt_fernet_compatible. intros E.
  repeat case_match; simplify_eq; eauto.
Qed.

(** A well-formed frame, by its pieces, decrypts to what the cipher makes of
    its ciphertext. *)
Lemma decrypt_standard_frame token key ts iv c m :
  length key = 32%nat → length ts = 8%nat → length iv = 16%nat → length m = 32%nat →
  (16 ≤ length c)%nat → (length c mod 16 = 0)%nat →
  url_safe_decode token = Some ((FERNET_VERSION :: ts ++ iv ++ c) ++ m) →
  hmac_sha256 (take 16 key) (FERNET_VERSION :: ts ++ iv ++ c) = m →
  decrypt_standard_fernet token key =
  ok_or InvalidPadding (aes128_cbc_decrypt (drop 16 key) iv c).
Proof.
  intros Hk Lt Li Lm Lc Mc Et Hm.
  set (body := FERNET_VERSION :: ts ++ iv ++ c) in *.
  assert (length body = (25 + length c)%nat) as Lb.
  { unfold body. rewrite length_cons, !length_app. lia. }
  assert (head (body ++ m) = Some FERNET_VERSION) as Hh by done.
  assert (drop 25 body = c) as Ed.
  { unfold body. rewrite app_assoc, app_comm_cons. apply drop_app_length'.
    rewrite length_cons, length_app. lia. }
  assert (drop 9 (take 25 (body ++ m)) = iv) as Ei.
  { rewrite take_app_le by lia. unfold body. rewrite app_assoc, app_comm_cons.
    rewrite take_app_length' by (rewrite length_cons, length_app; lia).
    rewrite app_comm_cons. apply drop_app_length'. rewrite length_cons. lia. }
  clearbody body. unfold decrypt_standard_fernet, token_frame. rewrite Et.
  cbn [mbind result_bind]. rewrite Hh.
  rewrite (proj2 (Nat.ltb_ge (length (body ++ m)) FERNET_MIN_FRAME_LEN))
    by (rewrite length_app; change FERNET_MIN_FRAME_LEN with 73%nat; lia).
  rewrite (bool_decide_eq_false_2 (Some _ ≠ _)) by (intros X; by apply X).
  change FERNET_SIGNING_KEY_LEN with 16%nat. change FERNET_MAC_LEN with 32%nat.
  change FERNET_BLOCK_LEN with 16%nat. change (9 + FERNET_IV_LEN)%nat with 25%nat.
  replace (length (body ++ m) - 32)%nat with (length body) by (rewrite length_app; lia).
  rewrite take_app_length, drop_app_length, Hm, Ed, Ei, Mc.
  rewrite (bool_decide_eq_false_2 (m ≠ m)) by (intros X; by apply X).
  rewrite (bool_decide_eq_false_2 (c = [])) by (intros ->; simpl in Lc; lia).
  unfold new_from_slices.
  rewrite !bool_decide_eq_true_2 by (rewrite ?length_drop; lia). done.
Qed.

(** The standard token that [encrypt_standard_fernet] built decrypts to its
    plaintext. *)
Lemma decrypt_encrypt_standard `{!CryptoLaws} plaintext key iv timestamp :
  length key = 32%nat → length iv = 16%nat →
  ∃ frame, encrypt_standard_fernet plaintext key iv timestamp = Ok (url_safe_encode frame) ∧
           frame ≠ [] ∧
           decrypt_standard_fernet (url_safe_encode frame) key = Ok plaintext.
Proof.
  intros Hk Hiv.
  assert (length (drop 16 key) = 16%nat) as Hc by (rewrite length_drop; lia).
  destruct (aes128_cbc_roundtrip (drop 16 key) iv plaintext Hc Hiv) as (c & Ec & Lc & Dc).
  assert (16 ≤ length c)%nat as Lc' by (rewrite Lc; generalize (length plaintext / 16)%nat; lia).
  eexists. split_and!.
  - unfold encrypt_standard_fernet, new_from_slices.
    change FERNET_SIGNING_KEY_LEN with 16%nat.
    rewrite !bool_decide_eq_true_2 by done. rewrite Ec. reflexivity.
  - done.
  - change ([FERNET_VERSION] ++ to_be_bytes 8 timestamp ++ iv ++ c)
      with (FERNET_VERSION :: to_be_bytes 8 timestamp ++ iv ++ c).
    set (m := hmac_sha256 _ _).
    rewrite (decrypt_standard_frame _ key (to_be_bytes 8 timestamp) iv c m); try done.
    + by rewrite Dc.
    + apply hmac_length.
    + rewrite Lc, Nat.mul_comm. apply Nat.Div0.mod_mul.
    + apply url_safe_roundtrip.
Qed.

Lemma envelope_key_length `{!CryptoLaws} v raw mk : length (envelope_key v raw mk) = 32%nat.
Proof. destruct v; [apply pbkdf2_length..|apply hmac_length]. Qed.

Lemma validate_master_key_ok k : validate_master_key k = Ok () ↔ length k = 32%nat.
Proof.
  unfold validate_master_key. change MASTER_KEY_LEN with 32%nat.
  case_bool_decide; naive_solver.
Qed.

(** What the structural test for the Go format looks at. *)
Lemma is_legacy_go_envelope_eq raw :
  is_legacy_go_envelope raw =
  match detect_version raw with
  | None => false
  | Some v =>
      let token := drop (token_offset v) raw in
      Nat.leb 69 (length token) && bool_decide (head token = Some FERNET_VERSION)
  end.
Proof.
  unfold is_legacy_go_envelope.
  rewrite (start_with_header V1), (start_with_header V2), (start_with_header V3).
  assert (∀ n, (n ≤ length raw)%nat →
            Nat.leb (n + 69) (length raw) = Nat.leb 69 (length raw - n)) as Hl.
  { intros n Hn. destruct (Nat.leb_spec (n + 69) (length raw)); symmetry;
      [apply Nat.leb_le|apply Nat.leb_gt]; lia. }
  assert (∀ n, (n ≤ length raw)%nat ∨ (length raw < n)%nat) as Hs by (intros; lia).
  destruct (detect_version raw) as [v|] eqn:D; [|done].
  cbn zeta. rewrite head_lookup, lookup_drop, Nat.add_0_r, length_drop.
  transitivity (Nat.leb (token_offset v + 69) (length raw)
                && bool_decide (raw !! token_offset v = Some FERNET_VERSION)); [by destruct v|].
  destruct (Hs (token_offset v)) as [Hn|Hn]; [by rewrite <- Hl by done|].
  by rewrite (proj2 (Nat.leb_gt (_ + 69) _)), (proj2 (Nat.leb_gt 69 _)) by lia.
Qed.

(** A successful [encrypt_v3] wrote the header, a sixteen-byte salt and a token
    that its own derived key decrypts. *)
Lemma encrypt_v3_ok `{!CryptoLaws} random now plaintext master_key envelope :
  encrypt_v3 random now plaintext master_key = Ok envelope →
  ∃ salt frame, length master_key = 32%nat ∧ length salt = 16%nat ∧ frame ≠ [] ∧
    envelope = V3_HEADER ++ salt ++ url_safe_encode frame ∧
    decrypt_standard_fernet (url_safe_encode frame) (derive_v3_key master_key salt)
    = Ok plaintext.
Proof.
  unfold encrypt_v3, encrypt_v3_with_material. intros E.
  apply result_bind_ok in E as ([] & Hmk%validate_master_key_ok & E).
  apply result_bind_ok in E as (salt & _ & E).
  apply result_bind_ok in E as (iv & _ & E).
  apply result_bind_ok in E as (timestamp & _ & E).
  apply result_bind_ok in E as (_ & _ & E).
  apply result_bind_ok in E as ([] & Hl%fail_if_ok & E).
  apply orb_false_iff in Hl as [Hs Hi].
  apply bool_decide_eq_false, dec_stable in Hs, Hi.
  destruct (decrypt_encrypt_standard plaintext (derive_v3_key master_key salt) iv timestamp)
    as (frame & Ef & Hf & Ed); [apply hmac_length|done|].
  apply result_bind_ok in E as (token & Et & E). apply Ok_inj in E.
  exists salt, frame. split_and!; try done. congruence.
Qed.

(** What a successful [encrypt_v3] wrote. *)
Lemma encrypt_v3_envelope `{!CryptoLaws} random now plaintext master_key envelope :
  encrypt_v3 random now plaintext master_key = Ok envelope →
  detect_version envelope = Some V3 ∧ is_legacy_go_envelope envelope = false ∧
  decrypt_any envelope master_key = Ok plaintext.
Proof.
  intros E. apply encrypt_v3_ok in E as (salt & frame & Hmk & Hs & Hf & -> & Ek).
  set (token := url_safe_encode frame) in *.
  assert (detect_version (V3_HEADER ++ salt ++ token) = Some V3) as D
    by apply detect_version_Some, bytes_start_with_app.
  assert (drop 33 (V3_HEADER ++ salt ++ token) = token) as Et.
  { rewrite app_assoc. apply drop_app_length'. by rewrite length_app, Hs. }
  assert (drop 17 (take 33 (V3_HEADER ++ salt ++ token)) = salt) as Esalt.
  { rewrite app_assoc, take_app_length' by (by rewrite length_app, Hs).
    by apply (drop_app_length' V3_HEADER). }
  assert (token ≠ []) as Htok.
  { intros Z. apply Hf. apply (f_equal url_safe_decode) in Z.
    rewrite <- url_safe_nil in Z. unfold token in Z. rewrite !url_safe_roundtrip in Z. congruence. }
  split_and!.
  - done.
  - rewrite is_legacy_go_envelope_eq, D. cbn zeta. change (token_offset V3) with 33%nat.
    rewrite Et. apply andb_false_iff. right. apply bool_decide_eq_false.
    pose proof (url_safe_ascii frame) as Ha. fold token in Ha.
    destruct token as [|c t]; [done|]. apply Forall_inv in Ha. intros [= ->]. done.
  - rewrite decrypt_any_table, D. change (token_offset V3) with 33%nat. rewrite Et.
    rewrite (bool_decide_eq_true_2 (length master_key = _)) by done.
    rewrite (bool_decide_eq_false_2 (token = [])) by done.
    rewrite (proj2 (Nat.ltb_ge _ _))
      by (rewrite !length_app, Hs; change (length V3_HEADER) with 17%nat; lia).
    unfold envelope_key. rewrite Esalt. unfold decrypt_fernet_compatible. cbn.
    by rewrite Ek.
Qed.

(** ** The properties *)

(** C14: the at-rest round trip: whatever [encrypt_v3] produces, with any
    randomness and clock, is recognised as an encrypted store, is not taken for
    the Go format, and [decrypt_any] with the same master key returns exactly
    the plaintext, the empty one included. *)
Theorem decrypt_any_encrypt_v3 `{!CryptoLaws} random now plaintext master_key envelope :
  encrypt_v3 random now plaintext master_key = Ok envelope →
  is_encrypted envelope = true ∧ is_legacy_go_envelope envelope = false ∧
  decrypt_any envelope master_key = Ok plaintext.
Proof.
  intros (D & L & E)%encrypt_v3_envelope. unfold is_encrypted. by rewrite D.
Qed.


Lemma fail_if_err {E B} (c : bool) (e1 e : E) (k : result E B) :
  (fail_if c e1 ;; k) = Err e → (c = true ∧ e = e1) ∨ (c = false ∧ k = Err e).
Proof. destruct c; cbn; intros; [left|right]; split; congruence. Qed.

(** What each error of [decrypt_any] says about the envelope. *)
Definition error_means (raw master_key : bytes) (e : EncryptionError) : Prop :=
  let token v := drop (token_offset v) raw in
  let key v := envelope_key v raw master_key in
  match e with
  | UnsupportedEnvelope => detect_version raw = None
  | InvalidMasterKeyLength n =>
      is_encrypted raw = true ∧ n = length master_key ∧ n ≠ 32%nat
  | TruncatedEnvelope n =>
      (17 ≤ length raw < 33)%nat ∧
      (n = 2 ∧ detect_version raw = Some V2 ∨ n = 3 ∧ detect_version raw = Some V3)
  | LegacyTokenInvalid =>
      is_legacy_go_envelope raw = true ∧
      ∃ v, detect_version raw = Some v ∧
           is_ok (decrypt_standard_fernet (token v) (key v)) = false ∧
           is_ok (decrypt_legacy_go_token (token v) (key v)) = false
  | TruncatedToken =>
      ∃ v, detect_version raw = Some v ∧
           (token v = [] ∨ ∃ f, token_frame (token v) = Ok f ∧ (length f < 73)%nat)
  | InvalidBase64 =>
      ∃ v, detect_version raw = Some v ∧ url_safe_decode (token v) = None
  | UnsupportedFernetVersion c =>
      c ≠ FERNET_VERSION ∧
      ∃ v f, detect_version raw = Some v ∧ token_frame (token v) = Ok f ∧ head f = Some c
  | AuthenticationFailed =>
      ∃ v f, detect_version raw = Some v ∧ token_frame (token v) = Ok f ∧
             ¬ authentic (take 16 (key v)) f
  | InvalidCiphertextLength =>
      ∃ v f, detect_version raw = Some v ∧ token_frame (token v) = Ok f ∧
             (length f mod 16 ≠ 9)%nat ∧ authentic (take 16 (key v)) f
  | InvalidPadding =>
      ∃ v f, detect_version raw = Some v ∧ token_frame (token v) = Ok f ∧
             authentic (take 16 (key v)) f
  | TruncatedSalt | RandomnessUnavailable | ClockUnavailable => False
  end.

(** The same for the standard token alone. *)
Definition token_error_means (token key : bytes) (e : EncryptionError) : Prop :=
  match e with
  | InvalidBase64 => url_safe_decode token = None
  | TruncatedToken => ∃ f, token_frame token = Ok f ∧ (length f < 73)%nat
  | UnsupportedFernetVersion c =>
      c ≠ FERNET_VERSION ∧ ∃ f, token_frame token = Ok f ∧ head f = Some c
  | AuthenticationFailed =>
      ∃ f, token_frame token = Ok f ∧ ¬ authentic (take 16 key) f
  | InvalidCiphertextLength =>
      ∃ f, token_frame token = Ok f ∧ (length f mod 16 ≠ 9)%nat ∧ authentic (take 16 key) f
  | InvalidPadding => ∃ f, token_frame token = Ok f ∧ authentic (take 16 key) f
  | _ => False
  end.

Lemma authentic_inv `{!CryptoLaws} k f :
  authentic k f → hmac_sha256 k (take (length f - 32) f) = drop (length f - 32) f.
Proof.
  intros [body ->]. rewrite app_comm_cons, length_app, hmac_length.
  rewrite Nat.add_sub. by rewrite take_app_length, drop_app_length.
Qed.

Lemma decrypt_standard_error `{!CryptoLaws} token key e :
  length key = 32%nat → decrypt_standard_fernet token key = Err e →
  token_error_means token key e.
Proof.
  intros Hk. unfold decrypt_standard_fernet.
  change FERNET_SIGNING_KEY_LEN with 16%nat. change FERNET_MAC_LEN with 32%nat.
  change FERNET_BLOCK_LEN with 16%nat. change (9 + FERNET_IV_LEN)%nat with 25%nat.
  change FERNET_MIN_FRAME_LEN with 73%nat.
  destruct (token_frame token) as [f|] eqn:F.
  2:{ revert F. unfold token_frame. intros F E. cbn in E. repeat case_match; simplify_eq. done. }
  cbn [mbind result_bind]. set (n := (length f - 32)%nat).
  intros E.
  apply fail_if_err in E as [[L ->]|[L E]].
  { exists f. split; [done|]. by apply Nat.ltb_lt. }
  apply Nat.ltb_ge in L.
  apply fail_if_err in E as [[V%bool_decide_eq_true ->]|[V%bool_decide_eq_false E]].
  { destruct f as [|c f]; [simpl in L; lia|]. split; [|by exists (c :: f)].
    change (c ≠ FERNET_VERSION). intros ->. by apply V. }
  apply dec_stable in V.
  apply fail_if_err in E as [[M%bool_decide_eq_true ->]|[M%bool_decide_eq_false E]].
  { exists f. split; [done|]. intros A%authentic_inv. by apply M. }
  apply dec_stable in M.
  assert (authentic (take 16 key) f) as A by (apply (authentic_frame _ _ 73); [lia|done..]).
  assert (length (drop 25 (take n f)) = (length f - 57)%nat) as Lc.
  { rewrite length_drop, length_take. unfold n. lia. }
  apply fail_if_err in E as [[C ->]|[C E]].
  - exists f. split; [done|]. split; [|done]. apply orb_true_iff in C as [C|C].
    + apply bool_decide_eq_true in C. rewrite C in Lc. simpl in Lc. lia.
    + apply negb_true_iff, Nat.eqb_neq in C. rewrite Lc in C. intros X. apply C.
      replace (length f) with (9 + 16 * 3 + (length f - 57))%nat in X by lia.
      revert X. generalize (length f - 57)%nat. clear. intros k X.
      pose proof (Nat.div_mod_eq (9 + 16 * 3 + k) 16). pose proof (Nat.div_mod_eq k 16).
      pose proof (Nat.mod_upper_bound k 16). lia.
  - assert (new_from_slices (drop 16 key) (drop 9 (take 25 f)) = true) as Hn.
    { unfold new_from_slices. rewrite !bool_decide_eq_true_2; [done|..].
      - rewrite length_drop, length_take. lia.
      - rewrite length_drop. lia. }
    rewrite Hn in E. cbn in E.
    assert (e = InvalidPadding) as -> by (destruct (aes128_cbc_decrypt _ _ _); cbn in E; congruence).
    by exists f.
Qed.

(** The error of a refused envelope says what is wrong with it: an unknown
    header before anything else, then a master key of the wrong length, a salt
    cut short, an empty or short token, text that is no base64, a version
    byte, an authentication code, or a ciphertext length that does not match;
    a token that reads as the Go format reports [LegacyTokenInvalid] and only
    when both readings failed.  [TruncatedSalt] and the two environment errors
    never come from decryption. *)
Theorem decrypt_any_error `{!CryptoLaws} raw master_key e :
  decrypt_any raw master_key = Err e → error_means raw master_key e.
Proof.
  rewrite decrypt_any_table.
  destruct (detect_version raw) as [v|] eqn:D; [|intros [= <-]; done].
  assert (17 ≤ length raw)%nat as L17.
  { apply detect_version_Some, bytes_start_with_spec in D as [t ->]. rewrite length_app.
    clear. destruct v; simpl; lia. }
  intros E. apply fail_if_err in E as [[K ->]|[K E]].
  { unfold error_means, is_encrypted. rewrite D.
    by apply negb_true_iff, bool_decide_eq_false in K. }
  apply fail_if_err in E as [[L%Nat.ltb_lt ->]|[L E]].
  { destruct v; unfold token_offset in L; [lia|..]; split; auto; lia. }
  apply fail_if_err in E as [[T%bool_decide_eq_true ->]|[T E]]; [simpl; eauto|].
  unfold decrypt_fernet_compatible in E.
  destruct (decrypt_standard_fernet _ _) as [|e1] eqn:S; [done|].
  change LEGACY_GO_MIN_FRAME_LEN with 69%nat in E.
  destruct (_ && _) eqn:G.
  - destruct (decrypt_legacy_go_token _ _) eqn:Lg; [done|]. injection E as <-.
    unfold error_means. rewrite is_legacy_go_envelope_eq, D. cbn zeta. split; [done|].
    exists v. by rewrite S, Lg.
  - injection E as <-. apply decrypt_standard_error in S; [|apply envelope_key_length].
    destruct e1; simpl in S |- *; try done; naive_solver.
Qed.

(** [encrypt_v3] succeeds on every plaintext once the master key has 32
    bytes and the generator and the clock answer; each of its failures is the
    one that names the missing precondition, the key before the generator and
    the generator before the clock. *)
Theorem encrypt_v3_outcome `{!CryptoLaws} random now plaintext master_key :
  (∀ salt, random.1 = Some salt → length salt = 16%nat) →
  (∀ iv, random.2 = Some iv → length iv = 16%nat) →
  encrypt_v3 random now plaintext master_key =
  match bool_decide (length master_key = 32%nat), random, now with
  | false, _, _ => Err (InvalidMasterKeyLength (length master_key))
  | true, (Some salt, Some iv), Some timestamp =>
      (λ token, V3_HEADER ++ salt ++ token) <$>
        encrypt_standard_fernet plaintext (derive_v3_key master_key salt) iv timestamp
  | true, (Some _, Some _), None => Err ClockUnavailable
  | true, _, _ => Err RandomnessUnavailable
  end ∧
  (length master_key = 32%nat → is_Some random.1 → is_Some random.2 → is_Some now →
   is_ok (encrypt_v3 random now plaintext master_key) = true).
Proof.
  intros Hs Hi. destruct random as [osalt oiv]. simpl in Hs, Hi.
  unfold encrypt_v3, encrypt_v3_with_material, validate_master_key.
  change MASTER_KEY_LEN with 32%nat.
  destruct (bool_decide (length master_key = 32%nat)) eqn:K; cbn [mbind result_bind].
  2:{ split; [done|]. apply bool_decide_eq_false in K. done. }
  destruct osalt as [salt|], oiv as [iv|], now as [timestamp|]; cbn [ok_or fst snd mbind result_bind];
    try (split; [done|]; intros _ [] [] []; done).
  change V3_SALT_LEN with 16%nat. change FERNET_IV_LEN with 16%nat.
  rewrite !bool_decide_eq_false_2
    by (intros X; apply X; solve [by apply Hs|by apply Hi]).
  cbn [orb fail_if mbind result_bind].
  destruct (decrypt_encrypt_standard plaintext (derive_v3_key master_key salt) iv timestamp)
    as (frame & -> & _); [apply hmac_length|by apply Hi|].
  split; [reflexivity|intros; reflexivity].
Qed.

End facts.

(* ------------------------------------------------------------------ *)
(** ** The theorems of [EncryptionFacts] at concrete inputs: an instance of the
    primitives that satisfies [CryptoLaws] (a checksum for the hash, hex for
    base64, PKCS7 padding with the identity cipher), and envelopes made with
    it. *)

Definition byte_of (n : N) : byte := default x00 (Byte.of_N n).

Definition sum_bytes (m : bytes) : N :=
  foldr (λ c acc, (3 * acc + Byte.to_N c + 1) mod 256)%N 7%N m.

Definition toy_mac (k m : bytes) : bytes :=
  replicate 31 (byte_of (sum_bytes (k ++ m))) ++ [byte_of (sum_bytes (m ++ k))].

Definition hex_byte (n : N) : byte := byte_of (if (n <? 10)%N then 48 + n else 87 + n)%N.

Definition hex_val (c : byte) : option N :=
  let n := Byte.to_N c in
  if (48 <=? n)%N && (n <=? 57)%N then Some (n - 48)%N
  else if (97 <=? n)%N && (n <=? 102)%N then Some (n - 87)%N else None.

Definition hex_encode (m : bytes) : bytes :=
  m ≫= λ c, [hex_byte (Byte.to_N c / 16); hex_byte (Byte.to_N c mod 16)].

Fixpoint hex_decode (m : bytes) : option bytes :=
  match m with
  | [] => Some []
  | h :: l :: m' =>
      h ← hex_val h; l ← hex_val l; m' ← hex_decode m'; Some (byte_of (16 * h + l) :: m')
  | _ => None
  end.

Definition pad (p : bytes) : bytes :=
  let n := (16 - length p mod 16)%nat in p ++ replicate n (byte_of (N.of_nat n)).

Definition unpad (c : bytes) : option bytes :=
  n ← Byte.to_N <$> last c;
  if bool_decide (drop (length c - N.to_nat n) c = replicate (N.to_nat n) (byte_of n))
  then Some (take (length c - N.to_nat n) c) else None.

#[export] Instance toy_crypto : Crypto := {
  hmac_sha256 := toy_mac;
  pbkdf2_hmac p s _ := toy_mac p s;
  url_safe_encode := hex_encode;
  url_safe_decode := hex_decode;
  aes128_cbc_encrypt _ _ p := Some (pad p);
  aes128_cbc_decrypt _ _ := unpad;
  aes256_gcm_decrypt _ _ c := Some c;
}.

Lemma hex_byte_roundtrip c :
  hex_val (hex_byte (Byte.to_N c / 16)) = Some (Byte.to_N c / 16)%N ∧
  hex_val (hex_byte (Byte.to_N c mod 16)) = Some (Byte.to_N c mod 16)%N ∧
  byte_of (16 * (Byte.to_N c / 16) + Byte.to_N c mod 16) = c ∧
  (Byte.to_N (hex_byte (Byte.to_N c / 16)) < 128)%N ∧
  (Byte.to_N (hex_byte (Byte.to_N c mod 16)) < 128)%N.
Proof. destruct c; vm_compute; auto. Qed.

Lemma hex_roundtrip m : hex_decode (hex_encode m) = Some m.
Proof.
  induction m as [|c m IH]; [done|].
  destruct (hex_byte_roundtrip c) as (E1 & E2 & E3 & _).
  unfold hex_encode in *. cbn -[hex_byte hex_val N.div N.modulo byte_of N.mul N.add].
  rewrite E1. cbn -[hex_byte hex_val N.div N.modulo byte_of N.mul N.add].
  rewrite E2. cbn -[hex_byte hex_val N.div N.modulo byte_of N.mul N.add].
  rewrite IH. simpl. by rewrite E3.
Qed.

Lemma unpad_pad p : unpad (pad p) = Some p.
Proof.
  unfold pad. set (n := (16 - length p mod 16)%nat).
  assert (1 ≤ n ≤ 16)%nat as Hn.
  { unfold n. pose proof (Nat.mod_upper_bound (length p) 16). lia. }
  assert (last (p ++ replicate n (byte_of (N.of_nat n))) = Some (byte_of (N.of_nat n))) as E.
  { destruct n as [|k]; [lia|]. rewrite replicate_S_end, app_assoc. apply last_snoc. }
  unfold unpad. rewrite E.
  assert (Byte.to_N (byte_of (N.of_nat n)) = N.of_nat n) as En.
  { clearbody n. clear E. do 17 (destruct n as [|n]; [done || lia|]). lia. }
  cbn [fmap option_fmap option_map mbind option_bind]. rewrite En, Nat2N.id.
  rewrite length_app, length_replicate, Nat.add_sub, drop_app_length, take_app_length.
  by rewrite bool_decide_eq_true_2.
Qed.

Lemma pad_length p : length (pad p) = (16 * (length p / 16 + 1))%nat.
Proof.
  unfold pad. rewrite length_app, length_replicate.
  pose proof (Nat.mod_upper_bound (length p) 16).
  pose proof (Nat.div_mod_eq (length p) 16). lia.
Qed.

#[export] Instance toy_laws : CryptoLaws.
Proof.
  split.
  - intros k m. done.
  - intros p s n. done.
  - apply hex_roundtrip.
  - done.
  - intros m. induction m as [|c m IH]; [constructor|].
    destruct (hex_byte_roundtrip c) as (_ & _ & _ & H1 & H2).
    do 2 (constructor; [done|]). done.
  - intros k iv p _ _. exists (pad p). split_and!; [done|apply pad_length|apply unpad_pad].
Qed.

Definition a_key : bytes := replicate 32 x11.
Definition a_salt : bytes := replicate 16 x22.
Definition an_iv : bytes := replicate 16 x33.
Definition a_plaintext : bytes := lit "SQLite format 3".

Definition an_envelope : bytes :=
  Eval vm_compute in
    match encrypt_v3 (Some a_salt, Some an_iv) (Some 1700000000) a_plaintext a_key with
    | Ok e => e | Err _ => [] end.

(** The envelope with the last hex digit of its authentication code changed. *)
Definition a_tampered_envelope : bytes :=
  Eval vm_compute in take (length an_envelope - 1) an_envelope ++ [x66].

Lemma decrypt_any_encrypt_v3_witness :
  is_encrypted an_envelope = true ∧ is_legacy_go_envelope an_envelope = false ∧
  decrypt_any an_envelope a_key = Ok a_plaintext.
Proof.
  apply (decrypt_any_encrypt_v3 (Some a_salt, Some an_iv) (Some 1700000000)).
  vm_compute. reflexivity.
Defined.


Lemma decrypt_any_error_witness :
  error_means a_tampered_envelope a_key AuthenticationFailed.
Proof. apply (decrypt_any_error a_tampered_envelope a_key). vm_compute. reflexivity. Defined.

Lemma encrypt_v3_outcome_witness :
  is_ok (encrypt_v3 (Some a_salt, Some an_iv) (Some 0) [] a_key) = true.
Proof.
  apply (encrypt_v3_outcome (Some a_salt, Some an_iv) (Some 0) [] a_key);
    [intros ? [= <-]|intros ? [= <-]|..]; reflexivity || by eexists.
Defined.
