(* ===== verification/Disk.v ===== *)
(** The operating system the at-rest code runs on: a file system with crashes,
    advisory locks and faults, and the system calls of [std::fs] that
    [core/storage/encrypted_store.rs] and [core/storage/locking.rs] make.

    The disk has inodes and directory entries.  What a crash may leave is part
    of the state: [older] holds the entry values that have not been overwritten
    durably yet (an entry changes durably when its directory is synced), and a
    file's bytes are only durable once [sync_all] has marked it [synced].
    Every call takes one step; the environment may fail any step with any
    error, and a write that fails may have written a prefix.  [history]
    records the disk after every step, so that a property of every crash point
    is a property of the recorded disks.

    A program is a function on worlds, [io]; a world is the operating system
    with the process's own globals.  Paths are strings; a trailing slash is
    ignored the way [Path::parent] and [Path::file_name] ignore it. *)
From S2P Require Import Prelude.
From S2P Require Import Text.
From S2P Require Import Encryption.
From Stdlib Require Import Ascii Strings.Byte.

(* ------------------------------------------------------------------ *)
(** ** [std::io::Error] *)

Inductive ErrorKind : Type :=
| NotFound | AlreadyExists | WouldBlock | InvalidInput | OtherKind.

#[export] Instance ErrorKind_eq_dec : EqDecision ErrorKind.
Proof. solve_decision. Defined.

(** The kind, and what [Display] prints. *)
Record ioError := IoError { kind : ErrorKind; text : string }.

#[export] Instance ioError_eq_dec : EqDecision ioError.
Proof. solve_decision. Defined.

(** [io::Error::other(message)]. *)
Definition io_other (message : string) : ioError := IoError OtherKind message.

(* ------------------------------------------------------------------ *)
(** ** The disk *)

Record file := File { data : bytes; synced : bool; mtime : Z; mode : Z }.

Record disk := Disk {
  names : gmap string nat;
  older : list (string * option nat);
  files : gmap nat file;
  dirs : gset string;
  (** directories that a crash may still lose, with everything below them *)
  fresh_dirs : gset string;
}.

Record os := Os {
  now_disk : disk;
  (** inodes some handle holds an exclusive advisory lock on *)
  locked : gset nat;
  steps : nat;
  history : list disk;
}.

Record world (P : Type) := World { system : os; process : P }.
Arguments World {P} system process.
Arguments system {P} w.
Arguments process {P} w.

(** What the code does not control: the failure of each step, the number of
    bytes a failing write still wrote, the clock (nanoseconds), the random
    generator, the order and completeness of a directory listing, and the
    system's own error texts. *)
Class Env := {
  fault : nat → option (ioError * nat);
  clock : nat → Z;
  random_u64 : nat → Z;
  readdir : nat → list string → list string;
  os_text : ErrorKind → string;
}.

Definition os_error `{Env} (k : ErrorKind) : ioError := IoError k (os_text k).

(** [Path::parent], [Path::file_name]. *)
Definition trim_slashes (p : string) : string :=
  match trim_go ["/"] 0 (str_rev p) with
  | EmptyString => if is_empty p then "" else "/"
  | s => str_rev s
  end.

Definition parent (p : string) : option string :=
  let p := trim_slashes p in
  if is_empty p || (p =? "/")%string then None
  else match rsplit_once "/" p with
       | Some (d, _) => Some (if is_empty d then "/" else trim_slashes d)
       | None => Some ""
       end.

Definition file_name (p : string) : string :=
  let p := trim_slashes p in
  let n := match rsplit_once "/" p with Some (_, n) => n | None => p end in
  if ((p =? "/") || (n =? ".."))%string then "" else n.

(** [path.parent().filter(|p| !p.as_os_str().is_empty())]. *)
Definition nonempty_parent (p : string) : option string :=
  match parent p with
  | Some d => if is_empty d then None else Some d
  | None => None
  end.

(** The directory that holds an entry, for relative paths the current one. *)
Definition dir_of (p : string) : string := default "." (nonempty_parent p).

(** [OsString::push] on a path. *)
Definition path_push (p suffix : string) : string := p +:+ suffix.

(** The directory and its ancestors, innermost first. *)
Fixpoint ancestors (fuel : nat) (d : string) : list string :=
  match fuel with
  | O => []
  | S fuel' =>
      d :: match nonempty_parent d with Some p => ancestors fuel' p | None => [] end
  end.

Definition all_ancestors (d : string) : list string := ancestors (S (String.length d)) d.

(* ------------------------------------------------------------------ *)
(** ** Reading the disk *)

Definition content (d : disk) (p : string) : option bytes :=
  i ← names d !! p; f ← files d !! i; Some (data f).

(** The values the entry [p] may have after a crash. *)
Definition may_hold (d : disk) (p : string) (o : option nat) : Prop :=
  o = names d !! p ∨ (p, o) ∈ older d.

(** What a crash may leave of an inode. *)
Definition survives (d : disk) (i : nat) (c : bytes) : Prop :=
  match files d !! i with
  | Some f => if synced f then c = data f else True
  | None => True
  end.

(** A crash may lose the directory of [p]. *)
Definition may_lose (d : disk) (p : string) : Prop := dir_of p ∈ fresh_dirs d.

(** [c] is what a crash on [d] may leave at [p]. *)
Inductive after_crash (d : disk) (p : string) : option bytes → Prop :=
| crash_file i c : may_hold d p (Some i) → survives d i c → after_crash d p (Some c)
| crash_none : may_hold d p None → after_crash d p None
| crash_dir : may_lose d p → after_crash d p None.

(** Every inode number in use. *)
Definition used (s : os) : gset nat :=
  let d := now_disk s in
  dom (files d) ∪ locked s ∪ list_to_set ((map_to_list (names d)).*2)
  ∪ list_to_set (omap snd (older d)).

Definition new_inode (s : os) : nat := fresh (used s).

(* ------------------------------------------------------------------ *)
(** ** Programs *)

Definition io (P E A : Type) : Type := world P → result E A * world P.

#[export] Instance io_ret P E : MRet (io P E) := λ A a w, (Ok a, w).
#[export] Instance io_bind P E : MBind (io P E) := λ A B f m w,
  match m w with
  | (Ok a, w') => f a w'
  | (Err e, w') => (Err e, w')
  end.

Section programs.
Context {P : Type}.

Definition throw {E A} (e : E) : io P E A := λ w, (Err e, w).

(** [match m { ... }] on a result: runs [m] and hands its result on. *)
Definition try {E F A} (m : io P E A) : io P F (result E A) := λ w,
  let '(r, w') := m w in (Ok r, w').

Definition of_result {E A} (r : result E A) : io P E A := λ w, (r, w).

(** [m.map_err(f)]. *)
Definition map_error {E F A} (f : E → F) (m : io P E A) : io P F A := λ w,
  let '(r, w') := m w in (map_err f r, w').

(** [let _ = m]. *)
Definition ignore {E F A} (m : io P E A) : io P F () := λ w,
  let '(_, w') := m w in (Ok (), w').

Definition get_process {E} : io P E P := λ w, (Ok (process w), w).
Definition modify_process {E} (f : P → P) : io P E () := λ w,
  (Ok (), World (system w) (f (process w))).

Fixpoint for_each {E A} (l : list A) (f : A → io P E ()) : io P E () :=
  match l with
  | [] => mret ()
  | a :: l' => f a ;; for_each l' f
  end.

Context `{Env}.

(** One step: the new disk and locks, recorded. *)
Definition record_step (s : os) (d : disk) (l : gset nat) : os :=
  Os d l (S (steps s)) (d :: history s).

(** A system call: [failed n] is the disk a failure leaves, [op] the effect. *)
Definition syscall {A} (failed : nat → os → disk)
    (op : os → result ioError A * disk * gset nat) : io P ioError A := λ w,
  let s := system w in
  match fault (steps s) with
  | Some (e, n) => (Err e, World (record_step s (failed n s) (locked s)) (process w))
  | None =>
      let '(r, d, l) := op s in (r, World (record_step s d l) (process w))
  end.

(** Failures of the calls below leave the disk as it was. *)
Definition atomically {A} (op : os → result ioError A * disk * gset nat) : io P ioError A :=
  syscall (λ _ s, now_disk s) op.

Definition with_names (d : disk) (n : gmap string nat) (o : list (string * option nat)) : disk :=
  Disk n (o ++ older d) (files d) (dirs d) (fresh_dirs d).

Definition with_file (d : disk) (i : nat) (f : file) : disk :=
  Disk (names d) (older d) (<[i := f]> (files d)) (dirs d) (fresh_dirs d).

(** [OpenOptions::new().write(true).create_new(true).open(path)]: the handle is
    the inode. *)
Definition create_new (path : string) : io P ioError nat :=
  atomically (λ s,
    let d := now_disk s in
    if bool_decide (dir_of path ∉ dirs d) then (Err (os_error NotFound), d, locked s)
    else if bool_decide (is_Some (names d !! path) ∨ path ∈ dirs d)
    then (Err (os_error AlreadyExists), d, locked s)
    else
      let i := new_inode s in
      (Ok i,
       with_file (with_names d (<[path := i]> (names d)) [(path, None)]) i
         (File [] false (clock (steps s)) 384),
       locked s)).

Definition append_data (s : os) (i : nat) (c : bytes) : disk :=
  let d := now_disk s in
  match files d !! i with
  | Some f => with_file d i (File (data f ++ c) false (clock (steps s)) (mode f))
  | None => d
  end.

(** [file.write_all(bytes)] on a handle at its end. *)
Definition write_all (h : nat) (c : bytes) : io P ioError () :=
  syscall (λ n s, append_data s h (take n c)) (λ s, (Ok (), append_data s h c, locked s)).

(** [file.sync_all()]. *)
Definition sync_all (h : nat) : io P ioError () :=
  atomically (λ s,
    let d := now_disk s in
    (Ok (),
     match files d !! h with
     | Some f => with_file d h (File (data f) true (mtime f) (mode f))
     | None => d
     end, locked s)).

(** [fs::set_permissions], [File::set_permissions]. *)
Definition set_mode (h : nat) (m : Z) : io P ioError () :=
  atomically (λ s,
    let d := now_disk s in
    (Ok (),
     match files d !! h with
     | Some f => with_file d h (File (data f) (synced f) (mtime f) m)
     | None => d
     end, locked s)).

(** [fs::read(path)]. *)
Definition read (path : string) : io P ioError bytes :=
  atomically (λ s,
    let d := now_disk s in
    (ok_or (os_error NotFound) (content d path), d, locked s)).

(** [fs::rename(from, to)]. *)
Definition rename (from to : string) : io P ioError () :=
  atomically (λ s,
    let d := now_disk s in
    match names d !! from with
    | Some i =>
        if bool_decide (dir_of to ∉ dirs d) then (Err (os_error NotFound), d, locked s)
        else if bool_decide (to ∈ dirs d) then (Err (os_error OtherKind), d, locked s)
        else
          (Ok (),
           with_names d (<[to := i]> (delete from (names d)))
             [(from, Some i); (to, names d !! to)],
           locked s)
    | None => (Err (os_error NotFound), d, locked s)
    end).

(** [fs::remove_file(path)]. *)
Definition remove_file (path : string) : io P ioError () :=
  atomically (λ s,
    let d := now_disk s in
    match names d !! path with
    | Some i => (Ok (), with_names d (delete path (names d)) [(path, Some i)], locked s)
    | None => (Err (os_error NotFound), d, locked s)
    end).

(** [fs::create_dir_all(dir)]; a failure may have created the outermost
    missing directories. *)
Definition add_dirs (d : disk) (l : list string) : disk :=
  let missing := filter (λ a, a ∉ dirs d) l in
  Disk (names d) (older d) (files d) (list_to_set missing ∪ dirs d)
    (list_to_set missing ∪ fresh_dirs d).

Definition create_dir_all (dir : string) : io P ioError () :=
  syscall (λ n s, add_dirs (now_disk s) (take n (rev (all_ancestors dir)))) (λ s,
    let d := now_disk s in
    if bool_decide (Exists (λ a, is_Some (names d !! a)) (all_ancestors dir))
    then (Err (os_error AlreadyExists), d, locked s)
    else (Ok (), add_dirs d (all_ancestors dir), locked s)).

(** [fs::set_permissions] on a directory: modes of directories are not part of
    the disk. *)
Definition set_dir_mode (dir : string) (m : Z) : io P ioError () :=
  atomically (λ s, (Ok (), now_disk s, locked s)).

(** [File::open(dir)?.sync_all()]: the directory's entries become durable, its
    subdirectories only when the directory is durable itself. *)
Definition sync_entries (d : disk) (dir : string) : disk :=
  Disk (names d) (filter (λ e, dir_of e.1 ≠ dir) (older d)) (files d) (dirs d)
    (filter (λ a, dir_of a ≠ dir ∨ dir ∈ fresh_dirs d) (fresh_dirs d)).

Definition open_dir (dir : string) : io P ioError () :=
  atomically (λ s,
    let d := now_disk s in
    (if bool_decide (dir ∈ dirs d) then Ok () else Err (os_error NotFound), d, locked s)).

Definition sync_opened_dir (dir : string) : io P ioError () :=
  atomically (λ s, (Ok (), sync_entries (now_disk s) dir, locked s)).

(** [fs::read_dir(dir)] with [entries.flatten()]: the paths of the entries. *)
Definition read_dir (dir : string) : io P ioError (list string) :=
  atomically (λ s,
    let d := now_disk s in
    if bool_decide (dir ∈ dirs d) then
      (Ok (readdir (steps s)
             (filter (λ p, dir_of p = dir)
                ((map_to_list (names d)).*1 ++ elements (dirs d)))), d, locked s)
    else (Err (os_error NotFound), d, locked s)).

(** [entry.metadata()]: whether the entry is a directory, and its modification
    time. *)
Definition metadata (path : string) : io P ioError (bool * Z) :=
  atomically (λ s,
    let d := now_disk s in
    (if bool_decide (path ∈ dirs d) then Ok (true, 0)
     else ok_or (os_error NotFound)
            (i ← names d !! path; f ← files d !! i; Some (false, mtime f)),
     d, locked s)).

(** [path.exists()]: any error counts as absence. *)
Definition exists_path {E} (path : string) : io P E bool := λ w,
  let '(r, w') := metadata path w in (Ok (is_ok r), w').

(** [OpenOptions::new().read(true).write(true).create(true).open(path)]. *)
Definition open_or_create (path : string) : io P ioError nat :=
  atomically (λ s,
    let d := now_disk s in
    if bool_decide (dir_of path ∉ dirs d) then (Err (os_error NotFound), d, locked s)
    else if bool_decide (path ∈ dirs d) then (Err (os_error OtherKind), d, locked s)
    else match names d !! path with
    | Some i => (Ok i, d, locked s)
    | None =>
        let i := new_inode s in
        (Ok i,
         with_file (with_names d (<[path := i]> (names d)) [(path, None)]) i
           (File [] false (clock (steps s)) 384),
         locked s)
    end).

(** [file.try_lock()]; [None] is [TryLockError::WouldBlock]. *)
Definition try_lock (h : nat) : io P ioError bool :=
  atomically (λ s,
    if bool_decide (h ∈ locked s) then (Ok false, now_disk s, locked s)
    else (Ok true, now_disk s, {[h]} ∪ locked s)).

(** [file.unlock()]. *)
Definition unlock (h : nat) : io P ioError () :=
  atomically (λ s, (Ok (), now_disk s, locked s ∖ {[h]})).

(** Dropping the [File] of a lock: the system releases the lock with the last
    handle.  It cannot fail. *)
Definition drop_handle {E} (h : nat) : io P E () := λ w,
  (Ok (), World (record_step (system w) (now_disk (system w)) (locked (system w) ∖ {[h]}))
     (process w)).

(** [rand::rng().next_u64()], [SystemTime::now()]. *)
Definition next_u64 {E} : io P E Z := λ w,
  (Ok (random_u64 (steps (system w))),
   World (record_step (system w) (now_disk (system w)) (locked (system w))) (process w)).

Definition system_time {E} : io P E Z := λ w,
  (Ok (clock (steps (system w))),
   World (record_step (system w) (now_disk (system w)) (locked (system w))) (process w)).

End programs.
