(* ===== verification/DiskFacts.v ===== *)
(** Reasoning about programs on [Disk]: triples that hold under every fault
    and at every crash point, their rules, and how the disk evolves when only
    some entries are touched. *)
From S2P Require Import Prelude.
From S2P Require Import Text.
From S2P Require Import Encryption.
From S2P Require Import Disk.

(** An assertion on the parts of a world that a step changes meaningfully. *)
Notation assertion P := (disk → gset nat → P → Prop).

Definition holds {P} (Q : assertion P) (w : world P) : Prop :=
  Q (now_disk (system w)) (locked (system w)) (process w).

(** From a world with [Pre], [m] ends with [Q] or with [R], and every disk it
    goes through satisfies [I]. *)
Definition triple {P E A} (I : disk → Prop) (Pre : assertion P) (m : io P E A)
    (Q : A → assertion P) (R : E → assertion P) : Prop :=
  ∀ w, holds Pre w →
    (∃ t, history (system (m w).2) = t ++ history (system w) ∧ Forall I t) ∧
    match (m w).1 with
    | Ok a => holds (Q a) (m w).2
    | Err e => holds (R e) (m w).2
    end.

Section rules.
Context {P : Type} (I : disk → Prop).

Implicit Types Pre : assertion P.

Lemma triple_ret {E A} (a : A) Pre Q (R : E → assertion P) :
  (∀ d l p, Pre d l p → Q a d l p) → triple I Pre (mret a : io P E A) Q R.
Proof. intros H w Hw. split; [by exists []|]. by apply H. Qed.

Lemma triple_throw {E A} (e : E) Pre (Q : A → assertion P) R :
  (∀ d l p, Pre d l p → R e d l p) → triple I Pre (throw e) Q R.
Proof. intros H w Hw. split; [by exists []|]. by apply H. Qed.

Lemma triple_of_result {E A} (r : result E A) Pre Q R :
  (∀ d l p, Pre d l p → match r with Ok a => Q a d l p | Err e => R e d l p end) →
  triple I Pre (of_result r) Q R.
Proof. intros H w Hw. split; [by exists []|]. simpl. destruct r; by apply H. Qed.

Lemma triple_bind {E A B} (m : io P E A) (f : A → io P E B) Pre Mid Q R :
  triple I Pre m Mid R → (∀ a, triple I (Mid a) (f a) Q R) →
  triple I Pre (m ≫= f) Q R.
Proof.
  intros Hm Hf w Hw. specialize (Hm w Hw) as [(t1 & E1 & F1) Hm].
  unfold mbind, io_bind. destruct (m w) as [[a|e] w1]; simpl in *.
  - specialize (Hf a w1 Hm) as [(t2 & E2 & F2) Hf]. split; [|done].
    exists (t2 ++ t1). rewrite E2, E1, app_assoc. split; [done|]. by apply Forall_app.
  - split; [eauto|done].
Qed.

Lemma triple_try {E F A} (m : io P E A) Pre Q (R : F → assertion P) :
  triple I Pre m (λ a, Q (Ok a)) (λ e, Q (Err e)) → triple I Pre (try m) Q R.
Proof.
  intros Hm w Hw. specialize (Hm w Hw) as [Ht Hm]. unfold try.
  destruct (m w) as [[a|e] w1]; simpl in *; auto.
Qed.

Lemma triple_map_error {E F A} (f : E → F) (m : io P E A) Pre Q R :
  triple I Pre m Q (λ e, R (f e)) → triple I Pre (map_error f m) Q R.
Proof.
  intros Hm w Hw. specialize (Hm w Hw) as [Ht Hm]. unfold map_error.
  destruct (m w) as [[a|e] w1]; simpl in *; auto.
Qed.

Lemma triple_ignore {E F A} (m : io P E A) Pre Q (R : F → assertion P) :
  triple I Pre m (λ _, Q ()) (λ _, Q ()) → triple I Pre (ignore m) Q R.
Proof.
  intros Hm w Hw. specialize (Hm w Hw) as [Ht Hm]. unfold ignore.
  destruct (m w) as [[a|e] w1]; simpl in *; auto.
Qed.

Lemma triple_conseq {E A} (m : io P E A) (I' : disk → Prop) Pre Pre' Q Q' R R' :
  triple I' Pre' m Q' R' →
  (∀ d, I' d → I d) →
  (∀ d l p, Pre d l p → Pre' d l p) →
  (∀ a d l p, Q' a d l p → Q a d l p) →
  (∀ e d l p, R' e d l p → R e d l p) →
  triple I Pre m Q R.
Proof.
  intros Hm HI HP HQ HR w Hw. specialize (Hm w (HP _ _ _ Hw)) as [(t & Et & Ft) Hm].
  split; [exists t; split; [done|]; by eapply Forall_impl|].
  destruct ((m w).1); [by apply HQ|by apply HR].
Qed.

Lemma triple_weaken_pre {E A} (m : io P E A) Pre Pre' Q R :
  (∀ d l p, Pre d l p → Pre' d l p) → triple I Pre' m Q R → triple I Pre m Q R.
Proof. intros HP Hm. by eapply triple_conseq. Qed.

(** The precondition of the moment may be used as a pure fact. *)
Lemma triple_pre {E A} (m : io P E A) Pre Q R :
  (∀ d0 l0 p0, Pre d0 l0 p0 →
     triple I (λ d l p, d = d0 ∧ l = l0 ∧ p = p0) m Q R) → triple I Pre m Q R.
Proof. intros H w Hw. by apply (H _ _ _ Hw). Qed.

Lemma triple_get_process {E} Pre Q (R : E → assertion P) :
  (∀ d l p, Pre d l p → Q p d l p) → triple I Pre get_process Q R.
Proof. intros H w Hw. split; [by exists []|]. by apply H. Qed.

Lemma triple_modify_process {E} (f : P → P) Pre Q (R : E → assertion P) :
  (∀ d l p, Pre d l p → Q () d l (f p)) → triple I Pre (modify_process f) Q R.
Proof. intros H w Hw. split; [by exists []|]. by apply H. Qed.

Lemma triple_for_each {E A} (l : list A) (f : A → io P E ()) (Inv : list A → assertion P) R :
  (∀ pre a rest, l = pre ++ a :: rest →
     triple I (Inv pre) (f a) (λ _, Inv (pre ++ [a])) R) →
  triple I (Inv []) (for_each l f) (λ _, Inv l) R.
Proof.
  intros Hf.
  enough (∀ rest pre, l = pre ++ rest →
            triple I (Inv pre) (for_each rest f) (λ _, Inv l) R) as G; [by apply (G l [])|].
  induction rest as [|a rest IH]; intros pre Hl; simpl.
  - apply triple_ret. rewrite app_nil_r in Hl. by subst.
  - eapply triple_bind; [by apply (Hf pre a rest)|]. intros [].
    apply IH. by rewrite <- app_assoc.
Qed.

Section syscalls.
Context `{Env}.

(** A call from [Pre]: what a failure leaves and what the effect gives must
    satisfy the invariant and the matching postcondition. *)
Lemma triple_syscall {A} (failed : nat → os → disk)
    (op : os → result ioError A * disk * gset nat) Pre Q R :
  (∀ s p e n, Pre (now_disk s) (locked s) p →
     I (failed n s) ∧ R e (failed n s) (locked s) p) →
  (∀ s p, Pre (now_disk s) (locked s) p →
     let '(r, d, l) := op s in
     I d ∧ match r with Ok a => Q a d l p | Err e => R e d l p end) →
  triple I Pre (syscall failed op) Q R.
Proof.
  intros Hf Ho w Hw. unfold syscall. destruct (fault _) as [[e n]|].
  - specialize (Hf (system w) (process w) e n Hw) as [Hi Hr]. simpl.
    split; [|done]. exists [failed n (system w)]. split; [done|by constructor].
  - specialize (Ho (system w) (process w) Hw). destruct (op (system w)) as [[r d] l].
    destruct Ho as [Hi Hq]. simpl. split; [|by destruct r].
    exists [d]. split; [done|by constructor].
Qed.

Lemma triple_atomically {A} (op : os → result ioError A * disk * gset nat) Pre Q R :
  (∀ d l p, Pre d l p → I d ∧ ∀ e, R e d l p) →
  (∀ s p, Pre (now_disk s) (locked s) p →
     let '(r, d, l) := op s in
     I d ∧ match r with Ok a => Q a d l p | Err e => R e d l p end) →
  triple I Pre (atomically op) Q R.
Proof. intros Hf Ho. apply triple_syscall; [|done]. intros s p e n H1. naive_solver. Qed.

Lemma triple_next_u64 {E} Pre Q (R : E → assertion P) :
  (∀ d l p, Pre d l p → I d ∧ ∀ id, Q id d l p) → triple I Pre next_u64 Q R.
Proof.
  intros Hq w Hw. destruct (Hq _ _ _ Hw). split; [|naive_solver].
  eexists [_]. split; [done|]. by constructor.
Qed.

Lemma triple_drop_handle {E} h Pre Q (R : E → assertion P) :
  (∀ d l p, Pre d l p → I d ∧ Q () d (l ∖ {[h]}) p) → triple I Pre (drop_handle h) Q R.
Proof.
  intros Hq w Hw. destruct (Hq _ _ _ Hw). split; [|naive_solver].
  eexists [_]. split; [done|]. by constructor.
Qed.

End syscalls.
End rules.

(* ------------------------------------------------------------------ *)
(** ** How a disk evolves when only the entries of [X] are touched *)

(** The entries of the tree lie in directories that exist, and name files. *)
Record disk_ok (d : disk) : Prop := {
  ok_dirs p : is_Some (names d !! p) → dir_of p ∈ dirs d;
  ok_files p i : may_hold d p (Some i) → is_Some (files d !! i);
}.

Record evolved (X : string → Prop) (d0 d : disk) : Prop := {
  ev_names p : ¬ X p → names d !! p = names d0 !! p;
  ev_hold p o : ¬ X p → may_hold d p o → may_hold d0 p o;
  ev_files i f : files d0 !! i = Some f → files d !! i = Some f;
  ev_dirs a : a ∈ dirs d0 → a ∈ dirs d;
  ev_fresh a : a ∈ fresh_dirs d → a ∈ fresh_dirs d0 ∨ a ∉ dirs d0;
}.

(** The inode is not one the disk knows of. *)
Definition unused (d : disk) (i : nat) : Prop :=
  files d !! i = None ∧ ∀ p, ¬ may_hold d p (Some i).

Lemma new_inode_unused s : unused (now_disk s) (new_inode s) ∧ new_inode s ∉ locked s.
Proof.
  pose proof (is_fresh (used s)) as Hf. fold (new_inode s) in Hf.
  unfold used in Hf. rewrite !not_elem_of_union in Hf.
  destruct Hf as [[[Hd Hl] Hn] Ho]. split; [|done]. split.
  - by apply not_elem_of_dom in Hd.
  - intros p [Hp|Hp].
    + apply Hn, elem_of_list_to_set. apply list_elem_of_fmap. exists (p, new_inode s).
      split; [done|]. by apply elem_of_map_to_list.
    + apply Ho, elem_of_list_to_set, list_elem_of_omap. by exists (p, Some (new_inode s)).
Qed.

Section evolved.
Context (X : string → Prop) (d0 : disk).

Lemma evolved_refl : evolved X d0 d0.
Proof. split; auto. Qed.

Lemma evolved_weaken (Y : string → Prop) d :
  (∀ p, X p → Y p) → evolved X d0 d → evolved Y d0 d.
Proof. intros HXY []. split; eauto. Qed.

Lemma evolved_names d n o :
  evolved X d0 d →
  (∀ p, ¬ X p → n !! p = names d !! p) → Forall (λ e, X e.1) o →
  evolved X d0 (with_names d n o).
Proof.
  intros [] Hn Ho. split; simpl; eauto.
  - intros p Hp. rewrite Hn by done. eauto.
  - intros p v Hp [Hv|Hv]; simpl in Hv.
    + rewrite Hn in Hv by done. apply ev_hold0; [done|by left].
    + apply elem_of_app in Hv as [Hv|Hv].
      * rewrite Forall_forall in Ho. by apply Ho in Hv.
      * apply ev_hold0; [done|by right].
Qed.

Lemma evolved_file d i f :
  evolved X d0 d → files d0 !! i = None → evolved X d0 (with_file d i f).
Proof.
  intros [] Hi. split; simpl; eauto.
  intros j g Hj. rewrite lookup_insert_ne by congruence. eauto.
Qed.

Lemma evolved_sync d dir : evolved X d0 d → evolved X d0 (sync_entries d dir).
Proof.
  intros []. split; simpl; eauto.
  - intros p v Hp [Hv|Hv]; simpl in Hv; (apply ev_hold0; [done|]); [by left|].
    apply list_elem_of_filter in Hv as [_ Hv]. by right.
  - intros a Ha. apply elem_of_filter in Ha as [_ Ha]. eauto.
Qed.

Lemma evolved_add_dirs d l : evolved X d0 d → evolved X d0 (add_dirs d l).
Proof.
  intros []. split; simpl; eauto.
  - intros a Ha. apply elem_of_union. eauto.
  - intros a [Ha|Ha]%elem_of_union; [|eauto].
    apply elem_of_list_to_set, list_elem_of_filter in Ha as [Ha _].
    right. intros X1. by apply Ha, ev_dirs0.
Qed.

(** The crash outcomes of an untouched entry were possible before. *)
Lemma evolved_crash d p o :
  evolved X d0 d → disk_ok d0 → ¬ X p → after_crash d p o → after_crash d0 p o.
Proof.
  intros E T Hp Hc. destruct Hc as [i c Hh Hs|Hh|Hf].
  - apply (ev_hold _ _ _ E) in Hh; [|done]. apply (crash_file _ _ i); [done|].
    destruct (ok_files _ T _ _ Hh) as [f Ef]. unfold survives in *.
    rewrite (ev_files _ _ _ E _ _ Ef) in Hs. by rewrite Ef.
  - apply crash_none. by apply (ev_hold _ _ _ E).
  - destruct (ev_fresh _ _ _ E _ Hf) as [Hf'|Hf'].
    + by apply crash_dir.
    + apply crash_none. left. destruct (names d0 !! p) eqn:En; [|done].
      exfalso. by apply Hf', (ok_dirs _ T p).
Qed.

End evolved.

(* ------------------------------------------------------------------ *)
(** ** Programs that move the disk along a preorder, whatever fails: the rules,
    and two preorders every program of the at-rest code follows, the
    well-formedness of the disk and the preservation of untouched entries. *)

Create HintDb moves.

(** Every disk of the run, the last one included, is related to the first. *)
Definition moves {P E A} (R : disk → disk → Prop) (m : io P E A) : Prop :=
  ∀ w, (∃ t, history (system (m w).2) = t ++ history (system w) ∧
             Forall (R (now_disk (system w))) t) ∧
       R (now_disk (system w)) (now_disk (system (m w).2)).

Section rules.
Context {P : Type} (R : disk → disk → Prop) `{!PreOrder R}.

Lemma moves_ret {E A} (a : A) : moves R (mret a : io P E A).
Proof. intros w. split; [by exists []|done]. Qed.

Lemma moves_throw {E A} (e : E) : moves R (throw e : io P E A).
Proof. intros w. split; [by exists []|done]. Qed.

Lemma moves_of_result {E A} (r : result E A) : moves R (of_result r : io P E A).
Proof. intros w. split; [by exists []|done]. Qed.

Lemma moves_get_process {E} : moves R (get_process : io P E P).
Proof. intros w. split; [by exists []|done]. Qed.

Lemma moves_modify_process {E} f : moves R (modify_process f : io P E ()).
Proof. intros w. split; [by exists []|done]. Qed.

Lemma moves_bind {E A B} (m : io P E A) (f : A → io P E B) :
  moves R m → (∀ a, moves R (f a)) → moves R (m ≫= f).
Proof.
  intros Hm Hf w. specialize (Hm w) as [(t1 & E1 & F1) R1].
  unfold mbind, io_bind. destruct (m w) as [[a|e] w1]; simpl in *; [|by eauto].
  specialize (Hf a w1) as [(t2 & E2 & F2) R2]. split.
  - exists (t2 ++ t1). rewrite E2, E1, app_assoc. split; [done|].
    apply Forall_app. split; [|done]. eapply Forall_impl; [done|]. intros d Hd. by etrans.
  - by etrans.
Qed.

Lemma moves_try {E F A} (m : io P E A) : moves R m → moves R (try m : io P F _).
Proof. intros Hm w. specialize (Hm w). unfold try. by destruct (m w) as [[a|e] w1]. Qed.

Lemma moves_map_error {E F A} (f : E → F) (m : io P E A) : moves R m → moves R (map_error f m).
Proof. intros Hm w. specialize (Hm w). unfold map_error. by destruct (m w) as [[a|e] w1]. Qed.

Lemma moves_ignore {E F A} (m : io P E A) : moves R m → moves R (ignore m : io P F ()).
Proof. intros Hm w. specialize (Hm w). unfold ignore. by destruct (m w) as [[a|e] w1]. Qed.

Lemma moves_for_each {E A} (l : list A) (f : A → io P E ()) :
  (∀ a, a ∈ l → moves R (f a)) → moves R (for_each l f).
Proof.
  induction l as [|a l IH]; intros Hf; simpl; [by apply moves_ret|].
  apply moves_bind; [apply Hf; by left|]. intros _. apply IH. intros b Hb. apply Hf. by right.
Qed.

(** A program that follows [R] keeps what is related to a first disk. *)
Lemma triple_moves {E A} (m : io P E A) d0 :
  moves R m →
  triple (R d0) (λ d _ _, R d0 d) m (λ _ d _ _, R d0 d) (λ _ d _ _, R d0 d).
Proof.
  intros Hm w Hw. specialize (Hm w) as [(t & Et & Ft) Hr]. unfold holds in *. split.
  - exists t. split; [done|]. eapply Forall_impl; [done|]. intros d Hd. by etrans.
  - destruct ((m w).1); by etrans.
Qed.

Lemma moves_triple {E A} (m : io P E A) :
  (∀ d0 l0 p0, triple (R d0) (λ d l p, d = d0 ∧ l = l0 ∧ p = p0) m
     (λ _ d _ _, R d0 d) (λ _ d _ _, R d0 d)) →
  moves R m.
Proof.
  intros Hm w.
  destruct (Hm (now_disk (system w)) (locked (system w)) (process w) w ltac:(done)) as [Ht Hr].
  split; [done|]. by destruct ((m w).1).
Qed.

Section syscalls.
Context `{Env}.

Lemma moves_syscall {A} (failed : nat → os → disk)
    (op : os → result ioError A * disk * gset nat) :
  (∀ n s, R (now_disk s) (failed n s)) → (∀ s, R (now_disk s) (op s).1.2) →
  moves R (syscall failed op : io P _ _).
Proof.
  intros Hf Ho w. unfold syscall. destruct (fault _) as [[e n]|].
  - split; [|by apply Hf]. eexists [_]. split; [done|]. constructor; [by apply Hf|done].
  - specialize (Ho (system w)). destruct (op (system w)) as [[r d] l]. simpl in *.
    split; [|done]. eexists [_]. split; [done|]. by constructor.
Qed.

Lemma moves_atomically {A} (op : os → result ioError A * disk * gset nat) :
  (∀ s, R (now_disk s) (op s).1.2) → moves R (atomically op : io P _ _).
Proof. intros Ho. by apply moves_syscall. Qed.

(** Calls that change no entry and no file. *)
Lemma moves_next_u64 {E} : moves R (next_u64 : io P E Z).
Proof. intros w. split; [|simpl; done]. eexists [_]. split; [done|]. by constructor. Qed.

Lemma moves_system_time {E} : moves R (system_time : io P E Z).
Proof. intros w. split; [|simpl; done]. eexists [_]. split; [done|]. by constructor. Qed.

Lemma moves_drop_handle {E} h : moves R (drop_handle h : io P E ()).
Proof. intros w. split; [|simpl; done]. eexists [_]. split; [done|]. by constructor. Qed.

Lemma moves_read path : moves R (read path : io P _ _).
Proof. by apply moves_atomically. Qed.

Lemma moves_read_dir path : moves R (read_dir path : io P _ _).
Proof. apply moves_atomically. intros s. cbv zeta. by case_bool_decide. Qed.

Lemma moves_metadata path : moves R (metadata path : io P _ _).
Proof. by apply moves_atomically. Qed.

Lemma moves_exists_path {E} path : moves R (exists_path path : io P E bool).
Proof.
  intros w. pose proof (moves_metadata path w) as Hm. unfold exists_path.
  by destruct (metadata path w).
Qed.

Lemma moves_open_dir path : moves R (open_dir path : io P _ _).
Proof. by apply moves_atomically. Qed.

Lemma moves_set_dir_mode path m : moves R (set_dir_mode path m : io P _ _).
Proof. by apply moves_atomically. Qed.

Lemma moves_try_lock h : moves R (try_lock h : io P _ _).
Proof. apply moves_atomically. intros s. by case_bool_decide. Qed.

Lemma moves_unlock h : moves R (unlock h : io P _ _).
Proof. by apply moves_atomically. Qed.

End syscalls.
End rules.

#[export] Hint Resolve moves_ret moves_throw moves_of_result moves_get_process
  moves_modify_process moves_bind moves_try moves_map_error moves_ignore moves_for_each
  moves_next_u64 moves_system_time moves_drop_handle moves_read moves_read_dir
  moves_metadata moves_exists_path moves_open_dir moves_set_dir_mode moves_try_lock
  moves_unlock : moves.
#[export] Hint Extern 0 (PreOrder _) => apply _ : moves.

(** Follows the shape of a program; what is left are its own calls. *)
Ltac step_moves :=
  repeat first
    [ progress intros
    | apply _
    | match goal with
      | |- moves _ (match ?x with _ => _ end) => destruct x
      | |- moves _ (let _ := _ in _) => cbv zeta
      end
    | solve [eauto 3 with moves]
    | eapply moves_bind
    | eapply moves_try
    | eapply moves_map_error
    | eapply moves_ignore
    | eapply moves_for_each ].

(* ------------------------------------------------------------------ *)
(** ** Well-formed disks stay well-formed *)

Lemma disk_ok_names d n o :
  disk_ok d →
  (∀ p i, n !! p = Some i → is_Some (files d !! i) ∧ dir_of p ∈ dirs d) →
  (∀ p i, (p, Some i) ∈ o → is_Some (files d !! i)) →
  disk_ok (with_names d n o).
Proof.
  intros [Hd Hf] Hn Ho. split; simpl.
  - intros p [i Hi]. by apply (Hn p i).
  - intros p i [Hp|Hp]; simpl in Hp; [symmetry in Hp; by apply (Hn p i)|].
    apply elem_of_app in Hp as [Hp|Hp]; [by eapply Ho|]. apply (Hf p). by right.
Qed.

Lemma disk_ok_file d i f : disk_ok d → disk_ok (with_file d i f).
Proof.
  intros [Hd Hf]. split; simpl; [done|]. intros p j Hj.
  destruct (decide (i = j)) as [->|]; [by rewrite lookup_insert_eq|].
  rewrite lookup_insert_ne by done. by apply (Hf p).
Qed.

Lemma disk_ok_create d p i f :
  disk_ok d → dir_of p ∈ dirs d →
  disk_ok (with_file (with_names d (<[p := i]> (names d)) [(p, None)]) i f).
Proof.
  intros [Hd Hf] Hp. split; simpl.
  - intros q Hq. destruct (decide (p = q)) as [<-|]; [done|].
    rewrite lookup_insert_ne in Hq by done. by apply Hd.
  - intros q j Hj. destruct (decide (i = j)) as [->|Hne]; [by rewrite lookup_insert_eq|].
    rewrite lookup_insert_ne by done. apply (Hf q). destruct Hj as [Hj|Hj]; simpl in Hj.
    + left. destruct (decide (p = q)) as [<-|]; [rewrite lookup_insert_eq in Hj; congruence|].
      by rewrite lookup_insert_ne in Hj.
    + right. apply elem_of_cons in Hj as [Hj|Hj]; [congruence|done].
Qed.

Lemma disk_ok_add_dirs d l : disk_ok d → disk_ok (add_dirs d l).
Proof. intros [Hd Hf]. split; simpl; [|done]. intros p Hp. apply elem_of_union. auto. Qed.

Lemma disk_ok_sync d dir : disk_ok d → disk_ok (sync_entries d dir).
Proof.
  intros [Hd Hf]. split; simpl; [done|]. intros p i [Hp|Hp]; simpl in Hp; apply (Hf p).
  - by left.
  - apply list_elem_of_filter in Hp as [_ Hp]. by right.
Qed.

Lemma ok_named d p i : disk_ok d → names d !! p = Some i → is_Some (files d !! i).
Proof. intros Hok Hi. apply (ok_files _ Hok p). by left. Qed.

Definition stays_ok (d d' : disk) : Prop := disk_ok d → disk_ok d'.

#[export] Instance stays_ok_preorder : PreOrder stays_ok.
Proof. split; unfold stays_ok; [by intros d|intros ???; auto]. Qed.

(** The entries outside [X] keep their contents, and a crash does nothing new
    to them. *)
Record kept (p : string) (d d' : disk) : Prop := {
  kept_content : content d' p = content d p;
  kept_crash o : after_crash d' p o → after_crash d p o;
}.

Definition keeps (X : string → Prop) (d d' : disk) : Prop :=
  disk_ok d → disk_ok d' ∧ ∀ p, ¬ X p → kept p d d'.

#[export] Instance keeps_preorder X : PreOrder (keeps X).
Proof.
  split; [by intros d; split|]. intros d1 d2 d3 H1 H2 Hok.
  destruct (H1 Hok) as [Hok2 K1]. destruct (H2 Hok2) as [Hok3 K2].
  split; [done|]. intros p Hp. destruct (K1 p Hp), (K2 p Hp). split; [congruence|auto].
Qed.

Lemma evolved_kept X d0 d p :
  evolved X d0 d → disk_ok d0 → ¬ X p → kept p d0 d.
Proof.
  intros E Hok Hp. split; [|intros o; by apply (evolved_crash X)].
  unfold content. rewrite (ev_names _ _ _ E) by done.
  destruct (names d0 !! p) as [i|] eqn:Hi; simpl; [|done].
  destruct (ok_named _ _ _ Hok Hi) as [f Hf]. by rewrite Hf, (ev_files _ _ _ E _ _ Hf).
Qed.

Lemma evolved_keeps X d0 d : stays_ok d0 d → (disk_ok d0 → evolved X d0 d) → keeps X d0 d.
Proof. intros S E Hok. split; [by apply S|]. intros p. apply evolved_kept; auto. Qed.

Lemma keeps_weaken (X Y : string → Prop) d0 d :
  (∀ p, X p → Y p) → keeps X d0 d → keeps Y d0 d.
Proof. intros HXY K Hok. destruct (K Hok) as [? Hk]. split; [done|]. intros p Hp. apply Hk. auto. Qed.

Lemma moves_weaken {P E A} (R R' : disk → disk → Prop) (m : io P E A) :
  (∀ d d', R d d' → R' d d') → moves R m → moves R' m.
Proof.
  intros HR Hm w. destruct (Hm w) as [(t & Et & Ft) Hr]. split; [|auto].
  exists t. split; [done|]. eapply Forall_impl; [done|]. auto.
Qed.

(** The same for the calls on entries. *)
Section calls.
Context {P : Type} `{Env} (X : string → Prop).

Notation moving m := (moves (keeps X) (m : io P _ _)).

Lemma evolved_create d p i f :
  X p → files d !! i = None →
  evolved X d (with_file (with_names d (<[p := i]> (names d)) [(p, None)]) i f).
Proof.
  intros Hx Hi. apply evolved_file; [|done].
  apply evolved_names; [apply evolved_refl| |by repeat constructor].
  intros q Hq. rewrite lookup_insert_ne; [done|]. by intros ->.
Qed.

Lemma moves_create_new p : X p → moving (create_new p).
Proof.
  intros Hx. apply (moves_atomically _). intros s. cbv zeta.
  repeat case_bool_decide; simpl; try reflexivity.
  destruct (new_inode_unused s) as [[Hi _] _].
  apply evolved_keeps; [intros Hok|intros _; by apply evolved_create].
  by apply disk_ok_create.
Qed.

Lemma moves_open_or_create p : X p → moving (open_or_create p).
Proof.
  intros Hx. apply (moves_atomically _). intros s. cbv zeta.
  repeat case_bool_decide; simpl; try reflexivity.
  destruct (names _ !! p); [reflexivity|].
  destruct (new_inode_unused s) as [[Hi _] _].
  apply evolved_keeps; [intros Hok|intros _; by apply evolved_create].
  by apply disk_ok_create.
Qed.

Lemma moves_remove_file p : X p → moving (remove_file p).
Proof.
  intros Hx. apply (moves_atomically _). intros s. cbv zeta.
  destruct (names (now_disk s) !! p) as [i|] eqn:Hi; [|reflexivity].
  apply evolved_keeps.
  - intros Hok. apply disk_ok_names; [done| |].
    + intros q j Hj. apply lookup_delete_Some in Hj as [_ Hj].
      split; [by eapply ok_named|]. by apply (ok_dirs _ Hok); eexists.
    + intros q j Hj. apply list_elem_of_singleton in Hj as [= -> ->]. by eapply ok_named.
  - intros _. apply evolved_names; [apply evolved_refl| |by repeat constructor].
    intros q Hq. rewrite lookup_delete_ne; [done|]. by intros ->.
Qed.

Lemma moves_create_dir_all p : moving (create_dir_all p).
Proof.
  assert (∀ d l, keeps X d (add_dirs d l)) as G.
  { intros d l. apply evolved_keeps; [intros ?; by apply disk_ok_add_dirs|].
    intros _. apply evolved_add_dirs, evolved_refl. }
  apply (moves_syscall _); [intros n s; apply G|intros s].
  cbv zeta. case_bool_decide; [reflexivity|apply G].
Qed.

Lemma moves_sync_opened_dir p : moving (sync_opened_dir p).
Proof.
  apply (moves_atomically _). intros s. simpl. apply evolved_keeps.
  - intros Hok. by apply disk_ok_sync.
  - intros _. apply evolved_sync, evolved_refl.
Qed.

End calls.

#[export] Hint Resolve moves_create_dir_all moves_sync_opened_dir : moves.

(** Renaming, for the well-formedness alone. *)
Lemma moves_ok_rename {P} `{Env} p q : moves stays_ok (rename p q : io P _ _).
Proof.
  apply (moves_atomically _). intros s. cbv zeta.
  destruct (names (now_disk s) !! p) as [i|] eqn:Hi; [|reflexivity].
  repeat case_bool_decide; simpl; try reflexivity.
  intros Hok. apply disk_ok_names; [done| |].
  - intros r j Hj. destruct (decide (q = r)) as [<-|].
    + rewrite lookup_insert_eq in Hj. simplify_eq.
      split; [by eapply ok_named|done].
    + rewrite lookup_insert_ne in Hj by done. apply lookup_delete_Some in Hj as [_ Hj].
      split; [by eapply ok_named|]. by apply (ok_dirs _ Hok); eexists.
  - intros r j Hj. rewrite !elem_of_cons in Hj. destruct Hj as [Hj|[Hj|Hj]].
    + simplify_eq. by eapply ok_named.
    + injection Hj as -> Hj. symmetry in Hj. by eapply ok_named.
    + by apply not_elem_of_nil in Hj.
Qed.

Lemma moves_ok_handle {P} `{Env} h :
  (∀ c, moves stays_ok (write_all h c : io P _ _)) ∧
  moves stays_ok (sync_all h : io P _ _) ∧ ∀ m, moves stays_ok (set_mode h m : io P _ _).
Proof.
  split_and!.
  - intros c. assert (∀ s b, stays_ok (now_disk s) (append_data s h b)) as G.
    { intros s b Hok. unfold append_data. destruct (files _ !! h); [by apply disk_ok_file|done]. }
    apply (moves_syscall _); [auto|intros s; apply G].
  - apply (moves_atomically _). intros s Hok. simpl.
    destruct (files _ !! h); [by apply disk_ok_file|done].
  - intros m. apply (moves_atomically _). intros s Hok. simpl.
    destruct (files _ !! h); [by apply disk_ok_file|done].
Qed.

Lemma keeps_stays_ok X d d' : keeps X d d' → stays_ok d d'.
Proof. intros K Hok. by apply K. Qed.

Lemma moves_keeps_ok {P E A} X (m : io P E A) : moves (keeps X) m → moves stays_ok m.
Proof. apply moves_weaken, keeps_stays_ok. Qed.

Lemma moves_all_ok {P} `{Env} :
  (∀ p, moves stays_ok (create_new p : io P _ _)) ∧
  (∀ p, moves stays_ok (open_or_create p : io P _ _)) ∧
  (∀ p, moves stays_ok (remove_file p : io P _ _)) ∧
  (∀ p, moves stays_ok (create_dir_all p : io P _ _)) ∧
  (∀ p, moves stays_ok (sync_opened_dir p : io P _ _)).
Proof.
  split_and!; intros p; apply (moves_keeps_ok (λ _, True)).
  - by apply moves_create_new.
  - by apply moves_open_or_create.
  - by apply moves_remove_file.
  - apply moves_create_dir_all.
  - apply moves_sync_opened_dir.
Qed.

#[export] Hint Extern 1 (moves stays_ok _) =>
  solve [apply moves_all_ok | apply moves_ok_rename | apply moves_ok_handle] : moves.
