(* ===== verification/Locking.v ===== *)
(** Exclusive locks for database paths: [core/storage/locking.rs].

    A lock is a handle on the sibling file [<name>.lock]; the file itself stays
    on disk after a release.  Dropping the value releases it: the code's [Drop]
    first tries [close], and the system releases the handle in any case. *)
From S2P Require Import Prelude.
From S2P Require Import Text.
From S2P Require Import Encryption.
From S2P Require Import Disk.

Inductive LockError : Type :=
| Acquire (path : string) (source : ioError)
| Release (path : string) (source : ioError).

(** [impl fmt::Display for LockError]. *)
Definition lock_error_display (e : LockError) : string :=
  match e with
  | Acquire path source =>
      "eventstore: cannot acquire DB lock " +:+ path +:+ ": " +:+ text source
  | Release path source =>
      "eventstore: lock release failed for " +:+ path +:+ ": " +:+ text source
  end.

Record DbLock := MkDbLock { lock_path : string; lock_file : option nat }.

Definition lock_path_for (path : string) : string :=
  let name := file_name path +:+ ".lock" in
  if is_empty (file_name path) then path_join path name
  else path_join (default "" (parent path)) name.

Section locking.
Context {P : Type} `{Env}.

(** [io::Error::from(io::ErrorKind::WouldBlock)]. *)
Definition would_block : ioError := IoError WouldBlock "operation would block".

(** The attempts of [lock_with_delay]; the delay between two attempts has no
    effect on the state. *)
Fixpoint lock_attempts (attempts : nat) (path : string) (last_error : option ioError) :
    io P LockError DbLock :=
  match attempts with
  | O => throw (Acquire path (default (io_other "lock attempts exhausted") last_error))
  | S attempts' =>
      opened ← try (open_or_create path);
      match opened with
      | Ok file =>
          acquired ← try (try_lock file);
          match acquired with
          | Ok true => mret (MkDbLock path (Some file))
          | Ok false => lock_attempts attempts' path (Some would_block)
          | Err error => lock_attempts attempts' path (Some error)
          end
      | Err error => lock_attempts attempts' path (Some error)
      end
  end.

Definition lock_with_delay (path : string) (attempts : nat) : io P LockError DbLock :=
  lock_attempts (Nat.max attempts 1) (lock_path_for path) None.

(** [DbLock::lock]: the same with a delay of a second. *)
Definition DbLock_lock (path : string) (attempts : nat) : io P LockError DbLock :=
  lock_with_delay path attempts.

(** [DbLock::close(&mut self)]: the result, and the lock afterwards. *)
Definition DbLock_close {E} (lock : DbLock) : io P E (result LockError () * DbLock) :=
  match lock_file lock with
  | None => mret (Ok (), lock)
  | Some file =>
      released ← try (unlock file);
      match released with
      | Ok _ => drop_handle file ;; mret (Ok (), MkDbLock (lock_path lock) None)
      | Err source =>
          mret (Err (Release (lock_path lock) source), MkDbLock (lock_path lock) (Some file))
      end
  end.

(** [impl Drop for DbLock], then the drop of its [File]. *)
Definition DbLock_drop {E} (lock : DbLock) : io P E () :=
  '(_, lock) ← DbLock_close lock;
  match lock_file lock with None => mret () | Some file => drop_handle file end.

Definition drop_lock {E} (lock : option DbLock) : io P E () :=
  match lock with None => mret () | Some lock => DbLock_drop lock end.

End locking.
