(* ===== verification/Transition.v ===== *)
(** Replacing a file so that a crash leaves the old or the new contents:
    [atomic_transition_with_recovery] of [core/storage/encrypted_store.rs] and
    the file helpers it and its callers share. *)
From S2P Require Import Prelude.
From S2P Require Import Text.
From S2P Require Import Encryption.
From S2P Require Import Disk.
From S2P Require Import Locking.
From Stdlib Require Import Ascii.

Inductive CheckpointError (SE : Type) : Type :=
| Busy (busy log_frames checkpointed : Z)
| Query (error : SE).
Arguments Busy {SE}.
Arguments Query {SE}.

(** [SE] is [rusqlite::Error]. *)
Inductive EncryptedStoreError (SE : Type) : Type :=
| LockErr (error : LockError)
| Io (error : ioError)
| SqliteErr (error : SE)
| EncryptionErr (error : EncryptionError)
| CheckpointErr (error : CheckpointError SE)
| MasterKeyUnavailable
| InvalidPath (message : string)
| DirectorySyncFailed (path : string) (recovery : option string) (source : ioError)
| ConversionFailed (message : string) (recovery : option string).
Arguments LockErr {SE}.
Arguments Io {SE}.
Arguments SqliteErr {SE}.
Arguments EncryptionErr {SE}.
Arguments CheckpointErr {SE}.
Arguments MasterKeyUnavailable {SE}.
Arguments InvalidPath {SE}.
Arguments DirectorySyncFailed {SE}.
Arguments ConversionFailed {SE}.

(** [format!("{id:016x}")] of a [u64]. *)
Fixpoint hex_digits (n : nat) (id : Z) : string :=
  match n with
  | O => ""
  | S n' =>
      String (hex_digit (Z.to_N (Z.land (Z.shiftr id (4 * Z.of_nat n')) 15))) (hex_digits n' id)
  end.

Definition hex16 (id : Z) : string := hex_digits 16 id.

#[global] Arguments hex16 : simpl never.

Definition write_name (id : Z) : string := ".symeraseme_write_" +:+ hex16 id +:+ ".tmp".
Definition rec_name (id : Z) : string := ".symeraseme_recovery_" +:+ hex16 id +:+ ".tmp".

Definition recovery_path {SE} (error : EncryptedStoreError SE) : option string :=
  match error with
  | DirectorySyncFailed _ (Some path) _ | ConversionFailed _ (Some path) => Some path
  | _ => None
  end.

Section transition.
Context {P SE : Type} `{Env}.

Notation program := (io P (EncryptedStoreError SE)).

Definition validate_replacement_path (path : string) : result ioError () :=
  fail_if (str_existsb (Ascii.eqb "000"%char) path)
    (IoError InvalidInput "replacement path contains NUL").

Definition ensure_private_dir (dir : string) : io P ioError () :=
  create_dir_all dir ;; set_dir_mode dir 448.

Definition ensure_parent_dir (dir : string) : io P ioError () := create_dir_all dir.

(** [fs::set_permissions(path, ..)] on a file. *)
Definition ensure_private_file (path : string) (mode : Z) : io P ioError () :=
  atomically (λ s,
    let d := now_disk s in
    match names d !! path with
    | Some i =>
        (Ok (), match files d !! i with
                | Some f => with_file d i (File (data f) (synced f) (mtime f) mode)
                | None => d end, locked s)
    | None => (Err (os_error NotFound), d, locked s)
    end).

Definition sync_dir (dir : string) : io P ioError () :=
  open_dir dir ;; sync_opened_dir dir.

Definition remove_if_exists (path : string) : io P ioError () :=
  r ← try (remove_file path);
  match r with
  | Ok _ => mret ()
  | Err error => if bool_decide (kind error = NotFound) then mret () else throw error
  end.

Definition remove_wal_siblings (path : string) : io P ioError () :=
  for_each ["-wal"; "-shm"] (λ suffix,
    r ← try (remove_file (path_push path suffix));
    match r with
    | Ok _ => mret ()
    | Err error => if bool_decide (kind error = NotFound) then mret () else throw error
    end).

Definition cleanup_recovery_paths (paths : list string) : io P ioError () :=
  for_each paths remove_if_exists.

Definition cleanup_unregistered_recovery {F} (error : EncryptedStoreError SE) :
    io P F (EncryptedStoreError SE) :=
  match recovery_path error with
  | Some path => ignore (remove_if_exists path)
  | None => mret ()
  end ;; mret error.

(** Creates the replacement, writes it and makes it durable. *)
Definition write_replacement (path : string) (ciphertext : bytes) : io P ioError () :=
  file ← create_new path;
  set_mode file 384 ;;
  write_all file ciphertext ;;
  sync_all file.

(** The same for the recovery copy, created with its mode. *)
Definition write_recovery (path : string) (ciphertext : bytes) : io P ioError () :=
  file ← create_new path;
  write_all file ciphertext ;;
  sync_all file.

(** [res.err()] of a program. *)
Definition error_of {F A} (m : io P ioError A) : io P F (option ioError) :=
  r ← try m; mret (match r with Ok _ => None | Err e => Some e end).

Definition write_failed (write_path : string) (error : ioError) : program () :=
  cleanup_error ← error_of (remove_if_exists write_path);
  throw (ConversionFailed
    (match cleanup_error with
     | None => "write replacement failed: " +:+ text error
     | Some cleanup =>
         "write replacement failed: " +:+ text error +:+ "; cleanup failed: " +:+ text cleanup
     end)
    ((λ _, write_path) <$> cleanup_error)).

Definition rename_failed (write_path rec_path : string) (err : ioError) : program () :=
  renamed ← try (rename write_path rec_path);
  match renamed with
  | Ok _ => throw (ConversionFailed ("rename failed: " +:+ text err) (Some rec_path))
  | Err recovery_err =>
      throw (ConversionFailed
        ("rename failed: " +:+ text err +:+ "; recovery rename failed: " +:+ text recovery_err)
        (Some write_path))
  end.

Definition sync_failed (target rec_path : string) (ciphertext : bytes) (err : ioError) :
    program () :=
  recovery_result ← try (write_recovery rec_path ciphertext);
  match recovery_result with
  | Err recovery_error =>
      cleanup_error ← error_of (remove_if_exists rec_path);
      throw (DirectorySyncFailed target ((λ _, rec_path) <$> cleanup_error)
        (io_other
          (match cleanup_error with
           | Some cleanup =>
               "directory sync failed: " +:+ text err +:+ "; recovery write failed: "
               +:+ text recovery_error +:+ "; cleanup failed: " +:+ text cleanup
           | None =>
               "directory sync failed: " +:+ text err +:+ "; recovery write failed: "
               +:+ text recovery_error +:+ "; recovery removed"
           end)))
  | Ok _ => throw (DirectorySyncFailed target (Some rec_path) err)
  end.

Definition atomic_transition_with_recovery (target : string) (ciphertext : bytes) :
    program () :=
  map_error Io (of_result (validate_replacement_path target)) ;;
  let parent := dir_of target in
  map_error Io (ensure_parent_dir parent) ;;
  id ← next_u64;
  let write_path := path_join parent (write_name id) in
  let rec_path := path_join parent (rec_name id) in
  write_result ← try (write_replacement write_path ciphertext);
  match write_result with
  | Err error => write_failed write_path error
  | Ok _ =>
      renamed ← try (rename write_path target);
      match renamed with
      | Err err => rename_failed write_path rec_path err
      | Ok _ =>
          synced ← try (sync_dir parent);
          match synced with
          | Err err => sync_failed target rec_path ciphertext err
          | Ok _ => mret ()
          end
      end
  end.

End transition.
