(* ===== verification/PublishFacts.v ===== *)
(** Publishing a file under a name: new contents are written to private names
    first, made durable and renamed over the target.  The stages a disk goes
    through, each safe at every crash point, and what every system call does
    to them; shared by the database's transition and the profile writer. *)
From S2P Require Import Prelude.
From S2P Require Import Text.
From S2P Require Import Encryption.
From S2P Require Import Disk.
From S2P Require Import DiskFacts.
From S2P Require Import Locking.
From S2P Require Import Transition.

Section publish.
Context {P : Type} `{Env}.
(** The private names, the state at the start, the target and its contents. *)
Context (X : string → Prop).
Context (d0 : disk) (l0 : gset nat) (p0 : P) (target : string) (c : bytes).
Hypothesis Hok : disk_ok d0.
Hypothesis Htarget : ¬ X target.

Notation XT := (λ p, X p ∨ p = target).

(** The target has its old or the new contents, now and after a crash; no other
    entry is affected. *)
Definition crash_safe (d : disk) : Prop :=
  (content d target = content d0 target ∨ content d target = Some c) ∧
  (∀ o, after_crash d target o → after_crash d0 target o ∨ o = Some c) ∧
  (∀ p, ¬ XT p → kept p d0 d).

(** Nothing but private names has changed. *)
Definition unpublished : assertion P := λ d l p, evolved X d0 d ∧ l = l0 ∧ p = p0.

(** [path] is a durable copy of the new contents. *)
Definition written (path : string) : assertion P := λ d l p,
  unpublished d l p ∧ ∃ i f, names d !! path = Some i ∧ files d0 !! i = None ∧
    files d !! i = Some f ∧ data f = c ∧ synced f = true.

(** The target's entry is the new file; [durable]: whatever a crash does. *)
Definition published (durable : bool) : assertion P := λ d l p,
  evolved XT d0 d ∧ l = l0 ∧ p = p0 ∧
  ∃ i f, names d !! target = Some i ∧ files d0 !! i = None ∧
    files d !! i = Some f ∧ data f = c ∧ synced f = true ∧
    ∀ o, may_hold d target o → o = Some i ∨ durable = false ∧ may_hold d0 target o.

Lemma unpublished_safe d l p : unpublished d l p → crash_safe d.
Proof.
  intros (E & _ & _).
  assert (∀ q, ¬ X q → kept q d0 d) as K by by intros q; apply evolved_kept.
  destruct (K target Htarget). split_and!; auto.
Qed.

Lemma published_safe b d l p : published b d l p → crash_safe d.
Proof.
  intros (E & _ & _ & i & f & Hn & Hi0 & Hi & Hc & Hs & Hh). split_and!.
  - right. unfold content. rewrite Hn. simpl. rewrite Hi. simpl. congruence.
  - intros o Ho. destruct Ho as [j b' Hj Hb|Hj|Hf].
    + destruct (Hh _ Hj) as [[= ->]|[_ Hj0]].
      * right. unfold survives in Hb. rewrite Hi, Hs in Hb. congruence.
      * left. apply (crash_file _ _ j); [done|].
        destruct (ok_files _ Hok _ _ Hj0) as [g Eg]. unfold survives in *.
        rewrite (ev_files _ _ _ E _ _ Eg) in Hb. by rewrite Eg.
    + destruct (Hh _ Hj) as [[=]|[_ Hj0]]. left. by apply crash_none.
    + left. destruct (ev_fresh _ _ _ E _ Hf) as [Hf'|Hf'].
      * by apply crash_dir.
      * apply crash_none. left. destruct (names d0 !! target) eqn:En; [|done].
        exfalso. by apply Hf', (ok_dirs _ Hok target).
  - intros q Hq. by apply (evolved_kept XT).
Qed.

Lemma published_weaken b d l p : published b d l p → published false d l p.
Proof. unfold published. intros (?&?&?&i&f&?&?&?&?&?&Hh). split_and!; eauto 10.
  exists i, f. split_and!; auto. intros o Ho. destruct (Hh o Ho) as [|[_ ?]]; auto. Qed.

Lemma unpublished_create d l p s path :
  d = now_disk s → X path → unpublished d l p →
  let i := new_inode s in
  let d' := with_file (with_names d (<[path := i]> (names d)) [(path, None)]) i
              (File [] false (clock (steps s)) 384) in
  unpublished d' l p ∧ names d' !! path = Some i ∧ files d0 !! i = None.
Proof.
  intros -> Hx (E & -> & ->). cbn zeta. set (i := new_inode s).
  destruct (new_inode_unused s) as [[Hi _] _]. fold i in Hi.
  assert (files d0 !! i = None) as Hi0.
  { destruct (files d0 !! i) eqn:F; [|done]. apply (ev_files _ _ _ E) in F. congruence. }
  split_and!; [|by simpl; rewrite lookup_insert_eq|done].
  split_and!; [|done..]. apply evolved_file; [|done]. apply evolved_names; [done| |].
  - intros q Hq. rewrite lookup_insert_ne; [done|]. by intros ->.
  - by constructor.
Qed.

(** Writing a new private file to durability. *)
Definition open_file (path : string) (h : nat) (part : bytes) (sync : bool) : assertion P :=
  λ d l p, unpublished d l p ∧ names d !! path = Some h ∧ files d0 !! h = None ∧
    ∃ f, files d !! h = Some f ∧ data f = part ∧ synced f = sync.

Lemma open_file_set path h part sync d l p f :
  open_file path h part sync d l p →
  open_file path h (data f) (synced f) (with_file d h f) l p.
Proof.
  intros ((E & -> & ->) & Hn & Hi & _). split_and!; [|done|done|].
  - split_and!; [|done..]. by apply evolved_file.
  - exists f. simpl. by rewrite lookup_insert_eq.
Qed.

Lemma open_file_unpublished path h part sync d l p :
  open_file path h part sync d l p → unpublished d l p.
Proof. by intros [? _]. Qed.

Lemma create_new_spec path :
  X path →
  triple crash_safe unpublished (create_new path)
    (λ h, open_file path h [] false) (λ _, unpublished).
Proof.
  intros Hx. apply triple_atomically.
  - intros d l p Hu. eauto using unpublished_safe.
  - intros s p Hu. cbv zeta. do 2 (case_bool_decide; [eauto using unpublished_safe|]).
    destruct (unpublished_create _ _ _ s path eq_refl Hx Hu) as (Hu' & Hn & Hi).
    split; [by eapply unpublished_safe|]. split_and!; [done..|].
    eexists. simpl. by rewrite lookup_insert_eq.
Qed.

Lemma set_mode_spec path h part sync m :
  triple crash_safe (open_file path h part sync) (set_mode h m)
    (λ _, open_file path h part sync) (λ _, unpublished).
Proof.
  apply triple_atomically.
  - intros d l p Ho. eauto using unpublished_safe, open_file_unpublished.
  - intros s p Ho. cbv zeta. pose proof Ho as (_ & _ & _ & f & Hf & <- & <-). rewrite Hf.
    assert (open_file path h (data f) (synced f)
              (with_file (now_disk s) h (File (data f) (synced f) (mtime f) m)) (locked s) p)
      as Ho' by by eapply (open_file_set _ _ _ _ _ _ _ (File _ _ _ _)).
    eauto using unpublished_safe, open_file_unpublished.
Qed.

Lemma write_all_spec path h sync b :
  triple crash_safe (open_file path h [] sync) (write_all h b)
    (λ _, open_file path h b false) (λ _, unpublished).
Proof.
  assert (∀ s p b', open_file path h [] sync (now_disk s) (locked s) p →
            open_file path h b' false (append_data s h b') (locked s) p) as G.
  { intros s p b' Ho. pose proof Ho as (_ & _ & _ & f & Hf & Hd & _).
    unfold append_data. rewrite Hf, Hd.
    by eapply (open_file_set _ _ _ _ _ _ _ (File _ _ _ _)). }
  apply triple_syscall.
  - intros s p e n Ho%(λ Ho, G s p (take n b) Ho).
    eauto using unpublished_safe, open_file_unpublished.
  - intros s p Ho%(λ Ho, G s p b Ho). eauto using unpublished_safe, open_file_unpublished.
Qed.

Lemma sync_all_spec path h b sync :
  triple crash_safe (open_file path h b sync) (sync_all h)
    (λ _, open_file path h b true) (λ _, unpublished).
Proof.
  apply triple_atomically.
  - intros d l p Ho. eauto using unpublished_safe, open_file_unpublished.
  - intros s p Ho. cbv zeta. pose proof Ho as (_ & _ & _ & f & Hf & <- & _). rewrite Hf.
    assert (open_file path h (data f) true
              (with_file (now_disk s) h (File (data f) true (mtime f) (mode f))) (locked s) p)
      as Ho' by by eapply (open_file_set _ _ _ _ _ _ _ (File _ _ _ _)).
    eauto using unpublished_safe, open_file_unpublished.
Qed.

Lemma write_replacement_spec path :
  X path →
  triple crash_safe unpublished (write_replacement path c) (λ _, written path) (λ _, unpublished).
Proof.
  intros Hx. unfold write_replacement.
  eapply triple_bind; [by apply create_new_spec|]. intros h.
  eapply triple_bind; [apply set_mode_spec|]. intros [].
  eapply triple_bind; [apply write_all_spec|]. intros [].
  eapply triple_conseq; [apply sync_all_spec|done|done| |done].
  intros _ d l p (Hu & Hn & Hi & f & Hf & Hd & Hs). split; [done|]. by exists h, f.
Qed.

Lemma remove_private_spec path :
  X path →
  triple crash_safe unpublished (remove_file path) (λ _, unpublished) (λ _, unpublished).
Proof.
  intros Hx. apply triple_atomically; [eauto using unpublished_safe|].
  intros s p Hu. cbv zeta. destruct (names (now_disk s) !! path) as [i|];
    [|eauto using unpublished_safe].
  assert (unpublished (with_names (now_disk s) (delete path (names (now_disk s)))
            [(path, Some i)]) (locked s) p) as Hu'.
  { destruct Hu as (E & -> & ->). split_and!; [|done..].
    apply evolved_names; [done| |by constructor].
    intros q Hq. rewrite lookup_delete_ne; [done|]. by intros ->. }
  eauto using unpublished_safe.
Qed.

(** [remove_if_exists], whose outcome is only looked at. *)
Lemma try_remove_spec {F} (Inv : assertion P) path (R : F → assertion P) :
  triple crash_safe Inv (remove_file path) (λ _, Inv) (λ _, Inv) →
  triple crash_safe Inv (error_of (remove_if_exists path)) (λ _, Inv) R.
Proof.
  intros Hr. unfold error_of, remove_if_exists.
  apply (triple_bind _ _ _ _ (λ _, Inv)); [|intros r; by apply triple_ret].
  apply (triple_try _ _ _ (λ _, Inv)).
  apply (triple_bind _ _ _ _ (λ _, Inv)); [by apply (triple_try _ _ _ (λ _, Inv))|].
  intros [|e]; [by apply triple_ret|].
  case_bool_decide; [by apply triple_ret|by apply triple_throw].
Qed.

(** Renaming a durable private copy over the target publishes it. *)
Lemma rename_target_spec path :
  X path →
  triple crash_safe (written path) (rename path target)
    (λ _, published false) (λ _, written path).
Proof.
  intros Hx. apply triple_atomically.
  { intros d l p Hw. pose proof Hw as [Hu _]. eauto using unpublished_safe. }
  intros s p Hw. cbv zeta.
  pose proof Hw as [Hu (i & f & Hn & Hi0 & Hi & Hc & Hs)]. rewrite Hn.
  do 2 (case_bool_decide; [eauto using unpublished_safe|]).
  set (d := now_disk s) in *.
  assert (path ≠ target) as Hne by (intros ->; done).
  assert (published false (with_names d (<[target := i]> (delete path (names d)))
            [(path, Some i); (target, names d !! target)]) (locked s) p) as Hp.
  { pose proof Hu as (E & -> & ->). split_and!; [|done..|].
    - apply evolved_names; [by apply (evolved_weaken X); auto| |].
      + intros q Hq. rewrite lookup_insert_ne by (intros ->; apply Hq; by right).
        rewrite lookup_delete_ne; [done|]. intros ->. apply Hq. by left.
      + constructor; [by left|]. constructor; [by right|constructor].
    - exists i, f. simpl. rewrite lookup_insert_eq. split_and!; [done..|].
      intros o [Ho|Ho]; simpl in Ho.
      + rewrite lookup_insert_eq in Ho. by left.
      + right. split; [done|]. apply (ev_hold _ _ _ E); [done|].
        rewrite !elem_of_cons in Ho. destruct Ho as [[=]|[[= ->]|Ho]]; [done|by left|by right]. }
  eauto using published_safe.
Qed.

(** Renaming it to the recovery name keeps the copy. *)
Lemma rename_private_spec path rec :
  X path → X rec →
  triple crash_safe (written path) (rename path rec) (λ _, written rec) (λ _, written path).
Proof.
  intros Hx Hr. apply triple_atomically.
  { intros d l p Hw. pose proof Hw as [Hu _]. eauto using unpublished_safe. }
  intros s p Hw. cbv zeta.
  pose proof Hw as [Hu (i & f & Hn & Hi0 & Hi & Hc & Hs)]. rewrite Hn.
  do 2 (case_bool_decide; [eauto using unpublished_safe|]).
  set (d := now_disk s) in *.
  assert (written rec (with_names d (<[rec := i]> (delete path (names d)))
            [(path, Some i); (rec, names d !! rec)]) (locked s) p) as Hw'.
  { destruct Hu as (E & -> & ->). split.
    - split_and!; [|done..]. apply evolved_names; [done| |by repeat constructor].
      intros q Hq. rewrite lookup_insert_ne by by intros ->.
      rewrite lookup_delete_ne; [done|]. by intros ->.
    - exists i, f. simpl. by rewrite lookup_insert_eq. }
  pose proof Hw' as [Hu' _]. eauto using unpublished_safe.
Qed.

Lemma sync_dir_spec :
  triple crash_safe (published false) (sync_dir (dir_of target))
    (λ _, published true) (λ _, published false).
Proof.
  unfold sync_dir. eapply triple_bind.
  { apply (triple_atomically _ _ _ (λ _, published false)); [eauto using published_safe|].
    intros s p Hp. cbv zeta. case_bool_decide; eauto using published_safe. }
  intros []. apply triple_atomically; [eauto using published_safe|].
  intros s p Hp.
  assert (published true (sync_entries (now_disk s) (dir_of target)) (locked s) p) as Hp'.
  { destruct Hp as (E & -> & -> & i & f & Hn & Hi0 & Hi & Hc & Hs & Hh).
    split_and!; [|done..|].
    - by apply evolved_sync.
    - exists i, f. split_and!; [done..|]. intros o [Ho|Ho]; simpl in Ho.
      + left. congruence.
      + apply list_elem_of_filter in Ho as [Ho _]. done. }
  eauto using published_safe.
Qed.

Lemma published_private d l p n o :
  published false d l p → (∀ q, ¬ X q → n !! q = names d !! q) → Forall (λ e, X e.1) o →
  published false (with_names d n o) l p.
Proof.
  intros (E & -> & -> & i & f & Hn & Hi0 & Hi & Hc & Hs & Hh) Hq Ho.
  split_and!; [|done..|].
  - apply evolved_names; [done| |].
    + intros q Hx. apply Hq. naive_solver.
    + eapply Forall_impl; [exact Ho|]. simpl. auto.
  - exists i, f. simpl. rewrite Hq by done. split_and!; [done..|].
    intros v [Hv|Hv]; simpl in Hv.
    + rewrite Hq in Hv by done. left. congruence.
    + apply elem_of_app in Hv as [Hv|Hv].
      * rewrite Forall_forall in Ho. by apply Ho in Hv.
      * apply Hh. by right.
Qed.

Lemma published_file d l p h f :
  published false d l p → files d0 !! h = None → names d !! target ≠ Some h →
  published false (with_file d h f) l p.
Proof.
  intros (E & -> & -> & i & g & Hn & Hi0 & Hi & Hc & Hs & Hh) Hh0 Hne.
  split_and!; [|done..|].
  - by apply evolved_file.
  - exists i, g. simpl. rewrite lookup_insert_ne by congruence. done.
Qed.

(** A private file being written once the target is published. *)
Definition recovery_file (path : string) (h : nat) (part : bytes) : assertion P :=
  λ d l p, published false d l p ∧ files d0 !! h = None ∧ names d !! target ≠ Some h ∧
    names d !! path = Some h ∧ ∃ f, files d !! h = Some f ∧ data f = part.

Lemma recovery_file_set path h part d l p f :
  recovery_file path h part d l p → recovery_file path h (data f) (with_file d h f) l p.
Proof.
  intros (Hp & Hh & Hne & Hn & _). split_and!; [by apply published_file|done..|].
  exists f. simpl. by rewrite lookup_insert_eq.
Qed.

Lemma write_recovery_spec path :
  X path →
  triple crash_safe (published false) (write_recovery path c)
    (λ _ d l p, published false d l p ∧ content d path = Some c) (λ _, published false).
Proof.
  intros Hx. unfold write_recovery.
  eapply triple_bind.
  { apply (triple_atomically _ _ _ (λ h, recovery_file path h [])); [eauto using published_safe|].
    intros s p Hp. cbv zeta. do 2 (case_bool_decide; [eauto using published_safe|]).
    set (d := now_disk s) in *. set (i := new_inode s).
    destruct (new_inode_unused s) as [[Hi Hh] _]. fold d i in Hi, Hh.
    assert (files d0 !! i = None) as Hi0.
    { destruct (files d0 !! i) eqn:F; [|done]. destruct Hp as (E & _).
      apply (ev_files _ _ _ E) in F. congruence. }
    assert (names d !! target ≠ Some i) as Hne by (intros X1; apply (Hh target); by left).
    assert (recovery_file path i [] (with_file (with_names d (<[path := i]> (names d))
              [(path, None)]) i (File [] false (clock (steps s)) 384)) (locked s) p) as Hr.
    { assert (path ≠ target) as Hpt by (intros ->; done).
      assert (published false (with_file (with_names d (<[path := i]> (names d))
              [(path, None)]) i (File [] false (clock (steps s)) 384)) (locked s) p) as Hp'.
      { apply published_file; [|done|simpl; by rewrite lookup_insert_ne].
        apply published_private; [done| |by repeat constructor].
        intros q Hq. rewrite lookup_insert_ne; [done|]. by intros ->. }
      split_and!; [done|done|simpl; by rewrite lookup_insert_ne|simpl; by rewrite lookup_insert_eq|].
      eexists. simpl. by rewrite lookup_insert_eq. }
    split; [|done]. by destruct Hr as [?%published_safe _]. }
  intros h.
  assert (∀ part d l p, recovery_file path h part d l p → published false d l p) as Hpub
    by by intros ? ? ? ? [? _].
  eapply triple_bind.
  { assert (∀ s p b, recovery_file path h [] (now_disk s) (locked s) p →
              recovery_file path h b (append_data s h b) (locked s) p) as G.
    { intros s p b Hr. pose proof Hr as (_ & _ & _ & _ & f & Hf & Hd).
      unfold append_data. rewrite Hf, Hd. by eapply (recovery_file_set _ _ _ _ _ _ (File _ _ _ _)). }
    apply (triple_syscall _ _ _ _ (λ _, recovery_file path h c)).
    - intros s p e n Hr%(λ Hr, G s p (take n c) Hr). eauto using published_safe.
    - intros s p Hr%(λ Hr, G s p c Hr). eauto using published_safe. }
  intros []. apply triple_atomically; [eauto using published_safe|].
  intros s p Hr. cbv zeta. pose proof Hr as (_ & _ & _ & Hn & f & Hf & <-). rewrite Hf.
  eapply (recovery_file_set _ _ _ _ _ _ (File (data f) true (mtime f) (mode f))) in Hr.
  split; [by destruct Hr as [?%published_safe _]|]. split; [by apply Hpub in Hr|].
  unfold content. simpl. rewrite Hn. simpl. by rewrite lookup_insert_eq.
Qed.

Lemma remove_published_spec path :
  X path →
  triple crash_safe (published false) (remove_file path)
    (λ _, published false) (λ _, published false).
Proof.
  intros Hx. apply triple_atomically; [eauto using published_safe|].
  intros s p Hp. cbv zeta. destruct (names (now_disk s) !! path) as [i|];
    [|eauto using published_safe].
  assert (published false (with_names (now_disk s) (delete path (names (now_disk s)))
            [(path, Some i)]) (locked s) p) as Hp'.
  { apply published_private; [done| |by repeat constructor].
    intros q Hq. rewrite lookup_delete_ne; [done|]. by intros ->. }
  eauto using published_safe.
Qed.

Lemma add_dirs_spec dir (Q : () → assertion P) (R : ioError → assertion P) :
  (∀ d l p, unpublished d l p → Q () d l p ∧ ∀ e, R e d l p) →
  triple crash_safe unpublished (create_dir_all dir) Q R.
Proof.
  intros HQR. apply triple_syscall.
  - intros s p e n Hu.
    assert (unpublished (add_dirs (now_disk s) (take n (rev (all_ancestors dir))))
              (locked s) p) as Hu' by (destruct Hu as (E & -> & ->);
              split_and!; [by apply evolved_add_dirs|done..]).
    split; [by eapply unpublished_safe|]. by apply HQR.
  - intros s p Hu. cbv zeta. case_bool_decide; [split; [by eapply unpublished_safe|by apply HQR]|].
    assert (unpublished (add_dirs (now_disk s) (all_ancestors dir)) (locked s) p) as Hu'
      by (destruct Hu as (E & -> & ->); split_and!; [by apply evolved_add_dirs|done..]).
    split; [by eapply unpublished_safe|]. by apply HQR.
Qed.

End publish.

Section published.
Context {P : Type} (X : string → Prop).

Lemma published_content (d0 : disk) l0 (p0 : P) target c b d l p :
  published X d0 l0 p0 target c b d l p → content d target = Some c.
Proof.
  intros (_ & _ & _ & i & f & Hn & _ & Hi & Hc & _). unfold content. rewrite Hn. simpl.
  rewrite Hi. simpl. congruence.
Qed.

Lemma published_durable (d0 : disk) l0 (p0 : P) target c d l p o :
  published X d0 l0 p0 target c true d l p → after_crash d target o →
  o = Some c ∨ o = None ∧ may_lose d target.
Proof.
  intros (_ & _ & _ & i & f & Hn & _ & Hi & Hc & Hs & Hh) [j b Hj Hb|Hj|Hl]; [| |auto].
  - destruct (Hh _ Hj) as [[= ->]|[? _]]; [|done]. unfold survives in Hb.
    rewrite Hi, Hs in Hb. left. congruence.
  - by destruct (Hh _ Hj) as [|[? _]].
Qed.

End published.
