(* ===== verification/TransitionFacts.v ===== *)
(** Crash safety of the atomic replacement of [Transition], under every fault
    and at every step. *)
From S2P Require Import Prelude.
From S2P Require Import Text.
From S2P Require Import Encryption.
From S2P Require Import Disk.
From S2P Require Import DiskFacts.
From S2P Require Import Locking.
From S2P Require Import Transition.
From S2P Require Import PublishFacts.

(** The names the transition uses beside the target. *)
Definition private_name (dir p : string) : Prop :=
  ∃ id, p = path_join dir (write_name id) ∨ p = path_join dir (rec_name id).

Section transition.
Context {P SE : Type} `{Env}.
Context (d0 : disk) (l0 : gset nat) (p0 : P) (target : string) (c : bytes).
Hypothesis Hok : disk_ok d0.
Hypothesis Htarget : ¬ private_name (dir_of target) target.

Notation X := (private_name (dir_of target)).
Notation crash_safe := (PublishFacts.crash_safe X d0 target c).
Notation unpublished := (PublishFacts.unpublished X d0 l0 p0).
Notation written := (PublishFacts.written X d0 l0 p0 c).
Notation published := (PublishFacts.published X d0 l0 p0 target c).

(** What each failure of the transition leaves. *)
Definition transition_failed (e : EncryptedStoreError SE) : assertion P := λ d l p,
  match e with
  | Io _ => unpublished d l p
  | ConversionFailed m rec =>
      unpublished d l p ∧ (∀ r, rec = Some r → X r) ∧
      (starts_with "rename failed" m = true → ∃ r, rec = Some r ∧ written r d l p)
  | DirectorySyncFailed path rec _ =>
      path = target ∧ published false d l p ∧ (∀ r, rec = Some r → X r)
  | _ => False
  end.

Lemma write_failed_spec path e :
  X path →
  triple crash_safe unpublished (write_failed path e : io P (EncryptedStoreError SE) ())
    (λ _, published true) transition_failed.
Proof.
  intros Hx. apply (triple_bind _ _ _ _ (λ _, unpublished)).
  { by apply try_remove_spec, remove_private_spec. }
  intros cleanup. apply triple_throw. intros d l p Hu. split_and!; [done| |].
  - intros r Er. destruct cleanup; simplify_eq/=. done.
  - by destruct cleanup.
Qed.

Lemma rename_failed_spec path rec e :
  X path → X rec →
  triple crash_safe (written path) (rename_failed path rec e : io P (EncryptedStoreError SE) ())
    (λ _, published true) transition_failed.
Proof.
  intros Hp Hr. apply (triple_bind _ _ _ _ (λ r d l p,
    match r with Ok _ => written rec d l p | Err _ => written path d l p end)).
  { apply triple_try. by apply rename_private_spec. }
  intros [[]|e']; apply triple_throw; intros d l p Hw; pose proof Hw as [Hu _];
    (split_and!; [done|congruence|eauto]).
Qed.

Lemma sync_failed_spec rec e :
  X rec →
  triple crash_safe (published false) (sync_failed target rec c e : io P (EncryptedStoreError SE) ())
    (λ _, published true) transition_failed.
Proof.
  intros Hr. apply (triple_bind _ _ _ _ (λ r, published false)).
  { apply triple_try. eapply triple_conseq; [by apply write_recovery_spec|done..| |done].
    by intros a d l p [? _]. }
  intros [[]|e']; [by apply triple_throw; intros d l p Hw; split_and!; [| |congruence]|].
  apply (triple_bind _ _ _ _ (λ _, published false)).
  { by apply try_remove_spec, remove_published_spec. }
  intros cleanup. apply triple_throw. intros d l p Hp. split_and!; [done..|].
  intros r Er. destruct cleanup; simplify_eq/=. done.
Qed.

Lemma transition_spec :
  triple crash_safe (λ d l p, d = d0 ∧ l = l0 ∧ p = p0)
    (atomic_transition_with_recovery target c : io P (EncryptedStoreError SE) ())
    (λ _, published true) transition_failed.
Proof.
  assert (PublishFacts.unpublished X d0 l0 p0 d0 l0 p0) as Hu0 by (split_and!; [apply evolved_refl|done..]).
  unfold atomic_transition_with_recovery.
  apply (triple_bind _ _ _ _ (λ _, unpublished)).
  { apply triple_map_error, triple_of_result. intros d l p (-> & -> & ->).
    destruct (validate_replacement_path target); exact Hu0. }
  intros []. cbv zeta. apply (triple_bind _ _ _ _ (λ _, unpublished)).
  { apply triple_map_error, (add_dirs_spec X d0 l0 p0 target c Hok Htarget _ (λ _, unpublished)); auto. }
  intros []. apply (triple_bind _ _ _ _ (λ _, unpublished)).
  { apply triple_next_u64. eauto using unpublished_safe. }
  intros id.
  assert (X (path_join (dir_of target) (write_name id))) as Hw by (exists id; auto).
  assert (X (path_join (dir_of target) (rec_name id))) as Hr by (exists id; auto).
  apply (triple_bind _ _ _ _ (λ r d l p,
    match r with Ok _ => written (path_join (dir_of target) (write_name id)) d l p
               | Err _ => unpublished d l p end)).
  { apply triple_try. by apply write_replacement_spec. }
  intros [[]|e].
  2:{ by apply write_failed_spec. }
  apply (triple_bind _ _ _ _ (λ r d l p,
    match r with Ok _ => published false d l p
               | Err _ => written (path_join (dir_of target) (write_name id)) d l p end)).
  { apply triple_try. by apply rename_target_spec. }
  intros [[]|e].
  2:{ by apply rename_failed_spec. }
  apply (triple_bind _ _ _ _ (λ r d l p,
    match r with Ok _ => published true d l p | Err _ => published false d l p end)).
  { apply triple_try. by apply sync_dir_spec. }
  intros [[]|e]; [by apply triple_ret|]. by apply sync_failed_spec.
Qed.

End transition.

(* ------------------------------------------------------------------ *)
(** ** The properties *)

Section properties.
Context {P SE : Type} `{Env}.

End properties.

(* ------------------------------------------------------------------ *)
(** ** Programs that publish to one target *)

(** Entries outside [X] are untouched, except the target, which may take
    contents that satisfy [G]. *)
Definition follows (X : string → Prop) (target : string) (G : bytes → Prop) (d d' : disk) : Prop :=
  disk_ok d →
  disk_ok d' ∧ (∀ p, ¬ X p → p ≠ target → kept p d d') ∧
  (content d' target = content d target ∨ ∃ c, content d' target = Some c ∧ G c) ∧
  (∀ o, after_crash d' target o → after_crash d target o ∨ ∃ c, o = Some c ∧ G c).

#[export] Instance follows_preorder X target G : PreOrder (follows X target G).
Proof.
  split; [intros d Hok; split_and!; auto; by split|].
  intros d1 d2 d3 H1 H2 Hok. destruct (H1 Hok) as (Hok2 & K1 & C1 & A1).
  destruct (H2 Hok2) as (Hok3 & K2 & C2 & A2). split_and!; [done| | |].
  - intros p Hp Hne. destruct (K1 p Hp Hne), (K2 p Hp Hne). split; [congruence|auto].
  - destruct C2 as [->|]; auto.
  - intros o Ho. destruct (A2 o Ho); auto.
Qed.

Lemma keeps_follows X target G d d' :
  ¬ X target → keeps X d d' → follows X target G d d'.
Proof.
  intros Ht K Hok. destruct (K Hok) as [Hok' Hk]. destruct (Hk target Ht).
  split_and!; auto.
Qed.

Lemma moves_follows {P E A} X target G (m : io P E A) :
  ¬ X target → moves (keeps X) m → moves (follows X target G) m.
Proof. intros Ht. apply moves_weaken. intros d d'. by apply keeps_follows. Qed.

Section moves.
Context {P SE : Type} `{Env}.

Lemma moves_triple_ok {E A} (R : disk → disk → Prop) (m : io P E A) :
  moves stays_ok m →
  (∀ d0 l0 p0, disk_ok d0 →
     triple (λ d, disk_ok d → R d0 d) (λ d l p, d = d0 ∧ l = l0 ∧ p = p0) m
       (λ _ d _ _, disk_ok d → R d0 d) (λ _ d _ _, disk_ok d → R d0 d)) →
  moves (λ d d', disk_ok d → disk_ok d' ∧ R d d') m.
Proof.
  intros Hs Hm w. destruct (Hs w) as [(t & Et & Ft) Hok].
  split; [exists t; split; [done|]|].
  - apply Forall_forall. intros d Hd Hok0. rewrite Forall_forall in Ft.
    pose proof (Ft d Hd Hok0) as Hokd. split; [done|].
    destruct (Hm (now_disk (system w)) (locked (system w)) (process w) Hok0 w ltac:(done))
      as [(t' & Et' & Ft') _].
    rewrite Et in Et'. apply app_inv_tail in Et' as <-. rewrite Forall_forall in Ft'. auto.
  - intros Hok0. split; [auto|].
    destruct (Hm (now_disk (system w)) (locked (system w)) (process w) Hok0 w ltac:(done))
      as [_ Hr].
    unfold holds in Hr. destruct ((m w).1); auto.
Qed.

Lemma moves_ok_remove_if_exists path :
  moves stays_ok (remove_if_exists path : io P _ _).
Proof. unfold remove_if_exists. step_moves. Qed.

Lemma moves_ok_transition target c :
  moves stays_ok (atomic_transition_with_recovery target c : io P (EncryptedStoreError SE) ()).
Proof.
  pose proof moves_ok_remove_if_exists.
  unfold atomic_transition_with_recovery, write_failed, rename_failed, sync_failed,
    write_replacement, write_recovery, error_of, sync_dir, ensure_parent_dir.
  step_moves.
Qed.

(** The transition follows its contents. *)
Lemma moves_transition (X : string → Prop) (G : bytes → Prop) target c :
  (∀ p, private_name (dir_of target) p → X p) → ¬ X target → G c →
  moves (follows X target G)
    (atomic_transition_with_recovery target c : io P (EncryptedStoreError SE) ()).
Proof.
  intros HX Ht Hc. eapply moves_weaken; [|apply (moves_triple_ok (λ d d', crash_safe (private_name (dir_of target)) d target c d'))].
  - intros d d' Hs Hok. destruct (Hs Hok) as [Hok' (C & A & K)]. split_and!; [done| | |].
    + intros p Hp Hne. apply K. intros [|]; auto.
    + destruct C; eauto.
    + intros o Ho. destruct (A o Ho); eauto.
  - apply moves_ok_transition.
  - intros d0 l0 p0 Hok. eapply triple_conseq;
      [apply (transition_spec (SE := SE) d0 l0 p0 target c); [done|auto]|auto|done| |].
    + intros [] d l p Hp _. by eapply published_safe.
    + intros e d l p He _. unfold transition_failed in He.
      assert (¬ private_name (dir_of target) target) as Ht' by auto.
      destruct e; try done.
      * by eapply unpublished_safe.
      * destruct He as (_ & He & _). by eapply published_safe.
      * destruct He as [He _]. by eapply unpublished_safe.
Qed.

Section keeps.
Context (X : string → Prop).
Notation moving m := (moves (keeps X) (m : io P _ _)).

Lemma moves_remove_if_exists p : X p → moving (remove_if_exists p).
Proof.
  intros Hx. pose proof (moves_remove_file X p Hx (P := P)).
  unfold remove_if_exists. step_moves.
Qed.

Lemma moves_error_of {F} (m : io P ioError ()) :
  moves (keeps X) m → moves (keeps X) (error_of m : io P F _).
Proof. intros Hm. unfold error_of. step_moves. Qed.

Lemma moves_remove_wal_siblings p :
  X (path_push p "-wal") → X (path_push p "-shm") → moving (remove_wal_siblings p).
Proof.
  intros Hw Hs. unfold remove_wal_siblings. apply (moves_for_each _).
  intros suffix Hin.
  assert (X (path_push p suffix)) as Hx
    by (rewrite !elem_of_cons in Hin; destruct Hin as [->|[->|?%not_elem_of_nil]]; done).
  pose proof (moves_remove_file X _ Hx (P := P)). step_moves.
Qed.

Lemma moves_cleanup_recovery_paths l : Forall X l → moving (cleanup_recovery_paths l).
Proof.
  intros Hl. unfold cleanup_recovery_paths. apply (moves_for_each _).
  intros p Hp. rewrite Forall_forall in Hl. apply moves_remove_if_exists. auto.
Qed.

Lemma moves_cleanup_unregistered {F} (e : EncryptedStoreError SE) :
  (∀ p, recovery_path e = Some p → X p) →
  moves (keeps X) (cleanup_unregistered_recovery e : io P F _).
Proof.
  intros He. unfold cleanup_unregistered_recovery.
  apply moves_bind; [apply _| |intros []; apply (moves_ret _)].
  destruct (recovery_path e) eqn:Er; [|apply (moves_ret _)].
  apply moves_ignore, moves_remove_if_exists. auto.
Qed.

(** A file of [X] written through its handle: from [d0] on, the handle is an
    inode the disk did not know. *)
Definition private_handle (d0 : disk) (h : nat) : assertion P :=
  λ d _ _, evolved X d0 d ∧ files d0 !! h = None.

Notation I d0 := (λ d, disk_ok d → evolved X d0 d).

Lemma create_private d0 l0 (p0 : P) p :
  X p →
  triple (I d0) (λ d l q, d = d0 ∧ l = l0 ∧ q = p0) (create_new p)
    (private_handle d0) (λ _ d _ _, evolved X d0 d).
Proof.
  intros Hx. apply triple_atomically.
  - intros d l q (-> & _). split; intros; apply evolved_refl.
  - intros s q (<- & _). cbv zeta. repeat case_bool_decide;
      try (split; intros; apply evolved_refl).
    destruct (new_inode_unused s) as [[Hi _] _].
    split; [intros _|split; [|done]]; by apply evolved_create.
Qed.

Lemma write_private d0 h c :
  triple (I d0) (private_handle d0 h) (write_all h c)
    (λ _, private_handle d0 h) (λ _, private_handle d0 h).
Proof.
  assert (∀ s b (q : P), private_handle d0 h (now_disk s) (locked s) q →
            private_handle d0 h (append_data s h b) (locked s) q) as G.
  { intros s b q [Hs Hh]. split; [|done]. unfold append_data.
    destruct (files (now_disk s) !! h); [|done]. by apply evolved_file. }
  apply triple_syscall.
  - intros s q e n Hs%(G s (take n c) q). split; [by intros; apply Hs|done].
  - intros s q Hs%(G s c q). split; [by intros; apply Hs|done].
Qed.

Lemma sync_private d0 h :
  triple (I d0) (private_handle d0 h) (sync_all h)
    (λ _, private_handle d0 h) (λ _, private_handle d0 h).
Proof.
  apply triple_atomically.
  - intros d l q [Hs Hh]. split; [done|]. intros _. by split.
  - intros s q [Hs Hh]. cbv zeta. destruct (files (now_disk s) !! h).
    + assert (∀ f, evolved X d0 (with_file (now_disk s) h f)) as G by by intros; apply evolved_file.
      split; [done|]. by split.
    + split; [done|]. by split.
Qed.

Lemma moves_private {E A} (m : io P E A) :
  moves stays_ok m →
  (∀ d0 l0 p0, triple (I d0) (λ d l p, d = d0 ∧ l = l0 ∧ p = p0) m
     (λ _ d _ _, evolved X d0 d) (λ _ d _ _, evolved X d0 d)) →
  moves (keeps X) m.
Proof.
  intros Hs Hm. eapply moves_weaken; [|apply (moves_triple_ok (λ d d', evolved X d d'))].
  - intros d d' Hd Hok. destruct (Hd Hok) as [Hok' E']. split; [done|].
    intros q Hq. by apply (evolved_kept X).
  - done.
  - intros d0 l0 p0 _. eapply triple_conseq; [apply (Hm d0 l0 p0)|..]; naive_solver.
Qed.

End keeps.
End moves.

(* ------------------------------------------------------------------ *)
(** ** The recovery path of a failure *)

(** The results a program may give, whatever happens. *)
Definition gives {P E A} (m : io P E A) (Q : A → Prop) (R : E → Prop) : Prop :=
  ∀ w, match (m w).1 with Ok a => Q a | Err e => R e end.

Section gives.
Context {P : Type}.

Lemma gives_any {E A} (m : io P E A) : gives m (λ _, True) (λ _, True).
Proof. intros w. by destruct ((m w).1). Qed.

Lemma gives_bind {E A B} (m : io P E A) (f : A → io P E B) Q' Q R :
  gives m Q' R → (∀ a, Q' a → gives (f a) Q R) → gives (m ≫= f) Q R.
Proof.
  intros Hm Hf w. specialize (Hm w). unfold mbind, io_bind.
  destruct (m w) as [[a|e] w1]; simpl in *; [by apply Hf|done].
Qed.

Lemma gives_try {E F A} (m : io P E A) (R : F → Prop) : gives (try m) (λ _, True) R.
Proof. intros w. unfold try. by destruct (m w). Qed.

Lemma gives_ret {E A} (a : A) (Q : A → Prop) (R : E → Prop) :
  Q a → gives (mret a : io P E A) Q R.
Proof. by intros Ha w. Qed.

Lemma gives_throw {E A} (e : E) (Q : A → Prop) (R : E → Prop) :
  R e → gives (throw e : io P E A) Q R.
Proof. by intros He w. Qed.

Lemma gives_map_error {E F A} (f : E → F) (m : io P E A) (R : F → Prop) :
  (∀ e, R (f e)) → gives (map_error f m) (λ _, True) R.
Proof. intros Hf w. unfold map_error. destruct (m w) as [[a|e] w1]; simpl; auto. Qed.

Lemma gives_error_of {F} (m : io P ioError ()) (R : F → Prop) :
  gives (error_of m) (λ _, True) R.
Proof. eapply gives_bind; [apply gives_try|]. intros r _. by apply gives_ret. Qed.
End gives.

Lemma transition_recovery {P SE} `{Env} target c :
  gives (atomic_transition_with_recovery target c : io P (EncryptedStoreError SE) ())
    (λ _, True) (λ e, ∀ p, recovery_path e = Some p → private_name (dir_of target) p).
Proof.
  unfold atomic_transition_with_recovery.
  eapply gives_bind; [apply gives_map_error; by intros|]. intros _ _. cbv zeta.
  eapply gives_bind; [apply gives_map_error; by intros|]. intros _ _.
  eapply (gives_bind _ _ (λ _, True)); [by intros w|]. intros id _.
  assert (private_name (dir_of target) (path_join (dir_of target) (write_name id))) as Hw
    by (exists id; auto).
  assert (private_name (dir_of target) (path_join (dir_of target) (rec_name id))) as Hr
    by (exists id; auto).
  eapply gives_bind; [apply gives_try|]. intros [[]|e] _.
  2:{ unfold write_failed. eapply gives_bind; [apply gives_error_of|]. intros o _.
      apply gives_throw. destruct o; simpl; congruence. }
  eapply gives_bind; [apply gives_try|]. intros [[]|e] _.
  2:{ unfold rename_failed. eapply gives_bind; [apply gives_try|]. intros [|] _;
      apply gives_throw; simpl; congruence. }
  eapply gives_bind; [apply gives_try|]. intros [[]|e] _; [by apply gives_ret|].
  unfold sync_failed. eapply gives_bind; [apply gives_try|].
  intros [|] _; [apply gives_throw; simpl; congruence|].
  eapply gives_bind; [apply gives_error_of|]. intros o _.
  apply gives_throw. destruct o; simpl; congruence.
Qed.
