(* ===== verification/Schema.v ===== *)
(** Opening the event store and creating its schema: [Store::open],
    [init_schema] and the WAL checkpoint of [core/storage/store.rs],
    [core/storage/mod.rs] and [core/storage/encrypted_store.rs].

    SQLite is the class [Sqlite]: a connection and the calls the code makes on
    it, each a transformation of the operating system's state.  [SqliteLaws]
    is what the code relies on: a connection touches only the files of its
    database. *)
From S2P Require Import Prelude.
From S2P Require Import Text.
From S2P Require Import Encryption.
From S2P Require Import Disk.
From S2P Require Import Locking.
From S2P Require Import Transition.

Class Sqlite := {
  conn : Type;
  sql_error : Type;
  sql_error_display : sql_error → string;
  (** [rusqlite::Error::ToSqlConversionFailure] of an error that displays so *)
  sql_boxed : string → sql_error;
  (** [symaira_core_sqlite::open_with_existing_parent] *)
  sql_open : string → os → result sql_error conn * os;
  sql_open_in_memory : os → result sql_error conn * os;
  sql_execute_batch : conn → string → os → result sql_error () * os;
  sql_user_version : conn → os → result sql_error Z * os;
  (** [PRAGMA wal_checkpoint(TRUNCATE)]: the first row *)
  sql_checkpoint_row : conn → os → result sql_error (option (Z * Z * Z)) * os;
  (** dropping the connection *)
  sql_drop : conn → os → os;
}.

Definition SCHEMA_VERSION : Z := 2.

Definition V1_SCHEMA : list string := [
  "CREATE TABLE IF NOT EXISTS campaigns (
                id              TEXT PRIMARY KEY,
                created_at      TIMESTAMP NOT NULL DEFAULT (datetime('now')),
                kind            TEXT NOT NULL DEFAULT 'initial',
                notes           TEXT
            )";
  "CREATE TABLE IF NOT EXISTS removal_requests (
                id              INTEGER PRIMARY KEY AUTOINCREMENT,
                broker_id       TEXT NOT NULL,
                channel         TEXT NOT NULL DEFAULT 'email',
                campaign_id     TEXT NOT NULL,
                created_at      TIMESTAMP NOT NULL DEFAULT (datetime('now')),
                jurisdiction    TEXT NOT NULL,
                template_id     TEXT NOT NULL DEFAULT '',
                identity_snapshot_hash TEXT NOT NULL DEFAULT ''
            )";
  "CREATE TABLE IF NOT EXISTS request_events (
                id              INTEGER PRIMARY KEY AUTOINCREMENT,
                request_id      INTEGER NOT NULL REFERENCES removal_requests(id),
                occurred_at     TIMESTAMP NOT NULL DEFAULT (datetime('now')),
                recorded_at     TIMESTAMP NOT NULL DEFAULT (datetime('now')),
                event_type      TEXT NOT NULL,
                payload_json    TEXT NOT NULL DEFAULT '{}',
                source          TEXT NOT NULL DEFAULT 'system'
            )";
  "CREATE INDEX IF NOT EXISTS idx_events_request
                ON request_events(request_id, occurred_at)";
  "CREATE INDEX IF NOT EXISTS idx_events_occurred_at
                ON request_events(occurred_at DESC)";
  "CREATE TABLE IF NOT EXISTS request_state (
                request_id      INTEGER PRIMARY KEY REFERENCES removal_requests(id),
                current_status  TEXT NOT NULL DEFAULT 'PLANNED',
                last_event_id   INTEGER NOT NULL DEFAULT 0,
                last_event_at   TIMESTAMP NOT NULL DEFAULT (datetime('now')),
                sent_at         TIMESTAMP,
                acknowledged_at TIMESTAMP,
                resolved_at     TIMESTAMP,
                deadline_at     TIMESTAMP,
                next_action_at  TIMESTAMP,
                reminders_sent  INTEGER NOT NULL DEFAULT 0,
                escalation_level INTEGER NOT NULL DEFAULT 0
            )";
  "CREATE INDEX IF NOT EXISTS idx_request_state_next_action
                ON request_state(next_action_at, current_status)";
  "CREATE INDEX IF NOT EXISTS idx_removal_requests_campaign
                ON removal_requests(campaign_id)";
  "CREATE INDEX IF NOT EXISTS idx_removal_requests_broker
                ON removal_requests(broker_id)";
  "CREATE INDEX IF NOT EXISTS idx_removal_requests_jurisdiction
                ON removal_requests(jurisdiction)";
  "PRAGMA user_version = 1"
].

Definition V2_MIGRATION : list string := [
  "CREATE TABLE IF NOT EXISTS imap_state (
            host           TEXT NOT NULL,
            folder         TEXT NOT NULL,
            uid_validity   INTEGER NOT NULL,
            last_uid       INTEGER NOT NULL DEFAULT 0,
            updated_at     TIMESTAMP NOT NULL DEFAULT (datetime('now')),
            PRIMARY KEY (host, folder)
        )";
  "PRAGMA user_version = 2"
].

Definition AUXILIARY_SCHEMA : list string := [
  "CREATE TABLE IF NOT EXISTS manual_tasks (
            id                  INTEGER PRIMARY KEY AUTOINCREMENT,
            request_id          INTEGER REFERENCES removal_requests(id),
            broker_id           TEXT NOT NULL DEFAULT '',
            broker_name         TEXT NOT NULL DEFAULT '',
            form_url            TEXT NOT NULL DEFAULT '',
            reason              TEXT NOT NULL DEFAULT 'generic_error',
            instructions        TEXT NOT NULL DEFAULT '',
            screenshot_path     TEXT NOT NULL DEFAULT '',
            html_snapshot_path  TEXT NOT NULL DEFAULT '',
            form_fields_json    TEXT NOT NULL DEFAULT '{}',
            status              TEXT NOT NULL DEFAULT 'pending',
            created_at          TIMESTAMP NOT NULL DEFAULT (datetime('now')),
            completed_at        TIMESTAMP,
            notes               TEXT NOT NULL DEFAULT ''
        )";
  "CREATE INDEX IF NOT EXISTS idx_manual_tasks_status ON manual_tasks(status)";
  "CREATE INDEX IF NOT EXISTS idx_manual_tasks_request ON manual_tasks(request_id)";
  "CREATE TABLE IF NOT EXISTS inbox_replies (
            id INTEGER PRIMARY KEY AUTOINCREMENT, request_id INTEGER REFERENCES removal_requests(id),
            message_id TEXT UNIQUE NOT NULL, thread_id TEXT, received_at TIMESTAMP NOT NULL DEFAULT (datetime('now')),
            from_addr TEXT, subject TEXT, snippet TEXT, classified_as TEXT,
            classifier_confidence REAL, llm_summary TEXT
        )";
  "CREATE INDEX IF NOT EXISTS idx_inbox_replies_request ON inbox_replies(request_id)";
  "CREATE INDEX IF NOT EXISTS idx_inbox_replies_classified ON inbox_replies(classified_as)";
  "CREATE TABLE IF NOT EXISTS reply_drafts (
            id INTEGER PRIMARY KEY AUTOINCREMENT, reply_id INTEGER NOT NULL REFERENCES inbox_replies(id),
            request_id INTEGER REFERENCES removal_requests(id), draft_body TEXT NOT NULL, subject TEXT NOT NULL DEFAULT '',
            created_at TIMESTAMP NOT NULL DEFAULT (datetime('now')), sent_at TIMESTAMP, account TEXT
        )"
].

(** [impl Display for UnsupportedSchema]. *)
Definition unsupported_schema_display (path : string) (version : Z) : string :=
  "eventstore: DB at " +:+ path +:+ " has user_version=" +:+ show version
  +:+ ", Go port supports up to " +:+ show SCHEMA_VERSION +:+ " — refusing to operate".

Record Store `{Sqlite} := MkStore {
  connection : conn;
  path : string;
  sqlite_path : string;
  encrypted_path : option string;
  db_lock : option DbLock;
}.

Section store.
Context {P : Type} `{Env} `{Sqlite}.

Definition lift {E A} (f : os → result E A * os) : io P E A := λ w,
  let '(r, s) := f (system w) in (r, World s (process w)).

Definition drop_connection {E} (c : conn) : io P E () :=
  lift (λ s, (Ok (), sql_drop c s)).

(** Dropping a [Store]: its fields in order. *)
Definition Store_drop {E} (store : Store) : io P E () :=
  drop_connection (connection store) ;; drop_lock (db_lock store).

(** [storage::open]. *)
Definition open_connection (path : string) : io P sql_error conn :=
  match nonempty_parent path with
  | Some parent => map_error (λ e, sql_boxed (text e)) (create_dir_all parent)
  | None => mret ()
  end ;;
  lift (sql_open path).

Definition init_schema (store : Store) : io P sql_error () :=
  let execute_all := λ batch : list string, for_each batch (λ statement,
    lift (sql_execute_batch (connection store) statement)) in
  current ← lift (sql_user_version (connection store));
  (if current >? SCHEMA_VERSION
   then throw (sql_boxed (unsupported_schema_display (path store) current))
   else mret ()) ;;
  (if current =? 0 then execute_all V1_SCHEMA else mret ()) ;;
  (if current <? SCHEMA_VERSION then execute_all V2_MIGRATION else mret ()) ;;
  execute_all AUXILIARY_SCHEMA.

Definition Store_open (path : string) : io P sql_error Store :=
  connection ← open_connection path;
  let store := MkStore _ connection path path None None in
  r ← try (init_schema store);
  match r with
  | Ok _ => mret store
  | Err e => Store_drop store ;; throw e
  end.

Definition set_encrypted_paths (store : Store) (canonical sqlite : string) : Store :=
  MkStore _ (connection store) canonical sqlite (Some canonical) (db_lock store).

Definition set_db_lock (store : Store) (lock : option DbLock) : Store :=
  MkStore _ (connection store) (path store) (sqlite_path store) (encrypted_path store) lock.

Definition set_connection (store : Store) (c : conn) : Store :=
  MkStore _ c (path store) (sqlite_path store) (encrypted_path store) (db_lock store).

Definition checkpoint_wal_conn (c : conn) : io P (CheckpointError sql_error) () :=
  row ← map_error Query (lift (sql_checkpoint_row c));
  match row with
  | Some (busy, log_frames, checkpointed) =>
      if busy =? 0 then mret () else throw (Busy busy log_frames checkpointed)
  | None => mret ()
  end.

Definition checkpoint_wal (store : Store) : io P (CheckpointError sql_error) () :=
  checkpoint_wal_conn (connection store).

End store.
