(* ===== verification/EncryptedStore.v ===== *)
(** The life cycle of the encrypted event store: opening into a private
    decrypted temporary, closing back into the canonical file, retrying a
    failed close, and scavenging: [core/storage/encrypted_store.rs].

    The process's globals are the two master-key cells and the registry of
    decrypted temporaries.  A value that the code drops at the end of a scope
    (a lock, a store) is dropped here at the same place. *)
From S2P Require Import Prelude.
From S2P Require Import Text.
From S2P Require Import Encryption.
From S2P Require Import Disk.
From S2P Require Import Locking.
From S2P Require Import Transition.
From S2P Require Import Schema.

(** 300 seconds, in the nanoseconds of [clock]. *)
Definition STALE_SCAVENGE_AGE : Z := 300 * 1000000000.

Record RegisteredTemp := MkTemp {
  tmp_path : string;
  active : bool;
  reg_lock : option DbLock;
  temp_lock : option DbLock;
  recovery_paths : list string;
}.

(** A provider may answer differently at every call. *)
Record globals := Globals {
  master_key_provider : option (nat → result EncryptionError bytes);
  direct_master_key : option bytes;
  encrypted_temps : gmap string RegisteredTemp;
}.

(** The process's environment: cache directories, the bytes the random
    generator delivers to an encryption, and the order of the registry's
    keys. *)
Class ProcessEnv := {
  xdg_cache_home : option string;
  home : option string;
  temp_dir : string;
  entropy : nat → option bytes * option bytes;
  hash_order : list string → list string;
}.

Definition is_absolute (p : string) : bool := starts_with "/" p.

Definition default_unix_cache_root (xdg home_dir : option string) (fallback : string) : string :=
  let absolute o := match o with Some p => if is_absolute p then Some p else None | None => None end in
  match absolute xdg with
  | Some p => p
  | None => match absolute home_dir with
            | Some h => path_join h ".cache"
            | None => fallback
            end
  end.

Definition checked_temp_root {SE} (root : string) : result (EncryptedStoreError SE) string :=
  fail_if (is_empty root || negb (is_absolute root))
    (InvalidPath "encrypted temporary root must be absolute") ;;
  Ok (path_join (path_join root "symeraseme") "database").

Definition default_encrypted_temp_dir {SE} `{ProcessEnv} :
    result (EncryptedStoreError SE) string :=
  checked_temp_root (default_unix_cache_root xdg_cache_home home temp_dir).

Definition validate_temp_dir {SE} (path : string) : result (EncryptedStoreError SE) () :=
  fail_if (is_empty (trim path)) (InvalidPath "temporary directory must not be empty") ;;
  fail_if (negb (is_absolute path)) (InvalidPath "temporary directory must be absolute").

Definition is_stale_temp_name (name : string) : bool :=
  existsb (λ prefix, starts_with prefix name)
    ["symeraseme_decrypted_"; "symeraseme_init_"; ".symeraseme_write_";
     ".symeraseme_recovery_"; ".symeraseme_previous_"].

Definition is_registered_temp_or_sidecar (path : string) (registered : list string) : bool :=
  bool_decide (path ∈ registered)
  || existsb (λ r, (path =? path_push r "-wal")%string || (path =? path_push r "-shm")%string)
       registered.

(** The paths a registration protects. *)
Definition registered_paths (r : RegisteredTemp) : list string :=
  [tmp_path r]
  ++ match temp_lock r with Some _ => [lock_path_for (tmp_path r)] | None => [] end
  ++ recovery_paths r.

(** [EncryptedStoreError]'s [Display], for the errors that are nested into a
    message. *)
Definition checkpoint_error_display `{Sqlite} (e : CheckpointError sql_error) : string :=
  match e with
  | Busy busy log_frames checkpointed =>
      "eventstore: WAL checkpoint busy (busy=" +:+ show busy +:+ " log_frames="
      +:+ show log_frames +:+ " checkpointed=" +:+ show checkpointed +:+ ")"
  | Query e => "eventstore: WAL checkpoint: " +:+ sql_error_display e
  end.

Definition store_error_display `{Sqlite} (e : EncryptedStoreError sql_error) : string :=
  match e with
  | LockErr e => lock_error_display e
  | Io e => "eventstore I/O error: " +:+ text e
  | SqliteErr e => "eventstore SQLite error: " +:+ sql_error_display e
  | EncryptionErr e => "eventstore encryption error: " +:+ encryption_error_display e
  | CheckpointErr e => checkpoint_error_display e
  | MasterKeyUnavailable =>
      "eventstore: encryption requested: identity master key unavailable"
  | InvalidPath msg => "eventstore: invalid path: " +:+ msg
  | DirectorySyncFailed path (Some rec) source =>
      "eventstore: directory sync failed for " +:+ path +:+ " (recovery copy at " +:+ rec
      +:+ "): " +:+ text source
  | DirectorySyncFailed path None source =>
      "eventstore: directory sync failed for " +:+ path +:+ ": " +:+ text source
  | ConversionFailed message (Some rec) =>
      "eventstore: conversion failed (recovery copy at " +:+ rec +:+ "): " +:+ message
  | ConversionFailed message None => "eventstore: conversion failed: " +:+ message
  end.

Section encrypted_store.
Context `{Crypto} `{Env} `{ProcessEnv} `{Sqlite}.

Notation error := (EncryptedStoreError sql_error).
Notation program := (io globals error).

(* ------------------------------------------------------------------ *)
(** ** The master key *)

Definition set_master_key_provider {E} (p : option (nat → result EncryptionError bytes)) :
    io globals E () :=
  modify_process (λ g, Globals p (direct_master_key g) (encrypted_temps g)).

Definition set_master_key {E} (key : bytes) : io globals E () :=
  modify_process (λ g, Globals (master_key_provider g) (Some key) (encrypted_temps g)).

Definition clear_master_key {E} : io globals E () :=
  modify_process (λ g, Globals None None (encrypted_temps g)).

Definition current_master_key : io globals EncryptionError bytes := λ w,
  (match direct_master_key (process w), master_key_provider (process w) with
   | Some key, _ => Ok key
   | None, Some provider => provider (steps (system w))
   | None, None => Err AuthenticationFailed
   end, w).

(** [current_master_key().map_err(|_| MasterKeyUnavailable)]. *)
Definition require_master_key : program bytes :=
  map_error (λ _, MasterKeyUnavailable) current_master_key.

(** [encrypt_v3] with the process's randomness and clock. *)
Definition encrypt_now (plaintext key : bytes) : io globals EncryptionError bytes := λ w,
  let n := steps (system w) in
  let now := if clock n <? 0 then None else Some (clock n / 1000000000) in
  (encrypt_v3 (entropy n) now plaintext key, w).

(* ------------------------------------------------------------------ *)
(** ** The registry of decrypted temporaries *)

Definition get_temps {E} : io globals E (gmap string RegisteredTemp) :=
  g ← get_process; mret (encrypted_temps g).

Definition set_temps {E} (m : gmap string RegisteredTemp) : io globals E () :=
  modify_process (λ g, Globals (master_key_provider g) (direct_master_key g) m).

Definition drop_registration {E} (r : option RegisteredTemp) : io globals E () :=
  match r with
  | None => mret ()
  | Some r => drop_lock (reg_lock r) ;; drop_lock (temp_lock r)
  end.

Definition register_temp {E} (enc_path tmp : string) (lock : DbLock) : io globals E () :=
  map ← get_temps;
  set_temps (<[enc_path := MkTemp tmp true None (Some lock) []]> map) ;;
  drop_registration (map !! enc_path).

(** [cleanup_temp_lock_after_main]: the lock afterwards. *)
Definition cleanup_temp_lock_after_main {E} (path : string) (lock : option DbLock) :
    io globals E (option DbLock) :=
  match lock with
  | None => mret None
  | Some lock =>
      '(closed, lock) ← DbLock_close lock;
      (if is_ok closed then ignore (remove_if_exists (lock_path_for path)) else mret ()) ;;
      mret (Some lock)
  end.

Definition unregister_temp {E} (enc_path : string) : io globals E (option RegisteredTemp) :=
  map ← get_temps;
  match map !! enc_path with
  | None => mret None
  | Some registration =>
      set_temps (delete enc_path map) ;;
      match temp_lock registration with
      | Some lock =>
          lock ← cleanup_temp_lock_after_main (tmp_path registration) (Some lock);
          drop_lock lock
      | None => mret ()
      end ;;
      mret (Some (MkTemp (tmp_path registration) (active registration) (reg_lock registration)
                    None (recovery_paths registration)))
  end.

(** A recovery path is added once. *)
Definition add_recovery (r : RegisteredTemp) (e : error) : RegisteredTemp :=
  match recovery_path e with
  | Some path =>
      if bool_decide (path ∈ recovery_paths r) then r
      else MkTemp (tmp_path r) (active r) (reg_lock r) (temp_lock r) (recovery_paths r ++ [path])
  | None => r
  end.

(** The store after [take()] of its lock. *)
Definition retain_failed_close {E} (enc_path : string) (store : Store) (e : error) :
    io globals E Store :=
  match db_lock store with
  | None => mret store
  | Some lock =>
      map ← get_temps;
      let registration := default (MkTemp (sqlite_path store) false None None [])
                            (map !! enc_path) in
      let registration := MkTemp (tmp_path registration) false (Some lock)
                            (temp_lock registration) (recovery_paths registration) in
      set_temps (<[enc_path := add_recovery registration e]> map) ;;
      drop_lock (map !! enc_path ≫= reg_lock) ;;
      mret (set_db_lock store None)
  end.

Definition remember_recovery_path {E} (enc_path : string) (e : error) : io globals E () :=
  map ← get_temps;
  match map !! enc_path with
  | Some registration => set_temps (<[enc_path := add_recovery registration e]> map)
  | None => mret ()
  end.

Definition registered_recovery_paths {E} (enc_path : string) : io globals E (list string) :=
  map ← get_temps;
  mret (default [] (recovery_paths <$> map !! enc_path)).

(* ------------------------------------------------------------------ *)
(** ** Removing temporaries *)

(** The first error wins; every candidate is tried. *)
Definition cleanup_initializer (path : string) : io globals ioError () :=
  shm ← error_of (remove_if_exists (path_push path "-shm"));
  wal ← error_of (remove_if_exists (path_push path "-wal"));
  main ← error_of (remove_if_exists path);
  let named candidate (e : ioError) := IoError (kind e) (candidate +:+ ": " +:+ text e) in
  match named (path_push path "-shm") <$> shm, named (path_push path "-wal") <$> wal,
        named path <$> main with
  | Some e, _, _ | None, Some e, _ | None, None, Some e => throw e
  | None, None, None => mret ()
  end.

Definition cleanup_plain_temp_with_lock (path : string) (lock : option DbLock) :
    io globals ioError () :=
  siblings_error ← error_of (remove_wal_siblings path);
  main_error ← error_of (remove_if_exists path);
  lock ← (match main_error with
          | None => cleanup_temp_lock_after_main path lock
          | Some _ => mret lock
          end);
  drop_lock lock ;;
  match main_error, siblings_error with
  | Some e, _ | None, Some e => throw e
  | None, None => mret ()
  end.

Definition cleanup_plain_temp (path : string) : io globals ioError () :=
  cleanup_plain_temp_with_lock path None.

(** The removal of a stale entry: the sidecars first, then the file, then the
    lock file. *)
Definition scavenge_remove {E} (path : string) (lock : option DbLock) : io globals E () :=
  siblings ← try (remove_wal_siblings path);
  match siblings with
  | Err _ => drop_lock lock
  | Ok _ =>
      removed ← try (remove_if_exists path);
      (match removed, lock with
       | Ok _, Some _ => ignore (remove_if_exists (lock_path_for path))
       | _, _ => mret ()
       end) ;;
      drop_lock lock
  end.

(** One entry of [scavenge_stale_temps]. *)
Definition scavenge_entry {E} (registered : list string) (now : Z) (path : string) :
    io globals E () :=
  let name := file_name path in
  if negb (is_stale_temp_name name) then mret ()
  else if ends_with ".lock" name || ends_with "-wal" name || ends_with "-shm" name then mret ()
  else
    meta ← try (metadata path);
    match meta with
    | Err _ => mret ()
    | Ok (true, _) => mret ()
    | Ok (false, mtime) =>
        if is_registered_temp_or_sidecar path registered then mret ()
        else if now <? mtime then mret ()
        else if now - mtime <=? STALE_SCAVENGE_AGE then mret ()
        else
          locked ← (if starts_with "symeraseme_decrypted_" name then
                      r ← try (lock_with_delay path 1);
                      mret (Some <$> r)
                    else mret (Ok None));
          match locked with
          | Err _ => mret ()
          | Ok lock => scavenge_remove path lock
          end
    end.

Definition scavenge_stale_temps (tmp_dir : string) : io globals ioError () :=
  entries ← try (read_dir tmp_dir);
  match entries with
  | Err e => if bool_decide (kind e = NotFound) then mret () else throw e
  | Ok entries =>
      map ← get_temps;
      let registered := (map_to_list map).*2 ≫= registered_paths in
      now ← system_time;
      for_each entries (scavenge_entry registered now)
  end.

(* ------------------------------------------------------------------ *)
(** ** Conversions of the canonical file *)

(** [fs::read] with absence read as [absent]. *)
Definition read_or {A} (path : string) (absent : A) (present : bytes → program A) : program A :=
  r ← try (read path);
  match r with
  | Ok raw => present raw
  | Err e => if bool_decide (kind e = NotFound) then mret absent else throw (Io e)
  end.

Definition read_or_empty (path : string) : program bytes := read_or path [] mret.

(** [.map_err(cleanup_unregistered_recovery)]. *)
Definition transition_or_cleanup (path : string) (contents : bytes) : program () :=
  r ← try (atomic_transition_with_recovery path contents);
  match r with
  | Ok _ => mret ()
  | Err e => e ← cleanup_unregistered_recovery e; throw e
  end.

Definition decrypt_existing (path : string) : program () :=
  read_or path () (λ raw,
    if bool_decide (raw = []) || negb (is_encrypted raw) then mret ()
    else
      key ← require_master_key;
      plain ← map_error EncryptionErr (of_result (decrypt_any raw key));
      transition_or_cleanup path plain).

Definition encrypt_existing (path : string) : program () :=
  read_or path () (λ raw,
    if bool_decide (raw = []) || is_encrypted raw then mret ()
    else
      key ← require_master_key;
      ciphertext ← map_error EncryptionErr (encrypt_now raw key);
      transition_or_cleanup path ciphertext).

End encrypted_store.
