(* ===== verification/StoreLifecycle.v ===== *)
(** Opening and closing the event store: [open_configured], [open_encrypted],
    [close_store] and [finalise_all] of [core/storage/encrypted_store.rs].

    [close_store_inner] and the steps of [finalise_all] return their result as
    a value where the code goes on after a failure. *)
From S2P Require Import Prelude.
From S2P Require Import Text.
From S2P Require Import Encryption.
From S2P Require Import Disk.
From S2P Require Import Locking.
From S2P Require Import Transition.
From S2P Require Import Schema.
From S2P Require Import EncryptedStore.

Definition init_name (id : Z) : string := "symeraseme_init_" +:+ hex16 id +:+ ".db".
Definition decrypted_name (id : Z) : string := "symeraseme_decrypted_" +:+ hex16 id +:+ ".db".

Section lifecycle.
Context `{Crypto} `{Env} `{ProcessEnv} `{Sqlite}.

Notation error := (EncryptedStoreError sql_error).
Notation program := (io globals error).

(** Early returns of a scope that owns a lock, or a store: the value is
    dropped on the way out. *)
Definition on_error {A} (release : program ()) (m : program A) : program A :=
  r ← try m;
  match r with
  | Ok a => mret a
  | Err e => release ;; throw e
  end.

(* ------------------------------------------------------------------ *)
(** ** Opening *)

Definition create_initializer (path : string) : io globals ioError nat := create_new path.

(** Gives up on an initializer: the error itself when the cleanup succeeds,
    else one message with both. *)
Definition abandon {A} (cleanup : io globals ioError ()) (label shown : string) (e : error) :
    program A :=
  r ← try cleanup;
  match r with
  | Ok _ => throw e
  | Err c => throw (Io (io_other (label +:+ ": " +:+ shown +:+ "; cleanup: " +:+ text c)))
  end.

(** [raw.is_empty()]: a fresh database, built away from the canonical path. *)
Definition initialize (enc_path tmp_dir : string) (master_key : bytes) : program () :=
  id ← next_u64;
  let init_path := path_join tmp_dir (init_name id) in
  map_error Io (create_initializer init_path) ;;
  opened ← try (Store_open init_path);
  match opened with
  | Err e =>
      abandon (cleanup_initializer init_path) "initialize" (sql_error_display e) (SqliteErr e)
  | Ok init_store =>
      checked ← try (checkpoint_wal init_store);
      Store_drop init_store ;;
      match checked with
      | Err e =>
          abandon (cleanup_initializer init_path) "initialize checkpoint"
            (checkpoint_error_display e) (CheckpointErr e)
      | Ok _ =>
          init_bytes ← try (read init_path);
          match init_bytes with
          | Err e =>
              abandon (cleanup_initializer init_path) "read initializer" (text e) (Io e)
          | Ok init_bytes =>
              ciphertext ← try (encrypt_now init_bytes master_key);
              match ciphertext with
              | Err e =>
                  abandon (cleanup_initializer init_path) "encrypt initializer"
                    (encryption_error_display e) (EncryptionErr e)
              | Ok ciphertext =>
                  published ← try (atomic_transition_with_recovery enc_path ciphertext);
                  match published with
                  | Err e =>
                      cleanup ← try (cleanup_initializer init_path);
                      e ← cleanup_unregistered_recovery e;
                      match cleanup with
                      | Ok _ => throw e
                      | Err c =>
                          throw (Io (io_other ("publish initializer: " +:+ store_error_display e
                                               +:+ "; cleanup: " +:+ text c)))
                      end
                  | Ok _ => map_error Io (cleanup_initializer init_path)
                  end
              end
          end
      end
  end.

(** [!is_encrypted(&raw)]: an existing plain database. *)
Definition convert_plain (enc_path : string) : program () :=
  plain_store ← map_error SqliteErr (Store_open enc_path);
  on_error (Store_drop plain_store) (map_error CheckpointErr (checkpoint_wal plain_store)) ;;
  Store_drop plain_store ;;
  encrypt_existing enc_path.

(** The formats that are rewritten as V3 before anything is exposed. *)
Definition needs_migration (ciphertext : bytes) : bool :=
  is_encrypted ciphertext
  && (bytes_start_with V1_HEADER ciphertext || bytes_start_with V2_HEADER ciphertext
      || is_legacy_go_envelope ciphertext).

Definition migrate_envelope (enc_path : string) (ciphertext master_key : bytes) :
    program bytes :=
  plaintext ← map_error EncryptionErr (of_result
    (if bytes_start_with V1_HEADER ciphertext then decrypt_v1 ciphertext master_key
     else if bytes_start_with V2_HEADER ciphertext then decrypt_v2 ciphertext master_key
     else decrypt_v3 ciphertext master_key));
  migrated ← map_error EncryptionErr (encrypt_now plaintext master_key);
  transition_or_cleanup enc_path migrated ;;
  mret migrated.

(** The private plaintext file and its lock. *)
Definition create_decrypted (tmp_path : string) (plaintext : bytes) : program DbLock :=
  temp ← map_error Io (create_new tmp_path);
  r ← try (write_all temp plaintext ;; sync_all temp);
  match r with
  | Err e => abandon (cleanup_plain_temp tmp_path) "write decrypted temp" (text e) (Io e)
  | Ok _ =>
      locked ← try (DbLock_lock tmp_path 1);
      match locked with
      | Ok lock => mret lock
      | Err e =>
          let message := "lock decrypted temp: " +:+ lock_error_display e in
          abandon (cleanup_plain_temp tmp_path) "lock decrypted temp" (lock_error_display e)
            (Io (io_other message))
      end
  end.

(** What [open_encrypted] does once it holds the canonical lock. *)
Definition open_locked (enc_path tmp_dir : string) (lock : DbLock) : program Store :=
  master_key ← require_master_key;
  raw ← read_or_empty enc_path;
  (if bool_decide (raw = []) then initialize enc_path tmp_dir master_key
   else if negb (is_encrypted raw) then convert_plain enc_path
   else mret ()) ;;
  ciphertext ← map_error Io (read enc_path);
  ciphertext ← (if needs_migration ciphertext
                then migrate_envelope enc_path ciphertext master_key
                else mret ciphertext);
  plaintext ← map_error EncryptionErr (of_result (decrypt_any ciphertext master_key));
  id ← next_u64;
  let tmp_path := path_join tmp_dir (decrypted_name id) in
  temp_lock ← create_decrypted tmp_path plaintext;
  opened ← try (Store_open tmp_path);
  match opened with
  | Err e =>
      abandon (cleanup_plain_temp_with_lock tmp_path (Some temp_lock)) "open decrypted temp"
        (sql_error_display e) (SqliteErr e)
  | Ok store =>
      let store := set_db_lock (set_encrypted_paths store enc_path tmp_path) (Some lock) in
      register_temp enc_path tmp_path temp_lock ;;
      mret store
  end.

Definition ensure_parent_of (path : string) : program () :=
  match nonempty_parent path with
  | Some parent => map_error Io (ensure_parent_dir parent)
  | None => mret ()
  end.

Definition open_encrypted (enc_path tmp_dir : string) : program Store :=
  of_result (validate_temp_dir tmp_dir) ;;
  ensure_parent_of enc_path ;;
  map_error Io (ensure_private_dir tmp_dir) ;;
  lock ← map_error LockErr (DbLock_lock enc_path 1);
  on_error (DbLock_drop lock) (open_locked enc_path tmp_dir lock).

Definition open_configured (path : string) (tmp_dir : option string) (encrypt : bool) :
    program Store :=
  (if is_empty path then throw (InvalidPath "database path must not be empty") else mret ()) ;;
  match tmp_dir with Some d => of_result (validate_temp_dir d) | None => mret () end ;;
  if encrypt then
    default_tmp ← of_result default_encrypted_temp_dir;
    require_master_key ;;
    open_encrypted path (default default_tmp tmp_dir)
  else
    ensure_parent_of path ;;
    lock ← map_error LockErr (DbLock_lock path 1);
    on_error (DbLock_drop lock) (
      raw ← read_or_empty path;
      (if negb (bool_decide (raw = [])) && is_encrypted raw
       then decrypt_existing path else mret ()) ;;
      store ← map_error SqliteErr (Store_open path);
      mret (set_db_lock store (Some lock))).

(* ------------------------------------------------------------------ *)
(** ** Closing *)

(** From reading the closed temporary to forgetting it. *)
Definition publish_temp (enc_path tmp_path : string) (master_key : bytes) : program () :=
  plain ← map_error Io (read tmp_path);
  ciphertext ← map_error EncryptionErr (encrypt_now plain master_key);
  atomic_transition_with_recovery enc_path ciphertext ;;
  paths ← registered_recovery_paths enc_path;
  map_error Io (cleanup_recovery_paths paths) ;;
  map_error Io (remove_wal_siblings enc_path) ;;
  map_error Io (cleanup_plain_temp tmp_path) ;;
  registration ← unregister_temp enc_path;
  drop_registration registration.

(** The result, and the store with the connection it then has. *)
Definition close_store_inner {E} (store : Store) : io globals E (result error () * Store) :=
  checked ← try (checkpoint_wal store);
  match checked, encrypted_path store with
  | Err e, _ => mret (Err (CheckpointErr e), store)
  | Ok _, None => mret (Ok (), store)
  | Ok _, Some enc_path =>
      key ← try require_master_key;
      match key with
      | Err e => mret (Err e, store)
      | Ok master_key =>
          memory ← try (lift sql_open_in_memory);
          match memory with
          | Err e => mret (Err (SqliteErr e), store)
          | Ok memory =>
              drop_connection (connection store) ;;
              r ← try (publish_temp enc_path (sqlite_path store) master_key);
              mret (r, set_connection store memory)
          end
      end
  end.

Definition close_store (store : Store) : program () :=
  '(r, closed) ← close_store_inner store;
  closed ← (match r, encrypted_path store with
            | Err e, Some enc_path => retain_failed_close enc_path closed e
            | _, _ => mret closed
            end);
  Store_drop closed ;;
  of_result r.

(* ------------------------------------------------------------------ *)
(** ** Retrying failed closes *)

(** [Store::open(&tmp).and_then(|store| store.checkpoint_wal()...)]. *)
Definition open_and_checkpoint (tmp_path : string) : io globals sql_error () :=
  store ← Store_open tmp_path;
  r ← try (checkpoint_wal store);
  Store_drop store ;;
  match r with
  | Ok _ => mret ()
  | Err e => throw (sql_boxed (checkpoint_error_display e))
  end.

(** The publication of one registration, with its key. *)
Definition finalise_registered (enc_path tmp_path : string) (recovery : list string)
    (key : bytes) : program () :=
  present ← exists_path tmp_path;
  (if negb present
   then throw (Io (IoError NotFound ("registered encrypted temp missing: " +:+ tmp_path)))
   else mret ()) ;;
  map_error SqliteErr (open_and_checkpoint tmp_path) ;;
  plain ← map_error Io (read tmp_path);
  ciphertext ← map_error EncryptionErr (encrypt_now plain key);
  r ← try (atomic_transition_with_recovery enc_path ciphertext);
  match r with
  | Err e => remember_recovery_path enc_path e ;; throw e
  | Ok _ => mret ()
  end ;;
  map_error Io (cleanup_recovery_paths recovery) ;;
  map_error Io (remove_wal_siblings enc_path) ;;
  map_error Io (cleanup_plain_temp tmp_path) ;;
  registration ← unregister_temp enc_path;
  drop_registration registration.

(** One turn of the loop: the error it reports, and the cached key. *)
Definition finalise_one {E} (enc_path : string) (cached : option bytes) :
    io globals E (option error * option bytes) :=
  map ← get_temps;
  match map !! enc_path with
  | None => mret (None, cached)
  | Some registration =>
      if active registration then
        mret (Some (Io (IoError WouldBlock
          ("active encrypted store not finalized: " +:+ enc_path))), cached)
      else
        key ← (match cached with Some key => mret (Ok key) | None => try current_master_key end);
        match key with
        | Err _ => mret (Some MasterKeyUnavailable, cached)
        | Ok key =>
            r ← try (finalise_registered enc_path (tmp_path registration)
                       (recovery_paths registration) key);
            mret (match r with Ok _ => None | Err e => Some e end, Some key)
        end
  end.

Fixpoint finalise_loop {E} (entries : list string) (cached : option bytes)
    (errors : list error) : io globals E (list error) :=
  match entries with
  | [] => mret errors
  | enc_path :: entries =>
      '(e, cached) ← finalise_one enc_path cached;
      finalise_loop entries cached (errors ++ match e with Some e => [e] | None => [] end)
  end.

Definition finalise_all : io globals (list error) () :=
  map ← get_temps;
  errors ← finalise_loop (hash_order (elements (dom map))) None [];
  match errors with [] => mret () | _ => throw errors end.

End lifecycle.
