(* ===== verification/LifecycleMoves.v ===== *)
(** Which entries the operations of the store's life cycle touch, and what they
    publish at the canonical path: every program of [EncryptedStore] and
    [StoreLifecycle] follows [keeps] or [follows]. *)
From S2P Require Import Prelude.
From S2P Require Import Text.
From S2P Require Import Encryption.
From S2P Require Import Disk.
From S2P Require Import DiskFacts.
From S2P Require Import Locking.
From S2P Require Import Transition.
From S2P Require Import PublishFacts.
From S2P Require Import TransitionFacts.
From S2P Require Import Schema.
From S2P Require Import EncryptedStore.
From S2P Require Import StoreLifecycle.

(** The files of a database. *)
Definition db_files (p : string) : list string :=
  [p; path_push p "-wal"; path_push p "-shm"; path_push p "-journal"].

(** A call of SQLite follows [R] and leaves the advisory locks alone. *)
Definition sql_moves {A} (R : disk → disk → Prop) (f : os → A * os) : Prop :=
  ∀ s, (∃ t, history (f s).2 = t ++ history s ∧ Forall (R (now_disk s)) t) ∧
       R (now_disk s) (now_disk (f s).2) ∧ locked (f s).2 = locked s.

(** SQLite touches the files of the connection's database only. *)
Class SqliteLaws `{Sqlite} := {
  conn_files : conn → list string;
  sql_open_files p s c : (sql_open p s).1 = Ok c → conn_files c = db_files p;
  sql_memory_files s c : (sql_open_in_memory s).1 = Ok c → conn_files c = [];
  sql_open_moves p : sql_moves (keeps (.∈ db_files p)) (sql_open p);
  sql_memory_moves : sql_moves (keeps (.∈ [])) sql_open_in_memory;
  sql_execute_moves c q : sql_moves (keeps (.∈ conn_files c)) (sql_execute_batch c q);
  sql_version_moves c : sql_moves (keeps (.∈ conn_files c)) (sql_user_version c);
  sql_checkpoint_moves c : sql_moves (keeps (.∈ conn_files c)) (sql_checkpoint_row c);
  sql_drop_moves c : sql_moves (keeps (.∈ conn_files c)) (λ s, ((), sql_drop c s));
}.

Lemma sql_moves_weaken {A} (R R' : disk → disk → Prop) (f : os → A * os) :
  (∀ d d', R d d' → R' d d') → sql_moves R f → sql_moves R' f.
Proof.
  intros HR Hf s. destruct (Hf s) as [(t & Et & Ft) [Hr Hl]]. split_and!; auto.
  exists t. split; [done|]. eapply Forall_impl; [done|]. auto.
Qed.

Lemma moves_lift {P E A} `{Env} `{Sqlite} R (f : os → result E A * os) :
  sql_moves R f → moves R (lift f : io P E A).
Proof.
  intros Hf w. destruct (Hf (system w)) as [Ht [Hr _]]. unfold lift.
  by destruct (f (system w)) as [r s].
Qed.

Section moves.
Context `{Env} `{Sqlite} `{!SqliteLaws}.

Definition store_in (X : string → Prop) (store : Store) : Prop :=
  Forall X (conn_files (connection store)).

Section keeps.
Context {P : Type} (X : string → Prop).
Notation moving m := (moves (keeps X) (m : io P _ _)).

Lemma moves_sql {E A} (l : list string) (f : os → result E A * os) :
  Forall X l → sql_moves (keeps (.∈ l)) f → moving (lift f).
Proof.
  intros Hl Hf. apply moves_lift. eapply sql_moves_weaken; [|done].
  intros d d'. apply keeps_weaken. intros p Hp. rewrite Forall_forall in Hl. auto.
Qed.

Lemma moves_drop_connection {E} c :
  Forall X (conn_files c) → moves (keeps X) (drop_connection c : io P E ()).
Proof.
  intros Hc. unfold drop_connection.
  assert (sql_moves (keeps (.∈ conn_files c)) (λ s, (Ok (E := E) (), sql_drop c s))) as G
    by exact (sql_drop_moves c).
  by eapply moves_sql.
Qed.

Lemma moves_lock_close {E} l : moves (keeps X) (DbLock_close l : io P E _).
Proof. unfold DbLock_close. step_moves. Qed.

Lemma moves_lock_drop {E} l : moves (keeps X) (DbLock_drop l : io P E _).
Proof. pose proof (@moves_lock_close). unfold DbLock_drop. step_moves. Qed.

Lemma moves_drop_lock {E} l : moves (keeps X) (drop_lock l : io P E _).
Proof. destruct l; [apply moves_lock_drop|apply (moves_ret _)]. Qed.

Lemma moves_lock p n : X (lock_path_for p) → moving (DbLock_lock p n).
Proof.
  intros Hx. unfold DbLock_lock, lock_with_delay.
  generalize (@None ioError). generalize (Nat.max n 1). intros k.
  pose proof (moves_open_or_create X (lock_path_for p) Hx (P := P)).
  induction k as [|k IH]; intros e; simpl; step_moves.
Qed.

Lemma moves_store_drop {E} st : store_in X st → moves (keeps X) (Store_drop st : io P E _).
Proof.
  intros Hst. pose proof (moves_drop_connection (E := E) (connection st) Hst).
  pose proof (moves_drop_lock (E := E) (db_lock st)). unfold Store_drop. step_moves.
Qed.

Lemma moves_checkpoint st : store_in X st → moving (checkpoint_wal st).
Proof.
  intros Hst. unfold checkpoint_wal, checkpoint_wal_conn.
  pose proof (moves_sql _ _ Hst (sql_checkpoint_moves (connection st))).
  step_moves.
Qed.

Lemma moves_init_schema st : store_in X st → moving (init_schema st).
Proof.
  intros Hst. unfold init_schema.
  pose proof (moves_sql _ _ Hst (sql_version_moves (connection st))).
  pose proof (λ q, moves_sql _ _ Hst (sql_execute_moves (connection st) q)).
  step_moves.
Qed.

Lemma moves_open_connection p : Forall X (db_files p) → moving (open_connection p).
Proof.
  intros Hp. unfold open_connection. pose proof (moves_sql _ _ Hp (sql_open_moves p)).
  step_moves.
Qed.

End keeps.

(** A store that opens holds a connection to its own files. *)
Lemma open_connection_files {P} p (w : world P) c :
  (open_connection p w).1 = Ok c → conn_files c = db_files p.
Proof.
  assert (∀ w1 : world P, (lift (sql_open p) w1).1 = Ok c → conn_files c = db_files p) as G.
  { intros w1. unfold lift. destruct (sql_open p (system w1)) as [r s] eqn:E. simpl. intros ->.
    apply (sql_open_files p (system w1)). by rewrite E. }
  unfold open_connection, mbind, io_bind. destruct (nonempty_parent p) as [d|]; [|apply G].
  destruct (map_error _ _ w) as [[[]|e] w1]; [apply G|done].
Qed.

(** A fact about the values a program returns may be used for what follows. *)
Lemma moves_bind_result {P E A B} R `{!PreOrder R} (m : io P E A) (f : A → io P E B)
    (Q : A → Prop) :
  moves R m → (∀ w a, (m w).1 = Ok a → Q a) → (∀ a, Q a → moves R (f a)) →
  moves R (m ≫= f).
Proof.
  intros Hm HQ Hf w. specialize (Hm w) as [(t1 & E1 & F1) R1]. specialize (HQ w).
  unfold mbind, io_bind. destruct (m w) as [[a|e] w1]; simpl in *; [|by eauto].
  specialize (Hf a (HQ a eq_refl) w1) as [(t2 & E2 & F2) R2]. split.
  - exists (t2 ++ t1). rewrite E2, E1, app_assoc. split; [done|].
    apply Forall_app. split; [|done]. eapply Forall_impl; [done|]. intros d Hd. by etrans.
  - by etrans.
Qed.

Lemma Store_open_in {P} X p (w : world P) st :
  Forall X (db_files p) → (Store_open p w).1 = Ok st → store_in X st.
Proof.
  intros Hp. unfold Store_open. unfold mbind at 1, io_bind at 1.
  pose proof (open_connection_files p w) as Hc.
  destruct (open_connection p w) as [[c|e] w1]; [|done]. specialize (Hc c eq_refl).
  unfold mbind, io_bind, try. destruct (init_schema _ w1) as [[[]|e] w2]; simpl.
  - intros [= <-]. unfold store_in. simpl. by rewrite Hc.
  - unfold throw. intros ?. repeat case_match; simplify_eq/=.
Qed.

Lemma moves_Store_open {P} X p :
  Forall X (db_files p) → moves (keeps X) (Store_open p : io P _ _).
Proof.
  intros Hp. unfold Store_open.
  apply (moves_bind_result _ _ _ (λ c, conn_files c = db_files p)).
  - by apply moves_open_connection.
  - intros w c. apply open_connection_files.
  - intros c Hc. set (st := MkStore _ c p p None None).
    assert (store_in X st) as Hst by (unfold store_in; simpl; by rewrite Hc).
    pose proof (moves_init_schema X st Hst (P := P)).
    pose proof (moves_store_drop X st Hst (P := P) (E := sql_error)).
    step_moves.
Qed.

End moves.

(* ------------------------------------------------------------------ *)
(** ** The operations of the encrypted store *)

Section operations.
Context `{Crypto} `{Env} `{ProcessEnv} `{Sqlite} `{!SqliteLaws}.
Context (X : string → Prop).
Notation moving m := (moves (keeps X) m).

(** A temporary the operations may use: its database files and its lock. *)
Definition temp_in (p : string) : Prop := Forall X (db_files p) ∧ X (lock_path_for p).

Lemma temp_in_files p :
  Forall X (db_files p) →
  X p ∧ X (path_push p "-wal") ∧ X (path_push p "-shm").
Proof. unfold db_files. rewrite !Forall_cons. naive_solver. Qed.

Lemma moves_cleanup_initializer p : Forall X (db_files p) → moving (cleanup_initializer p).
Proof.
  intros (Hp & Hw & Hs)%temp_in_files. unfold cleanup_initializer.
  pose proof (λ F q Hq, moves_error_of X (remove_if_exists q)
                (moves_remove_if_exists X q Hq (P := globals)) (F := F)) as Hr.
  step_moves.
Qed.

Lemma moves_cleanup_temp_lock {E} p l :
  X (lock_path_for p) → moves (keeps X) (cleanup_temp_lock_after_main p l : io globals E _).
Proof.
  intros Hl. unfold cleanup_temp_lock_after_main.
  pose proof (λ l, moves_lock_close (P := globals) (E := E) X l).
  pose proof (moves_remove_if_exists X _ Hl (P := globals)). step_moves.
Qed.

Lemma moves_cleanup_plain p l : temp_in p → moving (cleanup_plain_temp_with_lock p l).
Proof.
  intros [Hf Hl]. pose proof (temp_in_files p Hf) as (Hp & Hw & Hs).
  unfold cleanup_plain_temp_with_lock.
  pose proof (moves_error_of X _ (moves_remove_if_exists X _ Hp (P := globals)) (F := ioError)).
  pose proof (moves_error_of X _ (moves_remove_wal_siblings X _ Hw Hs (P := globals)) (F := ioError)).
  pose proof (λ l, moves_cleanup_temp_lock (E := ioError) p l Hl).
  pose proof (λ l, moves_drop_lock (P := globals) (E := ioError) X l).
  step_moves.
Qed.

Lemma moves_abandon {A} cleanup label shown e :
  moving cleanup → moving (abandon (A := A) cleanup label shown e).
Proof. intros Hc. unfold abandon. step_moves. Qed.

Lemma moves_registry :
  (∀ E, moving (get_temps (E := E))) ∧ (∀ E m, moving (set_temps (E := E) m)) ∧
  (∀ E r, moving (drop_registration (E := E) r)) ∧
  (∀ E a b c, moving (register_temp (E := E) a b c)) ∧
  (∀ E a b c, moving (retain_failed_close (E := E) a b c)) ∧
  (∀ E a b, moving (remember_recovery_path (E := E) a b)) ∧
  (∀ E a, moving (registered_recovery_paths (E := E) a)) ∧
  moving current_master_key ∧ moving require_master_key ∧ (∀ a b, moving (encrypt_now a b)).
Proof.
  pose proof (λ E l, moves_drop_lock (P := globals) (E := E) X l) as Hd.
  assert (∀ E r, moving (drop_registration (E := E) r)) as Hr.
  { intros E r. specialize (Hd E). unfold drop_registration. step_moves. }
  assert (∀ E, moving (get_temps (E := E))) as Hg by (intros; unfold get_temps; step_moves).
  assert (moving current_master_key) as Hk by (intros w; split; [by exists []|done]).
  split_and!; try done; intros; unfold set_temps, register_temp, retain_failed_close,
    remember_recovery_path, registered_recovery_paths, require_master_key;
    try specialize (Hd E); try specialize (Hr E); try specialize (Hg E); step_moves.
Qed.

(** A failed or finished conversion of the canonical file. *)
Section canonical.
Context (enc : string) (G : bytes → Prop).
Hypothesis Henc : ¬ X enc.
Hypothesis Hprivate : ∀ p, private_name (dir_of enc) p → X p.
Notation following m := (moves (follows X enc G) (m : io globals _ _)).

Lemma moves_transition_or_cleanup c : G c → following (transition_or_cleanup enc c).
Proof.
  intros Hc. unfold transition_or_cleanup.
  apply (moves_bind_result _ _ _
    (λ r, ∀ e p, r = Err e → recovery_path e = Some p → X p)).
  - apply (moves_try _), moves_transition; auto.
  - intros w r. unfold try.
    pose proof (transition_recovery (P := globals) (SE := sql_error) enc c w) as Hg.
    destruct (atomic_transition_with_recovery enc c w) as [[[]|e] w1]; simpl in *;
      intros [= <-] e' p Ee Hp; [done|]. injection Ee as <-. auto.
  - intros [[]|e] He; [apply (moves_ret _)|].
    apply (moves_bind _); [|intros e'; apply (moves_throw _)].
    apply moves_follows; [done|]. apply moves_cleanup_unregistered. eauto.
Qed.

Lemma moves_initialize tmp_dir key :
  (∀ id, Forall X (db_files (path_join tmp_dir (init_name id)))) →
  (∀ n now plain c, encrypt_v3 (entropy n) now plain key = Ok c → G c) →
  following (initialize enc tmp_dir key).
Proof.
  intros Hinit HG. unfold initialize.
  apply (moves_bind _); [apply (moves_next_u64 _)|]. intros id. cbv zeta.
  specialize (Hinit id). set (ip := path_join tmp_dir (init_name id)) in *.
  destruct (temp_in_files _ Hinit) as (Hp & Hw & Hs).
  assert (∀ A label shown e, following (abandon (A := A) (cleanup_initializer ip) label shown e))
    as Hab.
  { intros. apply moves_follows; [done|]. by apply moves_abandon, moves_cleanup_initializer. }
  assert (following (cleanup_initializer ip)) as Hci
    by (apply moves_follows; [done|by apply moves_cleanup_initializer]).
  apply (moves_bind _).
  { apply (moves_map_error _). apply moves_follows; [done|]. by apply moves_create_new. }
  intros _. apply (moves_bind_result _ _ _ (λ r, ∀ st, r = Ok st → store_in X st)).
  { apply (moves_try _), moves_follows; [done|]. by apply moves_Store_open. }
  { intros w r. unfold try. pose proof (λ st, Store_open_in X ip w st Hinit) as Hst.
    destruct (Store_open ip w) as [[st|e] w1]; intros [= <-] st' [= <-]. by apply Hst. }
  intros [st|e] Hst; [|apply Hab]. specialize (Hst st eq_refl).
  assert (following (checkpoint_wal st)) by
    (apply moves_follows; [done|by apply moves_checkpoint]).
  assert (following (Store_drop (E := EncryptedStoreError sql_error) st)) by
    (apply moves_follows; [done|by apply moves_store_drop]).
  apply (moves_bind _); [by apply (moves_try _)|]. intros checked.
  apply (moves_bind _); [done|]. intros _. destruct checked as [_|e]; [|apply Hab].
  apply (moves_bind _); [apply (moves_try _), (moves_read _)|].
  intros [plain|e]; [|apply Hab].
  apply (moves_bind_result _ _ _ (λ r, ∀ c, r = Ok c → G c)).
  { apply (moves_try _), moves_follows; [done|]. apply moves_registry. }
  { intros w r. unfold try, encrypt_now. intros [= <-] c Hc. by eapply HG. }
  intros [c|e] Hc; [|apply Hab]. specialize (Hc c eq_refl).
  apply (moves_bind_result _ _ _ (λ r, ∀ e p, r = Err e → recovery_path e = Some p → X p)).
  { apply (moves_try _), moves_transition; auto. }
  { intros w r. unfold try.
    pose proof (transition_recovery (P := globals) (SE := sql_error) enc c w) as Hg.
    destruct (atomic_transition_with_recovery enc c w) as [[[]|e] w1]; simpl in *;
      intros [= <-] e' p Ee Hp'; [done|]. injection Ee as <-. auto. }
  intros [[]|e] He; [by apply (moves_map_error _)|].
  apply (moves_bind _); [by apply (moves_try _)|]. intros cl.
  apply (moves_bind _).
  { apply moves_follows; [done|]. apply moves_cleanup_unregistered. eauto. }
  intros e'. destruct cl; apply (moves_throw _).
Qed.

Lemma moves_create_decrypted p plain : temp_in p → moving (create_decrypted p plain).
Proof.
  intros Ht. pose proof Ht as [Hf Hl]. destruct (temp_in_files _ Hf) as (Hp & _).
  assert (∀ A label shown e, moving (abandon (A := A) (cleanup_plain_temp p) label shown e))
    as Hab by (intros; by apply moves_abandon, moves_cleanup_plain).
  set (k := λ r : result ioError (), match r with
    | Err e => abandon (cleanup_plain_temp p) "write decrypted temp" (text e) (Io e)
    | Ok _ =>
        locked ← try (DbLock_lock p 1);
        match locked with
        | Ok lock => mret lock
        | Err e =>
            abandon (cleanup_plain_temp p) "lock decrypted temp" (lock_error_display e)
              (Io (io_other ("lock decrypted temp: " +:+ lock_error_display e)))
        end
    end : io globals (EncryptedStoreError sql_error) DbLock).
  assert (moving (temp ← map_error Io (create_new p);
                  try (F := EncryptedStoreError sql_error)
                    (write_all (P := globals) temp plain ;; sync_all temp))) as Hm.
  { apply moves_private; [step_moves|]. intros d0 l0 p0.
    eapply triple_bind; [apply triple_map_error, create_private; done|]. intros h.
    apply (triple_try _ _ _ (λ _ d _ _, evolved X d0 d)).
    eapply triple_bind.
    - eapply triple_conseq; [apply (write_private X d0 h)|done..|]. by intros ???? [? _].
    - intros []. eapply triple_conseq; [apply (sync_private X d0 h)|done|done| |];
        by intros ???? [? _]. }
  assert (∀ r, moving (k r)) as Hk.
  { pose proof (moves_lock (P := globals) X p 1 Hl). intros [|]; unfold k; step_moves. }
  intros w. pose proof (moves_bind _ _ _ Hm Hk w) as Hw.
  unfold create_decrypted. unfold mbind, io_bind in Hw |- *.
  destruct (map_error Io (create_new p) w) as [[h|e] w1]; [|exact Hw].
  destruct (try _ w1) as [[r|e] w2]; exact Hw.
Qed.

End canonical.
End operations.
