(* ===== verification/LifecycleFacts.v ===== *)
(** What the life cycle of the encrypted store guarantees. *)
From S2P Require Import Prelude.
From S2P Require Import Text.
From S2P Require Import Encryption.
From S2P Require Import EncryptionFacts.
From S2P Require Import Disk.
From S2P Require Import DiskFacts.
From S2P Require Import Locking.
From S2P Require Import Transition.
From S2P Require Import PublishFacts.
From S2P Require Import TransitionFacts.
From S2P Require Import Schema.
From S2P Require Import EncryptedStore.
From S2P Require Import StoreLifecycle.
From S2P Require Import LifecycleMoves.

(** ** Programs that leave the process alone *)

Definition silent {P E A} (m : io P E A) : Prop := ∀ w, process (m w).2 = process w.

Section silent.
Context {P : Type}.

Lemma silent_bind {E A B} (m : io P E A) (f : A → io P E B) :
  silent m → (∀ a, silent (f a)) → silent (m ≫= f).
Proof.
  intros Hm Hf w. specialize (Hm w). unfold mbind, io_bind.
  destruct (m w) as [[a|e] w1]; simpl in *; [by rewrite Hf|done].
Qed.

Lemma silent_try {E F A} (m : io P E A) : silent m → silent (try m : io P F _).
Proof. intros Hm w. specialize (Hm w). unfold try. by destruct (m w). Qed.

Lemma silent_map_error {E F A} (f : E → F) (m : io P E A) : silent m → silent (map_error f m).
Proof. intros Hm w. specialize (Hm w). unfold map_error. by destruct (m w). Qed.

Lemma silent_ignore {E F A} (m : io P E A) : silent m → silent (ignore m : io P F ()).
Proof. intros Hm w. specialize (Hm w). unfold ignore. by destruct (m w). Qed.

Lemma silent_for_each {E A} (l : list A) (f : A → io P E ()) :
  (∀ a, silent (f a)) → silent (for_each l f).
Proof.
  intros Hf. induction l as [|a l IH]; simpl; [done|]. by apply silent_bind.
Qed.

Lemma silent_syscall `{Env} {A} failed (op : os → result ioError A * disk * gset nat) :
  silent (syscall failed op : io P _ _).
Proof.
  intros w. unfold syscall. destruct (fault _) as [[e n]|]; [done|].
  by destruct (op (system w)) as [[r d] l].
Qed.

Lemma silent_lift `{Env} `{Sqlite} {E A} (f : os → result E A * os) : silent (lift f : io P E A).
Proof. intros w. unfold lift. by destruct (f (system w)). Qed.
End silent.

Ltac step_silent :=
  repeat first
    [ progress intros
    | match goal with
      | |- silent (match ?x with _ => _ end) => destruct x
      | |- silent (let _ := _ in _) => cbv zeta
      | |- silent (mret _) => done
      | |- silent (throw _) => done
      | |- silent (of_result _) => done
      | |- silent get_process => done
      | |- silent next_u64 => done
      | |- silent (drop_handle _) => done
      | |- silent (syscall _ _) => apply silent_syscall
      | |- silent (lift _) => apply silent_lift
      end
    | eassumption
    | apply silent_bind
    | apply silent_try
    | apply silent_map_error
    | apply silent_ignore
    | apply silent_for_each
    | match goal with H : ∀ _, silent _ |- _ => apply H end
    | progress unfold create_new, write_all, sync_all, set_mode, read, rename, remove_file,
        create_dir_all, set_dir_mode, open_dir, sync_opened_dir, metadata, open_or_create,
        try_lock, unlock, atomically ].

Section locks.
Context {P : Type} `{Env}.

Lemma silent_lock_close {E} l : silent (DbLock_close l : io P E _).
Proof. unfold DbLock_close. step_silent. Qed.

Lemma silent_drop_lock {E} l : silent (drop_lock l : io P E _).
Proof.
  unfold drop_lock, DbLock_drop. pose proof (@silent_lock_close E). step_silent.
Qed.

Lemma silent_lock p n : silent (DbLock_lock p n : io P _ _).
Proof.
  unfold DbLock_lock, lock_with_delay. generalize (@None ioError).
  generalize (Nat.max n 1). intros k. induction k as [|k IH]; intros e; simpl; step_silent.
Qed.

Lemma silent_remove_if_exists p : silent (remove_if_exists p : io P _ _).
Proof. unfold remove_if_exists. step_silent. Qed.

Lemma silent_transition {SE} target c :
  silent (atomic_transition_with_recovery target c : io P (EncryptedStoreError SE) ()).
Proof.
  pose proof silent_remove_if_exists.
  unfold atomic_transition_with_recovery, write_failed, rename_failed, sync_failed,
    write_replacement, write_recovery, error_of, sync_dir, ensure_parent_dir.
  step_silent.
Qed.
End locks.

(** ** Triples from [moves] *)

Lemma triple_and {P E A} (I I' : disk → Prop) (Pre : assertion P) (m : io P E A) Q Q' R R' :
  triple I Pre m Q R → triple I' Pre m Q' R' →
  triple (λ d, I d ∧ I' d) Pre m (λ a d l p, Q a d l p ∧ Q' a d l p)
    (λ e d l p, R e d l p ∧ R' e d l p).
Proof.
  intros H1 H2 w Hw. destruct (H1 w Hw) as [(t & Et & F1) Q1].
  destruct (H2 w Hw) as [(t' & Et' & F2) Q2]. rewrite Et in Et'.
  apply app_inv_tail in Et' as <-. split.
  - exists t. split; [done|]. apply Forall_and. by split.
  - unfold holds in *. by destruct ((m w).1).
Qed.

Section open.
Context `{Crypto} `{!CryptoLaws} `{Env} `{ProcessEnv} `{Sqlite} `{!SqliteLaws}.
Context (X : string → Prop) (enc : string) (G : bytes → Prop) (d0 : disk).
Hypothesis Hok : disk_ok d0.
Hypothesis Henc : ¬ X enc.
Hypothesis Hprivate : ∀ p, private_name (dir_of enc) p → X p.

Notation R := (follows X enc G).
Notation error := (EncryptedStoreError sql_error).

(** The disk follows [R], and the canonical contents satisfy [φ]. *)
Definition at_enc (φ : option bytes → Prop) : assertion globals :=
  λ d _ _, R d0 d ∧ φ (content d enc).

Lemma triple_keeps {E A} (m : io globals E A) φ :
  moves (keeps X) m → triple (R d0) (at_enc φ) m (λ _, at_enc φ) (λ _, at_enc φ).
Proof.
  intros Hm w [Hw Hφ]. destruct (Hm w) as [(t & Et & Ft) Hr].
  assert (∀ d, keeps X (now_disk (system w)) d → R d0 d ∧ φ (content d enc)) as G'.
  { intros d Hd. split; [etrans; [done|by apply keeps_follows]|].
    destruct (Hw Hok) as [Hok1 _]. destruct (Hd Hok1) as [_ K].
    by rewrite (kept_content _ _ _ (K enc Henc)). }
  split.
  - exists t. split; [done|]. eapply Forall_impl; [done|]. intros d Hd. by apply G'.
  - unfold holds, at_enc. destruct ((m w).1); by apply G'.
Qed.

Lemma triple_follows {E A} (m : io globals E A) φ :
  moves R m →
  triple (R d0) (at_enc φ) m (λ _, at_enc (λ _, True)) (λ _, at_enc (λ _, True)).
Proof.
  intros Hm w [Hw Hφ]. destruct (Hm w) as [(t & Et & Ft) Hr]. split.
  - exists t. split; [done|]. eapply Forall_impl; [done|]. intros d Hd. by etrans.
  - unfold holds, at_enc. destruct ((m w).1); (split; [by etrans|done]).
Qed.

(** What a successful replacement of the canonical file adds. *)
Lemma triple_publish c φ :
  G c →
  triple (R d0) (at_enc φ) (atomic_transition_with_recovery enc c : io globals error ())
    (λ _, at_enc (.= Some c)) (λ _, at_enc (λ _, True)).
Proof.
  intros Hc w [Hw Hφ]. pose proof (Hw Hok) as (Hok1 & _).
  destruct (moves_transition (SE := sql_error) (P := globals) X G enc c Hprivate Henc Hc w)
    as [(t & Et & Ft) Hr].
  pose proof (transition_spec (SE := sql_error) (now_disk (system w)) (locked (system w))
    (process w) enc c Hok1 ltac:(auto) w ltac:(done)) as [_ Hp].
  split.
  - exists t. split; [done|]. eapply Forall_impl; [done|]. intros d Hd. by etrans.
  - unfold holds, at_enc in *. destruct ((_ w).1) as [[]|e]; (split; [by etrans|]); [|done].
    by eapply published_content.
Qed.

Lemma triple_publish_or_cleanup c φ :
  G c →
  triple (R d0) (at_enc φ) (transition_or_cleanup enc c : io globals error ())
    (λ _, at_enc (.= Some c)) (λ _, at_enc (λ _, True)).
Proof.
  intros Hc w Hw. pose proof (triple_publish c φ Hc w Hw) as [_ Hp].
  destruct (moves_transition_or_cleanup X enc G Henc Hprivate c Hc w) as [(t & Et & Ft) Hr].
  destruct Hw as [Hw Hφ].
  split.
  - exists t. split; [done|]. eapply Forall_impl; [done|]. intros d Hd. by etrans.
  - revert Hr Et Hp. unfold transition_or_cleanup, try, holds, at_enc.
    unfold mbind, io_bind. destruct (atomic_transition_with_recovery enc c w) as [[[]|e] w1].
    + simpl. tauto.
    + destruct (cleanup_unregistered_recovery e w1) as [[e1|e1] w2]; simpl;
        intros Hr _ _; (split; [by etrans|done]).
Qed.

Lemma triple_read φ :
  triple (R d0) (at_enc φ) (read enc : io globals _ _)
    (λ c, at_enc (λ o, φ o ∧ o = Some c)) (λ e, at_enc φ).
Proof.
  apply triple_atomically; [intros d l p [Hd Hφ]; by split; [|intros; split]|].
  intros s p [Hs Hφ]. cbv zeta. split; [done|].
  destruct (content (now_disk s) enc) eqn:Ec; simpl; unfold at_enc; rewrite ?Ec; auto.
Qed.

(** Weakening of what is known of the canonical contents. *)
Lemma triple_at {E A} (m : io globals E A) (φ φ' : option bytes → Prop) Q S :
  (∀ o, φ o → φ' o) →
  triple (R d0) (at_enc φ') m Q S → triple (R d0) (at_enc φ) m Q S.
Proof.
  intros Hφ Hm. eapply triple_conseq; [exact Hm|done| |done|done].
  intros d l p [? ?]. split; auto.
Qed.

Lemma triple_bind_at {A B} (m : io globals error A) (f : A → io globals error B) φ
    (ψ : A → option bytes → Prop) Q S :
  triple (R d0) (at_enc φ) m (λ a, at_enc (ψ a)) (λ _, at_enc (λ _, True)) →
  (∀ a, triple (R d0) (at_enc (ψ a)) (f a) Q S) →
  (∀ e d l p, at_enc (λ _, True) d l p → S e d l p) →
  triple (R d0) (at_enc φ) (m ≫= f) Q S.
Proof.
  intros Hm Hf HS. eapply triple_bind; [|exact Hf].
  eapply triple_conseq; [exact Hm|done..|]. apply HS.
Qed.

Lemma triple_pure {E A} (Φ : Prop) φ (m : io globals E A) Q S :
  (Φ → triple (R d0) (at_enc φ) m Q S) →
  triple (R d0) (at_enc (λ o, Φ ∧ φ o)) m Q S.
Proof. intros Hm w (Hw & HΦ & Hφ). by apply Hm. Qed.

Lemma keeps_at {E A} (m : io globals E A) φ :
  moves (keeps X) m →
  triple (R d0) (at_enc φ) m (λ _, at_enc φ) (λ _, at_enc (λ _, True)).
Proof.
  intros Hm. eapply triple_conseq; [by apply (triple_keeps m φ)|done..|].
  intros e d l p [? _]. by split.
Qed.

End open.

(* ------------------------------------------------------------------ *)
(** ** Opening *)

(** The entries [open_encrypted] uses beside the canonical one: the private
    names of a replacement, the lock, and the database files and locks of its
    temporaries. *)
Definition open_touches (enc tmp_dir p : string) : Prop :=
  private_name (dir_of enc) p ∨ p = lock_path_for enc ∨
  ∃ id n, (n = init_name id ∨ n = decrypted_name id) ∧
    (p ∈ db_files (path_join tmp_dir n) ∨ p = lock_path_for (path_join tmp_dir n)).

Section opening.
Context `{Crypto} `{!CryptoLaws} `{Env} `{ProcessEnv} `{Sqlite} `{!SqliteLaws}.
Context (enc tmp_dir : string) (d0 : disk).
Notation X := (open_touches enc tmp_dir).
Notation encrypted := (λ b, is_encrypted b = true).
Notation R := (follows X enc encrypted).
Notation error := (EncryptedStoreError sql_error).
Hypothesis Hok : disk_ok d0.
Hypothesis Henc : ¬ X enc.

(** The canonical file is absent, empty or an envelope. *)
Definition no_plaintext (o : option bytes) : Prop :=
  ∀ b, o = Some b → b = [] ∨ is_encrypted b = true.
Hypothesis Hplain : no_plaintext (content d0 enc).

Lemma open_temp_in id n :
  n = init_name id ∨ n = decrypted_name id → temp_in X (path_join tmp_dir n).
Proof.
  intros Hn. split; [apply Forall_forall; intros p Hp|]; right; right; exists id, n; auto.
Qed.

Lemma no_plaintext_stays φ d l p :
  at_enc X enc encrypted d0 φ d l p → at_enc X enc encrypted d0 (λ o, φ o ∧ no_plaintext o) d l p.
Proof.
  intros [Hd Hφ]. split; [done|]. split; [done|].
  destruct (Hd Hok) as (_ & _ & C & _). destruct C as [->|(b & -> & Hb)]; [done|].
  intros b' [= <-]. auto.
Qed.

Lemma encrypt_v3_encrypted n now plain key c :
  encrypt_v3 (entropy n) now plain key = Ok c → is_encrypted c = true ∧ needs_migration c = false.
Proof.
  intros (D & L & _)%encrypt_v3_envelope.
  assert (is_encrypted c = true) as He by (unfold is_encrypted; by rewrite D).
  split; [done|]. unfold needs_migration.
  rewrite (start_with_header V1), (start_with_header V2), D, L. by rewrite andb_comm.
Qed.

(** The state [open_encrypted] leaves on success. *)
Definition opened (st : Store) : assertion globals := λ d l p,
  (∃ c key plain, content d enc = Some c ∧ needs_migration c = false ∧
     decrypt_any c key = Ok plain) ∧
  encrypted_path st = Some enc ∧ is_Some (db_lock st) ∧
  ∃ tl, encrypted_temps p !! enc = Some (MkTemp (sqlite_path st) true None (Some tl) []).

Lemma register_temp_opened st tl φ :
  triple (R d0) (at_enc X enc encrypted d0 φ)
    (register_temp (E := error) enc (sqlite_path st) tl)
    (λ _ d l p, at_enc X enc encrypted d0 φ d l p ∧
       encrypted_temps p !! enc = Some (MkTemp (sqlite_path st) true None (Some tl) []))
    (λ _, at_enc X enc encrypted d0 φ).
Proof.
  intros w Hw.
  pose proof (triple_keeps X enc encrypted d0 Hok Henc (register_temp (E := error) enc (sqlite_path st) tl) φ
    ltac:(apply moves_registry) w Hw) as [Ht Hq].
  split; [done|]. revert Hq.
  unfold register_temp, get_temps, set_temps. unfold mbind, io_bind. simpl.
  set (w1 := World _ _).
  assert (process (drop_registration (E := error) (encrypted_temps (process w) !! enc) w1).2
          = process w1) as Hs.
  { unfold drop_registration. destruct (encrypted_temps (process w) !! enc); [|done].
    apply silent_bind; [apply silent_drop_lock|intros; apply silent_drop_lock]. }
  destruct (drop_registration _ w1) as [[[]|e] w2]; simpl in *; [|done].
  intros Hq. split; [done|]. unfold holds in *. rewrite Hs. simpl. by rewrite lookup_insert_eq.
Qed.

Notation at_enc' := (at_enc X enc encrypted d0).

Lemma keeps_enc {E A} (m : io globals E A) φ :
  moves (keeps X) m →
  triple (R d0) (at_enc' φ) m (λ _, at_enc' φ) (λ _, at_enc' (λ _, True)).
Proof. by apply keeps_at. Qed.

Lemma private_touched p : private_name (dir_of enc) p → X p.
Proof. by left. Qed.

Lemma read_or_empty_spec :
  triple (R d0) (at_enc' no_plaintext) (read_or_empty enc)
    (λ raw, at_enc' (λ _, raw = [] ∨ is_encrypted raw = true)) (λ _, at_enc' (λ _, True)).
Proof.
  unfold read_or_empty, read_or.
  eapply (triple_bind_at _ _ _ _ _ _ _ (λ r o, ∀ raw, r = Ok raw → raw = [] ∨ is_encrypted raw = true)).
  - apply (triple_try _ _ _ (λ r, at_enc' (λ o, ∀ raw, r = Ok raw → raw = [] ∨ is_encrypted raw = true))).
    eapply triple_conseq; [apply (triple_read X enc encrypted d0 no_plaintext)|done|done| |].
    + intros raw d l p [? [Hn Ho]]. split; [done|]. intros raw' [= <-]. by apply Hn.
    + intros e d l p [? _]. by split.
  - intros [raw|e]; [|case_bool_decide].
    + apply triple_ret. intros d l p [? Hr]. split; [done|]. by apply Hr.
    + apply triple_ret. intros d l p [? Hr]. split; [done|]. by left.
    + apply triple_throw. intros d l p [? Hr]. by split.
  - done.
Qed.

Lemma migrate_envelope_spec c key :
  triple (R d0) (at_enc' (.= Some c)) (migrate_envelope enc c key)
    (λ c', at_enc' (λ o, o = Some c' ∧ needs_migration c' = false))
    (λ _, at_enc' (λ _, True)).
Proof.
  pose proof private_touched as Hprivate.
  unfold migrate_envelope.
  eapply triple_bind_at; [refine (keeps_enc _ _ _); apply (moves_map_error _), (moves_of_result _)| |done].
  intros plain. eapply (triple_bind_at _ _ _ _ _ _ _ (λ c' _,
      (is_encrypted c' = true ∧ needs_migration c' = false) ∧ True)); [| |done].
  - apply triple_map_error. intros w [Hw _]. split; [by exists []|].
    unfold encrypt_now, holds, at_enc. simpl. destruct (encrypt_v3 _ _ _ _) eqn:Ec; [|by split].
    split; [done|]. split; [|done]. by eapply encrypt_v3_encrypted.
  - intros migrated. apply triple_pure. intros [Hm Hn].
    eapply triple_bind_at; [by apply triple_publish_or_cleanup| |done].
    intros []. apply triple_ret. intros d l p [? Ho]. split; [done|]. by split.
Qed.

Lemma Store_open_path {P} p (w : world P) st :
  (Store_open p w).1 = Ok st → sqlite_path st = p.
Proof.
  unfold Store_open, mbind, io_bind, try, throw. intros E.
  repeat case_match; simplify_eq/=; done.
Qed.

Lemma open_locked_spec lock :
  triple (R d0) (at_enc' no_plaintext) (open_locked enc tmp_dir lock)
    (λ st d l p, at_enc' (λ _, True) d l p ∧ opened st d l p)
    (λ _, at_enc' (λ _, True)).
Proof.
  pose proof private_touched as Hprivate.
  unfold open_locked.
  eapply triple_bind_at; [refine (keeps_enc _ _ _); apply moves_registry| |done]. intros key.
  eapply triple_bind_at; [apply read_or_empty_spec| |done]. intros raw.
  eapply (triple_bind_at _ _ _ _ _ _ _ (λ _ _, True)); [| |done].
  { destruct (bool_decide (raw = [])) eqn:Hr.
    - eapply triple_conseq; [apply (triple_follows X enc encrypted d0 _ (λ _, raw = [] ∨ is_encrypted raw = true))|done..].
      apply moves_initialize; [done|done| |].
      + intros id. apply (open_temp_in id (init_name id)). by left.
      + intros n now plain c. apply encrypt_v3_encrypted.
    - apply bool_decide_eq_false in Hr. destruct (is_encrypted raw) eqn:He; simpl.
      + apply triple_ret. intros d l p [? _]. by split.
      + intros w [_ [|]]; done. }
  intros []. eapply (triple_bind_at _ _ _ _ _ _ _ (λ c o, True ∧ o = Some c)); [| |done].
  { apply triple_map_error, (triple_read X enc encrypted d0 (λ _, True)). }
  intros c. simpl.
  eapply (triple_bind_at _ _ _ _ _ _ _ (λ c' o, o = Some c' ∧ needs_migration c' = false)); [| |done].
  { destruct (needs_migration c) eqn:Hm.
    - eapply triple_at; [|apply migrate_envelope_spec]. tauto.
    - apply triple_ret. intros d l p [? [_ ?]]. by split. }
  intros c'. eapply (triple_bind_at _ _ _ _ _ _ _ (λ plain o,
    (o = Some c' ∧ needs_migration c' = false) ∧ decrypt_any c' key = Ok plain)); [| |done].
  { apply triple_map_error, triple_of_result. intros d l p [? ?].
    destruct (decrypt_any c' key); by split. }
  intros plain. eapply triple_bind_at; [refine (keeps_enc _ _ _); apply (moves_next_u64 _)| |done].
  intros id. cbv zeta. set (tmp := path_join tmp_dir (decrypted_name id)).
  assert (temp_in X tmp) as Ht by (apply (open_temp_in id (decrypted_name id)); by right).
  eapply triple_bind_at; [by refine (keeps_enc _ _ _); apply moves_create_decrypted| |done].
  intros tl. set (φ := λ o : option bytes, (o = Some c' ∧ needs_migration c' = false) ∧ decrypt_any c' key = Ok plain).
  apply (triple_bind _ _ _ _ (λ r d l p, at_enc' φ d l p ∧
    match r with Ok st => sqlite_path st = tmp | Err _ => True end)).
  { intros w Hw. destruct (triple_keeps X enc encrypted d0 Hok Henc
      (try (F := error) (Store_open (P := globals) tmp)) φ
      (moves_try _ _ (moves_Store_open X tmp (proj1 Ht))) w Hw) as [Htr Hq].
    split; [done|]. pose proof (Store_open_path (P := globals) tmp w) as Hp.
    unfold try in *. destruct (Store_open tmp w) as [[st|e] w1]; simpl in *; (split; [done|]); [|done].
    by apply Hp. }
  intros [st|e].
  2:{ apply (triple_bind _ _ _ _ (λ _, at_enc' (λ _, True))).
      - eapply triple_conseq; [apply (keeps_enc _ φ)|done| | |done].
        + by apply (moves_try _), moves_cleanup_plain.
        + by intros d l p [? _].
        + intros _ d l p [? _]. by split.
      - intros [|]; by apply triple_throw. }
  cbv zeta. apply (triple_bind _ _ _ _ (λ _ d l p, at_enc' φ d l p ∧ sqlite_path st = tmp ∧
    encrypted_temps p !! enc = Some (MkTemp tmp true None (Some tl) []))).
  - intros w [Hw Hst]. rewrite <- Hst. destruct (register_temp_opened st tl φ w Hw) as [Htr Hq].
    split; [done|]. destruct ((register_temp enc (sqlite_path st) tl w).1) as [[]|e].
    + destruct Hq as [? ?]. by split_and!.
    + by destruct Hq.
  - intros []. apply triple_ret. intros d l p ([Hd [[Hc Hm] Hk]] & Hst & Hreg).
    split; [by split|]. split_and!; [by exists c', key, plain|done|by eexists|].
    by exists tl.
Qed.

(** The parts before the lock touch no entry at all. *)
Lemma moves_ensure (e : string) :
  moves (keeps X) (ensure_parent_of e : io globals error ()) ∧
  moves (keeps X) (ensure_private_dir tmp_dir : io globals _ ()).
Proof. unfold ensure_parent_of, ensure_private_dir, ensure_parent_dir. split; step_moves. Qed.

Lemma open_encrypted_spec :
  triple (R d0) (λ d l p, d = d0) (open_encrypted enc tmp_dir)
    (λ st d l p, at_enc' (λ _, True) d l p ∧ opened st d l p)
    (λ _, at_enc' (λ _, True)).
Proof.
  destruct (moves_ensure enc) as [M1 M2]. unfold open_encrypted.
  apply (triple_weaken_pre _ _ _ (at_enc' no_plaintext)).
  { intros d l p ->. exact (conj (reflexivity d0 : R d0 d0) Hplain). }
  eapply triple_bind_at; [refine (keeps_enc _ _ _); apply (moves_of_result _)| |done]. intros [].
  eapply triple_bind_at; [by refine (keeps_enc _ _ _)| |done]. intros [].
  eapply triple_bind_at; [by refine (keeps_enc _ _ _); apply (moves_map_error _)| |done]. intros [].
  eapply triple_bind_at.
  { refine (keeps_enc _ _ _). apply (moves_map_error _), moves_lock. right. by left. }
  2: done.
  intros lock. unfold on_error.
  apply (triple_bind _ _ _ _ (λ r d l p, at_enc' (λ _, True) d l p ∧
    match r with Ok st => opened st d l p | Err _ => True end)).
  { apply triple_try. eapply triple_conseq; [apply open_locked_spec|done..|]. by intros. }
  intros [st|e]; [by apply triple_ret|].
  apply (triple_bind _ _ _ _ (λ _, at_enc' (λ _, True))).
  - eapply triple_conseq; [apply (keeps_enc (E := error) (DbLock_drop lock) (λ _, True))|done| |done|done].
    + apply moves_lock_drop.
    + by intros d l p [? _].
  - intros []. by apply triple_throw.
Qed.

End opening.

Section open_properties.
Context `{Crypto} `{!CryptoLaws} `{Env} `{ProcessEnv} `{Sqlite} `{!SqliteLaws}.


End open_properties.
