(* ===== verification/CloseFacts.v ===== *)
(** Closing and finalising: no committed data is lost between the private
    temporary and the canonical file, and a failed close stays retryable. *)
From S2P Require Import Prelude.
From S2P Require Import Text.
From S2P Require Import Encryption.
From S2P Require Import EncryptionFacts.
From S2P Require Import Disk.
From S2P Require Import DiskFacts.
From S2P Require Import Locking.
From S2P Require Import Transition.
From S2P Require Import PublishFacts.
From S2P Require Import TransitionFacts.
From S2P Require Import Schema.
From S2P Require Import EncryptedStore.
From S2P Require Import StoreLifecycle.
From S2P Require Import LifecycleMoves.
From S2P Require Import LifecycleFacts.

(** The system says [NotFound] only of what is not there. *)
Definition honest `{Env} : Prop := ∀ n e k, fault n = Some (e, k) → kind e ≠ NotFound.

(** The target's directory is there and survives a crash. *)
Definition durable_dir (d : disk) (p : string) : Prop :=
  dir_of p ∈ dirs d ∧ dir_of p ∉ fresh_dirs d.

(** The names a publication of [tmp] at [enc] may not coincide with. *)
Record apart (enc tmp : string) (recovery : list string) : Prop := {
  ap_private p : private_name (dir_of enc) p → p ≠ enc ∧ p ≠ tmp;
  ap_enc_sidecars : path_push enc "-wal" ≠ enc ∧ path_push enc "-shm" ≠ enc;
  ap_tmp : Forall (.≠ enc) (db_files tmp) ∧ lock_path_for tmp ≠ enc ∧ lock_path_for tmp ≠ tmp;
  ap_recovery : Forall (.≠ enc) recovery;
}.

Section publish.
Context `{Crypto} `{!CryptoLaws} `{Env} `{ProcessEnv} `{Sqlite} `{!SqliteLaws}.
Context (enc tmp : string) (d0 : disk) (l0 : gset nat) (p0 : globals) (key plain : bytes).
Notation error := (EncryptedStoreError sql_error).

Definition recovery_of (p : globals) : list string :=
  default [] (recovery_paths <$> encrypted_temps p !! enc).

Hypothesis Hok : disk_ok d0.
Hypothesis Happart : apart enc tmp (recovery_of p0).
Hypothesis Hplain : content d0 tmp = Some plain.

(** [c] decrypts to the temporary's contents. *)
Definition seals (c : bytes) : Prop := decrypt_any c key = Ok plain.

(** The canonical file holds [c], also after a crash. *)
Definition on_disk (c : bytes) (d : disk) : Prop :=
  content d enc = Some c ∧
  (durable_dir d0 enc → ∀ o, after_crash d enc o → o = Some c).

(** At no time are both the plaintext and its sealed copy missing. *)
Definition never_lost (d : disk) : Prop :=
  (∀ o, after_crash d enc o → after_crash d0 enc o ∨ ∃ c, o = Some c ∧ seals c) ∧
  (kept tmp d0 d ∨ ∃ c, seals c ∧ on_disk c d).

Definition published_at (c : bytes) : assertion globals := λ d l p,
  disk_ok d ∧ seals c ∧ on_disk c d ∧
  (∀ o, after_crash d enc o → after_crash d0 enc o ∨ o = Some c).

Lemma published_never_lost c d l p : published_at c d l p → never_lost d.
Proof.
  intros (_ & Hs & Hd & Ha). split; [|right; by exists c].
  intros o [?| ->]%Ha; eauto.
Qed.

(** What only touches other entries keeps the published state. *)
Lemma triple_published {E A} (m : io globals E A) c q0 :
  moves (keeps (.≠ enc)) m → silent m →
  triple never_lost (λ d l p, published_at c d l p ∧ p = q0) m
    (λ _ d l p, published_at c d l p ∧ p = q0) (λ _ d l p, published_at c d l p ∧ p = q0).
Proof.
  intros Hm Hs w [(Hd & Hc & Ho & Ha) Hp]. destruct (Hm w) as [(t & Et & Ft) Hr].
  assert (∀ d l p, keeps (.≠ enc) (now_disk (system w)) d → published_at c d l p) as G.
  { intros d l p Hk. destruct (Hk Hd) as [Hd' K]. destruct (K enc ltac:(by intros X; apply X)) as [Kc Kr].
    destruct Ho as [Ho1 Ho2]. split_and!; [done|done| |auto]. split; [congruence|auto]. }
  split.
  - exists t. split; [done|]. eapply Forall_impl; [exact Ft|]. intros d Hk.
    by apply (published_never_lost c d ∅ p0), G.
  - specialize (Hs w). unfold holds. destruct ((m w).1); (split; [by apply G|congruence]).
Qed.

Lemma remove_if_exists_gone path (Q : assertion globals) (R : ioError → assertion globals) I0 Pre :
  honest →
  triple I0 Pre (remove_if_exists path) (λ _, Q) R →
  triple I0 Pre (remove_if_exists path) (λ _ d l p, Q d l p ∧ names d !! path = None) R.
Proof.
  intros Hh Ht w Hw. destruct (Ht w Hw) as [Htr Hq]. split; [done|].
  unfold holds in *. revert Hq.
  unfold remove_if_exists, mbind, io_bind, try, remove_file, atomically, syscall.
  destruct (fault _) as [[e n]|] eqn:Hf.
  - simpl. case_bool_decide as Hk; [by destruct (Hh _ _ _ Hf)|done].
  - simpl. destruct (names _ !! path) as [i|] eqn:Hn; simpl.
    + intros Hq. split; [done|]. by rewrite lookup_delete_eq.
    + intros Hq. by split.
Qed.

(** Dropping locks never fails. *)
Lemma gives_lock_close {E} l : gives (DbLock_close l : io globals E _) (λ _, True) (λ _, False).
Proof.
  unfold DbLock_close. destruct (lock_file l); [|by apply gives_ret].
  eapply gives_bind; [apply gives_try|]. intros [|] _; [|by apply gives_ret].
  eapply (gives_bind _ _ (λ _, True)); [by intros w|]. intros [] _. by apply gives_ret.
Qed.

Lemma gives_drop_lock {E} l : gives (drop_lock l : io globals E _) (λ _, True) (λ _, False).
Proof.
  destruct l as [l|]; [|by apply gives_ret]. eapply gives_bind; [apply gives_lock_close|].
  intros [r l'] _. cbn beta iota. destruct (lock_file l'); [by intros w|by apply gives_ret].
Qed.

Lemma gives_cleanup_lock {E} p l :
  gives (cleanup_temp_lock_after_main p l : io globals E _) (λ _, True) (λ _, False).
Proof.
  destruct l as [l|]; [|by apply gives_ret]. eapply gives_bind; [apply gives_lock_close|].
  intros [r l'] _. cbn beta iota. eapply (gives_bind _ _ (λ _, True)).
  - destruct (is_ok r); [|by apply gives_ret]. intros w. unfold ignore.
    by destruct (remove_if_exists (lock_path_for p) w).
  - intros [] _. by apply gives_ret.
Qed.

(** Forgetting a registration: its lock file goes, the globals lose the key. *)
Definition forget_registration {E} : io globals E () :=
  registration ← unregister_temp enc; drop_registration registration.

Definition forgotten (p : globals) : globals :=
  Globals (master_key_provider p) (direct_master_key p) (delete enc (encrypted_temps p)).

(** What is done with the removed registration. *)
Definition forget_body {E} (reg : RegisteredTemp) : io globals E () :=
  match temp_lock reg with
  | Some lock => lock ← cleanup_temp_lock_after_main (tmp_path reg) (Some lock); drop_lock lock
  | None => mret ()
  end ;;
  drop_lock (reg_lock reg) ;;
  drop_lock None.

Lemma forget_eq {E} (w : world globals) :
  forget_registration (E := E) w =
  match encrypted_temps (process w) !! enc with
  | None => (Ok (), w)
  | Some reg => forget_body reg (World (system w) (forgotten (process w)))
  end.
Proof.
  unfold forget_registration, unregister_temp.
  destruct (encrypted_temps (process w) !! enc) as [reg|] eqn:He.
  2:{ unfold get_temps, mbind, io_bind. simpl. by rewrite He. }
  unfold forget_body. generalize (cleanup_temp_lock_after_main (E := E)). intros c.
  unfold get_temps, mbind, io_bind. simpl. rewrite He. simpl. fold (forgotten (process w)).
  destruct (temp_lock reg) as [tl|]; [|done].
  destruct (c _ _ _) as [[l|e] w2]; [|done].
  by destruct (drop_lock (E := E) l w2) as [[[]|e] w3].
Qed.

Lemma forget_body_silent {E} reg : silent (forget_body (E := E) reg).
Proof.
  unfold forget_body, cleanup_temp_lock_after_main.
  pose proof (λ l, silent_drop_lock (P := globals) (E := E) l).
  pose proof (silent_lock_close (P := globals) (E := E)).
  pose proof (silent_remove_if_exists (P := globals)). step_silent.
Qed.

Lemma forget_body_ok {E} reg : gives (forget_body (E := E) reg) (λ _, True) (λ _, False).
Proof.
  apply (gives_bind _ _ (λ _, True)); [|intros [] _; eapply gives_bind;
    [apply gives_drop_lock|intros [] _; apply gives_drop_lock]].
  destruct (temp_lock reg) as [lock|]; [|by apply gives_ret].
  eapply gives_bind; [apply gives_cleanup_lock|intros l _; apply gives_drop_lock].
Qed.

Lemma forgotten_absent p : encrypted_temps p !! enc = None → forgotten p = p.
Proof.
  intros He. unfold forgotten. rewrite delete_id by done. by destruct p.
Qed.

(** It always succeeds, and leaves the other registrations. *)
Lemma forget_process {E} (w : world globals) :
  (forget_registration (E := E) w).1 = Ok () ∧
  process (forget_registration (E := E) w).2 = forgotten (process w).
Proof.
  rewrite forget_eq. destruct (encrypted_temps (process w) !! enc) as [reg|] eqn:He.
  - pose proof (forget_body_silent (E := E) reg (World (system w) (forgotten (process w)))) as Hs.
    pose proof (forget_body_ok (E := E) reg (World (system w) (forgotten (process w)))) as Hg.
    split; [|exact Hs]. revert Hg. by destruct ((forget_body reg _).1) as [[]|].
  - split; [done|]. by rewrite forgotten_absent.
Qed.

Lemma forget_spec {E} (w : world globals) :
  (∀ reg, encrypted_temps (process w) !! enc = Some reg → tmp_path reg = tmp) →
  let w' := (forget_registration (E := E) w).2 in
  (∃ t, history (system w') = t ++ history (system w) ∧
        Forall (keeps (.= lock_path_for tmp) (now_disk (system w))) t) ∧
  keeps (.= lock_path_for tmp) (now_disk (system w)) (now_disk (system w')).
Proof.
  intros Hreg. cbv zeta. rewrite forget_eq.
  destruct (encrypted_temps (process w) !! enc) as [reg|] eqn:He;
    [|split; [by exists []|simpl; reflexivity]].
  assert (moves (keeps (.= lock_path_for tmp)) (forget_body (E := E) reg)) as Hb.
  { unfold forget_body. rewrite (Hreg reg eq_refl).
    pose proof (λ l, moves_cleanup_temp_lock (.= lock_path_for tmp) (E := E) tmp l eq_refl).
    pose proof (λ l, moves_drop_lock (P := globals) (E := E) (.= lock_path_for tmp) l).
    step_moves. }
  exact (Hb (World (system w) (forgotten (process w)))).
Qed.

Hypothesis Hreg : ∀ reg, encrypted_temps p0 !! enc = Some reg → tmp_path reg = tmp.
Hypothesis Hhonest : honest.

(** The cleanup that follows a successful replacement. *)
Definition after_publication (recovery : list string) : io globals error () :=
  map_error Io (cleanup_recovery_paths recovery) ;;
  map_error Io (remove_wal_siblings enc) ;;
  map_error Io (cleanup_plain_temp tmp) ;;
  forget_registration.

Lemma triple_published_any {E A} (m : io globals E A) c (Q : A → Prop) :
  moves (keeps (.≠ enc)) m → silent m → gives m Q (λ _, True) →
  triple never_lost (λ d l p, published_at c d l p ∧ p = p0) m
    (λ a d l p, (published_at c d l p ∧ p = p0) ∧ Q a)
    (λ _ d l p, published_at c d l p ∧ p = p0).
Proof.
  intros Hm Hs Hg w Hw. destruct (triple_published m c p0 Hm Hs w Hw) as [Ht Hq].
  specialize (Hg w). split; [done|]. unfold holds in *. by destruct ((m w).1).
Qed.

(** A successful cleanup of the temporary removes it. *)
Lemma cleanup_plain_temp_spec c :
  triple never_lost (λ d l p, published_at c d l p ∧ p = p0) (cleanup_plain_temp tmp)
    (λ _ d l p, (published_at c d l p ∧ p = p0) ∧ content d tmp = None)
    (λ _ d l p, published_at c d l p ∧ p = p0).
Proof.
  destruct Happart as [Hpr [Hw Hs] [Ht [Hl Hlt]] Hr].
  unfold db_files in Ht. rewrite !Forall_cons in Ht. destruct Ht as (Ht & Htw & Hts & _).
  unfold cleanup_plain_temp, cleanup_plain_temp_with_lock, error_of.
  eapply triple_bind.
  { apply triple_published.
    - apply moves_error_of, moves_remove_wal_siblings; done.
    - unfold error_of, remove_wal_siblings. step_silent. }
  intros siblings.
  apply (triple_bind _ _ _ _ (λ m d l p, (published_at c d l p ∧ p = p0) ∧
    (m = None → content d tmp = None))).
  { apply (triple_bind _ _ _ _ (λ r d l p, (published_at c d l p ∧ p = p0) ∧
      (r = Ok () → content d tmp = None))).
    - apply (triple_try _ _ _ (λ r d l p, (published_at c d l p ∧ p = p0) ∧
        (r = Ok () → content d tmp = None))).
      assert (triple never_lost (λ d l p, published_at c d l p ∧ p = p0) (remove_if_exists tmp)
                (λ _ d l p, (published_at c d l p ∧ p = p0) ∧ names d !! tmp = None)
                (λ _ d l p, published_at c d l p ∧ p = p0)) as Hrm.
      { apply remove_if_exists_gone; [done|]. apply triple_published;
          [by apply moves_remove_if_exists|apply silent_remove_if_exists]. }
      eapply triple_conseq; [exact Hrm|done|done| |].
      + intros [] d l p [? Hn]. split; [done|]. intros _. unfold content. by rewrite Hn.
      + intros e d l p ?. by split.
    - intros r. apply triple_ret. intros d l p [? Hc]. split; [done|].
      destruct r as [[]|]; [auto|done]. }
  intros main.
  apply (triple_bind _ _ _ _ (λ o d l p, ((published_at c d l p ∧ p = p0) ∧
    (main = None → content d tmp = None)) ∧ o = None)).
  { destruct main; by apply triple_ret. }
  intros o. apply (triple_bind _ _ _ _ (λ _ d l p, (published_at c d l p ∧ p = p0) ∧
    (main = None → content d tmp = None))).
  { intros w [? ->]. split; [by exists []|done]. }
  intros []. destruct main as [e|].
  - apply triple_throw. by intros d l p [? _].
  - destruct siblings; [by apply triple_throw; intros d l p [? _]|].
    apply triple_ret. intros d l p [? Hc]. auto.
Qed.

Lemma after_publication_spec c :
  triple never_lost (λ d l p, published_at c d l p ∧ p = p0)
    (after_publication (recovery_of p0))
    (λ _ d l p, published_at c d l p ∧ p = forgotten p0 ∧ content d tmp = None)
    (λ _ d l p, published_at c d l p ∧ p = p0).
Proof.
  destruct Happart as [Hpr [Hw Hs] [Ht [Hl Hlt]] Hr]. unfold after_publication.
  eapply triple_bind.
  { apply triple_published.
    - apply (moves_map_error _), moves_cleanup_recovery_paths. done.
    - unfold cleanup_recovery_paths. pose proof silent_remove_if_exists (P := globals).
      step_silent. }
  intros []. eapply triple_bind.
  { apply triple_published.
    - apply (moves_map_error _), moves_remove_wal_siblings; done.
    - unfold remove_wal_siblings. step_silent. }
  intros []. eapply triple_bind; [apply triple_map_error, cleanup_plain_temp_spec|].
  intros [] w [[Hp Hq] Hc].
  destruct (forget_process (E := error) w) as [Hok' Hpr'].
  destruct (forget_spec (E := error) w) as (Htr & Hk).
  { intros reg Hg. apply Hreg. by rewrite Hq in Hg. }
  assert (∀ d, keeps (.= lock_path_for tmp) (now_disk (system w)) d →
            (∀ l q, published_at c d l q) ∧ content d tmp = None) as G.
  { intros d Hd. destruct Hp as (Hd1 & Hs1 & [Ho1 Ho2] & Ha). destruct (Hd Hd1) as [Hd2 K].
    destruct (K enc ltac:(congruence)) as [Kc Kr].
    destruct (K tmp ltac:(congruence)) as [Kt _]. split; [|congruence].
    intros l q. split_and!; [done|done| |auto]. split; [congruence|auto]. }
  split.
  - destruct Htr as (t & Et & Ft). exists t. split; [done|].
    eapply Forall_impl; [exact Ft|]. intros d [Hd _]%G. by apply (published_never_lost c d ∅ p0).
  - unfold holds. rewrite Hok'.
    destruct (G _ Hk) as [G1 G2]. split_and!; [apply G1| |done]. rewrite Hpr'.
    unfold holds in Hq. by rewrite Hq.
Qed.

(** The replacement of the canonical file by the sealed copy. *)
Lemma seal_transition_spec c :
  seals c →
  triple never_lost (λ d l p, d = d0 ∧ l = l0 ∧ p = p0)
    (atomic_transition_with_recovery enc c : io globals error ())
    (λ _ d l p, published_at c d l p ∧ p = p0)
    (λ _ d l p, never_lost d ∧ p = p0).
Proof.
  intros Hs. destruct Happart as [Hpr _ [Ht _] _].
  apply Forall_inv in Ht.
  assert (¬ private_name (dir_of enc) enc) as Hp1 by (intros X; by apply Hpr in X as []).
  assert (¬ private_name (dir_of enc) tmp) as Hp2 by (intros X; by apply Hpr in X as []).
  assert (∀ d, crash_safe (private_name (dir_of enc)) d0 enc c d → never_lost d) as Hn.
  { intros d (C & A & K). split.
    - intros o [?|?]%A; eauto.
    - left. apply K. intros [|]; done. }
  intros w Hw.
  destruct (transition_spec (SE := sql_error) d0 l0 p0 enc c Hok Hp1 w Hw) as [(t & Et & Ft) Hr].
  pose proof Hw as (Hwd & _ & Hwp).
  destruct (moves_ok_transition (P := globals) (SE := sql_error) enc c w) as [_ Hok'].
  rewrite Hwd in Hok'. specialize (Hok' Hok).
  pose proof (silent_transition (P := globals) (SE := sql_error) enc c w) as Hsil.
  split.
  - exists t. split; [done|]. eapply Forall_impl; [exact Ft|]. apply Hn.
  - unfold holds in *. destruct ((_ w).1) as [[]|e].
    + pose proof (published_safe _ _ _ _ _ _ Hok _ _ _ _ Hr) as (_ & A & _).
      split; [|congruence]. split_and!; [done|done| |done].
      split; [by eapply published_content|]. intros [Hdir Hfr] o Ho.
      pose proof Hr as (Ev & _).
      eapply published_durable in Ho as [?|[_ Hl]]; [done| |exact Hr].
      by destruct (ev_fresh _ _ _ Ev _ Hl).
    + split; [|congruence]. apply Hn. destruct e; simpl in Hr; try done.
      * by eapply unpublished_safe.
      * destruct Hr as (_ & Hr & _). by eapply published_safe.
      * destruct Hr as [Hr _]. by eapply unpublished_safe.
Qed.

Lemma publish_temp_spec :
  triple never_lost (λ d l p, d = d0 ∧ l = l0 ∧ p = p0) (publish_temp enc tmp key)
    (λ _ d l p, (∃ c, published_at c d l p) ∧ p = forgotten p0 ∧ content d tmp = None)
    (λ _ d l p, never_lost d ∧ p = p0).
Proof.
  assert (never_lost d0) as Hn0 by (split; [auto|left; by split]).
  unfold publish_temp.
  apply (triple_bind _ _ _ _ (λ b d l p, (d = d0 ∧ l = l0 ∧ p = p0) ∧ b = plain)).
  { apply triple_map_error. apply triple_atomically.
    - by intros d l p (-> & -> & ->).
    - intros s p (Hd & Hl & ->). cbv zeta. rewrite Hd, Hl, Hplain. simpl. auto. }
  intros b. apply (triple_bind _ _ _ _ (λ c d l p, (d = d0 ∧ l = l0 ∧ p = p0) ∧ seals c)).
  { apply triple_map_error. intros w [Hw ->]. split; [by exists []|].
    unfold holds, encrypt_now in *. simpl. destruct Hw as (Hd & Hl & Hp).
    destruct (encrypt_v3 _ _ _ _) eqn:Ec; [|by rewrite Hd].
    split; [done|]. by apply encrypt_v3_envelope in Ec as (_ & _ & Ec). }
  intros c. apply triple_pre. intros d1 l1 p1 [(-> & -> & ->) Hc].
  eapply triple_bind.
  { eapply triple_conseq; [by apply (seal_transition_spec c)|done|done|done|]. done. }
  intros []. intros w [Hw Hp]. pose proof (after_publication_spec c w (conj Hw Hp)) as [Ht Hq].
  assert ((paths ← registered_recovery_paths (E := error) enc;
           map_error Io (cleanup_recovery_paths paths) ;;
           map_error Io (remove_wal_siblings enc) ;;
           map_error Io (cleanup_plain_temp tmp) ;;
           registration ← unregister_temp enc; drop_registration registration) w
          = after_publication (recovery_of p0) w) as Eq.
  { unfold registered_recovery_paths, get_temps, recovery_of. unfold holds in Hp. rewrite <- Hp.
    reflexivity. }
  rewrite Eq. split; [done|]. destruct ((after_publication _ w).1) as [[]|e].
  - destruct Hq as (? & ? & ?). split_and!; [by exists c|done|done].
  - destruct Hq as [Hq ?]. split; [by eapply published_never_lost|done].
Qed.

End publish.

(* ------------------------------------------------------------------ *)
(** ** Closing and finalising *)

(** What a run does to the globals, from [p0]. *)
Definition outcome {P E A} (p0 : P) (m : io P E A) (Q : A → P → Prop) (R : E → P → Prop) : Prop :=
  ∀ w, process w = p0 →
    match (m w).1 with
    | Ok a => Q a (process (m w).2)
    | Err e => R e (process (m w).2)
    end.

Section outcome.
Context {P : Type} (p0 : P).

Lemma outcome_bind {E A B} (m : io P E A) (f : A → io P E B) Mid Q R :
  outcome p0 m Mid R → (∀ a p, Mid a p → outcome p (f a) Q R) → outcome p0 (m ≫= f) Q R.
Proof.
  intros Hm Hf w Hw. specialize (Hm w Hw). unfold mbind, io_bind.
  destruct (m w) as [[a|e] w1]; simpl in *; [|done]. by apply (Hf a _ Hm w1).
Qed.

Lemma outcome_silent {E A} (m : io P E A) :
  silent m → outcome p0 m (λ _ p, p = p0) (λ _ p, p = p0).
Proof. intros Hs w Hw. specialize (Hs w). destruct ((m w).1); congruence. Qed.

(** A step that leaves the globals alone. *)
Lemma outcome_step {E A B} (m : io P E A) (f : A → io P E B) Q R :
  silent m → (∀ e, R e p0) → (∀ a, outcome p0 (f a) Q R) → outcome p0 (m ≫= f) Q R.
Proof.
  intros Hs HR Hf. apply (outcome_bind _ _ (λ _ p, p = p0)); [|by intros a p ->].
  intros w Hw. pose proof (outcome_silent m Hs w Hw) as Ho. destruct ((m w).1); [done|].
  rewrite Ho. apply HR.
Qed.

Lemma outcome_try {E F A} (m : io P E A) (Q : result E A → P → Prop) (R : F → P → Prop) :
  outcome p0 m (λ a, Q (Ok a)) (λ e, Q (Err e)) → outcome p0 (try m) Q R.
Proof.
  intros Hm w Hw. specialize (Hm w Hw). unfold try. by destruct (m w) as [[a|e] w1].
Qed.

Lemma outcome_ret {E A} (a : A) (Q : A → P → Prop) (R : E → P → Prop) :
  Q a p0 → outcome p0 (mret a) Q R.
Proof. intros Hq w Hw. simpl. by rewrite Hw. Qed.

Lemma outcome_throw {E A} (e : E) (Q : A → P → Prop) (R : E → P → Prop) :
  R e p0 → outcome p0 (throw e) Q R.
Proof. intros Hr w Hw. simpl. by rewrite Hw. Qed.
End outcome.

Section close.
Context `{Crypto} `{Env} `{ProcessEnv} `{Sqlite}.
Notation error := (EncryptedStoreError sql_error).

Lemma silent_key : silent require_master_key.
Proof. by intros w. Qed.

Lemma silent_encrypt a b : silent (encrypt_now a b).
Proof. by intros w. Qed.

Lemma silent_cleanup_plain p l : silent (cleanup_plain_temp_with_lock p l).
Proof.
  unfold cleanup_plain_temp_with_lock, error_of, remove_wal_siblings,
    cleanup_temp_lock_after_main.
  pose proof silent_remove_if_exists (P := globals).
  pose proof (λ l, silent_drop_lock (P := globals) (E := ioError) l).
  pose proof (silent_lock_close (P := globals) (E := ioError)). step_silent.
Qed.

Lemma silent_after_transition enc tmp paths :
  silent (map_error Io (cleanup_recovery_paths paths) : io globals error ()) ∧
  silent (map_error Io (remove_wal_siblings enc) : io globals error ()) ∧
  silent (map_error Io (cleanup_plain_temp tmp) : io globals error ()).
Proof.
  pose proof silent_remove_if_exists (P := globals).
  split_and!; apply silent_map_error.
  - unfold cleanup_recovery_paths. step_silent.
  - unfold remove_wal_siblings. step_silent.
  - apply silent_cleanup_plain.
Qed.

Lemma outcome_forget enc p0 (R : error → globals → Prop) :
  outcome p0 (forget_registration enc) (λ _ p, p = forgotten enc p0) R.
Proof. intros w <-. by destruct (forget_process enc (E := error) w) as [-> ?]. Qed.

Lemma outcome_publish enc tmp key p0 :
  outcome p0 (publish_temp enc tmp key) (λ _ p, p = forgotten enc p0) (λ _ p, p = p0).
Proof.
  unfold publish_temp.
  apply outcome_step; [apply silent_map_error; step_silent|done|]. intros plain.
  apply outcome_step; [apply silent_map_error, silent_encrypt|done|]. intros c.
  apply outcome_step; [apply silent_transition|done|]. intros [].
  apply outcome_step; [unfold registered_recovery_paths, get_temps; step_silent|done|].
  intros paths. destruct (silent_after_transition enc tmp paths) as (S1 & S2 & S3).
  apply outcome_step; [done..|]. intros []. apply outcome_step; [done..|]. intros [].
  apply outcome_step; [done..|]. intros []. apply outcome_forget.
Qed.

Lemma outcome_close_inner {E} st enc p0 (R : E → globals → Prop) :
  encrypted_path st = Some enc →
  outcome p0 (close_store_inner st)
    (λ x p, db_lock x.2 = db_lock st ∧ sqlite_path x.2 = sqlite_path st ∧
            p = if is_ok x.1 then forgotten enc p0 else p0) R.
Proof.
  intros Henc. unfold close_store_inner. rewrite Henc.
  eapply outcome_bind.
  { apply (outcome_try _ _ (λ _ p, p = p0)), outcome_silent.
    unfold checkpoint_wal, checkpoint_wal_conn. step_silent. }
  intros [[]|e] p ->; [|by apply outcome_ret].
  eapply outcome_bind; [apply (outcome_try _ _ (λ _ p, p = p0)), outcome_silent, silent_key|].
  intros [key|e] p ->; [|by apply outcome_ret].
  eapply outcome_bind; [apply (outcome_try _ _ (λ _ p, p = p0)), outcome_silent; step_silent|].
  intros [memory|e] p ->; [|by apply outcome_ret].
  apply (outcome_bind _ _ _ (λ _ p, p = p0)).
  { intros w Hw. exact Hw. }
  intros [] p ->. eapply outcome_bind.
  { apply (outcome_try _ _ (λ r p, p = if is_ok r then forgotten enc p0 else p0)).
    apply outcome_publish. }
  intros r p ->. by apply outcome_ret.
Qed.

Lemma outcome_retain {E} enc st e l p0 (R : E → globals → Prop) :
  db_lock st = Some l →
  outcome p0 (retain_failed_close enc st e)
    (λ st' p, db_lock st' = None ∧ ∃ reg,
       encrypted_temps p = <[enc := reg]> (encrypted_temps p0) ∧
       active reg = false ∧ reg_lock reg = Some l ∧
       tmp_path reg = default (sqlite_path st) (tmp_path <$> encrypted_temps p0 !! enc) ∧
       (∀ q, recovery_path e = Some q → q ∈ recovery_paths reg) ∧
       recovery_of enc p0 ⊆ recovery_paths reg) R.
Proof.
  intros Hl. unfold retain_failed_close. rewrite Hl.
  apply (outcome_bind _ _ _ (λ m p, m = encrypted_temps p0 ∧ p = p0)).
  { by intros w <-. }
  intros m p [-> ->]. cbv zeta.
  set (old := default _ (encrypted_temps p0 !! enc)).
  set (reg := add_recovery _ e).
  apply (outcome_bind _ _ _ (λ _ p, p = Globals (master_key_provider p0) (direct_master_key p0)
    (<[enc := reg]> (encrypted_temps p0)))).
  { by intros w <-. }
  intros [] p ->. apply (outcome_bind _ _ _ (λ _ p, p = Globals (master_key_provider p0)
    (direct_master_key p0) (<[enc := reg]> (encrypted_temps p0)))).
  { intros w <-.
    pose proof (silent_drop_lock (P := globals) (E := E) (encrypted_temps p0 !! enc ≫= reg_lock) w) as Hs.
    pose proof (gives_drop_lock (E := E) (encrypted_temps p0 !! enc ≫= reg_lock) w) as Hg.
    by destruct ((drop_lock _ w).1). }
  intros [] p ->. apply outcome_ret. split; [done|]. exists reg. split; [done|].
  assert (active reg = false ∧ reg_lock reg = Some l ∧ tmp_path reg = tmp_path old ∧
          recovery_paths old ⊆ recovery_paths reg ∧
          ∀ q, recovery_path e = Some q → q ∈ recovery_paths reg) as (?&?&Ht&Hr&?).
  { unfold reg, add_recovery. destruct (recovery_path e) as [q|]; [|by split_and!].
    case_bool_decide as Hq; simpl in *; split_and!; try done; set_solver. }
  split_and!; try done.
  - rewrite Ht. unfold old. by destruct (encrypted_temps p0 !! enc).
  - unfold recovery_of. etrans; [|exact Hr]. unfold old. by destruct (encrypted_temps p0 !! enc).
Qed.

(** The outcome of closing an encrypted store for the registry.  A close
    that succeeds forgets the registration; a close that fails, at whatever
    step, keeps the canonical lock in the registration, marks it inactive so
    that [finalise_all] may retry it, and remembers every recovery copy there
    is. *)
Theorem close_store_registry (w w' : world globals) st enc l r :
  encrypted_path st = Some enc → db_lock st = Some l →
  close_store st w = (r, w') →
  match r with
  | Ok _ => process w' = forgotten enc (process w)
  | Err e =>
      ∃ reg, encrypted_temps (process w') = <[enc := reg]> (encrypted_temps (process w)) ∧
        active reg = false ∧ reg_lock reg = Some l ∧
        tmp_path reg = default (sqlite_path st) (tmp_path <$> encrypted_temps (process w) !! enc) ∧
        (∀ q, recovery_path e = Some q → q ∈ recovery_paths reg) ∧
        recovery_of enc (process w) ⊆ recovery_paths reg
  end.
Proof.
  intros Henc Hl E. set (p0 := process w).
  assert (outcome p0 (close_store st) (λ _ p, p = forgotten enc p0) (λ e p,
    ∃ reg, encrypted_temps p = <[enc := reg]> (encrypted_temps p0) ∧
        active reg = false ∧ reg_lock reg = Some l ∧
        tmp_path reg = default (sqlite_path st) (tmp_path <$> encrypted_temps p0 !! enc) ∧
        (∀ q, recovery_path e = Some q → q ∈ recovery_paths reg) ∧
        recovery_of enc p0 ⊆ recovery_paths reg)) as Ho.
  2:{ specialize (Ho w eq_refl). rewrite E in Ho. exact Ho. }
  clear E. unfold close_store. eapply outcome_bind; [by apply outcome_close_inner|].
  intros [r0 closed] p (Hl' & Hp & ->). cbn beta iota. simpl in Hl', Hp |- *. rewrite Henc.
  assert (∀ q (s : Store) Q R, match r0 with Ok a => Q a q | Err e => R e q end →
            outcome (P := globals) q (Store_drop s ;; of_result r0) Q R) as Hdrop.
  { intros q s Q R HQ. apply (outcome_bind _ _ _ (λ _ p, p = q)).
    - intros v Hv. unfold Store_drop, mbind, io_bind. simpl.
      pose proof (silent_drop_lock (P := globals) (E := error) (db_lock s)) as Hs.
      pose proof (gives_drop_lock (E := error) (db_lock s)) as Hg.
      set (w1 := World _ _). specialize (Hs w1). specialize (Hg w1).
      destruct (drop_lock (db_lock s) w1) as [[[]|e] w2]; simpl in *; [congruence|done].
    - intros [] p ->. intros v Hv. unfold of_result. simpl. rewrite Hv. by destruct r0. }
  destruct r0 as [[]|e]; simpl in Hdrop |- *.
  - apply (outcome_bind _ _ _ (λ _ p, p = forgotten enc p0)); [by apply outcome_ret|].
    intros c p ->. by apply Hdrop.
  - eapply outcome_bind; [apply (outcome_retain _ _ _ l); by rewrite Hl'|].
    intros c p (_ & reg & ? & ? & ? & Ht & ? & ?). apply Hdrop. exists reg. split_and!; try done.
    by rewrite Ht, Hp.
Qed.

(** ** Retrying *)

Lemma silent_open_and_checkpoint tmp : silent (open_and_checkpoint tmp).
Proof.
  unfold open_and_checkpoint, Store_open, open_connection, init_schema, Store_drop,
    drop_connection, checkpoint_wal, checkpoint_wal_conn.
  pose proof (λ l, silent_drop_lock (P := globals) (E := sql_error) l). step_silent.
Qed.

(** The same keys are registered. *)
Definition same_keys (p p' : globals) : Prop :=
  ∀ k, encrypted_temps p' !! k = None ↔ encrypted_temps p !! k = None.

Lemma outcome_finalise_registered enc tmp recovery key p0 :
  outcome p0 (finalise_registered enc tmp recovery key)
    (λ _ p, p = forgotten enc p0) (λ _ p, same_keys p0 p).
Proof.
  assert (∀ e : error, (λ (_ : error) p, same_keys p0 p) e p0) as Hsame by done.
  unfold finalise_registered.
  apply outcome_step; [|done|].
  { intros w. unfold exists_path.
    assert (silent (metadata (P := globals) tmp)) as Hs by apply silent_syscall.
    specialize (Hs w). by destruct (metadata tmp w). }
  intros present. apply outcome_step; [destruct present; by intros w|done|]. intros [].
  apply outcome_step; [apply silent_map_error, silent_open_and_checkpoint|done|]. intros [].
  apply outcome_step; [apply silent_map_error; step_silent|done|]. intros plain.
  apply outcome_step; [apply silent_map_error, silent_encrypt|done|]. intros c.
  apply outcome_step; [apply silent_try, silent_transition|done|]. intros r.
  destruct (silent_after_transition enc tmp recovery) as (S1 & S2 & S3).
  destruct r as [[]|e].
  - apply outcome_step; [by intros w|done|]. intros [].
    apply outcome_step; [done..|]. intros []. apply outcome_step; [done..|]. intros [].
    apply outcome_step; [done..|]. intros []. apply outcome_forget.
  - eapply (outcome_bind _ _ _ (λ _ _, False)); [|done].
    intros w <-. unfold remember_recovery_path, get_temps, mbind, io_bind, same_keys. simpl.
    destruct (encrypted_temps (process w) !! enc) as [reg|] eqn:Hr; simpl; [|done].
    intros k. destruct (decide (enc = k)) as [<-|].
    + rewrite lookup_insert_eq, Hr. by split.
    + by rewrite lookup_insert_ne.
Qed.

(** One turn of [finalise_all] removes nothing but the entry it finalised, adds
    none, and reports no error only if the entry is gone. *)
Lemma finalise_one_registry {E} enc cached p0 (R : E → globals → Prop) :
  outcome p0 (finalise_one enc cached)
    (λ x p, (∀ k, encrypted_temps p0 !! k = None → encrypted_temps p !! k = None) ∧
            (x.1 = None → encrypted_temps p !! enc = None)) R.
Proof.
  assert (∀ (o : option error) (c : option bytes), o ≠ None → outcome p0 (mret (o, c)) (λ x p,
     (∀ k, encrypted_temps p0 !! k = None → encrypted_temps p !! k = None) ∧
     (x.1 = None → encrypted_temps p !! enc = None)) R) as Hret
    by (intros o c Ho; by apply outcome_ret).
  unfold finalise_one. apply (outcome_bind _ _ _ (λ m p, m = encrypted_temps p0 ∧ p = p0)).
  { by intros w <-. }
  intros m p [-> ->]. destruct (encrypted_temps p0 !! enc) as [reg|] eqn:Hr;
    [|by apply outcome_ret].
  destruct (active reg); [by apply (Hret (Some _) cached)|].
  apply (outcome_bind _ _ _ (λ _ p, p = p0)).
  { destruct cached; [by apply outcome_ret|].
    apply (outcome_try _ _ (λ _ p, p = p0)), outcome_silent. by intros w. }
  intros [key|e] p ->; [|by apply (Hret (Some _) cached)].
  apply (outcome_bind _ _ _ (λ r p, if is_ok r then p = forgotten enc p0 else same_keys p0 p)).
  { apply (outcome_try _ _ (λ r p, if is_ok r then p = forgotten enc p0 else same_keys p0 p)).
    apply outcome_finalise_registered. }
  intros [[]|e] p Hp; simpl in Hp; apply outcome_ret; simpl.
  - subst p. simpl. split; [|intros _; apply lookup_delete_eq].
    intros k Hk. destruct (decide (enc = k)) as [<-|]; [apply lookup_delete_eq|].
    by rewrite lookup_delete_ne.
  - split; [|done]. intros k. apply Hp.
Qed.

Lemma finalise_loop_registry {E} entries cached errors p0 (R : E → globals → Prop) :
  outcome p0 (finalise_loop entries cached errors)
    (λ out p, (∀ k, encrypted_temps p0 !! k = None → encrypted_temps p !! k = None) ∧
              (out = [] → errors = [] ∧ ∀ k, k ∈ entries → encrypted_temps p !! k = None)) R.
Proof.
  revert cached errors p0. induction entries as [|enc entries IH]; intros cached errors p0; simpl.
  - apply outcome_ret. split; [done|]. intros ->. split; [done|]. by intros k ?%not_elem_of_nil.
  - eapply outcome_bind; [apply finalise_one_registry|]. intros [o c] p [Hk Ho].
    cbn beta iota. simpl in Ho.
    intros w Hw. specialize (IH c (errors ++ match o with Some e => [e] | None => [] end) p w Hw).
    destruct ((finalise_loop _ _ _ w).1) as [out|e]; [|done].
    destruct IH as [Hk' Hout]. split; [auto|]. intros ->.
    destruct (Hout eq_refl) as [He Hin]. apply app_eq_nil in He as [-> He]. split; [done|].
    destruct o as [e|]; [done|]. intros k [->|Hi]%elem_of_cons; [|auto].
    apply Hk'. by apply Ho.
Qed.

(** [finalise_all] never claims too much: when it reports success, every
    registration is gone, in whatever order the registry was walked; a
    registration that is still active, whose key or temporary is missing, or
    whose publication failed is reported. *)
Theorem finalise_all_complete (w w' : world globals) r :
  (∀ l, hash_order l ≡ₚ l) →
  finalise_all w = (r, w') →
  (r = Ok () → encrypted_temps (process w') = ∅) ∧
  (∀ k, encrypted_temps (process w) !! k = None → encrypted_temps (process w') !! k = None).
Proof.
  intros Hperm E. unfold finalise_all, get_temps, mbind, io_bind in E. simpl in E.
  pose proof (finalise_loop_registry (E := list error)
    (hash_order (elements (dom (encrypted_temps (process w))))) None [] (process w)
    (λ _ _, False) w eq_refl) as Hl.
  destruct (finalise_loop _ _ _ w) as [[out|e] w1] eqn:El; simpl in Hl; [|done].
  destruct Hl as [Hk Hout].
  assert (process w' = process w1) as -> by (destruct out; by injection E as <- <-).
  split; [|done]. intros ->. assert (out = []) as -> by (destruct out; [done|by injection E]).
  destruct (Hout eq_refl) as [_ Hin]. apply map_empty. intros k.
  destruct (encrypted_temps (process w) !! k) as [reg|] eqn:Hr; [|by apply Hk].
  apply Hin. rewrite Hperm. by apply elem_of_elements, elem_of_dom.
Qed.

End close.

Section close_properties.
Context `{Crypto} `{!CryptoLaws} `{Env} `{ProcessEnv} `{Sqlite} `{!SqliteLaws}.


(** A registration whose temporary is gone: [finalise_one] reports it and
    changes nothing, so neither the entry nor the lock it holds ever goes. *)
Lemma finalise_missing_temp (w : world globals) enc reg key {E} :
  encrypted_temps (process w) !! enc = Some reg → active reg = false →
  names (now_disk (system w)) !! tmp_path reg = None → tmp_path reg ∉ dirs (now_disk (system w)) →
  ∃ w' e, finalise_one (E := E) enc (Some key) w = (Ok (Some e, Some key), w') ∧
    process w' = process w ∧ now_disk (system w') = now_disk (system w) ∧
    locked (system w') = locked (system w).
Proof.
  intros Hr Ha Hn Hd. unfold finalise_one, get_temps, mbind, io_bind. simpl. rewrite Hr, Ha. simpl.
  unfold finalise_registered, exists_path, metadata, atomically, syscall, try.
  unfold mbind, io_bind.
  destruct (fault (steps (system w))) as [[e n]|]; simpl.
  - do 2 eexists. split_and!; reflexivity.
  - rewrite bool_decide_eq_false_2 by done. rewrite Hn. simpl. do 2 eexists. split_and!; reflexivity.
Qed.

End close_properties.
