(* ===== verification/LockingFacts.v ===== *)
(** Mutual exclusion of the database locks, and what scavenging may remove. *)
From S2P Require Import Prelude.
From S2P Require Import Text.
From S2P Require Import Encryption.
From S2P Require Import Disk.
From S2P Require Import DiskFacts.
From S2P Require Import Locking.
From S2P Require Import Transition.
From S2P Require Import TransitionFacts.
From S2P Require Import Schema.
From S2P Require Import EncryptedStore.
From S2P Require Import StoreLifecycle.
From S2P Require Import LifecycleMoves.
From S2P Require Import LifecycleFacts.

Section lock.
Context {P : Type} `{Env}.

(** Opening the lock file: the handle is the entry's inode. *)
Lemma open_or_create_names p (w : world P) :
  locked (system (open_or_create p w).2) = locked (system w) ∧
  match (open_or_create p w).1 with
  | Ok h => names (now_disk (system (open_or_create p w).2)) !! p = Some h ∧
            (names (now_disk (system w)) !! p = Some h ∨
             names (now_disk (system w)) !! p = None ∧ h ∉ locked (system w))
  | Err _ => names (now_disk (system (open_or_create p w).2)) !! p
             = names (now_disk (system w)) !! p
  end.
Proof.
  unfold open_or_create, atomically, syscall.
  destruct (fault _) as [[e n]|]; simpl; [done|].
  repeat case_bool_decide; simpl; try done.
  destruct (names (now_disk (system w)) !! p) as [i|] eqn:Hi; simpl; [by auto|].
  rewrite lookup_insert_eq. destruct (new_inode_unused (system w)) as [_ Hl]. auto.
Qed.

(** The result of an attempt from [w]. *)
Definition lock_outcome (p : string) (w : world P) (out : result LockError DbLock * world P) :
    Prop :=
  match out.1 with
  | Ok lock =>
      lock_path lock = p ∧ ∃ h, lock_file lock = Some h ∧ h ∉ locked (system w) ∧
        locked (system out.2) = {[h]} ∪ locked (system w) ∧
        names (now_disk (system out.2)) !! p = Some h ∧
        (∀ i, names (now_disk (system w)) !! p = Some i → i = h)
  | Err e => locked (system out.2) = locked (system w) ∧ ∃ source, e = Acquire p source
  end.

Lemma lock_outcome_from p (w w1 : world P) out :
  locked (system w1) = locked (system w) →
  (∀ i, names (now_disk (system w)) !! p = Some i → names (now_disk (system w1)) !! p = Some i) →
  lock_outcome p w1 out → lock_outcome p w out.
Proof.
  intros Hl Hn. unfold lock_outcome. rewrite Hl. destruct (out.1); [|done].
  intros (? & h & ? & ? & ? & ? & Hi). split; [done|]. exists h. split_and!; auto.
Qed.

Lemma lock_attempts_spec p n e (w : world P) : lock_outcome p w (lock_attempts n p e w).
Proof.
  revert e w. induction n as [|n IH]; intros e w; simpl; [unfold lock_outcome; simpl; eauto|].
  unfold mbind, io_bind, try at 1.
  pose proof (open_or_create_names p w) as [Hl Hn].
  destruct (open_or_create p w) as [[h|e1] w1]; simpl in Hl, Hn; simpl.
  2:{ apply (lock_outcome_from p w w1); [done|by rewrite Hn|apply IH]. }
  destruct Hn as [Hn1 Hn0].
  assert (∀ i, names (now_disk (system w)) !! p = Some i → i = h) as Hih
    by (intros i Hi; destruct Hn0 as [|[]]; congruence).
  assert (∀ e2 w2, locked (system w2) = locked (system w) → now_disk (system w2) = now_disk (system w1) →
            lock_outcome p w (lock_attempts n p e2 w2)) as Hrest.
  { intros e2 w2 Hl2 Hd2. apply (lock_outcome_from p w w2); [done| |apply IH].
    rewrite Hd2, Hn1. intros i Hi. by rewrite (Hih i Hi). }
  unfold try, try_lock, atomically, syscall.
  destruct (fault (steps (system w1))) as [[e1 k]|]; simpl; [by apply Hrest|].
  case_bool_decide as Hin; simpl; [by apply Hrest|].
  rewrite Hl in Hin |- *. split; [done|]. by exists h.
Qed.

Lemma lock_drop_locks {E} lock (w : world P) :
  locked (system (DbLock_drop (E := E) lock w).2) =
  match lock_file lock with Some h => locked (system w) ∖ {[h]} | None => locked (system w) end.
Proof.
  unfold DbLock_drop, DbLock_close, mbind, io_bind. destruct lock as [p [h|]]; simpl; [|done].
  unfold mbind, io_bind, try, unlock, atomically, syscall.
  destruct (fault _) as [[e n]|]; simpl; [done|]. set_solver.
Qed.

(** C36: the database lock excludes.  It is only granted on an inode no one
    holds, it then is the one at the lock path, and nothing else is locked; a
    refusal locks nothing and names the lock file; while the lock file's inode
    is held, by this process or another, every further attempt is refused
    whatever fails; and dropping the granted lock, even when the unlock call
    fails, gives exactly the earlier locks back. *)
Theorem lock_exclusive (w w' : world P) path attempts r :
  DbLock_lock path attempts w = (r, w') →
  match r with
  | Ok lock =>
      ∃ h, lock_file lock = Some h ∧ h ∉ locked (system w) ∧
        locked (system w') = {[h]} ∪ locked (system w) ∧
        names (now_disk (system w')) !! lock_path_for path = Some h ∧
        locked (system (DbLock_drop (E := LockError) lock w').2) = locked (system w)
  | Err e =>
      locked (system w') = locked (system w) ∧ ∃ source, e = Acquire (lock_path_for path) source
  end ∧
  (∀ h, names (now_disk (system w)) !! lock_path_for path = Some h → h ∈ locked (system w) →
     is_ok r = false).
Proof.
  intros E. unfold DbLock_lock, lock_with_delay in E.
  pose proof (lock_attempts_spec (lock_path_for path) (Nat.max attempts 1) None w) as Hs.
  rewrite E in Hs. unfold lock_outcome in Hs. simpl in Hs.
  destruct r as [lock|e]; [|by split; [|intros]].
  destruct Hs as (_ & h & Hf & Hh & Hl & Hn & Hi). split.
  - exists h. split_and!; try done. rewrite lock_drop_locks, Hf, Hl. set_solver.
  - intros i Hp Hin. by rewrite (Hi i Hp) in Hin.
Qed.

End lock.

(* ------------------------------------------------------------------ *)
(** ** Scavenging *)

Section scavenge.
Context `{Env}.

(** What one entry's turn may remove. *)
Definition scavenged (path p : string) : Prop :=
  p ∈ [path; path_push path "-wal"; path_push path "-shm"; lock_path_for path].

(** The conditions under which an entry is removed. *)
Definition removable (registered : list string) (now : Z) (d : disk) (l : gset nat)
    (path : string) : Prop :=
  is_stale_temp_name (file_name path) = true ∧ path ∉ dirs d ∧
  is_registered_temp_or_sidecar path registered = false ∧
  (∃ i f, names d !! path = Some i ∧ files d !! i = Some f ∧ now - mtime f > STALE_SCAVENGE_AGE) ∧
  (starts_with "symeraseme_decrypted_" (file_name path) = true →
   ∀ h, names d !! lock_path_for path = Some h → h ∉ l).

Lemma moves_removal {E} path lock :
  moves (keeps (scavenged path)) (scavenge_remove (E := E) path lock).
Proof.
  assert (scavenged path path ∧ scavenged path (path_push path "-wal") ∧
          scavenged path (path_push path "-shm") ∧ scavenged path (lock_path_for path))
    as (H1 & H2 & H3 & H4) by (unfold scavenged; set_solver).
  pose proof (moves_remove_wal_siblings (P := globals) _ _ H2 H3).
  pose proof (moves_remove_if_exists (P := globals) _ _ H1).
  pose proof (moves_remove_if_exists (P := globals) _ _ H4).
  pose proof (moves_drop_lock (P := globals) (E := E) (scavenged path) lock).
  unfold scavenge_remove. step_moves.
Qed.

(** One turn of the scavenger.  Entries other than the candidate, its
    sidecars and its lock file are never touched, and even these only when the
    candidate has a transition name, is no directory, is neither registered
    nor a registered file's sidecar, is more than 300 seconds old and, for a
    decrypted temporary, its lock was free: otherwise nothing on the disk
    changes but the lock file that was opened to find out. *)
Theorem scavenge_entry_spares {E} (w w' : world globals) registered now path (r : result E ()) :
  disk_ok (now_disk (system w)) →
  scavenge_entry (E := E) registered now path w = (r, w') →
  (∀ p, ¬ scavenged path p → kept p (now_disk (system w)) (now_disk (system w'))) ∧
  (¬ removable registered now (now_disk (system w)) (locked (system w)) path →
   ∀ p, p ≠ lock_path_for path → kept p (now_disk (system w)) (now_disk (system w'))).
Proof.
  intros Hok Erun. set (d := now_disk (system w)) in *.
  assert (∀ p, kept p d d) as Hrefl by by intros p; split.
  revert Erun. unfold scavenge_entry.
  destruct (is_stale_temp_name (file_name path)) eqn:Hstale; simpl;
    [|by intros [= <- <-]].
  destruct (_ || _) eqn:Hsuffix; [by intros [= <- <-]|].
  unfold mbind at 1, io_bind at 1. unfold try at 1, metadata, atomically, syscall.
  destruct (fault (steps (system w))) as [[e n]|]; simpl; [by intros [= <- <-]|].
  case_bool_decide as Hdir; simpl; [by intros [= <- <-]|].
  destruct (names d !! path) as [i|] eqn:Hi; simpl; fold d; rewrite ?Hi; simpl; [|by intros [= <- <-]].
  destruct (files d !! i) as [f|] eqn:Hf; simpl; [|by intros [= <- <-]].
  destruct (is_registered_temp_or_sidecar path registered) eqn:Hreg; [by intros [= <- <-]|].
  destruct (now <? mtime f) eqn:Hnow; [by intros [= <- <-]|].
  destruct (now - mtime f <=? STALE_SCAVENGE_AGE) eqn:Hage; [by intros [= <- <-]|].
  set (w1 := World _ _).
  assert (∀ lock (w2 : world globals), keeps (.= lock_path_for path) d (now_disk (system w2)) →
     removable registered now d (locked (system w)) path →
     ∀ out, scavenge_remove (E := E) path lock w2 = out →
     (∀ p, ¬ scavenged path p → kept p d (now_disk (system out.2))) ∧
     (¬ removable registered now d (locked (system w)) path →
      ∀ p, p ≠ lock_path_for path → kept p d (now_disk (system out.2)))) as Hrm.
  { intros lock w2 K2 Hr out <-. split; [|done]. intros p Hp.
    destruct (moves_removal (E := E) path lock w2) as [_ K3].
    assert (keeps (scavenged path) d (now_disk (system w2))) as K2'.
    { eapply keeps_weaken; [|exact K2]. intros q ->. unfold scavenged. set_solver. }
    assert (keeps (scavenged path) d (now_disk (system (_ : result E () * world globals).2))) as K
      by (etrans; [exact K2'|exact K3]).
    by apply (K Hok). }
  assert ((starts_with "symeraseme_decrypted_" (file_name path) = true →
     ∀ h, names d !! lock_path_for path = Some h → h ∉ locked (system w)) →
     removable registered now d (locked (system w)) path) as Hrem.
  { intros Hlock. split_and!; try done. exists i, f. split_and!; [done..|].
    apply Z.leb_gt in Hage. lia. }
  destruct (starts_with "symeraseme_decrypted_" (file_name path)) eqn:Hdec.
  - assert (lock_outcome (lock_path_for path) w1 (lock_with_delay path 1 w1)) as Hs
      by apply lock_attempts_spec.
    destruct (moves_lock (P := globals) (.= lock_path_for path) path 1 eq_refl w1) as [_ Hk].
    unfold DbLock_lock in Hk. revert Hs Hk. generalize (lock_with_delay (P := globals) path 1).
    intros lk Hs Hk. unfold mbind, io_bind, try. simpl.
    destruct (lk w1) as [[lock|e] w2]; simpl in Hs, Hk; cbn beta iota.
    + intros Hout. apply (Hrm (Some lock) w2 Hk) in Hout; [exact Hout|].
      apply Hrem. intros _ h Hh. destruct Hs as (_ & h' & _ & Hl & _ & _ & Hi').
      by rewrite (Hi' h Hh).
    + intros [= <- <-]. destruct (Hk Hok) as [_ K]. split.
      * intros p Hp. apply K. intros ->. apply Hp. unfold scavenged. set_solver.
      * intros _ p Hp. by apply K.
  - unfold mbind, io_bind. simpl. intros Hout.
    apply (Hrm None w1 ltac:(reflexivity)) in Hout; [exact Hout|]. by apply Hrem.
Qed.

End scavenge.
