(* ===== verification/LifecycleWitness.v ===== *)
(** The at-rest theorems at concrete worlds: a calm and a failing system, a
    SQLite that leaves its files alone, the toy primitives of
    [EncryptionWitness]; a store opened, closed and opened again; and the run
    after which a registration can never be finalised. *)
From S2P Require Import Prelude.
From S2P Require Import Text.
From S2P Require Import Encryption.
From S2P Require Import EncryptionFacts.
From S2P Require Import Disk.
From S2P Require Import DiskFacts.
From S2P Require Import Locking.
From S2P Require Import Transition.
From S2P Require Import PublishFacts.
From S2P Require Import TransitionFacts.
From S2P Require Import Schema.
From S2P Require Import EncryptedStore.
From S2P Require Import StoreLifecycle.
From S2P Require Import LifecycleMoves.
From S2P Require Import LifecycleFacts.
From S2P Require Import CloseFacts.
From S2P Require Import LockingFacts.
From Stdlib Require Import Strings.Byte.

(** Steps of a run fail as [f] says. *)
Definition env_with (f : nat → option (ioError * nat)) : Env := {|
  fault := f;
  clock n := 1700000000000000000 + Z.of_nat n;
  random_u64 n := Z.of_nat n;
  readdir _ l := l;
  os_text k := match k with NotFound => "No such file or directory" | _ => "I/O error" end;
|}.

#[export] Instance calm_env : Env := env_with (λ _, None).

#[export] Instance a_process_env : ProcessEnv := {
  xdg_cache_home := Some "/cache";
  home := None;
  temp_dir := "/tmp";
  entropy _ := (Some a_salt, Some an_iv);
  hash_order l := l;
}.

#[export] Instance toy_sqlite : Sqlite := {
  conn := option string;
  sql_error := string;
  sql_error_display e := e;
  sql_boxed e := e;
  sql_open p s := (Ok (Some p), s);
  sql_open_in_memory s := (Ok None, s);
  sql_execute_batch _ _ s := (Ok (), s);
  sql_user_version _ s := (Ok 2, s);
  sql_checkpoint_row _ s := (Ok (Some (0, 0, 0)), s);
  sql_drop _ s := s;
}.

#[export] Instance toy_sqlite_laws : SqliteLaws.
Proof.
  assert (∀ A X (r : A), sql_moves (keeps X) (λ s, (r, s))) as G.
  { intros A X r s. split_and!; [by exists []|simpl; reflexivity|done]. }
  refine {| conn_files := (λ c : conn, match c with Some p => db_files p | None => [] end) |};
    try (intros; apply G).
  - by intros p s c [= <-].
  - by intros s c [= <-].
Defined.

Definition store_path : string := "/data/store.db".
Definition temps_dir : string := "/cache".

Definition empty_disk : disk := Disk ∅ [] ∅ {[ "/"; "/data"; "/cache" ]} ∅.

Definition the_globals : globals := Globals None (Some a_key) ∅.

Definition fresh_world : world globals := World (Os empty_disk ∅ 0 []) the_globals.

Lemma empty_disk_ok : disk_ok empty_disk.
Proof.
  split.
  - intros p [i Hi]. simpl in Hi. by rewrite lookup_empty in Hi.
  - intros p i [Hi|Hi]; simpl in Hi; [by rewrite lookup_empty in Hi|by apply not_elem_of_nil in Hi].
Qed.

(** ** Names *)

Lemma lock_path_suffix p : ∃ u, lock_path_for p = u +:+ ".lock".
Proof.
  assert (∀ base x, ∃ u, path_join base x = u +:+ x) as G.
  { intros base x. unfold path_join. destruct (starts_with "/" x); [by exists ""|].
    destruct (_ || _); [by exists base|]. exists (base +:+ "/"). by rewrite string_app_assoc. }
  unfold lock_path_for. destruct (is_empty (file_name p)).
  - destruct (G p (file_name p +:+ ".lock")) as [u ->]. exists (u +:+ file_name p).
    by rewrite string_app_assoc.
  - destruct (G (default "" (parent p)) (file_name p +:+ ".lock")) as [u ->].
    exists (u +:+ file_name p). by rewrite string_app_assoc.
Qed.

Lemma store_path_no_lock p : lock_path_for p ≠ store_path.
Proof.
  destruct (lock_path_suffix p) as [u ->]. unfold store_path. intros E.
  do 14 (destruct u as [|? u]; [discriminate E|injection E as _ E]).
  destruct u; discriminate E.
Qed.

Lemma store_path_not_private : ¬ private_name "/data" store_path.
Proof.
  intros [id [E|E]];
    [unfold write_name in E; generalize dependent (hex16 id +:+ ".tmp")
    |unfold rec_name in E; generalize dependent (hex16 id +:+ ".tmp")];
    intros s E; discriminate E.
Qed.

(** What lies below the cache directory is not the store. *)
Lemma cache_not_store v : "/cache" +:+ v ≠ store_path.
Proof. discriminate. Qed.

Lemma cache_files n p :
  p ∈ db_files (path_join temps_dir ("s" +:+ n)) → p ≠ store_path.
Proof.
  intros Hp ->. revert Hp. unfold path_join, temps_dir, db_files, path_push.
  rewrite !elem_of_cons. intros Hp.
  destruct Hp as [E|[E|[E|[E|E%not_elem_of_nil]]]]; [..|done]; symmetry in E;
    simpl in E; discriminate E.
Qed.

Lemma store_path_untouched : ¬ open_touches store_path temps_dir store_path.
Proof.
  intros [Hp|[Hl|(id & n & Hn & [Hf|Hl])]].
  - by apply store_path_not_private.
  - by apply (store_path_no_lock store_path).
  - destruct Hn as [->| ->].
    + unfold init_name in Hf. by apply (cache_files ("ymeraseme_init_" +:+ hex16 id +:+ ".db")) in Hf.
    + unfold decrypted_name in Hf.
      by apply (cache_files ("ymeraseme_decrypted_" +:+ hex16 id +:+ ".db")) in Hf.
  - by apply (store_path_no_lock (path_join temps_dir n)).
Qed.

(** ** Opening, closing, opening again *)

Definition opened_world : result (EncryptedStoreError sql_error) Store * world globals :=
  open_encrypted store_path temps_dir fresh_world.

Lemma opened_fresh : is_ok opened_world.1 = true.
Proof. vm_compute. reflexivity. Qed.


(** A world with a decrypted temporary that holds rows. *)
Definition a_tmp : string := "/cache/symeraseme_decrypted_1.db".
Definition some_rows : bytes := lit "rows".

Definition temp_disk : disk :=
  Disk {[ a_tmp := 1%nat ]} [] {[ 1%nat := File some_rows true 0 384 ]}
    {[ "/"; "/data"; "/cache" ]} ∅.

Definition a_registration : RegisteredTemp := MkTemp a_tmp false None None [].

Definition temp_world : world globals :=
  World (Os temp_disk ∅ 0 [])
    (Globals None (Some a_key) {[ store_path := a_registration ]}).

Lemma temp_disk_ok : disk_ok temp_disk.
Proof.
  split.
  - intros p [i Hi]. simpl in Hi. apply lookup_singleton_Some in Hi as [<- <-].
    by apply (bool_decide_unpack _).
  - intros p i [Hi|Hi]; simpl in Hi; [|by apply not_elem_of_nil in Hi].
    symmetry in Hi. apply lookup_singleton_Some in Hi as [<- <-]. by eexists.
Qed.

Lemma temp_apart : apart store_path a_tmp (recovery_of store_path (process temp_world)).
Proof.
  split.
  - intros p Hp. split; [intros ->; by apply store_path_not_private|].
    intros ->. destruct Hp as [id [E|E]];
      [unfold write_name in E; generalize dependent (hex16 id +:+ ".tmp")
      |unfold rec_name in E; generalize dependent (hex16 id +:+ ".tmp")];
      intros s E; discriminate E.
  - split; discriminate.
  - split_and!; [|apply store_path_no_lock|].
    + unfold db_files. repeat constructor; discriminate.
    + intros E. vm_compute in E. discriminate E.
  - vm_compute. constructor.
Qed.

Definition published_world : result (EncryptedStoreError sql_error) () * world globals :=
  publish_temp store_path a_tmp a_key temp_world.

Lemma published_ok : published_world.1 = Ok ().
Proof. vm_compute. reflexivity. Qed.


(** The file system's part alone. *)
Definition replaced_world : result (EncryptedStoreError string) () * world globals :=
  atomic_transition_with_recovery store_path some_rows temp_world.

Lemma replaced_ok : replaced_world.1 = Ok ().
Proof. vm_compute. reflexivity. Qed.


Lemma lock_exclusive_witness :
  let '(r, w') := DbLock_lock (P := globals) store_path 1 fresh_world in
  is_ok r = true ∧ is_ok (DbLock_lock (P := globals) store_path 3 w').1 = false.
Proof.
  destruct (DbLock_lock (P := globals) store_path 1 fresh_world) as [r w'] eqn:E.
  destruct (DbLock_lock (P := globals) store_path 3 w') as [r2 w2] eqn:E2.
  pose proof (lock_exclusive fresh_world w' store_path 1 r E) as [Hr _].
  pose proof (lock_exclusive w' w2 store_path 3 r2 E2) as [_ Hr2].
  assert (is_ok r = true) as Hok by (vm_compute in E; by injection E as <- _).
  split; [exact Hok|]. destruct r as [lock|]; [|discriminate Hok].
  destruct Hr as (h & _ & _ & Hl & Hn & _). apply (Hr2 h Hn). rewrite Hl.
  apply elem_of_union. left. by apply elem_of_singleton.
Defined.

(** ** Closing and retrying *)

Definition canonical_lock : DbLock := MkDbLock (lock_path_for store_path) (Some 7%nat).

Definition a_store : Store :=
  MkStore _ (Some a_tmp) store_path a_tmp (Some store_path) (Some canonical_lock).

(** The same world with the registration active and the canonical lock held. *)
Definition running_world : world globals :=
  World (Os temp_disk {[ 7%nat ]} 0 [])
    (Globals None (Some a_key) {[ store_path := MkTemp a_tmp true None None [] ]}).

Definition failing_at (n : nat) : Env :=
  env_with (λ k, if Nat.eqb k n then Some (io_other "I/O error", 0%nat) else None).

Definition close_failing (n : nat) : result (EncryptedStoreError sql_error) () * world globals :=
  @close_store _ (failing_at n) _ _ a_store running_world.

Lemma close_store_registry_witness :
  ∃ w' e, close_failing 9 = (Err e, w') ∧
    ∃ reg, encrypted_temps (process w') !! store_path = Some reg ∧
      active reg = false ∧ reg_lock reg = Some canonical_lock.
Proof.
  destruct (close_failing 9) as [r w'] eqn:E.
  assert (is_ok (close_failing 9).1 = false) as Hr by (vm_compute; reflexivity).
  rewrite E in Hr. destruct r as [|e]; [discriminate Hr|].
  pose proof (@close_store_registry _ (failing_at 9) _ _ running_world w' a_store store_path
    canonical_lock (Err e) eq_refl eq_refl E) as (reg & Ht & Ha & Hl & _).
  exists w', e. split; [reflexivity|]. exists reg. rewrite Ht.
  split; [apply lookup_insert_eq|]. by split.
Defined.

Lemma finalise_all_complete_witness :
  encrypted_temps (process (finalise_all temp_world).2) = ∅.
Proof.
  assert ((finalise_all temp_world).1 = Ok ()) as Hr by (vm_compute; reflexivity).
  destruct (finalise_all temp_world) as [r w'] eqn:E. simpl in Hr.
  exact (proj1 (finalise_all_complete temp_world w' r (λ l, reflexivity l) E) Hr).
Defined.

(** A sidecar that cannot be removed is reported after the temporary itself is
    gone: the registration stays with the canonical lock, and every later
    [finalise_all] reports a missing temporary. *)
Lemma finalise_stuck :
  let w1 := (close_failing 13).2 in
  is_ok (close_failing 13).1 = false ∧
  content (now_disk (system w1)) a_tmp = None ∧
  option_map active (encrypted_temps (process w1) !! store_path) = Some false ∧
  (finalise_all w1).1
    = Err [Io (IoError NotFound ("registered encrypted temp missing: " +:+ a_tmp))] ∧
  (finalise_all (finalise_all w1).2).1
    = Err [Io (IoError NotFound ("registered encrypted temp missing: " +:+ a_tmp))] ∧
  bool_decide (7%nat ∈ locked (system (finalise_all w1).2)) = true.
Proof. vm_compute. split_and!; reflexivity. Qed.

(** ** Scavenging *)

Definition scavenge_world (now : Z) : result () () * world globals :=
  scavenge_entry [] now a_tmp temp_world.

Lemma scavenge_entry_spares_witness :
  (∀ p, p ≠ lock_path_for a_tmp →
     kept p temp_disk (now_disk (system (scavenge_world 300000000000).2))) ∧
  content (now_disk (system (scavenge_world 300000000001).2)) a_tmp = None.
Proof.
  destruct (scavenge_world 300000000000) as [r w'] eqn:E.
  split; [|vm_compute; reflexivity].
  apply (scavenge_entry_spares temp_world w' [] 300000000000 a_tmp r temp_disk_ok E).
  intros (_ & _ & _ & (i & f & Hi & Hf & Hage) & _). simpl in Hi, Hf.
  apply lookup_singleton_Some in Hi as [_ <-]. apply lookup_singleton_Some in Hf as [_ <-].
  unfold STALE_SCAVENGE_AGE in Hage. simpl in Hage. lia.
Defined.

(** A store opened on an empty directory, closed and opened again holds the
    same bytes. *)
Example reopen_roundtrip :
  match opened_world with
  | (Ok st, w1) =>
      match close_store st w1 with
      | (Ok _, w2) =>
          match open_encrypted store_path temps_dir w2 with
          | (Ok st', w3) =>
              content (now_disk (system w3)) (sqlite_path st')
              = content (now_disk (system w1)) (sqlite_path st)
          | _ => False
          end
      | _ => False
      end
  | _ => False
  end.
Proof. vm_compute. reflexivity. Qed.
