(* ===== verification/JsonText.v ===== *)
(** The JSON grammar over bytes, as the specification of the program's two
    hand-written readers ([identity/profile.rs] and the migration's
    [migration/json.rs]), and the cursor steps they share.

    [reads n t s]: the text [s] is a rendering of the tree [t] whose
    containers nest at most [n] deep.  Trees keep the raw text of strings and
    numbers and keep duplicate keys in order.  The grammar is parametrised by
    the characters a string may contain unescaped, which is where the two
    readers differ. *)
From S2P Require Import Prelude.
From S2P Require Import Encryption.
From Stdlib Require Import Ascii Strings.Byte.

Inductive tree : Type :=
| TString (raw : bytes)
| TNumber (raw : bytes)
| TLiteral (raw : bytes)
| TArray (items : list tree)
| TObject (entries : list (bytes * tree)).

(** The numeric value of a byte. *)
Definition bval (b : byte) : Z := Z.of_N (Byte.to_N b).

Definition is_ws (b : byte) : bool :=
  bool_decide (b ∈ [" "%byte; x0a; x0d; x09]).

Definition is_digit (b : byte) : bool := (48 <=? bval b) && (bval b <=? 57).

Definition is_hex (b : byte) : bool :=
  is_digit b || ((97 <=? bval b) && (bval b <=? 102)) || ((65 <=? bval b) && (bval b <=? 70)).

Definition quote : byte := x22.
Definition backslash : byte := "\"%byte.

(** The one-letter escapes. *)
Definition is_escape (b : byte) : bool :=
  bool_decide (b ∈ [quote; backslash; "/"%byte; "b"%byte; "f"%byte; "n"%byte; "r"%byte; "t"%byte]).

Definition ws (s : bytes) : Prop := Forall (λ b, is_ws b = true) s.
Definition digits (s : bytes) : Prop := Forall (λ b, is_digit b = true) s.

Lemma ws_nil : ws [].
Proof. constructor. Qed.

#[export] Hint Resolve ws_nil : core.

(** An optional minus, an integer part without a leading zero, an optional
    fraction and an optional exponent. *)
Inductive json_number : bytes → Prop :=
| json_number_parts sign int frac exp :
    sign = [] ∨ sign = ["-"%byte] →
    int = ["0"%byte] ∨ (∃ d ds, int = d :: ds ∧ is_digit d = true ∧ d ≠ "0"%byte ∧ digits ds) →
    frac = [] ∨ (∃ ds, frac = "."%byte :: ds ∧ digits ds ∧ ds ≠ []) →
    exp = [] ∨ (∃ e s ds, exp = e :: s ++ ds ∧ e ∈ ["e"%byte; "E"%byte] ∧
                  (s = [] ∨ s = ["+"%byte] ∨ s = ["-"%byte]) ∧ digits ds ∧ ds ≠ []) →
    json_number (sign ++ int ++ frac ++ exp).

Definition literals : list bytes := [lit "true"; lit "false"; lit "null"].

Section grammar.
(** The unescaped characters, each as its bytes. *)
Context (char : bytes → Prop).

(** What follows the opening quote, the closing quote included. *)
Inductive json_chars : bytes → Prop :=
| chars_end : json_chars [quote]
| chars_escape c s : is_escape c = true → json_chars s → json_chars (backslash :: c :: s)
| chars_unicode a b c d s :
    is_hex a = true → is_hex b = true → is_hex c = true → is_hex d = true →
    json_chars s → json_chars (backslash :: "u"%byte :: a :: b :: c :: d :: s)
| chars_plain p s : char p → json_chars s → json_chars (p ++ s).

Inductive json_string : bytes → Prop :=
| json_string_intro s : json_chars s → json_string (quote :: s).

(** Values; what follows an opening bracket ([elements], [members]); what
    follows an element or a member ([more_elements], [more_members]). *)
Inductive reads : nat → tree → bytes → Prop :=
| reads_string n s : json_string s → reads n (TString s) s
| reads_number n s : json_number s → reads n (TNumber s) s
| reads_literal n s : s ∈ literals → reads n (TLiteral s) s
| reads_array n ts s : elements n ts s → reads (S n) (TArray ts) ("["%byte :: s)
| reads_object n es s : members n es s → reads (S n) (TObject es) ("{"%byte :: s)
with elements : nat → list tree → bytes → Prop :=
| elements_nil n w : ws w → elements n [] (w ++ ["]"%byte])
| elements_cons n w t s ts r :
    ws w → reads n t s → more_elements n ts r → elements n (t :: ts) (w ++ s ++ r)
with more_elements : nat → list tree → bytes → Prop :=
| more_elements_nil n w : ws w → more_elements n [] (w ++ ["]"%byte])
| more_elements_cons n w w' t s ts r :
    ws w → ws w' → reads n t s → more_elements n ts r →
    more_elements n (t :: ts) (w ++ ","%byte :: w' ++ s ++ r)
with members : nat → list (bytes * tree) → bytes → Prop :=
| members_nil n w : ws w → members n [] (w ++ ["}"%byte])
| members_cons n w k w' w'' t s es r :
    ws w → json_string k → ws w' → ws w'' → reads n t s → more_members n es r →
    members n ((k, t) :: es) (w ++ k ++ w' ++ ":"%byte :: w'' ++ s ++ r)
with more_members : nat → list (bytes * tree) → bytes → Prop :=
| more_members_nil n w : ws w → more_members n [] (w ++ ["}"%byte])
| more_members_cons n w0 w k w' w'' t s es r :
    ws w0 → ws w → json_string k → ws w' → ws w'' → reads n t s → more_members n es r →
    more_members n ((k, t) :: es) (w0 ++ ","%byte :: w ++ k ++ w' ++ ":"%byte :: w'' ++ s ++ r).

(** A whole document. *)
Definition document (n : nat) (t : tree) (s : bytes) : Prop :=
  ∃ w v w', s = w ++ v ++ w' ∧ ws w ∧ reads n t v ∧ ws w'.

End grammar.

Scheme reads_mut := Induction for reads Sort Prop
  with elements_mut := Induction for elements Sort Prop
  with more_elements_mut := Induction for more_elements Sort Prop
  with members_mut := Induction for members Sort Prop
  with more_members_mut := Induction for more_members Sort Prop.
Combined Scheme grammar_ind
  from reads_mut, elements_mut, more_elements_mut, members_mut, more_members_mut.

#[export] Hint Constructors json_chars json_string reads elements more_elements members
  more_members : json.

(* ------------------------------------------------------------------ *)
(** ** What texts begin with *)

(** [until p k]: [k] is empty or begins with a byte outside [p]. *)
Definition until (p : byte → bool) (k : bytes) : Prop :=
  match k with [] => True | b :: _ => p b = false end.

(** Every text splits into its longest prefix of [p]-bytes and the rest. *)
Fixpoint run_length (p : byte → bool) (s : bytes) : nat :=
  match s with
  | [] => O
  | b :: s' => if p b then S (run_length p s') else O
  end.

Lemma run_length_app p a k :
  Forall (λ b, p b = true) a → until p k → run_length p (a ++ k) = length a.
Proof.
  induction 1 as [|b a Hb Ha IH]; intros Hk; simpl.
  - destruct k as [|b k]; simpl in *; [done|]. by rewrite Hk.
  - rewrite Hb. by rewrite IH.
Qed.

Lemma run_length_split p s :
  Forall (λ b, p b = true) (take (run_length p s) s) ∧ until p (drop (run_length p s) s).
Proof.
  induction s as [|b s [IH1 IH2]]; simpl; [by split; [constructor|]|].
  destruct (p b) eqn:E; simpl; [by split; [constructor|]|]. by split; [constructor|].
Qed.

Lemma run_length_le p s : (run_length p s ≤ length s)%nat.
Proof. induction s as [|b s IH]; simpl; [lia|]. destruct (p b); lia. Qed.

Lemma until_app_l p b s k : p b = false → until p ((b :: s) ++ k).
Proof. done. Qed.

(** The bytes after which a number ends. *)
Definition is_delimiter (b : byte) : bool :=
  is_ws b || bool_decide (b ∈ [","%byte; "]"%byte; "}"%byte]).

Definition ends_value (k : bytes) : Prop :=
  match k with [] => True | b :: _ => is_delimiter b = true end.

Lemma ends_value_ws w c k :
  ws w → is_delimiter c = true → ends_value (w ++ c :: k).
Proof.
  destruct 1 as [|b w Hb Hw]; intros Hc; simpl; [done|].
  unfold is_delimiter. by rewrite Hb.
Qed.

Lemma more_elements_ends char n ts r k : more_elements char n ts r → ends_value (r ++ k).
Proof. destruct 1; rewrite <-app_assoc; by apply ends_value_ws. Qed.

Lemma more_members_ends char n es r k : more_members char n es r → ends_value (r ++ k).
Proof. destruct 1; rewrite <-app_assoc; by apply ends_value_ws. Qed.

Lemma ws_head w b k : ws w → w ++ b :: k = w ++ [b] ++ k.
Proof. done. Qed.

(* ------------------------------------------------------------------ *)
(** ** Derivations *)

Lemma grammar_mono char :
  (∀ n t s, reads char n t s → ∀ m, (n ≤ m)%nat → reads char m t s) ∧
  (∀ n ts s, elements char n ts s → ∀ m, (n ≤ m)%nat → elements char m ts s) ∧
  (∀ n ts s, more_elements char n ts s → ∀ m, (n ≤ m)%nat → more_elements char m ts s) ∧
  (∀ n es s, members char n es s → ∀ m, (n ≤ m)%nat → members char m es s) ∧
  (∀ n es s, more_members char n es s → ∀ m, (n ≤ m)%nat → more_members char m es s).
Proof.
  apply grammar_ind; intros.
  4, 5: match goal with H : (S _ ≤ ?k)%nat |- _ => destruct k; [lia|] end;
    constructor; auto with lia.
  all: econstructor; eauto.
Qed.

Lemma reads_mono char n m t s : reads char n t s → (n ≤ m)%nat → reads char m t s.
Proof. intros ?. by eapply grammar_mono. Qed.

(** A list after an opening bracket continues one after an element. *)
Lemma elements_more char n ts w u :
  elements char n ts u → ts ≠ [] → ws w → more_elements char n ts (w ++ ","%byte :: u).
Proof. destruct 1; intros; [done|]. by constructor. Qed.

Lemma members_more char n es w u :
  members char n es u → es ≠ [] → ws w → more_members char n es (w ++ ","%byte :: u).
Proof. destruct 1; intros; [done|]. by constructor. Qed.

Lemma elements_ws char n ts w u : ws w → elements char n ts u → elements char n ts (w ++ u).
Proof.
  intros Hw. destruct 1; rewrite app_assoc; constructor; try done; by apply Forall_app.
Qed.

Lemma members_ws char n es w u : ws w → members char n es u → members char n es (w ++ u).
Proof.
  intros Hw. destruct 1; rewrite app_assoc; constructor; try done; by apply Forall_app.
Qed.

(** A value does not end in white space. *)
Definition last_solid (s : bytes) : Prop := ∃ s' b, s = s' ++ [b] ∧ is_ws b = false.

Lemma last_solid_app a s : last_solid s → last_solid (a ++ s).
Proof. intros (s' & b & -> & ?). exists (a ++ s'), b. by rewrite app_assoc. Qed.

Lemma last_solid_snoc s b : is_ws b = false → last_solid (s ++ [b]).
Proof. by exists s, b. Qed.

Lemma last_solid_cons b s : last_solid s → last_solid (b :: s).
Proof. apply (last_solid_app [b]). Qed.

Lemma digit_solid b : is_digit b = true → is_ws b = false.
Proof.
  unfold is_digit. intros [H1%Z.leb_le H2%Z.leb_le]%andb_true_iff.
  apply bool_decide_eq_false. set_unfold. intros E.
  repeat destruct E as [E|E]; subst; try done; cbn in H1; lia.
Qed.

Lemma digits_solid ds : digits ds → ds ≠ [] → last_solid ds.
Proof.
  intros Hd Hne. destruct (exists_last Hne) as (ds' & b & ->).
  apply last_solid_snoc, digit_solid. apply Forall_app in Hd as [_ Hb]. by inversion Hb.
Qed.

Lemma chars_solid char s : json_chars char s → last_solid s.
Proof.
  induction 1; auto 10 using last_solid_cons, last_solid_app.
  by apply (last_solid_snoc []).
Qed.

Lemma number_solid s : json_number s → last_solid s.
Proof.
  destruct 1 as [g i f x Hg Hi Hf Hx].
  assert (last_solid i) as Hi'.
  { destruct Hi as [->|(d & ds & -> & Hd & _ & Hds)]; [by apply (last_solid_snoc [])|].
    apply digits_solid; [by constructor|done]. }
  apply last_solid_app. destruct Hx as [->|(e & h & ds & -> & _ & _ & Hds & Hne)].
  - rewrite app_nil_r. destruct Hf as [->|(ds & -> & Hds & Hne)]; [by rewrite app_nil_r|].
    by apply last_solid_app, last_solid_cons, digits_solid.
  - by apply last_solid_app, last_solid_app, last_solid_cons, last_solid_app, digits_solid.
Qed.

Lemma grammar_solid char :
  (∀ n t s, reads char n t s → last_solid s) ∧
  (∀ n ts s, elements char n ts s → last_solid s) ∧
  (∀ n ts s, more_elements char n ts s → last_solid s) ∧
  (∀ n es s, members char n es s → last_solid s) ∧
  (∀ n es s, more_members char n es s → last_solid s).
Proof.
  apply grammar_ind; intros;
    repeat first [done|by apply last_solid_snoc|apply last_solid_app|apply last_solid_cons];
    try by apply (last_solid_snoc []).
  - match goal with H : json_string _ _ |- _ => destruct H end.
    by eapply last_solid_cons, chars_solid.
  - by apply number_solid.
  - match goal with H : _ ∈ literals |- _ =>
      unfold literals in H; rewrite !elem_of_cons, elem_of_nil in H;
      destruct H as [->|[->|[->|[]]]] end.
    + by apply (last_solid_snoc (lit "tru")).
    + by apply (last_solid_snoc (lit "fals")).
    + by apply (last_solid_snoc (lit "nul")).
Qed.

Lemma value_solid char n t s : reads char n t s → last_solid s.
Proof. apply grammar_solid. Qed.
