(* ===== verification/ProfileJson.v ===== *)
(** Reading the profile's JSON the way Go's [encoding/json] does:
    [normalize_go_json], the cursor, [reduce_profile_json] and
    [decode_go_profile_json] of [core/identity/profile.rs].

    A cursor is the input with a position, as in the code; [Result<_, ()>] is
    [option].  The loops carry fuel: one more than the length of the input is
    enough, since every turn moves the position.  [serde_json::from_slice] is
    the method of the class [SerdeSlice]. *)
From S2P Require Import Prelude.
From S2P Require Import Text.
From S2P Require Import Identity.
From S2P Require Import Encryption.
From S2P Require Import JsonText.
From Stdlib Require Import Ascii Strings.Byte.

#[local] Notation length := List.length.

Definition GO_MAX_JSON_NESTING_DEPTH : nat := Z.to_nat 10000.

Lemma max_depth_pos : (1 ≤ GO_MAX_JSON_NESTING_DEPTH)%nat.
Proof. unfold GO_MAX_JSON_NESTING_DEPTH. lia. Qed.

#[global] Arguments GO_MAX_JSON_NESTING_DEPTH : simpl never.
#[global] Opaque GO_MAX_JSON_NESTING_DEPTH.

(** [range.contains(&v)] *)
Definition between (lo hi v : Z) : bool := (lo <=? v) && (v <=? hi).

(** [matches!(next(offset), Some(lo..=hi))] *)
Definition byte_in (lo hi : Z) (b : option byte) : bool :=
  match b with Some b => between lo hi (bval b) | None => false end.

Definition hex_value (b : byte) : option Z :=
  if between 48 57 (bval b) then Some (bval b - 48)
  else if between 97 102 (bval b) then Some (bval b - 97 + 10)
  else if between 65 70 (bval b) then Some (bval b - 65 + 10)
  else None.

(** Four digits never overflow the [u16] of the code. *)
Definition parse_hex_quad (input : bytes) (start : nat) : option Z :=
  let digit value offset :=
    b ← input !! (start + offset)%nat;
    d ← hex_value b;
    Some (value * 16 + d) in
  v ← digit 0 0%nat; v ← digit v 1%nat; v ← digit v 2%nat; digit v 3%nat.

Definition valid_utf8_width (input : bytes) (position : nat) : option nat :=
  match input !! position with
  | None => None
  | Some first =>
      let v := bval first in
      let next offset := input !! (position + offset)%nat in
      let continuation := byte_in 128 191 in
      if between 194 223 v && continuation (next 1%nat) then Some 2%nat
      else if (v =? 224) && byte_in 160 191 (next 1%nat) && continuation (next 2%nat)
      then Some 3%nat
      else if (v =? 237) && byte_in 128 159 (next 1%nat) && continuation (next 2%nat)
      then Some 3%nat
      else if (between 225 236 v || between 238 239 v)
              && continuation (next 1%nat) && continuation (next 2%nat)
      then Some 3%nat
      else if (v =? 240) && byte_in 144 191 (next 1%nat) && continuation (next 2%nat)
              && continuation (next 3%nat) then Some 4%nat
      else if (v =? 244) && byte_in 128 143 (next 1%nat) && continuation (next 2%nat)
              && continuation (next 3%nat) then Some 4%nat
      else if between 241 243 v && continuation (next 1%nat) && continuation (next 2%nat)
              && continuation (next 3%nat) then Some 4%nat
      else None
  end.

(** [&input[a..b]] *)
Definition slice (input : bytes) (a b : nat) : bytes := take (b - a) (drop a input).

(* ------------------------------------------------------------------ *)
(** ** Normalisation *)

Definition replacement_escape : bytes := lit "\ufffd".
Definition replacement_char : bytes := [xef; xbf; xbd].

(** The body of the loop of [normalize_json_string] from [position]: the
    output appended so far and the position after the closing quote. *)
Fixpoint normalize_chars (fuel : nat) (input : bytes) (position : nat) (output : bytes) :
    option (bytes * nat) :=
  match fuel with
  | O => None
  | S fuel =>
      match input !! position with
      | None => None
      | Some byte =>
          let copy n := normalize_chars fuel input (position + n)%nat
                          (output ++ slice input position (position + n)) in
          if bool_decide (byte = quote) then Some (output ++ [byte], (position + 1)%nat)
          else if bool_decide (byte = backslash) then
            escape ← input !! (position + 1)%nat;
            if bool_decide (escape = "u"%byte) then
              code ← parse_hex_quad input (position + 2);
              let replace := normalize_chars fuel input (position + 6)%nat
                               (output ++ replacement_escape) in
              if between 55296 56319 code then
                let pair :=
                  if bool_decide (input !! (position + 6)%nat = Some backslash)
                     && bool_decide (input !! (position + 7)%nat = Some "u"%byte)
                  then parse_hex_quad input (position + 8) else None in
                match pair with
                | Some value => if between 56320 57343 value then copy 12%nat else replace
                | None => replace
                end
              else if between 56320 57343 code then replace
              else copy 6%nat
            else if is_escape escape then copy 2%nat
            else None
          else if bval byte <? 32 then None
          else if bval byte <? 128 then copy 1%nat
          else
            match valid_utf8_width input position with
            | Some width => copy width
            | None => normalize_chars fuel input (position + 1)%nat (output ++ replacement_char)
            end
      end
  end.

Definition normalize_json_string (input : bytes) (start : nat) (output : bytes) :
    option (bytes * nat) :=
  if bool_decide (input !! start = Some quote)
  then normalize_chars (S (length input)) input (start + 1) (output ++ [quote])
  else None.

Fixpoint normalize_loop (fuel : nat) (input : bytes) (position depth : nat) (normalized : bytes) :
    option bytes :=
  match fuel with
  | O => None
  | S fuel =>
      match input !! position with
      | None => Some normalized
      | Some byte =>
          if bool_decide (byte = quote) then
            '(normalized, position) ← normalize_json_string input position normalized;
            normalize_loop fuel input position depth normalized
          else if bool_decide (byte ∈ ["{"%byte; "["%byte]) then
            let depth := S depth in
            if Nat.ltb GO_MAX_JSON_NESTING_DEPTH depth then None
            else normalize_loop fuel input (position + 1) depth (normalized ++ [byte])
          else if bool_decide (byte ∈ ["}"%byte; "]"%byte]) then
            normalize_loop fuel input (position + 1) (depth - 1) (normalized ++ [byte])
          else normalize_loop fuel input (position + 1) depth (normalized ++ [byte])
      end
  end.

Definition normalize_go_json (input : bytes) : option bytes :=
  normalize_loop (S (length input)) input 0 0 [].

(* ------------------------------------------------------------------ *)
(** ** The cursor *)

Inductive ArrayState := ValueOrEnd | ArrayValue | ArrayCommaOrEnd.
Inductive ObjectState := KeyOrEnd | Key | ObjectValue | ObjectCommaOrEnd.
Inductive JsonFrame := FArray (state : ArrayState) | FObject (state : ObjectState).

Record JsonCursor := Cursor { input : bytes; position : nat }.

Definition JsonCursor_new (s : bytes) : JsonCursor := Cursor s 0.

Definition current (c : JsonCursor) : option byte := input c !! position c.

(** [self.position += n] *)
Definition advance (n : nat) (c : JsonCursor) : JsonCursor :=
  Cursor (input c) (position c + n).

(** The bytes from the position on. *)
Definition rest (c : JsonCursor) : bytes := drop (position c) (input c).

(** [while self.current().is_some_and(p) { self.position += 1 }] *)
Definition skip_while (p : byte → bool) (c : JsonCursor) : JsonCursor :=
  advance (run_length p (rest c)) c.

Definition skip_ws (c : JsonCursor) : JsonCursor := skip_while is_ws c.

(** The loop of [parse_string], after the opening quote. *)
Fixpoint string_loop (fuel : nat) (c : JsonCursor) : option JsonCursor :=
  match fuel with
  | O => None
  | S fuel =>
      match current c with
      | None => None
      | Some byte =>
          if bool_decide (byte = quote) then Some (advance 1 c)
          else if bool_decide (byte = backslash) then
            escape ← input c !! (position c + 1)%nat;
            if bool_decide (escape = "u"%byte) then
              _ ← parse_hex_quad (input c) (position c + 2);
              string_loop fuel (advance 6 c)
            else if is_escape escape then string_loop fuel (advance 2 c)
            else None
          else if bval byte <? 32 then None
          else if bval byte <? 128 then string_loop fuel (advance 1 c)
          else
            width ← valid_utf8_width (input c) (position c);
            string_loop fuel (advance width c)
      end
  end.

(** A range is its two positions. *)
Definition parse_string (c : JsonCursor) : option (nat * nat * JsonCursor) :=
  if bool_decide (current c = Some quote) then
    c' ← string_loop (S (length (input c))) (advance 1 c);
    Some (position c, position c', c')
  else None.

Definition parse_literal (literal : bytes) (c : JsonCursor) : option JsonCursor :=
  if bool_decide (take (length literal) (rest c) = literal)
  then Some (advance (length literal) c) else None.

Definition is_value_delimiter (b : option byte) : bool :=
  match b with
  | None => true
  | Some b => bool_decide (b ∈ [" "%byte; x0a; x0d; x09; ","%byte; "]"%byte; "}"%byte])
  end.

(** [while digit { position += 1 }; if position == digits { return Err(()) }] *)
Definition skip_digits (c : JsonCursor) : option JsonCursor :=
  let c' := skip_while is_digit c in
  if bool_decide (position c' = position c) then None else Some c'.

Definition parse_number (c : JsonCursor) : option JsonCursor :=
  let start := position c in
  let c := if bool_decide (current c = Some "-"%byte) then advance 1 c else c in
  c ← match current c with
      | Some b =>
          if bool_decide (b = "0"%byte) then Some (advance 1 c)
          else if between 49 57 (bval b) then Some (skip_while is_digit (advance 1 c))
          else None
      | None => None
      end;
  c ← (if bool_decide (current c = Some "."%byte) then skip_digits (advance 1 c) else Some c);
  c ← (if bool_decide (current c ∈ [Some "e"%byte; Some "E"%byte]) then
         let c := advance 1 c in
         let c := if bool_decide (current c ∈ [Some "+"%byte; Some "-"%byte])
                  then advance 1 c else c in
         skip_digits c
       else Some c);
  if bool_decide (position c = start) || negb (is_value_delimiter (current c))
  then None else Some c.

(** The top frame is the head of the list. *)
Definition start_value (c : JsonCursor) (frames : list JsonFrame) :
    option (JsonCursor * list JsonFrame) :=
  let c := skip_ws c in
  let open f :=
    if Nat.leb GO_MAX_JSON_NESTING_DEPTH (length frames) then None
    else Some (advance 1 c, f :: frames) in
  match current c with
  | None => None
  | Some b =>
      if bool_decide (b = quote) then '(_, _, c) ← parse_string c; Some (c, frames)
      else if bool_decide (b = "["%byte) then open (FArray ValueOrEnd)
      else if bool_decide (b = "{"%byte) then open (FObject KeyOrEnd)
      else if bool_decide (b = "t"%byte) then c ← parse_literal (lit "true") c; Some (c, frames)
      else if bool_decide (b = "f"%byte) then c ← parse_literal (lit "false") c; Some (c, frames)
      else if bool_decide (b = "n"%byte) then c ← parse_literal (lit "null") c; Some (c, frames)
      else if bool_decide (b = "-"%byte) || is_digit b then
        c ← parse_number c; Some (c, frames)
      else None
  end.

(** A key and its colon. *)
Definition parse_key (c : JsonCursor) : option JsonCursor :=
  '(_, _, c) ← parse_string c;
  let c := skip_ws c in
  if bool_decide (current c = Some ":"%byte) then Some (advance 1 c) else None.

(** The arm of the top frame; [frames] are the ones below it. *)
Definition frame_step (frame : JsonFrame) (frames : list JsonFrame) (c : JsonCursor) :
    option (JsonCursor * list JsonFrame) :=
  match frame with
  | FArray ValueOrEnd =>
      let c := skip_ws c in
      if bool_decide (current c = Some "]"%byte) then Some (advance 1 c, frames)
      else start_value c (FArray ArrayCommaOrEnd :: frames)
  | FArray ArrayValue =>
      let c := skip_ws c in
      if bool_decide (current c = Some "]"%byte) then None
      else start_value c (FArray ArrayCommaOrEnd :: frames)
  | FArray ArrayCommaOrEnd =>
      let c := skip_ws c in
      if bool_decide (current c = Some ","%byte) then
        Some (advance 1 c, FArray ArrayValue :: frames)
      else if bool_decide (current c = Some "]"%byte) then Some (advance 1 c, frames)
      else None
  | FObject KeyOrEnd =>
      let c := skip_ws c in
      if bool_decide (current c = Some "}"%byte) then Some (advance 1 c, frames)
      else c ← parse_key c; Some (c, FObject ObjectValue :: frames)
  | FObject Key =>
      let c := skip_ws c in
      if bool_decide (current c = Some "}"%byte) then None
      else c ← parse_key c; Some (c, FObject ObjectValue :: frames)
  | FObject ObjectValue => start_value c (FObject ObjectCommaOrEnd :: frames)
  | FObject ObjectCommaOrEnd =>
      let c := skip_ws c in
      if bool_decide (current c = Some ","%byte) then Some (advance 1 c, FObject Key :: frames)
      else if bool_decide (current c = Some "}"%byte) then Some (advance 1 c, frames)
      else None
  end.

Fixpoint skip_loop (fuel : nat) (frames : list JsonFrame) (c : JsonCursor) : option JsonCursor :=
  match frames with
  | [] => Some c
  | frame :: frames =>
      match fuel with
      | O => None
      | S fuel => '(c, frames) ← frame_step frame frames c; skip_loop fuel frames c
      end
  end.

Definition skip_value (c : JsonCursor) : option (nat * nat * JsonCursor) :=
  let c := skip_ws c in
  let start := position c in
  '(c', frames) ← start_value c [];
  c' ← skip_loop (S (length (input c))) frames c';
  Some (start, position c', c').

Definition at_end (c : JsonCursor) : bool * JsonCursor :=
  let c := skip_ws c in (Nat.eqb (position c) (length (input c)), c).

(* ------------------------------------------------------------------ *)
(** ** Reducing a profile's JSON to its known fields and deserialising it:
    [profile_field_kind], [reduce_profile_json], [validate_simple_value], the
    [go_record!] visitors and [decode_go_profile_json] of
    [core/identity/profile.rs]. *)


(** What [serde_json] hands to a visitor: entries in order, duplicates kept. *)
Inductive doc : Type :=
| DNull
| DBool (b : bool)
| DInteger (z : Z)
| DFloat
| DString (s : string)
| DArray (items : list doc)
| DObject (entries : list (string * doc)).

(** [serde_json::from_slice], before a visitor runs. *)
Class SerdeSlice := { from_slice : bytes → option doc }.

Inductive ProfileFieldKind := Scalar | Optional | Strings | Addresses.

#[export] Instance field_kind_eq_dec : EqDecision ProfileFieldKind.
Proof. solve_decision. Defined.

(** The long s, U+017F. *)
Definition long_s : string := String (ascii_of_nat 197) (String (ascii_of_nat 191) "").

Definition go_field_name `{Lowercase} (name : string) : string :=
  str_replace long_s "s" (to_lowercase name).

Definition profile_field_kind `{Lowercase} (name : string) (address : bool) :
    option ProfileFieldKind :=
  let name := go_field_name name in
  if address then
    if str_in name ["street"; "city"; "postal_code"; "country"] then Some Scalar
    else if str_in name ["state"; "valid_from"; "valid_to"] then Some Optional
    else None
  else if (name =? "full_name")%string then Some Scalar
  else if str_in name ["name_variants"; "email_addresses"; "phone_numbers"; "jurisdictions"]
  then Some Strings
  else if (name =? "date_of_birth")%string then Some Optional
  else if (name =? "addresses")%string then Some Addresses
  else None.

(** [self.skip_value()? == "null"]: the cursor after the literal. *)
Definition skip_null (c : JsonCursor) : option JsonCursor :=
  '(a, b, c') ← skip_value c;
  if bool_decide (slice (input c) a b = lit "null") then Some c' else None.

(** The loop over the strings of an array; the cursor after the bracket. *)
Fixpoint strings_loop (fuel : nat) (c : JsonCursor) : option JsonCursor :=
  match fuel with
  | O => None
  | S fuel =>
      let c := skip_ws c in
      c ← (if bool_decide (current c = Some quote) then '(_, _, c) ← parse_string c; Some c
           else if bool_decide (current c = Some "n"%byte) then skip_null c
           else None);
      let c := skip_ws c in
      if bool_decide (current c = Some ","%byte) then
        let c := skip_ws (advance 1 c) in
        if bool_decide (current c = Some "]"%byte) then None else strings_loop fuel c
      else if bool_decide (current c = Some "]"%byte) then Some (advance 1 c)
      else None
  end.

Definition validate_simple_value (input : bytes) (kind : ProfileFieldKind) : bool :=
  let c := skip_ws (JsonCursor_new input) in
  let valid (m : option JsonCursor) := match m with Some c => (at_end c).1 | None => false end in
  match kind with
  | Scalar | Optional =>
      valid (if bool_decide (current c = Some quote) then '(_, _, c) ← parse_string c; Some c
             else if bool_decide (current c = Some "n"%byte) then skip_null c
             else None)
  | Strings =>
      valid (if bool_decide (current c = Some "n"%byte) then skip_null c
             else if bool_decide (current c = Some "["%byte) then
               let c := skip_ws (advance 1 c) in
               if bool_decide (current c = Some "]"%byte) then Some (advance 1 c)
               else strings_loop (S (length input)) c
             else None)
  | Addresses => false
  end.

Section decode.
Context `{Lowercase} `{SerdeSlice}.

(** [serde_json::from_slice::<String>] *)
Definition key_of (raw : bytes) : option string :=
  match from_slice raw with Some (DString s) => Some s | _ => None end.

(** [reduce_object] and [reduce_address_array] call each other; their loops
    are the functions with [_loop].  Every call and every turn costs one unit
    of fuel. *)
Fixpoint reduce_object (fuel : nat) (c : JsonCursor) (address : bool) :
    option (bytes * JsonCursor) :=
  match fuel with
  | O => None
  | S fuel =>
      if bool_decide (current c = Some "{"%byte) then
        let c := skip_ws (advance 1 c) in
        if bool_decide (current c = Some "}"%byte) then Some (lit "{}", advance 1 c)
        else object_loop fuel c address (lit "{") false
      else None
  end
with object_loop (fuel : nat) (c : JsonCursor) (address : bool) (output : bytes)
    (has_field : bool) : option (bytes * JsonCursor) :=
  match fuel with
  | O => None
  | S fuel =>
      let c := skip_ws c in
      '(a, b, c) ← parse_string c;
      let key_raw := slice (input c) a b in
      key ← key_of key_raw;
      let c := skip_ws c in
      if bool_decide (current c ≠ Some ":"%byte) then None else
      let c := advance 1 c in
      '(c, output, has_field) ←
        match profile_field_kind key address with
        | Some kind =>
            '(value, c) ←
              match kind with
              | Addresses => reduce_address_array fuel c
              | _ =>
                  '(a, b, c) ← skip_value c;
                  let raw := slice (input c) a b in
                  if validate_simple_value raw kind then Some (raw, c) else None
              end;
            Some (c, output ++ (if has_field : bool then lit "," else []) ++ key_raw ++ lit ":"
                       ++ value, true)
        | None => '(_, _, c) ← skip_value c; Some (c, output, has_field)
        end;
      let c := skip_ws c in
      if bool_decide (current c = Some ","%byte) then
        let c := skip_ws (advance 1 c) in
        if bool_decide (current c = Some "}"%byte) then None
        else object_loop fuel c address output has_field
      else if bool_decide (current c = Some "}"%byte) then Some (output ++ lit "}", advance 1 c)
      else None
  end
with reduce_address_array (fuel : nat) (c : JsonCursor) : option (bytes * JsonCursor) :=
  match fuel with
  | O => None
  | S fuel =>
      let c := skip_ws c in
      if bool_decide (current c = Some "n"%byte) then
        c ← skip_null c; Some (lit "null", c)
      else if bool_decide (current c = Some "["%byte) then
        let c := skip_ws (advance 1 c) in
        if bool_decide (current c = Some "]"%byte) then Some (lit "[]", advance 1 c)
        else address_loop fuel c (lit "[") true
      else None
  end
with address_loop (fuel : nat) (c : JsonCursor) (output : bytes) (first : bool) :
    option (bytes * JsonCursor) :=
  match fuel with
  | O => None
  | S fuel =>
      let c := skip_ws c in
      let output := output ++ (if first : bool then [] else lit ",") in
      '(value, c) ←
        (if bool_decide (current c = Some "{"%byte) then reduce_object fuel c true
         else if bool_decide (current c = Some "n"%byte) then c ← skip_null c; Some (lit "null", c)
         else None);
      let output := output ++ value in
      let c := skip_ws c in
      if bool_decide (current c = Some ","%byte) then
        let c := skip_ws (advance 1 c) in
        if bool_decide (current c = Some "]"%byte) then None
        else address_loop fuel c output false
      else if bool_decide (current c = Some "]"%byte) then Some (output ++ lit "]", advance 1 c)
      else None
  end.

(** The fuel for an input: a call and a turn for every byte. *)
Definition reduce_fuel (input : bytes) : nat := (2 * length input + 2)%nat.

Definition reduce_profile_json (input : bytes) : option bytes :=
  let c := skip_ws (JsonCursor_new input) in
  '(value, c) ←
    (if bool_decide (current c = Some "n"%byte) then c ← skip_null c; Some (lit "null", c)
     else if bool_decide (current c = Some "{"%byte) then
       reduce_object (reduce_fuel input) c false
     else None);
  if (at_end c).1 then Some value else None.

(* ------------------------------------------------------------------ *)
(** ** The visitors *)

(** [Option<String>], [Option<Vec<Option<String>>>] and [Option<i64>] *)
Definition read_string_option (d : doc) : option (option string) :=
  match d with DNull => Some None | DString s => Some (Some s) | _ => None end.

Definition read_strings (d : doc) : option (list string) :=
  match d with
  | DNull => Some []
  | DArray items => mapM (λ d, default "" <$> read_string_option d) items
  | _ => None
  end.

Definition read_integer (d : doc) : option (option Z) :=
  match d with
  | DNull => Some None
  | DInteger z => if between i64_min i64_max z then Some (Some z) else None
  | _ => None
  end.

(** [go_record!]: null is the default record; the entries of an object are
    read in order. *)
Definition visit_record {R} (default_record : R) (read : string → doc → R → option R)
    (d : doc) : option R :=
  match d with
  | DNull => Some default_record
  | DObject entries =>
      foldl (λ r '(name, d), r ← r; read (go_field_name name) d r) (Some default_record) entries
  | _ => None
  end.

Definition ProfileAddress_default : ProfileAddress :=
  Build_ProfileAddress "" "" "" "" None None None.

Definition read_address_field (name : string) (d : doc) (r : ProfileAddress) :
    option ProfileAddress :=
  let '(Build_ProfileAddress st ci po co sta vf vt) := r in
  let scalar old f := o ← read_string_option d; Some (f (default old o)) in
  let optional f := o ← read_string_option d; Some (f o) in
  if (name =? "street")%string then
    scalar st (λ v, Build_ProfileAddress v ci po co sta vf vt)
  else if (name =? "city")%string then
    scalar ci (λ v, Build_ProfileAddress st v po co sta vf vt)
  else if (name =? "postal_code")%string then
    scalar po (λ v, Build_ProfileAddress st ci v co sta vf vt)
  else if (name =? "country")%string then
    scalar co (λ v, Build_ProfileAddress st ci po v sta vf vt)
  else if (name =? "state")%string then
    optional (λ v, Build_ProfileAddress st ci po co v vf vt)
  else if (name =? "valid_from")%string then
    optional (λ v, Build_ProfileAddress st ci po co sta v vt)
  else if (name =? "valid_to")%string then
    optional (λ v, Build_ProfileAddress st ci po co sta vf v)
  else Some r.

Definition read_address (d : doc) : option ProfileAddress :=
  visit_record ProfileAddress_default read_address_field d.

Definition read_addresses (d : doc) : option (list ProfileAddress) :=
  match d with
  | DNull => Some []
  | DArray items => mapM read_address items
  | _ => None
  end.

Definition Profile_default : Profile := Build_Profile "" [] None [] [] [] [].

Definition read_profile_field (name : string) (d : doc) (r : Profile) : option Profile :=
  let '(Build_Profile fn nv dob ad em ph ju) := r in
  if (name =? "full_name")%string then
    o ← read_string_option d; Some (Build_Profile (default fn o) nv dob ad em ph ju)
  else if (name =? "name_variants")%string then
    v ← read_strings d; Some (Build_Profile fn v dob ad em ph ju)
  else if (name =? "date_of_birth")%string then
    o ← read_string_option d; Some (Build_Profile fn nv o ad em ph ju)
  else if (name =? "addresses")%string then
    v ← read_addresses d; Some (Build_Profile fn nv dob v em ph ju)
  else if (name =? "email_addresses")%string then
    v ← read_strings d; Some (Build_Profile fn nv dob ad v ph ju)
  else if (name =? "phone_numbers")%string then
    v ← read_strings d; Some (Build_Profile fn nv dob ad em v ju)
  else if (name =? "jurisdictions")%string then
    v ← read_strings d; Some (Build_Profile fn nv dob ad em ph v)
  else Some r.

Definition read_profile (d : doc) : option Profile :=
  visit_record Profile_default read_profile_field d.

Definition decode_go_profile_json (input : bytes) : option Profile :=
  normalized ← normalize_go_json input;
  reduced ← reduce_profile_json normalized;
  d ← from_slice reduced;
  read_profile d.

End decode.
