(* ===== verification/CursorFacts.v ===== *)
(** The cursor of [core/identity/profile.rs] and the bytes that are left to it:
    the shared lemmas of its proofs, escapes and UTF-8 sequences. *)
From S2P Require Import Prelude.
From S2P Require Import Encryption.
From S2P Require Import JsonText.
From S2P Require Import ProfileJson.
From Stdlib Require Import Ascii Strings.Byte ZifyBool.

(** The characters of a string that stand for themselves: printable ASCII but
    the quote and the backslash, and well-formed UTF-8 sequences. *)
Definition in_range (lo hi : Z) (b : byte) : Prop := lo ≤ bval b ≤ hi.

Inductive utf8_char : bytes → Prop :=
| utf8_ascii a : in_range 32 127 a → a ≠ quote → a ≠ backslash → utf8_char [a]
| utf8_2 a b : in_range 194 223 a → in_range 128 191 b → utf8_char [a; b]
| utf8_3_low a b c :
    bval a = 224 → in_range 160 191 b → in_range 128 191 c → utf8_char [a; b; c]
| utf8_3 a b c :
    in_range 225 236 a ∨ in_range 238 239 a → in_range 128 191 b → in_range 128 191 c →
    utf8_char [a; b; c]
| utf8_3_no_surrogate a b c :
    bval a = 237 → in_range 128 159 b → in_range 128 191 c → utf8_char [a; b; c]
| utf8_4_low a b c d :
    bval a = 240 → in_range 144 191 b → in_range 128 191 c → in_range 128 191 d →
    utf8_char [a; b; c; d]
| utf8_4 a b c d :
    in_range 241 243 a → in_range 128 191 b → in_range 128 191 c → in_range 128 191 d →
    utf8_char [a; b; c; d]
| utf8_4_high a b c d :
    bval a = 244 → in_range 128 143 b → in_range 128 191 c → in_range 128 191 d →
    utf8_char [a; b; c; d].

Notation jstring := (json_string utf8_char).
Notation jchars := (json_chars utf8_char).
Notation jreads := (reads utf8_char).

(* ------------------------------------------------------------------ *)
(** ** The cursor and the bytes that are left *)

Lemma between_spec lo hi v : between lo hi v = true ↔ lo ≤ v ≤ hi.
Proof. unfold between. rewrite andb_true_iff, !Z.leb_le. done. Qed.

Lemma between_false lo hi v : between lo hi v = false ↔ ¬ lo ≤ v ≤ hi.
Proof. rewrite <-between_spec. destruct (between lo hi v); naive_solver. Qed.

Lemma current_rest c : current c = rest c !! 0%nat.
Proof. unfold current, rest. rewrite lookup_drop. by rewrite Nat.add_0_r. Qed.

Lemma lookup_rest c n : input c !! (position c + n)%nat = rest c !! n.
Proof. unfold rest. by rewrite lookup_drop. Qed.

Lemma rest_advance n c : rest (advance n c) = drop n (rest c).
Proof. unfold rest, advance. simpl. by rewrite drop_drop. Qed.

Lemma advance_advance m n c : advance n (advance m c) = advance (m + n) c.
Proof. unfold advance. simpl. f_equal. lia. Qed.

Lemma advance_0 c : advance 0 c = c.
Proof. destruct c. unfold advance. simpl. f_equal. lia. Qed.

Lemma rest_app s k c : rest c = s ++ k → rest (advance (length s) c) = k.
Proof. intros E. rewrite rest_advance, E. by rewrite drop_app_length. Qed.

Lemma rest_length c : (length (rest c) ≤ length (input c))%nat.
Proof. unfold rest. rewrite length_drop. lia. Qed.

Lemma slice_rest c s k :
  rest c = s ++ k → slice (input c) (position c) (position c + length s) = s.
Proof.
  intros E. unfold slice. fold (rest c). rewrite E.
  replace (position c + length s - position c)%nat with (length s) by lia.
  by rewrite take_app_length.
Qed.

Lemma skip_while_app p s k c :
  Forall (λ b, p b = true) s → until p k → rest c = s ++ k →
  skip_while p c = advance (length s) c.
Proof. intros Hs Hk E. unfold skip_while. by rewrite E, run_length_app. Qed.

Lemma skip_while_split p c :
  ∃ s, Forall (λ b, p b = true) s ∧ until p (rest (skip_while p c)) ∧
    rest c = s ++ rest (skip_while p c) ∧ skip_while p c = advance (length s) c.
Proof.
  destruct (run_length_split p (rest c)) as [H1 H2].
  exists (take (run_length p (rest c)) (rest c)).
  unfold skip_while. rewrite rest_advance, take_drop, length_take_le by apply run_length_le.
  done.
Qed.

(** The cursor at the end of a text that was just read. *)
Definition reads_to (c c' : JsonCursor) (s : bytes) : Prop :=
  rest c = s ++ rest c' ∧ c' = advance (length s) c.

Lemma reads_to_refl c : reads_to c c [].
Proof. split; [done|]. by rewrite advance_0. Qed.

Lemma reads_to_trans c1 c2 c3 s t :
  reads_to c1 c2 s → reads_to c2 c3 t → reads_to c1 c3 (s ++ t).
Proof.
  intros [E1 ->] [E2 ->]. split; [by rewrite E1, E2, app_assoc|].
  by rewrite advance_advance, length_app.
Qed.

Lemma reads_to_intro c s k : rest c = s ++ k → reads_to c (advance (length s) c) s.
Proof. intros E. split; [|done]. by rewrite (rest_app s k c E). Qed.

Lemma reads_to_slice c c' s : reads_to c c' s → slice (input c) (position c) (position c') = s.
Proof. intros [E ->]. eapply slice_rest. exact E. Qed.

Lemma reads_to_input c c' s : reads_to c c' s → input c' = input c.
Proof. intros [_ ->]. done. Qed.

Lemma reads_to_length c c' s :
  reads_to c c' s → length (rest c) = (length s + length (rest c'))%nat.
Proof. intros [E _]. by rewrite E, length_app. Qed.

Lemma skip_ws_reads c :
  ∃ w, ws w ∧ reads_to c (skip_ws c) w ∧ until is_ws (rest (skip_ws c)).
Proof. destruct (skip_while_split is_ws c) as (s & ? & ? & ? & ?). by exists s. Qed.

Lemma skip_ws_app w k c :
  ws w → until is_ws k → rest c = w ++ k → skip_ws c = advance (length w) c.
Proof. apply skip_while_app. Qed.

Lemma skip_ws_id c : until is_ws (rest c) → skip_ws c = c.
Proof. intros H. rewrite (skip_ws_app [] (rest c)); [apply advance_0|done..]. Qed.

(** Reads one byte that is known. *)
Lemma current_reads c b : current c = Some b → reads_to c (advance 1 c) [b].
Proof.
  rewrite current_rest. intros E. destruct (rest c) as [|b' k] eqn:Er; [done|].
  simpl in E. injection E as ->. by apply (reads_to_intro c [b] k).
Qed.

Lemma current_app c b k : rest c = b :: k → current c = Some b.
Proof. intros E. by rewrite current_rest, E. Qed.

(* ------------------------------------------------------------------ *)
(** ** Strings *)

Lemma hex_value_spec b : is_Some (hex_value b) ↔ is_hex b = true.
Proof.
  unfold hex_value, is_hex, is_digit, between.
  destruct ((48 <=? bval b) && (bval b <=? 57)) eqn:E1; simpl; [by split; eauto|].
  destruct ((97 <=? bval b) && (bval b <=? 102)) eqn:E2; simpl; [by split; eauto|].
  destruct ((65 <=? bval b) && (bval b <=? 70)) eqn:E3; simpl; [by split; eauto|].
  split; [by intros [? ?]|done].
Qed.

Lemma parse_hex_quad_spec s n :
  is_Some (parse_hex_quad s n) ↔
  ∃ a b c d k, drop n s = a :: b :: c :: d :: k ∧
    is_hex a = true ∧ is_hex b = true ∧ is_hex c = true ∧ is_hex d = true.
Proof.
  unfold parse_hex_quad. setoid_rewrite <-hex_value_spec.
  rewrite <-!(lookup_drop s n).
  split.
  - intros [v E]. simplify_option_eq.
    destruct (drop n s) as [|a [|b [|c [|d k]]]]; simplify_eq/=.
    do 5 eexists. split; [done|]. eauto.
  - intros (a & b & c & d & k & -> & [? Ea] & [? Eb] & [? Ec] & [? Ed]). simpl.
    rewrite Ea. simpl. rewrite Eb. simpl. rewrite Ec. simpl. rewrite Ed. eauto.
Qed.

Lemma valid_utf8_width_spec s n w :
  valid_utf8_width s n = Some w ↔
  ∃ p k, drop n s = p ++ k ∧ length p = w ∧ utf8_char p ∧ (2 ≤ w)%nat.
Proof.
  unfold valid_utf8_width.
  replace (s !! n) with (drop n s !! 0%nat) by (rewrite lookup_drop; f_equal; lia).
  rewrite <-!(lookup_drop s n). split.
  - intros E. destruct (drop n s) as [|a [|b [|c [|d k]]]]; simpl in E;
      unfold byte_in in E; try done;
      repeat case_match; simplify_eq; try (exfalso; lia);
      match goal with
      | |- ∃ p k, ?l = _ ∧ length p = ?w ∧ _ => exists (take w l), (drop w l)
      end; simpl; (split_and!; [done|done| |lia]).
    all: unfold between in *.
    all: first
      [ by apply utf8_2; unfold in_range; lia | by apply utf8_3_low; unfold in_range; lia
      | by apply utf8_3_no_surrogate; unfold in_range; lia
      | by apply utf8_3; unfold in_range; lia | by apply utf8_4_low; unfold in_range; lia
      | by apply utf8_4_high; unfold in_range; lia | by apply utf8_4; unfold in_range; lia ].
  - intros (p & k & -> & <- & Hp & Hw).
    destruct Hp; simpl in *; unfold in_range, byte_in, between in *; try lia;
      repeat (case_match; try lia; try done).
Qed.

(* ------------------------------------------------------------------ *)
(** ** The cursor reads exactly the JSON grammar: [skip_value] of
    [core/identity/profile.rs] accepts a value iff the grammar does, up to the
    nesting limit, and stops right behind it. *)

(* ------------------------------------------------------------------ *)
(** ** Strings *)

Lemma hex_quad_rest c n :
  parse_hex_quad (input c) (position c + n) = parse_hex_quad (rest c) n.
Proof. unfold parse_hex_quad. by rewrite <-!Nat.add_assoc, !lookup_rest. Qed.

Lemma utf8_width_rest c : valid_utf8_width (input c) (position c) = valid_utf8_width (rest c) 0.
Proof.
  unfold valid_utf8_width. rewrite !lookup_rest.
  replace (input c !! position c) with (rest c !! 0%nat); [done|].
  rewrite <-lookup_rest. f_equal. lia.
Qed.

Lemma escape_plain c : is_escape c = true → c ≠ "u"%byte.
Proof. intros E ->. done. Qed.

Lemma string_loop_sound fuel c c' :
  string_loop fuel c = Some c' → ∃ s, jchars s ∧ reads_to c c' s.
Proof.
  revert c. induction fuel as [|fuel IH]; intros c E; simpl in E; [done|].
  assert (Hmore : ∀ n p, rest c = p ++ drop n (rest c) → length p = n →
            (∀ s, jchars s → jchars (p ++ s)) → string_loop fuel (advance n c) = Some c' →
            ∃ s, jchars s ∧ reads_to c c' s).
  { intros n p Ep <- Hp (s & Hs & Hr)%IH. exists (p ++ s). split; [by apply Hp|].
    eapply reads_to_trans; [|exact Hr]. by eapply reads_to_intro. }
  destruct (current c) as [b|] eqn:Ec; [|done].
  pose proof Ec as Er. rewrite current_rest in Er.
  case_bool_decide as Hq; [simplify_eq|].
  { exists [quote]. split; [constructor|]. by apply current_reads. }
  case_bool_decide as Hb; [subst b|].
  - rewrite lookup_rest, hex_quad_rest in E.
    destruct (rest c !! 1%nat) as [e|] eqn:Ee; [|done]. simpl in E.
    destruct (rest c) as [|r0 [|r1 r]] eqn:Hr; simplify_eq/=.
    case_bool_decide as Hu; [subst e|].
    + destruct (parse_hex_quad _ 2) as [v|] eqn:Ev; [|done]. simpl in E.
      apply mk_is_Some, parse_hex_quad_spec in Ev as (x & y & z & w & k & Ek & ?).
      change (r = x :: y :: z :: w :: k) in Ek. subst r.
      apply (Hmore 6%nat [backslash; "u"%byte; x; y; z; w]); [done..| |done].
      intros s Hs. simpl. naive_solver eauto using chars_unicode.
    + destruct (is_escape e) eqn:He; [|done].
      apply (Hmore 2%nat [backslash; e]); [done..| |done].
      intros s Hs. by apply chars_escape.
  - destruct (bval b <? 32) eqn:E32; [done|].
    destruct (bval b <? 128) eqn:E128.
    + destruct (rest c) as [|r0 r] eqn:Hr; simplify_eq/=.
      apply (Hmore 1%nat [b]); [done..| |done]. intros s Hs. apply chars_plain; [|done].
      constructor; [unfold in_range; lia|done..].
    + rewrite utf8_width_rest in E. destruct (valid_utf8_width _ 0) as [w|] eqn:Ew; [|done].
      apply valid_utf8_width_spec in Ew as (p & k & Ep & <- & Hp & _). rewrite drop_0 in Ep.
      apply (Hmore (length p) p); [by rewrite Ep, drop_app_length|done| |done].
      intros s Hs. by apply chars_plain.
Qed.

(** A plain character is one byte of printable ASCII or a longer sequence. *)
Lemma utf8_char_cases p :
  utf8_char p →
  (∃ b, p = [b] ∧ in_range 32 127 b ∧ b ≠ quote ∧ b ≠ backslash) ∨
  ((2 ≤ length p)%nat ∧ ∃ b p', p = b :: p' ∧ 128 ≤ bval b).
Proof. destruct 1; unfold in_range in *; [left; eauto|right..]; simpl; split; try lia; eauto 6 with lia. Qed.

Lemma bval_ne b b' : bval b ≠ bval b' → b ≠ b'.
Proof. congruence. Qed.

Lemma chars_length s : jchars s → (1 ≤ length s)%nat.
Proof. induction 1; rewrite ?length_app; simpl; lia. Qed.

Lemma string_loop_complete s : jchars s → ∀ fuel c k,
  (length s ≤ fuel)%nat → rest c = s ++ k → string_loop fuel c = Some (advance (length s) c).
Proof.
  induction 1 as [|e s He Hs IH|x y z w s Hx Hy Hz Hw Hs IH|p s Hp Hs IH];
    [pose proof (chars_end utf8_char) as Hs|..]; intros fuel c k Hf Hr; 
      (destruct fuel as [|fuel]; [rewrite ?length_app in Hf; pose proof (chars_length _ Hs); simpl in *; lia|]).
  - cbn [string_loop]. by rewrite (current_app c quote k), bool_decide_true by done.
  - cbn [string_loop]. rewrite (current_app c backslash (e :: s ++ k)) by done.
    rewrite bool_decide_false, bool_decide_true, lookup_rest, Hr by done. simpl.
    rewrite bool_decide_false by by apply escape_plain.
    rewrite He. rewrite (IH fuel (advance 2 c) k).
    + by rewrite advance_advance.
    + simpl in Hf. lia.
    + by rewrite rest_advance, Hr.
  - cbn [string_loop].
    rewrite (current_app c backslash ("u"%byte :: x :: y :: z :: w :: s ++ k)) by done.
    rewrite bool_decide_false, bool_decide_true, lookup_rest, hex_quad_rest, Hr by done. simpl.
    destruct (parse_hex_quad _ 2) as [v|] eqn:Ev.
    2: { destruct (proj2 (parse_hex_quad_spec
           (backslash :: "u"%byte :: x :: y :: z :: w :: s ++ k) 2)) as [v E]; [|by simplify_eq].
         exists x, y, z, w. eauto 8. }
    simpl. rewrite (IH fuel (advance 6 c) k).
    + by rewrite advance_advance.
    + simpl in Hf. lia.
    + by rewrite rest_advance, Hr.
  - destruct (utf8_char_cases p Hp) as [(b & -> & Hb & Hq & Hbs)|[Hl (b & p' & -> & Hb)]].
    + cbn [string_loop]. rewrite (current_app c b (s ++ k)) by done.
      rewrite !bool_decide_false by done. unfold in_range in Hb.
      replace (bval b <? 32) with false by lia. replace (bval b <? 128) with true by lia.
      rewrite (IH fuel (advance 1 c) k).
      * by rewrite advance_advance.
      * simpl in Hf. lia.
      * by rewrite rest_advance, Hr.
    + cbn [string_loop]. rewrite (current_app c b (p' ++ s ++ k)) by (by rewrite Hr, <-app_assoc).
      rewrite !bool_decide_false by (apply bval_ne; cbn; lia).
      replace (bval b <? 32) with false by lia. replace (bval b <? 128) with false by lia.
      rewrite utf8_width_rest.
      rewrite (proj2 (valid_utf8_width_spec (rest c) 0 (length (b :: p'))))
        by (exists (b :: p'), (s ++ k); rewrite drop_0, Hr, <-app_assoc; auto).
      cbn [mbind option_bind]. rewrite (IH fuel (advance (length (b :: p')) c) k).
      * rewrite advance_advance. by rewrite length_app.
      * rewrite length_app in Hf. simpl in Hf. lia.
      * rewrite rest_advance, Hr, <-app_assoc. by rewrite drop_app_length.
Qed.

Lemma parse_string_sound c a b c' :
  parse_string c = Some (a, b, c') →
  ∃ s, jstring s ∧ reads_to c c' s ∧ a = position c ∧ b = position c'.
Proof.
  unfold parse_string. case_bool_decide as Hq; [|done].
  destruct (string_loop _ _) as [c1|] eqn:El; [|done]. intros [= <- <- <-].
  apply string_loop_sound in El as (s & Hs & Hr).
  exists (quote :: s). split_and!; [by constructor| |done..].
  apply current_reads in Hq. by apply (reads_to_trans _ _ _ [quote] s Hq).
Qed.

Lemma parse_string_complete c s k :
  jstring s → rest c = s ++ k →
  parse_string c = Some (position c, (position c + length s)%nat, advance (length s) c).
Proof.
  intros [s' Hs] Hr. unfold parse_string.
  rewrite (current_app c quote (s' ++ k)), bool_decide_true by done.
  rewrite (string_loop_complete s' Hs _ _ k).
  - cbn [mbind option_bind]. by rewrite advance_advance.
  - pose proof (rest_length c) as Hl. rewrite Hr in Hl. simpl in Hl. rewrite length_app in Hl. lia.
  - by rewrite rest_advance, Hr.
Qed.

(* ------------------------------------------------------------------ *)
(** ** Numbers and literals *)

Lemma skip_digits_spec c c' :
  skip_digits c = Some c' ↔
  ∃ ds, digits ds ∧ ds ≠ [] ∧ reads_to c c' ds ∧ until is_digit (rest c').
Proof.
  unfold skip_digits. destruct (skip_while_split is_digit c) as (ds & Hds & Hu & Hr & Hc).
  rewrite Hc in *. split.
  - case_bool_decide as Hp; [done|]. intros [= <-]. exists ds. split_and!; try done.
    intros ->. apply Hp. simpl. lia.
  - intros (ds' & Hds' & Hne & [Er ->] & Hu').
    rewrite (skip_while_app is_digit ds' _ c Hds' Hu' Er) in Hc.
    assert (length ds' = length ds) as El.
    { apply (f_equal position) in Hc. unfold advance in Hc. simpl in Hc. lia. }
    rewrite El. case_bool_decide as Hp; [|done]. unfold advance in Hp. simpl in Hp.
    destruct ds'; [done|]. simpl in El. lia.
Qed.

Lemma is_digit_bval b : is_digit b = true ↔ 48 ≤ bval b ≤ 57.
Proof. unfold is_digit. lia. Qed.

Lemma bval_inj a b : bval a = bval b → a = b.
Proof.
  unfold bval. intros E%N2Z.inj. apply (f_equal Byte.of_N) in E.
  rewrite !Byte.of_to_N in E. by injection E.
Qed.

Lemma delimiter_cases b :
  is_delimiter b = true ↔ b ∈ [" "%byte; x0a; x0d; x09; ","%byte; "]"%byte; "}"%byte].
Proof.
  unfold is_delimiter, is_ws. rewrite orb_true_iff, !bool_decide_eq_true. set_solver.
Qed.

Lemma ends_until p k :
  (∀ b, is_delimiter b = true → p b = false) → ends_value k → until p k.
Proof. intros Hp. destruct k; simpl; auto. Qed.

Lemma delimiter_no_digit b : is_delimiter b = true → is_digit b = false.
Proof. rewrite delimiter_cases. set_unfold. naive_solver. Qed.

Lemma ends_value_current c :
  is_value_delimiter (current c) = true ↔ ends_value (rest c).
Proof.
  rewrite current_rest. destruct (rest c) as [|b k]; simpl; [done|].
  rewrite bool_decide_eq_true. by rewrite delimiter_cases.
Qed.

Definition fraction (s : bytes) : Prop :=
  s = [] ∨ ∃ ds, s = "."%byte :: ds ∧ digits ds ∧ ds ≠ [].

Definition exponent (s : bytes) : Prop :=
  s = [] ∨ ∃ e g ds, s = e :: g ++ ds ∧ e ∈ ["e"%byte; "E"%byte] ∧
    (g = [] ∨ g = ["+"%byte] ∨ g = ["-"%byte]) ∧ digits ds ∧ ds ≠ [].

Definition integer (s : bytes) : Prop :=
  s = ["0"%byte] ∨ ∃ d ds, s = d :: ds ∧ is_digit d = true ∧ d ≠ "0"%byte ∧ digits ds.

(** The arms of [parse_number]. *)
Definition parse_integer (c : JsonCursor) : option JsonCursor :=
  match current c with
  | Some b =>
      if bool_decide (b = "0"%byte) then Some (advance 1 c)
      else if between 49 57 (bval b) then Some (skip_while is_digit (advance 1 c))
      else None
  | None => None
  end.

Definition parse_fraction (c : JsonCursor) : option JsonCursor :=
  if bool_decide (current c = Some "."%byte) then skip_digits (advance 1 c) else Some c.

Definition parse_exponent (c : JsonCursor) : option JsonCursor :=
  if bool_decide (current c ∈ [Some "e"%byte; Some "E"%byte]) then
    let c := advance 1 c in
    let c := if bool_decide (current c ∈ [Some "+"%byte; Some "-"%byte])
             then advance 1 c else c in
    skip_digits c
  else Some c.

Definition parse_sign (c : JsonCursor) : JsonCursor :=
  if bool_decide (current c = Some "-"%byte) then advance 1 c else c.

Lemma parse_number_arms c :
  parse_number c =
  (c1 ← parse_integer (parse_sign c); c2 ← parse_fraction c1; c3 ← parse_exponent c2;
   if bool_decide (position c3 = position c) || negb (is_value_delimiter (current c3))
   then None else Some c3).
Proof. done. Qed.

Lemma parse_integer_sound c c' :
  parse_integer c = Some c' → ∃ s, integer s ∧ reads_to c c' s.
Proof.
  unfold parse_integer. destruct (current c) as [b|] eqn:Ec; [|done].
  apply current_reads in Ec. case_bool_decide as H0.
  - subst b. intros [= <-]. exists ["0"%byte]. split; [by left|done].
  - destruct (between 49 57 (bval b)) eqn:E; [|done]. intros [= <-].
    destruct (skip_while_split is_digit (advance 1 c)) as (ds & Hds & _ & Hr).
    exists (b :: ds). split; [|by apply (reads_to_trans _ _ _ [b] ds Ec)].
    right. exists b, ds. apply between_spec in E. split_and!; try done. unfold is_digit. lia.
Qed.

Lemma parse_integer_complete c s k :
  integer s → until is_digit k → rest c = s ++ k →
  parse_integer c = Some (advance (length s) c).
Proof.
  intros Hs Hk Hr. unfold parse_integer.
  destruct Hs as [->|(d & ds & -> & Hd & H0 & Hds)].
  - by rewrite (current_app c "0"%byte k), bool_decide_true by done.
  - rewrite (current_app c d (ds ++ k)), bool_decide_false by done.
    assert (between 49 57 (bval d) = true) as ->.
    { apply is_digit_bval in Hd. apply between_spec.
      enough (bval d ≠ 48) by lia. intros E. by apply H0, bval_inj. }
    rewrite (skip_while_app is_digit ds k) by (try done; by rewrite rest_advance, Hr).
    by rewrite advance_advance.
Qed.

Lemma parse_fraction_sound c c' :
  parse_fraction c = Some c' → ∃ s, fraction s ∧ reads_to c c' s.
Proof.
  unfold parse_fraction. case_bool_decide as Hc.
  - intros (ds & Hds & Hne & Hr & _)%skip_digits_spec. apply current_reads in Hc.
    exists ("."%byte :: ds). split; [right; eauto|]. by apply (reads_to_trans _ _ _ ["."%byte] ds Hc).
  - intros [= <-]. exists []. split; [by left|apply reads_to_refl].
Qed.

Lemma parse_fraction_complete c s k :
  fraction s → until (λ b, is_digit b || bool_decide (b = "."%byte)) k → rest c = s ++ k →
  parse_fraction c = Some (advance (length s) c).
Proof.
  intros Hs Hk Hr. unfold parse_fraction.
  assert (until is_digit k) as Hkd.
  { destruct k; simpl in *; [done|]. by apply orb_false_iff in Hk as []. }
  destruct Hs as [->|(ds & -> & Hds & Hne)].
  - rewrite bool_decide_false; [by rewrite advance_0|].
    rewrite current_rest, Hr. destruct k as [|b k]; simpl in *; [done|].
    apply orb_false_iff in Hk as [_ Hk%bool_decide_eq_false]. congruence.
  - rewrite (current_app c "."%byte (ds ++ k)), bool_decide_true by done.
    replace (advance (length ("."%byte :: ds)) c) with (advance (length ds) (advance 1 c))
      by apply advance_advance.
    apply skip_digits_spec. exists ds.
    assert (rest (advance 1 c) = ds ++ k) as E by by rewrite rest_advance, Hr.
    split_and!; try done; [by eapply reads_to_intro|]. by rewrite (rest_app ds k).
Qed.

Lemma parse_exponent_sound c c' :
  parse_exponent c = Some c' → ∃ s, exponent s ∧ reads_to c c' s.
Proof.
  unfold parse_exponent. case_bool_decide as Hc.
  - assert (∃ e, e ∈ ["e"%byte; "E"%byte] ∧ reads_to c (advance 1 c) [e]) as (e & He & Hre).
    { destruct (current c) as [e|] eqn:Ec; [|set_solver]. exists e.
      split; [set_solver|by apply current_reads]. }
    assert (∀ c1 g, (g = [] ∨ g = ["+"%byte] ∨ g = ["-"%byte]) →
              reads_to (advance 1 c) c1 g → skip_digits c1 = Some c' →
              ∃ s, exponent s ∧ reads_to c c' s) as Hsign.
    { intros c1 g Hg Hrg (ds & Hds & Hne & Hrd & _)%skip_digits_spec.
      exists (e :: g ++ ds). split; [right; by exists e, g, ds|].
      apply (reads_to_trans _ _ _ [e] _ Hre). by eapply reads_to_trans. }
    cbv zeta. case_bool_decide as Hg; intros E.
    + destruct (current (advance 1 c)) as [g|] eqn:Eg; [|set_solver].
      apply (Hsign _ [g]) in E; [done| |by apply current_reads]. set_solver.
    + apply (Hsign _ []) in E; [done|by left|apply reads_to_refl].
  - intros [= <-]. exists []. split; [by left|apply reads_to_refl].
Qed.

Lemma parse_exponent_complete c s k :
  exponent s → ends_value k → rest c = s ++ k →
  parse_exponent c = Some (advance (length s) c).
Proof.
  intros Hs Hk Hr. unfold parse_exponent.
  assert (until is_digit k) as Hkd by (eapply ends_until; [apply delimiter_no_digit|done]).
  destruct Hs as [->|(e & g & ds & -> & He & Hg & Hds & Hne)].
  - rewrite bool_decide_false; [by rewrite advance_0|].
    rewrite current_rest, Hr. destruct k as [|b k]; simpl in *; [set_solver|].
    apply delimiter_cases in Hk. set_unfold. naive_solver.
  - rewrite (current_app c e ((g ++ ds) ++ k)) by done.
    rewrite bool_decide_true by set_solver. cbv zeta.
    assert (rest (advance 1 c) = g ++ ds ++ k) as E1
      by (rewrite rest_advance, Hr; simpl; rewrite drop_0, <-app_assoc; done).
    set (c1 := if bool_decide _ then _ else _).
    assert (c1 = advance (length g) (advance 1 c)) as ->.
    { subst c1. destruct Hg as [->|[->| ->]].
      - rewrite bool_decide_false; [by rewrite advance_0|].
        rewrite current_rest, E1. destruct Hds as [|d ds Hd]; [done|]. simpl.
        apply is_digit_bval in Hd. set_unfold.
        intros [E|[E|[]]]; simplify_eq; cbn in Hd; lia.
      - rewrite (current_app _ "+"%byte (ds ++ k)) by done. by rewrite bool_decide_true by set_solver.
      - rewrite (current_app _ "-"%byte (ds ++ k)) by done. by rewrite bool_decide_true by set_solver. }
    apply (rest_app g (ds ++ k)) in E1. apply skip_digits_spec. exists ds.
    split_and!; try done.
    + split; [|by rewrite !advance_advance; f_equal; simpl; rewrite length_app; lia].
      rewrite E1. f_equal. symmetry. rewrite rest_app with (s := e :: g ++ ds) (k := k); done.
    + by rewrite rest_app with (s := e :: g ++ ds) (k := k).
Qed.

Lemma parse_sign_spec c :
  ∃ s, (s = [] ∨ s = ["-"%byte]) ∧ reads_to c (parse_sign c) s.
Proof.
  unfold parse_sign. case_bool_decide as Hc.
  - exists ["-"%byte]. split; [by right|by apply current_reads].
  - exists []. split; [by left|apply reads_to_refl].
Qed.

Lemma parse_number_sound c c' :
  parse_number c = Some c' → ∃ s, json_number s ∧ reads_to c c' s ∧ ends_value (rest c').
Proof.
  rewrite parse_number_arms. intros E. simplify_option_eq.
  destruct (parse_sign_spec c) as (g & Hg & Hr).
  repeat match goal with
  | H : parse_integer _ = Some _ |- _ => apply parse_integer_sound in H as (i & Hi & Hri)
  | H : parse_fraction _ = Some _ |- _ => apply parse_fraction_sound in H as (f & Hf & Hrf)
  | H : parse_exponent _ = Some _ |- _ => apply parse_exponent_sound in H as (x & Hx & Hrx)
  end.
  destruct (is_value_delimiter (current _)) eqn:Hv; simplify_eq/=.
  exists (g ++ i ++ f ++ x). split_and!; [by constructor|eauto using reads_to_trans|].
  by apply ends_value_current.
Qed.

Lemma exponent_head x k :
  exponent x → ends_value k →
  until (λ b, is_digit b || bool_decide (b = "."%byte)) (x ++ k).
Proof.
  intros [->|(e & g & ds & -> & He & _)] Hk; simpl.
  - eapply ends_until; [|exact Hk]. simpl. intros b. rewrite delimiter_cases.
    set_unfold. naive_solver.
  - set_unfold. naive_solver.
Qed.

Lemma fraction_head f x k :
  fraction f → exponent x → ends_value k → until is_digit (f ++ x ++ k).
Proof.
  intros [->|(ds & -> & _)] Hx Hk; [|done].
  pose proof (exponent_head x k Hx Hk) as H. simpl. destruct (x ++ k); simpl in *; [done|].
  by apply orb_false_iff in H as [].
Qed.

Lemma parse_number_complete c s k :
  json_number s → ends_value k → rest c = s ++ k →
  parse_number c = Some (advance (length s) c).
Proof.
  intros Hs Hk Hr. destruct Hs as [g i f x Hg Hi Hf Hx].
  rewrite parse_number_arms. rewrite <-!app_assoc in Hr.
  assert (parse_sign c = advance (length g) c) as ->.
  { unfold parse_sign. destruct Hg as [->| ->].
    - rewrite bool_decide_false; [by rewrite advance_0|]. rewrite current_rest, Hr. simpl.
      destruct Hi as [->|(d & ds & -> & Hd & _)]; simpl; [done|].
      intros [= ->]. done.
    - by rewrite (current_app c "-"%byte (i ++ f ++ x ++ k)), bool_decide_true by done. }
  pose proof (rest_app _ _ _ Hr) as Hr1.
  rewrite (parse_integer_complete _ i (f ++ x ++ k)) by (try done; by apply fraction_head).
  cbn [mbind option_bind]. pose proof (rest_app _ _ _ Hr1) as Hr2.
  rewrite (parse_fraction_complete _ f (x ++ k)) by (try done; by apply exponent_head).
  cbn [mbind option_bind]. pose proof (rest_app _ _ _ Hr2) as Hr3.
  rewrite (parse_exponent_complete _ x k) by done.
  cbn [mbind option_bind]. pose proof (rest_app _ _ _ Hr3) as Hr4.
  rewrite !advance_advance in *.
  rewrite bool_decide_false.
  - rewrite (proj2 (ends_value_current _)) by by rewrite Hr4.
    simpl. f_equal. f_equal. rewrite !length_app. lia.
  - unfold advance. simpl. destruct Hi as [->|(d & ds & -> & _)]; simpl; lia.
Qed.

Lemma parse_literal_spec l c c' :
  parse_literal l c = Some c' ↔ reads_to c c' l.
Proof.
  unfold parse_literal, reads_to. case_bool_decide as E.
  - split; [|by intros [_ ->]]. intros [= <-]. split; [|done].
    rewrite rest_advance. rewrite <-E at 1. by rewrite take_drop.
  - split; [done|]. intros [Er _]. destruct E. by rewrite Er, take_app_length.
Qed.

(* ------------------------------------------------------------------ *)
(** ** [skip_value] of [core/identity/profile.rs] accepts exactly the values of
    the JSON grammar that nest at most [GO_MAX_JSON_NESTING_DEPTH] deep, and
    stops right behind the value.

    The stack of frames is given a meaning: [closes_all n fs u] says that the
    text [u] completes every open container, the innermost first. *)

Notation MAX := GO_MAX_JSON_NESTING_DEPTH.
Notation jelements := (elements utf8_char).
Notation jmore := (more_elements utf8_char).
Notation jmembers := (members utf8_char).
Notation jmore_members := (more_members utf8_char).

(** A value with the white space before it. *)
Definition spaced (n : nat) (t : tree) (u : bytes) : Prop :=
  ∃ w s, u = w ++ s ∧ ws w ∧ jreads n t s.

(** A key with the white space around it and its colon. *)
Definition keyed (u : bytes) : Prop :=
  ∃ w k w', u = w ++ k ++ w' ++ [":"%byte] ∧ ws w ∧ jstring k ∧ ws w'.

Definition closes (n : nat) (f : JsonFrame) (u : bytes) : Prop :=
  match f with
  | FArray ValueOrEnd => ∃ ts, jelements n ts u
  | FArray ArrayValue => ∃ t s ts r, u = s ++ r ∧ spaced n t s ∧ jmore n ts r
  | FArray ArrayCommaOrEnd => ∃ ts, jmore n ts u
  | FObject KeyOrEnd => ∃ es, jmembers n es u
  | FObject Key => ∃ k t s es r, u = k ++ s ++ r ∧ keyed k ∧ spaced n t s ∧ jmore_members n es r
  | FObject ObjectValue => ∃ t s es r, u = s ++ r ∧ spaced n t s ∧ jmore_members n es r
  | FObject ObjectCommaOrEnd => ∃ es, jmore_members n es u
  end.

Fixpoint closes_all (fs : list JsonFrame) (u : bytes) : Prop :=
  match fs with
  | [] => u = []
  | f :: fs => ∃ u1 u2, u = u1 ++ u2 ∧ closes (MAX - S (length fs)) f u1 ∧ closes_all fs u2
  end.

#[local] Arguments closes : simpl never.
#[local] Arguments closes_all : simpl never.

(* ------------------------------------------------------------------ *)
(** ** A value *)

Inductive scalar : tree → bytes → Prop :=
| scalar_string s : jstring s → scalar (TString s) s
| scalar_number s : json_number s → scalar (TNumber s) s
| scalar_literal s : s ∈ literals → scalar (TLiteral s) s.

Lemma scalar_reads n t s : scalar t s → jreads n t s.
Proof. destruct 1; by constructor. Qed.

Lemma start_value_sound c fs c' fs' :
  start_value c fs = Some (c', fs') → (length fs ≤ MAX)%nat →
  ∃ v, reads_to c c' v ∧ (length fs' ≤ MAX)%nat ∧
    ∀ u, closes_all fs' u →
    ∃ t s u', v ++ u = s ++ u' ∧ spaced (MAX - length fs) t s ∧ closes_all fs u'.
Proof.
  unfold start_value. intros E Hl. destruct (skip_ws_reads c) as (w & Hw & Hrw & Hu).
  set (d := skip_ws c) in *. destruct (current d) as [b|] eqn:Eb; [|done].
  assert (∀ t s, scalar t s → reads_to d c' s → fs' = fs →
            ∃ v, reads_to c c' v ∧ (length fs' ≤ MAX)%nat ∧
              ∀ u, closes_all fs' u →
              ∃ t s u', v ++ u = s ++ u' ∧ spaced (MAX - length fs) t s ∧ closes_all fs u')
    as Hscalar.
  { intros t s Hs Hr ->. exists (w ++ s). split_and!; [by eapply reads_to_trans|done|].
    intros u Hc. exists t, (w ++ s), u. split_and!; [done| |done].
    exists w, s. eauto using scalar_reads. }
  assert (∀ f b', current d = Some b' → Nat.leb MAX (length fs) = false →
            (∀ n u, closes n f u → ∃ t, jreads (S n) t (b' :: u)) →
            ∃ v, reads_to c (advance 1 d) v ∧ (length (f :: fs) ≤ MAX)%nat ∧
              ∀ u, closes_all (f :: fs) u →
              ∃ t s u', v ++ u = s ++ u' ∧ spaced (MAX - length fs) t s ∧ closes_all fs u')
    as Hopen.
  { intros f b' Hb Hd Hf. apply Nat.leb_gt in Hd. exists (w ++ [b']).
    split_and!; [by eapply reads_to_trans, current_reads|simpl; lia|].
    intros u (u1 & u2 & -> & Hc1 & Hc2). apply Hf in Hc1 as [t Ht].
    exists t, (w ++ b' :: u1), u2. split_and!; [by rewrite <-!app_assoc| |done].
    exists w, (b' :: u1). split_and!; [done..|].
    by replace (MAX - length fs)%nat with (S (MAX - S (length fs))) by lia. }
  assert (∀ l, l ∈ literals → (c1 ← parse_literal l d; Some (c1, fs)) = Some (c', fs') →
            ∃ t s, scalar t s ∧ reads_to d c' s ∧ fs' = fs) as Hliteral.
  { intros l Hin El. destruct (parse_literal l d) eqn:Ep; simplify_eq/=.
    apply parse_literal_spec in Ep. exists (TLiteral l), l. split_and!; [by constructor|done..]. }
  case_bool_decide as Hq; [|case_bool_decide as Ha; [|case_bool_decide as Ho; [|]]].
  - destruct (parse_string d) as [[[x y] c1]|] eqn:Ep; simplify_eq/=.
    apply parse_string_sound in Ep as (s & Hs & Hr & _). by apply (Hscalar (TString s) s); [constructor|..].
  - destruct (Nat.leb MAX (length fs)) eqn:Hd; simplify_eq/=.
    apply (Hopen (FArray ValueOrEnd) "["%byte); [done..|]. intros n u [ts Hts]. exists (TArray ts). by constructor.
  - destruct (Nat.leb MAX (length fs)) eqn:Hd; simplify_eq/=.
    apply (Hopen (FObject KeyOrEnd) "{"%byte); [done..|]. intros n u [es Hes]. exists (TObject es). by constructor.
  - repeat (case_bool_decide; [apply Hliteral in E as (t & s & ? & ? & ?);
                                 [by eapply Hscalar|unfold literals; set_solver]|]).
    destruct (_ || is_digit b); [|done].
    destruct (parse_number d) as [c1|] eqn:Ep; simplify_eq/=.
    apply parse_number_sound in Ep as (s & Hs & Hr & _).
    by apply (Hscalar (TNumber s) s); [constructor|..].
Qed.

Lemma spaced_cons n w t s : ws w → jreads n t s → spaced n t (w ++ s).
Proof. by exists w, s. Qed.

Lemma spaced_ws n w t s : ws w → spaced n t s → spaced n t (w ++ s).
Proof.
  intros ? (w' & s' & -> & ? & ?). exists (w ++ w'), s'. rewrite app_assoc.
  split_and!; [done|by apply Forall_app|done].
Qed.

Lemma keyed_intro w k w' :
  ws w → jstring k → ws w' → keyed (w ++ k ++ w' ++ [":"%byte]).
Proof. intros. by exists w, k, w'. Qed.

Lemma elements_spaced n t s ts r : spaced n t s → jmore n ts r → jelements n (t :: ts) (s ++ r).
Proof. intros (w & v & -> & ? & ?) ?. rewrite <-app_assoc. by constructor. Qed.

Lemma more_spaced n w t s ts r :
  ws w → spaced n t s → jmore n ts r → jmore n (t :: ts) (w ++ [","%byte] ++ s ++ r).
Proof.
  intros ? (w' & v & -> & ? & ?) ?. rewrite <-app_assoc.
  by apply (more_elements_cons _ n w w').
Qed.

Lemma members_spaced n k t s es r :
  keyed k → spaced n t s → jmore_members n es r → ∃ k', jmembers n ((k', t) :: es) (k ++ s ++ r).
Proof.
  intros (w & k' & w' & -> & ? & ? & ?) (w'' & v & -> & ? & ?) ?. exists k'.
  rewrite <-!app_assoc. by apply (members_cons _ n w k' w' w'').
Qed.

Lemma more_members_spaced n w k t s es r :
  ws w → keyed k → spaced n t s → jmore_members n es r →
  ∃ k', jmore_members n ((k', t) :: es) (w ++ [","%byte] ++ k ++ s ++ r).
Proof.
  intros ? (w1 & k' & w' & -> & ? & ? & ?) (w'' & v & -> & ? & ?) ?. exists k'.
  rewrite <-!app_assoc. by apply (more_members_cons _ n w w1 k' w' w'').
Qed.

(* ------------------------------------------------------------------ *)
(** ** The frames, soundly *)

Lemma parse_key_sound c c' :
  parse_key c = Some c' → ∃ k w, jstring k ∧ ws w ∧ reads_to c c' (k ++ w ++ [":"%byte]).
Proof.
  unfold parse_key. destruct (parse_string c) as [[[x y] c1]|] eqn:Ep; simpl; [|done].
  apply parse_string_sound in Ep as (k & Hk & Hr & _).
  destruct (skip_ws_reads c1) as (w & Hw & Hrw & _).
  case_bool_decide as Hc; [|done]. intros [= <-]. apply current_reads in Hc.
  exists k, w. split_and!; [done..|]. eauto using reads_to_trans.
Qed.

(** One step reads a text that, put before what closes the new stack, closes
    the old one. *)
Lemma frame_step_sound f fs c c' fs' :
  frame_step f fs c = Some (c', fs') → (length (f :: fs) ≤ MAX)%nat →
  ∃ v, reads_to c c' v ∧ (length fs' ≤ MAX)%nat ∧
    ∀ u, closes_all fs' u → closes_all (f :: fs) (v ++ u).
Proof.
  intros E Hl. simpl in Hl. destruct (skip_ws_reads c) as (w & Hw & Hrw & _).
  assert (∀ b, current (skip_ws c) = Some b → reads_to c (advance 1 (skip_ws c)) (w ++ [b]))
    as Hbyte by eauto using reads_to_trans, current_reads.
  (* closing bracket *)
  assert (∀ b, current (skip_ws c) = Some b → closes (MAX - S (length fs)) f (w ++ [b]) →
    Some (advance 1 (skip_ws c), fs) = Some (c', fs') →
    ∃ v, reads_to c c' v ∧ (length fs' ≤ MAX)%nat ∧
      ∀ u, closes_all fs' u → closes_all (f :: fs) (v ++ u)) as Hclose.
  { intros b Hb Hc [= <- <-]. exists (w ++ [b]). split_and!; [by apply Hbyte|lia|].
    intros u Hu. by exists (w ++ [b]), u. }
  (* a text before the same stack with another state *)
  assert (∀ g v, reads_to c c' v → fs' = g :: fs →
    (∀ n u, closes n g u → closes n f (v ++ u)) →
    ∃ v, reads_to c c' v ∧ (length fs' ≤ MAX)%nat ∧
      ∀ u, closes_all fs' u → closes_all (f :: fs) (v ++ u)) as Hmove.
  { intros g v Hr -> Hc. exists v. split_and!; [done|simpl; lia|].
    intros u (u1 & u2 & -> & Hc1 & Hc2). exists (v ++ u1), u2.
    rewrite app_assoc. eauto. }
  (* a value *)
  assert (∀ g w c0, reads_to c c0 w → start_value c0 (g :: fs) = Some (c', fs') →
    (∀ n t s u, spaced n t s → closes n g u → closes n f (w ++ s ++ u)) →
    ∃ v, reads_to c c' v ∧ (length fs' ≤ MAX)%nat ∧
      ∀ u, closes_all fs' u → closes_all (f :: fs) (v ++ u)) as Hvalue.
  { intros g w0 c0 Hr0 (v & Hr & Hl' & Hv)%start_value_sound Hc; [|done].
    exists (w0 ++ v). split_and!; [by eapply reads_to_trans|done|].
    intros u (t & s & u' & Es & Ht & u1 & u2 & -> & Hc1 & Hc2)%Hv.
    exists (w0 ++ s ++ u1), u2. rewrite <-!app_assoc, Es. split_and!; [done|by eapply Hc|done]. }
  destruct f as [[]|[]]; simpl in E.
  - case_bool_decide as Hb.
    + eapply (Hclose _ Hb); [|done]. exists []. by constructor.
    + eapply (Hvalue _ w); [done..|]. intros n t s u Hs [ts Hts].
      exists (t :: ts). rewrite app_assoc. apply elements_spaced; [by apply spaced_ws|done].
  - case_bool_decide as Hb; [done|].
    eapply (Hvalue _ w); [done..|]. intros n t s u Hs [ts Hts].
    exists t, (w ++ s), ts, u. rewrite <-app_assoc. split_and!; [done|by apply spaced_ws|done].
  - case_bool_decide as Hb; [|case_bool_decide as Hb'; [|done]].
    + injection E as <- <-. eapply Hmove; [by apply Hbyte|done|].
      intros n u (t & s & ts & r & -> & Hs & Hr). exists (t :: ts).
      rewrite <-app_assoc. by apply more_spaced.
    + eapply (Hclose _ Hb'); [|done]. exists []. by constructor.
  - case_bool_decide as Hb.
    + eapply (Hclose _ Hb); [|done]. exists []. by constructor.
    + destruct (parse_key _) as [c1|] eqn:Ek; simplify_eq/=.
      apply parse_key_sound in Ek as (k & w' & Hk & Hw' & Hr).
      eapply Hmove; [by eapply reads_to_trans|done|].
      intros n u (t & s & es & r & -> & Hs & Hr').
      edestruct (members_spaced n (w ++ k ++ w' ++ [":"%byte])) as [k' ?];
        [by apply keyed_intro|done..|]. by eexists.
  - case_bool_decide as Hb; [done|].
    destruct (parse_key _) as [c1|] eqn:Ek; simplify_eq/=.
    apply parse_key_sound in Ek as (k & w' & Hk & Hw' & Hr).
    eapply Hmove; [by eapply reads_to_trans|done|].
    intros n u (t & s & es & r & -> & Hs & Hr').
    exists (w ++ k ++ w' ++ [":"%byte]), t, s, es, r. split_and!; [done|by apply keyed_intro|done..].
  - eapply (Hvalue _ []); [apply reads_to_refl|done|]. intros n t s u Hs [es Hes].
    by exists t, s, es, u.
  - case_bool_decide as Hb; [|case_bool_decide as Hb'; [|done]].
    + injection E as <- <-. eapply Hmove; [by apply Hbyte|done|].
      intros n u (k & t & s & es & r & -> & Hk & Hs & Hr). rewrite <-app_assoc.
      edestruct (more_members_spaced n w k) as [k' ?]; [done..|]. by eexists.
    + eapply (Hclose _ Hb'); [|done]. exists []. by constructor.
Qed.

Lemma skip_loop_sound fuel fs c c' :
  skip_loop fuel fs c = Some c' → (length fs ≤ MAX)%nat →
  ∃ u, reads_to c c' u ∧ closes_all fs u.
Proof.
  revert fs c. induction fuel as [|fuel IH]; intros [|f fs] c E Hl; simpl in E; simplify_eq.
  - exists []. split; [apply reads_to_refl|done].
  - exists []. split; [apply reads_to_refl|done].
  - destruct (frame_step f fs c) as [[c1 fs1]|] eqn:Es; simpl in E; [|done].
    apply frame_step_sound in Es as (v & Hr & Hl1 & Hv); [|done].
    apply IH in E as (u & Hru & Hu); [|done].
    exists (v ++ u). split; [by eapply reads_to_trans|by apply Hv].
Qed.

Lemma skip_value_sound c a b c' :
  skip_value c = Some (a, b, c') →
  ∃ w t s, ws w ∧ jreads MAX t s ∧ reads_to c c' (w ++ s) ∧
    slice (input c) a b = s ∧ b = position c'.
Proof.
  unfold skip_value. destruct (skip_ws_reads c) as (w & Hw & Hrw & Hu).
  intros E. destruct (start_value _ _) as [[c1 fs]|] eqn:Es; [|done].
  cbn [mbind option_bind] in E. destruct (skip_loop _ fs c1) as [c2|] eqn:El; [|done].
  injection E as <- <- <-.
  apply start_value_sound in Es as (v & Hr1 & Hl & Hv); [|simpl; lia].
  apply skip_loop_sound in El as (u & Hr2 & Hc); [|done].
  destruct (Hv u Hc) as (t & s & u' & Es & (w' & s' & -> & Hw' & Ht) & ->).
  rewrite app_nil_r in Es. simpl in Ht. rewrite Nat.sub_0_r in Ht.
  pose proof (reads_to_trans _ _ _ _ _ Hr1 Hr2) as Hr. rewrite Es in Hr.
  assert (w' = []) as ->.
  { destruct Hw' as [|x w' Hx Hw']; [done|]. destruct Hr as [Er _]. rewrite Er in Hu.
    simpl in Hu. congruence. }
  exists w, t, s'. split_and!; [done..| |exact (reads_to_slice _ _ _ Hr)|done].
  by eapply reads_to_trans.
Qed.

(* ------------------------------------------------------------------ *)
(** ** The frames, completely *)

(** What a value begins with. *)
Definition begins_value (b : byte) : Prop :=
  is_ws b = false ∧ b ∉ ["]"%byte; "}"%byte; ","%byte; ":"%byte].

Lemma number_head s :
  json_number s → ∃ b s', s = b :: s' ∧ (b = "-"%byte ∨ is_digit b = true).
Proof.
  destruct 1 as [g i f x Hg Hi Hf Hx]. destruct Hg as [->| ->]; [|simpl; eauto].
  destruct Hi as [->|(d & ds & -> & Hd & _)]; simpl; eauto.
Qed.

Lemma digit_no_ws b : is_digit b = true → is_ws b = false.
Proof. intros Hd%is_digit_bval. apply bool_decide_eq_false. set_unfold. intros E.
  repeat destruct E as [E|E]; subst; try done; cbn in Hd; lia.
Qed.

Lemma value_head n t s : jreads n t s → ∃ b s', s = b :: s' ∧ begins_value b.
Proof.
  unfold begins_value. destruct 1 as [n s [s' Hs]|n s Hn|n s Hl| |].
  - eexists _, _. split; [done|]. set_solver.
  - apply number_head in Hn as (b & s' & -> & Hb). eexists _, _. split; [done|].
    destruct Hb as [->|Hd]; [set_solver|]. split; [by apply digit_no_ws|].
    apply is_digit_bval in Hd. set_unfold. intros E.
    repeat destruct E as [E|E]; subst; try done; cbn in Hd; lia.
  - unfold literals in Hl. rewrite !elem_of_cons, elem_of_nil in Hl.
    destruct Hl as [->|[->|[->|[]]]]; (eexists _, _; split; [reflexivity|set_solver]).
  - eexists _, _. split; [done|]. set_solver.
  - eexists _, _. split; [done|]. set_solver.
Qed.

Lemma value_until n t s k : jreads n t s → until is_ws (s ++ k).
Proof. intros (b & s' & -> & [? _])%value_head. done. Qed.

Lemma skip_ws_at c w k : ws w → until is_ws k → rest c = w ++ k →
  skip_ws c = advance (length w) c ∧ rest (skip_ws c) = k.
Proof.
  intros Hw Hk Hr. rewrite (skip_ws_app w k) by done. split; [done|]. by apply rest_app.
Qed.

Lemma start_scalar_complete t v : scalar t v → ∀ c w k fs,
  ws w → (json_number v → ends_value k) → rest c = w ++ v ++ k →
  start_value c fs = Some (advance (length (w ++ v)) c, fs).
Proof.
  intros Hs c w k fs Hw Hk Hr. unfold start_value.
  destruct (skip_ws_at c w (v ++ k)) as [-> Hr'];
    [done|by eapply value_until, (scalar_reads 0)|done|].
  rewrite length_app, <-advance_advance.
  set (d := advance (length w) c) in *. destruct Hs as [s Hs|s Hs|s Hs].
  - pose proof (parse_string_complete d s k Hs Hr') as E. destruct Hs as [s Hs].
    rewrite (current_app d quote (s ++ k)), bool_decide_true by done. by rewrite E.
  - pose proof (parse_number_complete d s k Hs (Hk Hs) Hr') as E.
    apply number_head in Hs as (b & s' & -> & Hb).
    rewrite (current_app d b (s' ++ k)) by done.
    assert ((bool_decide (b = "-"%byte) || is_digit b) = true) as ->.
    { destruct Hb as [->|Hb]; [done|]. by rewrite Hb, orb_true_r. }
    assert (∀ x, is_digit x = false → x ≠ "-"%byte → b ≠ x) as Hne.
    { intros x Hx Hm ->. destruct Hb; congruence. }
    rewrite !bool_decide_false by by apply Hne. by rewrite E.
  - assert (parse_literal s d = Some (advance (length s) d)) as E.
    { apply parse_literal_spec. by eapply reads_to_intro. }
    unfold literals in Hs. rewrite !elem_of_cons, elem_of_nil in Hs.
    destruct Hs as [->|[->|[->|[]]]]; erewrite current_app by exact Hr';
      rewrite ?bool_decide_false by done; rewrite bool_decide_true by done; by rewrite E.
Qed.

(** Runs of the loop: [m] turns take the stack to [fs'] at [c']. *)
Definition runs (m : nat) (fs : list JsonFrame) (c : JsonCursor) (fs' : list JsonFrame)
    (c' : JsonCursor) : Prop :=
  ∀ fuel, skip_loop (m + fuel) fs c = skip_loop fuel fs' c'.

Lemma runs_trans m1 m2 fs1 c1 fs2 c2 fs3 c3 :
  runs m1 fs1 c1 fs2 c2 → runs m2 fs2 c2 fs3 c3 → runs (m1 + m2) fs1 c1 fs3 c3.
Proof. intros H1 H2 fuel. by rewrite <-Nat.add_assoc, H1, H2. Qed.

Lemma runs_step f fs c fs' c' :
  frame_step f fs c = Some (c', fs') → runs 1 (f :: fs) c fs' c'.
Proof. intros E fuel. simpl. by rewrite E. Qed.

(** [start_value] and the following turns read the value [v] after [w]. *)
Definition starts (n : nat) (v : bytes) : Prop := ∀ c w k fs,
  ws w → (json_number v → ends_value k) → rest c = w ++ v ++ k → (length fs + n ≤ MAX)%nat →
  ∃ m c1 fs1, (m < length v)%nat ∧ start_value c fs = Some (c1, fs1) ∧
    runs m fs1 c1 fs (advance (length (w ++ v)) c).

(** The frame [f] is closed by [u]. *)
Definition closed_by (n : nat) (f : JsonFrame) (u : bytes) : Prop := ∀ c k fs,
  rest c = u ++ k → (S (length fs) + n ≤ MAX)%nat →
  ∃ m, (m ≤ length u)%nat ∧ runs m (f :: fs) c fs (advance (length u) c).

Lemma starts_scalar n t v : scalar t v → starts n v.
Proof.
  intros Hs c w k fs Hw Hk Hr _. exists O, (advance (length (w ++ v)) c), fs.
  split_and!; [|by eapply start_scalar_complete|by intros fuel].
  apply (scalar_reads 0), value_head in Hs as (b & s & -> & _). simpl. lia.
Qed.

Lemma starts_open n b f u :
  (b = "["%byte ∧ f = FArray ValueOrEnd) ∨ (b = "{"%byte ∧ f = FObject KeyOrEnd) →
  closed_by n f u → starts (S n) (b :: u).
Proof.
  intros Hb Hc c w k fs Hw Hk Hr Hl.
  assert (is_ws b = false) as Hws by (destruct Hb as [[-> _]|[-> _]]; done).
  destruct (skip_ws_at c w (b :: u ++ k) Hw Hws Hr) as [E Hr'].
  assert (rest (advance 1 (skip_ws c)) = u ++ k) as Hr1
    by (rewrite rest_advance, Hr'; done).
  destruct (Hc (advance 1 (skip_ws c)) k fs Hr1) as (m & Hm & Hrun); [lia|].
  exists m, (advance 1 (skip_ws c)), (f :: fs). split_and!; [simpl; lia| |].
  - unfold start_value. rewrite (current_app _ b (u ++ k)) by done.
    assert (Nat.leb MAX (length fs) = false) as -> by (apply Nat.leb_gt; lia).
    destruct Hb as [[-> ->]|[-> ->]];
      rewrite ?bool_decide_false by done; by rewrite bool_decide_true by done.
  - rewrite E, !advance_advance in Hrun. rewrite length_app. simpl.
    replace (length w + S (length u))%nat with (length w + 1 + length u)%nat by lia.
    by rewrite E, advance_advance.
Qed.

(** A bracket after white space closes a frame that expects it. *)
Lemma closed_by_bracket n f w b :
  ws w → (∀ c fs, current (skip_ws c) = Some b →
            frame_step f fs c = Some (advance 1 (skip_ws c), fs)) → is_ws b = false →
  closed_by n f (w ++ [b]).
Proof.
  intros Hw Hf Hb c k fs Hr _. rewrite <-app_assoc in Hr.
  destruct (skip_ws_at c w (b :: k) Hw Hb Hr) as [E Hr'].
  exists 1%nat. split; [rewrite length_app; simpl; lia|].
  rewrite length_app, <-advance_advance, <-E. apply runs_step, Hf.
  by apply (current_app _ b k).
Qed.

(** A step that goes to another state of the same frame. *)
Lemma closed_by_move n f g v u :
  v ≠ [] →
  (∀ c k fs, rest c = v ++ u ++ k → frame_step f fs c = Some (advance (length v) c, g :: fs)) →
  closed_by n g u → closed_by n f (v ++ u).
Proof.
  intros Hv Hf Hu c k fs Hr Hl. rewrite <-app_assoc in Hr.
  destruct (Hu (advance (length v) c) k fs) as (m & Hm & Hrun);
    [by apply rest_app|done|].
  exists (1 + m)%nat. rewrite length_app. split; [destruct v; simpl in *; [done|lia]|].
  rewrite <-advance_advance. eapply runs_trans; [by eapply runs_step, Hf|done].
Qed.

Lemma skip_ws_twice c : skip_ws (skip_ws c) = skip_ws c.
Proof. apply skip_ws_id. by destruct (skip_ws_reads c) as (? & ? & ? & ?). Qed.

Lemma start_value_skip c fs : start_value (skip_ws c) fs = start_value c fs.
Proof. unfold start_value. by rewrite skip_ws_twice. Qed.

(** A step that starts a value. *)
Lemma closed_by_value n f g w v u :
  ws w → starts n v → (∃ b s, v = b :: s ∧ begins_value b) → (∀ k, ends_value (u ++ k)) →
  (∀ c b fs, current (skip_ws c) = Some b → begins_value b →
     frame_step f fs c = start_value c (g :: fs)) →
  closed_by n g u → closed_by n f (w ++ v ++ u).
Proof.
  intros Hw Hv (b & s & -> & Hb) Hends Hf Hu c k fs Hr Hl. rewrite <-!app_assoc in Hr.
  destruct (skip_ws_at c w ((b :: s) ++ u ++ k) Hw (proj1 Hb) Hr) as [E Hr'].
  destruct (Hv c w (u ++ k) (g :: fs)) as (m & c1 & fs1 & Hm & Hs & Hrun);
    [done|intros _; apply Hends|done|simpl; lia|].
  destruct (Hu (advance (length (w ++ b :: s)) c) k fs) as (m' & Hm' & Hrun').
  { apply rest_app. by rewrite <-app_assoc. }
  { done. }
  exists (1 + (m + m'))%nat. rewrite app_assoc, length_app, <-advance_advance.
  split; [rewrite length_app; simpl in *; lia|].
  eapply runs_trans; [|by eapply runs_trans].
  apply runs_step. rewrite (Hf _ b); [done| |done]. by apply (current_app _ b (s ++ u ++ k)).
Qed.

Lemma skip_ws_current c w b k :
  ws w → is_ws b = false → rest c = w ++ b :: k →
  skip_ws c = advance (length w) c ∧ current (skip_ws c) = Some b.
Proof.
  intros Hw Hb Hr. destruct (skip_ws_at c w (b :: k) Hw Hb Hr) as [E Hr'].
  split; [done|by apply (current_app _ b k)].
Qed.

Lemma parse_key_complete c w k w' r :
  ws w → jstring k → ws w' → rest c = w ++ k ++ w' ++ ":"%byte :: r →
  parse_key (skip_ws c) = Some (advance (length (w ++ k ++ w' ++ [":"%byte])) c) ∧
  current (skip_ws c) = Some quote.
Proof.
  intros Hw Hk Hw' Hr. assert (∃ s, k = quote :: s) as [s Ek] by (destruct Hk; eauto).
  destruct (skip_ws_current c w quote (s ++ w' ++ ":"%byte :: r)) as [E Ec];
    [done|done|by rewrite Hr, Ek|].
  split; [|done]. rewrite E. pose proof (rest_app _ _ _ Hr) as Hr1.
  unfold parse_key. rewrite (parse_string_complete _ _ _ Hk Hr1). cbn [mbind option_bind].
  pose proof (rest_app _ _ _ Hr1) as Hr2.
  destruct (skip_ws_current _ w' ":"%byte r Hw' eq_refl Hr2) as [E2 Ec2].
  rewrite Ec2, bool_decide_true by done. rewrite E2, !advance_advance.
  f_equal. f_equal. rewrite !length_app. simpl. lia.
Qed.

Lemma array_value n t s ts r w f :
  f ∈ [ValueOrEnd; ArrayValue] →
  ws w → jreads n t s → starts n s → jmore n ts r → closed_by n (FArray ArrayCommaOrEnd) r →
  closed_by n (FArray f) (w ++ s ++ r).
Proof.
  intros Hf Hw Ht IHt Hr IHr.
  eapply (closed_by_value n _ (FArray ArrayCommaOrEnd)); [done..|by eapply value_head| | |done].
  { intros k. by eapply more_elements_ends. }
  intros c b fs Hc [_ Hb].
  assert (current (skip_ws c) ≠ Some "]"%byte) by (rewrite Hc; intros [= ->]; set_solver).
  rewrite !elem_of_cons, elem_of_nil in Hf. destruct Hf as [->|[->|[]]]; simpl;
    (rewrite bool_decide_false by done; apply start_value_skip).
Qed.

Lemma comma_move n f g u w :
  (f, g) ∈ [(FArray ArrayCommaOrEnd, FArray ArrayValue); (FObject ObjectCommaOrEnd, FObject Key)] →
  ws w → closed_by n g u → closed_by n f (w ++ ","%byte :: u).
Proof.
  intros Hf Hw Hu. replace (w ++ ","%byte :: u) with ((w ++ [","%byte]) ++ u)
    by by rewrite <-app_assoc.
  eapply closed_by_move; [by destruct w| |exact Hu].
  intros c k fs Hr. rewrite <-app_assoc in Hr.
  destruct (skip_ws_current c w ","%byte _ Hw eq_refl Hr) as [E Ec].
  rewrite !elem_of_cons, elem_of_nil in Hf.
  destruct Hf as [[= -> ->]|[[= -> ->]|[]]]; simpl;
    rewrite bool_decide_true by done; by rewrite E, advance_advance, length_app.
Qed.

Lemma object_member n w k w' w'' t s es r f :
  f ∈ [KeyOrEnd; Key] →
  ws w → jstring k → ws w' → ws w'' → jreads n t s → starts n s →
  jmore_members n es r → closed_by n (FObject ObjectCommaOrEnd) r →
  closed_by n (FObject f) (w ++ k ++ w' ++ ":"%byte :: w'' ++ s ++ r).
Proof.
  intros Hf Hw Hk Hw' Hw'' Ht IHt Hr IHr.
  replace (w ++ k ++ w' ++ ":"%byte :: w'' ++ s ++ r)
    with ((w ++ k ++ w' ++ [":"%byte]) ++ w'' ++ s ++ r) by by rewrite <-!app_assoc.
  apply (closed_by_move n _ (FObject ObjectValue)).
  - destruct w; [|done]. by destruct Hk.
  - intros c m fs Hrest. rewrite <-!app_assoc in Hrest.
    destruct (parse_key_complete c w k w' _ Hw Hk Hw' Hrest) as [E Ec].
    rewrite !elem_of_cons, elem_of_nil in Hf. destruct Hf as [->|[->|[]]]; simpl;
      rewrite bool_decide_false by (by rewrite Ec); by rewrite E.
  - eapply (closed_by_value n _ (FObject ObjectCommaOrEnd)); [done..|by eapply value_head| | |done].
    { intros m. by eapply more_members_ends. }
    done.
Qed.

Lemma grammar_complete :
  (∀ n t s, jreads n t s → starts n s) ∧
  (∀ n ts u, jelements n ts u → closed_by n (FArray ValueOrEnd) u) ∧
  (∀ n ts u, jmore n ts u → closed_by n (FArray ArrayCommaOrEnd) u) ∧
  (∀ n es u, jmembers n es u → closed_by n (FObject KeyOrEnd) u) ∧
  (∀ n es u, jmore_members n es u → closed_by n (FObject ObjectCommaOrEnd) u).
Proof.
  apply grammar_ind.
  - intros n s Hs. by eapply starts_scalar, scalar_string.
  - intros n s Hs. by eapply starts_scalar, scalar_number.
  - intros n s Hs. by eapply starts_scalar, scalar_literal.
  - intros n ts u _ IH. eapply starts_open; [by left|done].
  - intros n es u _ IH. eapply starts_open; [by right|done].
  - intros n w Hw. apply closed_by_bracket; [done| |done].
    intros c fs Hc. simpl. by rewrite bool_decide_true.
  - intros. eapply array_value; [|done..]. set_solver.
  - intros n w Hw. apply closed_by_bracket; [done| |done].
    intros c fs Hc. simpl. rewrite bool_decide_false by by rewrite Hc. by rewrite bool_decide_true.
  - intros. eapply (comma_move _ _ (FArray ArrayValue)); [set_solver|done|].
    eapply array_value; [set_solver|done..].
  - intros n w Hw. apply closed_by_bracket; [done| |done].
    intros c fs Hc. simpl. by rewrite bool_decide_true.
  - intros. eapply object_member; [|done..]. set_solver.
  - intros n w Hw. apply closed_by_bracket; [done| |done].
    intros c fs Hc. simpl. rewrite bool_decide_false by by rewrite Hc. by rewrite bool_decide_true.
  - intros. eapply (comma_move _ _ (FObject Key)); [set_solver|done|].
    eapply object_member; [set_solver|done..].
Qed.

Lemma skip_value_complete c w t s k :
  ws w → jreads MAX t s → (json_number s → ends_value k) → rest c = w ++ s ++ k →
  skip_value c = Some ((position c + length w)%nat, (position c + length (w ++ s))%nat,
                       advance (length (w ++ s)) c).
Proof.
  intros Hw Ht Hk Hr. unfold skip_value.
  destruct (proj1 grammar_complete _ _ _ Ht c w k [] Hw Hk Hr) as (m & c1 & fs1 & Hm & Es & Hrun);
    [simpl; lia|].
  rewrite start_value_skip, Es. cbn [mbind option_bind].
  assert (m ≤ S (length (input c)))%nat as Hfuel.
  { pose proof (rest_length c) as Hl. rewrite Hr, !length_app in Hl. lia. }
  replace (S (length (input (skip_ws c)))) with (m + (S (length (input c)) - m))%nat
    by (simpl; lia).
  destruct (skip_ws_at c w (s ++ k) Hw (value_until _ _ _ _ Ht) Hr) as [E _].
  rewrite Hrun, E. by destruct (S (length (input c)) - m)%nat.
Qed.

Lemma start_number c d b c' fs fs' :
  skip_ws c = d → current d = Some b → b = "-"%byte ∨ is_digit b = true →
  start_value c fs = Some (c', fs') → fs' = fs ∧ ends_value (rest c').
Proof.
  intros Ed Eb Hb E. unfold start_value in E. rewrite Ed, Eb in E.
  assert (∀ x, is_digit x = false → x ≠ "-"%byte → b ≠ x) as Hne
    by (intros x ? ? ->; destruct Hb; congruence).
  rewrite !bool_decide_false in E by by apply Hne.
  destruct (_ || is_digit b); [|done].
  destruct (parse_number d) as [c1|] eqn:Ep; simplify_eq/=.
  by apply parse_number_sound in Ep as (s & _ & _ & ?).
Qed.

(** Skipping a value.  The non-recursive cursor of the profile reader
    accepts exactly what the JSON grammar accepts: it succeeds on a text iff
    the text begins, after white space, with a value whose containers nest at
    most ten thousand deep (a number must be followed by a delimiter), and it
    then returns exactly that value's bytes and stops right behind them,
    whatever follows.  In particular the loop always ends. *)
Theorem skip_value_iff c a b c' :
  skip_value c = Some (a, b, c') ↔
  ∃ w t s k, rest c = w ++ s ++ k ∧ ws w ∧ jreads MAX t s ∧
    (json_number s → ends_value k) ∧
    a = (position c + length w)%nat ∧ b = (position c + length (w ++ s))%nat ∧
    c' = advance (length (w ++ s)) c.
Proof.
  split.
  - intros E. pose proof E as (w & t & s & Hw & Ht & [Hr ->] & _ & ->)%skip_value_sound.
    exists w, t, s, (rest (advance (length (w ++ s)) c)). rewrite <-app_assoc in Hr.
    destruct (skip_ws_at c w _ Hw (value_until _ _ _ _ Ht) Hr) as [Es Hs].
    unfold skip_value in E. rewrite start_value_skip, Es in E.
    destruct (start_value c []) as [[c1 fs]|] eqn:Ev; [|done]. cbn [mbind option_bind] in E.
    destruct (skip_loop _ fs c1) as [c2|] eqn:El; [|done]. injection E as <- _ Hc2.
    split_and!; try done.
    intros (x & s' & -> & Hx)%number_head.
    eapply (start_number _ _ x) in Ev as [-> He]; [|exact Es| |done].
    + simpl in El. injection El as ->. by rewrite <-Hc2.
    + rewrite <-Es. by apply (current_app _ x (s' ++ rest (advance (length (w ++ x :: s')) c))).
  - intros (w & t & s & k & Hr & Hw & Ht & Hk & -> & -> & ->). by eapply skip_value_complete.
Qed.
