(* ===== verification/ReduceFacts.v ===== *)
(** [reduce_profile_json] of [core/identity/profile.rs] is a filter of JSON
    trees: it keeps the known fields of a profile and of its addresses, raw
    and in order, drops every other value however deeply nested, and accepts a
    document iff it is well-formed and its known fields have the kind the
    profile expects. *)
From S2P Require Import Prelude.
From S2P Require Import Text.
From S2P Require Import Encryption.
From S2P Require Import JsonText.
From S2P Require Import ProfileJson.
From S2P Require Import CursorFacts.
From Stdlib Require Import Ascii Strings.Byte ZifyBool.

#[local] Notation length := List.length.

Definition null : tree := TLiteral (lit "null").

Definition string_or_null (t : tree) : Prop := t = null ∨ ∃ raw, t = TString raw.

(** The trees a field of a kind may have, the addresses apart. *)
Definition simple (kind : ProfileFieldKind) (t : tree) : Prop :=
  match kind with
  | Scalar | Optional => string_or_null t
  | Strings => t = null ∨ ∃ ts, t = TArray ts ∧ Forall string_or_null ts
  | Addresses => False
  end.

Lemma reads_string_inv n raw s : jreads n (TString raw) s → s = raw ∧ jstring raw.
Proof. by inversion 1. Qed.

Lemma reads_null n : jreads n null (lit "null").
Proof. constructor. unfold literals. set_solver. Qed.

Lemma reads_null_inv n s : jreads n null s → s = lit "null".
Proof. by inversion 1. Qed.

Lemma value_trim n t w v w' :
  jreads n t (w ++ v ++ w') → ws w → ws w' → v ≠ [] → w = [] ∧ w' = [].
Proof.
  intros Ht Hw Hw' Hv. split.
  - apply value_head in Ht as (b & s & E & [Hb _]). destruct Hw as [|x w Hx Hw]; [done|].
    simpl in E. injection E as -> _. congruence.
  - apply value_solid in Ht as (s & b & E & Hb). destruct w' as [|x w' _] using rev_ind; [done|].
    rewrite !app_assoc in E. apply app_inj_tail in E as [_ <-].
    apply Forall_app in Hw' as [_ Hx]. apply Forall_inv in Hx. congruence.
Qed.

Lemma skip_null_sound c c' :
  skip_null c = Some c' → ∃ w, ws w ∧ reads_to c c' (w ++ lit "null").
Proof.
  unfold skip_null. destruct (skip_value c) as [[[a b] c1]|] eqn:E; [|done]. simpl.
  case_bool_decide as Hs; [|done]. intros [= ->].
  apply skip_value_sound in E as (w & t & s & Hw & _ & Hr & Hs' & _).
  exists w. by rewrite <-Hs, Hs'.
Qed.

(** White space before a text that does not begin with it. *)
Lemma ws_nil_inv w s : ws w → until is_ws (w ++ s) → w = [].
Proof. destruct 1; simpl; congruence. Qed.

Lemma skip_null_here c c' :
  skip_null c = Some c' → current c = Some "n"%byte → reads_to c c' (lit "null").
Proof.
  intros (w & Hw & Hr)%skip_null_sound Hn.
  enough (w = []) as -> by done. eapply ws_nil_inv; [done|].
  destruct Hr as [Hr _]. rewrite <-app_assoc in Hr. rewrite <-Hr.
  rewrite current_rest in Hn. destruct (rest c); simpl in *; by simplify_eq.
Qed.

Lemma skip_null_complete c w k :
  ws w → rest c = w ++ lit "null" ++ k → skip_null c = Some (advance (length (w ++ lit "null")) c).
Proof.
  intros Hw Hr. unfold skip_null.
  erewrite skip_value_complete; [|exact Hw|apply (reads_null MAX)| |exact Hr].
  - cbn [mbind option_bind].
    assert (slice (input c) (position c + length w) (position c + length (w ++ lit "null"))
            = lit "null") as E.
    { rewrite length_app, Nat.add_assoc. apply (slice_rest (advance (length w) c) _ k).
      by apply rest_app. }
    by rewrite E, bool_decide_true.
  - intros (b & s & E & Hb)%number_head. injection E as <- _. by destruct Hb.
Qed.

(** A string or null at the cursor. *)
Definition item_at (c : JsonCursor) : option JsonCursor :=
  if bool_decide (current c = Some quote) then '(_, _, c) ← parse_string c; Some c
  else if bool_decide (current c = Some "n"%byte) then skip_null c
  else None.

Lemma item_at_sound n c c' :
  item_at c = Some c' → ∃ t s, string_or_null t ∧ jreads n t s ∧ reads_to c c' s.
Proof.
  unfold item_at. case_bool_decide as Hq; [|case_bool_decide as Hn; [|done]].
  - destruct (parse_string c) as [[[a b] c1]|] eqn:E; simpl; [|done]. intros [= ->].
    apply parse_string_sound in E as (s & Hs & Hr & _).
    exists (TString s), s. split_and!; [right; eauto|by constructor|done].
  - intros Hr%skip_null_here; [|done]. exists null, (lit "null").
    split_and!; [by left|apply reads_null|done].
Qed.

Lemma item_at_complete n t s c k :
  string_or_null t → jreads n t s → rest c = s ++ k →
  item_at c = Some (advance (length s) c).
Proof.
  intros [->|[raw ->]] Ht Hr; unfold item_at.
  - apply reads_null_inv in Ht as ->.
    rewrite (current_app c "n"%byte (lit "ull" ++ k)) by done.
    rewrite bool_decide_false, bool_decide_true by done. by apply (skip_null_complete c [] k).
  - apply reads_string_inv in Ht as [-> Hs].
    pose proof (parse_string_complete c raw k Hs Hr) as E.
    assert (∃ s, raw = quote :: s) as [s Es] by (destruct Hs; eauto).
    rewrite (current_app c quote (s ++ k)) by by rewrite Hr, Es.
    rewrite bool_decide_true by done. by rewrite E.
Qed.

Lemma strings_loop_sound n fuel c c' :
  strings_loop fuel c = Some c' →
  ∃ ts u, ts ≠ [] ∧ Forall string_or_null ts ∧ jelements n ts u ∧ reads_to c c' u.
Proof.
  revert c. induction fuel as [|fuel IH]; intros c E; simpl in E; [done|].
  destruct (skip_ws_reads c) as (w & Hw & Hrw & _). fold (item_at (skip_ws c)) in E.
  destruct (item_at (skip_ws c)) as [c1|] eqn:Ei; simpl in E; [|done].
  apply (item_at_sound n) in Ei as (t & s & Ht & Hs & Hrs).
  destruct (skip_ws_reads c1) as (w1 & Hw1 & Hrw1 & _).
  case_bool_decide as Hc; [|case_bool_decide as Hb; [|done]].
  - apply current_reads in Hc.
    destruct (skip_ws_reads (advance 1 (skip_ws c1))) as (w2 & Hw2 & Hrw2 & _).
    case_bool_decide; [done|]. apply IH in E as (ts & u & Hne & Hts & Hu & Hr).
    exists (t :: ts), (w ++ s ++ w1 ++ ","%byte :: w2 ++ u). split_and!; [done|by constructor| |].
    + constructor; [done..|]. apply elements_more; [by apply elements_ws|done..].
    + eapply reads_to_trans; [exact Hrw|]. eapply reads_to_trans; [exact Hrs|].
      eapply reads_to_trans; [exact Hrw1|]. apply (reads_to_trans _ _ _ [","%byte] _ Hc).
      by eapply reads_to_trans.
  - injection E as <-. apply current_reads in Hb.
    exists [t], (w ++ s ++ w1 ++ ["]"%byte]). split_and!; [done|by constructor|by repeat constructor|].
    eauto 6 using reads_to_trans.
Qed.

Lemma more_elements_inv n ts r :
  jmore n ts r →
  (ts = [] ∧ ∃ w, ws w ∧ r = w ++ ["]"%byte]) ∨
  (ts ≠ [] ∧ ∃ w u, ws w ∧ jelements n ts u ∧ r = w ++ ","%byte :: u).
Proof.
  destruct 1 as [n w Hw|n w w' t s ts r Hw Hw' Ht Hr]; [left; eauto|right].
  split; [done|]. exists w, (w' ++ s ++ r). split_and!; [done|by constructor|done].
Qed.

(** White space and the bracket or comma behind an item. *)
Lemma after_item w b k c :
  ws w → is_ws b = false → rest c = w ++ b :: k →
  current (skip_ws c) = Some b ∧ rest (advance 1 (skip_ws c)) = k ∧
  advance 1 (skip_ws c) = advance (length w + 1) c.
Proof.
  intros Hw Hb Hr. destruct (skip_ws_current c w b k Hw Hb Hr) as [E Ec].
  split_and!; [done| |by rewrite E, advance_advance].
  destruct (skip_ws_at c w (b :: k) Hw Hb Hr) as [_ Hr'].
  by rewrite rest_advance, Hr'.
Qed.

Lemma elements_cons_inv n t ts u :
  jelements n (t :: ts) u →
  ∃ w s r, ws w ∧ jreads n t s ∧ jmore n ts r ∧ u = w ++ s ++ r.
Proof. inversion 1; subst. eauto 10. Qed.

Lemma elements_skip n ts u k c :
  jelements n ts u → ts ≠ [] → rest c = u ++ k →
  ∃ w u', ws w ∧ u = w ++ u' ∧ jelements n ts u' ∧ skip_ws c = advance (length w) c ∧
    rest (skip_ws c) = u' ++ k ∧ current (skip_ws c) ≠ Some "]"%byte ∧
    current (skip_ws c) ≠ Some "}"%byte.
Proof.
  intros Hu Hne Hr. destruct ts as [|t ts]; [done|].
  apply elements_cons_inv in Hu as (w & s & r & Hw & Ht & Hm & ->).
  exists w, (s ++ r). rewrite <-app_assoc in Hr.
  assert (until is_ws ((s ++ r) ++ k)) by (rewrite <-app_assoc; by eapply value_until).
  destruct (skip_ws_at c w ((s ++ r) ++ k)) as [E Hr']; [done..|].
  split_and!; try done; [by apply (elements_cons _ n [] t s ts r)|..];
    rewrite current_rest, Hr'; apply value_head in Ht as (b & s' & -> & [_ Hb]); simpl;
    intros [= ->]; set_solver.
Qed.

Lemma strings_loop_complete n ts : Forall string_or_null ts → ∀ fuel c u k,
  ts ≠ [] → jelements n ts u → rest c = u ++ k → (length u ≤ fuel)%nat →
  strings_loop fuel c = Some (advance (length u) c).
Proof.
  induction 1 as [|t ts Ht Hts IH]; intros fuel c u k Hne Hu Hr Hf; [done|].
  destruct (elements_skip n (t :: ts) u k c Hu Hne Hr)
    as (w & u' & Hw & -> & Hu' & E & Hr' & _).
  apply elements_cons_inv in Hu' as (w0 & s & r & Hw0 & Hs & Hm & ->).
  assert (w0 = []) as ->.
  { eapply ws_nil_inv; [done|]. destruct (skip_ws_reads c) as (_ & _ & _ & Hn).
    by rewrite Hr', <-app_assoc in Hn. }
  destruct fuel as [|fuel].
  { apply value_head in Hs as (b & s' & -> & _). rewrite length_app in Hf. simpl in Hf. lia. }
  change ([] ++ s ++ r) with (s ++ r) in *.
  simpl. fold (item_at (skip_ws c)). rewrite <-app_assoc in Hr'.
  rewrite (item_at_complete n t s _ (r ++ k)) by done. cbn [mbind option_bind].
  set (c1 := advance (length s) (skip_ws c)).
  assert (rest c1 = r ++ k) as Hr1 by by apply rest_app.
  assert (advance (length s) (advance (length w) c) = c1) as Ec1 by by rewrite <-E.
  apply more_elements_inv in Hm as [[-> (w1 & Hw1 & ->)]|[Hne' (w1 & u2 & Hw1 & Hu2 & ->)]];
    rewrite <-app_assoc in Hr1.
  - destruct (after_item w1 "]"%byte k c1 Hw1 eq_refl Hr1) as (Ec & _ & Ea).
    rewrite !Ec, bool_decide_false, bool_decide_true by done.
    rewrite Ea, <-Ec1, !advance_advance, !length_app. simpl. do 2 f_equal; lia.
  - destruct (after_item w1 ","%byte (u2 ++ k) c1 Hw1 eq_refl Hr1) as (Ec & Hr2 & Ea).
    rewrite !Ec, bool_decide_true by done.
    destruct (elements_skip n ts u2 k _ Hu2 Hne' Hr2)
      as (w2 & u2' & Hw2 & -> & Hu2' & E2 & Hr2' & Hnb & _).
    rewrite bool_decide_false by done.
    rewrite (IH fuel (skip_ws (advance 1 (skip_ws c1))) u2' k); [|done..|].
    + rewrite E2, Ea, <-Ec1, !advance_advance, !length_app. simpl. rewrite !length_app.
      do 2 f_equal; lia.
    + rewrite !length_app in Hf. simpl in Hf. rewrite !length_app in Hf. lia.
Qed.

Lemma at_end_sound c : (at_end c).1 = true → ws (rest c).
Proof.
  unfold at_end. intros E%Nat.eqb_eq. destruct (skip_ws_reads c) as (w & Hw & [Hr _] & _).
  assert (rest (skip_ws c) = []) as En.
  { unfold rest at 1. rewrite E. apply drop_ge. simpl. lia. }
  by rewrite Hr, En, app_nil_r.
Qed.

(** A cursor that has read [s] from the start of the input. *)
Lemma at_end_complete s w : ws w → (at_end (advance (length s) (JsonCursor_new (s ++ w)))).1 = true.
Proof.
  intros Hw. unfold at_end. apply Nat.eqb_eq.
  assert (rest (advance (length s) (JsonCursor_new (s ++ w))) = w ++ []) as Hr.
  { rewrite app_nil_r. apply rest_app. unfold rest. simpl. by rewrite drop_0. }
  destruct (skip_ws_at _ w [] Hw I Hr) as [-> _]. simpl. by rewrite length_app.
Qed.

Lemma rest_new s : rest (JsonCursor_new s) = s.
Proof. unfold rest. simpl. by rewrite drop_0. Qed.

Lemma solid_skip n t s : jreads n t s → skip_ws (JsonCursor_new s) = JsonCursor_new s.
Proof.
  intros Ht. apply skip_ws_id. rewrite rest_new, <-(app_nil_r s). by eapply value_until.
Qed.

(** The cursor behind a simple value. *)
Definition simple_at (kind : ProfileFieldKind) (fuel : nat) (c : JsonCursor) : option JsonCursor :=
  match kind with
  | Scalar | Optional => item_at c
  | Strings =>
      if bool_decide (current c = Some "n"%byte) then skip_null c
      else if bool_decide (current c = Some "["%byte) then
        let c := skip_ws (advance 1 c) in
        if bool_decide (current c = Some "]"%byte) then Some (advance 1 c)
        else strings_loop fuel c
      else None
  | Addresses => None
  end.

Lemma validate_at s kind :
  validate_simple_value s kind =
  match simple_at kind (S (length s)) (skip_ws (JsonCursor_new s)) with
  | Some c => (at_end c).1
  | None => false
  end.
Proof. by destruct kind. Qed.

(** [validate_simple_value] on the bytes of a value. *)
Lemma validate_simple_sound n m t0 s kind :
  jreads m t0 s → validate_simple_value s kind = true → ∃ t, simple kind t ∧ jreads (S n) t s.
Proof.
  intros H0 E. rewrite validate_at, (solid_skip m t0 s H0) in E.
  set (c0 := JsonCursor_new s) in *.
  destruct (simple_at kind _ c0) as [c|] eqn:Es; [|done].
  assert (∀ t v, reads_to c0 c v → jreads (S n) t v → s = v) as Hall.
  { intros t v [Hr _] Hv. apply at_end_sound in E. unfold c0 in Hr. rewrite rest_new in Hr.
    rewrite Hr in H0. apply (value_trim m t0 []) in H0 as [_ Hn]; [|done..|].
    - by rewrite Hn, app_nil_r in Hr.
    - apply value_head in Hv as (b & v' & -> & _). done. }
  assert (item_at c0 = Some c → ∃ t, string_or_null t ∧ jreads (S n) t s) as Hitem.
  { intros (t & v & Ht & Hv & Hr)%(item_at_sound (S n)). exists t.
    by rewrite (Hall _ _ Hr Hv). }
  destruct kind; cbn [simple simple_at] in *; [auto..| |done].
  case_bool_decide as Hn; [|case_bool_decide as Ha; [|done]].
  - assert (item_at c0 = Some c) as Hi.
    { unfold item_at. rewrite Hn, bool_decide_false, bool_decide_true by done. done. }
    destruct (Hitem Hi) as (t & [->|[raw ->]] & Ht); [by eauto|].
    exfalso. apply reads_string_inv in Ht as [-> Hv]. unfold c0 in Hn.
    rewrite current_rest, rest_new in Hn. by destruct Hv.
  - apply current_reads in Ha.
    destruct (skip_ws_reads (advance 1 c0)) as (w & Hw & Hrw & _).
    assert (∀ ts u, Forall string_or_null ts → jelements n ts u → reads_to c0 c ("["%byte :: w ++ u) →
              ∃ t, (t = null ∨ ∃ ts, t = TArray ts ∧ Forall string_or_null ts) ∧
                jreads (S n) t s) as Harray.
    { intros ts u Hts Hu Hr. exists (TArray ts). split; [right; by exists ts|].
      assert (jreads (S n) (TArray ts) ("["%byte :: w ++ u)) as Hv
        by (constructor; by apply elements_ws).
      by rewrite (Hall _ _ Hr Hv). }
    case_bool_decide as Hb.
    + injection Es as <-. apply current_reads in Hb.
      apply (Harray [] ["]"%byte]); [done|by apply (elements_nil _ n [])|].
      apply (reads_to_trans _ _ _ ["["%byte] _ Ha). by eapply reads_to_trans.
    + apply (strings_loop_sound n) in Es as (ts & u & _ & Hts & Hu & Hr).
      apply (Harray ts u); [done..|].
      apply (reads_to_trans _ _ _ ["["%byte] _ Ha). by eapply reads_to_trans.
Qed.

Lemma validate_simple_complete n t s kind :
  simple kind t → jreads n t s → validate_simple_value s kind = true.
Proof.
  intros Hk Ht. rewrite validate_at, (solid_skip n t s Ht).
  set (c0 := JsonCursor_new s).
  assert (rest c0 = s ++ []) as Hr0 by (unfold c0; rewrite rest_new; by rewrite app_nil_r).
  enough (simple_at kind (S (length s)) c0 = Some (advance (length s) c0)) as ->.
  { pose proof (at_end_complete s [] ltac:(done)) as He. by rewrite app_nil_r in He. }
  assert (string_or_null t → item_at c0 = Some (advance (length s) c0)) as Hitem
    by (intros Hs; by eapply item_at_complete).
  destruct kind; cbn [simple simple_at] in *; [auto..| |done].
  destruct Hk as [->|(ts & -> & Hts)].
  - assert (current c0 = Some "n"%byte) as Hn.
    { apply reads_null_inv in Ht as ->. by apply (current_app _ _ (lit "ull")). }
    specialize (Hitem (or_introl eq_refl)). unfold item_at in Hitem. rewrite Hn in *.
    by rewrite bool_decide_false, bool_decide_true in Hitem by done.
  - assert (∃ m u, jelements m ts u ∧ s = "["%byte :: u) as (m & u & Hu & ->)
      by (inversion Ht; eauto).
    assert (current c0 = Some "["%byte) as Ha by by apply (current_app _ _ (u ++ [])).
    rewrite Ha, bool_decide_false, bool_decide_true by done.
    assert (rest (advance 1 c0) = u ++ []) as Hr1 by by rewrite rest_advance, Hr0.
    destruct ts as [|t ts].
    + assert (∃ w, ws w ∧ u = w ++ ["]"%byte]) as (w & Hw & ->) by (inversion Hu; eauto).
      rewrite <-app_assoc in Hr1.
      destruct (after_item w "]"%byte [] _ Hw eq_refl Hr1) as (Ec & _ & Ea).
      rewrite Ec, bool_decide_true by done. rewrite Ea, advance_advance, length_cons, length_app.
      simpl. do 2 f_equal; lia.
    + destruct (elements_skip m (t :: ts) u [] _ Hu ltac:(done) Hr1)
        as (w & u' & Hw & -> & Hu' & E & Hr' & Hnb & _).
      rewrite bool_decide_false by done.
      rewrite (strings_loop_complete m (t :: ts) Hts _ (skip_ws (advance 1 c0)) u' []);
        [|done..|simpl; rewrite length_app; lia].
      rewrite E, !advance_advance. simpl. rewrite length_app. do 2 f_equal; lia.
Qed.

(* ------------------------------------------------------------------ *)
(** ** The reduction of a profile's JSON, as a filter of trees: soundness and
    completeness of [reduce_profile_json] of [core/identity/profile.rs]. *)


Section reduce.
Context `{Lowercase} `{SerdeSlice}.

(** The filter: [reduced a t t'] keeps of the object [t] the fields of a
    profile, or of an address if [a]. *)
Inductive reduced : bool → tree → tree → Prop :=
| reduced_object a es es' : reduced_entries a es es' → reduced a (TObject es) (TObject es')
with reduced_entries : bool → list (bytes * tree) → list (bytes * tree) → Prop :=
| reduced_nil a : reduced_entries a [] []
| reduced_drop a k t name es es' :
    key_of k = Some name → profile_field_kind name a = None →
    reduced_entries a es es' → reduced_entries a ((k, t) :: es) es'
| reduced_keep a k t name kind es es' :
    key_of k = Some name → profile_field_kind name a = Some kind → simple kind t →
    reduced_entries a es es' → reduced_entries a ((k, t) :: es) ((k, t) :: es')
| reduced_addresses a k t t' name es es' :
    key_of k = Some name → profile_field_kind name a = Some Addresses → reduced_list t t' →
    reduced_entries a es es' → reduced_entries a ((k, t) :: es) ((k, t') :: es')
with reduced_list : tree → tree → Prop :=
| reduced_list_null : reduced_list null null
| reduced_list_array ts ts' : reduced_items ts ts' → reduced_list (TArray ts) (TArray ts')
with reduced_items : list tree → list tree → Prop :=
| reduced_items_nil : reduced_items [] []
| reduced_items_null ts ts' : reduced_items ts ts' → reduced_items (null :: ts) (null :: ts')
| reduced_items_object t t' ts ts' :
    reduced true t t' → reduced_items ts ts' → reduced_items (t :: ts) (t' :: ts').

(** A whole profile: null or an object. *)
Definition reduced_profile (t t' : tree) : Prop := (t = null ∧ t' = null) ∨ reduced false t t'.

Lemma address_kind name : profile_field_kind name true ≠ Some Addresses.
Proof. unfold profile_field_kind. by repeat case_match. Qed.

(** How deep the members of an object nest. *)
Definition bound (a : bool) : nat := if a then MAX else S (S MAX).

Definition sound_object (fuel : nat) : Prop := ∀ c a out c',
  reduce_object fuel c a = Some (out, c') →
  ∃ t t' u, reads_to c c' u ∧ jreads (S (bound a)) t u ∧ reduced a t t' ∧
    jreads (S (bound a)) t' out.

Definition members_after (n : nat) (has_field : bool) : list (bytes * tree) → bytes → Prop :=
  if has_field then jmore_members n else jmembers n.

Definition sound_object_loop (fuel : nat) : Prop := ∀ c a out hf r c',
  object_loop fuel c a out hf = Some (r, c') →
  ∃ es es' u v, es ≠ [] ∧ reads_to c c' u ∧ jmembers (bound a) es u ∧
    reduced_entries a es es' ∧ r = out ++ v ∧ members_after (bound a) hf es' v.

Definition sound_array (fuel : nat) : Prop := ∀ c out c',
  reduce_address_array fuel c = Some (out, c') →
  ∃ t t' w u, ws w ∧ reads_to c c' (w ++ u) ∧ jreads (S (S MAX)) t u ∧ reduced_list t t' ∧
    jreads (S (S MAX)) t' out.

Definition elements_after (n : nat) (first : bool) : list tree → bytes → Prop :=
  if first then jelements n else jmore n.

Definition sound_address_loop (fuel : nat) : Prop := ∀ c out first r c',
  address_loop fuel c out first = Some (r, c') →
  ∃ ts ts' u v, ts ≠ [] ∧ reads_to c c' u ∧ jelements (S MAX) ts u ∧ reduced_items ts ts' ∧
    r = out ++ v ∧ elements_after (S MAX) first ts' v.

(** The comma and the next members, or the closing bracket. *)
Definition object_next (fuel : nat) (c : JsonCursor) (a : bool) (out : bytes) (hf : bool) :
    option (bytes * JsonCursor) :=
  let c := skip_ws c in
  if bool_decide (current c = Some ","%byte) then
    let c := skip_ws (advance 1 c) in
    if bool_decide (current c = Some "}"%byte) then None
    else object_loop fuel c a out hf
  else if bool_decide (current c = Some "}"%byte) then Some (out ++ lit "}", advance 1 c)
  else None.

Definition address_next (fuel : nat) (c : JsonCursor) (out : bytes) :
    option (bytes * JsonCursor) :=
  let c := skip_ws c in
  if bool_decide (current c = Some ","%byte) then
    let c := skip_ws (advance 1 c) in
    if bool_decide (current c = Some "]"%byte) then None
    else address_loop fuel c out false
  else if bool_decide (current c = Some "]"%byte) then Some (out ++ lit "]", advance 1 c)
  else None.

Lemma object_next_sound fuel c a out hf r c' :
  sound_object_loop fuel → object_next fuel c a out hf = Some (r, c') →
  ∃ es es' u v, reads_to c c' u ∧ jmore_members (bound a) es u ∧
    reduced_entries a es es' ∧ r = out ++ v ∧ members_after (bound a) hf es' v.
Proof.
  intros IH E. unfold object_next in E. destruct (skip_ws_reads c) as (w & Hw & Hrw & _).
  case_bool_decide as Hc; [|case_bool_decide as Hb; [|done]].
  - apply current_reads in Hc.
    destruct (skip_ws_reads (advance 1 (skip_ws c))) as (w2 & Hw2 & Hrw2 & _).
    case_bool_decide; [done|].
    apply IH in E as (es & es' & u & v & Hne & Hr & Hu & Hes & -> & Hv).
    exists es, es', (w ++ ","%byte :: w2 ++ u), v. split_and!; [| |done..].
    + eapply reads_to_trans; [exact Hrw|]. apply (reads_to_trans _ _ _ [","%byte] _ Hc).
      by eapply reads_to_trans.
    + apply members_more; [by apply members_ws|done..].
  - injection E as <- <-. apply current_reads in Hb.
    exists [], [], (w ++ ["}"%byte]), (lit "}").
    split_and!; [by eapply reads_to_trans|by constructor|constructor|done|].
    destruct hf; by apply (more_members_nil _ _ []) || by apply (members_nil _ _ []).
Qed.

Lemma address_next_sound fuel c out r c' :
  sound_address_loop fuel → address_next fuel c out = Some (r, c') →
  ∃ ts ts' u v, reads_to c c' u ∧ jmore (S MAX) ts u ∧ reduced_items ts ts' ∧
    r = out ++ v ∧ jmore (S MAX) ts' v.
Proof.
  intros IH E. unfold address_next in E. destruct (skip_ws_reads c) as (w & Hw & Hrw & _).
  case_bool_decide as Hc; [|case_bool_decide as Hb; [|done]].
  - apply current_reads in Hc.
    destruct (skip_ws_reads (advance 1 (skip_ws c))) as (w2 & Hw2 & Hrw2 & _).
    case_bool_decide; [done|].
    apply IH in E as (ts & ts' & u & v & Hne & Hr & Hu & Hts & -> & Hv).
    exists ts, ts', (w ++ ","%byte :: w2 ++ u), v. split_and!; [| |done..].
    + eapply reads_to_trans; [exact Hrw|]. apply (reads_to_trans _ _ _ [","%byte] _ Hc).
      by eapply reads_to_trans.
    + apply elements_more; [by apply elements_ws|done..].
  - injection E as <- <-. apply current_reads in Hb.
    exists [], [], (w ++ ["]"%byte]), (lit "]").
    split_and!; [by eapply reads_to_trans|by constructor|constructor|done|].
    by apply (more_elements_nil _ _ []).
Qed.

Lemma reduce_object_sound fuel : sound_object_loop fuel → sound_object (S fuel).
Proof.
  intros IH c a out c' E. simpl in E. case_bool_decide as Hb; [|done].
  apply current_reads in Hb.
  destruct (skip_ws_reads (advance 1 c)) as (w & Hw & Hrw & _).
  case_bool_decide as Hc.
  - injection E as <- <-. apply current_reads in Hc.
    exists (TObject []), (TObject []), ("{"%byte :: w ++ ["}"%byte]). split_and!.
    + apply (reads_to_trans _ _ _ ["{"%byte] _ Hb). by eapply reads_to_trans.
    + by repeat constructor.
    + by repeat constructor.
    + constructor. by apply (members_nil _ _ []).
  - apply IH in E as (es & es' & u & v & _ & Hr & Hu & Hes & -> & Hv).
    exists (TObject es), (TObject es'), ("{"%byte :: w ++ u). split_and!.
    + apply (reads_to_trans _ _ _ ["{"%byte] _ Hb). by eapply reads_to_trans.
    + constructor. by apply members_ws.
    + by constructor.
    + by constructor.
Qed.

Lemma reduce_array_sound fuel : sound_address_loop fuel → sound_array (S fuel).
Proof.
  intros IH c out c' E. simpl in E. destruct (skip_ws_reads c) as (w & Hw & Hrw & _).
  case_bool_decide as Hn; [|case_bool_decide as Hb; [|done]].
  - destruct (skip_null (skip_ws c)) as [c1|] eqn:En; simpl in E; [|done]. injection E as <- <-.
    apply skip_null_sound in En as (w' & Hw' & Hr).
    exists null, null, (w ++ w'), (lit "null"). rewrite <-app_assoc.
    split_and!; [by apply Forall_app|by eapply reads_to_trans|apply reads_null|constructor|
      apply reads_null].
  - apply current_reads in Hb.
    destruct (skip_ws_reads (advance 1 (skip_ws c))) as (w' & Hw' & Hrw' & _).
    case_bool_decide as Hc.
    + injection E as <- <-. apply current_reads in Hc.
      exists (TArray []), (TArray []), w, ("["%byte :: w' ++ ["]"%byte]). split_and!; [done|..].
      * eapply reads_to_trans; [exact Hrw|]. apply (reads_to_trans _ _ _ ["["%byte] _ Hb).
        by eapply reads_to_trans.
      * by repeat constructor.
      * by repeat constructor.
      * constructor. by apply (elements_nil _ _ []).
    + apply IH in E as (ts & ts' & u & v & _ & Hr & Hu & Hts & -> & Hv).
      exists (TArray ts), (TArray ts'), w, ("["%byte :: w' ++ u). split_and!; [done|..].
      * eapply reads_to_trans; [exact Hrw|]. apply (reads_to_trans _ _ _ ["["%byte] _ Hb).
        by eapply reads_to_trans.
      * constructor. by apply elements_ws.
      * by constructor.
      * by constructor.
Qed.
Lemma address_loop_sound fuel :
  sound_object fuel → sound_address_loop fuel → sound_address_loop (S fuel).
Proof.
  intros IHo IHl c out first r c' E. simpl in E.
  destruct (skip_ws_reads c) as (w & Hw & Hrw & _).
  assert (∀ value c1, address_next fuel c1 ((out ++ if first then [] else lit ",") ++ value)
              = Some (r, c') →
            (∃ t t' u, reads_to (skip_ws c) c1 u ∧ jreads (S MAX) t u ∧
               (∀ ts ts', reduced_items ts ts' → reduced_items (t :: ts) (t' :: ts')) ∧
               jreads (S MAX) t' value) →
            ∃ ts ts' u v, ts ≠ [] ∧ reads_to c c' u ∧ jelements (S MAX) ts u ∧
              reduced_items ts ts' ∧ r = out ++ v ∧ elements_after (S MAX) first ts' v) as Hnext.
  { intros value c1 (ts & ts' & u2 & v & Hr2 & Hu2 & Hts & -> & Hv)%address_next_sound
      (t & t' & u & Hr & Hu & Hi & Hv'); [|done].
    exists (t :: ts), (t' :: ts'), (w ++ u ++ u2), ((if first then [] else lit ",") ++ value ++ v).
    split_and!; [done|eauto using reads_to_trans|by constructor|by apply Hi|by rewrite <-!app_assoc|].
    destruct first; [by apply (elements_cons _ _ [])|by apply (more_elements_cons _ _ [] [])]. }
  destruct (if bool_decide _ then _ else _) as [[value c1]|] eqn:Ev; [|done].
  simpl in E. fold (address_next fuel c1 ((out ++ if first then [] else lit ",") ++ value)) in E.
  apply (Hnext value c1 E).
  case_bool_decide as Hb; [|case_bool_decide as Hn; [|done]].
  - apply IHo in Ev as (t & t' & u & Hr & Hu & Ht & Hv).
    exists t, t', u. split_and!; [done..| |done]. intros. by apply reduced_items_object.
  - destruct (skip_null (skip_ws c)) as [c2|] eqn:En; simpl in Ev; [|done]. injection Ev as <- <-.
    apply skip_null_here in En; [|done].
    exists null, null, (lit "null"). split_and!; [done|apply reads_null| |apply reads_null].
    intros. by apply reduced_items_null.
Qed.

(** The value of a known field, or its loss. *)
Definition field_value (fuel : nat) (c : JsonCursor) (kind : ProfileFieldKind) :
    option (bytes * JsonCursor) :=
  match kind with
  | Addresses => reduce_address_array fuel c
  | _ =>
      '(a, b, c) ← skip_value c;
      let raw := slice (input c) a b in
      if validate_simple_value raw kind then Some (raw, c) else None
  end.

Lemma field_value_sound fuel a c name kind value c' :
  sound_array fuel → profile_field_kind name a = Some kind →
  field_value fuel c kind = Some (value, c') →
  ∃ t t' w u, ws w ∧ reads_to c c' (w ++ u) ∧ jreads (bound a) t u ∧ jreads (bound a) t' value ∧
    (∀ k es es', key_of k = Some name → reduced_entries a es es' →
       reduced_entries a ((k, t) :: es) ((k, t') :: es')).
Proof.
  intros IH Hk E.
  destruct (decide (kind = Addresses)) as [->|Hs].
  - destruct a; [by apply address_kind in Hk|].
    apply IH in E as (t & t' & w & u & Hw & Hr & Hu & Ht & Hv).
    exists t, t', w, u. cbn [bound]. split_and!; [done..|].
    intros. by eapply reduced_addresses.
  - assert (∃ a' b, skip_value c = Some (a', b, c') ∧ value = slice (input c') a' b ∧
              validate_simple_value value kind = true) as (a' & b & Es & -> & Hv).
    { destruct kind; [..|done]; unfold field_value in E;
        (destruct (skip_value c) as [[[a' b] c1]|]; [|done]); cbn [mbind option_bind] in E;
        (destruct (validate_simple_value _ _) eqn:Hv; [|done]); injection E as <- <-; eauto. }
    apply skip_value_sound in Es as (w & t0 & s & Hw & H1 & Hr & Hs' & _).
    rewrite (reads_to_input _ _ _ Hr), Hs' in *.
    destruct (validate_simple_sound 0 _ _ _ _ H1 Hv) as (t & Ht & Hst).
    assert (jreads (bound a) t s) as Hb.
    { eapply reads_mono; [exact Hst|]. pose proof max_depth_pos. destruct a; simpl; lia. }
    exists t, t, w, s. split_and!; [done..|]. intros. by eapply reduced_keep.
Qed.
Lemma object_loop_unfold fuel c a out hf :
  object_loop (S fuel) c a out hf =
  ('(x, y, c) ← parse_string (skip_ws c);
   key ← key_of (slice (input c) x y);
   let c' := skip_ws c in
   if bool_decide (current c' ≠ Some ":"%byte) then None else
   match profile_field_kind key a with
   | Some kind =>
       '(value, c2) ← field_value fuel (advance 1 c') kind;
       object_next fuel c2 a
         (out ++ (if hf then lit "," else []) ++ slice (input c) x y ++ lit ":" ++ value) true
   | None => '(_, _, c2) ← skip_value (advance 1 c'); object_next fuel c2 a out hf
   end).
Proof.
  cbn [object_loop]. destruct (parse_string _) as [[[x y] c1]|]; [|done].
  cbn [mbind option_bind]. destruct (key_of _) as [key|]; [|done]. cbn [mbind option_bind].
  cbv zeta. case_bool_decide; [done|].
  destruct (profile_field_kind key a) as [kind|].
  - change (match kind with Addresses => _ | _ => _ end)
      with (field_value fuel (advance 1 (skip_ws c1)) kind).
    by destruct (field_value _ _ _) as [[value c2]|].
  - by destruct (skip_value _) as [[[? ?] c2]|].
Qed.

Lemma members_intro n w k w' w'' t u es r :
  ws w → jstring k → ws w' → ws w'' → jreads n t u → jmore_members n es r →
  jmembers n ((k, t) :: es) (w ++ k ++ (w' ++ [":"%byte]) ++ (w'' ++ u) ++ r).
Proof. intros. rewrite <-!app_assoc. by apply (members_cons _ n w k w' w''). Qed.

Lemma object_loop_sound fuel :
  sound_array fuel → sound_object_loop fuel → sound_object_loop (S fuel).
Proof.
  intros IHa IHl c a out hf r c' E. rewrite object_loop_unfold in E.
  destruct (skip_ws_reads c) as (w & Hw & Hrw & _).
  destruct (parse_string _) as [[[x y] c1]|] eqn:Ep; [|done]. cbn [mbind option_bind] in E.
  apply parse_string_sound in Ep as (k & Hk & Hrk & -> & ->).
  rewrite (reads_to_input _ _ _ Hrk), (reads_to_slice _ _ _ Hrk) in E.
  destruct (key_of k) as [name|] eqn:Ek; [|done]. cbn [mbind option_bind] in E. cbv zeta in E.
  case_bool_decide as Hc; [done|]. apply current_reads in Hc.
  destruct (skip_ws_reads c1) as (w1 & Hw1 & Hrw1 & _).
  pose proof (reads_to_trans _ _ _ _ _ Hrw1 Hc) as Hcolon.
  destruct (profile_field_kind name a) as [kind|] eqn:Ekind.
  - destruct (field_value _ _ _) as [[value c2]|] eqn:Ev; [|done]. cbn [mbind option_bind] in E.
    eapply field_value_sound in Ev as (t & t' & w2 & u & Hw2 & Hr2 & Hu & Hv & Hred); [|done..].
    apply object_next_sound in E as (es & es' & u' & v & Hr3 & Hu' & Hes & -> & Hv'); [|done].
    exists ((k, t) :: es), ((k, t') :: es'), (w ++ k ++ (w1 ++ [":"%byte]) ++ (w2 ++ u) ++ u'),
      ((if hf then lit "," else []) ++ k ++ lit ":" ++ value ++ v).
    split_and!; [done|eauto 8 using reads_to_trans|by apply members_intro|by apply Hred|
      by rewrite <-!app_assoc|].
    destruct hf; [by apply (more_members_cons _ _ [] [] _ [] [])|by apply (members_cons _ _ [] _ [] [])].
  - destruct (skip_value _) as [[[x y] c2]|] eqn:Ev; [|done]. cbn [mbind option_bind] in E.
    apply skip_value_sound in Ev as (w2 & t & u & Hw2 & Ht & Hr2 & _).
    apply object_next_sound in E as (es & es' & u' & v & Hr3 & Hu' & Hes & -> & Hv'); [|done].
    assert (jreads (bound a) t u) as Hb by (eapply reads_mono; [exact Ht|destruct a; simpl; lia]).
    exists ((k, t) :: es), es', (w ++ k ++ (w1 ++ [":"%byte]) ++ (w2 ++ u) ++ u'), v.
    split_and!; [done|eauto 8 using reads_to_trans|by apply members_intro|by eapply reduced_drop|
      done..].
Qed.

Lemma reduce_sound fuel :
  sound_object fuel ∧ sound_object_loop fuel ∧ sound_array fuel ∧ sound_address_loop fuel.
Proof.
  induction fuel as [|fuel (IHo & IHl & IHa & IHd)].
  - by split_and!.
  - split_and!; [by apply reduce_object_sound|by apply object_loop_sound|
      by apply reduce_array_sound|by apply address_loop_sound].
Qed.

(* ------------------------------------------------------------------ *)
(** ** Completeness *)

Lemma members_cons_inv n k t es u :
  jmembers n ((k, t) :: es) u →
  ∃ w w' w'' s r, ws w ∧ jstring k ∧ ws w' ∧ ws w'' ∧ jreads n t s ∧ jmore_members n es r ∧
    u = w ++ k ++ w' ++ ":"%byte :: w'' ++ s ++ r.
Proof. inversion 1; subst. eauto 15. Qed.

Lemma more_members_inv n es r :
  jmore_members n es r →
  (es = [] ∧ ∃ w, ws w ∧ r = w ++ ["}"%byte]) ∨
  (es ≠ [] ∧ ∃ w u, ws w ∧ jmembers n es u ∧ r = w ++ ","%byte :: u).
Proof.
  destruct 1 as [n w Hw|n w0 w k w' w'' t s es r]; [left; eauto|right].
  split; [done|]. exists w0, (w ++ k ++ w' ++ ":"%byte :: w'' ++ s ++ r).
  split_and!; [done|by constructor|done].
Qed.

(** What a value at [c] followed by the rest of the object leads to. *)
Definition complete_loop (fuel : nat) (a : bool) (es es' : list (bytes * tree)) (n : nat) : Prop :=
  ∀ c u k out hf, jmembers n es u → rest c = u ++ k → (length u ≤ fuel)%nat →
  ∃ v, object_loop fuel c a out hf = Some (out ++ v, advance (length u) c) ∧
    members_after n hf es' v.

Lemma members_skip n es u k c :
  jmembers n es u → es ≠ [] → rest c = u ++ k →
  ∃ w u', ws w ∧ u = w ++ u' ∧ jmembers n es u' ∧ skip_ws c = advance (length w) c ∧
    rest (skip_ws c) = u' ++ k ∧ current (skip_ws c) = Some quote.
Proof.
  intros Hu Hne Hr. destruct es as [|[key t] es]; [done|].
  apply members_cons_inv in Hu as (w & w' & w'' & s & r & Hw & Hk & Hw' & Hw'' & Ht & Hm & ->).
  exists w, (key ++ w' ++ ":"%byte :: w'' ++ s ++ r).
  assert (∃ x, key = quote :: x) as [x Ex] by (destruct Hk; eauto).
  rewrite <-app_assoc in Hr.
  destruct (skip_ws_at c w ((key ++ w' ++ ":"%byte :: w'' ++ s ++ r) ++ k)) as [E Hr'];
    [done|by rewrite Ex|done|].
  split_and!; [done..|by apply (members_cons _ n [] key w' w'' t s es r)|done|done|].
  by rewrite current_rest, Hr', Ex.
Qed.

Lemma object_next_complete fuel a n es es' c r k out hf :
  (es ≠ [] → complete_loop fuel a es es' n) → (es = [] → es' = []) →
  jmore_members n es r → rest c = r ++ k → (length r ≤ S fuel)%nat →
  ∃ v, object_next fuel c a out hf = Some (out ++ v, advance (length r) c) ∧
    members_after n hf es' v.
Proof.
  intros IH Hnil Hm Hr Hf. unfold object_next.
  apply more_members_inv in Hm as [[-> (w & Hw & ->)]|[Hne (w & u & Hw & Hu & ->)]];
    rewrite <-app_assoc in Hr.
  - destruct (after_item w "}"%byte k c Hw eq_refl Hr) as (Ec & _ & Ea).
    rewrite Ec, bool_decide_false, bool_decide_true by done.
    exists (lit "}"). rewrite Ea, length_app, Hnil by done. split; [done|].
    destruct hf; [by apply (more_members_nil _ _ [])|by apply (members_nil _ _ [])].
  - destruct (after_item w ","%byte (u ++ k) c Hw eq_refl Hr) as (Ec & Hr2 & Ea).
    rewrite Ec, bool_decide_true by done.
    destruct (members_skip n es u k _ Hu Hne Hr2)
      as (w2 & u' & Hw2 & -> & Hu' & E2 & Hr2' & Hq).
    rewrite bool_decide_false by by rewrite Hq.
    destruct (IH Hne (skip_ws (advance 1 (skip_ws c))) u' k out hf Hu' Hr2') as (v & -> & Hv).
    { rewrite !length_app in Hf. simpl in Hf. rewrite length_app in Hf. lia. }
    exists v. split; [|done]. rewrite E2, Ea, !advance_advance, !length_app. simpl.
    rewrite length_app. do 3 f_equal; lia.
Qed.

Lemma reduce_object_unfold fuel c a :
  reduce_object (S fuel) c a =
  if bool_decide (current c = Some "{"%byte) then
    if bool_decide (current (skip_ws (advance 1 c)) = Some "}"%byte)
    then Some (lit "{}", advance 1 (skip_ws (advance 1 c)))
    else object_loop fuel (skip_ws (advance 1 c)) a (lit "{") false
  else None.
Proof. done. Qed.

Lemma reduce_array_unfold fuel c :
  reduce_address_array (S fuel) c =
  if bool_decide (current (skip_ws c) = Some "n"%byte) then
    c ← skip_null (skip_ws c); Some (lit "null", c)
  else if bool_decide (current (skip_ws c) = Some "["%byte) then
    let c' := skip_ws (advance 1 (skip_ws c)) in
    if bool_decide (current c' = Some "]"%byte) then Some (lit "[]", advance 1 c')
    else address_loop fuel c' (lit "[") true
  else None.
Proof. done. Qed.

(** An element of the addresses. *)
Definition address_item (fuel : nat) (c : JsonCursor) : option (bytes * JsonCursor) :=
  if bool_decide (current c = Some "{"%byte) then reduce_object fuel c true
  else if bool_decide (current c = Some "n"%byte) then c ← skip_null c; Some (lit "null", c)
  else None.

Lemma address_loop_unfold fuel c out (first : bool) :
  address_loop (S fuel) c out first =
  ('(value, c) ← address_item fuel (skip_ws c);
   address_next fuel c ((out ++ if first then [] else lit ",") ++ value)).
Proof. done. Qed.

(** The key and colon of a member. *)
Lemma object_loop_key fuel c a out hf w key w' name rest' :
  ws w → jstring key → ws w' → key_of key = Some name →
  rest c = w ++ key ++ w' ++ ":"%byte :: rest' →
  ∃ cv, cv = advance (length (w ++ key ++ w' ++ [":"%byte])) c ∧ rest cv = rest' ∧
  object_loop (S fuel) c a out hf =
  match profile_field_kind name a with
  | Some kind =>
      '(value, c2) ← field_value fuel cv kind;
      object_next fuel c2 a (out ++ (if hf then lit "," else []) ++ key ++ lit ":" ++ value) true
  | None => '(_, _, c2) ← skip_value cv; object_next fuel c2 a out hf
  end.
Proof.
  intros Hw Hk Hw' Hn Hr. exists (advance (length (w ++ key ++ w' ++ [":"%byte])) c).
  split_and!; [done|by apply rest_app; rewrite <-!app_assoc|].
  rewrite object_loop_unfold.
  assert (until is_ws (key ++ w' ++ ":"%byte :: rest')) as Hu by by destruct Hk.
  destruct (skip_ws_at c w _ Hw Hu Hr) as [E Hr1].
  rewrite (parse_string_complete _ key _ Hk Hr1). cbn [mbind option_bind].
  assert (slice (input (advance (length key) (skip_ws c))) (position (skip_ws c))
            (position (skip_ws c) + length key) = key) as ->
    by exact (slice_rest (skip_ws c) key _ Hr1).
  rewrite Hn. cbn [mbind option_bind]. cbv zeta.
  pose proof (rest_app _ _ _ Hr1) as Hr2.
  destruct (after_item w' ":"%byte rest' _ Hw' eq_refl Hr2) as (Ec & _ & Ea).
  rewrite bool_decide_false by (rewrite Ec; by intros []).
  rewrite Ea, E, !advance_advance, !length_app. simpl.
  by replace (length w + length key + (length w' + 1))%nat
    with (length w + (length key + (length w' + 1)))%nat by lia.
Qed.

Lemma field_simple_complete fuel c w s k n t kind :
  simple kind t → ws w → jreads n t s → (n ≤ MAX)%nat → (json_number s → ends_value k) →
  rest c = w ++ s ++ k →
  field_value fuel c kind = Some (s, advance (length (w ++ s)) c).
Proof.
  intros Hk Hw Hs Hn He Hr.
  assert (skip_value c = Some ((position c + length w)%nat, (position c + length (w ++ s))%nat,
                               advance (length (w ++ s)) c)) as E.
  { eapply skip_value_complete; [done|by eapply reads_mono|done..]. }
  assert (slice (input c) (position c + length w) (position c + length (w ++ s)) = s) as Es.
  { rewrite length_app, Nat.add_assoc. apply (slice_rest (advance (length w) c) _ k).
    by apply rest_app. }
  unfold field_value. destruct kind; [..|done]; rewrite E; cbn [mbind option_bind];
    cbn [input advance]; rewrite Es; by rewrite (validate_simple_complete n t).
Qed.

Definition complete_object (a : bool) (t t' : tree) : Prop := ∀ fuel n c u k,
  (n ≤ MAX)%nat → jreads n t u → rest c = u ++ k → (length u ≤ fuel)%nat →
  ∃ out, reduce_object fuel c a = Some (out, advance (length u) c) ∧ jreads n t' out.

Definition complete_entries (a : bool) (es es' : list (bytes * tree)) : Prop :=
  (es = [] → es' = []) ∧
  (es ≠ [] → ∀ fuel n, (n ≤ MAX)%nat → complete_loop fuel a es es' n).

Definition complete_array (t t' : tree) : Prop := ∀ fuel n c w u k,
  (n ≤ MAX)%nat → ws w → jreads n t u → rest c = w ++ u ++ k → (length u ≤ fuel)%nat →
  ∃ out, reduce_address_array fuel c = Some (out, advance (length (w ++ u)) c) ∧ jreads n t' out.

Definition complete_items (ts ts' : list tree) : Prop :=
  (ts = [] → ts' = []) ∧
  (ts ≠ [] → ∀ fuel n c u k out first,
    (n ≤ MAX)%nat → jelements n ts u → rest c = u ++ k → (length u ≤ fuel)%nat →
    ∃ v, address_loop fuel c out first = Some (out ++ v, advance (length u) c) ∧
      elements_after n first ts' v).

(** A member whose value is read by the rest of the loop's turn. *)
Lemma entry_complete a key t name es es' es'' :
  key_of key = Some name → complete_entries a es es' →
  (∀ fuel n c w s k out (hf : bool), (n ≤ MAX)%nat → ws w → jreads n t s →
     (json_number s → ends_value k) → rest c = w ++ s ++ k → (length s ≤ fuel)%nat →
     jstring key →
     ∃ v hf', (match profile_field_kind name a with
            | Some kind =>
                '(value, c2) ← field_value fuel c kind;
                object_next fuel c2 a (out ++ (if hf then lit "," else []) ++ key ++ lit ":" ++ value) true
            | None => '(_, _, c2) ← skip_value c; object_next fuel c2 a out hf
            end) = object_next fuel (advance (length (w ++ s)) c) a (out ++ v) hf' ∧
       (∀ r, members_after n hf' es' r → members_after n hf es'' (v ++ r))) →
  complete_entries a ((key, t) :: es) es''.
Proof.
  intros Hkey [Hnil Hloop] Hval. split; [done|].
  intros _ fuel n Hn c u k out hf Hu Hr Hf.
  apply members_cons_inv in Hu as (w & w' & w'' & s & r & Hw & Hk & Hw' & Hw'' & Ht & Hm & ->).
  destruct fuel as [|fuel].
  { rewrite !length_app in Hf. simpl in Hf. rewrite !length_app in Hf. lia. }
  rewrite <-!app_assoc in Hr. simpl in Hr. rewrite <-!app_assoc in Hr.
  destruct (object_loop_key fuel c a out hf w key w' name _ Hw Hk Hw' Hkey Hr)
    as (cv & Ecv & Hrv & ->).
  rewrite !length_app in Hf. simpl in Hf. rewrite !length_app in Hf.
  destruct (Hval fuel n cv w'' s (r ++ k) out hf) as (v & hf' & -> & Hv);
    [done..| |done|lia|done|].
  { intros _. by eapply more_members_ends. }
  destruct (object_next_complete fuel a n es es' (advance (length (w'' ++ s)) cv) r k (out ++ v) hf')
    as (v' & -> & Hv'); [by intros; apply Hloop|done|done| |lia|].
  { apply rest_app. by rewrite <-app_assoc. }
  exists (v ++ v'). rewrite app_assoc. split; [|by apply Hv].
  rewrite Ecv, !advance_advance, !length_app. simpl. rewrite !length_app. do 3 f_equal; lia.
Qed.

Scheme reduced_mut := Induction for reduced Sort Prop
  with reduced_entries_mut := Induction for reduced_entries Sort Prop
  with reduced_list_mut := Induction for reduced_list Sort Prop
  with reduced_items_mut := Induction for reduced_items Sort Prop.
Combined Scheme reduced_ind_all
  from reduced_mut, reduced_entries_mut, reduced_list_mut, reduced_items_mut.

Lemma keep_complete a key t name kind es es' :
  key_of key = Some name → profile_field_kind name a = Some kind → simple kind t →
  complete_entries a es es' → complete_entries a ((key, t) :: es) ((key, t) :: es').
Proof.
  intros Hkey Hkind Ht Hes. eapply entry_complete; [done..|].
  intros fuel n c w s k out hf Hn Hw Hs He Hr Hf Hk.
  exists ((if hf then lit "," else []) ++ key ++ lit ":" ++ s), true.
  rewrite Hkind, (field_simple_complete fuel c w s k n t kind) by done. split; [done|].
  intros r Hm. rewrite <-!app_assoc.
  destruct hf; [by apply (more_members_cons _ _ [] [] _ [] [])|by apply (members_cons _ _ [] _ [] [])].
Qed.

Lemma drop_complete a key t name es es' :
  key_of key = Some name → profile_field_kind name a = None →
  complete_entries a es es' → complete_entries a ((key, t) :: es) es'.
Proof.
  intros Hkey Hkind Hes. eapply entry_complete; [done..|].
  intros fuel n c w s k out hf Hn Hw Hs He Hr Hf Hk. exists [], hf. rewrite Hkind.
  rewrite (skip_value_complete c w t s k) by (try done; by eapply reads_mono).
  cbn [mbind option_bind]. by rewrite app_nil_r.
Qed.

Lemma addresses_complete a key t t' name es es' :
  key_of key = Some name → profile_field_kind name a = Some Addresses → complete_array t t' →
  complete_entries a es es' → complete_entries a ((key, t) :: es) ((key, t') :: es').
Proof.
  intros Hkey Hkind Ht Hes. eapply entry_complete; [done..|].
  intros fuel n c w s k out hf Hn Hw Hs He Hr Hf Hk. rewrite Hkind. cbn [field_value].
  destruct (Ht fuel n c w s k Hn Hw Hs Hr Hf) as (value & -> & Hv). cbn [mbind option_bind].
  exists ((if hf then lit "," else []) ++ key ++ lit ":" ++ value), true. split; [done|].
  intros r Hm. rewrite <-!app_assoc.
  destruct hf; [by apply (more_members_cons _ _ [] [] _ [] [])|by apply (members_cons _ _ [] _ [] [])].
Qed.

Lemma object_complete a es es' :
  complete_entries a es es' → complete_object a (TObject es) (TObject es').
Proof.
  intros [Hnil Hloop] fuel n c u k Hn Hu Hr Hf.
  assert (∃ m u', n = S m ∧ u = "{"%byte :: u' ∧ jmembers m es u') as (m & u' & -> & -> & Hu')
    by (inversion Hu; subst; eauto).
  destruct fuel as [|fuel]; [simpl in Hf; lia|]. rewrite reduce_object_unfold.
  rewrite (current_app c "{"%byte (u' ++ k)), bool_decide_true by done.
  assert (rest (advance 1 c) = u' ++ k) as Hr1 by by rewrite rest_advance, Hr.
  destruct es as [|e es].
  - rewrite Hnil by done. assert (∃ w, ws w ∧ u' = w ++ ["}"%byte]) as (w & Hw & ->)
      by (inversion Hu'; eauto).
    rewrite <-app_assoc in Hr1. destruct (after_item w "}"%byte k _ Hw eq_refl Hr1) as (Ec & _ & Ea).
    rewrite Ec, bool_decide_true by done. exists (lit "{}").
    rewrite Ea, advance_advance, length_cons, length_app. split; [do 3 f_equal; simpl; lia|].
    constructor. by apply (members_nil _ _ []).
  - destruct (members_skip m (e :: es) u' k _ Hu' ltac:(done) Hr1)
      as (w & u2 & Hw & -> & Hu2 & E & Hr2 & Hq).
    rewrite Hq, bool_decide_false by done.
    destruct (Hloop ltac:(done) fuel m ltac:(lia) (skip_ws (advance 1 c)) u2 k (lit "{") false Hu2 Hr2)
      as (v & -> & Hv); [simpl in Hf; rewrite length_app in Hf; lia|].
    exists ("{"%byte :: v). rewrite E, !advance_advance. split; [|by constructor].
    simpl. rewrite length_app. do 3 f_equal; lia.
Qed.

Lemma array_complete ts ts' :
  complete_items ts ts' → complete_array (TArray ts) (TArray ts').
Proof.
  intros [Hnil Hloop] fuel n c w0 u k Hn Hw0 Hu Hr Hf.
  assert (∃ m u', n = S m ∧ u = "["%byte :: u' ∧ jelements m ts u') as (m & u' & -> & -> & Hu')
    by (inversion Hu; subst; eauto).
  destruct fuel as [|fuel]; [simpl in Hf; lia|]. rewrite reduce_array_unfold; cbv zeta.
  destruct (after_item w0 "["%byte (u' ++ k) c Hw0 eq_refl Hr) as (Ec0 & Hr1 & Ea0).
  rewrite Ec0, bool_decide_false, bool_decide_true by done.
  destruct ts as [|t ts].
  - rewrite Hnil by done. assert (∃ w, ws w ∧ u' = w ++ ["]"%byte]) as (w & Hw & ->)
      by (inversion Hu'; eauto).
    rewrite <-app_assoc in Hr1. destruct (after_item w "]"%byte k _ Hw eq_refl Hr1) as (Ec & _ & Ea).
    rewrite Ec, bool_decide_true by done. exists (lit "[]").
    rewrite Ea, Ea0, advance_advance, length_app, length_cons, length_app.
    split; [do 3 f_equal; simpl; lia|].
    constructor. by apply (elements_nil _ _ []).
  - destruct (elements_skip m (t :: ts) u' k _ Hu' ltac:(done) Hr1)
      as (w & u2 & Hw & -> & Hu2 & E & Hr2 & Hb & _).
    rewrite bool_decide_false by done.
    destruct (Hloop ltac:(done) fuel m (skip_ws (advance 1 (skip_ws c))) u2 k (lit "[") true)
      as (v & -> & Hv); [lia|done..|simpl in Hf; rewrite length_app in Hf; lia|].
    exists ("["%byte :: v). rewrite E, Ea0, !advance_advance. split; [|by constructor].
    simpl. rewrite !length_app. simpl. rewrite length_app. do 3 f_equal; lia.
Qed.

Lemma null_array_complete : complete_array null null.
Proof.
  intros fuel n c w u k Hn Hw Hu Hr Hf. apply reads_null_inv in Hu as ->.
  destruct fuel as [|fuel]; [simpl in Hf; lia|]. rewrite reduce_array_unfold; cbv zeta.
  destruct (skip_ws_current c w "n"%byte (lit "ull" ++ k) Hw eq_refl Hr) as [E Ec].
  rewrite Ec, bool_decide_true by done.
  rewrite (skip_null_complete (skip_ws c) [] k); [|constructor|].
  - exists (lit "null"). split; [|apply reads_null].
    change ([] ++ lit "null") with (lit "null").
    cbn [mbind option_bind]. rewrite length_app, <-advance_advance. by rewrite E.
  - by destruct (skip_ws_at c w (lit "null" ++ k) Hw eq_refl Hr).
Qed.

(** An element that is reduced to [t'], before the rest of the array. *)
Lemma item_complete t t' ts ts' :
  complete_items ts ts' →
  (∀ fuel n c u k, (n ≤ MAX)%nat → jreads n t u → rest c = u ++ k → (length u ≤ fuel)%nat →
     ∃ out, address_item fuel c = Some (out, advance (length u) c) ∧ jreads n t' out) →
  complete_items (t :: ts) (t' :: ts').
Proof.
  intros [Hnil Hloop] Hitem. split; [done|]. intros _ fuel n c u k out first Hn Hu Hr Hf.
  destruct (elements_skip n (t :: ts) u k c Hu ltac:(done) Hr)
    as (w & u1 & Hw & -> & Hu1 & E & Hr1 & _).
  apply elements_cons_inv in Hu1 as (w0 & s & r & Hw0 & Hs & Hm & ->).
  assert (w0 = []) as ->.
  { eapply ws_nil_inv; [done|]. destruct (skip_ws_reads c) as (_ & _ & _ & Hu0).
    by rewrite Hr1, <-app_assoc in Hu0. }
  assert (1 ≤ length s)%nat as Hs1
    by (apply value_head in Hs as (b & s' & -> & _); simpl; lia).
  assert (1 ≤ length r)%nat as Hr1'.
  { apply more_elements_inv in Hm as [[_ (? & _ & ->)]|[_ (? & ? & _ & _ & ->)]];
      rewrite length_app; simpl; lia. }
  change ([] ++ s ++ r) with (s ++ r) in *. rewrite !length_app in Hf. rewrite <-app_assoc in Hr1.
  destruct fuel as [|fuel]; [lia|]. rewrite address_loop_unfold.
  destruct (Hitem fuel n (skip_ws c) s (r ++ k) Hn Hs Hr1 ltac:(lia)) as (value & -> & Hv).
  cbn [mbind option_bind]. unfold address_next. set (c1 := advance (length s) (skip_ws c)).
  assert (rest c1 = r ++ k) as Hr2 by by apply rest_app.
  assert (c1 = advance (length (w ++ s)) c) as Ec1
    by (unfold c1; by rewrite E, advance_advance, length_app).
  apply more_elements_inv in Hm as [[-> (w1 & Hw1 & ->)]|[Hne (w1 & u2 & Hw1 & Hu2 & ->)]];
    rewrite <-app_assoc in Hr2.
  - destruct (after_item w1 "]"%byte k c1 Hw1 eq_refl Hr2) as (Ec & _ & Ea).
    rewrite Ec, bool_decide_false, bool_decide_true by done.
    exists ((if first then [] else lit ",") ++ value ++ lit "]"). rewrite Hnil, <-!app_assoc by done.
    rewrite Ea, Ec1, advance_advance, !length_app. split; [do 3 f_equal; simpl; lia|].
    destruct first; [apply (elements_cons _ _ [] _ _ [])|apply (more_elements_cons _ _ [] [] _ _ [])];
      try done; by apply (more_elements_nil _ _ []).
  - destruct (after_item w1 ","%byte (u2 ++ k) c1 Hw1 eq_refl Hr2) as (Ec & Hr3 & Ea).
    rewrite Ec, bool_decide_true by done.
    destruct (elements_skip n ts u2 k _ Hu2 Hne Hr3)
      as (w2 & u3 & Hw2 & -> & Hu3 & E3 & Hr4 & Hb & _).
    rewrite bool_decide_false by done.
    destruct (Hloop Hne fuel n (skip_ws (advance 1 (skip_ws c1))) u3 k
                ((out ++ if first then [] else lit ",") ++ value) false)
      as (v & -> & Hv'); [done..|rewrite !length_app in Hf; simpl in Hf; rewrite length_app in Hf; lia|].
    exists ((if first then [] else lit ",") ++ value ++ v). rewrite <-!app_assoc.
    rewrite E3, Ea, Ec1, !advance_advance, !length_app. simpl. rewrite !length_app.
    split; [do 3 f_equal; lia|].
    destruct first; [by apply (elements_cons _ _ [])|by apply (more_elements_cons _ _ [] [])].
Qed.

Lemma reduce_complete :
  (∀ a t t', reduced a t t' → complete_object a t t') ∧
  (∀ a es es', reduced_entries a es es' → complete_entries a es es') ∧
  (∀ t t', reduced_list t t' → complete_array t t') ∧
  (∀ ts ts', reduced_items ts ts' → complete_items ts ts').
Proof.
  apply reduced_ind_all.
  - intros. by apply object_complete.
  - by split.
  - intros. by eapply drop_complete.
  - intros. by eapply keep_complete.
  - intros. by eapply addresses_complete.
  - apply null_array_complete.
  - intros. by apply array_complete.
  - by split.
  - intros ts ts' _ IH. apply item_complete; [done|].
    intros fuel n c u k Hn Hu Hr Hf. apply reads_null_inv in Hu as ->.
    unfold address_item.
    rewrite (current_app c "n"%byte (lit "ull" ++ k)), bool_decide_false, bool_decide_true by done.
    rewrite (skip_null_complete c [] k) by done. exists (lit "null"). split; [done|apply reads_null].
  - intros t t' ts ts' Ht IHt _ IH. apply item_complete; [done|].
    intros fuel n c u k Hn Hu Hr Hf.
    unfold address_item. assert (current c = Some "{"%byte) as ->.
    { inversion Ht; subst. inversion Hu; subst. by apply (current_app _ _ (s ++ k)). }
    rewrite bool_decide_true by done. by apply (IHt fuel n c u k).
Qed.

Lemma reduce_profile_complete s t t' :
  document utf8_char MAX t s → reduced_profile t t' →
  ∃ out, reduce_profile_json s = Some out ∧ jreads MAX t' out.
Proof.
  unfold reduce_profile_json.
  intros (w & u & w' & -> & Hw & Hu & Hw') Hred.
  set (c0 := JsonCursor_new (w ++ u ++ w')).
  assert (rest c0 = w ++ u ++ w') as Hr0 by apply rest_new.
  destruct (skip_ws_at c0 w (u ++ w') Hw (value_until _ _ _ _ Hu) Hr0) as [E Hr].
  enough (∃ out, (if bool_decide (current (skip_ws c0) = Some "n"%byte)
                  then c ← skip_null (skip_ws c0); Some (lit "null", c)
                  else if bool_decide (current (skip_ws c0) = Some "{"%byte)
                  then reduce_object (reduce_fuel (w ++ u ++ w')) (skip_ws c0) false else None)
            = Some (out, advance (length (w ++ u)) c0) ∧ jreads MAX t' out)
    as (out & E' & Ho).
  { exists out. rewrite E'. cbn [mbind option_bind]. unfold c0. rewrite app_assoc.
    by rewrite at_end_complete. }
  rewrite length_app, <-advance_advance, <-E. destruct Hred as [[-> ->]|Hred].
  - apply reads_null_inv in Hu as ->.
    rewrite (current_app _ "n"%byte (lit "ull" ++ w')), bool_decide_true by done.
    rewrite (skip_null_complete _ [] w') by done.
    exists (lit "null"). split; [done|apply reads_null].
  - assert (∃ x, u = "{"%byte :: x) as [x Ex]
      by (inversion Hred; subst; inversion Hu; subst; eauto).
    rewrite (current_app _ "{"%byte (x ++ w')), bool_decide_false, bool_decide_true
      by (done || by rewrite Hr, Ex).
    apply (proj1 reduce_complete _ _ _ Hred _ MAX _ u w'); [done..|].
    unfold reduce_fuel. rewrite !length_app. lia.
Qed.

Lemma reduce_profile_sound s out :
  reduce_profile_json s = Some out →
  ∃ t t' n, document utf8_char n t s ∧ reduced_profile t t' ∧ jreads n t' out.
Proof.
  unfold reduce_profile_json.
  intros E. set (c0 := JsonCursor_new s) in *.
  destruct (skip_ws_reads c0) as (w & Hw & Hrw & _).
  destruct (if bool_decide _ then _ else _) as [[value c]|] eqn:Ev; [|done].
  cbn [mbind option_bind] in E. destruct (at_end c).1 eqn:He; [|done]. injection E as ->.
  enough (∃ t t' n u, ws w ∧ reads_to (skip_ws c0) c (u) ∧ jreads n t u ∧
            reduced_profile t t' ∧ jreads n t' out) as (t & t' & n & u & _ & Hr & Hu & Hred & Ho).
  { exists t, t', n. split_and!; [|done..].
    apply at_end_sound in He. destruct (reads_to_trans _ _ _ _ _ Hrw Hr) as [Hrest _].
    unfold c0 in Hrest. rewrite rest_new, <-app_assoc in Hrest.
    exists w, u, (rest c). done. }
  case_bool_decide as Hn; [|case_bool_decide as Hb; [|done]].
  - destruct (skip_null (skip_ws c0)) as [c1|] eqn:En; simpl in Ev; [|done].
    injection Ev as <- <-.
    apply skip_null_here in En; [|done].
    exists null, null, O, (lit "null"). split_and!; [done..|apply reads_null|by left|apply reads_null].
  - apply (proj1 (reduce_sound _)) in Ev as (t & t' & u & Hr & Hu & Hred & Ho).
    exists t, t', (S (bound false)), u. split_and!; [done..|by right|done].
Qed.

(** C17: the reduction of a profile's JSON is the filter of its tree.  It
    succeeds on every well-formed document within the nesting limit whose
    known fields have the kind the profile expects, and gives a document that
    reads as the filtered tree: unknown fields are gone, whatever they hold,
    known ones are kept raw, in order and with their duplicates, at the top
    and in every address.  And it succeeds on no ill-formed document and on no
    document with a known field of another kind. *)
Theorem reduce_profile_json_spec s :
  (∀ t t', document utf8_char MAX t s → reduced_profile t t' →
     ∃ out, reduce_profile_json s = Some out ∧ jreads MAX t' out) ∧
  (∀ out, reduce_profile_json s = Some out →
     ∃ t t' n, document utf8_char n t s ∧ reduced_profile t t' ∧ jreads n t' out).
Proof.
  split; [intros t t'; apply reduce_profile_complete|apply reduce_profile_sound].
Qed.
End reduce.

(* ------------------------------------------------------------------ *)
(** ** [normalize_go_json] of [core/identity/profile.rs]: its results are clean
    (valid UTF-8, no lone surrogate, at most ten thousand containers open),
    and it changes nothing that is clean. *)

Notation MAX := GO_MAX_JSON_NESTING_DEPTH.

Definition high_surrogate (v : Z) : bool := between 55296 56319 v.
Definition low_surrogate (v : Z) : bool := between 56320 57343 v.

(** [\uXXXX] with the value [v]. *)
Definition unicode_escape (v : Z) (p : bytes) : Prop :=
  ∃ a b c d, p = [backslash; "u"%byte; a; b; c; d] ∧ parse_hex_quad p 2 = Some v.

(** One piece of a clean string. *)
Inductive clean_piece : bytes → Prop :=
| clean_escape c : is_escape c = true → clean_piece [backslash; c]
| clean_unicode v p :
    unicode_escape v p → high_surrogate v = false → low_surrogate v = false → clean_piece p
| clean_pair v v' p q :
    unicode_escape v p → unicode_escape v' q → high_surrogate v = true →
    low_surrogate v' = true → clean_piece (p ++ q)
| clean_char p : utf8_char p → clean_piece p.

(** What follows the opening quote of a clean string. *)
Inductive clean_chars : bytes → Prop :=
| clean_end : clean_chars [quote]
| clean_more p s : clean_piece p → clean_chars s → clean_chars (p ++ s).

Inductive clean : nat → bytes → Prop :=
| clean_nil d : clean d []
| clean_string d s k : clean_chars s → clean d k → clean d (quote :: s ++ k)
| clean_open d b k :
    b ∈ ["{"%byte; "["%byte] → (S d ≤ MAX)%nat → clean (S d) k → clean d (b :: k)
| clean_close d b k : b ∈ ["}"%byte; "]"%byte] → clean (d - 1) k → clean d (b :: k)
| clean_byte d b k :
    b ≠ quote → b ∉ ["{"%byte; "["%byte; "}"%byte; "]"%byte] → clean d k → clean d (b :: k).

(** The loops depend on the bytes from the position on. *)
Lemma lookup_drop' (s : bytes) i n : s !! (i + n)%nat = drop i s !! n.
Proof. by rewrite lookup_drop. Qed.

Lemma hex_quad_drop s i n : parse_hex_quad s (i + n) = parse_hex_quad (drop i s) n.
Proof. apply (hex_quad_rest (Cursor s i) n). Qed.

Lemma utf8_width_drop s i : valid_utf8_width s i = valid_utf8_width (drop i s) 0.
Proof. apply (utf8_width_rest (Cursor s i)). Qed.

Lemma slice_drop s i n p k : drop i s = p ++ k → length p = n → slice s i (i + n) = p.
Proof. intros E <-. apply (slice_rest (Cursor s i) p k E). Qed.

Lemma hex_quad_local s n :
  (6 ≤ length s)%nat → n = 2%nat → parse_hex_quad (take 6 s) n = parse_hex_quad s n.
Proof.
  intros Hl ->. unfold parse_hex_quad. simpl.
  rewrite !lookup_take_lt by lia. done.
Qed.

(** A parsed escape at the start of the rest, as its six bytes. *)
Lemma escape_here s v :
  s !! 0%nat = Some backslash → s !! 1%nat = Some "u"%byte → parse_hex_quad s 2 = Some v →
  unicode_escape v (take 6 s) ∧ s = take 6 s ++ drop 6 s ∧ length (take 6 s) = 6%nat.
Proof.
  intros H0 H1 Hv. pose proof (mk_is_Some _ _ Hv) as Hs.
  apply parse_hex_quad_spec in Hs as (a & b & c & d & k & E & _).
  destruct s as [|x [|y s]]; simplify_eq/=. change (s = a :: b :: c :: d :: k) in E. subst s.
  split_and!; [|done..]. exists a, b, c, d. split; [done|].
  rewrite <-Hv.
  exact (hex_quad_local (backslash :: "u"%byte :: a :: b :: c :: d :: k) 2
           ltac:(simpl; lia) eq_refl).
Qed.

Lemma escape_app v p k :
  unicode_escape v p →
  parse_hex_quad (p ++ k) 2 = Some v ∧ (p ++ k) !! 0%nat = Some backslash ∧
  (p ++ k) !! 1%nat = Some "u"%byte ∧ length p = 6%nat.
Proof. intros (a & b & c & d & -> & <-). done. Qed.

Lemma replacement_escape_clean : clean_piece replacement_escape.
Proof.
  apply (clean_unicode 65533); [|done..].
  exists "f"%byte, "f"%byte, "f"%byte, "d"%byte. done.
Qed.

Lemma replacement_char_clean : clean_piece replacement_char.
Proof. apply clean_char, utf8_3; unfold in_range; cbn; lia. Qed.

Lemma normalize_chars_sound fuel s i out r j :
  normalize_chars fuel s i out = Some (r, j) → ∃ t, r = out ++ t ∧ clean_chars t.
Proof.
  revert i out. induction fuel as [|fuel IH]; intros i out E; [done|].
  assert (∀ i' p, clean_piece p → normalize_chars fuel s i' (out ++ p) = Some (r, j) →
            ∃ t, r = out ++ t ∧ clean_chars t) as Hpiece.
  { intros i' p Hp (t & -> & Ht)%IH. exists (p ++ t). rewrite app_assoc. split; [done|].
    by constructor. }
  assert (∀ n p k, drop i s = p ++ k → length p = n → clean_piece p →
            normalize_chars fuel s (i + n) (out ++ slice s i (i + n)) = Some (r, j) →
            ∃ t, r = out ++ t ∧ clean_chars t) as Hcopy.
  { intros n p k Ep Hn Hp. rewrite (slice_drop s i n p k) by done. by apply Hpiece. }
  cbn [normalize_chars] in E. rewrite !lookup_drop', !hex_quad_drop, utf8_width_drop in E.
  replace (s !! i) with (drop i s !! 0%nat) in E by (rewrite lookup_drop; f_equal; lia).
  set (l := drop i s) in *. destruct (l !! 0%nat) as [b|] eqn:E0; [|done].
  case_bool_decide as Hq; [|case_bool_decide as Hb].
  - injection E as <- <-. subst b. exists [quote]. by split; [|constructor].
  - subst b. destruct (l !! 1%nat) as [e|] eqn:E1; [|done]. cbn [mbind option_bind] in E.
    case_bool_decide as Hu; [subst e|].
    + destruct (parse_hex_quad l 2) as [v|] eqn:Ev; [|done]. cbn [mbind option_bind] in E.
      destruct (escape_here l v E0 E1 Ev) as (Hp & El & Hlen).
      destruct (between 55296 56319 v) eqn:Eh; [|destruct (between 56320 57343 v) eqn:Elow].
      * destruct (bool_decide _ && bool_decide _) eqn:Hs.
        2: { by eapply Hpiece in E; [|apply replacement_escape_clean]. }
        apply andb_true_iff in Hs as [H6%bool_decide_eq_true H7%bool_decide_eq_true].
        destruct (parse_hex_quad l 8) as [v'|] eqn:E8.
        2: { by eapply Hpiece in E; [|apply replacement_escape_clean]. }
        destruct (between 56320 57343 v') eqn:Elow.
        2: { by eapply Hpiece in E; [|apply replacement_escape_clean]. }
        change 8%nat with (6 + 2)%nat in E8. rewrite hex_quad_drop in E8.
        change 7%nat with (6 + 1)%nat in H7.
        change 6%nat with (6 + 0)%nat in H6. rewrite lookup_drop' in H6, H7.
        destruct (escape_here (drop 6 l) v' H6 H7 E8) as (Hp' & El' & Hlen').
        apply (Hcopy 12%nat (take 6 l ++ take 6 (drop 6 l)) (drop 6 (drop 6 l))); [| | |done].
        { by rewrite <-app_assoc, <-El'. }
        { by rewrite length_app, Hlen, Hlen'. }
        by eapply clean_pair.
      * by eapply Hpiece in E; [|apply replacement_escape_clean].
      * apply (Hcopy 6%nat (take 6 l) (drop 6 l)); [done..| |done].
        by eapply clean_unicode.
    + destruct (is_escape e) eqn:Hesc; [|done].
      clearbody l. destruct l as [|x [|y l']]; simplify_eq/=.
      apply (Hcopy 2%nat [backslash; e] l'); [done..| |done]. by apply clean_escape.
  - destruct (bval b <? 32) eqn:E32; [done|]. destruct (bval b <? 128) eqn:E128.
    + clearbody l. destruct l as [|x l']; simplify_eq/=.
      apply (Hcopy 1%nat [b] l'); [done..| |done]. apply clean_char, utf8_ascii; [|done..].
      unfold in_range. lia.
    + destruct (valid_utf8_width l 0) as [w|] eqn:Ew.
      2: { by eapply Hpiece in E; [|apply replacement_char_clean]. }
      apply valid_utf8_width_spec in Ew as (p & k & Ep & <- & Hp & _). rewrite drop_0 in Ep.
      apply (Hcopy (length p) p k); [done..| |done]. by apply clean_char.
Qed.

Lemma clean_length t : clean_chars t → (1 ≤ length t)%nat.
Proof. induction 1; rewrite ?length_app; simpl; lia. Qed.

Lemma normalize_chars_complete t : clean_chars t → ∀ fuel s i out k,
  drop i s = t ++ k → (length t ≤ fuel)%nat →
  normalize_chars fuel s i out = Some (out ++ t, (i + length t)%nat).
Proof.
  induction 1 as [|p t Hp Ht IH]; intros fuel s i out k Er Hf;
    (destruct fuel as [|fuel]; [rewrite ?length_app in Hf; try pose proof (clean_length _ Ht);
       simpl in *; lia|]).
  - cbn [normalize_chars]. replace (s !! i) with (drop i s !! 0%nat)
      by (rewrite lookup_drop; f_equal; lia). by rewrite Er.
  - assert (length p ≠ 0%nat → normalize_chars fuel s (i + length p) (out ++ slice s i (i + length p))
            = Some (out ++ p ++ t, (i + length (p ++ t))%nat)) as Hcopy.
    { intros Hne. rewrite <-app_assoc in Er. rewrite (slice_drop s i _ p (t ++ k)) by done.
      rewrite (IH fuel s _ _ k).
      - rewrite length_app, Nat.add_assoc, <-app_assoc. done.
      - rewrite <-drop_drop, Er. by rewrite drop_app_length.
      - rewrite length_app in Hf. lia. }
    cbn [normalize_chars]. rewrite !lookup_drop', !hex_quad_drop, utf8_width_drop.
    replace (s !! i) with (drop i s !! 0%nat) by (rewrite lookup_drop; f_equal; lia).
    rewrite Er, <-!app_assoc. destruct Hp as [c Hc|v p Hp Hh Hl|v v' p q Hp Hq Hh Hl|p Hp].
    + simpl. rewrite bool_decide_false by by apply escape_plain. rewrite Hc. by apply Hcopy.
    + destruct (escape_app v p (t ++ k) Hp) as (-> & -> & -> & Hlen). rewrite Hlen in Hcopy.
      rewrite bool_decide_false, bool_decide_true by done. cbn [mbind option_bind].
      rewrite bool_decide_true by done. unfold high_surrogate, low_surrogate in *.
      rewrite Hh, Hl. by apply Hcopy.
    + rewrite <-!app_assoc.
      destruct (escape_app v p (q ++ t ++ k) Hp) as (-> & -> & -> & Hlen).
      destruct (escape_app v' q (t ++ k) Hq) as (E8 & H6 & H7 & Hlen').
      rewrite length_app, Hlen, Hlen' in Hcopy.
      assert (∀ n, (p ++ q ++ t ++ k) !! (6 + n)%nat = (q ++ t ++ k) !! n) as Hlook.
      { intros n. rewrite lookup_drop', <-Hlen. by rewrite drop_app_length. }
      rewrite bool_decide_false, bool_decide_true by done. cbn [mbind option_bind].
      rewrite bool_decide_true by done. unfold high_surrogate, low_surrogate in *. rewrite Hh.
      pose proof (Hlook 0%nat) as L6. rewrite H6 in L6. simpl in L6.
      pose proof (Hlook 1%nat) as L7. rewrite H7 in L7. simpl in L7.
      pose proof (hex_quad_drop (p ++ q ++ t ++ k) 6 2) as L8. simpl in L8. rewrite L6, L7, L8.
      rewrite !bool_decide_true by done. simpl andb. cbv iota.
      replace (drop 6 (p ++ q ++ t ++ k)) with (q ++ t ++ k)
        by (rewrite <-Hlen; by rewrite drop_app_length).
      rewrite E8, Hl. rewrite (app_assoc p q t). by apply Hcopy.
    + destruct (utf8_char_cases p Hp) as [(b & -> & Hb & Hq & Hbs)|[Hlen (b & p' & -> & Hb)]].
      * cbn [lookup list_lookup app]. rewrite !bool_decide_false by done. unfold in_range in Hb.
        replace (bval b <? 32) with false by lia. replace (bval b <? 128) with true by lia.
        by apply Hcopy.
      * cbn [lookup list_lookup app]. rewrite !bool_decide_false by (apply bval_ne; cbn; lia).
        replace (bval b <? 32) with false by lia. replace (bval b <? 128) with false by lia.
        change (b :: p' ++ t ++ k) with ((b :: p') ++ t ++ k).
        rewrite (proj2 (valid_utf8_width_spec _ 0 (length (b :: p'))))
          by (exists (b :: p'), (t ++ k); rewrite drop_0; auto).
        by apply Hcopy.
Qed.

Lemma normalize_string_sound s i out r j :
  normalize_json_string s i out = Some (r, j) →
  ∃ t, r = out ++ quote :: t ∧ clean_chars t.
Proof.
  unfold normalize_json_string. case_bool_decide; [|done].
  intros (t & -> & Ht)%normalize_chars_sound. exists t. by rewrite <-app_assoc.
Qed.

Lemma normalize_string_complete t s i out k :
  clean_chars t → drop i s = quote :: t ++ k → (length (quote :: t ++ k) ≤ length s)%nat →
  normalize_json_string s i out = Some (out ++ quote :: t, (i + 1 + length t)%nat).
Proof.
  intros Ht Er Hl. unfold normalize_json_string.
  replace (s !! i) with (drop i s !! 0%nat) by (rewrite lookup_drop; f_equal; lia).
  rewrite bool_decide_true by by rewrite Er.
  rewrite (normalize_chars_complete t Ht _ s _ _ k).
  - by rewrite <-app_assoc.
  - by rewrite <-drop_drop, Er.
  - simpl in Hl. rewrite length_app in Hl. lia.
Qed.

Lemma normalize_loop_sound fuel s i d out r :
  normalize_loop fuel s i d out = Some r → ∃ t, r = out ++ t ∧ clean d t.
Proof.
  revert i d out. induction fuel as [|fuel IH]; intros i d out E; [done|].
  cbn [normalize_loop] in E. destruct (s !! i) as [b|].
  2: { injection E as <-. exists []. rewrite app_nil_r. split; [done|constructor]. }
  assert (∀ d' i', normalize_loop fuel s i' d' (out ++ [b]) = Some r →
            (∀ t, clean d' t → clean d (b :: t)) → ∃ t, r = out ++ t ∧ clean d t) as Hbyte.
  { intros d' i' (t & -> & Ht)%IH Hc. exists (b :: t). rewrite <-app_assoc. split; [done|auto]. }
  case_bool_decide as Hq; [|case_bool_decide as Ho; [|case_bool_decide as Hc]].
  - destruct (normalize_json_string s i out) as [[o j]|] eqn:Es; [|done].
    apply normalize_string_sound in Es as (t & -> & Ht).
    apply IH in E as (k & -> & Hk). exists (quote :: t ++ k).
    rewrite <-app_assoc. split; [done|by constructor].
  - destruct (Nat.ltb MAX (S d)) eqn:Hd; [done|]. apply Nat.ltb_ge in Hd.
    eapply Hbyte; [exact E|]. intros. by apply clean_open.
  - eapply Hbyte; [exact E|]. intros. by apply clean_close.
  - eapply Hbyte; [exact E|]. intros. apply clean_byte; [done|set_solver|done].
Qed.

Lemma normalize_loop_complete d t : clean d t → ∀ fuel s i out,
  drop i s = t → (length t < fuel)%nat → (length t ≤ length s)%nat →
  normalize_loop fuel s i d out = Some (out ++ t).
Proof.
  induction 1 as [d|d t k Ht Hk IH|d b k Hb Hd Hk IH|d b k Hb Hk IH|d b k Hq Hb Hk IH];
    intros fuel s i out Er Hf Hl; (destruct fuel as [|fuel]; [simpl in Hf; lia|]);
    cbn [normalize_loop]; replace (s !! i) with (drop i s !! 0%nat)
      by (rewrite lookup_drop; f_equal; lia); rewrite Er; simpl.
  - by rewrite app_nil_r.
  - rewrite (normalize_string_complete t s i out k) by done.
    cbn [mbind option_bind]. simpl in Hf, Hl. rewrite length_app in Hf, Hl.
    rewrite IH; [by rewrite <-!app_assoc| |lia..].
    rewrite <-!drop_drop, Er. simpl. by rewrite drop_0, drop_app_length.
  - rewrite bool_decide_false, bool_decide_true by (set_solver || done).
    assert (Nat.ltb MAX (S d) = false) as -> by (apply Nat.ltb_ge; lia).
    simpl in Hf, Hl. rewrite IH; [by rewrite <-app_assoc|by rewrite <-drop_drop, Er|lia..].
  - rewrite !bool_decide_false, bool_decide_true by (set_solver || done).
    simpl in Hf, Hl. rewrite IH; [by rewrite <-app_assoc|by rewrite <-drop_drop, Er|lia..].
  - rewrite !bool_decide_false by (set_solver || done).
    simpl in Hf, Hl. rewrite IH; [by rewrite <-app_assoc|by rewrite <-drop_drop, Er|lia..].
Qed.

Lemma normalize_clean s : clean 0 s → normalize_go_json s = Some s.
Proof.
  intros Hs. unfold normalize_go_json.
  rewrite (normalize_loop_complete 0 s Hs); [done|by rewrite drop_0|lia..].
Qed.

(** Normalising is a projection onto the clean texts.  Whatever bytes come
    in, a result has only well-formed UTF-8 in its strings, no lone surrogate
    escape and at most ten thousand open containers; a text is left as it is
    exactly when it is clean, so that normalising twice changes nothing more. *)
Theorem normalize_go_json_projection s :
  (normalize_go_json s = Some s ↔ clean 0 s) ∧
  (∀ r, normalize_go_json s = Some r → clean 0 r ∧ normalize_go_json r = Some r).
Proof.
  pose proof normalize_clean as Hclean.
  assert (∀ r, normalize_go_json s = Some r → clean 0 r) as Hsound.
  { intros r (t & -> & Ht)%normalize_loop_sound. done. }
  split; [split; auto|]. auto.
Qed.
