(* ===== verification/Keyring.v ===== *)
(** The keyring boundary of [core/identity/keyring.rs].

    A backend is a class over the state it keeps: a call gives its result and
    the state after it, so a keyring that answers differently each time is an
    instance like any other.  The [keyring] crate under [OsKeyring] is the
    class [NativeKeyring]. *)
From S2P Require Import Prelude.
From S2P Require Import Text.
From S2P Require Import Encryption.
From Stdlib Require Import Strings.Byte.

Definition SERVICE_NAME : string := "symeraseme".
Definition USERNAME : string := "identity-master-key".

(** An opaque failure. *)
Inductive KeyringError : Type := KeyringUnavailable.

#[export] Instance KeyringError_eq_dec : EqDecision KeyringError.
Proof. solve_decision. Defined.

Definition KeyringError_str (e : KeyringError) : string := "keyring unavailable".

(** The trait: [get], [set] and [delete] on [&self]. *)
Class KeyringBackend (K : Type) := {
  keyring_get : K → string → string → result KeyringError (option string) * K;
  keyring_set : K → string → string → string → result KeyringError () * K;
  keyring_delete : K → string → string → result KeyringError () * K;
}.

(** What a caller relies on: a stored value is read back until it is replaced
    or removed, and an entry that is read or removed stays so. *)
Class KeyringLaws (K : Type) `{KeyringBackend K} (stored : K → option string) := {
  get_stored k r k' :
    keyring_get k SERVICE_NAME USERNAME = (r, k') →
    stored k' = stored k ∧ (∀ o, r = Ok o → o = stored k);
  set_stored k v r k' :
    keyring_set k SERVICE_NAME USERNAME v = (r, k') →
    stored k' = stored k ∨ stored k' = Some v;
  set_stored_ok k v k' :
    keyring_set k SERVICE_NAME USERNAME v = (Ok (), k') → stored k' = Some v;
  delete_stored k r k' :
    keyring_delete k SERVICE_NAME USERNAME = (r, k') →
    stored k' = stored k ∨ stored k' = None;
  delete_stored_ok k k' :
    keyring_delete k SERVICE_NAME USERNAME = (Ok (), k') → stored k' = None;
}.

(* ------------------------------------------------------------------ *)
(** ** The operating system's keyring *)

(** [keyring::Error], as far as the adapter looks at it. *)
Inductive NativeError : Type := NoEntry | NativeFailure.

(** [keyring::Entry::new] and the methods of an entry. *)
Class NativeKeyring (W : Type) := {
  entry_new : W → string → string → bool;
  get_password : W → string → string → result NativeError string * W;
  set_password : W → string → string → string → result NativeError () * W;
  delete_credential : W → string → string → result NativeError () * W;
}.

Section adapter.
Context {W : Type} `{NativeKeyring W}.

Definition OsKeyring_get (w : W) (service username : string) :
    result KeyringError (option string) * W :=
  if entry_new w service username then
    let '(r, w) := get_password w service username in
    (match r with
     | Ok value => if is_empty value then Ok None else Ok (Some value)
     | Err _ => Ok None
     end, w)
  else (Err KeyringUnavailable, w).

Definition OsKeyring_set (w : W) (service username value : string) :
    result KeyringError () * W :=
  if entry_new w service username then
    let '(r, w) := set_password w service username value in
    (map_err (λ _, KeyringUnavailable) r, w)
  else (Err KeyringUnavailable, w).

Definition OsKeyring_delete (w : W) (service username : string) :
    result KeyringError () * W :=
  if entry_new w service username then
    let '(r, w) := delete_credential w service username in
    (match r with
     | Ok _ | Err NoEntry => Ok ()
     | Err NativeFailure => Err KeyringUnavailable
     end, w)
  else (Err KeyringUnavailable, w).

End adapter.

Definition OsKeyring {W} `{NativeKeyring W} : KeyringBackend W :=
  {| keyring_get := OsKeyring_get;
     keyring_set := OsKeyring_set;
     keyring_delete := OsKeyring_delete |}.

(* ------------------------------------------------------------------ *)
(** ** The keyring in memory *)

(** The shared cells behind the two mutexes. *)
Record FakeKeyring := {
  fk_value : option string;
  fk_calls : list (string * string);
}.

Definition FakeKeyring_new : FakeKeyring := {| fk_value := None; fk_calls := [] |}.

Definition FakeKeyring_with_value (value : string) : FakeKeyring :=
  {| fk_value := Some value; fk_calls := [] |}.

Definition FakeKeyring_set_value (k : FakeKeyring) (value : option string) : FakeKeyring :=
  {| fk_value := value; fk_calls := fk_calls k |}.

Definition FakeKeyring_calls (k : FakeKeyring) : list (string * string) := fk_calls k.

#[export] Instance FakeKeyring_backend : KeyringBackend FakeKeyring :=
  {| keyring_get k service username :=
       let k := {| fk_value := fk_value k; fk_calls := fk_calls k ++ [(service, username)] |} in
       (Ok (fk_value k), k);
     keyring_set k service username value := (Ok (), FakeKeyring_set_value k (Some value));
     keyring_delete k service username := (Ok (), FakeKeyring_set_value k None) |}.

#[export] Instance FakeKeyring_laws : KeyringLaws FakeKeyring fk_value.
Proof. split; intros; simplify_eq/=; naive_solver. Qed.

(* ------------------------------------------------------------------ *)
(** ** The identity master key and where it comes from:
    [core/identity/secrets.rs].

    A resolver holds its keyring, a snapshot of the environment and the key of
    the process.  Keys are looked up in the cache, the hexadecimal variable,
    the passphrase variable and the keyring, in this order.  The [hex] and
    [scrypt] crates are the classes [HexCodec] and [Scrypt]; the random
    generator is an argument. *)

#[local] Notation length := List.length.

Definition MASTER_KEY_ENV : string := "SYMERASEME_IDENTITY_MASTER_KEY".
Definition SYMVAULT_PASSPHRASE_ENV : string := "SYMVAULT_PASSPHRASE".
Definition KEY_LENGTH : nat := 32.
Definition PASSPHRASE_SALT : bytes := lit "symeraseme-identity-master-key-v1".

(** [hex::encode], [hex::decode]. *)
Class HexCodec := {
  hex_encode : bytes → string;
  hex_decode : string → option bytes;
}.

(** Encoding is injective and never gives an empty text for a key. *)
Class HexLaws `{HexCodec} := {
  hex_roundtrip b : hex_decode (hex_encode b) = Some b;
  hex_encode_nil b : hex_encode b = "" → b = [];
}.

(** [scrypt::Params::new(log_n, r, p)] and [scrypt::scrypt]. *)
Class Scrypt := {
  scrypt_params : Type;
  Params_new : Z → Z → Z → option scrypt_params;
  scrypt : bytes → bytes → scrypt_params → nat → option bytes;
}.

(** [struct MasterKey([u8; 32])]; [from_bytes] is the checked constructor. *)
Inductive MasterKey : Type := Key (as_bytes : bytes).

Definition as_bytes (key : MasterKey) : bytes := let 'Key b := key in b.

#[export] Instance MasterKey_eq_dec : EqDecision MasterKey.
Proof. solve_decision. Defined.

Inductive MasterKeyError : Type :=
| Missing
| InvalidHex (source : string)
| InvalidLength (source : string) (actual : nat)
| DerivationFailed
| PersistenceFailed.

#[export] Instance MasterKeyError_eq_dec : EqDecision MasterKeyError.
Proof. solve_decision. Defined.

(** [impl fmt::Display for MasterKeyError]. *)
Definition MasterKeyError_str (e : MasterKeyError) : string :=
  match e with
  | Missing => "identity: master key missing"
  | InvalidHex source => "identity: " +:+ source +:+ ": invalid hex"
  | InvalidLength source actual =>
      "identity: " +:+ source +:+ " must be " +:+ pretty (N.of_nat KEY_LENGTH)
      +:+ " bytes, got " +:+ pretty (N.of_nat actual)
  | DerivationFailed => "identity: derive master key failed"
  | PersistenceFailed => "identity: durable keychain persistence failed"
  end.

(** [impl fmt::Debug for MasterKey]. *)
Definition MasterKey_debug (key : MasterKey) : string := "MasterKey([REDACTED])".

Definition from_bytes (b : bytes) : result MasterKeyError MasterKey :=
  if bool_decide (length b = KEY_LENGTH) then Ok (Key b)
  else Err (InvalidLength "master key" (length b)).

Record MasterKeyResolver (K : Type) := Resolver {
  keyring : K;
  environment : gmap string string;
  cached : option MasterKey;
}.
Arguments Resolver {K} keyring environment cached.
Arguments keyring {K} m.
Arguments environment {K} m.
Arguments cached {K} m.

(** [map.get(name).filter(|value| !value.is_empty())]. *)
Definition get_nonempty (env : gmap string string) (name : string) : option string :=
  match env !! name with
  | Some value => if is_empty value then None else Some value
  | None => None
  end.

Section resolver.
Context {K : Type} `{KeyringBackend K} `{HexCodec} `{Scrypt}.

Notation resolver := (MasterKeyResolver K).

Definition decode_key (source value : string) : result MasterKeyError MasterKey :=
  b ← ok_or (InvalidHex source) (hex_decode value);
  map_err (λ error, match error with
                    | InvalidLength _ actual => InvalidLength source actual
                    | other => other
                    end) (from_bytes b).

Definition derive_passphrase_key (passphrase : bytes) : result MasterKeyError MasterKey :=
  params ← ok_or DerivationFailed (Params_new 15 8 1);
  b ← ok_or DerivationFailed (scrypt passphrase PASSPHRASE_SALT params KEY_LENGTH);
  Ok (Key b).

Definition with_environment (k : K) (env : gmap string string) : resolver := Resolver k env None.

Definition MasterKeyResolver_new (k : K) : resolver := with_environment k ∅.

Definition set_environment (r : resolver) (name value : string) : resolver :=
  Resolver (keyring r) (<[name := value]> (environment r)) (cached r).

Definition set_cached (r : resolver) (key : MasterKey) : resolver :=
  Resolver (keyring r) (environment r) (Some key).

Definition clear_cache (r : resolver) : resolver :=
  Resolver (keyring r) (environment r) None.

Definition with_keyring (r : resolver) (k : K) : resolver :=
  Resolver k (environment r) (cached r).

(** [let key = m?; self.cached = Some(key.clone()); return Ok(key)]. *)
Definition remember (r : resolver) (m : result MasterKeyError MasterKey) :
    result MasterKeyError MasterKey * resolver :=
  match m with
  | Ok key => (Ok key, set_cached r key)
  | Err e => (Err e, r)
  end.

Definition resolve_existing (r : resolver) : result MasterKeyError MasterKey * resolver :=
  match cached r with
  | Some key => (Ok key, r)
  | None =>
      match get_nonempty (environment r) MASTER_KEY_ENV with
      | Some value => remember r (decode_key MASTER_KEY_ENV value)
      | None =>
          match get_nonempty (environment r) SYMVAULT_PASSPHRASE_ENV with
          | Some passphrase => remember r (derive_passphrase_key (lit passphrase))
          | None =>
              let '(found, k) := keyring_get (keyring r) SERVICE_NAME USERNAME in
              let r := with_keyring r k in
              match found with
              | Ok (Some value) =>
                  if is_empty value then (Err Missing, r)
                  else remember r (decode_key "stored keychain master key" value)
              | _ => (Err Missing, r)
              end
          end
      end
  end.

(** [rand::rng().fill_bytes(&mut [0; 32])]; [fill n] are [n] bytes. *)
Definition generate_master_key (fill : nat → bytes) : MasterKey := Key (fill KEY_LENGTH).

Definition init (fill : nat → bytes) (r : resolver) :
    result MasterKeyError MasterKey * resolver :=
  match resolve_existing r with
  | (Ok key, r) => (Ok key, r)
  | (Err Missing, r) =>
      let key := generate_master_key fill in
      match keyring_set (keyring r) SERVICE_NAME USERNAME (hex_encode (as_bytes key)) with
      | (Ok _, k) => (Ok key, set_cached (with_keyring r k) key)
      | (Err _, k) => (Err PersistenceFailed, with_keyring r k)
      end
  | (Err error, r) => (Err error, r)
  end.

Definition delete (r : resolver) : result KeyringError () * resolver :=
  let r := clear_cache r in
  let '(m, k) := keyring_delete (keyring r) SERVICE_NAME USERNAME in (m, with_keyring r k).

(** [from_process]: the two variables of the process that are valid text. *)
Definition from_process (var : string → option string) (k : K) : resolver :=
  with_environment k
    (foldl (λ env name, match var name with Some v => <[name := v]> env | None => env end)
       ∅ [MASTER_KEY_ENV; SYMVAULT_PASSPHRASE_ENV]).

End resolver.

(* ------------------------------------------------------------------ *)
(** ** Where the master key comes from: precedence of the sources, stability of
    the key over the life of a process and across processes, and what creating
    a key may and may not replace. *)


(** scrypt fills the slice it is given. *)
Class ScryptLaws `{Scrypt} := {
  scrypt_length p s params n b : scrypt p s params n = Some b → length b = n;
}.

Section facts.
Context {K : Type} `{KeyringBackend K} `{HexCodec} `{Scrypt}.

Notation resolver := (MasterKeyResolver K).

(** The first configured source: what it gives, read off the environment and
    the stored entry alone. *)
Inductive source : Type :=
| FromHex (value : string)
| FromPassphrase (passphrase : string)
| FromKeyring (value : string)
| NoSource.

Definition source_of (env : gmap string string) (stored : option string) : source :=
  match get_nonempty env MASTER_KEY_ENV with
  | Some v => FromHex v
  | None =>
      match get_nonempty env SYMVAULT_PASSPHRASE_ENV with
      | Some v => FromPassphrase v
      | None =>
          match stored with
          | Some v => if is_empty v then NoSource else FromKeyring v
          | None => NoSource
          end
      end
  end.

Definition key_from (s : source) : result MasterKeyError MasterKey :=
  match s with
  | FromHex v => decode_key MASTER_KEY_ENV v
  | FromPassphrase v => derive_passphrase_key (lit v)
  | FromKeyring v => decode_key "stored keychain master key" v
  | NoSource => Err Missing
  end.

Lemma get_nonempty_Some env name v :
  get_nonempty env name = Some v → env !! name = Some v ∧ v ≠ "".
Proof.
  unfold get_nonempty. destruct (env !! name) as [u|]; [|done].
  destruct (is_empty u) eqn:E; [done|]. intros [= <-]. split; [done|].
  intros ->. done.
Qed.

Lemma from_bytes_ok b key : from_bytes b = Ok key ↔ key = Key b ∧ length b = KEY_LENGTH.
Proof. unfold from_bytes. case_bool_decide; naive_solver. Qed.

Lemma decode_key_ok source v key :
  decode_key source v = Ok key ↔
  hex_decode v = Some (as_bytes key) ∧ length (as_bytes key) = KEY_LENGTH.
Proof.
  unfold decode_key. destruct (hex_decode v) as [b|]; simpl; [|naive_solver].
  rewrite map_err_ok, from_bytes_ok. destruct key; naive_solver.
Qed.

Lemma decode_key_not_missing source v : decode_key source v ≠ Err Missing.
Proof.
  unfold decode_key. destruct (hex_decode v); simpl; [|done].
  unfold from_bytes. by case_bool_decide.
Qed.

Lemma derive_not_missing p : derive_passphrase_key p ≠ Err Missing.
Proof.
  unfold derive_passphrase_key. destruct (Params_new 15 8 1); simpl; [|done].
  by destruct (scrypt _ _ _ _).
Qed.

Lemma key_from_missing s : key_from s = Err Missing ↔ s = NoSource.
Proof.
  destruct s; simpl; split; intros E; try done;
    solve [by apply decode_key_not_missing in E|by apply derive_not_missing in E].
Qed.

Lemma key_from_length `{!ScryptLaws} s key :
  key_from s = Ok key → length (as_bytes key) = KEY_LENGTH.
Proof.
  destruct s; simpl; try solve [by intros [_ ?]%decode_key_ok]; [|done].
  unfold derive_passphrase_key. intros E. inv_ok.
  destruct (scrypt _ _ _ _) as [b|] eqn:Es; simplify_eq/=. by apply scrypt_length in Es.
Qed.

Section laws.
Context (stored : K → option string) `{!KeyringLaws K stored}.

(** The key the sources of a resolver determine now. *)
Definition sourced (r : resolver) : source :=
  source_of (environment r) (stored (keyring r)).

(** The cache holds nothing or the key of the sources. *)
Definition consistent (r : resolver) : Prop :=
  ∀ key, cached r = Some key → key_from (sourced r) = Ok key.

Lemma remember_spec (r r' : resolver) m m' :
  remember r m = (m', r') →
  m' = m ∧ keyring r' = keyring r ∧ environment r' = environment r ∧
  cached r' = match m with Ok key => Some key | Err _ => cached r end.
Proof. unfold remember. destruct m; intros; by simplify_eq/=. Qed.

(** Looking a key up gives the cached key, the key of the first source, or,
    only when the keyring is the first source and cannot be read, nothing. *)
Lemma resolve_existing_sourced (r r' : resolver) m :
  resolve_existing r = (m, r') →
  sourced r' = sourced r ∧ environment r' = environment r ∧
  stored (keyring r') = stored (keyring r) ∧
  cached r' = match m with Ok key => Some key | Err _ => None end ∧
  (cached r ≠ None ∧ m = from_option Ok m (cached r) ∨
   cached r = None ∧
   (m = key_from (sourced r) ∨
    m = Err Missing ∧ get_nonempty (environment r) MASTER_KEY_ENV = None ∧
    get_nonempty (environment r) SYMVAULT_PASSPHRASE_ENV = None ∧
    is_ok (keyring_get (keyring r) SERVICE_NAME USERNAME).1 = false)).
Proof.
  unfold resolve_existing, sourced, source_of.
  destruct (cached r) as [key|] eqn:Ec; [intros [= <- <-]; naive_solver|].
  destruct (get_nonempty (environment r) MASTER_KEY_ENV) as [v|] eqn:Eh.
  { intros (-> & Ek & Ee & Ech)%remember_spec. rewrite Ek, Ee, Eh, Ech.
    split_and!; auto. destruct (decode_key _ v); auto. }
  destruct (get_nonempty (environment r) SYMVAULT_PASSPHRASE_ENV) as [v|] eqn:Ep.
  { intros (-> & Ek & Ee & Ech)%remember_spec. rewrite Ek, Ee, Eh, Ep, Ech.
    split_and!; auto. destruct (derive_passphrase_key _); auto. }
  destruct (keyring_get (keyring r) SERVICE_NAME USERNAME) as [o k] eqn:Eg.
  destruct (get_stored _ _ _ Eg) as [Ek Eo].
  destruct o as [[v|]|e].
  - specialize (Eo _ eq_refl) as Ev. rewrite <- Ev. destruct (is_empty v) eqn:Ee.
    + intros [= <- <-]. simpl. rewrite Eh, Ep, Ek, <- Ev, Ee. split_and!; auto.
    + intros (-> & Ek' & Ee' & Ech)%remember_spec. simpl in *.
      rewrite Ek', Ee', Eh, Ep, Ek, <- Ev, Ee, Ech. split_and!; auto.
      destruct (decode_key _ v); auto.
  - specialize (Eo _ eq_refl) as Ev. rewrite <- Ev.
    intros [= <- <-]. simpl. rewrite Eh, Ep, Ek, <- Ev. split_and!; auto.
  - intros [= <- <-]. simpl. rewrite Eh, Ep, Ek. split_and!; auto 10.
Qed.

Lemma resolve_existing_consistent (r r' : resolver) m :
  resolve_existing r = (m, r') → consistent r →
  consistent r' ∧ (∀ key, m = Ok key → key_from (sourced r) = Ok key).
Proof.
  intros E Hc. apply resolve_existing_sourced in E as (Es & Ee & Ek & Ech & Hm).
  assert (∀ key, m = Ok key → key_from (sourced r) = Ok key) as G.
  { intros key ->. destruct Hm as [[Hn Hm]|[Hn [Hm|[? _]]]]; [|done..].
    apply Hc. destruct (cached r); simpl in Hm; congruence. }
  split; [|done]. intros key. rewrite Ech, Es. destruct m; [|done]. intros [= ->]. by apply G.
Qed.

Section create.
Context `{!HexLaws} (fill : nat → bytes) (fill_length : length (fill KEY_LENGTH) = KEY_LENGTH).

(** A key that is stored is the key of the sources, unless the environment
    names another. *)
Lemma stored_key_found env :
  get_nonempty env MASTER_KEY_ENV = None → get_nonempty env SYMVAULT_PASSPHRASE_ENV = None →
  key_from (source_of env (Some (hex_encode (fill KEY_LENGTH)))) =
  Ok (generate_master_key fill).
Proof.
  intros Eh Ep. unfold source_of. rewrite Eh, Ep.
  destruct (is_empty _) eqn:Ee.
  - apply is_empty_spec, hex_encode_nil in Ee. by rewrite Ee in fill_length.
  - simpl. apply decode_key_ok. simpl. by rewrite hex_roundtrip.
Qed.

Lemma missing_environment (r r' : resolver) :
  resolve_existing r = (Err Missing, r') → consistent r →
  cached r = None ∧ get_nonempty (environment r) MASTER_KEY_ENV = None ∧
  get_nonempty (environment r) SYMVAULT_PASSPHRASE_ENV = None ∧
  (sourced r = NoSource ∨ is_ok (keyring_get (keyring r) SERVICE_NAME USERNAME).1 = false).
Proof.
  intros (_ & _ & _ & _ & Hm)%resolve_existing_sourced Hc.
  destruct Hm as [[Hn Hm]|[Hn [Hm|(_ & Hh & Hp & Hg)]]]; [| |naive_solver].
  - exfalso. by destruct (cached r).
  - symmetry in Hm. apply key_from_missing in Hm. split_and!; auto;
      unfold sourced, source_of in Hm;
      destruct (get_nonempty (environment r) MASTER_KEY_ENV); try done;
      by destruct (get_nonempty (environment r) SYMVAULT_PASSPHRASE_ENV).
Qed.

(** What creating a key does, whatever the keyring does. *)
Lemma init_sourced (r r' : resolver) m :
  init fill r = (m, r') → consistent r →
  consistent r' ∧ environment r' = environment r ∧
  (∀ key, m = Ok key → key_from (sourced r') = Ok key ∧ cached r' = Some key) ∧
  (m = key_from (sourced r) ∧ stored (keyring r') = stored (keyring r) ∨
   (sourced r = NoSource ∨ is_ok (keyring_get (keyring r) SERVICE_NAME USERNAME).1 = false) ∧
   cached r = None ∧
   (m = Ok (generate_master_key fill) ∧
    stored (keyring r') = Some (hex_encode (fill KEY_LENGTH)) ∨
    m = Err PersistenceFailed ∧ cached r' = None ∧
    (stored (keyring r') = stored (keyring r) ∨
     stored (keyring r') = Some (hex_encode (fill KEY_LENGTH))))).
Proof.
  unfold init. destruct (resolve_existing r) as [m1 r1] eqn:E1. intros E Hc.
  pose proof (resolve_existing_consistent _ _ _ E1 Hc) as [Hc1 Hk1].
  pose proof (resolve_existing_sourced _ _ _ E1) as (Es & Ee & Ek & Ech & Hm).
  destruct m1 as [key|e].
  { injection E as <- <-. split_and!; auto.
    - intros key' [= <-]. rewrite Es. auto.
    - left. split; [|done]. symmetry. auto. }
  assert (e ≠ Missing → (Err e : result MasterKeyError MasterKey, r1) = (m, r') →
          consistent r' ∧ environment r' = environment r ∧
          (∀ key, m = Ok key → key_from (sourced r') = Ok key ∧ cached r' = Some key) ∧
          m = key_from (sourced r) ∧ stored (keyring r') = stored (keyring r)) as Hother.
  { intros Hne [= <- <-]. split_and!; auto; [done|].
    destruct Hm as [[Hn Hm]|[Hn [Hm|[Hm _]]]]; [by destruct (cached r)|done|congruence]. }
  destruct e; try (destruct (Hother ltac:(done) E) as (?&?&?&?&?); split_and!; auto; fail).
  clear Hother. destruct (missing_environment _ _ E1 Hc) as (Hn & Hh & Hp & Hg).
  destruct (keyring_set _ _ _ _) as [s k] eqn:Eset.
  assert (∀ key, cached (with_keyring r1 k) = Some key → False) as Hnone
    by (simpl; rewrite Ech; done).
  destruct s as [[]|err]; injection E as <- <-; simpl.
  - pose proof (set_stored_ok _ _ _ Eset) as Ev.
    assert (key_from (source_of (environment r1) (stored k)) =
            Ok (generate_master_key fill)) as Hkey.
    { simpl in Ev. rewrite Ev, Ee. by apply stored_key_found. }
    split_and!; [|done| |]; [|by intros key [= <-]|auto 10].
    intros key [= <-]. exact Hkey.
  - split_and!; [|done|done|].
    + intros key Hkey. by destruct (Hnone key).
    + right. split_and!; [done..|]. right. split_and!; [done..|].
      rewrite <- Ek. by apply set_stored in Eset.
Qed.

End create.

(* ------------------------------------------------------------------ *)
(** ** The life of a process *)

Inductive operation : Type :=
| Resolve
| Init (fill : nat → bytes).

Definition perform (o : operation) (r : resolver) : result MasterKeyError MasterKey * resolver :=
  match o with
  | Resolve => resolve_existing r
  | Init fill => init fill r
  end.

Fixpoint perform_all (ops : list operation) (r : resolver) :
    list (result MasterKeyError MasterKey) * resolver :=
  match ops with
  | [] => ([], r)
  | o :: ops =>
      let '(m, r) := perform o r in
      let '(ms, r) := perform_all ops r in (m :: ms, r)
  end.

(** The random generator fills the key. *)
Definition fills (o : operation) : Prop :=
  match o with Resolve => True | Init fill => length (fill KEY_LENGTH) = KEY_LENGTH end.

Section life.
Context `{!HexLaws}.

Lemma perform_sourced o (r r' : resolver) m :
  fills o → perform o r = (m, r') → consistent r →
  consistent r' ∧ environment r' = environment r ∧
  (∀ key, m = Ok key → key_from (sourced r') = Ok key ∧ cached r' = Some key) ∧
  (∀ key, cached r = Some key → m = Ok key).
Proof.
  intros Hf E Hc.
  assert (∀ m1 r1 key, resolve_existing r = (m1, r1) → cached r = Some key → m1 = Ok key) as Hcache.
  { intros m1 r1 key (_ & _ & _ & _ & Hm)%resolve_existing_sourced Ek.
    rewrite Ek in Hm. simpl in Hm. naive_solver. }
  destruct o as [|fill]; simpl in *.
  - destruct (resolve_existing_consistent _ _ _ E Hc) as [Hc' Hk].
    pose proof (resolve_existing_sourced _ _ _ E) as (Es & Ee & Ek & Ech & Hm).
    split_and!; [done|done| |by eauto].
    intros key ->. rewrite Es. auto.
  - destruct (init_sourced fill Hf _ _ _ E Hc) as (Hc' & Ee & Hk & _). split_and!; auto.
    intros key Ek. unfold init in E. destruct (resolve_existing r) as [m1 r1] eqn:E1.
    rewrite (Hcache _ _ _ eq_refl Ek) in E. by injection E as <- _.
Qed.

Lemma perform_all_sourced ops (r r' : resolver) ms :
  Forall fills ops → perform_all ops r = (ms, r') → consistent r →
  consistent r' ∧ environment r' = environment r ∧
  (∀ key, cached r = Some key → Forall (λ m, m = Ok key) ms ∧ cached r' = Some key) ∧
  (∀ key, Ok key ∈ ms → cached r' = Some key).
Proof.
  intros Hf. revert r ms. induction Hf as [|o ops Ho Hf IH]; intros r ms E Hc; simpl in E.
  { injection E as <- <-. split_and!; auto. by intros key ?%not_elem_of_nil. }
  destruct (perform o r) as [m r1] eqn:E1, (perform_all ops r1) as [ms1 r2] eqn:E2.
  injection E as <- <-.
  destruct (perform_sourced _ _ _ _ Ho E1 Hc) as (Hc1 & Ee1 & Hk1 & Hm1).
  destruct (IH _ _ E2 Hc1) as (Hc2 & Ee2 & Hk2 & Hm2). split_and!; [done|congruence| |].
  - intros key Ek. specialize (Hm1 _ Ek) as ->. destruct (Hk1 _ eq_refl) as [_ Hk].
    destruct (Hk2 _ Hk). split; [by constructor|done].
  - intros key [<-|Hin]%elem_of_cons; [|by apply Hm2].
    destruct (Hk1 _ eq_refl) as [_ Hk]. by apply Hk2.
Qed.


(** Creating a key when the keyring can be read.  An existing key is
    returned and nothing is written; a source that is there but malformed
    fails with its own error and nothing is written; only when no source is
    configured is a key made, and then it is either stored and returned, or
    the failure is reported and the process keeps no key. *)
Theorem init_spec fill (r r' : resolver) m :
  length (fill KEY_LENGTH) = KEY_LENGTH → consistent r →
  is_ok (keyring_get (keyring r) SERVICE_NAME USERNAME).1 = true →
  init fill r = (m, r') →
  match key_from (sourced r) with
  | Ok key => m = Ok key ∧ stored (keyring r') = stored (keyring r)
  | Err Missing =>
      m = Ok (generate_master_key fill) ∧
      stored (keyring r') = Some (hex_encode (fill KEY_LENGTH)) ∧
      key_from (sourced r') = m
      ∨ m = Err PersistenceFailed ∧ cached r' = None
  | Err error => m = Err error ∧ cached r' = None ∧ stored (keyring r') = stored (keyring r)
  end.
Proof.
  intros Hf Hc Hg E. destruct (init_sourced fill Hf _ _ _ E Hc) as (Hc' & Ee & Hk & Hm).
  assert (∀ e, m = Err e → key_from (sourced r) = Err e → e ≠ Missing → cached r' = None) as Hnone.
  { intros e -> He Hne. destruct (cached r') as [key|] eqn:Ech; [|done]. exfalso.
    unfold init in E. destruct (resolve_existing r) as [m1 r1] eqn:E1.
    apply resolve_existing_sourced in E1 as (_ & _ & _ & Ech1 & _).
    destruct m1 as [?|[]]; try (destruct (keyring_set _ _ _ _) as [[[]|?] k]);
      simplify_eq/=; congruence. }
  destruct Hm as [[Hm Hs]|([Hn|Hn] & Ech & Hm)]; [| |congruence].
  - destruct (key_from (sourced r)) as [key|e] eqn:Ekey; [done|].
    destruct e; try (split_and!; [done|by eapply Hnone|done]).
    exfalso. unfold init in E. destruct (resolve_existing r) as [m1 r1] eqn:E1.
    pose proof (resolve_existing_sourced _ _ _ E1) as (_ & _ & _ & _ & Hm1).
    destruct m1 as [key|[]]; try (destruct (keyring_set _ _ _ _) as [[[]|?] k]); simplify_eq/=.
  - rewrite Hn. simpl. destruct Hm as [[-> Hs]|(-> & Hs & _)]; [left|by right].
    split_and!; [done..|]. by apply Hk.
Qed.

End life.
End laws.
End facts.
