(* ===== verification/SecretResolve.v ===== *)
(** Application secret references: [core/identity/resolve.rs].

    Literals pass through; [env://], [keychain://], [symvault://] and
    [vault://] references are looked up through a backend.  A backend is a
    class over the world it reads; the subprocess that asks the vault is
    [run_secret_command], over the class [ChildProcess]. *)
From S2P Require Import Prelude.
From S2P Require Import Text.
From S2P Require Import Encryption.
From S2P Require Import Keyring.
From Stdlib Require Import Strings.Byte.
From Stdlib Require Import Ascii.

Definition SYMVAULT_PREFIX : string := "symvault://".
Definition VAULT_PREFIX : string := "vault://".
Definition ENV_PREFIX : string := "env://".
Definition KEYCHAIN_PREFIX : string := "keychain://".

(** Nanoseconds. *)
Definition SYMVAULT_TIMEOUT : Z := 5000000000.

Inductive SecretBackendError : Type :=
| KeychainUnavailable
| SecretKeyringUnavailable
| SymvaultUnavailable
| SymvaultTimedOut.

#[export] Instance SecretBackendError_eq_dec : EqDecision SecretBackendError.
Proof. solve_decision. Defined.

Definition SecretBackendError_str (e : SecretBackendError) : string :=
  match e with
  | KeychainUnavailable => "keychain lookup failed"
  | SecretKeyringUnavailable => "keyring lookup failed"
  | SymvaultUnavailable => "symvault lookup failed"
  | SymvaultTimedOut => "symvault lookup timed out"
  end.

(** The trait, over the world its lookups run in. *)
Class SecretBackend (B : Type) := {
  resolve_keychain : B → string → string → result SecretBackendError string * B;
  resolve_symvault : B → string → result SecretBackendError string * B;
  get_keyring : B → string → string → result SecretBackendError (option string) * B;
}.

Inductive SecretResolutionError : Type :=
| EnvironmentUnavailable (name : string)
| InvalidKeychainReference
| Backend (e : SecretBackendError)
| EmptyVaultReference (prefix : string)
| VaultFallbackExhausted (env_fallback keyring_service : option string).

#[export] Instance SecretResolutionError_eq_dec : EqDecision SecretResolutionError.
Proof. solve_decision. Defined.

(** [impl fmt::Display for SecretResolutionError]. *)
Definition SecretResolutionError_str `{RustFmt} (e : SecretResolutionError) : string :=
  match e with
  | EnvironmentUnavailable name =>
      "identity: cannot resolve secret: environment variable " +:+ name +:+ " is not set"
  | InvalidKeychainReference =>
      "identity: cannot resolve secret: invalid keychain reference, expected keychain://service/account"
  | Backend error => "identity: cannot resolve secret: " +:+ SecretBackendError_str error
  | EmptyVaultReference prefix =>
      "identity: cannot resolve secret: empty " +:+ prefix +:+ " URI (provide a path like "
      +:+ SYMVAULT_PREFIX +:+ "part/key)"
  | VaultFallbackExhausted env_fallback keyring_service =>
      "identity: cannot resolve secret: shared secret reference could not be resolved"
      +:+ match env_fallback with
          | Some name => ", env var " +:+ debug_str name +:+ " not set"
          | None => ""
          end
      +:+ match keyring_service with
          | Some service => ", keyring " +:+ debug_str service +:+ " has no entry"
          | None => ""
          end
      +:+ ". Set the value directly or configure a supported secret reference."
  end.

(** The configuration of a resolver; its backend's world is passed along. *)
Record SecretResolver := {
  sr_environment : gmap string string;
  sr_env_fallback : option string;
  sr_keyring_service : option string;
  sr_keyring_username : option string;
}.

Definition SecretResolver_with_environment (env : gmap string string) : SecretResolver :=
  {| sr_environment := env; sr_env_fallback := None;
     sr_keyring_service := None; sr_keyring_username := None |}.

Definition SecretResolver_new : SecretResolver := SecretResolver_with_environment ∅.

Definition set_env_fallback (r : SecretResolver) (name : string) : SecretResolver :=
  {| sr_environment := sr_environment r; sr_env_fallback := Some name;
     sr_keyring_service := sr_keyring_service r; sr_keyring_username := sr_keyring_username r |}.

Definition set_keyring_service (r : SecretResolver) (service : string) : SecretResolver :=
  {| sr_environment := sr_environment r; sr_env_fallback := sr_env_fallback r;
     sr_keyring_service := Some service; sr_keyring_username := sr_keyring_username r |}.

Definition set_keyring_username (r : SecretResolver) (username : string) : SecretResolver :=
  {| sr_environment := sr_environment r; sr_env_fallback := sr_env_fallback r;
     sr_keyring_service := sr_keyring_service r; sr_keyring_username := Some username |}.

Definition vault_reference (value : string) : option (string * string) :=
  match strip_prefix SYMVAULT_PREFIX value with
  | Some path => Some (SYMVAULT_PREFIX, path)
  | None => (λ path, (VAULT_PREFIX, path)) <$> strip_prefix VAULT_PREFIX value
  end.

Definition is_secret_reference (value : string) : bool :=
  starts_with SYMVAULT_PREFIX value || starts_with VAULT_PREFIX value
  || starts_with ENV_PREFIX value || starts_with KEYCHAIN_PREFIX value.

Definition valid_symvault_path (path : string) : bool :=
  negb (is_empty path) && negb (starts_with "-" path)
  && negb (str_existsb (Ascii.eqb "000"%char) path) && negb (contains_control path).

(** [option.filter(|name| !name.is_empty())] *)
Definition filter_nonempty (o : option string) : option string :=
  match o with Some s => if is_empty s then None else Some s | None => None end.

Section resolve.
Context {B : Type} `{SecretBackend B}.

(** The lookups after a vault reference with a path, in their order; a lookup
    that gives nothing falls through to the next. *)
Definition vault_lookup (w : B) (path : string) : option string * B :=
  if valid_symvault_path path then
    let '(r, w) := resolve_symvault w path in (filter_nonempty (ok r), w)
  else (None, w).

Definition env_fallback_lookup (r : SecretResolver) : option string :=
  name ← filter_nonempty (sr_env_fallback r);
  value ← sr_environment r !! name;
  if negb (is_empty value) && negb (is_secret_reference value) then Some value else None.

Definition keyring_lookup (r : SecretResolver) (w : B) (path : string) : option string * B :=
  match filter_nonempty (sr_keyring_service r) with
  | Some service =>
      let username := default path (filter_nonempty (sr_keyring_username r)) in
      let '(m, w) := get_keyring w service username in
      (match m with Ok (Some secret) => filter_nonempty (Some secret) | _ => None end, w)
  | None => (None, w)
  end.

Definition resolve (r : SecretResolver) (w : B) (value : string) :
    result SecretResolutionError string * B :=
  match strip_prefix ENV_PREFIX value with
  | Some name =>
      (ok_or (EnvironmentUnavailable name) (get_nonempty (sr_environment r) name), w)
  | None =>
      match strip_prefix KEYCHAIN_PREFIX value with
      | Some reference =>
          match split_once "/" reference with
          | Some (service, account) =>
              if is_empty service || is_empty account then (Err InvalidKeychainReference, w)
              else
                let '(m, w) := resolve_keychain w service account in (map_err Backend m, w)
          | None => (Err InvalidKeychainReference, w)
          end
      | None =>
          match vault_reference value with
          | None => (Ok value, w)
          | Some (prefix, path) =>
              if is_empty path then (Err (EmptyVaultReference prefix), w)
              else
                match vault_lookup w path with
                | (Some secret, w) => (Ok secret, w)
                | (None, w) =>
                    match env_fallback_lookup r with
                    | Some secret => (Ok secret, w)
                    | None =>
                        match keyring_lookup r w path with
                        | (Some secret, w) => (Ok secret, w)
                        | (None, w) =>
                            (Err (VaultFallbackExhausted
                                    (filter_nonempty (sr_env_fallback r))
                                    (filter_nonempty (sr_keyring_service r))), w)
                        end
                    end
                end
          end
      end
  end.

End resolve.

(* ------------------------------------------------------------------ *)
(** ** The vault's subprocess *)

Inductive child_status : Type := Running | Exited (success : bool) | WaitFailed.

(** A child process as the poll loop sees it, by the number of the poll:
    [try_wait], the clock, and the two readers' results once joined. *)
Class ChildProcess (C : Type) := {
  spawn : list string → option C;
  has_stdout : C → bool;
  has_stderr : C → bool;
  try_wait : C → nat → child_status;
  now : C → nat → Z;
  read_stdout : C → option bytes;
}.

(** [String::from_utf8_lossy]. *)
Class Utf8Lossy := { from_utf8_lossy : bytes → string }.

Section command.
Context {C : Type} `{ChildProcess C} `{Utf8Lossy}.

(** The poll loop from poll [n] on: the exit status, or an error. *)
Fixpoint wait_child (fuel : nat) (child : C) (deadline : Z) (n : nat)
    (failure timeout_error : SecretBackendError) : option (result SecretBackendError bool) :=
  match fuel with
  | O => None
  | S fuel =>
      match try_wait child n with
      | Exited success => Some (Ok success)
      | WaitFailed => Some (Err failure)
      | Running =>
          if deadline <=? now child (S n) then Some (Err timeout_error)
          else wait_child fuel child deadline (S n) failure timeout_error
      end
  end.

(** One poll every five milliseconds. *)
Definition poll_interval : Z := 5000000.

Definition poll_fuel (timeout : Z) : nat := Z.to_nat (timeout / poll_interval + 2).

Definition run_secret_command (command : list string) (timeout : Z)
    (failure timeout_error : SecretBackendError) : option (result SecretBackendError string) :=
  match spawn command with
  | None => Some (Err failure)
  | Some child =>
      if negb (has_stdout child) || negb (has_stderr child) then Some (Err failure)
      else
        status ← wait_child (poll_fuel timeout) child (now child 0 + timeout) 0
                   failure timeout_error;
        Some (success ← status;
              if success : bool then
                stdout ← ok_or failure (read_stdout child);
                Ok (trim (from_utf8_lossy stdout))
              else Err failure)
  end.

(** [OsSecretBackend], on the platforms with a keychain command ([macos]) and
    without. *)
Definition OsSecretBackend_resolve_keychain (macos : bool) (service account : string) :
    option (result SecretBackendError string) :=
  if macos then
    run_secret_command
      ["security"; "find-generic-password"; "-w"; "-s"; service; "-a"; account]
      SYMVAULT_TIMEOUT KeychainUnavailable KeychainUnavailable
  else Some (Err KeychainUnavailable).

Definition OsSecretBackend_resolve_symvault (path : string) :
    option (result SecretBackendError string) :=
  if valid_symvault_path path then
    run_secret_command ["symvault"; "get"; "--"; path; "--print"]
      SYMVAULT_TIMEOUT SymvaultUnavailable SymvaultTimedOut
  else Some (Err SymvaultUnavailable).

End command.

Definition OsSecretBackend_get_keyring {W} `{NativeKeyring W} (w : W)
    (service username : string) : result SecretBackendError (option string) * W :=
  let '(m, w) := OsKeyring_get w service username in
  (map_err (λ _, SecretKeyringUnavailable) m, w).

(* ------------------------------------------------------------------ *)
(** ** What resolving a secret reference gives, that its errors depend on no
    secret, and that asking the vault ends. *)

Lemma filter_nonempty_Some o s : filter_nonempty o = Some s ↔ o = Some s ∧ s ≠ "".
Proof.
  destruct o as [t|]; simpl; [|naive_solver].
  destruct (is_empty t) eqn:E.
  - apply is_empty_spec in E. naive_solver.
  - split; [intros [= <-]|naive_solver]. split; [done|]. by intros ->.
Qed.

(** Closes a goal whose context has one of two equivalent lookups set. *)
Ltac both_or_none H :=
  exfalso; destruct H as [?H1 ?H2];
  first [by destruct (H1 ltac:(by eexists))|by destruct (H2 ltac:(by eexists))].

Section facts.
Context {B : Type} `{SecretBackend B}.

(* ------------------------------------------------------------------ *)
(** ** Where a secret comes from *)

(** [answers r w value s w']: the configured place [value] names holds [s]. *)
Inductive answers (r : SecretResolver) (w : B) : string → string → B → Prop :=
| from_literal value :
    is_secret_reference value = false → answers r w value value w
| from_environment name s :
    sr_environment r !! name = Some s → s ≠ "" → answers r w (ENV_PREFIX +:+ name) s w
| from_keychain service account s w' :
    service ≠ "" → account ≠ "" → str_forallb (λ d, negb (Ascii.eqb d "/")) service = true →
    resolve_keychain w service account = (Ok s, w') →
    answers r w (KEYCHAIN_PREFIX +:+ service +:+ "/" +:+ account) s w'
| from_vault value prefix path s w' :
    vault_reference value = Some (prefix, path) → valid_symvault_path path = true →
    resolve_symvault w path = (Ok s, w') → s ≠ "" → answers r w value s w'
| from_fallback value prefix path name s w' :
    vault_reference value = Some (prefix, path) → path ≠ "" →
    vault_lookup w path = (None, w') →
    sr_env_fallback r = Some name → name ≠ "" → sr_environment r !! name = Some s →
    s ≠ "" → is_secret_reference s = false → answers r w value s w'
| from_service value prefix path service s w1 w' :
    vault_reference value = Some (prefix, path) → path ≠ "" →
    vault_lookup w path = (None, w1) → env_fallback_lookup r = None →
    sr_keyring_service r = Some service → service ≠ "" →
    get_keyring w1 service (default path (filter_nonempty (sr_keyring_username r)))
      = (Ok (Some s), w') →
    s ≠ "" → answers r w value s w'.

Lemma env_fallback_Some r s :
  env_fallback_lookup r = Some s ↔
  ∃ name, sr_env_fallback r = Some name ∧ name ≠ "" ∧ sr_environment r !! name = Some s ∧
    s ≠ "" ∧ is_secret_reference s = false.
Proof.
  unfold env_fallback_lookup. destruct (filter_nonempty (sr_env_fallback r)) as [name|] eqn:E.
  - apply filter_nonempty_Some in E as [E Hn]. simpl.
    destruct (sr_environment r !! name) as [v|] eqn:Ev; simpl; [|naive_solver].
    destruct (is_empty v) eqn:Ee; [apply is_empty_spec in Ee|apply is_empty_false in Ee];
      destruct (is_secret_reference v) eqn:Es; simpl;
      (split; [intros [=]; subst; eauto 10|intros (n & En & _ & Hs & Hne & Href); congruence]).
  - split; [done|]. intros (name & En & Hn & _).
    assert (filter_nonempty (sr_env_fallback r) = Some name) by by apply filter_nonempty_Some.
    congruence.
Qed.

(** A value with one of the two direct prefixes is no vault reference. *)
Lemma strip_reference value :
  is_secret_reference value = false →
  strip_prefix ENV_PREFIX value = None ∧ strip_prefix KEYCHAIN_PREFIX value = None ∧
  vault_reference value = None.
Proof.
  unfold is_secret_reference, starts_with, vault_reference.
  destruct (strip_prefix SYMVAULT_PREFIX value), (strip_prefix VAULT_PREFIX value),
    (strip_prefix ENV_PREFIX value), (strip_prefix KEYCHAIN_PREFIX value); done.
Qed.

Lemma vault_reference_other value p :
  vault_reference value = Some p →
  strip_prefix ENV_PREFIX value = None ∧ strip_prefix KEYCHAIN_PREFIX value = None.
Proof.
  assert (∀ q v t, strip_prefix q v = Some t → v = q +:+ t) as G by (intros q v t E; by apply strip_prefix_Some in E).
  unfold vault_reference.
  destruct (strip_prefix SYMVAULT_PREFIX value) as [t|] eqn:E1.
  { apply G in E1 as ->. done. }
  destruct (strip_prefix VAULT_PREFIX value) as [t|] eqn:E2; simpl; [|done].
  apply G in E2 as ->. done.
Qed.

Lemma resolve_answers r w value s w' : resolve r w value = (Ok s, w') → answers r w value s w'.
Proof.
  unfold resolve. destruct (strip_prefix ENV_PREFIX value) as [name|] eqn:Ee.
  { apply strip_prefix_Some in Ee as ->. unfold get_nonempty.
    destruct (sr_environment r !! name) as [v|] eqn:Ev; [|done]. simpl.
    destruct (is_empty v) eqn:Hv; [done|]. intros [= <- <-].
    constructor; [done|]. by apply is_empty_false. }
  destruct (strip_prefix KEYCHAIN_PREFIX value) as [ref|] eqn:Ek.
  { apply strip_prefix_Some in Ek as ->.
    destruct (split_once "/" ref) as [[service account]|] eqn:Es; [|done].
    apply split_once_Some in Es as [-> Hc].
    destruct (is_empty service) eqn:Hs; [done|]. destruct (is_empty account) eqn:Ha; [done|].
    simpl. destruct (resolve_keychain w service account) as [[t|e] w1] eqn:Er; [|done].
    intros [= <- <-]. apply (from_keychain r w service account);
      by rewrite <- ?is_empty_false. }
  destruct (vault_reference value) as [[prefix path]|] eqn:Ev.
  2:{ intros [= <- <-]. constructor. revert Ee Ek Ev.
      unfold vault_reference, is_secret_reference, starts_with.
      destruct (strip_prefix SYMVAULT_PREFIX value), (strip_prefix VAULT_PREFIX value),
        (strip_prefix ENV_PREFIX value), (strip_prefix KEYCHAIN_PREFIX value); done. }
  destruct (is_empty path) eqn:Hp; [done|]. apply is_empty_false in Hp.
  destruct (vault_lookup w path) as [[t|] w1] eqn:El.
  { intros [= <- <-]. unfold vault_lookup in El.
    destruct (valid_symvault_path path) eqn:Hv; [|done].
    destruct (resolve_symvault w path) as [m w2] eqn:Er.
    injection El as Hf ->. apply filter_nonempty_Some in Hf as [Hm Hne].
    destruct m; simplify_eq/=. by eapply from_vault. }
  destruct (env_fallback_lookup r) as [t|] eqn:Ef.
  { intros [= <- <-]. apply env_fallback_Some in Ef as (name & ?&?&?&?&?).
    by eapply from_fallback. }
  unfold keyring_lookup. destruct (filter_nonempty (sr_keyring_service r)) as [service|] eqn:Es;
    [|done].
  apply filter_nonempty_Some in Es as [Es Hne].
  destruct (get_keyring w1 service _) as [m w2] eqn:Eg.
  destruct m as [[t|]|]; simpl; try done. destruct (is_empty t) eqn:Ht; [done|].
  intros [= <- <-]. eapply from_service; eauto. by apply is_empty_false.
Qed.

(** A reference to the vault is none to a variable or the keychain. *)
Lemma vault_only {X} v p l (a b : string → X) (c : X) :
  vault_reference v = Some (p, l) →
  match strip_prefix ENV_PREFIX v with
  | Some n => a n
  | None => match strip_prefix KEYCHAIN_PREFIX v with Some x => b x | None => c end
  end = c.
Proof. intros Hv. by destruct (vault_reference_other _ _ Hv) as [-> ->]. Qed.

Lemma answers_resolve r w value s w' : answers r w value s w' → resolve r w value = (Ok s, w').
Proof.
  intros Ha. unfold resolve. destruct Ha.
  - destruct (strip_reference _ H0) as (-> & -> & ->). done.
  - rewrite (proj2 (strip_prefix_Some _ _ name) eq_refl).
    unfold get_nonempty. rewrite H0. by apply is_empty_false in H1 as ->.
  - replace (strip_prefix ENV_PREFIX _) with (@None string) by done.
    rewrite (proj2 (strip_prefix_Some KEYCHAIN_PREFIX _ _) eq_refl).
    replace (split_once "/" _) with (Some (service, account))
      by (symmetry; by apply split_once_app).
    apply is_empty_false in H0 as ->. apply is_empty_false in H1 as ->. simpl. by rewrite H3.
  - assert (path ≠ "") as Hne by by intros ->.
    rewrite (vault_only _ _ _ _ _ _ H0), H0. apply is_empty_false in Hne as ->.
    unfold vault_lookup. rewrite H1, H2. simpl. by apply is_empty_false in H3 as ->.
  - rewrite (vault_only _ _ _ _ _ _ H0), H0. apply is_empty_false in H1 as ->. rewrite H2.
    assert (env_fallback_lookup r = Some s) as -> by (apply env_fallback_Some; eauto 10). done.
  - rewrite (vault_only _ _ _ _ _ _ H0), H0. apply is_empty_false in H1 as ->. rewrite H2, H3.
    unfold keyring_lookup.
    assert (filter_nonempty (sr_keyring_service r) = Some service) as ->
      by by apply filter_nonempty_Some.
    rewrite H6. simpl. by apply is_empty_false in H7 as ->.
Qed.


(* ------------------------------------------------------------------ *)
(** ** Errors and secrets *)

(** Two lookups with the same outcome up to the secret found. *)
Definition alike (m m' : result SecretBackendError string) : Prop :=
  match m, m' with
  | Ok s, Ok s' => is_empty s = is_empty s'
  | Err e, Err e' => e = e'
  | _, _ => False
  end.

Definition alike_option (m m' : result SecretBackendError (option string)) : Prop :=
  match m, m' with
  | Ok (Some s), Ok (Some s') => is_empty s = is_empty s'
  | Ok None, Ok None => True
  | Err e, Err e' => e = e'
  | _, _ => False
  end.

(** The same variables, empty or references in the same places. *)
Definition same_names (env env' : gmap string string) : Prop :=
  ∀ name, match env !! name, env' !! name with
          | Some v, Some v' => is_empty v = is_empty v' ∧
              is_secret_reference v = is_secret_reference v'
          | None, None => True
          | _, _ => False
          end.

Definition with_secrets (r : SecretResolver) (env : gmap string string) : SecretResolver :=
  {| sr_environment := env; sr_env_fallback := sr_env_fallback r;
     sr_keyring_service := sr_keyring_service r; sr_keyring_username := sr_keyring_username r |}.

Section secrets.
Context (similar : B → B → Prop).
Hypothesis keychain_alike : ∀ w1 w2 service account, similar w1 w2 →
  alike (resolve_keychain w1 service account).1 (resolve_keychain w2 service account).1 ∧
  similar (resolve_keychain w1 service account).2 (resolve_keychain w2 service account).2.
Hypothesis symvault_alike : ∀ w1 w2 path, similar w1 w2 →
  alike (resolve_symvault w1 path).1 (resolve_symvault w2 path).1 ∧
  similar (resolve_symvault w1 path).2 (resolve_symvault w2 path).2.
Hypothesis keyring_alike : ∀ w1 w2 service username, similar w1 w2 →
  alike_option (get_keyring w1 service username).1 (get_keyring w2 service username).1 ∧
  similar (get_keyring w1 service username).2 (get_keyring w2 service username).2.

Definition same_failure (m m' : result SecretResolutionError string) : Prop :=
  match m, m' with Ok _, Ok _ => True | Err e, Err e' => e = e' | _, _ => False end.

Lemma vault_lookup_alike w1 w2 path :
  similar w1 w2 →
  is_Some (vault_lookup w1 path).1 ↔ is_Some (vault_lookup w2 path).1.
Proof.
  intros Hw. unfold vault_lookup. destruct (valid_symvault_path path); [|done].
  destruct (symvault_alike w1 w2 path Hw) as [Ha _].
  destruct (resolve_symvault w1 path) as [[s1|e1] w1'], (resolve_symvault w2 path) as [[s2|e2] w2'];
    simpl in *; try done.
  rewrite Ha. by destruct (is_empty s2).
Qed.

Lemma vault_lookup_similar w1 w2 path :
  similar w1 w2 → similar (vault_lookup w1 path).2 (vault_lookup w2 path).2.
Proof.
  intros Hw. unfold vault_lookup. destruct (valid_symvault_path path); [|done].
  destruct (symvault_alike w1 w2 path Hw) as [_ Hs].
  by destruct (resolve_symvault w1 path), (resolve_symvault w2 path).
Qed.

Lemma env_fallback_alike r env :
  same_names (sr_environment r) env →
  is_Some (env_fallback_lookup r) ↔ is_Some (env_fallback_lookup (with_secrets r env)).
Proof.
  intros He. unfold env_fallback_lookup. simpl.
  destruct (filter_nonempty (sr_env_fallback r)) as [name|]; [|done]. simpl.
  specialize (He name). destruct (sr_environment r !! name), (env !! name); simpl; try done.
  destruct He as [-> ->]. by destruct (_ && _).
Qed.

Lemma keyring_lookup_alike r env w1 w2 path :
  similar w1 w2 →
  is_Some (keyring_lookup r w1 path).1 ↔ is_Some (keyring_lookup (with_secrets r env) w2 path).1.
Proof.
  intros Hw. unfold keyring_lookup. simpl.
  destruct (filter_nonempty (sr_keyring_service r)) as [service|]; [|done].
  set (u := default path _).
  destruct (keyring_alike w1 w2 service u Hw) as [Ha _].
  destruct (get_keyring w1 service u) as [[[s1|]|e1] w1'],
    (get_keyring w2 service u) as [[[s2|]|e2] w2']; simpl in *; try done.
  rewrite Ha. by destruct (is_empty s2).
Qed.

(** C19: an error reveals no secret.  Take two machines that differ only in the
    secrets themselves, that is, every variable and lookup is set, empty, a
    reference or failing on both alike.  Then a resolution fails on both or on
    none, and with the same error, hence the same message: what an error says
    depends on the configuration and on which places answered, never on a
    value that was found. *)
Theorem resolve_error_reveals_nothing r env w1 w2 value :
  same_names (sr_environment r) env → similar w1 w2 →
  same_failure (resolve r w1 value).1 (resolve (with_secrets r env) w2 value).1.
Proof using keychain_alike symvault_alike keyring_alike.
  intros He Hw. unfold resolve. destruct (strip_prefix ENV_PREFIX value) as [name|].
  { unfold get_nonempty. simpl. specialize (He name).
    destruct (sr_environment r !! name), (env !! name); simpl; try done.
    destruct He as [-> _]. by destruct (is_empty _). }
  destruct (strip_prefix KEYCHAIN_PREFIX value) as [ref|].
  { destruct (split_once "/" ref) as [[service account]|]; [|done].
    destruct (is_empty service || is_empty account); [done|].
    destruct (keychain_alike w1 w2 service account Hw) as [Ha _].
    destruct (resolve_keychain w1 service account) as [[|] ?],
      (resolve_keychain w2 service account) as [[|] ?]; simpl in *; try done. congruence. }
  destruct (vault_reference value) as [[prefix path]|]; [|done].
  destruct (is_empty path); [done|].
  pose proof (vault_lookup_alike _ _ path Hw) as Hv.
  pose proof (vault_lookup_similar _ _ path Hw) as Hw'.
  destruct (vault_lookup w1 path) as [[s1|] w1'], (vault_lookup w2 path) as [[s2|] w2'];
    simpl in *; try done;
    try solve [both_or_none Hv].
  pose proof (env_fallback_alike r env He) as Hf.
  destruct (env_fallback_lookup r), (env_fallback_lookup (with_secrets r env)); try done;
    try solve [both_or_none Hf].
  pose proof (keyring_lookup_alike r env _ _ path Hw') as Hk.
  destruct (keyring_lookup r w1' path) as [[|] ?],
    (keyring_lookup (with_secrets r env) w2' path) as [[|] ?]; simpl in *; try done;
    both_or_none Hk.
Qed.

End secrets.
End facts.

(* ------------------------------------------------------------------ *)
(** ** The vault's subprocess *)

Section command.
Context {C : Type} `{ChildProcess C} `{Utf8Lossy}.

Lemma wait_child_ends child deadline failure timeout_error fuel n :
  (∀ i, now child (S i) + poll_interval ≤ now child (S (S i))) →
  deadline - now child (S n) ≤ poll_interval * Z.of_nat fuel →
  ∃ m, wait_child (S fuel) child deadline n failure timeout_error = Some m ∧
    (∀ e, m = Err e → e = failure ∨
       e = timeout_error ∧ ∃ i, try_wait child i = Running ∧ deadline ≤ now child (S i)) ∧
    (∀ b, m = Ok b → ∃ i, try_wait child i = Exited b).
Proof.
  intros Hclock. revert n. induction fuel as [|fuel IH]; intros n Hf;
    cbn [wait_child]; destruct (try_wait child n) eqn:Et;
    try solve [eexists; split; [done|]; split; [intros e [= <-]; auto|intros b [= <-]; eauto]];
    destruct (deadline <=? now child (S n)) eqn:E;
    try solve [eexists; split; [done|]; split; [|done]; intros e [= <-]; right; split; [done|];
               exists n; split; [done|]; lia].
  - lia.
  - apply (IH (S n)). specialize (Hclock n). lia.
Qed.


End command.
