(* ===== verification/ProfileStore.v ===== *)
(** The profile file: finding it, its authenticated envelope, loading, saving
    and initialising, of [core/identity/profile.rs].

    The programs run on the disk of [Disk]; the process keeps the master-key
    resolver with its keyring.  AES-256-GCM with associated data is the class
    [Aead], serde_json's writers are [SerdeWriter], the random generator is
    [RandomBytes].  Paths are valid UTF-8; the disk holds regular files and
    directories only. *)
From S2P Require Import Prelude.
From S2P Require Import Text.
From S2P Require Import Json.
From S2P Require Import Encryption.
From S2P Require Import Disk.
From S2P Require Import Identity.
From S2P Require Import JsonText.
From S2P Require Import ProfileJson.
From S2P Require Import Keyring.
From Stdlib Require Import Ascii Strings.Byte.

#[local] Notation length := List.length.

(** [Aes256Gcm::encrypt] and [decrypt] with a [Payload { msg, aad }], once
    built from a key of 32 bytes: key, nonce, associated data, message. *)
Class Aead := {
  aead_seal : bytes → bytes → bytes → bytes → option bytes;
  aead_open : bytes → bytes → bytes → bytes → option bytes;
}.

(** [serde_json::to_vec], [serde_json::to_vec_pretty]. *)
Class SerdeWriter := {
  to_vec : value → option bytes;
  to_vec_pretty : value → option bytes;
}.

(** [rand::rng().fill_bytes] at a step: a slice is filled completely. *)
Class RandomBytes := {
  random_bytes : nat → nat → bytes;
  random_length s n : length (random_bytes s n) = n;
}.

Module ProfileError.
Inductive t : Type :=
| NotFound
| Stat
| Read
| NoSeparator
| Header
| LegacyV0
| Key (error : MasterKeyError)
| Nonce
| Authentication
| Json
| Mkdir
| Write.

(** [impl fmt::Display for ProfileError]. *)
Definition to_string (e : t) : string :=
  match e with
  | NotFound => "identity: profile not found"
  | Stat => "identity: stat profile failed"
  | Read => "identity: read profile failed"
  | NoSeparator => "identity: profile corrupt: no header separator"
  | Header => "identity: profile corrupt: header"
  | LegacyV0 => "identity: legacy v0 profile (no AAD) is no longer supported"
  | Key error => MasterKeyError_str error
  | Nonce => "identity: profile corrupt: nonce"
  | Authentication => "identity: profile corrupt: cipher: message authentication failed"
  | Json => "identity: profile corrupt"
  | Mkdir => "identity: mkdir failed"
  | Write => "identity: write profile failed"
  end.
End ProfileError.

#[export] Instance ProfileError_eq_dec : EqDecision ProfileError.t.
Proof. solve_decision. Defined.

(* ------------------------------------------------------------------ *)
(** ** The envelope *)

Record Envelope := {
  env_version : Z;
  env_nonce : string;
  env_algorithm : string;
}.

Definition Envelope_default : Envelope :=
  {| env_version := 0; env_nonce := ""; env_algorithm := "" |}.

Section envelope.
Context `{Lowercase} `{SerdeSlice} `{HexCodec} `{Aead} `{SerdeWriter}.

Definition read_envelope_field (name : string) (d : doc) (r : Envelope) : option Envelope :=
  let '(Build_Envelope v n a) := r in
  if (name =? "version")%string then
    o ← read_integer d; Some (Build_Envelope (default v o) n a)
  else if (name =? "nonce")%string then
    o ← read_string_option d; Some (Build_Envelope v (default n o) a)
  else if (name =? "algorithm")%string then
    o ← read_string_option d; Some (Build_Envelope v n (default a o))
  else Some r.

Definition read_envelope (d : doc) : option Envelope :=
  visit_record Envelope_default read_envelope_field d.

(** [iter().position(|&byte| byte == b'\n')], as the bytes before and after. *)
Definition split_header (raw : bytes) : option (bytes * bytes) :=
  match list_find (.= x0a) raw with
  | Some (separator, _) => Some (take separator raw, drop (S separator) raw)
  | None => None
  end.

Definition parse_header (header_bytes : bytes) : result ProfileError.t Envelope :=
  header ← ok_or ProfileError.Header (from_slice header_bytes ≫= read_envelope);
  if bool_decide (env_version header = 0) then Err ProfileError.LegacyV0 else Ok header.

(** The nonce of a header and the opened message. *)
Definition open_envelope (key header_bytes message : bytes) (header : Envelope) :
    result ProfileError.t bytes :=
  nonce ← ok_or ProfileError.Nonce (hex_decode (env_nonce header));
  _ ← fail_if (negb (bool_decide (length nonce = 12%nat))) ProfileError.Nonce;
  ok_or ProfileError.Authentication (aead_open key nonce header_bytes message).

Definition check_key (key : bytes) : result ProfileError.t () :=
  fail_if (negb (bool_decide (length key = 32%nat)))
    (ProfileError.Key (InvalidLength "master key" (length key))).

Definition decrypt_profile_with_key (raw key : bytes) : result ProfileError.t (bytes * Envelope) :=
  _ ← check_key key;
  '(header_bytes, message) ← ok_or ProfileError.NoSeparator (split_header raw);
  header ← parse_header header_bytes;
  plaintext ← open_envelope key header_bytes message header;
  Ok (plaintext, header).

Definition envelope_value (header : Envelope) : value :=
  JObject [("version", JNumber (NInt (env_version header)));
           ("nonce", JString (env_nonce header));
           ("algorithm", JString (env_algorithm header))].

Definition encrypt_profile_with_nonce (plaintext key nonce : bytes) :
    result ProfileError.t bytes :=
  _ ← check_key key;
  let header := {| env_version := 2; env_nonce := hex_encode nonce;
                   env_algorithm := "AES-256-GCM" |} in
  header_bytes ← ok_or ProfileError.Header (to_vec (envelope_value header));
  ciphertext ← ok_or ProfileError.Authentication (aead_seal key nonce header_bytes plaintext);
  Ok (header_bytes ++ [x0a] ++ ciphertext).

Definition profile_plaintext (profile : Profile) : result ProfileError.t bytes :=
  ok_or ProfileError.Write (to_vec_pretty (profile_payload profile)).

End envelope.

(* ------------------------------------------------------------------ *)
(** ** Paths *)

Record ProfilePaths := {
  home : option string;
  pp_environment : gmap string string;
}.

(** The variables [from_process] copies. *)
Definition ProfilePaths_from_process (var : string → option string) : ProfilePaths :=
  {| home := match var "HOME" with
             | Some v => if is_empty v then None else Some v
             | None => None
             end;
     pp_environment :=
       foldl (λ env name, match var name with Some v => <[name := v]> env | None => env end) ∅
         ["SYMERASEME_IDENTITY_PATH"; "SYMERASEME_DATA_DIR"; "SYMERASEME_CONFIG_DIR"] |}.

Definition value_of (paths : ProfilePaths) (name : string) : option string :=
  get_nonempty (pp_environment paths) name.

(** [path == Path::new("~")]: equal components. *)
Definition is_tilde (path : string) : bool :=
  match split "/" path with
  | first :: others =>
      (first =? "~")%string && forallb (λ c, is_empty c || (c =? ".")%string) others
  | [] => false
  end.

Definition expand (paths : ProfilePaths) (path : string) : string :=
  match home paths with
  | Some home =>
      if is_tilde path then home
      else match strip_prefix "~/" path with
           | Some value => path_join home value
           | None => path
           end
  | None => path
  end.

Definition resolve_write (paths : ProfilePaths) (path : string) : string :=
  if negb (is_empty path) then expand paths path
  else match value_of paths "SYMERASEME_IDENTITY_PATH" with
       | Some value => expand paths value
       | None =>
           let directory :=
             match value_of paths "SYMERASEME_DATA_DIR" with
             | Some d => d
             | None => default "~/.config/symeraseme" (value_of paths "SYMERASEME_CONFIG_DIR")
             end in
           path_join (expand paths directory) "identity.encrypted"
       end.

(** The other historical basename. *)
Definition alternative_name (name : string) : option string :=
  if (name =? "identity.encrypted")%string then Some "identity.enc"
  else if (name =? "identity.enc")%string then Some "identity.encrypted"
  else None.

(** [path.with_file_name(name)] *)
Definition with_file_name (path name : string) : string :=
  path_join (default "" (parent path)) name.

(* ------------------------------------------------------------------ *)
(** ** The programs *)

Section store.
Context {K : Type} `{KeyringBackend K} `{HexCodec} `{Scrypt}.
Context `{Lowercase} `{SerdeSlice} `{Aead} `{SerdeWriter} `{RandomBytes} `{Env}.
(** [std::process::id()] *)
Context (process_id : Z).

Notation keys := (MasterKeyResolver K).
Notation program := (io keys ProfileError.t).

Definition with_keys {E A} (f : keys → result E A * keys) : io keys E A := λ w,
  let '(r, k) := f (process w) in (r, World (system w) k).

Definition resolve (paths : ProfilePaths) (path : string) : program string :=
  let target := resolve_write paths path in
  probe ← try (metadata target);
  match probe with
  | Err error =>
      if bool_decide (kind error = NotFound) then
        match alternative_name (file_name target) with
        | Some name =>
            let alternate := with_file_name target name in
            other ← try (metadata alternate);
            mret (if is_ok other then alternate else target)
        | None => mret target
        end
      else mret target
  | Ok _ => mret target
  end.

Definition profile_exists (path : string) (paths : ProfilePaths) : program bool :=
  target ← resolve paths path;
  probe ← try (metadata target);
  mret (is_ok probe).

(** [OpenOptions::new().read(true).open(path)] *)
Definition open_read (path : string) : io keys ioError nat :=
  atomically (λ s,
    let d := now_disk s in
    (if bool_decide (path ∈ dirs d) then Err (os_error OtherKind)
     else ok_or (os_error NotFound) (names d !! path), d, locked s)).

(** [file.metadata()?.is_file()] *)
Definition handle_is_file (h : nat) : io keys ioError bool :=
  atomically (λ s,
    let d := now_disk s in
    (match files d !! h with Some _ => Ok true | None => Err (os_error OtherKind) end,
     d, locked s)).

(** [file.read_to_end] *)
Definition read_to_end (h : nat) : io keys ioError bytes :=
  atomically (λ s,
    let d := now_disk s in
    (ok_or (os_error OtherKind) (data <$> files d !! h), d, locked s)).

(** The bytes of the profile file. *)
Definition read_profile_file (target : string) : program bytes :=
  '(is_dir, _) ← map_error (λ error, if bool_decide (kind error = NotFound)
                                      then ProfileError.NotFound else ProfileError.Stat)
                   (metadata target);
  _ ← of_result (fail_if is_dir ProfileError.Read);
  file ← map_error (λ _, ProfileError.Read) (open_read target);
  is_file ← map_error (λ _, ProfileError.Read) (handle_is_file file);
  _ ← of_result (fail_if (negb is_file) ProfileError.Read);
  map_error (λ _, ProfileError.Read) (read_to_end file).

Definition load_profile (path : string) (paths : ProfilePaths) : program Profile :=
  target ← resolve paths path;
  raw ← read_profile_file target;
  '(header_bytes, message) ← of_result (ok_or ProfileError.NoSeparator (split_header raw));
  header ← of_result (parse_header header_bytes);
  key ← map_error ProfileError.Key (with_keys resolve_existing);
  plain ← of_result (open_envelope (as_bytes key) header_bytes message header);
  of_result (ok_or ProfileError.Json (decode_go_profile_json plain)).

(** [rand::rng().fill_bytes] takes a step of its own. *)
Definition fill_bytes {E} (n : nat) : io keys E bytes := λ w,
  (Ok (random_bytes (steps (system w)) n),
   World (record_step (system w) (now_disk (system w)) (locked (system w))) (process w)).

Definition encrypt_profile (plaintext key : bytes) : program bytes :=
  nonce ← fill_bytes 12;
  of_result (encrypt_profile_with_nonce plaintext key nonce).

Definition temporary_name (name : string) (nanos : Z) : string :=
  "." +:+ name +:+ ".tmp-" +:+ show process_id +:+ "-" +:+ show (Z.max 0 nanos).

(** The closure that writes the temporary file; it is created with mode 0600. *)
Definition write_temporary (temporary : string) (encrypted : bytes) : io keys ioError () :=
  file ← create_new temporary;
  write_all file encrypted ;;
  sync_all file.

(** [fs::create_dir_all]; the empty path is there already. *)
Definition create_directory (directory : string) : io keys ioError () :=
  if is_empty directory then mret () else create_dir_all directory.

(** From the sealed profile on: the temporary file, the rename, the sync. *)
Definition publish_profile (directory target temporary : string) (encrypted : bytes) :
    program string :=
  write ← try (write_temporary temporary encrypted);
  match write with
  | Err _ => ignore (remove_file temporary) ;; throw ProfileError.Write
  | Ok _ =>
      renamed ← try (rename temporary target);
      match renamed with
      | Err _ => ignore (remove_file temporary) ;; throw ProfileError.Write
      | Ok _ =>
          ignore (E := ioError) (open_dir directory ;; ignore (sync_opened_dir directory)) ;;
          mret target
      end
  end.

Definition save_profile (profile : Profile) (path : string) (paths : ProfilePaths) :
    program string :=
  let target := resolve_write paths path in
  let directory := default "." (parent target) in
  _ ← map_error (λ _, ProfileError.Mkdir) (create_directory directory);
  _ ← ignore (set_dir_mode directory 448);
  key ← map_error ProfileError.Key (with_keys resolve_existing);
  plaintext ← of_result (profile_plaintext profile);
  encrypted ← encrypt_profile plaintext (as_bytes key);
  let name := file_name target in
  _ ← of_result (fail_if (is_empty name) ProfileError.Write);
  nanos ← system_time;
  publish_profile directory target (path_join directory (temporary_name name nanos)) encrypted.

(** [keys.init()] draws its key at the current step. *)
Definition init_keys : program MasterKey :=
  map_error ProfileError.Key (λ w,
    let '(r, k) := init (random_bytes (steps (system w))) (process w) in
    (r, World (record_step (system w) (now_disk (system w)) (locked (system w))) k)).

Definition init_profile (profile : Profile) (path : string) (paths : ProfilePaths) :
    program string :=
  existing ← try (with_keys resolve_existing);
  let key_existed := is_ok existing in
  _ ← init_keys;
  saved ← try (save_profile profile path paths);
  match saved with
  | Ok target => mret target
  | Err error =>
      _ ← (if key_existed then mret () else ignore (with_keys delete));
      throw error
  end.

End store.
