(* ===== verification/ProfileFacts.v ===== *)
(** The profile envelope: what opens, that sealing is undone by opening, and
    that a profile survives being written and read as JSON. *)
From S2P Require Import Prelude.
From S2P Require Import Text.
From S2P Require Import Json.
From S2P Require Import Identity.
From S2P Require Import Encryption.
From S2P Require Import JsonText.
From S2P Require Import ProfileJson.
From S2P Require Import CursorFacts.
From S2P Require Import ReduceFacts.
From S2P Require Import Keyring.
From S2P Require Import ProfileStore.
From Stdlib Require Import Ascii Strings.Byte.

#[local] Notation length := List.length.

(** AES-GCM with keys and nonces of its sizes: a message opens exactly when it
    is the sealed text, since opening recomputes the tag. *)
Class AeadLaws `{Aead} := {
  aead_open_seal k n a c p :
    length k = 32%nat → length n = 12%nat →
    aead_open k n a c = Some p ↔ aead_seal k n a p = Some c;
}.

Section envelope.
Context `{Lowercase} `{SerdeSlice} `{HexCodec} `{Aead} `{SerdeWriter}.

Lemma split_header_Some raw h m :
  split_header raw = Some (h, m) ↔ raw = h ++ x0a :: m ∧ x0a ∉ h.
Proof.
  unfold split_header. destruct (list_find (.= x0a) raw) as [[i b]|] eqn:E.
  - apply list_find_Some in E as (Hi & -> & Hmin).
    assert (x0a ∉ take i raw) as Hnot.
    { intros (j & Hj)%list_elem_of_lookup. apply lookup_take_Some in Hj as [Hj Hlt].
      by eapply (Hmin j x0a). }
    assert (raw = take i raw ++ x0a :: drop (S i) raw) as Hraw
      by by rewrite (take_drop_middle _ _ _ Hi).
    split.
    + intros [= <- <-]. done.
    + intros [E Hh]. f_equal.
      assert (i = length h) as ->.
      { destruct (lt_eq_lt_dec i (length h)) as [[Hlt|]|Hlt]; [|done|].
        - exfalso. rewrite E, lookup_app_l in Hi by done.
          apply Hh. by eapply list_elem_of_lookup_2.
        - exfalso. eapply (Hmin (length h) x0a); [|done|done].
          rewrite E, lookup_app_r by done. by rewrite Nat.sub_diag. }
      rewrite E. f_equal; [by rewrite take_app_length|].
      rewrite drop_app_ge by lia. by replace (S (length h) - length h)%nat with 1%nat by lia.
  - split; [done|]. intros [-> _]. apply list_find_None in E.
    rewrite Forall_app, Forall_cons in E. by destruct E as [_ [? _]].
Qed.

Lemma parse_header_ok hb header :
  parse_header hb = Ok header ↔
  (from_slice hb ≫= read_envelope) = Some header ∧ env_version header ≠ 0.
Proof.
  unfold parse_header. destruct (from_slice hb ≫= read_envelope) as [h|]; simpl; [|naive_solver].
  case_bool_decide; naive_solver.
Qed.

Lemma open_envelope_ok `{!AeadLaws} key hb c header p :
  length key = 32%nat →
  open_envelope key hb c header = Ok p ↔
  ∃ nonce, hex_decode (env_nonce header) = Some nonce ∧ length nonce = 12%nat ∧
    aead_seal key nonce hb p = Some c.
Proof.
  intros Hk. unfold open_envelope.
  destruct (hex_decode (env_nonce header)) as [nonce|]; simpl; [|naive_solver].
  case_bool_decide as Hn; simpl.
  - destruct (aead_open key nonce hb c) as [q|] eqn:E; simpl.
    + apply aead_open_seal in E; [|done..]. split.
      * intros [= <-]. eauto.
      * intros (n & [= <-] & _ & Eq). apply aead_open_seal in E, Eq; [|done..]. congruence.
    + split; [done|]. intros (n & [= <-] & _ & Eq). apply aead_open_seal in Eq; [|done..].
      congruence.
  - split; [done|]. intros (n & [= <-] & ? & _). done.
Qed.

Lemma check_key_ok key : check_key key = Ok () ↔ length key = 32%nat.
Proof. unfold check_key. rewrite fail_if_ok. case_bool_decide; naive_solver. Qed.

(** What opens is what was sealed.  A profile file opens under a key, to a
    plaintext and a header, exactly when it is a header line that reads as
    that header with a version other than zero, followed by the seal of that
    plaintext under the key and the header's nonce with the very bytes of the
    header line as associated data: no byte of header or body can be changed
    without the file being rejected or meaning just what was sealed. *)
Theorem decrypt_profile_iff `{!AeadLaws} raw key plaintext header :
  decrypt_profile_with_key raw key = Ok (plaintext, header) ↔
  length key = 32%nat ∧ env_version header ≠ 0 ∧
  ∃ hb c nonce, raw = hb ++ x0a :: c ∧ x0a ∉ hb ∧
    (from_slice hb ≫= read_envelope) = Some header ∧
    hex_decode (env_nonce header) = Some nonce ∧ length nonce = 12%nat ∧
    aead_seal key nonce hb plaintext = Some c.
Proof.
  unfold decrypt_profile_with_key. split.
  - intros E. destruct (check_key key) as [[]|] eqn:Ek; [|done]. simpl in E.
    apply check_key_ok in Ek.
    destruct (split_header raw) as [[hb c]|] eqn:Es; simpl in E; [|done].
    apply split_header_Some in Es as [-> Hn].
    destruct (parse_header hb) as [h|] eqn:Eh; simpl in E; [|done].
    apply parse_header_ok in Eh as [Eh Hv].
    destruct (open_envelope key hb c h) as [p|] eqn:Eo; simplify_eq/=.
    apply open_envelope_ok in Eo as (nonce & ? & ? & ?); [|done].
    split_and!; [done..|]. by exists hb, c, nonce.
  - intros (Hk & Hv & hb & c & nonce & -> & Hn & Eh & Ehex & Hl & Es).
    rewrite (proj2 (check_key_ok key) Hk). simpl.
    rewrite (proj2 (split_header_Some _ hb c)) by done. simpl.
    rewrite (proj2 (parse_header_ok hb header)) by done. simpl.
    rewrite (proj2 (open_envelope_ok key hb c header plaintext Hk)); [done|]. eauto.
Qed.

End envelope.

(* ------------------------------------------------------------------ *)
(** ** Sealing and opening, writing and reading: a profile survives being saved
    as an envelope of its JSON text. *)


(** Names of lower-case ASCII letters and underscores are their own lower case. *)
Class LowercaseNames `{Lowercase} := {
  lower_name s :
    str_forallb (λ c, is_ascii_lowercase c || Ascii.eqb c "_") s = true → to_lowercase s = s;
}.

(** What a visitor sees of a value that was serialised. *)
Fixpoint doc_of (v : value) : doc :=
  match v with
  | JNull => DNull
  | JBool b => DBool b
  | JNumber (NInt z) => DInteger z
  | JNumber (NFloat _) => DFloat
  | JString s => DString s
  | JArray items => DArray (List.map doc_of items)
  | JObject fields => DObject (List.map (λ kv, (kv.1, doc_of kv.2)) fields)
  end.

Section roundtrip.
Context `{Lowercase} `{SerdeSlice} `{!LowercaseNames}.

(** The tree means the document: strings and keys mean what serde_json reads
    them as, null is null, arrays and objects go element by element. *)
Inductive denotes : tree → doc → Prop :=
| denotes_string raw s :
    from_slice raw = Some (DString s) → denotes (TString raw) (DString s)
| denotes_null : denotes null DNull
| denotes_array ts ds : Forall2 denotes ts ds → denotes (TArray ts) (DArray ds)
| denotes_object es fs :
    Forall2 (λ kt kd, key_of kt.1 = Some kd.1 ∧ denotes kt.2 kd.2) es fs →
    denotes (TObject es) (DObject fs).

Lemma go_name name :
  str_forallb (λ c, is_ascii_lowercase c || Ascii.eqb c "_") name = true →
  str_replace long_s "s" name = name → go_field_name name = name.
Proof. intros Hl Hr. unfold go_field_name. by rewrite lower_name. Qed.

Lemma denotes_opt t o : denotes t (doc_of (opt_string o)) → string_or_null t.
Proof. destruct o; simpl; inversion 1; [right; by eexists|by left]. Qed.

Lemma denotes_str t s : denotes t (DString s) → string_or_null t.
Proof. inversion 1. right. by eexists. Qed.

Lemma denotes_string_items ts l :
  Forall2 denotes ts (List.map doc_of (JString <$> l)) → Forall string_or_null ts.
Proof.
  revert ts. induction l as [|s l IH]; intros ts Hl; inversion Hl; subst; constructor; eauto using denotes_str.
Qed.

Lemma denotes_strings t l : denotes t (doc_of (JArray (JString <$> l))) → simple Strings t.
Proof. inversion 1. right. eauto using denotes_string_items. Qed.

(** Consumes the entries of an object that denotes known fields. *)
Ltac next_entry H :=
  let kt := fresh "kt" in let Hk := fresh "Hk" in let Ht := fresh "Ht" in
  apply Forall2_cons_inv_r in H as ([?k ?t] & ? & [Hk Ht] & H & ->);
  simpl in Hk, Ht.

Lemma reduced_address t a : denotes t (doc_of (address_value a)) → reduced true t t.
Proof.
  inversion 1 as [| | |es fs He]; subst. constructor.
  do 7 next_entry He. apply Forall2_nil_inv_r in He as ->.
  do 7 (eapply reduced_keep; [eassumption|unfold profile_field_kind; rewrite go_name by done; reflexivity
    |simpl; first [by eapply denotes_str|by eapply denotes_opt]|]).
  constructor.
Qed.

Lemma reduced_address_items ts l :
  Forall2 denotes ts (List.map doc_of (address_value <$> l)) → reduced_items ts ts.
Proof.
  revert ts. induction l as [|a l IH]; intros ts Hl.
  - apply Forall2_nil_inv_r in Hl as ->. constructor.
  - apply Forall2_cons_inv_r in Hl as (t & ts' & Ht & Hl & ->).
    apply reduced_items_object; [by eapply reduced_address|by apply IH].
Qed.

Lemma reduced_addresses_list t l : denotes t (doc_of (JArray (address_value <$> l))) → reduced_list t t.
Proof. inversion 1. constructor. eauto using reduced_address_items. Qed.

Lemma reduced_payload t p : denotes t (doc_of (profile_payload p)) → reduced false t t.
Proof.
  inversion 1 as [| | |es fs He]; subst. constructor.
  do 7 next_entry He. apply Forall2_nil_inv_r in He as ->.
  repeat first [
    constructor; fail
  | eapply reduced_keep;
    [eassumption|unfold profile_field_kind; rewrite go_name by done; reflexivity
    |first [by eapply denotes_str|by eapply denotes_opt|by eapply denotes_strings]|]
  | eapply reduced_addresses;
    [eassumption|unfold profile_field_kind; rewrite go_name by done; reflexivity
    |by eapply reduced_addresses_list|]].
Qed.

Lemma read_strings_of l : read_strings (DArray (List.map doc_of (JString <$> l))) = Some l.
Proof. apply mapM_Some. induction l; constructor; done. Qed.

Lemma read_string_of s : read_string_option (DString s) = Some (Some s).
Proof. done. Qed.

Lemma read_opt_string o : read_string_option (doc_of (opt_string o)) = Some o.
Proof. by destruct o. Qed.

(** Field names are their own normal form. *)
Ltac go_names :=
  repeat match goal with
  | |- context [go_field_name (String ?c ?s)] =>
      rewrite (go_name (String c s)) by (vm_compute; reflexivity)
  end.

Lemma read_address_of a : read_address (doc_of (address_value a)) = Some a.
Proof.
  destruct a. unfold read_address, visit_record. simpl.
  go_names. by do 4 (simpl; rewrite ?read_opt_string).
Qed.

Lemma read_addresses_of l : read_addresses (DArray (List.map doc_of (address_value <$> l))) = Some l.
Proof. apply mapM_Some. induction l as [|a l IH]; [constructor|].
  constructor; [apply read_address_of|exact IH]. Qed.

Lemma read_profile_of p : read_profile (doc_of (profile_payload p)) = Some p.
Proof.
  destruct p. unfold read_profile, visit_record, profile_payload.
  cbn [doc_of List.map fst snd foldl mbind option_bind Profile_default].
  go_names.
  by do 8 (cbn -[read_strings read_addresses doc_of opt_string read_string_option];
           rewrite ?read_string_of, ?read_opt_string, ?read_strings_of, ?read_addresses_of).
Qed.

Lemma decode_written p text t :
  clean 0 text → document utf8_char GO_MAX_JSON_NESTING_DEPTH t text →
  denotes t (doc_of (profile_payload p)) →
  (∀ s, jreads GO_MAX_JSON_NESTING_DEPTH t s → from_slice s = Some (doc_of (profile_payload p))) →
  decode_go_profile_json text = Some p.
Proof.
  intros Hclean Hdoc Ht Hread. unfold decode_go_profile_json.
  rewrite (normalize_clean _ Hclean). simpl.
  destruct (reduce_profile_complete text t t Hdoc) as (out & -> & Hout).
  { right. by eapply reduced_payload. }
  simpl. rewrite (Hread _ Hout). simpl. apply read_profile_of.
Qed.

Context `{HexCodec} `{Aead} `{SerdeWriter}.

Lemma read_envelope_of v nonce alg :
  i64_min ≤ v ≤ i64_max →
  read_envelope (doc_of (envelope_value (Build_Envelope v nonce alg))) =
  Some (Build_Envelope v nonce alg).
Proof.
  intros Hv. unfold read_envelope, visit_record. simpl. go_names. simpl.
  assert (between i64_min i64_max v = true) as -> by (unfold between; lia). done.
Qed.

(** What is sealed with a nonce opens again under the same key. *)
Lemma decrypt_sealed `{!AeadLaws} plaintext key nonce raw hb :
  encrypt_profile_with_nonce plaintext key nonce = Ok raw →
  let header := Build_Envelope 2 (hex_encode nonce) "AES-256-GCM" in
  to_vec (envelope_value header) = Some hb → x0a ∉ hb →
  from_slice hb = Some (doc_of (envelope_value header)) →
  hex_decode (hex_encode nonce) = Some nonce → length nonce = 12%nat →
  split_header raw = Some (hb, drop (S (length hb)) raw) ∧
  parse_header hb = Ok header ∧
  open_envelope key hb (drop (S (length hb)) raw) header = Ok plaintext.
Proof.
  cbv zeta. intros E Hv Hn Hs Hx Hl. unfold encrypt_profile_with_nonce in E.
  destruct (check_key key) as [[]|] eqn:Ek; [|done]. apply check_key_ok in Ek.
  cbn [mbind result_bind] in E. rewrite Hv in E. simpl in E.
  destruct (aead_seal key nonce hb plaintext) as [c|] eqn:Es; simplify_eq/=.
  assert (drop (S (length hb)) (hb ++ x0a :: c) = c) as Ed.
  { rewrite drop_app_ge by lia. by replace (S (length hb) - length hb)%nat with 1%nat by lia. }
  rewrite Ed. split_and!.
  - by apply split_header_Some.
  - apply parse_header_ok. rewrite Hs. split; [|done].
    by apply (read_envelope_of 2 (hex_encode nonce)); vm_compute.
  - apply open_envelope_ok; [done|]. eauto.
Qed.

End roundtrip.
