(* ===== verification/ProfileSave.v ===== *)
(** Writing the profile file: crash safety of [save_profile] under every fault
    and at every step. *)
From S2P Require Import Prelude.
From S2P Require Import Text.
From S2P Require Import Json.
From S2P Require Import Identity.
From S2P Require Import Encryption.
From S2P Require Import Disk.
From S2P Require Import DiskFacts.
From S2P Require Import PublishFacts.
From S2P Require Import JsonText.
From S2P Require Import ProfileJson.
From S2P Require Import CursorFacts.
From S2P Require Import ReduceFacts.
From S2P Require Import Keyring.
From S2P Require Import ProfileStore.
From S2P Require Import ProfileFacts.
From Stdlib Require Import Strings.Byte.

#[local] Notation length := List.length.

(** The temporary names beside a target. *)
Definition directory_of (target : string) : string := default "." (parent target).

Definition temporary_of (pid : Z) (target p : string) : Prop :=
  ∃ nanos, p = path_join (directory_of target) (temporary_name pid (file_name target) nanos).

Section save.
Context {K : Type} `{KeyringBackend K} `{HexCodec} `{Scrypt}.
Context `{Lowercase} `{SerdeSlice} `{Aead} `{SerdeWriter} `{RandomBytes} `{Env}.
Context (pid : Z) (profile : Profile) (target : string).
Context (d0 : disk) (l0 : gset nat) (k0 : MasterKeyResolver K).
Hypothesis Hok : disk_ok d0.
Hypothesis Htarget : ¬ temporary_of pid target target.

Notation keys := (MasterKeyResolver K).
Notation X := (temporary_of pid target).
Notation directory := (directory_of target).

(** A complete envelope of the profile under the key the resolver gives. *)
Definition sealed (c : bytes) : Prop :=
  ∃ key plaintext nonce, (resolve_existing k0).1 = Ok key ∧
    profile_plaintext profile = Ok plaintext ∧ length nonce = 12%nat ∧
    encrypt_profile_with_nonce plaintext (as_bytes key) nonce = Ok c.

(** The target has its old contents or a complete new envelope, now and after a
    crash; other entries are untouched. *)
Definition profile_safe (d : disk) : Prop :=
  (content d target = content d0 target ∨ ∃ c, sealed c ∧ content d target = Some c) ∧
  (∀ o, after_crash d target o → after_crash d0 target o ∨ ∃ c, sealed c ∧ o = Some c) ∧
  (∀ p, ¬ X p → p ≠ target → kept p d0 d).

Notation before k := (PublishFacts.unpublished (P := keys) X d0 l0 k).

Lemma crash_profile_safe c d : sealed c → crash_safe X d0 target c d → profile_safe d.
Proof.
  intros Hc (C & A & Kp). split_and!.
  - destruct C; eauto.
  - intros o Ho. destruct (A o Ho); eauto.
  - intros p Hp Hne. apply Kp. intros [|]; auto.
Qed.

Lemma before_safe k d l p : before k d l p → profile_safe d.
Proof.
  intros Hu. destruct (unpublished_safe X d0 l0 k target [] Hok Htarget d l p Hu) as (_ & A & Kp).
  destruct Hu as (E & _ & _). pose proof (evolved_kept X d0 d target E Hok Htarget) as [C K'].
  split_and!; [by left|by left; auto|]. intros q Hq Hne. apply Kp. intros [|]; auto.
Qed.

Lemma triple_safe {E A} c (m : io keys E A) Pre Q R :
  sealed c → triple (crash_safe X d0 target c) Pre m Q R → triple profile_safe Pre m Q R.
Proof.
  intros Hc Hm. eapply triple_conseq; [exact Hm|intros d; by apply crash_profile_safe|done..].
Qed.

(** A step that leaves the disk alone. *)
Lemma triple_quiet {E A} (f : os → A) k (R : E → assertion keys) :
  triple profile_safe (before k)
    (λ w, (Ok (f (system w)),
           World (record_step (system w) (now_disk (system w)) (locked (system w))) (process w)))
    (λ a d l p, before k d l p ∧ ∃ s, a = f s) R.
Proof.
  intros w Hw. split.
  - exists [now_disk (system w)]. split; [done|]. constructor; [|done]. by eapply before_safe.
  - simpl. split; [done|eauto].
Qed.

Lemma triple_with_keys {E A} (f : keys → result E A * keys) k :
  triple profile_safe (before k) (with_keys f)
    (λ a d l p, before (f k).2 d l p ∧ (f k).1 = Ok a)
    (λ e d l p, before (f k).2 d l p ∧ (f k).1 = Err e).
Proof.
  intros w (Ev & El & Ep). unfold with_keys. rewrite Ep. destruct (f k) as [r k'] eqn:Ef.
  split; [by exists []|]. simpl. unfold holds. by destruct r.
Qed.

Lemma create_directory_spec dir k :
  triple profile_safe (before k) (create_directory dir) (λ _, before k) (λ _, before k).
Proof.
  unfold create_directory. destruct (is_empty dir); [by apply triple_ret|].
  apply triple_syscall.
  - intros s p e n Hu. assert (before k (add_dirs (now_disk s) (take n (rev (all_ancestors dir))))
      (locked s) p) as Hu' by (destruct Hu as (E & -> & ->); split_and!; [by apply evolved_add_dirs|done..]).
    split; [by eapply before_safe|done].
  - intros s p Hu. cbv zeta. case_bool_decide; [split; [by eapply before_safe|done]|].
    assert (before k (add_dirs (now_disk s) (all_ancestors dir)) (locked s) p) as Hu'
      by (destruct Hu as (E & -> & ->); split_and!; [by apply evolved_add_dirs|done..]).
    split; [by eapply before_safe|done].
Qed.

Lemma set_dir_mode_spec dir m k :
  triple profile_safe (before k) (set_dir_mode dir m) (λ _, before k) (λ _, before k).
Proof.
  apply triple_atomically.
  - intros d l p Hu. split; [by eapply before_safe|done].
  - intros s p Hu. split; [by eapply before_safe|done].
Qed.

(** From the sealed profile on. *)
Notation after c k := (PublishFacts.published (P := keys) X d0 l0 k target c false).

Lemma published_sync c k dir d l p : after c k d l p → after c k (sync_entries d dir) l p.
Proof.
  intros (Ev & -> & -> & i & f & Hn & Hi0 & Hi & Hc & Hs & Hh). split_and!; [|done..|].
  - by apply evolved_sync.
  - exists i, f. split_and!; [done..|]. intros o [Ho|Ho]; apply Hh; [by left|].
    simpl in Ho. apply list_elem_of_filter in Ho as [_ Ho]. by right.
Qed.

Lemma write_temporary_spec c k temporary :
  X temporary →
  triple (crash_safe X d0 target c) (before k) (write_temporary temporary c)
    (λ _, PublishFacts.written X d0 l0 k c temporary) (λ _, before k).
Proof.
  intros Hx. unfold write_temporary.
  eapply triple_bind; [by apply create_new_spec|]. intros h.
  eapply triple_bind; [by apply write_all_spec|]. intros [].
  eapply triple_conseq; [by apply sync_all_spec|done|done| |done].
  intros _ d l p (Hu & Hn & Hi & f & Hf & Hd & Hs). split; [done|]. by exists h, f.
Qed.

(** A failure after the temporary file was created removes it. *)
Lemma give_up_spec {A} c k temporary :
  X temporary →
  triple (crash_safe X d0 target c) (before k)
    (ignore (remove_file temporary) ;; throw ProfileError.Write : io keys _ A)
    (λ _ _ _ _, False) (λ _, before k).
Proof.
  intros Hx. eapply (triple_bind _ _ _ _ (λ _, before k)).
  - apply (triple_ignore _ _ _ (λ _, before k)). by apply remove_private_spec.
  - intros []. by apply triple_throw.
Qed.

Lemma sync_directory_spec c k dir (R : ProfileError.t → assertion keys) :
  triple (crash_safe X d0 target c) (after c k)
    (ignore (E := ioError) (open_dir dir ;; ignore (sync_opened_dir dir)) : io keys ProfileError.t ())
    (λ _, after c k) R.
Proof.
  assert (∀ d l p, after c k d l p → crash_safe X d0 target c d) as Hsafe
    by by intros d l p; apply published_safe.
  apply (triple_ignore _ _ _ (λ _, after c k)).
  eapply (triple_bind _ _ _ _ (λ _, after c k)).
  - apply triple_atomically; [by eauto|]. intros s p Hp. cbv zeta. split; [by eauto|].
    by case_bool_decide.
  - intros []. apply (triple_ignore _ _ _ (λ _, after c k)). apply triple_atomically; [by eauto|].
    intros s p Hp%(published_sync c k dir). by eauto.
Qed.

Lemma publish_profile_spec c k temporary :
  X temporary →
  triple (crash_safe X d0 target c) (before k) (publish_profile directory target temporary c)
    (λ a d l p, a = target ∧ after c k d l p) (λ _, before k).
Proof.
  intros Hx. unfold publish_profile.
  apply (triple_bind _ _ _ _ (λ r d l p,
    match r with Ok _ => PublishFacts.written X d0 l0 k c temporary d l p
               | Err _ => before k d l p end)).
  { apply triple_try. by apply write_temporary_spec. }
  intros [[]|e].
  2:{ eapply triple_conseq; [by apply give_up_spec|done..]. }
  apply (triple_bind _ _ _ _ (λ r d l p,
    match r with Ok _ => after c k d l p | Err _ => before k d l p end)).
  { apply triple_try. eapply triple_conseq; [by apply rename_target_spec|done..|].
    by intros e d l p [? _]. }
  intros [[]|e].
  2:{ eapply triple_conseq; [by apply give_up_spec|done..]. }
  eapply (triple_bind _ _ _ _ (λ _, after c k)).
  { apply sync_directory_spec. }
  intros []. by apply triple_ret.
Qed.

(** Saving, from the world it starts in. *)
Lemma save_profile_triple path paths :
  resolve_write paths path = target →
  triple profile_safe (λ d l p, d = d0 ∧ l = l0 ∧ p = k0)
    (save_profile pid profile path paths)
    (λ a d l p, a = target ∧ ∃ c, sealed c ∧ after c (resolve_existing k0).2 d l p)
    (λ _ d l p, before k0 d l p ∨ before (resolve_existing k0).2 d l p).
Proof.
  intros Ht. unfold save_profile. rewrite Ht. cbv zeta.
  change (default "." (parent target)) with directory.
  apply (triple_bind _ _ _ _ (λ _, before k0)).
  { apply triple_map_error. eapply triple_conseq; [apply (create_directory_spec _ k0)|done| |done|auto].
    intros d l p (-> & -> & ->). split_and!; [apply evolved_refl|done..]. }
  intros []. apply (triple_bind _ _ _ _ (λ _, before k0)).
  { apply (triple_ignore _ _ _ (λ _, before k0)). apply set_dir_mode_spec. }
  intros []. eapply triple_bind.
  { apply triple_map_error. eapply triple_conseq; [apply (triple_with_keys resolve_existing k0)|done..|].
    intros e d l p [Hb _]. by right. }
  intros key. set (k1 := (resolve_existing k0).2).
  apply triple_pre. intros d1 l1 p1 [Hb Hkey].
  apply (triple_weaken_pre _ _ _ (before k1)); [by intros d l p (-> & -> & ->)|].
  apply (triple_bind _ _ _ _ (λ plaintext d l p, before k1 d l p ∧
    profile_plaintext profile = Ok plaintext)).
  { apply triple_of_result. intros d l p Hu. destruct (profile_plaintext profile); auto. }
  intros plaintext. apply triple_pre. intros d2 l2 p2 [Hb2 Hplain].
  apply (triple_weaken_pre _ _ _ (before k1)); [by intros d l p (-> & -> & ->)|].
  apply (triple_bind _ _ _ _ (λ c d l p, before k1 d l p ∧ sealed c)).
  { unfold encrypt_profile.
    apply (triple_bind _ _ _ _ (λ nonce d l p, before k1 d l p ∧
      ∃ s, nonce = random_bytes (steps s) 12)).
    { apply (triple_quiet (λ s, random_bytes (steps s) 12)). }
    intros nonce. apply triple_of_result. intros d l p [Hu [s ->]].
    destruct (encrypt_profile_with_nonce _ _ _) as [c|e] eqn:Ec; [|by right].
    split; [done|]. exists key, plaintext, (random_bytes (steps s) 12).
    split_and!; [done..|apply random_length|done]. }
  intros c. apply triple_pre. intros d3 l3 p3 [Hb3 Hc].
  apply (triple_weaken_pre _ _ _ (before k1)); [by intros d l p (-> & -> & ->)|].
  apply (triple_bind _ _ _ _ (λ _, before k1)).
  { apply triple_of_result. intros d l p Hu. destruct (fail_if _ _); auto. }
  intros []. apply (triple_bind _ _ _ _ (λ _, before k1)).
  { eapply triple_conseq; [apply (triple_quiet (λ s, clock (steps s)) k1 (λ _ _ _ _, False))|done..| |done].
    by intros a d l p [? _]. }
  intros nanos. apply (triple_safe c); [done|].
  eapply triple_conseq; [apply (publish_profile_spec c k1)|done|done| |auto].
  - by exists nanos.
  - intros a d l p [-> Ha]. split; [done|]. by exists c.
Qed.

End save.

Section properties.
Context {K : Type} `{KeyringBackend K} `{HexCodec} `{Scrypt}.
Context `{Lowercase} `{SerdeSlice} `{Aead} `{SerdeWriter} `{RandomBytes} `{Env}.

Lemma save_profile_outcome pid profile path paths (w w' : world (MasterKeyResolver K)) r :
  let target := resolve_write paths path in
  let d0 := now_disk (system w) in
  disk_ok d0 → ¬ temporary_of pid target target →
  save_profile pid profile path paths w = (r, w') →
  (∃ t, history (system w') = t ++ history (system w) ∧
        Forall (profile_safe pid profile target d0 (process w)) t) ∧
  locked (system w') = locked (system w) ∧
  let d := now_disk (system w') in
  match r with
  | Ok a => a = target ∧ process w' = (resolve_existing (process w)).2 ∧
      ∃ c, sealed profile (process w) c ∧ content d target = Some c
  | Err _ => (process w' = process w ∨ process w' = (resolve_existing (process w)).2) ∧
      content d target = content d0 target ∧
      ∀ o, after_crash d target o → after_crash d0 target o
  end.
Proof.
  cbv zeta. set (target := resolve_write paths path). set (d0 := now_disk (system w)).
  intros Hok Ht E.
  pose proof (save_profile_triple pid profile target d0 (locked (system w)) (process w) Hok Ht
    path paths eq_refl w ltac:(done)) as [Hh Hr].
  rewrite E in Hh, Hr. cbn [fst snd] in Hh, Hr. split; [done|]. destruct r as [a|e].
  - destruct Hr as (-> & c & Hc & Hp). pose proof Hp as (_ & -> & -> & _).
    split_and!; [done..|]. exists c. split; [done|]. by eapply published_content.
  - assert (∀ k, PublishFacts.unpublished (temporary_of pid target) d0 (locked (system w)) k
              (now_disk (system w')) (locked (system w')) (process w') →
            locked (system w') = locked (system w) ∧ process w' = k ∧
            content (now_disk (system w')) target = content d0 target ∧
            ∀ o, after_crash (now_disk (system w')) target o → after_crash d0 target o) as G.
    { intros k (Ev & El & Ep). destruct (evolved_kept _ _ _ target Ev Hok Ht). auto. }
    destruct Hr as [(? & ? & ? & ?)%G|(? & ? & ? & ?)%G]; split_and!; auto.
Qed.

(** C7: saving a profile never loses one.  Whatever call fails and wherever the
    process dies, the profile file is found with what it could have held before
    or with a complete envelope of the new profile under the resolved master
    key; no other entry but the temporary file is affected.  After success the
    new envelope is in place; after a failure the file is as it was. *)
Theorem save_profile_crash_safe pid profile path paths (w w' : world (MasterKeyResolver K)) r :
  let target := resolve_write paths path in
  let d0 := now_disk (system w) in
  disk_ok d0 → ¬ temporary_of pid target target →
  save_profile pid profile path paths w = (r, w') →
  (∃ t, history (system w') = t ++ history (system w) ∧
        Forall (profile_safe pid profile target d0 (process w)) t) ∧
  let d := now_disk (system w') in
  match r with
  | Ok a => a = target ∧ ∃ c, sealed profile (process w) c ∧ content d target = Some c
  | Err _ => content d target = content d0 target ∧
      ∀ o, after_crash d target o → after_crash d0 target o
  end.
Proof.
  intros target d0 Hok Ht E.
  destruct (save_profile_outcome _ _ _ _ _ _ _ Hok Ht E) as (Hh & _ & Hr).
  split; [exact Hh|]. destruct r; naive_solver.
Qed.

End properties.

(* ------------------------------------------------------------------ *)
(** ** Loading what was saved, and initialising an identity. *)


Section load.
Context {K : Type} `{KeyringBackend K} `{HexCodec} `{Scrypt}.
Context `{Lowercase} `{SerdeSlice} `{Aead} `{SerdeWriter} `{RandomBytes} `{Env}.

Notation keys := (MasterKeyResolver K).

(** No call from here on fails. *)
Definition calm {P} (w : world P) : Prop := ∀ n, (steps (system w) ≤ n)%nat → fault n = None.

(** The two worlds differ in the steps taken only. *)
Definition same {P} (w w' : world P) : Prop :=
  now_disk (system w') = now_disk (system w) ∧ process w' = process w.

Lemma calm_read {P A} (op : os → result ioError A * disk * gset nat) (w : world P) r :
  calm w → op (system w) = (r, now_disk (system w), locked (system w)) →
  ∃ w', atomically op w = (r, w') ∧ calm w' ∧ same w w'.
Proof.
  intros Hc Ho. unfold atomically, syscall. rewrite (Hc (steps (system w))) by done. rewrite Ho.
  eexists. split; [done|]. split; [|done]. intros n Hn. apply Hc. simpl in Hn. lia.
Qed.

(** A regular file that is there. *)
Definition regular (d : disk) (p : string) (c : bytes) : Prop :=
  p ∉ dirs d ∧ content d p = Some c.

Lemma calm_metadata (w : world keys) p c :
  calm w → regular (now_disk (system w)) p c →
  ∃ m w', metadata p w = (Ok (false, m), w') ∧ calm w' ∧ same w w'.
Proof.
  intros Hc [Hd Hp]. unfold content in Hp.
  destruct (names (now_disk (system w)) !! p) as [i|] eqn:Hn; [|done]. simpl in Hp.
  destruct (files (now_disk (system w)) !! i) as [f|] eqn:Hf; [|done].
  exists (mtime f). apply calm_read; [done|]. cbv zeta. rewrite bool_decide_false by done.
  rewrite Hn. simpl. by rewrite Hf.
Qed.

Lemma calm_read_profile_file (w : world keys) p c :
  calm w → regular (now_disk (system w)) p c →
  ∃ w', read_profile_file p w = (Ok c, w') ∧ calm w' ∧ same w w'.
Proof.
  intros Hc Hr. pose proof Hr as [Hd Hp]. unfold content in Hp.
  destruct (names (now_disk (system w)) !! p) as [i|] eqn:Hn; [|done]. simpl in Hp.
  destruct (files (now_disk (system w)) !! i) as [f|] eqn:Hf; simplify_eq/=.
  destruct (calm_metadata w p (data f) Hc Hr) as (m & w1 & E1 & Hc1 & Hd1 & Hp1).
  assert (∃ w2, open_read p w1 = (Ok i, w2) ∧ calm w2 ∧ same w1 w2) as (w2 & E2 & Hc2 & Hd2 & Hp2).
  { apply calm_read; [done|]. cbv zeta. rewrite bool_decide_false by congruence. by rewrite Hd1, Hn. }
  assert (∃ w3, handle_is_file i w2 = (Ok true, w3) ∧ calm w3 ∧ same w2 w3)
    as (w3 & E3 & Hc3 & Hd3 & Hp3).
  { apply calm_read; [done|]. cbv zeta. by rewrite Hd2, Hd1, Hf. }
  assert (∃ w4, read_to_end i w3 = (Ok (data f), w4) ∧ calm w4 ∧ same w3 w4)
    as (w4 & E4 & Hc4 & Hd4 & Hp4).
  { apply calm_read; [done|]. cbv zeta. by rewrite Hd3, Hd2, Hd1, Hf. }
  exists w4. split; [|split; [done|split; congruence]].
  unfold read_profile_file, map_error, of_result, mbind, io_bind. rewrite E1.
  cbn [map_err fail_if negb]. rewrite E2. cbn [map_err]. rewrite E3. cbn [map_err fail_if negb].
  by rewrite E4.
Qed.

Lemma calm_resolve (w : world keys) paths path c :
  let target := resolve_write paths path in
  calm w → regular (now_disk (system w)) target c →
  ∃ w', resolve paths path w = (Ok target, w') ∧ calm w' ∧ same w w'.
Proof.
  intros target Hc Hr. destruct (calm_metadata w target c Hc Hr) as (m & w1 & E1 & Hc1 & Hs1).
  exists w1. split; [|done]. unfold resolve. fold target. unfold try, mbind, io_bind. by rewrite E1.
Qed.

(** Once a key was resolved it is cached. *)
Lemma resolve_again (r : keys) key :
  (resolve_existing r).1 = Ok key →
  resolve_existing (resolve_existing r).2 = (Ok key, (resolve_existing r).2).
Proof.
  intros E. enough (cached (resolve_existing r).2 = Some key) as Hc.
  { unfold resolve_existing at 1. by rewrite Hc. }
  revert E. unfold resolve_existing, remember.
  repeat (case_match; simpl; try done); intros; simplify_eq/=; done.
Qed.

(** serde_json on one profile and on the headers of its envelopes: the texts it
    writes are clean JSON and it reads any text of the same tree back. *)
Record faithful (profile : Profile) : Prop := {
  text_faithful text : to_vec_pretty (profile_payload profile) = Some text →
    clean 0 text ∧ ∃ t, document utf8_char GO_MAX_JSON_NESTING_DEPTH t text ∧
      denotes t (doc_of (profile_payload profile)) ∧
      ∀ s, jreads GO_MAX_JSON_NESTING_DEPTH t s →
        from_slice s = Some (doc_of (profile_payload profile));
  header_faithful n hb :
    let header := Build_Envelope 2 (hex_encode n) "AES-256-GCM" in
    length n = 12%nat →
    hex_decode (hex_encode n) = Some n ∧
    (to_vec (envelope_value header) = Some hb →
      x0a ∉ hb ∧ from_slice hb = Some (doc_of (envelope_value header)));
}.

(** C8: a profile that was saved is the profile that is loaded.  When the
    writers and readers of serde_json agree on it, saving succeeded, and no
    call fails afterwards, loading from the same place in the same process
    finds the file, opens it and gives the very same profile. *)
Theorem save_then_load pid profile path paths (w w1 : world keys) target
    `{!LowercaseNames, !AeadLaws} :
  disk_ok (now_disk (system w)) →
  ¬ temporary_of pid (resolve_write paths path) (resolve_write paths path) →
  faithful profile →
  save_profile pid profile path paths w = (Ok target, w1) →
  target ∉ dirs (now_disk (system w1)) → calm w1 →
  ∃ w2, load_profile path paths w1 = (Ok profile, w2) ∧ same w1 w2.
Proof.
  intros Hok Ht Hf E Hd Hc.
  destruct (save_profile_outcome _ _ _ _ _ _ _ Hok Ht E)
    as (_ & _ & -> & Hp & c & (key & plaintext & nonce & Hkey & Hplain & Hl & Hseal) & Hcont).
  set (target := resolve_write paths path) in *.
  assert (regular (now_disk (system w1)) target c) as Hr by done.
  destruct (calm_resolve w1 paths path c Hc Hr) as (w2 & E2 & Hc2 & Hd2 & Hp2).
  assert (regular (now_disk (system w2)) target c) as Hr2 by by rewrite Hd2.
  destruct (calm_read_profile_file w2 target c Hc2 Hr2) as (w3 & E3 & Hc3 & Hd3 & Hp3).
  destruct (header_faithful _ Hf nonce []) as [Hhex _]; [done|].
  unfold encrypt_profile_with_nonce in Hseal.
  destruct (to_vec (envelope_value (Build_Envelope 2 (hex_encode nonce) "AES-256-GCM")))
    as [hb|] eqn:Ehb; [|by destruct (check_key _)].
  destruct (header_faithful _ Hf nonce hb Hl) as [_ [Hnl Hfs]]; [done|].
  destruct (decrypt_sealed plaintext (as_bytes key) nonce c hb) as (Es & Eh & Eo);
    [|done..|].
  { unfold encrypt_profile_with_nonce. by rewrite Ehb. }
  unfold profile_plaintext in Hplain.
  destruct (to_vec_pretty (profile_payload profile)) as [text|] eqn:Etext; simplify_eq/=.
  destruct (text_faithful _ Hf _ Etext) as (Hclean & t & Hdoc & Hden & Hread).
  pose proof (decode_written _ _ _ Hclean Hdoc Hden Hread) as Edec.
  exists w3. split; [|split; congruence].
  unfold load_profile. unfold mbind, io_bind. rewrite E2. fold target. rewrite E3.
  unfold of_result. rewrite Es. simpl. rewrite Eh. unfold map_error, with_keys.
  rewrite Hp3, Hp2, Hp, (resolve_again _ _ Hkey). simpl. rewrite Eo. simpl. rewrite Edec.
  simpl. f_equal. destruct w3. simpl in *. f_equal. congruence.
Qed.

(* ------------------------------------------------------------------ *)
(** ** Initialising an identity *)

Section init.
Context `{!HexLaws} (stored : K → option string) `{!KeyringLaws K stored}.

Notation sourced := (Keyring.sourced stored).
Notation consistent := (Keyring.consistent stored).

Lemma resolve_cached (r : keys) key : cached r = Some key → resolve_existing r = (Ok key, r).
Proof. intros E. unfold resolve_existing. by rewrite E. Qed.

(** The program, call by call. *)
Lemma init_profile_unfold pid profile path paths (w : world keys) :
  init_profile pid profile path paths w =
  let '(m0, k1) := resolve_existing (process w) in
  let '(m1, k2) := init (random_bytes (steps (system w))) k1 in
  let s2 := record_step (system w) (now_disk (system w)) (locked (system w)) in
  match m1 with
  | Err e => (Err (ProfileError.Key e), World s2 k2)
  | Ok _ =>
      let '(m, w3) := save_profile pid profile path paths (World s2 k2) in
      (m, if is_ok m || is_ok m0 then w3 else World (system w3) (delete (process w3)).2)
  end.
Proof.
  unfold init_profile, try, with_keys, init_keys, map_error, ignore, throw, mbind, io_bind.
  destruct (resolve_existing (process w)) as [m0 k1]. cbn [system process].
  destruct (init (random_bytes (steps (system w))) k1) as [[key|e] k2]; cbn [map_err]; [|done].
  destruct (save_profile pid profile path paths _) as [[t|e] w3]; [done|].
  destruct m0; cbn [is_ok orb]; [done|]. by destruct (delete (process w3)).
Qed.


End init.
End load.
