(* ===== verification/IdentityWitness.v ===== *)
(** The identity theorems at concrete values: toy codecs and a toy cipher, a
    small disk, one profile; and what a keyring that cannot be read for a
    moment does to an identity. *)
From S2P Require Import Prelude.
From S2P Require Import Text.
From S2P Require Import Json.
From S2P Require Import Encryption.
From S2P Require Import Disk.
From S2P Require Import DiskFacts.
From S2P Require Import Identity.
From S2P Require Import JsonText.
From S2P Require Import ProfileJson.
From S2P Require Import CursorFacts.
From S2P Require Import ReduceFacts.
From S2P Require Import Keyring.
From S2P Require Import SecretResolve.
From S2P Require Import ProfileStore.
From S2P Require Import ProfileFacts.
From S2P Require Import ProfileSave.
From Stdlib Require Import Ascii Strings.Byte.

#[local] Notation length := List.length.

(* ------------------------------------------------------------------ *)
(** ** The parameters *)

#[local] Instance raw_codec : HexCodec :=
  {| hex_encode := String.string_of_list_byte;
     hex_decode s := Some (String.list_byte_of_string s) |}.

#[local] Instance raw_codec_laws : HexLaws.
Proof.
  split; simpl.
  - intros b. by rewrite String.list_byte_of_string_of_list_byte.
  - intros b E. rewrite <- (String.list_byte_of_string_of_list_byte b), E. done.
Qed.

#[local] Instance toy_scrypt : Scrypt :=
  {| scrypt_params := ();
     Params_new _ _ _ := Some ();
     scrypt p _ _ n := Some (resize n x00 p) |}.

#[local] Instance toy_scrypt_laws : ScryptLaws.
Proof. split. intros p s params n b [= <-]. apply length_resize. Qed.

#[local] Instance lower_id : Lowercase := {| to_lowercase s := s |}.

#[local] Instance lower_id_names : LowercaseNames.
Proof. by split. Qed.

#[local] Instance toy_aead : Aead :=
  {| aead_seal _ _ _ p := Some p; aead_open _ _ _ c := Some c |}.

#[local] Instance toy_aead_laws : AeadLaws.
Proof. split. intros k n a c p _ _. split; intros [= ->]; done. Qed.

#[local] Instance zeros : RandomBytes := 
  {| random_bytes _ n := repeat x00 n; random_length _ n := repeat_length x00 n |}.

Definition env_failing (f : nat → option (ioError * nat)) : Env := {|
  fault := f;
  clock n := Z.of_nat n;
  random_u64 n := Z.of_nat n;
  readdir _ l := l;
  os_text _ := "I/O error";
|}.

(* ------------------------------------------------------------------ *)
(** ** One profile and its texts *)

Definition nobody : Profile := Build_Profile "" [] None [] [] [] [].

Definition quoted (s : string) : bytes := [quote] ++ lit s ++ [quote].

(** A member after the first. *)
Definition member (k : string) (v r : bytes) : bytes := ","%byte :: quoted k ++ ":"%byte :: v ++ r.

Definition nobody_text : bytes :=
  "{"%byte :: [] ++ quoted "full_name" ++ [] ++ ":"%byte :: [] ++ quoted "" ++
  member "name_variants" (lit "[]") (member "date_of_birth" (lit "null")
    (member "addresses" (lit "[]") (member "email_addresses" (lit "[]")
      (member "phone_numbers" (lit "[]") (member "jurisdictions" (lit "[]") ["}"%byte]))))).

Definition nobody_tree : tree :=
  TObject [(quoted "full_name", TString (quoted "")); (quoted "name_variants", TArray []);
           (quoted "date_of_birth", null); (quoted "addresses", TArray []);
           (quoted "email_addresses", TArray []); (quoted "phone_numbers", TArray []);
           (quoted "jurisdictions", TArray [])].

Definition zero_nonce : bytes := repeat x00 12.

Definition nobody_header : Envelope :=
  Build_Envelope 2 (hex_encode zero_nonce) "AES-256-GCM".

(** A serde_json that knows string literals, this header and this profile. *)
#[local] Instance toy_slice : SerdeSlice :=
  {| from_slice s :=
       match s with
       | b :: s' =>
           if bool_decide (b = quote)
           then Some (DString (String.string_of_list_byte (take (length s' - 1) s')))
           else if bool_decide (b = "h"%byte) then Some (doc_of (envelope_value nobody_header))
           else Some (doc_of (profile_payload nobody))
       | [] => None
       end |}.

#[local] Instance toy_writer : SerdeWriter :=
  {| to_vec v :=
       match v with
       | JObject [_; (_, JString nonce); _] =>
           if (nonce =? hex_encode zero_nonce)%string then Some (lit "header") else None
       | _ => None
       end;
     to_vec_pretty _ := Some nobody_text |}.

Lemma literal_string s :
  parse_string (JsonCursor_new s) = Some (0%nat, length s, advance (length s) (JsonCursor_new s)) →
  jstring s.
Proof.
  intros (t & Ht & [Hr _] & _)%parse_string_sound. rewrite rest_new in Hr.
  unfold rest in Hr. simpl in Hr. rewrite drop_all, app_nil_r in Hr. by subst.
Qed.

Lemma depth_two : (2 ≤ GO_MAX_JSON_NESTING_DEPTH)%nat.
Proof. #[local] Transparent GO_MAX_JSON_NESTING_DEPTH. unfold GO_MAX_JSON_NESTING_DEPTH. lia. Qed.
#[local] Opaque GO_MAX_JSON_NESTING_DEPTH.

Lemma member_next n k t v es r :
  jstring (quoted k) → jreads n t v → more_members utf8_char n es r →
  more_members utf8_char n ((quoted k, t) :: es) (member k v r).
Proof. intros. by apply (more_members_cons _ n [] [] (quoted k) [] []). Qed.

Lemma nobody_reads : jreads GO_MAX_JSON_NESTING_DEPTH nobody_tree nobody_text.
Proof.
  pose proof depth_two as Hm. destruct GO_MAX_JSON_NESTING_DEPTH as [|[|n]]; [lia..|].
  assert (∀ s, parse_string (JsonCursor_new (quoted s)) = Some (0%nat, length (quoted s),
            advance (length (quoted s)) (JsonCursor_new (quoted s))) → jstring (quoted s)) as Hk
    by (intros s; apply literal_string).
  assert (jreads (S n) (TArray []) (lit "[]")) as Harr by (apply reads_array, (elements_nil _ n []); constructor).
  apply reads_object.
  apply (members_cons _ (S n) [] (quoted "full_name") [] [] (TString (quoted "")) (quoted ""));
    [constructor|by apply Hk; vm_compute|constructor..|constructor; by apply Hk; vm_compute|].
  repeat (apply member_next; [by apply Hk; vm_compute|first [exact Harr|apply reads_null]|]).
  apply (more_members_nil _ _ []). constructor.
Qed.

Lemma nobody_clean : clean 0 nobody_text.
Proof.
  assert (normalize_go_json nobody_text = Some nobody_text) as E by (vm_compute; reflexivity).
  apply normalize_loop_sound in E as (t & -> & Ht). done.
Qed.

Lemma nobody_faithful : faithful nobody.
Proof.
  split.
  - intros text [= <-]. split; [apply nobody_clean|]. exists nobody_tree. split_and!.
    + exists [], nobody_text, []. rewrite app_nil_r.
      split_and!; [done|constructor|apply nobody_reads|constructor].
    + constructor. repeat (apply Forall2_cons_2; [split; [by vm_compute|]|]);
        try done; repeat constructor.
    + intros s Hs. inversion Hs; subst. done.
  - cbv zeta. intros n hb Hl. split; [apply hex_roundtrip|]. simpl.
    destruct (_ =? _)%string eqn:E; [|done]. apply String.eqb_eq in E.
    intros [= <-]. split; [by vm_compute; set_solver|].
    unfold from_slice. simpl. rewrite E. done.
Qed.

(* ------------------------------------------------------------------ *)
(** ** A machine with a profile path *)

Definition home_disk : disk := Disk ∅ [] ∅ {["/"; "/home"]} ∅.

Definition a_key : bytes := repeat "k"%byte 32.

Definition keyed : MasterKeyResolver FakeKeyring :=
  with_environment (FakeKeyring_with_value (hex_encode a_key)) ∅.

Definition home_world {K} (k : MasterKeyResolver K) : world (MasterKeyResolver K) :=
  World (Os home_disk ∅ 0 []) k.

Definition profile_path : string := "/home/identity.encrypted".

Definition no_paths : ProfilePaths := {| home := None; pp_environment := ∅ |}.

Lemma home_ok : disk_ok home_disk.
Proof. split; [by intros p [i Hi]|]. intros p i [Hi|Hi]; [done|by apply not_elem_of_nil in Hi]. Qed.

Lemma path_not_temporary : ¬ temporary_of 7 profile_path profile_path.
Proof. intros [nanos E]. discriminate E. Qed.

Section calm.
#[local] Instance calm_machine : Env := env_failing (λ _, None).

Lemma saved_ok : (save_profile 7 nobody profile_path no_paths (home_world keyed)).1 = Ok profile_path.
Proof. by vm_compute. Qed.

Lemma save_profile_crash_safe_witness :
  let w := home_world keyed in
  let s := save_profile 7 nobody profile_path no_paths w in
  s.1 = Ok profile_path ∧
  ∃ c, sealed nobody (process w) c ∧ content (now_disk (system s.2)) profile_path = Some c.
Proof.
  cbv zeta. split; [exact saved_ok|].
  destruct (save_profile 7 nobody profile_path no_paths (home_world keyed)) as [r w'] eqn:E.
  pose proof (save_profile_crash_safe 7 nobody profile_path no_paths (home_world keyed) w' r home_ok
    path_not_temporary E) as [_ G].
  pose proof saved_ok as Hs. rewrite E in Hs. simpl in Hs. subst r. apply G.
Defined.

Lemma save_then_load_witness :
  let s := save_profile 7 nobody profile_path no_paths (home_world keyed) in
  (load_profile profile_path no_paths s.2).1 = Ok nobody.
Proof.
  cbv zeta. destruct (save_profile 7 nobody profile_path no_paths (home_world keyed)) as [r w1] eqn:E.
  pose proof saved_ok as Hs. rewrite E in Hs. simpl in Hs. subst r.
  assert (profile_path ∉ dirs (now_disk (system w1))) as Hd.
  { assert (w1 = (save_profile 7 nobody profile_path no_paths (home_world keyed)).2) as ->
      by by rewrite E. by vm_compute. }
  destruct (save_then_load 7 nobody profile_path no_paths (home_world keyed) w1 profile_path home_ok
    path_not_temporary nobody_faithful E Hd ltac:(done)) as (w2 & E2 & _).
  simpl. by rewrite E2.
Defined.


End calm.

(* ------------------------------------------------------------------ *)
(** ** Envelopes and keys *)

Lemma decrypt_profile_iff_witness :
  decrypt_profile_with_key (lit "header" ++ x0a :: nobody_text) a_key = Ok (nobody_text, nobody_header).
Proof.
  apply decrypt_profile_iff. split; [done|]. split; [done|].
  exists (lit "header"), nobody_text, zero_nonce.
  split_and!; [done|by vm_compute; set_solver|done..].
Defined.

Definition fresh_key (n : nat) : bytes := repeat "r"%byte n.

Definition two_calls := perform_all [Resolve; Init fresh_key; Resolve] (MasterKeyResolver_new FakeKeyring_new).


Lemma init_spec_witness :
  (init fresh_key keyed).1 = Ok (Key a_key) ∧
  fk_value (keyring (init fresh_key keyed).2) = Some (hex_encode a_key).
Proof.
  destruct (init fresh_key keyed) as [m r'] eqn:E.
  pose proof (init_spec fk_value fresh_key keyed r' m eq_refl ltac:(done) eq_refl E) as G.
  exact G.
Defined.

(** A keyring of the system that is locked for one read. *)
Record LockedKeyring := { locked_reads : nat; entry : option string }.

#[local] Instance locked_native : NativeKeyring LockedKeyring :=
  {| entry_new _ _ _ := true;
     get_password k _ _ :=
       match locked_reads k with
       | O => (ok_or NoEntry (entry k), k)
       | S n => (Err NativeFailure, {| locked_reads := n; entry := entry k |})
       end;
     set_password k _ _ v := (Ok (), {| locked_reads := locked_reads k; entry := Some v |});
     delete_credential k _ _ := (Ok (), {| locked_reads := locked_reads k; entry := None |}) |}.

#[local] Existing Instance OsKeyring.

Definition locked_keyring (n : nat) : LockedKeyring :=
  {| locked_reads := n; entry := Some (hex_encode a_key) |}.

(** The stored key of an identity is replaced when the keyring cannot be read at
    the moment of [init]: the adapter reports an unreadable entry as absent. *)
Lemma init_replaces_unreadable_key :
  let '(m, r) := init fresh_key (MasterKeyResolver_new (locked_keyring 1)) in
  m = Ok (Key (fresh_key 32)) ∧ entry (keyring r) = Some (hex_encode (fresh_key 32)).
Proof. by vm_compute. Qed.

#[local] Instance broken_machine : Env := env_failing (λ _, Some (IoError OtherKind "disk full", 0%nat)).

(** And a failed [init_profile] then removes the key the existing profile was
    sealed with. *)
Lemma failed_init_profile_loses_key :
  let '(m, w) := init_profile 7 nobody profile_path no_paths
                   (home_world (MasterKeyResolver_new (locked_keyring 2))) in
  m = Err ProfileError.Mkdir ∧ entry (keyring (process w)) = None.
Proof. by vm_compute. Qed.

(* ------------------------------------------------------------------ *)
(** ** Secret references *)

(** A backend whose only secret is its state. *)
#[local] Instance one_secret : SecretBackend string :=
  {| resolve_keychain w _ _ := (Ok w, w);
     resolve_symvault w _ := (if is_empty w then Err SymvaultUnavailable else Ok w, w);
     get_keyring w _ _ := (Ok None, w) |}.

Definition vault_user : SecretResolver := SecretResolver_with_environment {["TOKEN" := "s3cret"]}.

Lemma resolve_error_reveals_nothing_witness :
  same_failure (SecretResolve.resolve vault_user "alpha" "symvault://app/token").1
    (SecretResolve.resolve (with_secrets vault_user {["TOKEN" := "other"]}) "beta" "symvault://app/token").1.
Proof.
  apply (resolve_error_reveals_nothing (λ w w', is_empty w = is_empty w')).
  - intros w1 w2 service account E. by split.
  - intros w1 w2 path E. split; [|done]. simpl. rewrite E.
    destruct (is_empty w2) eqn:E2; simpl; congruence.
  - intros w1 w2 service username E. by split.
  - intros name. destruct (decide (name = "TOKEN")) as [->|Hne]; [by vm_compute|].
    simpl. by rewrite !lookup_singleton_ne by done.
  - done.
Defined.

(** A command that never answers, polled every ten milliseconds. *)
#[local] Instance silent_child : ChildProcess () :=
  {| spawn _ := Some ();
     has_stdout _ := true;
     has_stderr _ := true;
     try_wait _ _ := Running;
     now _ n := 10000000 * Z.of_nat n;
     read_stdout _ := None |}.

#[local] Instance ascii_lossy : Utf8Lossy := {| from_utf8_lossy := String.string_of_list_byte |}.

