(* ===== verification/Scheduler.v ===== *)
(** Scheduler units: the pure part of [engine/scheduler/mod.rs], [cron.rs],
    [systemd.rs] and [launchd.rs].

    Texts are the generated files; a [BTreeMap<String, String>] is a [gmap]
    read in key order ([btree]).  In the literals below a backtick stands for a
    double quote ([quoted]).  Paths are strings; [components] is
    [Path::components] on Unix, where no prefix component exists.  What the
    code asks the machine (environment, running executable, file attributes) is
    the class [SchedulerHost]. *)
From S2P Require Import Prelude.
From S2P Require Import Text.
From S2P Require Import Identity.
From S2P Require Import Disk.
From Stdlib Require Import Ascii.

Definition WRAPPER_DIR_PLACEHOLDER : string := "__WRAPPER_DIR__".

Inductive Platform : Set := Cron | Launchd | Systemd.

#[export] Instance Platform_eq_dec : EqDecision Platform.
Proof. solve_decision. Defined.

(** [fmt::Display for Platform], and its [Serialize]. *)
Definition Platform_str (p : Platform) : string :=
  match p with Cron => "cron" | Launchd => "launchd" | Systemd => "systemd" end.

Definition Platform_parse (value : string) : option Platform :=
  let value := to_ascii_lowercase value in
  if (value =? "cron")%string then Some Cron
  else if (value =? "launchd")%string then Some Launchd
  else if (value =? "systemd")%string then Some Systemd
  else None.

Record Config := {
  platform : option Platform;
  output_dir : string;
  tick_hour : Z;
  tick_minute : Z;
  poll_hours : list Z;
  project_dir : string;
  binary_path : string;
  venv_activate : string;
}.

Definition Config_default : Config :=
  {| platform := None; output_dir := "./schedules"; tick_hour := 10; tick_minute := 0;
     poll_hours := [8; 12; 16; 20]; project_dir := ""; binary_path := ""; venv_activate := "" |}.

Inductive SchedulerError : Type :=
| UnsupportedPlatform (platform : string)
| UnsupportedPlatformOperation (platform : string)
| InvalidTickTime
| InvalidPollHour (hour : Z)
| ResolveBinaryPath (source : ioError)
| ResolveProjectDirectory (source : ioError)
| EmptyOutputDirectory
| ResolveOutputDirectory (source : ioError)
| CreateOutputDirectory (source : ioError)
| InvalidGeneratedFilename (name : string)
| WriteFile (path : string) (source : ioError)
| ResolveHomeDirectory (source : ioError)
| ReadLegacyUnit (path : string) (source : ioError)
| LegacyUnitsDetected
| RemoveLegacyUnit (path : string) (source : ioError)
| CreateNativeUnitDirectory (source : ioError)
| WriteNativeUnit (path : string) (source : ioError)
| RemoveNativeUnit (path : string) (source : ioError)
| LoadLaunchdUnit (unit_name : string) (source : ioError)
| SystemctlDaemonReload (source : ioError)
| EnableSystemdTimer (unit_name : string) (source : ioError)
| WriteCronStaging (path : string) (source : ioError)
| InstallCrontab (source : ioError).

#[export] Instance SchedulerError_eq_dec : EqDecision SchedulerError.
Proof. solve_decision. Defined.

(** [fmt::Display for SchedulerError]. *)
Definition SchedulerError_str `{RustFmt} (e : SchedulerError) : string :=
  match e with
  | UnsupportedPlatform platform =>
      "unsupported platform: " +:+ platform +:+ " (choose cron, launchd, or systemd)"
  | UnsupportedPlatformOperation platform => "unsupported platform: " +:+ platform
  | InvalidTickTime => "tick time must be a valid 24-hour time"
  | InvalidPollHour hour => "poll hour must be between 0 and 23: " +:+ show hour
  | ResolveBinaryPath source => "resolve symeraseme executable: " +:+ text source
  | ResolveProjectDirectory source => "resolve project directory: " +:+ text source
  | EmptyOutputDirectory => "output directory must not be empty"
  | ResolveOutputDirectory source => "resolve output directory: " +:+ text source
  | CreateOutputDirectory source => "create output directory: " +:+ text source
  | InvalidGeneratedFilename name => "invalid generated filename: " +:+ debug_str name
  | WriteFile path source => "write " +:+ path +:+ ": " +:+ text source
  | ResolveHomeDirectory source => "resolve home directory: " +:+ text source
  | LegacyUnitsDetected => "legacy scheduler units detected; replacement was not requested"
  | RemoveLegacyUnit path source => "remove legacy unit " +:+ path +:+ ": " +:+ text source
  | CreateNativeUnitDirectory source => "create native unit directory: " +:+ text source
  | WriteNativeUnit path source => "write native unit " +:+ path +:+ ": " +:+ text source
  | RemoveNativeUnit path source => "remove native unit " +:+ path +:+ ": " +:+ text source
  | LoadLaunchdUnit unit_name source => "load launchd unit " +:+ unit_name +:+ ": " +:+ text source
  | SystemctlDaemonReload source => "systemd daemon-reload: " +:+ text source
  | EnableSystemdTimer unit_name source =>
      "enable systemd timer " +:+ unit_name +:+ ": " +:+ text source
  | WriteCronStaging path source =>
      "write crontab staging file " +:+ path +:+ ": " +:+ text source
  | InstallCrontab source => "install crontab: " +:+ text source
  | ReadLegacyUnit path source => "read legacy unit " +:+ path +:+ ": " +:+ text source
  end.

(** [impl std::error::Error for SchedulerError]: [source]. *)
Definition SchedulerError_source (e : SchedulerError) : option ioError :=
  match e with
  | ResolveBinaryPath source | ResolveProjectDirectory source
  | ResolveOutputDirectory source | CreateOutputDirectory source
  | WriteFile _ source | ResolveHomeDirectory source | ReadLegacyUnit _ source => Some source
  | _ => None
  end.

(* ------------------------------------------------------------------ *)
(** ** The machine *)

Record Metadata := { is_file : bool; mode_bits : Z; dev : Z; ino : Z }.

(** [cfg!(target_os = ..)], [env::var_os], [env::current_exe],
    [env::current_dir], and [fs::metadata] of paths the program does not write. *)
Class SchedulerHost := {
  target_macos : bool;
  target_linux : bool;
  env_var : string → option string;
  current_exe : result ioError string;
  current_dir : result ioError string;
  fs_metadata : string → option Metadata;
}.

(** [env::split_paths] on Unix. *)
Definition split_paths (s : string) : list string := split ":" s.

(* ------------------------------------------------------------------ *)
(** ** Lexical paths *)

Inductive Component : Type :=
| RootDir | CurDir | ParentDir | Normal (name : string).

#[export] Instance Component_eq_dec : EqDecision Component.
Proof. solve_decision. Defined.

Definition component_of (part : string) : option Component :=
  if is_empty part || (part =? ".")%string then None
  else if (part =? "..")%string then Some ParentDir
  else Some (Normal part).

(** [Path::components]: empty parts and [.] are skipped, a [.] that starts a
    relative path apart. *)
Definition components (path : string) : list Component :=
  let parts := split "/" path in
  (if starts_with "/" path then [RootDir]
   else match parts with
        | part :: _ => if (part =? ".")%string then [CurDir] else []
        | [] => []
        end)
  ++ omap component_of parts.

Definition component_str (c : Component) : string :=
  match c with RootDir => "/" | CurDir => "." | ParentDir => ".." | Normal name => name end.

(** [out.push(component)] for each component, [out] held last component first. *)
Definition clean_step (out : list Component) (c : Component) : list Component :=
  match c with
  | CurDir => out
  | ParentDir =>
      match out with
      | Normal _ :: out' => out'
      | RootDir :: _ => out
      | _ => ParentDir :: out
      end
  | other => other :: out
  end.

Definition clean_components (l : list Component) : list Component :=
  rev (foldl clean_step [] l).

(** [cleaned.push(component)] in turn. *)
Definition push_components (l : list Component) : string :=
  foldl (λ base c, path_join base (component_str c)) "" l.

Definition lexically_clean (path : string) : string :=
  let cleaned := push_components (clean_components (components path)) in
  if is_empty cleaned then "." else cleaned.

(** [Path]'s equality and [starts_with] go by component. *)
Definition path_eqb (p q : string) : bool := bool_decide (components p = components q).
Definition path_starts_with (p q : string) : bool :=
  bool_decide (take (List.length (components q)) (components p) = components q).

Definition is_safe_relative_filename (name : string) : bool :=
  if is_empty name then false
  else if starts_with "/" name then false
  else
    let clean := lexically_clean name in
    negb (path_eqb clean ".") && negb (path_eqb clean "..") && negb (path_starts_with clean "..").

Definition clean_relative (name : string) : string := lexically_clean name.

(* ------------------------------------------------------------------ *)
(** ** Resolving the command *)

Section host.
Context `{SchedulerHost}.

(** [metadata.is_file() && metadata.permissions().mode() & 0o111 != 0]. *)
Definition is_executable_file (path : string) : bool :=
  match fs_metadata path with
  | Some m => is_file m && negb (Z.land (mode_bits m) 73 =? 0)
  | None => false
  end.

Definition which_systemctl : option string :=
  path_var ← env_var "PATH";
  List.find is_executable_file ((λ dir, path_join dir "systemctl") <$> split_paths path_var).

Definition detect_platform : Platform :=
  if target_macos then Launchd
  else if target_linux && bool_decide (is_Some which_systemctl) then Systemd
  else Cron.

Definition Platform_from_name (value : string) : result SchedulerError Platform :=
  let lowered := to_ascii_lowercase value in
  if is_empty lowered then Ok detect_platform
  else ok_or (UnsupportedPlatformOperation lowered) (Platform_parse lowered).

(** The logical [$PWD] when it names the directory the kernel reports. *)
Definition working_directory : result ioError string :=
  match env_var "PWD" with
  | Some logical =>
      if starts_with "/" logical then
        match fs_metadata logical with
        | Some from_env =>
            kernel ← current_dir;
            match fs_metadata kernel with
            | Some from_kernel =>
                if (dev from_env =? dev from_kernel) && (ino from_env =? ino from_kernel)
                then Ok logical else current_dir
            | None => current_dir
            end
        | None => (* the kernel's directory is asked for all the same *)
            _ ← current_dir; current_dir
        end
      else current_dir
  | None => current_dir
  end.

Definition resolve_binary_path (explicit : string) : result SchedulerError string :=
  if negb (is_empty explicit) then Ok explicit
  else
    path ← map_err ResolveBinaryPath current_exe;
    path ← (if starts_with "/" path then Ok path
            else (λ dir, path_join dir path) <$> map_err ResolveBinaryPath working_directory);
    Ok (lexically_clean path).

End host.

(* ------------------------------------------------------------------ *)
(** ** Wrappers *)

Definition dquote : ascii := "034"%char.

(** A literal of the source with its double quotes. *)
Definition quoted (s : string) : string :=
  str_map (λ c, if Ascii.eqb c "`" then dquote else c) s.

Definition nl : string := String "010" "".

(** [lines.join("\n")] with a final newline. *)
Definition unlines (l : list string) : string := join nl l +:+ nl.

Definition shell_quote (value : string) : string :=
  "'" +:+ str_replace "'" "'\''" value +:+ "'".

Definition wrapper (command : list string) (project_dir venv : string) : string :=
  "#!/usr/bin/env bash" +:+ nl +:+
  "# Symaira EraseMe scheduled task wrapper" +:+ nl +:+
  "# Generated by symeraseme generate-scheduler (Go)" +:+ nl +:+
  "set -euo pipefail" +:+ nl +:+ nl +:+
  (if is_empty venv then "" else "source " +:+ shell_quote venv +:+ nl +:+ nl) +:+
  "export SYMERASEME_HEADLESS=1" +:+ nl +:+
  "cd " +:+ shell_quote project_dir +:+ nl +:+ nl +:+ "exec" +:+
  foldr (λ arg text, " " +:+ shell_quote arg +:+ text) "" command +:+ nl.

Definition poll_wrapper (binary_path project_dir venv : string) (poll_hours : list Z) : string :=
  "#!/usr/bin/env bash" +:+ nl +:+
  "# Symaira EraseMe scheduled inbox poll wrapper" +:+ nl +:+
  "# Generated by symeraseme generate-scheduler (Go)" +:+ nl +:+
  "set -euo pipefail" +:+ nl +:+ nl +:+
  (if is_empty venv then "" else "source " +:+ shell_quote venv +:+ nl) +:+
  "export SYMERASEME_HEADLESS=1" +:+ nl +:+
  "cd " +:+ shell_quote project_dir +:+ nl +:+ nl +:+
  "CURRENT_HHMM=$(date +%H:%M)" +:+ nl +:+
  quoted "case `$CURRENT_HHMM` in" +:+ nl +:+
  join "|" ((λ hour, pad2 hour +:+ ":00") <$> poll_hours) +:+
  ")" +:+ nl +:+ "    exec " +:+ shell_quote binary_path +:+
  " poll-inbox --output json" +:+ nl +:+ "    ;;" +:+ nl +:+ "esac" +:+ nl.

Definition LEGACY_MARKER : string := "Generated by symeraseme generate-scheduler".
Definition OWN_MARKER : string := LEGACY_MARKER +:+ " (Go)".

(* ------------------------------------------------------------------ *)
(** ** cron *)

Definition cron_tab (hour minute : Z) : string :=
  unlines
    [ "# Symaira EraseMe scheduled tasks";
      "# Generated by symeraseme generate-scheduler (Go)";
      "";
      "# Tick (daily at " +:+ pad2 hour +:+ ":" +:+ pad2 minute +:+ ")";
      show minute +:+ " " +:+ show hour +:+ " * * * {wrapper_dir}/symeraseme-tick.sh";
      "";
      "# Poll inbox (hourly wrapper checks configured times)";
      "0 * * * * {wrapper_dir}/symeraseme-poll.sh";
      "";
      "# Re-scan (quarterly on 1st of Jan, Apr, Jul, Oct)";
      show minute +:+ " " +:+ show hour +:+ " 1 1,4,7,10 * {wrapper_dir}/symeraseme-rescan.sh";
      "";
      "# End Symaira EraseMe scheduled tasks" ].

Definition block_removal_script : string :=
  join nl
    [ "awk '";
      "  /^# Symaira EraseMe scheduled tasks$/ { skip=1; next }";
      "  /^# End Symaira EraseMe scheduled tasks$/ { skip=0; next }";
      "  skip { next }";
      "  { print }";
      "'" ].

Definition cron_install_script : string :=
  unlines
    [ "#!/usr/bin/env bash";
      "set -euo pipefail";
      quoted "SCRIPT_DIR=`$(cd `$(dirname `$0`)` && pwd)`";
      quoted "chmod +x `$SCRIPT_DIR`/*.sh";
      "TEMP=$(mktemp)";
      quoted "trap 'rm -f `$TEMP`' EXIT";
      "(crontab -l 2>/dev/null || true) | " +:+ block_removal_script +:+ quoted " > `$TEMP`";
      quoted "sed `s|{wrapper_dir}|$SCRIPT_DIR|g` `$SCRIPT_DIR/crontab.txt` >> `$TEMP`";
      quoted "crontab `$TEMP`";
      quoted "printf 'Crontab installed. Wrappers in: %s\n' `$SCRIPT_DIR`" ].

Definition cron_uninstall_script : string :=
  unlines
    [ "#!/usr/bin/env bash";
      "set -euo pipefail";
      "TEMP=$(mktemp)";
      quoted "trap 'rm -f `$TEMP`' EXIT";
      "(crontab -l 2>/dev/null || true) | " +:+ block_removal_script +:+ quoted " > `$TEMP`";
      quoted "crontab `$TEMP`";
      "printf '%s\n' 'Symaira EraseMe entries removed from crontab.'" ].

Definition tick_command (binary_path : string) : list string :=
  [binary_path; "tick"; "--output"; "json"].

Definition cron_generate (cfg : Config) (binary_path project_dir : string)
    (poll_hours : list Z) : gmap string string :=
  list_to_map
    [ ("symeraseme-tick.sh",
        wrapper (tick_command binary_path) project_dir (venv_activate cfg));
      ("symeraseme-poll.sh",
        poll_wrapper binary_path project_dir (venv_activate cfg) poll_hours);
      ("symeraseme-rescan.sh",
        wrapper (tick_command binary_path ++ ["--dry-run"]) project_dir (venv_activate cfg));
      ("install.sh", cron_install_script);
      ("uninstall.sh", cron_uninstall_script);
      ("crontab.txt", cron_tab (tick_hour cfg) (tick_minute cfg)) ].

(* ------------------------------------------------------------------ *)
(** ** systemd *)

Definition service (description wrapper_path : string) : string :=
  unlines
    [ "[Unit]";
      "# " +:+ OWN_MARKER;
      "Description=" +:+ description;
      "After=network-online.target";
      "";
      "[Service]";
      "Type=oneshot";
      quoted "ExecStart=/bin/bash `" +:+ wrapper_path +:+ quoted "`";
      "Environment=SYMERASEME_HEADLESS=1";
      "StandardOutput=journal";
      "StandardError=journal";
      "";
      "[Install]";
      "WantedBy=default.target" ].

Definition timer (description service_name calendar : string) : string :=
  unlines
    [ "[Unit]";
      "# " +:+ OWN_MARKER;
      "Description=" +:+ description;
      "";
      "[Timer]";
      "Unit=" +:+ service_name +:+ ".service";
      "OnCalendar=" +:+ calendar;
      "Persistent=true";
      "";
      "[Install]";
      "WantedBy=timers.target" ].

Definition systemd_install_script : string :=
  unlines
    [ "#!/usr/bin/env bash";
      "set -euo pipefail";
      quoted "SCRIPT_DIR=`$(cd `$(dirname `$0`)` && pwd)`";
      quoted "DEST=`${XDG_CONFIG_HOME:-$HOME/.config}/systemd/user`";
      quoted "mkdir -p `$DEST`";
      quoted "chmod +x `$SCRIPT_DIR`/*.sh";
      quoted "for unit in `$SCRIPT_DIR`/*.service `$SCRIPT_DIR`/*.timer; do";
      quoted "  [ -f `$unit` ] || continue";
      quoted "  name=$(basename `$unit`)";
      quoted "  sed `s|__WRAPPER_DIR__|$SCRIPT_DIR|g` `$unit` > `$DEST/$name`";
      "done";
      "systemctl --user daemon-reload";
      "for timer in symeraseme-tick symeraseme-poll symeraseme-rescan; do";
      quoted "  systemctl --user enable --now `$timer.timer`";
      "done";
      "printf '%s\n' 'Systemd timers installed and enabled.'" ].

Definition systemd_uninstall_script : string :=
  unlines
    [ "#!/usr/bin/env bash";
      "set -euo pipefail";
      quoted "SCRIPT_DIR=`$(cd `$(dirname `$0`)` && pwd)`";
      quoted "DEST=`${XDG_CONFIG_HOME:-$HOME/.config}/systemd/user`";
      "for timer in symeraseme-tick symeraseme-poll symeraseme-rescan; do";
      quoted "  systemctl --user disable --now `$timer.timer` 2>/dev/null || true";
      "done";
      quoted "for unit in `$SCRIPT_DIR`/*.service `$SCRIPT_DIR`/*.timer; do";
      quoted "  [ -f `$unit` ] || continue";
      quoted "  rm -f `$DEST/$(basename `$unit`)`";
      "done";
      "systemctl --user daemon-reload";
      "printf '%s\n' 'Systemd timers uninstalled.'" ].

Definition systemd_generate (cfg : Config) (binary_path project_dir : string)
    (poll_hours : list Z) : gmap string string :=
  list_to_map
    [ ("symeraseme-tick.sh",
        wrapper (tick_command binary_path) project_dir (venv_activate cfg));
      ("symeraseme-tick.service",
        service "Symaira EraseMe daily tick" (WRAPPER_DIR_PLACEHOLDER +:+ "/symeraseme-tick.sh"));
      ("symeraseme-tick.timer",
        timer "Symaira EraseMe daily tick" "symeraseme-tick"
          ("Daily-" +:+ pad2 (tick_hour cfg) +:+ ":" +:+ pad2 (tick_minute cfg)));
      ("symeraseme-poll.sh",
        wrapper [binary_path; "poll-inbox"; "--output"; "json"] project_dir (venv_activate cfg));
      ("symeraseme-poll.service",
        service "Symaira EraseMe hourly inbox poll"
          (WRAPPER_DIR_PLACEHOLDER +:+ "/symeraseme-poll.sh"));
      ("symeraseme-poll.timer",
        timer "Symaira EraseMe hourly inbox poll" "symeraseme-poll" "Hourly");
      ("symeraseme-rescan.sh",
        wrapper (tick_command binary_path) project_dir (venv_activate cfg));
      ("symeraseme-rescan.service",
        service "Symaira EraseMe quarterly re-scan"
          (WRAPPER_DIR_PLACEHOLDER +:+ "/symeraseme-rescan.sh"));
      ("symeraseme-rescan.timer",
        timer "Symaira EraseMe quarterly re-scan" "symeraseme-rescan" "Quarterly");
      ("install.sh", systemd_install_script);
      ("uninstall.sh", systemd_uninstall_script) ].

(* ------------------------------------------------------------------ *)
(** ** launchd *)

Definition calendar (hour minute : Z) : string :=
  join nl
    [ "    <dict>";
      "        <key>Hour</key>";
      "        <integer>" +:+ show hour +:+ "</integer>";
      "        <key>Minute</key>";
      "        <integer>" +:+ show minute +:+ "</integer>";
      "    </dict>" ].

Definition quarterly (hour minute : Z) : string :=
  join nl
    ((λ month,
        join nl
          [ "    <dict>";
            "        <key>Month</key>";
            "        <integer>" +:+ show month +:+ "</integer>";
            "        <key>Day</key>";
            "        <integer>1</integer>";
            "        <key>Hour</key>";
            "        <integer>" +:+ show hour +:+ "</integer>";
            "        <key>Minute</key>";
            "        <integer>" +:+ show minute +:+ "</integer>";
            "    </dict>" ]) <$> [1; 4; 7; 10]).

Definition is_xml_character (code : Z) : bool :=
  (code =? 9) || (code =? 10) || (code =? 13)
  || ((32 <=? code) && (code <=? 55295))
  || ((57344 <=? code) && (code <=? 65533))
  || ((65536 <=? code) && (code <=? 1114111)).

(** [String::push]: the UTF-8 encoding of a code point. *)
Definition byte_of (n : Z) : ascii := ascii_of_nat (Z.to_nat n).

Definition push_char (code : Z) (rest : string) : string :=
  if code <? 128 then String (byte_of code) rest
  else if code <? 2048 then
    String (byte_of (192 + code / 64)) (String (byte_of (128 + code mod 64)) rest)
  else if code <? 65536 then
    String (byte_of (224 + code / 4096))
      (String (byte_of (128 + code / 64 mod 64)) (String (byte_of (128 + code mod 64)) rest))
  else
    String (byte_of (240 + code / 262144))
      (String (byte_of (128 + code / 4096 mod 64))
        (String (byte_of (128 + code / 64 mod 64)) (String (byte_of (128 + code mod 64)) rest))).

Definition escape_char (code : Z) (rest : string) : string :=
  if code =? 34 then "&#34;" +:+ rest
  else if code =? 39 then "&#39;" +:+ rest
  else if code =? 38 then "&amp;" +:+ rest
  else if code =? 60 then "&lt;" +:+ rest
  else if code =? 62 then "&gt;" +:+ rest
  else if code =? 9 then "&#x9;" +:+ rest
  else if code =? 10 then "&#xA;" +:+ rest
  else if code =? 13 then "&#xD;" +:+ rest
  else if is_xml_character code then push_char code rest
  else push_char 65533 rest.

Definition plist_escape (value : string) : string := foldr escape_char "" (chars value).

Definition plist (label wrapper_path intervals : string) (array : bool) : string :=
  let intervals :=
    if array then "    <array>" +:+ nl +:+ intervals +:+ nl +:+ "    </array>"
    else "    " +:+ intervals in
  let label := plist_escape label in
  let wrapper_path := plist_escape wrapper_path in
  unlines
    [ quoted "<?xml version=`1.0` encoding=`UTF-8`?>";
      quoted "<!DOCTYPE plist PUBLIC `-//Apple//DTD PLIST 1.0//EN`";
      quoted "  `http://www.apple.com/DTDs/PropertyList-1.0.dtd`>";
      "<!-- " +:+ OWN_MARKER +:+ " -->";
      quoted "<plist version=`1.0`>";
      "<dict>";
      "    <key>Label</key>";
      "    <string>" +:+ label +:+ "</string>";
      "    <key>ProgramArguments</key>";
      "    <array>";
      "        <string>/bin/bash</string>";
      "        <string>" +:+ wrapper_path +:+ "</string>";
      "    </array>";
      "    <key>StartCalendarInterval</key>";
      intervals;
      "    <key>StandardOutPath</key>";
      "    <string>/tmp/" +:+ label +:+ ".log</string>";
      "    <key>StandardErrorPath</key>";
      "    <string>/tmp/" +:+ label +:+ ".err</string>";
      "    <key>EnvironmentVariables</key>";
      "    <dict>";
      "        <key>SYMERASEME_HEADLESS</key>";
      "        <string>1</string>";
      "    </dict>";
      "    <key>RunAtLoad</key>";
      "    <false/>";
      "    <key>KeepAlive</key>";
      "    <false/>";
      "</dict>";
      "</plist>" ].

Definition launchd_install_script : string :=
  unlines
    [ "#!/usr/bin/env bash";
      "set -euo pipefail";
      quoted "SCRIPT_DIR=`$(cd `$(dirname `$0`)` && pwd)`";
      quoted "DEST=`$HOME/Library/LaunchAgents`";
      quoted "mkdir -p `$DEST`";
      quoted "for plist in `$SCRIPT_DIR`/*.plist; do";
      quoted "  [ -f `$plist` ] || continue";
      quoted "  name=$(basename `$plist`)";
      quoted "  sed `s|__WRAPPER_DIR__|$SCRIPT_DIR|g` `$plist` > `$DEST/$name`";
      quoted "  chmod 644 `$DEST/$name`";
      quoted "  launchctl unload `$DEST/$name` 2>/dev/null || true";
      quoted "  launchctl load `$DEST/$name`";
      "done";
      quoted "chmod +x `$SCRIPT_DIR`/*.sh";
      "printf '%s\n' 'launchd jobs installed.'" ].

Definition launchd_uninstall_script : string :=
  unlines
    [ "#!/usr/bin/env bash";
      "set -euo pipefail";
      quoted "SCRIPT_DIR=`$(cd `$(dirname `$0`)` && pwd)`";
      quoted "for plist in `$SCRIPT_DIR`/*.plist; do";
      quoted "  [ -f `$plist` ] || continue";
      quoted "  name=$(basename `$plist`)";
      quoted "  dest=`$HOME/Library/LaunchAgents/$name`";
      quoted "  launchctl unload `$dest` 2>/dev/null || true";
      quoted "  rm -f `$dest`";
      "done";
      "printf '%s\n' 'launchd jobs uninstalled.'" ].

Definition launchd_generate (cfg : Config) (binary_path project_dir : string)
    (poll_hours : list Z) : gmap string string :=
  list_to_map
    [ ("symeraseme-tick.sh",
        wrapper (tick_command binary_path) project_dir (venv_activate cfg));
      ("com.symeraseme.tick.plist",
        plist "com.symeraseme.tick" (WRAPPER_DIR_PLACEHOLDER +:+ "/symeraseme-tick.sh")
          (calendar (tick_hour cfg) (tick_minute cfg)) false);
      ("symeraseme-poll.sh",
        wrapper [binary_path; "poll-inbox"; "--output"; "json"] project_dir (venv_activate cfg));
      ("com.symeraseme.poll.plist",
        plist "com.symeraseme.poll" (WRAPPER_DIR_PLACEHOLDER +:+ "/symeraseme-poll.sh")
          (join nl ((λ hour, calendar hour 0) <$> poll_hours)) true);
      ("symeraseme-rescan.sh",
        wrapper (tick_command binary_path) project_dir (venv_activate cfg));
      ("com.symeraseme.rescan.plist",
        plist "com.symeraseme.rescan" (WRAPPER_DIR_PLACEHOLDER +:+ "/symeraseme-rescan.sh")
          (quarterly (tick_hour cfg) (tick_minute cfg)) true);
      ("install.sh", launchd_install_script);
      ("uninstall.sh", launchd_uninstall_script) ].

(* ------------------------------------------------------------------ *)
(** ** Generating *)

Definition valid_tick_time (cfg : Config) : bool :=
  negb ((tick_hour cfg <? 0) || (23 <? tick_hour cfg)
        || (tick_minute cfg <? 0) || (59 <? tick_minute cfg)).

Definition valid_hour (hour : Z) : bool := (0 <=? hour) && (hour <=? 23).

Definition effective_poll_hours (cfg : Config) : list Z :=
  match poll_hours cfg with [] => [8; 12; 16; 20] | hours => hours end.

(** The last [match] of [generate]. *)
Definition platform_generate (p : Platform) :
    Config → string → string → list Z → gmap string string :=
  match p with Cron => cron_generate | Launchd => launchd_generate | Systemd => systemd_generate end.

Definition generate `{SchedulerHost} (cfg : Config) : result SchedulerError (gmap string string) :=
  let platform := default detect_platform (platform cfg) in
  _ ← fail_if (negb (valid_tick_time cfg)) InvalidTickTime;
  let poll_hours := effective_poll_hours cfg in
  _ ← match List.find (λ hour, negb (valid_hour hour)) poll_hours with
      | Some hour => Err (InvalidPollHour hour)
      | None => Ok ()
      end;
  binary_path ← resolve_binary_path (binary_path cfg);
  project_dir ←
    (if is_empty (project_dir cfg) then map_err ResolveProjectDirectory working_directory
     else Ok (project_dir cfg));
  Ok (platform_generate platform cfg binary_path project_dir poll_hours).

(* ------------------------------------------------------------------ *)
(** ** Content of existing units *)

(** [char::to_lowercase], the characters it yields. *)
Class CharLower := { char_lower : Z → list Z }.

Definition go_to_lower `{CharLower} (content : string) : string :=
  foldr (λ c, push_char (default c (head (char_lower c)))) "" (chars content).

Definition MARKERS : list string :=
  ["python"; "site-packages"; "symeraseme.core.scheduler"; "uv run"; "venv/bin/activate"].

Definition is_python_scheduler_content `{CharLower} (content : string) : bool :=
  let lower := go_to_lower content in
  if existsb (λ marker, contains marker lower) MARKERS then true
  else contains LEGACY_MARKER content && negb (contains OWN_MARKER content).

Definition is_own_generated_unit (content : string) : bool := contains OWN_MARKER content.

Record LegacyUnit := {
  lu_platform : option Platform;
  lu_kind : string;
  lu_name : string;
  lu_path : string;
  lu_is_python : bool;
  lu_reason : string;
}.

#[export] Instance LegacyUnit_eq_dec : EqDecision LegacyUnit.
Proof. solve_decision. Defined.

Definition LEGACY_NAMES : list string :=
  [ "com.symeraseme.tick.plist"; "com.symeraseme.poll.plist"; "com.symeraseme.rescan.plist";
    "symeraseme-tick.service"; "symeraseme-tick.timer"; "symeraseme-poll.service";
    "symeraseme-poll.timer"; "symeraseme-rescan.service"; "symeraseme-rescan.timer" ].
