(* ===== verification/SchedulerFacts.v ===== *)
(** What the generated scheduler files mean.

    [sh_script] is a reference reading of a shell script made of simple
    commands: words, single quotes, backslashes and comments; anything the
    shell would expand or treat as an operator is refused.  The wrappers are
    read back as the commands they were generated for, whatever bytes the paths
    hold.  [resolve] is what a path without symbolic links names; cleaning a
    path keeps it, and the accepted file names are those that stay below their
    directory. *)
From S2P Require Import Prelude.
From S2P Require Import Text.
From S2P Require Import Identity.
From S2P Require Import Disk.
From S2P Require Import Scheduler.
From Stdlib Require Import Ascii.

#[local] Notation length := List.length.

(* ------------------------------------------------------------------ *)
(** ** A shell's reading of a script *)

Inductive lex_mode : Type :=
| Between
| Comment
| Word (w : string)
| InQuotes (w : string)
| Escaped (w : string).

(** The words of the current command and the commands read, newest first. *)
Record lexer := Lexer { lx_mode : lex_mode; lx_words : list string; lx_commands : list (list string) }.

Definition push_last (w : string) (c : ascii) : string := w +:+ String c "".

(** Characters that stand for themselves; [=] not in the first word, where it
    would make an assignment. *)
Definition plain (first : bool) (c : ascii) : bool :=
  is_ascii_alphabetic c || is_ascii_digit c
  || str_existsb (Ascii.eqb c) "-_./:,+@%" || (negb first && Ascii.eqb c "=").

Definition newline : ascii := "010"%char.
Definition apostrophe : ascii := "'"%char.
Definition backslash : ascii := "\"%char.

Definition end_command (words : list string) (commands : list (list string)) : lexer :=
  Lexer Between [] (match words with [] => commands | _ => rev words :: commands end).

Definition sh_step (l : lexer) (c : ascii) : option lexer :=
  let 'Lexer mode words commands := l in
  if Ascii.eqb c "000" then None else
  match mode with
  | Between =>
      if Ascii.eqb c " " then Some l
      else if Ascii.eqb c newline then Some (end_command words commands)
      else if Ascii.eqb c "#" then Some (Lexer Comment words commands)
      else if Ascii.eqb c apostrophe then Some (Lexer (InQuotes "") words commands)
      else if Ascii.eqb c backslash then Some (Lexer (Escaped "") words commands)
      else if plain (bool_decide (words = [])) c then Some (Lexer (Word (String c "")) words commands)
      else None
  | Comment =>
      if Ascii.eqb c newline then Some (end_command words commands) else Some l
  | Word w =>
      if Ascii.eqb c " " then Some (Lexer Between (w :: words) commands)
      else if Ascii.eqb c newline then Some (end_command (w :: words) commands)
      else if Ascii.eqb c apostrophe then Some (Lexer (InQuotes w) words commands)
      else if Ascii.eqb c backslash then Some (Lexer (Escaped w) words commands)
      else if plain (bool_decide (words = [])) c || Ascii.eqb c "#"
      then Some (Lexer (Word (push_last w c)) words commands)
      else None
  | InQuotes w =>
      if Ascii.eqb c apostrophe then Some (Lexer (Word w) words commands)
      else Some (Lexer (InQuotes (push_last w c)) words commands)
  | Escaped w =>
      if Ascii.eqb c newline then None
      else Some (Lexer (Word (push_last w c)) words commands)
  end.

Fixpoint sh_feed (s : string) (l : lexer) : option lexer :=
  match s with
  | "" => Some l
  | String c s' => sh_step l c ≫= sh_feed s'
  end.

(** The commands of a script, each a list of words. *)
Definition sh_script (s : string) : option (list (list string)) :=
  l ← sh_feed s (Lexer Between [] []);
  match lx_mode l with
  | Between | Comment => Some (rev (lx_commands (end_command (lx_words l) (lx_commands l))))
  | Word w => Some (rev (lx_commands (end_command (w :: lx_words l) (lx_commands l))))
  | InQuotes _ | Escaped _ => None
  end.

Definition no_nul (s : string) : bool := str_forallb (λ c, negb (Ascii.eqb c "000")) s.

Lemma sh_feed_app s t l : sh_feed (s +:+ t) l = sh_feed s l ≫= sh_feed t.
Proof.
  induction s as [|c s IH] in l |- *; [done|]. cbn [append sh_feed].
  destruct (sh_step l c) as [l'|]; [apply IH|done].
Qed.

Lemma str_replace_char c r d s :
  str_replace (String c "") r (String d s) =
  if Ascii.eqb c d then r +:+ str_replace (String c "") r s
  else String d (str_replace (String c "") r s).
Proof. unfold str_replace. cbn. unfold starts_with. cbn. by destruct (Ascii.eqb c d). Qed.

(** Between the quotes, the value is read back as it is. *)
Lemma sh_feed_quoted v w words commands :
  no_nul v = true →
  sh_feed (str_replace "'" "'\''" v) (Lexer (InQuotes w) words commands) =
  Some (Lexer (InQuotes (w +:+ v)) words commands).
Proof.
  unfold no_nul.
  induction v as [|c v IH] in w |- *; [by rewrite string_app_nil_r|].
  cbn [str_forallb]. intros [Hc Hv]%andb_true_iff. apply negb_true_iff in Hc.
  assert (Hpush : push_last w c +:+ v = w +:+ String c v).
  { unfold push_last. by rewrite string_app_assoc. }
  rewrite str_replace_char, <- Hpush, <- (IH _ Hv).
  destruct (Ascii.eqb_spec "'" c) as [<-|Hne].
  - by rewrite sh_feed_app.
  - cbn [sh_feed sh_step]. rewrite Hc.
    destruct (Ascii.eqb_spec c apostrophe) as [->|_]; [done|done].
Qed.

(** A quoted value after a space is one word: the value. *)
Lemma sh_feed_shell_quote v words commands :
  no_nul v = true →
  sh_feed (shell_quote v) (Lexer Between words commands) = Some (Lexer (Word v) words commands).
Proof.
  intros Hv. unfold shell_quote. rewrite !sh_feed_app.
  change (sh_feed "'" (Lexer Between words commands)) with (Some (Lexer (InQuotes "") words commands)).
  cbn [mbind option_bind]. rewrite sh_feed_app, sh_feed_quoted by done. done.
Qed.

(** The arguments of a command, quoted one after the other. *)
Lemma sh_feed_arguments args w words commands :
  forallb no_nul args = true →
  ∃ w' words',
    sh_feed (foldr (λ arg text, " " +:+ shell_quote arg +:+ text) "" args)
      (Lexer (Word w) words commands) = Some (Lexer (Word w') words' commands) ∧
    w' :: words' = rev args ++ w :: words.
Proof.
  induction args as [|a args IH] in w, words |- *; cbn [forallb foldr rev].
  { intros _. by exists w, words. }
  intros [Ha Hargs]%andb_true_iff.
  destruct (IH a (w :: words) Hargs) as (w' & words' & Hf & Hw).
  exists w', words'. split; [|by rewrite <- app_assoc].
  rewrite sh_feed_app. change (sh_feed " " (Lexer (Word w) words commands))
    with (Some (Lexer Between (w :: words) commands)). cbn [mbind option_bind].
  by rewrite sh_feed_app, sh_feed_shell_quote.
Qed.

Lemma sh_feed_segment s l l' t : sh_feed s l = Some l' → sh_feed (s +:+ t) l = sh_feed t l'.
Proof. intros Hs. by rewrite sh_feed_app, Hs. Qed.

Lemma sh_feed_quoted_segment v words commands t :
  no_nul v = true →
  sh_feed (shell_quote v +:+ t) (Lexer Between words commands) =
  sh_feed t (Lexer (Word v) words commands).
Proof. intros Hv. by apply sh_feed_segment, sh_feed_shell_quote. Qed.

(** The commands a wrapper is made of. *)
Definition wrapper_commands (command : list string) (project_dir venv : string) : list (list string) :=
  [["set"; "-euo"; "pipefail"]] ++
  (if is_empty venv then [] else [["source"; venv]]) ++
  [["export"; "SYMERASEME_HEADLESS=1"]; ["cd"; project_dir]; "exec" :: command].

(** Feeds the literal texts at the head of what is left to read. *)
Ltac feed_literal :=
  match goal with
  | |- context [sh_feed (?p +:+ _) ?l] =>
      lazymatch p with context [shell_quote] => fail | _ => idtac end;
      let r := eval vm_compute in (sh_feed p l) in
      lazymatch r with Some ?l' => rewrite (sh_feed_segment p l l' _ eq_refl) end
  end.
Ltac feed_literals := repeat feed_literal.

(** A wrapper is read by the shell as its commands. *)
Lemma sh_script_wrapper command project_dir venv :
  no_nul project_dir = true → no_nul venv = true → forallb no_nul command = true →
  sh_script (wrapper command project_dir venv) = Some (wrapper_commands command project_dir venv).
Proof.
  intros Hdir Hvenv Hcmd. unfold sh_script, wrapper, wrapper_commands.
  set (args := foldr _ _ command).
  assert (Htail : ∀ commands,
    sh_feed ("export SYMERASEME_HEADLESS=1" +:+ nl +:+ "cd " +:+ shell_quote project_dir +:+ nl +:+
             nl +:+ "exec" +:+ args +:+ nl) (Lexer Between [] commands) =
    Some (Lexer Between [] ((("exec" :: command) :: ["cd"; project_dir]
            :: ["export"; "SYMERASEME_HEADLESS=1"] :: commands)))).
  { intros commands. feed_literals. rewrite sh_feed_quoted_segment by done. feed_literals.
    destruct (sh_feed_arguments command "exec" []
                (["cd"; project_dir] :: ["export"; "SYMERASEME_HEADLESS=1"] :: commands) Hcmd)
      as (w & words & Hf & Hw).
    rewrite (sh_feed_segment _ _ _ _ Hf). cbn [sh_feed append sh_step nl].
    cbn. unfold end_command. rewrite Hw, rev_app_distr, rev_involutive. done. }
  feed_literals. destruct (is_empty venv) eqn:Ev.
  - rewrite (sh_feed_segment "" _ _ _ eq_refl). by rewrite Htail.
  - rewrite !string_app_assoc. feed_literals. rewrite sh_feed_quoted_segment by done.
    do 2 feed_literal. by rewrite Htail.
Qed.

(* ------------------------------------------------------------------ *)
(** ** What a path names *)

(** The directories from the innermost one up to the root, after following a
    path's components; the root's parent is the root. *)
Definition follow (at_ : list string) (c : Component) : list string :=
  match c with
  | RootDir => []
  | CurDir => at_
  | ParentDir => tail at_
  | Normal name => name :: at_
  end.

Definition resolve_components (at_ : list string) (l : list Component) : list string :=
  foldl follow at_ l.

Definition resolve_path (at_ : list string) (path : string) : list string :=
  resolve_components at_ (components path).

(** A name that can be one component. *)
Definition no_slash (s : string) : bool := str_forallb (λ d, negb (Ascii.eqb d "/")) s.
Definition component_name (n : string) : Prop :=
  n ≠ "" ∧ n ≠ "." ∧ n ≠ ".." ∧ no_slash n = true.

Lemma split_no_slash s : Forall (λ p, no_slash p = true) (split "/" s).
Proof.
  induction s as [|c s IH]; cbn [split]; [by repeat constructor|].
  destruct (Ascii.eqb c "/") eqn:Ec; [by constructor|].
  destruct (split "/" s) as [|h t]; [repeat constructor|]; cbn.
  - unfold no_slash. cbn. by rewrite Ec.
  - apply Forall_cons in IH as [Hh Ht]. constructor; [|done]. unfold no_slash. cbn. by rewrite Ec.
Qed.

Lemma component_of_Some p c :
  component_of p = Some c ↔
  (p = ".." ∧ c = ParentDir) ∨ (p ≠ "" ∧ p ≠ "." ∧ p ≠ ".." ∧ c = Normal p).
Proof.
  unfold component_of. destruct (is_empty p) eqn:Ee; cbn [orb].
  { apply is_empty_spec in Ee as ->. naive_solver. }
  apply is_empty_false in Ee. destruct (String.eqb_spec p "."); [naive_solver|].
  destruct (String.eqb_spec p ".."); naive_solver.
Qed.

Lemma component_of_name n : component_name n → component_of n = Some (Normal n).
Proof. intros (? & ? & ? & _). apply component_of_Some. auto. Qed.

(** What the components of a path look like: the root or [.] at most in
    front, then names and [..]. *)
Definition below (c : Component) : Prop :=
  match c with RootDir | CurDir => False | ParentDir => True | Normal n => component_name n end.

Lemma omap_below ps :
  Forall (λ p, no_slash p = true) ps → Forall below (omap component_of ps).
Proof.
  intros Hps. apply Forall_forall. intros c (p & Hp & Hc)%list_elem_of_omap.
  rewrite Forall_forall in Hps. apply component_of_Some in Hc as [[_ ->]|(? & ? & ? & ->)]; cbn; [done|].
  split_and!; auto.
Qed.

Lemma components_shape path :
  ∃ front l, components path = front ++ l ∧ Forall below l ∧
    front = (if starts_with "/" path then [RootDir]
             else if bool_decide (head (split "/" path) = Some ".") then [CurDir] else []).
Proof.
  unfold components. eexists _, _. split_and!; [done|apply omap_below, split_no_slash|].
  destruct (starts_with "/" path); [done|]. destruct (split "/" path) as [|p ps]; [done|].
  cbn. destruct (String.eqb_spec p "."); case_bool_decide; naive_solver.
Qed.

(** One step of the cleaning stack keeps what the components name. *)
Lemma clean_step_resolves out c at_ :
  resolve_components at_ (rev (clean_step out c)) = follow (resolve_components at_ (rev out)) c.
Proof.
  unfold resolve_components. destruct c; cbn [clean_step follow rev]; rewrite ?foldl_app; try done.
  - destruct out as [|[| | |n] out]; cbn [rev]; rewrite ?foldl_app; done.
Qed.

Lemma clean_components_resolves at_ l :
  resolve_components at_ (clean_components l) = resolve_components at_ l.
Proof.
  unfold clean_components. change at_ with (resolve_components at_ (rev [])) at 2.
  generalize (@nil Component) as out. induction l as [|c l IH]; intros out; [done|].
  cbn [foldl]. rewrite IH, clean_step_resolves. done.
Qed.

(** The cleaned components: after the root only names, otherwise some [..] and
    then names. *)
Definition base (rooted : bool) (k : nat) : list Component :=
  if rooted then [RootDir] else replicate k ParentDir.

Definition stack (rooted : bool) (out : list Component) : Prop :=
  ∃ k ns, Forall component_name ns ∧ out = (Normal <$> ns) ++ base rooted k.

Lemma clean_step_stack rooted out c :
  below c → stack rooted out → stack rooted (clean_step out c).
Proof.
  intros Hc (k & ns & Hns & ->). destruct c as [| | |n]; [done|done| |].
  - destruct ns as [|n ns]; cbn [fmap list_fmap app clean_step].
    + unfold base. destruct rooted; [by exists k, []|].
      exists (S k), []. split; [done|]. by destruct k.
    + apply Forall_cons in Hns as [_ Hns]. by exists k, ns.
  - exists k, (n :: ns). by rewrite Forall_cons.
Qed.

Lemma clean_stack rooted out l :
  Forall below l → stack rooted out → stack rooted (foldl clean_step out l).
Proof.
  intros Hl. induction Hl as [|c l Hc Hl IH] in out |- *; [done|].
  intros Hout. apply IH. by apply clean_step_stack.
Qed.

Lemma clean_components_stack path :
  stack (starts_with "/" path) (rev (clean_components (components path))).
Proof.
  unfold clean_components. rewrite rev_involutive.
  destruct (components_shape path) as (front & l & -> & Hl & ->). rewrite foldl_app.
  apply clean_stack; [done|]. destruct (starts_with "/" path).
  - by exists 0%nat, [].
  - case_bool_decide; by exists 0%nat, [].
Qed.

(** A part of a cleaned path: a name or [..]. *)
Definition part (s : string) : Prop := s ≠ "" ∧ s ≠ "." ∧ no_slash s = true.

Lemma no_slash_start s : no_slash s = true → starts_with "/" s = false.
Proof.
  destruct s as [|c s]; [done|]. rewrite starts_with_cons, Ascii.eqb_sym. unfold no_slash.
  cbn [str_forallb]. intros [Hc _]%andb_true_iff. apply negb_true_iff in Hc. by rewrite Hc.
Qed.

Lemma path_join_relative b s :
  part s → path_join b s = if is_empty b || ends_with "/" b then b +:+ s else b +:+ "/" +:+ s.
Proof. intros (_ & _ & Hs). unfold path_join. by rewrite no_slash_start. Qed.

Lemma no_slash_end b s : part s → ends_with "/" (b +:+ s) = false.
Proof.
  intros (Hne & _ & Hs). apply not_true_is_false. intros [t Ht]%ends_with_spec.
  apply (f_equal str_rev) in Ht. rewrite !str_rev_append in Ht.
  unfold no_slash in Hs. rewrite <- str_forallb_rev in Hs.
  destruct (str_rev s) as [|c r] eqn:Er.
  { apply Hne. by rewrite <- (str_rev_involutive s), Er. }
  injection Ht as -> _. done.
Qed.

Lemma push_parts b ps :
  b ≠ "" → ends_with "/" b = false → Forall part ps →
  foldl path_join b ps = join "/" (b :: ps).
Proof.
  intros Hb He Hps. induction Hps as [|p ps Hp Hps IH] in b, Hb, He |- *; [done|].
  cbn [foldl]. rewrite path_join_relative by done.
  rewrite He, (proj2 (is_empty_false b) Hb). cbn [orb]. rewrite IH.
  - cbn [join]. destruct ps; [done|]. by rewrite !string_app_assoc.
  - by destruct b.
  - rewrite <- string_app_assoc. by apply no_slash_end.
Qed.

Lemma push_relative ps : Forall part ps → foldl path_join "" ps = join "/" ps.
Proof.
  intros Hps. destruct Hps as [|p ps Hp Hps]; [done|]. cbn [foldl].
  rewrite path_join_relative by done. cbn [is_empty orb append].
  apply push_parts; [by destruct Hp| |done]. change p with ("" +:+ p). by apply no_slash_end.
Qed.

Lemma push_rooted ps : Forall part ps → foldl path_join "/" ps = "/" +:+ join "/" ps.
Proof.
  intros Hps. destruct Hps as [|p ps Hp Hps]; [done|]. cbn [foldl].
  rewrite path_join_relative by done.
  change (is_empty "/" || ends_with "/" "/") with true. cbv iota.
  rewrite push_parts; [|done|by apply no_slash_end|done].
  cbn [join]. by destruct ps.
Qed.

Lemma split_slash_join ps :
  ps ≠ [] → Forall part ps → split "/" (join "/" ps) = ps.
Proof.
  intros Hne Hps. apply (split_join "/"); [done|]. eapply Forall_impl; [done|]. by intros p (_ & _ & ?).
Qed.

Definition canonical_parts (k : nat) (ns : list string) : list string := replicate k ".." ++ ns.

Lemma parts_of k ns :
  Forall component_name ns → Forall part (canonical_parts k ns).
Proof.
  intros Hns. unfold canonical_parts. apply Forall_app. split.
  - apply Forall_replicate. by split_and!.
  - eapply Forall_impl; [done|]. intros n (? & ? & _ & ?). by split_and!.
Qed.

Lemma omap_parts k ns :
  Forall component_name ns →
  omap component_of (canonical_parts k ns) = replicate k ParentDir ++ (Normal <$> ns).
Proof.
  intros Hns. unfold canonical_parts. induction k as [|k IH]; cbn.
  - induction Hns as [|n ns Hn Hns IH]; [done|]. cbn. by rewrite component_of_name, IH.
  - f_equal. apply IH.
Qed.

Lemma fold_push_parts b k ns :
  foldl (λ base c, path_join base (component_str c)) b (replicate k ParentDir ++ (Normal <$> ns)) =
  foldl path_join b (canonical_parts k ns).
Proof.
  unfold canonical_parts. rewrite !foldl_app.
  assert (Hk : ∀ b, foldl (λ base c, path_join base (component_str c)) b (replicate k ParentDir) =
    foldl path_join b (replicate k "..")) by (induction k as [|k IH]; intros c; [done|apply IH]).
  rewrite Hk. generalize (foldl path_join b (replicate k "..")) as c.
  induction ns as [|n ns IH]; intros c; [done|apply IH].
Qed.

Lemma components_push_relative k ns :
  Forall component_name ns → (k ≠ 0 ∨ ns ≠ [])%nat →
  let l := replicate k ParentDir ++ (Normal <$> ns) in
  push_components l ≠ "" ∧ components (push_components l) = l.
Proof.
  intros Hns Hne l. pose proof (parts_of k ns Hns) as Hps.
  unfold push_components, l. rewrite fold_push_parts, push_relative by done.
  assert (Hnil : canonical_parts k ns ≠ []).
  { unfold canonical_parts. intros [Hk ->]%app_eq_nil. destruct k; [naive_solver|done]. }
  assert (Hj : join "/" (canonical_parts k ns) ≠ "").
  { intros Hj. pose proof (split_slash_join _ Hnil Hps) as Hs. rewrite Hj in Hs. cbn in Hs.
    rewrite <- Hs in Hps. apply Forall_cons in Hps as [[? _] _]. done. }
  split; [done|]. unfold components. rewrite split_slash_join, omap_parts by done.
  assert (Hst : starts_with "/" (join "/" (canonical_parts k ns)) = false).
  { destruct (canonical_parts k ns) as [|p ps]; [done|]. apply Forall_cons in Hps as [Hp _].
    destruct Hp as (Hp & _ & Hs). apply no_slash_start in Hs. destruct p as [|c p]; [done|].
    destruct ps; [done|]. cbn [join]. change (String c p +:+ ?t) with (String c (p +:+ t)).
    rewrite starts_with_cons in *. by destruct (Ascii.eqb "/" c). }
  rewrite Hst. destruct (canonical_parts k ns) as [|p ps]; [done|].
  apply Forall_cons in Hps as [(_ & Hd & _) _]. by rewrite (proj2 (String.eqb_neq _ _) Hd).
Qed.

Lemma components_push_rooted ns :
  Forall component_name ns →
  let l := RootDir :: (Normal <$> ns) in
  push_components l ≠ "" ∧ components (push_components l) = l.
Proof.
  intros Hns l. pose proof (parts_of 0 ns Hns) as Hps. change (canonical_parts 0 ns) with ns in Hps.
  assert (Hpush : push_components l = "/" +:+ join "/" ns).
  { unfold push_components, l. cbn [foldl component_str].
    change (path_join "" "/") with "/". etrans; [apply (fold_push_parts "/" 0 ns)|by apply push_rooted]. }
  rewrite Hpush. split; [done|]. unfold components.
  change (starts_with "/" ("/" +:+ join "/" ns)) with true. cbv iota.
  change (split "/" ("/" +:+ join "/" ns)) with ("" :: split "/" (join "/" ns)).
  cbn [omap list_omap component_of is_empty orb].
  unfold l. cbn [app]. f_equal. destruct ns as [|n ns]; [done|].
  rewrite split_slash_join by done. apply (omap_parts 0 (n :: ns)). done.
Qed.

(** The components of a cleaned path. *)
Lemma components_clean path :
  components (lexically_clean path) =
  match clean_components (components path) with [] => [CurDir] | l => l end.
Proof.
  destruct (clean_components_stack path) as (k & ns & Hns & Hrev).
  apply (f_equal (@rev _)) in Hrev. rewrite rev_involutive, rev_app_distr in Hrev.
  assert (Hr : Forall component_name (rev ns)) by by apply Forall_rev.
  replace (rev (Normal <$> ns)) with (Normal <$> rev ns) in Hrev by apply map_rev.
  unfold lexically_clean. rewrite Hrev. unfold base. destruct (starts_with "/" path).
  - cbn [rev app]. destruct (components_push_rooted _ Hr) as [Hne Hc].
    apply is_empty_false in Hne. by rewrite Hne, Hc.
  - replace (rev (replicate k ParentDir)) with (replicate k ParentDir)
      by (rewrite rev_alt; symmetry; apply reverse_replicate).
    destruct (decide (k = 0%nat ∧ rev ns = [])) as [[-> ->]|Hne]; [done|].
    assert (Hkn : (k ≠ 0 ∨ rev ns ≠ [])%nat) by (destruct k, (rev ns); naive_solver).
    destruct (components_push_relative k _ Hr Hkn) as [Hpe Hc].
    apply is_empty_false in Hpe. rewrite Hpe, Hc.
    destruct (replicate k ParentDir ++ _) eqn:El; [|done].
    apply app_eq_nil in El as [E1 E2]. destruct k, (rev ns); naive_solver.
Qed.

Lemma resolve_clean at_ path : resolve_path at_ (lexically_clean path) = resolve_path at_ path.
Proof.
  unfold resolve_path at 2. rewrite <- clean_components_resolves.
  unfold resolve_path. rewrite components_clean. by destruct (clean_components _).
Qed.

Lemma resolve_names at_ ns : resolve_components at_ (Normal <$> ns) = rev ns ++ at_.
Proof.
  induction ns as [|n ns IH] in at_ |- *; [done|]. cbn. unfold resolve_components in IH.
  rewrite IH. by rewrite <- app_assoc.
Qed.

Lemma resolve_parents at_ k : resolve_components at_ (replicate k ParentDir) = drop k at_.
Proof.
  induction k as [|k IH] in at_ |- *; [done|]. cbn. unfold resolve_components in IH. rewrite IH.
  destruct at_; [by destruct k|done].
Qed.

(** What a path names, by the parts of its cleaned form. *)
Lemma resolve_path_shape path :
  ∃ k ns, Forall component_name ns ∧
    clean_components (components path) =
      (if starts_with "/" path then RootDir :: (Normal <$> ns)
       else replicate k ParentDir ++ (Normal <$> ns)) ∧
    ∀ at_, resolve_path at_ path =
      rev ns ++ (if starts_with "/" path then [] else drop k at_).
Proof.
  destruct (clean_components_stack path) as (k & ns & Hns & Hrev).
  apply (f_equal (@rev _)) in Hrev. rewrite rev_involutive, rev_app_distr in Hrev.
  replace (rev (Normal <$> ns)) with (Normal <$> rev ns) in Hrev by apply map_rev.
  exists k, (rev ns). assert (Hc : clean_components (components path) =
      (if starts_with "/" path then RootDir :: (Normal <$> rev ns)
       else replicate k ParentDir ++ (Normal <$> rev ns))).
  { rewrite Hrev. unfold base. destruct (starts_with "/" path); [done|].
    f_equal. rewrite rev_alt. apply reverse_replicate. }
  split_and!; [by apply Forall_rev|done|]. intros at_.
  unfold resolve_path. rewrite <- clean_components_resolves, Hc. unfold resolve_components.
  destruct (starts_with "/" path).
  - cbn [foldl follow]. apply resolve_names.
  - rewrite foldl_app. setoid_rewrite resolve_names. f_equal. apply resolve_parents.
Qed.

(** A name is safe when its cleaned form is a non-empty list of names. *)
Lemma is_safe_shape name k ns :
  Forall component_name ns → starts_with "/" name = false →
  clean_components (components name) = replicate k ParentDir ++ (Normal <$> ns) →
  is_safe_relative_filename name = true ↔ k = 0%nat ∧ ns ≠ [].
Proof.
  intros Hns Hst Hc. unfold is_safe_relative_filename. rewrite Hst.
  destruct (is_empty name) eqn:Ee.
  { apply is_empty_spec in Ee as ->. cbn in Hc. symmetry in Hc. apply app_eq_nil in Hc as [Hk Hn].
    apply fmap_nil_inv in Hn. naive_solver. }
  unfold path_eqb, path_starts_with. rewrite components_clean, Hc.
  change (components ".") with [CurDir]. change (components "..") with [ParentDir].
  destruct k as [|k]; [destruct ns as [|n ns]|]; cbn.
  - naive_solver.
  - repeat case_bool_decide; naive_solver.
  - rewrite take_0. repeat case_bool_decide; naive_solver.
Qed.

(** A generated file's name is accepted exactly when it leads strictly below
    the output directory, whatever directory that is: an absolute name, an
    empty one, and every way of climbing out with [..] are refused, and a [..]
    that only cancels a name before it is not. *)
Theorem is_safe_relative_filename_iff name :
  is_safe_relative_filename name = true ↔
  ∀ at_, ∃ b, b ≠ [] ∧ resolve_path at_ name = b ++ at_.
Proof.
  destruct (resolve_path_shape name) as (k & ns & Hns & Hc & Hr).
  destruct (starts_with "/" name) eqn:Hst.
  - split.
    { unfold is_safe_relative_filename. rewrite Hst. by destruct (is_empty name). }
    intros Hall. destruct (Hall (replicate (S (length ns)) "")) as (b & Hb & Hres).
    apply (f_equal length) in Hres. rewrite Hr, !length_app, length_rev, length_replicate in Hres.
    cbn in Hres. lia.
  - rewrite (is_safe_shape name k ns) by done. split.
    + intros [-> Hne] at_. exists (rev ns). rewrite Hr. split; [|done].
      intros Hn. apply Hne. by rewrite <- (rev_involutive ns), Hn.
    + intros Hall. destruct k as [|k].
      { split; [done|]. intros ->. destruct (Hall []) as (b & Hb & Hres).
        rewrite Hr in Hres. cbn in Hres. rewrite app_nil_r in Hres. by apply Hb. }
      exfalso. destruct (Hall (replicate (S k) "/")) as (b & Hb & Hres).
      rewrite Hr, drop_ge, app_nil_r in Hres by by rewrite length_replicate.
      assert (Hin : "/" ∈ ns).
      { rewrite list_elem_of_In, in_rev, Hres, <- list_elem_of_In.
        apply elem_of_app. right. by left. }
      rewrite Forall_forall in Hns. by destruct (Hns _ Hin) as (_ & _ & _ & ?).
Qed.

(* ------------------------------------------------------------------ *)
(** ** The generated files *)

Definition free_of_char (c : ascii) (s : string) : bool := str_forallb (λ d, negb (Ascii.eqb c d)) s.

(** Nothing is replaced in a text without the pattern's first character. *)
Lemma str_replace_after c q m p s :
  free_of_char c p = true →
  str_replace (String c q) m (p +:+ s) = p +:+ str_replace (String c q) m s.
Proof.
  unfold free_of_char. induction p as [|d p IH]; [done|].
  cbn [str_forallb]. intros [Hd Hp]%andb_true_iff. apply negb_true_iff in Hd.
  change (String d p +:+ s) with (String d (p +:+ s)). unfold str_replace in *.
  cbn [replace_go]. rewrite starts_with_cons, Hd. cbn [andb]. by rewrite (IH Hp).
Qed.

Lemma own_marker_kept p s dir :
  free_of_char "_" p = true →
  is_own_generated_unit (str_replace WRAPPER_DIR_PLACEHOLDER dir (p +:+ OWN_MARKER +:+ s)) = true.
Proof.
  intros Hp. unfold is_own_generated_unit, WRAPPER_DIR_PLACEHOLDER.
  rewrite str_replace_after by done. rewrite str_replace_after by done.
  apply contains_spec. by eexists p, _.
Qed.

Lemma service_own d w dir :
  is_own_generated_unit (str_replace WRAPPER_DIR_PLACEHOLDER dir (service d w)) = true.
Proof. by apply (own_marker_kept (unlines ["[Unit]"] +:+ "# ")). Qed.

Lemma timer_own d n c dir :
  is_own_generated_unit (str_replace WRAPPER_DIR_PLACEHOLDER dir (timer d n c)) = true.
Proof. by apply (own_marker_kept (unlines ["[Unit]"] +:+ "# ")). Qed.

Lemma plist_own l w i a dir :
  is_own_generated_unit (str_replace WRAPPER_DIR_PLACEHOLDER dir (plist l w i a)) = true.
Proof.
  by apply (own_marker_kept (unlines
    [ quoted "<?xml version=`1.0` encoding=`UTF-8`?>";
      quoted "<!DOCTYPE plist PUBLIC `-//Apple//DTD PLIST 1.0//EN`";
      quoted "  `http://www.apple.com/DTDs/PropertyList-1.0.dtd`>" ] +:+ "<!-- ")).
Qed.

#[local] Opaque service timer plist wrapper.

(** The names of the units a platform installs. *)
Definition unit_names (p : Platform) : list string :=
  match p with
  | Cron => []
  | Launchd => take 3 LEGACY_NAMES
  | Systemd => drop 3 LEGACY_NAMES
  end.

(** The commands behind the wrappers that are not time checks themselves. *)
Definition wrapper_command (p : Platform) (bin name : string) : option (list string) :=
  if (name =? "symeraseme-tick.sh")%string then Some (tick_command bin)
  else if (name =? "symeraseme-rescan.sh")%string then
    Some (tick_command bin ++ match p with Cron => ["--dry-run"] | _ => [] end)
  else if (name =? "symeraseme-poll.sh")%string then
    match p with Cron => None | _ => Some [bin; "poll-inbox"; "--output"; "json"] end
  else None.

Section generate.
Context `{SchedulerHost}.

Definition config_platform (cfg : Config) : Platform := default detect_platform (platform cfg).

(** The directory the jobs run in. *)
Definition job_directory (cfg : Config) : result SchedulerError string :=
  if is_empty (project_dir cfg) then map_err ResolveProjectDirectory working_directory
  else Ok (project_dir cfg).

Lemma find_none_forallb {A} (p : A → bool) l :
  List.find (λ x, negb (p x)) l = None ↔ forallb p l = true.
Proof.
  induction l as [|x l IH]; [done|]. cbn. destruct (p x); cbn; [apply IH|done].
Qed.

Lemma generate_Ok cfg files :
  generate cfg = Ok files ↔
  valid_tick_time cfg = true ∧ forallb valid_hour (effective_poll_hours cfg) = true ∧
  ∃ bin dir, resolve_binary_path (binary_path cfg) = Ok bin ∧ job_directory cfg = Ok dir ∧
    files = platform_generate (config_platform cfg) cfg bin dir (effective_poll_hours cfg).
Proof.
  unfold generate, job_directory. rewrite <- find_none_forallb.
  fold (config_platform cfg). generalize (platform_generate (config_platform cfg)) as g. intros g.
  destruct (valid_tick_time cfg); cbn; [|naive_solver].
  destruct (List.find _ _); cbn; [naive_solver|].
  destruct (resolve_binary_path _) as [bin|]; cbn; [|naive_solver].
  destruct (is_empty (project_dir cfg)); cbn;
    [destruct (map_err _ _) as [dir|]; cbn; [|naive_solver]|]; naive_solver.
Qed.

(** Looking a name up in a map given by its entries. *)
Fixpoint assoc {A} (name : string) (l : list (string * A)) : option A :=
  match l with
  | [] => None
  | (n, a) :: l' => if (n =? name)%string then Some a else assoc name l'
  end.

Lemma lookup_assoc {A} (l : list (string * A)) name :
  (list_to_map l : gmap string A) !! name = assoc name l.
Proof.
  induction l as [|[n a] l IH]; [apply lookup_empty|]. cbn [list_to_map foldr assoc].
  destruct (String.eqb_spec n name) as [->|Hne]; [apply lookup_insert_eq|].
  by etrans; [apply lookup_insert_ne|apply IH].
Qed.

(** Generation succeeds exactly for a valid time of day, hours of the day and
    paths that can be resolved; then every wrapper of the platform (but the time
    check of cron's poll) is read by a shell as: stop on errors, activate the
    environment if one is given, say that no user is present, go to the
    project's directory and become the chosen binary with the command's
    arguments; whatever characters the paths hold. *)
Theorem generate_wrappers cfg files :
  generate cfg = Ok files →
  ∃ bin dir, resolve_binary_path (binary_path cfg) = Ok bin ∧ job_directory cfg = Ok dir ∧
    (no_nul bin = true → no_nul dir = true → no_nul (venv_activate cfg) = true →
     ∀ name command, wrapper_command (config_platform cfg) bin name = Some command →
       (sh_script <$> files !! name) = Some (Some (wrapper_commands command dir (venv_activate cfg)))).
Proof.
  intros (_ & _ & bin & dir & Hbin & Hdir & ->)%generate_Ok.
  exists bin, dir. split_and!; [done|done|]. intros Nb Nd Nv name command.
  unfold wrapper_command, platform_generate.
  destruct (String.eqb_spec name "symeraseme-tick.sh") as [->|_];
    [|destruct (String.eqb_spec name "symeraseme-rescan.sh") as [->|_];
      [|destruct (String.eqb_spec name "symeraseme-poll.sh") as [->|_]; [|done]]];
    destruct (config_platform cfg); intros [= <-];
    unfold cron_generate, launchd_generate, systemd_generate; rewrite lookup_assoc;
    cbn [assoc String.eqb Ascii.eqb Bool.eqb fmap option_fmap option_map]; f_equal;
    apply sh_script_wrapper; cbn [forallb tick_command app]; by rewrite ?Nb.
Qed.

(** Every unit of the platform is generated, and is recognised as its own after
    the placeholder is replaced by any directory. *)
Lemma generated_units_own cfg files dir name :
  generate cfg = Ok files → name ∈ unit_names (config_platform cfg) →
  ∃ text, files !! name = Some text ∧
    is_own_generated_unit (str_replace WRAPPER_DIR_PLACEHOLDER dir text) = true.
Proof.
  intros (_ & _ & bin & prj & _ & _ & ->)%generate_Ok.
  unfold platform_generate. intros Hin. revert name Hin. apply Forall_forall.
  destruct (config_platform cfg); unfold launchd_generate, systemd_generate; [constructor| |];
    cbn [unit_names LEGACY_NAMES take drop];
    repeat (apply List.Forall_cons || apply List.Forall_nil);
    rewrite lookup_assoc; cbn [assoc String.eqb Ascii.eqb Bool.eqb];
    eexists; (split; [reflexivity|]).
  all: first [simple apply plist_own|simple apply service_own|simple apply timer_own].
Qed.

(** Which units a generated file can be. *)
Lemma generated_names cfg files name :
  generate cfg = Ok files → is_Some (files !! name) →
  name ∈ unit_names (config_platform cfg) ++
    ["symeraseme-tick.sh"; "symeraseme-poll.sh"; "symeraseme-rescan.sh"; "install.sh"; "uninstall.sh";
     "crontab.txt"].
Proof.
  intros (_ & _ & bin & prj & _ & _ & ->)%generate_Ok.
  assert (Hassoc : ∀ l : list (string * string), is_Some (assoc name l) → name ∈ l.*1).
  { induction l as [|[n a] l IH]; cbn; [by intros []|].
    destruct (String.eqb_spec n name) as [->|_]; [by left|]. intros Hn. right. by apply IH. }
  unfold platform_generate. destruct (config_platform cfg);
    unfold cron_generate, launchd_generate, systemd_generate; rewrite lookup_assoc;
    intros Hin%Hassoc; cbn [fmap list_fmap fst] in Hin;
    rewrite !elem_of_cons in Hin; cbn [unit_names LEGACY_NAMES take drop app];
    rewrite !elem_of_cons; destruct_or?; subst; try (by apply elem_of_nil in Hin); tauto.
Qed.

End generate.

(** *** The hours at which cron's wrapper polls *)

Definition poll_patterns (hours : list Z) : string := join "|" ((λ hour, pad2 hour +:+ ":00") <$> hours).

Definition clock_text (hour minute : Z) : string := pad2 hour +:+ ":" +:+ pad2 minute.

Definition two_digits : list string := pad2 <$> seqZ 0 60.

Lemma two_digits_NoDup : NoDup two_digits.
Proof. apply (bool_decide_unpack _). vm_compute. exact I. Qed.

Lemma two_digits_shape : Forall (λ s, String.length s = 2%nat ∧ contains "|" s = false) two_digits.
Proof. apply (bool_decide_unpack _). vm_compute. exact I. Qed.

Lemma pad2_in n : 0 ≤ n < 60 → two_digits !! Z.to_nat n = Some (pad2 n).
Proof.
  intros Hn. unfold two_digits. rewrite list_lookup_fmap, lookup_seqZ_lt by lia. cbn. do 2 f_equal. lia.
Qed.

Lemma pad2_inj m n : 0 ≤ m < 60 → 0 ≤ n < 60 → pad2 m = pad2 n → m = n.
Proof.
  intros Hm Hn Heq.
  pose proof (NoDup_lookup _ _ _ _ two_digits_NoDup (pad2_in m Hm)
    (eq_trans (pad2_in n Hn) (f_equal Some (eq_sym Heq)))). lia.
Qed.

Lemma pad2_shape n : 0 ≤ n < 60 → String.length (pad2 n) = 2%nat ∧ contains "|" (pad2 n) = false.
Proof.
  intros Hn. pose proof two_digits_shape as Hall. rewrite Forall_lookup in Hall.
  apply (Hall _ _ (pad2_in n Hn)).
Qed.

(** Cron runs the poll wrapper every hour, and the wrapper's case patterns
    accept exactly the configured hours: a time of day is one of the patterns
    when its minute is zero and its hour is configured. *)
Theorem poll_patterns_spec hours h m :
  hours ≠ [] → forallb valid_hour hours = true → 0 ≤ h < 24 → 0 ≤ m < 60 →
  clock_text h m ∈ split "|" (poll_patterns hours) ↔ m = 0 ∧ h ∈ hours.
Proof.
  intros Hne Hv Hh Hm. unfold poll_patterns.
  assert (Hvalid : ∀ x, x ∈ hours → 0 ≤ x < 24).
  { intros x Hx. rewrite forallb_forall in Hv. specialize (Hv x (proj1 (list_elem_of_In _ _) Hx)).
    unfold valid_hour in Hv. lia. }
  rewrite (split_join "|"); [|by destruct hours|].
  - rewrite list_elem_of_fmap. split.
    + intros (x & Heq & Hx). unfold clock_text in Heq. pose proof (Hvalid x Hx) as Hxr.
      destruct (pad2_shape h) as [Lh _]; [lia|]. destruct (pad2_shape x) as [Lx _]; [lia|].
      destruct (pad2 h) as [|a1 [|a2 [|]]] eqn:Eh; try done.
      destruct (pad2 x) as [|b1 [|b2 [|]]] eqn:Ex; try done. cbn in Heq.
      injection Heq as -> -> Hmm. split; [|by rewrite <- (pad2_inj x h); [|lia|lia|congruence]].
      apply pad2_inj; [lia|lia|]. by rewrite Hmm.
    + intros [-> Hx]. by exists h.
  - rewrite Forall_fmap. apply Forall_forall. intros x Hx. cbn.
    destruct (pad2_shape x) as [_ Hb]; [specialize (Hvalid x Hx); lia|].
    apply contains_char_false in Hb. rewrite str_forallb_app, Hb. done.
Qed.

Definition ends_in (t s : string) : Prop := ∃ before, s = before +:+ t.

Lemma ends_in_app t u s : ends_in t s → ends_in t (u +:+ s).
Proof. intros [v ->]. exists (u +:+ v). by rewrite string_app_assoc. Qed.

(** The patterns are where the shell's [case] reads them. *)
Lemma poll_wrapper_patterns bin dir venv hours :
  ends_in (quoted "case `$CURRENT_HHMM` in" +:+ nl +:+ poll_patterns hours +:+ ")" +:+ nl +:+
           "    exec " +:+ shell_quote bin +:+ " poll-inbox --output json" +:+ nl +:+
           "    ;;" +:+ nl +:+ "esac" +:+ nl)
    (poll_wrapper bin dir venv hours).
Proof. unfold poll_wrapper. do 18 simple apply ends_in_app. by exists "". Qed.
