(* ===== verification/SchedulerInstall.v ===== *)
(** Writing, scanning, installing and removing scheduler units: the file system
    part of [engine/scheduler/mod.rs], and [install.rs].

    Programs run on the operating system of [Disk].  The process keeps the
    staging counter of [staging_path] and a world [outside] of its own, which
    the platform's commands act on: a [Runner] is a program over both.  The
    [tempfile] crate's choice of a name is the class [TempFile]; the commands of
    [ExecRunner] go through [ProcessOutput]. *)
From S2P Require Import Prelude.
From S2P Require Import Text.
From S2P Require Import Identity.
From S2P Require Import MailParse.
From S2P Require Import Encryption.
From S2P Require Import Disk.
From S2P Require Import Scheduler.
From Stdlib Require Import Ascii Strings.Byte.

Record proc (X : Type) := Proc { sequence : Z; outside : X }.
Arguments Proc {X} sequence outside.
Arguments sequence {X} p.
Arguments outside {X} p.

(** The file name [NamedTempFile] chooses in a directory, and the mode bits of a
    directory, which the disk does not keep. *)
Class TempFile := { temp_name : os → string → string; dir_mode : string → Z }.

(** [std::process::Output]. *)
Record Output := { out_success : bool; out_code : option Z; out_stdout : bytes; out_stderr : bytes }.

Class ProcessOutput (X : Type) := {
  command_output : string → list string → io (proc X) ioError Output;
}.

(** [option.filter(|s| !s.is_empty())] *)
Definition nonempty (s : string) : option string := if is_empty s then None else Some s.

Definition text_bytes (s : string) : bytes := list_byte_of_string s.
Definition lossy (c : bytes) : string := from_utf8_lossy (string_of_list_byte c).

(** A [BTreeMap]'s entries. *)
Definition btree (files : gmap string string) : list (string * string) :=
  sort_by (λ a b, str_leb a.1 b.1) (map_to_list files).

(* ------------------------------------------------------------------ *)
(** ** System calls of [std::fs] that [Disk] does not have *)

Section calls.
Context {P : Type} `{Disk.Env}.

(** [fs::metadata(path)?.permissions().mode()]. *)
Definition path_mode `{TempFile} (path : string) : io P ioError Z :=
  atomically (λ s,
    let d := now_disk s in
    (if bool_decide (path ∈ dirs d) then Ok (dir_mode path)
     else ok_or (os_error NotFound) (i ← names d !! path; f ← Disk.files d !! i; Some (mode f)),
     d, locked s)).

(** [fs::set_permissions(path, mode)]. *)
Definition set_permissions (path : string) (m : Z) : io P ioError () :=
  atomically (λ s,
    let d := now_disk s in
    match names d !! path with
    | Some i =>
        (Ok (), match Disk.files d !! i with
                | Some f => with_file d i (File (data f) (synced f) (mtime f) m)
                | None => d
                end, locked s)
    | None => (Err (os_error NotFound), d, locked s)
    end).

(** [File::create(path)]: an existing file is emptied. *)
Definition file_create (path : string) : io P ioError nat :=
  atomically (λ s,
    let d := now_disk s in
    if bool_decide (dir_of path ∉ dirs d) then (Err (os_error NotFound), d, locked s)
    else if bool_decide (path ∈ dirs d) then (Err (os_error OtherKind), d, locked s)
    else match names d !! path with
    | Some i =>
        (Ok i, with_file d i (File [] false (clock (steps s))
                 (default 420 (mode <$> Disk.files d !! i))), locked s)
    | None =>
        let i := new_inode s in
        (Ok i, with_file (with_names d (<[path := i]> (names d)) [(path, None)]) i
                 (File [] false (clock (steps s)) 420), locked s)
    end).

(** [fs::write(path, contents)]. *)
Definition fs_write (path : string) (contents : bytes) : io P ioError () :=
  h ← file_create path;
  write_all h contents.

(** [path.is_file()]: any error counts as no. *)
Definition is_file_path {E} (path : string) : io P E bool := λ w,
  let '(r, w) := metadata path w in
  (Ok match r with Ok (is_dir, _) => negb is_dir | Err _ => false end, w).

End calls.

(* ------------------------------------------------------------------ *)
(** ** Writing files *)

Section files.
Context {P : Type} `{Disk.Env} `{SchedulerHost} `{TempFile}.

(** [env::temp_dir]. *)
Definition temp_dir : string := default "/tmp" (env_var "TMPDIR").

(** [NamedTempFile::new_in(parent)], or [new()]: the path and the open file. *)
Definition named_temp_file (parent : option string) : io P ioError (string * nat) := λ w,
  let dir := default temp_dir parent in
  let path := path_join dir (temp_name (system w) dir) in
  (h ← create_new path; mret (path, h)) w.

(** Dropping a [NamedTempFile] that was not persisted unlinks it. *)
Definition unlink_on_error {E A} (path : string) (m : io P E A) : io P E A :=
  r ← try m;
  match r with
  | Ok a => mret a
  | Err e => ignore (remove_file path) ;; throw e
  end.

Definition write_with_mode (path : string) (contents : bytes) (mode : Z) : io P ioError () :=
  existing ← try (path_mode path);
  mode ← match existing with
         | Ok bits => mret (Z.land bits 511)
         | Err error => if bool_decide (kind error = NotFound) then mret mode else throw error
         end;
  '(temporary, h) ← named_temp_file (nonempty_parent path);
  unlink_on_error temporary
    (write_all h contents ;; set_permissions temporary mode ;; rename temporary path).

(** [contents] go to [root.join(clean_relative(name))]. *)
Definition target_path (root name : string) : string := path_join root (clean_relative name).

Definition file_mode (name : string) : Z := if ends_with ".sh" name then 493 else 420.

Fixpoint write_each (root : string) (files : list (string * string)) (written : list string) :
    io P SchedulerError (list string) :=
  match files with
  | [] => mret written
  | (name, contents) :: files' =>
      let path := target_path root name in
      map_error (WriteFile path) (write_with_mode path (text_bytes contents) (file_mode name)) ;;
      write_each root files' (written ++ [path])
  end.

Definition output_root (output_dir : string) : result SchedulerError string :=
  lexically_clean <$>
    (if starts_with "/" output_dir then Ok output_dir
     else (λ dir, path_join dir output_dir) <$> map_err ResolveOutputDirectory current_dir).

Definition write_files (output_dir : string) (files : gmap string string) :
    io P SchedulerError (list string) :=
  if is_empty output_dir then throw EmptyOutputDirectory
  else
    root ← of_result (output_root output_dir);
    map_error CreateOutputDirectory (create_dir_all root) ;;
    match List.find (λ name, negb (is_safe_relative_filename name)) (btree files).*1 with
    | Some name => throw (InvalidGeneratedFilename name)
    | None => write_each root (btree files) []
    end.

End files.

(* ------------------------------------------------------------------ *)
(** ** Scanning *)

Section scan.
Context {P : Type} `{Disk.Env} `{SchedulerHost} `{CharLower}.

(** [match fs::read(path)]: a missing file apart from other errors. *)
Definition read_existing {E} (f : ioError → E) (path : string) : io P E (option bytes) :=
  r ← try (read path);
  match r with
  | Ok c => mret (Some c)
  | Err error => if bool_decide (kind error = NotFound) then mret None else throw (f error)
  end.

Definition detect_legacy_python_unit (path : string) : io P ioError bool :=
  c ← read_existing id path;
  mret (match c with Some c => is_python_scheduler_content (lossy c) | None => false end).

Definition PYTHON_REASON : string :=
  "existing Python scheduler unit; explicit replacement required".
Definition SYMAIRA_REASON : string :=
  "existing Symaira scheduler unit; explicit replacement required".

Fixpoint detect_legacy_python_units (paths : list string) (units : list LegacyUnit) :
    io P ioError (list LegacyUnit) :=
  match paths with
  | [] => mret units
  | path :: paths' =>
      c ← read_existing id path;
      detect_legacy_python_units paths'
        (match c with
         | Some c =>
             if is_python_scheduler_content (lossy c) then
               units ++ [{| lu_platform := None; lu_kind := ""; lu_name := ""; lu_path := path;
                            lu_is_python := true; lu_reason := PYTHON_REASON |}]
             else units
         | None => units
         end)
  end.

Definition resolve_home_dir : result ioError string :=
  match env_var "HOME" with
  | Some value =>
      if is_empty value then Err (IoError NotFound "$HOME is not defined") else Ok value
  | None => Err (IoError NotFound "$HOME is not defined")
  end.

(** What the loop over the known names does with one unit's content. *)
Definition legacy_unit (platform : Platform) (name path : string) (c : bytes) : option LegacyUnit :=
  let is_python := is_python_scheduler_content (lossy c) in
  if is_own_generated_unit (lossy c) then None
  else Some {| lu_platform := Some platform; lu_kind := Platform_str platform; lu_name := name;
               lu_path := path; lu_is_python := is_python;
               lu_reason := if is_python then PYTHON_REASON else SYMAIRA_REASON |}.

Fixpoint scan_names (platform : Platform) (root : string) (names : list string)
    (units : list LegacyUnit) : io P SchedulerError (list LegacyUnit) :=
  match names with
  | [] => mret units
  | name :: names' =>
      let path := path_join root name in
      c ← read_existing (ReadLegacyUnit path) path;
      scan_names platform root names'
        (units ++ option_list (c ≫= legacy_unit platform name path))
  end.

Definition scan_legacy_python_units (home : option string) (platform : option Platform) :
    io P SchedulerError (list LegacyUnit) :=
  home_dir ← of_result match home ≫= nonempty with
                       | Some value => Ok value
                       | None => map_err ResolveHomeDirectory resolve_home_dir
                       end;
  match default detect_platform platform with
  | Launchd =>
      scan_names Launchd (path_join (path_join home_dir "Library") "LaunchAgents")
        (take 3 LEGACY_NAMES) []
  | Systemd =>
      scan_names Systemd (path_join (path_join (path_join home_dir ".config") "systemd") "user")
        (take 6 (drop 3 LEGACY_NAMES)) []
  | Cron => mret []
  end.

End scan.

(* ------------------------------------------------------------------ *)
(** ** Commands *)

#[export] Instance io_fmap P E : FMap (io P E) := λ A B f m, a ← m; mret (f a).

(** A [Runner] over the world [X]. *)
Definition Runner (X : Type) : Type := string → list string → io (proc X) ioError bytes.

Record InstallOptions (X : Type) := {
  config : Config;
  platform_name : option string;
  home_dir : option string;
  xdg_config_home : option string;
  replace_legacy : bool;
  runner : option (Runner X);
}.
Arguments config {X} i.
Arguments platform_name {X} i.
Arguments home_dir {X} i.
Arguments xdg_config_home {X} i.
Arguments replace_legacy {X} i.
Arguments runner {X} i.

Definition InstallOptions_new {X} (config : Config) : InstallOptions X :=
  {| config := config; platform_name := None; home_dir := None; xdg_config_home := None;
     replace_legacy := false; runner := None |}.

Record InstallResult := {
  ir_platform : Platform;
  ir_output_dir : string;
  ir_files : list string;
  ir_legacy : list LegacyUnit;
  ir_replacement_required : bool;
}.

Record StatusEntry := {
  se_label : string;
  se_installed : bool;
  se_active : bool;
  se_path : string;
  se_legacy : bool;
  se_error : string;
}.

Record StatusResult := { sr_platform : Platform; sr_entries : list StatusEntry }.

Definition remove_cron_lines : bool → list string → list string :=
  fix go skip lines :=
    match lines with
    | [] => []
    | line :: lines' =>
        if (line =? "# Symaira EraseMe scheduled tasks")%string then go true lines'
        else if (line =? "# End Symaira EraseMe scheduled tasks")%string then go false lines'
        else if skip then go skip lines' else line :: go skip lines'
    end.

Definition remove_cron_block (content : string) : string :=
  join nl (remove_cron_lines false (split "010" content)).

Definition CRON_WRAPPER_TOKEN : string := "{wrapper_dir}".

(** [install.rs]'s own copy, with Unicode's full lower casing. *)
Definition install_is_python_scheduler_content `{Lowercase} (content : string) : bool :=
  let lower := to_lowercase content in
  if existsb (λ marker, contains marker lower) MARKERS then true
  else contains LEGACY_MARKER content && negb (contains OWN_MARKER content).

Definition status_unit_names (platform : Platform) : list string :=
  match platform with
  | Launchd => ["com.symeraseme.tick.plist"; "com.symeraseme.poll.plist"; "com.symeraseme.rescan.plist"]
  | _ => ["symeraseme-tick.timer"; "symeraseme-poll.timer"; "symeraseme-rescan.timer"]
  end.

Definition unit_short_names : list string := ["symeraseme-tick"; "symeraseme-poll"; "symeraseme-rescan"].

(** [name.trim_start_matches("symeraseme-")]: as often as it stands there. *)
Fixpoint trim_start_matches (fuel : nat) (p s : string) : string :=
  match fuel with
  | O => s
  | S fuel => match strip_prefix p s with Some s' => trim_start_matches fuel p s' | None => s end
  end.

Definition launchd_label (name : string) : string :=
  "com.symeraseme." +:+ trim_start_matches (String.length name) "symeraseme-" name.

Section install.
Context {X : Type} `{Disk.Env} `{SchedulerHost} `{TempFile} `{CharLower} `{Lowercase} `{RustFmt}
  `{!ProcessOutput X}.

Notation prog := (io (proc X) SchedulerError).

Definition missing_executable (name : string) : ioError :=
  IoError NotFound ("exec: " +:+ debug_str name +:+ ": executable file not found in $PATH").

Definition look_path (name : string) : result ioError string :=
  if contains "/" name then Ok name
  else
    path ← ok_or (missing_executable name) (env_var "PATH");
    if is_empty path then Err (missing_executable name)
    else
      ok_or (missing_executable name)
        (List.find is_executable_file
           ((λ dir, path_join dir name) <$> List.filter (λ dir, negb (is_empty dir)) (split_paths path))).

(** [ExecRunner]. *)
Definition exec_runner : Runner X := λ name args,
  program ← of_result (look_path name);
  output ← command_output program args;
  let combined := out_stdout output ++ out_stderr output in
  if negb (out_success output) then
    throw (io_other ("exit status " +:+ show (default (-1) (out_code output)) +:+ ": "
                     +:+ trim_end (lossy combined)))
  else mret combined.

Definition run (options : InstallOptions X) : Runner X :=
  match runner options with Some r => r | None => exec_runner end.

Definition resolve_home (options : InstallOptions X) : result SchedulerError string :=
  match home_dir options with
  | Some home => Ok home
  | None => ok_or (ResolveHomeDirectory (io_other "no HOME")) (env_var "HOME")
  end.

Definition install_root (options : InstallOptions X) (platform : Platform) :
    result SchedulerError string :=
  home ← resolve_home options;
  if bool_decide (platform = Launchd)
  then Ok (path_join (path_join home "Library") "LaunchAgents")
  else
    let config_home :=
      match xdg_config_home options, home_dir options with
      | None, None => env_var "XDG_CONFIG_HOME"
      | config_home, _ => config_home
      end in
    Ok (path_join (path_join (default (path_join home ".config") config_home) "systemd") "user").

Definition resolve_platform (options : InstallOptions X) : result SchedulerError Platform :=
  match platform_name options with
  | Some name => Platform_from_name name
  | None => Ok (default detect_platform (platform (config options)))
  end.

(** [as_nanos() as u64], zero before the epoch. *)
Definition nanos (t : Z) : Z := if t <? 0 then 0 else t mod 2 ^ 64.

Definition staging_path (dir prefix : string) : prog string :=
  t ← system_time;
  p ← get_process;
  modify_process (λ p, Proc ((sequence p + 1) mod 2 ^ 64) (outside p)) ;;
  let path := path_join dir (prefix +:+ show (nanos t) +:+ show (sequence p)) in
  map_error CreateOutputDirectory (create_dir_all dir) ;;
  mret path.

(** The part [install_cron] and [uninstall] share: write the staging file, run
    [crontab] on it, remove it. *)
Definition apply_crontab (options : InstallOptions X) (staging content : string) : prog () :=
  map_error (WriteCronStaging staging) (fs_write staging (text_bytes content)) ;;
  result ← try (run options "crontab" [staging]);
  ignore (remove_file staging) ;;
  of_result (map_err InstallCrontab ((λ _, ()) <$> result)).

Definition updated_crontab (existing content output_dir : string) : string :=
  let updated := remove_cron_block existing in
  (if negb (is_empty updated) && negb (ends_with nl updated) then updated +:+ nl else updated)
  +:+ str_replace CRON_WRAPPER_TOKEN output_dir content.

Definition install_cron (options : InstallOptions X) (generated : gmap string string)
    (output_dir : string) : prog () :=
  existing ← try (run options "crontab" ["-l"]);
  let existing := lossy (default [] (ok existing)) in
  let updated := updated_crontab existing (default "" (generated !! "crontab.txt")) output_dir in
  staging ← staging_path output_dir ".crontab-";
  apply_crontab options staging updated.

Definition is_native_unit (platform : Platform) (name : string) : bool :=
  ends_with (if bool_decide (platform = Systemd) then ".service" else ".plist") name
  || (bool_decide (platform = Systemd) && ends_with ".timer" name).

Definition install_native_units (generated : gmap string string) (root output_dir : string)
    (platform : Platform) : prog () :=
  for_each (List.filter (λ e, is_native_unit platform e.1) (btree generated)) (λ '(name, content),
    let path := path_join root name in
    map_error (WriteNativeUnit path)
      (write_with_mode path (text_bytes (str_replace WRAPPER_DIR_PLACEHOLDER output_dir content)) 420)).

(** [match fs::remove_file(path)]: a missing file is no error. *)
Definition remove_existing (f : ioError → SchedulerError) (path : string) : prog () :=
  r ← try (remove_file path);
  match r with
  | Ok _ => mret ()
  | Err error => if bool_decide (kind error = NotFound) then mret () else throw (f error)
  end.

Definition load_launchd_units (options : InstallOptions X) (root : string) : prog () :=
  for_each unit_short_names (λ short,
    let name := launchd_label short +:+ ".plist" in
    let path := path_join root name in
    ignore (run options "launchctl" ["unload"; path]) ;;
    (λ _, ()) <$> (map_error (LoadLaunchdUnit name) (run options "launchctl" ["load"; path]))).

Definition enable_systemd_timers (options : InstallOptions X) : prog () :=
  (λ _, ()) <$> (map_error SystemctlDaemonReload (run options "systemctl" ["--user"; "daemon-reload"])) ;;
  for_each unit_short_names (λ short,
    let timer := short +:+ ".timer" in
    (λ _, ()) <$> (map_error (EnableSystemdTimer timer)
      (run options "systemctl" ["--user"; "enable"; "--now"; timer]))).

Definition install (options : InstallOptions X) : prog InstallResult :=
  platform ← of_result (resolve_platform options);
  let cfg := config options in
  let output_dir :=
    if is_empty (output_dir cfg) then output_dir Config_default else output_dir cfg in
  let cfg :=
    {| platform := Some platform; output_dir := output_dir; tick_hour := tick_hour cfg;
       tick_minute := tick_minute cfg; poll_hours := poll_hours cfg; project_dir := project_dir cfg;
       binary_path := binary_path cfg; venv_activate := venv_activate cfg |} in
  legacy ← scan_legacy_python_units (home_dir options) (Some platform);
  if negb (bool_decide (legacy = [])) && negb (replace_legacy options)
  then throw LegacyUnitsDetected
  else
    generated ← of_result (generate cfg);
    written ← write_files output_dir generated;
    let result :=
      {| ir_platform := platform; ir_output_dir := output_dir; ir_files := written;
         ir_legacy := legacy; ir_replacement_required := negb (bool_decide (legacy = [])) |} in
    for_each legacy (λ unit_, remove_existing (RemoveLegacyUnit (lu_path unit_)) (lu_path unit_)) ;;
    if bool_decide (platform = Cron) then
      install_cron options generated output_dir ;;
      mret result
    else
      root ← of_result (install_root options platform);
      map_error CreateNativeUnitDirectory (create_dir_all root) ;;
      install_native_units generated root output_dir platform ;;
      (if bool_decide (platform = Launchd) then load_launchd_units options root
       else enable_systemd_timers options) ;;
      mret result.

Definition cron_entry (output : result ioError bytes) : StatusEntry :=
  match output with
  | Ok output =>
      let text := lossy output in
      {| se_label := "cron"; se_installed := contains "# Symaira EraseMe scheduled tasks" text;
         se_active := false; se_path := "crontab";
         se_legacy := install_is_python_scheduler_content text; se_error := "" |}
  | Err _ =>
      {| se_label := "cron"; se_installed := false; se_active := false; se_path := "crontab";
         se_legacy := false; se_error := "crontab not available or no crontab installed" |}
  end.

(** One turn of the loop over the unit names. *)
Definition unit_entry (options : InstallOptions X) (platform : Platform) (root : string)
    (units : list LegacyUnit) (short name : string) : prog StatusEntry :=
  let path := path_join root name in
  installed ← is_file_path path;
  let legacy := default false (snd <$> List.find (λ e, (e.1 =? path)%string)
                                   (rev ((λ u, (lu_path u, lu_is_python u)) <$> units))) in
  let entry active error :=
    {| se_label := short; se_installed := installed; se_active := active; se_path := path;
       se_legacy := legacy; se_error := error |} in
  match platform with
  | Launchd =>
      let label := launchd_label short in
      output ← try (run options "launchctl" ["list"; label]);
      mret match output with
           | Ok output => entry (contains label (lossy output)) ""
           | Err _ => entry false (if installed then "launchctl could not confirm active state" else "")
           end
  | _ =>
      output ← try (run options "systemctl" ["--user"; "is-active"; short +:+ ".timer"]);
      mret match output with
           | Ok output => entry (trim (lossy output) =? "active")%string ""
           | Err _ => entry false (if installed then "systemctl could not confirm active state" else "")
           end
  end.

Fixpoint unit_entries (options : InstallOptions X) (platform : Platform) (root : string)
    (units : list LegacyUnit) (names : list (string * string)) : prog (list StatusEntry) :=
  match names with
  | [] => mret []
  | (short, name) :: names' =>
      entry ← unit_entry options platform root units short name;
      entries ← unit_entries options platform root units names';
      mret (entry :: entries)
  end.

Definition status (options : InstallOptions X) : prog StatusResult :=
  platform ← of_result (resolve_platform options);
  if bool_decide (platform = Cron) then
    output ← try (run options "crontab" ["-l"]);
    mret {| sr_platform := platform; sr_entries := [cron_entry output] |}
  else
    root ← of_result (install_root options platform);
    units ← scan_legacy_python_units (home_dir options) (Some platform);
    entries ← unit_entries options platform root units
                (combine unit_short_names (status_unit_names platform));
    mret {| sr_platform := platform; sr_entries := entries |}.

Definition uninstall_cron (options : InstallOptions X) : prog () :=
  existing ← try (run options "crontab" ["-l"]);
  match existing with
  | Err _ => mret ()
  | Ok output =>
      let cleaned := remove_cron_block (lossy output) in
      staging ← staging_path temp_dir ".symeraseme-crontab-";
      apply_crontab options staging cleaned
  end.

Definition uninstall_launchd (options : InstallOptions X) (root : string) : prog () :=
  for_each unit_short_names (λ short,
    let path := path_join root (launchd_label short +:+ ".plist") in
    ignore (run options "launchctl" ["unload"; path]) ;;
    remove_existing (RemoveNativeUnit path) path).

Definition uninstall_systemd (options : InstallOptions X) (root : string) : prog () :=
  for_each unit_short_names (λ short,
    ignore (run options "systemctl" ["--user"; "disable"; "--now"; short +:+ ".timer"]) ;;
    for_each [".service"; ".timer"] (λ extension,
      let path := path_join root (short +:+ extension) in
      remove_existing (RemoveNativeUnit path) path)) ;;
  ignore (run options "systemctl" ["--user"; "daemon-reload"]).

Definition uninstall (options : InstallOptions X) : prog () :=
  platform ← of_result (resolve_platform options);
  if bool_decide (platform = Cron) then uninstall_cron options
  else
    root ← of_result (install_root options platform);
    if bool_decide (platform = Launchd) then uninstall_launchd options root
    else uninstall_systemd options root.

End install.
