(* ===== verification/SchedulerInstallFacts.v ===== *)
(** What writing, installing and removing scheduler units does to the disk and
    to the crontab, under every fault. *)
From S2P Require Import Prelude.
From S2P Require Import Text.
From S2P Require Import Identity.
From S2P Require Import MailParse.
From S2P Require Import Encryption.
From S2P Require Import Disk.
From S2P Require Import DiskFacts.
From S2P Require Import Scheduler.
From S2P Require Import SchedulerFacts.
From S2P Require Import SchedulerInstall.
From Stdlib Require Import Ascii Strings.Byte.

#[local] Notation length := List.length.

(* ------------------------------------------------------------------ *)
(** ** What the disk shows *)

(** The bytes and the mode a name shows. *)
Definition look (d : disk) (q : string) : option (bytes * Z) :=
  i ← names d !! q; f ← Disk.files d !! i; Some (data f, mode f).

Lemma content_look d q : content d q = fst <$> look d q.
Proof.
  unfold content, look. destruct (names d !! q) as [i|]; [|done]. cbn.
  by destruct (Disk.files d !! i).
Qed.

Lemma triple_when {P E A} (I : disk → Prop) (φ : Prop) (m : io P E A) Pre Q R :
  (φ → triple I Pre m Q R) → triple I (λ d l p, Pre d l p ∧ φ) m Q R.
Proof. intros Hm w [Hw Hφ]. by apply Hm. Qed.

Lemma triple_when' {P E A} (I : disk → Prop) (φ : Prop) (m : io P E A) Pre Q R :
  (φ → triple I Pre m Q R) → triple I (λ d l p, φ ∧ Pre d l p) m Q R.
Proof. intros Hm w [Hφ Hw]. by apply Hm. Qed.

Lemma triple_exists {P E A B} (I : disk → Prop) (m : io P E A) (Pre : B → assertion P) Q R :
  (∀ b, triple I (Pre b) m Q R) → triple I (λ d l p, ∃ b, Pre b d l p) m Q R.
Proof. intros Hm w [b Hw]. by apply (Hm b). Qed.

Section write.
Context {P : Type} `{Disk.Env} `{SchedulerHost} `{TempFile}.

Implicit Types V : string → option (bytes * Z).

(** A name [tempfile] may choose. *)
Definition is_temp (q : string) : Prop := ∃ s dir, q = path_join dir (temp_name s dir).

(** Apart from temporary files, the disk shows [V], with the directories [D]. *)
Context (D : gset string).

Definition shows V (d : disk) : Prop := (∀ q, ¬ is_temp q → look d q = V q) ∧ dirs d = D.

Definition overwrite V (path : string) (v : bytes * Z) : string → option (bytes * Z) :=
  λ q, if decide (q = path) then Some v else V q.

(** The mode the file gets: the one given, or the one it had. *)
Definition allowed_mode V (path : string) (mode m : Z) : Prop :=
  m = mode ∨ ∃ c0 m0, V path = Some (c0, m0) ∧ m = Z.land m0 511.

(** A staged file: an entry with the contents that no other name shares. *)
Definition staged V (temporary : string) (h : nat) (c : bytes) (m : option Z) (d : disk) : Prop :=
  shows V d ∧ names d !! temporary = Some h ∧
  (∃ f, Disk.files d !! h = Some f ∧ data f = c ∧ ∀ m', m = Some m' → mode f = m') ∧
  ∀ q, q ≠ temporary → names d !! q ≠ Some h.

Lemma look_with_file d i f q :
  names d !! q ≠ Some i → look (with_file d i f) q = look d q.
Proof.
  intros Hq. unfold look. cbn. destruct (names d !! q) as [j|]; [|done]. cbn.
  rewrite lookup_insert_ne; [done|]. naive_solver.
Qed.

Lemma shows_create V d p i f o :
  is_temp p → unused d i → shows V d →
  shows V (with_file (with_names d (<[p := i]> (names d)) o) i f).
Proof.
  intros Hp [Hi Hun] [Hv HD]. split; [|done]. intros q Hq. rewrite <- (Hv q Hq).
  assert (Hpq : p ≠ q) by by intros ->.
  rewrite look_with_file; cbn; rewrite ?lookup_insert_ne by done.
  - unfold look. cbn. by rewrite lookup_insert_ne.
  - intros Hn. apply (Hun q). by left.
Qed.

Lemma staged_file V temporary h c m d f :
  staged V temporary h c m d → is_temp temporary →
  ∀ c' m', data f = c' → (∀ x, m' = Some x → mode f = x) →
  staged V temporary h c' m' (with_file d h f).
Proof.
  intros (Hv & Hn & _ & Hu) Ht c' m' Hc Hm. split_and!.
  - destruct Hv as [Hv HD]. split; [|done]. intros q Hq. rewrite <- (Hv q Hq).
    apply look_with_file, Hu. by intros ->.
  - done.
  - exists f. cbn. by rewrite lookup_insert_eq.
  - done.
Qed.

Lemma triple_path_mode V path (p0 : P) :
  ¬ is_temp path →
  triple (shows V) (λ d _ p, shows V d ∧ p = p0) (path_mode path)
    (λ bits d _ p, shows V d ∧ p = p0 ∧ (path ∉ D → ∃ c, V path = Some (c, bits)))
    (λ _ d _ p, shows V d ∧ p = p0).
Proof.
  intros Hp. apply triple_atomically; [naive_solver|].
  intros s p [Hv ->]. cbv zeta. split; [done|].
  case_bool_decide as Hd; cbn; [split; [done|split; [done|]]; by destruct Hv as [_ <-]|].
  destruct Hv as [Hv HD]. specialize (Hv path Hp) as Hl. unfold look in Hl.
  destruct (names (now_disk s) !! path) as [i|]; cbn in *; [|done].
  destruct (Disk.files (now_disk s) !! i) as [f|]; cbn in *; [|done].
  split; [done|split; [done|]]. intros _. by exists (data f).
Qed.

Lemma triple_named_temp_file V parent (p0 : P) :
  triple (shows V) (λ d _ p, shows V d ∧ p = p0) (named_temp_file parent)
    (λ th d _ p, is_temp th.1 ∧ staged V th.1 th.2 [] None d ∧ p = p0)
    (λ _ d _ p, shows V d ∧ p = p0).
Proof.
  unfold named_temp_file. set (dir := default temp_dir parent).
  intros w Hw.
  enough (G : triple (shows V) (λ d _ p, shows V d ∧ p = p0)
    (create_new (path_join dir (temp_name (system w) dir)))
    (λ h d _ p, staged V (path_join dir (temp_name (system w) dir)) h [] None d ∧ p = p0)
    (λ _ d _ p, shows V d ∧ p = p0)).
  { set (tp := path_join dir _) in *. assert (Ht : is_temp tp) by by exists (system w), dir.
    refine (triple_bind _ _ (λ h, mret (tp, h)) _ _ (λ th d _ p, is_temp th.1 ∧ staged V th.1 th.2 [] None d ∧ p = p0) _ G _ w Hw).
    intros h. apply triple_ret. naive_solver. }
  apply triple_atomically; [naive_solver|]. intros s p [Hv ->]. cbv zeta.
  case_bool_decide; [done|]. case_bool_decide as Hex; [done|].
  destruct (new_inode_unused s) as [Hun _].
  assert (Ht : is_temp (path_join dir (temp_name (system w) dir))) by by exists (system w), dir.
  set (tp := path_join dir _) in *. set (i := new_inode s) in *.
  assert (Hs : shows V (with_file (with_names (now_disk s) (<[tp:=i]> (names (now_disk s)))
    [(tp, None)]) i (File [] false (clock (steps s)) 384))) by by apply shows_create.
  split; [done|]. split; [|done]. split_and!; [done|cbn; by rewrite lookup_insert_eq| |].
  - eexists. cbn. by rewrite lookup_insert_eq.
  - intros q Hq. cbn. rewrite lookup_insert_ne by done. intros Hn. destruct Hun as [_ Hun].
    apply (Hun q). by left.
Qed.

Lemma staged_shows V tp h c m d : staged V tp h c m d → shows V d.
Proof. by intros []. Qed.

Lemma triple_write_staged V tp h c (p0 : P) :
  is_temp tp →
  triple (shows V) (λ d _ p, staged V tp h [] None d ∧ p = p0) (write_all h c)
    (λ _ d _ p, staged V tp h c None d ∧ p = p0) (λ _ d _ p, shows V d ∧ p = p0).
Proof.
  intros Ht. assert (Hap : ∀ s c', staged V tp h [] None (now_disk s) →
    staged V tp h c' None (append_data s h c')).
  { intros s c' Hs. pose proof Hs as (Hv & Hn & (f & Hf & Hd & Hm) & Hu). unfold append_data.
    rewrite Hf. eapply staged_file; [done|done| |done]. cbn. by rewrite Hd. }
  apply triple_syscall.
  - intros s p e n [Hs ->]. eapply Hap in Hs. by split_and!; [eapply staged_shows|eapply staged_shows|].
  - intros s p [Hs ->]. eapply Hap in Hs. split; [by eapply staged_shows|done].
Qed.

Lemma triple_set_permissions V tp h c m (p0 : P) :
  is_temp tp →
  triple (shows V) (λ d _ p, staged V tp h c None d ∧ p = p0) (set_permissions tp m)
    (λ _ d _ p, staged V tp h c (Some m) d ∧ p = p0) (λ _ d _ p, shows V d ∧ p = p0).
Proof.
  intros Ht. apply triple_atomically.
  { intros d l p [Hs ->]. apply staged_shows in Hs. auto. }
  intros s p [Hs ->]. cbv zeta. pose proof Hs as (Hv & Hn & (f & Hf & Hd & _) & Hu).
  rewrite Hn, Hf. assert (Hs' : staged V tp h c (Some m)
    (with_file (now_disk s) h (File (data f) (synced f) (mtime f) m))).
  { eapply staged_file; [done|done|done|]. by intros ? [= ->]. }
  split; [by eapply staged_shows|done].
Qed.

Lemma triple_rename V tp h c m path (p0 : P) :
  is_temp tp → ¬ is_temp path →
  triple (λ d, shows V d ∨ path ∉ D ∧ shows (overwrite V path (c, m)) d)
    (λ d _ p, staged V tp h c (Some m) d ∧ p = p0) (rename tp path)
    (λ _ d _ p, (path ∉ D ∧ shows (overwrite V path (c, m)) d) ∧ p = p0)
    (λ _ d _ p, shows V d ∧ p = p0).
Proof.
  intros Ht Hp. assert (Hne : path ≠ tp) by by intros ->.
  apply triple_atomically.
  { intros d l p [Hs ->]. apply staged_shows in Hs. auto. }
  intros s p [Hs ->]. cbv zeta. pose proof Hs as (Hv & Hn & (f & Hf & Hd & Hm) & Hu).
  rewrite Hn. case_bool_decide; [auto|]. case_bool_decide as Hdir; [auto|].
  set (d' := with_names _ _ _).
  assert (Hs' : shows (overwrite V path (c, m)) d').
  { destruct Hv as [Hv HD]. split; [|done]. intros q Hq.
    assert (Htq : tp ≠ q) by by intros ->. unfold overwrite, look, d'. cbn.
    destruct (decide (q = path)) as [->|Hqp].
    - rewrite lookup_insert_eq. cbn. rewrite Hf. cbn. by rewrite Hd, (Hm m).
    - rewrite lookup_insert_ne, lookup_delete_ne by done. by apply Hv. }
  assert (Hpath : path ∉ D) by by destruct Hv as [_ <-].
  split; [by right|]. split; [|done]. by split.
Qed.

Lemma triple_remove_temp {E} V tp (p0 : P) (Q : assertion P) :
  is_temp tp → (∀ d l, shows V d → Q d l p0) →
  triple (shows V) (λ d _ p, shows V d ∧ p = p0) (ignore (remove_file tp) : io P E ())
    (λ _, Q) (λ _, Q).
Proof.
  intros Ht HQ. apply triple_ignore. apply triple_atomically; [naive_solver|].
  intros s p [Hv ->]. cbv zeta. destruct (names (now_disk s) !! tp) as [i|]; [|auto].
  assert (Hs' : shows V (with_names (now_disk s) (delete tp (names (now_disk s))) [(tp, Some i)])).
  { destruct Hv as [Hv HD]. split; [|done]. intros q Hq.
    assert (Htq : tp ≠ q) by by intros ->. rewrite <- (Hv q Hq). unfold look. cbn.
    by rewrite lookup_delete_ne. }
  auto.
Qed.

(** Replacing a file by renaming: at every step the name shows the old bytes
    with the old mode or the new bytes with an allowed mode; an error leaves the
    old ones, and no other name changes. *)
Lemma triple_write_with_mode V path c mode (p0 : P) :
  ¬ is_temp path →
  triple (λ d, shows V d ∨ ∃ m, allowed_mode V path mode m ∧ shows (overwrite V path (c, m)) d)
    (λ d _ p, shows V d ∧ p = p0) (write_with_mode path c mode)
    (λ _ d _ p, (∃ m, allowed_mode V path mode m ∧ shows (overwrite V path (c, m)) d) ∧ p = p0)
    (λ _ d _ p, shows V d ∧ p = p0).
Proof.
  intros Hp. set (I := λ d, _ ∨ _). assert (HI : ∀ d, shows V d → I d) by (intros; by left).
  unfold write_with_mode.
  eapply triple_bind with (Mid := λ r d _ p, (shows V d ∧ p = p0) ∧
    (path ∉ D → ∀ bits, r = Ok bits → ∃ c, V path = Some (c, bits))).
  { apply triple_try. eapply triple_conseq; [by apply (triple_path_mode V path p0)|done|done|..];
      naive_solver. }
  intros existing. apply triple_when. intros Hex.
  eapply triple_bind with (Mid := λ m d _ p, (shows V d ∧ p = p0) ∧
    (path ∉ D → allowed_mode V path mode m)).
  { destruct existing as [bits|e]; [|case_bool_decide].
    - apply triple_ret. intros d l p Hd. split; [done|]. intros Hn. right.
      destruct (Hex Hn bits eq_refl) as [c0 ?]. eauto.
    - apply triple_ret. intros d l p Hd. split; [done|]. by left.
    - by apply triple_throw. }
  intros m. apply triple_when. intros Hm.
  eapply triple_bind.
  { eapply triple_conseq; [apply (triple_named_temp_file V _ p0)|done|done|done|done]. }
  intros [tp h]. cbn [fst snd]. apply triple_when'. intros Ht. unfold unlink_on_error.
  eapply triple_bind with (Mid := λ r d _ p,
    match r with
    | Ok _ => (path ∉ D ∧ shows (overwrite V path (c, m)) d) ∧ p = p0
    | Err _ => shows V d ∧ p = p0
    end).
  - apply triple_try.
    eapply triple_bind; [eapply triple_conseq; [by apply (triple_write_staged V tp h c p0)|done..]|].
    intros []. eapply triple_bind; [eapply triple_conseq;
      [by apply (triple_set_permissions V tp h c m p0)|done..]|].
    intros []. eapply triple_conseq; [by apply (triple_rename V tp h c m path p0)|..]; try done.
    intros d [Hd|[Hn Hd]]; [by left|right; eauto].
  - intros [[]|e].
    + apply triple_ret. intros d l p [[Hn Hd] ->]. eauto.
    + eapply triple_bind with (Mid := λ _ d _ p, shows V d ∧ p = p0).
      * eapply triple_conseq; [by apply (triple_remove_temp V tp p0 (λ d _ p, shows V d ∧ p = p0))|..];
          auto.
      * intros []. by apply triple_throw.
Qed.


End write.

(* ------------------------------------------------------------------ *)
(** ** The crontab *)

Definition no_newline (s : string) : bool := str_forallb (λ d, negb (Ascii.eqb d newline)) s.

Definition START : string := "# Symaira EraseMe scheduled tasks".
Definition END_ : string := "# End Symaira EraseMe scheduled tasks".

(** A line of somebody else. *)
Definition foreign (line : string) : Prop := line ≠ START ∧ line ≠ END_.

Lemma remove_foreign us rest :
  Forall foreign us → remove_cron_lines false (us ++ rest) = us ++ remove_cron_lines false rest.
Proof.
  induction 1 as [|u us [Hs He] Hus IH]; [done|]. cbn [app remove_cron_lines].
  fold START END_. by rewrite (proj2 (String.eqb_neq _ _) Hs), (proj2 (String.eqb_neq _ _) He), IH.
Qed.

Lemma remove_block bs rest :
  Forall (λ b, b ≠ END_) bs →
  remove_cron_lines true (bs ++ END_ :: rest) = remove_cron_lines false rest.
Proof.
  induction 1 as [|b bs Hb Hbs IH]; [done|]. cbn [app remove_cron_lines]. fold START END_.
  rewrite (proj2 (String.eqb_neq _ _) Hb). by destruct (b =? START)%string.
Qed.

Lemma remove_keeps_foreign skip lines :
  Forall foreign (remove_cron_lines skip lines) ∧ sublist (remove_cron_lines skip lines) lines.
Proof.
  induction lines as [|l ls IH] in skip |- *; [split; constructor|]. cbn [remove_cron_lines].
  fold START END_. destruct (String.eqb_spec l START).
  { destruct (IH true). split; [done|by constructor]. }
  destruct (String.eqb_spec l END_); [destruct (IH false); split; [done|by constructor]|].
  destruct skip; [destruct (IH true); split; [done|by constructor]|].
  destruct (IH false). by split; constructor.
Qed.

Lemma join_snoc us : us ≠ [] → join nl (us ++ [""]) = join nl us +:+ nl.
Proof.
  intros Hne. induction us as [|u us IH]; [done|]. destruct us as [|v us]; [done|].
  change (join nl ((u :: v :: us) ++ [""])) with (u +:+ nl +:+ join nl ((v :: us) ++ [""])).
  rewrite IH by done. change (join nl (u :: v :: us)) with (u +:+ nl +:+ join nl (v :: us)).
  by rewrite !string_app_assoc.
Qed.

Lemma join_app us vs : vs ≠ [] → join nl (us ++ vs) = join nl (us ++ [""]) +:+ join nl vs.
Proof.
  intros Hvs. induction us as [|u us IH]; [done|].
  assert (Hc : ∀ ws, ws ≠ [] → join nl (u :: ws) = u +:+ nl +:+ join nl ws) by by intros [].
  cbn [app]. rewrite !Hc by by destruct us. by rewrite IH, !string_app_assoc.
Qed.

(** [content] with a final newline unless it is empty. *)
Definition terminated (content : string) : string :=
  if negb (is_empty content) && negb (ends_with nl content) then content +:+ nl else content.

(** Lines without an empty last one. *)
Definition chop (ls : list string) : list string :=
  match last ls with Some "" => removelast ls | _ => ls end.

Lemma terminated_join ls :
  Forall (λ s, no_newline s = true) ls → terminated (join nl ls) = join nl (chop ls ++ [""]).
Proof.
  intros Hls. unfold terminated, chop. destruct (last ls) as [l|] eqn:El.
  2: { apply last_None in El as ->. done. }
  apply last_Some in El as [us ->]. apply Forall_app in Hls as [Hus Hl].
  apply Forall_cons in Hl as [Hl _]. rewrite removelast_last.
  destruct l as [|c l].
  - destruct us as [|u us]; [done|]. rewrite join_snoc by done.
    assert (He : ends_with nl (join nl (u :: us) +:+ nl) = true) by (apply ends_with_spec; eauto).
    rewrite He. by rewrite andb_false_r.
  - assert (Hend : ends_with nl (join nl (us ++ [String c l])) = false).
    { rewrite join_app by done. cbn [join]. apply not_true_is_false. intros [t Ht]%ends_with_spec.
      apply (f_equal str_rev) in Ht. rewrite !str_rev_append in Ht.
      unfold no_newline in Hl. rewrite <- str_forallb_rev in Hl.
      destruct (str_rev (String c l)) as [|d r] eqn:Er.
      { pose proof (str_rev_involutive (String c l)) as Hi. by rewrite Er in Hi. }
      injection Ht as -> _. done. }
    assert (Hne : is_empty (join nl (us ++ [String c l])) = false).
    { rewrite join_app by done. apply is_empty_false. by destruct (join nl (us ++ [""])). }
    rewrite Hend, Hne. cbn [negb andb]. rewrite join_snoc; [done|]. by destruct us.
Qed.

Lemma chop_forall (Q : string → Prop) ls : Forall Q ls → Forall Q (chop ls).
Proof.
  intros Hls. unfold chop. destruct (last ls) as [[|]|] eqn:El; [|done..].
  apply last_Some in El as [us ->]. rewrite removelast_last. by apply Forall_app in Hls as [].
Qed.

Lemma chop_snoc ls : chop (ls ++ [""]) = ls.
Proof. unfold chop. by rewrite last_snoc, removelast_last. Qed.

Lemma split_newline_free s : Forall (λ s, no_newline s = true) (split newline s).
Proof.
  induction s as [|c s IH]; cbn [split]; [by repeat constructor|].
  destruct (Ascii.eqb c newline) eqn:Ec; [by constructor|].
  destruct (split newline s) as [|h t]; [repeat constructor|]; cbn.
  - unfold no_newline. cbn. by rewrite Ec.
  - apply Forall_cons in IH as [Hh Ht]. constructor; [|done]. unfold no_newline. cbn. by rewrite Ec.
Qed.

Lemma remove_cron_block_join ls :
  ls ≠ [] → Forall (λ s, no_newline s = true) ls →
  remove_cron_block (join nl ls) = join nl (remove_cron_lines false ls).
Proof. intros Hne Hls. unfold remove_cron_block. by rewrite (split_join newline). Qed.

(** *** The block this program writes *)

Definition cron_body (hour minute : Z) (dir : string) : list string :=
  [ "# Generated by symeraseme generate-scheduler (Go)";
    "";
    "# Tick (daily at " +:+ pad2 hour +:+ ":" +:+ pad2 minute +:+ ")";
    show minute +:+ " " +:+ show hour +:+ " * * * " +:+ dir +:+ "/symeraseme-tick.sh";
    "";
    "# Poll inbox (hourly wrapper checks configured times)";
    "0 * * * * " +:+ dir +:+ "/symeraseme-poll.sh";
    "";
    "# Re-scan (quarterly on 1st of Jan, Apr, Jul, Oct)";
    show minute +:+ " " +:+ show hour +:+ " 1 1,4,7,10 * " +:+ dir +:+ "/symeraseme-rescan.sh";
    "" ].

Definition digits (s : string) : bool := negb (is_empty s) && str_forallb is_ascii_digit s.

Lemma clock_digits : Forall (λ n, digits (show n) = true ∧ digits (pad2 n) = true) (seqZ 0 60).
Proof. apply (bool_decide_unpack _). vm_compute. exact I. Qed.

Lemma clock_digits_at n : 0 ≤ n < 60 → digits (show n) = true ∧ digits (pad2 n) = true.
Proof.
  intros Hn. pose proof clock_digits as Hall. rewrite Forall_forall in Hall.
  apply Hall, elem_of_seqZ. lia.
Qed.

Lemma digits_forallb (p : ascii → bool) s :
  (∀ c, is_ascii_digit c = true → p c = true) → digits s = true → str_forallb p s = true.
Proof.
  intros Hp. unfold digits. rewrite andb_true_iff. intros [_ Hs].
  induction s as [|c s IH]; [done|]. cbn in *. apply andb_true_iff in Hs as [Hc Hs].
  by rewrite Hp, IH.
Qed.

Lemma digit_is_not c d : is_ascii_digit c = false → is_ascii_digit d = true → Ascii.eqb c d = false.
Proof. intros Hc Hd. apply Ascii.eqb_neq. intros ->. by rewrite Hd in Hc. Qed.

Lemma digits_free c s : is_ascii_digit c = false → digits s = true → free_of_char c s = true.
Proof.
  intros Hc. apply digits_forallb. intros d Hd. by rewrite (digit_is_not c d).
Qed.

Lemma free_of_char_app c s t : free_of_char c (s +:+ t) = free_of_char c s && free_of_char c t.
Proof. apply str_forallb_app. Qed.

Lemma str_replace_token q m s : q ≠ "" → str_replace q m (q +:+ s) = m +:+ str_replace q m s.
Proof.
  intros Hq. destruct q as [|c q]; [done|]. unfold str_replace.
  change (String c q +:+ s) with (String c (q +:+ s)). cbn [replace_go].
  change (String c (q +:+ s)) with (String c q +:+ s). rewrite starts_with_app. cbn [String.length].
  rewrite Nat.sub_succ, Nat.sub_0_r. by rewrite replace_go_skip.
Qed.

Lemma cron_tab_at hour minute dir :
  0 ≤ hour < 60 → 0 ≤ minute < 60 →
  str_replace CRON_WRAPPER_TOKEN dir (cron_tab hour minute) =
  unlines (START :: cron_body hour minute dir ++ [END_]).
Proof.
  intros Hh Hm. destruct (clock_digits_at _ Hh) as [Sh Ph]. destruct (clock_digits_at _ Hm) as [Sm Pm].
  set (p1 := unlines [START; "# Generated by symeraseme generate-scheduler (Go)"; "";
    "# Tick (daily at " +:+ pad2 hour +:+ ":" +:+ pad2 minute +:+ ")"]
    +:+ show minute +:+ " " +:+ show hour +:+ " * * * ").
  set (p2 := unlines ["/symeraseme-tick.sh"; "";
    "# Poll inbox (hourly wrapper checks configured times)"] +:+ "0 * * * * ").
  set (p3 := unlines ["/symeraseme-poll.sh"; "";
    "# Re-scan (quarterly on 1st of Jan, Apr, Jul, Oct)"]
    +:+ show minute +:+ " " +:+ show hour +:+ " 1 1,4,7,10 * ").
  set (p4 := unlines ["/symeraseme-rescan.sh"; ""; END_]).
  assert (Hall : ∀ d, p1 +:+ d +:+ p2 +:+ d +:+ p3 +:+ d +:+ p4 =
    unlines (START :: cron_body hour minute d ++ [END_])).
  { intros d. unfold p1, p2, p3, p4, unlines, cron_body. cbn [app join].
    rewrite !string_app_assoc. reflexivity. }
  assert (Hsrc : cron_tab hour minute = p1 +:+ CRON_WRAPPER_TOKEN +:+ p2 +:+ CRON_WRAPPER_TOKEN
    +:+ p3 +:+ CRON_WRAPPER_TOKEN +:+ p4 +:+ "").
  { rewrite string_app_nil_r, Hall. reflexivity. }
  assert (F : ∀ n, digits n = true → free_of_char "{" n = true) by (intros; by apply digits_free).
  assert (F1 : free_of_char "{" p1 = true).
  { unfold p1, unlines. cbn [join].
    rewrite !free_of_char_app, (F _ Ph), (F _ Pm), (F _ Sm), (F _ Sh). done. }
  assert (F3 : free_of_char "{" p3 = true).
  { unfold p3, unlines. cbn [join]. rewrite !free_of_char_app, (F _ Sm), (F _ Sh). done. }
  rewrite <- Hall, Hsrc. unfold CRON_WRAPPER_TOKEN at 1.
  rewrite str_replace_after by done. f_equal.
  rewrite (str_replace_token CRON_WRAPPER_TOKEN) by done. f_equal. unfold CRON_WRAPPER_TOKEN at 1.
  rewrite str_replace_after by done. f_equal.
  rewrite (str_replace_token CRON_WRAPPER_TOKEN) by done. f_equal. unfold CRON_WRAPPER_TOKEN at 1.
  rewrite str_replace_after by done. f_equal.
Qed.

Lemma no_newline_app s t : no_newline (s +:+ t) = no_newline s && no_newline t.
Proof. apply str_forallb_app. Qed.

Lemma digits_no_newline s : digits s = true → no_newline s = true.
Proof.
  apply digits_forallb. intros c Hc. by rewrite Ascii.eqb_sym, (digit_is_not newline).
Qed.

Lemma digits_first s t c u : is_ascii_digit c = false → digits s = true → s +:+ t ≠ String c u.
Proof.
  unfold digits. destruct s as [|d s]; [done|]. cbn. intros Hc [Hd _]%andb_true_iff [= -> _].
  by rewrite Hd in Hc.
Qed.

Lemma cron_body_lines hour minute dir :
  0 ≤ hour < 60 → 0 ≤ minute < 60 → no_newline dir = true →
  Forall (λ b, no_newline b = true ∧ b ≠ END_) (cron_body hour minute dir).
Proof.
  intros Hh Hm Hd. destruct (clock_digits_at _ Hh) as [Sh Ph]. destruct (clock_digits_at _ Hm) as [Sm Pm].
  unfold cron_body. repeat (apply List.Forall_cons || apply List.Forall_nil); (split; [|try done]);
    rewrite ?no_newline_app, ?Hd, ?(digits_no_newline _ Ph), ?(digits_no_newline _ Pm),
      ?(digits_no_newline _ Sm), ?(digits_no_newline _ Sh); try done.
  all: by apply digits_first.
Qed.

(** The lines of the table that are not this program's. *)
Definition foreign_lines (content : string) : list string :=
  chop (remove_cron_lines false (split newline content)).

Lemma foreign_lines_ok content :
  Forall foreign (foreign_lines content) ∧ Forall (λ s, no_newline s = true) (foreign_lines content).
Proof.
  unfold foreign_lines. destruct (remove_keeps_foreign false (split newline content)) as [Hf Hs].
  split; apply chop_forall; [done|]. pose proof (split_newline_free content) as Hn.
  rewrite Forall_forall in *. intros x Hx. apply Hn. by eapply elem_of_sublist.
Qed.

Lemma terminated_remove content :
  terminated (remove_cron_block content) = join nl (foreign_lines content ++ [""]).
Proof.
  unfold remove_cron_block, foreign_lines. apply terminated_join.
  destruct (remove_keeps_foreign false (split newline content)) as [_ Hs].
  pose proof (split_newline_free content) as Hn. rewrite Forall_forall in *.
  intros x Hx. apply Hn. by eapply elem_of_sublist.
Qed.

(** The table after an installation: the foreign lines, then the block. *)
Definition cron_block (hour minute : Z) (dir : string) : list string :=
  START :: cron_body hour minute dir ++ [END_].

Lemma updated_crontab_lines content hour minute dir :
  0 ≤ hour < 60 → 0 ≤ minute < 60 →
  updated_crontab content (cron_tab hour minute) dir =
  join nl (foreign_lines content ++ cron_block hour minute dir ++ [""]).
Proof.
  intros Hh Hm. unfold updated_crontab. fold (terminated (remove_cron_block content)).
  rewrite terminated_remove, cron_tab_at by done.
  change (unlines (START :: cron_body hour minute dir ++ [END_])) with
    (join nl (cron_block hour minute dir) +:+ nl).
  rewrite <- join_snoc by done. symmetry. apply join_app. done.
Qed.

Lemma remove_updated content hour minute dir :
  0 ≤ hour < 60 → 0 ≤ minute < 60 → no_newline dir = true →
  remove_cron_block (updated_crontab content (cron_tab hour minute) dir) =
  join nl (foreign_lines content ++ [""]).
Proof.
  intros Hh Hm Hd. rewrite updated_crontab_lines by done.
  destruct (foreign_lines_ok content) as [Hf Hn].
  pose proof (cron_body_lines hour minute dir Hh Hm Hd) as Hb.
  rewrite remove_cron_block_join.
  - f_equal. rewrite remove_foreign by done. f_equal. unfold cron_block. cbn [app remove_cron_lines].
    fold START END_. rewrite <- app_assoc. cbn [app String.eqb].
    change ((START =? START)%string) with true. cbv iota.
    rewrite remove_block; [done|]. eapply Forall_impl; [done|]. naive_solver.
  - by destruct (foreign_lines content).
  - rewrite !Forall_app. split; [done|]. split; [|by repeat constructor]. unfold cron_block.
    constructor; [done|]. apply Forall_app. split; [|by repeat constructor].
    eapply Forall_impl; [done|]. naive_solver.
Qed.

Lemma foreign_lines_fixed ls :
  Forall foreign ls → Forall (λ s, no_newline s = true) ls → foreign_lines (join nl (ls ++ [""])) = ls.
Proof.
  intros Hf Hn. unfold foreign_lines. rewrite (split_join newline).
  - rewrite remove_foreign by done. apply chop_snoc.
  - by destruct ls.
  - apply Forall_app. split; [done|]. by repeat constructor.
Qed.

Lemma foreign_lines_updated content hour minute dir :
  0 ≤ hour < 60 → 0 ≤ minute < 60 → no_newline dir = true →
  foreign_lines (updated_crontab content (cron_tab hour minute) dir) = foreign_lines content.
Proof.
  intros Hh Hm Hd. pose proof (remove_updated content hour minute dir Hh Hm Hd) as Hr.
  apply (f_equal terminated) in Hr. rewrite terminated_remove in Hr.
  destruct (foreign_lines_ok content) as [Hf Hn].
  destruct (foreign_lines_ok (updated_crontab content (cron_tab hour minute) dir)) as [Hf' Hn'].
  rewrite terminated_join, chop_snoc in Hr by (apply Forall_app; split; [done|by repeat constructor]).
  apply (f_equal foreign_lines) in Hr. by rewrite !foreign_lines_fixed in Hr.
Qed.


(* ------------------------------------------------------------------ *)
(** ** Writing the generated files *)

Section write_files.
Context {P : Type} `{Disk.Env} `{SchedulerHost} `{TempFile}.

(** What a name may show while files are written below [root]: what it showed,
    or the text of an accepted file that belongs there. *)
Definition old_or_written (d0 : disk) (root : string) (G : list (string * string))
    (L : string → option (bytes * Z)) : Prop :=
  ∀ q, ¬ is_temp q → L q = look d0 q ∨
    ∃ n t m, (n, t) ∈ G ∧ is_safe_relative_filename n = true ∧ q = target_path root n ∧
      L q = Some (text_bytes t, m).

Definition texts_written (root : string) (G : list (string * string))
    (L : string → option (bytes * Z)) : Prop :=
  NoDup (target_path root <$> G.*1) →
  ∀ n t, (n, t) ∈ G → fst <$> L (target_path root n) = Some (text_bytes t).

Lemma old_or_written_shows D V d0 root G d :
  shows D V d → old_or_written d0 root G V → old_or_written d0 root G (look d).
Proof.
  intros [Hv _] Ho q Hq. rewrite (Hv q Hq).
  destruct (Ho q Hq) as [|(n & t & m & ? & ? & ? & Hl)]; [by left|right]. by exists n, t, m.
Qed.

Lemma old_or_written_overwrite d0 root G V n t m :
  (n, t) ∈ G → is_safe_relative_filename n = true → old_or_written d0 root G V →
  old_or_written d0 root G (overwrite V (target_path root n) (text_bytes t, m)).
Proof.
  intros Hin Hs Ho q Hq. unfold overwrite. destruct (decide (q = target_path root n)) as [->|Hne].
  - right. by exists n, t, m.
  - by apply Ho.
Qed.

Lemma triple_write_each D d0 root G (p0 : P) fs done_ written :
  G = done_ ++ fs →
  Forall (λ e, is_safe_relative_filename e.1 = true ∧ ¬ is_temp (target_path root e.1)) G →
  triple (λ d, old_or_written d0 root G (look d))
    (λ d _ p, p = p0 ∧ ∃ V, shows D V d ∧ old_or_written d0 root G V ∧ texts_written root done_ V)
    (write_each root fs written)
    (λ ps d _ p, p = p0 ∧ ps = written ++ (target_path root <$> fs.*1) ∧
       ∃ V, shows D V d ∧ old_or_written d0 root G V ∧ texts_written root G V)
    (λ e d _ p, (p = p0 ∧ old_or_written d0 root G (look d)) ∧ ∃ path err, e = WriteFile path err).
Proof.
  intros HG Hsafe. induction fs as [|[n t] fs IH] in done_, written, HG |- *; cbn [write_each].
  { apply triple_ret. intros d l p [-> (V & Hv)]. rewrite app_nil_r in *. subst. split_and!; eauto. }
  assert (Hin : (n, t) ∈ G) by (rewrite HG; set_solver).
  rewrite Forall_forall in Hsafe. destruct (Hsafe _ Hin) as [Hs Ht]. cbn in Hs, Ht.
  eapply triple_bind with (Mid := λ _ d _ p, p = p0 ∧ ∃ V, shows D V d ∧
    old_or_written d0 root G V ∧ texts_written root (done_ ++ [(n, t)]) V).
  - eapply triple_weaken_pre with (Pre' := λ d _ p, ∃ V, (shows D V d ∧ p = p0) ∧
      (old_or_written d0 root G V ∧ texts_written root done_ V)); [naive_solver|].
    apply triple_exists. intros V. apply triple_when. intros [Ho Hw]. apply triple_map_error.
    assert (Hover : ∀ m, old_or_written d0 root G (overwrite V (target_path root n) (text_bytes t, m)))
      by (intros m; by apply old_or_written_overwrite).
    eapply triple_conseq; [apply (triple_write_with_mode D V (target_path root n) (text_bytes t)
      (file_mode n) p0 Ht)|..].
    + intros d [Hd|(m & _ & Hd)]; by eapply old_or_written_shows.
    + done.
    + intros u d l p [(m & _ & Hd) ->]. split; [done|]. eexists. split; [exact Hd|]. split; [done|].
      intros Hnd n' t' Hnt. rewrite fmap_app, fmap_app in Hnd. apply NoDup_app in Hnd as (Hnd & Hdisj & _).
      unfold overwrite. apply elem_of_app in Hnt as [Hnt|[[= -> ->]|Hnt]%elem_of_cons].
      * rewrite decide_False; [by apply Hw|]. intros Heq. apply (Hdisj (target_path root n)); [|cbn; by left].
        rewrite <- Heq. apply list_elem_of_fmap. exists n'. split; [done|].
        apply list_elem_of_fmap. by exists (n', t').
      * by rewrite decide_True.
      * by apply elem_of_nil in Hnt.
    + intros e d l p [Hd ->]. split; [|eauto]. split; [done|]. by eapply old_or_written_shows.
  - intros []. eapply triple_conseq; [apply (IH (done_ ++ [(n, t)]) (written ++ [target_path root n]))|..];
      [by rewrite <- app_assoc|done|done| |done].
    intros ps d l p (-> & -> & Hv). split; [done|]. split; [|done]. by rewrite <- app_assoc.
Qed.

Lemma look_add_dirs d l q : look (add_dirs d l) q = look d q.
Proof. done. Qed.

Lemma triple_create_dir_all d0 dir (p0 : P) :
  triple (λ d, ∀ q, look d q = look d0 q) (λ d _ p, d = d0 ∧ p = p0) (create_dir_all dir)
    (λ _ d _ p, (∀ q, look d q = look d0 q) ∧ p = p0) (λ _ d _ p, (∀ q, look d q = look d0 q) ∧ p = p0).
Proof.
  apply triple_syscall.
  - intros s p e n [-> ->]. done.
  - intros s p [-> ->]. cbv zeta. by case_bool_decide.
Qed.

Lemma find_unsafe G :
  List.find (λ name, negb (is_safe_relative_filename name)) (G : list (string * string)).*1 = None →
  Forall (λ e, is_safe_relative_filename e.1 = true) G.
Proof.
  induction G as [|[n t] G IH]; [constructor|]. cbn.
  destruct (is_safe_relative_filename n) eqn:E; cbn; [|done]. intros Hf. constructor; auto.
Qed.

(** C38: writing the generated files: at every step, whatever fails, each name shows
    what it showed before or the complete text of an accepted file that belongs
    at it, so no partial file is ever seen and nothing else changes; a file name
    that is not accepted stops the run before anything is written.  On success
    the paths are those of the names in order, and (when they differ) each holds
    its text. *)
Theorem write_files_safe output_dir files root (w : world P) :
  output_root output_dir = Ok root →
  (∀ n, is_Some (files !! n) → ¬ is_temp (target_path root n)) →
  let d0 := now_disk (system w) in
  let '(r, w') := write_files output_dir files w in
  (∃ t, history (system w') = t ++ history (system w) ∧
     Forall (λ d, old_or_written d0 root (btree files) (look d)) t) ∧
  old_or_written d0 root (btree files) (look (now_disk (system w'))) ∧
  process w' = process w ∧
  match r with
  | Ok paths =>
      paths = target_path root <$> (btree files).*1 ∧
      Forall (λ n, is_safe_relative_filename n = true) (btree files).*1 ∧
      texts_written root (btree files) (look (now_disk (system w')))
  | Err (InvalidGeneratedFilename n) => ∀ q, look (now_disk (system w')) q = look d0 q
  | Err _ => True
  end.
Proof.
  intros Hroot Htemp d0. set (G := btree files).
  assert (Hsame : ∀ d, (∀ q, look d q = look d0 q) → old_or_written d0 root G (look d))
    by (intros d Hd q _; by left).
  assert (T : triple (λ d, old_or_written d0 root G (look d)) (λ d _ p, d = d0 ∧ p = process w)
    (write_files output_dir files)
    (λ ps d _ p, p = process w ∧ old_or_written d0 root G (look d) ∧
       ps = target_path root <$> G.*1 ∧ Forall (λ n, is_safe_relative_filename n = true) G.*1 ∧
       texts_written root G (look d))
    (λ e d _ p, p = process w ∧ old_or_written d0 root G (look d) ∧
       match e with InvalidGeneratedFilename n => ∀ q, look d q = look d0 q | _ => True end)).
  { unfold write_files. destruct (is_empty output_dir).
    { apply triple_throw. intros d l p [-> ->]. split_and!; auto. }
    eapply triple_bind with (Mid := λ q d _ p, (d = d0 ∧ p = process w) ∧ q = root).
    { apply triple_of_result. by rewrite Hroot. }
    intros q. apply triple_when. intros ->.
    eapply triple_bind with (Mid := λ _ d _ p, (∀ q, look d q = look d0 q) ∧ p = process w).
    { apply triple_map_error. eapply triple_conseq; [apply (triple_create_dir_all d0 root (process w))|..];
        [done|done|done|]. naive_solver. }
    intros []. fold G. destruct (List.find _ G.*1) as [n|] eqn:Ef.
    { apply triple_throw. intros d l p [Hd ->]. split_and!; auto. }
    apply find_unsafe in Ef. apply triple_pre. intros d1 l1 p1 [Hd ->].
    assert (Hall : Forall (λ e, is_safe_relative_filename e.1 = true ∧ ¬ is_temp (target_path root e.1)) G).
    { rewrite Forall_forall in Ef. apply Forall_forall. intros [n t] Hin. split; [by apply (Ef _ Hin)|].
      apply Htemp. exists t. unfold G, btree in Hin.
      by rewrite elem_of_sort_by, elem_of_map_to_list in Hin. }
    eapply triple_conseq; [apply (triple_write_each (dirs d1) d0 root G (process w) G [] [] eq_refl Hall)
      |done|..].
    - intros d l p (-> & -> & ->). split; [done|]. exists (look d1).
      split_and!; [by split|by apply Hsame|]. intros _ n t Hnt. by apply elem_of_nil in Hnt.
    - intros ps d l p (-> & -> & V & Hv & Ho & Hw). split_and!; [done|by eapply old_or_written_shows|done| |].
      + by apply Forall_fmap.
      + intros Hnd n t Hnt. destruct Hv as [Hv _].
        rewrite Forall_forall in Hall. rewrite Hv by apply (Hall _ Hnt). by apply Hw.
    - intros e d l p [[-> Ho] (path & err & ->)]. split_and!; auto. }
  destruct (T w) as [(t & Ht & Hall) Hr]; [done|]. unfold holds in Hr.
  destruct (write_files output_dir files w) as [[ps|e] w']; cbn in *.
  - destruct Hr as (Hp & Ho & -> & Hs & Hw). split_and!; eauto.
  - destruct Hr as (Hp & Ho & He). split_and!; eauto.
Qed.

End write_files.
