(* ===== verification/SchedulerFlow.v ===== *)
(** Installing, removing and scanning scheduler units from end to end: what is
    refused, what a second run sees, what is removed, and what becomes of the
    crontab. *)
From S2P Require Import Prelude.
From S2P Require Import Text.
From S2P Require Import Identity.
From S2P Require Import MailParse.
From S2P Require Import Encryption.
From S2P Require Import Disk.
From S2P Require Import DiskFacts.
From S2P Require Import Scheduler.
From S2P Require Import SchedulerFacts.
From S2P Require Import SchedulerInstall.
From S2P Require Import SchedulerInstallFacts.
From Stdlib Require Import Ascii Strings.Byte.

#[local] Notation length := List.length.

(** A failing system call is not reported as a missing file. *)
Definition honest_faults `{Disk.Env} : Prop :=
  ∀ n e k, fault n = Some (e, k) → kind e ≠ NotFound.

(** Runs that read: the disk and the process stay, and so does every disk on
    the way. *)
Notation reads d0 p0 := (λ d (_ : gset nat) p, d = d0 ∧ p = p0).

Section scan.
Context {P : Type} `{Disk.Env} `{SchedulerHost} `{CharLower}.

Lemma triple_read_existing {E} (f : ioError → E) path d0 (p0 : P) :
  honest_faults →
  triple (eq d0) (reads d0 p0) (read_existing f path)
    (λ c d _ p, c = content d0 path ∧ d = d0 ∧ p = p0)
    (λ e d _ p, (∃ err, e = f err) ∧ d = d0 ∧ p = p0).
Proof.
  intros Hhon. unfold read_existing.
  eapply triple_bind with (Mid := λ r d _ p,
    match r with Ok c => content d0 path = Some c
               | Err e => kind e = NotFound → content d0 path = None end ∧ d = d0 ∧ p = p0).
  - apply triple_try. intros w [Hd Hp]. unfold holds, read, atomically, syscall.
    destruct (fault (steps (system w))) as [[e n]|] eqn:Ef; cbn.
    + split; [eexists [_]; split; [done|by repeat constructor]|]. split; [|done].
      intros Hk. by apply Hhon in Ef.
    + split; [eexists [_]; split; [done|by repeat constructor]|]. rewrite Hd.
      by destruct (content d0 path).
  - intros [c|e].
    + apply triple_ret. naive_solver.
    + case_bool_decide.
      * apply triple_ret. intros d l p (Hc & -> & ->). by rewrite Hc.
      * apply triple_throw. intros d l p (_ & -> & ->). eauto.
Qed.

(** The units a scan finds on a disk. *)
Definition found_units (d : disk) (platform : Platform) (root : string) (ns : list string) :
    list LegacyUnit :=
  omap (λ n, content d (path_join root n) ≫= legacy_unit platform n (path_join root n)) ns.

Lemma triple_scan_names platform root ns units d0 (p0 : P) :
  honest_faults →
  triple (eq d0) (reads d0 p0) (scan_names platform root ns units)
    (λ us d _ p, us = units ++ found_units d0 platform root ns ∧ d = d0 ∧ p = p0)
    (λ e d _ p, (∃ path err, e = ReadLegacyUnit path err) ∧ d = d0 ∧ p = p0).
Proof.
  intros Hhon. induction ns as [|n ns IH] in units |- *; cbn [scan_names].
  { apply triple_ret. intros d l p [-> ->]. by rewrite app_nil_r. }
  eapply triple_bind with (Mid := λ c d _ p, (d = d0 ∧ p = p0) ∧ c = content d0 (path_join root n)).
  { eapply triple_conseq; [by apply (triple_read_existing _ _ d0 p0)|done|done|naive_solver|].
    intros e d l p ((err & ->) & -> & ->). eauto. }
  intros c. apply triple_when. intros ->.
  eapply triple_conseq; [apply IH|done|done| |done].
  intros us d l p (-> & Hd). split; [|done]. rewrite <- app_assoc. f_equal.
  unfold found_units. cbn. by destruct (content d0 (path_join root n) ≫= _).
Qed.

(** The directory a scan looks in. *)
Definition unit_root (home : string) (platform : Platform) : string :=
  match platform with
  | Launchd => path_join (path_join home "Library") "LaunchAgents"
  | Systemd => path_join (path_join (path_join home ".config") "systemd") "user"
  | Cron => ""
  end.

Definition scan_home (home : option string) : result SchedulerError string :=
  match home ≫= nonempty with
  | Some value => Ok value
  | None => map_err ResolveHomeDirectory resolve_home_dir
  end.

Lemma triple_scan home platform d0 (p0 : P) :
  honest_faults →
  triple (eq d0) (reads d0 p0) (scan_legacy_python_units home (Some platform))
    (λ us d _ p, (∃ h, scan_home home = Ok h ∧
        us = found_units d0 platform (unit_root h platform) (unit_names platform)) ∧ d = d0 ∧ p = p0)
    (λ e d _ p, e ≠ LegacyUnitsDetected ∧ d = d0 ∧ p = p0).
Proof.
  intros Hhon. unfold scan_legacy_python_units. fold (scan_home home).
  eapply triple_bind with (Mid := λ h d _ p, (d = d0 ∧ p = p0) ∧ scan_home home = Ok h).
  - apply triple_of_result. intros d l p Hd. unfold scan_home.
    destruct (home ≫= nonempty); [done|]. by destruct resolve_home_dir.
  - intros h. apply triple_when. intros Hh. cbn [default].
    destruct platform.
    1: { apply triple_ret. intros d l p Hd. split; [|done]. eauto. }
    all: eapply triple_conseq; [by apply (triple_scan_names _ _ _ _ d0 p0)|done|done| |];
      [intros us d l p (-> & Hd); split; [|done]; by exists h
      |intros e d l p ((path & err & ->) & Hd); by split].
Qed.

End scan.

(* ------------------------------------------------------------------ *)
(** ** Refusing foreign units *)

Section refuse.
Context {X : Type} `{Disk.Env} `{SchedulerHost} `{TempFile} `{CharLower} `{Lowercase} `{RustFmt}
  `{!ProcessOutput X}.

Lemma found_unit d platform root name c :
  name ∈ unit_names platform → content d (path_join root name) = Some c →
  is_own_generated_unit (lossy c) = false →
  found_units d platform root (unit_names platform) ≠ [].
Proof.
  intros Hn Hc Ho. unfold found_units. intros Hnil.
  assert (Hin : ∃ u, u ∈ omap (λ n, content d (path_join root n) ≫=
      legacy_unit platform n (path_join root n)) (unit_names platform)).
  { setoid_rewrite list_elem_of_omap. eexists _, name. split; [done|]. rewrite Hc. cbn.
    unfold legacy_unit. by rewrite Ho. }
  destruct Hin as [u Hu]. rewrite Hnil in Hu. by apply elem_of_nil in Hu.
Qed.


End refuse.

(* ------------------------------------------------------------------ *)
(** ** Uninstalling *)

(** The same names hold the same bytes. *)
Definition same_content (d d' : disk) : Prop := ∀ q, content d' q = content d q.

#[export] Instance same_content_preorder : PreOrder same_content.
Proof. split; [by intros d q|]. intros d1 d2 d3 H12 H23 q. by rewrite H23, H12. Qed.

Section uninstall.
Context {X : Type} `{Disk.Env} `{SchedulerHost} `{TempFile} `{CharLower} `{Lowercase} `{RustFmt}
  `{!ProcessOutput X}.

(** Outside of [U] the disk holds what [d0] holds, and nothing is left of [T]. *)
Definition gone (U : list string) (d0 : disk) (T : list string) (d : disk) : Prop :=
  (∀ q, q ∉ U → content d q = content d0 q) ∧ ∀ q, q ∈ T → content d q = None.

Lemma gone_fewer U d0 T T' d : (∀ q, q ∈ T' → q ∈ T) → gone U d0 T d → gone U d0 T' d.
Proof. intros HT [Ho Hg]. split; [done|]. auto. Qed.

(** Commands that leave the files alone. *)
Definition leaves_files (r : Runner X) : Prop := ∀ name args, moves same_content (r name args).

Lemma triple_silent {E A} (m : io (proc X) E A) U d0 T :
  moves same_content m →
  triple (gone U d0 []) (λ d _ _, gone U d0 T d) m (λ _ d _ _, gone U d0 T d)
    (λ _ d _ _, gone U d0 T d).
Proof.
  assert (Hkeep : ∀ T' d d', same_content d d' → gone U d0 T' d → gone U d0 T' d').
  { intros T' d d' Hs [Ho Hg]. split; intros q Hq; rewrite Hs; auto. }
  intros Hm w Hw. destruct (Hm w) as [(t & Ht & Hall) Hs]. unfold holds in *. split.
  - exists t. split; [done|]. eapply Forall_impl; [done|]. intros d Hd.
    eapply gone_fewer, Hkeep; [|done|done]. intros q Hq. by apply elem_of_nil in Hq.
  - destruct ((m w).1); by eapply Hkeep.
Qed.

Lemma triple_quiet_ignore {E F A} (m : io (proc X) E A) U d0 T (R : F → assertion (proc X)) :
  moves same_content m →
  triple (gone U d0 []) (λ d _ _, gone U d0 T d) (ignore m) (λ _ d _ _, gone U d0 T d) R.
Proof. intros Hm. apply triple_ignore. by apply triple_silent. Qed.

Lemma gone_nil U d0 T d : gone U d0 T d → gone U d0 [] d.
Proof. apply gone_fewer. intros q Hq. by apply elem_of_nil in Hq. Qed.

Lemma content_delete d path q o :
  content (with_names d (delete path (names d)) o) q = if decide (q = path) then None else content d q.
Proof.
  unfold content. cbn. destruct (decide (q = path)) as [->|Hne].
  - by rewrite lookup_delete_eq.
  - by rewrite lookup_delete_ne.
Qed.

Lemma triple_remove_existing f path U d0 T :
  honest_faults → path ∈ U →
  triple (gone U d0 []) (λ d _ _, gone U d0 T d) (remove_existing f path : io (proc X) _ _)
    (λ _ d _ _, gone U d0 (path :: T) d) (λ _ d _ _, gone U d0 [] d).
Proof.
  intros Hhon HU. unfold remove_existing.
  eapply triple_bind with (Mid := λ r d _ _, gone U d0 T d ∧
    match r with Ok _ => content d path = None | Err e => kind e = NotFound → content d path = None end).
  - apply triple_try. intros w Hw. unfold holds in *. unfold remove_file, atomically, syscall.
    destruct (fault (steps (system w))) as [[e n]|] eqn:Ef; cbn.
    { split; [eexists [_]; split; [done|]; repeat constructor; by apply gone_nil in Hw as []|].
      split; [done|]. intros Hk. by apply Hhon in Ef. }
    destruct (names (now_disk (system w)) !! path) as [i|] eqn:En; cbn.
    + assert (Hg : gone U d0 T (with_names (now_disk (system w))
        (delete path (names (now_disk (system w)))) [(path, Some i)])).
      { destruct Hw as [Ho Hg]. split; intros q Hq; rewrite content_delete;
          destruct (decide (q = path)) as [->|Hne]; auto. done. }
      split; [eexists [_]; split; [done|]; repeat constructor; by apply gone_nil in Hg as []|].
      split; [done|]. rewrite content_delete. by destruct (decide (path = path)).
    + split; [eexists [_]; split; [done|]; repeat constructor; by apply gone_nil in Hw as []|].
      split; [done|]. intros _. unfold content. by rewrite En.
  - assert (Hcons : ∀ d, gone U d0 T d → content d path = None → gone U d0 (path :: T) d).
    { intros d [Ho Hg] Hc. split; [done|]. intros q [->|Hq]%elem_of_cons; auto. }
    intros [u|e].
    + apply triple_ret. intros d l p [Hg Hc]. by apply Hcons.
    + case_bool_decide.
      * apply triple_ret. intros d l p [Hg Hc]. by apply Hcons; [|apply Hc].
      * apply triple_throw. intros d l p [Hg _]. by eapply gone_nil.
Qed.

Definition unit_paths (root : string) (p : Platform) : list string :=
  path_join root <$> unit_names p.

Lemma launchd_file_names :
  (λ short, launchd_label short +:+ ".plist") <$> unit_short_names = unit_names Launchd.
Proof. reflexivity. Qed.

Lemma systemd_file_names :
  unit_short_names ≫= (λ short, [short +:+ ".service"; short +:+ ".timer"]) = unit_names Systemd.
Proof. reflexivity. Qed.

Lemma triple_uninstall_launchd options root d0 :
  honest_faults → leaves_files (run options) →
  let U := unit_paths root Launchd in
  triple (gone U d0 []) (λ d _ _, d = d0) (uninstall_launchd options root : io (proc X) _ _)
    (λ _ d _ _, gone U d0 U d) (λ _ d _ _, gone U d0 [] d).
Proof.
  intros Hhon Hq U. unfold uninstall_launchd.
  set (path := λ short, path_join root (launchd_label short +:+ ".plist")).
  assert (HU : U = path <$> unit_short_names).
  { unfold U, unit_paths. rewrite <- launchd_file_names, <- list_fmap_compose. done. }
  eapply triple_conseq; [apply (triple_for_each (gone U d0 []) unit_short_names _
    (λ pre d _ _, gone U d0 (path <$> pre) d) (λ _ d _ _, gone U d0 [] d))|done| |intros a d l p; by rewrite <- HU|done].
  - intros pre short rest Hs.
    eapply triple_bind; [apply triple_quiet_ignore, Hq|]. intros [].
    eapply triple_conseq; [apply (triple_remove_existing _ _ U d0 (path <$> pre))|..]; try done.
    + rewrite HU, Hs. apply list_elem_of_fmap. exists short. split; [done|]. set_solver.
    + intros a d l p Hg. eapply gone_fewer; [|exact Hg]. rewrite fmap_app. set_solver.
  - intros d l p ->. split; [done|]. intros q Hqq. by apply elem_of_nil in Hqq.
Qed.

Lemma triple_uninstall_systemd options root d0 :
  honest_faults → leaves_files (run options) →
  let U := unit_paths root Systemd in
  triple (gone U d0 []) (λ d _ _, d = d0) (uninstall_systemd options root : io (proc X) _ _)
    (λ _ d _ _, gone U d0 U d) (λ _ d _ _, gone U d0 [] d).
Proof.
  intros Hhon Hq U. unfold uninstall_systemd.
  set (path := λ short extension, path_join root (short +:+ extension)).
  set (both := λ short, [path short ".service"; path short ".timer"]).
  assert (HU : U = unit_short_names ≫= both) by reflexivity.
  eapply triple_bind with (Mid := λ _ d _ _, gone U d0 U d);
    [|intros []; apply triple_quiet_ignore, Hq].
  eapply triple_conseq; [apply (triple_for_each (gone U d0 []) unit_short_names _
    (λ pre d _ _, gone U d0 (pre ≫= both) d) (λ _ d _ _, gone U d0 [] d))|done| |
    intros a d l p; by rewrite <- HU|done].
  - intros pre short rest Hs.
    assert (Hin : ∀ e, e ∈ [".service"; ".timer"] → path short e ∈ U).
    { intros e He. rewrite HU, Hs. apply list_elem_of_bind. exists short.
      unfold both. split; set_solver. }
    eapply triple_bind; [apply triple_quiet_ignore, Hq|]. intros [].
    eapply triple_conseq; [apply (triple_for_each (gone U d0 []) [".service"; ".timer"] _
      (λ exts d _ _, gone U d0 ((path short <$> exts) ++ (pre ≫= both)) d)
      (λ _ d _ _, gone U d0 [] d))|done|done| |done].
    + intros exts ext rest' He.
      eapply triple_conseq; [apply (triple_remove_existing _ _ U d0 ((path short <$> exts) ++ (pre ≫= both)))|..]; try done.
      * apply Hin. rewrite He. set_solver.
      * intros a d l p Hg. eapply gone_fewer; [|exact Hg]. rewrite fmap_app. set_solver.
    + intros a d l p Hg. eapply gone_fewer; [|exact Hg]. rewrite bind_app. cbn. set_solver.
  - intros d l p ->. split; [done|]. intros q Hqq. by apply elem_of_nil in Hqq.
Qed.

(** Uninstalling launchd or systemd units touches nothing but the platform's
    unit files, at any step and however it ends; when it succeeds none of them is
    left, so the wrappers and everything else stay.  (The commands it runs are
    taken to leave the files alone.) *)
Theorem uninstall_removes_units (options : InstallOptions X) p root w :
  honest_faults → leaves_files (run options) → p ≠ Cron →
  resolve_platform options = Ok p → install_root options p = Ok root →
  let '(r, w') := uninstall options w in
  (∃ t, history (system w') = t ++ history (system w) ∧
     Forall (λ d, ∀ q, q ∉ unit_paths root p → content d q = content (now_disk (system w)) q) t) ∧
  (∀ q, q ∉ unit_paths root p → content (now_disk (system w')) q = content (now_disk (system w)) q) ∧
  (is_ok r = true → ∀ q, q ∈ unit_paths root p → content (now_disk (system w')) q = None).
Proof.
  intros Hhon Hq Hp Hres Hroot. set (d0 := now_disk (system w)).
  assert (G : triple (gone (unit_paths root p) d0 []) (λ d _ _, d = d0) (uninstall options)
    (λ _ d _ _, gone (unit_paths root p) d0 (unit_paths root p) d)
    (λ _ d _ _, gone (unit_paths root p) d0 [] d)).
  { unfold uninstall. eapply triple_bind with (Mid := λ q d _ _, d = d0 ∧ q = p).
    { apply triple_of_result. by rewrite Hres. }
    intros q. apply triple_when. intros ->. rewrite bool_decide_eq_false_2 by done.
    eapply triple_bind with (Mid := λ q d _ _, d = d0 ∧ q = root).
    { apply triple_of_result. by rewrite Hroot. }
    intros q. apply triple_when. intros ->. destruct p; [done| |].
    - rewrite bool_decide_eq_true_2 by done. by apply triple_uninstall_launchd.
    - rewrite bool_decide_eq_false_2 by done. by apply triple_uninstall_systemd. }
  destruct (G w) as [(t & Ht & Hall) Hr]; [done|].
  destruct (uninstall options w) as [[u|e] w']; unfold holds in Hr; cbn in *; destruct Hr as [Ho Hg].
  all: split_and!; [exists t; split; [done|]; eapply Forall_impl; [done|]; by intros d []|done|done].
Qed.

End uninstall.

(* ------------------------------------------------------------------ *)
(** ** ASCII text survives lossy decoding *)

Definition high (c : ascii) : bool := Nat.leb 128 (nat_of_ascii c).
Definition all_high : string → bool := str_forallb high.
Definition all_low : string → bool := str_forallb (λ c, negb (high c)).

Lemma byte_in_high lo hi c : (128 ≤ lo)%nat → byte_in lo hi c = true → high c = true.
Proof.
  unfold byte_in, high. rewrite andb_true_iff, !Nat.leb_le. lia.
Qed.

Lemma utf8_tail_high c ps :
  utf8_tail c = Some ps → Forall (λ p : ascii → bool, ∀ d, p d = true → high d = true) ps.
Proof.
  assert (Hb : ∀ lo hi, Nat.leb 128 lo = true → ∀ d, byte_in lo hi d = true → high d = true).
  { intros lo hi Hlo d. apply byte_in_high. by apply Nat.leb_le. }
  unfold utf8_tail. intros Hps. repeat case_match; simplify_eq;
    repeat (apply List.Forall_cons || apply List.Forall_nil); by apply Hb.
Qed.

Lemma match_tail_split n ps s :
  Forall (λ p : ascii → bool, ∀ d, p d = true → high d = true) ps →
  ∃ t rest, s = t +:+ rest ∧ all_high t = true ∧
    match match_tail n ps s with
    | Valid m | Invalid m => m = (n + String.length t)%nat
    | Incomplete => rest = ""
    end.
Proof.
  intros Hps. induction Hps as [|p ps Hp Hps IH] in n, s |- *; cbn [match_tail].
  { exists "", s. split_and!; [done|done|cbn; lia]. }
  destruct s as [|c s]; [by exists "", ""|]. destruct (p c) eqn:Ec.
  - destruct (IH (S n) s) as (t & rest & -> & Ht & Hm). exists (String c t), rest.
    split_and!; [done|unfold all_high; cbn [str_forallb]; by rewrite (Hp c Ec)|]. destruct (match_tail (S n) ps (t +:+ rest)); cbn; lia || done.
  - exists "", (String c s). split_and!; [done|done|cbn; lia].
Qed.

Lemma lossy_copy t rest :
  from_utf8_lossy_go (String.length t) 0 (t +:+ rest) = t +:+ from_utf8_lossy_go 0 0 rest.
Proof. induction t as [|c t IH]; cbn; [done|]. by rewrite IH. Qed.

Lemma lossy_skip t rest :
  from_utf8_lossy_go 0 (String.length t) (t +:+ rest) = from_utf8_lossy_go 0 0 rest.
Proof. induction t as [|c t IH]; cbn; [done|]. by rewrite IH. Qed.

Lemma lossy_ascii m y :
  all_low m = true → from_utf8_lossy_go 0 0 (m +:+ y) = m +:+ from_utf8_lossy_go 0 0 y.
Proof.
  unfold all_low. induction m as [|c m IH]; [done|]. cbn [str_forallb].
  intros [Hc Hm]%andb_true_iff. change (String c m +:+ y) with (String c (m +:+ y)).
  assert (Ht : utf8_tail c = Some []).
  { unfold utf8_tail, byte_in. unfold high in Hc. apply negb_true_iff, Nat.leb_gt in Hc.
    by rewrite (proj2 (Nat.leb_le _ 127)) by lia. }
  cbn [from_utf8_lossy_go utf8_step]. rewrite Ht. cbn [match_tail]. by rewrite Nat.sub_diag, (IH Hm).
Qed.

(** A low byte cannot be inside a piece of high ones. *)
Lemma high_prefix t rest x m y :
  all_high t = true → all_low m = true → m ≠ "" →
  t +:+ rest = x +:+ m +:+ y → ∃ x', x = t +:+ x' ∧ rest = x' +:+ m +:+ y.
Proof.
  intros Ht Hm Hne. induction t as [|c t IH] in x, Ht |- *; [by exists x|].
  cbn in Ht. apply andb_true_iff in Ht as [Hc Ht]. destruct x as [|d x]; intros Heq.
  - exfalso. destruct m as [|d m]; [done|]. injection Heq as -> _.
    cbn in Hm. by rewrite Hc in Hm.
  - injection Heq as -> Heq. destruct (IH x Ht Heq) as (x' & -> & ->). by exists x'.
Qed.

Lemma lossy_contains m s :
  m ≠ "" → all_low m = true → contains m s = true → contains m (from_utf8_lossy s) = true.
Proof.
  intros Hne Hm (x & y & ->)%contains_spec. unfold from_utf8_lossy.
  remember (String.length x) as n eqn:Hn. revert x Hn.
  induction n as [n IH] using (well_founded_induction lt_wf). intros x ->.
  destruct x as [|c x].
  { change ("" +:+ m +:+ y) with (m +:+ y). rewrite lossy_ascii by done.
    apply contains_spec. by exists "", (from_utf8_lossy_go 0 0 y). }
  assert (Hmono : ∀ u v, contains m v = true → contains m (u +:+ v) = true).
  { intros u v (a & b & ->)%contains_spec. apply contains_spec. exists (u +:+ a), b.
    by rewrite string_app_assoc. }
  change (String c x +:+ m +:+ y) with (String c (x +:+ m +:+ y)).
  cbn [from_utf8_lossy_go utf8_step]. destruct (utf8_tail c) as [ps|] eqn:Eps.
  2: { apply (Hmono fffd (from_utf8_lossy_go 0 0 (x +:+ m +:+ y))). apply (IH (String.length x)); [cbn; lia|done]. }
  destruct (match_tail_split 1 ps (x +:+ m +:+ y) (utf8_tail_high _ _ Eps)) as (t & rest & Heq & Ht & Hr).
  destruct (high_prefix t rest x m y Ht Hm Hne (eq_sym Heq)) as (x' & -> & ->).
  assert (Hgo : contains m (from_utf8_lossy_go 0 0 (x' +:+ m +:+ y)) = true).
  { apply (IH (String.length x')); [|done]. cbn. rewrite string_length_app. lia. }
  destruct (match_tail _ _ _) as [k|k|]; subst.
  - rewrite string_app_assoc, Nat.add_comm, Nat.add_sub, lossy_copy. by apply (Hmono (String c t)).
  - rewrite string_app_assoc, Nat.add_comm, Nat.add_sub, lossy_skip. by apply (Hmono fffd).
  - exfalso. destruct x'; [|done]. by destruct m.
Qed.

(* ------------------------------------------------------------------ *)
(** ** Installing and scanning again *)

(** Every temporary file's name starts with [.tmp] and is one component. *)
Class TempFileLaws `{TempFile} := {
  temp_name_shape s dir : no_slash (temp_name s dir) = true ∧ starts_with ".tmp" (temp_name s dir) = true;
}.

Section again.
Context {X : Type} `{Disk.Env} `{SchedulerHost} `{TempFile} `{!TempFileLaws} `{CharLower} `{Lowercase}
  `{RustFmt} `{!ProcessOutput X}.

Lemma path_join_last root n :
  no_slash n = true → ∃ pre, path_join root n = pre +:+ n ∧ (pre = "" ∨ ∃ r, pre = r +:+ "/").
Proof.
  intros Hn. unfold path_join. rewrite no_slash_start by done.
  destruct (is_empty root) eqn:Ee; cbn [orb].
  { apply is_empty_spec in Ee as ->. exists "". auto. }
  destruct (ends_with "/" root) eqn:Es.
  - apply ends_with_spec in Es as [r ->]. exists (r +:+ "/"). eauto.
  - exists (root +:+ "/"). rewrite string_app_assoc. eauto.
Qed.

Lemma no_slash_last r n : no_slash (r +:+ "/" +:+ n) = false.
Proof. unfold no_slash. rewrite str_forallb_app. cbn. by rewrite andb_false_r. Qed.

Lemma last_component u n v t :
  no_slash n = true → no_slash t = true →
  path_join u n = path_join v t → n = t.
Proof.
  intros Hn Ht. destruct (path_join_last u n Hn) as (p & -> & Hp).
  destruct (path_join_last v t Ht) as (q & -> & Hq).
  assert (Hrs : ∀ r m, no_slash m = true → rsplit_once "/" ((r +:+ "/") +:+ m) = Some (r, m)).
  { intros r m Hm. rewrite string_app_assoc. by apply rsplit_once_app. }
  destruct Hp as [->|[r ->]], Hq as [->|[r' ->]]; intros Heq.
  - done.
  - exfalso. cbn in Heq. rewrite string_app_assoc in Heq. subst n. by rewrite no_slash_last in Hn.
  - exfalso. cbn in Heq. rewrite string_app_assoc in Heq. subst t. by rewrite no_slash_last in Ht.
  - apply (f_equal (rsplit_once "/")) in Heq. rewrite !Hrs in Heq by done. by injection Heq.
Qed.

Lemma unit_name_shape p n :
  n ∈ unit_names p → no_slash n = true ∧ starts_with ".tmp" n = false ∧ is_native_unit p n = true.
Proof.
  intros Hn. assert (Hall : Forall (λ n, (no_slash n && negb (starts_with ".tmp" n) && is_native_unit p n) = true)
    (unit_names p)) by (destruct p; by repeat constructor).
  rewrite Forall_forall in Hall. specialize (Hall n Hn).
  rewrite !andb_true_iff, negb_true_iff in Hall. naive_solver.
Qed.

Lemma unit_not_temp p root n : n ∈ unit_names p → ¬ is_temp (path_join root n).
Proof.
  intros (Hs & Ht & _)%unit_name_shape (s & dir & Heq).
  destruct (temp_name_shape s dir) as [Hs' Ht'].
  apply last_component in Heq; [|done|done]. congruence.
Qed.

Lemma elem_of_btree G n t : (n, t) ∈ btree G ↔ G !! n = Some t.
Proof. unfold btree. by rewrite elem_of_sort_by, elem_of_map_to_list. Qed.

Definition native_entries (p : Platform) (G : gmap string string) : list (string * string) :=
  List.filter (λ e, is_native_unit p e.1) (btree G).

Lemma elem_of_native p G n t :
  (n, t) ∈ native_entries p G ↔ G !! n = Some t ∧ is_native_unit p n = true.
Proof.
  unfold native_entries. by rewrite list_elem_of_In, filter_In, <- list_elem_of_In, elem_of_btree.
Qed.

(** Only units are native among the files of a generation. *)
Lemma native_names cfg G n t :
  generate cfg = Ok G → (n, t) ∈ native_entries (config_platform cfg) G →
  n ∈ unit_names (config_platform cfg).
Proof.
  intros Hg [Hl Hn]%elem_of_native.
  pose proof (generated_names cfg G n Hg (mk_is_Some _ _ Hl)) as Hin.
  apply elem_of_app in Hin as [Hin|Hin]; [done|]. exfalso.
  rewrite !elem_of_cons in Hin. destruct (config_platform cfg);
    destruct_or?; subst; try done; by apply elem_of_nil in Hin.
Qed.

(** What the unit files hold once written. *)
Definition units_written (root dir : string) (es : list (string * string))
    (V : string → option (bytes * Z)) : Prop :=
  ∀ n t, (n, t) ∈ es →
    fst <$> V (path_join root n) = Some (text_bytes (str_replace WRAPPER_DIR_PLACEHOLDER dir t)).

Lemma triple_install_native cfg G root dir p0 :
  generate cfg = Ok G →
  let p := config_platform cfg in
  triple (λ _, True) (λ _ _ p', p' = p0) (install_native_units G root dir p : io (proc X) _ _)
    (λ _ d _ p', p' = p0 ∧ ∃ V, shows (dirs d) V d ∧ units_written root dir (native_entries p G) V)
    (λ _ _ _ p', p' = p0).
Proof.
  intros Hg p. apply triple_pre. intros d0 l0 p' ->.
  unfold install_native_units. fold (native_entries p G).
  assert (Hinv : ∀ d, (∃ V, shows (dirs d0) V d ∧ units_written root dir (native_entries p G) V) →
    ∃ V, shows (dirs d) V d ∧ units_written root dir (native_entries p G) V).
  { intros d (V & [Hv Hd] & Hu). exists V. by rewrite Hd. }
  eapply triple_conseq; [apply (triple_for_each (λ _, True) (native_entries p G) _
    (λ es d _ p', p' = p0 ∧ ∃ V, shows (dirs d0) V d ∧ units_written root dir es V)
    (λ _ _ _ p', p' = p0))|done| |naive_solver|done].
  - intros es [n t] rest Hes.
    assert (Hin : (n, t) ∈ native_entries p G) by (rewrite Hes; set_solver).
    pose proof (native_names cfg G n t Hg Hin) as Hn.
    eapply triple_weaken_pre with (Pre' := λ d _ p', ∃ V,
      (shows (dirs d0) V d ∧ p' = p0) ∧ units_written root dir es V); [naive_solver|].
    apply triple_exists. intros V. apply triple_when. intros Hu.
    apply triple_map_error. eapply triple_conseq;
      [apply (triple_write_with_mode (dirs d0) V (path_join root n)
         (text_bytes (str_replace WRAPPER_DIR_PLACEHOLDER dir t)) 420 p0 (unit_not_temp p root n Hn))
      |done|done| |naive_solver].
    intros u d l p' [(m & _ & Hd) ->]. split; [done|]. eexists. split; [exact Hd|].
    intros n' t' Hnt. unfold overwrite.
    destruct (decide (path_join root n' = path_join root n)) as [Heq|Hne].
    + assert (Hin' : (n', t') ∈ native_entries p G) by (rewrite Hes; set_solver).
      pose proof (native_names cfg G n' t' Hg Hin') as Hn'.
      apply last_component in Heq as ->; [|by eapply unit_name_shape..].
      apply elem_of_native in Hin as [Hl _]. apply elem_of_native in Hin' as [Hl' _].
      cbn. do 2 f_equal. congruence.
    + apply elem_of_app in Hnt as [Hnt|[[= -> ->]|Hnt]%elem_of_cons]; [by apply Hu|done|].
      by apply elem_of_nil in Hnt.
  - intros d l p' (-> & -> & ->). split; [done|]. exists (look d0). split; [by split|].
    intros n t Hnt. by apply elem_of_nil in Hnt.
Qed.

Lemma io_bind_Ok {P E A B} (m : io P E A) (f : A → io P E B) w b w' :
  (m ≫= f) w = (Ok b, w') → ∃ a w1, m w = (Ok a, w1) ∧ f a w1 = (Ok b, w').
Proof. unfold mbind, io_bind. destruct (m w) as [[a|e] w1]; [|done]. eauto. Qed.

(** Whatever the environment does, a unit file holds its own marker after its
    text is written and read back. *)
Lemma own_after_reading t :
  is_own_generated_unit t = true → is_own_generated_unit (lossy (text_bytes t)) = true.
Proof.
  unfold is_own_generated_unit, lossy, text_bytes. intros Ht.
  rewrite string_of_list_byte_of_string. by apply lossy_contains.
Qed.

Lemma moves_load options root :
  leaves_files (run options) → moves same_content (load_launchd_units options root : io (proc X) _ _).
Proof.
  intros Hq. apply moves_for_each; [apply _|]. intros short _.
  apply moves_bind; [apply _| |]; [by apply moves_ignore|intros _].
  apply moves_bind; [apply _| |intros _; apply moves_ret; apply _]. by apply moves_map_error.
Qed.

Lemma moves_enable options :
  leaves_files (run options) → moves same_content (enable_systemd_timers options : io (proc X) _ _).
Proof.
  intros Hq. apply moves_bind; [apply _| |intros _].
  - apply moves_bind; [apply _| |intros _; apply moves_ret; apply _]. by apply moves_map_error.
  - apply moves_for_each; [apply _|]. intros short _.
    apply moves_bind; [apply _| |intros _; apply moves_ret; apply _]. by apply moves_map_error.
Qed.

(** The configuration [install] generates for. *)
Definition install_config (options : InstallOptions X) (p : Platform) : Config :=
  let cfg := config options in
  {| platform := Some p;
     output_dir := if is_empty (output_dir cfg) then output_dir Config_default else output_dir cfg;
     tick_hour := tick_hour cfg; tick_minute := tick_minute cfg; poll_hours := poll_hours cfg;
     project_dir := project_dir cfg; binary_path := binary_path cfg;
     venv_activate := venv_activate cfg |}.

Lemma install_writes_units (options : InstallOptions X) p root res w w' :
  leaves_files (run options) → p ≠ Cron →
  resolve_platform options = Ok p → install_root options p = Ok root →
  install options w = (Ok res, w') →
  ∀ n, n ∈ unit_names p → ∃ c, content (now_disk (system w')) (path_join root n) = Some c ∧
    is_own_generated_unit (lossy c) = true.
Proof.
  intros Hq Hp Hres Hroot Hi n Hn. unfold install in Hi. rewrite Hres in Hi.
  apply io_bind_Ok in Hi as (p' & w1 & [= <- <-] & Hi).
  apply io_bind_Ok in Hi as (us & w2 & _ & Hi).
  destruct (negb _ && _); [done|]. fold (install_config options p) in Hi.
  apply io_bind_Ok in Hi as (G & w3 & [= Hg <-] & Hi).
  apply io_bind_Ok in Hi as (written & w4 & _ & Hi).
  apply io_bind_Ok in Hi as ([] & w5 & _ & Hi). rewrite bool_decide_eq_false_2 in Hi by done.
  rewrite Hroot in Hi. apply io_bind_Ok in Hi as (root' & w6 & [= <- <-] & Hi).
  apply io_bind_Ok in Hi as ([] & w7 & _ & Hi).
  apply io_bind_Ok in Hi as ([] & w8 & Hw8 & Hi).
  apply io_bind_Ok in Hi as ([] & w9 & Hw9 & [= _ <-]).
  destruct (generated_units_own _ _ (output_dir (install_config options p)) n Hg Hn) as (t & Ht & Hown).
  destruct (triple_install_native _ G root (output_dir (install_config options p)) (process w7) Hg w7 eq_refl)
    as [_ Hpost]. change (config_platform (install_config options p)) with p in Hpost.
  change (output_dir (install_config options p)) with
    (if is_empty (output_dir (config options)) then output_dir Config_default
     else output_dir (config options)) in *.
  rewrite Hw8 in Hpost. unfold holds in Hpost. cbn in Hpost. destruct Hpost as [_ (V & [HV _] & Hu)].
  assert (Hc : content (now_disk (system w8)) (path_join root n) =
    Some (text_bytes (str_replace WRAPPER_DIR_PLACEHOLDER
      (if is_empty (output_dir (config options)) then output_dir Config_default
       else output_dir (config options)) t))).
  { rewrite content_look, HV by by apply (unit_not_temp p). apply Hu. apply elem_of_native.
    split; [done|]. by destruct (unit_name_shape p n Hn) as (_ & _ & ?). }
  assert (Hsame : same_content (now_disk (system w8)) (now_disk (system w9))).
  { case_bool_decide.
    - destruct (moves_load options root Hq w8) as [_ Hs]. by rewrite Hw9 in Hs.
    - destruct (moves_enable options Hq w8) as [_ Hs]. by rewrite Hw9 in Hs. }
  eexists. split; [rewrite Hsame; exact Hc|]. by apply own_after_reading.
Qed.

(** A successful installation does not stand in its own way: scanning for
    foreign units afterwards finds none, as long as the unit files are what the
    installation left, so installing again is not refused. *)
Theorem install_then_scan (options : InstallOptions X) p home res w w1 w2 units w3 :
  honest_faults → leaves_files (run options) → p ≠ Cron →
  resolve_platform options = Ok p → scan_home (home_dir options) = Ok home →
  install_root options p = Ok (unit_root home p) →
  install options w = (Ok res, w1) →
  (∀ n, n ∈ unit_names p → content (now_disk (system w2)) (path_join (unit_root home p) n) =
     content (now_disk (system w1)) (path_join (unit_root home p) n)) →
  (scan_legacy_python_units (home_dir options) (Some p) : io (proc X) _ _) w2 = (Ok units, w3) →
  units = [].
Proof.
  intros Hhon Hq Hp Hres Hhome Hroot Hi Hsame Hscan.
  destruct (triple_scan (home_dir options) p (now_disk (system w2)) (process w2) Hhon w2) as [_ Hpost];
    [done|]. rewrite Hscan in Hpost. unfold holds in Hpost. cbn in Hpost.
  destruct Hpost as [(h & Hh & ->) _]. assert (h = home) as -> by congruence.
  pose proof (install_writes_units options p _ res w w1 Hq Hp Hres Hroot Hi) as Hown.
  unfold found_units. apply elem_of_nil_inv. intros u (n & Hn & Hu)%list_elem_of_omap.
  destruct (Hown n Hn) as (c & Hc & Ho). rewrite Hsame, Hc in Hu by done. cbn in Hu.
  unfold legacy_unit in Hu. by rewrite Ho in Hu.
Qed.

End again.

(* ------------------------------------------------------------------ *)
(** ** The crontab of the system *)

(** The user's table, in the world outside the process. *)
Class CrontabOf (X : Type) := { table : X → option bytes }.

Definition table_of {X} `{CrontabOf X} (w : world (proc X)) : option bytes :=
  table (outside (process w)).

(** [crontab -l] shows the table, [crontab file] replaces it by the file; either
    may fail, and then changes nothing. *)
Record crontab_runner {X} `{CrontabOf X} (r : Runner X) : Prop := {
  cr_list w : let '(o, w') := r "crontab" ["-l"] w in
    table_of w' = table_of w ∧ ∀ c, o = Ok c → table_of w = Some c;
  cr_load path w : path ≠ "-l" → let '(o, w') := r "crontab" [path] w in
    table_of w' = if is_ok o then content (now_disk (system w)) path else table_of w;
}.

Section cron.
Context {X : Type} `{!CrontabOf X} `{Disk.Env} `{SchedulerHost} `{TempFile} `{CharLower} `{Lowercase}
  `{RustFmt} `{!ProcessOutput X}.

Lemma triple_fs_write {P} path c (p0 : P) :
  triple (λ _, True) (λ _ _ p, p = p0) (fs_write path c)
    (λ _ d _ p, content d path = Some c ∧ p = p0) (λ _ _ _ p, p = p0).
Proof.
  unfold fs_write. eapply triple_bind with (Mid := λ h d _ p,
    (names d !! path = Some h ∧ ∃ f, Disk.files d !! h = Some f ∧ data f = []) ∧ p = p0).
  - apply triple_atomically; [done|]. intros s p ->. cbv zeta.
    case_bool_decide; [done|]. case_bool_decide; [done|].
    destruct (names (now_disk s) !! path) as [i|] eqn:En; cbn; rewrite ?lookup_insert_eq;
      (split; [done|]; split; [|done]); eauto.
  - intros h. apply triple_syscall; [naive_solver|].
    intros s p [(Hn & f & Hf & Hd) ->]. split; [done|]. split; [|done].
    unfold append_data. rewrite Hf. unfold content. cbn. rewrite Hn. cbn.
    by rewrite lookup_insert_eq, Hd.
Qed.

Lemma fs_write_spec {P} path c (w : world P) :
  let '(r, w') := fs_write path c w in
  process w' = process w ∧ (is_ok r = true → content (now_disk (system w')) path = Some c).
Proof.
  destruct (triple_fs_write path c (process w) w eq_refl) as [_ Hw]. unfold holds in Hw.
  destruct (fs_write path c w) as [[u|e] w']; cbn in *; naive_solver.
Qed.

Lemma remove_file_process {P} path (w : world P) : process (remove_file path w).2 = process w.
Proof.
  unfold remove_file, atomically, syscall. destruct (fault _) as [[e n]|]; [done|].
  by destruct (names (now_disk (system w)) !! path).
Qed.

Lemma create_dir_all_process {P} dir (w : world P) : process (create_dir_all dir w).2 = process w.
Proof.
  unfold create_dir_all, syscall. destruct (fault _) as [[e n]|]; [done|]. by case_bool_decide.
Qed.

Lemma apply_crontab_table options staging text w :
  crontab_runner (run options) → staging ≠ "-l" →
  let '(r, w') := apply_crontab options staging text w in
  table_of w' = if is_ok r then Some (text_bytes text) else table_of w.
Proof.
  intros Hr Hs. unfold apply_crontab, mbind, io_bind, map_error, try, ignore, of_result, table_of.
  pose proof (fs_write_spec staging (text_bytes text) w) as Hw.
  destruct (fs_write staging (text_bytes text) w) as [[u|e] w1]; cbn in *; [|by destruct Hw as [-> _]].
  destruct Hw as [Hp Hc]. pose proof (cr_load _ Hr staging w1 Hs) as Hl. unfold table_of in Hl.
  destruct (run options "crontab" [staging] w1) as [o w2]. rewrite Hc, Hp in Hl by done.
  pose proof (remove_file_process staging w2) as Hrm.
  destruct (remove_file staging w2) as [q w3]. cbn in *. rewrite Hrm, Hl. by destruct o.
Qed.

Lemma path_join_longer dir s : starts_with "/" s = false → (String.length s ≤ String.length (path_join dir s))%nat.
Proof.
  intros Hs. unfold path_join. rewrite Hs. destruct (_ || _); rewrite !string_length_app; lia.
Qed.

Lemma starts_slash_app prefix t :
  (2 < String.length prefix)%nat → starts_with "/" prefix = false →
  starts_with "/" (prefix +:+ t) = false.
Proof.
  destruct prefix as [|c p]; [cbn; lia|]. intros _.
  change (String c p +:+ t) with (String c (p +:+ t)). rewrite !starts_with_cons.
  by destruct (Ascii.eqb "/" c).
Qed.

Lemma staging_path_spec dir prefix w :
  starts_with "/" prefix = false → (2 < String.length prefix)%nat →
  let '(r, w') := (staging_path dir prefix : io (proc X) _ _) w in
  table_of w' = table_of w ∧ match r with Ok path => path ≠ "-l" | Err e => True end.
Proof.
  intros Hs Hl. unfold staging_path, mbind, io_bind, system_time, get_process, modify_process, map_error, table_of.
  cbn. match goal with |- context [create_dir_all dir ?w0] =>
    pose proof (create_dir_all_process dir w0) as Hp; destruct (create_dir_all dir w0) as [[u|e] w1] end;
    cbn in *; rewrite Hp; cbn; (split; [done|]); [|done].
  intros Heq. apply (f_equal String.length) in Heq.
  match type of Heq with String.length (path_join dir (prefix +:+ ?t)) = _ =>
    pose proof (path_join_longer dir (prefix +:+ t) (starts_slash_app prefix t Hl Hs)) as Hlong;
    rewrite string_length_app in Hlong end.
  cbn [String.length] in Heq. lia.
Qed.

(** Installing for cron replaces the user's table by the foreign lines of
    what [crontab -l] listed and this program's block, uninstalling by the
    foreign lines alone; when either fails the table is what it was.  (A listing
    that fails counts as an empty table when installing, and ends an
    uninstallation.) *)
Theorem cron_tables (options : InstallOptions X) G dir w :
  crontab_runner (run options) →
  (let '(r, w') := install_cron options G dir w in
   let listed := default [] (ok (run options "crontab" ["-l"] w).1) in
   table_of w' = if is_ok r
     then Some (text_bytes (updated_crontab (lossy listed) (default "" (G !! "crontab.txt")) dir))
     else table_of w) ∧
  (let '(r, w') := uninstall_cron options w in
   table_of w' = match (run options "crontab" ["-l"] w).1 with
     | Ok listed => if is_ok r then Some (text_bytes (remove_cron_block (lossy listed))) else table_of w
     | Err _ => table_of w
     end).
Proof.
  intros Hr. pose proof (cr_list _ Hr w) as Hlist.
  unfold install_cron, uninstall_cron. split.
  - unfold try, mbind, io_bind. destruct (run options "crontab" ["-l"] w) as [o w1]. cbn [fst].
    destruct Hlist as [Ht _].
    pose proof (staging_path_spec dir ".crontab-" w1 eq_refl ltac:(cbn; lia)) as Hs.
    destruct (staging_path dir ".crontab-" w1) as [[path|e] w2]; destruct Hs as [Hs Hne]; [|cbn; congruence].
    set (text := updated_crontab _ _ _).
    pose proof (apply_crontab_table options path text w2 Hr Hne) as Ha.
    destruct (apply_crontab options path text w2) as [r w3]. destruct (is_ok r); congruence.
  - unfold try, mbind, io_bind. destruct (run options "crontab" ["-l"] w) as [o w1]. cbn [fst].
    destruct Hlist as [Ht _]. destruct o as [listed|e]; [|done].
    pose proof (staging_path_spec temp_dir ".symeraseme-crontab-" w1 eq_refl ltac:(cbn; lia)) as Hs.
    destruct (staging_path temp_dir ".symeraseme-crontab-" w1) as [[path|e] w2]; destruct Hs as [Hs Hne];
      [|cbn; congruence].
    set (text := remove_cron_block _).
    pose proof (apply_crontab_table options path text w2 Hr Hne) as Ha.
    destruct (apply_crontab options path text w2) as [r w3]. destruct (is_ok r); congruence.
Qed.

End cron.
