(* ===== verification/SchedulerWitness.v ===== *)
(** The scheduler's theorems at a concrete machine: a Linux host with a home
    directory, a temporary file name, and a runner that keeps a crontab. *)
From S2P Require Import Prelude.
From S2P Require Import Text.
From S2P Require Import Identity.
From S2P Require Import Encryption.
From S2P Require Import Disk.
From S2P Require Import DiskFacts.
From S2P Require Import Scheduler.
From S2P Require Import SchedulerFacts.
From S2P Require Import SchedulerInstall.
From S2P Require Import SchedulerInstallFacts.
From S2P Require Import SchedulerFlow.
From Stdlib Require Import Ascii Strings.Byte.

#[local] Instance no_faults : Disk.Env := {|
  fault _ := None;
  clock n := Z.of_nat n;
  random_u64 n := Z.of_nat n;
  readdir _ l := l;
  os_text _ := "error";
|}.

Lemma no_faults_honest : honest_faults.
Proof. intros n e k [=]. Qed.

#[local] Instance linux_host : SchedulerHost := {|
  target_macos := false;
  target_linux := true;
  env_var name := if (name =? "HOME")%string then Some "/home/u" else None;
  current_exe := Ok "/usr/bin/symeraseme";
  current_dir := Ok "/home/u";
  fs_metadata _ := None;
|}.

#[local] Instance one_temp : TempFile := {| temp_name _ _ := ".tmpA"; dir_mode _ := 493 |}.

#[local] Instance one_temp_laws : TempFileLaws.
Proof. by split. Qed.

#[local] Instance same_lower : CharLower := {| char_lower c := [c] |}.
#[local] Instance lower_same : Lowercase := {| to_lowercase s := s |}.
#[local] Instance plain_debug : RustFmt := {| debug_str s := s |}.

(** The world outside: the user's crontab. *)
Notation cron_world := (option bytes).

#[local] Instance no_programs : ProcessOutput cron_world :=
  {| command_output _ _ := throw (io_other "no program") |}.

#[local] Instance the_table : CrontabOf cron_world := {| table x := x |}.

Definition fake : Runner cron_world := λ name args w,
  match args with
  | [arg] =>
      if (arg =? "-l")%string then
        match outside (process w) with
        | Some c => (Ok c, w)
        | None => (Err (io_other "no crontab"), w)
        end
      else
        match content (now_disk (system w)) arg with
        | Some c => (Ok [], World (system w) (Proc (sequence (process w)) (Some c)))
        | None => (Err (io_other "no such file"), w)
        end
  | _ => (Ok [], w)
  end.

Lemma fake_leaves_files name args : moves same_content (fake name args).
Proof.
  intros w. unfold fake. repeat case_match; (split; [by exists []|by intros q]).
Qed.

Lemma fake_crontab : crontab_runner fake.
Proof.
  split.
  - intros w. unfold fake. cbn. unfold table_of, table, the_table.
    destruct (outside (process w)) as [c|] eqn:E; cbn; (split; [done|]); naive_solver.
  - intros path w Hp. unfold fake. rewrite (proj2 (String.eqb_neq _ _) Hp). unfold table_of.
    by destruct (content (now_disk (system w)) path).
Qed.

Definition a_config (p : Platform) : Config :=
  {| platform := Some p; output_dir := "/home/u/schedules"; tick_hour := 6; tick_minute := 45;
     poll_hours := [8; 20]; project_dir := "/home/u/my files"; binary_path := "/opt/it's/symeraseme";
     venv_activate := "" |}.

Definition a_run (p : Platform) : InstallOptions cron_world :=
  {| config := a_config p; platform_name := None; home_dir := Some "/home/u"; xdg_config_home := None;
     replace_legacy := false; runner := Some fake |}.

(** A disk with the home directory and the given files. *)
Definition a_disk (l : list (string * string)) : disk :=
  Disk (list_to_map (imap (λ i e, (e.1, i)) l)) []
    (list_to_map (imap (λ i e, (i, File (text_bytes e.2) true 0 420)) l))
    (list_to_set ["/"; "/home"; "/home/u"; "/home/u/.config"; "/home/u/.config/systemd";
                  "/home/u/.config/systemd/user"; "/tmp"]) ∅.

Definition a_world (l : list (string * string)) (c : option string) : world (proc cron_world) :=
  World (Os (a_disk l) ∅ 0 []) (Proc 0 (text_bytes <$> c)).

Lemma generate_wrappers_witness :
  ∃ files, generate (a_config Systemd) = Ok files ∧
    (sh_script <$> files !! "symeraseme-rescan.sh") =
    Some (Some [["set"; "-euo"; "pipefail"]; ["export"; "SYMERASEME_HEADLESS=1"];
                ["cd"; "/home/u/my files"];
                ["exec"; "/opt/it's/symeraseme"; "tick"; "--output"; "json"]]).
Proof.
  exists (platform_generate Systemd (a_config Systemd) "/opt/it's/symeraseme" "/home/u/my files" [8; 20]).
  assert (Hg : generate (a_config Systemd) = Ok (platform_generate Systemd (a_config Systemd)
    "/opt/it's/symeraseme" "/home/u/my files" [8; 20])) by reflexivity.
  split; [exact Hg|].
  destruct (generate_wrappers _ _ Hg) as (bin & dir & [= <-] & [= <-] & Hall).
  exact (Hall eq_refl eq_refl eq_refl "symeraseme-rescan.sh" _ eq_refl).
Defined.

Lemma poll_patterns_spec_witness : clock_text 8 0 ∈ split "|" (poll_patterns [8; 20]).
Proof. apply (poll_patterns_spec [8; 20] 8 0); [done|done|lia|lia|]. split; [done|by left]. Defined.

Definition a_crontab : string := unlines ["0 4 * * * backup"; ""].


(* ------------------------------------------------------------------ *)
(** ** Runs *)

Definition user_units : string := "/home/u/.config/systemd/user".

(** A hand-written unit under one of the names. *)
Definition foreign_world : world (proc cron_world) :=
  a_world [(path_join user_units "symeraseme-tick.timer", unlines ["[Timer]"; "OnCalendar=daily"])] None.


Definition empty_world : world (proc cron_world) := a_world [] None.

Definition installed_world : world (proc cron_world) := (install (a_run Systemd) empty_world).2.

Lemma installed_ok : is_ok (install (a_run Systemd) empty_world).1 = true.
Proof. vm_compute. reflexivity. Qed.

Lemma run_ok {X A E} (m : io X E A) w :
  is_ok (m w).1 = true → ∃ a, m w = (Ok a, (m w).2).
Proof. destruct (m w) as [[a|e] w']; [by exists a|done]. Qed.

(** Nothing is found after the installation, so it may be repeated. *)
Lemma install_then_scan_witness :
  ∃ w3, (scan_legacy_python_units (Some "/home/u") (Some Systemd) : io (proc cron_world) _ _)
    installed_world = (Ok [], w3).
Proof.
  destruct (run_ok _ _ installed_ok) as [res Hres].
  assert (Hs : is_ok ((scan_legacy_python_units (Some "/home/u") (Some Systemd) : io (proc cron_world) _ _)
    installed_world).1 = true) by (vm_compute; reflexivity).
  destruct (run_ok _ _ Hs) as [units Hu].
  assert (Hnil : units = []).
  { eapply (install_then_scan (a_run Systemd) Systemd "/home/u" res empty_world installed_world
      installed_world); [exact no_faults_honest|exact fake_leaves_files|done|done|done|done|exact Hres|done|exact Hu]. }
  subst. by eexists.
Defined.

Lemma uninstall_removes_units_witness :
  let '(r, w') := uninstall (a_run Systemd) installed_world in
  is_ok r = true ∧ content (now_disk (system w')) (path_join user_units "symeraseme-tick.timer") = None ∧
  content (now_disk (system w')) "/home/u/schedules/symeraseme-tick.sh" =
    content (now_disk (system installed_world)) "/home/u/schedules/symeraseme-tick.sh".
Proof.
  pose proof (uninstall_removes_units (a_run Systemd) Systemd user_units installed_world
    no_faults_honest fake_leaves_files ltac:(done) eq_refl eq_refl) as H.
  assert (Ho : is_ok (uninstall (a_run Systemd) installed_world).1 = true) by (vm_compute; reflexivity).
  destruct (uninstall (a_run Systemd) installed_world) as [r w']. destruct H as (_ & Hout & Hin).
  split; [exact Ho|]. split; [apply Hin; [exact Ho|cbn; set_solver]|].
  apply Hout. apply (bool_decide_unpack _). vm_compute. exact I.
Defined.

Lemma cron_tables_witness :
  let w := a_world [] (Some a_crontab) in
  let G : gmap string string := {["crontab.txt" := cron_tab 6 45]} in
  table_of (install_cron (a_run Cron) G "/home/u/schedules" w).2 =
  Some (text_bytes (updated_crontab a_crontab (cron_tab 6 45) "/home/u/schedules")).
Proof.
  intros w G. destruct (cron_tables (a_run Cron) G "/home/u/schedules" w fake_crontab) as [H _].
  assert (Ho : is_ok (install_cron (a_run Cron) G "/home/u/schedules" w).1 = true) by (vm_compute; reflexivity).
  destruct (install_cron (a_run Cron) G "/home/u/schedules" w) as [r w']. cbn [fst snd] in *.
  rewrite Ho in H. rewrite H. vm_compute. reflexivity.
Defined.

Lemma write_files_safe_witness :
  let '(r, w') := (write_files "/home/u/schedules" {["install.sh" := "true"]} : io (proc cron_world) _ _)
    empty_world in
  r = Ok ["/home/u/schedules/install.sh"] ∧
  content (now_disk (system w')) "/home/u/schedules/install.sh" = Some (text_bytes "true").
Proof.
  assert (Ht : ∀ n, is_Some (({["install.sh" := "true"]} : gmap string string) !! n) →
    ¬ is_temp (target_path "/home/u/schedules" n)).
  { intros n [t [<- _]%lookup_singleton_Some] (s & dir & Heq).
    apply (last_component "/home/u/schedules" "install.sh" dir ".tmpA") in Heq; done. }
  pose proof (write_files_safe "/home/u/schedules" {["install.sh" := "true"]} "/home/u/schedules"
    empty_world eq_refl Ht) as H.
  assert (Ho : is_ok ((write_files "/home/u/schedules" {["install.sh" := "true"]} : io (proc cron_world) _ _)
    empty_world).1 = true) by (vm_compute; reflexivity).
  destruct (write_files "/home/u/schedules" _ empty_world) as [[ps|e] w']; [|done].
  destruct H as (_ & _ & _ & -> & _ & Hw). split; [vm_compute; reflexivity|].
  rewrite content_look. apply (Hw ltac:(apply (bool_decide_unpack _); vm_compute; exact I) "install.sh" "true").
  vm_compute. by left.
Defined.
