(* ===== verification/McpScan.v ===== *)
(** The byte scanner of the MCP server: [scan_json_value], [scan_json_string],
    [skip_json_primitive], [json_scan_error] and [is_json_number] of
    [cli/mcp/protocol.rs].

    A position [index] in [raw] is represented by the bytes from it on, so
    [raw.get(index)] is the head and [index += 1] the tail; a scanner gives the
    bytes after what it read.  [Result<Option<usize>, JsonScanError>] is
    [scan bytes]: [Ok None] says that the input ended inside the value. *)
From S2P Require Import Prelude.
From S2P Require Import Text.
From S2P Require Import Json.
From S2P Require Import Identity.
From S2P Require Import Encryption.
From S2P Require Import JsonText.
From S2P Require Import ProfileJson.
From Stdlib Require Import Ascii Strings.Byte.
From Corelib Require Import SpecFloat.

#[local] Notation length := List.length.

(** ** Results *)

(** The text of a [JsonScanError]. *)
Notation scan A := (result string (option A)).

(** [let Some(x) = m? else { return Ok(None) }] *)
Definition scan_bind {A B} (m : scan A) (f : A → scan B) : scan B :=
  match m with Ok (Some a) => f a | Ok None => Ok None | Err e => Err e end.

Notation "'let!' x ':=' m 'in' k" := (scan_bind m (λ x, k))
  (at level 200, x name, m at level 100, k at level 200) : stdpp_scope.

(** [Ok(Some(x))] *)
Notation done x := (Ok (Some x)).

(** ** Errors *)

(** [{byte:02x}] *)
Definition hex2 (v : Z) : string := 
  String (Identity.hex_digit (v / 16)) (String (Identity.hex_digit (v mod 16)) "").

(** [char::from(byte).to_string()]: Latin-1, as UTF-8. *)
Definition latin1 (v : Z) : string :=
  if v <? 128 then String (ascii_of_nat (Z.to_nat v)) ""
  else String (ascii_of_nat (Z.to_nat (192 + v / 64)))
         (String (ascii_of_nat (Z.to_nat (128 + v mod 64))) "").

Definition quote_char (byte : byte) : string :=
  let v := bval byte in
  if bool_decide (byte = "'"%byte) then "\'"
  else if bool_decide (byte = backslash) then "\\"
  else if v =? 7 then "\a"
  else if v =? 8 then "\b"
  else if v =? 12 then "\f"
  else if v =? 10 then "\n"
  else if v =? 13 then "\r"
  else if v =? 9 then "\t"
  else if v =? 11 then "\v"
  else if between 0 31 v || (v =? 127) then "\x" +:+ hex2 v
  else if between 128 160 v || (v =? 173) then "\u00" +:+ hex2 v
  else latin1 v.

Definition scan_error_text (byte : byte) (context : string) : string :=
  "invalid character '" +:+ quote_char byte +:+ "' " +:+ context.

Definition json_scan_error {A} (raw : bytes) (context : string) : scan A :=
  match raw with
  | [] => Ok None
  | byte :: _ => Err (scan_error_text byte context)
  end.

(** ** White space and strings *)

Fixpoint skip_whitespace (raw : bytes) : bytes :=
  match raw with
  | byte :: raw' => if is_ws byte then skip_whitespace raw' else raw
  | [] => []
  end.

(** The next [n] bytes are hexadecimal digits. *)
Fixpoint scan_hex (n : nat) (raw : bytes) : scan () :=
  match n with
  | O => done ()
  | S n =>
      match raw with
      | byte :: raw' =>
          if is_hex byte then scan_hex n raw'
          else json_scan_error raw "in \u hexadecimal character escape"
      | [] => json_scan_error raw "in \u hexadecimal character escape"
      end
  end.

(** The loop of [scan_json_string], after the opening quote. *)
Fixpoint scan_string_body (raw : bytes) : scan bytes :=
  match raw with
  | [] => Ok None
  | byte :: raw' =>
      if bool_decide (byte = backslash) then
        match raw' with
        | escape :: raw'' =>
            if bool_decide (escape = "u"%byte) then
              let! _ := scan_hex 4 raw'' in
              match raw'' with
              | _ :: _ :: _ :: _ :: after => scan_string_body after
              | _ => Ok None
              end
            else if is_escape escape then scan_string_body raw''
            else json_scan_error raw' "in string escape code"
        | [] => json_scan_error raw' "in string escape code"
        end
      else if bool_decide (byte = quote) then done raw'
      else if bval byte <? 32 then json_scan_error raw "in string literal"
      else scan_string_body raw'
  end.

Definition scan_json_string (raw : bytes) : scan bytes :=
  match raw with
  | byte :: raw' =>
      if bool_decide (byte = quote) then scan_string_body raw'
      else json_scan_error raw "looking for beginning of object key string"
  | [] => json_scan_error raw "looking for beginning of object key string"
  end.

(** [result.ok().flatten()] *)
Definition flatten {A} (m : scan A) : option A := match m with Ok o => o | Err _ => None end.

Definition skip_json_string (raw : bytes) : option bytes := flatten (scan_json_string raw).

(** ** Literals and numbers *)

(** [raw.get(index) == Some(&b)] *)
Definition next_is (b : byte) (raw : bytes) : bool :=
  match raw with byte :: _ => bool_decide (byte = b) | [] => false end.

(** [index += 1] *)
Notation next := tail.

Fixpoint skip_digits (raw : bytes) : bytes :=
  match raw with
  | byte :: raw' => if is_digit byte then skip_digits raw' else raw
  | [] => []
  end.

(** [for expected in literal.bytes()] *)
Fixpoint scan_literal (literal : string) (expected raw : bytes) : scan bytes :=
  match expected with
  | [] => done raw
  | b :: expected' =>
      if next_is b raw then scan_literal literal expected' (next raw)
      else json_scan_error raw
             ("in literal " +:+ literal +:+ " (expecting '" +:+ latin1 (bval b) +:+ "')")
  end.

(** Digits, at least one. *)
Definition digits_or {A} (raw : bytes) (error : bytes → scan A) (k : bytes → scan A) : scan A :=
  let after := skip_digits raw in
  if Nat.eqb (length after) (length raw) then error after else k after.

Definition scan_number (raw : bytes) : scan bytes :=
  let raw := if next_is "-"%byte raw then next raw else raw in
  let! raw :=
    match raw with
    | byte :: raw' =>
        if bool_decide (byte = "0"%byte) then done raw'
        else if between 49 57 (bval byte) then done (skip_digits raw')
        else json_scan_error raw "in numeric literal"
    | [] => json_scan_error raw "in numeric literal"
    end in
  let! raw :=
    (if next_is "."%byte raw then
       digits_or (next raw)
         (λ raw, json_scan_error raw "after decimal point in numeric literal") (λ raw, done raw)
     else done raw) in
  if next_is "e"%byte raw || next_is "E"%byte raw then
    let raw := next raw in
    let raw := if next_is "+"%byte raw || next_is "-"%byte raw then next raw else raw in
    digits_or raw (λ raw, json_scan_error raw "in exponent of numeric literal") (λ raw, done raw)
  else done raw.

Definition skip_json_primitive (raw : bytes) : scan bytes :=
  match raw with
  | byte :: _ =>
      if bool_decide (byte = "n"%byte) then scan_literal "null" (lit "null") raw
      else if bool_decide (byte = "t"%byte) then scan_literal "true" (lit "true") raw
      else if bool_decide (byte = "f"%byte) then scan_literal "false" (lit "false") raw
      else if bool_decide (byte = "-"%byte) || is_digit byte then scan_number raw
      else json_scan_error raw "looking for beginning of value"
  | [] => json_scan_error raw "looking for beginning of value"
  end.

(** [is_json_number]: the same automaton over a whole text.  What it accepts is
    ASCII, so the test for UTF-8 before it decides nothing. *)
Definition is_json_number (value : bytes) : bool :=
  let raw := if next_is "-"%byte value then next value else value in
  let digits_then (raw : bytes) (k : bytes → bool) :=
    let after := skip_digits raw in
    if Nat.eqb (length after) (length raw) then false else k after in
  let exponent (raw : bytes) :=
    if next_is "e"%byte raw || next_is "E"%byte raw then
      let raw := next raw in
      let raw := if next_is "+"%byte raw || next_is "-"%byte raw then next raw else raw in
      digits_then raw (λ raw, match raw with [] => true | _ => false end)
    else match raw with [] => true | _ => false end in
  let fraction (raw : bytes) :=
    if next_is "."%byte raw then digits_then (next raw) exponent else exponent raw in
  match raw with
  | byte :: raw' =>
      if bool_decide (byte = "0"%byte) then fraction raw'
      else if between 49 57 (bval byte) then fraction (skip_digits raw')
      else false
  | [] => false
  end.

(** ** Doubles *)

Definition digit_of (b : byte) : Z := bval b - 48.

(** The value of a run of digits, continuing [acc]. *)
Definition digits_number (acc : Z) (ds : bytes) : Z :=
  foldl (λ acc b, acc * 10 + digit_of b) acc ds.

(** The digits at the head of a text, and what follows them. *)
Definition take_digits (raw : bytes) : bytes := take (length raw - length (skip_digits raw)) raw.

(** A decimal number text as sign, mantissa and power of ten. *)
Definition decimal_parts (text : bytes) : bool * Z * Z :=
  let negative := next_is "-"%byte text in
  let text := if negative then next text else text in
  let int := take_digits text in
  let text := skip_digits text in
  let '(frac, text) :=
    if next_is "."%byte text then (take_digits (next text), skip_digits (next text))
    else ([], text) in
  let exponent :=
    match text with
    | _ :: text =>
        let minus := next_is "-"%byte text in
        let text := if minus || next_is "+"%byte text then next text else text in
        if minus then - digits_number 0 text else digits_number 0 text
    | [] => 0
    end in
  (negative, digits_number (digits_number 0 int) frac, exponent - Z.of_nat (length frac)).

(** The double nearest to [±m * 10^e], ties to even. *)
Definition f64_of_decimal (negative : bool) (m e : Z) : spec_float :=
  match m with
  | Zpos p =>
      if 0 <=? e then
        binary_normalize 53 1024 (if negative then - (Zpos p * 10 ^ e) else Zpos p * 10 ^ e) 0 negative
      else SFdiv 53 1024 (S754_finite negative p 0) (S754_finite false (Z.to_pos (10 ^ (- e))) 0)
  | _ => S754_zero negative
  end.

(** [text.parse::<f64>()] on a JSON number. *)
Definition parse_f64 (text : bytes) : spec_float :=
  let '(negative, m, e) := decimal_parts text in f64_of_decimal negative m e.

(** [f64::is_finite] *)
Definition f64_is_finite (f : spec_float) : bool :=
  match f with S754_zero _ | S754_finite _ _ _ => true | _ => false end.

(** ** The stack of open containers *)

Inductive ObjectState := FirstKeyOrEnd | KeyAfterComma | ObjectAfterValue.
Inductive ArrayState := FirstValueOrEnd | ValueAfterComma | ArrayAfterValue.
Inductive JsonFrame :=
| FrameObject (state : ObjectState)
| FrameArray (state : ArrayState).

(** The variables of the loop of [scan_json_value]; the last frame is the head
    of the list. *)
Record ScanState := {
  frames : list JsonFrame;
  needs_value : bool;
  at_raw : bytes;
}.

(** A turn of the loop goes on with a state or returns. *)
Inductive turn := Continue (s : ScanState) | Return (raw : bytes).

Definition continue (frames : list JsonFrame) (needs : bool) (raw : bytes) : scan turn :=
  done (Continue {| frames := frames; needs_value := needs; at_raw := raw |}).

(** A key and its colon. *)
Definition scan_key (frames : list JsonFrame) (raw : bytes) : scan turn :=
  let! raw := scan_json_string raw in
  let raw := skip_whitespace raw in
  if next_is ":"%byte raw then continue (FrameObject ObjectAfterValue :: frames) true (next raw)
  else json_scan_error raw "after object key".

(** The second half of a turn, with [needs_value] unset. *)
Definition scan_frame (frames : list JsonFrame) (raw : bytes) : scan turn :=
  match frames with
  | [] => done (Return raw)
  | frame :: frames =>
      let raw := skip_whitespace raw in
      match frame with
      | FrameObject FirstKeyOrEnd =>
          if next_is "}"%byte raw then continue frames false (next raw)
          else scan_key frames raw
      | FrameObject KeyAfterComma => scan_key frames raw
      | FrameObject ObjectAfterValue =>
          if next_is ","%byte raw then
            continue (FrameObject KeyAfterComma :: frames) false (next raw)
          else if next_is "}"%byte raw then continue frames false (next raw)
          else json_scan_error raw "after object key:value pair"
      | FrameArray FirstValueOrEnd =>
          if next_is "]"%byte raw then continue frames false (next raw)
          else continue (FrameArray ArrayAfterValue :: frames) true raw
      | FrameArray ValueAfterComma => continue (FrameArray ArrayAfterValue :: frames) true raw
      | FrameArray ArrayAfterValue =>
          if next_is ","%byte raw then
            continue (FrameArray ValueAfterComma :: frames) false (next raw)
          else if next_is "]"%byte raw then continue frames false (next raw)
          else json_scan_error raw "after array element"
      end
  end.

(** The token [raw] begins with is a number out of the range of a double. *)
Definition infinite_number (token : bytes) : bool :=
  is_json_number token && negb (f64_is_finite (parse_f64 token)).

Definition scan_turn (finite_numbers_only : bool) (s : ScanState) : scan turn :=
  if needs_value s then
    let raw := skip_whitespace (at_raw s) in
    let open (frame : JsonFrame) : scan turn :=
      if Nat.eqb (length (frames s)) GO_MAX_JSON_NESTING_DEPTH
      then json_scan_error raw "exceeded max depth"
      else continue (frame :: frames s) false (next raw) in
    match raw with
    | byte :: _ =>
        if bool_decide (byte = "{"%byte) then open (FrameObject FirstKeyOrEnd)
        else if bool_decide (byte = "["%byte) then open (FrameArray FirstValueOrEnd)
        else if bool_decide (byte = quote) then
          let! after := scan_json_string raw in scan_frame (frames s) after
        else
          let! after := skip_json_primitive raw in
          if finite_numbers_only && infinite_number (take (length raw - length after) raw)
          then Ok None
          else scan_frame (frames s) after
    | [] => Ok None
    end
  else scan_frame (frames s) (at_raw s).

Fixpoint scan_loop (fuel : nat) (finite_numbers_only : bool) (s : ScanState) : scan bytes :=
  match fuel with
  | O => Ok None
  | S fuel =>
      let! t := scan_turn finite_numbers_only s in
      match t with
      | Continue s => scan_loop fuel finite_numbers_only s
      | Return raw => done raw
      end
  end.

(** Two turns for every byte and one to return are enough. *)
Definition scan_json_value (raw : bytes) (finite_numbers_only : bool) : scan bytes :=
  scan_loop (2 * length raw + 2) finite_numbers_only
    {| frames := []; needs_value := true; at_raw := raw |}.

Definition skip_json_value (raw : bytes) : option bytes := flatten (scan_json_value raw false).

Definition skip_json_value_with_finite_numbers (raw : bytes) : option bytes :=
  flatten (scan_json_value raw true).
