(* ===== verification/McpScanFacts.v ===== *)
(** What the scanner of the MCP server accepts: exactly the JSON grammar of
    [JsonText]; when it asks for more input; and at which byte it gives up. *)
From S2P Require Import Prelude.
From S2P Require Import Text.
From S2P Require Import Encryption.
From S2P Require Import JsonText.
From S2P Require Import ProfileJson.
From S2P Require Import McpScan.
From Stdlib Require Import Ascii Strings.Byte.

#[local] Notation length := List.length.

(** A character of a string: any byte but the controls, the quote and the
    backslash; the bytes need not be UTF-8. *)
Definition mcp_char (p : bytes) : Prop :=
  ∃ b, p = [b] ∧ 32 ≤ bval b ∧ b ≠ quote ∧ b ≠ backslash.

Notation mstring := (json_string mcp_char).
Notation mchars := (json_chars mcp_char).
Notation mreads := (reads mcp_char).

(** The error [e] of [f] on [u] is found at a byte of [u]: before it more input
    is asked for, and with it every continuation has the same error, whose text
    quotes the byte. *)
Definition offends {A} (f : bytes → scan A) (u : bytes) (e : string) : Prop :=
  ∃ p b k context, u = p ++ b :: k ∧ e = scan_error_text b context ∧
    f p = Ok None ∧ ∀ k', f (p ++ b :: k') = Err e.

(** [x] is empty or begins like [u]. *)
Definition like (u x : bytes) : Prop := x = [] ∨ head x = head u.

Lemma offends_like {A} (f g : bytes → scan A) s u e :
  (∀ x, like u x → f (s ++ x) = g x) → offends g u e → offends f (s ++ u) e.
Proof.
  intros Hf (p & b & k & x & -> & -> & Hp & Hk). exists (s ++ p), b, k, x.
  split; [by rewrite app_assoc|]. split; [done|]. split.
  - rewrite Hf; [done|]. destruct p; [by left|by right].
  - intros k'. rewrite <-app_assoc, Hf; [apply Hk|]. right. by destruct p.
Qed.

Lemma offends_shift {A} (f g : bytes → scan A) s u e :
  (∀ x, f (s ++ x) = g x) → offends g u e → offends f (s ++ u) e.
Proof. intros Hf. apply offends_like. auto. Qed.

Lemma offends_head {A} (f : bytes → scan A) b k context :
  f [] = Ok None → (∀ k', f (b :: k') = json_scan_error (b :: k') context) →
  offends f (b :: k) (scan_error_text b context).
Proof. intros Hn Hb. exists [], b, k, context. split_and!; [done..|]. intros k'. apply Hb. Qed.

(** Where a first step fails, so does what follows it. *)
Lemma offends_bind {A B} (f : bytes → scan A) (h : A → scan B) u e :
  offends f u e → offends (λ u, scan_bind (f u) h) u e.
Proof.
  intros (p & b & k & x & -> & -> & Hp & Hk). exists p, b, k, x.
  split_and!; [done..|by rewrite Hp|]. intros k'. by rewrite Hk.
Qed.

Lemma like_head u b x : like (b :: u) (b :: x).
Proof. by right. Qed.

(* ------------------------------------------------------------------ *)
(** ** White space *)

Lemma skip_whitespace_split u : ∃ w, ws w ∧ u = w ++ skip_whitespace u ∧ until is_ws (skip_whitespace u).
Proof.
  induction u as [|b u (w & Hw & E & Hu)]; simpl; [by exists []|].
  destruct (is_ws b) eqn:Hb; [|by exists []].
  exists (b :: w). split; [by constructor|]. split; [simpl; by f_equal|done].
Qed.

Lemma skip_whitespace_app w k : ws w → until is_ws k → skip_whitespace (w ++ k) = k.
Proof.
  induction 1 as [|b w Hb Hw IH]; intros Hk; simpl; [|rewrite Hb; auto].
  destruct k as [|b k]; simpl in *; [done|]. by rewrite Hk.
Qed.

Lemma skip_whitespace_until k : until is_ws k → skip_whitespace k = k.
Proof. apply (skip_whitespace_app []). constructor. Qed.

Lemma skip_whitespace_ws w k : ws w → skip_whitespace (w ++ k) = skip_whitespace k.
Proof. induction 1 as [|b w Hb Hw IH]; simpl; [done|]. by rewrite Hb. Qed.

(* ------------------------------------------------------------------ *)
(** ** Strings *)

Notation hexes s := (Forall (λ b, is_hex b = true) s).

Lemma scan_hex_spec n u :
  match scan_hex n u with
  | Ok (Some _) => ∃ h k, u = h ++ k ∧ hexes h ∧ length h = n
  | Ok None => hexes u ∧ (length u < n)%nat
  | Err e => ∃ h b k context, u = h ++ b :: k ∧ hexes h ∧ (length h < n)%nat ∧
               e = scan_error_text b context ∧ ∀ k', scan_hex n (h ++ b :: k') = Err e
  end.
Proof.
  revert u. induction n as [|n IH]; intros u; simpl; [by exists [], u|].
  destruct u as [|b u]; simpl; [split; [constructor|lia]|].
  destruct (is_hex b) eqn:Hb; simpl.
  - specialize (IH u). destruct (scan_hex n u) as [[[]|]|e].
    + destruct IH as (h & k & -> & ? & <-). exists (b :: h), k. split_and!; [done|by constructor|done].
    + destruct IH as [? ?]. split; [by constructor|lia].
    + destruct IH as (h & c & k & x & -> & ? & ? & -> & Hk). exists (b :: h), c, k, x.
      split_and!; [done|by constructor|simpl; lia|done|]. intros k'. simpl. by rewrite Hb.
  - exists [], b, u. eexists. split_and!; [done|constructor|simpl; lia|done|].
    intros k'. simpl. by rewrite Hb.
Qed.

Lemma scan_hex_short n u : hexes u → (length u < n)%nat → scan_hex n u = Ok None.
Proof.
  revert n. induction u as [|b u IH]; intros [|n] Hu Hn; simpl in *; try done; try lia.
  inversion Hu as [|? ? Hb Hu']; subst. rewrite Hb. apply IH; [done|lia].
Qed.

Lemma scan_hex_app h k : hexes h → scan_hex (length h) (h ++ k) = done ().
Proof. induction 1 as [|b h Hb Hh IH]; simpl; [by destruct k|]. by rewrite Hb. Qed.

Lemma four {A} (h : list A) : length h = 4%nat → ∃ a b c d, h = [a; b; c; d].
Proof. destruct h as [|a [|b [|c [|d [|]]]]]; try done. intros _. by exists a, b, c, d. Qed.

(** The equations of the loop. *)
Lemma body_unicode h k :
  hexes h → length h = 4%nat →
  scan_string_body (backslash :: "u"%byte :: h ++ k) = scan_string_body k.
Proof.
  intros Hh Hl. pose proof (scan_hex_app h k Hh) as E. rewrite Hl in E.
  destruct (four h Hl) as (a & b & c & d & ->). cbn [app] in E.
  cbn -[scan_hex]. rewrite !bool_decide_eq_true_2 by done. rewrite E. done.
Qed.

Lemma body_escape c k :
  is_escape c = true → scan_string_body (backslash :: c :: k) = scan_string_body k.
Proof.
  intros Hc. cbn -[scan_hex]. rewrite bool_decide_eq_true_2 by done.
  rewrite bool_decide_eq_false_2; [by rewrite Hc|]. by intros ->.
Qed.

Lemma body_plain c k :
  32 ≤ bval c → c ≠ quote → c ≠ backslash → scan_string_body (c :: k) = scan_string_body k.
Proof.
  intros Hc Hq Hb. cbn -[scan_hex]. rewrite !bool_decide_eq_false_2 by done.
  by rewrite (proj2 (Z.ltb_ge _ _)) by done.
Qed.

Lemma body_hex_error h k :
  scan_hex 4 h = Ok None → scan_string_body (backslash :: "u"%byte :: h) = Ok None ∧
  ∀ e, scan_hex 4 k = Err e → scan_string_body (backslash :: "u"%byte :: k) = Err e.
Proof.
  intros Hh. split; [|intros e He]; cbn -[scan_hex]; rewrite !bool_decide_eq_true_2 by done.
  - by rewrite Hh.
  - by rewrite He.
Qed.

Lemma body_spec u :
  match scan_string_body u with
  | Ok (Some k) => ∃ s, u = s ++ k ∧ mchars s
  | Ok None => ∃ r, mchars (u ++ r)
  | Err e => offends scan_string_body u e
  end.
Proof.
  induction u as [u IH] using (well_founded_induction (Wf_nat.well_founded_ltof _ length)).
  assert (Hshift : ∀ s v, u = s ++ v → s ≠ [] →
    (∀ x, scan_string_body (s ++ x) = scan_string_body x) →
    (∀ x, mchars x → mchars (s ++ x)) →
    match scan_string_body u with
    | Ok (Some k) => ∃ s, u = s ++ k ∧ mchars s
    | Ok None => ∃ r, mchars (u ++ r)
    | Err e => offends scan_string_body u e
    end).
  { intros s v -> Hs Hf Hc. rewrite Hf.
    assert (length v < length (s ++ v))%nat as Hlt
      by (rewrite length_app; destruct s; [done|simpl; lia]).
    specialize (IH v Hlt). destruct (scan_string_body v) as [[k|]|e].
    - destruct IH as (t & -> & Ht). exists (s ++ t). rewrite app_assoc. auto.
    - destruct IH as (r & Hr). exists r. rewrite <-app_assoc. auto.
    - by eapply offends_shift. }
  destruct u as [|c u]; [exists [quote]; constructor|].
  destruct (decide (c = backslash)) as [->|Hb].
  - destruct u as [|d u]; [exists ["n"%byte; quote]; simpl; by repeat constructor|].
    destruct (decide (d = "u"%byte)) as [->|Hu].
    + pose proof (scan_hex_spec 4 u) as Hx. destruct (scan_hex 4 u) as [[[]|]|e] eqn:Eh.
      * destruct Hx as (h & k & -> & Hh & Hl).
        apply (Hshift (backslash :: "u"%byte :: h) k); [done..| |].
        -- intros x. by apply body_unicode.
        -- destruct (four h Hl) as (a & b & c & d & ->). intros x Hc.
           rewrite !Forall_cons in Hh. simpl. apply chars_unicode; by try apply Hh.
      * rewrite (proj1 (body_hex_error u [] Eh)). destruct Hx as [Hx Hl].
        exists (replicate (4 - length u) "0"%byte ++ [quote]).
        assert (hexes (u ++ replicate (4 - length u) "0"%byte)) as Hh.
        { apply Forall_app. split; [done|]. by apply Forall_replicate. }
        assert (length (u ++ replicate (4 - length u) "0"%byte) = 4%nat) as H4
          by (rewrite length_app, length_replicate; lia).
        rewrite app_assoc. simpl. rewrite <-app_assoc.
        rewrite (app_assoc u). set (z := u ++ _) in *. clearbody z.
        destruct (four z H4) as (a & b & c & d & ->). rewrite !Forall_cons in Hh. simpl.
        apply chars_unicode; try apply Hh. constructor.
      * destruct Hx as (h & b & k & x & -> & Hh & Hl & -> & Hk).
        pose proof (scan_hex_short 4 h Hh Hl) as Hs.
        rewrite (proj2 (body_hex_error h _ Hs) _ Eh).
        exists (backslash :: "u"%byte :: h), b, k, x.
        split_and!; [done..|by apply (body_hex_error h []) |].
        intros k'. apply (body_hex_error h _ Hs). apply Hk.
    + destruct (is_escape d) eqn:Hd.
      * apply (Hshift [backslash; d] u); [done..| |].
        -- intros x. by apply body_escape.
        -- intros x Hx. simpl. by constructor.
      * assert (∀ k', scan_string_body (backslash :: d :: k') =
                      Err (scan_error_text d "in string escape code")) as E.
        { intros k'. cbn -[scan_hex]. rewrite bool_decide_eq_true_2 by done.
          rewrite bool_decide_eq_false_2 by done. by rewrite Hd. }
        rewrite E. exists [backslash], d, u. eexists. split_and!; [done..|]. apply E.
  - destruct (decide (c = quote)) as [->|Hq].
    + cbn -[scan_hex]. rewrite bool_decide_eq_false_2 by done. rewrite bool_decide_eq_true_2 by done.
      exists [quote]. by split; [|constructor].
    + destruct (Z.ltb_spec (bval c) 32) as [Hlt|Hge].
      * assert (∀ k', scan_string_body (c :: k') =
                      Err (scan_error_text c "in string literal")) as E.
        { intros k'. cbn -[scan_hex]. rewrite !bool_decide_eq_false_2 by done.
          by rewrite (proj2 (Z.ltb_lt _ _)) by done. }
        rewrite E. exists [], c, u. eexists. split_and!; [done..|]. apply E.
      * apply (Hshift [c] u); [done..| |].
        -- intros x. by apply body_plain.
        -- intros x Hx. apply chars_plain; [|done]. by exists c.
Qed.

Lemma body_complete s k : mchars s → scan_string_body (s ++ k) = done k.
Proof.
  induction 1 as [|c s Hc Hs IH|a b c d s Ha Hb Hc Hd Hs IH|p s (c & -> & ? & ? & ?) Hs IH].
  - cbn -[scan_hex]. rewrite bool_decide_eq_false_2 by done. by rewrite bool_decide_eq_true_2.
  - simpl app. by rewrite body_escape.
  - change ((backslash :: "u"%byte :: a :: b :: c :: d :: s) ++ k)
      with (backslash :: "u"%byte :: [a; b; c; d] ++ (s ++ k)).
    rewrite body_unicode; [done|by repeat constructor|done].
  - simpl app. by rewrite body_plain.
Qed.

Lemma string_spec u :
  match scan_json_string u with
  | Ok (Some k) => ∃ s, u = s ++ k ∧ mstring s
  | Ok None => ∃ r, mstring (u ++ r)
  | Err e => offends scan_json_string u e
  end.
Proof.
  destruct u as [|c u]; [exists [quote; quote]; by do 2 constructor|].
  unfold scan_json_string at 1. case_bool_decide as Hc; simpl.
  - subst c. pose proof (body_spec u) as H. destruct (scan_string_body u) as [[k|]|e].
    + destruct H as (s & -> & Hs). exists (quote :: s). by split; [|constructor].
    + destruct H as (r & Hr). exists r. by constructor.
    + by apply (offends_shift _ scan_string_body [quote]).
  - apply offends_head; [done|]. intros k'. simpl. by rewrite bool_decide_eq_false_2.
Qed.

Lemma string_complete s k : mstring s → scan_json_string (s ++ k) = done k.
Proof. destruct 1 as [s Hs]. by apply body_complete. Qed.

(* ------------------------------------------------------------------ *)
(** ** Literals *)

Lemma literal_spec name l u :
  match scan_literal name l u with
  | Ok (Some k) => u = l ++ k
  | Ok None => ∃ r, u ++ r = l
  | Err e => offends (scan_literal name l) u e
  end.
Proof.
  revert u. induction l as [|b l IH]; intros u; simpl; [done|].
  destruct u as [|c u]; simpl; [by exists (b :: l)|].
  case_bool_decide as Hc; simpl.
  - subst c. specialize (IH u). destruct (scan_literal name l u) as [[k|]|e].
    + by rewrite IH.
    + destruct IH as (r & <-). by exists r.
    + apply (offends_shift _ (scan_literal name l) [b]); [|done].
      intros x. simpl. by rewrite bool_decide_eq_true_2.
  - apply offends_head; [done|]. intros k'. simpl. by rewrite bool_decide_eq_false_2.
Qed.

Lemma literal_complete name l k : scan_literal name l (l ++ k) = done k.
Proof.
  induction l as [|b l IH]; simpl; [done|]. by rewrite bool_decide_eq_true_2.
Qed.

(* ------------------------------------------------------------------ *)
(** ** Numbers *)

(** After the number [s] the text goes on with [k], which does not lengthen it:
    no number begins with [s] and the first byte of [k]. *)
Definition number_stops (s k : bytes) : Prop :=
  match k with [] => True | b :: _ => ∀ r, ¬ json_number (s ++ b :: r) end.

Lemma digits_nil : digits [].
Proof. constructor. Qed.
#[local] Hint Resolve digits_nil : core.

Lemma skip_digits_split u :
  ∃ ds, digits ds ∧ u = ds ++ skip_digits u ∧ until is_digit (skip_digits u).
Proof.
  induction u as [|b u (w & Hw & E & Hu)]; simpl; [by exists []|].
  destruct (is_digit b) eqn:Hb; [|by exists []].
  exists (b :: w). split; [by constructor|]. split; [simpl; by f_equal|done].
Qed.

Lemma skip_digits_app ds k : digits ds → until is_digit k → skip_digits (ds ++ k) = k.
Proof.
  induction 1 as [|b ds Hb Hd IH]; intros Hk; simpl; [|rewrite Hb; auto].
  destruct k as [|b k]; simpl in *; [done|]. by rewrite Hk.
Qed.

Lemma digits_or_spec {A} u error (f : bytes → scan A) :
  ∃ ds, digits ds ∧ u = ds ++ skip_digits u ∧ until is_digit (skip_digits u) ∧
    digits_or u error f = match ds with [] => error u | _ => f (skip_digits u) end.
Proof.
  destruct (skip_digits_split u) as (ds & Hd & E & Hu). exists ds. split_and!; [done..|].
  unfold digits_or. assert (length u = length ds + length (skip_digits u))%nat as El
    by (rewrite E at 1; by rewrite length_app).
  destruct ds as [|d ds]; simpl in *.
  - rewrite (proj2 (Nat.eqb_eq _ _)) by lia. by rewrite <-E.
  - by rewrite (proj2 (Nat.eqb_neq _ _)) by lia.
Qed.

Lemma digits_or_app {A} ds k error (f : bytes → scan A) :
  digits ds → ds ≠ [] → until is_digit k → digits_or (ds ++ k) error f = f k.
Proof.
  intros Hd Hne Hk. unfold digits_or. rewrite skip_digits_app by done.
  rewrite (proj2 (Nat.eqb_neq _ _)); [done|].
  rewrite length_app. destruct ds; [done|simpl; lia].
Qed.

Definition integer_part (u : bytes) : scan bytes :=
  match u with
  | byte :: u' =>
      if bool_decide (byte = "0"%byte) then done u'
      else if between 49 57 (bval byte) then done (skip_digits u')
      else json_scan_error u "in numeric literal"
  | [] => json_scan_error u "in numeric literal"
  end.

Definition fraction_part (u : bytes) : scan bytes :=
  if next_is "."%byte u then
    digits_or (next u)
      (λ u, json_scan_error u "after decimal point in numeric literal") (λ u, done u)
  else done u.

Definition exponent_part (u : bytes) : scan bytes :=
  if next_is "e"%byte u || next_is "E"%byte u then
    let u := next u in
    let u := if next_is "+"%byte u || next_is "-"%byte u then next u else u in
    digits_or u (λ u, json_scan_error u "in exponent of numeric literal") (λ u, done u)
  else done u.

Definition sign_part (u : bytes) : bytes := if next_is "-"%byte u then next u else u.

Lemma scan_number_parts u :
  scan_number u =
  let! a := integer_part (sign_part u) in let! b := fraction_part a in exponent_part b.
Proof. done. Qed.

Definition is_sign (s : bytes) : Prop := s = [] ∨ s = ["-"%byte].
Definition is_integer (s : bytes) : Prop :=
  s = ["0"%byte] ∨ ∃ d ds, s = d :: ds ∧ is_digit d = true ∧ d ≠ "0"%byte ∧ digits ds.
Definition is_fraction (s : bytes) : Prop :=
  s = [] ∨ ∃ ds, s = "."%byte :: ds ∧ digits ds ∧ ds ≠ [].
Definition is_exponent (s : bytes) : Prop :=
  s = [] ∨ ∃ e g ds, s = e :: g ++ ds ∧ e ∈ ["e"%byte; "E"%byte] ∧
    (g = [] ∨ g = ["+"%byte] ∨ g = ["-"%byte]) ∧ digits ds ∧ ds ≠ [].

Lemma number_intro g i f x :
  is_sign g → is_integer i → is_fraction f → is_exponent x → json_number (g ++ i ++ f ++ x).
Proof. intros. by constructor. Qed.

(** What may follow each part when it is read to its end. *)
Definition integer_ends (i k : bytes) : Prop := i = ["0"%byte] ∨ until is_digit k.
Definition fraction_ends (f k : bytes) : Prop :=
  match f with [] => next_is "."%byte k = false | _ => until is_digit k end.
Definition exponent_ends (x k : bytes) : Prop :=
  match x with
  | [] => next_is "e"%byte k || next_is "E"%byte k = false
  | _ => until is_digit k
  end.

Lemma digit_one_nine d : is_digit d = true ∧ d ≠ "0"%byte ↔ between 49 57 (bval d) = true.
Proof. destruct d; vm_compute; split; (intros [? ?] || intros ?); naive_solver. Qed.

Lemma integer_spec u :
  match integer_part u with
  | Ok (Some k) => ∃ i, u = i ++ k ∧ is_integer i ∧ integer_ends i k
  | Ok None => u = []
  | Err e => offends integer_part u e
  end.
Proof.
  destruct u as [|b u]; [done|]. unfold integer_part at 1.
  case_bool_decide as H0; [exists ["0"%byte]; subst; by repeat split; left|].
  destruct (between 49 57 (bval b)) eqn:H1.
  - apply digit_one_nine in H1 as [H1 _]. destruct (skip_digits_split u) as (ds & Hd & E & Hu).
    exists (b :: ds). split; [simpl; by f_equal|]. split; [|by right]. right. by exists b, ds.
  - apply offends_head; [done|]. intros k'. simpl. by rewrite bool_decide_eq_false_2, H1.
Qed.

Lemma integer_complete i k : is_integer i → integer_ends i k → integer_part (i ++ k) = done k.
Proof.
  intros [->|(d & ds & -> & Hd & H0 & Hds)] [E|Hk]; try done.
  - injection E as -> ->. done.
  - simpl. rewrite bool_decide_eq_false_2 by done.
    rewrite (proj1 (digit_one_nine d)) by done. by rewrite skip_digits_app.
Qed.

Lemma next_is_cons b u : next_is b u = true ↔ ∃ u', u = b :: u'.
Proof.
  destruct u as [|c u]; simpl; [naive_solver|]. rewrite bool_decide_eq_true. naive_solver.
Qed.

Lemma next_is_like b u x : like u x → next_is b u = false → next_is b x = false.
Proof. destruct x as [|c x], u as [|d u]; intros [E|E]; simpl in *; naive_solver. Qed.

Lemma until_like p u x : like u x → until p u → until p x.
Proof. destruct x as [|c x], u as [|d u]; intros [E|E]; simpl in *; naive_solver. Qed.

Lemma fraction_spec u :
  match fraction_part u with
  | Ok (Some k) => ∃ f, u = f ++ k ∧ is_fraction f ∧ fraction_ends f k
  | Ok None => u = ["."%byte]
  | Err e => offends fraction_part u e
  end.
Proof.
  unfold fraction_part at 1. destruct (next_is "."%byte u) eqn:Hn;
    [|exists []; by repeat split; [left|]].
  apply next_is_cons in Hn as (v & ->). simpl.
  destruct (digits_or_spec v
    (λ u, json_scan_error u "after decimal point in numeric literal") (λ u, done u))
    as (ds & Hd & E & Hu & ->).
  destruct ds as [|d ds].
  - simpl in E. rewrite <-E in Hu. destruct v as [|b v]; [done|]. simpl.
    apply (offends_shift _ (λ u, digits_or u
      (λ u, json_scan_error u "after decimal point in numeric literal") (λ u, done u))
      ["."%byte]); [done|].
    apply offends_head; [done|]. intros k'. unfold digits_or. simpl in *. rewrite Hu.
    by rewrite Nat.eqb_refl.
  - exists ("."%byte :: d :: ds). split; [simpl; by f_equal|]. split; [|done].
    right. by exists (d :: ds).
Qed.

Lemma fraction_complete f k : is_fraction f → fraction_ends f k → fraction_part (f ++ k) = done k.
Proof.
  unfold fraction_part. intros [->|(ds & -> & Hd & Hne)] Hk; simpl in *; [by rewrite Hk|].
  by rewrite digits_or_app.
Qed.

Definition after_e (u : bytes) : scan bytes :=
  let u := if next_is "+"%byte u || next_is "-"%byte u then next u else u in
  digits_or u (λ u, json_scan_error u "in exponent of numeric literal") (λ u, done u).

Definition is_plus_minus (g : bytes) : Prop := g = [] ∨ g = ["+"%byte] ∨ g = ["-"%byte].

Lemma digits_or_error u :
  match digits_or u (λ u, json_scan_error u "in exponent of numeric literal") (λ u, done u) with
  | Ok (Some k) => ∃ ds, u = ds ++ k ∧ digits ds ∧ ds ≠ [] ∧ until is_digit k
  | Ok None => u = []
  | Err e => offends (λ u, digits_or u
      (λ u, json_scan_error u "in exponent of numeric literal") (λ u, done u)) u e
  end.
Proof.
  destruct (digits_or_spec u
    (λ u, json_scan_error u "in exponent of numeric literal") (λ u, done u))
    as (ds & Hd & E & Hu & ->).
  destruct ds as [|d ds]; [|by exists (d :: ds)].
  simpl in E. rewrite <-E in Hu. destruct u as [|b v]; [done|]. simpl.
  apply offends_head; [done|]. intros k'. unfold digits_or. simpl in *. rewrite Hu.
  by rewrite Nat.eqb_refl.
Qed.

Lemma after_e_spec u :
  match after_e u with
  | Ok (Some k) => ∃ g ds, u = g ++ ds ++ k ∧ is_plus_minus g ∧ digits ds ∧ ds ≠ [] ∧ until is_digit k
  | Ok None => is_plus_minus u
  | Err e => offends after_e u e
  end.
Proof.
  unfold after_e at 1. destruct (next_is "+"%byte u || next_is "-"%byte u) eqn:Hn.
  - assert (∃ b v, u = b :: v ∧ is_plus_minus [b]) as (b & v & -> & Hb).
    { apply orb_true_iff in Hn as [(v & ->)%next_is_cons|(v & ->)%next_is_cons];
        do 2 eexists; (split; [done|]); right; auto. }
    simpl. pose proof (digits_or_error v) as H. destruct (digits_or v _ _) as [[k|]|e].
    + destruct H as (ds & -> & ?). by exists [b], ds.
    + by subst v.
    + apply (offends_shift _ _ [b]) with (2 := H). intros x. unfold after_e. simpl in *.
      destruct Hb as [?|[[= ->]|[= ->]]]; done.
  - pose proof (digits_or_error u) as H. destruct (digits_or u _ _) as [[k|]|e].
    + destruct H as (ds & -> & ?). exists [], ds. by split; [|split; [left|]].
    + by left.
    + apply (offends_like _ _ []) with (2 := H). intros x Hx. unfold after_e. simpl.
      apply orb_false_iff in Hn as [H1 H2].
      by rewrite (next_is_like _ _ _ Hx H1), (next_is_like _ _ _ Hx H2).
Qed.

Lemma exponent_letter u :
  next_is "e"%byte u || next_is "E"%byte u = true →
  ∃ c v, u = c :: v ∧ c ∈ ["e"%byte; "E"%byte].
Proof.
  intros [(v & ->)%next_is_cons|(v & ->)%next_is_cons]%orb_true_iff;
    do 2 eexists; (split; [done|]); set_solver.
Qed.

Lemma exponent_part_letter c v : c ∈ ["e"%byte; "E"%byte] → exponent_part (c :: v) = after_e v.
Proof.
  rewrite !elem_of_cons, elem_of_nil. unfold exponent_part. intros [->|[->|[]]]; done.
Qed.

Lemma exponent_spec u :
  match exponent_part u with
  | Ok (Some k) => ∃ x, u = x ++ k ∧ is_exponent x ∧ exponent_ends x k
  | Ok None => ∃ c g, u = c :: g ∧ c ∈ ["e"%byte; "E"%byte] ∧ is_plus_minus g
  | Err e => offends exponent_part u e
  end.
Proof.
  destruct (next_is "e"%byte u || next_is "E"%byte u) eqn:Hn.
  - apply exponent_letter in Hn as (c & v & -> & Hc). rewrite exponent_part_letter by done.
    pose proof (after_e_spec v) as H. destruct (after_e v) as [[k|]|e].
    + destruct H as (g & ds & -> & Hg & Hd & Hne & Hk). exists (c :: g ++ ds).
      split; [simpl; by rewrite <-app_assoc|]. split; [|done]. right. by exists c, g, ds.
    + by exists c, v.
    + apply (offends_shift _ after_e [c]); [|done]. intros x. by apply exponent_part_letter.
  - unfold exponent_part. rewrite Hn. exists []. by repeat split; [left|].
Qed.

Lemma exponent_complete x k : is_exponent x → exponent_ends x k → exponent_part (x ++ k) = done k.
Proof.
  intros [->|(c & g & ds & -> & Hc & Hg & Hd & Hne)] Hk.
  - unfold exponent_part. simpl in *. by rewrite Hk.
  - simpl app. rewrite exponent_part_letter by done. rewrite <-app_assoc. simpl in Hk.
    unfold after_e. destruct Hg as [->|[->| ->]].
    + destruct ds as [|d ds]; [done|]. simpl app. inversion Hd as [|? ? Hd0 Hd1]; subst.
      assert (next_is "+"%byte (d :: ds ++ k) || next_is "-"%byte (d :: ds ++ k) = false) as ->.
      { simpl. by rewrite !bool_decide_eq_false_2 by (intros ->; done). }
      exact (digits_or_app (d :: ds) k _ _ Hd Hne Hk).
    + exact (digits_or_app ds k _ _ Hd Hne Hk).
    + exact (digits_or_app ds k _ _ Hd Hne Hk).
Qed.

(** The three parts in a row. *)
Definition unsigned_number (u : bytes) : scan bytes :=
  let! a := integer_part u in let! b := fraction_part a in exponent_part b.

Definition number_ends (i f x k : bytes) : Prop :=
  integer_ends i (f ++ x ++ k) ∧ fraction_ends f (x ++ k) ∧ exponent_ends x k.

Lemma unsigned_spec u :
  match unsigned_number u with
  | Ok (Some k) => ∃ i f x, u = i ++ f ++ x ++ k ∧
      is_integer i ∧ is_fraction f ∧ is_exponent x ∧ number_ends i f x k
  | Ok None => ∃ r i f x, u ++ r = i ++ f ++ x ∧ is_integer i ∧ is_fraction f ∧ is_exponent x
  | Err e => offends unsigned_number u e
  end.
Proof.
  assert (is_fraction []) as Hf0 by by left. assert (is_exponent []) as Hx0 by by left.
  unfold unsigned_number at 1. pose proof (integer_spec u) as Hi.
  destruct (integer_part u) as [[a|]|e]; simpl.
  - destruct Hi as (i & -> & Hi & Hia). pose proof (fraction_spec a) as Hf.
    assert (∀ y, like a y → unsigned_number (i ++ y) = let! b := fraction_part y in exponent_part b) as Hrun.
    { intros y Hy. unfold unsigned_number. rewrite integer_complete; [done..|].
      destruct Hia as [->|Hia]; [by left|right]. by eapply until_like. }
    destruct (fraction_part a) as [[c|]|e]; simpl.
    + destruct Hf as (f & -> & Hf & Hfc). pose proof (exponent_spec c) as Hx.
      assert (∀ y, like c y → unsigned_number (i ++ f ++ y) = exponent_part y) as Hrun2.
      { intros y Hy. rewrite Hrun, fraction_complete; [done..| |].
        - destruct f; simpl in *; [by eapply next_is_like|by eapply until_like].
        - destruct f as [|b f]; [|by right]. done. }
      destruct (exponent_part c) as [[k|]|e].
      * destruct Hx as (x & -> & Hx & Hxk). by exists i, f, x.
      * destruct Hx as (b & g & -> & Hb & Hg). exists ["0"%byte], i, f, (b :: g ++ ["0"%byte]).
        split; [by rewrite <-!app_assoc|]. split_and!; [done..|].
        right. exists b, g, ["0"%byte]. split_and!; [done..| |done]. by repeat constructor.
      * rewrite app_assoc. eapply offends_like; [|done]. intros y Hy. rewrite <-app_assoc.
        by apply Hrun2.
    + subst a. exists ["0"%byte], i, ["."%byte; "0"%byte], [].
      split; [by rewrite <-!app_assoc|]. split_and!; [done| |done].
      right. exists ["0"%byte]. split_and!; [done| |done]. by repeat constructor.
    + eapply offends_like; [exact Hrun|].
      destruct Hf as (p & b & k & x & -> & -> & Hp & Hk). exists p, b, k, x.
      split_and!; [done..|by rewrite Hp|]. intros k'. by rewrite Hk.
  - subst u. exists ["0"%byte], ["0"%byte], [], []. split_and!; try done. by left.
  - destruct Hi as (p & b & k & x & -> & -> & Hp & Hk). exists p, b, k, x.
    unfold unsigned_number. split_and!; [done..|by rewrite Hp|]. intros k'. by rewrite Hk.
Qed.

Lemma unsigned_complete i f x k :
  is_integer i → is_fraction f → is_exponent x → number_ends i f x k →
  unsigned_number (i ++ f ++ x ++ k) = done k.
Proof.
  intros Hi Hf Hx (Hik & Hfk & Hxk). unfold unsigned_number.
  rewrite integer_complete by done. simpl. rewrite fraction_complete by done. simpl.
  by apply exponent_complete.
Qed.

Lemma unsigned_head i f x k :
  is_integer i → next_is "-"%byte (i ++ f ++ x ++ k) = false.
Proof.
  intros [->|(d & ds & -> & Hd & _)]; [done|]. simpl. apply bool_decide_eq_false. by intros ->.
Qed.

Lemma scan_number_sign g u :
  is_sign g → next_is "-"%byte u = false → scan_number (g ++ u) = unsigned_number u.
Proof.
  rewrite scan_number_parts. unfold sign_part. intros [->| ->] Hu; simpl; [by rewrite Hu|done].
Qed.

(** What the code checks on its way: the parts end where they can. *)
Lemma number_spec u :
  match scan_number u with
  | Ok (Some k) => ∃ g i f x, u = g ++ i ++ f ++ x ++ k ∧
      is_sign g ∧ is_integer i ∧ is_fraction f ∧ is_exponent x ∧ number_ends i f x k
  | Ok None => ∃ r, json_number (u ++ r)
  | Err e => offends scan_number u e
  end.
Proof.
  destruct (next_is "-"%byte u) eqn:Hn.
  - apply next_is_cons in Hn as (v & ->).
    assert (∀ y, scan_number ("-"%byte :: y) = unsigned_number y) as E by done.
    rewrite E. pose proof (unsigned_spec v) as H. destruct (unsigned_number v) as [[k|]|e].
    + destruct H as (i & f & x & -> & ? & ? & ? & ?). exists ["-"%byte], i, f, x.
      split_and!; try done. by right.
    + destruct H as (r & i & f & x & E' & ? & ? & ?). exists r. simpl. rewrite E'.
      apply (number_intro ["-"%byte]); [by right|done..].
    + by apply (offends_shift _ unsigned_number ["-"%byte]).
  - assert (∀ y, like u y → scan_number y = unsigned_number y) as E.
    { intros y Hy. apply (scan_number_sign []); [by left|]. by eapply next_is_like. }
    rewrite E by by right. pose proof (unsigned_spec u) as H.
    destruct (unsigned_number u) as [[k|]|e].
    + destruct H as (i & f & x & -> & ? & ? & ? & ?). exists [], i, f, x.
      split_and!; try done. by left.
    + destruct H as (r & i & f & x & E' & ? & ? & ?). exists r. rewrite E'.
      apply (number_intro []); [by left|done..].
    + by apply (offends_like _ unsigned_number []).
Qed.

Lemma number_complete_parts g i f x k :
  is_sign g → is_integer i → is_fraction f → is_exponent x → number_ends i f x k →
  scan_number ((g ++ i ++ f ++ x) ++ k) = done k.
Proof.
  intros. rewrite <-!app_assoc, scan_number_sign; [by apply unsigned_complete|done|].
  by apply unsigned_head.
Qed.

Lemma number_ends_nil i f x : is_fraction f → is_exponent x → number_ends i f x [].
Proof.
  intros Hf Hx. split_and!; [|by destruct Hf as [->|(? & -> & _)], Hx as [->|(c & ? & ? & -> & Hc & _)];
    simpl; rewrite ?elem_of_cons, ?elem_of_nil in *; destruct_or?; subst|by destruct x].
  right. destruct Hf as [->|(ds & -> & _)]; [|done]. simpl. rewrite app_nil_r.
  destruct Hx as [->|(c & g & ds & -> & Hc & _)]; [done|]. simpl.
  rewrite !elem_of_cons, elem_of_nil in Hc. by destruct Hc as [->|[->|[]]].
Qed.

Section stops.
Context (g i f x : bytes) (b : byte) (r0 : bytes).
Context (Hg : is_sign g) (Hi : is_integer i) (Hf : is_fraction f) (Hx : is_exponent x).
Context (Hs' : ∀ s r, s = (g ++ i ++ f ++ x) ++ b :: r → ¬ json_number s).

Lemma stops_integer : integer_ends i (f ++ x ++ b :: r0).
Proof using Hg Hi Hf Hx Hs'.
  destruct Hi as [->|(d & ds & -> & Hd & H0 & Hds)]; [by left|right].
  destruct Hf as [->|(fs & -> & _)]; [|done]. destruct Hx as [->|(c & h & es & -> & Hc & _)].
  * simpl. destruct (is_digit b) eqn:Hb; [|done]. exfalso.
    refine (Hs' (g ++ (d :: ds ++ [b]) ++ [] ++ []) [] _ _).
    { rewrite !app_nil_r. simpl. by rewrite <-app_assoc. }
    apply number_intro; [done| |by left|by left]. right. exists d, (ds ++ [b]).
    split_and!; [done..|]. apply Forall_app. split; [done|by constructor].
  * simpl. rewrite !elem_of_cons, elem_of_nil in Hc. by destruct Hc as [->|[->|[]]].
Qed.

Lemma stops_fraction : fraction_ends f (x ++ b :: r0).
Proof using Hg Hi Hf Hx Hs'.
  destruct Hf as [->|(fs & -> & Hfs & Hne)]; simpl.
  * destruct Hx as [->|(c & h & es & -> & Hc & _)]; simpl.
    -- apply bool_decide_eq_false. intros ->.
       refine (Hs' (g ++ i ++ ["."; "0"]%byte ++ []) ["0"%byte] _ _).
       { by rewrite !app_nil_r, <-app_assoc. }
       apply number_intro; [done..| |by left]. right. exists ["0"%byte].
       split_and!; [done|by repeat constructor|done].
    -- rewrite !elem_of_cons, elem_of_nil in Hc. by destruct Hc as [->|[->|[]]].
  * destruct Hx as [->|(c & h & es & -> & Hc & _)]; simpl.
    -- destruct (is_digit b) eqn:Hb; [|done]. exfalso.
       refine (Hs' (g ++ i ++ ("."%byte :: fs ++ [b]) ++ []) [] _ _).
       { rewrite !app_nil_r, <-!app_assoc. simpl. by rewrite <-?app_assoc. }
       apply number_intro; [done..| |by left]. right. exists (fs ++ [b]).
       split_and!; [done| |by destruct fs]. apply Forall_app. split; [done|by constructor].
    -- rewrite !elem_of_cons, elem_of_nil in Hc. by destruct Hc as [->|[->|[]]].
Qed.

Lemma stops_exponent : exponent_ends x (b :: r0).
Proof using Hg Hi Hf Hx Hs'.
  destruct Hx as [->|(c & h & es & -> & Hc & Hh & Hes & Hne)]; simpl.
  * apply orb_false_iff. split; apply bool_decide_eq_false; intros ->.
    -- refine (Hs' (g ++ i ++ f ++ ["e"; "0"]%byte) ["0"%byte] _ _).
       { by rewrite app_nil_r, <-!app_assoc. }
       apply number_intro; [done..|]. right. exists "e"%byte, [], ["0"%byte].
       split_and!; [done|set_solver|by left|by repeat constructor|done].
    -- refine (Hs' (g ++ i ++ f ++ ["E"; "0"]%byte) ["0"%byte] _ _).
       { by rewrite app_nil_r, <-!app_assoc. }
       apply number_intro; [done..|]. right. exists "E"%byte, [], ["0"%byte].
       split_and!; [done|set_solver|by left|by repeat constructor|done].
  * destruct (is_digit b) eqn:Hb; [|done]. exfalso.
    refine (Hs' (g ++ i ++ f ++ (c :: h ++ es ++ [b])) [] _ _).
    { rewrite <-!app_assoc. simpl. by rewrite <-!app_assoc. }
    apply number_intro; [done..|]. right. exists c, h, (es ++ [b]).
    split_and!; [done..| |by destruct es]. apply Forall_app. split; [done|by constructor].
Qed.
End stops.

(** The declarative and the checked condition on what follows agree. *)
Lemma number_stops_iff g i f x k :
  is_sign g → is_integer i → is_fraction f → is_exponent x →
  number_stops (g ++ i ++ f ++ x) k ↔ number_ends i f x k.
Proof.
  intros Hg Hi Hf Hx. split.
  - destruct k as [|b k]; [intros _; by apply number_ends_nil|]. intros Hs.
    assert (∀ s r, s = (g ++ i ++ f ++ x) ++ b :: r → ¬ json_number s) as Hs' by (intros ? ? ->; apply Hs).
    clear Hs. split_and!; [by eapply stops_integer|by eapply stops_fraction|by eapply stops_exponent].
  - intros He. destruct k as [|b k]; [done|]. intros r Hr.
    inversion Hr as [g' i' f' x' Hg' Hi' Hf' Hx' E].
    pose proof (number_complete_parts g' i' f' x' [] Hg' Hi' Hf' Hx'
      (number_ends_nil _ _ _ Hf' Hx')) as H1.
    rewrite app_nil_r, E in H1. rewrite <-!app_assoc in H1.
    assert (number_ends i f x (b :: r)) as He'.
    { destruct He as (H2 & H3 & H4). split_and!.
      - destruct H2 as [->|H2]; [by left|right]. eapply until_like; [|exact H2].
        right. by destruct f as [|? f], x as [|? x].
      - destruct f; [eapply next_is_like; [|exact H3]|eapply until_like; [|exact H3]];
          right; by destruct x.
      - by destruct x. }
    pose proof (number_complete_parts g i f x (b :: r) Hg Hi Hf Hx He') as H2.
    rewrite <-!app_assoc in H2. congruence.
Qed.

Lemma number_sound u k :
  scan_number u = done k → ∃ s, u = s ++ k ∧ json_number s ∧ number_stops s k.
Proof.
  intros E. pose proof (number_spec u) as H. rewrite E in H.
  destruct H as (g & i & f & x & -> & Hg & Hi & Hf & Hx & He).
  exists (g ++ i ++ f ++ x). split; [by rewrite <-!app_assoc|].
  split; [by apply number_intro|]. by apply number_stops_iff.
Qed.

Lemma number_complete s k : json_number s → number_stops s k → scan_number (s ++ k) = done k.
Proof.
  intros [g i f x Hg Hi Hf Hx] Hs. apply number_complete_parts; [done..|].
  by eapply number_stops_iff.
Qed.
