(* ===== verification/McpValueFacts.v ===== *)
(** The stack machine of [scan_json_value]: a turn of its loop against the JSON
    grammar, and what follows for whole values. *)
From S2P Require Import Prelude.
From S2P Require Import Text.
From S2P Require Import Encryption.
From S2P Require Import JsonText.
From S2P Require Import ProfileJson.
From S2P Require Import McpScan.
From S2P Require Import McpScanFacts.
From Stdlib Require Import Ascii Strings.Byte.

#[local] Notation length := List.length.

(* ------------------------------------------------------------------ *)
(** ** Numbers and literals *)

(** What may follow a value. *)
Definition follow (t : tree) (k : bytes) : Prop :=
  match t with TNumber s => number_stops s k | _ => True end.

Lemma delimiter_stops s k : json_number s → ends_value k → number_stops s k.
Proof.
  intros [g i f x Hg Hi Hf Hx] Hk. apply number_stops_iff; [done..|].
  destruct k as [|b k]; [by apply number_ends_nil|]. simpl in Hk.
  assert (is_digit b = false ∧ b ≠ "."%byte ∧ b ≠ "e"%byte ∧ b ≠ "E"%byte) as (H1 & H2 & H3 & H4).
  { destruct b; vm_compute in Hk; try discriminate Hk; vm_compute; naive_solver. }
  split_and!.
  - destruct Hf as [->|(? & -> & _)]; [|by right].
    destruct Hx as [->|(c & ? & ? & -> & Hc & _)]; [by right|right]. simpl.
    rewrite !elem_of_cons, elem_of_nil in Hc. by destruct Hc as [->|[->|[]]].
  - destruct Hx as [->|(c & ? & ? & -> & Hc & _)]; simpl.
    + destruct f; [by apply bool_decide_eq_false|done].
    + rewrite !elem_of_cons, elem_of_nil in Hc. by destruct f, Hc as [->|[->|[]]].
  - destruct x; simpl; [|done]. apply orb_false_iff. split; by apply bool_decide_eq_false.
Qed.

Lemma follow_delimiter n t s k : mreads n t s → ends_value k → follow t k.
Proof. destruct 1; simpl; [done| |done..]. by apply delimiter_stops. Qed.

Lemma number_stops_like s k x : number_stops s k → like k x → number_stops s x.
Proof. destruct k as [|b k], x as [|c x]; intros H [E|E]; simpl in *; naive_solver. Qed.

Lemma follow_like t k x : follow t k → like k x → follow t x.
Proof. destruct t; simpl; [done| |done..]. apply number_stops_like. Qed.

Lemma json_number_head s : json_number s → ∃ b s', s = b :: s' ∧ (b = "-"%byte ∨ is_digit b = true).
Proof.
  intros [g i f x [->| ->] Hi Hf Hx]; simpl; [|do 2 eexists; by split; [|left]].
  destruct Hi as [->|(d & ds & -> & Hd & _)]; do 2 eexists; (split; [done|]); by right.
Qed.

(** [is_json_number] is the scanner run on a whole text. *)
Lemma is_json_number_scan s :
  is_json_number s = match scan_number s with done [] => true | _ => false end.
Proof.
  rewrite scan_number_parts. unfold is_json_number, sign_part.
  generalize (if next_is "-"%byte s then next s else s). clear s. intros s.
  assert (∀ v : bytes, (if Nat.eqb (length (skip_digits v)) (length v) then false
      else match skip_digits v with [] => true | _ => false end) =
    match digits_or v (λ u, json_scan_error u "in exponent of numeric literal") (λ u, done u)
    with done [] => true | _ => false end) as Hdig.
  { intros v. unfold digits_or. destruct (Nat.eqb _ _); [|done].
    by destruct (skip_digits v). }
  assert (∀ v, match exponent_part v with done [] => true | _ => false end =
    if next_is "e"%byte v || next_is "E"%byte v then
      let v := next v in
      let v := if next_is "+"%byte v || next_is "-"%byte v then next v else v in
      if Nat.eqb (length (skip_digits v)) (length v) then false
      else match skip_digits v with [] => true | _ => false end
    else match v with [] => true | _ => false end) as Hexp.
  { intros v. unfold exponent_part. cbv zeta. rewrite Hdig. by destruct (_ || _). }
  assert (∀ v, (if next_is "."%byte v then
      if Nat.eqb (length (skip_digits (next v))) (length (next v)) then false
      else match exponent_part (skip_digits (next v)) with done [] => true | _ => false end
    else match exponent_part v with done [] => true | _ => false end) =
    match (let! b := fraction_part v in exponent_part b) with done [] => true | _ => false end) as Hfrac.
  { intros v. unfold fraction_part. destruct (next_is "."%byte v); [|done].
    unfold digits_or. destruct (Nat.eqb _ _); [|done]. by destruct (skip_digits (next v)). }
  cbv zeta in Hexp |- *. destruct s as [|b s]; [done|]. unfold integer_part.
  case_bool_decide; simpl.
  - rewrite <-Hfrac, !Hexp. done.
  - destruct (between 49 57 (bval b)); [|done]. simpl. rewrite <-Hfrac, !Hexp. done.
Qed.

Lemma is_json_number_iff s : is_json_number s = true ↔ json_number s.
Proof.
  rewrite is_json_number_scan. split.
  - destruct (scan_number s) as [[[|]|]|] eqn:E; try done. intros _.
    apply number_sound in E as (s' & -> & ? & _). by rewrite app_nil_r.
  - intros Hs. pose proof (number_complete s [] Hs I) as E. rewrite app_nil_r in E. by rewrite E.
Qed.

(** A scalar that is not a string. *)
Inductive primitive : tree → bytes → Prop :=
| primitive_literal s : s ∈ literals → primitive (TLiteral s) s
| primitive_number s : json_number s → primitive (TNumber s) s.

Lemma primitive_reads n t s : primitive t s → mreads n t s.
Proof. destruct 1; by constructor. Qed.

Lemma literal_case l name u :
  lit name = l → l ∈ literals →
  match scan_literal name l u with
  | Ok (Some k) => ∃ t s, u = s ++ k ∧ primitive t s ∧ follow t k
  | Ok None => ∃ r t, primitive t (u ++ r)
  | Err e => offends (scan_literal name l) u e
  end.
Proof.
  intros Hn Hl. pose proof (literal_spec name l u) as H. destruct (scan_literal name l u) as [[k|]|e].
  - exists (TLiteral l), l. by split_and!; [|constructor|].
  - destruct H as (r & <-). exists r, (TLiteral (u ++ r)). by constructor.
  - done.
Qed.

Lemma skip_json_primitive_cons b u :
  skip_json_primitive (b :: u) =
  if bool_decide (b = "n"%byte) then scan_literal "null" (lit "null") (b :: u)
  else if bool_decide (b = "t"%byte) then scan_literal "true" (lit "true") (b :: u)
  else if bool_decide (b = "f"%byte) then scan_literal "false" (lit "false") (b :: u)
  else if bool_decide (b = "-"%byte) || is_digit b then scan_number (b :: u)
  else json_scan_error (b :: u) "looking for beginning of value".
Proof. done. Qed.

(** An error keeps the first byte, which chooses the arm. *)
Lemma offends_arm {A} (f g : bytes → scan A) b u e :
  g [] = Ok None → f [] = Ok None → (∀ x, g (b :: x) = f (b :: x)) →
  offends f (b :: u) e → offends g (b :: u) e.
Proof.
  intros Hg Hf Hgf. apply (offends_like g f []). intros x [->|Hx]; simpl app; [by rewrite Hg, Hf|].
  destruct x as [|c x]; simpl in Hx; [done|]. injection Hx as ->. apply Hgf.
Qed.

Lemma primitive_spec u :
  u ≠ [] →
  match skip_json_primitive u with
  | Ok (Some k) => ∃ t s, u = s ++ k ∧ primitive t s ∧ follow t k
  | Ok None => ∃ r t, primitive t (u ++ r)
  | Err e => offends skip_json_primitive u e
  end.
Proof.
  destruct u as [|b u]; [done|]. intros _.
  assert (∀ f, f [] = Ok None → (∀ x, skip_json_primitive (b :: x) = f (b :: x)) →
    match f (b :: u) with
    | Ok (Some k) => ∃ t s, b :: u = s ++ k ∧ primitive t s ∧ follow t k
    | Ok None => ∃ r t, primitive t ((b :: u) ++ r)
    | Err e => offends f (b :: u) e
    end →
    match skip_json_primitive (b :: u) with
    | Ok (Some k) => ∃ t s, b :: u = s ++ k ∧ primitive t s ∧ follow t k
    | Ok None => ∃ r t, primitive t ((b :: u) ++ r)
    | Err e => offends skip_json_primitive (b :: u) e
    end) as Harm.
  { intros f Hf Hg. rewrite Hg. destruct (f (b :: u)) as [[]|]; try done. by apply offends_arm. }
  destruct (decide (b = "n"%byte)) as [->|H1];
    [apply (Harm (scan_literal "null" (lit "null"))); [done..|]; apply literal_case; [done|set_solver]|].
  destruct (decide (b = "t"%byte)) as [->|H2];
    [apply (Harm (scan_literal "true" (lit "true"))); [done..|]; apply literal_case; [done|set_solver]|].
  destruct (decide (b = "f"%byte)) as [->|H3];
    [apply (Harm (scan_literal "false" (lit "false"))); [done..|]; apply literal_case; [done|set_solver]|].
  destruct (bool_decide (b = "-"%byte) || is_digit b) eqn:H4.
  - apply (Harm scan_number); [done| |].
    { intros x. rewrite skip_json_primitive_cons, !bool_decide_eq_false_2, H4 by done. done. }
    pose proof (number_spec (b :: u)) as H. destruct (scan_number (b :: u)) as [[k|]|e] eqn:E.
    + apply number_sound in E as (s & -> & ? & ?). exists (TNumber s), s. by split_and!; [|constructor|].
    + destruct H as (r & Hr). exists r. eexists. by apply primitive_number.
    + done.
  - apply (Harm (λ u, json_scan_error u "looking for beginning of value")); [done| |].
    { intros x. rewrite skip_json_primitive_cons, !bool_decide_eq_false_2, H4 by done. done. }
    by apply (offends_head (λ u, json_scan_error u "looking for beginning of value")).
Qed.

Lemma primitive_complete t s k : primitive t s → follow t k → skip_json_primitive (s ++ k) = done k.
Proof.
  intros [s' Hs|s' Hs] Hk; simpl in Hk.
  - unfold literals in Hs. rewrite !elem_of_cons, elem_of_nil in Hs.
    destruct Hs as [->|[->|[->|[]]]]; apply literal_complete.
  - destruct (json_number_head _ Hs) as (b & u & -> & Hb).
    assert (bool_decide (b = "-"%byte) || is_digit b = true) as Hb'.
    { destruct Hb as [->| ->]; [done|]. by rewrite orb_true_r. }
    assert (b ≠ "n"%byte ∧ b ≠ "t"%byte ∧ b ≠ "f"%byte) as (? & ? & ?)
      by (split_and!; intros ->; done).
    simpl app. rewrite skip_json_primitive_cons, !bool_decide_eq_false_2, Hb' by done.
    by apply (number_complete (b :: u)).
Qed.

(* ------------------------------------------------------------------ *)
(** ** What completes a state of the machine *)

(** The number texts of a tree. *)
Fixpoint tree_numbers (t : tree) : list bytes :=
  match t with
  | TNumber s => [s]
  | TArray ts => flat_map tree_numbers ts
  | TObject es => flat_map (λ e, tree_numbers e.2) es
  | _ => []
  end.

Section machine.
Context (fin : bool).

(** With [finite_numbers_only], every number is in the range of a double. *)
Definition fine (t : tree) : Prop :=
  fin = true → Forall (λ s, infinite_number s = false) (tree_numbers t).

Lemma fine_array ts : fine (TArray ts) ↔ Forall fine ts.
Proof.
  unfold fine. simpl. induction ts as [|t ts IH]; simpl.
  - split; [by constructor|]. intros _ _. constructor.
  - rewrite Forall_cons, <-IH. setoid_rewrite Forall_app. naive_solver.
Qed.

Lemma fine_object es : fine (TObject es) ↔ Forall (λ e, fine e.2) es.
Proof.
  unfold fine. simpl. induction es as [|t es IH]; simpl.
  - split; [by constructor|]. intros _ _. constructor.
  - rewrite Forall_cons, <-IH. setoid_rewrite Forall_app. naive_solver.
Qed.

Lemma fine_other t : match t with TString _ | TLiteral _ => fine t | _ => True end.
Proof. destruct t; try done; intros _; constructor. Qed.

(** How deep the next value may nest. *)
Definition level (fs : list JsonFrame) : nat := GO_MAX_JSON_NESTING_DEPTH - length fs.

(** What closes a container, its values at most [n] deep. *)
Definition closes (n : nat) (f : JsonFrame) (u : bytes) : Prop :=
  match f with
  | FrameObject FirstKeyOrEnd => ∃ es, members mcp_char n es u ∧ Forall (λ e, fine e.2) es
  | FrameObject KeyAfterComma =>
      ∃ es, es ≠ [] ∧ members mcp_char n es u ∧ Forall (λ e, fine e.2) es
  | FrameObject ObjectAfterValue =>
      ∃ es, more_members mcp_char n es u ∧ Forall (λ e, fine e.2) es
  | FrameArray FirstValueOrEnd => ∃ ts, elements mcp_char n ts u ∧ Forall fine ts
  | FrameArray ValueAfterComma => ∃ ts, ts ≠ [] ∧ elements mcp_char n ts u ∧ Forall fine ts
  | FrameArray ArrayAfterValue => ∃ ts, more_elements mcp_char n ts u ∧ Forall fine ts
  end.

Fixpoint closes_all (fs : list JsonFrame) (u : bytes) : Prop :=
  match fs with
  | [] => u = []
  | f :: fs' => ∃ a b, u = a ++ b ∧ closes (level fs) f a ∧ closes_all fs' b
  end.

(** White space, a value and what closes the frames. *)
Definition value_then (fs : list JsonFrame) (u k : bytes) : Prop :=
  ∃ w t v r, u = w ++ v ++ r ∧ ws w ∧ mreads (level fs) t v ∧ fine t ∧ closes_all fs r ∧
    (fs = [] → follow t k).

(** The text [u], before [k], takes the machine from the state to its end. *)
Definition completes (fs : list JsonFrame) (needs : bool) (u k : bytes) : Prop :=
  if needs then value_then fs u k else closes_all fs u.

(** The frames below a value are past their last value. *)
Definition past_value (f : JsonFrame) : Prop :=
  f = FrameObject ObjectAfterValue ∨ f = FrameArray ArrayAfterValue.

Definition wf_state (s : ScanState) : Prop :=
  (length (frames s) ≤ GO_MAX_JSON_NESTING_DEPTH)%nat ∧
  Forall past_value (if needs_value s then frames s else tail (frames s)).

(** The turns left, at most. *)
Definition measure (s : ScanState) : nat :=
  (2 * length (at_raw s) + if needs_value s then 0 else 1)%nat.

(* ------------------------------------------------------------------ *)
(** ** Steps of the grammar *)

Lemma closes_ws n f w u : ws w → closes n f u → closes n f (w ++ u).
Proof.
  intros Hw. destruct f as [[]|[]]; simpl.
  1, 2: intros (es & H); exists es; naive_solver eauto using members_ws.
  2, 3: intros (es & H); exists es; naive_solver eauto using elements_ws.
  - intros (es & H & ?). exists es. split; [|done].
    destruct H; rewrite app_assoc; constructor; try done; by apply Forall_app.
  - intros (es & H & ?). exists es. split; [|done].
    destruct H; rewrite app_assoc; constructor; try done; by apply Forall_app.
Qed.

Lemma closes_all_ws f fs w u : ws w → closes_all (f :: fs) u → closes_all (f :: fs) (w ++ u).
Proof.
  intros Hw (a & b & -> & Ha & Hb). exists (w ++ a), b. rewrite app_assoc.
  split_and!; [done| |done]. by apply closes_ws.
Qed.

Lemma closes_all_bracket f fs b u :
  closes (level (f :: fs)) f [b] → closes_all fs u → closes_all (f :: fs) (b :: u).
Proof. intros Hb Hu. by exists [b], u. Qed.

(** A key, a colon and a value, then the rest of the object. *)
Lemma closes_key f fs k w u x :
  f = FrameObject FirstKeyOrEnd ∨ f = FrameObject KeyAfterComma →
  mstring k → ws w → value_then (FrameObject ObjectAfterValue :: fs) u x →
  closes_all (f :: fs) (k ++ w ++ ":"%byte :: u).
Proof.
  intros Hf Hk Hw (w' & t & v & r & -> & Hw' & Hv & Ht & (a & b & -> & (es & Ha & Hes) & Hb) & _).
  exists ([] ++ k ++ w ++ ":"%byte :: w' ++ v ++ a), b.
  split; [simpl; by rewrite <-!app_assoc; simpl; rewrite <-!app_assoc|]. split; [|done].
  assert (members mcp_char (level (f :: fs)) ((k, t) :: es) ([] ++ k ++ w ++ ":"%byte :: w' ++ v ++ a)) as Hm
    by by constructor.
  destruct Hf as [-> | ->]; exists ((k, t) :: es); by split_and!; [..|constructor].
Qed.

Lemma closes_element f fs u x :
  f = FrameArray FirstValueOrEnd ∨ f = FrameArray ValueAfterComma →
  value_then (FrameArray ArrayAfterValue :: fs) u x → closes_all (f :: fs) u.
Proof.
  intros Hf (w & t & v & r & -> & Hw & Hv & Ht & (a & b & -> & (ts & Ha & Hts) & Hb) & _).
  exists (w ++ v ++ a), b. split; [by rewrite <-!app_assoc|]. split; [|done].
  destruct Hf as [-> | ->]; exists (t :: ts); split_and!; try done; by constructor.
Qed.

Lemma closes_object_comma fs u :
  closes_all (FrameObject KeyAfterComma :: fs) u →
  closes_all (FrameObject ObjectAfterValue :: fs) (","%byte :: u).
Proof.
  intros (a & b & -> & (es & Hne & Ha & Hes) & Hb). exists (","%byte :: a), b.
  split_and!; [done| |done]. exists es. split; [|done].
  by apply (members_more mcp_char _ es [] a).
Qed.

Lemma closes_array_comma fs u :
  closes_all (FrameArray ValueAfterComma :: fs) u →
  closes_all (FrameArray ArrayAfterValue :: fs) (","%byte :: u).
Proof.
  intros (a & b & -> & (es & Hne & Ha & Hes) & Hb). exists (","%byte :: a), b.
  split_and!; [done| |done]. exists es. split; [|done].
  by apply (elements_more mcp_char _ es [] a).
Qed.

Lemma closes_object_end n f :
  f = FrameObject FirstKeyOrEnd ∨ f = FrameObject ObjectAfterValue → closes n f ["}"%byte].
Proof.
  intros [-> | ->]; exists []; (split; [|constructor]);
    [by apply (members_nil _ _ [])|by apply (more_members_nil _ _ [])].
Qed.

Lemma closes_array_end n f :
  f = FrameArray FirstValueOrEnd ∨ f = FrameArray ArrayAfterValue → closes n f ["]"%byte].
Proof.
  intros [-> | ->]; exists []; (split; [|constructor]);
    [by apply (elements_nil _ _ [])|by apply (more_elements_nil _ _ [])].
Qed.

Lemma value_then_ws fs w u k : ws w → value_then fs u k → value_then fs (w ++ u) k.
Proof.
  intros Hw (w' & t & v & r & -> & Hw' & H). exists (w ++ w'), t, v, r.
  split; [by rewrite <-app_assoc|]. split; [by apply Forall_app|done].
Qed.

Lemma value_open_object fs u k :
  (length fs < GO_MAX_JSON_NESTING_DEPTH)%nat →
  closes_all (FrameObject FirstKeyOrEnd :: fs) u → value_then fs ("{"%byte :: u) k.
Proof.
  intros Hl (a & b & -> & (es & Ha & Hes) & Hb).
  exists [], (TObject es), ("{"%byte :: a), b. split_and!; try done.
  - replace (level fs) with (S (level (FrameObject FirstKeyOrEnd :: fs)))
      by (unfold level; simpl; lia). by constructor.
  - by apply fine_object.
Qed.

Lemma value_open_array fs u k :
  (length fs < GO_MAX_JSON_NESTING_DEPTH)%nat →
  closes_all (FrameArray FirstValueOrEnd :: fs) u → value_then fs ("["%byte :: u) k.
Proof.
  intros Hl (a & b & -> & (es & Ha & Hes) & Hb).
  exists [], (TArray es), ("["%byte :: a), b. split_and!; try done.
  - replace (level fs) with (S (level (FrameArray FirstValueOrEnd :: fs)))
      by (unfold level; simpl; lia). by constructor.
  - by apply fine_array.
Qed.

(** Every state can be completed. *)
Lemma fine_zero : fine (TNumber ["0"%byte]).
Proof. intros _. by repeat constructor. Qed.

Lemma zero_number : json_number ["0"%byte].
Proof. by apply (number_intro [] ["0"%byte] [] []); left. Qed.

Lemma closes_all_some fs : ∃ u, closes_all fs u.
Proof.
  induction fs as [|f fs (u & Hu)]; [by exists []|].
  assert (∃ a, closes (level (f :: fs)) f a) as (a & Ha); [|by exists (a ++ u), a, u].
  generalize (level (f :: fs)). intros n.
  assert (members mcp_char n [([quote; quote], TNumber ["0"%byte])]
    ([] ++ [quote; quote] ++ [] ++ ":"%byte :: [] ++ ["0"%byte] ++ ([] ++ ["}"%byte]))) as Hm.
  { constructor; try done; [by do 2 constructor|constructor; apply zero_number|by constructor]. }
  assert (elements mcp_char n [TNumber ["0"%byte]] ([] ++ ["0"%byte] ++ ([] ++ ["]"%byte]))) as He.
  { constructor; try done; [constructor; apply zero_number|by constructor]. }
  destruct f as [[]|[]].
  - eexists. apply closes_object_end. by left.
  - eexists. exists [([quote; quote], TNumber ["0"%byte])]. split_and!; [done|exact Hm|].
    constructor; [apply fine_zero|constructor].
  - eexists. apply closes_object_end. by right.
  - eexists. apply closes_array_end. by left.
  - eexists. exists [TNumber ["0"%byte]]. split_and!; [done|exact He|].
    constructor; [apply fine_zero|constructor].
  - eexists. apply closes_array_end. by right.
Qed.

Lemma value_then_some fs : ∃ u, value_then fs u [].
Proof.
  destruct (closes_all_some fs) as (r & Hr).
  exists (["0"%byte] ++ r), [], (TNumber ["0"%byte]), ["0"%byte], r.
  split_and!; try done; [constructor; apply zero_number|apply fine_zero].
Qed.

(* ------------------------------------------------------------------ *)
(** ** A turn of the loop *)

Notation state fs needs u := {| frames := fs; needs_value := needs; at_raw := u |}.

(** What the turn [F] does at [u], where [C x k] says that the text [x], before
    [k], completes the state: it moves on over a text [a] to a state that is
    completed by what [a] leaves; or it returns at the end of a completing text;
    or it wants more and some continuation completes the state; or it fails at
    a byte. *)
Definition turn_spec (F : bytes → scan turn) (C : bytes → bytes → Prop) (m : nat) (u : bytes) : Prop :=
  match F u with
  | Ok (Some (Continue s)) =>
      wf_state s ∧ (measure s < m)%nat ∧
      ∃ a, u = a ++ at_raw s ∧
        (∀ x k, completes (frames s) (needs_value s) x k → C (a ++ x) k) ∧
        (∀ x, like (at_raw s) x → F (a ++ x) = continue (frames s) (needs_value s) x)
  | Ok (Some (Return r)) => ∃ a, u = a ++ r ∧ C a r
  | Ok None => fin = false → ∃ r, C (u ++ r) []
  | Err e => offends F u e
  end.

Lemma like_app u a x : like u x → like (a ++ u) (a ++ x).
Proof. destruct a; [done|by right]. Qed.

(** A text that leads from one turn into another. *)
Lemma turn_spec_shift F F' (C C' : bytes → bytes → Prop) s m m' u :
  (∀ x, like u x → F' (s ++ x) = F x) → (∀ x k, C x k → C' (s ++ x) k) → (m ≤ m')%nat →
  turn_spec F C m u → turn_spec F' C' m' (s ++ u).
Proof.
  unfold turn_spec. intros HF HC Hm H. rewrite HF by by right.
  destruct (F u) as [[[s'|r]|]|e].
  - destruct H as (Hwf & Hlt & a & -> & H1 & H2). split_and!; [done|lia|].
    exists (s ++ a). split_and!; [by rewrite app_assoc| |].
    + intros x k Hx. rewrite <-app_assoc. auto.
    + intros x Hx. rewrite <-app_assoc, HF by by apply like_app. auto.
  - destruct H as (a & -> & Ha). exists (s ++ a). rewrite app_assoc. auto.
  - intros Hf. destruct (H Hf) as (r & Hr). exists r. rewrite <-app_assoc. auto.
  - by eapply offends_like.
Qed.

(** A turn that reads the text [a] at once. *)
Lemma turn_spec_continue F (C : bytes → bytes → Prop) fs needs a u m :
  (∀ x, like u x → F (a ++ x) = continue fs needs x) →
  (∀ x k, completes fs needs x k → C (a ++ x) k) →
  wf_state (state fs needs u) → (measure (state fs needs u) < m)%nat →
  turn_spec F C m (a ++ u).
Proof.
  unfold turn_spec. intros HF HC Hwf Hm. rewrite HF by by right. simpl.
  split_and!; [done..|]. exists a. simpl. auto.
Qed.

Lemma turn_spec_error F (C : bytes → bytes → Prop) context m u :
  (∃ r, C r []) → F [] = Ok None →
  (∀ x, like u x → x ≠ [] → F x = json_scan_error x context) → turn_spec F C m u.
Proof.
  unfold turn_spec. intros Hr Hn HF. destruct u as [|b u]; [by rewrite Hn|].
  rewrite HF; [|by right|done]. simpl. apply offends_head; [done|].
  intros k'. apply HF; [by right|done].
Qed.

Lemma wf_below f fs needs u v :
  wf_state (state (f :: fs) false u) → wf_state (state fs needs v).
Proof.
  intros [Hl Hp]. simpl in *. split; simpl; [lia|]. destruct needs; [done|].
  destruct fs; [constructor|by inversion Hp].
Qed.

Lemma wf_replace f g fs needs u v :
  wf_state (state (f :: fs) false u) → (needs = true → past_value g) →
  wf_state (state (g :: fs) needs v).
Proof.
  intros [Hl Hp] Hg. split; [done|]. simpl in *. destruct needs; [|done].
  constructor; [by apply Hg|done].
Qed.

Lemma next_is_char b c x : b ≠ c → next_is b (c :: x) = false.
Proof. intros. by apply bool_decide_eq_false. Qed.

Lemma next_is_eq b x : next_is b (b :: x) = true.
Proof. by apply bool_decide_eq_true. Qed.

(** Keys. *)
Lemma key_run fs k w x :
  mstring k → ws w →
  scan_key fs (k ++ w ++ ":"%byte :: x) = continue (FrameObject ObjectAfterValue :: fs) true x.
Proof.
  intros Hk Hw. unfold scan_key. rewrite string_complete by done. simpl.
  by rewrite skip_whitespace_app.
Qed.

Lemma key_spec f fs u :
  f = FrameObject FirstKeyOrEnd ∨ f = FrameObject KeyAfterComma →
  wf_state (state (f :: fs) false u) →
  turn_spec (scan_key fs) (λ x _, closes_all (f :: fs) x) (2 * length u + 1) u.
Proof.
  intros Hf Hwf. unfold turn_spec, scan_key at 1.
  destruct (value_then_some (FrameObject ObjectAfterValue :: fs)) as (v & Hv).
  pose proof (string_spec u) as H. destruct (scan_json_string u) as [[c|]|e]; simpl.
  - destruct H as (k & -> & Hk). destruct (skip_whitespace_split c) as (w & Hw & E & Hu).
    set (z := skip_whitespace c) in *. clearbody z. subst c.
    destruct (next_is ":"%byte z) eqn:Hn.
    + apply next_is_cons in Hn as (x & ->). simpl.
      split; [by eapply wf_replace; [|left]|]. split; [unfold measure; simpl; rewrite !length_app; simpl; lia|].
      exists (k ++ w ++ [":"%byte]). split; [by rewrite <-!app_assoc|]. split.
      * intros y x' Hy. rewrite <-!app_assoc. by eapply closes_key.
      * intros y _. rewrite <-!app_assoc. by apply key_run.
    + assert (∀ y, like z y →
        scan_key fs ((k ++ w) ++ y) = json_scan_error y "after object key") as Hrun.
      { intros y Hy. unfold scan_key. rewrite <-app_assoc, string_complete by done. simpl.
        rewrite skip_whitespace_app by (try done; by eapply until_like).
        by rewrite (next_is_like _ _ _ Hy Hn). }
      rewrite app_assoc. destruct z as [|b z]; simpl.
      * intros _. exists (":"%byte :: v). rewrite app_nil_r, <-app_assoc. by eapply closes_key.
      * eapply (offends_like _ (λ x, json_scan_error x "after object key")); [apply Hrun|].
        by apply offends_head.
  - intros _. destruct H as (r & Hr). exists (r ++ ":"%byte :: v).
    rewrite app_assoc. by eapply (closes_key f fs _ []).
  - by apply (offends_bind scan_json_string).
Qed.

(** A frame at a text that does not begin with white space. *)
Lemma scan_frame_ws f fs w u : ws w → scan_frame (f :: fs) (w ++ u) = scan_frame (f :: fs) u.
Proof. intros Hw. unfold scan_frame. by rewrite skip_whitespace_ws. Qed.

Lemma ws_like u x : until is_ws u → like u x → skip_whitespace x = x.
Proof. intros Hu Hx. apply skip_whitespace_until. by eapply until_like. Qed.

Lemma close_some fs : ∃ r, closes_all fs (r ++ []).
Proof. destruct (closes_all_some fs) as (r & Hr). exists r. by rewrite app_nil_r. Qed.

(** A bracket that closes the container. *)
Lemma bracket_spec f fs b u :
  (∀ x, scan_frame (f :: fs) (b :: x) = continue fs false x) →
  closes (level (f :: fs)) f [b] → wf_state (state (f :: fs) false (b :: u)) →
  turn_spec (scan_frame (f :: fs)) (λ x _, closes_all (f :: fs) x)
    (2 * length (b :: u) + 1) (b :: u).
Proof.
  intros HF Hb Hwf. apply (turn_spec_continue _ _ fs false [b]).
  - intros x Hx. by apply HF.
  - intros x k Hx. by apply closes_all_bracket.
  - by apply (wf_below f fs false (b :: u)).
  - unfold measure. simpl. lia.
Qed.

(** A comma before the next entry. *)
Lemma comma_spec f g fs u :
  (∀ x, scan_frame (f :: fs) (","%byte :: x) = continue (g :: fs) false x) →
  (∀ x, closes_all (g :: fs) x → closes_all (f :: fs) (","%byte :: x)) →
  wf_state (state (f :: fs) false (","%byte :: u)) →
  turn_spec (scan_frame (f :: fs)) (λ x _, closes_all (f :: fs) x)
    (2 * length (","%byte :: u) + 1) (","%byte :: u).
Proof.
  intros HF Hc Hwf. apply (turn_spec_continue _ _ (g :: fs) false [","%byte]).
  - intros x Hx. by apply HF.
  - intros x k Hx. by apply Hc.
  - by apply (wf_replace f g fs false (","%byte :: u)).
  - unfold measure. simpl. lia.
Qed.

(** The machine turns to the value of an element. *)
Lemma element_spec f fs u :
  f = FrameArray FirstValueOrEnd ∨ f = FrameArray ValueAfterComma →
  (∀ x, like u x → scan_frame (f :: fs) x = continue (FrameArray ArrayAfterValue :: fs) true x) →
  wf_state (state (f :: fs) false u) →
  turn_spec (scan_frame (f :: fs)) (λ x _, closes_all (f :: fs) x) (2 * length u + 1) u.
Proof.
  intros Hf HF Hwf. apply (turn_spec_continue _ _ (FrameArray ArrayAfterValue :: fs) true []).
  - intros x Hx. by apply HF.
  - intros x k Hx. by eapply closes_element.
  - eapply wf_replace; [done|]. by right.
  - unfold measure. simpl. lia.
Qed.

Lemma frame_error f fs context u :
  until is_ws u →
  (∀ x, like u x → x ≠ [] → scan_frame (f :: fs) x = json_scan_error x context) →
  scan_frame (f :: fs) [] = Ok None →
  turn_spec (scan_frame (f :: fs)) (λ x _, closes_all (f :: fs) x) (2 * length u + 1) u.
Proof. intros Hu HF Hn. by apply turn_spec_error with context; [apply closes_all_some|..]. Qed.

Lemma frame_spec_solid f fs u :
  wf_state (state (f :: fs) false u) → until is_ws u →
  turn_spec (scan_frame (f :: fs)) (λ x _, closes_all (f :: fs) x) (2 * length u + 1) u.
Proof.
  intros Hwf Hu. destruct f as [[]|[]].
  - destruct (next_is "}"%byte u) eqn:Hn.
    + apply next_is_cons in Hn as (v & ->). apply bracket_spec; [done| |done].
      apply closes_object_end. by left.
    + apply (turn_spec_shift (scan_key fs) _ (λ x _, closes_all (FrameObject FirstKeyOrEnd :: fs) x) _ [])
        with (m := (2 * length u + 1)%nat); [|done|done|].
      * intros x Hx. simpl. rewrite (ws_like u) by done. by rewrite (next_is_like _ _ _ Hx Hn).
      * by apply key_spec; [left|].
  - apply (turn_spec_shift (scan_key fs) _ (λ x _, closes_all (FrameObject KeyAfterComma :: fs) x) _ [])
      with (m := (2 * length u + 1)%nat); [|done|done|].
    + intros x Hx. simpl. by rewrite (ws_like u).
    + by apply key_spec; [right|].
  - destruct (next_is ","%byte u) eqn:Hc; [|destruct (next_is "}"%byte u) eqn:Hn].
    + apply next_is_cons in Hc as (v & ->).
      apply comma_spec with (FrameObject KeyAfterComma); [done|apply closes_object_comma|done].
    + apply next_is_cons in Hn as (v & ->). apply bracket_spec; [done| |done].
      apply closes_object_end. by right.
    + apply frame_error with "after object key:value pair"; [done| |done].
      intros x Hx _. simpl. rewrite (ws_like u) by done.
      by rewrite (next_is_like _ _ _ Hx Hc), (next_is_like _ _ _ Hx Hn).
  - destruct (next_is "]"%byte u) eqn:Hn.
    + apply next_is_cons in Hn as (v & ->). apply bracket_spec; [done| |done].
      apply closes_array_end. by left.
    + apply element_spec; [by left| |done]. intros x Hx. simpl. rewrite (ws_like u) by done.
      by rewrite (next_is_like _ _ _ Hx Hn).
  - apply element_spec; [by right| |done]. intros x Hx. simpl. by rewrite (ws_like u).
  - destruct (next_is ","%byte u) eqn:Hc; [|destruct (next_is "]"%byte u) eqn:Hn].
    + apply next_is_cons in Hc as (v & ->).
      apply comma_spec with (FrameArray ValueAfterComma); [done|apply closes_array_comma|done].
    + apply next_is_cons in Hn as (v & ->). apply bracket_spec; [done| |done].
      apply closes_array_end. by right.
    + apply frame_error with "after array element"; [done| |done].
      intros x Hx _. simpl. rewrite (ws_like u) by done.
      by rewrite (next_is_like _ _ _ Hx Hc), (next_is_like _ _ _ Hx Hn).
Qed.

Lemma frame_spec f fs u :
  wf_state (state (f :: fs) false u) →
  turn_spec (scan_frame (f :: fs)) (λ x _, closes_all (f :: fs) x) (2 * length u + 1) u.
Proof.
  intros Hwf. destruct (skip_whitespace_split u) as (w & Hw & E & Hu).
  set (v := skip_whitespace u) in *. clearbody v. subst u.
  apply turn_spec_shift with (F := scan_frame (f :: fs)) (m := (2 * length v + 1)%nat)
    (C := λ x _, closes_all (f :: fs) x).
  - intros x _. by apply scan_frame_ws.
  - intros x k Hx. by apply closes_all_ws.
  - rewrite length_app. lia.
  - by apply frame_spec_solid.
Qed.

(** Reading a scalar and going on with the frames. *)
Lemma scalar_spec fs v t c (F : bytes → scan turn) :
  wf_state (state fs true (v ++ c)) → v ≠ [] →
  mreads (level fs) t v → fine t → follow t c →
  (∀ x, follow t x → F (v ++ x) = scan_frame fs x) →
  turn_spec F (value_then fs) (2 * length (v ++ c)) (v ++ c).
Proof.
  intros [Hl Hp] Hv Hr Ht Hc HF. simpl in Hl, Hp. destruct fs as [|f fs].
  - unfold turn_spec. rewrite HF by done. simpl. exists v. split; [done|].
    exists [], t, v, []. split_and!; try done. by rewrite app_nil_r.
  - eapply turn_spec_shift; [| | |apply frame_spec].
    + intros x Hx. apply HF. by eapply follow_like.
    + intros x k Hx. exists [], t, v, x. by split_and!.
    + rewrite length_app. destruct v; [done|simpl; lia].
    + split; [done|]. by inversion Hp.
Qed.

Lemma open_spec fs frame b u (F : bytes → scan turn) :
  wf_state (state fs true (b :: u)) →
  (∀ x, (length fs < GO_MAX_JSON_NESTING_DEPTH)%nat → closes_all (frame :: fs) x →
    ∀ k, value_then fs (b :: x) k) →
  F [] = Ok None →
  (∀ x, F (b :: x) =
     if Nat.eqb (length fs) GO_MAX_JSON_NESTING_DEPTH
     then json_scan_error (b :: x) "exceeded max depth"
     else continue (frame :: fs) false x) →
  turn_spec F (value_then fs) (2 * length (b :: u)) (b :: u).
Proof.
  intros [Hl Hp] Hc Hn HF. simpl in Hl, Hp.
  destruct (Nat.eqb_spec (length fs) GO_MAX_JSON_NESTING_DEPTH) as [Hd|Hd].
  - unfold turn_spec. rewrite HF. simpl. apply offends_head; [done|]. apply HF.
  - apply (turn_spec_continue _ _ (frame :: fs) false [b]).
    + intros x _. apply HF.
    + intros x k Hx. apply Hc; [lia|done].
    + split; [simpl; lia|done].
    + unfold measure. simpl. lia.
Qed.

Definition value_turn (fs : list JsonFrame) (u : bytes) : scan turn :=
  scan_turn fin (state fs true u).

Lemma value_turn_ws fs w u : ws w → value_turn fs (w ++ u) = value_turn fs u.
Proof. intros Hw. unfold value_turn, scan_turn. simpl. by rewrite skip_whitespace_ws. Qed.

Lemma value_turn_string fs s x :
  mstring s → value_turn fs (s ++ x) = scan_frame fs x.
Proof.
  intros Hs. pose proof (string_complete s x Hs) as E. destruct Hs as [s Hs].
  unfold value_turn, scan_turn. simpl in E |- *. rewrite E. done.
Qed.

Lemma infinite_literal s : s ∈ literals → infinite_number s = false.
Proof.
  unfold literals. rewrite !elem_of_cons, elem_of_nil. by intros [->|[->|[->|[]]]].
Qed.

Definition primitive_head (b : byte) : Prop :=
  is_ws b = false ∧ b ≠ "{"%byte ∧ b ≠ "["%byte ∧ b ≠ quote.

Lemma value_turn_primitive fs b u :
  primitive_head b →
  value_turn fs (b :: u) =
  let! after := skip_json_primitive (b :: u) in
  if fin && infinite_number (take (length (b :: u) - length after) (b :: u))
  then Ok None else scan_frame fs after.
Proof.
  intros (Hw & H1 & H2 & H3). unfold value_turn, scan_turn. simpl at_raw. simpl needs_value.
  cbn iota. rewrite skip_whitespace_until by done. by rewrite !bool_decide_eq_false_2.
Qed.

Lemma primitive_begins t s : primitive t s → ∃ b s', s = b :: s' ∧ primitive_head b.
Proof.
  unfold primitive_head. intros [s' Hs|s' Hs].
  - unfold literals in Hs. rewrite !elem_of_cons, elem_of_nil in Hs.
    destruct Hs as [->|[->|[->|[]]]]; do 2 eexists; done.
  - destruct (json_number_head _ Hs) as (b & u & -> & Hb). exists b, u. split; [done|].
    destruct Hb as [->|Hb]; [done|]. split_and!; [by apply digit_solid|by intros ->..].
Qed.

Lemma token_taken (v x : bytes) : take (length (v ++ x) - length x) (v ++ x) = v.
Proof.
  rewrite length_app. replace (length v + length x - length x)%nat with (length v) by lia.
  by rewrite take_app_length.
Qed.

Lemma value_turn_primitive_app fs t v x :
  primitive t v → follow t x → value_turn fs (v ++ x) =
  if fin && infinite_number v then Ok None else scan_frame fs x.
Proof.
  intros Hv Hx. pose proof (primitive_complete t v x Hv Hx) as E.
  destruct (primitive_begins t v Hv) as (b & v' & -> & Hb). simpl app in E |- *.
  rewrite value_turn_primitive, E by done.
  unfold scan_bind. change (b :: v' ++ x) with ((b :: v') ++ x).
  by rewrite (token_taken (b :: v') x).
Qed.

Lemma primitive_fine t v : primitive t v → fin && infinite_number v = false → fine t.
Proof.
  intros [s Hs|s Hs] Hf; [by intros _; constructor|]. intros ->. simpl in Hf.
  by repeat constructor.
Qed.

Lemma primitive_case fs b u :
  primitive_head b → wf_state (state fs true (b :: u)) →
  turn_spec (value_turn fs) (value_then fs) (2 * length (b :: u)) (b :: u).
Proof.
  intros Hb Hwf. assert (b :: u ≠ []) as Hne by done.
  pose proof (primitive_spec (b :: u) Hne) as H.
  pose proof (value_turn_primitive fs b u Hb) as E.
  destruct (skip_json_primitive (b :: u)) as [[c|]|e] eqn:Es.
  - destruct H as (t & v & Ev & Hv & Hc). rewrite Ev in Hwf |- *.
    destruct (fin && infinite_number v) eqn:Hinf.
    + unfold turn_spec. rewrite (value_turn_primitive_app fs t v c Hv Hc), Hinf.
      intros ->. done.
    + eapply scalar_spec; [done| |by apply primitive_reads| |done|].
      * destruct (primitive_begins t v Hv) as (? & ? & -> & _). done.
      * by eapply primitive_fine.
      * intros x Hx. by rewrite (value_turn_primitive_app fs t v x Hv Hx), Hinf.
  - simpl in E. unfold turn_spec. rewrite E. intros Hfin. destruct H as (r & t & Hr).
    destruct (closes_all_some fs) as (z & Hz). exists (r ++ z). exists [], t, ((b :: u) ++ r), z.
    split_and!; [by rewrite <-app_assoc|done|by apply primitive_reads| |done|].
    + intros E'. by rewrite E' in Hfin.
    + intros ->. simpl in Hz. by destruct t.
  - unfold turn_spec. rewrite E. simpl.
    apply (offends_arm (λ u, let! after := skip_json_primitive u in
      if fin && infinite_number (take (length u - length after) u)
      then Ok None else scan_frame fs after)); [done|done| |].
    + intros x. by apply value_turn_primitive.
    + destruct H as (p & c & k & x & Hu & -> & Hp & Hk). exists p, c, k, x.
      split_and!; [done..|by rewrite Hp|]. intros k'. by rewrite Hk.
Qed.

Lemma string_case fs u :
  wf_state (state fs true (quote :: u)) →
  turn_spec (value_turn fs) (value_then fs) (2 * length (quote :: u)) (quote :: u).
Proof.
  intros Hwf. assert (∀ x, value_turn fs (quote :: x) =
    let! after := scan_json_string (quote :: x) in scan_frame fs after) as HF by done.
  pose proof (string_spec (quote :: u)) as H.
  destruct (scan_json_string (quote :: u)) as [[c|]|e] eqn:Es.
  - destruct H as (v & Ev & Hv). rewrite Ev in Hwf |- *. apply scalar_spec with (TString v).
    + done.
    + by destruct Hv.
    + by constructor.
    + intros _. constructor.
    + done.
    + intros x _. by apply value_turn_string.
  - unfold turn_spec. rewrite HF, Es. intros _. destruct H as (r & Hr).
    destruct (closes_all_some fs) as (z & Hz).
    exists (r ++ z). exists [], (TString ((quote :: u) ++ r)), ((quote :: u) ++ r), z.
    split_and!; [by rewrite <-app_assoc|done|by constructor| |done|done]. intros _. constructor.
  - unfold turn_spec. rewrite HF, Es. simpl.
    apply (offends_arm (λ u, let! after := scan_json_string u in scan_frame fs after));
      [done..|]. by apply (offends_bind scan_json_string).
Qed.

Lemma value_spec fs u :
  wf_state (state fs true u) → turn_spec (value_turn fs) (value_then fs) (2 * length u) u.
Proof.
  intros Hwf. destruct (skip_whitespace_split u) as (w & Hw & E & Hu).
  set (v := skip_whitespace u) in *. clearbody v. subst u.
  eapply turn_spec_shift with (F := value_turn fs) (m := (2 * length v)%nat).
  { intros x _. by apply value_turn_ws. }
  { intros x k. by apply value_then_ws. }
  { rewrite length_app. lia. }
  assert (wf_state (state fs true v)) as Hwf' by apply Hwf. clear Hwf.
  destruct v as [|b v].
  { unfold turn_spec. simpl. intros _. apply value_then_some. }
  destruct (decide (b = "{"%byte)) as [->|H1].
  { apply open_spec with (FrameObject FirstKeyOrEnd); [done| |done|done].
    intros x Hl Hx k. by apply value_open_object. }
  destruct (decide (b = "["%byte)) as [->|H2].
  { apply open_spec with (FrameArray FirstValueOrEnd); [done| |done|done].
    intros x Hl Hx k. by apply value_open_array. }
  destruct (decide (b = quote)) as [->|H3]; [by apply string_case|].
  by apply primitive_case.
Qed.

(* ------------------------------------------------------------------ *)
(** ** A turn on a text that completes the state *)

(** The turn moves on to a state that the rest of the text completes. *)
Definition advances (res : scan turn) (k : bytes) : Prop :=
  ∃ s u, res = done (Continue s) ∧ at_raw s = u ++ k ∧ completes (frames s) (needs_value s) u k.

Lemma advances_continue fs needs u k :
  completes fs needs u k → advances (continue fs needs (u ++ k)) k.
Proof. intros H. by exists (state fs needs (u ++ k)), u. Qed.

Lemma string_head s : mstring s → ∃ s', s = quote :: s'.
Proof. intros [s' _]. by exists s'. Qed.

Lemma key_advances fs f (es : list (bytes * tree)) a b k :
  f = FrameObject FirstKeyOrEnd ∨ f = FrameObject KeyAfterComma → es ≠ [] →
  members mcp_char (level (f :: fs)) es a → Forall (λ e, fine e.2) es → closes_all fs b →
  advances (scan_frame (f :: fs) ((a ++ b) ++ k)) k.
Proof.
  intros Hf Hne Ha Hes Hb. remember (level (f :: fs)) as n0 eqn:En.
  destruct Ha as [n w Hw|n w q w' w'' t v es r Hw Hq Hw' Hw'' Hv Hr]; [done|].
  apply Forall_cons in Hes as [Ht Hes].
  assert (scan_frame (f :: fs) (((w ++ q ++ w' ++ ":"%byte :: w'' ++ v ++ r) ++ b) ++ k) =
    continue (FrameObject ObjectAfterValue :: fs) true ((w'' ++ v ++ (r ++ b)) ++ k)) as ->.
  { destruct (string_head _ Hq) as (q' & Eq).
    assert (scan_key fs (q ++ w' ++ ":"%byte :: (w'' ++ v ++ (r ++ b)) ++ k) =
      continue (FrameObject ObjectAfterValue :: fs) true ((w'' ++ v ++ (r ++ b)) ++ k)) as Hkey
      by by apply key_run.
    replace (((w ++ q ++ w' ++ ":"%byte :: w'' ++ v ++ r) ++ b) ++ k)
      with (w ++ q ++ w' ++ ":"%byte :: (w'' ++ v ++ r ++ b) ++ k)
      by (rewrite <-!app_assoc; simpl; by rewrite <-!app_assoc).
    unfold scan_frame. rewrite skip_whitespace_app; [|done|by rewrite Eq].
    destruct Hf as [-> | ->]; rewrite ?Hkey; [|done]. by rewrite Eq. }
  apply advances_continue. exists w'', t, v, (r ++ b). split_and!; try done; [by rewrite En in Hv|].
  exists r, b. split; [done|]. split; [|done]. exists es. split; [by rewrite En in Hr|done].
Qed.

Lemma frame_skips f fs w x : ws w → until is_ws x →
  scan_frame (f :: fs) (w ++ x) = scan_frame (f :: fs) x ∧ skip_whitespace x = x.
Proof. intros Hw Hx. split; [by apply scan_frame_ws|by apply skip_whitespace_until]. Qed.

Lemma value_head_mcp n t v : mreads n t v →
  ∃ b v', v = b :: v' ∧ is_ws b = false ∧ b ≠ "]"%byte.
Proof.
  destruct 1 as [n s Hs|n s Hs|n s Hs|n ts s Hs|n es s Hs].
  - destruct Hs as [s _]. by exists quote, s.
  - destruct (json_number_head _ Hs) as (b & s' & -> & Hb). exists b, s'. split; [done|].
    destruct Hb as [->|Hb]; [done|]. split; [by apply digit_solid|by intros ->].
  - unfold literals in Hs. rewrite !elem_of_cons, elem_of_nil in Hs.
    destruct Hs as [->|[->|[->|[]]]]; do 2 eexists; done.
  - by do 2 eexists.
  - by do 2 eexists.
Qed.

Lemma element_advances fs f (ts : list tree) a b k :
  f = FrameArray FirstValueOrEnd ∨ f = FrameArray ValueAfterComma → ts ≠ [] →
  elements mcp_char (level (f :: fs)) ts a → Forall fine ts → closes_all fs b →
  advances (scan_frame (f :: fs) ((a ++ b) ++ k)) k.
Proof.
  intros Hf Hne Ha Hts Hb. remember (level (f :: fs)) as n0 eqn:En.
  destruct Ha as [n w Hw|n w t v ts r Hw Hv Hr]; [done|].
  apply Forall_cons in Hts as [Ht Hts].
  assert (scan_frame (f :: fs) (((w ++ v ++ r) ++ b) ++ k) =
    continue (FrameArray ArrayAfterValue :: fs) true ((v ++ (r ++ b)) ++ k)) as ->.
  { destruct (value_head_mcp _ _ _ Hv) as (c & v' & -> & Hc & Hc').
    rewrite <-!app_assoc. unfold scan_frame. rewrite skip_whitespace_app by done.
    destruct Hf as [-> | ->]; [|done]. simpl app. by rewrite next_is_char. }
  apply advances_continue. exists [], t, v, (r ++ b). split_and!; try done; [by rewrite En in Hv|].
  exists r, b. split; [done|]. split; [|done]. exists ts. split; [by rewrite En in Hr|done].
Qed.

Lemma bracket_advances f fs w c b k :
  ws w → is_ws c = false → closes_all fs b →
  (∀ x, scan_frame (f :: fs) (c :: x) = continue fs false x) →
  advances (scan_frame (f :: fs) (((w ++ [c]) ++ b) ++ k)) k.
Proof.
  intros Hw Hc Hb HF. rewrite <-!app_assoc. simpl app. rewrite scan_frame_ws, HF by done.
  by apply advances_continue.
Qed.

Lemma comma_advances f g fs w a b k :
  ws w → closes (level (g :: fs)) g a → closes_all fs b →
  (∀ x, scan_frame (f :: fs) (","%byte :: x) = continue (g :: fs) false x) →
  advances (scan_frame (f :: fs) (((w ++ ","%byte :: a) ++ b) ++ k)) k.
Proof.
  intros Hw Ha Hb HF.
  replace (((w ++ ","%byte :: a) ++ b) ++ k) with (w ++ ","%byte :: (a ++ b) ++ k)
    by (rewrite <-!app_assoc; simpl; by rewrite <-?app_assoc).
  rewrite scan_frame_ws, HF by done. apply advances_continue. by exists a, b.
Qed.

Lemma frame_advances f fs u k :
  closes_all (f :: fs) u → advances (scan_frame (f :: fs) (u ++ k)) k.
Proof.
  intros (a & b & -> & Ha & Hb). destruct f as [[]|[]]; simpl in Ha.
  - destruct Ha as ([|e es] & Ha & Hes).
    + inversion Ha; subst. by apply bracket_advances.
    + apply (key_advances fs (FrameObject FirstKeyOrEnd) (e :: es)); try done. by left.
  - destruct Ha as (es & Hne & Ha & Hes). apply (key_advances fs (FrameObject KeyAfterComma) es); try done.
    by right.
  - destruct Ha as (es & Ha & Hes). inversion Ha as [n w Hw|n w0 w q w' w'' t v es' r]; subst.
    + by apply bracket_advances.
    + apply (comma_advances _ (FrameObject KeyAfterComma)); try done. exists ((q, t) :: es').
      split_and!; try done. by constructor.
  - destruct Ha as ([|e es] & Ha & Hes).
    + inversion Ha; subst. by apply bracket_advances.
    + apply (element_advances fs (FrameArray FirstValueOrEnd) (e :: es)); try done. by left.
  - destruct Ha as (es & Hne & Ha & Hes). apply (element_advances fs (FrameArray ValueAfterComma) es); try done.
    by right.
  - destruct Ha as (es & Ha & Hes). inversion Ha as [n w Hw|n w w' t v ts r]; subst.
    + by apply bracket_advances.
    + apply (comma_advances _ (FrameArray ValueAfterComma)); try done. exists (t :: ts).
      split_and!; try done. by constructor.
Qed.
End machine.

(* ------------------------------------------------------------------ *)
(** ** The contract of [scan_json_value]: it accepts exactly the JSON values, asks
    for more input exactly on the beginnings of values, and rejects the rest at
    the first byte with which no value goes on. *)


Section loop.
Context (fin : bool).

(** What a turn leads to on a completing text. *)
Definition ends_or_advances (res : scan turn) (k : bytes) : Prop :=
  res = done (Return k) ∨ advances fin res k.

Lemma scalar_advances fs r k :
  closes_all fin fs r → ends_or_advances (scan_frame fs (r ++ k)) k.
Proof.
  destruct fs as [|f fs]; [intros ->; by left|]. intros Hr. right. by apply frame_advances.
Qed.

Lemma closes_ends f fs r k : past_value f → closes_all fin (f :: fs) r → ends_value (r ++ k).
Proof.
  intros [-> | ->] (a & b & -> & (es & Ha & _) & _); rewrite <-app_assoc;
    [by eapply more_members_ends|by eapply more_elements_ends].
Qed.

Lemma open_advances fs frame b s u n k :
  S n = level fs →
  (∀ x, value_turn fin fs (b :: x) =
     if Nat.eqb (length fs) GO_MAX_JSON_NESTING_DEPTH
     then json_scan_error (b :: x) "exceeded max depth"
     else continue (frame :: fs) false x) →
  closes fin n frame s → closes_all fin fs u →
  ends_or_advances (value_turn fin fs (((b :: s) ++ u) ++ k)) k.
Proof.
  intros Hn HF Hs Hu. right. simpl app. rewrite HF. unfold level in Hn.
  rewrite (proj2 (Nat.eqb_neq _ _)) by lia. apply advances_continue. exists s, u.
  split_and!; [done| |done]. replace (level (frame :: fs)) with n by (unfold level; simpl; lia). done.
Qed.

Lemma value_advances fs u k :
  Forall past_value fs → value_then fin fs u k →
  ends_or_advances (value_turn fin fs (u ++ k)) k.
Proof.
  intros Hp (w & t & v & r & -> & Hw & Hv & Ht & Hr & Hk).
  rewrite <-app_assoc, value_turn_ws by done.
  assert (follow t (r ++ k)) as Hrk.
  { destruct fs as [|f fs]; [simpl in Hr; subst; by apply Hk|].
    eapply follow_delimiter; [done|]. inversion Hp. by eapply closes_ends. }
  remember (level fs) as n eqn:En.
  assert (∀ t, primitive t v → fine fin t → follow t (r ++ k) →
    ends_or_advances (value_turn fin fs ((v ++ r) ++ k)) k) as Hprim.
  { intros t' Hv' Ht' Hk'. rewrite <-app_assoc, (value_turn_primitive_app _ _ t') by done.
    assert (fin && infinite_number v = false) as ->; [|by apply scalar_advances].
    destruct fin eqn:Ef; [|done]. simpl. destruct Hv' as [s Hs|s Hs]; [by apply infinite_literal|].
    specialize (Ht' eq_refl). by inversion Ht'. }
  destruct Hv as [n s Hs|n s Hs|n s Hs|n ts s Hs|n es s Hs].
  - rewrite <-app_assoc, value_turn_string by done. by apply scalar_advances.
  - by apply (Hprim (TNumber s)); [constructor|..].
  - by apply (Hprim (TLiteral s)); [constructor|..].
  - apply (open_advances fs (FrameArray FirstValueOrEnd) _ _ _ n); try done.
    exists ts. split; [done|]. by apply fine_array.
  - apply (open_advances fs (FrameObject FirstKeyOrEnd) _ _ _ n); try done.
    exists es. split; [done|]. by apply fine_object.
Qed.

(* ------------------------------------------------------------------ *)
(** ** The loop *)

Lemma state_eta s : {| frames := frames s; needs_value := needs_value s; at_raw := at_raw s |} = s.
Proof. by destruct s. Qed.

Lemma turn_case s :
  wf_state s →
  turn_spec fin
    (λ u, scan_turn fin {| frames := frames s; needs_value := needs_value s; at_raw := u |})
    (completes fin (frames s) (needs_value s)) (measure s) (at_raw s).
Proof.
  destruct s as [fs [] u]; intros Hwf; simpl; unfold measure; simpl.
  - rewrite Nat.add_0_r. by apply value_spec.
  - destruct fs as [|f fs].
    + unfold turn_spec. simpl. by exists [].
    + by apply frame_spec.
Qed.

Lemma turn_advances s u k :
  wf_state s → at_raw s = u ++ k → completes fin (frames s) (needs_value s) u k →
  ends_or_advances (scan_turn fin s) k.
Proof.
  destruct s as [fs [] v]; simpl; intros [Hl Hp] -> Hc.
  - by apply value_advances.
  - by apply scalar_advances.
Qed.

(** More fuel than [measure] turns is not used. *)
Definition run (s : ScanState) : scan bytes := scan_loop (S (measure s)) fin s.

Lemma loop_run fuel s : wf_state s → (measure s < fuel)%nat → scan_loop fuel fin s = run s.
Proof.
  unfold run. revert s. assert (∀ fuel fuel' s, wf_state s → (measure s < fuel)%nat →
    (measure s < fuel')%nat → scan_loop fuel fin s = scan_loop fuel' fin s) as H; [|intros; apply H; auto with lia].
  clear fuel. induction fuel as [|fuel IH]; intros [|fuel'] s Hwf H1 H2; try lia. simpl.
  pose proof (turn_case s Hwf) as Ht. unfold turn_spec in Ht. rewrite state_eta in Ht.
  destruct (scan_turn fin s) as [[[s'|r]|]|e]; simpl; [|done..].
  destruct Ht as (Hwf' & Hm & _). apply IH; [done|lia..].
Qed.

Lemma run_turn s :
  wf_state s →
  run s = let! t := scan_turn fin s in match t with Continue s' => run s' | Return r => done r end.
Proof.
  intros Hwf. unfold run at 1. simpl.
  pose proof (turn_case s Hwf) as Ht. unfold turn_spec in Ht. rewrite state_eta in Ht.
  destruct (scan_turn fin s) as [[[s'|r]|]|e]; simpl; [|done..].
  destruct Ht as (Hwf' & Hm & _). apply loop_run; [done|lia].
Qed.

Notation at_state s u := {| frames := frames s; needs_value := needs_value s; at_raw := u |}.

Lemma run_spec s :
  wf_state s →
  match run s with
  | Ok (Some k) => ∃ a, at_raw s = a ++ k ∧ completes fin (frames s) (needs_value s) a k
  | Ok None => fin = false → ∃ r, completes fin (frames s) (needs_value s) (at_raw s ++ r) []
  | Err e => offends (λ u, run (at_state s u)) (at_raw s) e
  end.
Proof.
  induction s as [s IH] using (well_founded_induction (Wf_nat.well_founded_ltof _ measure)).
  unfold Wf_nat.ltof in IH. intros Hwf. pose proof (turn_case s Hwf) as Ht.
  unfold turn_spec in Ht. rewrite state_eta in Ht. rewrite run_turn by done.
  destruct (scan_turn fin s) as [[[s'|r]|]|e] eqn:Es; simpl.
  - destruct Ht as (Hwf' & Hm & a & Ea & Hc & HF). specialize (IH s' Hm Hwf').
    destruct (run s') as [[k|]|e].
    + destruct IH as (x & Ex & Hx). exists (a ++ x). rewrite Ea, Ex, app_assoc. auto.
    + intros Hf. destruct (IH Hf) as (r & Hr). exists r. rewrite Ea, <-app_assoc. auto.
    + rewrite Ea. eapply (offends_like _ (λ u, run (at_state s' u))); [|exact IH].
      intros x Hx. rewrite run_turn by apply Hwf. by rewrite HF.
  - done.
  - done.
  - destruct Ht as (p & b & k & x & E & -> & Hp & Hk). exists p, b, k, x.
    split_and!; [done..| |].
    + rewrite run_turn by apply Hwf. by rewrite Hp.
    + intros k'. rewrite run_turn by apply Hwf. by rewrite Hk.
Qed.

Lemma run_complete s u k :
  wf_state s → at_raw s = u ++ k → completes fin (frames s) (needs_value s) u k → run s = done k.
Proof.
  revert u. induction s as [s IH] using (well_founded_induction (Wf_nat.well_founded_ltof _ measure)).
  unfold Wf_nat.ltof in IH. intros u Hwf Eu Hc. rewrite run_turn by done.
  destruct (turn_advances s u k Hwf Eu Hc) as [->|(s' & v & Es & Ev & Hv)]; [done|].
  pose proof (turn_case s Hwf) as Ht. unfold turn_spec in Ht. rewrite state_eta, Es in Ht.
  destruct Ht as (Hwf' & Hm & _). rewrite Es. simpl. by eapply IH.
Qed.

End loop.

(* ------------------------------------------------------------------ *)
(** ** Whole values *)

(** The text begins, after white space, with the value [t], nested at most as
    deep as Go allows; [k] is what follows it. *)
Definition value_at (finite_numbers_only : bool) (u : bytes) (t : tree) (k : bytes) : Prop :=
  ∃ w v, u = w ++ v ++ k ∧ ws w ∧ mreads GO_MAX_JSON_NESTING_DEPTH t v ∧
    fine finite_numbers_only t ∧ follow t k.

(** Some text goes on to a value. *)
Definition begins_value (p : bytes) : Prop :=
  ∃ r t w v, p ++ r = w ++ v ∧ ws w ∧ mreads GO_MAX_JSON_NESTING_DEPTH t v.

Lemma begins_iff p : begins_value p ↔ ∃ r, value_then false [] (p ++ r) [].
Proof.
  split.
  - intros (r & t & w & v & E & Hw & Hv). exists r, w, t, v, []. rewrite app_nil_r.
    split_and!; try done; by destruct t.
  - intros (r & w & t & v & z & E & Hw & Hv & _ & Hz & _). simpl in Hz. subst z.
    exists r, t, w, v. rewrite app_nil_r in E. split_and!; [done..|].
    unfold level in Hv. simpl in Hv. by rewrite Nat.sub_0_r in Hv.
Qed.

Lemma value_at_iff fin u t k :
  value_at fin u t k → ∃ x, u = x ++ k ∧ value_then fin [] x k.
Proof.
  intros (w & v & -> & Hw & Hv & Ht & Hk). exists (w ++ v). split; [by rewrite app_assoc|].
  exists w, t, v, []. rewrite app_nil_r. by split_and!.
Qed.

Lemma value_then_at fin x k : value_then fin [] x k → ∃ t, value_at fin (x ++ k) t k.
Proof.
  intros (w & t & v & r & -> & Hw & Hv & Ht & Hr & Hk). simpl in Hr. subst r.
  exists t, w, v. rewrite app_nil_r, <-app_assoc. split_and!; [done..| |done|by apply Hk].
  unfold level in Hv. simpl in Hv. by rewrite Nat.sub_0_r in Hv.
Qed.

Notation start u := {| frames := []; needs_value := true; at_raw := u |}.

Lemma start_wf u : wf_state (start u).
Proof. split; simpl; [lia|constructor]. Qed.

Lemma scan_json_value_run u fin : scan_json_value u fin = run fin (start u).
Proof.
  unfold scan_json_value. apply loop_run; [apply start_wf|]. unfold measure. simpl. lia.
Qed.

Lemma scan_json_value_iff fin u k :
  scan_json_value u fin = done k ↔ ∃ t, value_at fin u t k.
Proof.
  rewrite scan_json_value_run. split.
  - intros E. pose proof (run_spec fin _ (start_wf u)) as H. rewrite E in H.
    destruct H as (x & Ex & Hx). simpl in Ex. subst u. by apply value_then_at.
  - intros (t & Ht). apply value_at_iff in Ht as (x & -> & Hx).
    by eapply run_complete; [apply start_wf| |exact Hx].
Qed.

Lemma scan_json_value_none u : scan_json_value u false = Ok None → begins_value u.
Proof.
  rewrite scan_json_value_run. intros E. pose proof (run_spec false _ (start_wf u)) as H.
  rewrite E in H. apply begins_iff. by apply H.
Qed.

Lemma scan_json_value_err u fin e :
  scan_json_value u fin = Err e → offends (λ u, scan_json_value u fin) u e.
Proof.
  rewrite scan_json_value_run. intros E. pose proof (run_spec fin _ (start_wf u)) as H.
  rewrite E in H. destruct H as (p & b & k & x & Eu & -> & Hp & Hk). exists p, b, k, x.
  split_and!; [done..|by rewrite scan_json_value_run|].
  intros k'. rewrite scan_json_value_run. apply Hk.
Qed.

(** What is rejected stays rejected, whatever follows. *)
Lemma scan_json_value_err_app u v fin e :
  scan_json_value u fin = Err e → scan_json_value (u ++ v) fin = Err e.
Proof.
  intros (p & b & k & x & -> & -> & _ & Hk)%scan_json_value_err.
  rewrite <-app_assoc. apply Hk.
Qed.

(** A value that is not a number at the very end stays what it is. *)
Lemma scan_json_value_app u k v fin :
  scan_json_value u fin = done k → k ≠ [] → scan_json_value (u ++ v) fin = done (k ++ v).
Proof.
  intros (t & w & x & -> & Hw & Hx & Ht & Hk)%scan_json_value_iff Hne.
  apply scan_json_value_iff. exists t, w, x. split; [by rewrite <-!app_assoc|].
  split_and!; [done..|]. eapply follow_like; [done|]. right. by destruct k.
Qed.

(** White space in front is skipped. *)
Lemma scan_json_value_ws w u fin : ws w → scan_json_value (w ++ u) fin = scan_json_value u fin.
Proof.
  intros Hw. rewrite !scan_json_value_run, !run_turn by apply start_wf.
  pose proof (value_turn_ws fin [] w u Hw) as E. unfold value_turn in E. by rewrite E.
Qed.

(** C29: the scanner accepts a text exactly when it begins with a JSON value (with
    [finite_numbers_only], one whose numbers are doubles), and reads to that
    value's end.  It asks for more input exactly on a beginning of a value that
    holds none yet, and fails exactly when it holds neither: at the first byte
    with which no value goes on, which the message quotes. *)
Theorem scan_json_value_spec u :
  (∀ fin k, scan_json_value u fin = done k ↔ ∃ t, value_at fin u t k) ∧
  (scan_json_value u false = Ok None ↔ begins_value u ∧ ¬ ∃ t k, value_at false u t k) ∧
  (∀ e, scan_json_value u false = Err e → ∃ p b k context,
     u = p ++ b :: k ∧ e = scan_error_text b context ∧
     begins_value p ∧ ¬ begins_value (p ++ [b])).
Proof.
  assert (∀ p r, begins_value p → scan_json_value p false = Err r → False) as Hno.
  { intros p e (r & t & w & v & E & Hw & Hv) He. apply (scan_json_value_err_app _ r) in He.
    rewrite E in He. assert (scan_json_value (w ++ v) false = done []) as Hd; [|congruence].
    apply scan_json_value_iff. exists t, w, v. rewrite app_nil_r. split_and!; try done. by destruct t. }
  split; [intros; apply scan_json_value_iff|]. split; [split|].
  - intros E. split; [by apply scan_json_value_none|]. intros (t & k & Ht).
    assert (scan_json_value u false = done k) by (apply scan_json_value_iff; eauto). congruence.
  - intros [Hb Hn]. destruct (scan_json_value u false) as [[k|]|e] eqn:E; [|done|by destruct (Hno u e)].
    apply scan_json_value_iff in E as (t & Ht). destruct Hn. eauto.
  - intros e (p & b & k & x & -> & -> & Hp & Hk)%scan_json_value_err. exists p, b, k, x.
    split_and!; [done..|by apply scan_json_value_none|]. intros Hb. by eapply Hno.
Qed.
