(* ===== verification/McpTools.v ===== *)
(** Answering tool requests of the MCP server: [cli/mcp/envelope.rs],
    [tools_list.rs] and [tools_call.rs].

    [serde_json] is the class [SerdeJson] ([from_slice] reads the bytes as
    [from_str] does, whose argument is any byte string); structures serialise as
    objects with their fields in declaration order.  The tool handler is a
    function on a world of its own, so that its calls are visible; the tools of
    the embedded catalogue, which is parsed on every call, are an argument. *)
From S2P Require Import Prelude.
From S2P Require Import Text.
From S2P Require Import Json.
From S2P Require Import Encryption.
From S2P Require Import JsonText.
From S2P Require Import MailParse.
From S2P Require Import Inbox.
From Stdlib Require Import Ascii Strings.Byte.
From Corelib Require Import SpecFloat.

#[local] Notation length := List.length.

Definition text_of (raw : bytes) : string := String.string_of_list_byte raw.

Inductive Outcome :=
| Response (bytes : bytes)
| Notification
| ParseError.

(** [ToolError] *)
Record ToolError := {
  te_message : string;
  te_raw_message : option bytes;
}.

(* ------------------------------------------------------------------ *)
(** ** envelope.rs *)

Definition STORAGE_MARKERS : list string :=
  ["sqlite"; "no such table"; "database is locked"; "database disk image is malformed"].
Definition STORAGE_MESSAGE : string := "Database not ready — start the server again".
Definition PANIC_MESSAGE : string := "Internal server error".

(** The escapes of Go's encoder. *)
Definition html_escape (byte : byte) : option bytes :=
  if bool_decide (byte = "<"%byte) then Some (lit "\u003c")
  else if bool_decide (byte = ">"%byte) then Some (lit "\u003e")
  else if bool_decide (byte = "&"%byte) then Some (lit "\u0026")
  else None.

(** The loop of [go_escape_json_strings] with its two flags. *)
Fixpoint escape_loop (in_string escaped : bool) (input : bytes) : bytes :=
  match input with
  | [] => []
  | byte :: input' =>
      if negb in_string then byte :: escape_loop (bool_decide (byte = quote)) escaped input'
      else if escaped then byte :: escape_loop in_string false input'
      else if bool_decide (byte = backslash) then byte :: escape_loop in_string true input'
      else if bool_decide (byte = quote) then byte :: escape_loop false escaped input'
      else
        match html_escape byte with
        | Some text => text ++ escape_loop in_string escaped input'
        | None =>
            match input with
            | xe2 :: x80 :: xa8 :: input'' => lit "\u2028" ++ escape_loop in_string escaped input''
            | xe2 :: x80 :: xa9 :: input'' => lit "\u2029" ++ escape_loop in_string escaped input''
            | _ => byte :: escape_loop in_string escaped input'
            end
        end
  end.

Definition go_escape_json_strings (input : bytes) : bytes := escape_loop false false input.

(** [error.valid_up_to()], or the length of a text that is UTF-8. *)
Fixpoint valid_up_to (copy : nat) (s : string) : nat :=
  match s with
  | "" => 0
  | String _ s' =>
      match copy with
      | S copy => S (valid_up_to copy s')
      | O =>
          match utf8_step s with
          | Valid n => S (valid_up_to (n - 1) s')
          | _ => 0
          end
      end
  end.

Section envelope.
Context `{SerdeJson} `{Lowercase}.

(** [serde_json::to_vec] *)
Definition to_vec (v : value) : bytes := lit (to_string v).

(** [serde_json::from_slice] *)
Definition from_slice (raw : bytes) : option value := from_str (text_of raw).

Definition encode (v : value) : bytes := go_escape_json_strings (to_vec v ++ [x0a]).

Definition content_envelope (result : option value) : value :=
  let text :=
    match result with
    | Some (JString value) => value
    | Some value => text_of (go_escape_json_strings (to_vec value))
    | None => "null"
    end in
  JObject [("content", JArray [JObject [("text", JString text); ("type", JString "text")]])].

Definition sanitize_error (message : string) : string :=
  let lower := to_lowercase message in
  if existsb (λ marker, contains marker lower) STORAGE_MARKERS then STORAGE_MESSAGE
  else if contains "panic" lower then PANIC_MESSAGE
  else message.

Definition success_response (id result : value) : value :=
  JObject [("jsonrpc", JString "2.0"); ("result", result); ("id", id)].

Definition failure_response (id : value) (code : Z) (message : string) : value :=
  JObject [("jsonrpc", JString "2.0");
           ("error", JObject [("code", jint code); ("message", JString message)]); ("id", id)].

Definition result_response (id : value) (result : option value) : bytes :=
  encode (success_response id (content_envelope result)).

Definition raw_result_response (id result : value) : bytes := encode (success_response id result).

Definition error_response (id : value) (code : Z) (message : string) : bytes :=
  encode (failure_response id code message).

(** The text of a string without its quotes. *)
Definition append_json_string_content (value : string) : bytes :=
  let encoded := to_vec (JString value) in
  take (length encoded - 2) (drop 1 encoded).

(** The loop of [go_json_string_bytes]; a turn reads at least one byte. *)
Fixpoint json_string_loop (fuel : nat) (bytes : string) : list byte :=
  match fuel with
  | O => []
  | S fuel =>
      match bytes with
      | "" => []
      | _ =>
          let valid := valid_up_to 0 bytes in
          if Nat.eqb valid (String.length bytes) then append_json_string_content bytes
          else
            (if Nat.ltb 0 valid then append_json_string_content (str_take valid bytes) else [])
            ++ lit "\ufffd" ++ json_string_loop fuel (str_drop (S valid) bytes)
      end
  end.

Definition go_json_string_bytes (bytes : list byte) : list byte :=
  [quote] ++ json_string_loop (S (length bytes)) (text_of bytes) ++ [quote].

(** A quoted name and its colon, in the texts written by [format!]. *)
Definition field (name : string) : bytes := [quote] ++ lit name ++ [quote] ++ lit ":".

Definition raw_error_response (id : value) (code : Z) (message : bytes) : bytes :=
  go_escape_json_strings
    (lit "{" ++ field "jsonrpc" ++ [quote] ++ lit "2.0" ++ [quote] ++ lit ","
     ++ field "error" ++ lit "{" ++ field "code" ++ lit (show code) ++ lit ","
     ++ field "message" ++ go_json_string_bytes message ++ lit "},"
     ++ field "id" ++ to_vec id ++ lit "}" ++ [x0a]).
End envelope.

(* ------------------------------------------------------------------ *)
(** ** tools_list.rs *)

(** [Value::Null | Value::String(_) | Value::Number(_)] *)
Definition scalar_id (id : value) : bool :=
  match id with JNull | JString _ | JNumber _ => true | _ => false end.

Section list.
Context `{SerdeJson} `{Lowercase}.
(** The [tools] array of the catalogue. *)
Context (catalogue : list value).

(** [response_error] and [invalid_request] of [tools_list.rs] *)
Definition list_response_error (id : value) (code : Z) (message : string) : Outcome :=
  Response (encode (failure_response id code message)).

Definition list_invalid_request (id : option value) : Outcome :=
  list_response_error (default JNull id) (-32600) "invalid request".

Definition response_tools (id : value) (tools : list value) : Outcome :=
  let tools := List.map go_map_order tools in
  Response (encode (success_response id (JObject [("tools", JArray tools)]))).

Definition tools_list (raw : bytes) : Outcome :=
  match from_slice raw with
  | None => ParseError
  | Some request =>
      match as_object request with
      | None => ParseError
      | Some request =>
          match map_get "jsonrpc" request ≫= as_str with
          | None => list_invalid_request (map_get "id" request)
          | Some jsonrpc =>
              match map_get "method" request ≫= as_str with
              | None => list_invalid_request (map_get "id" request)
              | Some method =>
                  if negb (String.eqb jsonrpc "2.0") || is_empty method then
                    list_invalid_request (map_get "id" request)
                  else if negb (String.eqb method "tools/list")
                          && negb (String.eqb method "list_tools") then
                    list_invalid_request (map_get "id" request)
                  else
                    match map_get "id" request with
                    | None => Notification
                    | Some id =>
                        if negb (scalar_id id) then list_invalid_request (Some id)
                        else
                          match map_get "params" request with
                          | None | Some JNull | Some (JObject _) => response_tools id catalogue
                          | Some _ => list_response_error id (-32602) "invalid params"
                          end
                    end
              end
          end
      end
  end.
End list.

(* ------------------------------------------------------------------ *)
(** ** tools_call.rs *)

Definition LEGACY_STATUS_ALIAS : string := "status".

(** [tool.get(key)] of a value. *)
Definition value_get (key : string) (v : value) : option value := as_object v ≫= map_get key.

Definition json_value_matches (kind : string) (v : value) : bool :=
  if String.eqb kind "string" then match v with JString _ => true | _ => false end
  else if String.eqb kind "boolean" then match v with JBool _ => true | _ => false end
  else if String.eqb kind "integer" then
    match as_f64 v with
    | Some number => SFeqb number (f64_of_Z (f64_as_i64 number))
    | None => false
    end
  else if String.eqb kind "array" then match v with JArray _ => true | _ => false end
  else true.

Fixpoint check_required (required : list value) (arguments : jmap) : result string () :=
  match required with
  | [] => Ok ()
  | JString key :: required =>
      if map_has key arguments then check_required required arguments
      else Err ("missing required argument: " +:+ key)
  | _ :: required => check_required required arguments
  end.

Definition kind_of (properties : option value) (key : string) : option string :=
  ((properties ≫= value_get key) ≫= value_get "type") ≫= as_str.

Fixpoint check_types (properties : option value) (arguments : jmap) : result string () :=
  match arguments with
  | [] => Ok ()
  | (key, value) :: arguments =>
      match kind_of properties key with
      | Some kind =>
          if json_value_matches kind value then check_types properties arguments
          else Err ("invalid parameter type: " +:+ key)
      | None => check_types properties arguments
      end
  end.

Definition validate_arguments (tool : value) (arguments : jmap) : result string () :=
  let schema := value_get "inputSchema" tool in
  _ ← match (schema ≫= value_get "required") ≫= as_array with
      | Some required => check_required required arguments
      | None => Ok ()
      end;
  check_types (schema ≫= value_get "properties") arguments.

Definition tool_named (name : string) (tool : value) : bool :=
  bool_decide (value_get "name" tool ≫= as_str = Some name).

Definition catalogue_has_tool (catalogue : list value) (name : string) : bool :=
  existsb (tool_named name) catalogue.

Definition legacy_path (params : option value) : option string :=
  match params with
  | Some (JArray (JString path :: _)) => if is_empty path then None else Some path
  | Some (JObject object) =>
      match map_get "path" object with
      | Some (JString path) => if is_empty path then None else Some path
      | _ => None
      end
  | _ => None
  end.

Section call.
Context `{SerdeJson} `{Lowercase}.
Context (catalogue : list value).
(** The handler's [call_cancellable], with the token of the request, and [call]. *)
Context {W : Type}.
Context (call_cancellable call : string → jmap → W → result ToolError value * W).

Definition response_error (id : value) (code : Z) (message : string) : Outcome :=
  Response (error_response id code message).

Definition invalid_request (id : option value) : Outcome :=
  response_error (default JNull id) (-32600) "invalid request".

Definition dispatch (id : value) (name : string) (arguments : jmap) (w : W) : Outcome * W :=
  let '(res, w) := call_cancellable name arguments w in
  (match res with
   | Ok result => Response (result_response id (Some result))
   | Err error =>
       let message := te_message error in
       let sanitized := sanitize_error message in
       match te_raw_message error with
       | Some raw =>
           if String.eqb sanitized message then Response (raw_error_response id (-32603) raw)
           else response_error id (-32603) sanitized
       | None => response_error id (-32603) sanitized
       end
   end, w).

(** The checks that [tools/call] and [redact_file] begin with: the request's id
    and its fields, or the answer. *)
Definition open_request (raw : bytes) : Outcome + (value * jmap) :=
  match from_slice raw with
  | None => inl ParseError
  | Some request =>
      match as_object request with
      | None => inl ParseError
      | Some request =>
          match map_get "jsonrpc" request ≫= as_str with
          | None => inl (invalid_request (map_get "id" request))
          | Some jsonrpc =>
              match map_get "method" request ≫= as_str with
              | None => inl (invalid_request (map_get "id" request))
              | Some method =>
                  if negb (String.eqb jsonrpc "2.0") || is_empty method then
                    inl (invalid_request (map_get "id" request))
                  else
                    match map_get "id" request with
                    | None => inl Notification
                    | Some id =>
                        if negb (scalar_id id) then inl (invalid_request (Some id))
                        else inr (id, request)
                    end
              end
          end
      end
  end.

(** An absent or null object of [params] or [arguments] is the empty one. *)
Definition object_or_empty (v : option value) : option jmap :=
  match v with
  | None | Some JNull => Some []
  | Some (JObject object) => Some object
  | Some _ => None
  end.

Definition tools_call (raw : bytes) (w : W) : Outcome * W :=
  match open_request raw with
  | inl answer => (answer, w)
  | inr (id, request) =>
      match object_or_empty (map_get "params" request) with
      | None => (response_error id (-32602) "invalid params", w)
      | Some params =>
          match map_get "name" params ≫= as_str with
          | None => (response_error id (-32602) "missing tool name", w)
          | Some name =>
              if is_empty (trim name) then (response_error id (-32602) "missing tool name", w)
              else
                match object_or_empty (map_get "arguments" params) with
                | None => (response_error id (-32602) "invalid params", w)
                | Some arguments =>
                    match find (tool_named name) catalogue with
                    | None =>
                        if negb (String.eqb name LEGACY_STATUS_ALIAS)
                        then (response_error id (-32601) "method not found", w)
                        else dispatch id name arguments w
                    | Some tool =>
                        match validate_arguments tool arguments with
                        | Err message => (response_error id (-32602) message, w)
                        | Ok _ => dispatch id name arguments w
                        end
                    end
                end
          end
      end
  end.

Definition legacy_redact_file (raw : bytes) (w : W) : Outcome * W :=
  match open_request raw with
  | inl answer => (answer, w)
  | inr (id, request) =>
      match legacy_path (map_get "params" request) with
      | None => (response_error id (-32602) "missing path parameter", w)
      | Some path =>
          let '(res, w) := call "redact_file" [("path", JString path)] w in
          (match res with
           | Ok result => Response (raw_result_response id result)
           | Err error => response_error id (-32602) (sanitize_error (te_message error))
           end, w)
      end
  end.
End call.
