(* ===== verification/McpProtocol.v ===== *)
(** The JSON-RPC front of the MCP server: [cli/mcp/protocol.rs] above its
    scanner.  A request is taken apart by the scanner as Go's decoder would,
    with its numbers as texts, and handed to the method it names. *)
From S2P Require Import Prelude.
From S2P Require Import Text.
From S2P Require Import Json.
From S2P Require Import Identity.
From S2P Require Import Encryption.
From S2P Require Import JsonText.
From S2P Require Import ProfileJson.
From S2P Require Import MailParse.
From S2P Require Import McpScan.
From S2P Require Import McpTools.
From Stdlib Require Import Ascii Strings.Byte.
From Corelib Require Import SpecFloat.

#[local] Notation length := List.length.

(* ------------------------------------------------------------------ *)
(** ** Strings *)

(** The UTF-8 encoding of a scalar value ([String::push]). *)
Definition encode_utf8 (c : Z) : string :=
  let byte n := ascii_of_nat (Z.to_nat n) in
  let tail n := byte (128 + n mod 64) in
  if c <? 128 then String (byte c) ""
  else if c <? 2048 then String (byte (192 + c / 64)) (String (tail c) "")
  else if c <? 65536 then
    String (byte (224 + c / 4096)) (String (tail (c / 64)) (String (tail c) ""))
  else
    String (byte (240 + c / 262144))
      (String (tail (c / 4096)) (String (tail (c / 64)) (String (tail c) ""))).

(** Four digits do not overflow the [u16] of the code. *)
Definition parse_hex_code_unit (raw : bytes) : option Z := parse_hex_quad raw 0.

(** [flush_pending_surrogate]: what it appends. *)
Definition flush_pending_surrogate (pending_high : option Z) : string :=
  match pending_high with Some _ => fffd | None => "" end.

(** One-letter escapes. *)
Definition unescape (escape : byte) : option ascii :=
  if bool_decide (escape = quote) then Some (b 34)
  else if bool_decide (escape = backslash) then Some (b 92)
  else if bool_decide (escape = "/"%byte) then Some "/"%char
  else if bool_decide (escape = "b"%byte) then Some (b 8)
  else if bool_decide (escape = "f"%byte) then Some (b 12)
  else if bool_decide (escape = "n"%byte) then Some (b 10)
  else if bool_decide (escape = "r"%byte) then Some (b 13)
  else if bool_decide (escape = "t"%byte) then Some (b 9)
  else None.

(** The bytes before the next backslash. *)
Fixpoint plain_chunk (raw : bytes) : bytes :=
  match raw with
  | byte :: raw' => if bool_decide (byte = backslash) then [] else byte :: plain_chunk raw'
  | [] => []
  end.

(** The loop of [decode_json_string]: [raw] is what is left, the closing quote
    included, so [index < end] says that more than one byte is left.  Every turn
    moves on. *)
Fixpoint decode_loop (fuel : nat) (raw : bytes) (output : string) (pending_high : option Z) :
    option string :=
  match fuel with
  | O => None
  | S fuel =>
      let flushed := output +:+ flush_pending_surrogate pending_high in
      match raw with
      | [] | [_] => Some flushed
      | byte :: escape :: raw' =>
          if bool_decide (byte = backslash) then
            if bool_decide (escape = "u"%byte) then
              code ← parse_hex_code_unit raw';
              let after := drop 4 raw' in
              if between 55296 56319 code then decode_loop fuel after flushed (Some code)
              else if between 56320 57343 code then
                match pending_high with
                | Some high =>
                    let scalar := 65536 + (high - 55296) * 1024 + (code - 56320) in
                    decode_loop fuel after (output +:+ encode_utf8 scalar) None
                | None => decode_loop fuel after (output +:+ fffd) None
                end
              else decode_loop fuel after (flushed +:+ encode_utf8 code) None
            else
              c ← unescape escape;
              decode_loop fuel raw' (flushed +:+ String c "") None
          else
            let chunk := plain_chunk (take (length raw - 1) raw) in
            decode_loop fuel (drop (length chunk) raw)
              (flushed +:+ to_valid_utf8_lossy_per_byte (text_of chunk)) None
      end
  end.

Definition decode_json_string (raw : bytes) : option string :=
  if bool_decide (head raw = Some quote) && bool_decide (last raw = Some quote) then
    decode_loop (S (length raw)) (tail raw) "" None
  else None.

(* ------------------------------------------------------------------ *)
(** ** Numbers *)

Inductive GoId :=
| GoNull
| GoString (s : string)
| GoNumber (s : string).

Inductive IdState := Valid (id : GoId) | Invalid.

(** [trim_start_matches('-')] *)
Fixpoint trim_minus (s : string) : string :=
  match s with String "-"%char s' => trim_minus s' | _ => s end.

(** [str::find] of a character. *)
Fixpoint find_char (c : ascii) (s : string) : option nat :=
  match s with
  | "" => None
  | String c' s' => if Ascii.eqb c c' then Some O else S <$> find_char c s'
  end.

Definition zeros (n : Z) : string := String.concat "" (replicate (Z.to_nat n) "0").

Definition expand_decimal (mantissa : string) (exponent : Z) : string :=
  let negative := starts_with "-" mantissa in
  let digits := str_replace "." "" (trim_minus mantissa) in
  let decimal_at :=
    Z.of_nat (default (String.length mantissa) (find_char "." mantissa)
              - (if negative then 1 else 0))%nat + exponent in
  (if negative then "-" else "") +:+
  (if decimal_at <=? 0 then "0." +:+ zeros (- decimal_at) +:+ digits
   else if len digits <=? decimal_at then digits +:+ zeros (decimal_at - len digits)
   else str_take (Z.to_nat decimal_at) digits +:+ "." +:+ str_drop (Z.to_nat decimal_at) digits).

Definition without_point_zero (s : string) : string := default s (strip_suffix ".0" s).

(** An exponent that is no [i32] is a panic of the code; no text of a double has
    one, and the model then keeps the text. *)
Definition go_float_text (serialized : string) : string :=
  let parts :=
    match split_once "e" serialized with
    | Some p => Some p
    | None => split_once "E" serialized
    end in
  match parts with
  | None => without_point_zero serialized
  | Some (raw_mantissa, exponent) =>
      let mantissa := without_point_zero raw_mantissa in
      match parse_int (-2147483648) 2147483647 exponent with
      | None => serialized
      | Some exponent =>
          if between (-6) 20 exponent then expand_decimal mantissa exponent
          else mantissa +:+ "e" +:+ (if 0 <=? exponent then "+" else "") +:+ show exponent
      end
  end.

(** [value.fract() == 0.0] *)
Definition f64_integral (f : spec_float) : bool :=
  match f with
  | S754_zero _ => true
  | S754_finite _ m e => (0 <=? e) || (Zpos m mod 2 ^ (- e) =? 0)
  | _ => false
  end.

(** [value.abs() <= 9_007_199_254_740_992.0], of an integral value. *)
Definition f64_exact (f : spec_float) : bool := Z.abs (f64_as_i64 f) <=? 9007199254740992.

Section protocol.
Context `{SerdeJson}.

Definition normalize_finite_number (value : spec_float) (negative_zero : bool) : option GoId :=
  if negb (f64_is_finite value) then None
  else if negative_zero then Some (GoNumber "-0")
  else if f64_integral value && f64_exact value then Some (GoNumber (show (f64_as_i64 value)))
  else Some (GoNumber (go_float_text (to_string (JNumber (NFloat value))))).

(* ------------------------------------------------------------------ *)
(** ** Taking a request apart *)

(** The kinds of [params]. *)
Inductive ParamsState := Missing | Null | Object | Other.

Definition eq_ignore_ascii_case_char (a b : Z) : bool :=
  let lower c := if between 65 90 c then c + 32 else c in lower a =? lower b.

(** Long s and the Kelvin sign fold to s and k. *)
Definition go_char_matches (actual expected : Z) : bool :=
  eq_ignore_ascii_case_char actual expected
  || ((actual =? 383) && (expected =? 115)) || ((actual =? 115) && (expected =? 383))
  || ((actual =? 8490) && (expected =? 107)) || ((actual =? 107) && (expected =? 8490)).

Fixpoint chars_match (actual expected : list Z) : bool :=
  match expected, actual with
  | [], _ => match actual with [] => true | _ => false end
  | e :: expected, a :: actual => go_char_matches a e && chars_match actual expected
  | _ :: _, [] => false
  end.

Definition go_field_name_matches (actual expected : string) : bool :=
  chars_match (chars actual) (chars expected).

Definition NULL : bytes := lit "null".

Definition classify_raw_string (raw : bytes) : option string * bool :=
  if bool_decide (raw = NULL) then (None, false)
  else if negb (bool_decide (head raw = Some quote)) then (None, true)
  else
    match decode_json_string raw with
    | Some value => (Some value, false)
    | None => (None, true)
    end.

Definition classify_raw_id (raw : bytes) : IdState :=
  if bool_decide (raw = NULL) then Valid GoNull
  else if bool_decide (head raw = Some quote) then
    match decode_json_string raw with
    | Some value => Valid (GoString value)
    | None => Invalid
    end
  else if negb (is_json_number raw) then Invalid
  else
    let value := parse_f64 raw in
    let zero := match value with S754_zero _ => true | _ => false end in
    match normalize_finite_number value (zero && next_is "-"%byte raw) with
    | Some id => Valid id
    | None => Invalid
    end.

Definition classify_raw_params (raw : bytes) : ParamsState :=
  if bool_decide (raw = NULL) then Null
  else if next_is "{"%byte raw then
    match skip_json_value_with_finite_numbers raw with
    | Some after => match skip_whitespace after with [] => Object | _ => Other end
    | None => Other
    end
  else Other.

(** What was read between two positions. *)
Definition consumed (before after : bytes) : bytes := take (length before - length after) before.

(** The loop of [scan_object_fields]: names and raw values. *)
Fixpoint fields_loop (fuel : nat) (raw : bytes) (fields : list (string * bytes)) :
    option (list (string * bytes)) :=
  match fuel with
  | O => None
  | S fuel =>
      let finish raw fields := match skip_whitespace raw with [] => Some fields | _ => None end in
      let raw := skip_whitespace raw in
      if next_is "}"%byte raw then finish (next raw) fields
      else
        after ← skip_json_string raw;
        name ← decode_json_string (consumed raw after);
        let raw := skip_whitespace after in
        if negb (next_is ":"%byte raw) then None
        else
          let raw := skip_whitespace (next raw) in
          after ← skip_json_value raw;
          let fields := fields ++ [(name, consumed raw after)] in
          let raw := skip_whitespace after in
          if next_is ","%byte raw then
            let raw := skip_whitespace (next raw) in
            if next_is "}"%byte raw then None else fields_loop fuel raw fields
          else if next_is "}"%byte raw then finish (next raw) fields
          else None
  end.

Definition scan_object_fields (raw : bytes) : option (list (string * bytes)) :=
  let raw := skip_whitespace raw in
  if next_is "{"%byte raw then fields_loop (S (length raw)) (next raw) [] else None.

Record RequestState := {
  id_present : bool;
  rs_id : IdState;
  request_error : bool;
  valid_request : bool;
  rs_method : option string;
  rs_params : ParamsState;
}.

(** [RequestParse]: [None] is a parse error. *)
Notation RequestParse := (option RequestState).

Definition invalid_request_state : RequestState :=
  {| id_present := false; rs_id := Valid GoNull; request_error := false;
     valid_request := false; rs_method := None; rs_params := Missing |}.

(** The variables of the loop over the fields. *)
Record Recovered := {
  rc_id_present : bool;
  rc_id : IdState;
  rc_jsonrpc : option string;
  rc_method : option string;
  rc_error : bool;
  rc_params : ParamsState;
}.

Definition recover_field (r : Recovered) (field : string * bytes) : Recovered :=
  let '(name, value) := field in
  let '(Build_Recovered present id jsonrpc method error params) := r in
  if go_field_name_matches name "jsonrpc" then
    if bool_decide (value = NULL) then r
    else
      let '(v, e) := classify_raw_string value in
      Build_Recovered present id v method (error || e) params
  else if go_field_name_matches name "method" then
    if bool_decide (value = NULL) then r
    else
      let '(v, e) := classify_raw_string value in
      Build_Recovered present id jsonrpc v (error || e) params
  else if go_field_name_matches name "id" then
    Build_Recovered true (classify_raw_id value) jsonrpc method error params
  else if go_field_name_matches name "params" then
    Build_Recovered present id jsonrpc method error (classify_raw_params value)
  else r.

Definition recover_request_around_large_numbers (raw : bytes) : RequestParse :=
  fields ← scan_object_fields raw;
  let r := foldl recover_field (Build_Recovered false (Valid GoNull) None None false Missing) fields in
  Some {| id_present := rc_id_present r; rs_id := rc_id r; request_error := rc_error r;
          valid_request := bool_decide (rc_jsonrpc r = Some "2.0")
                           && match rc_method r with Some m => negb (is_empty m) | None => false end;
          rs_method := rc_method r; rs_params := rc_params r |}.

Definition parse_request (raw : bytes) : RequestParse :=
  let start := skip_whitespace raw in
  if next_is "{"%byte start then recover_request_around_large_numbers raw
  else
    after ← skip_json_value start;
    match skip_whitespace after with [] => Some invalid_request_state | _ => None end.

(* ------------------------------------------------------------------ *)
(** ** Answers *)

(** [go_json_string]: the serialised text with Go's escapes everywhere. *)
Fixpoint escape_all (encoded : bytes) : bytes :=
  match encoded with
  | [] => []
  | xe2 :: x80 :: xa8 :: encoded' => lit "\u2028" ++ escape_all encoded'
  | xe2 :: x80 :: xa9 :: encoded' => lit "\u2029" ++ escape_all encoded'
  | byte :: encoded' => default [byte] (html_escape byte) ++ escape_all encoded'
  end.

Definition go_json_string (value : string) : bytes := escape_all (to_vec (JString value)).

Definition append_id (id : GoId) : bytes :=
  match id with
  | GoNull => NULL
  | GoString value => go_json_string value
  | GoNumber value => lit value
  end.

(** [encode_response]: the closing brace is taken off and the id put on. *)
Definition encode_response (response : value) (id : GoId) : bytes :=
  let output := to_vec response in
  take (length output - 1) output ++ lit "," ++ field "id" ++ append_id id ++ lit "}" ++ [x0a].

Definition error_response (code : Z) (message : string) (id : GoId) : bytes :=
  encode_response
    (JObject [("jsonrpc", JString "2.0");
              ("error", JObject [("code", jint code); ("message", JString message)])]) id.

(** The [result] of [initialize]. *)
Definition initialize_result : value :=
  JObject [("capabilities", JObject [("tools", JObject [])]);
           ("protocolVersion", JString "2025-06-18");
           ("serverInfo", JObject [("name", JString "symeraseme"); ("version", JString "dev")])].

Definition initialize_response (id : GoId) : bytes :=
  encode_response (JObject [("jsonrpc", JString "2.0"); ("result", initialize_result)]) id.

Definition ping_response (id : GoId) : bytes :=
  lit "{" ++ field "jsonrpc" ++ [quote] ++ lit "2.0" ++ [quote] ++ lit ","
  ++ field "result" ++ lit "{}," ++ field "id" ++ append_id id ++ lit "}" ++ [x0a].

Definition is_other (params : ParamsState) : bool :=
  match params with Other => true | _ => false end.

(** A notification is never answered. *)
Definition unless_notification (notification : bool) (bytes : bytes) : Outcome :=
  if notification then Notification else Response bytes.

Context `{Lowercase} (catalogue : list value) {W : Type}.
Context (call_cancellable call : string → jmap → W → result ToolError value * W).

(** [initialize_cancellable] *)
Definition initialize (raw : bytes) (w : W) : Outcome * W :=
  match parse_request raw with
  | None => (ParseError, w)
  | Some value =>
      match rs_id value with
      | Invalid => (Response (error_response (-32600) "invalid request" GoNull), w)
      | Valid id =>
          if request_error value then
            (Response (error_response (-32600) "invalid request" GoNull), w)
          else if negb (valid_request value) then
            (Response (error_response (-32600) "invalid request" id), w)
          else
            let notification := negb (id_present value) in
            let method := default "" (rs_method value) in
            let params := rs_params value in
            if String.eqb method "ping" then
              (if notification then Notification
               else if is_other params then Response (error_response (-32602) "invalid params" id)
               else Response (ping_response id), w)
            else if negb (String.eqb method "initialize") then
              if String.eqb method "tools/list" || String.eqb method "list_tools" then
                (tools_list catalogue raw, w)
              else if String.eqb method "tools/call" then
                if notification then (Notification, w)
                else tools_call catalogue call_cancellable raw w
              else if String.eqb method "redact_file" then legacy_redact_file call raw w
              else
                (unless_notification notification
                   (error_response (-32601) "method not found" id), w)
            else if is_other params then
              (unless_notification notification (error_response (-32602) "invalid params" id), w)
            else (unless_notification notification (initialize_response id), w)
      end
  end.
End protocol.
