(* ===== verification/McpStream.v ===== *)
(** Framing of the MCP server's standard input: [cli/mcp/stream.rs].

    The loops are over any function that answers one value ([initialize] with its
    handler, see [McpProtocol]) on a world of its own.  Reading is a list of what
    the successive calls of [fill_buf] give; writing is an oracle that says of
    each write whether it fails. *)
From S2P Require Import Prelude.
From S2P Require Import Text.
From S2P Require Import Encryption.
From S2P Require Import JsonText.
From S2P Require Import ProfileJson.
From S2P Require Import McpScan.
From S2P Require Import McpScanFacts.
From S2P Require Import McpValueFacts.
From S2P Require Import McpTools.
From Stdlib Require Import Ascii Strings.Byte.

#[local] Notation length := List.length.

Inductive StreamError :=
| UnexpectedEof
| Syntax (message : string)
| UnparsableValue (position : nat)
| Io (message : string).

(** [impl Display for StreamError] *)
Definition StreamError_display (e : StreamError) : string :=
  match e with
  | UnexpectedEof => "unexpected EOF"
  | Syntax message => message
  | UnparsableValue position => "unparsable JSON value at byte " +:+ show (Z.of_nat position)
  | Io message => message
  end.

Section stream.
Context {W : Type} (initialize : bytes → W → Outcome * W).

(** The loop of [serve_stream]: [input] is what is left of an input of
    [total] bytes; the output is what was appended.  Every turn reads at least
    one byte. *)
Fixpoint stream_loop (fuel total : nat) (input output : bytes) (w : W) :
    result StreamError () * bytes * W :=
  match fuel with
  | O => (Ok (), output, w)
  | S fuel =>
      let input := skip_whitespace input in
      match input with
      | [] => (Ok (), output, w)
      | _ =>
          match scan_json_value input false with
          | Err error => (Err (Syntax error), output, w)
          | Ok None => (Err UnexpectedEof, output, w)
          | Ok (Some after) =>
              match initialize (take (length input - length after) input) w with
              | (Response bytes, w) => stream_loop fuel total after (output ++ bytes) w
              | (Notification, w) => stream_loop fuel total after output w
              | (ParseError, w) =>
                  (Err (UnparsableValue (total - length input)), output, w)
              end
          end
      end
  end.

Definition serve_stream (input : bytes) (w : W) : result StreamError () * bytes * W :=
  stream_loop (S (length input)) (length input) input [] w.

(** What one call of [fill_buf] gives; an empty buffer, or the end of the list,
    is the end of the input. *)
Notation fill := (result string bytes).

(** [write_all] and [flush] of one answer, the [n]-th: the error if it fails, and
    how many bytes have then arrived. *)
Context (write : nat → bytes → option (string * nat)).

(** The variables of [serve_stdio]: [skipped] is [position], the white space
    skipped at the head of the buffer. *)
Record StdioState := {
  buffer : bytes;
  skipped : nat;
  eof : bool;
  input : list fill;
  written : bytes;
  writes : nat;
  world : W;
}.

(** A turn goes on ([None]) or returns. *)
Notation turn := (StdioState * option (result StreamError ()))%type.

Definition with_buffer (s : StdioState) (buffer : bytes) (skipped : nat) : StdioState :=
  {| buffer := buffer; skipped := skipped; eof := eof s; input := input s;
     written := written s; writes := writes s; world := world s |}.

Definition with_world (s : StdioState) (w : W) : StdioState :=
  {| buffer := buffer s; skipped := skipped s; eof := eof s; input := input s;
     written := written s; writes := writes s; world := w |}.

Definition with_written (s : StdioState) (bytes : bytes) : StdioState :=
  {| buffer := buffer s; skipped := skipped s; eof := eof s; input := input s;
     written := written s ++ bytes; writes := S (writes s); world := world s |}.

Definition with_input (s : StdioState) (more : bytes) (at_eof : bool) (rest : list fill) : StdioState :=
  {| buffer := buffer s ++ more; skipped := skipped s; eof := at_eof; input := rest;
     written := written s; writes := writes s; world := world s |}.

(** One value is answered and taken out of the buffer. *)
Definition answer (s : StdioState) (value after : bytes) : turn :=
  let '(outcome, w) := initialize value (world s) in
  let s := with_world s w in
  match outcome with
  | Response bytes =>
      match write (writes s) bytes with
      | Some (error, n) => (with_written s (take n bytes), Some (Err (Io error)))
      | None => (with_buffer (with_written s bytes) after 0, None)
      end
  | Notification => (with_buffer s after 0, None)
  | ParseError => (s, Some (Err (UnparsableValue (skipped s))))
  end.

Definition read_more (s : StdioState) : turn :=
  match input s with
  | [] => (with_input s [] true [], None)
  | Err error :: _ => (s, Some (Err (Io error)))
  | Ok [] :: rest => (with_input s [] true rest, None)
  | Ok more :: rest => (with_input s more (eof s) rest, None)
  end.

(** An object or array is complete by itself; a scalar when a byte or the end of
    the input follows. *)
Definition complete (s : StdioState) (value after : bytes) : bool :=
  match after with [] => eof s || next_is "{"%byte value || next_is "["%byte value | _ => true end.

Definition stdio_turn (s : StdioState) : turn :=
  let raw := skip_whitespace (drop (skipped s) (buffer s)) in
  let s := with_buffer s (buffer s) (length (buffer s) - length raw) in
  let wait : turn :=
    if eof s then (s, Some (match raw with [] => Ok () | _ => Err UnexpectedEof end))
    else read_more s in
  match raw with
  | [] => wait
  | _ =>
      match scan_json_value raw false with
      | Err error => (s, Some (Err (Syntax error)))
      | Ok (Some after) =>
          if complete s raw after then answer s (take (length raw - length after) raw) after
          else wait
      | Ok None => wait
      end
  end.

Fixpoint stdio_loop (fuel : nat) (s : StdioState) : option (StdioState * result StreamError ()) :=
  match fuel with
  | O => None
  | S fuel =>
      match stdio_turn s with
      | (s, Some verdict) => Some (s, verdict)
      | (s, None) => stdio_loop fuel s
      end
  end.

(** The bytes of what was read. *)
Definition fill_bytes (f : fill) : bytes := match f with Ok more => more | Err _ => [] end.
Definition all_bytes (fills : list fill) : bytes := flat_map fill_bytes fills.

Definition stdio_start (fills : list fill) (w : W) : StdioState :=
  {| buffer := []; skipped := 0; eof := false; input := fills;
     written := []; writes := 0; world := w |}.

(** Every turn takes a byte out, reads, meets the end or returns. *)
Definition serve_stdio (fills : list fill) (w : W) : option (StdioState * result StreamError ()) :=
  stdio_loop (length (all_bytes fills) + length fills + 3) (stdio_start fills w).
End stream.

(* ------------------------------------------------------------------ *)
(** ** The two framings of the MCP server agree: however the input is cut into
    reads, [serve_stdio] answers what [serve_stream] answers for the whole. *)


(* ------------------------------------------------------------------ *)
(** ** What the scanner leaves *)

Lemma scan_shorter u fin k : scan_json_value u fin = done k → (length k < length u)%nat.
Proof.
  intros (t & w & v & -> & _ & Hv & _)%scan_json_value_iff.
  destruct (value_head_mcp _ _ _ Hv) as (b & v' & -> & _). rewrite !length_app. simpl. lia.
Qed.

Lemma scan_split u fin k : scan_json_value u fin = done k → ∃ v, u = v ++ k.
Proof.
  intros (t & w & v & -> & _)%scan_json_value_iff. exists (w ++ v). by rewrite app_assoc.
Qed.

(** An object or an array is complete whatever follows. *)
Lemma scan_container_app u k v fin :
  next_is "{"%byte u || next_is "["%byte u = true →
  scan_json_value u fin = done k → scan_json_value (u ++ v) fin = done (k ++ v).
Proof.
  intros Hu (t & w & x & -> & Hw & Hx & Ht & Hk)%scan_json_value_iff.
  apply scan_json_value_iff. exists t, w, x. split_and!; [by rewrite <-!app_assoc|done..|].
  destruct t as [|s| | |]; simpl; try done. exfalso.
  assert (∃ b x', x = b :: x' ∧ is_ws b = false ∧ b ≠ "{"%byte ∧ b ≠ "["%byte) as (b & x' & -> & H1 & H2 & H3).
  { inversion Hx as [|n s0 Hs| | |]; subst.
    destruct (primitive_begins (TNumber x) x) as (b & x' & -> & H1 & H2 & H3 & _); [by constructor|].
    by exists b, x'. }
  destruct w as [|c w]; simpl in Hu.
  - by rewrite !bool_decide_eq_false_2 in Hu.
  - inversion Hw as [|? ? Hc]; subst.
    apply orb_true_iff in Hu as [E%bool_decide_eq_true|E%bool_decide_eq_true]; by subst.
Qed.

Lemma taken_app (u k v : bytes) : (length k ≤ length u)%nat →
  take (length (u ++ v) - length (k ++ v)) (u ++ v) = take (length u - length k) u.
Proof.
  intros Hk. rewrite !length_app, take_app_le by lia. f_equal. lia.
Qed.

Section stream.
Context {W : Type} (initialize : bytes → W → Outcome * W).
Notation stream_loop := (stream_loop initialize).

(** More fuel than bytes is not used. *)
Lemma stream_loop_fuel fuel fuel' total u out w :
  (length u < fuel)%nat → (length u < fuel')%nat →
  stream_loop fuel total u out w = stream_loop fuel' total u out w.
Proof.
  revert fuel' u out w. induction fuel as [|fuel IH]; intros [|fuel'] u out w H1 H2; try lia.
  simpl. destruct (skip_whitespace_split u) as (ws & _ & E & _).
  destruct (skip_whitespace u) as [|b v] eqn:Es; [done|].
  assert (length (b :: v) ≤ length u)%nat by (rewrite E, length_app; lia).
  destruct (scan_json_value (b :: v) false) as [[k|]|e] eqn:Ek; [|done..].
  pose proof (scan_shorter _ _ _ Ek).
  destruct (initialize _ w) as [[bytes| |] w']; [apply IH; lia..|done].
Qed.

(** The verdicts agree but for the position of a value that was not parsed,
    which the live transport counts from the last answer. *)
Definition same_verdict (v v' : result StreamError ()) : Prop :=
  v = v' ∨ ∃ p p', v = Err (UnparsableValue p) ∧ v' = Err (UnparsableValue p').

(** What is left to read, up to the end of the input. *)
Fixpoint delivered (fills : list (result string bytes)) : bytes :=
  match fills with
  | Ok [] :: _ => []
  | Ok more :: rest => more ++ delivered rest
  | _ => []
  end.

Definition remaining (s : StdioState (W := W)) : bytes :=
  drop (skipped s) (buffer s) ++ if eof s then [] else delivered (input s).

(** The turns left, at most. *)
Definition turns (s : StdioState (W := W)) : nat :=
  (length (buffer s) + length (all_bytes (input s)) + length (input s) + if eof s then 0 else 1)%nat.

Context (write : nat → bytes → option (string * nat)).
Notation stdio_turn := (stdio_turn initialize write).
Notation stdio_loop := (stdio_loop initialize write).
Notation serve_stdio := (serve_stdio initialize write).

Lemma read_more_turns (s : StdioState (W := W)) s' :
  eof s = false → read_more s = (s', None) → (turns s' < turns s)%nat.
Proof.
  unfold read_more, turns. intros He. destruct (input s) as [|[[|b more]|e] rest] eqn:Ei;
    intros [= <-]; simpl; rewrite ?app_nil_r, ?length_app, He; simpl;
    unfold all_bytes; simpl; rewrite ?length_app; simpl; lia.
Qed.

Lemma answer_turns (s : StdioState (W := W)) value after s' :
  answer initialize write s value after = (s', None) →
  buffer s' = after ∧ input s' = input s ∧ eof s' = eof s.
Proof.
  unfold answer. destruct (initialize value (world s)) as [[bytes| |] w]; simpl.
  - destruct (write (writes s) bytes) as [[e n]|]; [done|]. by intros [= <-].
  - by intros [= <-].
  - done.
Qed.

Lemma stdio_turn_turns s s' : stdio_turn s = (s', None) → (turns s' < turns s)%nat.
Proof.
  unfold stdio_turn. set (raw := skip_whitespace (drop (skipped s) (buffer s))).
  assert (length raw ≤ length (buffer s))%nat as Hraw.
  { destruct (skip_whitespace_split (drop (skipped s) (buffer s))) as (w & _ & E & _). fold raw in E.
    apply (f_equal length) in E. rewrite length_app, length_drop in E. lia. }
  set (s1 := with_buffer s (buffer s) _).
  assert (turns s1 = turns s) as E1 by done.
  assert (∀ x, (if eof s1 then (s1, Some x) else read_more s1) = (s', None) →
    (turns s' < turns s)%nat) as Hwait.
  { intros x. destruct (eof s1) eqn:He; [done|]. intros Hr. rewrite <-E1.
    by apply read_more_turns. }
  destruct raw as [|b raw'] eqn:Er; [apply Hwait|].
  destruct (scan_json_value (b :: raw') false) as [[k|]|e] eqn:Ek; [|apply Hwait|done].
  destruct (complete s1 (b :: raw') k); [|apply Hwait].
  intros (Hb & Hi & He)%answer_turns. unfold turns. rewrite Hb, Hi, He. simpl.
  pose proof (scan_shorter _ _ _ Ek). simpl in *. lia.
Qed.

Lemma stdio_loop_total fuel s : (turns s < fuel)%nat → is_Some (stdio_loop fuel s).
Proof.
  revert s. induction fuel as [|fuel IH]; intros s Hs; [lia|]. simpl.
  destruct (stdio_turn s) as [s' [v|]] eqn:Et; [done|]. apply IH.
  apply stdio_turn_turns in Et. lia.
Qed.

(** Serving a finite input ends, whatever the reads, the writes and the answers are. *)
Lemma serve_stdio_total fills w : ∃ s v, serve_stdio fills w = Some (s, v).
Proof.
  destruct (stdio_loop_total (length (all_bytes fills) + length fills + 3) (stdio_start fills w))
    as [[s v] E]; [unfold turns; simpl; lia|]. by exists s, v.
Qed.


(* ------------------------------------------------------------------ *)
(** ** Both serve the same values *)

Definition stream (total : nat) (u out : bytes) (w : W) : result StreamError () * bytes * W :=
  stream_loop (S (length u)) total u out w.

Lemma stream_unfold total u out w :
  stream total u out w =
  match skip_whitespace u with
  | [] => (Ok (), out, w)
  | v =>
      match scan_json_value v false with
      | Err error => (Err (Syntax error), out, w)
      | Ok None => (Err UnexpectedEof, out, w)
      | Ok (Some after) =>
          match initialize (take (length v - length after) v) w with
          | (Response bytes, w) => stream total after (out ++ bytes) w
          | (Notification, w) => stream total after out w
          | (ParseError, w) => (Err (UnparsableValue (total - length v)), out, w)
          end
      end
  end.
Proof.
  unfold stream at 1. simpl. destruct (skip_whitespace_split u) as (ws & _ & E & _).
  destruct (skip_whitespace u) as [|b v] eqn:Es; [done|].
  assert (length (b :: v) ≤ length u)%nat by (rewrite E, length_app; lia).
  destruct (scan_json_value (b :: v) false) as [[k|]|e] eqn:Ek; [|done..].
  pose proof (scan_shorter _ _ _ Ek).
  destruct (initialize _ w) as [[bytes| |] w']; [apply stream_loop_fuel; lia..|done].
Qed.

Lemma stream_ws total v u out w : ws v → stream total (v ++ u) out w = stream total u out w.
Proof. intros Hv. by rewrite !stream_unfold, skip_whitespace_ws. Qed.

Definition reads_ok (fills : list (result string bytes)) : Prop := Forall (λ f, is_ok f = true) fills.

Context (Hwrite : ∀ n bytes, write n bytes = None).

(** The text left after the white space at its head. *)
Definition left_raw (s : StdioState (W := W)) : bytes := skip_whitespace (drop (skipped s) (buffer s)).
Definition left_rest (s : StdioState (W := W)) : bytes := if eof s then [] else delivered (input s).

Lemma stream_remaining total s out w :
  stream total (remaining s) out w = stream total (left_raw s ++ left_rest s) out w.
Proof.
  unfold remaining, left_raw, left_rest.
  destruct (skip_whitespace_split (drop (skipped s) (buffer s))) as (v & Hv & E & _).
  rewrite E at 1. by rewrite <-app_assoc, stream_ws.
Qed.

Lemma drop_to_raw s more :
  drop (length (buffer s) - length (left_raw s)) (buffer s ++ more) = left_raw s ++ more.
Proof.
  unfold left_raw. destruct (skip_whitespace_split (drop (skipped s) (buffer s))) as (v & _ & E & _).
  set (raw := skip_whitespace _) in *. clearbody raw.
  assert (buffer s = (take (skipped s) (buffer s) ++ v) ++ raw) as Eb
    by (by rewrite <-app_assoc, <-E, take_drop).
  set (front := take (skipped s) (buffer s) ++ v) in *. clearbody front. rewrite Eb.
  rewrite <-app_assoc, length_app.
  replace (length front + length raw - length raw)%nat with (length front) by lia.
  by rewrite drop_app_length.
Qed.

(** Whether a turn goes on or returns, it agrees with the buffered stream. *)
Definition turn_agrees (total : nat) (s : StdioState (W := W)) 
    (t : StdioState (W := W) * option (result StreamError ())) : Prop :=
  match t with
  | (s', None) =>
      reads_ok (input s') ∧
      stream total (remaining s) (written s) (world s) =
      stream total (remaining s') (written s') (world s')
  | (s', Some v) =>
      ∃ v', stream total (remaining s) (written s) (world s) = (v', written s', world s') ∧
        same_verdict v v'
  end.

Lemma read_agrees total s :
  reads_ok (input s) → eof s = false →
  turn_agrees total s
    (read_more (with_buffer s (buffer s) (length (buffer s) - length (left_raw s)))).
Proof.
  intros Hr He. unfold turn_agrees, read_more. simpl.
  assert (∀ more (at_eof : bool) rest, left_raw s ++ left_rest s =
    left_raw s ++ more ++ (if at_eof then [] else delivered rest) →
    stream total (remaining s) (written s) (world s) =
    stream total (drop (length (buffer s) - length (left_raw s)) (buffer s ++ more) ++
      (if at_eof then [] else delivered rest)) (written s) (world s)) as Hmore.
  { intros more at_eof rest E. rewrite drop_to_raw, stream_remaining, E. by rewrite <-app_assoc. }
  unfold left_rest in Hmore. rewrite He in Hmore.
  destruct (input s) as [|[[|b more]|e] rest] eqn:Ei.
  - split; [done|]. apply (Hmore [] true []). done.
  - inversion Hr; subst. split; [done|]. apply (Hmore [] true rest). done.
  - inversion Hr; subst. split; [done|]. rewrite He. apply (Hmore (b :: more) false rest). done.
  - inversion Hr as [|? ? Hf]; subst. done.
Qed.

Lemma answer_agrees total s raw after :
  reads_ok (input s) → left_raw s = raw → raw ≠ [] →
  scan_json_value (raw ++ left_rest s) false = done (after ++ left_rest s) →
  (length after ≤ length raw)%nat → until is_ws raw →
  turn_agrees total s
    (answer initialize write (with_buffer s (buffer s) (length (buffer s) - length raw))
       (take (length raw - length after) raw) after).
Proof.
  intros Hr Hraw Hne Hscan Hle Hu. unfold turn_agrees, answer. simpl.
  assert (skip_whitespace (raw ++ left_rest s) = raw ++ left_rest s) as Es
    by (apply skip_whitespace_until; by destruct raw).
  rewrite stream_remaining, Hraw, stream_unfold, Es.
  destruct (raw ++ left_rest s) as [|b v] eqn:E; [by destruct raw|]. cbv zeta.
  rewrite Hscan, <-E, taken_app by done.
  destruct (initialize (take (length raw - length after) raw) (world s)) as [[bytes| |] w]; simpl.
  - rewrite Hwrite. simpl. by split.
  - by split.
  - eexists. split; [done|]. right. eauto.
Qed.

Lemma turn_agrees_all total s : reads_ok (input s) → turn_agrees total s (stdio_turn s).
Proof.
  intros Hr. unfold stdio_turn. change (skip_whitespace (drop (skipped s) (buffer s))) with (left_raw s).
  destruct (skip_whitespace_split (drop (skipped s) (buffer s))) as (v & _ & _ & Hu).
  change (skip_whitespace _) with (left_raw s) in Hu.
  pose proof (read_agrees total s Hr) as Hread.
  pose proof (stream_remaining total s (written s) (world s)) as Hrem.
  set (raw := left_raw s) in *. assert (raw = left_raw s) as Eraw by done. clearbody raw.
  set (s1 := with_buffer s (buffer s) (length (buffer s) - length raw)) in *.
  assert (scan_json_value raw false = Ok None ∨ (∃ k, scan_json_value raw false = done k) ∧ eof s = false
    ∨ raw = [] →
    turn_agrees total s (if eof s1 then (s1, Some (match raw with [] => Ok () | _ => Err UnexpectedEof end))
                         else read_more s1)) as Hwait.
  { intros Hs. change (eof s1) with (eof s). destruct (eof s) eqn:He; [|by apply Hread].
    unfold turn_agrees. rewrite Hrem, stream_unfold. unfold left_rest. rewrite He, app_nil_r.
    rewrite skip_whitespace_until by done. destruct raw as [|b raw']; simpl.
    - eexists. split; [done|by left].
    - destruct Hs as [Hs|[[_ ?]|?]]; [|done..]. cbv zeta. rewrite Hs. eexists. split; [done|by left]. }
  destruct raw as [|b raw']; [apply Hwait; auto|].
  destruct (scan_json_value (b :: raw') false) as [[k|]|e] eqn:Ek; [|apply Hwait; auto|].
  - destruct (complete s1 (b :: raw') k) eqn:Ec.
    + apply answer_agrees; [done..| | |done].
      * unfold complete in Ec. destruct k as [|c k]; [|by apply scan_json_value_app].
        apply orb_true_iff in Ec as [Ec|Ec]; [apply orb_true_iff in Ec as [Ec|Ec]|].
        -- unfold left_rest. change (eof s1) with (eof s) in Ec. rewrite Ec. by rewrite !app_nil_r.
        -- apply scan_container_app; [by rewrite Ec|done].
        -- apply scan_container_app; [by rewrite Ec, orb_true_r|done].
      * apply Nat.lt_le_incl. by eapply scan_shorter.
    + apply Hwait. right. left. split; [eauto|]. unfold complete in Ec.
      destruct k; [|done]. change (eof s1) with (eof s) in Ec. by destruct (eof s).
  - unfold turn_agrees. rewrite Hrem, stream_unfold.
    rewrite skip_whitespace_until by done.
    pose proof (scan_json_value_err_app (b :: raw') (left_rest s) false e Ek) as E.
    cbn in E |- *. rewrite E. eexists. split; [done|by left].
Qed.

Lemma loop_agrees total fuel s s' v :
  reads_ok (input s) → stdio_loop fuel s = Some (s', v) →
  ∃ v', stream total (remaining s) (written s) (world s) = (v', written s', world s') ∧
    same_verdict v v'.
Proof.
  revert s. induction fuel as [|fuel IH]; intros s Hr; [done|]. simpl.
  pose proof (turn_agrees_all total s Hr) as Ht. destruct (stdio_turn s) as [s1 [v1|]].
  - intros [= <- <-]. done.
  - intros Hl. destruct Ht as [Hr' ->]. by apply IH.
Qed.
End stream.

(** C30: whatever the cuts between the reads, when reading and writing succeed
    [serve_stdio] ends, has written what [serve_stream] answers for the whole
    input, has left the handler's world as it does, and gives its verdict. *)
Theorem serve_stdio_serve_stream {W} (initialize : bytes → W → Outcome * W) write fills w :
  (∀ n bytes, write n bytes = None) → reads_ok fills →
  ∃ s v v', serve_stdio initialize write fills w = Some (s, v) ∧
    serve_stream initialize (delivered fills) w = (v', written s, world s) ∧ same_verdict v v'.
Proof.
  intros Hwrite Hr. destruct (serve_stdio_total initialize write fills w) as (s & v & E).
  exists s, v. pose proof E as El. unfold serve_stdio in El.
  apply (loop_agrees initialize write Hwrite (length (delivered fills))) in El as (v' & Ev & Hv); [|done].
  exists v'. by split_and!.
Qed.

(** A request that has arrived is answered before anything more is read: when
    the buffer holds a whole object or array after white space, the turn answers
    exactly it. *)
Theorem stdio_answers_promptly {W} (initialize : bytes → W → Outcome * W) write s t v k :
  skip_whitespace (drop (skipped s) (buffer s)) = v ++ k →
  mreads GO_MAX_JSON_NESTING_DEPTH t v →
  match t with TObject _ | TArray _ => True | _ => False end →
  stdio_turn initialize write s =
  answer initialize write (with_buffer s (buffer s) (length (buffer s) - length (v ++ k))) v k.
Proof.
  intros E Hv Ht. unfold stdio_turn. rewrite E.
  assert (scan_json_value (v ++ k) false = done k) as Hs.
  { apply scan_json_value_iff. exists t, [], v. split_and!; try done. by destruct t. }
  assert (∃ b v', v = b :: v' ∧ (b = "{"%byte ∨ b = "["%byte)) as (b & v' & -> & Hb)
    by (destruct Hv; try done; do 2 eexists; (split; [done|]); auto).
  simpl app in Hs |- *. cbv zeta. rewrite Hs.
  assert (∀ s' : StdioState (W := W), complete s' (b :: v' ++ k) k = true) as Hc.
  { intros s'. unfold complete. destruct k; [|done]. destruct Hb as [->| ->]; simpl;
      by rewrite ?orb_true_r. }
  rewrite Hc. f_equal. apply (token_taken (b :: v') k).
Qed.
