(* ===== verification/McpEscapeFacts.v ===== *)
(** The escaping of responses as Go's encoder does it: it keeps JSON texts JSON
    and what their strings decode to, and leaves no character that HTML or
    JavaScript treats specially. *)
From S2P Require Import Prelude.
From S2P Require Import Text.
From S2P Require Import Identity.
From S2P Require Import Encryption.
From S2P Require Import JsonText.
From S2P Require Import ProfileJson.
From S2P Require Import MailParse.
From S2P Require Import McpScan.
From S2P Require Import McpScanFacts.
From S2P Require Import McpValueFacts.
From S2P Require Import McpTools.
From S2P Require Import McpProtocol.
From Stdlib Require Import Ascii Strings.Byte.

#[local] Notation length := List.length.

(* ------------------------------------------------------------------ *)
(** ** Lossy UTF-8 of concatenations *)

Definition no_cont (r : string) : Prop :=
  match r with "" => True | String c _ => cont c = false end.

Lemma tail_cont c ps : utf8_tail c = Some ps → Forall (λ p, ∀ d, p d = true → cont d = true) ps.
Proof.
  assert (∀ lo hi d, (128 ≤ lo)%nat → (hi ≤ 191)%nat → Text.byte_in lo hi d = true → cont d = true) as H.
  { intros lo hi d Hlo Hhi. unfold cont, Text.byte_in. rewrite !andb_true_iff, !Nat.leb_le. lia. }
  unfold utf8_tail. repeat case_match; intros [= <-]; repeat constructor; try done;
    intros d; apply H; lia.
Qed.

Lemma match_tail_app n ps a r :
  Forall (λ p, ∀ d, p d = true → cont d = true) ps → no_cont r →
  match match_tail n ps a with
  | MailParse.Valid m => match_tail n ps (a +:+ r) = MailParse.Valid m
  | _ => ∀ m, match_tail n ps (a +:+ r) ≠ MailParse.Valid m
  end.
Proof.
  intros Hps Hr. revert n a. induction Hps as [|p ps Hp Hps IH]; intros n a; [done|].
  destruct a as [|c a]; cbn [match_tail].
  - change ("" +:+ r) with r. destruct r as [|d r]; [done|]. simpl. simpl in Hr.
    destruct (p d) eqn:Ed; [|done]. apply Hp in Ed. congruence.
  - change (String c a +:+ r) with (String c (a +:+ r)). cbn [match_tail].
    destruct (p c); [apply IH|done].
Qed.

Lemma utf8_step_app c a r :
  no_cont r →
  match utf8_step (String c a) with
  | MailParse.Valid m => utf8_step (String c (a +:+ r)) = MailParse.Valid m
  | _ => ∀ m, utf8_step (String c (a +:+ r)) ≠ MailParse.Valid m
  end.
Proof.
  intros Hr. unfold utf8_step. destruct (utf8_tail c) as [ps|] eqn:E; [|done].
  apply match_tail_app; [by eapply tail_cont|done].
Qed.

Lemma lossy_app a r :
  no_cont r →
  to_valid_utf8_lossy_per_byte (a +:+ r) =
  to_valid_utf8_lossy_per_byte a +:+ to_valid_utf8_lossy_per_byte r.
Proof.
  intros Hr. unfold to_valid_utf8_lossy_per_byte.
  induction a as [a IH] using (well_founded_induction (Wf_nat.well_founded_ltof _ String.length)).
  unfold Wf_nat.ltof in IH. destruct a as [|c a]; [done|].
  change (String c a +:+ r) with (String c (a +:+ r)). cbn [lossy_from].
  pose proof (utf8_step_app c a r Hr) as H.
  destruct (utf8_step (String c a)) as [m|k|] eqn:Es.
  - rewrite H. unfold utf8_step in Es. destruct (utf8_tail c) as [ps|] eqn:Et; [|done].
    apply match_tail_valid in Es as (t & rest & -> & -> & _).
    replace (1 + String.length t - 1)%nat with (String.length t) by lia.
    rewrite string_app_assoc, !lossy_copies. cbn. f_equal.
    rewrite string_app_assoc. f_equal. apply IH. cbn. rewrite string_length_app. lia.
  - assert (lossy_from 0 (a +:+ r) = lossy_from 0 a +:+ lossy_from 0 r) as E by (apply IH; cbn; lia).
    destruct (utf8_step (String c (a +:+ r))) as [m| |]; [by destruct (H m)|..];
      rewrite E; by rewrite string_app_assoc.
  - assert (lossy_from 0 (a +:+ r) = lossy_from 0 a +:+ lossy_from 0 r) as E by (apply IH; cbn; lia).
    destruct (utf8_step (String c (a +:+ r))) as [m| |]; [by destruct (H m)|..];
      rewrite E; by rewrite string_app_assoc.
Qed.

(* ------------------------------------------------------------------ *)
(** ** The loop inside a string *)

(** The special character a text begins with: its escape, its scalar value, its
    bytes and what follows. *)
Definition special (u : bytes) : option (bytes * Z * bytes * bytes) :=
  match u with
  | xe2 :: x80 :: xa8 :: r => Some (lit "\u2028", 8232, [xe2; x80; xa8], r)
  | xe2 :: x80 :: xa9 :: r => Some (lit "\u2029", 8233, [xe2; x80; xa9], r)
  | byte :: r =>
      match html_escape byte with
      | Some text => Some (text, bval byte, [byte], r)
      | None => None
      end
  | [] => None
  end.

(** What escaping must not leave. *)
Fixpoint clean (u : bytes) : Prop :=
  match u with
  | [] => True
  | _ :: u' => special u = None ∧ clean u'
  end.

Notation escape_in := (escape_loop true false).
Notation escape_out := (escape_loop false false).

Lemma escape_in_quote u : escape_in (quote :: u) = quote :: escape_out u.
Proof. done. Qed.

Lemma escape_in_backslash c u : escape_in (backslash :: c :: u) = backslash :: c :: escape_in u.
Proof. done. Qed.

Lemma special_cases u t z c r :
  special u = Some (t, z, c, r) →
  u = c ++ r ∧ (1 ≤ length c)%nat ∧
  (t, z, c) ∈ [(lit "\u003c", 60, ["<"%byte]); (lit "\u003e", 62, [">"%byte]);
               (lit "\u0026", 38, ["&"%byte]);
               (lit "\u2028", 8232, [xe2; x80; xa8]); (lit "\u2029", 8233, [xe2; x80; xa9])].
Proof.
  unfold special, html_escape. intros H. repeat case_match; simplify_eq;
    repeat match goal with H : bool_decide _ = true |- _ => apply bool_decide_eq_true in H; subst end;
    (split; [done|]; split; [simpl; lia|]); set_solver.
Qed.

Lemma special_other b u :
  b ≠ xe2 → special (b :: u) = (λ t, (t, bval b, [b], u)) <$> html_escape b.
Proof. intros Hb. by destruct b. Qed.

Lemma escape_in_other b u :
  b ≠ xe2 → b ≠ quote → b ≠ backslash →
  escape_in (b :: u) = default [b] (html_escape b) ++ escape_in u.
Proof. intros H1 H2 H3. by destruct b. Qed.

Lemma special_e2 u :
  (∃ v, u = x80 :: xa8 :: v) ∨ (∃ v, u = x80 :: xa9 :: v) ∨
  special (xe2 :: u) = None ∧ escape_in (xe2 :: u) = xe2 :: escape_in u.
Proof.
  destruct u as [|c u]; [by right; right|]. destruct (decide (c = x80)) as [->|Hc].
  - destruct u as [|d u]; [by right; right|].
    destruct (decide (d = xa8)) as [->|H8]; [left; by exists u|].
    destruct (decide (d = xa9)) as [->|H9]; [right; left; by exists u|].
    right; right. by destruct d.
  - right; right. by destruct c.
Qed.

Lemma escape_in_special u t z c r :
  special u = Some (t, z, c, r) → escape_in u = t ++ escape_in r.
Proof.
  destruct u as [|b u]; [done|]. destruct (decide (b = xe2)) as [->|Hb].
  - destruct (special_e2 u) as [(v & ->)|[(v & ->)|[-> _]]]; [| |done]; by intros [= <- <- <- <-].
  - rewrite special_other by done. destruct (html_escape b) as [text|] eqn:E; [|done].
    intros [= <- <- <- <-]. rewrite escape_in_other, E; [done..| |]; by intros ->.
Qed.

Lemma escape_in_plain b u :
  b ≠ quote → b ≠ backslash → special (b :: u) = None → escape_in (b :: u) = b :: escape_in u.
Proof.
  intros H1 H2 Hs. destruct (decide (b = xe2)) as [->|Hb].
  - destruct (special_e2 u) as [(v & ->)|[(v & ->)|[_ ->]]]; done.
  - rewrite special_other in Hs by done. rewrite escape_in_other by done.
    by destruct (html_escape b).
Qed.

(* ------------------------------------------------------------------ *)
(** ** What is left is clean *)

(** Bytes that begin nothing special. *)
Definition safe (b : byte) : bool := bool_decide (html_escape b = None) && negb (bool_decide (b = xe2)).

Lemma special_safe b u : safe b = true → special (b :: u) = None.
Proof.
  unfold safe. rewrite andb_true_iff, negb_true_iff, bool_decide_eq_true, bool_decide_eq_false.
  intros [H1 H2]. by rewrite special_other, H1.
Qed.

Lemma clean_safe l u : Forall (λ b, safe b = true) l → clean u → clean (l ++ u).
Proof.
  induction 1 as [|b l Hb Hl IH]; intros Hu; [done|]. simpl. split; [by apply special_safe|auto].
Qed.

Lemma special_escape u t z c r : special u = Some (t, z, c, r) → Forall (λ b, safe b = true) t.
Proof.
  intros (_ & _ & H)%special_cases. rewrite !elem_of_cons, elem_of_nil in H.
  destruct_or?; simplify_eq; vm_compute; by repeat constructor.
Qed.

(** The escaped text begins with a backslash or with the byte it began with. *)
Lemma escape_in_head b u :
  ∃ h tl, escape_in (b :: u) = h :: tl ∧ (h = backslash ∨ h = b ∧ special (b :: u) = None ∧
    (b ≠ quote → tl = escape_in u)).
Proof.
  destruct (decide (b = quote)) as [->|Hq]; 
    [exists quote, (escape_out u); split; [done|]; right; by split_and!|].
  destruct (decide (b = backslash)) as [->|Hb].
  { do 2 eexists. split; [done|]. by left. }
  destruct (special (b :: u)) as [[[[t z] c] r]|] eqn:Es.
  - rewrite (escape_in_special _ _ _ _ _ Es). apply special_cases in Es as (_ & _ & H).
    rewrite !elem_of_cons, elem_of_nil in H.
    destruct_or?; simplify_eq; do 2 eexists; (split; [reflexivity|left; reflexivity]).
  - rewrite escape_in_plain by done. do 2 eexists. split; [done|]. auto.
Qed.


(* ------------------------------------------------------------------ *)
(** ** Bodies of strings *)

Lemma mchars_cases s :
  mchars s →
  s = [quote] ∨
  (∃ c u, s = backslash :: c :: u ∧ is_escape c = true ∧ mchars u) ∨
  (∃ h u, s = backslash :: "u"%byte :: h ++ u ∧ hexes h ∧ length h = 4%nat ∧ mchars u) ∨
  (∃ c u, s = c :: u ∧ mcp_char [c] ∧ mchars u).
Proof.
  destruct 1 as [|c u Hc Hu|a b c d u Ha Hb Hc Hd Hu|p u (c & -> & Hc) Hu]; [by left|right..].
  - left. by exists c, u.
  - right; left. exists [a; b; c; d], u. split_and!; [done| |done..]. by repeat constructor.
  - right; right. exists c, u. split_and!; [done| |done]. by exists c.
Qed.

Lemma mchars_tail c u : c ≠ quote → c ≠ backslash → mchars (c :: u) → mchars u.
Proof.
  intros Hq Hb [E|[(? & ? & E & _)|[(? & ? & E & _)|(? & ? & E & _ & ?)]]]%mchars_cases; by simplify_eq.
Qed.

Lemma mchars_nil : ¬ mchars [].
Proof.
  by intros [E|[(? & ? & E & _)|[(? & ? & E & _)|(? & ? & E & _ & ?)]]]%mchars_cases.
Qed.

Lemma special_kept b u K :
  mchars u → special (b :: u) = None → special (b :: escape_in u ++ K) = None.
Proof.
  intros Hu Hs. destruct (decide (b = xe2)) as [->|Hb].
  2:{ rewrite special_other in Hs |- * by done. by destruct (html_escape b). }
  destruct u as [|x u]; [by destruct mchars_nil|].
  destruct (escape_in_head x u) as (h & tl & -> & [->|(-> & Hx & Htl)]); [done|].
  destruct (decide (x = x80)) as [->|Hx8]; [|by destruct x]. rewrite Htl by done. clear tl Htl.
  apply mchars_tail in Hu; [|done..]. destruct u as [|y u]; [by destruct mchars_nil|].
  destruct (escape_in_head y u) as (h & tl & -> & [->|(-> & Hy & Htl)]); [done|]. by destruct y.
Qed.

Lemma hex_safe b : is_hex b = true → safe b = true ∧ b ≠ quote ∧ b ≠ backslash.
Proof. by destruct b. Qed.

Lemma escape_safe b : is_escape b = true → safe b = true.
Proof. by destruct b. Qed.

Lemma escape_in_safe h u :
  Forall (λ b, safe b = true ∧ b ≠ quote ∧ b ≠ backslash) h → escape_in (h ++ u) = h ++ escape_in u.
Proof.
  induction 1 as [|b h (Hs & Hq & Hb) Hh IH]; [done|]. simpl app.
  rewrite escape_in_plain, IH; [done..|]. by apply special_safe.
Qed.

Lemma hexes_kept h : hexes h → Forall (λ b, safe b = true ∧ b ≠ quote ∧ b ≠ backslash) h.
Proof. intros H. eapply Forall_impl; [exact H|]. intros b. apply hex_safe. Qed.

(** An escape is read as the four digits it holds. *)
Lemma special_unicode u t z c r x :
  special u = Some (t, z, c, r) → mchars x → mchars (t ++ x).
Proof.
  intros (_ & _ & H)%special_cases Hx. rewrite !elem_of_cons, elem_of_nil in H.
  destruct_or?; simplify_eq; by apply chars_unicode.
Qed.

Lemma mchars_special u t z c r : special u = Some (t, z, c, r) → mchars u → mchars r.
Proof.
  intros (-> & _ & H)%special_cases Hu. rewrite !elem_of_cons, elem_of_nil in H.
  destruct_or?; simplify_eq; simpl in Hu; repeat (apply mchars_tail in Hu; [|done..]); done.
Qed.

Lemma body_escaped s :
  mchars s →
  (∀ k, escape_in (s ++ k) = escape_in s ++ escape_out k) ∧ mchars (escape_in s) ∧
  (∀ K, clean K → clean (escape_in s ++ K)).
Proof.
  induction s as [s IH] using (well_founded_induction (Wf_nat.well_founded_ltof _ length)).
  unfold Wf_nat.ltof in IH. intros Hs.
  destruct (special s) as [[[[t z] c] r]|] eqn:Esp.
  { pose proof (special_cases _ _ _ _ _ Esp) as (Es & Hlen & Hcase).
    assert (mchars r) as Hr by by eapply mchars_special.
    destruct (IH r) as (H1 & H2 & H3); [rewrite Es, length_app; lia|done|].
    assert (∀ k, special (s ++ k) = Some (t, z, c, r ++ k)) as Hk.
    { intros k. rewrite Es. rewrite !elem_of_cons, elem_of_nil in Hcase.
      destruct_or?; simplify_eq; done. }
    rewrite (escape_in_special _ _ _ _ _ Esp). split_and!.
    - intros k. by rewrite (escape_in_special _ _ _ _ _ (Hk k)), H1, app_assoc.
    - by eapply special_unicode.
    - intros K HK. rewrite <-app_assoc. apply clean_safe; [by eapply special_escape|auto]. }
  destruct (mchars_cases s Hs) as [->|[(c & u & -> & Hc & Hu)|[(h & u & -> & Hh & Hl & Hu)|(c & u & -> & Hc & Hu)]]].
  - split_and!; [done|constructor|]. intros K HK. by apply (clean_safe [quote]); [repeat constructor|].
  - destruct (IH u) as (H1 & H2 & H3); [simpl; lia|done|]. rewrite escape_in_backslash. split_and!.
    + intros k. simpl app. by rewrite escape_in_backslash, H1.
    + by constructor.
    + intros K HK. apply (clean_safe [backslash; c]); [|auto].
      repeat constructor. by apply escape_safe.
  - destruct (IH u) as (H1 & H2 & H3); [simpl; rewrite length_app; lia|done|].
    rewrite escape_in_backslash, escape_in_safe by by apply hexes_kept. split_and!.
    + intros k. simpl app. rewrite escape_in_backslash, <-app_assoc, escape_in_safe, H1
        by (by apply hexes_kept). by rewrite app_assoc.
    + destruct (four h Hl) as (a & b & c & d & ->). rewrite !Forall_cons in Hh.
      apply chars_unicode; by try apply Hh.
    + intros K HK. simpl app. rewrite <-app_assoc.
      apply (clean_safe [backslash; "u"%byte] (h ++ escape_in u ++ K)); [by repeat constructor|].
      apply clean_safe; [|auto].
      eapply Forall_impl; [exact Hh|]. intros b Hb. by apply hex_safe.
  - destruct (IH u) as (H1 & H2 & H3); [simpl; lia|done|].
    pose proof Hc as (c' & [= <-] & Hc1 & Hc2 & Hc3).
    rewrite escape_in_plain by done. split_and!.
    + intros k. simpl app. rewrite escape_in_plain, H1; [done..|].
      destruct (decide (c = xe2)) as [->|Hne].
      2:{ rewrite special_other in Esp |- * by done. by destruct (html_escape c). }
      destruct u as [|x u]; [by destruct mchars_nil|]. destruct (decide (x = x80)) as [->|Hx]; [|by destruct x].
      apply mchars_tail in Hu; [|done..]. destruct u as [|y u]; [by destruct mchars_nil|]. by destruct y.
    + by apply (chars_plain _ [c]).
    + intros K HK. simpl. split; [by apply special_kept|auto].
Qed.

(* ------------------------------------------------------------------ *)
(** ** Whole texts *)

(** Escaping the text goes on behind it as at a start, and it leaves it clean. *)
Definition closed (s : bytes) : Prop :=
  (∀ k, escape_out (s ++ k) = escape_out s ++ escape_out k) ∧
  (∀ K, clean K → clean (escape_out s ++ K)).

Lemma closed_app a b : closed a → closed b → closed (a ++ b).
Proof.
  intros [A1 A2] [B1 B2]. split.
  - intros k. by rewrite <-app_assoc, !A1, B1, app_assoc.
  - intros K HK. rewrite A1, <-app_assoc. auto.
Qed.

(** Text outside strings is copied. *)
Definition outside (b : byte) : Prop := safe b = true ∧ b ≠ quote.

Lemma outside_copied l k : Forall outside l → escape_out (l ++ k) = l ++ escape_out k.
Proof.
  induction 1 as [|b l [Hb Hq] Hl IH]; [done|]. simpl. by rewrite bool_decide_eq_false_2, IH.
Qed.

Lemma outside_id l : Forall outside l → escape_out l = l.
Proof. intros Hl. pose proof (outside_copied l [] Hl) as E. by rewrite !app_nil_r in E. Qed.

Lemma closed_outside l : Forall outside l → closed l.
Proof.
  intros Hl. split.
  - intros k. rewrite outside_copied, (outside_id l) by done. done.
  - intros K HK. rewrite outside_id by done. apply clean_safe; [|done].
    eapply Forall_impl; [done|]. by intros b [Hb _].
Qed.

Lemma mstring_escaped s : mstring s → closed s ∧ mstring (escape_out s).
Proof.
  intros [u Hu]. destruct (body_escaped u Hu) as (H1 & H2 & H3).
  assert (escape_out (quote :: u) = quote :: escape_in u) as E by done.
  split; [split|].
  - intros k. rewrite E. simpl app. change (escape_out (quote :: u ++ k)) with (quote :: escape_in (u ++ k)).
    by rewrite H1.
  - intros K HK. rewrite E. apply (clean_safe [quote] (escape_in u ++ K)); [by repeat constructor|auto].
  - rewrite E. by constructor.
Qed.

Lemma outside_ws w : ws w → Forall outside w.
Proof.
  intros H; eapply Forall_impl; [exact H|]. intros b Hb.
  destruct b; first [by vm_compute in Hb|by split].
Qed.

Lemma outside_digits ds : digits ds → Forall outside ds.
Proof.
  intros H; eapply Forall_impl; [exact H|]. intros b Hb.
  destruct b; first [by vm_compute in Hb|by split].
Qed.

Lemma outside_number s : json_number s → Forall outside s.
Proof.
  destruct 1 as [g i f x Hg Hi Hf Hx]. rewrite !Forall_app. split_and!.
  - destruct Hg as [->| ->]; by repeat constructor.
  - destruct Hi as [->|(d & ds & -> & Hd & _ & Hds)]; [by repeat constructor|].
    apply outside_digits. by constructor.
  - destruct Hf as [->|(ds & -> & Hds & _)]; [constructor|]. constructor; [done|]. by apply outside_digits.
  - destruct Hx as [->|(c & h & ds & -> & Hc & Hh & Hds & _)]; [constructor|].
    constructor; [rewrite !elem_of_cons, elem_of_nil in Hc; by destruct Hc as [->|[->|[]]]|].
    apply Forall_app. split; [|by apply outside_digits]. destruct Hh as [->|[->| ->]]; by repeat constructor.
Qed.

Lemma outside_literal s : s ∈ literals → Forall outside s.
Proof.
  unfold literals. rewrite !elem_of_cons, elem_of_nil. intros [->|[->|[->|[]]]]; by repeat constructor.
Qed.

(** The tree with another text for every string and key. *)
Fixpoint tree_map (f : bytes → bytes) (t : tree) : tree :=
  match t with
  | TString raw => TString (f raw)
  | TArray ts => TArray (List.map (tree_map f) ts)
  | TObject es => TObject (List.map (λ e, (f e.1, tree_map f e.2)) es)
  | _ => t
  end.

Notation escaped_tree := (tree_map go_escape_json_strings).

(** The text is closed and what it becomes satisfies [R]. *)
Definition kept (R : bytes → Prop) (s : bytes) : Prop := closed s ∧ R (escape_out s).

Definition seq (R S : bytes → Prop) (z : bytes) : Prop := ∃ x y, z = x ++ y ∧ R x ∧ S y.

Lemma kept_seq R S a b : kept R a → kept S b → kept (seq R S) (a ++ b).
Proof.
  intros [Ha HR] [Hb HS]. split; [by apply closed_app|].
  exists (escape_out a), (escape_out b). split; [apply Ha|done].
Qed.

Lemma kept_impl R T s : (∀ x, R x → T x) → kept R s → kept T s.
Proof. intros HRT [H1 H2]. split; auto. Qed.

Lemma kept_outside (R : bytes → Prop) s : Forall outside s → R s → kept R s.
Proof. intros Ho HR. split; [by apply closed_outside|]. by rewrite outside_id. Qed.

Lemma kept_ws w : ws w → kept ws w.
Proof. intros Hw. apply kept_outside; [by apply outside_ws|done]. Qed.

Lemma kept_byte b : outside b → kept (eq [b]) [b].
Proof. intros Hb. apply kept_outside; [by constructor|done]. Qed.

Lemma kept_string k : mstring k → kept (λ x, x = go_escape_json_strings k ∧ mstring x) k.
Proof. intros [H1 H2]%mstring_escaped. by split. Qed.

#[local] Hint Resolve kept_ws kept_string : kept.
#[local] Hint Extern 1 (kept _ [_]) => apply kept_byte; split; [reflexivity|discriminate] : kept.
#[local] Hint Extern 2 (kept _ (_ ++ _)) => apply kept_seq : kept.

Lemma grammar_escaped :
  (∀ n t s, mreads n t s → kept (mreads n (escaped_tree t)) s) ∧
  (∀ n ts s, elements mcp_char n ts s → kept (elements mcp_char n (List.map escaped_tree ts)) s) ∧
  (∀ n ts s, more_elements mcp_char n ts s → kept (more_elements mcp_char n (List.map escaped_tree ts)) s) ∧
  (∀ n es s, members mcp_char n es s →
     kept (members mcp_char n (List.map (λ e, (go_escape_json_strings e.1, escaped_tree e.2)) es)) s) ∧
  (∀ n es s, more_members mcp_char n es s →
     kept (more_members mcp_char n (List.map (λ e, (go_escape_json_strings e.1, escaped_tree e.2)) es)) s).
Proof.
  apply grammar_ind.
  - intros n s Hs. eapply kept_impl; [|by apply kept_string]. intros x [-> Hx]. by constructor.
  - intros n s Hs. apply kept_outside; [by apply outside_number|by constructor].
  - intros n s Hs. apply kept_outside; [by apply outside_literal|by constructor].
  - intros n ts s _ IH. change ("["%byte :: s) with (["["%byte] ++ s). eapply kept_impl; [|eauto with kept].
    intros x (a & b & -> & <- & Hb). by constructor.
  - intros n es s _ IH. change ("{"%byte :: s) with (["{"%byte] ++ s). eapply kept_impl; [|eauto with kept].
    intros x (a & b & -> & <- & Hb). by constructor.
  - intros n w Hw. eapply kept_impl; [|eauto with kept]. intros x (a & b & -> & Ha & <-). by constructor.
  - intros n w t s ts r Hw _ IH1 _ IH2. eapply kept_impl; [|eauto with kept].
    intros x (a & b & -> & Ha & c & d & -> & Hc & Hd). by constructor.
  - intros n w Hw. eapply kept_impl; [|eauto with kept]. intros x (a & b & -> & Ha & <-). by constructor.
  - intros n w w' t s ts r Hw Hw' _ IH1 _ IH2.
    change (w ++ ","%byte :: w' ++ s ++ r) with (w ++ [","%byte] ++ w' ++ s ++ r).
    eapply kept_impl; [|eauto 8 with kept].
    intros x (a & b & -> & Ha & c & d & -> & <- & c' & d' & -> & Hc & c2 & d2 & -> & H1 & H2).
    simpl app. by constructor.
  - intros n w Hw. eapply kept_impl; [|eauto with kept]. intros x (a & b & -> & Ha & <-). by constructor.
  - intros n w k w' w'' t s es r Hw Hk Hw' Hw'' _ IH1 _ IH2.
    change (w ++ k ++ w' ++ ":"%byte :: w'' ++ s ++ r) with (w ++ k ++ w' ++ [":"%byte] ++ w'' ++ s ++ r).
    eapply kept_impl; [|eauto 12 with kept].
    intros x (a & b & -> & Ha & k' & d & -> & [-> Hk'] & c1 & d1 & -> & Hc1 & c2 & d2 & -> & <- &
      c3 & d3 & -> & Hc3 & c4 & d4 & -> & H1 & H2). simpl app. by constructor.
  - intros n w Hw. eapply kept_impl; [|eauto with kept]. intros x (a & b & -> & Ha & <-). by constructor.
  - intros n w0 w k w' w'' t s es r Hw0 Hw Hk Hw' Hw'' _ IH1 _ IH2.
    change (w0 ++ ","%byte :: w ++ k ++ w' ++ ":"%byte :: w'' ++ s ++ r)
      with (w0 ++ [","%byte] ++ w ++ k ++ w' ++ [":"%byte] ++ w'' ++ s ++ r).
    eapply kept_impl; [|eauto 16 with kept].
    intros x (a0 & b0 & -> & Ha0 & e0 & f0 & -> & <- & a & b & -> & Ha & k' & d & -> & [-> Hk'] &
      c1 & d1 & -> & Hc1 & c2 & d2 & -> & <- & c3 & d3 & -> & Hc3 & c4 & d4 & -> & H1 & H2).
    simpl app. by constructor.
Qed.

(* ------------------------------------------------------------------ *)
(** ** What strings decode to *)

Definition decode (raw : bytes) (output : string) (pending : option Z) : option string :=
  decode_loop (S (length raw)) raw output pending.

Lemma plain_chunk_length raw : (length (plain_chunk raw) ≤ length raw)%nat.
Proof. induction raw as [|b raw IH]; simpl; [lia|]. case_bool_decide; simpl; lia. Qed.

Lemma decode_fuel fuel fuel' raw out p :
  (length raw < fuel)%nat → (length raw < fuel')%nat →
  decode_loop fuel raw out p = decode_loop fuel' raw out p.
Proof.
  revert fuel' raw out p. induction fuel as [|fuel IH]; intros [|fuel'] raw out p H1 H2; try lia.
  destruct raw as [|b [|e raw]]; [done..|]. cbn [decode_loop].
  case_bool_decide as Hb.
  - case_bool_decide.
    + destruct (parse_hex_code_unit raw) as [code|]; [|done]. cbn [mbind option_bind].
      assert (length (drop 4 raw) ≤ length raw)%nat by (rewrite length_drop; lia).
      simpl in H1, H2. repeat case_match; apply IH; simpl; lia.
    + destruct (unescape e); [|done]. cbn [mbind option_bind]. simpl in H1, H2. apply IH; lia.
  - apply IH; rewrite length_drop; simpl in *; rewrite bool_decide_eq_false_2 by done; simpl; lia.
Qed.

Lemma decode_loop_cons fuel byte escape raw output pending :
  decode_loop (S fuel) (byte :: escape :: raw) output pending =
  let flushed := output +:+ flush_pending_surrogate pending in
  if bool_decide (byte = backslash) then
    if bool_decide (escape = "u"%byte) then
      code ← parse_hex_code_unit raw;
      let after := drop 4 raw in
      if between 55296 56319 code then decode_loop fuel after flushed (Some code)
      else if between 56320 57343 code then
        match pending with
        | Some high =>
            decode_loop fuel after
              (output +:+ encode_utf8 (65536 + (high - 55296) * 1024 + (code - 56320))) None
        | None => decode_loop fuel after (output +:+ fffd) None
        end
      else decode_loop fuel after (flushed +:+ encode_utf8 code) None
    else
      c ← unescape escape;
      decode_loop fuel raw (flushed +:+ String c "") None
  else
    let chunk := plain_chunk (take (length (byte :: escape :: raw) - 1) (byte :: escape :: raw)) in
    decode_loop fuel (drop (length chunk) (byte :: escape :: raw))
      (flushed +:+ to_valid_utf8_lossy_per_byte (text_of chunk)) None.
Proof. done. Qed.

Definition flush (out : string) (p : option Z) : string := out +:+ flush_pending_surrogate p.

(** What a code unit appends, and the surrogate it leaves pending. *)
Definition unit_step (code : Z) (out : string) (p : option Z) : string * option Z :=
  if between 55296 56319 code then (flush out p, Some code)
  else if between 56320 57343 code then
    match p with
    | Some high => (out +:+ encode_utf8 (65536 + (high - 55296) * 1024 + (code - 56320)), None)
    | None => (out +:+ fffd, None)
    end
  else (flush out p +:+ encode_utf8 code, None).

Lemma decode_end c out p : decode [c] out p = Some (flush out p).
Proof. done. Qed.

Lemma parse_hex_app h k :
  length h = 4%nat → parse_hex_code_unit (h ++ k) = parse_hex_code_unit h.
Proof. intros Hl. by destruct (four h Hl) as (a & b & c & d & ->). Qed.

Lemma decode_unicode h k out p code :
  length h = 4%nat → parse_hex_code_unit h = Some code →
  decode (backslash :: "u"%byte :: h ++ k) out p =
  let '(out, p) := unit_step code out p in decode k out p.
Proof.
  intros Hl Hc. unfold decode at 1.
  rewrite decode_loop_cons, !bool_decide_eq_true_2, parse_hex_app, Hc by done.
  cbn [mbind option_bind]. rewrite drop_app_length' by done.
  assert (∀ out p, decode_loop (length (backslash :: "u"%byte :: h ++ k)) k out p = decode k out p) as E.
  { intros out' p'. apply decode_fuel; [simpl; rewrite length_app|]; lia. }
  unfold unit_step, flush. rewrite !E.
  by destruct (between 55296 56319 code), (between 56320 57343 code), p.
Qed.

Lemma decode_escape e c k out p :
  e ≠ "u"%byte → unescape e = Some c →
  decode (backslash :: e :: k) out p = decode k (flush out p +:+ String c "") None.
Proof.
  intros He Hc. unfold decode at 1. rewrite decode_loop_cons. cbv zeta.
  rewrite (bool_decide_eq_true_2 (backslash = backslash)) by done.
  rewrite (bool_decide_eq_false_2 (e = "u"%byte)), Hc by done. cbn [mbind option_bind].
  apply decode_fuel; simpl; lia.
Qed.

Definition plain (l : bytes) : Prop := Forall (λ b, b ≠ quote ∧ b ≠ backslash) l.

(** What may follow the plain bytes of a string. *)
Definition ends_chunk (k : bytes) : Prop := k = [quote] ∨ ∃ e k', k = backslash :: e :: k'.

Lemma plain_chunk_app l k : plain l → plain_chunk (l ++ backslash :: k) = l.
Proof.
  induction 1 as [|b l [_ Hb] Hl IH]; simpl; [done|].
  by rewrite bool_decide_eq_false_2, IH.
Qed.

Lemma plain_chunk_id l : plain l → plain_chunk l = l.
Proof. induction 1 as [|b l [_ Hb] Hl IH]; simpl; [done|]. by rewrite bool_decide_eq_false_2, IH. Qed.

Lemma decode_chunk l k out p :
  plain l → l ≠ [] → ends_chunk k →
  decode (l ++ k) out p = decode k (flush out p +:+ to_valid_utf8_lossy_per_byte (text_of l)) None.
Proof.
  intros Hl Hne Hk.
  assert (plain_chunk (take (length (l ++ k) - 1) (l ++ k)) = l) as Hc.
  { destruct Hk as [->|(e & k' & ->)].
    - rewrite length_app. replace (length l + length [quote] - 1)%nat with (length l) by (simpl; lia).
      rewrite take_app_length. by apply plain_chunk_id.
    - rewrite take_app_ge by (rewrite length_app; simpl; lia).
      replace (length (l ++ backslash :: e :: k') - 1 - length l)%nat with (S (length k'))
        by (rewrite length_app; simpl; lia).
      simpl take. by apply plain_chunk_app. }
  destruct l as [|b l]; [done|]. inversion Hl as [|? ? [_ Hb] Hl']; subst.
  destruct (l ++ k) as [|e r] eqn:E; [by destruct Hk as [->|(? & ? & ->)], l|].
  simpl app in Hc |- *. rewrite E in Hc |- *. unfold decode at 1. rewrite decode_loop_cons.
  rewrite bool_decide_eq_false_2 by done. cbv zeta. rewrite Hc.
  assert (drop (length (b :: l)) (b :: e :: r) = k) as -> by (rewrite <-E; apply drop_app_length).
  apply decode_fuel; [|lia].
  apply (f_equal length) in E. rewrite length_app in E. simpl in *. lia.
Qed.

Lemma text_app a b : text_of (a ++ b) = text_of a +:+ text_of b.
Proof.
  unfold text_of. induction a as [|x a IH]; [done|].
  change (String (ascii_of_byte x) (String.string_of_list_byte (a ++ b)) =
    String (ascii_of_byte x) (String.string_of_list_byte a +:+ String.string_of_list_byte b)).
  by rewrite IH.
Qed.

Lemma special_char u t z c r :
  special u = Some (t, z, c, r) →
  (∃ h, t = backslash :: "u"%byte :: h ∧ length h = 4%nat ∧ parse_hex_code_unit h = Some z) ∧
  (∀ out p, unit_step z out p = (flush out p +:+ text_of c, None)) ∧
  plain c ∧ no_cont (text_of c) ∧
  (∀ s, to_valid_utf8_lossy_per_byte (text_of c +:+ s) = text_of c +:+ to_valid_utf8_lossy_per_byte s).
Proof.
  intros (_ & _ & H)%special_cases. rewrite !elem_of_cons, elem_of_nil in H.
  assert (∀ l, forallb (λ b, negb (bool_decide (b = quote)) && negb (bool_decide (b = backslash))) l = true →
    plain l) as Hp.
  { intros l. rewrite forallb_forall. intros Hl. apply Forall_forall. intros b Hb.
    specialize (Hl b (proj1 (list_elem_of_In _ _) Hb)).
    by rewrite andb_true_iff, !negb_true_iff, !bool_decide_eq_false in Hl. }
  destruct_or?; simplify_eq; (split; [eexists; split_and!; [reflexivity|reflexivity|reflexivity]|]);
    (split; [done|]); (split; [by apply Hp|]); done.
Qed.

Definition lossy (l : bytes) : string := to_valid_utf8_lossy_per_byte (text_of l).

Lemma special_inside l k t z c r :
  ends_chunk k → special (l ++ k) = Some (t, z, c, r) → ∃ l', l = c ++ l' ∧ r = l' ++ k.
Proof.
  intros Hk Es. destruct (special_char _ _ _ _ _ Es) as (_ & _ & Hc & _).
  pose proof (special_cases _ _ _ _ _ Es) as (E & _). clear Es.
  apply app_eq_app in E as (m & [[-> ->]|[-> Ek]]); [by exists m|].
  destruct m as [|x m]; [exists []; by rewrite !app_nil_r|]. exfalso.
  apply Forall_app in Hc as [_ Hc]. inversion Hc as [|? ? [H1 H2]]; subst.
  destruct Hk as [E|(? & ? & E)]; injection E; congruence.
Qed.

(** The bytes of a chunk before its first special character. *)
Lemma escape_prefix l k :
  plain l → ends_chunk k → ∃ q l', l = q ++ l' ∧ plain q ∧
    escape_in (l ++ k) = q ++ escape_in (l' ++ k) ∧
    (l' = [] ∨ ∃ t z c l'', special (l' ++ k) = Some (t, z, c, l'' ++ k) ∧ l' = c ++ l'').
Proof.
  intros Hl Hk. induction Hl as [|b l [Hq Hb] Hl IH].
  { exists [], []. split_and!; [done|constructor|done|by left]. }
  destruct (special ((b :: l) ++ k)) as [[[[t z] c] r]|] eqn:Es.
  - exists [], (b :: l). split_and!; [done|constructor|done|]. right.
    pose proof Es as (l' & El & ->)%special_inside; [|done]. exists t, z, c, l'. by split.
  - destruct IH as (q & l' & -> & Hp & E & H). exists (b :: q), l'. split_and!; [done|by constructor| |done].
    simpl app in Es |- *. rewrite escape_in_plain, E; done.
Qed.

Lemma ends_chunk_escaped k : ends_chunk k → ends_chunk (escape_in k).
Proof. intros [->|(e & k' & ->)]; [by left|]. right. by exists e, (escape_in k'). Qed.

Lemma flush_none out : flush out None = out.
Proof. unfold flush. apply string_app_nil_r. Qed.

Lemma decode_escaped_chunk l k :
  plain l → ends_chunk k → l ≠ [] → ∀ out p,
  decode (escape_in (l ++ k)) out p = decode (escape_in k) (flush out p +:+ lossy l) None.
Proof.
  induction l as [l IH] using (well_founded_induction (Wf_nat.well_founded_ltof _ length)).
  unfold Wf_nat.ltof in IH. intros Hl Hk Hne out p.
  pose proof (ends_chunk_escaped k Hk) as Hk'.
  destruct (escape_prefix l k Hl Hk) as (q & l' & -> & Hq & -> & Hl').
  destruct Hl' as [->|(t & z & c & l'' & Es & ->)].
  { rewrite app_nil_r in *. simpl app. by apply decode_chunk. }
  rewrite (escape_in_special _ _ _ _ _ Es).
  pose proof (special_cases _ _ _ _ _ Es) as (_ & Hc1 & _).
  destruct (special_char _ _ _ _ _ Es) as ((h & -> & Hh & Hz) & Hu & Hc & Hcont & Hlossy).
  unfold plain in Hl. rewrite !Forall_app in Hl. destruct Hl as (_ & _ & Hl'').
  (* what is left, once the prefix and the escape are read *)
  assert (∀ out p, decode ((backslash :: "u"%byte :: h) ++ escape_in (l'' ++ k)) out p =
    decode (escape_in k) (flush out p +:+ text_of c +:+ lossy l'') None) as Htail.
  { intros o q'. simpl app. rewrite (decode_unicode h _ o q' z), Hu by done. cbv iota beta.
    destruct l'' as [|x l''].
    - simpl app. unfold lossy. simpl. by rewrite string_app_nil_r.
    - rewrite IH; [|rewrite !length_app; lia|done..].
      rewrite flush_none. by rewrite string_app_assoc. }
  assert (lossy (q ++ c ++ l'') = lossy q +:+ text_of c +:+ lossy l'') as ->.
  { unfold lossy. rewrite !text_app, lossy_app, Hlossy; [done|].
    destruct c as [|x c]; [simpl in Hc1; lia|]. exact Hcont. }
  destruct q as [|x q]; [by rewrite Htail|].
  rewrite decode_chunk; [|done..|right; by do 2 eexists].
  rewrite Htail, flush_none. by rewrite string_app_assoc.
Qed.

Lemma mchars_chunk s :
  mchars s → ∃ l k, s = l ++ k ∧ plain l ∧ ends_chunk k ∧ mchars k.
Proof.
  induction s as [|b s IH]; [by intros ?%mchars_nil|]. intros Hs.
  destruct (decide (b = quote)) as [->|Hq]; [|destruct (decide (b = backslash)) as [->|Hb]].
  - exists [], (quote :: s). split_and!; [done|constructor| |done]. left.
    by apply mchars_cases in Hs as [E|[(? & ? & E & _)|[(? & ? & E & _)|(? & ? & E & (? & [= <-] & _ & Hn & _) & _)]]];
      simplify_eq.
  - exists [], (backslash :: s). split_and!; [done|constructor| |done]. right.
    apply mchars_cases in Hs as [E|[(? & ? & E & _)|[(? & ? & E & _)|(? & ? & E & (? & [= <-] & _ & _ & Hn) & _)]]];
      simplify_eq; eauto.
  - destruct IH as (l & k & -> & Hl & Hk & Hm); [by eapply mchars_tail|].
    exists (b :: l), k. split_and!; [done|by constructor|done..].
Qed.

Lemma unescape_escape c : is_escape c = true → ∃ x, unescape c = Some x ∧ c ≠ "u"%byte.
Proof. intros H. destruct c; try discriminate H; by eexists. Qed.

Lemma hex_code h : hexes h → length h = 4%nat → ∃ code, parse_hex_code_unit h = Some code.
Proof.
  intros Hh Hl. destruct (four h Hl) as (a & b & c & d & ->). rewrite !Forall_cons in Hh.
  destruct Hh as (Ha & Hb & Hc & Hd & _).
  assert (∀ x, is_hex x = true → ∃ z, hex_value x = Some z) as Hv by (intros x Hx; destruct (hex_value x) as [z|] eqn:Ex; [by exists z|by destruct x]).
  destruct (Hv _ Ha) as (? & Ea), (Hv _ Hb) as (? & Eb), (Hv _ Hc) as (? & Ec), (Hv _ Hd) as (? & Ed).
  unfold parse_hex_code_unit, parse_hex_quad. simpl. rewrite Ea. simpl. rewrite Eb. simpl.
  rewrite Ec. simpl. rewrite Ed. by eexists.
Qed.

(** A string is never refused by the decoder, and decodes to the same text when
    it is escaped. *)
Lemma decode_escaped s :
  mchars s → ∀ out p, decode (escape_in s) out p = decode s out p ∧ is_Some (decode s out p).
Proof.
  induction s as [s IH] using (well_founded_induction (Wf_nat.well_founded_ltof _ length)).
  unfold Wf_nat.ltof in IH. intros Hs out p.
  destruct (mchars_chunk s Hs) as (l & k & -> & Hl & Hk & Hm).
  destruct l as [|b l].
  2:{ rewrite decode_escaped_chunk by done. rewrite (decode_chunk (b :: l) k) by done.
      apply IH; [rewrite length_app; simpl; lia|done]. }
  simpl app in *. destruct (mchars_cases k Hm)
    as [->|[(c & u & -> & Hc & Hu)|[(h & u & -> & Hh & Hlen & Hu)|(c & u & -> & (? & [= <-] & _ & ? & ?) & _)]]].
  - split; [done|]. by rewrite decode_end.
  - rewrite escape_in_backslash. destruct (unescape_escape c Hc) as (x & Hx & Hcu).
    rewrite !(decode_escape c x) by done. apply IH; [simpl; lia|done].
  - rewrite escape_in_backslash, escape_in_safe by by apply hexes_kept.
    destruct (hex_code h Hh Hlen) as (code & Hcode). rewrite !(decode_unicode h _ _ _ code) by done.
    destruct (unit_step code out p) as [o q]. apply IH; [simpl; rewrite length_app; lia|done].
  - by destruct Hk as [E|(? & ? & E)]; simplify_eq.
Qed.

Lemma last_body s : mchars s → last s = Some quote.
Proof.
  intros Hs. assert (s ≠ []) as Hne by (intros ->; by apply mchars_nil).
  induction Hs as [|c s Hc Hs IH|a b c d s Ha Hb Hc Hd Hs IH|q s (x & -> & _) Hs IH]; [done|..];
    assert (s ≠ []) as Hs' by (intros ->; by apply mchars_nil);
    destruct s as [|y s]; try done; by apply IH.
Qed.

Lemma decode_json_string_string s : mstring s → decode_json_string s = decode (tail s) "" None.
Proof.
  intros [u Hu]. unfold decode_json_string. pose proof (last_body u Hu) as E.
  assert (last (quote :: u) = Some quote) as -> by (by destruct u).
  rewrite !bool_decide_eq_true_2 by done. simpl andb. cbn [tail].
  apply decode_fuel; simpl; lia.
Qed.

Lemma decode_string_total s : mstring s → is_Some (decode_json_string s).
Proof.
  intros Hs. rewrite decode_json_string_string by done. destruct Hs as [u Hu]. by apply decode_escaped.
Qed.

(** C31: escaping a JSON text as Go does gives a JSON text of the same shape: every
    string and key is escaped and still decodes to the same text, everything else
    is as it was.  What results holds no [<], [>] or [&] and no line or
    paragraph separator. *)
Theorem go_escape_json_strings_spec n t s :
  mreads n t s →
  mreads n (escaped_tree t) (go_escape_json_strings s) ∧
  clean (go_escape_json_strings s) ∧
  ∀ raw, mstring raw →
    mstring (go_escape_json_strings raw) ∧
    decode_json_string (go_escape_json_strings raw) = decode_json_string raw.
Proof.
  intros Hs. destruct (proj1 grammar_escaped n t s Hs) as [[_ Hc] Hr].
  split; [exact Hr|]. split.
  - unfold go_escape_json_strings. specialize (Hc [] I). by rewrite app_nil_r in Hc.
  - intros raw Hraw. destruct (mstring_escaped raw Hraw) as [_ He]. split; [done|].
    unfold go_escape_json_strings. rewrite !decode_json_string_string by done.
    destruct Hraw as [u Hu]. exact (proj1 (decode_escaped u Hu "" None)).
Qed.
