(* ===== verification/McpProtocolFacts.v ===== *)
(** What the MCP server promises of a request: which requests reach the tool
    handler and with which arguments, what is answered to whom, and what an
    error shows. *)
From S2P Require Import Prelude.
From S2P Require Import Text.
From S2P Require Import Json.
From S2P Require Import Encryption.
From S2P Require Import JsonText.
From S2P Require Import ProfileJson.
From S2P Require Import McpScan.
From S2P Require Import McpScanFacts.
From S2P Require Import McpValueFacts.
From S2P Require Import McpTools.
From S2P Require Import McpProtocol.
From S2P Require Import McpEscapeFacts.
From Stdlib Require Import Ascii Strings.Byte.

#[local] Notation length := List.length.

(* ------------------------------------------------------------------ *)
(** ** Arguments *)

(** The required keys of a tool that are strings. *)
Definition required_keys (tool : value) : list string :=
  match (value_get "inputSchema" tool ≫= value_get "required") ≫= as_array with
  | Some required => omap as_str required
  | None => []
  end.

(** The declared type of an argument. *)
Definition declared_kind (tool : value) (key : string) : option string :=
  kind_of (value_get "inputSchema" tool ≫= value_get "properties") key.

(** Every required argument is given and every argument has its declared type. *)
Definition well_typed (tool : value) (arguments : jmap) : Prop :=
  (∀ key, key ∈ required_keys tool → map_has key arguments = true) ∧
  (∀ key v kind, (key, v) ∈ arguments → declared_kind tool key = Some kind →
     json_value_matches kind v = true).

Lemma check_required_spec required arguments :
  match check_required required arguments with
  | Ok _ => ∀ key, key ∈ omap as_str required → map_has key arguments = true
  | Err message => ∃ key, key ∈ omap as_str required ∧ map_has key arguments = false ∧
      message = "missing required argument: " +:+ key
  end.
Proof.
  induction required as [|v required IH]; [by intros ? ?%elem_of_nil|].
  destruct v as [| | |key| |]; simpl; try exact IH.
  destruct (map_has key arguments) eqn:E.
  - destruct (check_required required arguments).
    + intros k [->|Hk]%elem_of_cons; auto.
    + destruct IH as (k & Hk & ?). exists k. split; [by right|done].
  - exists key. split; [by left|done].
Qed.

Lemma check_types_spec properties arguments :
  match check_types properties arguments with
  | Ok _ => ∀ key v kind, (key, v) ∈ arguments → kind_of properties key = Some kind →
      json_value_matches kind v = true
  | Err message => ∃ key v kind, (key, v) ∈ arguments ∧ kind_of properties key = Some kind ∧
      json_value_matches kind v = false ∧ message = "invalid parameter type: " +:+ key
  end.
Proof.
  induction arguments as [|[key v] arguments IH]; [by intros ? ? ? ?%elem_of_nil|]. simpl.
  destruct (kind_of properties key) as [kind|] eqn:Ek.
  - destruct (json_value_matches kind v) eqn:Em.
    + destruct (check_types properties arguments).
      * intros k x d [[= -> ->]|Hx]%elem_of_cons Hd; [congruence|eauto].
      * destruct IH as (k & x & d & Hx & ?). exists k, x, d. split; [by right|done].
    + exists key, v, kind. split; [by left|done].
  - destruct (check_types properties arguments).
    + intros k x d [[= -> ->]|Hx]%elem_of_cons Hd; [congruence|eauto].
    + destruct IH as (k & x & d & Hx & ?). exists k, x, d. split; [by right|done].
Qed.

(** A complaint about the arguments names one that is missing or of another type. *)
Definition complaint (tool : value) (arguments : jmap) (message : string) : Prop :=
  (∃ key, key ∈ required_keys tool ∧ map_has key arguments = false ∧
     message = "missing required argument: " +:+ key) ∨
  (∃ key v kind, (key, v) ∈ arguments ∧ declared_kind tool key = Some kind ∧
     json_value_matches kind v = false ∧ message = "invalid parameter type: " +:+ key).

Lemma validate_arguments_spec tool arguments :
  match validate_arguments tool arguments with
  | Ok _ => well_typed tool arguments
  | Err message => ¬ well_typed tool arguments ∧ complaint tool arguments message
  end.
Proof.
  unfold validate_arguments, well_typed, complaint, required_keys, declared_kind.
  pose proof (check_types_spec (value_get "inputSchema" tool ≫= value_get "properties") arguments) as Ht.
  destruct ((value_get "inputSchema" tool ≫= value_get "required") ≫= as_array) as [required|].
  - pose proof (check_required_spec required arguments) as Hr.
    destruct (check_required required arguments); simpl.
    + destruct (check_types _ arguments); [done|].
      destruct Ht as (k & v & d & Hk & Hd & Hm & ->). split; [|right; eauto 8].
      intros [_ H]. specialize (H k v d Hk Hd). congruence.
    + destruct Hr as (k & Hk & Hm & ->). split; [|left; eauto].
      intros [H _]. specialize (H k Hk). congruence.
  - simpl. destruct (check_types _ arguments).
    + split; [|done]. by intros ? ?%elem_of_nil.
    + destruct Ht as (k & v & d & Hk & Hd & Hm & ->). split; [|right; eauto 8].
      intros [_ H]. specialize (H k v d Hk Hd). congruence.
Qed.

(* ------------------------------------------------------------------ *)
(** ** Errors *)

Section protocol.
Context `{SerdeJson} `{Lowercase}.

(** An error shows its message only when it says nothing of the storage and of no
    panic. *)
Definition discreet (message : string) : Prop :=
  (∀ marker, marker ∈ STORAGE_MARKERS → contains marker (to_lowercase message) = false) ∧
  contains "panic" (to_lowercase message) = false.

Lemma sanitize_error_spec message :
  sanitize_error message = STORAGE_MESSAGE ∨ sanitize_error message = PANIC_MESSAGE ∨
  sanitize_error message = message ∧ discreet message.
Proof.
  unfold sanitize_error, discreet. destruct (existsb _ STORAGE_MARKERS) eqn:Em; [by left|].
  destruct (contains "panic" (to_lowercase message)) eqn:Ep; [by right; left|].
  right; right. split; [done|]. split; [|done]. intros marker Hm.
  apply not_true_iff_false. intros Hc. apply not_true_iff_false in Em. apply Em.
  apply existsb_exists. exists marker. split; [by apply list_elem_of_In|done].
Qed.

(* ------------------------------------------------------------------ *)
(** ** Calls *)

Context (catalogue : list value) {W : Type}.
Context (call_cancellable call : string → jmap → W → result ToolError value * W).

(** The tool with this name: the first of the catalogue. *)
Definition tool_of (name : string) : option value := find (tool_named name) catalogue.

(** What the server lets the handler be called with. *)
Definition permitted (name : string) (arguments : jmap) : Prop :=
  match tool_of name with
  | Some tool => tool ∈ catalogue ∧ well_typed tool arguments
  | None => name = LEGACY_STATUS_ALIAS
  end.

(** The answer to a call's result. *)
Definition answers_result (id : value) (res : result ToolError value) (o : Outcome) : Prop :=
  match res with
  | Ok v => o = Response (result_response id (Some v))
  | Err error =>
      (∃ message, o = response_error id (-32603) message ∧
         (message = STORAGE_MESSAGE ∨ message = PANIC_MESSAGE ∨
          message = te_message error ∧ discreet message)) ∨
      (∃ raw, te_raw_message error = Some raw ∧ o = Response (raw_error_response id (-32603) raw) ∧
         (discreet (te_message error) ∨ te_message error = STORAGE_MESSAGE ∨
          te_message error = PANIC_MESSAGE))
  end.

Lemma dispatch_spec id name arguments w :
  let '(o, w') := dispatch call_cancellable id name arguments w in
  ∃ res, call_cancellable name arguments w = (res, w') ∧ answers_result id res o.
Proof.
  unfold dispatch. destruct (call_cancellable name arguments w) as [[v|error] w'] eqn:E.
  - by exists (Ok v).
  - exists (Err error). split; [done|]. simpl.
    pose proof (sanitize_error_spec (te_message error)) as Hs.
    destruct (te_raw_message error) as [raw|].
    + destruct (String.eqb_spec (sanitize_error (te_message error)) (te_message error)) as [Eq|Ne].
      * right. exists raw. split_and!; [done..|]. rewrite Eq in Hs. naive_solver.
      * left. eexists. split; [done|]. naive_solver.
    + left. eexists. split; [done|]. destruct Hs as [->|[->|[-> ?]]]; auto.
Qed.

Lemma tool_of_elem name tool : tool_of name = Some tool → tool ∈ catalogue.
Proof. unfold tool_of. intros E%find_some. apply list_elem_of_In, E. Qed.


(* ------------------------------------------------------------------ *)
(** ** Answers *)

(** The methods whose functions read the request a second time. *)
Definition rereading : list string := ["tools/list"; "list_tools"; "tools/call"; "redact_file"].

(** A valid request with an id is answered once, the answer ending in that very
    id, and one without an id is not answered; neither reaches the handler,
    unless the method is one of those that take the request's parameters. *)
Theorem initialize_answers raw w st id :
  parse_request raw = Some st → rs_id st = Valid id → request_error st = false →
  valid_request st = true → default "" (rs_method st) ∉ rereading →
  if id_present st then
    ∃ body, initialize catalogue call_cancellable call raw w =
      (Response (body ++ lit "," ++ field "id" ++ append_id id ++ lit "}" ++ [x0a]), w)
  else initialize catalogue call_cancellable call raw w = (Notification, w).
Proof.
  intros E Hid He Hv Hm. unfold initialize. rewrite E, Hid, He, Hv. simpl negb. cbv zeta iota.
  set (method := default "" (rs_method st)) in *. clearbody method.
  unfold rereading in Hm. rewrite !not_elem_of_cons in Hm. destruct Hm as (H1 & H2 & H3 & H4 & _).
  rewrite (proj2 (String.eqb_neq _ _) H1), (proj2 (String.eqb_neq _ _) H2),
    (proj2 (String.eqb_neq _ _) H3), (proj2 (String.eqb_neq _ _) H4). simpl orb. cbv iota.
  destruct (id_present st); simpl negb; cbv iota.
  - destruct (String.eqb method "ping").
    { destruct (is_other (rs_params st)); [by eexists|].
      unfold ping_response. eexists (lit "{" ++ field "jsonrpc" ++ [quote] ++ lit "2.0" ++ [quote]
        ++ lit "," ++ field "result" ++ lit "{}"). by rewrite <-!app_assoc. }
    destruct (negb (String.eqb method "initialize")); [by eexists|].
    destruct (is_other (rs_params st)); by eexists.
  - destruct (String.eqb method "ping"); [done|].
    destruct (negb (String.eqb method "initialize")); [done|]. by destruct (is_other (rs_params st)).
Qed.
End protocol.

(* ------------------------------------------------------------------ *)
(** ** Reading the fields of an object *)

(** The raw keys and values of an object's text, after its opening brace. *)
Inductive raw_members : list (bytes * bytes) → bytes → Prop :=
| raw_members_nil w : ws w → raw_members [] (w ++ ["}"%byte])
| raw_members_cons w k w' w'' t v es r :
    ws w → mstring k → ws w' → ws w'' → mreads GO_MAX_JSON_NESTING_DEPTH t v → raw_more es r →
    raw_members ((k, v) :: es) (w ++ k ++ w' ++ ":"%byte :: w'' ++ v ++ r)
with raw_more : list (bytes * bytes) → bytes → Prop :=
| raw_more_nil w : ws w → raw_more [] (w ++ ["}"%byte])
| raw_more_cons w0 es r :
    ws w0 → es ≠ [] → raw_members es r → raw_more es (w0 ++ ","%byte :: r).

Scheme raw_members_mut := Induction for raw_members Sort Prop
  with raw_more_mut := Induction for raw_more Sort Prop.
Combined Scheme raw_ind from raw_members_mut, raw_more_mut.

(** The fields as the server keeps them: the key decoded, the value raw. *)
Definition field_of (f : string * bytes) (e : bytes * bytes) : Prop :=
  decode_json_string e.1 = Some f.1 ∧ f.2 = e.2.

Lemma skip_json_value_iff u k :
  until is_ws u →
  skip_json_value u = Some k ↔ ∃ t v, u = v ++ k ∧ mreads GO_MAX_JSON_NESTING_DEPTH t v ∧ follow t k.
Proof.
  intros Hu. unfold skip_json_value. split.
  - destruct (scan_json_value u false) as [[k'|]|] eqn:E; try done. intros [= ->].
    apply scan_json_value_iff in E as (t & w & v & -> & Hw & Hv & _ & Hk). exists t, v.
    destruct w as [|b w]; [done|]. inversion Hw; subst. simpl in Hu. congruence.
  - intros (t & v & -> & Hv & Hk). assert (scan_json_value (v ++ k) false = done k) as ->; [|done].
    apply scan_json_value_iff. by exists t, [], v.
Qed.

Lemma skip_json_string_iff u k : skip_json_string u = Some k ↔ ∃ s, u = s ++ k ∧ mstring s.
Proof.
  unfold skip_json_string. split.
  - pose proof (string_spec u) as H. destruct (scan_json_string u) as [[k'|]|]; try done.
    intros [= ->]. exact H.
  - intros (s & -> & Hs). by rewrite string_complete.
Qed.

Lemma consumed_app v k : consumed (v ++ k) k = v.
Proof. apply token_taken. Qed.

Lemma raw_more_ends es r k : raw_more es r → ends_value (r ++ k).
Proof. destruct 1; rewrite <-app_assoc; by apply ends_value_ws. Qed.

(** One entry of the loop: the name, the raw value and what is left. *)
Definition entry (raw : bytes) : option (string * bytes * bytes) :=
  after ← skip_json_string raw;
  name ← decode_json_string (consumed raw after);
  let raw := skip_whitespace after in
  if negb (next_is ":"%byte raw) then None
  else
    let raw := skip_whitespace (next raw) in
    after ← skip_json_value raw;
    Some (name, consumed raw after, after).

Definition finish (raw : bytes) (fields : list (string * bytes)) : option (list (string * bytes)) :=
  match skip_whitespace raw with [] => Some fields | _ => None end.

Lemma fields_loop_entry fuel raw fields :
  fields_loop (S fuel) raw fields =
  let raw := skip_whitespace raw in
  if next_is "}"%byte raw then finish (next raw) fields
  else
    '(name, v, after) ← entry raw;
    let fields := fields ++ [(name, v)] in
    let raw := skip_whitespace after in
    if next_is ","%byte raw then
      let raw := skip_whitespace (next raw) in
      if next_is "}"%byte raw then None else fields_loop fuel raw fields
    else if next_is "}"%byte raw then finish (next raw) fields
    else None.
Proof.
  cbn [fields_loop]. cbv zeta. destruct (next_is "}"%byte (skip_whitespace raw)); [done|].
  unfold entry. destruct (skip_json_string (skip_whitespace raw)) as [after|]; [|done].
  cbn [mbind option_bind]. destruct (decode_json_string _) as [name|]; [|done].
  cbn [mbind option_bind]. cbv zeta.
  destruct (negb (next_is ":"%byte (skip_whitespace after))); [done|].
  by destruct (skip_json_value _).
Qed.

Lemma field_entry_complete k w' w'' t v rest :
  mstring k → ws w' → ws w'' → mreads GO_MAX_JSON_NESTING_DEPTH t v → follow t rest →
  ∃ name, decode_json_string k = Some name ∧
    entry (k ++ w' ++ ":"%byte :: w'' ++ v ++ rest) = Some (name, v, rest).
Proof.
  intros Hk Hw' Hw'' Hv Hf. destruct (decode_string_total k Hk) as [name Hn]. exists name.
  split; [done|]. unfold entry.
  rewrite (proj2 (skip_json_string_iff _ (w' ++ ":"%byte :: w'' ++ v ++ rest))) by (by exists k).
  cbn [mbind option_bind]. rewrite consumed_app, Hn. cbn [mbind option_bind]. cbv zeta.
  rewrite skip_whitespace_app by done. rewrite next_is_eq. cbn [negb tail].
  destruct (value_head_mcp _ _ _ Hv) as (b & v' & Ev & Hb & _).
  assert (until is_ws (v ++ rest)) as Hu by by rewrite Ev.
  rewrite skip_whitespace_app by done.
  rewrite (proj2 (skip_json_value_iff (v ++ rest) rest Hu)) by (by exists t, v).
  cbn [mbind option_bind]. by rewrite consumed_app.
Qed.

Lemma entry_sound raw name v rest :
  entry raw = Some (name, v, rest) →
  ∃ k w' w'' t, raw = k ++ w' ++ ":"%byte :: w'' ++ v ++ rest ∧ mstring k ∧ ws w' ∧ ws w'' ∧
    mreads GO_MAX_JSON_NESTING_DEPTH t v ∧ decode_json_string k = Some name.
Proof.
  unfold entry. destruct (skip_json_string raw) as [after|] eqn:Es; [|done]. cbn [mbind option_bind].
  apply skip_json_string_iff in Es as (k & -> & Hk). rewrite consumed_app.
  destruct (decode_json_string k) as [n|] eqn:Ek; [|done]. cbn [mbind option_bind]. cbv zeta.
  destruct (skip_whitespace_split after) as (w' & Hw' & E' & _).
  set (z := skip_whitespace after) in *. clearbody z. subst after.
  destruct (next_is ":"%byte z) eqn:Ec; [|done]. apply next_is_cons in Ec as (z' & ->). cbn [negb tail].
  destruct (skip_whitespace_split z') as (w'' & Hw'' & E'' & Hu).
  set (y := skip_whitespace z') in *. clearbody y. subst z'.
  destruct (skip_json_value y) as [r|] eqn:Ev; [|done]. cbn [mbind option_bind].
  apply skip_json_value_iff in Ev as (t & x & -> & Hx & _); [|done]. rewrite consumed_app.
  intros [= <- <- <-]. by exists k, w', w'', t.
Qed.

Lemma members_not_end es r : raw_members es r → next_is "}"%byte (skip_whitespace r) = false → es ≠ [].
Proof. intros [w Hw|] Hn; [|done]. by rewrite skip_whitespace_app in Hn. Qed.

Lemma finish_iff raw fields fs : finish raw fields = Some fs ↔ ws raw ∧ fs = fields.
Proof.
  unfold finish. destruct (skip_whitespace_split raw) as (w & Hw & E & Hu). split.
  - destruct (skip_whitespace raw); [|done]. intros [= <-]. rewrite E, app_nil_r. done.
  - intros [Hr ->]. pose proof (skip_whitespace_app raw [] Hr I) as E'. rewrite app_nil_r in E'.
    by rewrite E'.
Qed.

Lemma fields_loop_sound fuel raw acc fields :
  fields_loop fuel raw acc = Some fields →
  ∃ es fs body w, raw = body ++ w ∧ ws w ∧ raw_members es body ∧ fields = acc ++ fs ∧
    Forall2 field_of fs es.
Proof.
  revert raw acc. induction fuel as [|fuel IH]; intros raw acc; [done|].
  rewrite fields_loop_entry. destruct (skip_whitespace_split raw) as (w & Hw & E & _).
  set (z := skip_whitespace raw) in *. clearbody z. subst raw. cbv zeta.
  destruct (next_is "}"%byte z) eqn:Ez.
  { apply next_is_cons in Ez as (z' & ->). intros [Hz ->]%finish_iff.
    exists [], [], (w ++ ["}"%byte]), z'. split_and!; [by rewrite <-app_assoc|done|by constructor| |constructor].
    by rewrite app_nil_r. }
  destruct (entry z) as [[[name v] rest]|] eqn:Ee; [|done]. cbn [mbind option_bind].
  apply entry_sound in Ee as (k & w' & w'' & t & -> & Hk & Hw' & Hw'' & Hv & Hn).
  destruct (skip_whitespace_split rest) as (w1 & Hw1 & E1 & _).
  set (y := skip_whitespace rest) in *. clearbody y. subst rest.
  assert (∀ es fs r wz, raw_more es (w1 ++ r) → ws wz → y = r ++ wz → fields = (acc ++ [(name, v)]) ++ fs →
    Forall2 field_of fs es →
    ∃ es fs body w0, w ++ k ++ w' ++ ":"%byte :: w'' ++ v ++ w1 ++ y = body ++ w0 ∧ ws w0 ∧
      raw_members es body ∧ fields = acc ++ fs ∧ Forall2 field_of fs es) as Hdone.
  { intros es fs r wz Hm Hwz -> Hf Hes. exists ((k, v) :: es), ((name, v) :: fs).
    exists (w ++ k ++ w' ++ ":"%byte :: w'' ++ v ++ (w1 ++ r)), wz. split_and!; [|done|by econstructor|..].
    - rewrite <-!app_assoc. simpl. by rewrite <-!app_assoc.
    - by rewrite Hf, <-app_assoc.
    - by constructor. }
  destruct (next_is ","%byte y) eqn:Ec; [|destruct (next_is "}"%byte y) eqn:Eb; [|done]].
  - apply next_is_cons in Ec as (y' & ->). cbn [tail].
    destruct (next_is "}"%byte (skip_whitespace y')) eqn:En; [done|].
    intros (es & fs & body & wz & Ey & Hwz & Hm & -> & Hes)%IH.
    destruct (skip_whitespace_split y') as (w2 & Hw2 & E2 & Hu2). rewrite Ey in E2.
    apply (Hdone es fs (","%byte :: w2 ++ body) wz); try done.
    + constructor; [done| |].
      * apply (members_not_end es body Hm). rewrite Ey in En, Hu2.
        destruct body as [|b body]; [done|]. rewrite skip_whitespace_until; done.
      * destruct Hm; rewrite app_assoc; [constructor|econstructor]; try done; by apply Forall_app.
    + rewrite E2. simpl. by rewrite <-app_assoc.
  - apply next_is_cons in Eb as (y' & ->). cbn [tail]. intros [Hy ->]%finish_iff.
    apply (Hdone [] [] ["}"%byte] y'); try done; [by constructor|by rewrite app_nil_r].
Qed.

Lemma fields_loop_complete :
  (∀ es r, raw_members es r → ∀ fuel acc w, (length r + length w < fuel)%nat → ws w →
     ∃ fs, Forall2 field_of fs es ∧ fields_loop fuel (r ++ w) acc = Some (acc ++ fs)) ∧
  (∀ es r, raw_more es r → ∀ fuel acc w, (length r + length w < fuel)%nat → ws w →
     ∃ fs, Forall2 field_of fs es ∧
       (let raw := skip_whitespace (r ++ w) in
        if next_is ","%byte raw then
          let raw := skip_whitespace (next raw) in
          if next_is "}"%byte raw then None else fields_loop fuel raw acc
        else if next_is "}"%byte raw then finish (next raw) acc
        else None) = Some (acc ++ fs)).
Proof.
  apply raw_ind.
  - intros w0 Hw0 [|fuel] acc w Hf Hw; [lia|]. exists []. split; [constructor|].
    rewrite fields_loop_entry, <-app_assoc, skip_whitespace_app by done. cbv zeta. cbn [app].
    rewrite next_is_eq. cbn [tail]. by apply finish_iff; rewrite app_nil_r.
  - intros w0 k w' w'' t v es r Hw0 Hk Hw' Hw'' Hv Hr IH [|fuel] acc w Hf Hw; [lia|].
    assert (follow t (r ++ w)) as Hfol by (eapply follow_delimiter; [done|by eapply raw_more_ends]).
    destruct (field_entry_complete k w' w'' t v (r ++ w) Hk Hw' Hw'' Hv Hfol) as (name & Hn & He).
    destruct (IH fuel (acc ++ [(name, v)]) w) as (fs & Hfs & Hloop); [|done|].
    { rewrite !length_app in Hf. simpl in Hf. rewrite !length_app in Hf. lia. }
    exists ((name, v) :: fs). split; [by constructor|].
    replace ((w0 ++ k ++ w' ++ ":"%byte :: w'' ++ v ++ r) ++ w)
      with (w0 ++ k ++ w' ++ ":"%byte :: w'' ++ v ++ r ++ w)
      by (rewrite <-!app_assoc; simpl; by rewrite <-!app_assoc).
    rewrite fields_loop_entry. cbv zeta. destruct (string_head _ Hk) as (k' & Ek).
    rewrite skip_whitespace_app by (try done; by rewrite Ek).
    assert (next_is "}"%byte (k ++ w' ++ ":"%byte :: w'' ++ v ++ r ++ w) = false) as -> by by rewrite Ek.
    rewrite He. cbn [mbind option_bind]. cbv zeta in Hloop. rewrite Hloop.
    by rewrite <-app_assoc.
  - intros w0 Hw0 fuel acc w Hf Hw. exists []. split; [constructor|].
    rewrite <-app_assoc, skip_whitespace_app by done. cbv zeta. cbn [app]. rewrite next_is_eq.
    cbn [tail]. by apply finish_iff; rewrite app_nil_r.
  - intros w0 es r Hw0 Hne Hr IH fuel acc w Hf Hw.
    destruct (IH fuel acc w) as (fs & Hfs & Hloop); [rewrite length_app in Hf; simpl in Hf; lia|done|].
    exists fs. split; [done|].
    replace ((w0 ++ ","%byte :: r) ++ w) with (w0 ++ ","%byte :: (r ++ w)) by by rewrite <-app_assoc.
    rewrite skip_whitespace_app by done. cbv zeta. rewrite next_is_eq. cbn [tail].
    destruct Hr as [|w1 k w' w'' t v es r Hw1 Hk ? ? ? ?]; [done|].
    destruct (string_head _ Hk) as (k' & Ek).
    assert (∃ z, (w1 ++ k ++ w' ++ ":"%byte :: w'' ++ v ++ r) ++ w = w1 ++ quote :: z) as (z & Ez).
    { rewrite Ek, <-!app_assoc. by eexists. }
    destruct fuel as [|fuel]; [lia|]. rewrite Ez in Hloop |- *.
    rewrite skip_whitespace_app by done. rewrite next_is_char by done.
    rewrite fields_loop_entry in Hloop |- *. rewrite skip_whitespace_app in Hloop by done.
    by rewrite skip_whitespace_until.
Qed.

(** The server reads the fields of an object exactly when the text is one JSON
    object between white space, and then gets them all in order: every key as the
    text it decodes to, every value as its raw text, duplicates kept. *)
Theorem scan_object_fields_iff raw fields :
  scan_object_fields raw = Some fields ↔
  ∃ w es body w', raw = w ++ "{"%byte :: body ++ w' ∧ ws w ∧ ws w' ∧ raw_members es body ∧
    Forall2 field_of fields es.
Proof.
  unfold scan_object_fields. split.
  - destruct (skip_whitespace_split raw) as (w & Hw & E & _).
    set (z := skip_whitespace raw) in *. clearbody z. subst raw.
    destruct (next_is "{"%byte z) eqn:Ez; [|done]. apply next_is_cons in Ez as (z' & ->). cbn [tail].
    intros (es & fs & body & w' & -> & Hw' & Hm & -> & Hfs)%fields_loop_sound.
    by exists w, es, body, w'.
  - intros (w & es & body & w' & -> & Hw & Hw' & Hm & Hfs).
    rewrite skip_whitespace_app by done. rewrite next_is_eq. cbn [tail].
    destruct (proj1 fields_loop_complete es body Hm
      (S (length ("{"%byte :: body ++ w'))) [] w') as (fs & Hfs' & ->);
      [simpl; rewrite length_app; lia|done|].
    simpl. f_equal. clear - Hfs Hfs'. revert fields Hfs.
    induction Hfs' as [|f e fs es [H1 H2] _ IH]; intros fields Hf; inversion Hf as [|g ? gs ? [H3 H4] Hgs];
      subst; [done|]. f_equal; [|by apply IH].
    destruct f as [a x], g as [a' x']. simpl in *. congruence.
Qed.
