(* ===== verification/McpWitness.v ===== *)
(** The MCP server at concrete inputs. *)
From S2P Require Import Prelude.
From S2P Require Import Text.
From S2P Require Import Json.
From S2P Require Import Model.
From S2P Require Import Encryption.
From S2P Require Import JsonText.
From S2P Require Import ProfileJson.
From S2P Require Import McpScan.
From S2P Require Import McpScanFacts.
From S2P Require Import McpValueFacts.
From S2P Require Import McpTools.
From S2P Require Import McpProtocol.
From S2P Require Import McpStream.
From S2P Require Import McpEscapeFacts.
From S2P Require Import McpProtocolFacts.
From Stdlib Require Import Ascii Strings.Byte.

#[local] Notation length := List.length.

(** JSON written with single quotes. *)
Definition json (s : string) : bytes :=
  lit (str_map (λ c, if Ascii.eqb c "'" then b 34 else c) s).

#[local] Existing Instance compact_json.
#[local] Instance lower_ascii : Lowercase := {| to_lowercase := to_ascii_lowercase |}.

(** A handler that counts its calls. *)
Definition counting (name : string) (arguments : jmap) (w : nat) : result ToolError value * nat :=
  (Ok (JString name), S w).

Definition catalogue : list value :=
  [JObject [("name", JString "plan");
            ("inputSchema", JObject [("required", JArray [JString "campaign"]);
               ("properties", JObject [("campaign", JObject [("type", JString "string")])])])]].

Definition serve (raw : bytes) (w : nat) : Outcome * nat :=
  initialize catalogue counting counting raw w.

Definition ping : bytes := json "{'jsonrpc':'2.0','id':7,'method':'ping'}".

Example ping_answered :
  serve ping 0 = (Response (json "{'jsonrpc':'2.0','result':{},'id':7}" ++ [x0a]), O).
Proof. vm_compute. reflexivity. Qed.

Example syntax_errors :
  List.map (λ s, match scan_json_value (json s) false with Err e => e | _ => "" end)
    ["{'a':truX}"; "[1,]"; "{'a':1 2}"; "01]"] =
  ["invalid character 'X' in literal true (expecting 'e')";
   "invalid character ']' looking for beginning of value";
   "invalid character '2' after object key:value pair"; ""].
Proof. vm_compute. reflexivity. Qed.

Example float_texts :
  List.map go_float_text ["1.0"; "1e300"; "1.5e-7"; "1.25e-5"; "-2.5e16"; "1e20"] =
  ["1"; "1e+300"; "1.5e-7"; "0.0000125"; "-25000000000000000"; "100000000000000000000"].
Proof. vm_compute. reflexivity. Qed.

(** A key with other letters reaches [ping] but not [tools/list], which reads
    the request a second time by other rules. *)
Example folded_keys_differ :
  serve (json "{'JSONRPC':'2.0','ID':7,'method':'ping'}") 0 =
    (Response (json "{'jsonrpc':'2.0','result':{},'id':7}" ++ [x0a]), O) ∧
  (∃ st, parse_request (json "{'jsonrpc':'2.0','ID':7,'method':'tools/list'}") = Some st ∧
     id_present st = true ∧ valid_request st = true).
Proof.
  split; [vm_compute; reflexivity|]. eexists. split; [vm_compute; reflexivity|]. by split.
Qed.

(** Two requests cut in the middle of the first. *)
Definition cut_input : list (result string bytes) := [Ok (take 9 ping); Ok (drop 9 ping ++ ping)].

Lemma serve_stdio_serve_stream_witness :
  ∃ s v v', serve_stdio serve (λ _ _, None) cut_input 0%nat = Some (s, v) ∧
    serve_stream serve (delivered cut_input) 0%nat = (v', written s, world s) ∧ same_verdict v v'.
Proof.
  apply (serve_stdio_serve_stream serve (λ _ _, None) cut_input 0%nat); [done|by repeat constructor].
Defined.

Lemma stdio_answers_promptly_witness :
  ∃ s, buffer s = json "[]x" ∧
    stdio_turn serve (λ _ _, None) s = answer serve (λ _ _, None) s (json "[]") (json "x").
Proof.
  exists {| buffer := json "[]x"; skipped := 0; eof := false; input := []; written := [];
            writes := 0; world := 0%nat |}.
  split; [done|].
  apply (stdio_answers_promptly serve (λ _ _, None) _ (TArray []) (json "[]") (json "x"));
    [done| |done].
  pose proof max_depth_pos. destruct GO_MAX_JSON_NESTING_DEPTH as [|n]; [lia|].
  apply reads_array. apply (elements_nil _ _ []). constructor.
Defined.

Lemma initialize_answers_witness :
  ∃ body, serve ping 0%nat =
    (Response (body ++ lit "," ++ field "id" ++ append_id (GoNumber "7") ++ lit "}" ++ [x0a]), 0%nat).
Proof.
  exact (initialize_answers catalogue counting counting ping 0%nat
    {| id_present := true; rs_id := McpProtocol.Valid (GoNumber "7"); request_error := false; valid_request := true;
       rs_method := Some "ping"; rs_params := Missing |} (GoNumber "7")
    ltac:(vm_compute; reflexivity) eq_refl eq_refl eq_refl
    ltac:(apply (bool_decide_unpack _); vm_compute; exact I)).
Defined.

Lemma go_escape_json_strings_witness :
  ∃ s, s = json "'<'" ∧ clean (go_escape_json_strings s) ∧
    decode_json_string (go_escape_json_strings s) = decode_json_string s.
Proof.
  assert (mstring (json "'<'")) as Hs.
  { apply json_string_intro. apply (chars_plain _ ["<"%byte]); [|constructor].
    exists "<"%byte. by split_and!. }
  exists (json "'<'"). split; [done|].
  destruct (go_escape_json_strings_spec 0%nat (TString (json "'<'")) (json "'<'")) as (_ & H1 & H2);
    [by constructor|]. split; [exact H1|]. by apply H2.
Defined.
