(* ===== verification/Redaction.v ===== *)
(** PII redaction: [core/redaction/pii.rs] and [core/redaction/review.rs].

    Byte strings are lists of bytes and offsets are [nat]s into them.  The crate
    [regex] is the class [RegexEngine]: what it finds is a list of ranges.  The
    patterns, the choice among overlapping matches, the masks, the limits and the
    interactive review are the repository's own. *)
From S2P Require Import Prelude.
From S2P Require Import Text.
From S2P Require Import Encryption.
From S2P Require Import JsonText.
From S2P Require Import ProfileJson.
From S2P Require Import MailParse.
From S2P Require Import McpScan.
From S2P Require Import McpTools.
From Stdlib Require Import Ascii Strings.Byte.

#[local] Notation length := List.length.

(** ** Limits *)

Definition MAX_INPUT_BYTES : Z := Z.shiftl 16 20.
Definition MAX_MATCHES : Z := 100000.
Definition MAX_OUTPUT_BYTES : Z := Z.shiftl 32 20.
Definition MAX_PROFILE_LITERAL_BYTES : Z := Z.shiftl 16 10.
Definition MAX_PROFILE_LITERAL_COUNT : Z := 4096.
Definition MAX_PROFILE_TOTAL_BYTES : Z := Z.shiftl 1 20.
Definition MAX_PROFILE_ADDRESSES : Z := 4096.
Definition MAX_PROFILE_VECTOR_ENTRIES : Z := 4096.

(** The length of a vector or a byte string, against the limits. *)
Definition size {A} (l : list A) : Z := Z.of_nat (length l).

(** ** Data *)

Record Address := { ra_street : string; ra_city : string; ra_postal_code : string }.

Record RedactionProfile := {
  rp_full_name : string;
  rp_name_variants : list string;
  rp_email_addresses : list string;
  rp_phone_numbers : list string;
  rp_addresses : list Address;
}.

Inductive RedactionError :=
| InputTooLarge
| MatchLimit
| OutputTooLarge
| InvalidProfileLiteral
| InvalidMatchRange.

Definition RedactionError_display (e : RedactionError) : string :=
  match e with
  | InputTooLarge => "redaction input exceeds the configured limit"
  | MatchLimit => "redaction match limit exceeded"
  | OutputTooLarge => "redaction output exceeds the configured limit"
  | InvalidProfileLiteral => "redaction profile literal is invalid"
  | InvalidMatchRange => "redaction match range is invalid"
  end.

Inductive Replacement := REmail | RPhone | RSsn | RIban | RGermanId | RFrenchId | RSpanishId | RPassport.

Record Rule := { r_name : string; r_pattern : string; r_replacement : Replacement }.

Record Match := {
  m_name : string;
  m_start : nat;
  m_end : nat;
  m_value : bytes;
  m_replacement : bytes;
}.

Definition passport_regex : string :=
  "(?i)(passport|travel\s*document|reisedokument)\s*(#|no|num|number)?\s*[:.]?\s*([A-Z0-9]{6,9})\b".

Definition default_rules : list Rule :=
  [{| r_name := "IBAN"; r_pattern := "\b[A-Z]{2}[0-9]{2}[A-Z0-9]{11,30}\b"; r_replacement := RIban |};
   {| r_name := "German ID"; r_pattern := "\b[A-L][0-9]{8}[A-Z]?\b"; r_replacement := RGermanId |};
   {| r_name := "French ID";
      r_pattern := "\b[12][0-9]{2}(0[1-9]|1[0-2])[0-9]{5}[0-9]{3}([0-9]{2})?\b";
      r_replacement := RFrenchId |};
   {| r_name := "Spanish ID"; r_pattern := "\b[0-9]{8}[A-HJ-NP-TV-Z]\b"; r_replacement := RSpanishId |};
   {| r_name := "Passport"; r_pattern := passport_regex; r_replacement := RPassport |};
   {| r_name := "SSN"; r_pattern := "\b[0-9]{3}[- ]?[0-9]{2}[- ]?[0-9]{4}\b"; r_replacement := RSsn |};
   {| r_name := "Email";
      r_pattern := "[a-zA-Z0-9.!#$%&'*+/=?^_`{|}~-]{1,64}@[a-zA-Z0-9]([a-zA-Z0-9-]{0,61}[a-zA-Z0-9])?(\.[a-zA-Z0-9]([a-zA-Z0-9-]{0,61}[a-zA-Z0-9])?){0,130}";
      r_replacement := REmail |};
   {| r_name := "Phone";
      r_pattern := "(\+?1[\s.-]?)?\(?[0-9]{3}\)?[\s.-]?[0-9]{3}[\s.-]?[0-9]{4}";
      r_replacement := RPhone |}].

(** ** The regular expressions *)

(** Whether a pattern ignores case, and whether it is about text or bytes. *)
Record RegexOptions := { case_insensitive : bool; unicode : bool }.

(** [RegexBuilder::build], [find_iter] and [captures] of the crate [regex]; what
    is found is the range from the first offset to before the second. *)
Class RegexEngine := {
  Regex : Type;
  escape : string → string;
  build : RegexOptions → string → option Regex;
  find_iter : Regex → bytes → list (nat * nat);
  capture : Regex → nat → bytes → option (nat * nat);
}.

Definition between_bytes (start stop : nat) (input : bytes) : bytes :=
  take (stop - start) (drop start input).

(** ** Masks *)

Definition star : byte := "*"%byte.

Definition ascii_digits (value : bytes) : bytes := List.filter is_digit value.

Definition invalid_ssn (value : bytes) : bool :=
  let ds := ascii_digits value in
  Nat.eqb (length ds) 9
  && (bytes_start_with (lit "000") ds || bytes_start_with (lit "666") ds || next_is "9"%byte ds
      || bool_decide (between_bytes 3 5 ds = lit "00") || bool_decide (drop 5 ds = lit "0000")).

(** [iter().position(|byte| *byte == b)] *)
Fixpoint position_of (b : byte) (value : bytes) : option nat :=
  match value with
  | [] => None
  | c :: value => if bool_decide (c = b) then Some O else S <$> position_of b value
  end.

(** [split(|byte| *byte == b)] *)
Fixpoint split_on (b : byte) (value : bytes) : list bytes :=
  match value with
  | [] => [[]]
  | c :: value =>
      if bool_decide (c = b) then [] :: split_on b value
      else
        match split_on b value with
        | part :: parts => (c :: part) :: parts
        | [] => [[c]]
        end
  end.

Definition valid_label (label : bytes) : bool :=
  match label with
  | [] => false
  | c :: _ => (size label <=? 63) && negb (bool_decide (c = "-"%byte))
              && negb (bool_decide (last label = Some "-"%byte))
  end.

Definition valid_email (value : bytes) : bool :=
  match position_of "@"%byte value with
  | None => false
  | Some at_ =>
      if Nat.eqb at_ 0 || Nat.leb (length value) (at_ + 1)
         || bool_decide ("@"%byte ∈ drop (at_ + 1) value) then false
      else
        let labels := split_on "."%byte (drop (at_ + 1) value) in
        (size labels <=? 127) && forallb valid_label labels
  end.

Definition suffix_mask (value : bytes) (suffix stars : nat) : bytes :=
  if Nat.ltb (length value) suffix then value
  else replicate stars star ++ drop (length value - suffix) value.

Definition mask_parts (value : bytes) (prefix suffix : nat) (middle : bytes) : bytes :=
  if Nat.ltb (length value) (prefix + suffix) then value
  else take prefix value ++ replicate (length value - suffix + length middle) star
       ++ drop (length value - suffix) value.

Definition scrub_email (value : bytes) : bytes :=
  match position_of "@"%byte value with
  | None => value
  | Some at_ =>
      if Nat.eqb at_ 0 then value
      else
        match drop (at_ + 1) value with
        | [] => value
        | (first :: _) as domain =>
            take 1 value
            ++ (if Nat.ltb 2 at_ then replicate (at_ - 2) star ++ between_bytes (at_ - 1) at_ value
                else [])
            ++ ["@"%byte; first]
            ++ match position_of "."%byte domain with
               | Some dot => [star; "."%byte] ++ drop (dot + 1) domain
               | None => ["."%byte; star]
               end
        end
  end.

Definition scrub_phone (value : bytes) : bytes :=
  let ds := ascii_digits value in
  if Nat.ltb (length ds) 4 then value
  else (if Nat.eqb (length ds) 11 then lit "+1-***-***-" else lit "***-***-")
       ++ drop (length ds - 4) ds.

Definition to_ascii_uppercase (b : byte) : byte :=
  if between 97 122 (bval b)
  then default b (Byte.of_N (Z.to_N (bval b - 32))) else b.

Section pii.
Context `{RegexEngine}.

(** [regex(pattern)]; the built-in patterns build. *)
Definition byte_options : RegexOptions := {| case_insensitive := false; unicode := false |}.
Definition regex (pattern : string) : option Regex := build byte_options pattern.

Definition rule_matches (pattern : string) (input : bytes) : list (nat * nat) :=
  match regex pattern with Some r => find_iter r input | None => [] end.

Definition scrub_passport (value : bytes) : bytes :=
  match (r ← regex passport_regex; capture r 3 value) with
  | None => value
  | Some (start, stop) =>
      if Nat.ltb (stop - start) 2 then value
      else take start value ++ replicate (stop - 2 - start) star ++ drop (stop - 2) value
  end.

Definition replace (kind : Replacement) (value : bytes) : bytes :=
  match kind with
  | RSsn => lit "***-**-****"
  | REmail => scrub_email value
  | RPhone => scrub_phone value
  | RIban => mask_parts value 2 4 (lit "**")
  | RGermanId => suffix_mask value 2 7
  | RFrenchId => suffix_mask value 3 3
  | RSpanishId => lit "****-****-" ++ [to_ascii_uppercase (default "?"%byte (last value))]
  | RPassport => scrub_passport value
  end.

(** ** Collecting *)

Definition push_match (out : list Match) (m : Match) : result RedactionError (list Match) :=
  if MAX_MATCHES <=? size out then Err MatchLimit else Ok (out ++ [m]).

(** The counters of [validate_profile]. *)
Definition check_literal (counters : Z * Z) (value : string) : result RedactionError (Z * Z) :=
  if is_empty value then Ok counters
  else if (MAX_PROFILE_LITERAL_BYTES <? len value) || str_existsb (Ascii.eqb zero) value
  then Err InvalidProfileLiteral
  else
    let count := counters.1 + 1 in
    let total := counters.2 + len value in
    if (MAX_PROFILE_LITERAL_COUNT <? count) || (MAX_PROFILE_TOTAL_BYTES <? total)
    then Err InvalidProfileLiteral else Ok (count, total).

Fixpoint check_literals (counters : Z * Z) (values : list string) : result RedactionError (Z * Z) :=
  match values with
  | [] => Ok counters
  | value :: values => counters ← check_literal counters value; check_literals counters values
  end.

Definition address_literals (a : Address) : list string := [ra_street a; ra_city a; ra_postal_code a].

(** The texts of a profile in the order [validate_profile] reads them. *)
Definition profile_literals (p : RedactionProfile) : list string :=
  [rp_full_name p] ++ rp_name_variants p ++ rp_email_addresses p ++ rp_phone_numbers p
  ++ (rp_addresses p ≫= address_literals).

Definition validate_profile (p : RedactionProfile) : result RedactionError () :=
  if (MAX_PROFILE_VECTOR_ENTRIES <? size (rp_name_variants p))
     || (MAX_PROFILE_VECTOR_ENTRIES <? size (rp_email_addresses p))
     || (MAX_PROFILE_VECTOR_ENTRIES <? size (rp_phone_numbers p))
     || (MAX_PROFILE_ADDRESSES <? size (rp_addresses p))
  then Err InvalidProfileLiteral
  else _ ← check_literals (0, 0) (profile_literals p); Ok ().

(** The loops over what a pattern finds: one match for each range. *)
Fixpoint push_ranges (out : list Match) (input : bytes) (offset : nat) (name : string)
    (replacement : bytes) (ranges : list (nat * nat)) : result RedactionError (list Match) :=
  match ranges with
  | [] => Ok out
  | (start, stop) :: ranges =>
      let start := (offset + start)%nat in
      let stop := (offset + stop)%nat in
      out ← push_match out
              {| m_name := name; m_start := start; m_end := stop;
                 m_value := between_bytes start stop input; m_replacement := replacement |};
      push_ranges out input offset name replacement ranges
  end.

Definition append_text_literal_matches (out : list Match) (input : bytes) (offset : nat)
    (text : bytes) (pattern : Regex) (name : string) (replacement : bytes) :
    result RedactionError (list Match) :=
  push_ranges out input offset name replacement (find_iter pattern text).

(** [error_len()] at an ill-formed place; [None] is an unfinished character at
    the end. *)
Definition error_len (s : string) : option nat :=
  match utf8_step s with Invalid k => Some k | _ => None end.

(** The loop over the well-formed stretches of an input that is not all UTF-8. *)
Fixpoint stretch_loop (fuel : nat) (out : list Match) (input : bytes) (offset : nat)
    (pattern : Regex) (name : string) (replacement : bytes) : result RedactionError (list Match) :=
  match fuel with
  | O => Ok out
  | S fuel =>
      if Nat.leb (length input) offset then Ok out
      else
        let remainder := drop offset input in
        let valid_len := valid_up_to 0 (text_of remainder) in
        let text := take valid_len remainder in
        if Nat.eqb valid_len (length remainder) then
          append_text_literal_matches out input offset text pattern name replacement
        else
          let invalid_len :=
            default (length remainder - valid_len)%nat
              (error_len (text_of (drop valid_len remainder))) in
          out ← (if Nat.ltb 0 valid_len
                 then append_text_literal_matches out input offset text pattern name replacement
                 else Ok out);
          let advance := (valid_len + Nat.max invalid_len 1)%nat in
          stretch_loop fuel out input (Nat.min (offset + advance) (length input)) pattern name
            replacement
  end.

Definition is_ascii (value : string) : bool := str_forallb (Text.byte_in 0 127) value.

Definition append_literal (out : list Match) (input : bytes) (value name : string)
    (replacement : bytes) : result RedactionError (list Match) :=
  if is_empty value then Ok out
  else if (MAX_PROFILE_LITERAL_BYTES <? len value) || str_existsb (Ascii.eqb zero) value
  then Err InvalidProfileLiteral
  else if is_ascii value then
    match build {| case_insensitive := true; unicode := false |} (escape value) with
    | None => Err InvalidProfileLiteral
    | Some pattern => push_ranges out input 0 name replacement (find_iter pattern input)
    end
  else
    match build {| case_insensitive := true; unicode := true |} (escape value) with
    | None => Err InvalidProfileLiteral
    | Some pattern => stretch_loop (S (length input)) out input 0 pattern name replacement
    end.

(** The literals of a profile in the order [collect_matches] looks for them, each
    with its name and its marker. *)
Definition searched_literals (p : RedactionProfile) : list (string * string * string) :=
  ((λ v, (v, "Profile Email", "[REDACTED-EMAIL]")) <$> rp_email_addresses p)
  ++ ((λ v, (v, "Profile Phone", "[REDACTED-PHONE]")) <$> rp_phone_numbers p)
  ++ [(rp_full_name p, "Profile Name", "[REDACTED-NAME]")]
  ++ ((λ v, (v, "Profile Name", "[REDACTED-NAME]")) <$> rp_name_variants p)
  ++ (rp_addresses p ≫= λ a,
       [(ra_street a, "Profile Street", "[REDACTED-STREET]");
        (ra_city a, "Profile City", "[REDACTED-CITY]");
        (ra_postal_code a, "Profile Postal Code", "[REDACTED-POSTAL]")]).

Fixpoint append_literals (out : list Match) (input : bytes) (literals : list (string * string * string)) :
    result RedactionError (list Match) :=
  match literals with
  | [] => Ok out
  | (value, name, marker) :: literals =>
      out ← append_literal out input value name (lit marker);
      append_literals out input literals
  end.

(** [continue] of the rules' loop. *)
Definition rejected (rule : Rule) (value : bytes) : bool :=
  (String.eqb (r_name rule) "SSN" && invalid_ssn value)
  || (String.eqb (r_name rule) "Email" && negb (valid_email value)).

Fixpoint append_captures (out : list Match) (input : bytes) (rule : Rule) (ranges : list (nat * nat)) :
    result RedactionError (list Match) :=
  match ranges with
  | [] => Ok out
  | (start, stop) :: ranges =>
      let value := between_bytes start stop input in
      if rejected rule value then append_captures out input rule ranges
      else
        out ← push_match out
                {| m_name := r_name rule; m_start := start; m_end := stop; m_value := value;
                   m_replacement := replace (r_replacement rule) value |};
        append_captures out input rule ranges
  end.

Fixpoint append_rules (out : list Match) (input : bytes) (rules : list Rule) :
    result RedactionError (list Match) :=
  match rules with
  | [] => Ok out
  | rule :: rules =>
      out ← append_captures out input rule (rule_matches (r_pattern rule) input);
      append_rules out input rules
  end.

(** Earlier first, then longer first. *)
Definition match_before (a b : Match) : bool :=
  Nat.ltb (m_start a) (m_start b)
  || (Nat.eqb (m_start a) (m_start b) && Nat.leb (m_end b - m_start b) (m_end a - m_start a)).

(** The loop that drops what begins inside an accepted match; [last_end] is [None]
    while nothing is accepted. *)
Fixpoint accept_loop (last_end : option nat) (found : list Match) : list Match :=
  match found with
  | [] => []
  | candidate :: found =>
      let free := match last_end with None => true | Some e => Nat.leb e (m_start candidate) end in
      if free then candidate :: accept_loop (Some (m_end candidate)) found
      else accept_loop last_end found
  end.

Definition found_matches (input : bytes) (profile : option RedactionProfile) :
    result RedactionError (list Match) :=
  found ← match profile with
          | Some p => append_literals [] input (searched_literals p)
          | None => Ok []
          end;
  append_rules found input default_rules.

Definition collect_matches (input : bytes) (profile : option RedactionProfile) :
    result RedactionError (list Match) :=
  if MAX_INPUT_BYTES <? size input then Err InputTooLarge
  else
    _ ← match profile with Some p => validate_profile p | None => Ok () end;
    found ← found_matches input profile;
    Ok (accept_loop None (sort_by match_before found)).

(** ** Redacting *)

(** [checked_sub(end - start).and_then(checked_add(replacement.len()))] on a
    [usize]. *)
Definition replaced_len (output_len : Z) (m : Match) : option Z :=
  let span := Z.of_nat (m_end m - m_start m) in
  if output_len <? span then None
  else
    let n := output_len - span + size (m_replacement m) in
    if u64_max <? n then None else Some n.

Fixpoint output_length (output_len : Z) (ms : list Match) : result RedactionError Z :=
  match ms with
  | [] => Ok output_len
  | m :: ms =>
      n ← ok_or OutputTooLarge (replaced_len output_len m);
      if MAX_OUTPUT_BYTES <? n then Err OutputTooLarge else output_length n ms
  end.

(** [input.get(a..b)] *)
Definition get_range (input : bytes) (a b : nat) : option bytes :=
  if Nat.leb a b && Nat.leb b (length input) then Some (between_bytes a b input) else None.

Fixpoint write_loop (input : bytes) (position : nat) (output : bytes) (ms : list Match) :
    result RedactionError bytes :=
  match ms with
  | [] => rest ← ok_or InvalidMatchRange (get_range input position (length input)); Ok (output ++ rest)
  | m :: ms =>
      prefix ← ok_or InvalidMatchRange (get_range input position (m_start m));
      write_loop input (m_end m) (output ++ prefix ++ m_replacement m) ms
  end.

Definition redact_bytes (input : bytes) (profile : option RedactionProfile) :
    result RedactionError bytes :=
  ms ← collect_matches input profile;
  _ ← output_length (size input) ms;
  write_loop input 0 [] ms.

Definition is_utf8 (s : bytes) : bool := Nat.eqb (valid_up_to 0 (text_of s)) (length s).

Definition redact_text (input : string) (profile : option RedactionProfile) :
    result RedactionError string :=
  output ← redact_bytes (lit input) profile;
  if is_utf8 output then Ok (text_of output) else Err InvalidMatchRange.
End pii.

(* ------------------------------------------------------------------ *)
(** ** review.rs *)

Inductive Action := Keep | Redact | Skip | Quit.

Record ReviewResult := {
  rv_output : bytes;
  rv_changed : bool;
  rv_quit : bool;
  rv_redacted : nat;
  rv_kept : nat;
  rv_skipped : nat;
}.

Inductive ReviewError :=
| InvalidMatch (index : nat)
| InvalidAction
| ReviewOutputTooLarge
| Redaction (e : RedactionError).

Definition ReviewError_display (e : ReviewError) : string :=
  match e with
  | InvalidMatch index => "invalid redaction match " +:+ show (Z.of_nat index)
  | InvalidAction => "invalid review action"
  | ReviewOutputTooLarge => "review output exceeds the configured limit"
  | Redaction error => RedactionError_display error
  end.

Definition match_is_valid (input : bytes) (last_end : nat) (m : Match) : bool :=
  negb (Nat.ltb (m_start m) last_end || Nat.leb (m_end m) (m_start m)
        || Nat.ltb (length input) (m_end m)
        || negb (bool_decide (get_range input (m_start m) (m_end m) = Some (m_value m)))
        || (MAX_OUTPUT_BYTES <? size (m_replacement m))).

Fixpoint validate_loop (input : bytes) (index last_end : nat) (output_len : Z) (ms : list Match) :
    result ReviewError () :=
  match ms with
  | [] => Ok ()
  | m :: ms =>
      if negb (match_is_valid input last_end m) then Err (InvalidMatch index)
      else
        n ← ok_or ReviewOutputTooLarge (replaced_len output_len m);
        if MAX_OUTPUT_BYTES <? n then Err ReviewOutputTooLarge
        else validate_loop input (S index) (m_end m) n ms
  end.

Definition validate_matches (input : bytes) (ms : list Match) : result ReviewError () :=
  validate_loop input 0 0 (size input) ms.

(** The variables of the loop of [review_bytes]. *)
Record ReviewState := {
  rs_position : nat;
  rs_output : bytes;
  rs_redacted : nat;
  rs_kept : nat;
  rs_skipped : nat;
}.

Definition counted (s : ReviewState) (kept skipped : nat) : ReviewState :=
  {| rs_position := rs_position s; rs_output := rs_output s; rs_redacted := rs_redacted s;
     rs_kept := rs_kept s + kept; rs_skipped := rs_skipped s + skipped |}.

Section review.
(** The callback's state. *)
Context {St : Type} (decide_match : Match → St → Action * St).

Definition redact_step (input : bytes) (s : ReviewState) (m : Match) : result ReviewError ReviewState :=
  let prefix_len := Z.of_nat (m_start m - rs_position s) in
  let new_len := size (rs_output s) + prefix_len + size (m_replacement m) in
  if MAX_OUTPUT_BYTES <? new_len then Err ReviewOutputTooLarge
  else
    Ok {| rs_position := m_end m;
          rs_output := rs_output s ++ between_bytes (rs_position s) (m_start m) input ++ m_replacement m;
          rs_redacted := S (rs_redacted s); rs_kept := rs_kept s; rs_skipped := rs_skipped s |}.

(** The loop: the state, whether the user quit, and the callback's state. *)
Fixpoint review_loop (input : bytes) (ms : list Match) (s : ReviewState) (w : St) :
    result ReviewError (ReviewState * bool * St) :=
  match ms with
  | [] => Ok (s, false, w)
  | m :: ms =>
      let '(action, w) := decide_match m w in
      match action with
      | Keep => review_loop input ms (counted s 1 0) w
      | Skip => review_loop input ms (counted s 0 1) w
      | Redact => s ← redact_step input s m; review_loop input ms s w
      | Quit => Ok (s, true, w)
      end
  end.

(** [changed] is set with every redaction. *)
Definition review_bytes (input : bytes) (ms : list Match) (w : St) :
    result ReviewError (ReviewResult * St) :=
  if MAX_INPUT_BYTES <? size input then Err (Redaction InputTooLarge)
  else if MAX_MATCHES <? size ms then Err (Redaction MatchLimit)
  else
    _ ← validate_matches input ms;
    '(s, quit, w) ← review_loop input ms
      {| rs_position := 0; rs_output := []; rs_redacted := 0; rs_kept := 0; rs_skipped := 0 |} w;
    let changed := Nat.ltb 0 (rs_redacted s) in
    let output := if changed then rs_output s ++ drop (rs_position s) input else input in
    if changed && (MAX_OUTPUT_BYTES <? size output) then Err ReviewOutputTooLarge
    else
      Ok ({| rv_output := output; rv_changed := changed; rv_quit := quit;
             rv_redacted := rs_redacted s; rv_kept := rs_kept s; rv_skipped := rs_skipped s |}, w).

Definition review_text (input : string) (ms : list Match) (w : St) :
    result ReviewError (string * ReviewResult * St) :=
  '(res, w) ← review_bytes (lit input) ms w;
  if is_utf8 (rv_output res) then Ok (text_of (rv_output res), res, w) else Err (InvalidMatch 0).
End review.

(** Without a callback every match is kept. *)
Definition no_callback (_ : Match) (w : unit) : Action * unit := (Keep, w).
