(* ===== verification/RedactionFacts.v ===== *)
(** What the redaction of [Redaction] promises: the matches it chooses, the text
    it writes, what a mask can tell, and what a review changes. *)
From stdpp Require Import relations.
From S2P Require Import Prelude.
From S2P Require Import Text.
From S2P Require Import Encryption.
From S2P Require Import JsonText.
From S2P Require Import ProfileJson.
From S2P Require Import McpScan.
From S2P Require Import McpTools.
From S2P Require Import Redaction.
From Stdlib Require Import Ascii Strings.Byte.

#[local] Notation length := List.length.

(** ** Ranges *)

(** The documented behaviour of [find_iter]: what it finds lies in the input. *)
Class RegexLaws `{RegexEngine} := {
  find_iter_ranges r input :
    Forall (λ p : nat * nat, p.1 ≤ p.2 ∧ p.2 ≤ length input)%nat (find_iter r input);
}.

(** A match is a range of the input with the text there. *)
Definition match_ok (input : bytes) (m : Match) : Prop :=
  (m_start m ≤ m_end m ∧ m_end m ≤ length input)%nat ∧
  m_value m = between_bytes (m_start m) (m_end m) input.

(** Matches one after the other, from [pos] on. *)
Fixpoint laid_out (n pos : nat) (ms : list Match) : Prop :=
  match ms with
  | [] => (pos ≤ n)%nat
  | m :: ms => (pos ≤ m_start m ∧ m_start m ≤ m_end m)%nat ∧ laid_out n (m_end m) ms
  end.

(** The input with every match replaced. *)
Fixpoint weave (input : bytes) (pos : nat) (ms : list Match) : bytes :=
  match ms with
  | [] => drop pos input
  | m :: ms => between_bytes pos (m_start m) input ++ m_replacement m ++ weave input (m_end m) ms
  end.

Lemma laid_out_le n pos ms : laid_out n pos ms → (pos ≤ n)%nat.
Proof.
  revert pos. induction ms as [|m ms IH]; simpl; intros pos; [done|].
  intros [H Hl]. specialize (IH _ Hl). lia.
Qed.

Lemma laid_out_weaken n pos pos' ms : (pos' ≤ pos)%nat → laid_out n pos ms → laid_out n pos' ms.
Proof. destruct ms; simpl; [lia|]. intros ? [? ?]. split; [lia|done]. Qed.

Lemma laid_out_take n pos ms k : laid_out n pos ms → laid_out n pos (take k ms).
Proof.
  revert pos k. induction ms as [|m ms IH]; intros pos [|k] Hl; try done.
  - by eapply laid_out_le.
  - destruct Hl as [H Hl]. split; [done|]. by apply IH.
Qed.

Lemma laid_out_sublist n pos ms ms' : sublist ms' ms → laid_out n pos ms → laid_out n pos ms'.
Proof.
  intros Hs. revert pos. induction Hs as [|m ms' ms Hs IH|m ms' ms Hs IH]; intros pos; simpl; [done|..].
  - intros [H Hl]. split; [done|]. by apply IH.
  - intros [H Hl]. apply IH. eapply laid_out_weaken; [|done]. lia.
Qed.

Lemma length_between a b input :
  (a ≤ b ∧ b ≤ length input)%nat → length (between_bytes a b input) = (b - a)%nat.
Proof. intros. unfold between_bytes. rewrite length_take, length_drop. lia. Qed.

Lemma length_weave_cons input pos m ms :
  (pos ≤ m_start m ∧ m_start m ≤ m_end m)%nat → (m_end m ≤ length input)%nat →
  length (weave input pos (m :: ms)) =
  (m_start m - pos + length (m_replacement m) + length (weave input (m_end m) ms))%nat.
Proof. intros. simpl. rewrite !length_app, length_between by lia. lia. Qed.

(** ** Collecting *)

Section collect.
Context `{RegexLaws}.

Lemma push_match_ok out m out' : push_match out m = Ok out' → out' = out ++ [m] ∧ size out' ≤ MAX_MATCHES.
Proof.
  unfold push_match. destruct (MAX_MATCHES <=? size out) eqn:E; [done|]. intros [= <-].
  split; [done|]. unfold size in *. rewrite length_app. simpl. lia.
Qed.

(** Well-formed and not too many. *)
Definition collected (input : bytes) (out : list Match) : Prop :=
  Forall (match_ok input) out ∧ size out ≤ MAX_MATCHES.

Lemma push_collected input out m out' :
  collected input out → match_ok input m → push_match out m = Ok out' → collected input out'.
Proof.
  intros [Ho _] Hm [-> Hs]%push_match_ok. split; [|done]. apply Forall_app. split; [done|]. by constructor.
Qed.

Lemma push_ranges_collected input offset name replacement ranges out out' :
  Forall (λ p : nat * nat, p.1 ≤ p.2 ∧ offset + p.2 ≤ length input)%nat ranges →
  collected input out → push_ranges out input offset name replacement ranges = Ok out' →
  collected input out'.
Proof.
  intros Hr. revert out. induction Hr as [|[a b] ranges [Hab Hb] _ IH]; simpl; intros out Ho E.
  { by inv_ok; subst. }
  simpl in Hab, Hb. inv_ok. eapply IH; [|done]. eapply push_collected; [done| |done].
  split; simpl; [lia|done].
Qed.

Lemma ranges_shift r text offset n :
  (offset + length text ≤ n)%nat →
  Forall (λ p : nat * nat, p.1 ≤ p.2 ∧ offset + p.2 ≤ n)%nat (find_iter r text).
Proof. intros Hn. eapply Forall_impl; [apply find_iter_ranges|]. simpl. intros [a b]. simpl. lia. Qed.

Lemma stretch_collected fuel input offset pattern name replacement out out' :
  collected input out → stretch_loop fuel out input offset pattern name replacement = Ok out' →
  collected input out'.
Proof.
  revert out offset. induction fuel as [|fuel IH]; simpl; intros out offset Ho E; [by inv_ok; subst|].
  destruct (Nat.leb_spec (length input) offset); [by inv_ok; subst|].
  set (r := drop offset input) in *. set (v := valid_up_to 0 (text_of r)) in *.
  assert (∀ out out', collected input out →
    append_text_literal_matches out input offset (take v r) pattern name replacement = Ok out' →
    collected input out') as Happ.
  { intros o o' Hc. apply push_ranges_collected; [|done]. apply ranges_shift.
    subst r. rewrite length_take, length_drop. lia. }
  destruct (Nat.eqb v (length r)); [by eapply Happ|]. inv_ok. eapply IH; [|done].
  destruct (Nat.ltb 0 v); [by eapply Happ|]. by inv_ok; subst.
Qed.

Lemma append_literal_collected input out value name replacement out' :
  collected input out → append_literal out input value name replacement = Ok out' →
  collected input out'.
Proof.
  intros Ho. unfold append_literal. destruct (is_empty value); [by intros; inv_ok; subst|].
  destruct (_ || _); [done|]. destruct (is_ascii value).
  - destruct (build _ _); [|done]. apply push_ranges_collected; [|done]. by apply ranges_shift.
  - destruct (build _ _); [|done]. by apply stretch_collected.
Qed.

Lemma append_literals_collected input out ls out' :
  collected input out → append_literals out input ls = Ok out' → collected input out'.
Proof.
  revert out. induction ls as [|[[v n] m] ls IH]; simpl; intros out Ho E; [by inv_ok; subst|].
  inv_ok. eapply IH; [|done]. by eapply append_literal_collected.
Qed.

Lemma append_captures_collected input rule ranges out out' :
  Forall (λ p : nat * nat, p.1 ≤ p.2 ∧ p.2 ≤ length input)%nat ranges →
  collected input out → append_captures out input rule ranges = Ok out' → collected input out'.
Proof.
  intros Hr. revert out. induction Hr as [|[a b] ranges Hab _ IH]; simpl; intros out Ho E.
  { by inv_ok; subst. }
  destruct (rejected rule _); [by eapply IH|]. inv_ok. eapply IH; [|done].
  eapply push_collected; [done| |done]. by split.
Qed.

Lemma append_rules_collected input rules out out' :
  collected input out → append_rules out input rules = Ok out' → collected input out'.
Proof.
  revert out. induction rules as [|rule rules IH]; simpl; intros out Ho E; [by inv_ok; subst|].
  inv_ok. eapply IH; [|done]. eapply append_captures_collected; [|done..].
  unfold rule_matches. destruct (regex _); [apply find_iter_ranges|constructor].
Qed.

Lemma found_collected input profile found :
  found_matches input profile = Ok found → collected input found.
Proof.
  unfold found_matches. intros E. inv_ok. eapply append_rules_collected; [|done].
  assert (collected input []) by (split; [constructor|done]).
  destruct profile; [by eapply append_literals_collected|]. by inv_ok; subst.
Qed.
End collect.

(** ** Choosing among overlapping matches *)

Lemma match_before_total a b : match_before a b = true ∨ match_before b a = true.
Proof.
  unfold match_before.
  destruct (Nat.ltb_spec (m_start a) (m_start b)), (Nat.ltb_spec (m_start b) (m_start a)),
    (Nat.eqb_spec (m_start a) (m_start b)), (Nat.eqb_spec (m_start b) (m_start a)); simpl; auto; try lia.
  rewrite !Nat.leb_le. lia.
Qed.

Lemma match_before_iff a b :
  match_before a b = true ↔
  (m_start a < m_start b ∨ m_start a = m_start b ∧ m_end b - m_start b ≤ m_end a - m_start a)%nat.
Proof.
  unfold match_before. rewrite orb_true_iff, andb_true_iff, Nat.ltb_lt, Nat.eqb_eq, Nat.leb_le. done.
Qed.

Lemma match_before_trans a b c :
  match_before a b = true → match_before b c = true → match_before a c = true.
Proof. rewrite !match_before_iff. lia. Qed.

(** [m] is what a candidate [c] gave way to: it begins no later, reaches over the
    candidate's first byte, and is not the shorter of two that begin together. *)
Definition covers (m c : Match) : Prop :=
  m = c ∨
  (m_start m ≤ m_start c ∧ m_start c < m_end m ∧ (m_start m = m_start c → m_end c ≤ m_end m))%nat.

Lemma accept_sublist last found : sublist (accept_loop last found) found.
Proof.
  revert last. induction found as [|c found IH]; simpl; intros last; [constructor|].
  destruct last as [e|]; simpl; [destruct (Nat.leb e (m_start c))|]; by constructor.
Qed.

Lemma accept_laid_out n lo last found :
  (lo ≤ n)%nat →
  Forall (λ m, m_start m ≤ m_end m ∧ m_end m ≤ n)%nat found →
  match last with Some e => e = lo | None => lo = 0%nat end →
  laid_out n lo (accept_loop last found).
Proof.
  intros Hlo Hf. revert last lo Hlo. induction Hf as [|c found [Hc Hn] _ IH]; simpl; intros last lo Hlo Hlast; [done|].
  destruct last as [e|]; simpl.
  - subst. destruct (Nat.leb_spec lo (m_start c)); [|by apply IH]. split; [done|]. by apply IH.
  - subst. split; [lia|]. by apply IH.
Qed.

(** [last] is the end of an accepted match that begins no later than the rest. *)
Lemma accept_covers last found c :
  StronglySorted (λ a b, match_before a b = true) found →
  Forall (λ m, m_start m ≤ m_end m)%nat found →
  match last with
  | None => True
  | Some m => Forall (λ d, match_before m d = true) found ∧ (m_start m ≤ m_end m)%nat
  end →
  c ∈ found →
  (∃ m, m ∈ accept_loop (m_end <$> last) found ∧ covers m c) ∨
  (∃ m, last = Some m ∧ covers m c).
Proof.
  intros Hs Hf. revert last. induction Hs as [|d found Hs IH Hd]; intros last Hlast Hc;
    [by apply not_elem_of_nil in Hc|].
  inversion Hf as [|? ? Hde Hf']; subst.
  assert (∀ m, match_before m d = true → (m_start m ≤ m_end m)%nat → Nat.leb (m_end m) (m_start d) = false →
    covers m d) as Hcov.
  { intros m Hm%match_before_iff Hme Hl%Nat.leb_gt. right. lia. }
  simpl. destruct (match m_end <$> last with Some e => Nat.leb e (m_start d) | None => true end) eqn:Efree.
  - left. apply elem_of_cons in Hc as [->|Hc].
    + exists d. split; [left|by left].
    + destruct (IH Hf' (Some d)) as [(m & Hm & Hmc)|(m & [= <-] & Hmc)]; [by split|done|..].
      * exists m. split; [by right|done].
      * exists d. split; [left|done].
  - destruct last as [m|]; [|done]. destruct Hlast as [Hlast Hme].
    inversion Hlast as [|? ? Hmd Hlast']; subst.
    apply elem_of_cons in Hc as [->|Hc].
    + right. exists m. split; [done|]. by apply Hcov.
    + by apply (IH Hf' (Some m)).
Qed.

(** ** Writing *)

Lemma write_loop_weave input pos output ms :
  laid_out (length input) pos ms → write_loop input pos output ms = Ok (output ++ weave input pos ms).
Proof.
  revert pos output. induction ms as [|m ms IH]; simpl; intros pos output Hl.
  - unfold get_range. rewrite (proj2 (Nat.leb_le _ _) Hl), Nat.leb_refl. simpl.
    unfold between_bytes. by rewrite take_ge by (rewrite length_drop; lia).
  - destruct Hl as [[H1 H2] Hl]. pose proof (laid_out_le _ _ _ Hl).
    unfold get_range at 1. rewrite (proj2 (Nat.leb_le _ _) H1), (proj2 (Nat.leb_le _ _)) by lia.
    simpl. rewrite IH by done. by rewrite <-!app_assoc.
Qed.

(** The running length is the length of the text with the matches so far
    replaced; the limit is reached at the first match that passes it. *)
Lemma output_length_spec input pos k n ms :
  laid_out (length input) pos ms → n = k + Z.of_nat (length input - pos) → 0 ≤ k →
  match output_length n ms with
  | Ok n' => n' = k + size (weave input pos ms) ∧ (ms = [] ∨ n' ≤ MAX_OUTPUT_BYTES)
  | Err e => e = OutputTooLarge ∧
      ∃ j, (j ≤ length ms)%nat ∧ MAX_OUTPUT_BYTES < k + size (weave input pos (take j ms))
  end.
Proof.
  revert pos k n. induction ms as [|m ms IH]; simpl; intros pos k n Hl Hn Hk.
  { split; [|by left]. unfold size. rewrite length_drop. lia. }
  destruct Hl as [[H1 H2] Hl]. pose proof (laid_out_le _ _ _ Hl) as Hle.
  set (k' := k + Z.of_nat (m_start m - pos) + size (m_replacement m)).
  assert (0 ≤ size (m_replacement m)) by (unfold size; lia).
  assert (∀ j, k + size (weave input pos (m :: take j ms)) = k' + size (weave input (m_end m) (take j ms)))
    as Hw.
  { intros j. unfold k', size. rewrite length_weave_cons by lia. lia. }
  assert (k' + Z.of_nat (length input - m_end m) = n - Z.of_nat (m_end m - m_start m) + size (m_replacement m))
    as Hn' by (unfold k'; lia).
  assert (MAX_OUTPUT_BYTES < k' + Z.of_nat (length input - m_end m) →
    ∃ j, (j ≤ S (length ms))%nat ∧ MAX_OUTPUT_BYTES < k + size (weave input pos (take j (m :: ms)))) as Hbig.
  { intros Hb. exists 1%nat. split; [lia|]. simpl take. rewrite Hw. simpl. unfold size at 1.
    rewrite length_drop. done. }
  unfold replaced_len. rewrite (proj2 (Z.ltb_ge _ _)) by lia. rewrite <-Hn'.
  assert (MAX_OUTPUT_BYTES < u64_max) by done.
  destruct (Z.ltb_spec u64_max (k' + Z.of_nat (length input - m_end m))); simpl.
  { split; [done|]. apply Hbig. lia. }
  destruct (Z.ltb_spec MAX_OUTPUT_BYTES (k' + Z.of_nat (length input - m_end m))).
  { split; [done|]. by apply Hbig. }
  specialize (IH (m_end m) k' _ Hl eq_refl ltac:(unfold k'; lia)).
  destruct (output_length _ ms) as [n'|e].
  - destruct IH as [-> Hb]. specialize (Hw (length ms)). rewrite firstn_all in Hw. split; [by symmetry|]. right.
    destruct Hb as [->|Hb]; [|done]. simpl in *. unfold size at 1. rewrite length_drop. lia.
  - destruct IH as (-> & j & Hj & Hb). split; [done|]. exists (S j). split; [lia|]. simpl take. by rewrite Hw.
Qed.

Section redact.
Context `{RegexLaws}.

Definition limit_only (e : RedactionError) : Prop := e = MatchLimit.
Definition limit_or_literal (e : RedactionError) : Prop := e = MatchLimit ∨ e = InvalidProfileLiteral.

Lemma limit_weaken {A} (m : result RedactionError A) :
  fails_with limit_only m → fails_with limit_or_literal m.
Proof. intros Hm e He. left. by apply Hm. Qed.

Lemma push_match_fails out m : fails_with limit_only (push_match out m).
Proof. unfold push_match. case_match; eauto with erase. by apply fails_err. Qed.

#[local] Hint Resolve push_match_fails : erase.

Lemma push_ranges_fails out input offset name replacement ranges :
  fails_with limit_only (push_ranges out input offset name replacement ranges).
Proof. revert out. induction ranges as [|[a b] ranges IH]; intros out; simpl; eauto with erase. Qed.

Lemma stretch_fails fuel out input offset pattern name replacement :
  fails_with limit_only (stretch_loop fuel out input offset pattern name replacement).
Proof.
  revert out offset. induction fuel as [|fuel IH]; intros out offset; simpl; [done|].
  destruct (Nat.leb _ _); [done|]. destruct (Nat.eqb _ _); [apply push_ranges_fails|].
  apply fails_bind; [|eauto]. destruct (Nat.ltb _ _); [apply push_ranges_fails|done].
Qed.

Lemma append_literal_fails out input value name replacement :
  fails_with limit_or_literal (append_literal out input value name replacement).
Proof.
  unfold append_literal. destruct (is_empty value); [done|].
  destruct (_ || _); [by apply fails_err; right|].
  destruct (is_ascii value); (destruct (build _ _); [|by apply fails_err; right]); apply limit_weaken;
    [apply push_ranges_fails|apply stretch_fails].
Qed.

Lemma append_literals_fails out input ls : fails_with limit_or_literal (append_literals out input ls).
Proof.
  revert out. induction ls as [|[[v n] m] ls IH]; intros out; simpl; [done|].
  apply fails_bind; [apply append_literal_fails|eauto].
Qed.

Lemma append_captures_fails out input rule ranges :
  fails_with limit_only (append_captures out input rule ranges).
Proof.
  revert out. induction ranges as [|[a b] ranges IH]; intros out; simpl; [done|].
  destruct (rejected _ _); eauto with erase.
Qed.

Lemma append_rules_fails out input rules : fails_with limit_only (append_rules out input rules).
Proof.
  revert out. induction rules as [|rule rules IH]; intros out; simpl; [done|].
  apply fails_bind; [apply append_captures_fails|eauto].
Qed.

Lemma check_literals_fails counters vs : fails_with (.= InvalidProfileLiteral) (check_literals counters vs).
Proof.
  revert counters. induction vs as [|v vs IH]; intros counters; simpl; [done|].
  apply fails_bind; [|eauto]. unfold check_literal.
  destruct (is_empty v); [done|]. destruct (_ || _); [by apply fails_err|]. cbv zeta.
  destruct (_ || _); [by apply fails_err|done].
Qed.

Lemma validate_profile_fails p : fails_with (.= InvalidProfileLiteral) (validate_profile p).
Proof.
  unfold validate_profile. destruct (_ || _); [by apply fails_err|].
  apply fails_bind; [apply check_literals_fails|done].
Qed.

Lemma collect_matches_fails input profile e :
  collect_matches input profile = Err e →
  e = InputTooLarge ∧ MAX_INPUT_BYTES < size input ∨
  size input ≤ MAX_INPUT_BYTES ∧ (e = MatchLimit ∨ e = InvalidProfileLiteral ∧ profile ≠ None).
Proof.
  unfold collect_matches. destruct (Z.ltb_spec MAX_INPUT_BYTES (size input)); [intros [= <-]; auto|].
  intros E. right. split; [lia|]. destruct profile as [p|].
  - assert (limit_or_literal e) as [->| ->]; [|by auto|by auto].
    revert e E. apply fails_bind.
    { intros e He. right. by apply validate_profile_fails in He. }
    intros _. apply fails_bind; [|done]. unfold found_matches.
    apply fails_bind; [apply append_literals_fails|]. intros. apply limit_weaken, append_rules_fails.
  - left. revert e E. cbn [mbind result_bind]. apply fails_bind; [|done].
    exact (append_rules_fails [] input default_rules).
Qed.

Lemma collect_matches_laid_out input profile ms :
  collect_matches input profile = Ok ms →
  laid_out (length input) 0 ms ∧ Forall (match_ok input) ms ∧ size ms ≤ MAX_MATCHES ∧
  ∃ found, found_matches input profile = Ok found ∧
    ∀ c, c ∈ found → ∃ m, m ∈ ms ∧ covers m c.
Proof.
  unfold collect_matches. destruct (_ <? _); [done|]. intros E. inv_ok. subst ms.
  match goal with E : found_matches _ _ = Ok ?f |- _ => rename f into found; rename E into Ef end.
  destruct (found_collected _ _ _ Ef) as [Hok Hn].
  set (sorted := sort_by match_before found).
  assert (∀ m, m ∈ sorted → match_ok input m) as Hs.
  { intros m Hm. rewrite Forall_forall in Hok. apply Hok. by apply elem_of_sort_by in Hm. }
  assert (Forall (λ m, m_start m ≤ m_end m ∧ m_end m ≤ length input)%nat sorted) as Hr.
  { apply Forall_forall. intros m Hm. by destruct (Hs m Hm). }
  pose proof (accept_sublist None sorted) as Hsub.
  assert (StronglySorted (λ a b, match_before a b = true) sorted) as Hsorted
    by (apply sort_by_StronglySorted; [apply match_before_total|apply match_before_trans]).
  split_and!.
  - apply accept_laid_out; [lia|done|done].
  - apply Forall_forall. intros m Hm. apply Hs. by eapply elem_of_sublist.
  - unfold size in *. apply sublist_length in Hsub. subst sorted. rewrite sort_by_length in Hsub. lia.
  - exists found. split; [done|]. intros c Hc.
    destruct (accept_covers None sorted c) as [Hm|(m & ? & _)]; try done.
    + eapply Forall_impl; [exact Hr|]. simpl. lia.
    + by apply elem_of_sort_by.
Qed.

End redact.

(** ** Masks *)

(** The shape its pattern gives a value: a phone number has four digits, the
    numbers have the digits a mask keeps, an address has a name and a host. *)
Definition shaped (kind : Replacement) (value : bytes) : Prop :=
  match kind with
  | RSsn | RPassport => True
  | RPhone => (4 ≤ length (ascii_digits value))%nat
  | RIban => (6 ≤ length value)%nat
  | RGermanId => (2 ≤ length value)%nat
  | RFrenchId => (3 ≤ length value)%nat
  | RSpanishId => (1 ≤ length value)%nat
  | REmail => ∃ at_, position_of "@"%byte value = Some at_ ∧ (0 < at_)%nat ∧
      (at_ + 1 < length value)%nat
  end.

(** What a mask may tell of a value. *)
Definition told (kind : Replacement) (value : bytes) : list bytes * list nat :=
  match kind with
  | RSsn => ([], [])
  | RPhone =>
      let ds := ascii_digits value in
      ([drop (length ds - 4) ds], [if Nat.eqb (length ds) 11 then 1 else 0]%nat)
  | RIban => ([take 2 value; drop (length value - 4) value], [length value])
  | RGermanId => ([drop (length value - 2) value], [])
  | RFrenchId => ([drop (length value - 3) value], [])
  | RSpanishId => ([drop (length value - 1) value], [])
  | REmail =>
      let at_ := default O (position_of "@"%byte value) in
      let domain := drop (at_ + 1) value in
      ([take 1 value; between_bytes (at_ - 1) at_ value; take 1 domain;
        match position_of "."%byte domain with Some dot => "."%byte :: drop (dot + 1) domain | None => [] end],
       [at_])
  | RPassport => ([value], [])
  end.

Lemma last_drop (v : bytes) : (1 ≤ length v)%nat → last v = last (drop (length v - 1) v).
Proof.
  intros Hv. destruct v as [|x v] using rev_ind; [simpl in Hv; lia|].
  rewrite last_snoc, length_app. simpl. rewrite Nat.add_sub, drop_app_length. done.
Qed.

(** A mask tells no more of a value than the few bytes it keeps.  Two values of
    the pattern's shape that agree in what the mask may show - the last digits of a
    number, the ends of an IBAN and its length, the ends of a mail address's name
    and what follows the first label of its host - get the same replacement, so
    nothing else of the value can be read from the redacted text. *)
Theorem replace_tells_only `{RegexEngine} kind v v' :
  shaped kind v → shaped kind v' → told kind v = told kind v' → replace kind v = replace kind v'.
Proof.
  destruct kind; simpl; intros Hv Hv' Ht.
  - destruct Hv as (a & Ea & Ha & Hl), Hv' as (a' & Ea' & Ha' & Hl').
    unfold scrub_email. rewrite Ea, Ea' in Ht |- *. simpl in Ht.
    injection Ht as H1 H2 H3 H4 <-. rewrite (proj2 (Nat.eqb_neq a 0)) by lia.
    assert (∀ w : bytes, (a + 1 < length w)%nat → drop (a + 1) w ≠ []) as Hne.
    { intros w Hw E. apply (f_equal length) in E. rewrite length_drop in E. simpl in E. lia. }
    specialize (Hne v Hl) as Hd. specialize (Hne v' Hl') as Hd'.
    destruct (drop (a + 1) v) as [|d ds]; [done|]. destruct (drop (a + 1) v') as [|d' ds']; [done|].
    simpl in H3. injection H3 as <-. rewrite H1, H2. revert H4.
    destruct (position_of "."%byte (d :: ds)), (position_of "."%byte (d :: ds')); intros H4;
      try discriminate H4; [|done]. injection H4 as H4. by rewrite H4.
  - injection Ht as H1 H2. unfold scrub_phone.
    rewrite (proj2 (Nat.ltb_ge _ _) Hv), (proj2 (Nat.ltb_ge _ _) Hv'), H1. f_equal.
    by destruct (Nat.eqb (length (ascii_digits v)) 11), (Nat.eqb (length (ascii_digits v')) 11).
  - done.
  - injection Ht as H1 H2 H3. unfold mask_parts. simpl Nat.add.
    rewrite (proj2 (Nat.ltb_ge _ _) Hv), (proj2 (Nat.ltb_ge _ _) Hv'), H1, H2. by rewrite H3.
  - injection Ht as H1. unfold suffix_mask.
    by rewrite (proj2 (Nat.ltb_ge _ _) Hv), (proj2 (Nat.ltb_ge _ _) Hv'), H1.
  - injection Ht as H1. unfold suffix_mask.
    by rewrite (proj2 (Nat.ltb_ge _ _) Hv), (proj2 (Nat.ltb_ge _ _) Hv'), H1.
  - injection Ht as H1. by rewrite (last_drop v), (last_drop v'), H1.
  - by injection Ht as ->.
Qed.

(** ** Review *)

(** The answers of a callback, up to the first [Quit]. *)
Fixpoint answers {St} (decide_match : Match → St → Action * St) (ms : list Match) (w : St) :
    list (Match * Action) :=
  match ms with
  | [] => []
  | m :: ms =>
      let '(action, w) := decide_match m w in
      match action with Quit => [] | _ => (m, action) :: answers decide_match ms w end
  end.

Definition is_action (a : Action) (p : Match * Action) : bool :=
  match a, p.2 with Keep, Keep | Redact, Redact | Skip, Skip | Quit, Quit => true | _, _ => false end.

(** The matches that were answered with [a]. *)
Definition chosen (a : Action) (l : list (Match * Action)) : list Match :=
  List.map fst (List.filter (is_action a) l).

Lemma validate_laid_out input index last_end n ms :
  (last_end ≤ length input)%nat → validate_loop input index last_end n ms = Ok () →
  laid_out (length input) last_end ms ∧
  Forall (λ m, match_ok input m ∧ m_start m < m_end m)%nat ms.
Proof.
  revert index last_end n. induction ms as [|m ms IH]; simpl; intros index last_end n Hle E; [done|].
  destruct (match_is_valid input last_end m) eqn:Ev; simpl in E; [|done].
  unfold match_is_valid in Ev. rewrite negb_true_iff, !orb_false_iff in Ev.
  destruct Ev as [[[[H1%Nat.ltb_ge H2%Nat.leb_gt] H3%Nat.ltb_ge] H4] _].
  apply negb_false_iff, bool_decide_eq_true in H4. unfold get_range in H4.
  rewrite (proj2 (Nat.leb_le (m_start m) _)), (proj2 (Nat.leb_le (m_end m) _)) in H4 by lia. simpl in H4.
  inv_ok. destruct (MAX_OUTPUT_BYTES <? _); [done|].
  apply IH in E as [Hl Hf]; [|lia]. split; [split; [lia|done]|]. constructor; [|done].
  split; [|done]. split; [lia|]. congruence.
Qed.

Section review.
Context {St : Type} (decide_match : Match → St → Action * St).

Lemma chosen_sublist ms w a : sublist (chosen a (answers decide_match ms w)) ms.
Proof.
  revert w. induction ms as [|m ms IH]; intros w; simpl; [constructor|].
  destruct (decide_match m w) as [[] w']; unfold chosen in *; simpl;
    destruct a; simpl; try (by constructor); by apply sublist_nil_l.
Qed.

(** What the loop has written, with the input still to come. *)
Lemma review_loop_spec input ms s w s' q w' :
  laid_out (length input) (rs_position s) ms →
  review_loop decide_match input ms s w = Ok (s', q, w') →
  let l := answers decide_match ms w in
  rs_output s' ++ drop (rs_position s') input =
    rs_output s ++ weave input (rs_position s) (chosen Redact l) ∧
  rs_redacted s' = (rs_redacted s + length (chosen Redact l))%nat ∧
  rs_kept s' = (rs_kept s + length (chosen Keep l))%nat ∧
  rs_skipped s' = (rs_skipped s + length (chosen Skip l))%nat ∧
  (rs_redacted s' = rs_redacted s → rs_position s' = rs_position s ∧ rs_output s' = rs_output s) ∧
  (q = false → length l = length ms).
Proof.
  revert s w. induction ms as [|m ms IH]; intros s w Hl E; cbv zeta.
  { injection E as <- <- <-. simpl. split_and!; auto. }
  cbn [review_loop answers] in *. destruct Hl as [[H1 H2] Hl].
  pose proof (laid_out_le _ _ _ Hl) as Hle.
  destruct (decide_match m w) as [[] w1]; unfold chosen; simpl.
  - apply IH in E as (E1 & E2 & E3 & E4 & E5 & E6); [|simpl; eapply laid_out_weaken; [|done]; lia].
    simpl in *. unfold chosen in *. split_and!; try done; [lia|lia|]. intros Hq. by rewrite E6.
  - unfold redact_step in E. destruct (MAX_OUTPUT_BYTES <? _); [done|]. simpl in E.
    apply IH in E as (E1 & E2 & E3 & E4 & E5 & E6); [|done].
    simpl in *. unfold chosen in *. split_and!; try done; [|lia|lia|].
    + by rewrite E1, <-!app_assoc.
    + intros Hq. by rewrite E6.
  - apply IH in E as (E1 & E2 & E3 & E4 & E5 & E6); [|simpl; eapply laid_out_weaken; [|done]; lia].
    simpl in *. unfold chosen in *. split_and!; try done; [lia|lia|]. intros Hq. by rewrite E6.
  - injection E as <- <- <-. simpl. split_and!; auto. done.
Qed.

(** A review changes exactly what the user chose.  When [review_bytes] answers,
    the matches were disjoint non-empty ranges of the input with their texts; the
    output is the input with just those matches replaced that were answered with
    [Redact] before the user quit, the counters say how many were redacted, kept
    and skipped, [changed] says whether anything was, and without [quit] every
    match was asked about. *)
Theorem review_bytes_spec input ms w res w' :
  review_bytes decide_match input ms w = Ok (res, w') →
  let l := answers decide_match ms w in
  laid_out (length input) 0 ms ∧ Forall (λ m, match_ok input m ∧ m_start m < m_end m)%nat ms ∧
  rv_output res = weave input 0 (chosen Redact l) ∧
  rv_redacted res = length (chosen Redact l) ∧ rv_kept res = length (chosen Keep l) ∧
  rv_skipped res = length (chosen Skip l) ∧
  (rv_changed res = true ↔ chosen Redact l ≠ []) ∧
  (rv_quit res = false → length l = length ms).
Proof.
  unfold review_bytes. destruct (_ <? _); [done|]. destruct (_ <? _); [done|]. intros E. cbv zeta.
  apply result_bind_ok in E as ([] & Ev & E). apply result_bind_ok in E as ([[s q] w1] & Er & E).
  destruct (_ && _); [done|]. injection E as <- <-. simpl.
  apply validate_laid_out in Ev as [Hl Hf]; [|lia].
  apply review_loop_spec in Er as (E1 & E2 & E3 & E4 & E5 & E6); [|done]. simpl in *.
  split_and!; try done.
  - destruct (Nat.ltb_spec 0 (rs_redacted s)); [done|].
    rewrite <-E1. destruct E5 as [-> ->]; [lia|]. done.
  - rewrite Nat.ltb_lt, E2. destruct (chosen Redact _); simpl; [|split; [done|lia]].
    split; [lia|done].
Qed.
End review.

(** ** Reviewing and redacting agree *)

Definition always_redact {St} (_ : Match) (w : St) : Action * St := (Redact, w).

(** The loops of validation, of the output's length and of the review keep the same
    running length. *)
Lemma loops_agree {St} input (w : St) n n' index ms s :
  laid_out (length input) (rs_position s) ms →
  Forall (λ m, match_ok input m ∧ m_start m < m_end m)%nat ms →
  n = size (rs_output s) + Z.of_nat (length input - rs_position s) →
  output_length n ms = Ok n' →
  validate_loop input index (rs_position s) n ms = Ok () ∧
  ∃ s', review_loop always_redact input ms s w = Ok (s', false, w) ∧
    n' = size (rs_output s') + Z.of_nat (length input - rs_position s').
Proof.
  revert index n s. induction ms as [|m ms IH]; intros index n s Hl Hf Hn E.
  { injection E as <-. simpl. eauto. }
  destruct Hl as [[H1 H2] Hl]. pose proof (laid_out_le _ _ _ Hl) as Hle.
  inversion Hf as [|? ? [[_ Hv] Hlt] Hf']; subst.
  cbn [output_length validate_loop review_loop] in *. unfold always_redact at 1.
  assert (0 ≤ size (m_replacement m) ∧ 0 ≤ size (rs_output s)) as [Hr Ho] by (unfold size; lia).
  apply result_bind_ok in E as (n & En & E).
  destruct (replaced_len _ m) as [x|] eqn:En'; [|done]. injection En as ->. rename En' into En. simpl.
  destruct (Z.ltb_spec MAX_OUTPUT_BYTES n) as [|Hmax]; [done|].
  unfold replaced_len in En. revert En. rewrite (proj2 (Z.ltb_ge _ _)) by lia. cbv zeta.
  destruct (u64_max <? _); [done|]. intros [= En].
  assert (match_is_valid input (rs_position s) m = true) as ->.
  { unfold match_is_valid, get_range. rewrite negb_true_iff, !orb_false_iff.
    rewrite Nat.ltb_ge, Nat.leb_gt, Nat.ltb_ge, Z.ltb_ge.
    rewrite (proj2 (Nat.leb_le (m_start m) _)), (proj2 (Nat.leb_le (m_end m) _)) by lia. simpl.
    rewrite bool_decide_eq_true_2 by congruence. split_and!; try done; lia. }
  unfold redact_step. rewrite (proj2 (Z.ltb_ge _ _)) by lia. simpl.
  apply (IH (S index) n {| rs_position := m_end m; rs_output := _; rs_redacted := _; rs_kept := _; rs_skipped := _ |});
    simpl; try done.
  unfold size in *. rewrite !length_app, length_between by lia. lia.
Qed.

Lemma chosen_always {St} ms (w : St) :
  answers always_redact ms w = List.map (λ m, (m, Redact)) ms ∧
  chosen Redact (answers always_redact ms w) = ms ∧
  chosen Keep (answers always_redact ms w) = [] ∧ chosen Skip (answers always_redact ms w) = [].
Proof.
  induction ms as [|m ms (IH1 & IH2 & IH3 & IH4)]; [done|]. simpl. unfold chosen in *. simpl.
  by rewrite IH1, IH2, IH3, IH4 in *.
Qed.

(** C24: reviewing with yes to everything is redacting.  When [redact_bytes] answers
    and the patterns found no empty text, the review of the very matches it collected
    passes the checks and, with a callback that always answers [Redact], gives the
    same output, counts every match and reports a change exactly when there was a
    match. *)
Theorem review_all_is_redact `{RegexLaws} {St} input profile ms output (w : St) :
  redact_bytes input profile = Ok output → collect_matches input profile = Ok ms →
  Forall (λ m, m_start m < m_end m)%nat ms →
  review_bytes always_redact input ms w =
  Ok ({| rv_output := output; rv_changed := bool_decide (ms ≠ []); rv_quit := false;
         rv_redacted := length ms; rv_kept := 0; rv_skipped := 0 |}, w).
Proof.
  intros Er Ec Hne. destruct (collect_matches_laid_out _ _ _ Ec) as (Hl & Hok & Hn & _).
  unfold redact_bytes in Er. rewrite Ec in Er. simpl in Er.
  apply result_bind_ok in Er as (n & En & Ew). rewrite (write_loop_weave _ _ _ _ Hl) in Ew.
  injection Ew as Ew. simpl in Ew.
  set (s0 := {| rs_position := 0; rs_output := []; rs_redacted := 0; rs_kept := 0; rs_skipped := 0 |}).
  destruct (loops_agree input w (size input) n 0 ms s0) as (Hv & s' & Hs & Hn');
    [done|by apply Forall_and|unfold size; simpl; lia|done|].
  pose proof (review_loop_spec _ input ms s0 w _ _ _ Hl Hs) as (E1 & E2 & E3 & E4 & E5 & _).
  destruct (chosen_always ms w) as (_ & Hc1 & Hc2 & Hc3). rewrite Hc1 in E1, E2. rewrite Hc2 in E3. rewrite Hc3 in E4.
  simpl in E1, E2, E3, E4. unfold review_bytes.
  assert (MAX_INPUT_BYTES <? size input = false) as ->.
  { unfold collect_matches in Ec. by destruct (MAX_INPUT_BYTES <? size input). }
  rewrite (proj2 (Z.ltb_ge _ _) Hn). 
  change (validate_matches input ms = Ok ()) in Hv. rewrite Hv. cbn [mbind result_bind]. fold s0. rewrite Hs. simpl.
  assert (bool_decide (ms ≠ []) = Nat.ltb 0 (length ms)) as -> by by destruct ms.
  rewrite E1, E2, E3, E4, Ew. destruct ms as [|m ms]; [by subst output|].
  change (Nat.ltb 0 (length (m :: ms))) with true. cbn [andb].
  pose proof (output_length_spec input 0 0 (size input) (m :: ms) Hl ltac:(unfold size; lia) ltac:(lia)) as Ho.
  rewrite En in Ho. destruct Ho as [Ho [|Hmax]]; [done|].
  rewrite Ho, Z.add_0_l, Ew in Hmax. by rewrite (proj2 (Z.ltb_ge _ _)).
Qed.

(* ------------------------------------------------------------------ *)
(** ** A concrete engine, for the witnesses and the golden texts *)

Module Engine.
Inductive rx :=
| Cls (p : byte → bool)
| Seq (r s : rx)
| Alt (r s : rx)
| Rep (lo hi : nat) (r : rx)
| Word                       (** a word boundary *)
| Mark (r : rx).             (** the group that is asked for *)

(** The byte before, the bytes to come, and where the group begins and ends, as
    the number of bytes to come. *)
Record state := { before : option byte; rest : bytes; group : option (nat * nat) }.

Definition is_word (b : byte) : bool :=
  is_digit b || between 65 90 (bval b) || between 97 122 (bval b) || bool_decide (b = "_"%byte).

Definition at_boundary (s : state) : bool :=
  xorb (match before s with Some b => is_word b | None => false end)
       (match rest s with b :: _ => is_word b | [] => false end).

(** Leftmost-first matching with backtracking. *)
Fixpoint mt (fuel : nat) (r : rx) (s : state) (k : state → option state) : option state :=
  match fuel with
  | O => None
  | S fuel =>
      match r with
      | Cls p =>
          match rest s with
          | b :: rest =>
              if p b then k {| before := Some b; rest := rest; group := group s |} else None
          | [] => None
          end
      | Seq r1 r2 => mt fuel r1 s (λ s, mt fuel r2 s k)
      | Alt r1 r2 => match mt fuel r1 s k with Some x => Some x | None => mt fuel r2 s k end
      | Rep _ O _ => k s
      | Rep (S lo) (S hi) r => mt fuel r s (λ s, mt fuel (Rep lo hi r) s k)
      | Rep O (S hi) r =>
          match mt fuel r s (λ s, mt fuel (Rep O hi r) s k) with Some x => Some x | None => k s end
      | Word => if at_boundary s then k s else None
      | Mark r =>
          mt fuel r s (λ s', k {| before := before s'; rest := rest s';
                                  group := Some (length (rest s), length (rest s')) |})
      end
  end.

Definition run (r : rx) (before : option byte) (s : bytes) : option state :=
  mt 1000 r {| before := before; rest := s; group := None |} Some.

(** The matches from [pos] on, each after the one before. *)
Fixpoint scan (fuel pos : nat) (r : rx) (before : option byte) (s : bytes) : list (nat * nat) :=
  match fuel, s with
  | S fuel, b :: s' =>
      match run r before s with
      | Some e =>
          let n := (length s - length (rest e))%nat in
          if Nat.eqb n 0 then scan fuel (S pos) r (Some b) s'
          else (pos, pos + n)%nat :: scan fuel (pos + n) r (Engine.before e) (rest e)
      | None => scan fuel (S pos) r (Some b) s'
      end
  | _, _ => []
  end.

Definition chars (t : string) (b : byte) : bool := bool_decide (b ∈ lit t).
Definition upper (b : byte) : bool := between 65 90 (bval b).
Definition lower (b : byte) : bool := between 97 122 (bval b).
Definition alnum (b : byte) : bool := is_digit b || upper b || lower b.
Definition space (b : byte) : bool := chars " " b || between 9 13 (bval b).
Definition fold (b : byte) : byte := to_ascii_uppercase b.

Definition text (t : string) : rx :=
  List.fold_right (λ b r, Seq (Cls (λ c, bool_decide (fold c = fold b))) r) (Rep 0 0 Word) (lit t).

Fixpoint seq (l : list rx) : rx :=
  match l with [] => Rep 0 0 Word | [r] => r | r :: l => Seq r (seq l) end.

Definition label : rx :=
  Seq (Cls alnum) (Rep 0 1 (Seq (Rep 0 61 (Cls (λ b, alnum b || chars "-" b))) (Cls alnum))).
Definition dash : rx := Rep 0 1 (Cls (chars "- ")).
Definition phone_gap : rx := Rep 0 1 (Cls (λ b, space b || chars ".-" b)).

(** The patterns of [default_rules], in their order; the repetition of an address's
    labels is cut to what the examples need. *)
Definition patterns : list rx :=
  [seq [Word; Rep 2 2 (Cls upper); Rep 2 2 (Cls is_digit);
        Rep 11 30 (Cls (λ b, upper b || is_digit b)); Word];
   seq [Word; Cls (λ b, between 65 76 (bval b)); Rep 8 8 (Cls is_digit); Rep 0 1 (Cls upper); Word];
   seq [Word; Cls (chars "12"); Rep 2 2 (Cls is_digit);
        Alt (Seq (Cls (chars "0")) (Cls (λ b, between 49 57 (bval b))))
            (Seq (Cls (chars "1")) (Cls (chars "012")));
        Rep 8 8 (Cls is_digit); Rep 0 1 (Rep 2 2 (Cls is_digit)); Word];
   seq [Word; Rep 8 8 (Cls is_digit); Cls (λ b, upper b && negb (chars "IOU" b)); Word];
   seq [Alt (text "passport") (Alt (seq [text "travel"; Rep 0 9 (Cls space); text "document"])
          (text "reisedokument"));
        Rep 0 9 (Cls space); Rep 0 1 (Alt (text "#") (Alt (text "no") (Alt (text "num") (text "number"))));
        Rep 0 9 (Cls space); Rep 0 1 (Cls (chars ":.")); Rep 0 9 (Cls space);
        Mark (Rep 6 9 (Cls alnum)); Word];
   seq [Word; Rep 3 3 (Cls is_digit); dash; Rep 2 2 (Cls is_digit); dash; Rep 4 4 (Cls is_digit); Word];
   seq [Rep 1 64 (Cls (λ b, alnum b || chars ".!#$%&'*+/=?^_`{|}~-" b)); Cls (chars "@"); label;
        Rep 0 8 (Seq (Cls (chars ".")) label)];
   seq [Rep 0 1 (seq [Rep 0 1 (Cls (chars "+")); Cls (chars "1"); phone_gap]);
        Rep 0 1 (Cls (chars "(")); Rep 3 3 (Cls is_digit); Rep 0 1 (Cls (chars ")")); phone_gap;
        Rep 3 3 (Cls is_digit); phone_gap; Rep 4 4 (Cls is_digit)]].

Definition table : list (string * rx) := zip (List.map r_pattern default_rules) patterns.

Definition lookup (o : RegexOptions) (pattern : string) : option rx :=
  if case_insensitive o then Some (text pattern)
  else snd <$> find (λ p : string * rx, String.eqb (fst p) pattern) table.

Definition inside (input : bytes) (p : nat * nat) : bool :=
  Nat.leb p.1 p.2 && Nat.leb p.2 (length input).

#[export] Instance engine : RegexEngine := {|
  Regex := rx;
  escape := id;
  build := lookup;
  find_iter r input := List.filter (inside input) (scan (S (length input)) 0 r None input);
  capture r n input :=
    e ← run r None input; g ← group e;
    Some (length input - g.1, length input - g.2)%nat;
|}.

#[export] Instance engine_laws : RegexLaws.
Proof.
  constructor. intros r input. apply Forall_forall. intros [a b] H.
  apply list_elem_of_In, filter_In in H as [_ H]. unfold inside in H.
  rewrite andb_true_iff, !Nat.leb_le in H. exact H.
Qed.
End Engine.
#[export] Existing Instances Engine.engine Engine.engine_laws.

Definition jane : RedactionProfile :=
  {| rp_full_name := "Jane Doe"; rp_name_variants := []; rp_email_addresses := ["jane.doe@example.com"];
     rp_phone_numbers := ["555-123-4567"];
     rp_addresses := [{| ra_street := "Main Street 5"; ra_city := "Berlin"; ra_postal_code := "10115" |}] |}.

(** The shared corpus of the repository, [internal/redaction/testdata/golden.json],
    and a text of its unit tests. *)
Example golden_corpus :
  List.map (λ t, redact_text t None)
    ["Contact: jane.doe@example.com"; "Call 555-123-4567 anytime"; "SSN: 123-45-6789 on file";
     "IBAN: DE89370400440532013000 for payment"; "Personalausweis: L12345678 erfasst";
     "NIR: 185017510812342 is the SSN"; "DNI: 12345678Z registrado"; "Passport #: AB123456 was issued";
     "Tracking code: AB123456 for shipment"; "passportABC123"] =
  List.map Ok
    ["Contact: j******e@e*.com"; "Call ***-***-4567 anytime"; "SSN: ***-**-**** on file";
     "IBAN: DE********************3000 for payment"; "Personalausweis: *******78 erfasst";
     "NIR: ***342 is the SSN"; "DNI: ****-****-Z registrado"; "Passport #: ******56 was issued";
     "Tracking code: AB123456 for shipment"; "passport****23"].
Proof. vm_compute. reflexivity. Qed.

Example golden_profile :
  redact_text "jane.doe@EXAMPLE.com / JANE DOE / 555-123-4567 / MAIN STREET 5" (Some jane) =
  Ok "[REDACTED-EMAIL] / [REDACTED-NAME] / [REDACTED-PHONE] / [REDACTED-STREET]".
Proof. vm_compute. reflexivity. Qed.

(** A match that begins inside a chosen one is given up whole: what of it reaches
    further stays in the text. *)
Example overlapping_tail_stays :
  redact_text "Anna Bergstrasse 5"
    (Some {| rp_full_name := "Anna Berg"; rp_name_variants := []; rp_email_addresses := [];
             rp_phone_numbers := [];
             rp_addresses := [{| ra_street := "Bergstrasse 5"; ra_city := ""; ra_postal_code := "" |}] |}) =
  Ok "[REDACTED-NAME]strasse 5".
Proof. vm_compute. reflexivity. Qed.

(** ** Witnesses *)

Definition note : bytes := lit "SSN: 123-45-6789, mail jane@example.com".

Definition note_matches : list Match := default [] (ok (collect_matches note None)).


Lemma review_all_is_redact_witness :
  ∃ output, redact_bytes note None = Ok output ∧
  review_bytes always_redact note note_matches () =
  Ok ({| rv_output := output; rv_changed := true; rv_quit := false;
         rv_redacted := 2; rv_kept := 0; rv_skipped := 0 |}, ()).
Proof.
  eexists. split; [vm_compute; reflexivity|].
  apply (review_all_is_redact note None note_matches); [vm_compute; reflexivity..|].
  vm_compute. repeat constructor.
Defined.

(** The user redacts the first match and quits at the second. *)
Definition redact_then_quit (_ : Match) (n : nat) : Action * nat :=
  (match n with O => Redact | _ => Quit end, S n).

Lemma review_bytes_spec_witness :
  ∃ res, review_bytes redact_then_quit note note_matches 0%nat = Ok (res, 2%nat) ∧
    rv_quit res = true ∧ text_of (rv_output res) = "SSN: ***-**-****, mail jane@example.com" ∧
    rv_output res = weave note 0 (chosen Redact (answers redact_then_quit note_matches 0%nat)).
Proof.
  eexists. split; [vm_compute; reflexivity|]. split; [reflexivity|]. split; [vm_compute; reflexivity|].
  refine (proj1 (proj2 (proj2 (review_bytes_spec redact_then_quit note note_matches 0%nat _ 2%nat _)))).
  vm_compute. reflexivity.
Defined.

Lemma replace_tells_only_witness :
  replace RPhone (lit "(030) 555-4567") = replace RPhone (lit "111.222.4567").
Proof.
  apply (replace_tells_only RPhone); [vm_compute; lia..|vm_compute; reflexivity].
Defined.
