(* ===== verification/Workspace.v ===== *)
(** Reading a file of the MCP workspace: [core/redaction/path.rs].

    The crate [cap-std] (directory handles), [fs::canonicalize] and the current
    directory are the class [CapFs].  Every call carries the moment at which it is
    made, so the file tree may change between any two of them. *)
From S2P Require Import Prelude.
From S2P Require Import Text.
From S2P Require Import Encryption.
From S2P Require Import Disk.
From S2P Require Import Scheduler.
From S2P Require Import SchedulerFacts.
From S2P Require Import McpTools.
From S2P Require Import Redaction.
From Stdlib Require Import Ascii Strings.Byte.

#[local] Notation length := List.length.

(** ** Errors *)

Definition MAX_FILE_BYTES : Z := Z.shiftl 16 20.

Inductive WorkspaceRootError :=
| InvalidPath
| NullByte
| OutsideWorkspace
| RootUnavailable
| WorkspaceIo (e : ioError)
| NotRegularFile
| FileTooLarge.

Definition WorkspaceRootError_display (e : WorkspaceRootError) : string :=
  match e with
  | InvalidPath => "path is not a safe workspace-relative file name"
  | NullByte => "path contains a null byte"
  | OutsideWorkspace => "path is outside the MCP workspace"
  | RootUnavailable => "workspace root is unavailable"
  | WorkspaceIo _ => "workspace file read failed"
  | NotRegularFile => "workspace target is not a regular file"
  | FileTooLarge => "workspace file exceeds the maximum size"
  end.

(** ** Names *)

(** A drive letter. *)
Definition drive_prefix (s : string) : bool :=
  match s with String c (String ":" _) => is_ascii_alphabetic c | _ => false end.

(** [Component::Normal] *)
Definition normal_name (c : Component) : option string :=
  match c with Normal name => Some name | _ => None end.

Fixpoint normal_names (l : list Component) : result WorkspaceRootError (list string) :=
  match l with
  | [] => Ok []
  | c :: l => name ← ok_or InvalidPath (normal_name c); names ← normal_names l; Ok (name :: names)
  end.

Definition validate_relative (relative : string) : result WorkspaceRootError (list string) :=
  if str_existsb (Ascii.eqb zero) relative then Err NullByte
  else if is_empty relative || contains "\" relative || contains_control relative
  then Err InvalidPath
  else
    let raw_parts := split "/" relative in
    if str_in ".." raw_parts then Err OutsideWorkspace
    else if existsb (λ part, is_empty part || (part =? ".")%string) raw_parts then Err InvalidPath
    else if drive_prefix relative then Err OutsideWorkspace
    else if starts_with "/" relative then Err OutsideWorkspace
    else
      names ← normal_names (components relative);
      match names with [] => Err InvalidPath | _ => Ok names end.

(** ** Relative paths *)

(** [path.file_name()] *)
Definition file_name_of (path : string) : option string :=
  let name := file_name path in if is_empty name then None else Some name.

Definition skippable (part : string) : bool := is_empty part || (part =? ".")%string.

Fixpoint trim_parts (parts : list string) : list string :=
  match parts with part :: parts' => if skippable part then trim_parts parts' else parts | [] => [] end.

(** The parts after those that name the given components. *)
Fixpoint strip_parts (prefix : list Component) (parts : list string) : option (list string) :=
  match prefix with
  | [] => Some parts
  | c :: prefix =>
      match trim_parts parts with
      | part :: parts => if bool_decide (component_of part = Some c) then strip_parts prefix parts else None
      | [] => None
      end
  end.

(** [path.strip_prefix(base)] of two absolute paths: what is left, as it stands in
    the path but for empty parts at its ends. *)
Definition path_strip_prefix (path base : string) : option string :=
  parts ← strip_parts (tail (components base)) (split "/" path);
  Some (join "/" (rev (trim_parts (rev (trim_parts parts))))).

(** ** Files *)

Record FileStat := { st_is_file : bool; st_is_dir : bool; st_len : Z; st_dev : Z; st_ino : Z }.

Class CapFs := {
  Dir : Type;
  File : Type;
  canonicalize : nat → string → result ioError string;
  process_current_dir : nat → result ioError string;
  open_ambient_dir : nat → string → result ioError Dir;
  dir_metadata : nat → Dir → result ioError FileStat;
  try_clone : nat → Dir → result ioError Dir;
  open_dir_nofollow : nat → Dir → string → result ioError Dir;
  symlink_metadata : nat → Dir → string → result ioError FileStat;
  open_nofollow : nat → Dir → string → result ioError File;
  file_metadata : nat → File → result ioError FileStat;
  read_up_to : nat → File → Z → result ioError bytes;
  (** the texts of the errors the code makes up *)
  not_a_directory : ioError;
  invalid_data : ioError;
}.

(** A program: the moment is passed on and moves with every call. *)
Definition io (A : Type) : Type := nat → result WorkspaceRootError A * nat.

#[export] Instance io_ret : MRet io := λ A a t, (Ok a, t).
#[export] Instance io_bind : MBind io := λ A B f m t,
  match m t with (Ok a, t) => f a t | (Err e, t) => (Err e, t) end.

Definition throw {A} (e : WorkspaceRootError) : io A := λ t, (Err e, t).
Definition lift {A} (m : result WorkspaceRootError A) : io A := λ t, (m, t).

(** A call that fails with [WorkspaceRootError::Io] ([map_open_error]). *)
Definition call {A} (f : nat → result ioError A) : io A := λ t, (map_err WorkspaceIo (f t), S t).

(** A call whose failure the code looks at. *)
Definition attempt {A} (f : nat → result ioError A) : io (result ioError A) := λ t, (Ok (f t), S t).

Section workspace.
Context `{CapFs}.

Record WorkspaceRoot := { wr_dir : Dir; wr_canonical : string }.

Definition same_file (expected opened : FileStat) : bool :=
  (st_dev expected =? st_dev opened) && (st_ino expected =? st_ino opened).

Definition WorkspaceRoot_open (path : string) : io WorkspaceRoot :=
  canonical ← call (λ t, canonicalize t path);
  probe ← call (λ t, open_ambient_dir t canonical);
  pre_open ← call (λ t, dir_metadata t probe);
  if negb (st_is_dir pre_open) then throw (WorkspaceIo not_a_directory)
  else
    dir ← call (λ t, open_ambient_dir t canonical);
    opened ← call (λ t, dir_metadata t dir);
    if negb (same_file pre_open opened) then throw OutsideWorkspace
    else mret {| wr_dir := dir; wr_canonical := canonical |}.

Definition WorkspaceRoot_current : io WorkspaceRoot :=
  dir ← call process_current_dir; WorkspaceRoot_open dir.

(** [path.to_str()]: the text of a path is UTF-8 or it has none. *)
Definition to_str (path : string) : result WorkspaceRootError string :=
  if is_utf8 (String.list_byte_of_string path) then Ok path else Err InvalidPath.

Definition relative_path (root : WorkspaceRoot) (path : string) : io string :=
  if negb (starts_with "/" path) then lift (to_str path)
  else
    resolved ← attempt (λ t, canonicalize t path);
    absolute ← match resolved with
      | Ok canonical => mret canonical
      | Err _ =>
          dir ← lift (ok_or InvalidPath (parent path));
          resolved ← attempt (λ t, canonicalize t dir);
          match resolved with
          | Ok dir => name ← lift (ok_or InvalidPath (file_name_of path)); mret (path_join dir name)
          | Err _ => mret path
          end
      end;
    relative ← lift (ok_or OutsideWorkspace (path_strip_prefix absolute (wr_canonical root)));
    if is_empty relative then throw OutsideWorkspace else lift (to_str relative).

(** The directories down to the file's. *)
Fixpoint descend (parent : Dir) (names : list string) : io Dir :=
  match names with
  | [] => mret parent
  | name :: names => parent ← call (λ t, open_dir_nofollow t parent name); descend parent names
  end.

Definition read_open_file (file : File) : io bytes :=
  metadata ← call (λ t, file_metadata t file);
  if negb (st_is_file metadata) then throw NotRegularFile
  else if MAX_FILE_BYTES <? st_len metadata then throw FileTooLarge
  else
    data ← call (λ t, read_up_to t file (MAX_FILE_BYTES + 1));
    if MAX_FILE_BYTES <? size data then throw FileTooLarge else mret data.

Definition WorkspaceRoot_read (root : WorkspaceRoot) (relative : string) : io bytes :=
  relative ← relative_path root relative;
  names ← lift (validate_relative relative);
  parent ← call (λ t, try_clone t (wr_dir root));
  file_name ← lift (ok_or InvalidPath (last names));
  parent ← descend parent (removelast names);
  metadata ← call (λ t, symlink_metadata t parent file_name);
  if negb (st_is_file metadata) then throw NotRegularFile
  else
    file ← call (λ t, open_nofollow t parent file_name);
    read_open_file file.

Definition read_workspace_file (path : string) (root : option string) : io bytes :=
  root ← match root with
         | Some path => WorkspaceRoot_open path
         | None => WorkspaceRoot_current
         end;
  relative ← lift (to_str path);
  WorkspaceRoot_read root relative.

Definition read_workspace_text (path : string) (root : option string) : io string :=
  data ← read_workspace_file path root;
  if is_utf8 data then mret (text_of data) else throw (WorkspaceIo invalid_data).
End workspace.

(* ------------------------------------------------------------------ *)
(** ** What a validated name is *)

Lemma normal_names_ok l names : normal_names l = Ok names → l = Normal <$> names.
Proof.
  revert names. induction l as [|c l IH]; simpl; intros names E; [by inv_ok; subst|].
  inv_ok. subst. destruct c; try done. simpl in *. inv_ok. subst. f_equal. by apply IH.
Qed.

Lemma normal_names_map names : normal_names (Normal <$> names) = Ok names.
Proof. induction names as [|n names IH]; [done|]. csimpl. by rewrite IH. Qed.

Lemma components_names s :
  Forall component_name (split "/" s) → starts_with "/" s = false ∧ components s = Normal <$> split "/" s.
Proof.
  intros Hn. assert (starts_with "/" s = false) as Hs.
  { destruct s as [|c s]; [done|]. unfold starts_with. cbn [strip_prefix].
    destruct (Ascii.eqb_spec "/" c) as [<-|]; [|done]. cbn in Hn. inversion Hn as [|? ? (? & _)]; done. }
  split; [done|]. unfold components. rewrite Hs.
  destruct (split "/" s) as [|p ps] eqn:E; [done|].
  inversion Hn as [|? ? Hp Hps]; subst. destruct Hp as (H1 & H2 & H3 & H4).
  rewrite (proj2 (String.eqb_neq p ".") H2). cbn [app].
  assert (Forall component_name (p :: ps)) as Hall by (by constructor).
  clear - Hall. induction Hall as [|x l Hx _ IH]; [done|].
  cbn [omap list_omap]. rewrite component_of_name by done. csimpl. by f_equal.
Qed.

(** What makes a text a name below the workspace. *)
Definition safe_text (s : string) : Prop :=
  str_existsb (Ascii.eqb zero) s = false ∧ contains "\" s = false ∧
  contains_control s = false ∧ drive_prefix s = false.

(** A relative name is accepted exactly when every one of its parts between
    slashes is a plain file name and the text has no backslash, control character
    or drive letter; the parts are then what is walked. *)
Theorem validate_relative_iff s names :
  validate_relative s = Ok names ↔
  safe_text s ∧ names = split "/" s ∧ Forall component_name names.
Proof.
  unfold validate_relative, safe_text. split.
  - destruct (str_existsb _ s) eqn:H1; [done|].
    destruct (is_empty s || _ || _) eqn:H2; [done|].
    apply orb_false_iff in H2 as [[H2 H3]%orb_false_iff H4].
    destruct (str_in ".." _) eqn:H5; [done|]. destruct (existsb _ (split _ _)) eqn:H6; [done|].
    destruct (drive_prefix s) eqn:H7; [done|]. destruct (starts_with "/" s); [done|].
    intros E. apply result_bind_ok in E as (l & El & E).
    assert (Forall component_name (split "/" s)) as Hn.
    { apply Forall_forall. intros p Hp. split_and!.
      - intros ->. apply not_true_iff_false in H6. apply H6, existsb_exists. exists "".
        split; [by apply list_elem_of_In|done].
      - intros ->. apply not_true_iff_false in H6. apply H6, existsb_exists. exists ".".
        split; [by apply list_elem_of_In|done].
      - intros ->. apply not_true_iff_false in H5. by apply H5, str_in_spec.
      - pose proof (split_no_slash s) as Hf. rewrite Forall_forall in Hf. by apply Hf. }
    destruct (components_names s Hn) as [_ Hc]. rewrite Hc, normal_names_map in El. injection El as <-.
    destruct (split "/" s); [done|]. injection E as <-. done.
  - intros ((H1 & H2 & H3 & H4) & -> & Hn). destruct (components_names s Hn) as [Hs Hc].
    rewrite H1, H2, H3, H4, Hs, Hc.
    assert (is_empty s = false) as ->.
    { destruct s; [|done]. cbn in Hn. by inversion Hn as [|? ? (? & _)]. }
    assert (str_in ".." (split "/" s) = false) as ->.
    { apply not_true_iff_false. intros Hin%str_in_spec. rewrite Forall_forall in Hn.
      by destruct (Hn _ Hin) as (_ & _ & ? & _). }
    assert (existsb (λ part, is_empty part || (part =? ".")%string) (split "/" s) = false) as ->.
    { apply not_true_iff_false. intros (p & Hp%list_elem_of_In & Hpe)%existsb_exists.
      rewrite Forall_forall in Hn. destruct (Hn p Hp) as (E1 & E2 & _).
      apply orb_true_iff in Hpe as [?%is_empty_spec|?%String.eqb_eq]; done. }
    cbn [orb]. rewrite normal_names_map. cbn [mbind result_bind].
    destruct (split "/" s) eqn:E; [|done].
    pose proof (join_split "/" s) as Hj. rewrite E in Hj. cbn in Hj. subst s. done.
Qed.

(* ------------------------------------------------------------------ *)
(** ** A read stays in the workspace *)

(** What handles denote.  [entry a name b]: at the moment of the call, [b] was what
    directory [a] held under [name], and no symbolic link. *)
Class CapLaws `{CapFs} := {
  Node : Type;
  dir_node : Dir → Node;
  file_node : File → Node;
  entry : Node → string → Node → Prop;
  try_clone_same t d d' : try_clone t d = Ok d' → dir_node d' = dir_node d;
  open_dir_entry t d name d' : open_dir_nofollow t d name = Ok d' → entry (dir_node d) name (dir_node d');
  open_file_entry t d name f : open_nofollow t d name = Ok f → entry (dir_node d) name (file_node f);
}.

(** Walking down by names. *)
Inductive reaches `{CapLaws} : Node → list string → Node → Prop :=
| reaches_nil n : reaches n [] n
| reaches_cons a name b names c : entry a name b → reaches b names c → reaches a (name :: names) c.

Section confined.
Context `{CapLaws}.

Lemma io_bind_ok {A B} (m : io A) (f : A → io B) t b t' :
  (m ≫= f) t = (Ok b, t') ↔ ∃ a t1, m t = (Ok a, t1) ∧ f a t1 = (Ok b, t').
Proof. unfold mbind, io_bind. destruct (m t) as [[a|e] t1]; naive_solver. Qed.

Lemma call_ok {A} (f : nat → result ioError A) t a t' : call f t = (Ok a, t') ↔ f t = Ok a ∧ t' = S t.
Proof. unfold call. destruct (f t); simpl; naive_solver. Qed.

Lemma workspace_lift_ok {A} (m : result WorkspaceRootError A) t a t' : lift m t = (Ok a, t') ↔ m = Ok a ∧ t' = t.
Proof. unfold lift. naive_solver. Qed.

Lemma reaches_app a names b names' c : reaches a names b → reaches b names' c → reaches a (names ++ names') c.
Proof. induction 1; simpl; [done|]. intros. econstructor; eauto. Qed.

Lemma descend_reaches d names t d' t' :
  descend d names t = (Ok d', t') → reaches (dir_node d) names (dir_node d').
Proof.
  revert d t. induction names as [|name names IH]; simpl; intros d t.
  - intros [= <- <-]. constructor.
  - intros (d1 & t1 & [E _]%call_ok & E')%io_bind_ok. econstructor; [by eapply open_dir_entry|by eapply IH].
Qed.

Lemma read_open_file_ok f t data t' :
  read_open_file f t = (Ok data, t') →
  size data ≤ MAX_FILE_BYTES ∧ ∃ t1, read_up_to t1 f (MAX_FILE_BYTES + 1) = Ok data.
Proof.
  unfold read_open_file. intros (st & t1 & _ & E)%io_bind_ok.
  destruct (st_is_file st); [|done]. cbn [negb] in E. destruct (_ <? st_len st); [done|].
  apply io_bind_ok in E as (x & t2 & [Er _]%call_ok & E).
  destruct (Z.ltb_spec MAX_FILE_BYTES (size x)); [done|]. injection E as -> ->. eauto.
Qed.

(** C25: what is read lies in the workspace.  Whatever path is asked for and however
    the file tree changes between the calls, the bytes that [WorkspaceRoot::read]
    gives are those of a file reached from the root's own handle by plain file names
    alone, no step of which was a symbolic link; a relative path names exactly its
    parts between slashes, and no more than the limit is read. *)
Theorem workspace_read_confined root path t data t' :
  WorkspaceRoot_read root path t = (Ok data, t') →
  ∃ names f t1, names ≠ [] ∧ Forall component_name names ∧
    reaches (dir_node (wr_dir root)) names (file_node f) ∧
    read_up_to t1 f (MAX_FILE_BYTES + 1) = Ok data ∧ size data ≤ MAX_FILE_BYTES ∧
    (starts_with "/" path = false → names = split "/" path).
Proof.
  unfold WorkspaceRoot_read. intros (rel & t1 & Erel & E)%io_bind_ok.
  apply io_bind_ok in E as (names & t2 & [En ->]%workspace_lift_ok & E).
  apply io_bind_ok in E as (d & t3 & [Ed ->]%call_ok & E).
  apply io_bind_ok in E as (name & t4 & [El ->]%workspace_lift_ok & E).
  apply io_bind_ok in E as (d' & t5 & Edesc & E).
  apply io_bind_ok in E as (st & t6 & _ & E). destruct (st_is_file st); [|done]. cbn [negb] in E.
  apply io_bind_ok in E as (f & t7 & [Ef ->]%call_ok & [Hsize [tr Hread]]%read_open_file_ok).
  apply validate_relative_iff in En as (_ & Hnames & Hok).
  assert (names = removelast names ++ [name]) as Hsplit.
  { destruct names as [|x l _] using rev_ind; [done|]. rewrite last_snoc in El. injection El as <-.
    by rewrite removelast_last. }
  exists names, f, tr. split_and!; try done.
  - intros ->. done.
  - rewrite Hsplit. eapply reaches_app.
    + rewrite <-(try_clone_same _ _ _ Ed). by eapply descend_reaches.
    + econstructor; [by eapply open_file_entry|constructor].
  - intros Hp. unfold relative_path in Erel. rewrite Hp in Erel. cbn [negb] in Erel.
    apply workspace_lift_ok in Erel as [Erel _]. unfold to_str in Erel. destruct (is_utf8 _); [|done].
    injection Erel as <-. done.
Qed.
End confined.

(* ------------------------------------------------------------------ *)
(** ** A concrete tree, for the witness *)

Module Tree.
Inductive node := Directory | Plain (data : bytes) | Link.

(** A workspace [/work] with a note, a link out of it, and a secret beside it. *)
Definition tree (path : list string) : option node :=
  match path with
  | [] | ["work"] | ["work"; "in"] => Some Directory
  | ["work"; "in"; "note.txt"] => Some (Plain (lit "note"))
  | ["work"; "out.txt"] => Some Link
  | ["secret.txt"] => Some (Plain (lit "secret"))
  | _ => None
  end.

Definition missing : ioError := IoError NotFound "no such file".

Definition open_kind (want : node → bool) (path : list string) : result ioError (list string) :=
  match tree path with Some n => if want n then Ok path else Err missing | None => Err missing end.

Definition is_directory (n : node) : bool := match n with Directory => true | _ => false end.
Definition is_plain (n : node) : bool := match n with Plain _ => true | _ => false end.

Definition stat (path : list string) : result ioError FileStat :=
  match tree path with
  | Some n =>
      Ok {| st_is_file := is_plain n; st_is_dir := is_directory n;
            st_len := match n with Plain data => size data | _ => 0 end; st_dev := 0; st_ino := 0 |}
  | None => Err missing
  end.

Definition names (path : string) : list string := omap normal_name (components path).

#[export] Instance tree_fs : CapFs := {|
  Dir := list string;
  File := list string;
  canonicalize _ path := if bool_decide (tree (names path) = None) then Err missing else Ok path;
  process_current_dir _ := Ok "/work";
  open_ambient_dir _ path := open_kind is_directory (names path);
  dir_metadata _ d := stat d;
  try_clone _ d := Ok d;
  open_dir_nofollow _ d name := open_kind is_directory (d ++ [name]);
  symlink_metadata _ d name := stat (d ++ [name]);
  open_nofollow _ d name := open_kind is_plain (d ++ [name]);
  file_metadata _ f := stat f;
  read_up_to _ f n :=
    match tree f with Some (Plain data) => Ok (take (Z.to_nat n) data) | _ => Err missing end;
  not_a_directory := missing;
  invalid_data := missing;
|}.

Lemma open_kind_ok want path path' : open_kind want path = Ok path' → path' = path ∧ tree path ≠ Some Link ∨ want Link = true.
Proof.
  unfold open_kind. destruct (tree path) as [[|data|]|]; [..|done].
  - destruct (want Directory); [|done]. intros [= <-]. by left.
  - destruct (want (Plain data)); [|done]. intros [= <-]. by left.
  - destruct (want Link); [auto|done].
Qed.

#[export] Program Instance tree_laws : CapLaws := {|
  Node := list string;
  dir_node d := d;
  file_node f := f;
  entry a name b := b = a ++ [name] ∧ tree b ≠ Some Link;
|}.
Next Obligation. intros t d d' [= <-]. done. Qed.
Next Obligation. by intros t d name d' [[-> ?]|?]%open_kind_ok. Qed.
Next Obligation. by intros t d name f [[-> ?]|?]%open_kind_ok. Qed.
End Tree.
#[export] Existing Instances Tree.tree_fs Tree.tree_laws.

Definition work : WorkspaceRoot := {| wr_dir := ["work"]; wr_canonical := "/work" |}.

Example workspace_reads :
  (read_workspace_text "in/note.txt" (Some "/work") 0%nat).1 = Ok "note" ∧
  (read_workspace_text "/work/in/note.txt" None 0%nat).1 = Ok "note" ∧
  List.map (λ p, (WorkspaceRoot_read work p 0%nat).1)
    ["../secret.txt"; "/secret.txt"; "out.txt"; "in"; "in//note.txt"; "C:x"] =
  [Err OutsideWorkspace; Err OutsideWorkspace; Err NotRegularFile; Err NotRegularFile;
   Err InvalidPath; Err OutsideWorkspace].
Proof. vm_compute. done. Qed.

Lemma workspace_read_confined_witness :
  ∃ names (f : File) t1, names ≠ [] ∧ Forall component_name names ∧
    reaches (dir_node (wr_dir work)) names (file_node f) ∧
    read_up_to t1 f (MAX_FILE_BYTES + 1) = Ok (lit "note") ∧ size (lit "note") ≤ MAX_FILE_BYTES ∧
    (starts_with "/" "in/note.txt" = false → names = split "/" "in/note.txt").
Proof. apply (workspace_read_confined work "in/note.txt" 0%nat (lit "note") 6%nat). vm_compute. reflexivity. Defined.
