(* ===== verification/Configuration.v ===== *)
(** Configuration: [core/config.rs] and [core/email/config.rs].

    Paths are their UTF-8 text.  The file system is one function from a path to
    what reading it as text gives; the TOML crate is the class [Toml], which gives
    a document's top-level table in the order the crate iterates it. *)
From S2P Require Import Prelude.
From S2P Require Import Text.
From S2P Require Import Encryption.
From S2P Require Import Disk.
From S2P Require Import MailParse.
From S2P Require Import Inbox.
From S2P Require Import SecretResolve.
From S2P Require Import Scheduler.
From Stdlib Require Import Ascii.

(* ------------------------------------------------------------------ *)
(** ** config.rs *)

Definition DEFAULT_DATA_DIR : string := "~/.local/share/symeraseme".
Definition DEFAULT_PORT : Z := 8000.
Definition CONFIG_DIR : string := "symeraseme".
Definition CONFIG_FILE : string := "config.toml".
Definition PROJECT_FILE : string := ".symeraseme.toml".
Definition DATABASE_FILE : string := "symeraseme.db".

Record ConfigContext := {
  home_dir : string;
  context_dir : string;            (** [current_dir] *)
  environment : gmap string string;
}.

Definition with_env (c : ConfigContext) (name value : string) : ConfigContext :=
  {| home_dir := home_dir c; context_dir := context_dir c; environment := <[name := value]> (environment c) |}.

Record Config := {
  data_dir : string;
  db_dir : string;
  encrypt_db : bool;
  port : Z;
  allow_remote : bool;
}.

Record Storage := {
  sg_data_dir : string;
  sg_db_dir : string;
  sg_db_path : string;
  sg_temp_dir : string;
  sg_encrypt_db : bool;
}.

Inductive ConfigError :=
| Context (message : string)
| ConfigIo (scope : string)
| Parse (scope : string)
| Field (scope field message : string)
| Validation (field message : string).

Definition error_field (e : ConfigError) : option string :=
  match e with
  | Field _ field _ | Validation field _ => Some field
  | Context _ | ConfigIo _ | Parse _ => None
  end.

Definition ConfigError_display `{RustFmt} (e : ConfigError) : string :=
  match e with
  | Context message => "configuration context: " +:+ message
  | ConfigIo scope => scope +:+ " configuration could not be read"
  | Parse scope => scope +:+ " configuration is malformed TOML"
  | Field scope field message =>
      scope +:+ " configuration field " +:+ debug_str field +:+ ": " +:+ message
  | Validation field message => "configuration field " +:+ debug_str field +:+ ": " +:+ message
  end.

(** [toml::Value]; the kinds the code does not look into are [TomlOther]. *)
Inductive toml :=
| TomlString (s : string)
| TomlInteger (n : Z)
| TomlBoolean (b : bool)
| TomlTable (entries : list (string * toml))
| TomlOther.

Class Toml := { toml_from_str : string → option toml }.

(** [fs::read_to_string] *)
Class ConfigFiles := { read_to_string : string → result ioError string }.

Definition defaults : Config :=
  {| data_dir := DEFAULT_DATA_DIR; db_dir := ""; encrypt_db := false; port := DEFAULT_PORT;
     allow_remote := false |}.

Definition is_absolute (p : string) : bool := starts_with "/" p.

Definition validate_context (c : ConfigContext) : result ConfigError () :=
  if is_empty (home_dir c) || negb (is_absolute (home_dir c))
  then Err (Context "home directory must be absolute")
  else if is_empty (context_dir c) || negb (is_absolute (context_dir c))
  then Err (Context "current directory must be absolute")
  else if str_existsb (Ascii.eqb zero) (home_dir c) || str_existsb (Ascii.eqb zero) (context_dir c)
  then Err (Context "directories must not contain NUL bytes")
  else Ok ().

(** An environment variable that names an absolute directory. *)
Definition absolute_var (c : ConfigContext) (name : string) : option string :=
  match environment c !! name with
  | Some path => if negb (is_empty path) && is_absolute path then Some path else None
  | None => None
  end.

Definition global_config_path (c : ConfigContext) : string :=
  path_join (path_join (default (path_join (home_dir c) ".config") (absolute_var c "XDG_CONFIG_HOME"))
    CONFIG_DIR) CONFIG_FILE.

Definition is_supported_key (key : string) : bool :=
  str_in key ["data_dir"; "db_dir"; "encrypt_db"; "port"; "allow_remote"].

Definition field_error (scope field message : string) : ConfigError :=
  Field scope (if is_supported_key field then field else "unknown") message.

Definition parse_bool (v : toml) : result string bool :=
  match v with
  | TomlBoolean value => Ok value
  | TomlInteger value =>
      if value =? 0 then Ok false else if value =? 1 then Ok true
      else Err "integer boolean must be 0 or 1"
  | TomlString value =>
      let text := to_ascii_lowercase (trim value) in
      if str_in text ["1"; "true"; "yes"; "on"] then Ok true
      else if str_in text ["0"; "false"; "no"; "off"] then Ok false
      else Err "boolean must be true/false, yes/no, on/off, or 1/0"
  | _ => Err "must be a boolean"
  end.

(** [i32::try_from] *)
Definition to_i32 (n : Z) : option Z :=
  if (-2147483648 <=? n) && (n <=? 2147483647) then Some n else None.

Definition parse_int (v : toml) : result string Z :=
  parsed ← match v with
           | TomlInteger value => Ok value
           | TomlString value => ok_or "must be an integer" (parse_i64 (trim value))
           | _ => Err "must be an integer"
           end;
  ok_or "must be an integer" (to_i32 parsed).

Definition set_data_dir (c : Config) (v : string) : Config :=
  {| data_dir := v; db_dir := db_dir c; encrypt_db := encrypt_db c; port := port c;
     allow_remote := allow_remote c |}.
Definition set_db_dir (c : Config) (v : string) : Config :=
  {| data_dir := data_dir c; db_dir := v; encrypt_db := encrypt_db c; port := port c;
     allow_remote := allow_remote c |}.
Definition set_encrypt_db (c : Config) (v : bool) : Config :=
  {| data_dir := data_dir c; db_dir := db_dir c; encrypt_db := v; port := port c;
     allow_remote := allow_remote c |}.
Definition set_port (c : Config) (v : Z) : Config :=
  {| data_dir := data_dir c; db_dir := db_dir c; encrypt_db := encrypt_db c; port := v;
     allow_remote := allow_remote c |}.
Definition set_allow_remote (c : Config) (v : bool) : Config :=
  {| data_dir := data_dir c; db_dir := db_dir c; encrypt_db := encrypt_db c; port := port c;
     allow_remote := v |}.

(** A directory's text. *)
Definition parse_dir (v : toml) : result string string :=
  match v with
  | TomlString value => if is_empty (trim value) then Err "must not be empty" else Ok value
  | _ => Err "must be a string"
  end.

Definition apply_value (config : Config) (key : string) (v : toml) (scope : string) :
    result ConfigError Config :=
  if (key =? "data_dir")%string then
    value ← map_err (field_error scope key) (parse_dir v); Ok (set_data_dir config value)
  else if (key =? "db_dir")%string then
    value ← map_err (field_error scope key) (parse_dir v); Ok (set_db_dir config value)
  else if (key =? "encrypt_db")%string then
    parsed ← map_err (field_error scope key) (parse_bool v); Ok (set_encrypt_db config parsed)
  else if (key =? "allow_remote")%string then
    parsed ← map_err (field_error scope key) (parse_bool v); Ok (set_allow_remote config parsed)
  else if (key =? "port")%string then
    parsed ← map_err (field_error scope key) (parse_int v); Ok (set_port config parsed)
  else Err (field_error scope key "unknown field").

Fixpoint apply_table (config : Config) (table : list (string * toml)) (scope : string) :
    result ConfigError Config :=
  match table with
  | [] => Ok config
  | (key, value) :: table =>
      if is_supported_key key then
        config ← apply_value config key value scope; apply_table config table scope
      else apply_table config table scope
  end.

Definition ENV_FIELDS : list (string * string) :=
  [("SYMERASEME_DATA_DIR", "data_dir"); ("SYMERASEME_DB_DIR", "db_dir");
   ("SYMERASEME_ENCRYPT_DB", "encrypt_db"); ("SYMERASEME_PORT", "port");
   ("SYMERASEME_ALLOW_REMOTE", "allow_remote")].

(** The error of a variable names it. *)
Definition rescope (scope : string) (e : ConfigError) : ConfigError :=
  match e with Field _ field message => Field scope field message | other => other end.

Fixpoint apply_variables (config : Config) (env : gmap string string) (fields : list (string * string)) :
    result ConfigError Config :=
  match fields with
  | [] => Ok config
  | (name, field) :: fields =>
      match env !! name with
      | None => apply_variables config env fields
      | Some value =>
          if is_empty value then apply_variables config env fields
          else
            config ← map_err (rescope name) (apply_value config field (TomlString value) "environment");
            apply_variables config env fields
      end
  end.

Definition apply_environment (config : Config) (c : ConfigContext) : result ConfigError Config :=
  apply_variables config (environment c) ENV_FIELDS.

Definition validate_raw_path (raw field : string) : result ConfigError () :=
  if is_empty (trim raw) then Err (Validation field "must not be empty")
  else if str_existsb (Ascii.eqb zero) raw then Err (Validation field "must not contain a NUL byte")
  else Ok ().

Definition validate_config (c : Config) : result ConfigError () :=
  if negb ((1 <=? port c) && (port c <=? 65535)) then Err (Validation "port" "must be within 1..65535")
  else
    _ ← validate_raw_path (data_dir c) "data_dir";
    if is_empty (db_dir c) then Ok () else validate_raw_path (db_dir c) "db_dir".

(** [cleaned] holds its last component first. *)
Definition clean_absolute_step (cleaned : list Component) (c : Component) : list Component :=
  match c with
  | RootDir => [RootDir]
  | CurDir => cleaned
  | ParentDir => match cleaned with Normal _ :: rest => rest | _ => cleaned end
  | Normal part => Normal part :: cleaned
  end.

Definition clean_absolute (path : string) : string :=
  push_components (rev (foldl clean_absolute_step [] (components path))).

Definition resolve_path (raw field : string) (c : ConfigContext) : result ConfigError string :=
  _ ← validate_raw_path raw field;
  let path :=
    if (raw =? "~")%string then home_dir c
    else match strip_prefix "~/" raw with
         | Some rest => path_join (home_dir c) rest
         | None => raw
         end in
  let path := if is_absolute path then path else path_join (context_dir c) path in
  Ok (clean_absolute path).

Section config.
Context `{ConfigFiles} `{Toml}.
(** [cfg(target_os = "macos")] *)
Context (macos : bool).

Definition merge_file (config : Config) (path scope : string) : result ConfigError Config :=
  match read_to_string path with
  | Err error =>
      match kind error with NotFound => Ok config | _ => Err (ConfigIo scope) end
  | Ok contents =>
      match toml_from_str contents with
      | Some (TomlTable table) => apply_table config table scope
      | _ => Err (Parse scope)
      end
  end.

Definition project_config_path (c : ConfigContext) : string := path_join (context_dir c) PROJECT_FILE.

Definition load (c : ConfigContext) : result ConfigError Config :=
  _ ← validate_context c;
  config ← merge_file defaults (global_config_path c) "global";
  config ← merge_file config (project_config_path c) "project";
  config ← apply_environment config c;
  _ ← validate_config config;
  Ok config.

Definition user_cache_dir (c : ConfigContext) : string :=
  if macos then path_join (path_join (home_dir c) "Library") "Caches"
  else default (path_join (home_dir c) ".cache") (absolute_var c "XDG_CACHE_HOME").

Definition default_encrypted_temp_dir (c : ConfigContext) : result ConfigError string :=
  _ ← validate_context c;
  Ok (clean_absolute (path_join (path_join (user_cache_dir c) CONFIG_DIR) "database")).

Definition resolve_storage (c : ConfigContext) : result ConfigError Storage :=
  config ← load c;
  data ← resolve_path (data_dir config) "data_dir" c;
  db ← (if is_empty (db_dir config) then Ok data else resolve_path (db_dir config) "db_dir" c);
  temp ← default_encrypted_temp_dir c;
  Ok {| sg_data_dir := data; sg_db_dir := db; sg_db_path := path_join db DATABASE_FILE;
        sg_temp_dir := temp; sg_encrypt_db := encrypt_db config |}.
End config.

(* ------------------------------------------------------------------ *)
(** ** email/config.rs *)

Record ImapConfigOptions := {
  oauth2_access_token : option string;
  oauth2_username : option string;
}.

Definition PASSWORD_ENV : string := "IMAP_PASSWORD".
Definition OAUTH2_ENV : string := "IMAP_OAUTH2_ACCESS_TOKEN".

Definition env_value (name : string) (env : gmap string string) : option string := env !! name.

Definition env_default (name fallback : string) (env : gmap string string) : string :=
  default fallback (filter_nonempty (env !! name)).

Definition env_bool `{Lowercase} (name : string) (fallback : bool) (env : gmap string string) : bool :=
  match env !! name with
  | None => fallback
  | Some value =>
      let text := to_lowercase (trim value) in
      if is_empty text then fallback
      else if str_in text ["1"; "true"; "yes"; "on"] then true
      else if str_in text ["0"; "false"; "no"; "off"] then false
      else fallback
  end.

Definition env_int (name : string) (fallback : Z) (env : gmap string string) : Z :=
  match parse_i64 <$> env !! name with
  | Some (Some value) => if 0 <=? value then value else fallback
  | _ => fallback
  end.

Definition env_port (name : string) (fallback : Z) (env : gmap string string) : result string Z :=
  match filter_nonempty (env !! name) with
  | None => Ok fallback
  | Some value =>
      match parse_i64 value with
      | Some port =>
          if (1 <=? port) && (port <=? 65535) then Ok port
          else Err ("email: " +:+ name +:+ " must be a valid TCP port")
      | None => Err ("email: " +:+ name +:+ " must be a valid TCP port")
      end
  end.

Section imap.
Context `{RustFmt} `{Lowercase} {B : Type} `{SecretBackend B}.

Definition oauth2_resolver (username : string) (explicit_token : bool) (env : gmap string string) :
    SecretResolver :=
  let resolver :=
    set_keyring_username (set_keyring_service (SecretResolver_with_environment env) "symeraseme-oauth2")
      ("oauth2:" +:+ username +:+ ":access_token") in
  if explicit_token then resolver else set_env_fallback resolver OAUTH2_ENV.

Definition resolve_imap_oauth2_from (access_token username : string) (explicit_token : bool)
    (env : gmap string string) (w : B) : result string (option OAuth2Token) * B :=
  if is_empty access_token then (Ok None, w)
  else
    let '(resolved, w) := resolve (oauth2_resolver username explicit_token env) w access_token in
    (match resolved with
     | Err error =>
         Err ("email: cannot resolve IMAP OAuth2 access token: " +:+ SecretResolutionError_str error)
     | Ok resolved =>
         if is_empty resolved then Err "email: cannot resolve IMAP OAuth2 access token: empty value"
         else Ok (Some {| oa_username := username; oa_access_token := resolved |})
     end, w).

Definition password_resolver (env : gmap string string) : SecretResolver :=
  set_keyring_username
    (set_keyring_service (set_env_fallback (SecretResolver_with_environment env) PASSWORD_ENV)
       "symeraseme-imap") PASSWORD_ENV.

(** The password: resolved unless a token is there or nothing is set. *)
Definition imap_password (oauth2 : option OAuth2Token) (env : gmap string string) (w : B) :
    result string string * B :=
  let password := default "" (env_value PASSWORD_ENV env) in
  match oauth2 with
  | Some _ => (Ok password, w)
  | None =>
      if is_empty password then (Ok password, w)
      else
        let '(resolved, w) := resolve (password_resolver env) w password in
        (map_err (λ error, "email: cannot resolve IMAP password: " +:+ SecretResolutionError_str error)
           resolved, w)
  end.

Definition load_imap_config_with (options : ImapConfigOptions) (env : gmap string string) (w : B) :
    result string ImapConfig * B :=
  match env_port "IMAP_PORT" 993 env with
  | Err error => (Err error, w)
  | Ok port =>
      let username := default "" (env_value "IMAP_USERNAME" env) in
      let oauth_username := default "" (env_value "IMAP_OAUTH2_USERNAME" env) in
      let oauth_username := if is_empty oauth_username then username else oauth_username in
      let oauth_username := default oauth_username (filter_nonempty (oauth2_username options)) in
      let explicit := filter_nonempty (oauth2_access_token options) in
      let access_token := default (default "" (env_value OAUTH2_ENV env)) explicit in
      let explicit_token := match explicit with Some _ => true | None => false end in
      let '(oauth2, w) := resolve_imap_oauth2_from access_token oauth_username explicit_token env w in
      match oauth2 with
      | Err error => (Err error, w)
      | Ok oauth2 =>
          let '(password, w) := imap_password oauth2 env w in
          (match password with
           | Err error => Err error
           | Ok password =>
               Ok {| ic_host := env_default "IMAP_HOST" "imap.gmail.com" env; ic_port := port;
                     ic_username := username; ic_password := password;
                     ic_use_tls := env_bool "IMAP_SSL" true env;
                     ic_folder := env_default "IMAP_FOLDER" "INBOX" env;
                     ic_since_days := env_int "IMAP_SINCE_DAYS" 14 env;
                     ic_max_messages := env_int "IMAP_MAX_MESSAGES" 50 env;
                     ic_oauth2 := oauth2; ic_timeout_seconds := 0;
                     ic_allow_insecure_cleartext_auth := false |}
           end, w)
      end
  end.
End imap.
