(* ===== verification/ConfigurationFacts.v ===== *)
(** What loading the configuration gives: which source decides a setting, that the
    resolved paths are absolute and clean, that errors show nothing, and how the
    mail settings come about. *)
From S2P Require Import Prelude.
From S2P Require Import Text.
From S2P Require Import Disk.
From S2P Require Import Inbox.
From S2P Require Import SecretResolve.
From S2P Require Import Scheduler.
From S2P Require Import SchedulerFacts.
From S2P Require Import Configuration.
From Stdlib Require Import Ascii.

(** ** Which source decides *)

(** The value that decides a setting: the last one given for it. *)
Definition last_value (key : string) (settings : list (string * toml)) : option toml :=
  snd <$> last (filter (λ s, s.1 = key) settings).

(** Its parsed form, or the default. *)
Definition decided {A} (parse : toml → result string A) (dflt : A) (v : option toml) : A :=
  default dflt (v ≫= λ v, ok (parse v)).

Definition overlaid (c : Config) (settings : list (string * toml)) : Config :=
  {| data_dir := decided parse_dir (data_dir c) (last_value "data_dir" settings);
     db_dir := decided parse_dir (db_dir c) (last_value "db_dir" settings);
     encrypt_db := decided parse_bool (encrypt_db c) (last_value "encrypt_db" settings);
     port := decided parse_int (port c) (last_value "port" settings);
     allow_remote := decided parse_bool (allow_remote c) (last_value "allow_remote" settings) |}.

(** A setting whose value has the form of its key. *)
Definition well_formed (s : string * toml) : bool :=
  let '(key, v) := s in
  if str_in key ["data_dir"; "db_dir"] then is_ok (parse_dir v)
  else if str_in key ["encrypt_db"; "allow_remote"] then is_ok (parse_bool v)
  else if (key =? "port")%string then is_ok (parse_int v)
  else false.

Definition supported (table : list (string * toml)) : list (string * toml) :=
  filter (λ s, is_supported_key s.1 = true) table.

(** The settings of the environment. *)
Definition variable_setting (env : gmap string string) (f : string * string) : option (string * toml) :=
  value ← filter_nonempty (env !! f.1); Some (f.2, TomlString value).

Definition env_settings (env : gmap string string) : list (string * toml) :=
  omap (variable_setting env) ENV_FIELDS.

Lemma last_value_cons key s l :
  last_value key (s :: l) =
  match last_value key l with
  | Some v => Some v
  | None => if bool_decide (s.1 = key) then Some s.2 else None
  end.
Proof.
  unfold last_value. rewrite filter_cons. destruct (decide (s.1 = key)) as [E|E].
  - rewrite last_cons, bool_decide_eq_true_2 by done. by destruct (last (filter _ l)).
  - rewrite bool_decide_eq_false_2 by done. by destruct (last (filter _ l)).
Qed.

Lemma last_value_in key l v : last_value key l = Some v → (key, v) ∈ l.
Proof.
  unfold last_value. intros ([k v'] & Hl & ->)%fmap_Some. simpl.
  apply last_Some_elem_of in Hl. apply list_elem_of_filter in Hl as [E Hin]. simpl in E. by subst.
Qed.

Lemma decided_cons {A} (parse : toml → result string A) d key s l :
  (∀ v, (key, v) ∈ l → is_ok (parse v) = true) →
  decided parse d (last_value key (s :: l)) =
  decided parse (decided parse d (last_value key [s])) (last_value key l).
Proof.
  intros Hok. rewrite !last_value_cons. change (last_value key []) with (@None toml). cbn [default].
  destruct (last_value key l) as [v|] eqn:E; [|by destruct (bool_decide _)].
  apply last_value_in in E. apply Hok in E. unfold decided. simpl. by destruct (parse v).
Qed.

Lemma overlaid_cons c s l :
  Forall (λ s, well_formed s = true) l → overlaid c (s :: l) = overlaid (overlaid c [s]) l.
Proof.
  intros Hl. rewrite Forall_forall in Hl. unfold overlaid at 1 2. cbn [data_dir db_dir encrypt_db port allow_remote overlaid].
  f_equal; apply decided_cons; intros v Hv; by apply Hl in Hv.
Qed.

Lemma last_value_single key k v :
  last_value key [(k, v)] = if (k =? key)%string then Some v else None.
Proof.
  rewrite last_value_cons. simpl. destruct (String.eqb_spec k key) as [->|Hne].
  - by rewrite bool_decide_eq_true_2.
  - by rewrite bool_decide_eq_false_2.
Qed.

(** A step that parses the value and sets the field. *)
Ltac set_field parsed :=
  unfold overlaid; rewrite !last_value_single; cbn; unfold decided; cbn;
  destruct parsed; cbn; split;
    [intros [= <-]; split; reflexivity|intros [_ ->]; reflexivity|discriminate|intros [? _]; discriminate].

(** Applying one value is overlaying one setting. *)
Lemma apply_value_iff c key v scope c' :
  apply_value c key v scope = Ok c' ↔ well_formed (key, v) = true ∧ c' = overlaid c [(key, v)].
Proof.
  unfold apply_value, well_formed.
  destruct (String.eqb_spec key "data_dir") as [->|H1]; [set_field (parse_dir v)|].
  destruct (String.eqb_spec key "db_dir") as [->|H2]; [set_field (parse_dir v)|].
  destruct (String.eqb_spec key "encrypt_db") as [->|H3]; [set_field (parse_bool v)|].
  destruct (String.eqb_spec key "allow_remote") as [->|H4]; [set_field (parse_bool v)|].
  destruct (String.eqb_spec key "port") as [->|H5]; [set_field (parse_int v)|].
  split; [done|]. intros [E _]. exfalso. revert E.
  assert (∀ a b, key ≠ a → key ≠ b → str_in key [a; b] = false) as Hin.
  { intros a b0 Ha Hb. apply not_true_iff_false. rewrite str_in_spec. set_solver. }
  by rewrite !Hin.
Qed.

Lemma overlaid_nil c : overlaid c [] = c.
Proof. by destruct c. Qed.

Lemma apply_table_iff c table scope c' :
  apply_table c table scope = Ok c' ↔
  Forall (λ s, well_formed s = true) (supported table) ∧ c' = overlaid c (supported table).
Proof.
  revert c. induction table as [|[key v] table IH]; intros c; simpl.
  { rewrite overlaid_nil. split; [intros [= <-]; by split|by intros [_ ->]]. }
  unfold supported in *. rewrite filter_cons. simpl.
  destruct (decide (is_supported_key key = true)) as [E|E].
  - rewrite E. split.
    + intros (c1 & [Hv ->]%apply_value_iff & [Hf ->]%IH)%result_bind_ok. split; [by constructor|].
      symmetry. by apply overlaid_cons.
    + intros [Hf ->]. apply Forall_cons in Hf as [Hv Hf]. apply result_bind_ok.
      exists (overlaid c [(key, v)]). split; [by apply apply_value_iff|].
      apply IH. split; [done|]. by apply overlaid_cons.
  - apply not_true_is_false in E. rewrite E. apply IH.
Qed.

Lemma omap_variable env name field fields :
  omap (variable_setting env) ((name, field) :: fields) =
  match env !! name with
  | Some value =>
      if is_empty value then omap (variable_setting env) fields
      else (field, TomlString value) :: omap (variable_setting env) fields
  | None => omap (variable_setting env) fields
  end.
Proof.
  cbn [omap list_omap]. unfold variable_setting at 1. cbn [fst snd].
  destruct (env !! name) as [value|]; cbn; [|done]. by destruct (is_empty value).
Qed.

Lemma apply_variables_iff c env fields c' :
  let l := omap (variable_setting env) fields in
  apply_variables c env fields = Ok c' ↔
  Forall (λ s, well_formed s = true) l ∧ c' = overlaid c l.
Proof.
  cbv zeta. revert c. induction fields as [|[name field] fields IH]; intros c.
  { cbn. rewrite overlaid_nil. split; [intros [= <-]; by split|by intros [_ ->]]. }
  rewrite omap_variable. cbn [apply_variables]. destruct (env !! name) as [value|]; [|apply IH].
  destruct (is_empty value); [apply IH|]. split.
  - intros (c1 & E & [Hf ->]%IH)%result_bind_ok. apply map_err_ok, apply_value_iff in E as [Hv ->].
    split; [by constructor|]. symmetry. by apply overlaid_cons.
  - intros [Hf ->]. apply Forall_cons in Hf as [Hv Hf]. apply result_bind_ok.
    exists (overlaid c [(field, TomlString value)]). split; [by apply map_err_ok, apply_value_iff|].
    apply IH. split; [done|]. by apply overlaid_cons.
Qed.

Section load.
Context `{ConfigFiles} `{Toml} (macos : bool).

(** The settings a configuration file holds; a missing file holds none. *)
Definition file_settings (path : string) (l : list (string * toml)) : Prop :=
  (∃ error, read_to_string path = Err error ∧ kind error = NotFound ∧ l = []) ∨
  (∃ contents table, read_to_string path = Ok contents ∧
     toml_from_str contents = Some (TomlTable table) ∧ l = supported table).

Lemma merge_file_iff c path scope c' :
  merge_file c path scope = Ok c' ↔
  ∃ l, file_settings path l ∧ Forall (λ s, well_formed s = true) l ∧ c' = overlaid c l.
Proof.
  unfold merge_file, file_settings. split.
  - destruct (read_to_string path) as [contents|error] eqn:E.
    + destruct (toml_from_str contents) as [[| | |table|]|] eqn:Et; try done.
      intros [Hf ->]%apply_table_iff. exists (supported table). split; [right; eauto|done].
    + destruct (kind error) eqn:Ek; try done. intros [= <-]. exists [].
      split; [left; eauto|]. by rewrite overlaid_nil.
  - intros (l & [(error & E & Ek & ->)|(contents & table & E & Et & ->)] & Hf & ->); rewrite E.
    + rewrite Ek. by rewrite overlaid_nil.
    + rewrite Et. by apply apply_table_iff.
Qed.

Lemma overlaid_app c l k :
  Forall (λ s, well_formed s = true) l → Forall (λ s, well_formed s = true) k →
  overlaid c (l ++ k) = overlaid (overlaid c l) k.
Proof.
  intros Hl Hk. revert c. induction Hl as [|s l Hs Hl IH]; intros c; simpl; [by rewrite overlaid_nil|].
  rewrite overlaid_cons, IH, (overlaid_cons c s l); [done..|]. by apply Forall_app.
Qed.

End load.

(* ------------------------------------------------------------------ *)
(** ** The resolved paths *)

(** An absolute path of plain names, as it is written. *)
Definition clean_path (p : string) : Prop :=
  ∃ names, Forall component_name names ∧ components p = RootDir :: (Normal <$> names).

(** The components that [clean_absolute] keeps, last first: names over the root. *)
Definition rooted (l : list Component) : Prop :=
  ∃ names, Forall component_name names ∧ l = (Normal <$> names) ++ [RootDir].

Lemma clean_absolute_step_rooted l c : below c → rooted l → rooted (clean_absolute_step l c).
Proof.
  intros Hc (names & Hn & ->). destruct c as [| | |n]; try done; cbn.
  - destruct names as [|m names]; cbn; [by exists []|]. apply Forall_cons in Hn as [_ Hn]. by exists names.
  - exists (n :: names). split; [by constructor|done].
Qed.

Lemma clean_absolute_rooted path :
  is_absolute path = true → rooted (foldl clean_absolute_step [] (components path)).
Proof.
  intros Ha. unfold components. unfold is_absolute in Ha. rewrite Ha. cbn [app foldl clean_absolute_step].
  pose proof (omap_below (split "/" path) (split_no_slash path)) as Hb.
  assert (rooted [RootDir]) as H0 by by exists [].
  revert H0. generalize [RootDir]. induction Hb as [|c l Hc _ IH]; intros k Hk; cbn [foldl]; [done|].
  by apply IH, clean_absolute_step_rooted.
Qed.

Lemma rev_names (names : list string) : rev (Normal <$> names) = Normal <$> rev names.
Proof. induction names as [|n names IH]; [done|]. csimpl. by rewrite IH, fmap_app. Qed.

Lemma clean_absolute_clean path :
  is_absolute path = true →
  clean_path (clean_absolute path) ∧
  components (clean_absolute path) = rev (foldl clean_absolute_step [] (components path)).
Proof.
  intros (names & Hn & E)%clean_absolute_rooted. unfold clean_absolute. rewrite E.
  rewrite rev_app_distr, rev_names. cbn [rev app].
  assert (Forall component_name (rev names)) as Hr by by apply List.Forall_rev.
  destruct (components_push_rooted (rev names) Hr) as [_ Hc]. split; [by exists (rev names)|done].
Qed.

(** Cleaning does not change what a path names. *)
Lemma clean_absolute_resolves path at_ :
  is_absolute path = true →
  SchedulerFacts.resolve_path at_ (clean_absolute path) = SchedulerFacts.resolve_path at_ path.
Proof.
  intros Ha. unfold SchedulerFacts.resolve_path. rewrite (proj2 (clean_absolute_clean path Ha)).
  unfold components. unfold is_absolute in Ha. rewrite Ha. cbn [app foldl clean_absolute_step resolve_components].
  pose proof (omap_below (split "/" path) (split_no_slash path)) as Hb.
  assert (∀ k, rooted k →
    resolve_components at_ (rev (foldl clean_absolute_step k (omap component_of (split "/" path)))) =
    foldl follow (resolve_components at_ (rev k)) (omap component_of (split "/" path))) as Hgen.
  { induction Hb as [|c l Hc _ IH]; intros k Hk; cbn [foldl]; [done|].
    rewrite IH by by apply clean_absolute_step_rooted. f_equal.
    destruct Hk as (names & Hn & ->). unfold resolve_components.
    destruct c as [| | |n]; try done; cbn [clean_absolute_step follow].
    - destruct names as [|m names]; cbn; [done|].
      rewrite !rev_app_distr. cbn. rewrite !foldl_app. by cbn.
    - cbn. by rewrite foldl_app. }
  unfold resolve_components in *. rewrite (Hgen [RootDir]) by by exists []. done.
Qed.

Lemma path_join_absolute a p : is_absolute a = true → is_absolute (path_join a p) = true.
Proof.
  unfold is_absolute, path_join. intros Ha. destruct (starts_with "/" p) eqn:Ep; [done|].
  apply starts_with_spec in Ha as (t & ->).
  destruct (_ || _); apply starts_with_spec; eexists; by rewrite string_app_assoc.
Qed.

Section storage.
Context `{ConfigFiles} `{Toml} (macos : bool).

Lemma validate_context_ok c : validate_context c = Ok () →
  is_absolute (home_dir c) = true ∧ is_absolute (context_dir c) = true.
Proof.
  unfold validate_context. destruct (is_empty (home_dir c)), (is_absolute (home_dir c)); try done.
  destruct (is_empty (context_dir c)), (is_absolute (context_dir c)); done.
Qed.

Lemma resolve_path_clean raw field c p :
  validate_context c = Ok () → resolve_path raw field c = Ok p → clean_path p.
Proof.
  intros [Hh Hc]%validate_context_ok E. unfold resolve_path in E.
  apply result_bind_ok in E as (_ & _ & [= <-]). apply clean_absolute_clean.
  set (q := if (raw =? "~")%string then _ else _). destruct (is_absolute q) eqn:Eq; [done|].
  by apply path_join_absolute.
Qed.

Lemma user_cache_dir_absolute c :
  is_absolute (home_dir c) = true → is_absolute (user_cache_dir macos c) = true.
Proof.
  intros Hh. unfold user_cache_dir, absolute_var. destruct macos; [by do 2 apply path_join_absolute|].
  destruct (environment c !! "XDG_CACHE_HOME") as [path|]; [|by apply (path_join_absolute _ ".cache")].
  destruct (is_empty path); [by apply (path_join_absolute _ ".cache")|].
  destruct (is_absolute path) eqn:Ep; [done|by apply (path_join_absolute _ ".cache")].
Qed.

(** Where the data lies is never in doubt.  Whatever the files and variables say,
    resolved storage directories are absolute paths of plain names - no [.], no [..],
    nothing relative to where the process happens to run - the database is
    [symeraseme.db] in its directory, that directory is the data directory unless one
    is configured, and the port is a TCP port. *)
Theorem resolve_storage_clean c s :
  resolve_storage macos c = Ok s →
  clean_path (sg_data_dir s) ∧ clean_path (sg_db_dir s) ∧ clean_path (sg_temp_dir s) ∧
  sg_db_path s = path_join (sg_db_dir s) DATABASE_FILE ∧
  ∃ config, load c = Ok config ∧ 1 ≤ port config ≤ 65535 ∧ sg_encrypt_db s = encrypt_db config ∧
    (db_dir config = "" → sg_db_dir s = sg_data_dir s).
Proof.
  unfold resolve_storage. intros (config & Hl & E)%result_bind_ok.
  assert (validate_context c = Ok () ∧ validate_config config = Ok ()) as [Hv Hvc].
  { pose proof Hl as E'. unfold load in E'. apply result_bind_ok in E' as ([] & Hc & E').
    apply result_bind_ok in E' as (c1 & _ & E'). apply result_bind_ok in E' as (c2 & _ & E').
    apply result_bind_ok in E' as (c3 & _ & E'). apply result_bind_ok in E' as ([] & Hvc & [= <-]). done. }
  apply result_bind_ok in E as (data & Hd & E). apply result_bind_ok in E as (db & Hdb & E).
  apply result_bind_ok in E as (temp & Ht & [= <-]). cbn.
  assert (clean_path data) as Hcd by (by eapply resolve_path_clean).
  split_and!; [done| | |done|].
  - destruct (is_empty (db_dir config)); [by injection Hdb as <-|by eapply resolve_path_clean].
  - unfold default_encrypted_temp_dir in Ht. rewrite Hv in Ht. injection Ht as <-.
    apply clean_absolute_clean. do 2 apply path_join_absolute. apply user_cache_dir_absolute.
    by destruct (validate_context_ok c Hv).
  - exists config. split_and!; try done.
    + unfold validate_config in Hvc. destruct (Z.leb_spec 1 (port config)); [done|done].
    + unfold validate_config in Hvc. destruct (Z.leb_spec 1 (port config)); [|done].
      by destruct (Z.leb_spec (port config) 65535).
    + intros E. rewrite E in Hdb. by injection Hdb as <-.
Qed.
End storage.

(* ------------------------------------------------------------------ *)
(** ** Errors show nothing *)

Definition fixed_scopes : list string := ["global"; "project"; "environment"] ++ (ENV_FIELDS.*1).
Definition fixed_fields : list string :=
  ["data_dir"; "db_dir"; "encrypt_db"; "port"; "allow_remote"; "unknown"].
Definition fixed_messages : list string :=
  ["home directory must be absolute"; "current directory must be absolute";
   "directories must not contain NUL bytes"; "must be a string"; "must not be empty";
   "integer boolean must be 0 or 1"; "boolean must be true/false, yes/no, on/off, or 1/0";
   "must be a boolean"; "must be an integer"; "unknown field"; "must be within 1..65535";
   "must not contain a NUL byte"].

(** Every text of an error is one of the program's own. *)
Definition silent (e : ConfigError) : Prop :=
  match e with
  | Context message => message ∈ fixed_messages
  | ConfigIo scope | Parse scope => scope ∈ fixed_scopes
  | Field scope field message =>
      scope ∈ fixed_scopes ∧ field ∈ fixed_fields ∧ message ∈ fixed_messages
  | Validation field message => field ∈ fixed_fields ∧ message ∈ fixed_messages
  end.

Lemma field_error_silent scope key message :
  scope ∈ fixed_scopes → message ∈ fixed_messages → silent (field_error scope key message).
Proof.
  intros Hs Hm. unfold field_error. destruct (is_supported_key key) eqn:E; split_and!; try done.
  - apply str_in_spec in E. set_solver.
  - set_solver.
Qed.

(** The messages of a parser. *)
Definition plain_errors {A} (m : result string A) : Prop := fails_with (λ e, e ∈ fixed_messages) m.

Lemma map_field_error {A} scope key (m : result string A) :
  scope ∈ fixed_scopes → plain_errors m → fails_with silent (map_err (field_error scope key) m).
Proof.
  intros Hs Hm e. destruct m as [a|x] eqn:E; [done|]. intros [= <-]. apply field_error_silent; [done|].
  by apply Hm.
Qed.

Lemma parse_dir_plain v : plain_errors (parse_dir v).
Proof. destruct v; cbn; try (intros e [= <-]; set_solver). destruct (is_empty _); [|done]. intros e [= <-]. set_solver. Qed.

Lemma parse_bool_plain v : plain_errors (parse_bool v).
Proof.
  unfold parse_bool. cbv zeta. destruct v; repeat case_match; try done; intros e [= <-]; set_solver.
Qed.

Lemma ok_or_plain {A} (m : option A) : plain_errors (ok_or "must be an integer" m).
Proof. destruct m; [done|]. intros e [= <-]. set_solver. Qed.

Lemma parse_int_plain v : plain_errors (parse_int v).
Proof.
  apply fails_bind; [|intros; apply ok_or_plain].
  destruct v; try (intros e [= <-]; set_solver). apply ok_or_plain.
Qed.

Lemma apply_value_silent c key v scope :
  scope ∈ fixed_scopes → fails_with silent (apply_value c key v scope).
Proof.
  intros Hs. unfold apply_value.
  repeat case_match; try (apply fails_bind; [|done]; apply map_field_error; [done|]);
    auto using parse_dir_plain, parse_bool_plain, parse_int_plain.
  intros e [= <-]. apply field_error_silent; [done|]. set_solver.
Qed.

Lemma apply_table_silent c table scope :
  scope ∈ fixed_scopes → fails_with silent (apply_table c table scope).
Proof.
  intros Hs. revert c. induction table as [|[key v] table IH]; intros c; simpl; [done|].
  destruct (is_supported_key key); [|done]. apply fails_bind; [by apply apply_value_silent|done].
Qed.

Lemma apply_variables_silent c env fields :
  Forall (λ f, f.1 ∈ fixed_scopes) fields → fails_with silent (apply_variables c env fields).
Proof.
  intros Hf. revert c. induction Hf as [|[name field] fields Hn _ IH]; intros c; simpl; [done|].
  destruct (env !! name) as [value|]; [|done]. destruct (is_empty value); [done|].
  apply fails_bind; [|done]. intros e He. simpl in Hn.
  destruct (apply_value _ _ _ _) as [|x] eqn:E; [done|]. injection He as <-.
  apply apply_value_silent in E; [|set_solver]. destruct x; try done. simpl in *. naive_solver.
Qed.

Lemma validate_raw_path_silent raw field :
  field ∈ fixed_fields → fails_with silent (validate_raw_path raw field).
Proof.
  intros Hf. unfold validate_raw_path.
  repeat case_match; [intros e [= <-]; split; [done|]; set_solver..|done].
Qed.

Section silent.
Context `{ConfigFiles} `{Toml} (macos : bool).

Lemma merge_file_silent c path scope :
  scope ∈ fixed_scopes → fails_with silent (merge_file c path scope).
Proof.
  intros Hs. unfold merge_file. destruct (read_to_string path) as [contents|error].
  - destruct (toml_from_str contents) as [[]|]; try (by intros e [= <-]). by apply apply_table_silent.
  - destruct (kind error); try done; by intros e [= <-].
Qed.

Lemma validate_context_silent c : fails_with silent (validate_context c).
Proof. unfold validate_context. repeat case_match; try done; intros e [= <-]; cbn; set_solver. Qed.

(** Configuration errors show nothing.  Every text in an error of loading the
    configuration or resolving the storage is one of a fixed list of the program's own
    words: no content of a configuration file, no value of a variable and no path can
    reach a message. *)
Theorem config_errors_silent c :
  fails_with silent (load c) ∧ fails_with silent (resolve_storage macos c).
Proof.
  assert (fails_with silent (load c)) as Hl.
  { unfold load. apply fails_bind; [apply validate_context_silent|]. intros _.
    apply fails_bind; [apply merge_file_silent; set_solver|]. intros c1.
    apply fails_bind; [apply merge_file_silent; set_solver|]. intros c2.
    apply fails_bind.
    { apply apply_variables_silent. unfold fixed_scopes. apply Forall_forall. intros f Hf.
      apply elem_of_app. right. by apply list_elem_of_fmap_2. }
    intros c3. apply fails_bind; [|done]. unfold validate_config.
    destruct (negb _); [intros e [= <-]; split; set_solver|].
    apply fails_bind; [apply validate_raw_path_silent; set_solver|]. intros _.
    destruct (is_empty _); [done|]. apply validate_raw_path_silent. set_solver. }
  assert (∀ raw field, field ∈ fixed_fields → fails_with silent (resolve_path raw field c)) as Hr.
  { intros raw field Hf. unfold resolve_path. apply fails_bind; [|done]. by apply validate_raw_path_silent. }
  split; [done|]. unfold resolve_storage. apply fails_bind; [done|]. intros config.
  apply fails_bind; [apply Hr; set_solver|]. intros data.
  apply fails_bind; [destruct (is_empty _); [done|apply Hr; set_solver]|]. intros db.
  apply fails_bind; [|done]. unfold default_encrypted_temp_dir.
  apply fails_bind; [apply validate_context_silent|done].
Qed.
End silent.

(* ------------------------------------------------------------------ *)
(** ** Mail settings *)

Section imap.
Context `{RustFmt} `{Lowercase} {B : Type} `{SecretBackend B}.

Lemma env_int_nonneg name fallback env : 0 ≤ fallback → 0 ≤ env_int name fallback env.
Proof.
  intros Hf. unfold env_int. destruct (parse_i64 <$> env !! name) as [[v|]|]; [|done..].
  by destruct (Z.leb_spec 0 v).
Qed.

Lemma env_port_range name fallback env port :
  1 ≤ fallback ≤ 65535 → env_port name fallback env = Ok port → 1 ≤ port ≤ 65535.
Proof.
  intros Hf. unfold env_port. destruct (filter_nonempty _) as [v|]; [|intros [= <-]; done].
  destruct (parse_i64 v) as [p|]; [|done]. destruct (Z.leb_spec 1 p), (Z.leb_spec p 65535); try done.
  intros [= <-]. done.
Qed.

(** The token that is asked for: the caller's own, else the environment's. *)
Definition wanted_token (options : ImapConfigOptions) (env : gmap string string) : string :=
  default (default "" (env !! OAUTH2_ENV)) (filter_nonempty (oauth2_access_token options)).

(** A mail account is configured with one credential.  The port is a TCP port and
    the counts are not negative.  When a token is wanted, the configuration carries
    the non-empty secret that the token resolver found for it - without the
    environment's token as a fallback if the caller gave one - and no password lookup
    is made; without one there is no token, and the password is empty or what the
    password resolver found. *)
Theorem load_imap_config_spec options env w config w' :
  load_imap_config_with options env w = (Ok config, w') →
  1 ≤ ic_port config ≤ 65535 ∧ 0 ≤ ic_since_days config ∧ 0 ≤ ic_max_messages config ∧
  ic_allow_insecure_cleartext_auth config = false ∧
  let password := default "" (env !! PASSWORD_ENV) in
  match ic_oauth2 config with
  | Some token =>
      wanted_token options env ≠ "" ∧ oa_access_token token ≠ "" ∧
      ic_password config = password ∧
      ∃ explicit, (explicit = true ↔ ∃ t, oauth2_access_token options = Some t ∧ t ≠ "") ∧
        resolve (oauth2_resolver (oa_username token) explicit env) w (wanted_token options env) =
          (Ok (oa_access_token token), w')
  | None =>
      wanted_token options env = "" ∧
      (password = "" ∧ ic_password config = "" ∧ w' = w ∨
       password ≠ "" ∧ resolve (password_resolver env) w password = (Ok (ic_password config), w'))
  end.
Proof.
  unfold load_imap_config_with. destruct (env_port _ _ _) as [port|] eqn:Ep; [|done].
  apply env_port_range in Ep; [|lia]. cbv zeta.
  change (default (default "" (env_value OAUTH2_ENV env)) (filter_nonempty (oauth2_access_token options)))
    with (wanted_token options env).
  set (user := default _ (filter_nonempty (oauth2_username options))). clearbody user.
  set (explicit := match filter_nonempty (oauth2_access_token options) with Some _ => true | None => false end).
  assert (explicit = true ↔ ∃ t, oauth2_access_token options = Some t ∧ t ≠ "") as Hex.
  { subst explicit. destruct (filter_nonempty (oauth2_access_token options)) as [t|] eqn:E.
    - apply filter_nonempty_Some in E. naive_solver.
    - split; [done|]. intros (t & Ht & Hne). rewrite Ht in E. cbn in E.
      destruct (is_empty t) eqn:Et; [|done]. by apply is_empty_spec in Et. }
  clearbody explicit. unfold resolve_imap_oauth2_from.
  pose proof (env_int_nonneg "IMAP_SINCE_DAYS" 14 env ltac:(lia)).
  pose proof (env_int_nonneg "IMAP_MAX_MESSAGES" 50 env ltac:(lia)).
  destruct (is_empty (wanted_token options env)) eqn:Ew.
  - apply is_empty_spec in Ew. unfold imap_password, env_value. cbv zeta.
    destruct (is_empty (default "" (env !! PASSWORD_ENV))) eqn:Epw.
    + intros [= <- <-]. cbn. apply is_empty_spec in Epw. rewrite Epw. split_and!; try done; [lia..|]. by left.
    + apply is_empty_false in Epw. destruct (resolve _ w _) as [[password|error] w1] eqn:Er; [|done].
      intros [= <- <-]. cbn. split_and!; try done; [lia..|]. by right.
  - apply is_empty_false in Ew. destruct (resolve _ w _) as [[token|error] w1] eqn:Er; [|done].
    destruct (is_empty token) eqn:Et; [done|]. apply is_empty_false in Et.
    intros [= <- <-]. cbn. split_and!; try done; [lia..|]. by exists explicit.
Qed.
End imap.
