(* ===== verification/RegistryLoad.v ===== *)
(** Loading a registry: [core/registry/loader.rs] and the directory walk of
    [core/registry/validate.rs].

    The tree under the root is a value; every call on it may fail with a text the
    oracle [io_fault] chooses.  serde_json's reading of the two metadata documents is
    the class [MetadataJson]. *)
From S2P Require Import Prelude.
From S2P Require Import Text.
From S2P Require Import Registry.
From S2P Require Import RegistryValidate.
From S2P Require Import RegistryFacts.
From S2P Require Import Encryption.
From S2P Require Import McpTools.
From S2P Require Import Redaction.
From Stdlib Require Import Ascii Strings.Byte.

#[local] Notation length := List.length.

(** ** Limits *)

Definition MAX_METADATA_BYTES : Z := Z.shiftl 64 10.
Definition SUPPORTED_REGISTRY_SCHEMA_VERSION : Z := 1.
Definition BROKER_SCHEMA_PATH : string := "schemas/broker.schema.json".
Definition MAX_DIRECTORY_DEPTH : nat := 8.
Definition MAX_DIRECTORY_ENTRIES : Z := 16384.
Definition MAX_BROKER_FILES : Z := 4096.
Definition MAX_OUTPUT_BROKERS : Z := 4096.
Definition MAX_INPUT_BYTES : Z := Z.shiftl 16 20.
Definition MAX_AGGREGATE_YAML_NODES : Z := Z.shiftl 1 20.

Record LoadBudget := {
  directory_entries : Z;
  broker_files : Z;
  input_bytes : Z;
}.

Definition LoadBudget_default : LoadBudget :=
  {| directory_entries := 0; broker_files := 0; input_bytes := 0 |}.

Record LoadReport := { brokers : list Broker; errors : list RegistryError }.

Record PendingDocument := { stem : string; display_path : string; content : string }.

(** ** The tree and the calls on it *)

(** What a name holds; a symbolic link with what it leads to inside the tree. *)
Inductive node :=
| NDir (entries : list (string * node))
| NFile (content : bytes)
| NSymlink (target : option node)
| NSpecial.

Class LoadEnv := {
  io_fault : nat → option string;
  not_found : string;          (** texts of the system's own errors *)
  is_a_link : string;
  not_a_directory : string;
  invalid_utf8 : string;
}.

(** [serde_json::from_slice] of the two documents: a version and, in the manifest,
    the schema's path; or the text of the error. *)
Class MetadataJson := {
  manifest_from_slice : bytes → result string (Z * string);
  schema_from_slice : bytes → result string Z;
}.

(** Programs over the number of the next call. *)
Definition io (A : Type) : Type := nat → result RegistryError A * nat.

#[export] Instance io_ret : MRet io := λ A a t, (Ok a, t).
#[export] Instance io_bind : MBind io := λ A B f m t,
  match m t with (Ok a, t) => f a t | (Err e, t) => (Err e, t) end.

Definition lift {A} (m : result RegistryError A) : io A := λ t, (m, t).
Definition refuse {A} (field message : string) : io A := lift (validation field message).

Section load.
Context `{RustFmt} `{LoadEnv} `{MetadataJson} `{Yaml}.

(** A call about [path]. *)
Definition call {A} (path : string) (res : result string A) : io A := λ t,
  (match io_fault t with Some e => Err (RegistryIo path e) | None => map_err (RegistryIo path) res end, S t).

Definition node_at (name : string) (entries : list (string * node)) : option node :=
  snd <$> find (λ e : string * node, String.eqb (fst e) name) entries.

Definition is_link (n : node) : bool := match n with NSymlink _ => true | _ => false end.
Definition is_regular (n : node) : bool := match n with NFile _ => true | _ => false end.
Definition entries_of (n : node) : option (list (string * node)) :=
  match n with NDir entries => Some entries | _ => None end.

(** Opening without following a link at the end of the path. *)
Definition open_final (n : option node) : result string node :=
  match n with
  | None => Err not_found
  | Some (NSymlink _) => Err is_a_link
  | Some n => Ok n
  end.

(** The directories before the last name; a link among them is followed. *)
Fixpoint walk (entries : list (string * node)) (names : list string) : result string node :=
  match names with
  | [] => Err not_found
  | [name] => open_final (node_at name entries)
  | name :: names =>
      match node_at name entries with
      | None | Some (NSymlink None) => Err not_found
      | Some (NDir entries) | Some (NSymlink (Some (NDir entries))) => walk entries names
      | Some _ => Err not_a_directory
      end
  end.

(** [metadata.len()] and the bytes of an open file. *)
Definition bytes_of (n : node) : bytes := match n with NFile content => content | _ => [] end.

(** [file.take(limit).read_to_end(..)] *)
Definition read_take (limit : Z) (n : node) : bytes := take (Z.to_nat limit) (bytes_of n).

Definition read_metadata (root : list (string * node)) (path : string) : io bytes :=
  file ← call path (walk root (split "/" path));
  metadata ← call path (Ok file);
  if negb (is_regular metadata) then refuse path "metadata entry is not a regular file"
  else if MAX_METADATA_BYTES <? size (bytes_of metadata)
  then refuse path ("metadata exceeds " +:+ show MAX_METADATA_BYTES +:+ " bytes")
  else
    bytes ← call path (Ok (read_take (MAX_METADATA_BYTES + 1) file));
    if MAX_METADATA_BYTES <? size bytes
    then refuse path ("metadata exceeds " +:+ show MAX_METADATA_BYTES +:+ " bytes")
    else mret bytes.

Definition validate_registry_metadata (root : list (string * node)) : io () :=
  manifest_bytes ← read_metadata root "manifest.json";
  '(version, schema_path) ← lift
    (map_err (λ error, Validation "manifest.json" ("is malformed: " +:+ error))
       (manifest_from_slice manifest_bytes));
  if negb (version =? SUPPORTED_REGISTRY_SCHEMA_VERSION) then
    refuse "manifest.schema_version"
      ("unsupported version " +:+ show version +:+ "; expected "
       +:+ show SUPPORTED_REGISTRY_SCHEMA_VERSION)
  else if negb (String.eqb schema_path BROKER_SCHEMA_PATH) then
    refuse "manifest.schemas.broker" ("must equal " +:+ debug_str BROKER_SCHEMA_PATH)
  else
    schema_bytes ← read_metadata root BROKER_SCHEMA_PATH;
    schema ← lift
      (map_err (λ error, Validation BROKER_SCHEMA_PATH ("is malformed: " +:+ error))
         (schema_from_slice schema_bytes));
    if negb (schema =? SUPPORTED_REGISTRY_SCHEMA_VERSION) then
      refuse "broker schema.schema_version"
        ("unsupported version " +:+ show schema +:+ "; expected "
         +:+ show SUPPORTED_REGISTRY_SCHEMA_VERSION)
    else if negb (schema =? version) then
      refuse "schema_version" "manifest and broker schema versions do not match"
    else mret ().

(** ** The walk *)

Definition over_input : string :=
  "aggregate input byte limit " +:+ show MAX_INPUT_BYTES +:+ " exceeded".

Definition limit_message (remaining : Z) : string :=
  if remaining <? MAX_DOCUMENT_BYTES then over_input
  else "document exceeds " +:+ show MAX_DOCUMENT_BYTES +:+ " bytes".

Definition read_bounded (file : node) (path : string) (input_bytes : Z) : io (string * Z) :=
  if MAX_INPUT_BYTES <=? input_bytes then refuse "registry" over_input
  else
    let remaining := MAX_INPUT_BYTES - input_bytes in
    let limit := Z.min MAX_DOCUMENT_BYTES remaining in
    metadata ← call path (Ok file);
    if negb (is_regular metadata)
    then refuse "registry layout" ("YAML entry is not a regular file: " +:+ path)
    else if limit <? size (bytes_of metadata) then refuse path (limit_message remaining)
    else
      bytes ← call path (Ok (read_take (limit + 1) file));
      if limit <? size bytes then refuse path (limit_message remaining)
      else if is_utf8 bytes then mret (text_of bytes, size bytes)
      else lift (Err (RegistryIo path invalid_utf8)).

Definition allowed_jurisdiction (value : string) : bool := str_in value ["eu"; "uk"; "us"].

(** [Path::extension] and [Path::file_stem] of a file's name. *)
Definition extension (name : string) : option string :=
  match rsplit_once "." name with
  | Some (stem, ext) => if is_empty stem then None else Some ext
  | None => None
  end.

Definition file_stem (name : string) : string :=
  match rsplit_once "." name with
  | Some (stem, _) => if is_empty stem then name else stem
  | None => name
  end.

Definition is_yaml (name : string) : bool :=
  match extension name with Some ext => str_in ext ["yaml"; "yml"] | None => false end.

(** What the walk carries: the documents so far and the budget. *)
Definition Walk : Type := list PendingDocument * LoadBudget.

(** Counting the entries of a directory. *)
Fixpoint count_entries (display_dir : string) (entries : list (string * node)) (budget : LoadBudget) :
    io LoadBudget :=
  match entries with
  | [] => mret budget
  | _ :: entries =>
      _ ← call display_dir (Ok ());
      let n := directory_entries budget + 1 in
      if MAX_DIRECTORY_ENTRIES <? n
      then refuse "registry" ("directory entry limit " +:+ show MAX_DIRECTORY_ENTRIES +:+ " exceeded")
      else
        count_entries display_dir entries
          {| directory_entries := n; broker_files := broker_files budget;
             input_bytes := input_bytes budget |}
  end.

(** One file directly under a jurisdiction. *)
Definition collect_file (display_path name : string) (n : node) (w : Walk) : io Walk :=
  let '(output, budget) := w in
  if negb (is_regular n)
  then refuse "registry layout" ("registry entry is not a regular file: " +:+ display_path)
  else if negb (is_yaml name)
  then refuse "registry layout" ("broker entry must be YAML: " +:+ display_path)
  else if starts_with "_" name then mret w
  else
    let files := broker_files budget + 1 in
    if MAX_BROKER_FILES <? files
    then refuse "registry" ("broker YAML file limit " +:+ show MAX_BROKER_FILES +:+ " exceeded")
    else
      file ← call display_path (open_final (Some n));
      '(text, bytes_read) ← read_bounded file display_path (input_bytes budget);
      mret (output ++ [{| stem := file_stem name; display_path := display_path; content := text |}],
            {| directory_entries := directory_entries budget; broker_files := files;
               input_bytes := input_bytes budget + bytes_read |}).

Definition by_name (a b : string * node) : bool := str_leb a.1 b.1.

Section entries.
(** [collect_yaml] of a subdirectory, one level down. *)
Context (descend : list (string * node) → string → Walk → io Walk).

Fixpoint collect_entries (depth : nat) (display_dir : string) (entries : list (string * node)) (w : Walk) :
    io Walk :=
  match entries with
  | [] => mret w
  | (name, n) :: entries =>
      if negb (is_utf8 (lit name))
      then refuse "registry layout" ("filename is not valid UTF-8 under " +:+ display_dir)
      else
        let display_path := path_join display_dir name in
        file_type ← call display_path (Ok n);
        if is_link file_type
        then refuse "registry layout" ("symlink is not allowed: " +:+ display_path)
        else if Nat.eqb depth 0 then
          match entries_of file_type with
          | Some child =>
              if allowed_jurisdiction name then
                child ← call display_path (Ok child);
                w ← descend child display_path w;
                collect_entries depth display_dir entries w
              else
                refuse "registry layout"
                  ("expected brokers/{eu,uk,us}/<filename>.yaml|yml, got " +:+ display_path)
          | None =>
              refuse "registry layout"
                ("expected brokers/{eu,uk,us}/<filename>.yaml|yml, got " +:+ display_path)
          end
        else
          match entries_of file_type with
          | Some _ =>
              refuse "registry layout"
                ("broker files must be directly under brokers/{eu,uk,us}: " +:+ display_path)
          | None =>
              if negb (Nat.eqb depth 1) then
                refuse "registry layout"
                  ("broker files must be directly under brokers/{eu,uk,us}: " +:+ display_path)
              else
                w ← collect_file display_path name n w;
                collect_entries depth display_dir entries w
          end
  end.
End entries.

(** The recursion goes one level down at most, so the fuel, two more than the depth
    the code allows, is never used up. *)
Fixpoint collect_yaml (fuel depth : nat) (dir : list (string * node)) (display_dir : string) (w : Walk) :
    io Walk :=
  match fuel with
  | O => refuse "registry layout" ""
  | S fuel =>
      if Nat.ltb MAX_DIRECTORY_DEPTH depth then
        refuse "registry layout"
          ("directory nesting exceeds " +:+ show (Z.of_nat MAX_DIRECTORY_DEPTH) +:+ " levels")
      else
        _ ← call display_dir (Ok ());
        budget ← count_entries display_dir dir w.2;
        collect_entries (λ child path w, collect_yaml fuel (S depth) child path w)
          depth display_dir (sort_by by_name dir) (w.1, budget)
  end.

(** ** Decoding *)

Definition with_path (error : RegistryError) (path : string) : RegistryError :=
  match error with
  | Validation field message => Validation (path +:+ ": " +:+ field) message
  | RegistryYaml error => Validation path ("YAML: " +:+ error)
  | RegistryIo _ source => RegistryIo path source
  end.

(** [decode_with_metrics] of the model gives a result for every document. *)
Definition decode_document (stem source : string) : result RegistryError (Broker * Z) :=
  default (Err (Validation "" "")) (decode_with_metrics stem source).

Definition decode (stem source : string) : result RegistryError Broker := fst <$> decode_document stem source.

(** The variables of the loop over the documents: the ids seen with their paths, the
    YAML nodes, the brokers and the errors. *)
Record Decoding := {
  seen_ids : list (string * string);
  yaml_nodes : Z;
  dc_brokers : list Broker;
  dc_errors : list RegistryError;
}.

Definition decode_step (d : Decoding) (pending : PendingDocument) : result RegistryError Decoding :=
  match find (λ s : string * string, String.eqb (fst s) (stem pending)) (seen_ids d) with
  | Some (_, previous) =>
      Ok {| seen_ids := seen_ids d; yaml_nodes := yaml_nodes d; dc_brokers := dc_brokers d;
            dc_errors := dc_errors d ++
              [Validation "id" ("duplicate broker id " +:+ debug_str (stem pending) +:+ " in "
                 +:+ previous +:+ " and " +:+ display_path pending)] |}
  | None =>
      let seen := (stem pending, display_path pending) :: seen_ids d in
      match decode_document (stem pending) (content pending) with
      | Err error =>
          Ok {| seen_ids := seen; yaml_nodes := yaml_nodes d; dc_brokers := dc_brokers d;
                dc_errors := dc_errors d ++ [with_path error (display_path pending)] |}
      | Ok (broker, nodes) =>
          let total := yaml_nodes d + nodes in
          if MAX_AGGREGATE_YAML_NODES <? total then
            validation "registry"
              ("aggregate YAML node limit " +:+ show MAX_AGGREGATE_YAML_NODES +:+ " exceeded")
          else if MAX_OUTPUT_BROKERS <=? size (dc_brokers d) then
            validation "registry" ("output broker limit " +:+ show MAX_OUTPUT_BROKERS +:+ " exceeded")
          else
            Ok {| seen_ids := seen; yaml_nodes := total; dc_brokers := dc_brokers d ++ [broker];
                  dc_errors := dc_errors d |}
      end
  end.

Fixpoint decode_loop (d : Decoding) (files : list PendingDocument) : result RegistryError Decoding :=
  match files with
  | [] => Ok d
  | pending :: files => d ← decode_step d pending; decode_loop d files
  end.

Definition Decoding_new : Decoding :=
  {| seen_ids := []; yaml_nodes := 0; dc_brokers := []; dc_errors := [] |}.

(** [Path]'s order goes by component; under [brokers/xx/] it is the texts'. *)
Definition by_path (a b : PendingDocument) : bool := str_leb (display_path a) (display_path b).
Definition by_id (a b : Broker) : bool := str_leb (br_id a) (br_id b).

(** [root] is what the root path holds. *)
Definition load_reporting_from_dir (root_path : string) (root : option node) : io LoadReport :=
  root_metadata ← call root_path (ok_or not_found root);
  match entries_of root_metadata with
  | None => refuse "registry layout" "registry root must be a real directory"
  | Some root =>
      root ← call root_path (Ok root);
      _ ← validate_registry_metadata root;
      let brokers_path := path_join root_path "brokers" in
      brokers_metadata ← call brokers_path (ok_or not_found (node_at "brokers" root));
      match entries_of brokers_metadata with
      | None => refuse "registry layout" "brokers must be a real directory"
      | Some dir =>
          dir ← call brokers_path (Ok dir);
          '(files, _) ← collect_yaml (MAX_DIRECTORY_DEPTH + 2) 0 dir "brokers" ([], LoadBudget_default);
          d ← lift (decode_loop Decoding_new (sort_by by_path files));
          mret {| brokers := sort_by by_id (dc_brokers d); errors := dc_errors d |}
      end
  end.

Definition load_from_dir (root_path : string) (root : option node) : io (list Broker) :=
  report ← load_reporting_from_dir root_path root;
  match errors report with
  | error :: _ => lift (Err error)
  | [] => mret (brokers report)
  end.

(** ** The registry in the binary *)

Definition EXPECTED_EMBEDDED_BROKERS : nat := 1277.

Section embedded.
(** [FILES], which the build writes. *)
Context (FILES : list (string * bytes)).

Definition embedded (path : string) : result RegistryError bytes :=
  ok_or (Validation path "required embedded metadata is missing")
    (snd <$> find (λ f : string * bytes, String.eqb (fst f) path) FILES).

Definition validate_metadata (manifest_bytes schema_bytes : bytes) : result RegistryError () :=
  '(version, schema_path) ←
    map_err (λ error, Validation "manifest.json" ("is malformed: " +:+ error))
      (manifest_from_slice manifest_bytes);
  if negb (version =? 1) then
    validation "manifest.schema_version" ("unsupported version " +:+ show version)
  else if negb (String.eqb schema_path BROKER_SCHEMA_PATH) then
    validation "manifest.schemas.broker" "does not identify the pinned broker schema"
  else
    schema ← map_err (λ error, Validation BROKER_SCHEMA_PATH ("is malformed: " +:+ error))
               (schema_from_slice schema_bytes);
    if negb (schema =? version)
    then validation "schema_version" "manifest and broker schema versions do not match"
    else Ok ().

(** [path.rsplit('/').next()] *)
Definition base_name (path : string) : string :=
  match rsplit_once "/" path with Some (_, name) => name | None => path end.

(** One embedded document: the ids and brokers so far. *)
Definition embedded_step (acc : list string * list Broker) (file : string * bytes) :
    result RegistryError (list string * list Broker) :=
  let '(ids, loaded) := acc in
  let '(path, bytes) := file in
  let name := base_name path in
  if starts_with "_" name then Ok acc
  else
    let stem := match rsplit_once "." name with Some (stem, _) => stem | None => name end in
    if negb (is_utf8 bytes) then validation path "broker document is not UTF-8"
    else if str_in stem ids then validation "id" ("duplicate embedded broker id " +:+ debug_str stem)
    else
      broker ← map_err (λ error, with_path error path) (decode stem (text_of bytes));
      Ok (stem :: ids, loaded ++ [broker]).

Fixpoint embedded_loop (acc : list string * list Broker) (files : list (string * bytes)) :
    result RegistryError (list string * list Broker) :=
  match files with
  | [] => Ok acc
  | file :: files => acc ← embedded_step acc file; embedded_loop acc files
  end.

Definition load_embedded : result RegistryError (list Broker) :=
  manifest ← embedded "manifest.json";
  schema ← embedded BROKER_SCHEMA_PATH;
  _ ← validate_metadata manifest schema;
  '(_, loaded) ← embedded_loop ([], [])
    (List.filter (λ f : string * bytes, starts_with "brokers/" (fst f)) FILES);
  if negb (Nat.eqb (length loaded) EXPECTED_EMBEDDED_BROKERS) then
    validation "registry"
      ("embedded broker count " +:+ show (Z.of_nat (length loaded)) +:+ " does not equal "
       +:+ show (Z.of_nat EXPECTED_EMBEDDED_BROKERS))
  else Ok (sort_by by_id loaded).
End embedded.
End load.
