(* ===== verification/RegistryLoadFacts.v ===== *)
(** What loading a registry gives: exactly the brokers of the documents in the tree,
    each valid for its file, no id twice, within the limits of the walk. *)
From Stdlib Require Import Ascii Strings.Byte.
From S2P Require Import Prelude.
From S2P Require Import Text.
From S2P Require Import Registry.
From S2P Require Import RegistryValidate.
From S2P Require Import RegistryFacts.
From S2P Require Import Encryption.
From S2P Require Import McpTools.
From S2P Require Import Redaction.
From S2P Require Import RegistryLoad.

#[local] Notation length := List.length.

(** ** Programs *)

Lemma load_bind_ok {A B} (m : io A) (f : A → io B) t b t' :
  (m ≫= f) t = (Ok b, t') ↔ ∃ a t1, m t = (Ok a, t1) ∧ f a t1 = (Ok b, t').
Proof.
  unfold mbind, io_bind. destruct (m t) as [[a|e] t1]; split.
  - eauto.
  - by intros (a' & t1' & [= <- <-] & ?).
  - done.
  - by intros (? & ? & ? & _).
Qed.

Lemma ret_ok {A} (a b : A) t t' : (mret a : io A) t = (Ok b, t') ↔ b = a ∧ t' = t.
Proof. unfold mret, io_ret. naive_solver. Qed.

Lemma load_lift_ok {A} (m : result RegistryError A) b t t' : lift m t = (Ok b, t') ↔ m = Ok b ∧ t' = t.
Proof. unfold lift. naive_solver. Qed.

Lemma refuse_ok {A} field message (b : A) t t' : refuse field message t = (Ok b, t') ↔ False.
Proof. unfold refuse, lift, validation. by split. Qed.

Lemma io_if_ok {A} (c : bool) (m n : io A) t b t' :
  (if c then m else n) t = (Ok b, t') ↔ c = true ∧ m t = (Ok b, t') ∨ c = false ∧ n t = (Ok b, t').
Proof. destruct c; naive_solver. Qed.

Section facts.
Context `{RustFmt} `{LoadEnv} `{MetadataJson} `{Yaml}.

Lemma load_call_ok {A} path (res : result string A) b t t' : call path res t = (Ok b, t') → res = Ok b.
Proof. unfold call. destruct (io_fault t); [done|]. destruct res; [by intros [= -> _]|done]. Qed.

(** ** One file *)

Definition well_formed_file (e : string * node) : Prop :=
  ∃ content, e.2 = NFile content ∧ is_yaml e.1 = true ∧
    (starts_with "_" e.1 = false → is_utf8 content = true ∧ size content ≤ MAX_DOCUMENT_BYTES).

(** The document a file of a directory holds. *)
Definition file_document (display_dir : string) (e : string * node) : option PendingDocument :=
  match e.2 with
  | NFile content =>
      if starts_with "_" e.1 then None
      else Some {| stem := file_stem e.1; display_path := path_join display_dir e.1;
                   content := text_of content |}
  | _ => None
  end.

Definition documents (display_dir : string) (entries : list (string * node)) : list PendingDocument :=
  omap (file_document display_dir) entries.

(** What the budget counts is what has been collected. *)
Definition total_bytes (docs : list PendingDocument) : Z :=
  foldr (λ d n, size (lit (content d)) + n) 0 docs.

Definition accounted (w : Walk) : Prop :=
  broker_files w.2 = size w.1 ∧ size w.1 ≤ MAX_BROKER_FILES ∧
  input_bytes w.2 = total_bytes w.1 ∧ total_bytes w.1 ≤ MAX_INPUT_BYTES.

Lemma total_bytes_snoc docs d : total_bytes (docs ++ [d]) = total_bytes docs + size (lit (content d)).
Proof. induction docs as [|x docs IH]; cbn; [lia|]. unfold total_bytes in *. rewrite IH. lia. Qed.

Lemma read_bounded_ok file path input_bytes text n t t' :
  0 ≤ input_bytes →
  read_bounded file path input_bytes t = (Ok (text, n), t') →
  ∃ content, file = NFile content ∧ text = text_of content ∧ n = size content ∧
    is_utf8 content = true ∧ size content ≤ MAX_DOCUMENT_BYTES ∧ input_bytes + n ≤ MAX_INPUT_BYTES.
Proof.
  intros Hin. unfold read_bounded. rewrite io_if_ok, refuse_ok. intros [[_ []]|[Hlt Hr]].
  apply Z.leb_gt in Hlt. apply load_bind_ok in Hr as (md & t1 & Hmd%load_call_ok & Hr). injection Hmd as <-.
  apply io_if_ok in Hr as [[_ []%refuse_ok]|[Hreg Hr]]. apply negb_false_iff in Hreg.
  destruct file as [|content| |]; try done. cbn [bytes_of] in Hr.
  apply io_if_ok in Hr as [[_ []%refuse_ok]|[Hsz Hr]].
  apply load_bind_ok in Hr as (bytes & t2 & Hb%load_call_ok & Hr). injection Hb as <-.
  apply Z.ltb_ge in Hsz. unfold read_take in Hr. cbn [bytes_of] in Hr.
  rewrite take_ge in Hr by (unfold size in *; lia).
  apply io_if_ok in Hr as [[_ []%refuse_ok]|[_ Hr]].
  apply io_if_ok in Hr as [[Hu Hr]|[_ []%load_lift_ok]]; [|done].
  apply ret_ok in Hr as [[= -> ->] _]. exists content. split_and!; try done; lia.
Qed.

Lemma count_entries_ok display_dir entries budget budget' t t' :
  count_entries display_dir entries budget t = (Ok budget', t') →
  broker_files budget' = broker_files budget ∧ input_bytes budget' = input_bytes budget ∧
  directory_entries budget' = directory_entries budget + size entries ∧
  (directory_entries budget ≤ MAX_DIRECTORY_ENTRIES → directory_entries budget' ≤ MAX_DIRECTORY_ENTRIES).
Proof.
  unfold size. revert budget t. induction entries as [|e entries IH]; intros budget t; cbn [count_entries].
  { rewrite ret_ok. intros [-> _]. cbn [List.length]. split_and!; try done. lia. }
  intros (_ & t1 & _ & Hr)%load_bind_ok. apply io_if_ok in Hr as [[_ []%refuse_ok]|[Hle Hr]].
  apply Z.ltb_ge in Hle. apply IH in Hr as (-> & -> & -> & Hd). cbn in *.
  split_and!; try done; [lia|]. intros _. by apply Hd.
Qed.

Lemma lit_text_of raw : lit (text_of raw) = raw.
Proof. apply String.list_byte_of_string_of_list_byte. Qed.

Lemma total_bytes_nonneg docs : 0 ≤ total_bytes docs.
Proof. induction docs as [|d docs IH]; cbn; [done|]. unfold total_bytes in *. unfold size in *. lia. Qed.

Lemma collect_file_ok display_dir name n w w' t t' :
  accounted w → collect_file (path_join display_dir name) name n w t = (Ok w', t') →
  well_formed_file (name, n) ∧ accounted w' ∧
  w'.1 = w.1 ++ documents display_dir [(name, n)] ∧
  directory_entries w'.2 = directory_entries w.2.
Proof.
  intros (Hf & Hfm & Hb & Hbm). destruct w as [output budget]. unfold collect_file. cbn [fst snd] in *.
  intros Hr. apply io_if_ok in Hr as [[_ []%refuse_ok]|[Hn Hr]]. apply negb_false_iff in Hn.
  destruct n as [|raw| |]; try done. clear Hn.
  apply io_if_ok in Hr as [[_ []%refuse_ok]|[Hy Hr]]. apply negb_false_iff in Hy.
  apply io_if_ok in Hr as [[Hu Hr]|[Hu Hr]].
  { apply ret_ok in Hr as [-> _]. unfold documents, file_document, accounted. cbn. rewrite Hu.
    split_and!; try done; [|by rewrite app_nil_r]. exists raw. split_and!; try done. cbn. congruence. }
  apply io_if_ok in Hr as [[_ []%refuse_ok]|[Hle Hr]]. apply Z.ltb_ge in Hle.
  apply load_bind_ok in Hr as (file & t1 & Ho%load_call_ok & Hr). cbn in Ho. injection Ho as <-.
  apply load_bind_ok in Hr as ([text k] & t2 & Hrd & Hr).
  apply read_bounded_ok in Hrd as (content & [= <-] & -> & -> & Hutf & Hsz & Hmax);
    [|rewrite Hb; apply total_bytes_nonneg].
  apply ret_ok in Hr as [-> _]. unfold documents, file_document. cbn. rewrite Hu.
  split_and!; try done; [by exists raw|]. unfold accounted. cbn [fst snd broker_files input_bytes].
  rewrite total_bytes_snoc. cbn [content]. rewrite lit_text_of.
  unfold size in *. rewrite length_app. cbn [List.length]. lia.
Qed.

(** ** Directories *)

Definition within (w : Walk) : Prop := directory_entries w.2 ≤ MAX_DIRECTORY_ENTRIES.

Lemma documents_cons display_dir e entries :
  documents display_dir (e :: entries) = documents display_dir [e] ++ documents display_dir entries.
Proof. unfold documents. cbn. by destruct (file_document display_dir e). Qed.

(** Under a jurisdiction: files only. *)
Lemma collect_files_ok descend display_dir entries w w' t t' :
  accounted w → within w →
  collect_entries descend 1 display_dir entries w t = (Ok w', t') →
  Forall well_formed_file entries ∧ accounted w' ∧ within w' ∧
  w'.1 = w.1 ++ documents display_dir entries.
Proof.
  revert w t. induction entries as [|[name n] entries IH]; intros w t Ha Hw; cbn [collect_entries].
  { rewrite ret_ok. intros [-> _]. by rewrite app_nil_r. }
  intros Hr. apply io_if_ok in Hr as [[_ []%refuse_ok]|[_ Hr]].
  apply load_bind_ok in Hr as (ft & t1 & Hft%load_call_ok & Hr). injection Hft as <-.
  apply io_if_ok in Hr as [[_ []%refuse_ok]|[_ Hr]]. cbn [Nat.eqb] in Hr.
  destruct (entries_of n); [by apply refuse_ok in Hr|].
  apply io_if_ok in Hr as [[[=] _]|[_ Hr]].
  apply load_bind_ok in Hr as (w1 & t2 & Hc & Hr).
  apply collect_file_ok in Hc as (Hwf & Ha1 & E1 & Ed); [|done].
  apply IH in Hr as (Hwfs & Ha' & Hw' & E2); [|done|unfold within in *; lia].
  split_and!; try done; [by constructor|].
  by rewrite E2, E1, <- app_assoc, <- documents_cons.
Qed.

(** A registry's directories: jurisdictions that hold broker files. *)
Definition well_formed_directory (e : string * node) : Prop :=
  allowed_jurisdiction e.1 = true ∧ ∃ entries, e.2 = NDir entries ∧ Forall well_formed_file entries.

(** The documents under [brokers], jurisdictions and files by name. *)
Definition directory_documents (e : string * node) : list PendingDocument :=
  match e.2 with
  | NDir entries => documents (path_join "brokers" e.1) (sort_by by_name entries)
  | _ => []
  end.

Definition tree_documents (dir : list (string * node)) : list PendingDocument :=
  List.concat (directory_documents <$> sort_by by_name dir).

Lemma collect_yaml_1_ok fuel dir display_dir w w' t t' :
  accounted w → within w →
  collect_yaml (S fuel) 1 dir display_dir w t = (Ok w', t') →
  Forall well_formed_file dir ∧ accounted w' ∧ within w' ∧
  w'.1 = w.1 ++ documents display_dir (sort_by by_name dir).
Proof.
  intros Ha Hw. cbn [collect_yaml]. intros Hr.
  change (Nat.ltb MAX_DIRECTORY_DEPTH 1) with false in Hr. cbn iota in Hr.
  apply load_bind_ok in Hr as (_ & t1 & _ & Hr). apply load_bind_ok in Hr as (b & t2 & Hc & Hr).
  apply count_entries_ok in Hc as (Ef & Ei & _ & Hd).
  apply collect_files_ok in Hr as (Hwf & Ha' & Hw' & E).
  - split_and!; try done. by rewrite (sort_by_Permutation _ dir) in Hwf.
  - unfold accounted in *. cbn. by rewrite Ef, Ei.
  - by apply Hd.
Qed.

Lemma collect_directories_ok fuel entries w w' t t' :
  accounted w → within w →
  collect_entries (λ child path w, collect_yaml (S fuel) 1 child path w) 0 "brokers" entries w t = (Ok w', t') →
  Forall well_formed_directory entries ∧ accounted w' ∧ within w' ∧
  w'.1 = w.1 ++ List.concat (directory_documents <$> entries).
Proof.
  revert w t. induction entries as [|[name n] entries IH]; intros w t Ha Hw; cbn [collect_entries].
  { rewrite ret_ok. intros [-> _]. by rewrite app_nil_r. }
  intros Hr. apply io_if_ok in Hr as [[_ []%refuse_ok]|[_ Hr]].
  apply load_bind_ok in Hr as (ft & t1 & Hft%load_call_ok & Hr). injection Hft as <-.
  apply io_if_ok in Hr as [[_ []%refuse_ok]|[_ Hr]]. cbn [Nat.eqb] in Hr.
  destruct n as [child| | |]; cbn [entries_of] in Hr; try by apply refuse_ok in Hr.
  apply io_if_ok in Hr as [[Hj Hr]|[_ []%refuse_ok]].
  apply load_bind_ok in Hr as (ch & t2 & Hch%load_call_ok & Hr). injection Hch as <-.
  apply load_bind_ok in Hr as (w1 & t3 & Hc & Hr).
  apply collect_yaml_1_ok in Hc as (Hwf & Ha1 & Hw1 & E1); [|done..].
  apply IH in Hr as (Hwfs & Ha' & Hw' & E2); [|done..].
  split_and!; try done; [constructor; [split; [done|by exists child]|done]|].
  rewrite E2, E1, <- app_assoc. done.
Qed.

Lemma collect_yaml_ok fuel dir w' t t' :
  collect_yaml (S (S fuel)) 0 dir "brokers" ([], LoadBudget_default) t = (Ok w', t') →
  Forall well_formed_directory dir ∧ accounted w' ∧ w'.1 = tree_documents dir.
Proof.
  remember (S fuel) as f eqn:Ef. cbn [collect_yaml]. subst f. intros Hr.
  change (Nat.ltb MAX_DIRECTORY_DEPTH 0) with false in Hr. cbn iota in Hr.
  apply load_bind_ok in Hr as (_ & t1 & _ & Hr). apply load_bind_ok in Hr as (b & t2 & Hc & Hr).
  apply count_entries_ok in Hc as (Ef & Ei & _ & Hd).
  apply collect_directories_ok in Hr as (Hwf & Ha' & _ & E).
  - split_and!; try done. by rewrite (sort_by_Permutation _ dir) in Hwf.
  - unfold accounted. cbn. rewrite Ef, Ei. cbn. by split_and!.
  - unfold within. cbn. apply Hd. done.
Qed.

(** ** Decoding *)

Lemma decode_document_valid stem source b n :
  decode_document stem source = Ok (b, n) → valid_broker stem b.
Proof.
  unfold decode_document. destruct (decode_total stem source) as (r & -> & Hr). cbn. intros ->.
  by destruct (Hr b n eq_refl) as (_ & Hv & _).
Qed.

Definition decodes (doc : PendingDocument) (b : Broker) : Prop :=
  decode (stem doc) (content doc) = Ok b.

Lemma decode_document_decodes doc b n :
  decode_document (stem doc) (content doc) = Ok (b, n) → decodes doc b.
Proof. unfold decodes, decode. by intros ->. Qed.

Lemma decodes_valid doc b : decodes doc b → valid_broker (stem doc) b.
Proof.
  unfold decodes, decode. destruct (decode_document _ _) as [[b' n]|] eqn:E; [|done].
  intros [= <-]. by eapply decode_document_valid.
Qed.

(** The documents whose id no earlier one has. *)
Fixpoint firsts (seen : list string) (docs : list PendingDocument) : list PendingDocument :=
  match docs with
  | [] => []
  | doc :: docs =>
      if str_in (stem doc) seen then firsts seen docs else doc :: firsts (stem doc :: seen) docs
  end.

Definition decoded (doc : PendingDocument) : option Broker := ok (decode (stem doc) (content doc)).

Lemma find_seen name (seen : list (string * string)) :
  match find (λ s : string * string, String.eqb (fst s) name) seen with
  | Some _ => str_in name (seen.*1) = true
  | None => str_in name (seen.*1) = false
  end.
Proof.
  induction seen as [|[k v] seen IH]; [done|]. cbn.
  rewrite (String.eqb_sym name k). destruct (String.eqb k name); [done|]. cbn. exact IH.
Qed.

Lemma omap_cons_eq {A B} (f : A → option B) x l y :
  f x = y → omap f (x :: l) = match y with Some b => b :: omap f l | None => omap f l end.
Proof. by intros <-. Qed.

(** Every document gives its broker or one error; the first of an id counts. *)
Lemma decode_loop_ok d docs d' :
  decode_loop d docs = Ok d' →
  dc_brokers d' = dc_brokers d ++ omap decoded (firsts ((seen_ids d).*1) docs) ∧
  size (dc_errors d') + size (dc_brokers d') =
    size (dc_errors d) + size (dc_brokers d) + size docs ∧
  dc_errors d `prefix_of` dc_errors d'.
Proof.
  unfold size. revert d. induction docs as [|doc docs IH]; intros d; cbn [decode_loop firsts].
  { intros [= <-]. cbn [omap list_omap List.length]. rewrite app_nil_r. split_and!; [done|lia|done]. }
  unfold decode_step. pose proof (find_seen (stem doc) (seen_ids d)) as Hs.
  destruct (find _ (seen_ids d)) as [[k previous]|]; rewrite Hs.
  - cbn [mbind result_bind]. intros (-> & E & Hp)%IH.
    cbn [dc_errors dc_brokers seen_ids fmap list_fmap fst List.length] in *. rewrite ?length_app in *. cbn [List.length] in *.
    split_and!; [done|lia|]. by eapply prefix_app_l.
  - assert (Hd : decoded doc = ok (fst <$> decode_document (stem doc) (content doc))) by done.
    destruct (decode_document (stem doc) (content doc)) as [[b n]|e] eqn:Ed; cbn in Hd;
      rewrite (omap_cons_eq _ _ _ _ Hd).
    + destruct (_ <? _); [done|]. destruct (_ <=? _); [done|]. cbn [mbind result_bind].
      intros (-> & E & Hp)%IH.
    cbn [dc_errors dc_brokers seen_ids fmap list_fmap fst List.length] in *. rewrite ?length_app in *. cbn [List.length] in *.
      split_and!; [by rewrite <- app_assoc|lia|done].
    + cbn [mbind result_bind]. intros (-> & E & Hp)%IH.
    cbn [dc_errors dc_brokers seen_ids fmap list_fmap fst List.length] in *. rewrite ?length_app in *. cbn [List.length] in *.
      split_and!; [done|lia|]. by eapply prefix_app_l.
Qed.

(** ** The registry *)

(** Manifest and schema are there, small, and of the version the program knows. *)
Definition metadata_known (entries : list (string * node)) : Prop :=
  ∃ m s, walk entries (split "/" "manifest.json") = Ok (NFile m) ∧ size m ≤ MAX_METADATA_BYTES ∧
    manifest_from_slice m = Ok (SUPPORTED_REGISTRY_SCHEMA_VERSION, BROKER_SCHEMA_PATH) ∧
    walk entries (split "/" BROKER_SCHEMA_PATH) = Ok (NFile s) ∧ size s ≤ MAX_METADATA_BYTES ∧
    schema_from_slice s = Ok SUPPORTED_REGISTRY_SCHEMA_VERSION.

Lemma read_metadata_ok entries path bytes t t' :
  read_metadata entries path t = (Ok bytes, t') →
  walk entries (split "/" path) = Ok (NFile bytes) ∧ size bytes ≤ MAX_METADATA_BYTES.
Proof.
  unfold read_metadata. intros (file & t1 & Hw%load_call_ok & Hr)%load_bind_ok.
  apply load_bind_ok in Hr as (md & t2 & Hmd%load_call_ok & Hr). injection Hmd as <-.
  apply io_if_ok in Hr as [[_ []%refuse_ok]|[Hreg Hr]]. apply negb_false_iff in Hreg.
  apply io_if_ok in Hr as [[_ []%refuse_ok]|[Hsz Hr]]. apply Z.ltb_ge in Hsz.
  apply load_bind_ok in Hr as (b & t3 & Hb%load_call_ok & Hr). injection Hb as <-.
  apply io_if_ok in Hr as [[_ []%refuse_ok]|[_ Hr]]. apply ret_ok in Hr as [-> _].
  destruct file as [|content| |]; try done. unfold read_take in *. cbn [bytes_of] in *.
  rewrite take_ge by (unfold size in *; lia). done.
Qed.

Lemma validate_registry_metadata_ok entries t t' :
  validate_registry_metadata entries t = (Ok (), t') → metadata_known entries.
Proof.
  unfold validate_registry_metadata. intros (m & t1 & [Hm Hms]%read_metadata_ok & Hr)%load_bind_ok.
  apply load_bind_ok in Hr as ([version schema_path] & t2 & [Hp%map_err_ok _]%load_lift_ok & Hr).
  apply io_if_ok in Hr as [[_ []%refuse_ok]|[Hv%negb_false_iff%Z.eqb_eq Hr]].
  apply io_if_ok in Hr as [[_ []%refuse_ok]|[Hsp%negb_false_iff%String.eqb_eq Hr]].
  apply load_bind_ok in Hr as (s & t3 & [Hs Hss]%read_metadata_ok & Hr).
  apply load_bind_ok in Hr as (schema & t4 & [Hsc%map_err_ok _]%load_lift_ok & Hr).
  apply io_if_ok in Hr as [[_ []%refuse_ok]|[Hv2%negb_false_iff%Z.eqb_eq Hr]].
  subst. exists m, s. done.
Qed.

Lemma load_reporting_ok root_path root report t t' :
  load_reporting_from_dir root_path root t = (Ok report, t') →
  ∃ entries dir, root = Some (NDir entries) ∧ metadata_known entries ∧
    node_at "brokers" entries = Some (NDir dir) ∧ Forall well_formed_directory dir ∧
    size (tree_documents dir) ≤ MAX_BROKER_FILES ∧ total_bytes (tree_documents dir) ≤ MAX_INPUT_BYTES ∧
    let docs := sort_by by_path (tree_documents dir) in
    brokers report = sort_by by_id (omap decoded (firsts [] docs)) ∧
    size (errors report) + size (brokers report) = size docs.
Proof.
  unfold load_reporting_from_dir. intros (rm & t1 & Hrm%load_call_ok & Hr)%load_bind_ok.
  destruct root as [n|]; [|done]. injection Hrm as ->.
  destruct rm as [entries| | |]; cbn [entries_of] in Hr; try by apply refuse_ok in Hr.
  apply load_bind_ok in Hr as (e & t2 & He%load_call_ok & Hr). injection He as <-.
  apply load_bind_ok in Hr as ([] & t3 & Hmd%validate_registry_metadata_ok & Hr). cbv zeta in Hr.
  apply load_bind_ok in Hr as (bm & t4 & Hbm%load_call_ok & Hr).
  destruct (node_at "brokers" entries) as [bn|] eqn:Hbn; [|done]. injection Hbm as ->.
  destruct bm as [dir| | |]; cbn [entries_of] in Hr; try by apply refuse_ok in Hr.
  apply load_bind_ok in Hr as (d & t5 & Hd%load_call_ok & Hr). injection Hd as <-.
  apply load_bind_ok in Hr as ([files budget] & t6 & Hc & Hr).
  apply collect_yaml_ok in Hc as (Hwf & (_ & Hn & _ & Hb) & Ef). cbn [fst snd] in *. subst files.
  apply load_bind_ok in Hr as (d' & t7 & [Hl _]%load_lift_ok & Hr). apply ret_ok in Hr as [-> _].
  apply decode_loop_ok in Hl as (Eb & En & _). cbn [Decoding_new seen_ids dc_brokers dc_errors fmap list_fmap app] in *.
  exists entries, dir. split_and!; try done; cbn [brokers errors]; [by rewrite Eb|].
  unfold size in *. rewrite (Permutation_length (sort_by_Permutation by_id _)). cbn in En. lia.
Qed.

Lemma omap_length_le {A B} (f : A → option B) l : (length (omap f l) ≤ length l)%nat.
Proof. induction l as [|x l IH]; cbn; [done|]. destruct (f x); cbn; lia. Qed.

Lemma firsts_length seen docs : (length (firsts seen docs) ≤ length docs)%nat.
Proof. revert seen. induction docs as [|d docs IH]; intros seen; cbn; [done|]. destruct (str_in _ _); cbn; [specialize (IH seen)|specialize (IH (stem d :: seen))]; lia. Qed.

(** As many brokers as documents: no id came twice and every document decodes. *)
Lemma firsts_all seen docs :
  length (omap decoded (firsts seen docs)) = length docs →
  Forall2 decodes docs (omap decoded (firsts seen docs)) ∧ NoDup (stem <$> docs) ∧
  Forall (λ d, stem d ∉ seen) docs.
Proof.
  revert seen. induction docs as [|d docs IH]; intros seen; cbn [firsts].
  { intros _. split_and!; [done|apply NoDup_nil_2|done]. }
  pose proof (omap_length_le decoded (firsts seen docs)).
  pose proof (omap_length_le decoded (firsts (stem d :: seen) docs)).
  pose proof (firsts_length seen docs). pose proof (firsts_length (stem d :: seen) docs).
  destruct (str_in (stem d) seen) eqn:E; [cbn [List.length]; lia|].
  destruct (decoded d) as [b|] eqn:Ed; rewrite (omap_cons_eq _ _ _ _ Ed); cbn [List.length]; [|lia].
  intros [= Hl]. apply IH in Hl as (Hall & Hnd & Hf). rewrite Forall_forall in Hf. split_and!.
  - constructor; [|done]. unfold decoded in Ed. unfold decodes. by destruct (decode _ _) as [|]; [injection Ed as ->|].
  - cbn. apply NoDup_cons. split; [|done]. intros (d' & E' & Hd')%list_elem_of_fmap.
    apply (Hf d' Hd'). rewrite E'. set_solver.
  - constructor; [rewrite <- str_in_spec; by rewrite E|]. apply Forall_forall. intros d' Hd'.
    specialize (Hf d' Hd'). set_solver.
Qed.

(** C21: what the program knows of brokers is what the registry says.  When loading a
    directory succeeds, the directory is a registry of the known version; under
    [brokers/] there is nothing but the jurisdictions' directories and nothing in
    those but YAML files, at most 4096 that count and 16 MiB together; no id occurs
    twice; and the result, sorted by id, holds for every such file that is not a
    fragment the broker it decodes to - whose id is the file's stem and which meets
    the registry contract - and nothing else. *)
Theorem load_from_dir_spec root_path root bs t t' :
  load_from_dir root_path root t = (Ok bs, t') →
  ∃ entries dir decoded_brokers, root = Some (NDir entries) ∧ metadata_known entries ∧
    node_at "brokers" entries = Some (NDir dir) ∧ Forall well_formed_directory dir ∧
    let docs := tree_documents dir in
    size docs ≤ MAX_BROKER_FILES ∧ total_bytes docs ≤ MAX_INPUT_BYTES ∧ NoDup (stem <$> docs) ∧
    Forall2 (λ doc b, decode (stem doc) (content doc) = Ok b ∧ valid_broker (stem doc) b) docs decoded_brokers ∧
    bs ≡ₚ decoded_brokers ∧ StronglySorted (λ a b, by_id a b = true) bs ∧ NoDup (br_id <$> bs).
Proof.
  unfold load_from_dir. intros (report & t1 & Hr & Hl)%load_bind_ok.
  destruct (errors report) as [|e es] eqn:Ee; [|by apply load_lift_ok in Hl as [? _]].
  apply ret_ok in Hl as [-> _].
  apply load_reporting_ok in Hr as (entries & dir & -> & Hmd & Hb & Hwf & Hn & Ht & Hr). cbv zeta in Hr.
  set (docs := tree_documents dir) in *. destruct Hr as [Eb El].
  rewrite Ee, Eb in El. unfold size in El at 1 2 3. cbn [List.length] in El.
  rewrite (Permutation_length (sort_by_Permutation by_id _)) in El.
  destruct (firsts_all [] (sort_by by_path docs)) as (Hall & Hnd & _); [lia|].
  pose proof (sort_by_Permutation by_path docs) as Hp.
  destruct (Permutation_Forall2 Hp Hall) as (ds & Hpd & Hds).
  exists entries, dir, ds. cbv zeta. fold docs. split_and!; try done.
  - by rewrite <- Hp.
  - eapply Forall2_impl; [exact Hds|]. intros doc b Hd. split; [done|by apply decodes_valid].
  - rewrite Eb, sort_by_Permutation. done.
  - rewrite Eb. apply sort_by_StronglySorted; unfold by_id; eauto with erase.
  - rewrite Eb, sort_by_Permutation, Hpd.
    assert (br_id <$> ds = stem <$> docs) as ->; [|by rewrite <- Hp].
    clear -Hds. induction Hds as [|doc b l k Hd _ IH]; [done|]. cbn. rewrite IH. f_equal.
    apply decodes_valid in Hd. by destruct (vb_id _ _ Hd) as [-> _].
Qed.
End facts.

(* ------------------------------------------------------------------ *)
(** ** At a concrete registry *)

Module Sample.
#[local] Instance plain_fmt : RustFmt := {| debug_str s := s |}.

(** A system without faults, and a reader of documents whose text is the id. *)
#[local] Instance sample_env : LoadEnv := {|
  io_fault _ := None; not_found := "not found"; is_a_link := "too many links";
  not_a_directory := "not a directory"; invalid_utf8 := "invalid utf-8" |}.

#[local] Instance sample_metadata : MetadataJson := {|
  manifest_from_slice _ := Ok (1, BROKER_SCHEMA_PATH); schema_from_slice _ := Ok 1 |}.

Definition wire (id : string) : BrokerWire := {|
  bw_id := id; bw_name := "Acme"; bw_website := "https://acme.example"; bw_category := PeopleSearch;
  bw_jurisdictions := [Eu]; bw_laws := [Gdpr]; bw_data_sensitivity := 3; bw_priority := High;
  bw_opt_out := [{| cw_channel_type := EmailType; cw_endpoint := Some "privacy@acme.example";
                    cw_url := None; cw_form_spec := None;
                    cw_common := {| ch_template := None; ch_locale := None; ch_required_fields := None;
                      ch_supports_suppression := None; ch_expected_response_days := None;
                      ch_disabled := None |} |}];
  bw_verification := None; bw_disabled := None; bw_added_date := None; bw_source := None;
  bw_status := Active; bw_notes := None |}.

#[local] Instance sample_yaml : Yaml := {|
  scan_tokens _ := (sample_tokens, None);
  yaml_from_str s := Ok (YMapping [(YString "id", YString s)]);
  broker_from_value v := match v with YMapping [(_, YString s)] => Ok (wire s) | _ => Err "not a broker" end |}.

Definition plain (s : string) : node := NFile (lit s).

Definition registry : option node := Some (NDir
  [("manifest.json", plain "{}");
   ("schemas", NDir [("broker.schema.json", plain "{}")]);
   ("brokers", NDir
     [("us", NDir [("zeta.yml", plain "zeta"); ("_template.yaml", plain "?")]);
      ("eu", NDir [("acme.yaml", plain "acme")])])]).

Definition outcome (root : option node) : result RegistryError (list string) :=
  fmap (List.map br_id) (fst (load_from_dir "/r" root 0%nat)).

Example loads : outcome registry = Ok ["acme"; "zeta"].
Proof. vm_compute. reflexivity. Qed.

(** A broker file under a directory that is no jurisdiction is refused. *)
Example refuses_elsewhere :
  outcome (Some (NDir
    [("manifest.json", plain "{}"); ("schemas", NDir [("broker.schema.json", plain "{}")]);
     ("brokers", NDir [("fr", NDir [("acme.yaml", plain "acme")])])])) =
  Err (Validation "registry layout" "expected brokers/{eu,uk,us}/<filename>.yaml|yml, got brokers/fr").
Proof. vm_compute. reflexivity. Qed.

Lemma load_from_dir_spec_witness :
  ∃ bs t', load_from_dir "/r" registry 0%nat = (Ok bs, t') ∧ NoDup (br_id <$> bs).
Proof.
  eexists _, _. assert (E : load_from_dir "/r" registry 0%nat = (Ok [_; _], _)) by (vm_compute; reflexivity).
  split; [exact E|].
  by destruct (load_from_dir_spec _ _ _ _ _ E) as (? & ? & ? & _ & _ & _ & _ & _ & _ & _ & _ & _ & _ & H).
Defined.
End Sample.
