(* ===== verification/RegistrySync.v ===== *)
(** Downloading and installing a registry: [core/registry/sync.rs].

    The archive's gzip and tar layers, URL parsing and the transport are parameters;
    IP addresses are parsed as the standard library does.  The part of the file
    system that matters is what the destination, the staging directory and the backup
    directory hold; every state on the way is kept, so that a crash can be asked
    about at any point. *)
From Stdlib Require Import Ascii Strings.Byte.
From S2P Require Import Prelude.
From S2P Require Import Text.
From S2P Require Import Registry.
From S2P Require Import RegistryValidate.
From S2P Require Import RegistryFacts.
From S2P Require Import Encryption.
From S2P Require Import Disk.
From S2P Require Import Scheduler.
From S2P Require Import SchedulerFacts.
From S2P Require Import McpTools.
From S2P Require Import Redaction.
From S2P Require Import RegistryLoad.
From S2P Require Import RegistryLoadFacts.

#[local] Notation length := List.length.

(** ** Limits *)

Definition MAX_COMPRESSED_BYTES : Z := Z.shiftl 64 20.
Definition MAX_EXPANDED_BYTES : Z := Z.shiftl 64 20.
Definition MAX_FILE_BYTES : Z := Z.shiftl 1 20.
Definition MAX_FILES : Z := 4096.
Definition MAX_ARCHIVE_ENTRIES : Z := 8192.
Definition MAX_PATH_BYTES : Z := 4096.
Definition MAX_TAR_PADDING_BYTES : Z := 20 * 512.
Definition REQUEST_TIMEOUT : Z := 60.

Definition DEFAULT_SYNC_URL : string :=
  "https://github.com/danieljustus/symaira-eraseme/releases/latest/download/registry.tar.gz".

Definition refused {A} (message : string) : result RegistryError A := validation "sync" message.

(** ** URLs *)

(** [IpAddr::from_str]: every reader gives the value and the characters left. *)
Definition Reader (A : Type) : Type := list ascii → option (A * list ascii).

Definition digit_of (radix : Z) (c : ascii) : option Z :=
  let n := Z.of_N (N_of_ascii c) in
  let d := if is_ascii_digit c then Some (n - 48)
           else if (97 <=? n) && (n <=? 102) then Some (n - 87)
           else if (65 <=? n) && (n <=? 70) then Some (n - 55) else None in
  match d with Some v => if v <? radix then Some v else None | None => None end.

(** The digits in front, at most [max_digits] of them and no larger than [top];
    [None] when there are more. *)
Fixpoint digits_loop (radix top : Z) (max_digits count : nat) (acc : Z) (l : list ascii) :
    option (nat * Z * list ascii) :=
  match l with
  | [] => Some (count, acc, [])
  | c :: rest =>
      match digit_of radix c with
      | None => Some (count, acc, l)
      | Some d =>
          let acc := acc * radix + d in
          if (top <? acc) || Nat.leb max_digits count then None
          else digits_loop radix top max_digits (S count) acc rest
      end
  end.

Definition read_number (radix top : Z) (max_digits : nat) (allow_zero_prefix : bool) : Reader Z := λ l,
  let has_leading_zero := match l with c :: _ => Ascii.eqb c "0" | [] => false end in
  match digits_loop radix top max_digits 0 0 l with
  | Some (count, n, rest) =>
      if Nat.eqb count 0 then None
      else if negb allow_zero_prefix && has_leading_zero && Nat.ltb 1 count then None
      else Some (n, rest)
  | None => None
  end.

Definition read_char (c : ascii) : Reader () := λ l,
  match l with x :: rest => if Ascii.eqb x c then Some ((), rest) else None | [] => None end.

(** [read_separator]: none before the first. *)
Definition read_separated {A} (sep : ascii) (index : nat) (inner : Reader A) : Reader A := λ l,
  if Nat.eqb index 0 then inner l
  else '(_, rest) ← read_char sep l; inner rest.

Definition read_octet (index : nat) : Reader Z := read_separated "." index (read_number 10 255 3 false).

Definition read_ipv4 : Reader (list Z) := λ l,
  '(a, l) ← read_octet 0 l; '(b, l) ← read_octet 1 l; '(c, l) ← read_octet 2 l; '(d, l) ← read_octet 3 l;
  Some ([a; b; c; d], l).

(** [read_groups] with [groups_left] groups still allowed: the groups and whether an IPv4
    address ended them. *)
Fixpoint read_groups (groups_left index : nat) (l : list ascii) : list Z * bool * list ascii :=
  match groups_left with
  | O => ([], false, l)
  | S groups_left =>
      let v4 := if Nat.ltb 0 groups_left then read_separated ":" index read_ipv4 l else None in
      match v4 with
      | Some ([a; b; c; d], rest) => ([a * 256 + b; c * 256 + d], true, rest)
      | _ =>
          match read_separated ":" index (read_number 16 65535 4 true) l with
          | Some (group, rest) =>
              let '(groups, v4, rest) := read_groups groups_left (S index) rest in
              (group :: groups, v4, rest)
          | None => ([], false, l)
          end
      end
  end.

Definition read_ipv6 : Reader (list Z) := λ l,
  let '(head, head_v4, l) := read_groups 8 0 l in
  if Nat.eqb (length head) 8 then Some (head, l)
  else if head_v4 then None
  else
    '(_, l) ← read_char ":" l; '(_, l) ← read_char ":" l;
    let '(tail, _, l) := read_groups (8 - (length head + 1)) 0 l in
    Some (head ++ replicate (8 - length head - length tail) 0 ++ tail, l).

Inductive IpAddr := V4 (octets : list Z) | V6 (groups : list Z).

Definition parse_ip_addr (l : list ascii) : option IpAddr :=
  match read_ipv4 l with
  | Some (octets, rest) => match rest with [] => Some (V4 octets) | _ => None end
  | None => match read_ipv6 l with Some (groups, []) => Some (V6 groups) | _ => None end
  end.

Definition is_loopback (address : IpAddr) : bool :=
  match address with
  | V4 octets => match octets with o :: _ => o =? 127 | [] => false end
  | V6 groups => bool_decide (groups = [0; 0; 0; 0; 0; 0; 0; 1])
  end.

(** [ureq::http::Uri]: the scheme and, of the authority, its text and its host. *)
Class UriParse := { parse_uri : string → option (option string * option (string * string)) }.

Definition is_bracket (c : ascii) : bool := Ascii.eqb c "[" || Ascii.eqb c "]".

(** [host.trim_matches(['[', ']'])] *)
Fixpoint drop_brackets (l : list ascii) : list ascii :=
  match l with c :: rest => if is_bracket c then drop_brackets rest else l | [] => [] end.
Definition trim_brackets (s : string) : list ascii :=
  rev (drop_brackets (rev (drop_brackets (list_ascii_of_string s)))).

Definition loopback_host (host : string) : bool :=
  String.eqb host "localhost" ||
  match parse_ip_addr (trim_brackets host) with
  | Some address => is_loopback address
  | None => false
  end.

Definition validate_url `{UriParse} (raw : string) : result RegistryError () :=
  match parse_uri raw with
  | Some (Some scheme, Some (authority, host)) =>
      if str_existsb (Ascii.eqb "@") authority then refused "URL userinfo is not allowed"
      else if is_empty host then refused "invalid URL"
      else if String.eqb scheme "https" then Ok ()
      else if String.eqb scheme "http" && loopback_host host then Ok ()
      else refused "HTTPS is required (except loopback test URLs)"
  | _ => refused "invalid URL"
  end.

Example loopback_hosts :
  List.map loopback_host ["localhost"; "127.0.0.1"; "127.8.0.255"; "[::1]"; "0:0:0:0:0:0:0:1"; "[::0.0.0.1]";
    "[0:0::1]"] = replicate 7 true ∧
  List.map loopback_host ["127.0.0.256"; "0127.0.0.1"; "127.1"; "[::2]"; "::1::"; "::00001"; "1:2:3:4:5:6:7:8:9";
    "evil.example"; "127.0.0.1.evil.example"; "[::ffff:127.0.0.1]"; ""] = replicate 11 false.
Proof. split; vm_compute; reflexivity. Qed.

(* ------------------------------------------------------------------ *)
(** ** The world *)

(** What the paths the code names hold: the destination, the staging directory, and
    the backup directory with what was moved into it. *)
Record Places := {
  at_destination : option node;
  at_staging : option node;
  at_backup : option (option node);
}.

(** [passed]: every state so far, the latest first. *)
Record World := { calls : nat; here : Places; passed : list Places }.

Class SyncEnv := {
  sync_fault : nat → option ioError;
  leftover : nat → option node;         (** what a failing removal leaves *)
  partial : nat → nat;                  (** bytes a failing write has written *)
  not_found_text : string;
  exists_text : string;
  link_text : string;
  not_a_directory_text : string;
}.

Inductive EntryType := DirectoryEntry | RegularEntry | OtherEntry.

(** An entry of the archive: its header and what reading it gives. *)
Record TarEntry := {
  path_bytes : bytes;
  entry_type : EntryType;
  entry_size : Z;
  entry_data : bytes;
  entry_error : option ioError;         (** met after [entry_data] *)
}.

(** The decompressed stream as the tar reader gives it: the entries, what is read
    after the last, and what of the input is left behind the compressed stream. *)
Class TarGz := {
  archive_entries : bytes → result ioError (list (result ioError TarEntry));
  archive_tail : bytes → list (result ioError bytes);
  compressed_tail : bytes → result ioError bytes;
}.

(** The response: a status and the reads of its body. *)
Record SyncResponse := { status : Z; body : list (result ioError bytes) }.

Class SyncTransport := { transport_get : string → Z → result RegistryError SyncResponse }.

Definition prog (A : Type) : Type := World → A * World.
Definition sync_io (A : Type) : Type := prog (result RegistryError A).

#[export] Instance sync_ret : MRet sync_io := λ A a w, (Ok a, w).
#[export] Instance sync_bind : MBind sync_io := λ A B f m w,
  match m w with (Ok a, w) => f a w | (Err e, w) => (Err e, w) end.

Definition pure {A} (m : result RegistryError A) : sync_io A := λ w, (m, w).

Definition tick (w : World) : World := {| calls := S (calls w); here := here w; passed := passed w |}.
Definition move (p : Places) (w : World) : World :=
  {| calls := S (calls w); here := p; passed := p :: passed w |}.

Definition with_staging (n : option node) (p : Places) : Places :=
  {| at_destination := at_destination p; at_staging := n; at_backup := at_backup p |}.
Definition with_backup (b : option (option node)) (p : Places) : Places :=
  {| at_destination := at_destination p; at_staging := at_staging p; at_backup := b |}.

Section sync.
Context `{RustFmt} `{SyncEnv} `{TarGz} `{SyncTransport} `{UriParse}.

(** A call that changes the places, or fails and changes nothing. *)
Definition attempt {A} (f : Places → result ioError (A * Places)) : prog (result ioError A) := λ w,
  match sync_fault (calls w) with
  | Some e => (Err e, tick w)
  | None => match f (here w) with Ok (a, p) => (Ok a, move p w) | Err e => (Err e, tick w) end
  end.

(** A call that only looks. *)
Definition look {A} (f : Places → result ioError A) : prog (result ioError A) := λ w,
  (match sync_fault (calls w) with Some e => Err e | None => f (here w) end, tick w).

Definition io_error (path : string) (e : ioError) : RegistryError := RegistryIo path (text e).

Definition at_path {A} (path : string) (m : prog (result ioError A)) : sync_io A := λ w,
  let '(r, w) := m w in (map_err (io_error path) r, w).

Definition missing : ioError := IoError NotFound not_found_text.
Definition existing : ioError := IoError AlreadyExists exists_text.

(** [remove_dir_all]; what a failure leaves is the environment's choice. *)
Definition remove_all (gone : Places → Places) (kept : option node → Places → Places) :
    prog (result ioError ()) := λ w,
  match sync_fault (calls w) with
  | Some e => (Err e, move (kept (leftover (calls w)) (here w)) w)
  | None => (Ok (), move (gone (here w)) w)
  end.

Definition keep_staging (n : option node) (p : Places) : Places :=
  match at_staging p with Some _ => with_staging n p | None => p end.
Definition remove_staging : prog (result ioError ()) := remove_all (with_staging None) keep_staging.
Definition remove_backup : prog (result ioError ()) :=
  remove_all (with_backup None) (λ old, with_backup (Some old)).

(** ** Reading *)

Fixpoint read_loop (limit : Z) (acc : bytes) (reads : list (result ioError bytes)) :
    result RegistryError bytes :=
  match reads with
  | [] => Ok acc
  | Err e :: _ => Err (io_error "sync" e)
  | Ok chunk :: reads =>
      let count := size chunk in
      if count =? 0 then Ok acc
      else if (limit - Z.min count limit <? size acc) || (limit <? size acc + count)
      then refused ("compressed body exceeds " +:+ show limit +:+ " bytes")
      else read_loop limit (acc ++ chunk) reads
  end.

Definition read_bounded (reads : list (result ioError bytes)) (limit : Z) : result RegistryError bytes :=
  read_loop limit [] reads.

(** ** Paths in the archive *)

Definition windows_absolute (value : string) : bool :=
  match value with
  | String c (String d _) => Ascii.eqb d ":" && is_ascii_alphabetic c
  | _ => false
  end.

Fixpoint push_names (path : string) (parts : list string) : result RegistryError string :=
  match parts with
  | [] => Ok path
  | part :: parts =>
      if is_empty part then push_names path parts
      else if String.eqb part "." || String.eqb part ".." then refused "traversal archive path"
      else push_names (path_join path part) parts
  end.

Definition is_outside (c : Component) : bool :=
  match c with ParentDir | RootDir => true | CurDir | Normal _ => false end.

Definition safe_archive_path (raw : bytes) : result RegistryError string :=
  if (size raw =? 0) || (MAX_PATH_BYTES <? size raw) then refused "invalid archive path"
  else if negb (is_utf8 raw) then refused "archive path is not UTF-8"
  else
    let value := text_of raw in
    if str_existsb (Ascii.eqb zero) value || str_existsb (Ascii.eqb "\") value || starts_with "/" value
       || windows_absolute value
    then refused "absolute or invalid archive path"
    else
      path ← push_names "" (split "/" value);
      if existsb is_outside (components path) then refused "unsafe archive path"
      else if is_empty path then refused "empty archive path"
      else Ok path.

(** ** The staging directory *)

Definition Entries : Type := list (string * node).

(** The staging directory's entries; the path's directory of it is reached through
    directories only. *)
Fixpoint dir_at (entries : Entries) (names : list string) : result ioError Entries :=
  match names with
  | [] => Ok entries
  | name :: names =>
      match node_at name entries with
      | None => Err missing
      | Some (NDir entries) => dir_at entries names
      | Some (NSymlink _) => Err (IoError OtherKind link_text)
      | Some _ => Err (IoError OtherKind not_a_directory_text)
      end
  end.

Definition put (name : string) (n : node) (entries : Entries) : Entries :=
  List.filter (λ e, negb (String.eqb (fst e) name)) entries ++ [(name, n)].

Fixpoint change_at (names : list string) (f : Entries → Entries) (entries : Entries) : Entries :=
  match names with
  | [] => f entries
  | name :: names =>
      List.map (λ e : string * node,
        match e with
        | (n, NDir inner) => if String.eqb n name then (n, NDir (change_at names f inner)) else e
        | _ => e
        end) entries
  end.

Definition staged (p : Places) : result ioError Entries :=
  match at_staging p with Some (NDir entries) => Ok entries | _ => Err missing end.

(** [open_dir_nofollow] of a name in an open directory. *)
Definition open_dir (current : list string) (name : string) : prog (result ioError (list string)) :=
  look (λ p, entries ← staged p; _ ← dir_at entries (current ++ [name]); Ok (current ++ [name])).

(** A name that must not exist yet. *)
Definition create (current : list string) (name : string) (n : node) : prog (result ioError ()) :=
  attempt (λ p,
    entries ← staged p;
    dir ← dir_at entries current;
    match node_at name dir with
    | Some _ => Err existing
    | None => Ok ((), with_staging (Some (NDir (change_at current (put name n) entries))) p)
    end).

Fixpoint create_loop (path : string) (current : list string) (components : list Component) :
    sync_io (list string) :=
  match components with
  | [] => mret current
  | Normal name :: components => λ w,
      let '(opened, w) := open_dir current name w in
      match opened with
      | Ok next => create_loop path next components w
      | Err source =>
          match kind source with
          | NotFound =>
              (_ ← at_path path (create current name (NDir []));
               next ← at_path path (open_dir current name);
               create_loop path next components) w
          | _ => (Err (io_error path source), w)
          end
      end
  | _ :: _ => pure (refused "unsafe archive path")
  end.

Definition create_relative_dir_all (path : string) (components : list Component) : sync_io () :=
  current ← at_path path (look (λ _, Ok []));
  _ ← create_loop path current components;
  mret ().

Fixpoint open_loop (path : string) (current : list string) (components : list Component) :
    sync_io (list string) :=
  match components with
  | [] => mret current
  | Normal name :: components =>
      next ← at_path path (open_dir current name);
      open_loop path next components
  | _ :: _ => pure (refused "unsafe archive path")
  end.

(** [path.file_name()] *)
Definition file_name (path : string) : option string :=
  match last (components path) with Some (Normal name) => Some name | _ => None end.

Definition open_parent_dir (path : string) : sync_io (list string * string) :=
  name ← pure (ok_or (Validation "sync" "empty archive path") (file_name path));
  let parent_path := removelast (components path) in
  _ ← create_relative_dir_all (push_components parent_path) parent_path;
  current ← at_path path (look (λ _, Ok []));
  parent ← open_loop path current parent_path;
  mret (parent, name).

(** [io::copy] into the open file: what was written when it fails stays. *)
Definition write_file (parent : list string) (name : string) (source : bytes) (error : option ioError) :
    prog (result ioError Z) := λ w,
  let fault := sync_fault (calls w) in
  let written := match fault with Some _ => take (partial (calls w)) source | None => source end in
  let outcome := match fault, error with
                 | Some e, _ | None, Some e => Err e
                 | None, None => Ok (size source)
                 end in
  match staged (here w) with
  | Err e => (Err e, tick w)
  | Ok entries =>
      (outcome, move (with_staging (Some (NDir (change_at parent (put name (NFile written)) entries))) (here w)) w)
  end.

Definition copy_exact (parent : list string) (name : string) (entry : TarEntry) (bound : Z) (path : string) :
    sync_io () :=
  let limited := take (Z.to_nat bound) (entry_data entry) in
  let error := if size limited <? bound then entry_error entry else None in
  copied ← at_path path (write_file parent name limited error);
  if negb (copied =? bound) then pure (refused "archive file ended before declared size") else mret ().

(** [entries], [files] and [expanded] of the loop. *)
Record Counters := { ct_entries : Z; ct_files : Z; ct_expanded : Z }.

Definition extract_file (c : Counters) (path : string) (entry : TarEntry) : sync_io Counters :=
  let bound := entry_size entry in
  if MAX_FILE_BYTES <? bound
  then pure (refused ("file size limit " +:+ show MAX_FILE_BYTES +:+ " exceeded"))
  else
    let files := ct_files c + 1 in
    if MAX_FILES <? files then pure (refused ("file limit " +:+ show MAX_FILES +:+ " exceeded"))
    else
      let expanded := ct_expanded c + bound in
      if 2 ^ 64 <=? expanded then pure (refused "expanded byte counter overflowed")
      else if MAX_EXPANDED_BYTES <? expanded
      then pure (refused ("expanded archive limit " +:+ show MAX_EXPANDED_BYTES +:+ " exceeded"))
      else
        '(parent, name) ← open_parent_dir path;
        _ ← at_path path (create parent name (NFile []));
        _ ← copy_exact parent name entry bound path;
        _ ← at_path path (look (λ _, Ok ()));
        _ ← at_path path (look (λ _, Ok ()));
        mret {| ct_entries := ct_entries c; ct_files := files; ct_expanded := expanded |}.

Definition extract_step (c : Counters) (item : result ioError TarEntry) : sync_io Counters :=
  let entries := ct_entries c + 1 in
  let c := {| ct_entries := entries; ct_files := ct_files c; ct_expanded := ct_expanded c |} in
  if MAX_ARCHIVE_ENTRIES <? entries
  then pure (refused ("archive entry limit " +:+ show MAX_ARCHIVE_ENTRIES +:+ " exceeded"))
  else
    entry ← pure (map_err (io_error "archive") item);
    path ← pure (safe_archive_path (path_bytes entry));
    match entry_type entry with
    | DirectoryEntry =>
        if negb (entry_size entry =? 0) then pure (refused "directory entry contains data")
        else _ ← create_relative_dir_all path (components path); mret c
    | RegularEntry => extract_file c path entry
    | OtherEntry => pure (refused "unsupported archive entry type")
    end.

Fixpoint extract_loop (c : Counters) (items : list (result ioError TarEntry)) : sync_io Counters :=
  match items with
  | [] => mret c
  | item :: items => c ← extract_step c item; extract_loop c items
  end.

Fixpoint tail_loop (trailing : Z) (reads : list (result ioError bytes)) : result RegistryError Z :=
  match reads with
  | [] => Ok trailing
  | Err e :: _ => Err (io_error "archive" e)
  | Ok chunk :: reads =>
      let count := size chunk in
      if count =? 0 then Ok trailing
      else
        let trailing := trailing + count in
        if 2 ^ 64 <=? trailing then refused "tar padding counter overflowed"
        else if (MAX_TAR_PADDING_BYTES <? trailing) || existsb (λ b, negb (bool_decide (b = x00))) chunk
        then refused "decompressed bytes after tar end"
        else tail_loop trailing reads
  end.

Definition extract_archive (compressed : bytes) : sync_io () :=
  items ← pure (map_err (io_error "archive") (archive_entries compressed));
  _ ← extract_loop {| ct_entries := 0; ct_files := 0; ct_expanded := 0 |} items;
  trailing ← pure (tail_loop 0 (archive_tail compressed));
  if negb (trailing mod 512 =? 0) then pure (refused "non-canonical tar padding")
  else
    rest ← pure (map_err (io_error "archive") (compressed_tail compressed));
    if negb (size rest =? 0) then pure (refused "trailing compressed bytes are not allowed") else mret ().

(** ** Replacing the registry *)

(** [fs::rename] among the places: nothing moves unless it succeeds. *)
Definition rename_to_backup : prog (result ioError ()) :=
  attempt (λ p,
    match at_destination p, at_backup p with
    | Some old, Some None =>
        Ok ((), {| at_destination := None; at_staging := at_staging p; at_backup := Some (Some old) |})
    | _, _ => Err missing
    end).

Definition rename_staged : prog (result ioError ()) :=
  attempt (λ p,
    match at_staging p, at_destination p with
    | Some new, None =>
        Ok ((), {| at_destination := Some new; at_staging := None; at_backup := at_backup p |})
    | Some _, Some _ => Err existing
    | None, _ => Err missing
    end).

Definition rename_back : prog (result ioError ()) :=
  attempt (λ p,
    match at_backup p, at_destination p with
    | Some (Some old), None =>
        Ok ((), {| at_destination := Some old; at_staging := at_staging p; at_backup := Some None |})
    | _, _ => Err missing
    end).

(** Leaving with the backup directory dropped. *)
Definition dropping_backup {A} (r : result RegistryError A) : sync_io A := λ w,
  let '(_, w) := remove_backup w in (r, w).

Definition install_staged (destination backup : string) (had_old : bool) : sync_io () := λ w,
  let '(installed, w) := rename_staged w in
  match installed with
  | Ok _ =>
      let '(cleaned, w) := remove_backup w in
      (map_err (io_error backup) cleaned, w)
  | Err install_source =>
      if negb had_old then dropping_backup (Err (io_error destination install_source)) w
      else
        let '(rolled, w) := rename_back w in
        match rolled with
        | Err rollback_source =>
            (refused ("install staged registry failed: " +:+ text install_source
                      +:+ "; rollback failed: " +:+ text rollback_source
                      +:+ "; backup retained at " +:+ backup), w)
        | Ok _ =>
            let '(cleaned, w) := remove_backup w in
            match cleaned with
            | Err cleanup_source =>
                (refused ("install staged registry failed: " +:+ text install_source
                          +:+ "; rollback succeeded; backup cleanup failed at " +:+ backup
                          +:+ ": " +:+ text cleanup_source), w)
            | Ok _ => (Err (io_error destination install_source), w)
            end
        end
  end.

Definition replace_directory (destination parent backup : string) : sync_io () := λ w,
  let '(made, w) := attempt (λ p, Ok ((), with_backup (Some None) p)) w in
  match made with
  | Err source => (Err (io_error parent source), w)
  | Ok _ =>
      let '(mode, w) := look (λ _, Ok ()) w in
      match mode with
      | Err source => dropping_backup (Err (io_error backup source)) w
      | Ok _ =>
          let '(found, w) := look (λ p, match at_destination p with Some _ => Ok () | None => Err missing end) w in
          match found with
          | Ok _ =>
              let '(moved, w) := rename_to_backup w in
              match moved with
              | Err source => dropping_backup (Err (io_error destination source)) w
              | Ok _ => install_staged destination backup true w
              end
          | Err source =>
              match kind source with
              | NotFound => install_staged destination backup false w
              | _ => dropping_backup (Err (io_error destination source)) w
              end
          end
      end
  end.

(** ** The whole *)

Section whole.
Context `{LoadEnv} `{MetadataJson} `{Yaml}.

(** [load_from_dir] of the staging directory. *)
Definition load_staged (staging : string) : sync_io (list Broker) := λ w,
  let '(r, t) := load_from_dir staging (at_staging (here w)) (calls w) in
  (r, {| calls := t; here := here w; passed := passed w |}).

(** What happens once the staging directory is there. *)
Definition fill_and_replace (url destination parent staging backup : string) : sync_io () :=
  _ ← at_path staging (look (λ _, Ok ()));
  response ← pure (transport_get url REQUEST_TIMEOUT);
  if negb (status response =? 200)
  then pure (refused ("download returned HTTP " +:+ show (status response)))
  else
    compressed ← pure (read_bounded (body response) MAX_COMPRESSED_BYTES);
    _ ← at_path staging (look (λ _, Ok ()));
    _ ← extract_archive compressed;
    _ ← load_staged staging;
    replace_directory destination parent backup.

(** The staging directory is removed on every way out. *)
Definition dropping_staging {A} (m : sync_io A) : sync_io A := λ w,
  let '(r, w) := m w in
  let '(_, w) := remove_staging w in
  (r, w).

(** [parent], [staging] and [backup] are the destination's parent and the names
    that tempfile picks in it. *)
Definition sync_with_transport (url destination parent staging backup : string) : sync_io () :=
  _ ← pure (validate_url url);
  _ ← at_path parent (look (λ _, Ok ()));
  _ ← at_path parent (attempt (λ p, Ok ((), with_staging (Some (NDir [])) p)));
  dropping_staging (fill_and_replace url destination parent staging backup).

Definition sync (url destination parent staging backup : string) : sync_io () :=
  sync_with_transport (if is_empty url then DEFAULT_SYNC_URL else url) destination parent staging backup.
End whole.
End sync.

(* ------------------------------------------------------------------ *)
(** ** Names in the archive *)

(** A name that leads nowhere but down, on any system. *)
Definition good_name (n : string) : Prop :=
  component_name n ∧ str_existsb (Ascii.eqb zero) n = false ∧ str_existsb (Ascii.eqb "\") n = false.

Lemma str_existsb_cons p c s : str_existsb p (String c s) = p c || str_existsb p s.
Proof. unfold str_existsb. cbn. by rewrite negb_andb, negb_involutive. Qed.

Lemma split_existsb_false p c s :
  str_existsb p s = false → Forall (λ n, str_existsb p n = false) (split c s).
Proof.
  induction s as [|x s IH]; cbn [split]; [by repeat constructor|].
  rewrite str_existsb_cons. intros [Hx Hs]%orb_false_iff. specialize (IH Hs). destruct (Ascii.eqb x c); [by constructor|].
  destruct (split c s) as [|h t]; [constructor; [by rewrite str_existsb_cons, Hx|done]|].
  apply Forall_cons in IH as [Hh Ht]. constructor; [|done]. by rewrite str_existsb_cons, Hx, Hh.
Qed.

Definition nonempty (s : string) : bool := negb (is_empty s).

Lemma push_names_ok path parts path' :
  push_names path parts = Ok path' →
  path' = foldl path_join path (List.filter nonempty parts) ∧
  Forall (λ n, n ≠ "." ∧ n ≠ "..") (List.filter nonempty parts).
Proof.
  revert path. induction parts as [|part parts IH]; intros path; cbn [push_names List.filter].
  { by intros [= <-]. }
  assert (E : nonempty part = negb (is_empty part)) by done. rewrite E. clear E.
  destruct (is_empty part); cbn [negb]; [apply IH|].
  destruct (String.eqb_spec part "."); [done|]. destruct (String.eqb_spec part ".."); [done|].
  intros [-> Hf]%IH. split; [done|]. by constructor.
Qed.

(** An archive path that is accepted is names only, one below the other. *)
Lemma safe_archive_path_ok raw path :
  safe_archive_path raw = Ok path →
  size raw ≤ MAX_PATH_BYTES ∧ ∃ names, names ≠ [] ∧ Forall good_name names ∧
    components path = Normal <$> names ∧ names = List.filter nonempty (split "/" (text_of raw)).
Proof.
  unfold safe_archive_path, refused, validation.
  destruct (size raw =? 0), (Z.ltb_spec MAX_PATH_BYTES (size raw)); try done. cbn [orb].
  destruct (is_utf8 raw); [|done]. cbn [negb]. set (value := text_of raw).
  destruct (str_existsb (Ascii.eqb zero) value) eqn:Hz; [done|].
  destruct (str_existsb (Ascii.eqb "\") value) eqn:Hb; [done|]. cbn [orb].
  destruct (starts_with "/" value || windows_absolute value); [done|].
  intros (p & Hp & Hr)%result_bind_ok. apply push_names_ok in Hp as [Hp Hdots].
  set (names := List.filter nonempty (split "/" value)) in *.
  destruct (existsb is_outside (components p)); [done|]. destruct (is_empty p) eqn:Ee; [done|].
  injection Hr as <-. apply is_empty_false in Ee.
  assert (Forall good_name names) as Hg.
  { apply Forall_forall. intros n Hn. pose proof Hn as Hn'. rewrite Forall_forall in Hdots.
    apply list_elem_of_In, filter_In in Hn' as [Hin Hne]. apply list_elem_of_In in Hin.
    pose proof (split_no_slash value) as Hs. rewrite Forall_forall in Hs.
    apply split_existsb_false with (c := "/"%char) in Hz, Hb. rewrite Forall_forall in Hz, Hb.
    destruct (Hdots n Hn). split; [|by split; [apply Hz|apply Hb]].
    split_and!; [|done|done|by apply Hs]. unfold nonempty in Hne. apply negb_true_iff, is_empty_false in Hne. done. }
  assert (names ≠ []) as Hne by (intros E; rewrite E in Hp; by subst p).
  assert (Forall component_name names) as Hc by (eapply Forall_impl; [done|]; by intros ? []).
  split; [done|]. exists names. split_and!; try done.
  destruct (components_push_relative 0 names Hc ltac:(by right)) as [_ E]. cbn in E.
  rewrite <- E, Hp. f_equal. unfold push_components.
  symmetry. exact (fold_push_parts "" 0 names).
Qed.

(** ** Trees without links *)

(** Directories and bounded files under good names, and nothing else. *)
Inductive good_node : node → Prop :=
| good_dir entries : Forall (λ e : string * node, good_name e.1 ∧ good_node e.2) entries → good_node (NDir entries)
| good_file content : size content ≤ MAX_FILE_BYTES → good_node (NFile content).

Definition good_entries (entries : Entries) : Prop :=
  Forall (λ e : string * node, good_name e.1 ∧ good_node e.2) entries.

Lemma good_node_dir entries : good_node (NDir entries) ↔ good_entries entries.
Proof. split; [by inversion 1|by constructor]. Qed.

Lemma put_good name n entries :
  good_name name → good_node n → good_entries entries → good_entries (put name n entries).
Proof.
  intros Hname Hn He. unfold put. apply Forall_app. split; [|by constructor].
  apply Forall_forall. intros e [Hin _]%list_elem_of_In%filter_In. unfold good_entries in He.
  rewrite Forall_forall in He. by apply He, list_elem_of_In.
Qed.

Lemma change_at_good names f entries :
  (∀ inner, good_entries inner → good_entries (f inner)) →
  good_entries entries → good_entries (change_at names f entries).
Proof.
  intros Hf. revert entries. induction names as [|name names IH]; intros entries He; cbn [change_at]; [by apply Hf|].
  unfold good_entries in *. apply Forall_forall. intros e (x & <- & Hx)%list_elem_of_In%in_map_iff.
  apply list_elem_of_In in Hx. rewrite Forall_forall in He. specialize (He x Hx) as [Hn Hg].
  destruct x as [n [inner| | |]]; try done. destruct (String.eqb n name); [|done].
  split; [done|]. apply good_node_dir, IH. by apply good_node_dir.
Qed.

(** ** What touches the staging directory only *)

Definition good_staging (p : Places) : Prop := ∀ n, at_staging p = Some n → good_node n.

(** Every state between two worlds has the first one's destination and backup, and
    the staged tree stays good. *)
Record stays (w w' : World) : Prop := {
  stays_now : at_destination (here w') = at_destination (here w) ∧ at_backup (here w') = at_backup (here w);
  stays_passed : ∃ l, passed w' = l ++ passed w ∧
    Forall (λ p, at_destination p = at_destination (here w) ∧ at_backup p = at_backup (here w)) l;
  stays_good : good_staging (here w) → good_staging (here w');
}.

#[export] Instance stays_preorder : PreOrder stays.
Proof.
  split.
  - intros w. split; [done|by exists []|done].
  - intros w1 w2 w3 [[D1 B1] (l1 & P1 & F1) G1] [[D2 B2] (l2 & P2 & F2) G2]. split.
    + by rewrite D2, B2, D1, B1.
    + exists (l2 ++ l1). rewrite P2, P1, app_assoc. split; [done|]. apply Forall_app. split; [|done].
      by rewrite D1, B1 in F2.
    + auto.
Qed.

Definition staging_only {A} (m : prog A) : Prop := ∀ w, stays w (m w).2.

Lemma stays_tick w : stays w (tick w).
Proof. split; [done|by exists []|done]. Qed.

Lemma stays_move w n :
  (good_staging (here w) → ∀ n', n = Some n' → good_node n') →
  stays w (move (with_staging n (here w)) w).
Proof. intros Hn. split; [done|by exists [with_staging n (here w)]; repeat constructor|exact Hn]. Qed.

Lemma staging_only_bind {A B} (m : sync_io A) (f : A → sync_io B) :
  staging_only m → (∀ w a, (m w).1 = Ok a → staging_only (f a)) → staging_only (m ≫= f).
Proof.
  intros Hm Hf w. unfold mbind, sync_bind. specialize (Hm w). specialize (Hf w).
  destruct (m w) as [[a|e] w']; [|done]. etrans; [exact Hm|]. by apply (Hf a).
Qed.

Lemma staging_only_pure {A} (r : result RegistryError A) : staging_only (pure r).
Proof. intros w. cbn. reflexivity. Qed.

Lemma staging_only_ret {A} (a : A) : staging_only (mret a : sync_io A).
Proof. intros w. cbn. reflexivity. Qed.

Lemma staging_only_if {A} (c : bool) (m n : sync_io A) :
  staging_only m → staging_only n → staging_only (if c then m else n).
Proof. by destruct c. Qed.

Section facts.
Context `{RustFmt} `{SyncEnv} `{TarGz} `{SyncTransport} `{UriParse}.

Lemma staging_only_look {A} (f : Places → result ioError A) : staging_only (look f).
Proof. intros w. apply stays_tick. Qed.

Lemma staging_only_at {A} path (m : prog (result ioError A)) : staging_only m → staging_only (at_path path m).
Proof. intros Hm w. unfold at_path. specialize (Hm w). by destruct (m w). Qed.

Lemma staged_good p entries : good_staging p → staged p = Ok entries → good_entries entries.
Proof.
  unfold staged, good_staging. intros Hg. destruct (at_staging p) as [[inner| | |]|]; try done.
  intros [= <-]. by apply good_node_dir, Hg.
Qed.

Lemma staging_only_create current name n :
  good_name name → good_node n → staging_only (create current name n).
Proof.
  intros Hname Hn w. unfold create, attempt. destruct (sync_fault (calls w)); [apply stays_tick|].
  destruct (staged (here w)) as [entries|e] eqn:Es; [|apply stays_tick]. cbn.
  destruct (dir_at entries current) as [dir|e]; [|apply stays_tick]. cbn.
  destruct (node_at name dir); [apply stays_tick|]. apply stays_move. intros Hg n' [= <-].
  apply good_node_dir, change_at_good; [intros; by apply put_good|]. by eapply staged_good.
Qed.

Lemma staging_only_write parent name source error :
  good_name name → size source ≤ MAX_FILE_BYTES → staging_only (write_file parent name source error).
Proof.
  intros Hname Hs w. unfold write_file. cbv zeta. destruct (staged (here w)) as [entries|e] eqn:Es; [|apply stays_tick].
  apply stays_move. intros Hg n' [= <-]. apply good_node_dir, change_at_good; [|by eapply staged_good].
  intros inner Hi. apply put_good; [done| |done]. constructor.
  destruct (sync_fault (calls w)); [|done]. unfold size in *. rewrite length_take. lia.
Qed.

#[local] Hint Resolve staging_only_pure staging_only_ret staging_only_look staging_only_at
  staging_only_if staging_only_create staging_only_write : core.

Lemma staging_only_create_loop path current names :
  Forall good_name names → staging_only (create_loop path current (Normal <$> names)).
Proof.
  intros Hn. revert current. induction Hn as [|name names Hname _ IH]; intros current;
    cbn [create_loop fmap list_fmap]; [auto|].
  intros w. pose proof (staging_only_look
    (λ p, entries ← staged p; _ ← dir_at entries (current ++ [name]); Ok (current ++ [name])) w) as Hl.
  fold (open_dir current name) in Hl. destruct (open_dir current name w) as [opened w']. cbn in Hl.
  etrans; [exact Hl|]. destruct opened as [next|source]; [apply IH|].
  destruct (kind source); try reflexivity.
  apply staging_only_bind; [apply staging_only_at, staging_only_create; [done|apply good_node_dir, Forall_nil_2]|].
  intros _ [] _. apply staging_only_bind; [unfold open_dir; auto|]. intros _ next _. apply IH.
Qed.

Lemma staging_only_open_loop path current components :
  staging_only (open_loop path current components).
Proof.
  revert current. induction components as [|c components IH]; intros current; cbn [open_loop]; [auto|].
  destruct c; auto. apply staging_only_bind; [unfold open_dir; auto|]. intros _ next _. apply IH.
Qed.

Lemma staging_only_create_all path names :
  Forall good_name names → staging_only (create_relative_dir_all path (Normal <$> names)).
Proof.
  intros Hn. apply staging_only_bind; [auto|]. intros _ current _.
  apply staging_only_bind; [by apply staging_only_create_loop|auto].
Qed.

Lemma open_parent_dir_ok path names w parent name w' :
  components path = Normal <$> names → Forall good_name names →
  open_parent_dir path w = (Ok (parent, name), w') → good_name name.
Proof.
  intros Hc Hn. unfold open_parent_dir, mbind, sync_bind, pure, file_name. rewrite Hc, fmap_last.
  destruct (last names) as [n|] eqn:El; cbn [fmap option_fmap option_map ok_or]; [|done].
  destruct (create_relative_dir_all _ _ _) as [[|] w1]; [|done]. destruct (at_path _ _ _) as [[|] w2]; [|done].
  destruct (open_loop _ _ _ _) as [[|] w3]; [|done]. intros [= _ <- _].
  apply last_Some_elem_of in El. rewrite Forall_forall in Hn. by apply Hn.
Qed.

Lemma staging_only_open_parent path names :
  components path = Normal <$> names → Forall good_name names → staging_only (open_parent_dir path).
Proof.
  intros Hc Hn. unfold open_parent_dir. apply staging_only_bind; [auto|]. intros _ name _. cbv zeta.
  assert (∃ names', removelast (components path) = Normal <$> names' ∧ Forall good_name names') as (ns & -> & Hns).
  { rewrite Hc. clear -Hn. induction Hn as [|n names Hg Hn (ns & E & Hns)]; [by exists []|].
    destruct names as [|m names]; [by exists []|]. exists (n :: ns). split; [|by constructor].
    cbn [fmap list_fmap] in *. change (removelast (Normal n :: Normal m :: (Normal <$> names)))
      with (Normal n :: removelast (Normal m :: (Normal <$> names))). by rewrite E. }
  apply staging_only_bind; [by apply staging_only_create_all|]. intros _ _ _.
  apply staging_only_bind; [auto|]. intros _ current _.
  apply staging_only_bind; [apply staging_only_open_loop|auto].
Qed.

Lemma staging_only_copy parent name entry bound path :
  good_name name → bound ≤ MAX_FILE_BYTES → staging_only (copy_exact parent name entry bound path).
Proof.
  intros Hn Hb. unfold copy_exact. cbv zeta. apply staging_only_bind; [|auto].
  apply staging_only_at, staging_only_write; [done|]. unfold size. rewrite length_take.
  assert (0 ≤ MAX_FILE_BYTES) by done. lia.
Qed.

Lemma staging_only_file c path names entry :
  components path = Normal <$> names → Forall good_name names → staging_only (extract_file c path entry).
Proof.
  intros Hc Hn. unfold extract_file. cbv zeta.
  destruct (Z.ltb_spec MAX_FILE_BYTES (entry_size entry)) as [|Hs]; [auto|].
  repeat (apply staging_only_if; [auto|]).
  apply staging_only_bind; [by eapply staging_only_open_parent|]. intros w [parent name] Ho.
  destruct (open_parent_dir path w) as [r w'] eqn:E. cbn in Ho. subst r.
  apply open_parent_dir_ok with (names := names) in E; [|done..].
  apply staging_only_bind; [apply staging_only_at, staging_only_create; [done|by constructor]|]. intros _ _ _.
  apply staging_only_bind; [by apply staging_only_copy|]. intros _ _ _.
  do 2 (apply staging_only_bind; [auto|]; intros _ _ _). auto.
Qed.

Lemma staging_only_step c item : staging_only (extract_step c item).
Proof.
  unfold extract_step. cbv zeta. apply staging_only_if; [auto|].
  apply staging_only_bind; [auto|]. intros _ entry _. apply staging_only_bind; [auto|].
  intros w path (_ & names & _ & Hg & Hc & _)%safe_archive_path_ok.
  destruct (entry_type entry); [|by eapply staging_only_file|auto].
  apply staging_only_if; [auto|]. rewrite Hc.
  apply staging_only_bind; [by apply staging_only_create_all|auto].
Qed.

Lemma staging_only_loop c items : staging_only (extract_loop c items).
Proof.
  revert c. induction items as [|item items IH]; intros c; cbn [extract_loop]; [auto|].
  apply staging_only_bind; [apply staging_only_step|]. intros _ c' _. apply IH.
Qed.

Lemma staging_only_archive compressed : staging_only (extract_archive compressed).
Proof.
  unfold extract_archive. apply staging_only_bind; [auto|]. intros _ items _.
  apply staging_only_bind; [apply staging_only_loop|]. intros _ c _.
  apply staging_only_bind; [auto|]. intros _ trailing _. apply staging_only_if; [auto|].
  apply staging_only_bind; auto.
Qed.

(** ** What is extracted *)

Lemma sync_bind_ok {A B} (m : sync_io A) (f : A → sync_io B) w b w' :
  (m ≫= f) w = (Ok b, w') → ∃ a w1, m w = (Ok a, w1) ∧ f a w1 = (Ok b, w').
Proof. unfold mbind, sync_bind. destruct (m w) as [[a|e] w1]; [eauto|done]. Qed.

Lemma pure_ok {A} (r : result RegistryError A) w b w' : pure r w = (Ok b, w') → r = Ok b ∧ w' = w.
Proof. unfold pure. naive_solver. Qed.

Lemma sync_if_ok {A} (c : bool) message (n : sync_io A) w b w' :
  (if c then pure (refused message) else n) w = (Ok b, w') → c = false ∧ n w = (Ok b, w').
Proof. destruct c; [|done]. by intros [? _]%pure_ok. Qed.

Definition is_regular_entry (e : TarEntry) : bool := match entry_type e with RegularEntry => true | _ => false end.

(** An entry that is taken: an empty directory or a file whose data is there, under
    a safe path. *)
Definition taken (e : TarEntry) : Prop :=
  (∃ path, safe_archive_path (path_bytes e) = Ok path) ∧
  match entry_type e with
  | DirectoryEntry => entry_size e = 0
  | RegularEntry => entry_size e ≤ MAX_FILE_BYTES ∧ (Z.to_nat (entry_size e) ≤ length (entry_data e))%nat
  | OtherEntry => False
  end.

Definition count_entry (c : Counters) (e : TarEntry) : Counters :=
  {| ct_entries := ct_entries c + 1;
     ct_files := if is_regular_entry e then ct_files c + 1 else ct_files c;
     ct_expanded := if is_regular_entry e then ct_expanded c + entry_size e else ct_expanded c |}.

Definition within_limits (c : Counters) : Prop :=
  ct_entries c ≤ MAX_ARCHIVE_ENTRIES ∧ ct_files c ≤ MAX_FILES ∧ ct_expanded c ≤ MAX_EXPANDED_BYTES.

Lemma copy_exact_ok parent name entry bound path w w' :
  copy_exact parent name entry bound path w = (Ok (), w') → (Z.to_nat bound ≤ length (entry_data entry))%nat.
Proof.
  unfold copy_exact. cbv zeta. intros (copied & w1 & Hc & Hr)%sync_bind_ok.
  apply sync_if_ok in Hr as [E _]. apply negb_false_iff, Z.eqb_eq in E. subst copied.
  unfold at_path, write_file in Hc. cbv zeta in Hc. destruct (staged (here w)); [|done].
  destruct (sync_fault (calls w)); [done|]. destruct (if _ <? _ then _ else _); [done|].
  injection Hc as E _. unfold size in E. rewrite length_take in E. lia.
Qed.

Lemma extract_step_ok c item w c' w' :
  within_limits c → extract_step c item w = (Ok c', w') →
  ∃ e, item = Ok e ∧ taken e ∧ c' = count_entry c e ∧ within_limits c'.
Proof.
  intros (Le & Lf & Lx). unfold extract_step. cbv zeta. intros [Hle Hr]%sync_if_ok. apply Z.ltb_ge in Hle.
  apply sync_bind_ok in Hr as (e & w1 & [He%map_err_ok ->]%pure_ok & Hr).
  apply sync_bind_ok in Hr as (path & w2 & [Hp ->]%pure_ok & Hr).
  exists e. unfold taken, count_entry, is_regular_entry, within_limits. destruct (entry_type e).
  - apply sync_if_ok in Hr as [Hz%negb_false_iff%Z.eqb_eq Hr].
    apply sync_bind_ok in Hr as (_ & w3 & _ & Hr). injection Hr as <- _. cbn. split_and!; eauto.
  - unfold extract_file in Hr. cbv zeta in Hr. cbn [ct_entries ct_files ct_expanded] in Hr.
    apply sync_if_ok in Hr as [Hs%Z.ltb_ge Hr]. apply sync_if_ok in Hr as [Hf%Z.ltb_ge Hr].
    apply sync_if_ok in Hr as [_ Hr]. apply sync_if_ok in Hr as [Hx%Z.ltb_ge Hr].
    apply sync_bind_ok in Hr as ([parent name] & w3 & _ & Hr).
    apply sync_bind_ok in Hr as (_ & w4 & _ & Hr).
    apply sync_bind_ok in Hr as ([] & w5 & Hc%copy_exact_ok & Hr).
    apply sync_bind_ok in Hr as (_ & w6 & _ & Hr). apply sync_bind_ok in Hr as (_ & w7 & _ & Hr).
    injection Hr as <- _. cbn. split_and!; eauto.
  - by apply pure_ok in Hr as [? _].
Qed.

Lemma extract_loop_ok c items w c' w' :
  within_limits c → extract_loop c items w = (Ok c', w') →
  ∃ entries, items = Ok <$> entries ∧ Forall taken entries ∧ c' = foldl count_entry c entries ∧ within_limits c'.
Proof.
  revert c w. induction items as [|item items IH]; intros c w Hc; cbn [extract_loop].
  { intros [= <- _]. by exists []. }
  intros (c1 & w1 & Hs & Hr)%sync_bind_ok. apply extract_step_ok in Hs as (e & -> & Ht & -> & Hl); [|done].
  apply IH in Hr as (entries & -> & Hts & -> & Hl'); [|done]. exists (e :: entries).
  split_and!; try done. by constructor.
Qed.


(** ** Replacing *)

(** The registry is the old one, still in place or complete in the backup, or the
    new one. *)
Definition kept (old : option node) (new : node) (p : Places) : Prop :=
  at_destination p = old ∨
  (∃ o, old = Some o ∧ at_destination p = None ∧ at_backup p = Some (Some o)) ∨
  at_destination p = Some new.

Definition replaced (old : option node) (new : node) (r : result RegistryError ()) (w w' : World) : Prop :=
  (∀ P : Places → Prop, (∀ p, kept old new p → P p) → Forall P (passed w) → Forall P (passed w')) ∧
  kept old new (here w') ∧
  (r = Ok () → at_destination (here w') = Some new ∧ at_backup (here w') = None ∧ at_staging (here w') = None).

Lemma kept_cons old new (P : Places → Prop) p l :
  (∀ p, kept old new p → P p) → kept old new p → Forall P l → Forall P (p :: l).
Proof. constructor; auto. Qed.

(** The file system's calls, one fault at a time. *)
Ltac calls :=
  repeat first
    [ progress (cbn [mbind result_bind fst snd here passed at_destination at_staging at_backup move tick
        with_backup with_staging negb map_err])
    | match goal with |- context [sync_fault ?n] => destruct (sync_fault n) as [?|] end ].

Ltac kept_one :=
  unfold kept; cbn; first [left; done | right; right; done | right; left; eexists; by split_and!].

Ltac kept_all :=
  unfold replaced, refused, validation; cbn [here passed move tick]; split; [|split];
    [intros P HP Hl; repeat (eapply kept_cons; [exact HP|kept_one|]); exact Hl|kept_one|try done].

Lemma dropping_backup_outcome old new e w :
  at_destination (here w) = old →
  let '(r, w') := dropping_backup (Err e : result RegistryError ()) w in replaced old new r w w'.
Proof.
  destruct w as [n [d s b] l]. unfold dropping_backup, remove_backup, remove_all. cbn.
  intros ->. destruct (sync_fault n); kept_all.
Qed.

Lemma install_fresh_outcome old new destination backup w :
  at_staging (here w) = Some new → at_destination (here w) = old → at_backup (here w) = Some None →
  let '(r, w') := install_staged destination backup false w in replaced old new r w w'.
Proof.
  destruct w as [n [d s b] l]. cbn. intros -> -> ->.
  unfold install_staged, rename_staged, dropping_backup, remove_backup, attempt, remove_all.
  destruct old as [o|]; calls; kept_all.
Qed.

Lemma install_over_outcome o new destination backup w :
  at_staging (here w) = Some new → at_destination (here w) = None → at_backup (here w) = Some (Some o) →
  let '(r, w') := install_staged destination backup true w in replaced (Some o) new r w w'.
Proof.
  destruct w as [n [d s b] l]. cbn. intros -> -> ->.
  unfold install_staged, rename_staged, rename_back, remove_backup, attempt, remove_all. calls; kept_all.
Qed.

Lemma replaced_after old new r w1 w w' :
  (∀ P : Places → Prop, (∀ p, kept old new p → P p) → Forall P (passed w1) → Forall P (passed w)) →
  replaced old new r w w' → replaced old new r w1 w'.
Proof. intros Hp (Hf & ?). split; [|done]. intros P HP Hl. apply Hf; [done|]. by apply (Hp P). Qed.

(** The goal is about a world that some kept states lead to. *)
Ltac after H :=
  let Ho := fresh "Ho" in
  match goal with |- context [let '(_, _) := ?m ?w in _] => pose proof (H w) as Ho; destruct (m w) as [? ?] end;
  cbn in Ho; eapply replaced_after; [|apply Ho; done]; 
  cbn; intros P HP Hl; repeat (eapply kept_cons; [exact HP|kept_one|]); exact Hl.

Lemma replace_outcome old new destination parent backup w :
  at_staging (here w) = Some new → at_destination (here w) = old → at_backup (here w) = None →
  let '(r, w') := replace_directory destination parent backup w in replaced old new r w w'.
Proof.
  destruct w as [n [d s b] l]. cbn. intros -> -> ->.
  unfold replace_directory, attempt, look. cbn. destruct (sync_fault n) as [e|]; [kept_all|]. cbn.
  destruct (sync_fault (S n)) as [e|]; [after (dropping_backup_outcome old new (io_error backup e))|].
  destruct (sync_fault (S (S n))) as [e|].
  { destruct (kind e);
      first [after (install_fresh_outcome old new destination backup)
            |after (dropping_backup_outcome old new (io_error destination e))]. }
  destruct old as [o|]; cbn; [|after (install_fresh_outcome None new destination backup)].
  unfold rename_to_backup, attempt. cbn. destruct (sync_fault _) as [e|]; cbn.
  - after (dropping_backup_outcome (Some o) new (io_error destination e)).
  - after (install_over_outcome o new destination backup).
Qed.

(** ** The whole *)

Section whole.
Context `{LoadEnv} `{MetadataJson} `{Yaml}.

(** A tree without links that loads as a registry. *)
Definition validated (staging : string) (n : node) : Prop :=
  good_node n ∧ ∃ bs t t', load_from_dir staging (Some n) t = (Ok bs, t').

(** The registry in use is the old one, or was just moved to the backup whole, or is
    a validated new one. *)
Definition intact (staging : string) (old : option node) (p : Places) : Prop :=
  at_destination p = old ∨
  (∃ o, old = Some o ∧ at_destination p = None ∧ at_backup p = Some (Some o)) ∨
  ∃ n, validated staging n ∧ at_destination p = Some n.

Definition synced (staging : string) (old : option node) (r : result RegistryError ()) (w w' : World) : Prop :=
  (Forall (intact staging old) (passed w) → Forall (intact staging old) (passed w')) ∧
  intact staging old (here w') ∧
  (r = Ok () → ∃ n, validated staging n ∧ at_destination (here w') = Some n ∧
     at_backup (here w') = None ∧ at_staging (here w') = None).

Lemma kept_intact staging old n p : validated staging n → kept old n p → intact staging old p.
Proof. intros Hv [?|[?|?]]; [by left|by right; left|right; right; eauto]. Qed.

Lemma stays_intact staging w w' :
  stays w w' → let old := at_destination (here w) in
  (Forall (intact staging old) (passed w) → Forall (intact staging old) (passed w')) ∧
  intact staging old (here w').
Proof.
  intros [[Hd _] (l & -> & Hl) _] old. split; [|by left]. intros Hp. apply Forall_app. split; [|done].
  eapply Forall_impl; [exact Hl|]. intros p [E _]. by left.
Qed.

Lemma load_staged_stays staging w : stays w (load_staged staging w).2.
Proof.
  unfold load_staged. destruct (load_from_dir _ _ _) as [r t]. cbn. split; [done|by exists []|done].
Qed.

(** A staging-only step, then the rest. *)
Lemma synced_bind {A} staging (m : sync_io A) (f : A → sync_io ()) w :
  staging_only m →
  (∀ a w1, m w = (Ok a, w1) → stays w w1 →
     let '(r, w') := f a w1 in synced staging (at_destination (here w1)) r w1 w') →
  let '(r, w') := (m ≫= f) w in synced staging (at_destination (here w)) r w w'.
Proof.
  intros Hm Hf. unfold mbind, sync_bind. specialize (Hm w).
  destruct (m w) as [[a|e] w1]; cbn in Hm; [|by destruct (stays_intact staging _ _ Hm)].
  specialize (Hf a w1 eq_refl Hm). destruct (f a w1) as [r w']. destruct Hf as (Hp & Hh & Ho).
  destruct (stays_intact staging _ _ Hm) as [Hp0 _]. destruct Hm as [[Hd _] _ _]. rewrite Hd in *.
  split_and!; auto.
Qed.

Lemma replace_synced staging destination parent backup new w :
  validated staging new → at_staging (here w) = Some new → at_backup (here w) = None →
  let '(r, w') := replace_directory destination parent backup w in
  synced staging (at_destination (here w)) r w w'.
Proof.
  intros Hv Hs Hb. pose proof (replace_outcome (at_destination (here w)) new destination parent backup w Hs eq_refl Hb) as Ho.
  destruct (replace_directory destination parent backup w) as [r w'] eqn:E. clear E.
  destruct Ho as (Hp & Hh & Ho). split_and!.
  - apply Hp. intros p. by apply kept_intact.
  - by eapply kept_intact.
  - intros Hr. exists new. split; [done|]. by apply Ho.
Qed.

Lemma fill_and_replace_synced url destination parent staging backup w :
  at_backup (here w) = None → good_staging (here w) →
  let '(r, w') := fill_and_replace url destination parent staging backup w in
  synced staging (at_destination (here w)) r w w'.
Proof.
  intros Hb Hg. unfold fill_and_replace.
  apply synced_bind; [auto with erase|]. intros _ w1 _ Hw1.
  apply synced_bind; [auto with erase|]. intros response w2 _ Hw2.
  assert (Hf : stays w w2) by by etrans. clear Hw1 Hw2.
  destruct (negb _).
  { cbn. split_and!; [done|by left|done]. }
  apply synced_bind; [auto with erase|]. intros compressed w3 _ Hw3.
  apply synced_bind; [auto with erase|]. intros _ w4 _ Hw4.
  apply synced_bind; [apply staging_only_archive|]. intros _ w5 _ Hw5.
  apply synced_bind; [intros w'; apply load_staged_stays|]. intros bs w6 El Hw6.
  assert (Hs : stays w w5) by (do 3 (etrans; [eassumption|]); done).
  assert (stays w w6) as [[_ Hb6] _ Hg6] by by etrans.
  unfold load_staged in El. destruct (load_from_dir staging (at_staging (here w5)) (calls w5)) as [r t] eqn:Eload.
  injection El as -> <-. cbn [here] in *.
  destruct (at_staging (here w5)) as [n|] eqn:En.
  - cbn in Hb6. eapply (replace_synced staging destination parent backup n {| calls := t; here := here w5; passed := passed w5 |}); [|exact En|exact (eq_trans Hb6 Hb)].
    split; [by apply Hg6 in Hg; apply Hg|eauto].
  - exfalso. clear -Eload. unfold load_from_dir in Eload.
    apply load_bind_ok in Eload as (report & t1 & Hr & _). apply load_reporting_ok in Hr as (? & ? & ? & _). done.
Qed.

Lemma dropping_synced staging old (m : sync_io ()) w :
  (let '(r, w') := m w in synced staging old r w w') →
  let '(r, w') := dropping_staging m w in synced staging old r w w'.
Proof.
  unfold dropping_staging, remove_staging, remove_all. destruct (m w) as [r w1]. intros (Hp & Hh & Ho).
  assert (∀ n, intact staging old (with_staging n (here w1))) as Hi by done.
  assert (∀ n, intact staging old (keep_staging n (here w1))) as Hk.
  { intros n. unfold keep_staging. by destruct (at_staging (here w1)). }
  destruct (sync_fault (calls w1)); unfold synced; cbn; (split_and!; [intros Hl; constructor; auto|auto|]);
    intros Hr; destruct (Ho Hr) as (n & Hv & Hd & Hb & Hs); exists n.
  - unfold keep_staging. by rewrite Hs.
  - by split_and!.
Qed.

(** C20: an update cannot lose the registry.  However the calls fail and wherever the
    process dies on the way, the destination holds the registry it held, or that
    registry lies whole in the backup directory, or the destination holds a new one
    that was extracted without links and loads under the registry's own rules.  A
    synchronisation that succeeds came from an accepted URL, has installed such a
    registry, and leaves neither staging nor backup behind. *)
Theorem sync_spec url destination parent staging backup w :
  passed w = [] → at_staging (here w) = None → at_backup (here w) = None →
  let '(r, w') := sync url destination parent staging backup w in
  Forall (intact staging (at_destination (here w))) (passed w') ∧
  intact staging (at_destination (here w)) (here w') ∧
  (r = Ok () → validate_url (if is_empty url then DEFAULT_SYNC_URL else url) = Ok () ∧
     ∃ n, validated staging n ∧ at_destination (here w') = Some n ∧
       at_backup (here w') = None ∧ at_staging (here w') = None).
Proof.
  intros Hp Hs Hb. unfold sync. set (effective := if is_empty url then _ else _).
  destruct (validate_url effective) as [[]|e] eqn:Eu.
  2: { unfold sync_with_transport, mbind, sync_bind, pure. rewrite Eu, Hp. by split_and!; [|left|]. }
  assert (let '(r, w') := sync_with_transport effective destination parent staging backup w in
    synced staging (at_destination (here w)) r w w') as Hsync.
  { unfold sync_with_transport. apply synced_bind; [auto with erase|]. intros _ w1 [_ ->]%pure_ok _.
    apply synced_bind; [auto with erase|]. intros _ w2 _ Hw2. apply synced_bind.
    { apply staging_only_at. intros w3. unfold attempt. destruct (sync_fault _); [apply stays_tick|].
      apply stays_move. intros _ n [= <-]. apply good_node_dir, Forall_nil_2. }
    intros _ w3 _ Hw3. apply dropping_synced, fill_and_replace_synced.
    - destruct Hw2 as [[_ E2] _ _], Hw3 as [[_ E3] _ _]. by rewrite E3, E2.
    - apply Hw3, Hw2. unfold good_staging. by rewrite Hs. }
  destruct (sync_with_transport _ _ _ _ _ _) as [r w']. destruct Hsync as (Hl & Hh & Ho).
  rewrite Hp in Hl. split_and!; [by apply Hl|done|]. intros Hr. split; [done|by apply Ho].
Qed.
End whole.
End facts.

(* ------------------------------------------------------------------ *)
(** ** A concrete update *)

Module Update.
#[local] Existing Instances Sample.plain_fmt Sample.sample_env Sample.sample_metadata Sample.sample_yaml.

#[local] Instance one_url : UriParse := {|
  parse_uri raw := if String.eqb raw "http://evil.example/x" then Some (Some "http", Some ("evil.example", "evil.example"))
                   else Some (Some "https", Some ("github.com", "github.com")) |}.
#[local] Instance one_response : SyncTransport := {|
  transport_get _ _ := Ok {| status := 200; body := [Ok (lit "archive")] |} |}.

Definition file_entry (path content : string) : result ioError TarEntry :=
  Ok {| path_bytes := lit path; entry_type := RegularEntry; entry_size := len content;
        entry_data := lit content; entry_error := None |}.

Definition entries (extra : list (result ioError TarEntry)) : TarGz := {|
  archive_entries _ := Ok ([file_entry "manifest.json" "{}"; file_entry "schemas/broker.schema.json" "{}";
                            file_entry "brokers/eu/acme.yaml" "acme"] ++ extra);
  archive_tail _ := [Ok (repeat x00 512)];
  compressed_tail _ := Ok [] |}.

(** The system fails at one call, or never. *)
Definition failing_at (n : option nat) : SyncEnv := {|
  sync_fault k := if bool_decide (Some k = n) then Some (io_other "disk full") else None;
  leftover _ := None; partial _ := 0%nat; not_found_text := "not found"; exists_text := "exists";
  link_text := "link"; not_a_directory_text := "not a directory" |}.

Definition old_registry : node := NDir [].

Definition start : World :=
  {| calls := 0; here := {| at_destination := Some old_registry; at_staging := None; at_backup := None |};
     passed := [] |}.

#[local] Notation run n extra :=
  (sync (H0 := failing_at n) (H1 := entries extra) "" "/d/registry" "/d" "/d/.registry-sync-x"
     "/d/.registry-backup-x" start).

Definition ends_with_registry (w : World) : bool :=
  match at_destination (here w) with Some (NDir []) => false | Some _ => true | None => false end.

Example installs : (run None []).1 = Ok () ∧ ends_with_registry (run None []).2 = true.
Proof. split; vm_compute; reflexivity. Qed.

(** A name that climbs out is refused and the old registry stays. *)
Example refuses_traversal :
  (run None [file_entry "../escape" "x"]).1 = Err (Validation "sync" "traversal archive path") ∧
  at_destination (here (run None [file_entry "../escape" "x"]).2) = Some old_registry.
Proof. split; vm_compute; reflexivity. Qed.

(** The replacement is two renames: between them there is no registry in place, only
    the one in the backup directory. *)
Example replacement_has_a_gap :
  existsb (λ p, match at_destination p, at_backup p with None, Some (Some _) => true | _, _ => false end)
    (passed (run None []).2) = true.
Proof. vm_compute. reflexivity. Qed.

Lemma sync_spec_witness :
  ∃ w', run None [] = (Ok (), w') ∧
    ∃ n, at_destination (here w') = Some n ∧ at_backup (here w') = None ∧ at_staging (here w') = None.
Proof.
  pose proof (sync_spec (H0 := failing_at None) (H1 := entries []) "" "/d/registry" "/d" "/d/.registry-sync-x"
    "/d/.registry-backup-x" start eq_refl eq_refl eq_refl) as Hspec.
  assert (Hr : (run None []).1 = Ok ()) by (vm_compute; reflexivity).
  revert Hr Hspec. generalize (run None []). intros [r w'] Hr (_ & _ & Ho).
  destruct (Ho Hr) as (_ & n & _ & Hd & Hb & Hs). exists w'. split; [f_equal; exact Hr|].
  exists n. split_and!; assumption.
Defined.
End Update.
