(* ===== verification/OAuth.v ===== *)
(** OAuth2 for mailboxes: [core/email/oauth2.rs].

    The state file is one file that calls read and replace, one process at a time;
    every call may fail.
    serde_json's reading and writing of it is the class [StateJson], SHA-256 and
    base64 the class [Pkce], the token endpoint a function from the request to its
    reply. *)
From S2P Require Import Prelude.
From S2P Require Import Text.
From S2P Require Import Json.
From S2P Require Import Encryption.
From S2P Require Import Disk.
From S2P Require Import SecretResolve.
From S2P Require Import RegistryValidate.

#[local] Notation length := List.length.

Definition OAUTH2_ERROR_PREFIX : string := "email: oauth2 error".
Definition OAUTH2_STATE_PREFIX : string := "email: oauth2 state error".
Definition DEFAULT_STATE_TTL_SECONDS : Z := 300.
Definition REQUEST_TIMEOUT : Z := 30.

Record ProviderConfig := { auth_url : string; token_url : string; scopes : string }.

Definition provider `{Lowercase} (name : string) : option ProviderConfig :=
  let key := to_lowercase (trim name) in
  if String.eqb key "gmail" then Some
    {| auth_url := "https://accounts.google.com/o/oauth2/v2/auth";
       token_url := "https://oauth2.googleapis.com/token";
       scopes := "https://mail.google.com/ https://www.googleapis.com/auth/gmail.send" |}
  else if String.eqb key "outlook" then Some
    {| auth_url := "https://login.microsoftonline.com/common/oauth2/v2.0/authorize";
       token_url := "https://login.microsoftonline.com/common/oauth2/v2.0/token";
       scopes := "https://outlook.office.com/IMAP.AccessAsUser.All https://outlook.office.com/SMTP.Send offline_access" |}
  else None.

(** [OAuthError] is its message. *)
Definition oauth2_error (message : string) : string := OAUTH2_ERROR_PREFIX +:+ ": " +:+ message.
Definition state_error (message : string) : string := OAUTH2_STATE_PREFIX +:+ ": " +:+ message.

Record TokenReply := { status : Z; body : string }.

(** The parts of [s] between bytes of [seps]. *)
Fixpoint split_any (seps s : string) : list string :=
  match s with
  | "" => [""]
  | String c s =>
      if str_existsb (Ascii.eqb c) seps then "" :: split_any seps s
      else match split_any seps s with
           | part :: parts => String c part :: parts
           | [] => [String c ""]
           end
  end.

Fixpoint split_once_str (needle s : string) : option (string * string) :=
  match strip_prefix needle s with
  | Some rest => Some ("", rest)
  | None =>
      match s with
      | "" => None
      | String c s => '(x, y) ← split_once_str needle s; Some (String c x, y)
      end
  end.

Definition first_part (l : list string) : string := match l with part :: _ => part | [] => "" end.

Definition is_loopback (endpoint : string) : bool :=
  let without_scheme := match split_once_str "://" endpoint with
                        | Some (_, rest) => default rest (fst <$> split_once_str "://" rest)
                        | None => endpoint
                        end in
  let authority := first_part (split_any "/?" without_scheme) in
  let host := match rsplit_once "@" authority with Some (_, host) => host | None => authority end in
  let host := first_part (split ":" host) in
  str_in host ["localhost"; "127.0.0.1"; "[::1]"; "::1"].

(* ------------------------------------------------------------------ *)
(** ** One-time states *)

Record StateRecord := { sr_provider : string; sr_expires_at : Z }.

#[export] Instance StateRecord_eq_dec : EqDecision StateRecord.
Proof. solve_decision. Defined.

Record OAuthStateStore := { os_path : string; os_ttl_seconds : Z }.

Definition OAuthStateStore_new (path : string) : OAuthStateStore :=
  {| os_path := path; os_ttl_seconds := DEFAULT_STATE_TTL_SECONDS |}.
Definition with_ttl_seconds (s : OAuthStateStore) (ttl : Z) : OAuthStateStore :=
  {| os_path := os_path s; os_ttl_seconds := ttl |}.

Notation Records := (gmap string StateRecord).

Class StateJson := {
  records_from_slice : bytes → option Records;
  records_to_vec : Records → result string bytes;
}.

(** What the state file holds, and how many calls were made. *)
Record World := { state_file : option bytes; ticks : nat }.

Class OAuthEnv := {
  oauth_fault : nat → option ioError;
  now_unix : nat → Z;
  fill_bytes : nat → nat → bytes;
}.

Definition prog (A : Type) : Type := World → A * World.
Definition oauth (A : Type) : Type := prog (result string A).

#[export] Instance oauth_ret : MRet oauth := λ A a w, (Ok a, w).
#[export] Instance oauth_bind : MBind oauth := λ A B f m w,
  match m w with (Ok a, w) => f a w | (Err e, w) => (Err e, w) end.

Definition pure {A} (m : result string A) : oauth A := λ w, (m, w).
Definition tick (w : World) : World := {| state_file := state_file w; ticks := S (ticks w) |}.

Section states.
Context `{StateJson} `{OAuthEnv}.

(** A call without effect on the state file. *)
Definition call : prog (result ioError ()) := λ w,
  (match oauth_fault (ticks w) with Some e => Err e | None => Ok () end, tick w).

Definition naming {A} (prefix : string) (m : prog (result ioError A)) : oauth A := λ w,
  let '(r, w) := m w in (map_err (λ e, state_error (prefix +:+ text e)) r, w).

Definition now : oauth Z := λ w, (Ok (now_unix (ticks w)), tick w).

Definition ttl (s : OAuthStateStore) : Z :=
  if 0 <? os_ttl_seconds s then os_ttl_seconds s else DEFAULT_STATE_TTL_SECONDS.

(** [fs::read] of the state file. *)
Definition read_file : prog (result ioError bytes) := λ w,
  (match oauth_fault (ticks w) with
   | Some e => Err e
   | None => match state_file w with Some raw => Ok raw | None => Err (IoError NotFound "not found") end
   end, tick w).

Definition read_records : oauth Records := λ w,
  let '(r, w) := read_file w in
  (match r with
   | Ok [] => Ok ∅
   | Ok raw => ok_or (state_error "invalid state file") (records_from_slice raw)
   | Err error =>
       match kind error with
       | NotFound => Ok ∅
       | _ => Err (state_error ("read state file: " +:+ text error))
       end
   end, w).

(** [temp.persist]: the rename of the written file over the old one. *)
Definition persist (raw : bytes) : prog (result ioError ()) := λ w,
  match oauth_fault (ticks w) with
  | Some e => (Err e, tick w)
  | None => (Ok (), {| state_file := Some raw; ticks := S (ticks w) |})
  end.

Definition update (s : OAuthStateStore) (apply : Records → result string Records) : oauth () :=
  if is_empty (os_path s) then pure (Err (state_error "state path is empty"))
  else
    _ ← naming "state directory: " call;
    records ← read_records;
    records ← pure (apply records);
    raw ← pure (map_err (λ e, state_error ("encode state file: " +:+ e)) (records_to_vec records));
    _ ← naming "create state file: " call;
    _ ← naming "state permissions: " call;
    _ ← naming "write state file: " call;
    _ ← naming "close state file: " call;
    _ ← (λ w, let '(_, w) := call w in (Ok (), w));
    naming "commit state file: " (persist raw).

Definition store (s : OAuthStateStore) (state provider : string) : oauth () :=
  if is_empty state || is_empty provider then pure (Err (state_error "state and provider are required"))
  else
    now ← now;
    let expires_at := wrap_i64 (now + ttl s) in
    update s (λ records,
      Ok (<[state := {| sr_provider := provider; sr_expires_at := expires_at |}]> records)).

Definition take_state (state : string) (now : Z) (records : Records) : result string Records :=
  match records !! state with
  | None => Err (state_error "state mismatch (possible CSRF attack)")
  | Some record =>
      if sr_expires_at record <? now then Err (state_error "state expired (possible CSRF attack)")
      else Ok (delete state records)
  end.

Definition validate (s : OAuthStateStore) (state : string) : oauth () :=
  if is_empty state then pure (Err (state_error "missing state (possible CSRF attack)"))
  else now ← now; update s (take_state state now).
End states.

(** The environment's XDG_DATA_HOME and HOME. *)
Definition default_state_path (xdg_data_home home : option string) : string :=
  match filter_nonempty xdg_data_home with
  | Some base => path_join (path_join base "symeraseme") "oauth2_state.json"
  | None =>
      match filter_nonempty home with
      | Some home =>
          path_join (path_join (path_join (path_join home ".local") "share") "symeraseme") "oauth2_state.json"
      | None => path_join (path_join "." ".symeraseme") "oauth2_state.json"
      end
  end.

(* ------------------------------------------------------------------ *)
(** ** Requests *)

Definition upper_hex (n : N) : ascii := ascii_of_N (if (n <? 10)%N then 48 + n else 55 + n).

Definition unreserved (c : ascii) : bool :=
  is_ascii_alphabetic c || is_ascii_digit c || str_existsb (Ascii.eqb c) "-_.~".

Definition escape_byte (c : ascii) : string :=
  if unreserved c then String c ""
  else if Ascii.eqb c " " then "+"
  else String "%" (String (upper_hex (N_of_ascii c / 16)) (String (upper_hex (N_of_ascii c mod 16)) "")).

Fixpoint query_escape (value : string) : string :=
  match value with "" => "" | String c rest => escape_byte c +:+ query_escape rest end.

Definition by_key (a b : string * string) : bool := str_leb a.1 b.1.

Definition encode_pair (f : string * string) : string := query_escape f.1 +:+ "=" +:+ query_escape f.2.

Definition encode_form (fields : list (string * string)) : string :=
  join "&" (List.map encode_pair (sort_by by_key fields)).

Class Pkce := {
  sha256_digest : string → bytes;
  url_safe_no_pad : bytes → string;
}.

Definition pkce_challenge `{Pkce} (verifier : string) : string := url_safe_no_pad (sha256_digest verifier).

Section client.
Context `{RustFmt} `{Lowercase} `{SerdeJson} `{StateJson} `{OAuthEnv} `{Pkce}.
(** [TokenTransport::post_form] *)
Context (post_form : string → string → Z → result () TokenReply).

Definition known_provider (name : string) : result string ProviderConfig :=
  ok_or (oauth2_error ("unknown provider " +:+ debug_str name)) (provider name).

Definition random (n : nat) : oauth bytes := λ w, (Ok (fill_bytes (ticks w) n), tick w).

Definition authorise_url (states : OAuthStateStore) (provider_name client_id redirect_uri : string) :
    oauth (string * string) :=
  config ← pure (known_provider provider_name);
  verifier_bytes ← random 64;
  let verifier := url_safe_no_pad verifier_bytes in
  state_bytes ← random 16;
  let state := url_safe_no_pad state_bytes in
  _ ← store states state (to_lowercase (trim provider_name));
  let params :=
    [("access_type", "offline"); ("client_id", client_id);
     ("code_challenge", pkce_challenge verifier); ("code_challenge_method", "S256");
     ("prompt", "consent"); ("redirect_uri", redirect_uri); ("response_type", "code");
     ("scope", scopes config); ("state", state)] in
  mret (auth_url config +:+ "?" +:+ encode_form params, verifier).

Definition token_request (endpoint : string) (fields : list (string * string)) (operation : string)
    (timeout : Z) : result string (list (string * value)) :=
  reply ← map_err (λ _, oauth2_error (operation +:+ " failed"))
            (post_form endpoint (encode_form fields) timeout);
  if negb ((200 <=? status reply) && (status reply <? 300))
  then Err (oauth2_error (operation +:+ " returned HTTP " +:+ show (status reply)))
  else
    match go_map_order (default JNull (from_str (body reply))) with
    | JObject map => Ok map
    | _ => Err (oauth2_error (operation +:+ " returned invalid JSON"))
    end.

Definition exchange_code (timeout : Z)
    (provider_name code client_id client_secret redirect_uri verifier : string) :
    result string (list (string * value)) :=
  config ← known_provider provider_name;
  let params := [("code", code); ("client_id", client_id); ("client_secret", client_secret);
                 ("redirect_uri", redirect_uri); ("grant_type", "authorization_code")] in
  let params := if is_empty verifier then params else params ++ [("code_verifier", verifier)] in
  token_request (token_url config) params "token exchange" timeout.

Definition refresh_access_token (timeout : Z)
    (provider_name client_id client_secret refresh_token : string) :
    result string (list (string * value)) :=
  config ← known_provider provider_name;
  token_request (token_url config)
    [("refresh_token", refresh_token); ("client_id", client_id); ("client_secret", client_secret);
     ("grant_type", "refresh_token")] "token refresh" timeout.
End client.

(* ------------------------------------------------------------------ *)
(** ** A state is good for one use *)

(** serde_json reads back what it wrote, which is never empty. *)
Class StateJsonLaws `{StateJson} := {
  records_roundtrip records raw :
    records_to_vec records = Ok raw → raw ≠ [] ∧ records_from_slice raw = Some records;
}.

(** The records the state file holds. *)
Definition recorded `{StateJson} (file : option bytes) : Records :=
  match file with
  | None | Some [] => ∅
  | Some raw => default ∅ (records_from_slice raw)
  end.

Section facts.
Context `{StateJsonLaws} `{OAuthEnv}.

Lemma oauth_bind_ok {A B} (m : oauth A) (f : A → oauth B) w b w' :
  (m ≫= f) w = (Ok b, w') ↔ ∃ a w1, m w = (Ok a, w1) ∧ f a w1 = (Ok b, w').
Proof.
  unfold mbind, oauth_bind. destruct (m w) as [[a|e] w1]; [|naive_solver]. split; [eauto|naive_solver].
Qed.

(** A program that leaves the state file alone. *)
Definition reads_only {A} (m : prog A) : Prop := ∀ w, state_file (m w).2 = state_file w.

Lemma bind_cases {A B} (m : oauth A) (f : A → oauth B) w r w' :
  reads_only m → (m ≫= f) w = (r, w') →
  state_file w' = state_file w ∧ (∃ e, r = Err e) ∨
  ∃ a w1, m w = (Ok a, w1) ∧ state_file w1 = state_file w ∧ f a w1 = (r, w').
Proof.
  intros Hm. unfold mbind, oauth_bind. specialize (Hm w). destruct (m w) as [[a|e] w1]; cbn in *; [eauto 10|].
  intros [= <- <-]. left. eauto.
Qed.

Lemma naming_reads_only {A} prefix (m : prog (result ioError A)) : reads_only m → reads_only (naming prefix m).
Proof. intros Hm w. unfold naming. specialize (Hm w). by destruct (m w). Qed.

Lemma call_reads_only : reads_only call.
Proof. done. Qed.

Lemma pure_reads_only {A} (r : result string A) : reads_only (pure r).
Proof. done. Qed.

Lemma read_records_reads_only : reads_only read_records.
Proof. done. Qed.

(** What was read is what the file holds, or nothing when it was reported missing. *)
Lemma read_records_ok w records w' :
  read_records w = (Ok records, w') → records = recorded (state_file w) ∨ records = ∅.
Proof.
  unfold read_records, read_file, recorded. destruct (oauth_fault (ticks w)) as [e|].
  { destruct (kind e); try done. intros [= <- _]. by right. }
  destruct (state_file w) as [[|x raw]|]; cbn; [intros [= <- _]; by right| |intros [= <- _]; by right].
  destruct (records_from_slice (x :: raw)); [|done]. intros [= <- _]. by left.
Qed.

(** An update changes nothing, or replaces the file by the changed records. *)
Lemma update_spec s apply w r w' :
  update s apply w = (r, w') →
  state_file w' = state_file w ∧ r ≠ Ok () ∨
  r = Ok () ∧ ∃ records records' raw, (records = recorded (state_file w) ∨ records = ∅) ∧
    apply records = Ok records' ∧ records_to_vec records' = Ok raw ∧ state_file w' = Some raw ∧
    recorded (state_file w') = records'.
Proof.
  unfold update. destruct (is_empty (os_path s)); [intros [= <- <-]; by left|].
  assert (∀ e : string, Err e ≠ Ok ()) as Hne by done.
  assert (∀ prefix, reads_only (naming prefix call)) as Hcall
    by (intros; apply naming_reads_only, call_reads_only).
  intros [[-> (e & ->)]|(_ & w1 & _ & E1 & E)]%bind_cases; [by left| |done].
  apply bind_cases in E as [[E2 (e & ->)]|(records & w2 & Hr & E2 & E)];
    [left; split; congruence| |apply read_records_reads_only].
  apply bind_cases in E as [[E3 (e & ->)]|(records' & w3 & Ha & E3 & E)];
    [left; split; congruence| |apply pure_reads_only].
  apply bind_cases in E as [[E4 (e & ->)]|(raw & w4 & Hv & E4 & E)];
    [left; split; congruence| |apply pure_reads_only].
  do 4 (apply bind_cases in E as [[?Ex (e & ->)]|(_ & ?w & _ & ?Ex & E)]; [left; split; congruence| |done]).
  apply bind_cases in E as [[Ey (e & ->)]|(_ & w9 & _ & E9 & E)]; [left; split; congruence| |done].
  pose proof Hr as Hr'. apply read_records_ok in Hr'. unfold pure in Ha, Hv. injection Ha as Ha _. injection Hv as Hv _.
  apply map_err_ok in Hv. unfold naming, persist in E. destruct (oauth_fault (ticks w9)) as [e|].
  { injection E as <- <-. left. split; [cbn; congruence|done]. }
  injection E as <- <-. right. split; [done|]. exists records, records', raw.
  destruct (records_roundtrip _ _ Hv) as [Hraw Hrt].
  rewrite E1 in Hr'. split_and!; try done. cbn. destruct raw; [done|]. by rewrite Hrt.
Qed.

Lemma now_ok w n w' : now w = (Ok n, w') → n = now_unix (ticks w) ∧ w' = tick w.
Proof. unfold now. naive_solver. Qed.

(** A state is accepted when it is recorded and not expired, and it is then gone. *)
Lemma validate_spec s state w r w' :
  validate s state w = (r, w') →
  state_file w' = state_file w ∧ r ≠ Ok () ∨
  r = Ok () ∧ ∃ record, recorded (state_file w) !! state = Some record ∧
    now_unix (ticks w) ≤ sr_expires_at record ∧
    recorded (state_file w') = delete state (recorded (state_file w)).
Proof.
  unfold validate. destruct (is_empty state); [intros [= <- <-]; by left|]. unfold mbind, oauth_bind, now.
  intros [?|(-> & records & records' & raw & Hr & Ha & _ & _ & E)]%update_spec; [by left|]. right. split; [done|].
  unfold take_state in Ha. destruct (records !! state) as [record|] eqn:El; [|done].
  destruct (Z.ltb_spec (sr_expires_at record) (now_unix (ticks w))) as [|Hexp]; [done|]. injection Ha as <-.
  cbn [state_file tick] in Hr. destruct Hr as [-> | ->]; [|done]. by exists record.
Qed.

(** Storing touches no other state, save that a file reported missing is started anew. *)
Lemma store_spec s state provider w r w' :
  store s state provider w = (r, w') →
  state_file w' = state_file w ∧ r ≠ Ok () ∨
  r = Ok () ∧ ∃ records, (records = recorded (state_file w) ∨ records = ∅) ∧
    recorded (state_file w') =
      <[state := {| sr_provider := provider;
                    sr_expires_at := wrap_i64 (now_unix (ticks w) + ttl s) |}]> records.
Proof.
  unfold store. destruct (_ || _); [intros [= <- <-]; by left|]. unfold mbind, oauth_bind, now.
  intros [?|(-> & records & records' & raw & Hr & Ha & _ & _ & E)]%update_spec; [by left|]. right. split; [done|].
  exists records. split; [done|]. rewrite E. by injection Ha as <-.
Qed.

(** ** Any sequence of calls *)

Inductive operation := Store (state provider : string) | Validate (state : string).

Definition perform (s : OAuthStateStore) (op : operation) : oauth () :=
  match op with Store state provider => store s state provider | Validate state => validate s state end.

Fixpoint perform_all (s : OAuthStateStore) (ops : list operation) (w : World) :
    list (operation * bool) * World :=
  match ops with
  | [] => ([], w)
  | op :: ops =>
      let '(r, w) := perform s op w in
      let '(log, w) := perform_all s ops w in
      ((op, is_ok r) :: log, w)
  end.

(** How often a state was accepted, and how often it was stored. *)
Definition accepted (state : string) (log : list (operation * bool)) : nat :=
  length (List.filter (λ e, match e with (Validate st, true) => String.eqb st state | _ => false end) log).
Definition issued (state : string) (log : list (operation * bool)) : nat :=
  length (List.filter (λ e, match e with (Store st _, true) => String.eqb st state | _ => false end) log).

Definition live (state : string) (w : World) : nat :=
  match recorded (state_file w) !! state with Some _ => 1 | None => 0 end.

Lemma live_le state w : (live state w ≤ 1)%nat.
Proof. unfold live. destruct (_ !! _); lia. Qed.

(** C27: an authorization state is good for one use.  In any sequence of storing and
    validating, with any faults and any clock, a state is accepted no more often than
    it was issued - counting one issue for a state that was on file at the start. *)
Theorem state_single_use s state ops w :
  let '(log, w') := perform_all s ops w in
  (accepted state log + live state w' ≤ issued state log + live state w)%nat.
Proof.
  revert w. induction ops as [|op ops IH]; intros w; cbn [perform_all]; [cbn; lia|].
  destruct (perform s op w) as [r w1] eqn:E. specialize (IH w1). destruct (perform_all s ops w1) as [log w2].
  unfold accepted, issued in *. destruct op as [st provider|st]; cbn [perform] in E.
  - apply store_spec in E as [[Ef Hne]|(-> & records & Hr & Er)].
    + assert (live state w1 = live state w) as <- by (unfold live; by rewrite Ef).
      destruct r as [[]|]; [done|]. cbn. lia.
    + cbn [is_ok List.filter]. destruct (String.eqb_spec st state) as [->|Hst].
      * pose proof (live_le state w1). cbn [length]. lia.
      * enough (live state w1 ≤ live state w)%nat by lia. unfold live. rewrite Er, lookup_insert_ne by done.
        destruct Hr as [-> | ->]; [done|]. rewrite lookup_empty. lia.
  - apply validate_spec in E as [[Ef Hne]|(-> & record & El & _ & Er)].
    + assert (live state w1 = live state w) as <- by (unfold live; by rewrite Ef).
      destruct r as [[]|]; [done|]. cbn. lia.
    + cbn [is_ok List.filter]. destruct (String.eqb_spec st state) as [->|Hst].
      * assert (live state w1 = 0%nat) as Hl by (unfold live; by rewrite Er, lookup_delete_eq).
        assert (live state w = 1%nat) as Hl' by (unfold live; by rewrite El). cbn [length]. lia.
      * assert (live state w1 = live state w) as <- by (unfold live; by rewrite Er, lookup_delete_ne).
        cbn. lia.
Qed.

(** A state that is refused - because it is expired, say - stays on file. *)
Theorem validate_refused_stays s state w e w' :
  validate s state w = (Err e, w') → state_file w' = state_file w.
Proof. by intros [[? _]|[? _]]%validate_spec. Qed.
End facts.

(* ------------------------------------------------------------------ *)
(** ** Forms *)

Definition hex_value (c : ascii) : option N :=
  let n := N_of_ascii c in
  if is_ascii_digit c then Some (n - 48)%N else if (65 <=? n)%N && (n <=? 70)%N then Some (n - 55)%N else None.

(** What a server reads. *)
Fixpoint query_unescape (s : string) : option string :=
  match s with
  | "" => Some ""
  | String c rest =>
      if Ascii.eqb c "%" then
        match rest with
        | String h (String l rest) =>
            h ← hex_value h; l ← hex_value l; s ← query_unescape rest;
            Some (String (ascii_of_N (16 * h + l)) s)
        | _ => None
        end
      else s ← query_unescape rest; Some (String (if Ascii.eqb c "+" then " "%char else c) s)
  end.

Definition decode_pair (s : string) : option (string * string) :=
  '(k, v) ← split_once "=" s; k ← query_unescape k; v ← query_unescape v; Some (k, v).

Definition decode_form (s : string) : option (list (string * string)) := mapM decode_pair (split "&" s).

(** What the escape of a byte reads back as. *)
Definition reads_back (c : ascii) : bool :=
  match escape_byte c with
  | String p "" => negb (Ascii.eqb p "%") && Ascii.eqb (if Ascii.eqb p "+" then " "%char else p) c
  | String p (String h (String l "")) =>
      Ascii.eqb p "%" &&
      match hex_value h, hex_value l with
      | Some h, Some l => Ascii.eqb (ascii_of_N (16 * h + l)) c
      | _, _ => false
      end
  | _ => false
  end.

Lemma all_read_back c : reads_back c = true.
Proof. destruct c as [[] [] [] [] [] [] [] []]; vm_compute; reflexivity. Qed.

Lemma unescape_byte c t : query_unescape (escape_byte c +:+ t) = String c <$> query_unescape t.
Proof.
  pose proof (all_read_back c) as Hc. unfold reads_back in Hc.
  destruct (escape_byte c) as [|p [|h [|l [|]]]]; try done.
  - apply andb_true_iff in Hc as [Hp Hc%Ascii.eqb_eq]. apply negb_true_iff in Hp. cbn [append query_unescape].
    rewrite Hp, Hc. by destruct (query_unescape t).
  - apply andb_true_iff in Hc as [Hp Hc]. cbn [append query_unescape]. rewrite Hp.
    destruct (hex_value h) as [x|]; [|done]. destruct (hex_value l) as [y|]; [|done].
    apply Ascii.eqb_eq in Hc. cbn. rewrite Hc. by destruct (query_unescape t).
Qed.

Lemma query_unescape_escape s : query_unescape (query_escape s) = Some s.
Proof. induction s as [|c s IH]; [done|]. cbn [query_escape]. by rewrite unescape_byte, IH. Qed.

(** The bytes an escaped text is made of. *)
Definition form_byte (c : ascii) : bool := negb (Ascii.eqb c "&") && negb (Ascii.eqb c "=").

Lemma escape_byte_form c : str_forallb form_byte (escape_byte c) = true.
Proof. destruct c as [[] [] [] [] [] [] [] []]; vm_compute; reflexivity. Qed.

Lemma escape_form s : str_forallb form_byte (query_escape s) = true.
Proof.
  induction s as [|c s IH]; [done|]. cbn [query_escape]. by rewrite str_forallb_app, escape_byte_form, IH.
Qed.

Lemma forallb_weaken (p q : ascii → bool) s :
  (∀ c, p c = true → q c = true) → str_forallb p s = true → str_forallb q s = true.
Proof.
  intros Hpq. induction s as [|c s IH]; [done|]. cbn. rewrite !andb_true_iff. naive_solver.
Qed.

Lemma decode_encode_pair f : decode_pair (encode_pair f) = Some f.
Proof.
  unfold decode_pair, encode_pair. destruct f as [k v]. cbn [fst snd].
  change ("=" +:+ query_escape v) with (String "=" (query_escape v)). rewrite split_once_app.
  - cbn. by rewrite !query_unescape_escape.
  - eapply forallb_weaken, escape_form. intros c. unfold form_byte. rewrite andb_true_iff. by intros [].
Qed.

Lemma decode_encoded fields :
  fields ≠ [] → decode_form (encode_form fields) = Some (sort_by by_key fields).
Proof.
  intros Hne. unfold decode_form, encode_form. rewrite (split_join "&").
  - induction (sort_by by_key fields) as [|f l IH]; [done|]. cbn [List.map mapM].
    rewrite decode_encode_pair. cbn. by rewrite IH.
  - destruct fields as [|f fields]; [done|]. intros E.
    pose proof (sort_by_length by_key (f :: fields)) as Hl. destruct (sort_by _ _); done.
  - apply Forall_forall. intros s (f & <- & _)%list_elem_of_In%in_map_iff. unfold encode_pair.
    rewrite !str_forallb_app.
    assert (∀ t, str_forallb (λ d, negb (Ascii.eqb d "&")) (query_escape t) = true) as Hq.
    { intros t. eapply forallb_weaken, escape_form. intros c. unfold form_byte. rewrite andb_true_iff. by intros []. }
    by rewrite !Hq.
Qed.

(** What is sent is what was meant.  Decoding an encoded form gives its fields
    back, in the order of their names and, for one name, in the order given. *)
Theorem decode_encode_form fields :
  fields ≠ [] → decode_form (encode_form fields) = Some (sort_by by_key fields).
Proof. apply decode_encoded. Qed.

(* ------------------------------------------------------------------ *)
(** ** The client *)

Section client_facts.
Context `{RustFmt} `{Lowercase} `{SerdeJson} `{StateJsonLaws} `{OAuthEnv} `{Pkce}.

(** A server's words never reach an error: whatever an endpoint answers, the error of
    a request tells the operation and, at most, the status. *)
Theorem token_request_silent post_form endpoint fields operation timeout e :
  token_request post_form endpoint fields operation timeout = Err e →
  e = oauth2_error (operation +:+ " failed") ∨
  (∃ n, ¬ 200 ≤ n < 300 ∧ e = oauth2_error (operation +:+ " returned HTTP " +:+ show n)) ∨
  e = oauth2_error (operation +:+ " returned invalid JSON").
Proof.
  unfold token_request. destruct (post_form _ _ _) as [reply|[]]; [|intros [= <-]; by left]. cbn.
  destruct (Z.leb_spec 200 (status reply)), (Z.ltb_spec (status reply) 300); cbn;
    try (intros [= <-]; right; left; exists (status reply); split; [lia|done]).
  destruct (go_map_order _); try (intros [= <-]; by right; right).
Qed.

(** An authorization can be finished.  When a URL is given out, its query decodes
    to the client's own parameters with the S256 challenge of the returned verifier,
    and the state in it is on file for the provider, to expire after the lifetime. *)
Theorem authorise_url_spec states name client_id redirect_uri w url verifier w' :
  authorise_url states name client_id redirect_uri w = (Ok (url, verifier), w') →
  ∃ config state t query, provider name = Some config ∧ url = auth_url config +:+ "?" +:+ query ∧
    decode_form query = Some
      [("access_type", "offline"); ("client_id", client_id); ("code_challenge", pkce_challenge verifier);
       ("code_challenge_method", "S256"); ("prompt", "consent"); ("redirect_uri", redirect_uri);
       ("response_type", "code"); ("scope", scopes config); ("state", state)] ∧
    recorded (state_file w') !! state =
      Some {| sr_provider := to_lowercase (trim name); sr_expires_at := wrap_i64 (now_unix t + ttl states) |}.
Proof.
  unfold authorise_url, known_provider. intros (config & w1 & Hc & E)%oauth_bind_ok.
  unfold pure in Hc. injection Hc as Hc <-. destruct (provider name) as [config'|] eqn:Ep; [|done].
  injection Hc as ->. apply oauth_bind_ok in E as (vb & w2 & _ & E). cbv zeta in E.
  apply oauth_bind_ok in E as (sb & w3 & _ & E). apply oauth_bind_ok in E as ([] & w4 & Hs & E).
  injection E as <- <- <-. eexists config, (url_safe_no_pad sb), (ticks w3), _.
  split; [done|]. split; [reflexivity|]. split.
  - rewrite decode_encoded by done. reflexivity.
  - apply store_spec in Hs as [[_ ?]|(_ & records & _ & ->)]; [done|]. by rewrite lookup_insert_eq.
Qed.
End client_facts.

(* ------------------------------------------------------------------ *)
(** ** A concrete state file *)

Module Concrete.
#[local] Instance record_countable : Countable StateRecord.
Proof.
  refine (inj_countable' (λ r, (sr_provider r, sr_expires_at r))
    (λ p, {| sr_provider := p.1; sr_expires_at := p.2 |}) _). by intros [].
Defined.

(** One byte per bit. *)
Fixpoint bits (p : positive) : bytes :=
  match p with xH => [Byte.x02] | xO p => Byte.x00 :: bits p | xI p => Byte.x01 :: bits p end.

Fixpoint unbits (l : bytes) : option positive :=
  match l with
  | [] => None
  | Byte.x00 :: l => xO <$> unbits l
  | Byte.x01 :: l => xI <$> unbits l
  | _ :: _ => Some xH
  end.

#[local] Instance bit_json : StateJson := {|
  records_from_slice raw := unbits raw ≫= decode;
  records_to_vec records := Ok (bits (encode records)) |}.

#[local] Instance bit_laws : StateJsonLaws.
Proof.
  split. intros records raw [= <-].
  assert (∀ p, bits p ≠ [] ∧ unbits (bits p) = Some p) as Hb.
  { intros p. induction p as [p [_ IH]|p [_ IH]|]; cbn; by rewrite ?IH. }
  destruct (Hb (encode records)) as [Hne Hu]. split; [done|]. cbn. rewrite Hu. cbn. apply decode_encode.
Qed.

(** A system without faults whose clock shows these seconds. *)
Definition clock (seconds : list Z) : OAuthEnv := {|
  oauth_fault _ := None; now_unix n := nth n seconds 1000; fill_bytes _ n := repeat Byte.x00 n |}.

Definition states : OAuthStateStore := OAuthStateStore_new "/d/oauth2_state.json".

Definition outcomes (seconds : list Z) (ops : list operation) : list bool :=
  (perform_all (H := bit_json) (H1 := clock seconds) states ops {| state_file := None; ticks := 0 |}).1.*2.

Example used_once : outcomes [] [Store "s" "gmail"; Validate "s"; Validate "s"] = [true; true; false].
Proof. vm_compute. reflexivity. Qed.

(** A state refused as expired stays on file: when the clock is set back it is
    accepted after all. *)
Example expired_is_not_consumed :
  outcomes (repeat 100 9 ++ repeat 500 3 ++ repeat 200 9) [Store "s" "gmail"; Validate "s"; Validate "s"] =
  [true; false; true].
Proof. vm_compute. reflexivity. Qed.

Lemma state_single_use_witness :
  let '(log, w') := perform_all (H := bit_json) (H1 := clock []) states
    [Store "s" "gmail"; Validate "s"; Validate "s"] {| state_file := None; ticks := 0 |} in
  (accepted "s" log + live (H := bit_json) "s" w' ≤ issued "s" log + 0)%nat.
Proof.
  exact (state_single_use (H0 := bit_laws) (H1 := clock []) states "s"
    [Store "s" "gmail"; Validate "s"; Validate "s"] {| state_file := None; ticks := 0 |}).
Defined.

Lemma decode_encode_form_witness :
  [("state", "a b&c"); ("code", "=+%")] ≠ [] ∧
  decode_form (encode_form [("state", "a b&c"); ("code", "=+%")]) =
    Some [("code", "=+%"); ("state", "a b&c")].
Proof. split; [discriminate|]. apply (decode_encode_form [("state", "a b&c"); ("code", "=+%")]). discriminate. Defined.
End Concrete.
